(* ===== verification/_CoqProject ===== *)
-Q . S2P
Prelude.v
Utils.v
PrefixInt.v
VarInt.v
SortedMap.v
ByteMap.v
QuicPacket.v
QuicCrypto.v
QuicFrame.v
PnSpace.v
QuicCongestion.v
QuicStream.v
QuicStreamShape.v
TransportParams.v
QuicConn.v
QuicConnStreams.v
QuicConnNumbers.v
QuicConnTimer.v
QuicConnSteps.v
QuicConnFlow.v
QuicConnErrors.v
QuicConnLife.v
Listener.v
ListenerSafety.v
H3Frame.v
Chunking.v
Huffman.v
Qpack.v
Http3Server.v
Http3Delivery.v
Http3Safety.v
Hpack.v
ResponseWriter.v
Http1.v
Http1Server.v
WsFrame.v
WsHandshake.v
WsServer.v
Http2Frame.v
Http2Server.v
Buffers.v
LinkedQueue.v
Parking.v
Resume.v
Coroutine.v
PlatformIO.v
Resources.v
Socket.v
TlsStream.v
Server.v
ServerSafety.v
IoTable.v
TimerQueue.v
EventLoop.v
LoopSafety.v
LoopRuns.v
Async.v
Http1Coroutine.v
WsCoroutine.v
WsGate.v
