(* ===== verification/Prelude.v ===== *)
(** * Verification of libspaznet

    libspaznet is a C++ networking library: an event loop, buffered
    connections on top of it, and protocol implementations (HTTP/1.1,
    WebSocket, HTTP/2, QUIC and HTTP/3) whose server side exists in two
    styles, coroutines and reactor callbacks.  This development models the
    event loop, the protocol implementations and both sides as Rocq
    functions and proves that they do what they promise.

    ** The parts and their models

    Bytes are integers of [Z] in 0..255 and [bytes] is a list of them;
    machine integers are integers of [Z] with the wrap-around written where
    the code can leave the range.  A function that can fail or throw returns an
    [option]; a loop is [loop step fuel] (defined in this file), where [None]
    means that the fuel was not enough.

    - Prelude.v (this file): integers, bit operations, big-endian numbers,
      cursors into buffers, loops, tactics and the hint database [spaz].
    - Utils.v: src/utils (byte order, decimal numbers, ASCII strings, header
      lookup).
    - PlatformIO.v: include/libspaznet/platform/platform_io.hpp as a class,
      with its epoll and poll back ends (src/platform).  The event loop,
      src/platform/io_context.cpp and its header: IoTable.v, the table of
      descriptors ([set_io_handler], [process_io_events]), against that class;
      TimerQueue.v, the timers; LinkedQueue.v, the queues of tasks and
      callbacks on a heap of nodes; EventLoop.v, [run], the worker threads and
      every call that reaches them, each thread with an explicit stack of
      what it has still to do; LoopSafety.v, the invariants of all
      interleavings, LoopRuns.v, particular ones; Parking.v, how workers sleep
      and are woken, interleaved at every access to the mutex, the flag and
      the queues; Resume.v, the bounded resumption of coroutines; Coroutine.v,
      their control blocks.
    - Buffers.v: src/reactor/buffered_connection.cpp.  [InputBuffer],
      [OutputBuffer] and the connection's reaction to readable and writable
      events, writes and closing, against a socket that may take any part of
      what it is offered.
    - Socket.v: [Socket::async_read] and [async_write] of src/server_impl.cpp
      over an interface, with a plain descriptor as an instance; TlsStream.v:
      src/tls/tls_stream.cpp, the other instance, over the TLS library as a
      class with laws.  Server.v: the rest of src/server_impl.cpp, each thread
      with the list of atomic pieces of code it has still to execute;
      ServerSafety.v: its theorems over all interleavings.  Resources.v:
      objects that have to be given back on every path.  Async.v: how the runs
      of coroutines over a socket compose.
    - ResponseWriter.v: include/libspaznet/reactor/response_writer.hpp.
    - Chunking.v: the interface between the network and a reactor dispatcher.
      [ByteMachine] is a state with a receive buffer and one round of a
      processing loop, [ByteMachineLaws] what the dispatcher promises about
      the round.  From the laws: processing terminates, and the way the
      network splits the bytes makes no difference.  The three dispatchers
      below and the request streams of HTTP/3 are instances.
    - Http1.v: example/http/src/handler.cpp (messages, parser, framing rules,
      chunked bodies, serialisation).  Http1Server.v:
      example/http/src/dispatcher_reactor.cpp ([Http1Connection]).
      Http1Coroutine.v: example/http/src/dispatcher_coroutine.cpp.
    - WsFrame.v, WsHandshake.v: example/http-websocket/src/handler.cpp and
      handshake.cpp (frames; SHA-1, Base64, the opening request).  WsServer.v:
      example/http-websocket/src/dispatcher_reactor.cpp ([WsConnection]),
      including the hand-off of plain HTTP to [Http1Connection].
      WsCoroutine.v: dispatcher_coroutine.cpp next to it, with one writer;
      WsGate.v: its write gate, with any number of them.
    - Huffman.v: src/codec/huffman.cpp.  Hpack.v, Http2Frame.v:
      example/http2/src/codec.cpp.  Http2Server.v:
      example/http2/src/dispatcher_reactor.cpp ([Http2Connection]).
    - VarInt.v, QuicPacket.v, QuicFrame.v, PnSpace.v, QuicCongestion.v,
      QuicStream.v, TransportParams.v: the files of the same names in
      example/quic-http3/src/quic (QuicCongestion.v holds recovery.cpp and
      congestion.cpp).  QuicCrypto.v: the key schedule and the cached AEAD
      contexts of crypto.cpp.  SortedMap.v: [std::map] with integer keys.
      QuicConn.v: connection.cpp, the state machine that composes all of them
      ([Conn] is the connection, [run_event] what the listener and the
      application can do to it); QuicConnStreams.v: its sending half;
      QuicConnNumbers.v: packet numbers; QuicConnTimer.v: the timer's send
      loops; QuicConnSteps.v: every event as a sequence of elementary steps;
      QuicConnFlow.v: receive accounting, with the receive half against an
      arbitrary peer in QuicStreamShape.v; QuicConnErrors.v: protocol
      violations; QuicConnLife.v: lifecycle and anti-amplification.
    - Listener.v: listener.cpp (Retry tokens, connection tables, routing;
      [sent] records what goes to the socket).  ByteMap.v: [std::map] keyed by
      byte strings.  ListenerSafety.v: routing over whole runs.
    - H3Frame.v, PrefixInt.v, Qpack.v:
      example/quic-http3/src/http3/h3frame.cpp and qpack.cpp.  Http3Server.v:
      server.cpp and service.cpp; Http3Delivery.v and Http3Safety.v: its
      theorems.

    ** What the theorems show

    - Codecs.  What an encoder writes, the decoder reads back, in any context
      and for every value the format can hold ([varint_roundtrip],
      [frame_roundtrip], [initial_packet_roundtrip],
      [transport_params_roundtrip], [h3_frame_roundtrip], [huffman_roundtrip],
      [hpack_roundtrip], [qpack_roundtrip], [http2_frame_roundtrip],
      [ws_frame_roundtrip], [http_response_roundtrip], [base64_roundtrip]),
      and what a decoder accepts is inside its input and in canonical form
      where the format has one ([parse_frames_safe], [parse_long_header_safe],
      [huffman_decode_canonical], [ws_parse_canonical], [http_request_sound]).
    - Dispatchers.  The splitting of the input does not matter ([h1_chunking],
      [ws_chunking], [h2_chunking]); requests are served in order
      ([h1_pipelining], [h1_in_order]) and messages arrive whole
      ([ws_message_delivered], [h2_request_delivered]); a completion commutes
      with the arrival of bytes ([h1_completion_commutes]); memory is bounded
      for every peer ([ws_resource_bounds], [h2_resource_bounds]); the calls
      to the application follow their protocol ([ws_lifecycle],
      [writer_delivers_once], [h2_active_requests]); a WebSocket server is an
      HTTP server for clients that ask for nothing else
      ([ws_http_transparent]).  The coroutine dispatchers are the same servers
      as the reactor ones ([h1_coroutine_equivalent],
      [ws_coroutine_equivalent], [ws_coroutine_http]), and coroutines that
      share a connection never mix their frames ([gate_serialises]).
    - The event loop.  An event of an old registration reaches nobody and every
      event of a current one its handler, once ([stale_events_dropped],
      [io_dispatch_exact]); timers refine a set of deadlines as long as no
      time overflows its 64 bits ([timers_refine]); a queue is first-in first-out and leaks no node
      ([queue_is_fifo]).  In every interleaving of the loop, its workers and
      other threads, where choosing a queue, enqueueing and waking the loop
      are separate steps: the table, the platform and the timers agree and
      nothing is stuck ([loop_sound]), posted callbacks run once
      ([posted_run_once]), handlers run on one thread ([io_thread_affinity]),
      neither the loop nor a worker sleeps over something to do
      ([no_lost_wakeup], [no_worker_sleeps_over_work]), and without workers
      deferred objects are destroyed when nothing can be running inside them,
      in whatever order a vector destroys its elements
      ([deferred_destroyed_safely]).  Chains of coroutines do not grow the
      stack ([resume_depth_bounded]), and the count of a frame is the number
      of references to it, those lost with a frame that was destroyed too
      early included ([refcounts_exact]).
    - Connections.  Output leaves in order and exactly once
      ([conn_output_fifo]), a connection with queued output is always
      registered for writability ([conn_no_lost_wakeup]) and a cooperative
      socket drains it ([conn_flush_completes]).
    - Sockets and the server.  A coroutine reads the peer's bytes and writes its
      own in order and exactly once, over a descriptor ([async_io_exact]) and
      over TLS ([tls_stream_exact], [tls_write_completes], for lengths below
      [2^31]).  Every descriptor has one owner and is closed once, or was
      given to a connection factory that threw ([descriptors_accounted]),
      gauges count what is open ([gauges_exact]), connections are touched by
      the thread of their loop ([handlers_on_their_loop]), and with one loop
      [stop()] reaches all of them but one that is just being registered
      ([registry_complete]).
    - QUIC.  A stream hands the application the peer's bytes in order and once
      ([stream_reassembly]); the sending half never reads outside its buffer,
      never exceeds a limit and keeps every byte until it is acknowledged
      ([send_half_safe], [send_half_releases]), and for every sequence of
      datagrams, timer ticks and writes the connection keeps its streams so,
      together stay within the peer's MAX_DATA, and has every byte that was
      sent and not acknowledged either in flight or queued again
      ([connection_send_safe]); a connection only moves forward through its
      states and keeps its identity ([connection_lifecycle]) and sends an
      unvalidated address at most three times what came from there, one
      CONNECTION_CLOSE aside ([amplification_limited]); whatever arrives, the
      stream data held never exceeds [initial_max_data]
      ([receive_memory_bounded]), and a packet closes the connection exactly
      when it breaks one of the rules the code checks, with the code RFC 9000
      gives the rule, two cases aside ([violations_reported]); packet numbers are not
      reused ([packet_numbers_fresh]) and the timer's send loops end
      ([timer_loop_ends]); the record of received packet
      numbers is exact ([on_received_correct]); packet numbers are recovered
      within the window ([packet_number_decoded]) and nonces do not repeat
      ([nonce_unique]); the estimators stay in range ([rtt_estimates_bounded],
      [congestion_step_ok]).
    - The QUIC listener routes every datagram to the connection that owns its
      id, freezes the peer's address when the handshake completes and sends
      only to peers it heard from ([listener_routing]); it accepts exactly its
      own Retry tokens, from the address they were made for
      ([retry_token_exact]).
    - HTTP/3.  A request that arrives in any pieces reaches the application
      once, as it was sent, and its response is written to its stream
      ([h3_request_delivered]); for every peer the undecoded bytes and the
      bodies stay within their limits and the application is called once per
      stream ([h3_server_safe]).
    - Several theorems prove that the code does not do what it means to; they
      are stated next to the component and named after the defect
      (for instance [retry_token_key_leaks], [coalesced_version_zero],
      [h3_response_waits], [no_growth_after_loss],
      [http_length_overflow_ignored], [ws_open_after_close],
      [deferred_too_early], [self_post_starves], [poll_token_of_the_future],
      [reused_number_escapes], [stop_misses_newcomer],
      [throwing_factory_leaks], [tls_throw_closes_twice],
      [handshake_waits_with_unsent], [long_write_fails],
      [timer_overflow_spins], [destroyed_await_leaks],
      [header_fields_accumulate]).

    ** Parameters

    Application handlers are functions of what has happened on the connection
    so far.  Sockets are oracles for the outcome of each attempt to write.
    The iteration order of an [unordered_map] is an arbitrary permutation.
    The cryptography of QUIC is the classes [Crypto] in QuicPacket.v and
    [CryptoLib] in QuicCrypto.v, its TLS handshake the class [Tls] in
    QuicConn.v, each with an instance that shows its laws can be satisfied.
    The clock is a function of the number of times it was read.  The epoll
    system calls are the class [EpollKernel], [std::priority_queue] the class
    [PriorityQueue], the TLS library of streams the classes [SslLibrary] and
    [SslLaws]; what poll(2) and epoll_wait(2) report, what the
    application's callbacks do and which thread goes on are arbitrary.

    ** Fuel

    Every loop that is not structural runs on a fuel computed from its state:
    the length of the input still to be read (parsers, dispatchers, Huffman
    and HPACK decoding), twice the receive buffer and one (WebSocket frames,
    where a payload may be empty), 64 (the padding of SHA-1).  The timer loop
    of a QUIC connection and of the listener takes its fuel as an argument,
    and [timer_loop_ends] says how much is enough.  The loops over timers take
    the number of entries and one, the release of coroutines the number of
    references and one.  A coroutine takes its
    fuel as an argument, because the descriptor may block any number of times;
    [ends] in Async.v says that enough of it gives the result.  The theorems
    that speak of a result show that the result exists, so the fuel suffices.

    ** Not modelled

    Of the event loop: the awaiters for sleeping, the creation of the wake-up
    pipe and the joining of threads.  Of the server: address strings, the
    deadlines of [stop()] and the sum of the statistics.  Exceptions of the
    application are modelled where the code catches them or where their
    passing through changes what it owes (the HTTP handlers, the connection
    factory); an allocation that fails is not.  The kqueue and IOCP
    back ends and the logger are system calls.  The coroutine dispatcher of
    HTTP/2 implements the same protocol as the reactor one on top of sockets.
    The binding of QUIC to the TLS library is a parameter ([Tls]).  Demonstrations and fuzz targets
    only use the library. *)
From stdpp Require Export prelude.
From Stdlib Require Export ZArith Lia.
From Stdlib Require String Ascii.
Export String.StringSyntax.
Delimit Scope string_scope with string.

(** ** Machine integers

    A [uintN_t] is an integer of [Z] kept in range by the wrap-around written
    at the operations that can leave it.  Container sizes and cursors into a
    container are [nat]: a [std::vector] never holds [2^63] elements. *)

Declare Scope spaz_scope.
Delimit Scope spaz_scope with spaz.

Definition wrap (n : Z) (x : Z) : Z := (x mod 2 ^ n)%Z.
Definition u8 (x : Z) : Z := wrap 8 x.
Definition u16 (x : Z) : Z := wrap 16 x.
Definition u32 (x : Z) : Z := wrap 32 x.
Definition u64 (x : Z) : Z := wrap 64 x.

(** [x & (2^n - 1)], [x >> n], [x << n] and [x | y] of the source. *)
Notation "x .& y" := (Z.land x y) (at level 35, right associativity) : spaz_scope.
Notation "x .| y" := (Z.lor x y) (at level 37, right associativity) : spaz_scope.
Notation "x .^ y" := (Z.lxor x y) (at level 36, right associativity) : spaz_scope.
Notation "x .>> y" := (Z.shiftr x y) (at level 34, left associativity) : spaz_scope.
Notation "x .<< y" := (Z.shiftl x y) (at level 34, left associativity) : spaz_scope.
Notation "# l" := (Z.of_nat (length l)) (at level 9, l at level 9, format "# l") : spaz_scope.

Open Scope spaz_scope.

(** The characters of a literal, as bytes: a [std::string] is a [bytes]. *)
Fixpoint str (s : String.string) : list Z :=
  match s with
  | String.EmptyString => []
  | String.String c s => Z.of_N (Ascii.N_of_ascii c) :: str s
  end.
Arguments str s%_string_scope.

(** A [uint8_t] and a byte buffer. *)
Definition byte_ok (b : Z) : Prop := (0 <= b < 256)%Z.
Abbreviation bytes := (list Z) (only parsing).
Definition bytes_ok (l : bytes) : Prop := Forall byte_ok l.
(** The contents of a [uint64_t] variable. *)
Definition u64_ok (x : Z) : Prop := (0 <= x < 2 ^ 64)%Z.
(** A container size: the library's [vector::max_size] is [PTRDIFF_MAX]. *)
Definition size_ok {A} (l : list A) : Prop := (Z.of_nat (length l) < 2 ^ 63)%Z.

Global Instance byte_ok_dec b : Decision (byte_ok b).
Proof. unfold byte_ok; apply _. Defined.
Global Instance u64_ok_dec x : Decision (u64_ok x).
Proof. unfold u64_ok; apply _. Defined.
Global Instance bytes_ok_dec l : Decision (bytes_ok l).
Proof. unfold bytes_ok; apply _. Defined.

Local Open Scope Z_scope.

(** Big-endian images: [be_bytes n v] is the loop that pushes
    [(v >> 8*(n-1)) & 0xFF, ..., v & 0xFF]; [be_fold acc l] is the loop
    [acc = (acc << 8) | b] over a [uint64_t] accumulator. *)
Fixpoint be_bytes (n : nat) (v : Z) : bytes :=
  match n with
  | O => []
  | S k => ((v .>> (8 * Z.of_nat k)) .& 255) :: be_bytes k v
  end.

Definition be_fold (acc : Z) (l : bytes) : Z :=
  foldl (fun r b => u64 (r .<< 8) .| b) acc l.

(** ** Bit operations as arithmetic *)

Create HintDb spaz.

Lemma land_mask x n m : 0 <= n -> m = Z.ones n -> x .& m = x mod 2 ^ n.
Proof. intros ? ->. by apply Z.land_ones. Qed.

Lemma shr_div x n : 0 <= n -> x .>> n = x / 2 ^ n.
Proof. apply Z.shiftr_div_pow2. Qed.

Lemma shl_mul x n : 0 <= n -> x .<< n = x * 2 ^ n.
Proof. apply Z.shiftl_mul_pow2. Qed.

(** Or-ing a low part into a value whose low bits are clear is addition. *)
Lemma lor_low_add n a b : 0 <= n -> a mod 2 ^ n = 0 -> 0 <= b < 2 ^ n -> a .| b = a + b.
Proof.
  intros Hn Ha Hb. symmetry. apply Z.add_nocarry_lor.
  apply Z.bits_inj_iff'; intros i Hi. rewrite Z.land_spec, Z.bits_0.
  destruct (decide (i < n)) as [Hlt|Hge].
  - rewrite <- (Z.mod_pow2_bits_low a n i), Ha, Z.bits_0 by lia. done.
  - rewrite <- (Z.mod_small b (2 ^ n)), Z.mod_pow2_bits_high by lia. apply andb_false_r.
Qed.

Lemma lor_shl_add n a b : 0 <= n -> 0 <= b < 2 ^ n -> (a .<< n) .| b = a * 2 ^ n + b.
Proof.
  intros Hn Hb. rewrite shl_mul by done. apply (lor_low_add n); [done| |done].
  apply Z.mod_mul. lia.
Qed.

Lemma u8_range x : byte_ok (u8 x).
Proof. apply Z.mod_pos_bound. lia. Qed.
Lemma u32_range x : 0 <= u32 x < 2 ^ 32.
Proof. apply Z.mod_pos_bound. lia. Qed.
Lemma u64_range x : u64_ok (u64 x).
Proof. apply Z.mod_pos_bound. lia. Qed.
Lemma u8_small x : byte_ok x -> u8 x = x.
Proof. apply Z.mod_small. Qed.
Lemma u32_small x : 0 <= x < 2 ^ 32 -> u32 x = x.
Proof. apply Z.mod_small. Qed.
Lemma u64_small x : u64_ok x -> u64 x = x.
Proof. apply Z.mod_small. Qed.

Lemma land255_ok x : byte_ok (x .& 255).
Proof. rewrite (land_mask x 8) by done. apply Z.mod_pos_bound. lia. Qed.

#[export] Hint Resolve u8_range u64_range land255_ok : spaz.
#[export] Hint Resolve Forall_nil_2 Forall_cons_2 : spaz.

(** [bits] turns masks and shifts by literals into [mod] and [/]. *)
Ltac bits_step :=
  match goal with
  | |- context [Z.land ?x 1] => rewrite (land_mask x 1 1) by (lia || done)
  | |- context [Z.land ?x 3] => rewrite (land_mask x 2 3) by (lia || done)
  | |- context [Z.land ?x 7] => rewrite (land_mask x 3 7) by (lia || done)
  | |- context [Z.land ?x 15] => rewrite (land_mask x 4 15) by (lia || done)
  | |- context [Z.land ?x 31] => rewrite (land_mask x 5 31) by (lia || done)
  | |- context [Z.land ?x 63] => rewrite (land_mask x 6 63) by (lia || done)
  | |- context [Z.land ?x 127] => rewrite (land_mask x 7 127) by (lia || done)
  | |- context [Z.land ?x 255] => rewrite (land_mask x 8 255) by (lia || done)
  | |- context [Z.shiftr ?x ?n] => rewrite (shr_div x n) by lia
  | |- context [Z.shiftl ?x ?n] => rewrite (shl_mul x n) by lia
  end.
Ltac bits := repeat bits_step.

(** A test that succeeds on 0..n-1, checked by computation. *)
Lemma forall_below (P : Z -> bool) n : forallb (fun i => P (Z.of_nat i)) (seq 0 n) = true ->
  forall r, 0 <= r < Z.of_nat n -> P r = true.
Proof.
  intros H r Hr. rewrite forallb_forall in H. specialize (H (Z.to_nat r)). rewrite Z2Nat.id in H by lia.
  apply H, in_seq. lia.
Qed.

(** ** Big-endian lemmas *)

Lemma be_bytes_length n v : length (be_bytes n v) = n.
Proof. induction n; simpl; congruence. Qed.

Lemma be_bytes_ok n v : bytes_ok (be_bytes n v).
Proof. induction n; simpl; constructor; auto using land255_ok. Qed.

Lemma be_fold_app acc l k : be_fold acc (l ++ k) = be_fold (be_fold acc l) k.
Proof. apply foldl_app. Qed.

Lemma be_fold_cons_small acc b l :
  0 <= acc -> acc * 256 < 2 ^ 64 -> byte_ok b -> be_fold acc (b :: l) = be_fold (acc * 256 + b) l.
Proof.
  intros H0 H1 Hb. unfold be_fold; simpl. f_equal. unfold byte_ok in Hb.
  rewrite (shl_mul acc 8), u64_small by (unfold u64_ok; lia).
  apply (lor_low_add 8); [lia| |lia]. apply Z.mod_mul. lia.
Qed.

Lemma mod_split v p q : 0 < p -> 0 < q -> v mod (q * p) = (v / p) mod q * p + v mod p.
Proof. intros. rewrite (Z.mul_comm q p), Z.rem_mul_r by lia. lia. Qed.

Lemma be_fold_be_bytes n : forall acc v,
  0 <= acc -> (acc + 1) * 2 ^ (8 * Z.of_nat n) <= 2 ^ 64 ->
  be_fold acc (be_bytes n v) = acc * 2 ^ (8 * Z.of_nat n) + v mod 2 ^ (8 * Z.of_nat n).
Proof.
  induction n as [|n IH]; intros acc v H0 H1; [simpl; rewrite Z.mod_1_r; lia|].
  cbn [be_bytes]. replace (8 * Z.of_nat (S n)) with (8 + 8 * Z.of_nat n) in * by lia.
  rewrite Z.pow_add_r in * by lia. change (2 ^ 8) with 256 in *.
  set (p := 2 ^ (8 * Z.of_nat n)) in *.
  assert (Hp : 0 < p) by (apply Z.pow_pos_nonneg; lia).
  pose proof (land255_ok (v .>> (8 * Z.of_nat n))) as Hb.
  rewrite be_fold_cons_small by (done || nia). unfold byte_ok in Hb.
  rewrite IH by nia. rewrite (land_mask _ 8 255), shr_div by (lia || done).
  fold p. change (2 ^ 8) with 256. rewrite (mod_split v p 256) by lia. lia.
Qed.

Lemma u8_land255 x : u8 (x .& 255) = x .& 255.
Proof. apply u8_small, land255_ok. Qed.

(** *** Bytes under bit operations *)

Lemma byte_log2 x : 0 <= x -> byte_ok x <-> Z.log2 x < 8.
Proof.
  intros Hx. unfold byte_ok. change 256 with (2 ^ 8). destruct (Z.eq_dec x 0) as [->|]; [cbn; lia|]. rewrite <- Z.log2_lt_pow2 by lia. lia.
Qed.

Lemma lxor_byte x y : byte_ok x -> byte_ok y -> byte_ok (x .^ y).
Proof.
  intros Hx Hy. pose proof Hx as [Hx0 _]. pose proof Hy as [Hy0 _]. apply byte_log2 in Hx, Hy; [|done..].
  apply byte_log2; [apply Z.lxor_nonneg; lia|]. pose proof (Z.log2_lxor x y). lia.
Qed.

Lemma land_byte x y : byte_ok x -> byte_ok y -> byte_ok (x .& y).
Proof.
  intros Hx Hy. pose proof Hx as [Hx0 _]. pose proof Hy as [Hy0 _]. apply byte_log2 in Hx, Hy; [|done..].
  apply byte_log2; [apply Z.land_nonneg; lia|]. pose proof (Z.log2_land x y). lia.
Qed.

(** ** Buffers seen from a cursor

    A parser is a function of the whole buffer and a cursor; its lemmas are
    stated on the suffix [drop off buf] still to be read. *)

Lemma drop_replicate_all {A} n (x : A) : drop n (replicate n x) = [].
Proof. apply drop_ge. rewrite length_replicate. lia. Qed.

Lemma drop_cons_inv (buf : bytes) off b l :
  drop off buf = b :: l -> buf !! off = Some b /\ drop (off + 1) buf = l /\ (off < length buf)%nat.
Proof.
  intros H. assert (Hl : buf !! off = Some b).
  { replace off with (off + 0)%nat by lia. rewrite <- lookup_drop, H. done. }
  split; [done|]. split; [|by eapply lookup_lt_Some].
  rewrite <- drop_drop, H. done.
Qed.

Lemma drop_app_length_eq (buf : bytes) off l k :
  drop off buf = l ++ k -> drop (off + length l) buf = k.
Proof. intros H. rewrite <- drop_drop, H. apply drop_app_length. Qed.

Lemma drop_length_bound (buf : bytes) off l k :
  drop off buf = l ++ k -> l <> [] -> (off + length l + length k = length buf)%nat.
Proof.
  intros H Hl. apply (f_equal length) in H. rewrite length_drop, length_app in H.
  destruct l; [done|]. simpl in *. lia.
Qed.

(** The cursor [off] is inside the buffer and [l] is what is left to read. *)
Definition at_cursor (buf : bytes) (off : nat) (l : bytes) : Prop :=
  (off <= length buf)%nat /\ drop off buf = l.

Lemma at_cursor_app buf off l k : at_cursor buf off (l ++ k) -> at_cursor buf (off + length l) k.
Proof.
  intros [Hle Hd]. split; [|by apply drop_app_length_eq].
  apply (f_equal length) in Hd. rewrite length_drop, length_app in Hd. lia.
Qed.

Lemma at_cursor_length buf off l : at_cursor buf off l -> (off + length l = length buf)%nat.
Proof. intros [Hle <-]. rewrite length_drop. lia. Qed.

Lemma at_cursor_start (pre l : bytes) : at_cursor (pre ++ l) (length pre) l.
Proof. split; [rewrite length_app; lia|apply drop_app_length]. Qed.

Lemma at_cursor_cons buf off b l : at_cursor buf off (b :: l) ->
  buf !! off = Some b /\ at_cursor buf (off + 1) l /\ (off < length buf)%nat.
Proof.
  intros [Hle Hd]. apply drop_cons_inv in Hd as (? & ? & ?). split; [done|]. split; [|done].
  split; [lia|done].
Qed.

(** A cut of a concatenation falls into the first or the second part. *)
Lemma take_app_cases {A} n (l k : list A) : (n < length l)%nat /\ take n (l ++ k) = take n l \/
  (length l <= n)%nat /\ take n (l ++ k) = l ++ take (n - length l) k.
Proof.
  destruct (decide (n < length l)%nat); [left|right]; (split; [lia|]).
  - apply take_app_le. lia.
  - rewrite take_app_ge by lia. done.
Qed.

(** Takes a successful chain of binds apart. *)
Ltac inv_bind H :=
  repeat match type of H with
  | _ ≫= _ = Some _ =>
      let x := fresh "x" in let E := fresh "E" in
      apply bind_Some in H as (x & E & H); try (destruct x as [? ?]); cbv beta iota in H
  | (if ?b then None else _) = Some _ => destruct b eqn:?; [discriminate H|]
  end.

(** Closes [Some (x, off) = Some (x, off')] when the cursors agree. *)
Ltac same_cursor :=
  apply (f_equal Some), f_equal2; [reflexivity|repeat first [rewrite length_app|progress cbn [length]]; lia].

(** ** Loops

    [loop fuel step s] runs a C++ loop whose body is [step]: [inl s'] goes
    round again, [inr r] leaves the loop with [r].  [None] is out of fuel; a
    measure that every round decreases makes the result independent of it. *)
Section loops.
Context {S R : Type} (step : S -> S + R).

Fixpoint loop (fuel : nat) (s : S) : option R :=
  match fuel with
  | O => None
  | Datatypes.S k => match step s with inl s' => loop k s' | inr r => Some r end
  end.

Lemma loop_total (I : S -> Prop) (m : S -> nat) :
  (forall s s', I s -> step s = inl s' -> I s' /\ (m s' < m s)%nat) ->
  forall fuel s, I s -> (m s < fuel)%nat -> exists r, loop fuel s = Some r.
Proof.
  intros Hstep fuel. induction fuel as [|k IH]; intros s Hs Hm; [lia|]. simpl.
  destruct (step s) as [s'|r] eqn:E; [|by eexists].
  destruct (Hstep _ _ Hs E). apply IH; [done|lia].
Qed.

Lemma loop_post (I : S -> Prop) (Q : R -> Prop) :
  (forall s s', I s -> step s = inl s' -> I s') ->
  (forall s r, I s -> step s = inr r -> Q r) ->
  forall fuel s r, I s -> loop fuel s = Some r -> Q r.
Proof.
  intros Hstep Hend fuel. induction fuel as [|k IH]; intros s r Hs; simpl; [done|].
  destruct (step s) as [s'|r'] eqn:E; [by eauto|]. intros [= <-]. eauto.
Qed.

(** Two runs that stay related end with the same result, when that result is
    one on which the last steps agree. *)
Lemma loop_sim (R0 : S -> S -> Prop) (Q : R -> Prop) :
  (forall s t s', R0 s t -> step s = inl s' -> exists t', step t = inl t' /\ R0 s' t') ->
  (forall s t r, R0 s t -> step s = inr r -> Q r -> step t = inr r) ->
  forall fuel fuel' s t r, loop fuel s = Some r -> Q r -> R0 s t -> (fuel <= fuel')%nat -> loop fuel' t = Some r.
Proof.
  intros Hs He fuel. induction fuel as [|k IH]; intros fuel' s t r Hr HQ HR Hf; [done|].
  destruct fuel' as [|k']; [lia|]. simpl in *. destruct (step s) as [s'|r'] eqn:E.
  - destruct (Hs _ _ _ HR E) as (t' & -> & HR'). apply (IH k' s' t'); [done|done|done|lia].
  - injection Hr as ->. by rewrite (He _ _ _ HR E HQ).
Qed.

Lemma loop_mono fuel fuel' s r : loop fuel s = Some r -> (fuel <= fuel')%nat -> loop fuel' s = Some r.
Proof.
  revert fuel' s. induction fuel as [|k IH]; intros fuel' s; simpl; [done|].
  destruct fuel' as [|k']; [lia|]. simpl. destruct (step s); [|done]. intros; apply IH; [done|lia].
Qed.
End loops.

(** A range-based [for] whose body may throw: [None] stops the whole loop. *)
Section for_each.
Context {A S : Type} (f : S -> A -> option S).

Fixpoint for_each (l : list A) (s : S) : option S :=
  match l with
  | [] => Some s
  | a :: l => s ← f s a; for_each l s
  end.

Lemma for_each_inv (I : S -> Prop) : (forall s a s', I s -> f s a = Some s' -> I s') ->
  forall l s s', I s -> for_each l s = Some s' -> I s'.
Proof.
  intros Hf l. induction l as [|a l IH]; intros s s' Hs; simpl; [by intros [= <-]|].
  intros H. apply bind_Some in H as (s1 & E & H). eauto.
Qed.

Lemma for_each_app l k s : for_each (l ++ k) s = s ← for_each l s; for_each k s.
Proof. revert s. induction l as [|a l IH]; intros s; [done|]. simpl. destruct (f s a); [apply IH|done]. Qed.
End for_each.

(** [r] with the field [proj] replaced by [v]; [eta] spells the record's fields out. *)
Ltac with_field eta r proj v :=
  let t := eval cbv beta delta [eta] in (eta r) in
  lazymatch eval pattern (proj r) in t with
  | ?g _ => let u := eval cbv beta in (g v) in exact u
  end.
