(* ===== verification/Utils.v ===== *)
(** * Shared utilities

    Models of src/utils: [BinaryUtils] (big-endian integers), [NumberUtils]
    (strict decimal parsing), [StringUtils] (ASCII lower case, trimming of
    optional white space) and [HeaderUtils] (case-insensitive lookup).  A
    [std::string] is the list of its bytes; a [char] above 127 is negative in
    the source and fails the same range tests. *)
From S2P Require Import Prelude.

Local Open Scope Z_scope.

(** ** BinaryUtils *)

Definition encode_uint16_be (value : Z) : bytes := [u8 ((value .>> 8) .& 0xFF); u8 (value .& 0xFF)].
Definition encode_uint24_be (value : Z) : bytes :=
  [u8 ((value .>> 16) .& 0xFF); u8 ((value .>> 8) .& 0xFF); u8 (value .& 0xFF)].
Definition encode_uint32_be (value : Z) : bytes :=
  [u8 ((value .>> 24) .& 0xFF); u8 ((value .>> 16) .& 0xFF); u8 ((value .>> 8) .& 0xFF); u8 (value .& 0xFF)].

(** [data[i]]; the callers have checked the length. *)
Definition nth_byte (data : bytes) (i : nat) : Z := nth i data 0.

Definition decode_uint16_be (data : bytes) : Z := u16 ((nth_byte data 0 .<< 8) .| nth_byte data 1).
Definition decode_uint24_be (data : bytes) : Z :=
  u32 (nth_byte data 0 .<< 16) .| u32 (nth_byte data 1 .<< 8) .| nth_byte data 2.
Definition decode_uint32_be (data : bytes) : Z :=
  u32 (nth_byte data 0 .<< 24) .| u32 (nth_byte data 1 .<< 16) .| u32 (nth_byte data 2 .<< 8) .| nth_byte data 3.

(** ** NumberUtils *)

Definition UINT64_MAX : Z := 2 ^ 64 - 1.
Definition INT_MIN : Z := - 2 ^ 31.
Definition INT_MAX : Z := 2 ^ 31 - 1.

Definition is_digit (c : Z) : bool := (48 <=? c) && (c <=? 57).

Fixpoint parse_digits (result : Z) (value : bytes) : option Z :=
  match value with
  | [] => Some result
  | c :: value =>
      if negb (is_digit c) then None else
      let digit := c - 48 in
      if (UINT64_MAX - digit) / 10 <? result then None
      else parse_digits (u64 (result * 10 + digit)) value
  end.

Definition parse_uint64 (value : bytes) : option Z :=
  match value with [] => None | _ => parse_digits 0 value end.

Fixpoint parse_magnitude (result : Z) (value : bytes) : option Z :=
  match value with
  | [] => Some result
  | c :: value =>
      if negb (is_digit c) then None else
      let result := result * 10 + (c - 48) in
      if - INT_MIN <? result then None else parse_magnitude result value
  end.

Definition parse_int (value : bytes) : option Z :=
  match value with
  | [] => None
  | c :: rest =>
      let signed := (c =? 43) || (c =? 45) in
      let negative := c =? 45 in
      let digits := if signed then rest else value in
      match digits with
      | [] => None
      | _ =>
          result ← parse_magnitude 0 digits;
          let result := if signed && negative then - result else result in
          if (result <? INT_MIN) || (INT_MAX <? result) then None else Some result
      end
  end.

(** [std::to_string]: decimal digits; twenty are enough for 64 bits. *)
Fixpoint digits (fuel : nat) (n : Z) (acc : bytes) : bytes :=
  match fuel with
  | O => acc
  | S fuel => let acc := (48 + n mod 10) :: acc in
              if n <? 10 then acc else digits fuel (n / 10) acc
  end.

Definition to_string (n : Z) : bytes := if n <? 0 then 45 :: digits 20 (- n) [] else digits 20 n [].

(** ** StringUtils *)

(** [std::tolower] in the C locale. *)
Definition tolower (c : Z) : Z := if (65 <=? c) && (c <=? 90) then c + 32 else c.

Fixpoint to_lower (s : bytes) : bytes := match s with [] => [] | c :: s => tolower c :: to_lower s end.

Definition is_ows (c : Z) : bool := (c =? 32) || (c =? 9).

Fixpoint skip_ows (s : bytes) : bytes :=
  match s with [] => [] | c :: s' => if is_ows c then skip_ows s' else s end.

(** Skip from the front, then from the back. *)
Definition trim_ows (s : bytes) : bytes := rev (skip_ows (rev (skip_ows s))).

(** [std::string::find] of a string. *)
Fixpoint find_sub (pat s : bytes) : option nat :=
  if bool_decide (take (length pat) s = pat) then Some O
  else match s with [] => None | _ :: s => S <$> find_sub pat s end.

(** ** HeaderUtils *)

Fixpoint ascii_iequals (lhs rhs : bytes) : bool :=
  match lhs, rhs with
  | [], [] => true
  | a :: lhs, b :: rhs => (tolower a =? tolower b) && ascii_iequals lhs rhs
  | _, _ => false
  end.

(** An [unordered_map] as the list of its entries in iteration order. *)
Fixpoint find_exact (headers : list (bytes * bytes)) (name : bytes) : option bytes :=
  match headers with
  | [] => None
  | (k, v) :: hs => if bool_decide (k = name) then Some v else find_exact hs name
  end.

Fixpoint find_iequals (headers : list (bytes * bytes)) (name : bytes) : option bytes :=
  match headers with
  | [] => None
  | (k, v) :: hs => if ascii_iequals k name then Some v else find_iequals hs name
  end.

Definition get_header_case_insensitive (headers : list (bytes * bytes)) (name : bytes) : option bytes :=
  match find_exact headers name with Some v => Some v | None => find_iequals headers name end.

(** ** Lemmas *)

Lemma be16_spec v : encode_uint16_be v = be_bytes 2 v.
Proof. unfold encode_uint16_be. rewrite !u8_land255. cbn [be_bytes]. by rewrite Z.shiftr_0_r. Qed.
Lemma be24_spec v : encode_uint24_be v = be_bytes 3 v.
Proof. unfold encode_uint24_be. rewrite !u8_land255. cbn [be_bytes]. by rewrite Z.shiftr_0_r. Qed.
Lemma be32_spec v : encode_uint32_be v = be_bytes 4 v.
Proof. unfold encode_uint32_be. rewrite !u8_land255. cbn [be_bytes]. by rewrite Z.shiftr_0_r. Qed.

(** Or-ing the shifted bytes is the big-endian value. *)
Lemma or_bytes a b c d : byte_ok a -> byte_ok b -> byte_ok c -> byte_ok d ->
  u32 (a .<< 24) .| u32 (b .<< 16) .| u32 (c .<< 8) .| d = ((a * 256 + b) * 256 + c) * 256 + d.
Proof.
  unfold byte_ok. intros Ha Hb Hc Hd. rewrite !shl_mul by lia. rewrite !u32_small by lia.
  rewrite (lor_low_add 8 (c * 2 ^ 8)) by (lia || apply Z.mod_mul; lia).
  rewrite (lor_low_add 16 (b * 2 ^ 16)) by (lia || apply Z.mod_mul; lia).
  rewrite (lor_low_add 24 (a * 2 ^ 24)) by (lia || apply Z.mod_mul; lia). lia.
Qed.

Lemma decode32_encode v rest : 0 <= v < 2 ^ 32 -> decode_uint32_be (encode_uint32_be v ++ rest) = v.
Proof.
  intros Hv. unfold decode_uint32_be, nth_byte, encode_uint32_be. cbn [app nth]. rewrite !u8_land255.
  rewrite or_bytes by apply land255_ok. bits. change (2 ^ 8) with 256. change (2 ^ 16) with (256 * 256).
  change (2 ^ 24) with (256 * 256 * 256). rewrite <- !Z.div_div by lia.
  pose proof (Z.div_mod v 256). pose proof (Z.div_mod (v / 256) 256). pose proof (Z.div_mod (v / 256 / 256) 256).
  rewrite (Z.mod_small (v / 256 / 256 / 256)); [lia|]. rewrite !Z.div_div by lia.
  split; [apply Z.div_pos; lia|]. apply Z.div_lt_upper_bound; lia.
Qed.

Lemma decode24_encode v rest : 0 <= v < 2 ^ 24 -> decode_uint24_be (encode_uint24_be v ++ rest) = v.
Proof.
  intros Hv. unfold decode_uint24_be, nth_byte, encode_uint24_be. cbn [app nth]. rewrite !u8_land255.
  pose proof (or_bytes 0 ((v .>> 16) .& 255) ((v .>> 8) .& 255) (v .& 255) ltac:(done) (land255_ok _) (land255_ok _) (land255_ok _)) as H.
  change (u32 (0 .<< 24)) with 0 in H. rewrite Z.lor_0_l in H. rewrite H. bits. change (2 ^ 8) with 256.
  change (2 ^ 16) with (256 * 256). rewrite <- !Z.div_div by lia.
  pose proof (Z.div_mod v 256). pose proof (Z.div_mod (v / 256) 256).
  rewrite (Z.mod_small (v / 256 / 256)); [lia|]. rewrite !Z.div_div by lia.
  split; [apply Z.div_pos; lia|]. apply Z.div_lt_upper_bound; lia.
Qed.

(** The number a run of digits denotes. *)
Definition decimal (acc : Z) (s : bytes) : Z := foldl (fun r c => r * 10 + (c - 48)) acc s.

Lemma decimal_ge s : forall acc, 0 <= acc -> forallb is_digit s = true -> acc <= decimal acc s.
Proof.
  induction s as [|c s IH]; intros acc Ha Hd; [simpl; lia|]. cbn [decimal foldl forallb] in *.
  apply andb_prop in Hd as [Hc Hd]. unfold is_digit in Hc.
  specialize (IH (acc * 10 + (c - 48)) ltac:(lia) Hd). unfold decimal in IH. lia.
Qed.

Lemma parse_digits_spec s : forall acc, 0 <= acc < 2 ^ 64 -> forallb is_digit s = true ->
  parse_digits acc s = if decimal acc s <? 2 ^ 64 then Some (decimal acc s) else None.
Proof.
  induction s as [|c s IH]; intros acc Ha Hd; cbn [parse_digits].
  - cbn [decimal foldl]. by rewrite (proj2 (Z.ltb_lt _ _)) by lia.
  - pose proof (decimal_ge (c :: s) acc ltac:(lia) Hd) as Hge. cbn [forallb] in Hd. apply andb_prop in Hd as [Hc Hd].
    rewrite Hc. cbn [negb]. unfold is_digit in Hc. unfold UINT64_MAX. cbv zeta.
    change (decimal acc (c :: s)) with (decimal (acc * 10 + (c - 48)) s).
    destruct (Z.ltb_spec ((2 ^ 64 - 1 - (c - 48)) / 10) acc) as [Hlt|Hle].
    + assert (2 ^ 64 <= acc * 10 + (c - 48)).
      { destruct (decide (2 ^ 64 <= acc * 10 + (c - 48))); [done|]. exfalso.
        assert (acc <= (2 ^ 64 - 1 - (c - 48)) / 10) by (apply Z.div_le_lower_bound; lia). lia. }
      pose proof (decimal_ge s (acc * 10 + (c - 48)) ltac:(lia) Hd). by rewrite (proj2 (Z.ltb_ge _ _)) by lia.
    + assert (acc * 10 + (c - 48) < 2 ^ 64).
      { pose proof (Z.mul_div_le (2 ^ 64 - 1 - (c - 48)) 10 ltac:(lia)). lia. }
      rewrite u64_small by (unfold u64_ok; lia). apply IH; [lia|done].
Qed.

Lemma parse_digits_bad s : forall acc, forallb is_digit s = false -> parse_digits acc s = None.
Proof.
  induction s as [|c s IH]; intros acc Hd; cbn [forallb parse_digits] in *; [done|].
  destruct (is_digit c); cbn [negb]; [|done]. case_match; [done|]. by apply IH.
Qed.

Lemma digits_spec fuel : forall n acc, 0 <= n < 10 ^ Z.of_nat fuel -> (0 < fuel)%nat ->
  exists ds, digits fuel n acc = ds ++ acc /\ ds <> [] /\ forallb is_digit ds = true /\ decimal 0 ds = n.
Proof.
  induction fuel as [|fuel IH]; intros n acc Hn Hf; [lia|]. cbn [digits]. cbv zeta.
  pose proof (Z.mod_pos_bound n 10 ltac:(lia)).
  assert (Hd : is_digit (48 + n mod 10) = true) by (unfold is_digit; lia).
  destruct (Z.ltb_spec n 10).
  - exists [48 + n mod 10]. cbn [app forallb decimal foldl]. rewrite Hd, Z.mod_small by lia.
    repeat split; try done; lia.
  - assert (0 <= n / 10 < 10 ^ Z.of_nat fuel).
    { rewrite Nat2Z.inj_succ, Z.pow_succ_r in Hn by lia. split; [apply Z.div_pos; lia|].
      apply Z.div_lt_upper_bound; lia. }
    destruct (IH (n / 10) ((48 + n mod 10) :: acc)) as (ds & E & Hne & Hds & Hv); [done| |].
    { destruct fuel; [change (10 ^ Z.of_nat 1) with 10 in Hn|]; lia. }
    exists (ds ++ [48 + n mod 10]). rewrite E, <- app_assoc. split; [done|]. split; [by destruct ds|].
    rewrite forallb_app, Hds. cbn [forallb]. rewrite Hd. split; [done|].
    unfold decimal in *. rewrite foldl_app, Hv. cbn [foldl]. pose proof (Z.div_mod n 10). lia.
Qed.

(** The digits of a 64-bit number are read back. *)
Lemma parse_to_string n : 0 <= n < 2 ^ 64 -> parse_uint64 (to_string n) = Some n.
Proof.
  intros Hn. unfold to_string. rewrite (proj2 (Z.ltb_ge n 0)) by lia.
  destruct (digits_spec 20 n []) as (ds & -> & Hne & Hd & Hv); [split; [lia|]|lia|].
  { apply (Z.lt_le_trans _ (2 ^ 64)); [lia|]. vm_compute. congruence. }
  rewrite app_nil_r. unfold parse_uint64. destruct ds as [|c ds]; [done|]. rewrite parse_digits_spec by done.
  rewrite Hv. by rewrite (proj2 (Z.ltb_lt _ _)) by lia.
Qed.

Lemma parse_magnitude_spec s : forall acc, 0 <= acc -> forallb is_digit s = true -> decimal acc s < 2 ^ 31 ->
  parse_magnitude acc s = Some (decimal acc s).
Proof.
  induction s as [|c s IH]; intros acc Ha Hd Hv; cbn [parse_magnitude]; [done|].
  change (decimal acc (c :: s)) with (decimal (acc * 10 + (c - 48)) s) in *. cbn [forallb] in Hd.
  apply andb_prop in Hd as [Hc Hd]. rewrite Hc. cbn [negb]. unfold is_digit in Hc. cbv zeta.
  pose proof (decimal_ge s (acc * 10 + (c - 48)) ltac:(lia) Hd). unfold INT_MIN.
  rewrite (proj2 (Z.ltb_ge _ _)) by lia. apply IH; [lia|done..].
Qed.

Lemma parse_int_to_string n : 0 <= n < 2 ^ 31 -> parse_int (to_string n) = Some n.
Proof.
  intros Hn. unfold to_string. rewrite (proj2 (Z.ltb_ge n 0)) by lia.
  destruct (digits_spec 20 n []) as (ds & -> & Hne & Hd & Hv); [split; [lia|]|lia|].
  { apply (Z.lt_le_trans _ (2 ^ 31)); [lia|]. vm_compute. congruence. }
  rewrite app_nil_r. unfold parse_int. destruct ds as [|c ds]; [done|].
  assert (Hc : is_digit c = true) by (cbn [forallb] in Hd; by apply andb_prop in Hd as [? _]).
  unfold is_digit in Hc. replace ((c =? 43) || (c =? 45)) with false by lia. cbv zeta.
  rewrite parse_magnitude_spec by (done || lia). cbn [mbind option_bind andb]. rewrite Hv. unfold INT_MIN, INT_MAX.
  by replace ((n <? - 2 ^ 31) || (2 ^ 31 - 1 <? n)) with false by lia.
Qed.

Lemma parse_uint64_spec s :
  parse_uint64 s = if negb (bool_decide (s = [])) && forallb is_digit s && (decimal 0 s <? 2 ^ 64)
                   then Some (decimal 0 s) else None.
Proof.
  unfold parse_uint64. destruct s as [|c s]; [done|]. rewrite bool_decide_eq_false_2 by done. cbn [negb andb].
  destruct (forallb is_digit (c :: s)) eqn:E; [|by apply parse_digits_bad]. cbn [andb].
  by rewrite parse_digits_spec.
Qed.

(** ** Properties *)

(** [parse_uint64] accepts exactly the non-empty runs of ASCII digits
    whose value fits 64 bits, and returns that value: no sign, white space,
    base prefix, trailing garbage or wrap-around gets through. *)
Theorem parse_uint64_exact s :
  parse_uint64 s = if negb (bool_decide (s = [])) && forallb is_digit s && (decimal 0 s <? 2 ^ 64)
                   then Some (decimal 0 s) else None.
Proof. apply parse_uint64_spec. Qed.
