(* ===== verification/PrefixInt.v ===== *)
(** * Prefix integers (RFC 7541 section 5.1)

    The integer representation HPACK and QPACK share.  qpack.cpp keeps the
    value in 64 bits and stops at a shift above 63, the HPACK codec keeps it
    in 32 bits and stops at a shift above 28: the width [W] and the largest
    shift [M] are arguments here. *)
From S2P Require Import Prelude.

Local Open Scope Z_scope.

(** The continuation bytes of the writer; [fuel] bounds their number. *)
Fixpoint write_tail (fuel : nat) (value : Z) : bytes :=
  match fuel with
  | O => [u8 value]
  | S fuel => if 128 <=? value then u8 ((value .& 0x7F) .| 0x80) :: write_tail fuel (value .>> 7)
              else [u8 value]
  end.

Definition write_int (fuel : nat) (out : bytes) (value prefix : Z) (n : Z) : bytes :=
  let max_prefix := (1 .<< n) - 1 in
  if value <? max_prefix then out ++ [u8 (prefix .| value)]
  else out ++ u8 (prefix .| max_prefix) :: write_tail fuel (value - max_prefix).

(** The loop of the reader on the bytes left; the result is the value and the
    number of bytes read. *)
Fixpoint read_tail (W M : Z) (l : bytes) (shift acc : Z) : option (Z * nat) :=
  match l with
  | [] => None
  | b :: l =>
      let acc := wrap W (acc + wrap W ((b .& 0x7F) .<< shift)) in
      if b .& 0x80 =? 0 then Some (acc, 1%nat)
      else if M <? shift + 7 then None
      else '(v, k) ← read_tail W M l (shift + 7) acc; Some (v, S k)
  end.

Definition read_int (W M : Z) (buf : bytes) (off : nat) (n : Z) : option (Z * nat) :=
  b ← buf !! off;
  let max_prefix := (1 .<< n) - 1 in
  let out := b .& max_prefix in
  if out <? max_prefix then Some (out, S off)
  else '(v, k) ← read_tail W M (drop (S off) buf) 0 out; Some (v, (S off + k)%nat).

(** ** Lemmas *)

Lemma pow2_split n k : 0 <= n -> 0 <= k -> 2 ^ (n + k) = 2 ^ n * 2 ^ k.
Proof. intros. by apply Z.pow_add_r. Qed.

Lemma tail_byte v : 0 <= v ->
  u8 ((v .& 0x7F) .| 0x80) .& 0x7F = v mod 128 /\ u8 ((v .& 0x7F) .| 0x80) .& 0x80 <> 0.
Proof.
  intros Hv. rewrite (land_mask v 7 127) by (lia || done). change (2 ^ 7) with 128.
  pose proof (Z.mod_pos_bound v 128 ltac:(lia)) as Hm. set (m := v mod 128) in *.
  assert (E : m .| 0x80 = 128 + m).
  { rewrite Z.lor_comm. change (0x80 .| m) with ((1 .<< 7) .| m). rewrite (lor_shl_add 7 1 m) by lia. lia. }
  rewrite E, u8_small by (unfold byte_ok; lia). split.
  - rewrite (land_mask _ 7 127) by (lia || done). change (2 ^ 7) with 128.
    replace (128 + m) with (m + 1 * 128) by lia. rewrite Z.mod_add, Z.mod_small by lia. done.
  - intros H. assert (Hb : Z.testbit ((128 + m) .& 0x80) 7 = false) by (rewrite H; apply Z.bits_0).
    rewrite Z.land_spec in Hb. change (Z.testbit 0x80 7) with true in Hb. rewrite andb_true_r in Hb.
    rewrite Z.testbit_eqb in Hb by lia. change (2 ^ 7) with 128 in Hb.
    replace ((128 + m) / 128) with 1 in Hb; [done|].
    replace (128 + m) with (m + 1 * 128) by lia. rewrite Z.div_add, Z.div_small by lia. done.
Qed.

Lemma small_byte v : 0 <= v < 128 -> u8 v = v /\ v .& 0x7F = v /\ v .& 0x80 = 0.
Proof.
  intros Hv. rewrite u8_small by (unfold byte_ok; lia). split; [done|]. split.
  - rewrite (land_mask v 7 127) by (lia || done). apply Z.mod_small. lia.
  - apply Z.bits_inj_iff'. intros i Hi. rewrite Z.land_spec, Z.bits_0.
    destruct (decide (i = 7)) as [->|].
    + rewrite <- (Z.mod_small v (2 ^ 7)), Z.mod_pow2_bits_high by lia. done.
    + change 0x80 with (2 ^ 7). rewrite Z.pow2_bits_false by lia. apply andb_false_r.
Qed.

Lemma read_tail_bound W M l : forall shift acc v k, read_tail W M l shift acc = Some (v, k) -> (0 < k <= length l)%nat.
Proof.
  induction l as [|b l IH]; intros shift acc v k; cbn [read_tail]; [done|]. cbv zeta. case_match.
  - intros [= <- <-]. simpl. lia.
  - case_match; [done|]. destruct (read_tail W M l _ _) as [[v' k']|] eqn:E; [|done]. cbn [mbind option_bind].
    intros [= <- <-]. apply IH in E. simpl. lia.
Qed.

(** A read moves the cursor forward and not past the end. *)
Lemma prefix_int_bound W M buf off n v off' : read_int W M buf off n = Some (v, off') -> (off < off' <= length buf)%nat.
Proof.
  unfold read_int. destruct (buf !! off) as [b|] eqn:Eb; [|done]. apply lookup_lt_Some in Eb.
  cbn [mbind option_bind]. case_match; [intros [= <- <-]; lia|].
  destruct (read_tail _ _ _ _ _) as [[v' k]|] eqn:E; [|done]. cbn [mbind option_bind]. intros [= <- <-].
  apply read_tail_bound in E. rewrite length_drop in E. lia.
Qed.

(** A prefix byte: the [n] low bits of [prefix] are free for the value. *)
Lemma prefix_byte prefix n v : 0 <= n <= 8 -> 0 <= prefix < 256 -> prefix mod 2 ^ n = 0 -> 0 <= v < 2 ^ n ->
  u8 (prefix .| v) = prefix + v /\ (prefix + v) .& ((1 .<< n) - 1) = v.
Proof.
  intros Hn Hp Hm Hv. rewrite (lor_low_add n) by (lia || done).
  assert (Hpn : 2 ^ n <= 2 ^ 8) by (apply Z.pow_le_mono_r; lia). change (2 ^ 8) with 256 in Hpn.
  assert (Hle : prefix + v < 256).
  { apply Z.mod_divide in Hm; [|lia]. destruct Hm as [q Hq].
    assert (H256 : (2 ^ (8 - n)) * 2 ^ n = 256) by (rewrite <- Z.pow_add_r by lia; replace (8 - n + n) with 8 by lia; done).
    assert (q < 2 ^ (8 - n)) by nia. nia. }
  split; [apply u8_small; unfold byte_ok; lia|].
  rewrite shl_mul, Z.mul_1_l by lia. rewrite (land_mask _ n) by (lia || (rewrite Z.ones_equiv; lia)).
  apply Z.mod_divide in Hm; [|lia]. destruct Hm as [q ->]. rewrite Z.add_comm, Z.mod_add, Z.mod_small by lia. done.
Qed.

Lemma read_tail_nonneg W M l : forall shift acc v k, read_tail W M l shift acc = Some (v, k) -> 0 < 2 ^ W -> 0 <= v.
Proof.
  induction l as [|b l IH]; intros shift acc v k; cbn [read_tail]; [done|]. cbv zeta. case_match.
  - intros [= <- <-] HW. apply Z.mod_pos_bound. done.
  - case_match; [done|]. destruct (read_tail W M l _ _) as [[v' k']|] eqn:E; [|done]. cbn [mbind option_bind].
    intros [= <- <-] HW. by apply IH in E.
Qed.

Lemma prefix_int_nonneg W M buf off n v off' : 0 <= n -> 0 < 2 ^ W -> read_int W M buf off n = Some (v, off') -> 0 <= v.
Proof.
  intros Hn HW. unfold read_int. destruct (buf !! off) as [b|]; [|done]. cbn [mbind option_bind].
  case_match.
  - intros [= <- <-]. apply Z.land_nonneg. right. rewrite shl_mul by done. lia.
  - destruct (read_tail _ _ _ _ _) as [[v' k]|] eqn:E; [|done]. cbn [mbind option_bind]. intros [= <- <-].
    by apply read_tail_nonneg in E.
Qed.

Section Reader.
Context (W M : Z).
(** Every shift that can still matter in [W] bits is allowed. *)
Hypothesis shifts_fit : forall s, s mod 7 = 0 -> s < W -> s <= M.

Lemma wrap_small x : 0 <= x < 2 ^ W -> wrap W x = x.
Proof using. intros. unfold wrap. by apply Z.mod_small. Qed.

(** The continuation bytes are read back, and nothing behind them. *)
Lemma read_write_tail fuel : forall v shift acc rest,
  0 <= v < 2 ^ (7 * Z.of_nat fuel + 7) -> 0 <= shift -> 0 <= acc -> acc + v * 2 ^ shift < 2 ^ W -> shift mod 7 = 0 ->
  read_tail W M (write_tail fuel v ++ rest) shift acc =
    Some (acc + v * 2 ^ shift, length (write_tail fuel v)).
Proof.
  induction fuel as [|fuel IH]; intros v shift acc rest Hv Hsh Ha Hlt H7.
  all: assert (Hp : 0 < 2 ^ shift) by (apply Z.pow_pos_nonneg; lia).
  - change (2 ^ (7 * Z.of_nat 0 + 7)) with 128 in Hv. destruct (small_byte v Hv) as (E1 & E2 & E3).
    cbn [write_tail app read_tail length]. rewrite E1, E2, E3. cbn [Z.eqb]. cbv zeta.
    rewrite shl_mul by done. rewrite (wrap_small (v * _)) by nia.
    by rewrite wrap_small by nia.
  - cbn [write_tail]. destruct (Z.leb_spec 128 v) as [Hge|Hs].
    2: { destruct (small_byte v ltac:(lia)) as (E1 & E2 & E3). cbn [app read_tail length]. rewrite E1, E2, E3.
         cbn [Z.eqb]. cbv zeta. rewrite shl_mul by done. rewrite (wrap_small (v * _)) by nia.
         by rewrite wrap_small by nia. }
    cbn [app read_tail length]. destruct (tail_byte v ltac:(lia)) as [-> Hb].
    rewrite (proj2 (Z.eqb_neq _ 0)) by done. cbv zeta. rewrite (shr_div v 7) by lia. change (2 ^ 7) with 128.
    pose proof (Z.mod_pos_bound v 128 ltac:(lia)). pose proof (Z.div_mod v 128 ltac:(lia)) as Hdm.
    assert (Hps : 2 ^ (shift + 7) = 2 ^ shift * 128) by (rewrite pow2_split by lia; done).
    assert (Hq : 1 <= v / 128) by (apply Z.div_le_lower_bound; lia).
    assert (Hsh7 : shift + 7 <= M).
    { apply shifts_fit.
      - rewrite <- Z.add_mod_idemp_l, H7 by lia. done.
      - destruct (decide (shift + 7 < W)); [done|]. exfalso.
        assert (2 ^ W <= 2 ^ (shift + 7)) by (apply Z.pow_le_mono_r; lia). nia. }
    rewrite shl_mul by done. rewrite (wrap_small (v mod 128 * _)) by nia.
    rewrite wrap_small by nia. rewrite (proj2 (Z.ltb_ge _ _)) by lia.
    rewrite IH; [|split; [lia|]|lia|nia|rewrite Hps; nia|].
    + cbn [mbind option_bind]. do 2 f_equal. rewrite Hps. nia.
    + apply Z.div_lt_upper_bound; [lia|]. change 128 with (2 ^ 7) at 1. rewrite <- Z.pow_add_r by lia.
      replace (7 + (7 * Z.of_nat fuel + 7)) with (7 * Z.of_nat (S fuel) + 7) by lia. lia.
    + rewrite <- Z.add_mod_idemp_l, H7 by lia. done.
Qed.

(** Prefix integers: the image starts with a byte that keeps the prefix. *)
Lemma prefix_int_spec fuel out v prefix n :
  1 <= n <= 8 -> 0 <= prefix < 256 -> prefix mod 2 ^ n = 0 -> 0 <= v < 2 ^ W -> v < 2 ^ (7 * Z.of_nat fuel + 7) ->
  exists b l, write_int fuel out v prefix n = out ++ b :: l /\ (exists r, 0 <= r < 2 ^ n /\ b = prefix + r) /\
    forall buf off rest, at_cursor buf off ((b :: l) ++ rest) ->
      read_int W M buf off n = Some (v, (off + length (b :: l))%nat).
Proof.
  intros Hn Hp Hm Hv Hf. unfold write_int, read_int. set (mp := (1 .<< n) - 1).
  assert (Hmp : mp = 2 ^ n - 1) by (unfold mp; rewrite shl_mul, Z.mul_1_l by lia; done).
  assert (Hpow : 2 <= 2 ^ n <= 256).
  { split; [change 2 with (2 ^ 1) at 1|change 256 with (2 ^ 8)]; apply Z.pow_le_mono_r; lia. }
  destruct (Z.ltb_spec v mp) as [Hlt|Hge].
  - destruct (prefix_byte prefix n v) as [E1 E2]; try lia. rewrite E1. exists (prefix + v), []. split; [done|].
    split; [exists v; split; [lia|done]|]. intros buf off rest [Hl _]%at_cursor_cons. rewrite Hl.
    cbn [mbind option_bind]. fold mp in E2. rewrite E2, (proj2 (Z.ltb_lt _ _)) by done. cbn [length].
    by replace (off + 1)%nat with (S off) by lia.
  - destruct (prefix_byte prefix n mp) as [E1 E2]; try lia. rewrite E1. exists (prefix + mp), (write_tail fuel (v - mp)).
    split; [done|]. split; [exists mp; split; [lia|done]|]. intros buf off rest Hc.
    destruct (at_cursor_cons _ _ _ _ Hc) as (Hl & [_ Hd] & _). rewrite Hl. cbn [mbind option_bind].
    fold mp in E2. rewrite E2, Z.ltb_irrefl. replace (S off) with (off + 1)%nat by lia. rewrite Hd.
    rewrite read_write_tail; [|lia|lia|lia|rewrite Z.mul_1_r; lia|done].
    cbn [mbind option_bind length]. do 2 f_equal; lia.
Qed.

End Reader.
