(* ===== verification/VarInt.v ===== *)
(** * RFC 9000 variable-length integers

    Model of [VarInt] (example/quic-http3/src/quic/varint.cpp): the two top
    bits of the first byte give the length of the big-endian value.  A thrown
    [std::out_of_range] is [None]; a failed [decode] is [None]. *)
From S2P Require Import Prelude.

Local Open Scope Z_scope.

(** ** Operations *)

Definition k1ByteMax : Z := (1 .<< 6) - 1.
Definition k2ByteMax : Z := (1 .<< 14) - 1.
Definition k4ByteMax : Z := (1 .<< 30) - 1.
Definition kMax : Z := (1 .<< 62) - 1.

Definition kPrefix2 : Z := 0x40.
Definition kPrefix4 : Z := 0x80.
Definition kPrefix8 : Z := 0xC0.

Definition encoded_size (value : Z) : option nat :=
  if value <=? k1ByteMax then Some 1%nat
  else if value <=? k2ByteMax then Some 2%nat
  else if value <=? k4ByteMax then Some 4%nat
  else if value <=? kMax then Some 8%nat
  else None.

(** The bytes [VarInt::write] stores at [out]. *)
Definition write (value : Z) : option bytes :=
  size ← encoded_size value;
  Some match size with
  | 1%nat => [u8 value]
  | 2%nat => [u8 (kPrefix2 .| ((value .>> 8) .& 0x3F)); u8 (value .& 0xFF)]
  | 4%nat => [u8 (kPrefix4 .| ((value .>> 24) .& 0x3F)); u8 ((value .>> 16) .& 0xFF);
              u8 ((value .>> 8) .& 0xFF); u8 (value .& 0xFF)]
  | _ => [u8 (kPrefix8 .| ((value .>> 56) .& 0x3F)); u8 ((value .>> 48) .& 0xFF);
          u8 ((value .>> 40) .& 0xFF); u8 ((value .>> 32) .& 0xFF);
          u8 ((value .>> 24) .& 0xFF); u8 ((value .>> 16) .& 0xFF);
          u8 ((value .>> 8) .& 0xFF); u8 (value .& 0xFF)]
  end.

(** [encode] allocates [encoded_size] zero bytes and lets [write] fill them. *)
Definition encode (value : Z) : option bytes :=
  size ← encoded_size value;
  w ← write value;
  Some (w ++ drop (length w) (replicate size 0)).

(** [append] grows [out] by [encoded_size] bytes and writes at the old end. *)
Definition append (out : bytes) (value : Z) : option bytes :=
  size ← encoded_size value;
  w ← write value;
  Some (out ++ w ++ drop (length w) (replicate size 0)).

Definition decode (buf : bytes) (offset : nat) : option (Z * nat) :=
  if (length buf <=? offset)%nat then None else
  first ← buf !! offset;
  let size := Nat.pow 2 (Z.to_nat (first .>> 6)) in
  if (length buf <? offset + size)%nat then None else
  let result := be_fold (first .& 0x3F) (take (size - 1) (drop (offset + 1) buf)) in
  Some (result, (offset + size)%nat).

(** ** Specification and lemmas *)

Definition varint_ok (v : Z) : Prop := 0 <= v <= kMax.

Global Instance varint_ok_dec v : Decision (varint_ok v).
Proof. unfold varint_ok; apply _. Defined.

(** The wire image of a value, as a total function. *)
Definition enc (v : Z) : bytes := default [] (write v).

(** Length prefix of the first byte: [2^tag] bytes hold the value. *)
Definition tag_of (v : Z) : nat :=
  if v <=? k1ByteMax then 0 else if v <=? k2ByteMax then 1 else if v <=? k4ByteMax then 2 else 3.

Lemma u8_prefix p x : p mod 64 = 0 -> 0 <= p < 256 -> u8 (p .| (x .& 63)) = p + x mod 64.
Proof.
  intros Hp Hr. rewrite (land_mask x 6 63) by (lia || done).
  assert (0 <= x mod 2 ^ 6 < 64) by (apply Z.mod_pos_bound; lia).
  rewrite (lor_low_add 6) by (lia || done). apply u8_small. unfold byte_ok.
  change (2 ^ 6) with 64 in *. rewrite Z.mod_divide in Hp by lia. destruct Hp; lia.
Qed.

Lemma tag_of_le v : (tag_of v <= 3)%nat.
Proof. unfold tag_of; repeat case_match; lia. Qed.

(** The four cases of [write], uniformly: a tagged first byte and the
    big-endian rest. *)
Lemma enc_shape v : varint_ok v ->
  let n := Nat.pow 2 (tag_of v) in
  write v = Some (enc v) /\ encoded_size v = Some n /\
  enc v = (64 * Z.of_nat (tag_of v) + (v / 2 ^ (8 * Z.of_nat (n - 1))) mod 64) :: be_bytes (n - 1) v /\
  v < 2 ^ (8 * Z.of_nat n - 2).
Proof.
  intros [H0 Hmax]. unfold enc, write, encoded_size, tag_of.
  assert (k1ByteMax = 63 /\ k2ByteMax = 16383 /\ k4ByteMax = 1073741823 /\ kMax = 4611686018427387903)
    as (E1 & E2 & E4 & E8) by (vm_compute; auto).
  rewrite E1, E2, E4, E8 in *.
  repeat case_match; try lia; (split; [done|split; [done|split; [|simpl; lia]]]); simpl;
    rewrite ?u8_land255, ?u8_prefix, ?Z.shiftr_0_r by done; bits; [|done..].
  rewrite Z.div_1_r, Z.mod_small, u8_small by (unfold byte_ok; lia). done.
Qed.

Lemma enc_length v : varint_ok v -> length (enc v) = Nat.pow 2 (tag_of v).
Proof.
  intros H. destruct (enc_shape v H) as (_ & _ & -> & _). simpl. rewrite be_bytes_length.
  assert (Nat.pow 2 (tag_of v) <> 0)%nat by (apply Nat.pow_nonzero; lia). lia.
Qed.

Lemma enc_length_pos v : varint_ok v -> (0 < length (enc v) <= 8)%nat.
Proof.
  intros H. rewrite enc_length by done. pose proof (tag_of_le v).
  destruct (tag_of v) as [|[|[|[|]]]]; simpl; lia.
Qed.

Lemma enc_ok v : varint_ok v -> bytes_ok (enc v).
Proof.
  intros H. destruct (enc_shape v H) as (_ & _ & -> & _). constructor; [|apply be_bytes_ok].
  pose proof (tag_of_le v). unfold byte_ok.
  pose proof (Z.mod_pos_bound (v / 2 ^ (8 * Z.of_nat (2 ^ tag_of v - 1))) 64). lia.
Qed.

Lemma encode_ok v : varint_ok v -> encode v = Some (enc v).
Proof.
  intros H. pose proof (enc_length v H). destruct (enc_shape v H) as (Hw & Hs & _).
  unfold encode. rewrite Hs, Hw; simpl. rewrite H0, drop_replicate_all, app_nil_r. done.
Qed.

Lemma append_ok out v : varint_ok v -> append out v = Some (out ++ enc v).
Proof.
  intros H. pose proof (enc_length v H). destruct (enc_shape v H) as (Hw & Hs & _).
  unfold append. rewrite Hs, Hw; simpl. rewrite H0, drop_replicate_all, app_nil_r. done.
Qed.

Lemma append_throws out v : kMax < v -> append out v = None.
Proof.
  intros H. unfold append, encoded_size.
  assert (k1ByteMax < kMax /\ k2ByteMax < kMax /\ k4ByteMax < kMax) by (vm_compute; auto).
  repeat case_match; lia || done.
Qed.

(** The arithmetic of reading a value back from its tagged first byte
    (whose low six bits are the top of the value) and [n - 1] more bytes. *)
Lemma decode_value v n :
  (1 <= n <= 8)%nat -> 0 <= v < 2 ^ (8 * Z.of_nat n - 2) ->
  be_fold ((v / 2 ^ (8 * Z.of_nat (n - 1))) mod 64) (be_bytes (n - 1) v) = v.
Proof.
  intros Hn Hlt. set (p := 2 ^ (8 * Z.of_nat (n - 1))).
  assert (Hp : 0 < p) by (apply Z.pow_pos_nonneg; lia).
  assert (Hp64 : 64 * p <= 2 ^ 62).
  { change (2 ^ 62) with (64 * 2 ^ 56). apply Z.mul_le_mono_nonneg_l; [lia|]. apply Z.pow_le_mono_r; lia. }
  replace (8 * Z.of_nat n - 2) with (6 + 8 * Z.of_nat (n - 1)) in Hlt by lia.
  rewrite Z.pow_add_r in Hlt by lia. fold p in Hlt. change (2 ^ 6) with 64 in Hlt.
  assert (Hm : 0 <= v / p < 64).
  { split; [apply Z.div_pos; lia|]. apply Z.div_lt_upper_bound; lia. }
  rewrite (Z.mod_small (v / p)) by lia.
  assert ((v / p + 1) * p <= 64 * p) by (apply Z.mul_le_mono_nonneg_r; lia).
  rewrite be_fold_be_bytes by (fold p; lia). fold p. pose proof (Z.div_mod v p). lia.
Qed.

Lemma first_byte_tag t m : 0 <= m < 64 ->
  (64 * Z.of_nat t + m) .>> 6 = Z.of_nat t /\ (64 * Z.of_nat t + m) .& 63 = m.
Proof.
  intros Hm. bits. change (2 ^ 6) with 64. rewrite Z.mul_comm. split.
  - rewrite Z.div_add_l, Z.div_small by lia. lia.
  - rewrite Z.add_comm, Z.mod_add, Z.mod_small by lia. done.
Qed.

(** Reading back an encoded value leaves the cursor just behind it. *)
Lemma decode_enc buf off v rest :
  varint_ok v -> drop off buf = enc v ++ rest ->
  decode buf off = Some (v, (off + length (enc v))%nat).
Proof.
  intros Hv Hd. pose proof (enc_length v Hv) as Hlen.
  destruct (enc_shape v Hv) as (_ & _ & Hs & Hlt).
  assert (Hb := drop_length_bound _ _ _ _ Hd). rewrite Hs in Hd. cbn [app] in Hd.
  apply drop_cons_inv in Hd as (Hl & Hr & Hlt').
  specialize (Hb ltac:(rewrite Hs; done)).
  unfold decode. rewrite (proj2 (Nat.leb_gt _ _)), Hl by lia. cbn [mbind option_bind].
  destruct (first_byte_tag (tag_of v) ((v / 2 ^ (8 * Z.of_nat (2 ^ tag_of v - 1))) mod 64)) as [-> ->];
    [apply Z.mod_pos_bound; lia|].
  rewrite Nat2Z.id. cbv zeta. rewrite (proj2 (Nat.ltb_ge _ _)) by lia.
  rewrite Hr, take_app_length' by (rewrite be_bytes_length; done). rewrite <- Hlen. do 2 f_equal.
  rewrite Hlen. apply decode_value; [|destruct Hv; lia].
  pose proof (tag_of_le v). destruct (tag_of v) as [|[|[|[|]]]]; simpl; lia.
Qed.

(** A successful read consumes 1, 2, 4 or 8 bytes of the buffer, all in
    bounds, and yields a value of at most 62 bits. *)
Lemma be_fold_bound l : forall acc k,
  0 <= k -> 0 <= acc < 2 ^ k -> k + 8 * #l <= 64 -> bytes_ok l ->
  0 <= be_fold acc l < 2 ^ (k + 8 * #l).
Proof.
  induction l as [|b l IH]; intros acc k Hk Hacc Hlen Hok; cbn [length] in *.
  - rewrite Z.add_0_r. done.
  - inversion Hok as [|? ? Hb Hok']; subst. unfold byte_ok in Hb.
    assert (Hpk : 2 ^ (k + 8) = 2 ^ k * 256) by (rewrite Z.pow_add_r by lia; done).
    assert (Hpk' : 2 ^ (k + 8) <= 2 ^ 64) by (apply Z.pow_le_mono_r; lia).
    rewrite be_fold_cons_small by (done || lia).
    replace (k + 8 * Z.of_nat (S (length l))) with ((k + 8) + 8 * #l) by lia.
    apply IH; [lia|lia|lia|done].
Qed.

Lemma decode_bounds buf off v off' :
  bytes_ok buf -> decode buf off = Some (v, off') ->
  varint_ok v /\ (off < off' <= length buf)%nat /\ (off' - off)%nat ∈ [1; 2; 4; 8]%nat.
Proof.
  intros Hok. unfold decode. case_match eqn:E1; [done|].
  destruct (buf !! off) as [b|] eqn:Hb; [|done]. cbn [mbind option_bind]. cbv zeta.
  case_match eqn:E2; [done|]. intros [= <- <-].
  apply Nat.ltb_ge in E2. assert (Hbo : byte_ok b) by (eapply Forall_lookup_1; done).
  assert (Ht : exists t : nat, b .>> 6 = Z.of_nat t /\ (t <= 3)%nat).
  { exists (Z.to_nat (b .>> 6)). bits. unfold byte_ok in Hbo.
    assert (0 <= b / 2 ^ 6 < 4) by (split; [apply Z.div_pos|apply Z.div_lt_upper_bound]; lia). lia. }
  destruct Ht as (t & Ht & Htl). rewrite Ht, Nat2Z.id in *.
  assert (Hn : (2 ^ t)%nat ∈ [1; 2; 4; 8]%nat /\ (1 <= 2 ^ t <= 8)%nat).
  { destruct t as [|[|[|[|]]]]; simpl; [set_solver by lia..|lia]. }
  split; [|split; [lia|]]; [|replace (off + 2 ^ t - off)%nat with (2 ^ t)%nat by lia; apply Hn].
  assert (Hlt : #(take (2 ^ t - 1) (drop (off + 1) buf)) = Z.of_nat (2 ^ t - 1)).
  { rewrite length_take, length_drop. lia. }
  destruct (be_fold_bound (take (2 ^ t - 1) (drop (off + 1) buf)) (b .& 63) 6) as [H0 H1].
  - lia.
  - bits. apply Z.mod_pos_bound. lia.
  - lia.
  - apply Forall_take, Forall_drop, Hok.
  - split; [done|]. rewrite Hlt in H1. change kMax with (2 ^ 62 - 1).
    assert (2 ^ (6 + 8 * Z.of_nat (2 ^ t - 1)) <= 2 ^ 62) by (apply Z.pow_le_mono_r; lia). lia.
Qed.

(** The form the codecs use: the cursor moves over the integer. *)
Lemma decode_at buf off v rest :
  varint_ok v -> at_cursor buf off (enc v ++ rest) ->
  decode buf off = Some (v, (off + length (enc v))%nat).
Proof. intros Hv [_ Hd]. by eapply decode_enc. Qed.

Lemma decode_progress buf off v off' : decode buf off = Some (v, off') -> (off < off' <= length buf)%nat.
Proof.
  unfold decode. case_match; [done|]. destruct (buf !! off); [|done]. cbn [mbind option_bind]. cbv zeta.
  case_match eqn:E; [done|]. intros [= <- <-]. apply Nat.ltb_ge in E.
  assert (Nat.pow 2 (Z.to_nat (z .>> 6)) <> 0)%nat by (apply Nat.pow_nonzero; lia). lia.
Qed.

(** A strict prefix of an encoded integer is not decoded. *)
Lemma decode_prefix buf off v n :
  varint_ok v -> (n < length (enc v))%nat -> at_cursor buf off (take n (enc v)) -> decode buf off = None.
Proof.
  intros Hv Hn Hc. pose proof (at_cursor_length _ _ _ Hc) as Hl. rewrite length_take in Hl.
  pose proof (enc_length v Hv) as Hlen. destruct (enc_shape v Hv) as (_ & _ & Hs & _).
  unfold decode. destruct (Nat.leb_spec (length buf) off) as [|Hlt]; [done|].
  destruct n as [|n]; [lia|]. destruct Hc as [_ Hd]. rewrite Hs in Hd. cbn [take] in Hd.
  apply drop_cons_inv in Hd as (-> & _ & _). cbn [mbind option_bind].
  destruct (first_byte_tag (tag_of v) ((v / 2 ^ (8 * Z.of_nat (2 ^ tag_of v - 1))) mod 64)) as [-> _];
    [apply Z.mod_pos_bound; lia|].
  rewrite Nat2Z.id. cbv zeta. rewrite (proj2 (Nat.ltb_lt _ _)); [done|]. lia.
Qed.

(** [read_varint off] over a cursor known to stand on an encoded integer. *)
Ltac varint_step :=
  match goal with
  | H : at_cursor ?buf ?off (enc ?v ++ ?rest) |- context [VarInt.decode ?buf ?off] =>
      rewrite (decode_at buf off v rest) by assumption;
      cbn [mbind option_bind]; cbv beta; apply at_cursor_app in H
  end.

(** ** Properties *)

(** [VarInt::append] and [VarInt::decode] are inverse on the 62-bit
    values, anywhere in a buffer: the image has the size [encoded_size]
    announces and consists of bytes, and decoding it returns the value and
    the cursor behind it; above [kMax] both [encode] and [append] throw. *)
Theorem varint_roundtrip v out pre rest : 0 <= v ->
  (v <= kMax -> exists bs, encode v = Some bs /\ append out v = Some (out ++ bs) /\
     encoded_size v = Some (length bs) /\ bytes_ok bs /\
     decode (pre ++ bs ++ rest) (length pre) = Some (v, (length pre + length bs)%nat)) /\
  (kMax < v -> encode v = None /\ append out v = None).
Proof.
  intros H0. split.
  - intros Hle. assert (Hv : varint_ok v) by done. exists (enc v).
    destruct (enc_shape v Hv) as (_ & Hs & _). rewrite encode_ok, append_ok, enc_length by done.
    repeat split; [done|by apply enc_ok|]. rewrite <- enc_length by done.
    apply (decode_at _ _ _ rest Hv), at_cursor_start.
  - intros Hgt. split; [|by apply append_throws].
    pose proof (append_throws [] v Hgt) as Ha. unfold append, encode in *.
    destruct (encoded_size v); [|done]. by destruct (write v).
Qed.

Lemma varint_roundtrip_witness :
  (exists bs, encode 15293 = Some bs /\ append [1] 15293 = Some ([1] ++ bs) /\
     encoded_size 15293 = Some (length bs) /\ bytes_ok bs /\
     decode ([5; 6] ++ bs ++ [7]) 2 = Some (15293, (2 + length bs)%nat)) /\
  encode 4611686018427387904 = None.
Proof.
  split.
  - apply (varint_roundtrip 15293 [1] [5; 6] [7]); vm_compute; discriminate.
  - apply (varint_roundtrip 4611686018427387904 [1] [5; 6] [7]); vm_compute; done.
Defined.

(** Decoding hostile bytes is memory safe and bounded: a successful
    [decode] consumed 1, 2, 4 or 8 bytes, all inside the buffer, and produced
    a value of at most 62 bits, so 64-bit cursor additions of it to a
    container size cannot wrap. *)
Theorem varint_decode_bounds buf off v off' :
  bytes_ok buf -> size_ok buf -> decode buf off = Some (v, off') ->
  varint_ok v /\ (off < off' <= length buf)%nat /\ (off' - off)%nat ∈ [1; 2; 4; 8]%nat /\
  u64 (Z.of_nat off' + v) = Z.of_nat off' + v.
Proof.
  intros Hb Hs H. destruct (decode_bounds _ _ _ _ Hb H) as (Hv & Ho & Hn). repeat split_and; try done; try lia.
  apply u64_small. destruct Hv as [? Hv]. unfold size_ok in Hs. change kMax with (2 ^ 62 - 1) in Hv.
  unfold u64_ok. lia.
Qed.

Lemma varint_decode_bounds_witness : varint_ok 63.
Proof. apply (varint_decode_bounds [1; 63; 2] 1 63 2); [repeat constructor; done|done|reflexivity]. Defined.
