(* ===== verification/SortedMap.v ===== *)
(** * Maps in key order

    A [std::map<uint64_t, V>] as the list of its entries in ascending key
    order, with the operations the QUIC connection uses: [find],
    [operator[]] assignment, [emplace], [erase], and the in-order walks that
    erase entries on the way. *)
From S2P Require Import Prelude.

Local Open Scope Z_scope.

Section SortedMap.
Context {V : Type}.

Fixpoint sm_find (k : Z) (m : list (Z * V)) : option V :=
  match m with
  | [] => None
  | (j, v) :: m => if j =? k then Some v else sm_find k m
  end.

(** [m[k] = v]. *)
Fixpoint sm_insert (k : Z) (v : V) (m : list (Z * V)) : list (Z * V) :=
  match m with
  | [] => [(k, v)]
  | (j, w) :: m' => if k <? j then (k, v) :: m else if j =? k then (k, v) :: m' else (j, w) :: sm_insert k v m'
  end.

Definition sm_emplace (k : Z) (v : V) (m : list (Z * V)) : list (Z * V) :=
  match sm_find k m with Some _ => m | None => sm_insert k v m end.

(** Changing the value an iterator points to. *)
Fixpoint sm_update (k : Z) (f : V -> V) (m : list (Z * V)) : list (Z * V) :=
  match m with
  | [] => []
  | (j, v) :: m => if j =? k then (j, f v) :: m else (j, v) :: sm_update k f m
  end.

Definition keys (m : list (Z * V)) : list Z := m.*1.

(** Ascending keys, all above [l]. *)
Fixpoint above (l : Z) (m : list (Z * V)) : Prop :=
  match m with [] => True | (k, _) :: m => l < k /\ above k m end.

Definition sorted_map (m : list (Z * V)) : Prop := exists l, above l m.

Lemma above_weaken l l' m : l' <= l -> above l m -> above l' m.
Proof. destruct m as [|[k v] m]; [done|]. cbn. intros ? [? ?]. split; [lia|done]. Qed.

Lemma above_find l m k : above l m -> k <= l -> sm_find k m = None.
Proof.
  revert l. induction m as [|[j v] m IH]; intros l H Hk; [done|]. cbn in *. destruct H as [H1 H2].
  destruct (Z.eqb_spec j k); [lia|]. apply (IH j H2). lia.
Qed.

Lemma above_insert l k v m : above l m -> l < k -> above l (sm_insert k v m).
Proof.
  revert l. induction m as [|[j w] m IH]; intros l H Hk; [done|]. cbn [sm_insert above] in *. destruct H as [H1 H2].
  destruct (Z.ltb_spec k j); [done|]. destruct (Z.eqb_spec j k) as [->|]; [done|]. split; [done|]. apply IH; [done|lia].
Qed.

Lemma sorted_insert k v m : sorted_map m -> sorted_map (sm_insert k v m).
Proof. intros [l H]. exists (Z.min l (k - 1)). apply above_insert; [eapply above_weaken; [|done]; lia|lia]. Qed.

Lemma find_insert k v m j : sm_find j (sm_insert k v m) = if k =? j then Some v else sm_find j m.
Proof.
  induction m as [|[i w] m IH]; cbn [sm_insert sm_find]; [done|]. destruct (Z.ltb_spec k i); [done|].
  destruct (Z.eqb_spec i k) as [->|Hn]; cbn [sm_find].
  - by destruct (Z.eqb_spec k j).
  - rewrite IH. destruct (Z.eqb_spec i j), (Z.eqb_spec k j); congruence.
Qed.

Lemma find_update k f m j : sm_find j (sm_update k f m) = if k =? j then f <$> sm_find j m else sm_find j m.
Proof.
  induction m as [|[i w] m IH]; cbn [sm_update sm_find]; [by case_match|]. destruct (Z.eqb_spec i k) as [->|Hn]; cbn [sm_find].
  - by destruct (Z.eqb_spec k j).
  - rewrite IH. destruct (Z.eqb_spec i j), (Z.eqb_spec k j); congruence.
Qed.

Lemma keys_update k f m : keys (sm_update k f m) = keys m.
Proof. induction m as [|[j v] m IH]; [done|]. cbn [sm_update]. case_match; cbn; [done|]. f_equal. exact IH. Qed.

Lemma above_keys l m m' : keys m = keys m' -> above l m -> above l m'.
Proof.
  revert l m'. induction m as [|[j v] m IH]; intros l [|[j' v'] m'] E H; try done. cbn in *. injection E as <- E. destruct H. split; [done|]. by apply IH.
Qed.

Lemma sorted_update k f m : sorted_map m -> sorted_map (sm_update k f m).
Proof. intros [l H]. exists l. eapply above_keys; [|done]. by rewrite keys_update. Qed.

Lemma above_elem l m k v : above l m -> (k, v) ∈ m -> l < k /\ sm_find k m = Some v.
Proof.
  revert l. induction m as [|[j w] m IH]; intros l H Hin; [by apply elem_of_nil in Hin|]. cbn [above] in H. destruct H as [H1 H2].
  cbn [sm_find]. apply elem_of_cons in Hin as [[= -> ->]|Hin].
  - by rewrite Z.eqb_refl.
  - destruct (IH j H2 Hin) as [H3 H4]. destruct (Z.eqb_spec j k); [lia|]. split; [lia|done].
Qed.

Lemma find_elem m k v : sm_find k m = Some v -> (k, v) ∈ m.
Proof.
  induction m as [|[j w] m IH]; [done|]. cbn [sm_find]. destruct (Z.eqb_spec j k) as [->|]; [intros [= ->]; left|]. right. by apply IH.
Qed.

Lemma sorted_filter (P : Z * V -> Prop) {dec : forall x, Decision (P x)} m : sorted_map m -> sorted_map (filter P m).
Proof.
  intros [l H]. exists l. revert l H. induction m as [|[k v] m IH]; intros l H; [done|]. cbn [above] in H. destruct H as [H1 H2].
  rewrite filter_cons. case_decide; cbn [above]; [split; [done|by apply IH]|]. apply IH. eapply above_weaken; [|done]. lia.
Qed.

Lemma find_filter (P : Z * V -> Prop) {dec : forall x, Decision (P x)} m k : sorted_map m ->
  sm_find k (filter P m) = v ← sm_find k m; if decide (P (k, v)) then Some v else None.
Proof.
  intros [l H]. revert l H. induction m as [|[j v] m IH]; intros l H; [done|]. cbn [above] in H. destruct H as [H1 H2].
  rewrite filter_cons. cbn [sm_find]. destruct (Z.eqb_spec j k) as [->|Hn].
  - cbn [mbind option_bind]. destruct (decide (P (k, v))) as [Hp|Hp]; cbn [sm_find]; [by rewrite Z.eqb_refl|].
    rewrite (IH k H2), (above_find k m k H2) by lia. done.
  - destruct (decide (P (j, v))); cbn [sm_find]; [rewrite (proj2 (Z.eqb_neq j k) Hn)|]; by apply (IH j).
Qed.

(** *** Sums over the values *)

Definition sm_sum (g : V -> Z) (m : list (Z * V)) : Z := foldr (fun kv s => g kv.2 + s) 0 m.

Lemma sum_insert g k v m : sorted_map m -> sm_sum g (sm_insert k v m) = sm_sum g m + g v - default 0 (g <$> sm_find k m).
Proof.
  intros [l H]. revert l H. induction m as [|[j w] m IH]; intros l H; [cbn; lia|]. cbn [sm_insert above sm_find] in *. destruct H as [H1 H2].
  destruct (Z.ltb_spec k j).
  - destruct (Z.eqb_spec j k); [lia|]. rewrite (above_find j m k H2) by lia. cbn. lia.
  - destruct (Z.eqb_spec j k) as [->|]; cbn [sm_sum foldr snd fmap option_fmap option_map default].
    + unfold id. lia.
    + specialize (IH j H2). unfold sm_sum in IH at 1 2. rewrite IH. lia.
Qed.

Lemma sum_update g k f m : sm_sum g (sm_update k f m) = sm_sum g m + default 0 ((fun v => g (f v) - g v) <$> sm_find k m).
Proof.
  induction m as [|[j w] m IH]; [cbn; lia|]. cbn [sm_update sm_find]. destruct (Z.eqb_spec j k) as [->|]; cbn [sm_sum foldr snd fmap option_fmap option_map default].
  - unfold id. lia.
  - unfold sm_sum in IH at 1 2. rewrite IH. lia.
Qed.

Lemma sum_find_le g m k v : (forall v, 0 <= g v) -> sm_find k m = Some v -> g v <= sm_sum g m.
Proof.
  intros Hg. assert (Hs : forall m, 0 <= sm_sum g m) by (induction m0 as [|[j w] m0 IH]; cbn; [lia|]; specialize (Hg w); unfold sm_sum in IH; lia).
  induction m as [|[j w] m IH]; [done|]. cbn [sm_find sm_sum foldr snd]. destruct (Z.eqb_spec j k).
  - intros [= ->]. specialize (Hs m). unfold sm_sum in Hs. lia.
  - intros H. specialize (IH H). specialize (Hg w). unfold sm_sum in IH. lia.
Qed.
End SortedMap.
