(* ===== verification/ByteMap.v ===== *)
(** * Maps keyed by byte strings

    A [std::map<std::vector<uint8_t>, V>] as the list of its entries in
    lexicographic key order, with the operations the QUIC listener and the
    HTTP/3 service use. *)
From S2P Require Import Prelude.

Local Open Scope Z_scope.

(** [operator<] of [std::vector<uint8_t>]. *)
Fixpoint bytes_lt (a b : bytes) : bool :=
  match a, b with
  | _, [] => false
  | [], _ :: _ => true
  | x :: a, y :: b => (x <? y) || ((x =? y) && bytes_lt a b)
  end.

Section ByteMap.
Context {V : Type}.

Fixpoint bm_find (k : bytes) (m : list (bytes * V)) : option V :=
  match m with
  | [] => None
  | (j, v) :: m => if decide (j = k) then Some v else bm_find k m
  end.

(** [m[k] = v]. *)
Fixpoint bm_insert (k : bytes) (v : V) (m : list (bytes * V)) : list (bytes * V) :=
  match m with
  | [] => [(k, v)]
  | (j, w) :: m' => if decide (j = k) then (k, v) :: m' else if bytes_lt k j then (k, v) :: m else (j, w) :: bm_insert k v m'
  end.

(** Ascending keys: each entry is below the next one. *)
Fixpoint bm_sorted (m : list (bytes * V)) : Prop :=
  match m with
  | [] => True
  | (k, _) :: m => Forall (fun e => bytes_lt k e.1 = true) m /\ bm_sorted m
  end.
End ByteMap.

(** ** Lemmas *)

Lemma bytes_lt_irrefl a : bytes_lt a a = false.
Proof. induction a as [|x a IH]; [done|]. cbn. by rewrite Z.ltb_irrefl, Z.eqb_refl, IH. Qed.

Lemma bytes_lt_trans a : forall b c, bytes_lt a b = true -> bytes_lt b c = true -> bytes_lt a c = true.
Proof.
  induction a as [|x a IH]; intros [|y b] [|z c] H1 H2; try done. cbn in *.
  destruct (Z.ltb_spec x y), (Z.ltb_spec y z), (Z.ltb_spec x z), (Z.eqb_spec x y), (Z.eqb_spec y z), (Z.eqb_spec x z);
    cbn in *; try done; try lia. by eapply IH.
Qed.

Lemma bytes_lt_total a : forall b, a <> b -> bytes_lt a b = false -> bytes_lt b a = true.
Proof.
  induction a as [|x a IH]; intros [|y b] Hne H; try done. cbn in *.
  destruct (Z.ltb_spec x y), (Z.ltb_spec y x), (Z.eqb_spec x y), (Z.eqb_spec y x); cbn in *; try done; try lia.
  apply IH; congruence.
Qed.

Section Lemmas.
Context {V : Type}.
Implicit Types (k j : bytes) (m : list (bytes * V)).

Lemma bm_find_insert k v m j : bm_find j (bm_insert k v m) = if decide (k = j) then Some v else bm_find j m.
Proof.
  induction m as [|[i w] m IH]; cbn [bm_insert bm_find]; [done|].
  destruct (decide (i = k)) as [->|Hn]; cbn [bm_find]; [by destruct (decide (k = j))|].
  destruct (bytes_lt k i); cbn [bm_find]; [done|]. rewrite IH.
  destruct (decide (i = j)), (decide (k = j)); congruence.
Qed.

Lemma bm_elem_insert k v m e : e ∈ bm_insert k v m -> e = (k, v) \/ e ∈ m.
Proof.
  induction m as [|[i w] m IH]; cbn [bm_insert]; [set_solver|].
  destruct (decide (i = k)); [set_solver|]. destruct (bytes_lt k i); [set_solver|].
  intros [->|H]%elem_of_cons; [set_solver|]. destruct (IH H); set_solver.
Qed.

Lemma bm_sorted_insert k v m : bm_sorted m -> bm_sorted (bm_insert k v m).
Proof.
  induction m as [|[i w] m IH]; cbn [bm_insert]; [by intros _; repeat constructor|]. intros [H1 H2]. cbn [bm_sorted].
  destruct (decide (i = k)) as [->|Hn]; [done|]. destruct (bytes_lt k i) eqn:E; cbn [bm_sorted].
  - split; [|done]. constructor; [done|]. eapply Forall_impl; [done|]. intros e He. by eapply bytes_lt_trans.
  - split; [|by apply IH]. apply Forall_forall. intros e [->|He]%bm_elem_insert; [|by eapply Forall_forall in H1].
    apply bytes_lt_total; [cbn; congruence|done].
Qed.

Lemma bm_find_elem m k v : bm_find k m = Some v -> (k, v) ∈ m.
Proof. induction m as [|[j w] m IH]; [done|]. cbn [bm_find]. case_decide; [intros [= ->]; subst; left|]. intros. right. by apply IH. Qed.

Lemma bm_elem_find m k v : bm_sorted m -> (k, v) ∈ m -> bm_find k m = Some v.
Proof.
  induction m as [|[j w] m IH]; [set_solver|]. cbn [bm_sorted bm_find]. intros [H1 H2] [[= -> ->]|H]%elem_of_cons.
  - by rewrite decide_True.
  - rewrite decide_False; [by apply IH|]. intros ->. eapply Forall_forall in H1; [|exact H]. cbn in H1. by rewrite bytes_lt_irrefl in H1.
Qed.
End Lemmas.
