(* ===== verification/QuicPacket.v ===== *)
(** * QUIC long-header packets

    Model of example/quic-http3/src/quic/packet.cpp: parsing the long header,
    building and opening a protected packet, packet numbers and nonces.

    The cryptography (crypto.cpp calls OpenSSL or wolfSSL for it) is three
    arguments: the AEAD's [seal] and [open] and the header-protection mask.
    The documented behaviour the theorems rely on is [Crypto]. *)
From S2P Require Import Prelude VarInt.

Local Open Scope Z_scope.

Definition kQuicV1 : Z := 1.
Definition kMaxConnectionIdLen : nat := 20.
Definition kSampleLen : nat := 16.

Definition kLongHeaderBit : Z := 0x80.
Definition kFixedBit : Z := 0x40.
Definition kLongTypeMask : Z := 0x30.
Definition kLongTypeShift : Z := 4.
Definition kLongHpMask : Z := 0x0F.
Definition kPnLenMask : Z := 0x03.

Inductive LongType := Initial | ZeroRtt | Handshake | Retry.

Global Instance LongType_eq_dec : EqDecision LongType.
Proof. solve_decision. Defined.

Definition long_type (v : Z) : LongType :=
  if v =? 0 then Initial else if v =? 1 then ZeroRtt else if v =? 2 then Handshake else Retry.

Definition type_code (t : LongType) : Z :=
  match t with Initial => 0 | ZeroRtt => 1 | Handshake => 2 | Retry => 3 end.

Record LongHeader := mkLong {
  type : LongType;
  version : Z;
  dcid : bytes;
  scid : bytes;
  token : bytes;
  length_ : Z;
  pn_offset : nat;
  packet_len : nat
}.

Record PacketKeys := mkKeys { key : bytes; iv : bytes; hp : bytes }.

Inductive Aead := Aes128Gcm | Aes256Gcm | ChaCha20Poly1305.

Definition aead_tag_length (a : Aead) : nat := 16.

Definition pn_length_from_first_byte (first : Z) : nat := Z.to_nat ((first .& kPnLenMask) + 1).

(** A length byte and as many bytes; used for the two connection ids. *)
Definition parse_cid (datagram : bytes) (off : nat) : option (bytes * nat) :=
  if (length datagram <=? off)%nat then None else
  len ← datagram !! off;
  let len := Z.to_nat len in
  let off := (off + 1)%nat in
  if (kMaxConnectionIdLen <? len)%nat || (length datagram <? off + len)%nat then None
  else Some (take len (drop off datagram), (off + len)%nat).

(** [token0] is what the caller's [hdr.token] holds; only Initial and Retry
    packets assign it. *)
Definition parse_long_header (datagram : bytes) (start : nat) (token0 : bytes) : option (LongHeader * nat) :=
  if (length datagram <=? start)%nat then None else
  first ← datagram !! start;
  if first .& kLongHeaderBit =? 0 then None else
  let off := (start + 1)%nat in
  if (length datagram <? off + 4)%nat then None else
  let version := be_fold 0 (take 4 (drop off datagram)) in
  '(dcid, off) ← parse_cid datagram (off + 4);
  '(scid, off) ← parse_cid datagram off;
  let type := long_type ((first .& kLongTypeMask) .>> kLongTypeShift) in
  let rest_len := (length datagram - start)%nat in
  if version =? 0 then Some (mkLong type version dcid scid token0 0 0 rest_len, length datagram)
  else if bool_decide (type = Retry) then
    if (length datagram <? off + 16)%nat then None
    else Some (mkLong type version dcid scid (take (length datagram - 16 - off) (drop off datagram)) 0 0 rest_len, length datagram)
  else
    '(token, off) ←
      (if bool_decide (type = Initial) then
         '(token_len, off) ← VarInt.decode datagram off;
         if #datagram <? Z.of_nat off + token_len then None
         else Some (take (Z.to_nat token_len) (drop off datagram), (off + Z.to_nat token_len)%nat)
       else Some (token0, off));
    '(len, off) ← VarInt.decode datagram off;
    if #datagram <? Z.of_nat off + len then None
    else Some (mkLong type version dcid scid token len off (off - start + Z.to_nat len), (off + Z.to_nat len)%nat).

Definition xor_at (i : nat) (m : Z) (l : bytes) : bytes := alter (fun b => b .^ m) i l.

Definition make_aead_nonce (iv : bytes) (packet_number : Z) : bytes :=
  foldl (fun nonce i => xor_at (length nonce - 1 - i) ((packet_number .>> (8 * Z.of_nat i)) .& 0xFF) nonce) iv (seq 0 8).

Definition decode_packet_number (largest_pn truncated_pn pn_nbits : Z) : Z :=
  let expected_pn := u64 (largest_pn + 1) in
  let pn_win := u64 (1 .<< pn_nbits) in
  let pn_hwin := pn_win / 2 in
  let pn_mask := u64 (pn_win - 1) in
  let candidate_pn := (expected_pn .& (2 ^ 64 - 1 - pn_mask)) .| truncated_pn in
  if (pn_hwin <? expected_pn) && (candidate_pn <=? u64 (expected_pn - pn_hwin)) && (candidate_pn <? u64 (2 ^ 62 - pn_win))
  then u64 (candidate_pn + pn_win)
  else if (u64 (expected_pn + pn_hwin) <? candidate_pn) && (pn_win <=? candidate_pn) then u64 (candidate_pn - pn_win)
  else candidate_pn.

(** Header protection, applied and removed alike. *)
Fixpoint mask_pn (mask : bytes) (off : nat) (n : nat) (l : bytes) : bytes :=
  match n, mask with
  | S n, m :: mask => mask_pn mask (S off) n (xor_at off m l)
  | _, _ => l
  end.

Definition pick_pn_length (pn : Z) : nat := 4.

Section Protection.
Context (header_protection_mask : Aead -> bytes -> bytes -> bytes).
Context (aead_open aead_seal : Aead -> bytes -> bytes -> bytes -> bytes -> option bytes).

(** The datagram is unmasked in place, also when opening fails later. *)
Definition decrypt_long_packet (aead : Aead) (keys : PacketKeys) (largest_pn_seen : Z) (datagram : bytes) (hdr : LongHeader)
    : bytes * option (Z * bytes) :=
  if (pn_offset hdr =? 0)%nat || (length_ hdr <? Z.of_nat kSampleLen + 1) then (datagram, None) else
  let sample_off := (pn_offset hdr + 4)%nat in
  if (length datagram <? sample_off + kSampleLen)%nat then (datagram, None) else
  let mask := header_protection_mask aead (hp keys) (take kSampleLen (drop sample_off datagram)) in
  let datagram := xor_at 0 (default 0 (mask !! 0%nat) .& kLongHpMask) datagram in
  let pn_len := pn_length_from_first_byte (default 0 (datagram !! 0%nat)) in
  let datagram := mask_pn (drop 1 mask) (pn_offset hdr) pn_len datagram in
  let truncated := be_fold 0 (take pn_len (drop (pn_offset hdr) datagram)) in
  let packet_number := decode_packet_number largest_pn_seen truncated (Z.of_nat pn_len * 8) in
  let header_len := (pn_offset hdr + pn_len)%nat in
  let aad := take header_len datagram in
  let ct_len := u64 (length_ hdr - Z.of_nat pn_len) in
  if #datagram <? Z.of_nat header_len + ct_len then (datagram, None) else
  let ciphertext := take (Z.to_nat ct_len) (drop header_len datagram) in
  let nonce := make_aead_nonce (iv keys) packet_number in
  (datagram, plaintext ← aead_open aead (key keys) nonce aad ciphertext; Some (packet_number, plaintext)).

(** The header up to the packet number; [None] is [VarInt::append] throwing. *)
Definition initial_header (dcid scid token : bytes) (len : Z) (pn_len : nat) : option bytes :=
  let first := u8 (kLongHeaderBit .| kFixedBit .| u8 (type_code Initial .<< kLongTypeShift) .| u8 (Z.of_nat pn_len - 1)) in
  let pkt := [first; u8 (kQuicV1 .>> 24); u8 (kQuicV1 .>> 16); u8 (kQuicV1 .>> 8); u8 (kQuicV1 .& 0xFF)] in
  let pkt := pkt ++ u8 (#dcid) :: dcid in
  let pkt := pkt ++ u8 (#scid) :: scid in
  pkt ← VarInt.append pkt (#token);
  VarInt.append (pkt ++ token) len.

Definition build_initial_packet (aead : Aead) (keys : PacketKeys) (dcid scid token payload_frames : bytes) (packet_number : Z) : option bytes :=
  let pn_len := pick_pn_length packet_number in
  let tag_len := aead_tag_length aead in
  pkt ← initial_header dcid scid token (u64 (Z.of_nat (pn_len + length payload_frames + tag_len))) pn_len;
  let pn_offset := length pkt in
  let pkt := pkt ++ be_bytes pn_len packet_number in
  let nonce := make_aead_nonce (iv keys) packet_number in
  sealed ← aead_seal aead (key keys) nonce pkt payload_frames;
  let pkt := pkt ++ sealed in
  let sample_off := (pn_offset + 4)%nat in
  if (length pkt <? sample_off + kSampleLen)%nat then None else
  let mask := header_protection_mask aead (hp keys) (take kSampleLen (drop sample_off pkt)) in
  Some (mask_pn (drop 1 mask) pn_offset pn_len (xor_at 0 (default 0 (mask !! 0%nat) .& kLongHpMask) pkt)).
End Protection.

(** ** Parsing the header *)

Definition cid_bytes (cid : bytes) : bytes := #cid :: cid.

(** The wire image of a header from the version on. *)
Definition long_rest (t : LongType) (ver : Z) (dcid scid token : bytes) (len : Z) : bytes :=
  be_bytes 4 ver ++ cid_bytes dcid ++ cid_bytes scid ++
  (if bool_decide (t = Initial) then enc (#token) ++ token else []) ++ enc len.

Lemma parse_cid_at datagram off cid rest : (length cid <= kMaxConnectionIdLen)%nat -> at_cursor datagram off (cid_bytes cid ++ rest) ->
  parse_cid datagram off = Some (cid, (off + length (cid_bytes cid))%nat).
Proof.
  intros Hc H. unfold cid_bytes in *. cbn [app] in H. apply at_cursor_cons in H as (Hl & H & Hlt). unfold parse_cid.
  destruct (Nat.leb_spec (length datagram) off); [lia|]. rewrite Hl. cbn [mbind option_bind]. rewrite Nat2Z.id.
  pose proof (at_cursor_length _ _ _ H) as Hlen. rewrite length_app in Hlen. destruct (Nat.ltb_spec kMaxConnectionIdLen (length cid)); [lia|].
  destruct (Nat.ltb_spec (length datagram) (off + 1 + length cid)); [lia|]. cbn [orb]. destruct H as [_ ->].
  rewrite take_app_length. cbn [length]. do 2 f_equal. lia.
Qed.

Lemma take_at datagram off l rest n : at_cursor datagram off (l ++ rest) -> n = length l -> take n (drop off datagram) = l.
Proof. intros [_ ->] ->. apply take_app_length. Qed.

Lemma be_fold_version v : 0 <= v < 2 ^ 32 -> be_fold 0 (be_bytes 4 v) = v.
Proof. intros H. rewrite be_fold_be_bytes by lia. rewrite Z.mod_small by lia. lia. Qed.

(** A header of a version other than 0 in front of [body] bytes of payload. *)
Lemma parse_long_at datagram start first t ver dcid scid token token0 len body rest :
  at_cursor datagram start (first :: long_rest t ver dcid scid token len ++ body ++ rest) ->
  first .& kLongHeaderBit <> 0 -> long_type ((first .& kLongTypeMask) .>> kLongTypeShift) = t -> t <> Retry ->
  0 < ver < 2 ^ 32 -> (length dcid <= kMaxConnectionIdLen)%nat -> (length scid <= kMaxConnectionIdLen)%nat ->
  #token <= kMax -> len = #body -> len <= kMax ->
  let off := (start + 1 + length (long_rest t ver dcid scid token len))%nat in
  parse_long_header datagram start token0 =
    Some (mkLong t ver dcid scid (if bool_decide (t = Initial) then token else token0) len off (off - start + length body), (off + length body)%nat).
Proof.
  intros H Hf Ht Hr Hv Hd Hs Htk Hlen Hmax off. unfold long_rest in H.
  apply at_cursor_cons in H as (Hl & H & Hlt). unfold parse_long_header. destruct (Nat.leb_spec (length datagram) start); [lia|]. rewrite Hl. cbn [mbind option_bind].
  rewrite (proj2 (Z.eqb_neq _ _) Hf), Ht. rewrite <- !app_assoc in H. pose proof (at_cursor_length _ _ _ H) as Hn. rewrite !length_app, be_bytes_length in Hn.
  destruct (Nat.ltb_spec (length datagram) (start + 1 + 4)); [lia|]. rewrite (take_at _ _ (be_bytes 4 ver) _ 4 H eq_refl), be_fold_version by lia.
  apply at_cursor_app in H. rewrite be_bytes_length in H. rewrite (parse_cid_at _ _ dcid _ Hd H). cbn [mbind option_bind].
  apply at_cursor_app in H. rewrite (parse_cid_at _ _ scid _ Hs H). cbn [mbind option_bind]. apply at_cursor_app in H.
  destruct (Z.eqb_spec ver 0); [lia|]. rewrite (bool_decide_eq_false_2 (t = Retry)) by done.
  assert (Hvl : varint_ok len) by (unfold varint_ok; lia). assert (Hvt : varint_ok (#token)) by (unfold varint_ok; lia).
  set (o1 := (start + 1 + 4 + length (cid_bytes dcid) + length (cid_bytes scid))%nat) in *.
  set (tk := if bool_decide (t = Initial) then enc (#token) ++ token else []) in *.
  set (m := if bool_decide (t = Initial) then _ else Some (token0, o1)).
  assert (Hm : m = Some (if bool_decide (t = Initial) then token else token0, (o1 + length tk)%nat)).
  { unfold m, tk in *. destruct (bool_decide (t = Initial)); [|cbn [length]; by rewrite Nat.add_0_r].
    rewrite <- app_assoc in H. rewrite (decode_at _ _ _ _ Hvt H). cbn [mbind option_bind]. apply at_cursor_app in H.
    pose proof (at_cursor_length _ _ _ H) as Hn'. rewrite length_app in Hn'. rewrite Nat2Z.id.
    destruct (Z.ltb_spec (#datagram) (Z.of_nat (o1 + length (enc (#token))) + #token)); [lia|]. rewrite (take_at _ _ token _ _ H eq_refl). rewrite length_app. do 2 f_equal. lia. }
  rewrite Hm. cbn [mbind option_bind]. apply at_cursor_app in H. rewrite (decode_at _ _ _ _ Hvl H). cbn [mbind option_bind]. apply at_cursor_app in H.
  pose proof (at_cursor_length _ _ _ H) as Hn'. rewrite length_app in Hn'.
  destruct (Z.ltb_spec (#datagram) (Z.of_nat (o1 + length tk + length (enc len)) + len)); [lia|].
  assert (Ho : (o1 + length tk + length (enc len))%nat = off).
  { unfold off, o1, long_rest. fold tk. rewrite !length_app, be_bytes_length. lia. }
  rewrite Ho, Hlen, Nat2Z.id. done.
Qed.

(** ** Header protection *)

Lemma xor_at_app pre x rest m : xor_at (length pre) m (pre ++ x :: rest) = pre ++ (x .^ m) :: rest.
Proof. unfold xor_at. by rewrite alter_app_r_alt, Nat.sub_diag by lia. Qed.

Lemma mask_pn_app pre pn mask rest : (length pn <= length mask)%nat ->
  mask_pn mask (length pre) (length pn) (pre ++ pn ++ rest) = pre ++ zip_with Z.lxor pn mask ++ rest.
Proof.
  revert pre mask. induction pn as [|b pn IH]; intros pre [|m mask] Hl; cbn [length mask_pn zip_with app] in *; [done|done|lia|].
  rewrite xor_at_app. specialize (IH (pre ++ [b .^ m]) mask ltac:(lia)). rewrite length_app in IH. cbn [length] in IH.
  replace (length pre + 1)%nat with (S (length pre)) in IH by lia. rewrite <- !app_assoc in IH. exact IH.
Qed.

Lemma zip_xor_twice l : forall mask, (length l <= length mask)%nat -> zip_with Z.lxor (zip_with Z.lxor l mask) mask = l.
Proof.
  induction l as [|b l IH]; intros [|m mask] H; cbn [zip_with length] in *; [done|done|lia|]. rewrite IH by lia.
  by rewrite Z.lxor_assoc, Z.lxor_nilpotent, Z.lxor_0_r.
Qed.

(** ** Nonces *)

Lemma nonce_loop pn k : forall a b, length b = k ->
  foldl (fun nonce i => xor_at (length nonce - 1 - i) ((pn .>> (8 * Z.of_nat i)) .& 0xFF) nonce) (a ++ b) (seq 0 k) =
  a ++ zip_with Z.lxor b (be_bytes k pn).
Proof.
  induction k as [|k IH]; intros a b Hb; [by destruct b|]. destruct b as [|x b]; [done|]. injection Hb as Hb.
  rewrite seq_S, foldl_app. specialize (IH (a ++ [x]) b Hb). rewrite <- app_assoc in IH. cbn [app] in IH. rewrite IH. cbn [foldl Nat.add be_bytes zip_with].
  rewrite !length_app, length_zip_with, be_bytes_length, Hb. cbn [length].
  replace (length a + 1 + k `min` k - 1 - k)%nat with (length a) by lia. rewrite <- app_assoc. cbn [app]. by rewrite xor_at_app.
Qed.

(** The low eight bytes of the IV are combined with the packet number. *)
Lemma nonce_eq a b pn : length b = 8%nat -> make_aead_nonce (a ++ b) pn = a ++ zip_with Z.lxor b (be_bytes 8 pn).
Proof. apply nonce_loop. Qed.

Lemma zip_xor_inj l : forall m1 m2, length m1 = length l -> length m2 = length l -> zip_with Z.lxor l m1 = zip_with Z.lxor l m2 -> m1 = m2.
Proof.
  induction l as [|b l IH]; intros [|x m1] [|y m2] H1 H2 H; try done. cbn [zip_with] in H. injection H as Hb H. f_equal.
  - apply (f_equal (Z.lxor b)) in Hb. by rewrite <- !Z.lxor_assoc, Z.lxor_nilpotent, !Z.lxor_0_l in Hb.
  - apply IH; [by injection H1|by injection H2|done].
Qed.

Lemma be_bytes_inj n v w : 8 * Z.of_nat n <= 64 -> 0 <= v < 2 ^ (8 * Z.of_nat n) -> 0 <= w < 2 ^ (8 * Z.of_nat n) -> be_bytes n v = be_bytes n w -> v = w.
Proof.
  intros Hn Hv Hw H. apply (f_equal (be_fold 0)) in H. rewrite !be_fold_be_bytes in H by (lia || (transitivity (2 ^ (8 * Z.of_nat n)); [lia|apply Z.pow_le_mono_r; lia])).
  rewrite !Z.mod_small in H by lia. lia.
Qed.

(** ** Packet numbers *)

(** Clearing the low bits. *)
Lemma land_high e k : 0 <= e < 2 ^ 64 -> 0 <= k <= 64 -> e .& (2 ^ 64 - 1 - (2 ^ k - 1)) = e - e mod 2 ^ k.
Proof.
  intros He Hk. replace (2 ^ 64 - 1 - (2 ^ k - 1)) with (2 ^ 64 - 2 ^ k) by lia.
  assert (H64 : 2 ^ 64 = 2 ^ k * 2 ^ (64 - k)) by (rewrite <- Z.pow_add_r by lia; f_equal; lia).
  replace (2 ^ 64 - 2 ^ k) with (Z.ones (64 - k) .<< k).
  2: { rewrite shl_mul, Z.ones_equiv by lia. lia. }
  assert (E : e .& (Z.ones (64 - k) .<< k) = ((e .>> k) .& Z.ones (64 - k)) .<< k).
  { apply Z.bits_inj'. intros i Hi. rewrite Z.land_spec, Z.shiftl_spec, Z.shiftl_spec by lia. destruct (Z.ltb_spec i k).
    - rewrite !(Z.testbit_neg_r _ (i - k)) by lia. apply andb_false_r.
    - rewrite Z.land_spec, Z.shiftr_spec by lia. do 2 f_equal. lia. }
  assert (Hp : 0 < 2 ^ k) by (apply Z.pow_pos_nonneg; lia).
  rewrite E, Z.land_ones, shl_mul, shr_div by lia. rewrite (Z.mod_small (e / 2 ^ k)).
  - pose proof (Z.div_mod e (2 ^ k) ltac:(lia)). lia.
  - split; [apply Z.div_pos; lia|]. apply Z.div_lt_upper_bound; [lia|]. lia.
Qed.

(** A packet number within the window around the expected one is recovered
    from its low bits, except for one corner: the number [2^k] when [2^(k-1)]
    is expected. *)
Lemma decode_pn largest pn k : 1 <= k <= 32 -> 0 <= largest < 2 ^ 62 -> 0 <= pn < 2 ^ 62 ->
  largest + 1 - 2 ^ (k - 1) < pn <= largest + 1 + 2 ^ (k - 1) -> ~ (largest + 1 = 2 ^ (k - 1) /\ pn = 2 ^ k) ->
  decode_packet_number largest (pn mod 2 ^ k) k = pn.
Proof.
  intros Hk Hl Hp Hw Hc. unfold decode_packet_number. cbv zeta.
  assert (H2 : 2 ^ k = 2 * 2 ^ (k - 1)) by (rewrite <- Z.pow_succ_r by lia; f_equal; lia).
  assert (Hh : 0 < 2 ^ (k - 1)) by (apply Z.pow_pos_nonneg; lia).
  assert (Hm : 2 ^ (k - 1) <= 2 ^ 31) by (apply Z.pow_le_mono_r; lia).
  set (h := 2 ^ (k - 1)) in *. rewrite (u64_small (largest + 1)) by (unfold u64_ok; lia). set (e := largest + 1) in *.
  rewrite shl_mul, Z.mul_1_l, (u64_small (2 ^ k)), (u64_small (2 ^ k - 1)) by (unfold u64_ok; lia).
  rewrite land_high by lia. pose proof (Z.mod_pos_bound e (2 ^ k) ltac:(lia)) as He. pose proof (Z.mod_pos_bound pn (2 ^ k) ltac:(lia)) as Hpn.
  rewrite (lor_low_add k) by (lia || (rewrite Zminus_mod_idemp_r, Z.sub_diag; apply Z.mod_0_l; lia)).
  replace (2 ^ k / 2) with h by (rewrite H2, Z.mul_comm, Z.div_mul; lia). rewrite H2 in *.
  pose proof (Z.div_mod e (2 * h) ltac:(lia)) as De. pose proof (Z.div_mod pn (2 * h) ltac:(lia)) as Dp.
  set (re := e mod (2 * h)) in *. set (rp := pn mod (2 * h)) in *. set (qe := e / (2 * h)) in *. set (qp := pn / (2 * h)) in *.
  rewrite (u64_small (2 ^ 62 - 2 * h)), (u64_small (e + h)) by (unfold u64_ok; lia).
  assert (Hq : qp = qe \/ qp = qe + 1 \/ qp = qe - 1) by nia.
  destruct (Z.ltb_spec h e) as [Heh|Heh]; cbn [andb].
  - rewrite (u64_small (e - h)) by (unfold u64_ok; lia). destruct (Z.leb_spec (e - re + rp) (e - h)) as [H3|H3]; cbn [andb].
    + destruct (Z.ltb_spec (e - re + rp) (2 ^ 62 - 2 * h)) as [H4|H4].
      * rewrite u64_small by (unfold u64_ok; lia). destruct Hq as [->|[->| ->]]; nia.
      * destruct (Z.ltb_spec (e + h) (e - re + rp)); cbn [andb]; [lia|]. destruct Hq as [->|[->| ->]]; nia.
    + destruct (Z.ltb_spec (e + h) (e - re + rp)) as [H5|H5]; cbn [andb].
      * destruct (Z.leb_spec (2 * h) (e - re + rp)) as [H6|H6]; [rewrite u64_small by (unfold u64_ok; lia)|]; destruct Hq as [->|[->| ->]]; nia.
      * destruct Hq as [->|[->| ->]]; nia.
  - destruct (Z.ltb_spec (e + h) (e - re + rp)) as [H5|H5]; cbn [andb].
    + destruct (Z.leb_spec (2 * h) (e - re + rp)) as [H6|H6]; [rewrite u64_small by (unfold u64_ok; lia)|]; destruct Hq as [->|[->| ->]]; nia.
    + assert (Hq0 : qe = 0) by nia. rewrite Hq0 in *. destruct Hq as [Hq|[Hq|Hq]]; rewrite Hq in *; [lia| |lia].
      exfalso. apply Hc. lia.
Qed.

(** ** Protecting and opening a packet *)

Definition aead_key_length (a : Aead) : nat := match a with Aes128Gcm => 16 | Aes256Gcm => 32 | ChaCha20Poly1305 => 32 end.
Definition aead_iv_length (a : Aead) : nat := 12.

(** What the AEAD and the mask are documented to do. *)
Class Crypto (header_protection_mask : Aead -> bytes -> bytes -> bytes)
    (aead_open aead_seal : Aead -> bytes -> bytes -> bytes -> bytes -> option bytes) : Prop := {
  mask_length : forall a k sample, length (header_protection_mask a k sample) = 5%nat;
  seal_opens : forall a k n aad p, length k = aead_key_length a -> length n = aead_iv_length a ->
    exists c, aead_seal a k n aad p = Some c /\ length c = (length p + aead_tag_length a)%nat /\ aead_open a k n aad c = Some p
}.

Definition keys_ok (a : Aead) (keys : PacketKeys) : Prop :=
  length (key keys) = aead_key_length a /\ length (iv keys) = aead_iv_length a.

Lemma nonce_length iv pn : (8 <= length iv)%nat -> length (make_aead_nonce iv pn) = length iv.
Proof.
  intros H. rewrite <- (take_drop (length iv - 8) iv) at 1. rewrite nonce_eq by (rewrite length_drop; lia).
  rewrite length_app, length_zip_with, be_bytes_length, length_take, length_drop. lia.
Qed.

Section RoundTrip.
Context header_protection_mask aead_open aead_seal `{Crypto header_protection_mask aead_open aead_seal}.

Lemma initial_header_eq dcid scid token len : (length dcid <= kMaxConnectionIdLen)%nat -> (length scid <= kMaxConnectionIdLen)%nat ->
  #token <= kMax -> 0 <= len <= kMax -> initial_header dcid scid token len 4 = Some (0xC3 :: long_rest Initial kQuicV1 dcid scid token len).
Proof.
  intros Hd Hs Ht Hl. unfold initial_header. cbv zeta. unfold kMaxConnectionIdLen in *.
  rewrite append_ok by (unfold varint_ok; lia). cbn [mbind option_bind]. rewrite append_ok by done.
  rewrite (u8_small (#dcid)), (u8_small (#scid)) by (unfold byte_ok; lia). unfold long_rest, cid_bytes.
  rewrite bool_decide_eq_true_2 by done. f_equal. rewrite <- !app_assoc. done.
Qed.

(** The packet, with the bytes behind it in the datagram. *)
Lemma build_eq aead keys dcid scid token payload pn : keys_ok aead keys -> (length dcid <= kMaxConnectionIdLen)%nat -> (length scid <= kMaxConnectionIdLen)%nat ->
  #token <= kMax -> #payload + 20 <= kMax ->
  let hd := long_rest Initial kQuicV1 dcid scid token (#payload + 20) in
  exists sealed m0 mask, build_initial_packet header_protection_mask aead_seal aead keys dcid scid token payload pn =
      Some ((0xC3 .^ (m0 .& 0x0F)) :: hd ++ zip_with Z.lxor (be_bytes 4 pn) mask ++ sealed) /\
    length sealed = (length payload + 16)%nat /\ length mask = 4%nat /\ m0 :: mask = header_protection_mask aead (hp keys) (take 16 sealed) /\
    aead_open aead (key keys) (make_aead_nonce (iv keys) pn) ((0xC3 :: hd) ++ be_bytes 4 pn) sealed = Some payload.
Proof.
  intros [Hk Hi] Hd Hs Ht Hp hd. unfold build_initial_packet, pick_pn_length, aead_tag_length. cbv zeta.
  replace (Z.of_nat (4 + length payload + 16)) with (#payload + 20) by lia. rewrite u64_small by (unfold u64_ok; change kMax with (2 ^ 62 - 1) in Hp; lia).
  rewrite initial_header_eq by (done || lia). cbn [mbind option_bind]. fold hd.
  destruct (seal_opens aead (key keys) (make_aead_nonce (iv keys) pn) ((0xC3 :: hd) ++ be_bytes 4 pn) payload) as (sealed & Es & El & Eo); [done| |].
  { rewrite nonce_length, Hi; [done|]. rewrite Hi. unfold aead_iv_length. lia. }
  rewrite Es. cbn [mbind option_bind]. unfold kSampleLen, aead_tag_length in *.
  assert (Hsm : drop (length (0xC3 :: hd) + 4) (((0xC3 :: hd) ++ be_bytes 4 pn) ++ sealed) = sealed) by (apply drop_app_length'; by rewrite length_app, be_bytes_length).
  rewrite Hsm, !length_app, be_bytes_length, El. destruct (Nat.ltb_spec (length (0xC3 :: hd) + 4 + (length payload + 16)) (length (0xC3 :: hd) + 4 + 16)); [lia|].
  pose proof (mask_length aead (hp keys) (take 16 sealed)) as Hml. destruct (header_protection_mask aead (hp keys) (take 16 sealed)) as [|m0 mask] eqn:Emk; [done|].
  injection Hml as Hml. exists sealed, m0, mask. split; [|done]. f_equal. cbn [drop lookup list_lookup default]. rewrite drop_0.
  rewrite <- app_assoc. cbn [app]. unfold kLongHpMask. change (id m0) with m0.
  pose proof (xor_at_app [] 0xC3 (hd ++ be_bytes 4 pn ++ sealed) (m0 .& 0x0F)) as Hx. cbn [app length] in Hx. rewrite Hx.
  pose proof (mask_pn_app ((0xC3 .^ (m0 .& 0x0F)) :: hd) (be_bytes 4 pn) mask sealed) as Hmp. rewrite be_bytes_length, Hml in Hmp. cbn [app length] in Hmp.
  cbn [length]. by rewrite Hmp.
Qed.

Lemma protected_first m : let f := 0xC3 .^ (m .& 0x0F) in
  f .& kLongHeaderBit <> 0 /\ long_type ((f .& kLongTypeMask) .>> kLongTypeShift) = Initial /\ f .^ (m .& kLongHpMask) = 0xC3.
Proof.
  cbv zeta. unfold kLongHpMask. assert (Hm : 0 <= m .& 0x0F < 16) by (rewrite (land_mask m 4 15) by done; apply Z.mod_pos_bound; lia). set (v := m .& 0x0F) in *.
  pose proof (forall_below (fun v => negb ((0xC3 .^ v) .& kLongHeaderBit =? 0) && bool_decide (long_type (((0xC3 .^ v) .& kLongTypeMask) .>> kLongTypeShift) = Initial)) 16
    ltac:(by vm_compute) v Hm) as Hf. cbv beta in Hf. apply andb_true_iff in Hf as [H1%negb_true_iff%Z.eqb_neq H2%bool_decide_eq_true].
  split; [done|]. split; [done|]. by rewrite Z.lxor_assoc, Z.lxor_nilpotent.
Qed.

Lemma initial_roundtrip aead keys dc sc tk payload pn largest rest token0 : keys_ok aead keys ->
  (length dc <= kMaxConnectionIdLen)%nat -> (length sc <= kMaxConnectionIdLen)%nat -> #tk <= kMax -> #payload + 20 <= kMax ->
  0 <= largest < 2 ^ 62 -> 0 <= pn < 2 ^ 62 -> largest + 1 - 2 ^ 31 < pn <= largest + 1 + 2 ^ 31 -> ~ (largest + 1 = 2 ^ 31 /\ pn = 2 ^ 32) ->
  exists pkt hdr, build_initial_packet header_protection_mask aead_seal aead keys dc sc tk payload pn = Some pkt /\
    parse_long_header (pkt ++ rest) 0 token0 = Some (hdr, length pkt) /\
    type hdr = Initial /\ dcid hdr = dc /\ scid hdr = sc /\ token hdr = tk /\
    (decrypt_long_packet header_protection_mask aead_open aead keys largest (pkt ++ rest) hdr).2 = Some (pn, payload).
Proof.
  intros Hk Hd Hs Ht Hp Hl Hpn Hw Hne. destruct (build_eq aead keys dc sc tk payload pn Hk Hd Hs Ht Hp) as (sealed & m0 & mask & Eb & El & Em & Emask & Eo).
  set (hd := long_rest Initial kQuicV1 dc sc tk (#payload + 20)) in *. set (zpn := zip_with Z.lxor (be_bytes 4 pn) mask) in *.
  assert (Hz : length zpn = 4%nat) by (unfold zpn; by rewrite length_zip_with, be_bytes_length, Em).
  destruct (protected_first m0) as (F1 & F2 & F3). set (f := 0xC3 .^ (m0 .& 0x0F)) in *.
  assert (Hpl : parse_long_header ((f :: hd ++ zpn ++ sealed) ++ rest) 0 token0 =
    Some (mkLong Initial kQuicV1 dc sc tk (#payload + 20) (S (length hd)) (S (length hd) + length (zpn ++ sealed)), length (f :: hd ++ zpn ++ sealed))).
  { pose proof (parse_long_at ((f :: hd ++ zpn ++ sealed) ++ rest) 0 f Initial kQuicV1 dc sc tk token0 (#payload + 20) (zpn ++ sealed) rest) as Hq.
    fold hd in Hq. cbv zeta in Hq. rewrite (bool_decide_eq_true_2 (Initial = Initial)), Nat.sub_0_r in Hq by done. cbn [Nat.add] in Hq. rewrite Hq; try done.
    - do 2 f_equal. cbn [length]. rewrite !length_app. lia.
    - split; [lia|]. cbn [app drop]. by rewrite <- !app_assoc.
    - rewrite length_app, Hz, El. lia. }
  eexists _, _. split; [exact Eb|]. split; [exact Hpl|]. clear Hpl.
  do 4 (split; [done|]). unfold decrypt_long_packet. cbn [pn_offset length_ Nat.eqb orb]. unfold kSampleLen.
  destruct (Z.ltb_spec (#payload + 20) (Z.of_nat 16 + 1)); [lia|]. cbn [length app]. rewrite !length_app, Hz, El.
  destruct (Nat.ltb_spec (S (length hd + (4 + (length payload + 16)) + length rest)) (S (length hd) + 4 + 16)); [lia|].
  assert (Hsm : take 16 (drop (S (length hd) + 4) (f :: (hd ++ zpn ++ sealed) ++ rest)) = take 16 sealed).
  { rewrite <- app_assoc. cbn [Nat.add drop]. rewrite <- drop_drop, drop_app_length, <- app_assoc, drop_app_length' by done. rewrite take_app_le by lia. done. }
  rewrite Hsm, <- Emask. cbn [lookup list_lookup drop default]. rewrite drop_0. change (id m0) with m0.
  pose proof (xor_at_app [] f ((hd ++ zpn ++ sealed) ++ rest) (m0 .& kLongHpMask)) as Hx. cbn [app length] in Hx. rewrite Hx, F3. clear Hx.
  change (pn_length_from_first_byte (default 0 ((0xC3 :: (hd ++ zpn ++ sealed) ++ rest) !! 0%nat))) with 4%nat.
  pose proof (mask_pn_app (0xC3 :: hd) zpn mask (sealed ++ rest)) as Hmp. rewrite Hz in Hmp. cbn [app length] in Hmp. rewrite <- !app_assoc, Hmp by lia. clear Hmp.
  unfold zpn. rewrite zip_xor_twice by (rewrite be_bytes_length; lia). fold zpn.
  set (d := 0xC3 :: hd ++ be_bytes 4 pn ++ sealed ++ rest). assert (Hd4 : drop (S (length hd)) d = be_bytes 4 pn ++ sealed ++ rest) by (unfold d; cbn [drop]; by rewrite drop_app_length).
  rewrite Hd4, take_app_length' by (by rewrite be_bytes_length). rewrite be_fold_be_bytes by lia. change (Z.of_nat 4 * 8) with 32. change (8 * Z.of_nat 4) with 32.
  rewrite Z.mul_0_l, Z.add_0_l, decode_pn by (done || lia). rewrite u64_small by (unfold u64_ok; change kMax with (2 ^ 62 - 1) in Hp; lia).
  assert (Hld : length d = (S (length hd) + 4 + (length payload + 16) + length rest)%nat) by (unfold d; cbn [length]; rewrite !length_app, be_bytes_length, El; lia).
  rewrite Hld. destruct (Z.ltb_spec (Z.of_nat (S (length hd) + 4 + (length payload + 16) + length rest)) (Z.of_nat (S (length hd) + 4) + (#payload + 20 - Z.of_nat 4))); [lia|].
  cbn [snd]. assert (Ha : take (S (length hd) + 4) d = (0xC3 :: hd) ++ be_bytes 4 pn).
  { unfold d. change (0xC3 :: hd ++ be_bytes 4 pn ++ sealed ++ rest) with ((0xC3 :: hd) ++ be_bytes 4 pn ++ sealed ++ rest). rewrite app_assoc. apply take_app_length'. by rewrite length_app, be_bytes_length. }
  assert (Hct : take (Z.to_nat (#payload + 20 - Z.of_nat 4)) (drop (S (length hd) + 4) d) = sealed).
  { rewrite <- drop_drop, Hd4, drop_app_length' by (by rewrite be_bytes_length). apply take_app_length'. lia. }
  rewrite Ha, Hct, Eo. done.
Qed.
End RoundTrip.

(** ** What the parser hands on is inside the datagram *)

Lemma parse_cid_bounds datagram off cid off' : parse_cid datagram off = Some (cid, off') ->
  (length cid <= kMaxConnectionIdLen)%nat /\ (off < off' <= length datagram)%nat.
Proof.
  unfold parse_cid. intros H. destruct (Nat.leb_spec (length datagram) off); [done|]. apply bind_Some in H as (len & _ & H). cbv zeta in H.
  destruct (Nat.ltb_spec kMaxConnectionIdLen (Z.to_nat len)); [done|]. destruct (Nat.ltb_spec (length datagram) (off + 1 + Z.to_nat len)); [done|].
  injection H as <- <-. rewrite length_take. lia.
Qed.

Lemma parse_long_bounds datagram start token0 hdr off' : bytes_ok datagram -> parse_long_header datagram start token0 = Some (hdr, off') ->
  (start < off' <= length datagram)%nat /\ packet_len hdr = (off' - start)%nat /\
  (length (dcid hdr) <= kMaxConnectionIdLen)%nat /\ (length (scid hdr) <= kMaxConnectionIdLen)%nat /\
  (pn_offset hdr = 0%nat /\ length_ hdr = 0 \/
   (start < pn_offset hdr)%nat /\ 0 <= length_ hdr /\ Z.of_nat (pn_offset hdr) + length_ hdr = Z.of_nat off').
Proof.
  intros Hb H. unfold parse_long_header in H. destruct (Nat.leb_spec (length datagram) start) as [|Hst]; [done|].
  apply bind_Some in H as (first & _ & H). destruct (_ =? 0); [done|]. destruct (Nat.ltb_spec (length datagram) (start + 1 + 4)) as [|H5]; [done|]. cbv zeta in H.
  apply bind_Some in H as ([dc o1] & E1 & H). apply bind_Some in H as ([sc o2] & E2 & H).
  destruct (parse_cid_bounds _ _ _ _ E1) as [D1 D2]. destruct (parse_cid_bounds _ _ _ _ E2) as [S1 S2].
  destruct (_ =? 0) in H; [injection H as <- <-; cbn; lia|]. set (t := long_type _) in *. destruct (bool_decide (t = Retry)).
  { destruct (_ <? _)%nat; [done|]. injection H as <- <-. cbn. lia. }
  apply bind_Some in H as ([tk o3] & E3 & H). assert (H3 : (o2 <= o3 <= length datagram)%nat).
  { destruct (bool_decide (t = Initial)); [|injection E3 as <- <-; lia]. apply bind_Some in E3 as ([tl o4] & E4 & E3).
    destruct (decode_bounds _ _ _ _ Hb E4) as ([Hv _] & Ho & _). destruct (Z.ltb_spec (#datagram) (Z.of_nat o4 + tl)); [done|]. injection E3 as <- <-. lia. }
  apply bind_Some in H as ([len o5] & E5 & H). destruct (decode_bounds _ _ _ _ Hb E5) as ([Hv _] & Ho & _).
  destruct (Z.ltb_spec (#datagram) (Z.of_nat o5 + len)); [done|]. injection H as <- <-. cbn. lia.
Qed.

(** ** Properties *)

(** A packet number is recovered from its truncation: whenever it is within
    the window around the expected number (the half of the encodable range
    before and after it), for 1 to 4 bytes, up to [2^62].  One corner is left
    out, see [packet_number_corner]. *)
Theorem packet_number_decoded largest pn pn_len :
  1 <= pn_len <= 4 -> 0 <= largest < 2 ^ 62 -> 0 <= pn < 2 ^ 62 ->
  largest + 1 - 2 ^ (8 * pn_len - 1) < pn <= largest + 1 + 2 ^ (8 * pn_len - 1) ->
  ~ (largest + 1 = 2 ^ (8 * pn_len - 1) /\ pn = 2 ^ (8 * pn_len)) ->
  decode_packet_number largest (be_fold 0 (be_bytes (Z.to_nat pn_len) pn)) (pn_len * 8) = pn.
Proof.
  intros Hn Hl Hp Hw Hc. assert (Hpw : 2 ^ (8 * pn_len) <= 2 ^ 32) by (apply Z.pow_le_mono_r; lia).
  rewrite be_fold_be_bytes by (rewrite ?Z2Nat.id by lia; lia). rewrite Z2Nat.id, Z.mul_0_l, Z.add_0_l, (Z.mul_comm pn_len) by lia.
  apply decode_pn; [lia|done|done|done|done].
Qed.

Lemma packet_number_decoded_witness : decode_packet_number 0xa82f30ea (be_fold 0 (be_bytes 2 0xa82f9b32)) 16 = 0xa82f9b32.
Proof. apply (packet_number_decoded 0xa82f30ea 0xa82f9b32 2); lia. Defined.

(** Two packets sealed with the same keys never share a nonce. *)
Theorem nonce_unique iv pn1 pn2 : (8 <= length iv)%nat -> 0 <= pn1 < 2 ^ 64 -> 0 <= pn2 < 2 ^ 64 ->
  make_aead_nonce iv pn1 = make_aead_nonce iv pn2 -> pn1 = pn2.
Proof.
  intros Hl H1 H2 H. rewrite <- (take_drop (length iv - 8) iv) in H. rewrite !nonce_eq in H by (rewrite length_drop; lia).
  apply app_inv_head in H. apply (be_bytes_inj 8); [lia|done|done|].
  apply (zip_xor_inj (drop (length iv - 8) iv)); [rewrite be_bytes_length, length_drop; lia|rewrite be_bytes_length, length_drop; lia|done].
Qed.

Lemma nonce_unique_witness : 5 = 5 :> Z.
Proof. apply (nonce_unique (replicate 12 7) 5 5); [cbn; lia|lia|lia|reflexivity]. Defined.

(** C33: An Initial packet survives the way through the network: for every AEAD and
    header protection that behave as documented, what [build_initial_packet]
    produces, with any packet coalesced behind it, is parsed back to its
    connection ids and token, its end is found, and opening it yields the
    packet number and the frames.  The packet number is any below [2^62] within
    the receiver's window, the [2^31] numbers before and after the one it
    expects, with one exception: when it expects [2^31] exactly, the last number
    of the window, [2^32], is left out, because the code decodes it to 0
    (see [packet_number_corner]). *)
Theorem initial_packet_roundtrip header_protection_mask aead_open aead_seal aead keys dc sc tk payload pn largest rest token0 :
  Crypto header_protection_mask aead_open aead_seal -> keys_ok aead keys ->
  (length dc <= kMaxConnectionIdLen)%nat -> (length sc <= kMaxConnectionIdLen)%nat -> #tk <= kMax -> #payload + 20 <= kMax ->
  0 <= largest < 2 ^ 62 -> 0 <= pn < 2 ^ 62 -> largest + 1 - 2 ^ 31 < pn <= largest + 1 + 2 ^ 31 -> ~ (largest + 1 = 2 ^ 31 /\ pn = 2 ^ 32) ->
  exists pkt hdr, build_initial_packet header_protection_mask aead_seal aead keys dc sc tk payload pn = Some pkt /\
    parse_long_header (pkt ++ rest) 0 token0 = Some (hdr, length pkt) /\
    type hdr = Initial /\ dcid hdr = dc /\ scid hdr = sc /\ token hdr = tk /\
    (decrypt_long_packet header_protection_mask aead_open aead keys largest (pkt ++ rest) hdr).2 = Some (pn, payload).
Proof. intros Hc. by apply initial_roundtrip. Qed.

(** A toy AEAD: the plaintext and a checksum over everything. *)
Definition toy_tag (k n aad p : bytes) : bytes := replicate 16 (foldl Z.lxor 0 (k ++ n ++ aad ++ p)).
Definition toy_seal (a : Aead) (k n aad p : bytes) : option bytes := Some (p ++ toy_tag k n aad p).
Definition toy_open (a : Aead) (k n aad c : bytes) : option bytes :=
  let p := take (length c - 16) c in if bool_decide (drop (length c - 16) c = toy_tag k n aad p) then Some p else None.
Definition toy_mask (a : Aead) (k sample : bytes) : bytes := take 5 (sample ++ replicate 5 0).

Lemma toy_crypto : Crypto toy_mask toy_open toy_seal.
Proof.
  split.
  - intros a k sample. unfold toy_mask. rewrite length_take, length_app, length_replicate. lia.
  - intros a k n aad p _ _. exists (p ++ toy_tag k n aad p). split; [done|]. split; [by rewrite length_app|].
    unfold toy_open. rewrite length_app. change (length (toy_tag k n aad p)) with 16%nat. replace (length p + 16 - 16)%nat with (length p) by lia.
    rewrite take_app_length, drop_app_length. by rewrite bool_decide_eq_true_2.
Qed.

Definition toy_keys : PacketKeys := mkKeys (replicate 16 1) (replicate 12 2) (replicate 16 3).

Lemma initial_packet_roundtrip_witness :
  exists pkt hdr, build_initial_packet toy_mask toy_seal Aes128Gcm toy_keys [1; 2; 3] [4; 5] [6] [0; 0; 1] 7 = Some pkt /\
    parse_long_header (pkt ++ [0x40]) 0 [] = Some (hdr, length pkt) /\
    type hdr = Initial /\ dcid hdr = [1; 2; 3] /\ scid hdr = [4; 5] /\ token hdr = [6] /\
    (decrypt_long_packet toy_mask toy_open Aes128Gcm toy_keys 3 (pkt ++ [0x40]) hdr).2 = Some (7, [0; 0; 1]).
Proof.
  destruct (initial_packet_roundtrip toy_mask toy_open toy_seal Aes128Gcm toy_keys [1; 2; 3] [4; 5] [6] [0; 0; 1] 7 3 [0x40] [] toy_crypto)
    as (pkt & hdr & H); [done|unfold kMaxConnectionIdLen; cbn; lia|unfold kMaxConnectionIdLen; cbn; lia|done|done|lia|lia|lia|lia|].
  exists pkt, hdr. exact H.
Defined.

(** What the parser accepts lies inside the datagram and makes progress, so
    that walking the coalesced packets of a datagram ends: the next packet
    begins behind the header and at most at the end, the connection ids have
    at most 20 bytes, and the protected part is the last [length] bytes. *)
Theorem parse_long_header_safe datagram start token0 hdr off' : bytes_ok datagram -> parse_long_header datagram start token0 = Some (hdr, off') ->
  (start < off' <= length datagram)%nat /\ packet_len hdr = (off' - start)%nat /\
  (length (dcid hdr) <= kMaxConnectionIdLen)%nat /\ (length (scid hdr) <= kMaxConnectionIdLen)%nat /\
  (pn_offset hdr = 0%nat /\ length_ hdr = 0 \/
   (start < pn_offset hdr)%nat /\ 0 <= length_ hdr /\ Z.of_nat (pn_offset hdr) + length_ hdr = Z.of_nat off').
Proof. apply parse_long_bounds. Qed.

Definition handshake_datagram : bytes := [0xE0; 0; 0; 0; 1; 1; 9; 1; 8; 3; 5; 6; 7; 0xFF].

Lemma parse_long_header_safe_witness : (0 < 13 <= 14)%nat.
Proof.
  destruct (parse_long_header_safe handshake_datagram 0 [] (mkLong Handshake 1 [9] [8] [] 3 10 13) 13) as (H & _); [by repeat constructor|by vm_compute|exact H].
Defined.

(** The corner: with 128 expected and one byte on the wire, the packet number
    256 is the last one of the window, and the appendix of RFC 9000 the code
    cites decodes 0 to it; the guard against underflow keeps it at 0.  With the
    four bytes the library writes itself the same happens to [2^32]. *)
Theorem packet_number_corner : decode_packet_number 127 (256 mod 2 ^ 8) 8 = 0 /\ 127 + 1 - 2 ^ 7 < 256 <= 127 + 1 + 2 ^ 7 /\
  decode_packet_number (2 ^ 31 - 1) (2 ^ 32 mod 2 ^ 32) 32 = 0 /\ 2 ^ 31 - 2 ^ 31 < 2 ^ 32 <= 2 ^ 31 + 2 ^ 31.
Proof. by vm_compute. Qed.
