(* ===== verification/QuicCrypto.v ===== *)
(** * QUIC key derivation (RFC 9001 section 5)

    Model of the key schedule in example/quic-http3/src/quic/crypto.cpp: the
    HKDF-Expand-Label encoding, the Initial secrets, packet keys, the
    key-update ratchet and the cached cipher contexts.  The primitives
    themselves (HKDF, the AEADs, the header-protection cipher) are calls into
    OpenSSL or wolfSSL, and the fields of [CryptoLib]. *)
From S2P Require Import Prelude QuicPacket.

Local Open Scope Z_scope.

Inductive Hash := Sha256 | Sha384.

Definition hash_length (h : Hash) : nat := match h with Sha256 => 32 | Sha384 => 48 end.

Definition aead_hp_length (a : Aead) : nat := aead_key_length a.

Definition aead_hash (a : Aead) : Hash :=
  match a with Aes128Gcm | ChaCha20Poly1305 => Sha256 | Aes256Gcm => Sha384 end.

(** What the library under crypto.cpp computes.  [evp_init] is whether binding
    a key to a cipher context succeeds. *)
Class CryptoLib := {
  hkdf_extract : Hash -> bytes -> bytes -> bytes;
  hkdf_expand : Hash -> bytes -> bytes -> nat -> bytes;
  hp_mask : Aead -> bytes -> bytes -> bytes;
  lib_open : Aead -> bytes -> bytes -> bytes -> bytes -> option bytes;
  lib_seal : Aead -> bytes -> bytes -> bytes -> bytes -> option bytes;
  evp_init : Aead -> bytes -> bool }.

Definition kPrefix : bytes := str "tls13 ".

(** The serialised [HkdfLabel]; [None] is the [std::out_of_range]. *)
Definition hkdf_label (label context : bytes) (out_len : nat) : option bytes :=
  let label_len := (length kPrefix + length label)%nat in
  if (255 <? label_len)%nat || (255 <? length context)%nat || (0xFFFF <? Z.of_nat out_len) then None else
  Some ([u8 (Z.of_nat out_len .>> 8); u8 (Z.of_nat out_len .& 0xFF); u8 (Z.of_nat label_len)]
        ++ kPrefix ++ label ++ u8 (#context) :: context).

Definition kInitialSaltV1 : bytes :=
  [0x38; 0x76; 0x2c; 0xf7; 0xf5; 0x59; 0x34; 0xb3; 0x4d; 0x17; 0x9a; 0xe6; 0xa4; 0xc8;
   0x0c; 0xad; 0xcc; 0xbb; 0x7f; 0x0a].

Inductive Direction := Client | Server.

Section Derivation.
Context `{CryptoLib}.

Definition hkdf_expand_label (h : Hash) (secret label context : bytes) (out_len : nat) : option bytes :=
  info ← hkdf_label label context out_len;
  Some (hkdf_expand h secret info out_len).

Definition derive_initial_secret (client_dcid : bytes) (dir : Direction) : option bytes :=
  let initial_secret := hkdf_extract Sha256 kInitialSaltV1 client_dcid in
  let label := match dir with Client => str "client in" | Server => str "server in" end in
  hkdf_expand_label Sha256 initial_secret label [] (hash_length Sha256).

Definition derive_packet_keys (a : Aead) (secret : bytes) : option PacketKeys :=
  let h := aead_hash a in
  k ← hkdf_expand_label h secret (str "quic key") [] (aead_key_length a);
  v ← hkdf_expand_label h secret (str "quic iv") [] (aead_iv_length a);
  p ← hkdf_expand_label h secret (str "quic hp") [] (aead_hp_length a);
  Some (mkKeys k v p).

Definition derive_next_application_secret (h : Hash) (current_secret : bytes) : option bytes :=
  hkdf_expand_label h current_secret (str "quic ku") [] (hash_length h).

(** A [CipherCtx]: the cipher and key bound to it, [None] while [ctx_] is
    null.  Each context is only ever used in the direction it was bound for. *)
Definition CipherCtx : Type := option (Aead * bytes).

Definition ctx_init (a : Aead) (k : bytes) : CipherCtx := if evp_init a k then Some (a, k) else None.

(** Body and tag, adjacent in the caller's buffer, as one byte string. *)
Definition seal_inplace (ctx : CipherCtx) (nonce aad body : bytes) : option bytes :=
  '(a, k) ← ctx;
  if (length k =? 0)%nat then None else lib_seal a k nonce aad body.

Definition open_inplace (ctx : CipherCtx) (nonce aad body_and_tag : bytes) : option bytes :=
  '(a, k) ← ctx;
  if (length k =? 0)%nat then None else lib_open a k nonce aad body_and_tag.
End Derivation.

(** ** Lemmas *)

Lemma label_len_byte n : (n <= 255)%nat -> u8 (Z.of_nat n) = Z.of_nat n.
Proof. intros ?. apply u8_small. unfold byte_ok. lia. Qed.

Lemma label_out_len n m : Z.of_nat n <= 0xFFFF -> Z.of_nat m <= 0xFFFF ->
  u8 (Z.of_nat n .>> 8) = u8 (Z.of_nat m .>> 8) -> u8 (Z.of_nat n .& 0xFF) = u8 (Z.of_nat m .& 0xFF) -> n = m.
Proof.
  intros Hn Hm. rewrite !shr_div, !(land_mask _ 8 0xFF) by (lia || done). change (2 ^ 8) with 256.
  rewrite !u8_small; unfold byte_ok; Z.div_mod_to_equations; lia.
Qed.

Lemma hkdf_label_inj label label' context context' n n' info :
  hkdf_label label context n = Some info -> hkdf_label label' context' n' = Some info ->
  label = label' /\ context = context' /\ n = n'.
Proof.
  unfold hkdf_label. intros H1 H2.
  destruct ((255 <? length kPrefix + length label)%nat || (255 <? length context)%nat || (0xFFFF <? Z.of_nat n)) eqn:E1; [done|].
  destruct ((255 <? length kPrefix + length label')%nat || (255 <? length context')%nat || (0xFFFF <? Z.of_nat n')) eqn:E2; [done|].
  apply orb_false_iff in E1 as [[?%Nat.ltb_ge ?%Nat.ltb_ge]%orb_false_iff ?%Z.ltb_ge].
  apply orb_false_iff in E2 as [[?%Nat.ltb_ge ?%Nat.ltb_ge]%orb_false_iff ?%Z.ltb_ge].
  injection H1 as <-. cbn [app] in H2. injection H2 as E3 E4 E5 E6.
  assert (n = n') as <- by (apply label_out_len; [lia..|congruence|congruence]).
  change (length kPrefix) with 6%nat in *. rewrite !label_len_byte in E5 by lia.
  assert (Hl : length label' = length label) by lia.
  apply app_inj_1 in E6 as [-> E7]; [|done]. injection E7 as _ ->. done.
Qed.

(** Labels of the key schedule are short, so a derivation never throws. *)
Lemma expand_label_total `{CryptoLib} h secret label n : (length label <= 249)%nat -> Z.of_nat n <= 0xFFFF ->
  exists info, hkdf_label label [] n = Some info /\ hkdf_expand_label h secret label [] n = Some (hkdf_expand h secret info n).
Proof.
  intros Hl Hn. unfold hkdf_expand_label, hkdf_label. change (length kPrefix) with 6%nat.
  rewrite (proj2 (Nat.ltb_ge 255 (6 + length label))) by lia. rewrite (proj2 (Z.ltb_ge 0xFFFF _)) by lia. cbn [length Nat.ltb Nat.leb orb].
  eexists. split; [reflexivity|]. reflexivity.
Qed.

(** [hkdf_expand] returns as many bytes as it was asked for. *)
Class CryptoLibLaws `{CryptoLib} : Prop := {
  expand_length : forall h prk info n, length (hkdf_expand h prk info n) = n;
  lib_crypto :: Crypto hp_mask lib_open lib_seal;
  open_bytes : forall a k n aad ct p, bytes_ok ct -> lib_open a k n aad ct = Some p -> bytes_ok p;
  mask_bytes : forall a k sample, bytes_ok sample -> bytes_ok (hp_mask a k sample);
  evp_init_ok : forall a k, length k = aead_key_length a -> evp_init a k = true }.

Lemma derive_packet_keys_total `{CryptoLib} a secret : exists ks, derive_packet_keys a secret = Some ks.
Proof.
  unfold derive_packet_keys.
  destruct (expand_label_total (aead_hash a) secret (str "quic key") (aead_key_length a)) as (? & _ & ->); [vm_compute; lia|by destruct a|].
  destruct (expand_label_total (aead_hash a) secret (str "quic iv") (aead_iv_length a)) as (? & _ & ->); [vm_compute; lia|by destruct a|].
  destruct (expand_label_total (aead_hash a) secret (str "quic hp") (aead_hp_length a)) as (? & _ & ->); [vm_compute; lia|by destruct a|].
  by eexists.
Qed.

Lemma derive_packet_keys_ok `{CryptoLibLaws} a secret ks : derive_packet_keys a secret = Some ks -> keys_ok a ks.
Proof.
  unfold derive_packet_keys, hkdf_expand_label. intros E. repeat (apply bind_Some in E as (? & E1 & E); apply bind_Some in E1 as (? & _ & [= <-])).
  injection E as <-. split; cbn; apply expand_length.
Qed.

(** ** An instance

    HKDF as a checksum repeated to the length asked for, over the toy AEAD. *)
Definition toy_digest (l : bytes) (n : nat) : bytes := replicate n (foldl Z.lxor 0 (map u8 l)).

Definition toy_lib : CryptoLib := {|
  hkdf_extract h salt ikm := toy_digest (salt ++ ikm) (hash_length h);
  hkdf_expand h prk info n := toy_digest (prk ++ info) n;
  hp_mask := toy_mask;
  lib_open := toy_open;
  lib_seal := toy_seal;
  evp_init a k := (length k =? aead_key_length a)%nat |}.

Lemma toy_lib_laws : @CryptoLibLaws toy_lib.
Proof.
  split.
  - intros h prk info n. apply length_replicate.
  - exact toy_crypto.
  - intros a k n aad ct p Hct E. cbn in E. unfold toy_open in E. cbv zeta in E. case_bool_decide; [|done]. injection E as <-. by apply Forall_take.
  - intros a k sample Hs. cbn. unfold toy_mask. apply Forall_take, Forall_app. split; [done|]. apply Forall_replicate. unfold byte_ok. lia.
  - intros a k Hk. cbn. by apply Nat.eqb_eq.
Qed.

(** The TLS 1.3 labels are prefix-free once serialised: two different
    (label, context, length) triples never share an HKDF info string, and none
    of the key schedule's derivations throws. *)
Theorem key_schedule_separated `{CryptoLib} :
  (forall label label' context context' n n' info, hkdf_label label context n = Some info -> hkdf_label label' context' n' = Some info ->
     label = label' /\ context = context' /\ n = n') /\
  (forall dcid dir, is_Some (derive_initial_secret dcid dir)) /\
  (forall a secret, is_Some (derive_packet_keys a secret)) /\
  (forall h secret, is_Some (derive_next_application_secret h secret)).
Proof.
  split; [exact hkdf_label_inj|]. split; [|split].
  - intros dcid dir. unfold derive_initial_secret. cbv zeta.
    destruct (expand_label_total Sha256 (hkdf_extract Sha256 kInitialSaltV1 dcid) (match dir with Client => str "client in" | Server => str "server in" end) (hash_length Sha256)) as (? & _ & ->);
      [destruct dir; vm_compute; lia|done|done].
  - intros a secret. destruct (derive_packet_keys_total a secret) as [ks ->]. done.
  - intros h secret. unfold derive_next_application_secret. destruct (expand_label_total h secret (str "quic ku") (hash_length h)) as (? & _ & ->); [vm_compute; lia|by destruct h|done].
Qed.
