(* ===== verification/QuicFrame.v ===== *)
(** * QUIC frames (RFC 9000 section 19)

    Model of example/quic-http3/src/quic/frame.cpp and frame.hpp: the frame
    variants, [parse_frame] / [parse_frames], [encode_frame] and
    [is_ack_eliciting].  A parser takes the buffer and a cursor and returns the
    frame with the advanced cursor; [None] is [return false], after which the
    source has restored the cursor. *)
From S2P Require Import Prelude VarInt.

Local Open Scope Z_scope.

(** ** Data *)

Inductive FrameType :=
| FtPadding | FtPing | FtAck | FtAckEcn | FtResetStream | FtStopSending | FtCrypto | FtNewToken
| FtStream | FtMaxData | FtMaxStreamData | FtMaxStreamsBidi | FtMaxStreamsUni | FtDataBlocked
| FtStreamDataBlocked | FtStreamsBlockedBidi | FtStreamsBlockedUni | FtNewConnectionId
| FtRetireConnectionId | FtPathChallenge | FtPathResponse | FtConnectionCloseTransport
| FtConnectionCloseApplication | FtHandshakeDone.

(** [static_cast<uint64_t>(FrameType)] *)
Definition code (t : FrameType) : Z :=
  match t with
  | FtPadding => 0x00 | FtPing => 0x01 | FtAck => 0x02 | FtAckEcn => 0x03 | FtResetStream => 0x04
  | FtStopSending => 0x05 | FtCrypto => 0x06 | FtNewToken => 0x07 | FtStream => 0x08
  | FtMaxData => 0x10 | FtMaxStreamData => 0x11 | FtMaxStreamsBidi => 0x12
  | FtMaxStreamsUni => 0x13 | FtDataBlocked => 0x14 | FtStreamDataBlocked => 0x15
  | FtStreamsBlockedBidi => 0x16 | FtStreamsBlockedUni => 0x17 | FtNewConnectionId => 0x18
  | FtRetireConnectionId => 0x19 | FtPathChallenge => 0x1a | FtPathResponse => 0x1b
  | FtConnectionCloseTransport => 0x1c | FtConnectionCloseApplication => 0x1d
  | FtHandshakeDone => 0x1e
  end.

Record AckRange := mkAckRange { gap : Z; range_length : Z }.

Record AckFrame := mkAckFrame {
  largest_acked : Z; ack_delay : Z; first_range : Z; ack_ranges : list AckRange;
  ecn : bool; ect0 : Z; ect1 : Z; ce : Z }.

Record ResetStreamFrame := mkResetStream { rs_stream_id : Z; rs_app_error : Z; rs_final_size : Z }.

Record CryptoFrame := mkCrypto { crypto_offset : Z; crypto_data : bytes }.

Record StreamFrame := mkStream {
  sf_stream_id : Z; sf_offset : Z; sf_has_length : bool; sf_fin : bool; sf_data : bytes }.

Record NewConnectionIdFrame := mkNewCid {
  sequence_number : Z; retire_prior_to : Z; connection_id : bytes; stateless_reset_token : bytes }.

Record ConnectionCloseFrame := mkClose {
  application : bool; error_code : Z; frame_type : Z; reason : bytes }.

(** [std::variant<PaddingFrame, PingFrame, AckFrame, ...>] *)
Inductive Frame :=
| Padding (count : nat)
| Ping
| Ack (f : AckFrame)
| ResetStream (f : ResetStreamFrame)
| StopSending (stream_id app_error : Z)
| Crypto (f : CryptoFrame)
| NewToken (token : bytes)
| Stream (f : StreamFrame)
| MaxData (maximum : Z)
| MaxStreamData (stream_id maximum : Z)
| MaxStreams (bidi : bool) (maximum : Z)
| DataBlocked (limit : Z)
| StreamDataBlocked (stream_id limit : Z)
| StreamsBlocked (bidi : bool) (limit : Z)
| NewConnectionId (f : NewConnectionIdFrame)
| RetireConnectionId (seq : Z)
| PathChallenge (data : bytes)
| PathResponse (data : bytes)
| ConnectionClose (f : ConnectionCloseFrame)
| HandshakeDone.

Definition kStreamTypeMask : Z := 0xF8.
Definition kStreamBaseType : Z := 0x08.
Definition kStreamOffBit : Z := 0x04.
Definition kStreamLenBit : Z := 0x02.
Definition kStreamFinBit : Z := 0x01.

(** ** Parsing *)

Definition read_varint (buf : bytes) (off : nat) : option (Z * nat) := VarInt.decode buf off.

(** [n] is a 64-bit length from the wire: the bound is computed modulo 2^64. *)
Definition read_bytes (buf : bytes) (off : nat) (n : Z) : option (bytes * nat) :=
  if #buf <? u64 (Z.of_nat off + n) then None
  else Some (take (Z.to_nat n) (drop off buf), (off + Z.to_nat n)%nat).

(** [std::memcpy] of a fixed array after its bounds check. *)
Definition read_array (buf : bytes) (off n : nat) : option (bytes * nat) :=
  if (length buf <? off + n)%nat then None
  else Some (take n (drop off buf), (off + n)%nat).

(** The run of zero bytes a PADDING frame absorbs. *)
Fixpoint zero_run (l : bytes) : nat :=
  match l with
  | b :: l' => if b =? 0 then S (zero_run l') else 0%nat
  | [] => 0%nat
  end.

Definition parse_padding (buf : bytes) (off : nat) : option (Frame * nat) :=
  let run := zero_run (drop off buf) in
  Some (Padding (1 + run), (off + run)%nat).

Fixpoint parse_ack_ranges (n : nat) (buf : bytes) (off : nat) : option (list AckRange * nat) :=
  match n with
  | O => Some ([], off)
  | S k =>
      '(g, off) ← read_varint buf off;
      '(len, off) ← read_varint buf off;
      '(rs, off) ← parse_ack_ranges k buf off;
      Some (mkAckRange g len :: rs, off)
  end.

Definition parse_ack (is_ecn : bool) (buf : bytes) (off : nat) : option (Frame * nat) :=
  '(largest, off) ← read_varint buf off;
  '(delay, off) ← read_varint buf off;
  '(ack_range_count, off) ← read_varint buf off;
  '(first, off) ← read_varint buf off;
  if Z.of_nat (length buf - off) / 2 <? ack_range_count then None else
  '(rs, off) ← parse_ack_ranges (Z.to_nat ack_range_count) buf off;
  if is_ecn then
    '(e0, off) ← read_varint buf off;
    '(e1, off) ← read_varint buf off;
    '(c, off) ← read_varint buf off;
    Some (Ack (mkAckFrame largest delay first rs true e0 e1 c), off)
  else Some (Ack (mkAckFrame largest delay first rs false 0 0 0), off).

Definition parse_reset_stream (buf : bytes) (off : nat) : option (Frame * nat) :=
  '(sid, off) ← read_varint buf off;
  '(err, off) ← read_varint buf off;
  '(fin, off) ← read_varint buf off;
  Some (ResetStream (mkResetStream sid err fin), off).

Definition parse_stop_sending (buf : bytes) (off : nat) : option (Frame * nat) :=
  '(sid, off) ← read_varint buf off;
  '(err, off) ← read_varint buf off;
  Some (StopSending sid err, off).

Definition parse_crypto (buf : bytes) (off : nat) : option (Frame * nat) :=
  '(o, off) ← read_varint buf off;
  '(len, off) ← read_varint buf off;
  '(data, off) ← read_bytes buf off len;
  Some (Crypto (mkCrypto o data), off).

Definition parse_new_token (buf : bytes) (off : nat) : option (Frame * nat) :=
  '(len, off) ← read_varint buf off;
  '(token, off) ← read_bytes buf off len;
  Some (NewToken token, off).

Definition parse_stream (type_raw : Z) (buf : bytes) (off : nat) : option (Frame * nat) :=
  let flags := u8 type_raw in
  let fin := negb (flags .& kStreamFinBit =? 0) in
  let has_off := negb (flags .& kStreamOffBit =? 0) in
  let has_length := negb (flags .& kStreamLenBit =? 0) in
  '(sid, off) ← read_varint buf off;
  '(o, off) ← (if has_off then read_varint buf off else Some (0, off));
  '(data_len, off) ← (if has_length then read_varint buf off
                      else Some (Z.of_nat (length buf - off), off));
  '(data, off) ← read_bytes buf off data_len;
  Some (Stream (mkStream sid o has_length fin data), off).

(** MAX_DATA, MAX_STREAMS, DATA_BLOCKED, STREAMS_BLOCKED, RETIRE_CONNECTION_ID *)
Definition parse_one (mk : Z -> Frame) (buf : bytes) (off : nat) : option (Frame * nat) :=
  '(v, off) ← read_varint buf off; Some (mk v, off).

(** MAX_STREAM_DATA, STREAM_DATA_BLOCKED *)
Definition parse_two (mk : Z -> Z -> Frame) (buf : bytes) (off : nat) : option (Frame * nat) :=
  '(v, off) ← read_varint buf off;
  '(w, off) ← read_varint buf off;
  Some (mk v w, off).

Definition parse_new_connection_id (buf : bytes) (off : nat) : option (Frame * nat) :=
  '(seq, off) ← read_varint buf off;
  '(retire, off) ← read_varint buf off;
  cid_len ← buf !! off;
  let off := (off + 1)%nat in
  if (cid_len <? 1) || (20 <? cid_len) then None else
  '(cid, off) ← read_bytes buf off cid_len;
  '(token, off) ← read_array buf off 16;
  Some (NewConnectionId (mkNewCid seq retire cid token), off).

Definition parse_path (mk : bytes -> Frame) (buf : bytes) (off : nat) : option (Frame * nat) :=
  '(data, off) ← read_array buf off 8; Some (mk data, off).

Definition parse_connection_close (app : bool) (buf : bytes) (off : nat) : option (Frame * nat) :=
  '(err, off) ← read_varint buf off;
  '(ft, off) ← (if app then Some (0, off) else read_varint buf off);
  '(reason_len, off) ← read_varint buf off;
  '(r, off) ← read_bytes buf off reason_len;
  Some (ConnectionClose (mkClose app err ft r), off).

(** The dispatch of [parse_frame] on the raw type, in the source's order. *)
Definition parse_body (type_raw : Z) (buf : bytes) (off : nat) : option (Frame * nat) :=
  if type_raw =? code FtPadding then parse_padding buf off
  else if type_raw =? code FtPing then Some (Ping, off)
  else if (type_raw =? code FtAck) || (type_raw =? code FtAckEcn)
    then parse_ack (type_raw =? code FtAckEcn) buf off
  else if type_raw =? code FtResetStream then parse_reset_stream buf off
  else if type_raw =? code FtStopSending then parse_stop_sending buf off
  else if type_raw =? code FtCrypto then parse_crypto buf off
  else if type_raw =? code FtNewToken then parse_new_token buf off
  else if type_raw .& kStreamTypeMask =? kStreamBaseType then parse_stream type_raw buf off
  else if type_raw =? code FtMaxData then parse_one MaxData buf off
  else if type_raw =? code FtMaxStreamData then parse_two MaxStreamData buf off
  else if (type_raw =? code FtMaxStreamsBidi) || (type_raw =? code FtMaxStreamsUni)
    then parse_one (MaxStreams (type_raw =? code FtMaxStreamsBidi)) buf off
  else if type_raw =? code FtDataBlocked then parse_one DataBlocked buf off
  else if type_raw =? code FtStreamDataBlocked then parse_two StreamDataBlocked buf off
  else if (type_raw =? code FtStreamsBlockedBidi) || (type_raw =? code FtStreamsBlockedUni)
    then parse_one (StreamsBlocked (type_raw =? code FtStreamsBlockedBidi)) buf off
  else if type_raw =? code FtNewConnectionId then parse_new_connection_id buf off
  else if type_raw =? code FtRetireConnectionId then parse_one RetireConnectionId buf off
  else if type_raw =? code FtPathChallenge then parse_path PathChallenge buf off
  else if type_raw =? code FtPathResponse then parse_path PathResponse buf off
  else if (type_raw =? code FtConnectionCloseTransport)
          || (type_raw =? code FtConnectionCloseApplication)
    then parse_connection_close (type_raw =? code FtConnectionCloseApplication) buf off
  else if type_raw =? code FtHandshakeDone then Some (HandshakeDone, off)
  else None.

Definition parse_frame (buf : bytes) (offset : nat) : option (Frame * nat) :=
  if (length buf <=? offset)%nat then None else
  '(type_raw, off) ← read_varint buf offset;
  parse_body type_raw buf off.

(** One round of the loop of [parse_frames]. *)
Definition parse_frames_step (payload : bytes) (st : nat * list Frame)
  : (nat * list Frame) + option (list Frame) :=
  let '(off, out) := st in
  if (off <? length payload)%nat then
    match parse_frame payload off with
    | None => inr None
    | Some (f, off') => inl (off', out ++ [f])
    end
  else inr (Some out).

Definition parse_frames (payload : bytes) : option (option (list Frame)) :=
  loop (parse_frames_step payload) (S (length payload)) (0%nat, []).

(** ** Encoding *)

Definition write_type (out : bytes) (t : FrameType) : option bytes := VarInt.append out (code t).

Fixpoint append_all (out : bytes) (vs : list Z) : option bytes :=
  match vs with
  | [] => Some out
  | v :: vs => out ← VarInt.append out v; append_all out vs
  end.

(** [for (auto const& r : x.ranges)] *)
Fixpoint append_ranges (out : bytes) (rs : list AckRange) : option bytes :=
  match rs with
  | [] => Some out
  | r :: rs =>
      out ← VarInt.append out (gap r);
      out ← VarInt.append out (range_length r);
      append_ranges out rs
  end.

Definition encode_ack (out : bytes) (x : AckFrame) : option bytes :=
  out ← write_type out (if ecn x then FtAckEcn else FtAck);
  out ← VarInt.append out (largest_acked x);
  out ← VarInt.append out (ack_delay x);
  out ← VarInt.append out (#(ack_ranges x));
  out ← VarInt.append out (first_range x);
  out ← append_ranges out (ack_ranges x);
  if ecn x then append_all out [ect0 x; ect1 x; ce x] else Some out.

Definition encode_stream (out : bytes) (x : StreamFrame) : option bytes :=
  let type_byte := kStreamBaseType .| kStreamLenBit in
  let type_byte := if sf_offset x =? 0 then type_byte else u8 (type_byte .| kStreamOffBit) in
  let type_byte := if sf_fin x then u8 (type_byte .| kStreamFinBit) else type_byte in
  let out := out ++ [type_byte] in
  out ← VarInt.append out (sf_stream_id x);
  out ← (if sf_offset x =? 0 then Some out else VarInt.append out (sf_offset x));
  out ← VarInt.append out (#(sf_data x));
  Some (out ++ sf_data x).

Definition encode_frame (out : bytes) (f : Frame) : option bytes :=
  match f with
  | Padding count => Some (out ++ replicate count 0)
  | Ping => write_type out FtPing
  | Ack x => encode_ack out x
  | ResetStream x =>
      out ← write_type out FtResetStream;
      append_all out [rs_stream_id x; rs_app_error x; rs_final_size x]
  | StopSending sid err => out ← write_type out FtStopSending; append_all out [sid; err]
  | Crypto x =>
      out ← write_type out FtCrypto;
      out ← append_all out [crypto_offset x; #(crypto_data x)];
      Some (out ++ crypto_data x)
  | NewToken token =>
      out ← write_type out FtNewToken;
      out ← VarInt.append out (#token);
      Some (out ++ token)
  | Stream x => encode_stream out x
  | MaxData m => out ← write_type out FtMaxData; VarInt.append out m
  | MaxStreamData sid m => out ← write_type out FtMaxStreamData; append_all out [sid; m]
  | MaxStreams bidi m =>
      out ← write_type out (if bidi then FtMaxStreamsBidi else FtMaxStreamsUni);
      VarInt.append out m
  | DataBlocked l => out ← write_type out FtDataBlocked; VarInt.append out l
  | StreamDataBlocked sid l => out ← write_type out FtStreamDataBlocked; append_all out [sid; l]
  | StreamsBlocked bidi l =>
      out ← write_type out (if bidi then FtStreamsBlockedBidi else FtStreamsBlockedUni);
      VarInt.append out l
  | NewConnectionId x =>
      out ← write_type out FtNewConnectionId;
      out ← append_all out [sequence_number x; retire_prior_to x];
      Some (out ++ [u8 (#(connection_id x))] ++ connection_id x ++ stateless_reset_token x)
  | RetireConnectionId s => out ← write_type out FtRetireConnectionId; VarInt.append out s
  | PathChallenge d => out ← write_type out FtPathChallenge; Some (out ++ d)
  | PathResponse d => out ← write_type out FtPathResponse; Some (out ++ d)
  | ConnectionClose x =>
      out ← write_type out (if application x then FtConnectionCloseApplication
                            else FtConnectionCloseTransport);
      out ← VarInt.append out (error_code x);
      out ← (if application x then Some out else VarInt.append out (frame_type x));
      out ← VarInt.append out (#(reason x));
      Some (out ++ reason x)
  | HandshakeDone => write_type out FtHandshakeDone
  end.

Definition is_ack_eliciting (f : Frame) : bool :=
  match f with
  | Padding _ | Ack _ | ConnectionClose _ => false
  | _ => true
  end.

(** ** Round trip *)

Definition range_wf (r : AckRange) : Prop := varint_ok (gap r) /\ varint_ok (range_length r).

(** What a frame must satisfy for its encoding to exist and be readable. *)
Definition frame_wf (f : Frame) : Prop :=
  match f with
  | Padding n => (0 < n)%nat
  | Ping | HandshakeDone => True
  | Ack x => varint_ok (largest_acked x) /\ varint_ok (ack_delay x) /\ varint_ok (first_range x)
      /\ varint_ok (#(ack_ranges x)) /\ Forall range_wf (ack_ranges x)
      /\ varint_ok (ect0 x) /\ varint_ok (ect1 x) /\ varint_ok (ce x)
  | ResetStream x => varint_ok (rs_stream_id x) /\ varint_ok (rs_app_error x) /\ varint_ok (rs_final_size x)
  | StopSending a b | MaxStreamData a b | StreamDataBlocked a b => varint_ok a /\ varint_ok b
  | Crypto x => varint_ok (crypto_offset x) /\ varint_ok (#(crypto_data x))
  | NewToken t => varint_ok (#t)
  | Stream x => varint_ok (sf_stream_id x) /\ varint_ok (sf_offset x) /\ varint_ok (#(sf_data x))
  | MaxData v | MaxStreams _ v | DataBlocked v | StreamsBlocked _ v | RetireConnectionId v => varint_ok v
  | NewConnectionId x => varint_ok (sequence_number x) /\ varint_ok (retire_prior_to x)
      /\ (1 <= length (connection_id x) <= 20)%nat /\ length (stateless_reset_token x) = 16%nat
  | PathChallenge d | PathResponse d => length d = 8%nat
  | ConnectionClose x => varint_ok (error_code x) /\ varint_ok (frame_type x) /\ varint_ok (#(reason x))
  end.

(** The fields the wire form does not carry come back as their defaults: the
    ECN counts of a plain ACK, the frame type of an application close; a
    STREAM frame is always written with its length. *)
Definition canon (f : Frame) : Frame :=
  match f with
  | Ack x => if ecn x then Ack x
             else Ack (mkAckFrame (largest_acked x) (ack_delay x) (first_range x) (ack_ranges x) false 0 0 0)
  | Stream x => Stream (mkStream (sf_stream_id x) (sf_offset x) true (sf_fin x) (sf_data x))
  | ConnectionClose x =>
      if application x then ConnectionClose (mkClose true (error_code x) 0 (reason x)) else ConnectionClose x
  | f => f
  end.

(** A PADDING frame absorbs the zero bytes that follow it. *)
Definition padding_sep (f : Frame) (rest : bytes) : Prop :=
  match f with Padding _ => head rest <> Some 0 | _ => True end.

(** Wire images of a run of integers and of the ACK ranges. *)
Fixpoint encs (vs : list Z) : bytes :=
  match vs with [] => [] | v :: vs => enc v ++ encs vs end.
Fixpoint ranges_wire (rs : list AckRange) : bytes :=
  match rs with [] => [] | r :: rs => enc (gap r) ++ enc (range_length r) ++ ranges_wire rs end.

Lemma append_all_ok vs : forall out, Forall varint_ok vs ->
  append_all out vs = Some (out ++ encs vs).
Proof.
  induction vs as [|v vs IH]; intros out H; simpl; [by rewrite app_nil_r|].
  inversion H; subst. rewrite append_ok by done. simpl. rewrite IH, <- app_assoc by done. done.
Qed.

Lemma append_ranges_ok rs : forall out, Forall range_wf rs ->
  append_ranges out rs = Some (out ++ ranges_wire rs).
Proof.
  induction rs as [|r rs IH]; intros out H; simpl; [by rewrite app_nil_r|].
  inversion H as [|? ? [? ?]]; subst. rewrite append_ok by done. simpl.
  rewrite append_ok by done. simpl. rewrite IH, <- !app_assoc by done. done.
Qed.

Lemma read_bytes_at buf off data rest :
  size_ok buf -> at_cursor buf off (data ++ rest) ->
  read_bytes buf off (#data) = Some (data, (off + length data)%nat).
Proof.
  intros Hs Hc. pose proof (at_cursor_length _ _ _ Hc) as Hl. rewrite length_app in Hl.
  destruct Hc as [_ Hd]. unfold read_bytes, size_ok in *.
  rewrite u64_small by (unfold u64_ok; lia). rewrite (proj2 (Z.ltb_ge _ _)) by lia.
  rewrite Nat2Z.id, Hd, take_app_length. done.
Qed.

Lemma read_array_at buf off n data rest :
  length data = n -> at_cursor buf off (data ++ rest) ->
  read_array buf off n = Some (data, (off + n)%nat).
Proof.
  intros <- Hc. pose proof (at_cursor_length _ _ _ Hc) as Hl. rewrite length_app in Hl.
  destruct Hc as [_ Hd]. unfold read_array. rewrite (proj2 (Nat.ltb_ge _ _)) by lia.
  rewrite Hd, take_app_length. done.
Qed.

Lemma parse_ack_ranges_at buf rs : forall off rest,
  Forall range_wf rs -> at_cursor buf off (ranges_wire rs ++ rest) ->
  parse_ack_ranges (length rs) buf off = Some (rs, (off + length (ranges_wire rs))%nat)
  /\ (2 * length rs <= length (ranges_wire rs))%nat.
Proof.
  induction rs as [|[g len] rs IH]; intros off rest Hwf Hc; simpl in *.
  { split; [same_cursor|lia]. }
  inversion Hwf as [|? ? [Hg Hl] Hwf']; subst. simpl in *. rewrite <- !app_assoc in Hc.
  unfold read_varint. do 2 varint_step. destruct (IH _ _ Hwf' Hc) as [-> Hlen].
  pose proof (enc_length_pos g Hg). pose proof (enc_length_pos len Hl).
  cbn [mbind option_bind]. rewrite !length_app. split; [same_cursor|lia].
Qed.

Lemma zero_run_replicate n rest : head rest <> Some 0 -> zero_run (replicate n 0 ++ rest) = n.
Proof.
  intros H. induction n as [|n IH]; simpl; [|by rewrite IH].
  destruct rest as [|b rest]; [done|]. simpl in *. case_match eqn:E; [|done].
  apply Z.eqb_eq in E. subst. done.
Qed.

Lemma enc_one_byte n : 0 <= n < 64 -> enc n = [n].
Proof.
  intros H. unfold enc, write, encoded_size. rewrite (proj2 (Z.leb_le _ _)) by (change k1ByteMax with 63; lia).
  simpl. rewrite u8_small by (unfold byte_ok; lia). done.
Qed.

(** Steps a parser over an encoded frame: integers, byte strings, arrays. *)
Ltac parse_step :=
  match goal with
  | |- context [VarInt.decode _ _] => varint_step
  | Hs : size_ok ?buf, H : at_cursor ?buf ?off (?d ++ ?rest) |- context [read_bytes ?buf ?off (#?d)] =>
      rewrite (read_bytes_at buf off d rest Hs H); cbn [mbind option_bind]; cbv beta; apply at_cursor_app in H
  | H : at_cursor ?buf ?off (?d ++ ?rest) |- context [read_array ?buf ?off ?n] =>
      rewrite (read_array_at buf off n d rest) by (done || lia); cbn [mbind option_bind]; cbv beta;
      apply at_cursor_app in H
  end.

Ltac parse_all := unfold read_varint in *; rewrite <- ?app_assoc in *; repeat parse_step; same_cursor.

Lemma code_ok t : varint_ok (code t).
Proof. destruct t; vm_compute; split; discriminate. Qed.

Lemma parse_frame_type buf off t body rest f n :
  at_cursor buf off (enc (code t) ++ body ++ rest) ->
  (forall off', off' = (off + 1)%nat -> at_cursor buf off' (body ++ rest) ->
     parse_body (code t) buf off' = Some (f, (off' + n)%nat)) ->
  n = length body ->
  parse_frame buf off = Some (f, (off + length (enc (code t) ++ body))%nat).
Proof.
  intros Hc Hbody ->. assert (Hlen : length (enc (code t)) = 1%nat) by (destruct t; done).
  pose proof (at_cursor_length _ _ _ Hc) as Hl. rewrite length_app in Hl.
  unfold parse_frame, read_varint. rewrite (proj2 (Nat.leb_gt _ _)) by lia.
  rewrite (decode_at _ _ (code t) (body ++ rest)) by (done || apply code_ok).
  cbn [mbind option_bind]. rewrite Hlen.
  rewrite (Hbody (off + 1)%nat) by (done || (rewrite <- Hlen; by apply at_cursor_app)).
  rewrite length_app. same_cursor.
Qed.

(** Rewrites an encoder to the bytes it appends. *)
Ltac encode_step :=
  match goal with
  | |- context [VarInt.append ?o ?v] => rewrite (append_ok o v) by (assumption || apply code_ok)
  | |- context [append_all ?o ?vs] => rewrite (append_all_ok vs o) by (repeat (apply Forall_cons_2; [assumption|]); apply Forall_nil_2)
  | |- context [append_ranges ?o ?rs] => rewrite (append_ranges_ok rs o) by assumption
  end; cbn [mbind option_bind].

Definition frame_tag (f : Frame) : FrameType :=
  match f with
  | Padding _ => FtPadding | Ping => FtPing | Ack x => if ecn x then FtAckEcn else FtAck
  | ResetStream _ => FtResetStream | StopSending _ _ => FtStopSending | Crypto _ => FtCrypto
  | NewToken _ => FtNewToken | Stream _ => FtStream | MaxData _ => FtMaxData
  | MaxStreamData _ _ => FtMaxStreamData
  | MaxStreams b _ => if b then FtMaxStreamsBidi else FtMaxStreamsUni
  | DataBlocked _ => FtDataBlocked | StreamDataBlocked _ _ => FtStreamDataBlocked
  | StreamsBlocked b _ => if b then FtStreamsBlockedBidi else FtStreamsBlockedUni
  | NewConnectionId _ => FtNewConnectionId | RetireConnectionId _ => FtRetireConnectionId
  | PathChallenge _ => FtPathChallenge | PathResponse _ => FtPathResponse
  | ConnectionClose x => if application x then FtConnectionCloseApplication else FtConnectionCloseTransport
  | HandshakeDone => FtHandshakeDone
  end.

(** The bytes behind the type of a frame other than PADDING and STREAM. *)
Definition frame_body (f : Frame) : bytes :=
  match f with
  | Padding _ | Stream _ | Ping | HandshakeDone => []
  | Ack x => enc (largest_acked x) ++ enc (ack_delay x) ++ enc (#(ack_ranges x)) ++ enc (first_range x)
      ++ ranges_wire (ack_ranges x) ++ (if ecn x then encs [ect0 x; ect1 x; ce x] else [])
  | ResetStream x => encs [rs_stream_id x; rs_app_error x; rs_final_size x]
  | StopSending a b | MaxStreamData a b | StreamDataBlocked a b => encs [a; b]
  | Crypto x => encs [crypto_offset x; #(crypto_data x)] ++ crypto_data x
  | NewToken t => enc (#t) ++ t
  | MaxData v | MaxStreams _ v | DataBlocked v | StreamsBlocked _ v | RetireConnectionId v => enc v
  | NewConnectionId x => encs [sequence_number x; retire_prior_to x]
      ++ [ #(connection_id x)] ++ connection_id x ++ stateless_reset_token x
  | PathChallenge d | PathResponse d => d
  | ConnectionClose x => enc (error_code x) ++ (if application x then [] else enc (frame_type x))
      ++ enc (#(reason x)) ++ reason x
  end.

Definition plain (f : Frame) : Prop := match f with Padding _ | Stream _ => False | _ => True end.

Lemma encode_plain f out : frame_wf f -> plain f ->
  encode_frame out f = Some (out ++ enc (code (frame_tag f)) ++ frame_body f).
Proof.
  intros Hwf Hp. destruct f; try done; simpl in Hwf; destruct_and?; unfold encode_frame, write_type;
    cbn [frame_tag frame_body].
  all: try (repeat encode_step; rewrite ?app_nil_r, <- ?app_assoc; reflexivity).
  - unfold encode_ack, write_type. repeat encode_step. rewrite <- ?app_assoc.
    destruct (ecn f); rewrite ?app_nil_r, <- ?app_assoc; done.
  - repeat encode_step. rewrite u8_small, <- ?app_assoc by (unfold byte_ok; lia). done.
  - repeat encode_step. destruct (application f); cbn [mbind option_bind]; repeat encode_step; rewrite <- ?app_assoc; done.
Qed.

(** The ACK count check never refuses a genuine frame: a range takes two
    bytes at least. *)
Lemma ack_count_check buf off rs rest :
  Forall range_wf rs -> at_cursor buf off (ranges_wire rs ++ rest) ->
  (Z.of_nat (length buf - off) / 2 <? #rs) = false.
Proof.
  intros Hwf Hc. destruct (parse_ack_ranges_at _ _ _ _ Hwf Hc) as [_ Hl].
  apply at_cursor_length in Hc. rewrite length_app in Hc. apply Z.ltb_ge.
  apply Z.div_le_lower_bound; lia.
Qed.

Lemma parse_ack_at f buf off rest :
  frame_wf (Ack f) -> at_cursor buf off (frame_body (Ack f) ++ rest) ->
  parse_ack (ecn f) buf off = Some (canon (Ack f), (off + length (frame_body (Ack f)))%nat).
Proof.
  intros Hwf Hc. simpl in Hwf. destruct_and?. cbn [frame_body encs] in *. rewrite <- ?app_assoc in Hc.
  unfold parse_ack, read_varint. do 4 varint_step.
  rewrite (ack_count_check _ _ _ _ ltac:(eassumption) Hc), Nat2Z.id.
  rewrite (proj1 (parse_ack_ranges_at _ _ _ _ ltac:(eassumption) Hc)). cbn [mbind option_bind].
  apply at_cursor_app in Hc. destruct f as [? ? ? ? e ? ? ?]; simpl in *. destruct e; [|same_cursor].
  rewrite <- ?app_assoc in Hc. do 3 varint_step. same_cursor.
Qed.

Lemma parse_new_cid_at f buf off rest :
  frame_wf (NewConnectionId f) -> size_ok buf -> at_cursor buf off (frame_body (NewConnectionId f) ++ rest) ->
  parse_new_connection_id buf off = Some (NewConnectionId f, (off + length (frame_body (NewConnectionId f)))%nat).
Proof.
  intros Hwf Hs Hc. simpl in Hwf. destruct_and?. cbn [frame_body encs] in *. rewrite <- ?app_assoc in Hc.
  unfold parse_new_connection_id, read_varint. do 2 varint_step. cbn [app] in Hc.
  apply at_cursor_cons in Hc as (-> & Hc & _). cbn [mbind option_bind].
  rewrite (proj2 (Z.ltb_ge _ 1)), (proj2 (Z.ltb_ge 20 _)) by lia. cbn [orb]. rewrite <- ?app_assoc in Hc.
  repeat parse_step. destruct f; simpl in *. same_cursor.
Qed.

Lemma parse_plain f buf off rest : frame_wf f -> plain f -> size_ok buf ->
  at_cursor buf off (frame_body f ++ rest) ->
  parse_body (code (frame_tag f)) buf off = Some (canon f, (off + length (frame_body f))%nat).
Proof.
  intros Hwf Hp Hs Hc. destruct f; try done.
  2: { replace (parse_body _ buf off) with (parse_ack (ecn f) buf off) by (cbn [frame_tag]; by destruct (ecn f)).
       by apply parse_ack_at with rest. }
  12: by apply parse_new_cid_at with rest.
  all: try match goal with
    | f : ResetStreamFrame |- _ => destruct f
    | f : CryptoFrame |- _ => destruct f
    | f : ConnectionCloseFrame |- _ => destruct f as [[] ? ? ?]
    | b : bool |- _ => destruct b
    end.
  all: simpl in Hwf; destruct_and?; cbn [frame_body frame_tag encs canon app application error_code frame_type
    reason rs_stream_id rs_app_error rs_final_size crypto_offset crypto_data] in *; rewrite <- ?app_assoc in Hc.
  all: unfold parse_body; cbn [code Z.eqb Pos.eqb orb]; unfold parse_reset_stream, parse_stop_sending,
    parse_crypto, parse_new_token, parse_one, parse_two, parse_path, parse_connection_close, read_varint;
    rewrite ?app_nil_r in *; cbn [app mbind option_bind] in *; repeat parse_step; same_cursor.
Qed.

Lemma roundtrip_plain f out : frame_wf f -> plain f ->
  exists bs, encode_frame out f = Some (out ++ bs) /\
    forall buf off rest, size_ok buf -> at_cursor buf off (bs ++ rest) ->
      parse_frame buf off = Some (canon f, (off + length bs)%nat).
Proof.
  intros Hwf Hp. exists (enc (code (frame_tag f)) ++ frame_body f). split; [by apply encode_plain|].
  intros buf off rest Hs Hc. rewrite <- app_assoc in Hc.
  eapply parse_frame_type; [done| |done]. intros off' _ Hc'. by apply parse_plain with rest.
Qed.

(** STREAM: the type byte carries the OFF, LEN and FIN flags. *)
Definition stream_type_byte (x : StreamFrame) : Z :=
  10 + (if sf_offset x =? 0 then 0 else 4) + (if sf_fin x then 1 else 0).

Definition stream_body (x : StreamFrame) : bytes :=
  enc (sf_stream_id x) ++ (if sf_offset x =? 0 then [] else enc (sf_offset x))
  ++ enc (#(sf_data x)) ++ sf_data x.

Lemma encode_stream_ok out x : frame_wf (Stream x) ->
  encode_stream out x = Some (out ++ enc (stream_type_byte x) ++ stream_body x).
Proof.
  intros Hwf. simpl in Hwf. destruct_and?. unfold encode_stream, stream_type_byte, stream_body.
  rewrite enc_one_byte by (repeat case_match; lia).
  destruct (sf_offset x =? 0), (sf_fin x); cbn [mbind option_bind];
    repeat encode_step; rewrite <- ?app_assoc; done.
Qed.

Lemma stream_type_byte_flags x :
  negb (u8 (stream_type_byte x) .& kStreamFinBit =? 0) = sf_fin x /\
  negb (u8 (stream_type_byte x) .& kStreamOffBit =? 0) = negb (sf_offset x =? 0) /\
  negb (u8 (stream_type_byte x) .& kStreamLenBit =? 0) = true /\
  stream_type_byte x .& kStreamTypeMask = kStreamBaseType /\ 10 <= stream_type_byte x <= 15.
Proof.
  unfold stream_type_byte. destruct (sf_offset x =? 0), (sf_fin x); repeat split; vm_compute; congruence.
Qed.

Lemma parse_stream_at x buf off rest :
  frame_wf (Stream x) -> size_ok buf -> at_cursor buf off (stream_body x ++ rest) ->
  parse_stream (stream_type_byte x) buf off = Some (canon (Stream x), (off + length (stream_body x))%nat).
Proof.
  intros Hwf Hs Hc. simpl in Hwf. destruct_and?. destruct x as [sid o hl fin data].
  unfold stream_body in *. cbn [sf_stream_id sf_offset sf_has_length sf_fin sf_data canon] in *.
  rewrite <- ?app_assoc in Hc.
  destruct (stream_type_byte_flags (mkStream sid o hl fin data)) as (Hf & Ho & Hl & _).
  unfold parse_stream, read_varint. cbv zeta. rewrite Hf, Ho, Hl. cbn [sf_offset sf_fin].
  varint_step. destruct (o =? 0) eqn:E; cbn [negb app] in *; [apply Z.eqb_eq in E as ->; cbn [mbind option_bind]|];
    repeat parse_step; same_cursor.
Qed.

Lemma parse_body_stream t buf off : 10 <= t <= 15 -> parse_body t buf off = parse_stream t buf off.
Proof.
  intros H. assert (t = 10 \/ t = 11 \/ t = 12 \/ t = 13 \/ t = 14 \/ t = 15) as Ht by lia.
  by destruct_or!; subst t.
Qed.

Lemma roundtrip_padding n buf off rest :
  (0 < n)%nat -> head rest <> Some 0 -> at_cursor buf off (replicate n 0 ++ rest) ->
  parse_frame buf off = Some (Padding n, (off + n)%nat).
Proof.
  intros Hn Hsep Hc. destruct n as [|n]; [lia|]. cbn [replicate app] in Hc.
  pose proof Hc as Hc0. change (0 :: replicate n 0 ++ rest) with (enc 0 ++ replicate n 0 ++ rest) in Hc.
  apply at_cursor_cons in Hc0 as (_ & Hc1 & Hlt). unfold parse_frame, read_varint.
  rewrite (proj2 (Nat.leb_gt _ _)) by lia. rewrite (decode_at _ _ 0 _ (code_ok FtPadding) Hc).
  cbn [mbind option_bind]. unfold parse_body. cbn [code Z.eqb]. unfold parse_padding.
  change (length (enc 0)) with 1%nat.
  destruct Hc1 as [_ ->]. rewrite zero_run_replicate by done. same_cursor.
Qed.

Lemma roundtrip_stream x buf off rest :
  frame_wf (Stream x) -> size_ok buf -> at_cursor buf off (enc (stream_type_byte x) ++ stream_body x ++ rest) ->
  parse_frame buf off = Some (canon (Stream x), (off + length (enc (stream_type_byte x) ++ stream_body x))%nat).
Proof.
  intros Hwf Hs Hc. destruct (stream_type_byte_flags x) as (_ & _ & _ & _ & Hr).
  assert (Hok : varint_ok (stream_type_byte x)) by (unfold varint_ok; change kMax with (2 ^ 62 - 1); lia).
  pose proof (enc_length_pos _ Hok). pose proof (at_cursor_length _ _ _ Hc) as Hl. rewrite length_app in Hl.
  unfold parse_frame, read_varint. rewrite (proj2 (Nat.leb_gt _ _)) by lia. varint_step.
  rewrite parse_body_stream, (parse_stream_at x _ _ rest) by done. same_cursor.
Qed.

Lemma roundtrip_frame f out : frame_wf f ->
  exists bs, encode_frame out f = Some (out ++ bs) /\ (0 < length bs)%nat /\
    forall buf off rest, size_ok buf -> padding_sep f rest -> at_cursor buf off (bs ++ rest) ->
      parse_frame buf off = Some (canon f, (off + length bs)%nat).
Proof.
  intros Hwf. assert (plain f \/ ~ plain f) as [Hp|Hp] by (destruct f; simpl; tauto).
  - destruct (roundtrip_plain f out Hwf Hp) as (bs & Henc & Hparse). exists bs.
    split; [done|]. split; [|by eauto].
    rewrite encode_plain in Henc by done. injection Henc as Henc. apply app_inv_head in Henc as <-.
    rewrite length_app. pose proof (enc_length_pos _ (code_ok (frame_tag f))). lia.
  - destruct f as [n| | | | | | |x| | | | | | | | | | | |]; simpl in Hp; try tauto.
    + exists (replicate n 0). simpl in Hwf. rewrite length_replicate. split; [done|]. split; [done|].
      intros. by eapply roundtrip_padding.
    + exists (enc (stream_type_byte x) ++ stream_body x). split; [by apply encode_stream_ok|].
      destruct (stream_type_byte_flags x) as (_ & _ & _ & _ & Hr).
      split; [rewrite length_app, enc_one_byte by lia; simpl; lia|].
      intros buf off rest Hs _ Hc. rewrite <- app_assoc in Hc. by eapply roundtrip_stream.
Qed.

(** ** Progress and bounds *)

(** No parser of a body moves the cursor backwards. *)
Definition forward {A} (p : bytes -> nat -> option (A * nat)) : Prop :=
  forall buf off x off', p buf off = Some (x, off') -> (off <= off')%nat.

Lemma decode_forward buf off v off' : VarInt.decode buf off = Some (v, off') -> (off <= off')%nat.
Proof. intros H. apply decode_progress in H. lia. Qed.

Lemma read_bytes_forward buf off n d off' : read_bytes buf off n = Some (d, off') -> (off <= off')%nat.
Proof. unfold read_bytes. case_match; [done|]. intros [= _ <-]. lia. Qed.

Lemma read_array_forward buf off n d off' : read_array buf off n = Some (d, off') -> (off <= off')%nat.
Proof. unfold read_array. case_match; [done|]. intros [= _ <-]. lia. Qed.

Lemma parse_ack_ranges_forward n : forward (parse_ack_ranges n).
Proof.
  induction n as [|n IH]; intros buf off rs off' H; simpl in H; [by simplify_eq|].
  unfold read_varint in H. inv_bind H. simplify_eq.
  repeat match goal with H : _ = Some _ |- _ => first [apply decode_forward in H | apply IH in H] end. lia.
Qed.

Ltac forward_facts :=
  repeat match goal with
  | H : VarInt.decode _ _ = Some _ |- _ => apply decode_forward in H
  | H : read_bytes _ _ _ = Some _ |- _ => apply read_bytes_forward in H
  | H : read_array _ _ _ = Some _ |- _ => apply read_array_forward in H
  | H : parse_ack_ranges _ _ _ = Some _ |- _ => apply parse_ack_ranges_forward in H
  | H : (if ?b then _ else _) = Some _ |- _ => destruct b
  end; simplify_eq; try lia.

Lemma parse_body_forward t : forward (parse_body t).
Proof.
  intros buf off f off' H. unfold parse_body in H.
  repeat match type of H with
  | (if ?b then _ else _) = _ => destruct b
  end; try done.
  all: unfold parse_padding, parse_ack, parse_reset_stream, parse_stop_sending, parse_crypto,
    parse_new_token, parse_stream, parse_one, parse_two, parse_new_connection_id, parse_path,
    parse_connection_close, read_varint in H; cbv zeta in H; inv_bind H; forward_facts.
  all: inv_bind H; forward_facts.
Qed.

(** The cursor never leaves the buffer. *)
Definition inside {A} (p : bytes -> nat -> option (A * nat)) : Prop :=
  forall buf off x off', bytes_ok buf -> size_ok buf -> (off <= length buf)%nat ->
    p buf off = Some (x, off') -> (off' <= length buf)%nat.

Lemma decode_inside : inside VarInt.decode.
Proof. intros buf off x off' _ _ _ H. apply decode_progress in H. lia. Qed.

Lemma read_bytes_inside buf off n d off' :
  size_ok buf -> (off <= length buf)%nat -> 0 <= n < 2 ^ 63 ->
  read_bytes buf off n = Some (d, off') -> (off' <= length buf)%nat /\ length d = Z.to_nat n.
Proof.
  intros Hs Hoff Hn. unfold read_bytes, size_ok in *. rewrite u64_small by (unfold u64_ok; lia).
  case_match eqn:E; [done|]. apply Z.ltb_ge in E. intros [= <- <-].
  rewrite length_take, length_drop. lia.
Qed.

Lemma read_array_inside buf off n d off' :
  read_array buf off n = Some (d, off') -> (off' <= length buf)%nat /\ length d = n.
Proof.
  unfold read_array. case_match eqn:E; [done|]. apply Nat.ltb_ge in E. intros [= <- <-].
  rewrite length_take, length_drop. lia.
Qed.

Lemma parse_ack_ranges_inside n : inside (parse_ack_ranges n).
Proof.
  induction n as [|n IH]; intros buf off rs off' Hb Hs Hoff H; simpl in H; [by simplify_eq|].
  unfold read_varint in H. inv_bind H. simplify_eq.
  apply decode_progress in E, E0. apply IH in E1; [done..|lia].
Qed.

Lemma varint_lt63 v : varint_ok v -> 0 <= v < 2 ^ 63.
Proof. unfold varint_ok. change kMax with (2 ^ 62 - 1). lia. Qed.

Lemma zero_run_le l : (zero_run l <= length l)%nat.
Proof. induction l as [|b l IH]; simpl; [lia|]. case_match; lia. Qed.

Ltac inside_facts :=
  repeat match goal with
  | H : VarInt.decode _ _ = Some _ |- _ => apply decode_bounds in H as (?%varint_lt63 & ? & _); [|assumption]
  | H : read_array _ _ _ = Some _ |- _ => apply read_array_inside in H as [? _]
  | H : read_bytes _ _ _ = Some _ |- _ => apply read_bytes_inside in H as [? _]; [|assumption|unfold size_ok in *; lia..]
  | H : parse_ack_ranges _ _ _ = Some _ |- _ => apply parse_ack_ranges_inside in H; [|assumption|assumption|lia]
  | H : _ !! _ = Some _ |- _ => apply lookup_lt_Some in H
  | H : (_ || _) = false |- _ => apply orb_false_iff in H as [?%Z.ltb_ge ?%Z.ltb_ge]
  | H : (if ?b then _ else _) = Some _ |- _ => destruct b
  | H : Some _ = Some _ |- _ => injection H as ?; subst
  end.

Lemma parse_body_inside t : inside (parse_body t).
Proof.
  intros buf off f off' Hb Hs Hoff H. unfold parse_body in H.
  repeat match type of H with
  | (if ?b then _ else _) = _ => destruct b
  end; try done.
  all: unfold parse_padding, parse_ack, parse_reset_stream, parse_stop_sending, parse_crypto,
    parse_new_token, parse_stream, parse_one, parse_two, parse_new_connection_id, parse_path,
    parse_connection_close, read_varint in H; cbv zeta in H; inv_bind H; inside_facts; try lia.
  all: try (inv_bind H; inside_facts; unfold size_ok in *; lia).
  all: try (pose proof (zero_run_le (drop off buf)) as Hz; rewrite length_drop in Hz; lia).
Qed.

Lemma parse_frame_bounds buf off f off' :
  parse_frame buf off = Some (f, off') ->
  (off < off')%nat /\ (bytes_ok buf -> size_ok buf -> (off' <= length buf)%nat).
Proof.
  unfold parse_frame. case_match eqn:E; [done|]. intros H. unfold read_varint in H. inv_bind H.
  apply decode_progress in E0. split; [apply parse_body_forward in H; lia|].
  intros Hb Hs. eapply parse_body_inside; [done|done| |done]. lia.
Qed.

Lemma parse_frames_step_decreases payload st st' :
  parse_frames_step payload st = inl st' ->
  (length payload - fst st' < length payload - fst st)%nat.
Proof.
  destruct st as [off out]. unfold parse_frames_step. case_match eqn:E; [|done].
  destruct (parse_frame payload off) as [[f off']|] eqn:Ef; [|done]. intros [= <-].
  apply parse_frame_bounds in Ef as [? _]. apply Nat.ltb_lt in E. simpl. lia.
Qed.

(** Every number a parsed frame carries is a varint. *)
Definition frame_ranges (f : Frame) : Prop :=
  match f with
  | Ack a => varint_ok (largest_acked a) /\ varint_ok (ack_delay a) /\ varint_ok (first_range a) /\ Forall range_wf (ack_ranges a)
  | ResetStream r => varint_ok (rs_stream_id r) /\ varint_ok (rs_final_size r)
  | Crypto c => varint_ok (crypto_offset c)
  | Stream s => varint_ok (sf_stream_id s) /\ varint_ok (sf_offset s)
  | MaxData m | MaxStreams _ m => varint_ok m
  | MaxStreamData sid m => varint_ok sid /\ varint_ok m
  | _ => True
  end.

Lemma read_varint_ok buf off v off' : bytes_ok buf -> read_varint buf off = Some (v, off') -> varint_ok v.
Proof. intros Hb E. by apply decode_bounds in E as [? _]. Qed.

Lemma parse_ack_ranges_ok n buf : bytes_ok buf -> forall off rs off', parse_ack_ranges n buf off = Some (rs, off') -> Forall range_wf rs.
Proof.
  intros Hb. induction n as [|n IH]; intros off rs off' E; cbn [parse_ack_ranges] in E; [injection E as <- _; constructor|].
  inv_bind E. injection E as <- _. constructor; [split; by eapply read_varint_ok|by eapply IH].
Qed.

Lemma parse_body_ranges t buf off f off' : bytes_ok buf -> parse_body t buf off = Some (f, off') -> frame_ranges f.
Proof.
  intros Hb E. unfold parse_body in E. pose proof (read_varint_ok buf) as Hv.
  repeat match type of E with (if ?b then _ else _) = _ => destruct b end;
    unfold parse_padding, parse_ack, parse_reset_stream, parse_stop_sending, parse_crypto, parse_new_token, parse_stream, parse_one, parse_two,
      parse_new_connection_id, parse_path, parse_connection_close in E; cbv zeta in E; try discriminate E.
  all: inv_bind E; try (destruct (type_raw =? _)).
  all: repeat match type of E with (if ?b then _ else _) = _ => destruct b end; inv_bind E; try injection E as <- <-; cbn [frame_ranges]; try exact I.
  all: cbn [rs_stream_id rs_final_size crypto_offset sf_stream_id sf_offset largest_acked ack_delay first_range ack_ranges].
  all: repeat match goal with |- _ /\ _ => split end; try (by eapply Hv); try (by eapply parse_ack_ranges_ok).
  destruct (negb (u8 t .& kStreamOffBit =? 0)); [by eapply Hv|]. by simplify_eq.
Qed.

Lemma parse_frames_ranges payload fs : bytes_ok payload -> parse_frames payload = Some (Some fs) -> Forall frame_ranges fs.
Proof.
  intros Hb E. refine (loop_post (parse_frames_step payload) (fun st => Forall frame_ranges st.2)
    (fun r => forall fs, r = Some fs -> Forall frame_ranges fs) _ _ _ _ _ _ E fs eq_refl); [| |constructor].
  - intros [off out] [off' out'] HI E'. unfold parse_frames_step in E'. destruct (_ <? _)%nat; [|done].
    destruct (parse_frame payload off) as [[f n]|] eqn:Ef; [|done]. injection E' as <- <-. cbn in *. apply Forall_app. split; [done|]. apply Forall_singleton.
    unfold parse_frame in Ef. destruct (_ <=? _)%nat; [done|]. inv_bind Ef. by eapply parse_body_ranges.
  - intros [off out] r HI E' gs ->. unfold parse_frames_step in E'. destruct (_ <? _)%nat; [by destruct (parse_frame payload off) as [[? ?]|]|].
    by injection E' as <-.
Qed.

(** ** Lists of frames *)

Fixpoint encode_frames (out : bytes) (fs : list Frame) : option bytes :=
  match fs with
  | [] => Some out
  | f :: fs => out ← encode_frame out f; encode_frames out fs
  end.

Definition is_padding (f : Frame) : bool := match f with Padding _ => true | _ => false end.

(** No PADDING frame directly follows another. *)
Fixpoint separated (fs : list Frame) : Prop :=
  match fs with
  | f :: (g :: _) as fs' => (is_padding f = true -> is_padding g = false) /\ separated fs'
  | _ => True
  end.

Lemma code_lt t : 0 <= code t < 64.
Proof. destruct t; simpl; lia. Qed.

Lemma encode_frame_head f out bs : frame_wf f -> is_padding f = false ->
  encode_frame out f = Some (out ++ bs) -> forall rest, head (bs ++ rest) <> Some 0.
Proof.
  intros Hwf Hp Henc rest. assert (plain f \/ exists x, f = Stream x) as [Hpl|[x ->]]
    by (destruct f; simpl in *; try discriminate; eauto).
  - rewrite encode_plain in Henc by done. injection Henc as Henc. apply app_inv_head in Henc as <-.
    rewrite enc_one_byte by apply code_lt.
    cbn [app head]. destruct f; try done; simpl; try case_match; done.
  - unfold encode_frame in Henc. rewrite encode_stream_ok in Henc by done.
    injection Henc as Henc. apply app_inv_head in Henc as <-.
    destruct (stream_type_byte_flags x) as (_ & _ & _ & _ & ?). rewrite enc_one_byte by lia.
    cbn [app head]. intros [= E]. lia.
Qed.

Lemma roundtrip_frames fs : forall out, Forall frame_wf fs -> separated fs ->
  exists bs, encode_frames out fs = Some (out ++ bs) /\
    (forall f fs', fs = f :: fs' -> is_padding f = false -> head bs <> Some 0) /\
    forall buf off acc fuel, size_ok buf -> at_cursor buf off bs -> (length bs < fuel)%nat ->
      loop (parse_frames_step buf) fuel (off, acc) = Some (Some (acc ++ (canon <$> fs))).
Proof.
  induction fs as [|f fs IH]; intros out Hwf Hsep.
  - exists []. simpl. rewrite app_nil_r. split; [done|]. split; [done|].
    intros buf off acc [|fuel] Hs Hc Hf; [simpl in Hf; lia|].
    apply at_cursor_length in Hc. simpl in *. rewrite (proj2 (Nat.ltb_ge _ _)), app_nil_r by lia. done.
  - inversion Hwf as [|? ? Hf Hfs]; subst.
    destruct (roundtrip_frame f out Hf) as (b1 & He & Hpos & Hp).
    destruct (IH (out ++ b1)) as (b2 & He2 & Hh & Hp2); [done|by destruct fs; [|apply Hsep]|].
    exists (b1 ++ b2). simpl. rewrite He. simpl. rewrite He2, <- app_assoc. split; [done|]. split.
    { intros ? ? [= <- <-] Hpad. by eapply encode_frame_head. }
    intros buf off acc [|fuel] Hs Hc Hfuel; [lia|].
    pose proof (at_cursor_length _ _ _ Hc) as Hl. rewrite length_app in Hl, Hfuel. simpl.
    rewrite (proj2 (Nat.ltb_lt _ _)) by lia. rewrite (Hp buf off b2); [|done| |done].
    { rewrite (Hp2 buf); [|done|by apply at_cursor_app|lia]. by rewrite <- app_assoc. }
    unfold padding_sep. destruct f; try done. destruct fs as [|g fs]; [|].
    { injection He2 as He2. apply (f_equal length) in He2. rewrite !length_app in He2.
      destruct b2; [done|]. simpl in He2. lia. }
    eapply Hh; [done|]. by apply Hsep.
Qed.

Lemma not_code t c : 64 <= t -> (t =? code c) = false.
Proof. intros H. apply Z.eqb_neq. pose proof (code_lt c). lia. Qed.

(** Case analysis on a value known to be in 8..15. *)
Ltac byte_cases x :=
  let Hx := fresh in
  assert (x = 8 \/ x = 9 \/ x = 10 \/ x = 11 \/ x = 12 \/ x = 13 \/ x = 14 \/ x = 15) as Hx by lia;
  destruct_or! Hx; rewrite !Hx; reflexivity.

(** ** Properties *)

(** C40: Every well-formed frame survives the wire.  [encode_frame] appends a
    non-empty image; [parse_frame], started on that image anywhere in a
    buffer, returns the frame (up to the fields the wire does not carry) and
    stops exactly behind it, whatever follows.  Only PADDING needs a following
    non-zero byte, because it absorbs adjacent zeros. *)
Theorem frame_roundtrip f out : frame_wf f ->
  exists bs, encode_frame out f = Some (out ++ bs) /\ (0 < length bs)%nat /\
    forall buf off rest, size_ok buf -> padding_sep f rest -> at_cursor buf off (bs ++ rest) ->
      parse_frame buf off = Some (canon f, (off + length bs)%nat).
Proof. apply roundtrip_frame. Qed.

Lemma frame_roundtrip_witness :
  exists bs, encode_frame [7] (Stream (mkStream 4 300 true true [1; 2; 3])) = Some ([7] ++ bs)
    /\ (0 < length bs)%nat
    /\ forall buf off rest, size_ok buf -> True -> at_cursor buf off (bs ++ rest) ->
      parse_frame buf off = Some (Stream (mkStream 4 300 true true [1; 2; 3]), (off + length bs)%nat).
Proof.
  apply (frame_roundtrip (Stream (mkStream 4 300 true true [1; 2; 3])) [7]).
  vm_compute; repeat split; discriminate.
Defined.

(** A packet payload survives as a whole: the frames a sender
    appends one after the other (no PADDING directly behind a PADDING) are
    the frames [parse_frames] returns, in order, and it does return. *)
Theorem frames_roundtrip fs : Forall frame_wf fs -> separated fs ->
  exists bs, encode_frames [] fs = Some bs /\ (size_ok bs -> parse_frames bs = Some (Some (canon <$> fs))).
Proof.
  intros Hwf Hsep. destruct (roundtrip_frames fs [] Hwf Hsep) as (bs & He & _ & Hp).
  exists bs. split; [done|]. intros Hs. unfold parse_frames.
  rewrite (Hp bs 0%nat []); [done|done|by split; [lia|]|lia].
Qed.

Lemma frames_roundtrip_witness :
  exists bs, encode_frames [] [Padding 3; Ping; Crypto (mkCrypto 0 [9; 9]); Padding 2] = Some bs
    /\ (size_ok bs -> parse_frames bs = Some (Some [Padding 3; Ping; Crypto (mkCrypto 0 [9; 9]); Padding 2])).
Proof.
  apply (frames_roundtrip [Padding 3; Ping; Crypto (mkCrypto 0 [9; 9]); Padding 2]).
  - repeat constructor; vm_compute; done.
  - vm_compute; repeat split; discriminate || done.
Defined.

(** On any buffer whatsoever [parse_frames] terminates, and each frame
    it takes consumes at least one byte and never reaches past the end of
    the payload, though every length is a 62-bit number chosen by the peer. *)
Theorem parse_frames_safe payload :
  (exists r, parse_frames payload = Some r) /\
  forall off f off', bytes_ok payload -> size_ok payload -> parse_frame payload off = Some (f, off') ->
    (off < off' <= length payload)%nat.
Proof.
  split.
  - apply (loop_total _ (fun _ => True) (fun st => length payload - fst st)%nat); [|done|simpl; lia].
    intros st st' _ Hs. split; [done|]. by apply parse_frames_step_decreases.
  - intros off f off' Hb Hs [H1 H2]%parse_frame_bounds. auto.
Qed.

Lemma parse_frames_safe_witness : (0 < 2 <= length [64; 1; 1])%nat.
Proof.
  apply (proj2 (parse_frames_safe [64; 1; 1]) 0%nat Ping 2%nat).
  - repeat constructor; done.
  - done.
  - reflexivity.
Defined.

(** The STREAM test looks at the low byte of the 62-bit frame type only,
    so every type whose low byte is 0x08..0x0f is read as a STREAM frame; the
    unassigned type 0x108 (bytes 41 08) is one.  Types up to 63 are not
    affected. *)
Theorem stream_type_aliases t buf off : 64 <= t -> 8 <= t mod 256 <= 15 ->
  parse_body t buf off = parse_body (t mod 256) buf off.
Proof.
  intros Ht Hr. change (t mod 256) with (u8 t) in *.
  assert (Hl : t .& 0xF8 = 0x08).
  { change 0xF8 with (Z.ones 8 .& 0xF8). rewrite Z.land_assoc, Z.land_ones by lia.
    change (t mod 2 ^ 8) with (u8 t). byte_cases (u8 t). }
  unfold parse_body. rewrite !(not_code t) by done. cbn [orb].
  assert (Hs : parse_stream t buf off = parse_stream (u8 t) buf off).
  { unfold parse_stream. rewrite (u8_small (u8 t)) by apply u8_range. done. }
  unfold kStreamTypeMask, kStreamBaseType. rewrite Hl, Hs. byte_cases (u8 t).
Qed.

Lemma stream_type_aliases_witness : parse_frame [0x41; 0x08; 4; 1] 0 =
  Some (Stream (mkStream 4 0 false false [1]), 4%nat).
Proof. refine (eq_trans _ (eq_trans (stream_type_aliases 0x108 [0x41; 0x08; 4; 1] 2 _ _) _)); done. Defined.
