(* ===== verification/PnSpace.v ===== *)
(** * Received packet numbers and ACK construction

    Model of [PnSpace] (example/quic-http3/src/quic/pn_space.cpp, .hpp): the
    received packet numbers as a descending list of disjoint, non-adjacent
    closed ranges, at most [kMaxAckRanges] of them, and the ACK frame built
    from it. *)
From S2P Require Import Prelude VarInt QuicFrame.

Local Open Scope Z_scope.

(** ** State and operations *)

Record Range := mkRange { lo : Z; hi : Z }.

Record PnSpace := mkPnSpace {
  ranges : list Range;
  largest_received : option Z;
  needs_ack : bool }.

Definition init_pn_space : PnSpace := mkPnSpace [] None false.

Definition kMaxAckRanges : nat := 32.

(** The [while] of [on_received]: [None] when a range already covers [pn],
    otherwise the ranges before and from the iterator [it]. *)
Fixpoint find_slot (pn : Z) (rs : list Range) : option (list Range * list Range) :=
  match rs with
  | [] => Some ([], [])
  | r :: rs' =>
      if pn <=? hi r then
        if lo r <=? pn then None
        else '(above, below) ← find_slot pn rs'; Some (r :: above, below)
      else Some ([], r :: rs')
  end.

(** [std::prev(it)], when [it != begin()]. *)
Definition prev_of (above : list Range) : option (list Range * Range) :=
  match rev above with
  | [] => None
  | r :: rest => Some (rev rest, r)
  end.

(** The part of [on_received] behind the two extension attempts: a lower
    range grows upwards, or a singleton is inserted and the tail dropped. *)
Definition insert_here (pn : Z) (above below : list Range) : list Range :=
  match below with
  | r :: below' =>
      if u64 (hi r + 1) =? pn then above ++ mkRange (lo r) pn :: below'
      else take kMaxAckRanges (above ++ mkRange pn pn :: below)
  | [] => take kMaxAckRanges (above ++ [mkRange pn pn])
  end.

(** A range above reaches [pn + 1]: it grows down to [pn] and may swallow the
    range below. *)
Definition extend_down (pn : Z) (above : list Range) (h : Range) (below : list Range) : list Range :=
  match below with
  | r :: below' =>
      if u64 (hi r + 1) =? pn then above ++ mkRange (lo r) (hi h) :: below'
      else above ++ mkRange pn (hi h) :: below
  | [] => above ++ [mkRange pn (hi h)]
  end.

Definition insert_range (pn : Z) (rs : list Range) : list Range :=
  match find_slot pn rs with
  | None => rs
  | Some (above, below) =>
      match prev_of above with
      | Some (above', h) =>
          if lo h =? u64 (pn + 1) then extend_down pn above' h below
          else insert_here pn above below
      | None => insert_here pn above below
      end
  end.

Definition on_received (s : PnSpace) (pn : Z) (ack_eliciting : bool) : PnSpace :=
  let needs := if ack_eliciting then true else needs_ack s in
  let largest := match largest_received s with
                 | None => Some pn
                 | Some l => if l <? pn then Some pn else Some l
                 end in
  mkPnSpace (insert_range pn (ranges s)) largest needs.

(** The loop over [ranges_[1..]], carrying [prev]. *)
Fixpoint ack_gaps (prev : Range) (rs : list Range) : list AckRange :=
  match rs with
  | [] => []
  | cur :: rs' => mkAckRange (u64 (lo prev - hi cur - 2)) (u64 (hi cur - lo cur)) :: ack_gaps cur rs'
  end.

(** The frame written to [out], and the state left behind. *)
Definition build_ack_frame (s : PnSpace) (ack_delay_us : Z) : AckFrame * PnSpace :=
  match ranges s with
  | [] => (mkAckFrame 0 0 0 [] false 0 0 0, s)
  | r :: rs =>
      (mkAckFrame (hi r) ack_delay_us (u64 (hi r - lo r)) (ack_gaps r rs) false 0 0 0,
       mkPnSpace (ranges s) (largest_received s) false)
  end.

(** [while (!ranges_.empty() && ranges_.back().hi < pn) ranges_.pop_back()]
    on the reversed list, then the clamp of the last range. *)
Fixpoint pop_below (pn : Z) (rrs : list Range) : list Range :=
  match rrs with
  | [] => []
  | r :: rrs' => if hi r <? pn then pop_below pn rrs' else
      (if lo r <? pn then mkRange pn (hi r) else r) :: rrs'
  end.

Definition trim_below (s : PnSpace) (pn : Z) : PnSpace :=
  mkPnSpace (rev (pop_below pn (rev (ranges s)))) (largest_received s) (needs_ack s).

Definition reset (s : PnSpace) : PnSpace := mkPnSpace [] None false.

(** ** Specification *)

Definition in_range (q : Z) (r : Range) : Prop := lo r <= q <= hi r.

(** The set of packet numbers a range list stands for. *)
Definition covers (rs : list Range) (q : Z) : Prop := exists r, r ∈ rs /\ in_range q r.

Definition pn_ok (pn : Z) : Prop := 0 <= pn < 2 ^ 62.

Definition range_ok (r : Range) : Prop := 0 <= lo r /\ lo r <= hi r /\ hi r < 2 ^ 62.

(** Descending, with at least one missing number between neighbours. *)
Fixpoint descending (rs : list Range) : Prop :=
  match rs with
  | a :: (b :: _) as rs' => hi b + 1 < lo a /\ descending rs'
  | _ => True
  end.

Definition ranges_ok (rs : list Range) : Prop := Forall range_ok rs /\ descending rs.

Record pn_space_inv (s : PnSpace) : Prop := {
  inv_ranges : ranges_ok (ranges s);
  inv_count : (length (ranges s) <= kMaxAckRanges)%nat;
  inv_largest : forall q, covers (ranges s) q -> exists l, largest_received s = Some l /\ q <= l;
  inv_largest_ok : forall l, largest_received s = Some l -> pn_ok l }.

(** ** Lemmas *)

Lemma descending_app rs ss : descending (rs ++ ss) <->
  descending rs /\ descending ss /\
  (forall a b, last rs = Some a -> head ss = Some b -> hi b + 1 < lo a).
Proof.
  induction rs as [|a [|b rs] IH]; simpl.
  - naive_solver.
  - destruct ss; simpl; naive_solver.
  - change (b :: rs ++ ss) with ((b :: rs) ++ ss). rewrite IH. simpl. naive_solver.
Qed.

(** In a well-formed list every later range lies strictly below the head. *)
Lemma descending_below a rs : ranges_ok (a :: rs) -> Forall (fun r => hi r + 1 < lo a) rs.
Proof.
  intros [Hf Hd]. revert a Hf Hd. induction rs as [|b rs IH]; intros a Hf Hd; [constructor|].
  inversion Hf as [|? ? Ha Hf']; subst. inversion Hf' as [|? ? Hb Hf'']; subst. destruct Hd as [Hd Hd'].
  constructor; [done|]. specialize (IH b Hf' Hd'). eapply Forall_impl; [exact IH|].
  intros x Hx. unfold range_ok in *. simpl in *. lia.
Qed.

Lemma ranges_ok_app rs ss : ranges_ok (rs ++ ss) <->
  ranges_ok rs /\ ranges_ok ss /\ (forall a b, last rs = Some a -> head ss = Some b -> hi b + 1 < lo a).
Proof. unfold ranges_ok. rewrite Forall_app, descending_app. tauto. Qed.

Lemma ranges_ok_take n rs : ranges_ok rs -> ranges_ok (take n rs).
Proof. intros H. rewrite <- (take_drop n rs) in H. by apply ranges_ok_app in H as [? _]. Qed.

Lemma covers_nil q : covers [] q <-> False.
Proof. unfold covers. set_solver. Qed.
Lemma covers_cons r rs q : covers (r :: rs) q <-> in_range q r \/ covers rs q.
Proof. unfold covers. set_solver. Qed.
Lemma covers_app rs ss q : covers (rs ++ ss) q <-> covers rs q \/ covers ss q.
Proof. unfold covers. set_solver. Qed.

(** What the search of [on_received] finds: the ranges above [pn] end
    strictly above it, those below start strictly below it. *)
Lemma find_slot_spec pn rs : ranges_ok rs ->
  match find_slot pn rs with
  | None => covers rs pn
  | Some (above, below) => rs = above ++ below /\
      (forall r, last above = Some r -> pn < lo r) /\ (forall r, head below = Some r -> hi r < pn)
  end.
Proof.
  induction rs as [|r rs IH]; intros Hok; simpl; [naive_solver|].
  destruct (Z.leb_spec pn (hi r)) as [E1|E1]; [|naive_solver].
  destruct (Z.leb_spec (lo r) pn) as [E2|E2].
  { apply covers_cons. left. unfold in_range. lia. }
  assert (Hok' : ranges_ok rs) by (by apply (ranges_ok_app [r]) in Hok as (_ & ? & _)).
  specialize (IH Hok'). destruct (find_slot pn rs) as [[above below]|]; simpl.
  - destruct IH as (-> & Ha & Hb). split; [done|]. split; [|done].
    intros r' Hl. destruct above as [|a above]; [by injection Hl as <-|]. by apply Ha.
  - apply covers_cons. by right.
Qed.

Lemma prev_of_spec above :
  match prev_of above with
  | None => above = []
  | Some (above', h) => above = above' ++ [h]
  end.
Proof.
  unfold prev_of. destruct (rev above) as [|r rest] eqn:E.
  - apply (f_equal (@rev Range)) in E. by rewrite rev_involutive in E.
  - apply (f_equal (@rev Range)) in E. rewrite rev_involutive in E. by rewrite E.
Qed.

Lemma ranges_ok_cons r rs : ranges_ok (r :: rs) <->
  range_ok r /\ ranges_ok rs /\ (forall b, head rs = Some b -> hi b + 1 < lo r).
Proof.
  unfold ranges_ok. rewrite Forall_cons. destruct rs as [|b rs]; simpl; [naive_solver|].
  split; [naive_solver|]. intros (? & [? ?] & Hh). split_and!; try done. by apply Hh.
Qed.

Lemma u64_succ pn : pn_ok pn -> u64 (pn + 1) = pn + 1.
Proof. intros [? ?]. apply u64_small. unfold u64_ok. lia. Qed.

Lemma last_snoc_app (rs : list Range) a : last (rs ++ [a]) = Some a.
Proof. apply last_snoc. Qed.

Ltac ranges_solve :=
  rewrite ?ranges_ok_app, ?ranges_ok_cons, ?covers_app, ?covers_cons, ?covers_nil in *;
  unfold range_ok, in_range in *; simpl in *; naive_solver lia.

(** Growing a range downwards. *)
Lemma extend_down_spec pn above h below :
  pn_ok pn -> ranges_ok (above ++ h :: below) -> lo h = pn + 1 ->
  (forall r, head below = Some r -> hi r < pn) ->
  ranges_ok (extend_down pn above h below) /\
  (length (extend_down pn above h below) <= length (above ++ h :: below))%nat /\
  forall q, covers (extend_down pn above h below) q <-> covers (above ++ h :: below) q \/ q = pn.
Proof.
  intros [Hp0 Hp1] Hok Hlo Hb. rewrite ranges_ok_app, ranges_ok_cons in Hok.
  destruct Hok as (Ha & (Hh & Hbl & Hhb) & Hah). unfold extend_down. rewrite !length_app.
  assert (Hah' : forall a, last above = Some a -> hi h + 1 < lo a) by (intros; by apply Hah).
  destruct below as [|r below]; [split_and!; [ranges_solve|rewrite length_app; simpl; lia|intros q; ranges_solve]|].
  specialize (Hb r eq_refl). specialize (Hhb r eq_refl). rewrite ranges_ok_cons in Hbl.
  destruct Hbl as (Hr & Hbl & Hrb). rewrite u64_succ by (unfold pn_ok, range_ok in *; lia).
  case_match eqn:E; [apply Z.eqb_eq in E|apply Z.eqb_neq in E]; rewrite !length_app; simpl length.
  all: split_and!; [ranges_solve|lia|intros q; ranges_solve].
Qed.

(** Growing a range upwards, or a new singleton and the cut at 32 ranges:
    what the cut drops lies below everything kept. *)
Lemma insert_here_spec pn above below :
  pn_ok pn -> ranges_ok (above ++ below) -> (length (above ++ below) <= kMaxAckRanges)%nat ->
  (forall r, last above = Some r -> pn + 1 < lo r) -> (forall r, head below = Some r -> hi r < pn) ->
  let full := above ++ match below with
    | r :: below' => if hi r + 1 =? pn then mkRange (lo r) pn :: below' else mkRange pn pn :: below
    | [] => [mkRange pn pn] end in
  insert_here pn above below = take kMaxAckRanges full /\ ranges_ok full /\
  forall q, covers full q <-> covers (above ++ below) q \/ q = pn.
Proof.
  intros [Hp0 Hp1] Hok Hlen Ha Hb. rewrite ranges_ok_app in Hok. destruct Hok as (Hoa & Hob & Hab).
  unfold insert_here. destruct below as [|r below]; [split_and!; [done|ranges_solve|intros q; ranges_solve]|].
  specialize (Hb r eq_refl). rewrite ranges_ok_cons in Hob. destruct Hob as (Hr & Hbl & Hrb).
  rewrite u64_succ by (unfold pn_ok, range_ok in *; lia).
  case_match eqn:E; [apply Z.eqb_eq in E|apply Z.eqb_neq in E].
  all: split_and!; [try done|ranges_solve|intros q; ranges_solve].
  rewrite take_ge; [done|]. rewrite length_app in *. simpl in *. lia.
Qed.

(** The cut: nothing is added, and what is lost lies below what is kept. *)
Lemma covers_take n rs q : ranges_ok rs ->
  (covers (take n rs) q -> covers rs q) /\
  (covers rs q -> covers (take n rs) q \/ (n < length rs)%nat /\ forall r, r ∈ take n rs -> q < lo r).
Proof.
  intros Hok. split; [rewrite <- (take_drop n rs) at 2; rewrite covers_app; tauto|].
  intros Hc. destruct (decide (length rs <= n)%nat) as [Hle|Hgt]; [by left; rewrite take_ge|].
  rewrite <- (take_drop n rs) in Hc. apply covers_app in Hc as [Hc|Hc]; [by left|]. right. split; [lia|].
  intros r Hr. destruct Hc as (r' & Hr' & [_ Hq]).
  rewrite <- (take_drop n rs) in Hok. apply list_elem_of_split in Hr as (l1 & l2 & Hl). rewrite Hl in Hok.
  rewrite <- app_assoc in Hok. apply ranges_ok_app in Hok as (_ & Hok & _). simpl in Hok.
  pose proof (descending_below _ _ Hok) as Hb. rewrite Forall_app, !Forall_forall in Hb.
  destruct Hb as [_ Hb]. specialize (Hb _ Hr'). lia.
Qed.

(** [insert_range], all branches at once. *)
Lemma insert_range_spec pn rs :
  pn_ok pn -> ranges_ok rs -> (length rs <= kMaxAckRanges)%nat ->
  exists full, insert_range pn rs = take kMaxAckRanges full /\ ranges_ok full /\
    forall q, covers full q <-> covers rs q \/ q = pn.
Proof.
  intros Hp Hok Hlen. unfold insert_range. pose proof (find_slot_spec pn rs Hok) as Hs.
  destruct (find_slot pn rs) as [[above below]|].
  2: { exists rs. rewrite take_ge by done. naive_solver. }
  destruct Hs as (-> & Ha & Hb). pose proof (prev_of_spec above) as Hpv.
  assert (Hhere : (forall r, last above = Some r -> pn + 1 < lo r) ->
    exists full, insert_here pn above below = take kMaxAckRanges full /\ ranges_ok full /\
      forall q, covers full q <-> covers (above ++ below) q \/ q = pn).
  { intros Ha'. eexists. by apply insert_here_spec. }
  destruct (prev_of above) as [[above' h]|]; [|subst; by apply Hhere].
  subst above. rewrite u64_succ by done. case_match eqn:E; [apply Z.eqb_eq in E|apply Z.eqb_neq in E].
  - rewrite <- app_assoc in *. simpl in *. destruct (extend_down_spec pn above' h below) as (? & ? & ?); try done.
    eexists. rewrite take_ge; [done|]. rewrite length_app in *. simpl in *. lia.
  - apply Hhere. intros r Hr. specialize (Ha r Hr). rewrite last_snoc in Hr. injection Hr as ->. lia.
Qed.

Lemma init_pn_space_inv : pn_space_inv init_pn_space.
Proof. split; simpl; [by split|lia|intros q []%covers_nil|done]. Qed.

Lemma on_received_inv s pn e : pn_space_inv s -> pn_ok pn -> pn_space_inv (on_received s pn e).
Proof.
  intros [Hr Hc Hl Ho] Hp. destruct (insert_range_spec pn (ranges s) Hp Hr Hc) as (full & Hi & Hok & Hcov).
  split; simpl; rewrite ?Hi.
  - by apply ranges_ok_take.
  - rewrite length_take. lia.
  - intros q Hq. apply covers_take, Hcov in Hq; [|done]. destruct Hq as [Hq| ->].
    + destruct (Hl q Hq) as (l & -> & ?). case_match eqn:E; eexists; (split; [done|]); [apply Z.ltb_lt in E|]; lia.
    + destruct (largest_received s) as [l|]; [|by eexists].
      destruct (Z.ltb_spec l pn); eexists; (split; [done|]); lia.
  - intros l. destruct (largest_received s) as [l'|]; [case_match|]; intros [= <-]; eauto.
Qed.

(** The trim walks the list from its end, that is, in ascending order. *)
Lemma pop_below_spec pn rs : ranges_ok rs ->
  let rs' := rev (pop_below pn (rev rs)) in
  ranges_ok rs' /\ (length rs' <= length rs)%nat /\ forall q, covers rs' q <-> covers rs q /\ pn <= q.
Proof.
  induction rs as [|r rs IH] using rev_ind; intros Hok; simpl.
  { split_and!; [by split|lia|]. intros q. rewrite covers_nil. tauto. }
  apply ranges_ok_app in Hok as (Hok & Hr & Hab). rewrite rev_app_distr. simpl.
  rewrite ranges_ok_cons in Hr. destruct Hr as (Hr & _ & _).
  destruct (Z.ltb_spec (hi r) pn) as [E|E].
  - destruct (IH Hok) as (? & ? & Hcov). rewrite length_app. split_and!; [done|lia|].
    intros q. rewrite Hcov. ranges_solve.
  - clear IH. cbn [rev]. rewrite rev_involutive. rewrite !length_app. simpl.
    assert (Hq : forall q, covers rs q -> hi r + 1 < q).
    { intros q (r' & Hr' & Hq). apply list_elem_of_split in Hr' as (l1 & l2 & ->).
      assert (ranges_ok (r' :: l2 ++ [r])) as Hb%descending_below.
      { assert (ranges_ok ((l1 ++ r' :: l2) ++ [r])) as Hall.
        { apply ranges_ok_app. split_and!; [done| |done]. apply ranges_ok_cons. split_and!; done. }
        rewrite <- app_assoc in Hall. by apply ranges_ok_app in Hall as (_ & ? & _). }
      rewrite Forall_app in Hb. destruct Hb as [_ Hb]. inversion Hb; subst. unfold in_range in Hq. lia. }
    assert (Hlast : forall a, last rs = Some a -> hi r + 1 < lo a) by (intros; by apply Hab).
    split_and!; [|lia|].
    { destruct (Z.ltb_spec (lo r) pn); apply ranges_ok_app; rewrite ranges_ok_cons; unfold range_ok in *;
        (split_and!; try done; simpl; try lia); intros a b Ha [= <-]; by apply Hlast. }
    intros q. rewrite !covers_app. specialize (Hq q).
    destruct (Z.ltb_spec (lo r) pn); ranges_solve.
Qed.

Lemma ack_gaps_length r rs : length (ack_gaps r rs) = length rs.
Proof. revert r. induction rs as [|a rs IH]; intros r; simpl; [done|]. by rewrite IH. Qed.

(** On a well-formed list the 64-bit subtractions of the ACK builder do not
    wrap. *)
Lemma ack_gaps_cons r a rs : ranges_ok (r :: a :: rs) ->
  ack_gaps r (a :: rs) = mkAckRange (lo r - hi a - 2) (hi a - lo a) :: ack_gaps a rs.
Proof.
  intros Hok. pose proof (proj1 (ranges_ok_cons _ _) Hok) as (Hr & Hok' & Hlt).
  apply ranges_ok_cons in Hok' as (Ha & _). specialize (Hlt a eq_refl). unfold range_ok in *. simpl.
  rewrite !u64_small by (unfold u64_ok; lia). done.
Qed.

Lemma build_ack_wf s d : pn_space_inv s -> varint_ok d -> frame_wf (Ack (build_ack_frame s d).1).
Proof.
  intros [[Hf Hd] Hc _ _] Hdel. unfold build_ack_frame. destruct (ranges s) as [|r rs]; simpl.
  { repeat split; try done; vm_compute; discriminate. }
  assert (Hok : ranges_ok (r :: rs)) by done. clear Hf Hd. unfold varint_ok in *.
  change kMax with (2 ^ 62 - 1) in *. rewrite ack_gaps_length. unfold kMaxAckRanges in Hc. simpl in Hc.
  assert (Hr : range_ok r) by (by apply ranges_ok_cons in Hok as [? _]). unfold range_ok in Hr.
  rewrite u64_small by (unfold u64_ok; lia). split_and!; try lia. clear Hc Hr Hdel.
  revert r Hok. induction rs as [|a rs IH]; intros r Hok; [constructor|].
  rewrite ack_gaps_cons by done. apply ranges_ok_cons in Hok as (Hr & Hok & Hlt). constructor; [|by apply IH].
  specialize (Hlt a eq_refl). apply ranges_ok_cons in Hok as (Ha & _).
  unfold range_ok, range_wf, varint_ok in *. change kMax with (2 ^ 62 - 1). simpl. lia.
Qed.

(** ** Properties *)

(** Recording a packet number keeps the representation invariant
    (descending, disjoint, non-adjacent ranges, at most 32 of them, none above
    the largest received) and adds exactly that number to the set the ranges
    stand for; the only numbers ever lost are those below every range kept,
    and only when all 32 ranges are in use. *)
Theorem on_received_correct s pn e : pn_space_inv s -> pn_ok pn ->
  let s' := on_received s pn e in
  pn_space_inv s' /\ needs_ack s' = (e || needs_ack s)%bool /\
  (forall q, covers (ranges s') q -> covers (ranges s) q \/ q = pn) /\
  (forall q, covers (ranges s) q \/ q = pn ->
     covers (ranges s') q \/
     length (ranges s') = kMaxAckRanges /\ forall r, r ∈ ranges s' -> q < lo r).
Proof.
  intros Hinv Hp s'. pose proof Hinv as [Hr Hc _ _].
  destruct (insert_range_spec pn (ranges s) Hp Hr Hc) as (full & Hi & Hok & Hcov).
  assert (Hs : ranges s' = take kMaxAckRanges full) by done. rewrite Hs.
  split; [by apply on_received_inv|]. split; [by destruct e|]. split; intros q.
  - intros Hq%covers_take; [|done]. by apply Hcov.
  - intros Hq%Hcov. destruct (proj2 (covers_take kMaxAckRanges full q Hok) Hq) as [?|[? ?]]; [by left|].
    right. split; [rewrite length_take; lia|done].
Qed.

Lemma on_received_correct_witness :
  ranges (on_received (mkPnSpace [mkRange 7 9; mkRange 2 5] (Some 9) false) 6 true) = [mkRange 2 9] /\
  (forall q, covers [mkRange 2 9] q -> covers [mkRange 7 9; mkRange 2 5] q \/ q = 6).
Proof.
  split; [reflexivity|].
  apply (on_received_correct (mkPnSpace [mkRange 7 9; mkRange 2 5] (Some 9) false) 6 true).
  - split; simpl.
    + split; [repeat constructor; done|simpl; lia].
    + unfold kMaxAckRanges; lia.
    + intros q Hq. exists 9. split; [done|]. ranges_solve.
    + intros l [= <-]. done.
  - done.
Defined.

(** [trim_below] removes exactly the numbers below its argument. *)
Theorem trim_below_correct s pn : pn_space_inv s ->
  pn_space_inv (trim_below s pn) /\
  forall q, covers (ranges (trim_below s pn)) q <-> covers (ranges s) q /\ pn <= q.
Proof.
  intros [Hr Hc Hl Ho]. destruct (pop_below_spec pn (ranges s) Hr) as (Hok & Hlen & Hcov).
  split; [|exact Hcov]. split; simpl; [done|lia| |done]. intros q Hq. apply Hl. by apply Hcov in Hq as [? _].
Qed.

Lemma trim_below_correct_witness :
  pn_space_inv (trim_below (on_received init_pn_space 3 true) 3).
Proof. apply (trim_below_correct (on_received init_pn_space 3 true) 3), on_received_inv; [apply init_pn_space_inv|done]. Defined.
