(* ===== verification/QuicCongestion.v ===== *)
(** * RTT estimation, PTO and congestion control (RFC 9002)

    Models of [Recovery] (example/quic-http3/src/quic/recovery.cpp, .hpp) and
    [Congestion] (congestion.cpp, .hpp).  Durations and time points are
    nanosecond counts; integer division of a duration truncates. *)
From S2P Require Import Prelude.

Local Open Scope Z_scope.

Module Recovery.

Definition kInitialRtt : Z := 333000000.
Definition kGranularity : Z := 1000000.
Definition kPacketThreshold : Z := 3.
(** [Duration::max()] *)
Definition duration_max : Z := 2 ^ 63 - 1.

Record Recovery := mkRecovery {
  latest_rtt : Z; smoothed_rtt : Z; rttvar : Z; min_rtt : Z; have_sample : bool; pto_count : Z }.

Definition init : Recovery := mkRecovery 0 kInitialRtt (Z.quot kInitialRtt 2) duration_max false 0.

Definition on_rtt_sample (r : Recovery) (latest ack_delay : Z) : Recovery :=
  if have_sample r then
    let min_rtt' := Z.min (min_rtt r) latest in
    let adjusted := if min_rtt' + ack_delay <=? latest then latest - ack_delay else latest in
    let sm := Z.quot (7 * smoothed_rtt r + adjusted) 8 in
    let diff := if adjusted <? sm then sm - adjusted else adjusted - sm in
    mkRecovery latest sm (Z.quot (3 * rttvar r + diff) 4) min_rtt' true (pto_count r)
  else mkRecovery latest latest (Z.quot latest 2) latest true (pto_count r).

(** [int64_t] after a left shift (modulo 2^64 since C++20). *)
Definition i64 (x : Z) : Z := (x + 2 ^ 63) mod 2 ^ 64 - 2 ^ 63.

Definition pto_timeout (r : Recovery) (max_ack_delay : Z) : Z :=
  let base := smoothed_rtt r + Z.max (rttvar r * 4) kGranularity + max_ack_delay in
  if pto_count r =? 0 then base
  else i64 (base .<< Z.min (pto_count r) 30).

(** [++pto_count_] on a [uint32_t]. *)
Definition on_pto_fired (r : Recovery) : Recovery :=
  mkRecovery (latest_rtt r) (smoothed_rtt r) (rttvar r) (min_rtt r) (have_sample r) (u32 (pto_count r + 1)).

Definition reset_pto (r : Recovery) : Recovery :=
  mkRecovery (latest_rtt r) (smoothed_rtt r) (rttvar r) (min_rtt r) (have_sample r) 0.

Definition loss_time_threshold (r : Recovery) : Z :=
  Z.quot (Z.max (smoothed_rtt r) (latest_rtt r) * 9) 8.

(** After the first sample, with every sample at most [M]: the estimates stay
    between the minimum and the maximum observed. *)
Record rtt_inv (M : Z) (r : Recovery) : Prop := {
  rtt_have : have_sample r = true;
  rtt_min : 0 <= min_rtt r <= smoothed_rtt r;
  rtt_latest : min_rtt r <= latest_rtt r <= M;
  rtt_smoothed : smoothed_rtt r <= M;
  rtt_var : 0 <= rttvar r <= M }.

Definition run_samples (r : Recovery) (l : list (Z * Z)) : Recovery :=
  foldl (fun r '(latest, ack_delay) => on_rtt_sample r latest ack_delay) r l.

Lemma quot_div a b : 0 <= a -> 0 < b -> Z.quot a b = a / b.
Proof. intros. apply Z.quot_div_nonneg; lia. Qed.

Lemma avg_bounds a b k n lo hi : 0 <= lo -> lo <= a <= hi -> lo <= b <= hi -> 0 <= k < n ->
  lo <= Z.quot (k * a + (n - k) * b) n <= hi.
Proof.
  intros. rewrite quot_div by nia. split.
  - apply Z.div_le_lower_bound; nia.
  - apply Z.div_le_upper_bound; nia.
Qed.

Lemma on_rtt_sample_inv M r latest d :
  rtt_inv M r \/ have_sample r = false -> 0 <= latest <= M -> 0 <= d ->
  rtt_inv M (on_rtt_sample r latest d).
Proof.
  intros Hr Hl Hd. unfold on_rtt_sample. destruct (have_sample r) eqn:Hs.
  2: { pose proof (avg_bounds latest 0 1 2 0 latest) as Hq. rewrite Z.mul_1_l, Z.mul_0_r, Z.add_0_r in Hq.
       split; simpl; [done|lia..]. }
  destruct Hr as [[_ Hmin Hlat Hsm Hv]|]; [|done]. cbv zeta.
  set (m := Z.min (min_rtt r) latest).
  set (adj := if m + d <=? latest then latest - d else latest).
  assert (Hadj : m <= adj <= M) by (unfold adj; destruct (Z.leb_spec (m + d) latest); unfold m in *; lia).
  pose proof (avg_bounds (smoothed_rtt r) adj 7 8 m M) as Hq.
  replace ((8 - 7) * adj) with adj in Hq by lia. specialize (Hq ltac:(lia) ltac:(lia) ltac:(lia) ltac:(lia)).
  set (sm := Z.quot (7 * smoothed_rtt r + adj) 8) in *.
  set (diff := if adj <? sm then sm - adj else adj - sm).
  assert (Hdiff : 0 <= diff <= M) by (unfold diff; destruct (Z.ltb_spec adj sm); lia).
  pose proof (avg_bounds (rttvar r) diff 3 4 0 M) as Hq2. replace ((4 - 3) * diff) with diff in Hq2 by lia.
  split; simpl; [done|lia..].
Qed.

(** Whatever samples arrive (each at most [M], non-negative ACK
    delays), the estimator is well-behaved from the first sample on: the
    smoothed RTT lies between the minimum and [M], the variance between 0 and
    [M], and the minimum is at most every sample seen. *)
Theorem rtt_estimates_bounded M s l :
  0 <= s.1 <= M -> 0 <= s.2 -> Forall (fun '(latest, d) => 0 <= latest <= M /\ 0 <= d) l ->
  let r := run_samples init (s :: l) in
  rtt_inv M r /\ Forall (fun '(latest, _) => min_rtt r <= latest) (s :: l).
Proof.
  intros Hs1 Hs2 Hl r. unfold r. clear r.
  assert (Hgen : forall done r, rtt_inv M r -> Forall (fun '(x, _) => min_rtt r <= x) done ->
    rtt_inv M (run_samples r l) /\ Forall (fun '(x, _) => min_rtt (run_samples r l) <= x) (done ++ l)).
  { clear s Hs1 Hs2. induction Hl as [|[x d] l [Hx Hd] _ IH]; intros done r Hr Hf; simpl.
    { rewrite app_nil_r. done. }
    rewrite cons_middle, app_assoc. apply IH.
    - apply on_rtt_sample_inv; [by left|done|done].
    - assert (Hm : min_rtt (on_rtt_sample r x d) <= min_rtt r /\ min_rtt (on_rtt_sample r x d) <= x).
      { unfold on_rtt_sample. rewrite (rtt_have _ _ Hr). simpl. lia. }
      apply Forall_app. split; [|repeat constructor; apply Hm].
      eapply Forall_impl; [exact Hf|]. intros [y ?] ?. simpl in *. lia. }
  destruct s as [x d]. apply (Hgen [(x, d)] (on_rtt_sample init x d)).
  - apply on_rtt_sample_inv; [by right|done|done].
  - repeat constructor. simpl. lia.
Qed.

Lemma rtt_estimates_bounded_witness : rtt_inv 90 (run_samples init [(40, 5); (90, 10); (35, 40)]).
Proof. apply (rtt_estimates_bounded 90 (40, 5) [(90, 10); (35, 40)]); repeat constructor; simpl; lia. Defined.

(** The probe timeout doubles with every firing, up to 2^30, as long
    as the un-scaled timeout stays below 2^33 ns (8.5 s); [reset_pto] returns
    to the un-scaled value. *)
Theorem pto_backoff r d :
  let base := pto_timeout (reset_pto r) d in
  0 <= base < 2 ^ 33 -> 0 <= pto_count r < 2 ^ 32 - 1 ->
  pto_timeout r d = base * 2 ^ Z.min (pto_count r) 30 /\
  pto_timeout (on_pto_fired r) d = (if pto_count r <? 30 then 2 else 1) * pto_timeout r d.
Proof.
  intros base Hb Hc.
  assert (Heq : forall r', smoothed_rtt r' = smoothed_rtt r -> rttvar r' = rttvar r -> 0 <= pto_count r' ->
    pto_timeout r' d = base * 2 ^ Z.min (pto_count r') 30).
  { intros r' H1 H2 Hc'. unfold pto_timeout. rewrite H1, H2.
    change (smoothed_rtt r + Z.max (rttvar r * 4) kGranularity + d) with base.
    destruct (Z.eqb_spec (pto_count r') 0) as [->|]; [change (2 ^ Z.min 0 30) with 1; lia|].
    rewrite shl_mul by lia. unfold i64. rewrite Z.mod_small; [lia|].
    assert (1 <= 2 ^ Z.min (pto_count r') 30 <= 2 ^ 30).
    { split; [|apply Z.pow_le_mono_r; lia]. pose proof (Z.pow_pos_nonneg 2 (Z.min (pto_count r') 30)). lia. }
    nia. }
  split; [apply Heq; lia || done|]. rewrite !Heq by (simpl; rewrite ?u32_small by lia; lia || done).
  simpl. rewrite u32_small by lia. destruct (Z.ltb_spec (pto_count r) 30).
  - rewrite !Z.min_l by lia. rewrite Z.pow_add_r by lia. lia.
  - rewrite !Z.min_r by lia. lia.
Qed.

Lemma pto_backoff_witness : pto_timeout (on_pto_fired (on_pto_fired init)) 25000000 = 4 * 1024000000.
Proof.
  refine (eq_trans (proj2 (pto_backoff (on_pto_fired init) 25000000 _ _)) _); [vm_compute; split; congruence..|].
  reflexivity.
Defined.

End Recovery.

Module Congestion.

Definition kMaxDatagramSize : Z := 1200.
Definition kInitialWindowPackets : Z := 10.
Definition kMinWindowPackets : Z := 2.

Record Congestion := mkCongestion {
  max_datagram_size : Z; cwnd : Z; bytes_in_flight : Z; ssthresh : Z;
  recovery_start_time : option Z }.

Definition new (mds : Z) : Congestion :=
  mkCongestion mds (u64 (mds * kInitialWindowPackets)) 0 (2 ^ 64 - 1) None.

Definition in_recovery (c : Congestion) (now : Z) : bool :=
  match recovery_start_time c with Some t => t <? now | None => false end.

Definition can_send (c : Congestion) (bytes : Z) : bool := u64 (bytes_in_flight c + bytes) <=? cwnd c.

Definition set_cwnd (c : Congestion) (w : Z) : Congestion :=
  mkCongestion (max_datagram_size c) w (bytes_in_flight c) (ssthresh c) (recovery_start_time c).
Definition set_in_flight (c : Congestion) (b : Z) : Congestion :=
  mkCongestion (max_datagram_size c) (cwnd c) b (ssthresh c) (recovery_start_time c).

Definition on_packet_sent (c : Congestion) (bytes : Z) : Congestion :=
  set_in_flight c (u64 (bytes_in_flight c + bytes)).

(** Both handlers start by releasing the bytes, clamped at zero. *)
Definition release (c : Congestion) (bytes : Z) : Congestion :=
  set_in_flight c (if bytes_in_flight c <? bytes then 0 else bytes_in_flight c - bytes).

Definition on_packets_acked (c : Congestion) (now bytes_acked : Z) : Congestion :=
  let c := release c bytes_acked in
  if in_recovery c now then c
  else if cwnd c <? ssthresh c then set_cwnd c (u64 (cwnd c + bytes_acked))
  else set_cwnd c (u64 (cwnd c + u64 (max_datagram_size c * bytes_acked) / cwnd c)).

(** Conversion of a [size_t] to [double]: round to nearest, ties to even. *)
Definition to_double (x : Z) : Z :=
  let e := Z.log2 x - 52 in
  if e <=? 0 then x else
  let m := x / 2 ^ e in
  let r := x mod 2 ^ e in
  let half := 2 ^ (e - 1) in
  (if (half <? r) || ((r =? half) && Z.odd m) then m + 1 else m) * 2 ^ e.

(** [static_cast<std::size_t>(cwnd_ * kLossReductionFactor)] with factor 0.5:
    the product is exact, the conversion back truncates. *)
Definition loss_reduction (w : Z) : Z := to_double w / 2.

Definition enter_recovery (c : Congestion) (now : Z) : Congestion :=
  let ss := loss_reduction (cwnd c) in
  mkCongestion (max_datagram_size c) (Z.max ss (u64 (max_datagram_size c * kMinWindowPackets)))
    (bytes_in_flight c) ss (Some now).

Definition on_packets_lost (c : Congestion) (now bytes_lost largest_lost_time : Z) : Congestion :=
  let c := release c bytes_lost in
  match recovery_start_time c with
  | Some t => if largest_lost_time <=? t then c else enter_recovery c now
  | None => enter_recovery c now
  end.

(** The calls the connection makes, as a sequence. *)
Inductive event :=
| Sent (bytes : Z)
| Acked (now bytes : Z)
| Lost (now bytes largest_lost_time : Z).

Definition step (c : Congestion) (e : event) : Congestion :=
  match e with
  | Sent b => on_packet_sent c b
  | Acked now b => on_packets_acked c now b
  | Lost now b t => on_packets_lost c now b t
  end.

Definition run (c : Congestion) (es : list event) : Congestion := foldl step c es.

(** ** Lemmas *)

(** Sizes as the connection produces them: datagrams of at most 64 KiB, and a
    window below 2^53 bytes (the range in which the halving is exact). *)
Record cong_inv (c : Congestion) : Prop := {
  cong_mds : 1 <= max_datagram_size c <= 65536;
  cong_cwnd : 2 * max_datagram_size c <= cwnd c < 2 ^ 53;
  cong_flight : 0 <= bytes_in_flight c < 2 ^ 62 }.

Lemma to_double_exact x : 0 <= x < 2 ^ 53 -> to_double x = x.
Proof.
  intros H. unfold to_double. destruct (Z.leb_spec (Z.log2 x - 52) 0) as [|Hgt]; [done|].
  destruct (decide (x = 0)) as [->|]; [done|].
  assert (Z.log2 x < 53) by (apply Z.log2_lt_pow2; lia). lia.
Qed.

Lemma release_inv c b : cong_inv c -> 0 <= b -> cong_inv (release c b).
Proof. intros [? ? ?] ?. split; simpl; [done|done|]. destruct (Z.ltb_spec (bytes_in_flight c) b); lia. Qed.

Lemma release_fields c b : cwnd (release c b) = cwnd c /\ max_datagram_size (release c b) = max_datagram_size c
  /\ ssthresh (release c b) = ssthresh c /\ recovery_start_time (release c b) = recovery_start_time c
  /\ in_recovery (release c b) = in_recovery c.
Proof. done. Qed.

(** Growth on an acknowledgement: nothing in recovery, otherwise at most the
    bytes acknowledged; never a shrink. *)
Lemma acked_cwnd c now b : cong_inv c -> 0 <= b <= 65536 -> cwnd c + b < 2 ^ 53 ->
  cwnd c <= cwnd (on_packets_acked c now b) <= cwnd c + b /\
  (in_recovery c now = true -> cwnd (on_packets_acked c now b) = cwnd c).
Proof.
  intros [Hm Hw Hf] Hb Hlt. unfold on_packets_acked. cbv zeta.
  destruct (release_fields c b) as (Hw' & Hm' & Hs' & _ & ->).
  destruct (in_recovery c now) eqn:E; [rewrite Hw'; split; [lia|done]|].
  rewrite Hw', Hs', Hm'. split; [|done]. case_match; simpl.
  - rewrite u64_small by (unfold u64_ok; lia). lia.
  - assert (Hd : 0 <= max_datagram_size c * b / cwnd c <= b).
    { split; [apply Z.div_pos; nia|]. apply Z.div_le_upper_bound; nia. }
    rewrite (u64_small (max_datagram_size c * b)) by (unfold u64_ok; nia).
    rewrite u64_small by (unfold u64_ok; lia). lia.
Qed.

Lemma acked_inv c now b : cong_inv c -> 0 <= b <= 65536 -> cwnd c + b < 2 ^ 53 ->
  cong_inv (on_packets_acked c now b).
Proof.
  intros Hi Hb Hlt. destruct (acked_cwnd c now b Hi Hb Hlt) as [Hc _].
  destruct (release_inv c b Hi ltac:(lia)) as [H1 H2 H3].
  assert (max_datagram_size (on_packets_acked c now b) = max_datagram_size c /\
    bytes_in_flight (on_packets_acked c now b) = bytes_in_flight (release c b)) as [E1 E2].
  { unfold on_packets_acked. cbv zeta. repeat case_match; done. }
  split; rewrite ?E1, ?E2; [done| |done]. destruct Hi. lia.
Qed.

Lemma enter_recovery_cwnd c now : cong_inv c ->
  cwnd (enter_recovery c now) = Z.max (cwnd c / 2) (2 * max_datagram_size c).
Proof.
  intros [Hm Hw Hf]. simpl. unfold loss_reduction, kMinWindowPackets.
  rewrite to_double_exact, u64_small by (unfold u64_ok; lia). lia.
Qed.

Lemma lost_cwnd c now b t : cong_inv c -> 0 <= b ->
  let c' := on_packets_lost c now b t in
  cong_inv c' /\ cwnd c' <= cwnd c /\
  (recovery_start_time c' = recovery_start_time c /\ cwnd c' = cwnd c \/
   recovery_start_time c' = Some now /\ cwnd c' = Z.max (cwnd c / 2) (2 * max_datagram_size c)).
Proof.
  intros Hi Hb c'. pose proof (release_inv c b Hi Hb) as Hr. pose proof Hi as [Hm Hw Hf].
  assert (0 <= cwnd c / 2 <= cwnd c) by (split; [apply Z.div_pos|apply Z.div_le_upper_bound]; lia).
  pose proof (enter_recovery_cwnd (release c b) now Hr) as He2.
  assert (He1 : cong_inv (enter_recovery (release c b) now)).
  { destruct Hr as [? ? ?]. split; [done|rewrite He2; simpl; lia|done]. }
  simpl cwnd in He2 at 2. simpl max_datagram_size in He2.
  unfold c', on_packets_lost. cbv zeta.
  change (recovery_start_time (release c b)) with (recovery_start_time c).
  destruct (recovery_start_time c) as [t0|] eqn:E; [case_match|].
  - split_and!; [done|simpl; lia|left; split; [exact E|done]].
  - split_and!; [done|lia|right]. split; [done|lia].
  - split_and!; [done|lia|right]. split; [done|lia].
Qed.

(** A trace whose clock readings increase from [t0] on; [sz] bounds the
    datagrams. *)
Fixpoint clocked (t0 : Z) (es : list event) : Prop :=
  match es with
  | [] => True
  | Sent b :: es => 0 <= b <= 65536 /\ clocked t0 es
  | Acked now b :: es | Lost now b _ :: es => t0 < now /\ 0 <= b <= 65536 /\ clocked now es
  end.

Lemma clocked_mono t t' es : t <= t' -> clocked t' es -> clocked t es.
Proof. revert t t'. induction es as [|[] es IH]; intros t t' Ht; simpl; [done|naive_solver|naive_solver lia..]. Qed.

(** ** Properties *)

(** The window never falls below two datagrams, a loss outside the
    current recovery epoch halves it (never below that floor), a loss of a
    packet sent before the epoch leaves it alone, and an acknowledgement
    never shrinks it and grows it by at most the bytes acknowledged. *)
Theorem congestion_step_ok c e : cong_inv c ->
  match e with
  | Sent b => can_send c b = true -> 0 <= b < 2 ^ 62 ->
      bytes_in_flight (step c e) <= cwnd (step c e) /\ cong_inv (step c e)
  | Acked now b => 0 <= b <= 65536 -> cwnd c + b < 2 ^ 53 ->
      cong_inv (step c e) /\ cwnd c <= cwnd (step c e) <= cwnd c + b
  | Lost now b t => 0 <= b ->
      cong_inv (step c e) /\
      (if match recovery_start_time c with Some t0 => t <=? t0 | None => false end
       then cwnd (step c e) = cwnd c
       else cwnd (step c e) = Z.max (cwnd c / 2) (2 * max_datagram_size c))
  end.
Proof.
  intros Hi. pose proof Hi as [Hm Hw Hf]. destruct e as [b|now b|now b t]; simpl.
  - unfold can_send. intros Hs%Z.leb_le Hb. rewrite u64_small in * by (unfold u64_ok; lia).
    split; [done|]. split; simpl; [done|done|]. rewrite u64_small by (unfold u64_ok; lia). lia.
  - intros Hb Hlt. split; [by apply acked_inv|by apply acked_cwnd].
  - intros Hb. destruct (lost_cwnd c now b t Hi Hb) as (Hi' & _ & _). split; [done|].
    unfold on_packets_lost. cbv zeta. change (recovery_start_time (release c b)) with (recovery_start_time c).
    assert (He : cwnd (enter_recovery (release c b) now) = Z.max (cwnd c / 2) (2 * max_datagram_size c)).
    { by apply (enter_recovery_cwnd (release c b) now), release_inv. }
    destruct (recovery_start_time c) as [t0|]; [case_match|]; done.
Qed.

Lemma new_inv : cong_inv (new kMaxDatagramSize).
Proof. split; vm_compute; split; congruence. Qed.

Lemma congestion_step_ok_witness : cwnd (step (new 1200) (Lost 5 1200 3)) = 6000.
Proof. apply (congestion_step_ok (new 1200) (Lost 5 1200 3)); [apply new_inv|lia]. Defined.

(** Once a loss has been recorded the window never grows again.  The
    recovery test compares the current time with the start of recovery and
    nothing ends the epoch, so from then on every acknowledgement finds the
    connection "in recovery": along any later trace of events the window only
    stays or shrinks. *)
Theorem no_growth_after_loss c t0 es :
  cong_inv c -> recovery_start_time c = Some t0 -> clocked t0 es ->
  (forall pre, pre `prefix_of` es -> 0 <= bytes_in_flight (run c pre) < 2 ^ 62) ->
  cwnd (run c es) <= cwnd c.
Proof.
  revert c t0. induction es as [|e es IH]; intros c t0 Hi Ht Hc Hf; [simpl; lia|].
  assert (Hf' : forall pre, pre `prefix_of` es -> 0 <= bytes_in_flight (run (step c e) pre) < 2 ^ 62).
  { intros pre Hp. apply (Hf (e :: pre)). by apply prefix_cons. }
  pose proof (Hf' [] (prefix_nil _)) as Hf1. cbn [run foldl] in *.
  destruct e as [b|now b|now b t]; simpl in Hc |- *.
  - destruct Hc as [Hb Hc]. apply (IH (on_packet_sent c b) t0); [|done..].
    destruct Hi as [? ? ?]. by split.
  - destruct Hc as (Hn & Hb & Hc).
    assert (on_packets_acked c now b = release c b) as E.
    { unfold on_packets_acked. cbv zeta. destruct (release_fields c b) as (_ & _ & _ & _ & ->).
      unfold in_recovery. rewrite Ht, (proj2 (Z.ltb_lt _ _)) by done. done. }
    simpl in *. rewrite E in *. apply (IH (release c b) t0); [apply release_inv; [done|lia]|done| |done].
    by apply (clocked_mono t0 now); [lia|].
  - destruct Hc as (Hn & Hb & Hc). destruct (lost_cwnd c now b t Hi ltac:(lia)) as (Hi' & Hle & Hcase).
    etrans; [|exact Hle]. destruct Hcase as [[Hr _]|[Hr _]].
    + apply (IH _ t0); [done|by rewrite Hr| |done]. by apply (clocked_mono t0 now); [lia|].
    + by apply (IH _ now).
Qed.

Lemma no_growth_after_loss_witness :
  cwnd (run (step (new 1200) (Lost 5 1200 3)) [Sent 1200; Acked 6 1200; Acked 7 1200]) <= 6000.
Proof.
  apply (no_growth_after_loss (step (new 1200) (Lost 5 1200 3)) 5 [Sent 1200; Acked 6 1200; Acked 7 1200]).
  - split; vm_compute; split; congruence.
  - reflexivity.
  - simpl; lia.
  - intros pre Hp. assert (pre ∈ [[]; [Sent 1200]; [Sent 1200; Acked 6 1200]; [Sent 1200; Acked 6 1200; Acked 7 1200]]) as Hin.
    { destruct Hp as [k Hk]. destruct pre as [|? [|? [|? [|? pre]]]]; simplify_eq/=; set_solver. }
    rewrite !elem_of_cons, elem_of_nil in Hin. destruct_or! Hin; subst; vm_compute; split; congruence.
Defined.
End Congestion.
