(* ===== verification/QuicStream.v ===== *)
(** * QUIC streams

    Model of [Stream] (example/quic-http3/src/quic/stream.cpp, .hpp).  The
    class has a receive half (reassembly of offset-tagged chunks, receive flow
    control, final size) and a send half (a byte queue with retransmission and
    release on acknowledgement) that share only the stream id; each half is a
    record here.  [recv_chunks_], a [std::map] keyed by offset, is the list of
    its entries in key order. *)
From stdpp Require Import sorting.
From S2P Require Import Prelude.

Local Open Scope Z_scope.

(** ** Stream identifiers *)

Inductive StreamType := ClientBidi | ServerBidi | ClientUni | ServerUni.

Definition stream_type (stream_id : Z) : StreamType :=
  match stream_id .& 3 with 0 => ClientBidi | 1 => ServerBidi | 2 => ClientUni | _ => ServerUni end.
Definition is_bidi (stream_id : Z) : bool := stream_id .& 2 =? 0.
Definition is_client_initiated (stream_id : Z) : bool := stream_id .& 1 =? 0.

(** ** Receive half *)

Inductive RecvState := Recv | SizeKnown | DataRecvd | DataRead | ResetRecvd | ResetRead.

Global Instance RecvState_eq_dec : EqDecision RecvState.
Proof. solve_decision. Defined.

Abbreviation chunk := (Z * bytes)%type (only parsing).

Record RecvSide := mkRecv {
  recv_chunks : list (Z * bytes);
  recv_read_offset : Z;
  recv_high_water : Z;
  recv_limit : Z;
  recv_final_size : option Z;
  reset_error : option Z;
  recv_state : RecvState }.

Definition new_recv (initial_max_recv : Z) : RecvSide := mkRecv [] 0 0 initial_max_recv None None Recv.

Definition set_chunks (s : RecvSide) (c : list (Z * bytes)) : RecvSide :=
  mkRecv c (recv_read_offset s) (recv_high_water s) (recv_limit s) (recv_final_size s) (reset_error s) (recv_state s).
Definition set_recv_state (s : RecvSide) (st : RecvState) : RecvSide :=
  mkRecv (recv_chunks s) (recv_read_offset s) (recv_high_water s) (recv_limit s) (recv_final_size s) (reset_error s) st.

(** One past the last byte of a chunk. *)
Definition chunk_end (o : Z) (d : bytes) : Z := o + #d.

(** The forward merge (the same loop for a grown and for a new chunk): while
    the next entry starts at or before the end of the chunk [(o, d)], its tail
    beyond that end is appended and the entry erased. *)
Fixpoint merge_forward (o : Z) (d : bytes) (after : list (Z * bytes)) : list (Z * bytes) :=
  match after with
  | [] => [(o, d)]
  | (k, e) :: after' =>
      if k <=? chunk_end o d then
        let cur_end := chunk_end k e in
        let d' := if chunk_end o d <? cur_end
                  then d ++ drop (length e - Z.to_nat (cur_end - chunk_end o d)) e else d in
        merge_forward o d' after'
      else (o, d) :: after
  end.

(** [lower_bound(off)]: the entries before and from the first key [>= off]. *)
Fixpoint lower_bound (off : Z) (c : list (Z * bytes)) : list (Z * bytes) * list (Z * bytes) :=
  match c with
  | [] => ([], [])
  | (k, d) :: c' => if k <? off then let '(b, a) := lower_bound off c' in ((k, d) :: b, a) else ([], c)
  end.

(** [std::prev(it)] with what precedes it, unless [it == begin()]. *)
Definition split_last (before : list (Z * bytes)) : option (list (Z * bytes) * (Z * bytes)) :=
  match rev before with [] => None | x :: r => Some (rev r, x) end.

(** [recv_chunks_.emplace(put_off, put_data)]: an existing entry with that key
    is left as it is; either way the forward merge starts from the entry. *)
Definition emplace_chunk (before after : list (Z * bytes)) (put_off : Z) (put_data : bytes) : list (Z * bytes) :=
  match after with
  | (k, d) :: after' =>
      if k =? put_off then before ++ merge_forward k d after'
      else before ++ merge_forward put_off put_data after
  | [] => before ++ merge_forward put_off put_data []
  end.

(** The [if (!put_data.empty())] block of [deliver]. *)
Definition insert_chunk (c : list (Z * bytes)) (put_off : Z) (put_data : bytes) : list (Z * bytes) :=
  let '(before, after) := lower_bound put_off c in
  match split_last before with
  | Some (init, (po, pd)) =>
      let prev_end := chunk_end po pd in
      if put_off <=? prev_end then
        if put_off + #put_data <=? prev_end then c
        else init ++ merge_forward po (pd ++ drop (Z.to_nat (prev_end - put_off)) put_data) after
      else emplace_chunk before after put_off put_data
  | None => emplace_chunk before after put_off put_data
  end.

(** Trim against the consumed prefix: what is left of the data, and where. *)
Definition trim_consumed (read_off offset : Z) (data : bytes) : Z * bytes :=
  if offset <? read_off then (read_off, drop (Z.to_nat (read_off - offset)) data) else (offset, data).

(** The state transitions at the end of [deliver]. *)
Definition settle (s : RecvSide) : RecvSide :=
  match recv_final_size s with
  | None => s
  | Some fs =>
      let s := if decide (recv_state s = Recv) then set_recv_state s SizeKnown else s in
      match recv_chunks s with
      | (k, d) :: rest =>
          if (k =? recv_read_offset s) && (chunk_end k d =? fs) && (length rest =? 0)%nat
          then set_recv_state s DataRecvd else s
      | [] => if recv_read_offset s =? fs then set_recv_state s DataRead else s
      end
  end.

(** [None] is [return false]: a flow-control or final-size violation. *)
Definition deliver (s : RecvSide) (offset : Z) (data : bytes) (fin : bool) : option RecvSide :=
  if decide (recv_state s = ResetRecvd \/ recv_state s = ResetRead) then Some s else
  let e := u64 (offset + #data) in
  if recv_limit s <? e then None else
  if match recv_final_size s with
     | Some fs => (fs <? e) || (fin && negb (e =? fs))
     | None => false
     end then None else
  let final := if fin then Some e else recv_final_size s in
  let high := if recv_high_water s <? e then e else recv_high_water s in
  let '(put_off, put_data) := trim_consumed (recv_read_offset s) offset data in
  let c := match put_data with [] => recv_chunks s | _ => insert_chunk (recv_chunks s) put_off put_data end in
  Some (settle (mkRecv c (recv_read_offset s) high (recv_limit s) final (reset_error s) (recv_state s))).

(** The bytes appended to [out], [fin_out], and the new state. *)
Definition read_contiguous (s : RecvSide) : bytes * bool * RecvSide :=
  let at_end (off : Z) := match recv_final_size s with Some fs => off =? fs | None => false end in
  match recv_chunks s with
  | [] => if at_end (recv_read_offset s) then ([], true, set_recv_state s DataRead) else ([], false, s)
  | (k, d) :: rest =>
      if k =? recv_read_offset s then
        let off := recv_read_offset s + #d in
        let s' := mkRecv rest off (recv_high_water s) (recv_limit s) (recv_final_size s) (reset_error s) (recv_state s) in
        if at_end off then (d, true, set_recv_state s' DataRead) else (d, false, s')
      else ([], false, s)
  end.

Definition set_recv_limit (s : RecvSide) (new_limit : Z) : RecvSide * bool :=
  if new_limit <=? recv_limit s then (s, false)
  else (mkRecv (recv_chunks s) (recv_read_offset s) (recv_high_water s) new_limit (recv_final_size s)
          (reset_error s) (recv_state s), true).

Definition reset_recvd (s : RecvSide) (final_size app_error : Z) : option RecvSide :=
  if match recv_final_size s with Some fs => negb (fs =? final_size) | None => false end then None else
  if recv_limit s <? final_size then None else
  Some (mkRecv [] (recv_read_offset s) (Z.max (recv_high_water s) final_size) (recv_limit s)
          (Some final_size) (Some app_error) ResetRecvd).

(** ** Send half *)

Inductive SendState := Ready | Send | DataSent | SDataRecvd | ResetSent | SResetRecvd.

Global Instance SendState_eq_dec : EqDecision SendState.
Proof. solve_decision. Defined.

Record SendSide := mkSend {
  send_buf : bytes;
  send_buf_head : nat;
  send_buf_base_offset : Z;
  send_next_offset : Z;
  send_high_water : Z;
  send_limit : Z;
  send_fin_queued : bool;
  send_fin_sent : bool;
  send_fin_acked : bool;
  acked_ranges : list (Z * Z);
  lost_ranges : list (Z * Z);
  send_state : SendState }.

Definition new_send (initial_max_send : Z) : SendSide :=
  mkSend [] 0 0 0 0 initial_max_send false false false [] [] Ready.

Definition write (s : SendSide) (data : bytes) (fin : bool) : SendSide :=
  if decide (send_state s = ResetSent \/ send_state s = SResetRecvd \/
             send_state s = DataSent \/ send_state s = SDataRecvd) then s else
  mkSend (send_buf s ++ data) (send_buf_head s) (send_buf_base_offset s) (send_next_offset s)
    (send_high_water s + #data) (send_limit s) (if fin then true else send_fin_queued s)
    (send_fin_sent s) (send_fin_acked s) (acked_ranges s) (lost_ranges s)
    (if decide (send_state s = Ready) then Send else send_state s).

(** What [pull_send] hands out; [p_offset] is [None] when [offset_out] is
    left untouched. *)
Record Pulled := mkPulled { p_offset : option Z; p_data : bytes; p_fin : bool }.

Definition nothing : Pulled := mkPulled None [] false.

(** [data_out.assign(send_buf_.begin() + buf_off, send_buf_.begin() + buf_off + take)]
    for absolute offset [o]; [None] when the iterators leave the buffer. *)
Definition slice (s : SendSide) (o take' : Z) : option bytes :=
  let buf_off := Z.of_nat (send_buf_head s) + (o - send_buf_base_offset s) in
  if (buf_off <? 0) || (#(send_buf s) <? buf_off + take') then None
  else Some (take (Z.to_nat take') (drop (Z.to_nat buf_off) (send_buf s))).

Definition set_fin_sent (s : SendSide) (b : bool) : SendSide :=
  mkSend (send_buf s) (send_buf_head s) (send_buf_base_offset s) (send_next_offset s) (send_high_water s)
    (send_limit s) (send_fin_queued s) b (send_fin_acked s) (acked_ranges s) (lost_ranges s) (send_state s).
Definition set_lost (s : SendSide) (l : list (Z * Z)) : SendSide :=
  mkSend (send_buf s) (send_buf_head s) (send_buf_base_offset s) (send_next_offset s) (send_high_water s)
    (send_limit s) (send_fin_queued s) (send_fin_sent s) (send_fin_acked s) (acked_ranges s) l (send_state s).
Definition set_next (s : SendSide) (n : Z) : SendSide :=
  mkSend (send_buf s) (send_buf_head s) (send_buf_base_offset s) n (send_high_water s)
    (send_limit s) (send_fin_queued s) (send_fin_sent s) (send_fin_acked s) (acked_ranges s) (lost_ranges s) (send_state s).
Definition set_send_state (s : SendSide) (st : SendState) : SendSide :=
  mkSend (send_buf s) (send_buf_head s) (send_buf_base_offset s) (send_next_offset s) (send_high_water s)
    (send_limit s) (send_fin_queued s) (send_fin_sent s) (send_fin_acked s) (acked_ranges s) (lost_ranges s) st.

(** [fin_out = send_fin_sent_ = true; if (Send) DataSent] *)
Definition emit_fin (s : SendSide) : SendSide :=
  let s := set_fin_sent s true in
  if decide (send_state s = Send) then set_send_state s DataSent else s.

(** A FIN-only chunk, when everything is on the wire and the FIN is not. *)
Definition fin_only (s : SendSide) : Pulled * SendSide :=
  if send_fin_queued s && negb (send_fin_sent s) && (send_next_offset s =? send_high_water s)
  then (mkPulled (Some (send_next_offset s)) [] true, emit_fin s)
  else (nothing, s).

Definition pull_retransmit (s : SendSide) (max_bytes : Z) (r : Z * Z) (rest : list (Z * Z))
  : option (Pulled * SendSide) :=
  let take' := Z.min max_bytes r.2 in
  data ← slice s r.1 take';
  let fin := send_fin_queued s && (r.1 + take' =? send_high_water s) in
  let s := if fin then set_fin_sent s true else s in
  Some (mkPulled (Some r.1) data fin,
        set_lost s (if take' =? r.2 then rest else (r.1 + take', r.2 - take') :: rest)).

Definition pull_fresh (s : SendSide) (max_bytes max_fresh : Z) : option (Pulled * SendSide) :=
  if send_limit s <=? send_next_offset s then Some (fin_only s) else
  let window := send_limit s - send_next_offset s in
  let avail := send_high_water s - send_next_offset s in
  let take' := Z.min (Z.min max_bytes window) (Z.min avail max_fresh) in
  if take' =? 0 then Some (fin_only s) else
  data ← slice s (send_next_offset s) take';
  let o := send_next_offset s in
  let s := set_next s (o + take') in
  if send_fin_queued s && (send_next_offset s =? send_high_water s) && negb (send_fin_sent s)
  then Some (mkPulled (Some o) data true, emit_fin s)
  else Some (mkPulled (Some o) data false, s).

(** [None] would be an access outside [send_buf_]. *)
Definition pull_send (s : SendSide) (max_bytes max_fresh : Z) : option (Pulled * SendSide) :=
  if max_bytes =? 0 then Some (nothing, s) else
  match lost_ranges s with
  | r :: rest => pull_retransmit s max_bytes r rest
  | [] => pull_fresh s max_bytes max_fresh
  end.

(** [std::sort] on (offset, length) pairs. *)
Definition range_le (a b : Z * Z) : bool := (a.1 <? b.1) || ((a.1 =? b.1) && (a.2 <=? b.2)).
Fixpoint insert_sorted (x : Z * Z) (l : list (Z * Z)) : list (Z * Z) :=
  match l with
  | [] => [x]
  | y :: l' => if range_le x y then x :: l else y :: insert_sorted x l'
  end.
Definition sort_ranges (l : list (Z * Z)) : list (Z * Z) := foldr insert_sorted [] l.

(** The [while] that releases acknowledged bytes at the base offset. *)
Fixpoint drain (head : nat) (base : Z) (acked : list (Z * Z)) : nat * Z * list (Z * Z) :=
  match acked with
  | (o, n) :: rest => if o =? base then drain (head + Z.to_nat n) (base + n) rest else (head, base, acked)
  | [] => (head, base, acked)
  end.

Definition kCompactThreshold : nat := 8 * 1024.

Definition try_advance_send_state_after_ack (s : SendSide) : SendSide :=
  let buf_empty := (length (send_buf s) =? send_buf_head s)%nat in
  if decide (send_state s = DataSent) then
    if buf_empty && send_fin_acked s then set_send_state s SDataRecvd else s
  else s.

Definition on_acked (s : SendSide) (offset len : Z) : SendSide :=
  if len =? 0 then
    if send_fin_sent s then
      try_advance_send_state_after_ack
        (mkSend (send_buf s) (send_buf_head s) (send_buf_base_offset s) (send_next_offset s)
          (send_high_water s) (send_limit s) (send_fin_queued s) (send_fin_sent s) true
          (acked_ranges s) (lost_ranges s) (send_state s))
    else s
  else
    let '(head, base, acked) :=
      drain (send_buf_head s) (send_buf_base_offset s) (sort_ranges (acked_ranges s ++ [(offset, len)])) in
    let compact := (kCompactThreshold <? head)%nat || (length (send_buf s) <? head * 2)%nat in
    let buf := if compact then drop head (send_buf s) else send_buf s in
    let head := if compact then 0%nat else head in
    let fin_acked := if send_fin_sent s && (send_high_water s <=? offset + len) then true else send_fin_acked s in
    try_advance_send_state_after_ack
      (mkSend buf head base (send_next_offset s) (send_high_water s) (send_limit s) (send_fin_queued s)
        (send_fin_sent s) fin_acked acked (lost_ranges s) (send_state s)).

Definition on_lost (s : SendSide) (offset len : Z) : SendSide :=
  let s := if 0 <? len then set_lost s (lost_ranges s ++ [(offset, len)]) else s in
  if send_fin_sent s && (send_high_water s <=? offset + len) then set_fin_sent s false else s.

Definition set_send_limit (s : SendSide) (new_limit : Z) : SendSide :=
  if send_limit s <? new_limit then
    mkSend (send_buf s) (send_buf_head s) (send_buf_base_offset s) (send_next_offset s) (send_high_water s)
      new_limit (send_fin_queued s) (send_fin_sent s) (send_fin_acked s) (acked_ranges s) (lost_ranges s) (send_state s)
  else s.

(** ** The stream *)

Record Stream := mkStream { id : Z; recv : RecvSide; send : SendSide }.

Definition new_stream (stream_id initial_max_recv initial_max_send : Z) : Stream :=
  mkStream stream_id (new_recv initial_max_recv) (new_send initial_max_send).

(** ** Reassembly: specification

    The peer's stream is a function [src] from offsets to bytes; a chunk is
    genuine when it is a slice of it.  The chunk map stands for the set of
    offsets it holds. *)
Section reassembly.
Context (src : Z -> Z).

Definition genuine (o : Z) (d : bytes) : Prop := forall i b, d !! i = Some b -> b = src (o + Z.of_nat i).

(** Ascending from [l] on, non-empty, genuine, a hole between neighbours. *)
Fixpoint chunks_ok (l : Z) (c : list (Z * bytes)) : Prop :=
  match c with
  | [] => True
  | (k, d) :: c' => l <= k /\ d <> [] /\ genuine k d /\ chunks_ok (chunk_end k d + 1) c'
  end.

Definition holds (c : list (Z * bytes)) (p : Z) : Prop := exists k d, (k, d) ∈ c /\ k <= p < chunk_end k d.

(** A shorter chunk already sits at the very offset of the new data. *)
Definition shadowed (c : list (Z * bytes)) (o : Z) (d : bytes) : Prop :=
  exists e, (o, e) ∈ c /\ (length e < length d)%nat.

Record recv_inv (s : RecvSide) : Prop := {
  ri_chunks : chunks_ok (recv_read_offset s) (recv_chunks s);
  ri_read : 0 <= recv_read_offset s <= recv_high_water s;
  ri_held : forall p, holds (recv_chunks s) p -> p < recv_high_water s;
  ri_limit : recv_high_water s <= recv_limit s < 2 ^ 63 }.

Lemma genuine_app o d e : genuine o (d ++ e) <-> genuine o d /\ genuine (o + #d) e.
Proof.
  unfold genuine. split.
  - intros H. split; intros i b Hi.
    + apply H. rewrite lookup_app_l; [done|by eapply lookup_lt_Some].
    + replace (o + #d + Z.of_nat i) with (o + Z.of_nat (length d + i)) by lia. apply H.
      rewrite lookup_app_r by lia. by replace (length d + i - length d)%nat with i by lia.
  - intros [H1 H2] i b Hi. apply lookup_app_Some in Hi as [Hi|[Hl Hi]]; [by apply H1|].
    apply H2 in Hi. rewrite Hi. f_equal. lia.
Qed.

Lemma genuine_intro o d : d = (fun i => src (o + Z.of_nat i)) <$> seq 0 (length d) -> genuine o d.
Proof.
  intros Hd i b Hi. rewrite Hd, list_lookup_fmap in Hi.
  destruct (seq 0 (length d) !! i) as [j|] eqn:Hj; [|done].
  apply lookup_seq in Hj as [-> _]. by injection Hi as <-.
Qed.

Lemma genuine_drop o d n : genuine o d -> (n <= length d)%nat -> genuine (o + Z.of_nat n) (drop n d).
Proof.
  intros H Hn. rewrite <- (take_drop n d) in H. apply genuine_app in H as [_ H].
  by rewrite length_take, Nat.min_l in H by done.
Qed.

Lemma holds_nil p : holds [] p <-> False.
Proof using. split; [|done]. intros (? & ? & Hin & _). by apply elem_of_nil in Hin. Qed.
Lemma holds_cons k d c p : holds ((k, d) :: c) p <-> k <= p < chunk_end k d \/ holds c p.
Proof.
  unfold holds. split.
  - intros (k' & d' & [[= -> ->]|Hin]%elem_of_cons & Hp); [by left|right; eauto].
  - intros [Hp|(k' & d' & Hin & Hp)]; [exists k, d; split; [left|done]|exists k', d'; split; [by right|done]].
Qed.
Lemma holds_app c c' p : holds (c ++ c') p <-> holds c p \/ holds c' p.
Proof.
  induction c as [|[k d] c IH]; simpl; [rewrite holds_nil; tauto|]. rewrite !holds_cons, IH. tauto.
Qed.

Lemma chunks_ok_weaken l l' c : l' <= l -> chunks_ok l c -> chunks_ok l' c.
Proof. destruct c as [|[k d] c]; simpl; [done|]. intros ? (? & ?). split; [lia|done]. Qed.

(** Where the next chunk may start, behind the chunks [c]. *)
Fixpoint next_from (l : Z) (c : list (Z * bytes)) : Z :=
  match c with [] => l | (k, d) :: c' => next_from (chunk_end k d + 1) c' end.

Lemma chunks_ok_app l c c' : chunks_ok l (c ++ c') <-> chunks_ok l c /\ chunks_ok (next_from l c) c'.
Proof. revert l. induction c as [|[k d] c IH]; intros l; simpl; [tauto|]. rewrite IH. tauto. Qed.

Lemma next_from_snoc l c k d : next_from l (c ++ [(k, d)]) = chunk_end k d + 1.
Proof. revert l. induction c as [|[k0 d0] c IH]; intros l; simpl; [done|]. apply IH. Qed.

Lemma chunks_ok_holds_ge l c p : chunks_ok l c -> holds c p -> l <= p.
Proof.
  revert l. induction c as [|[k d] c IH]; intros l; simpl; [by rewrite holds_nil|].
  intros (? & ? & ? & Hc). rewrite holds_cons. intros [?|Hp]; [lia|].
  specialize (IH _ Hc Hp). unfold chunk_end in *. lia.
Qed.

Lemma chunk_end_gt k (d : bytes) : d <> [] -> k < chunk_end k d.
Proof. unfold chunk_end. destruct d; [done|]. simpl. lia. Qed.

(** The forward merge keeps genuineness and the hole between chunks, and the
    set of offsets held. *)
Lemma merge_forward_spec o after : forall d l,
  d <> [] -> genuine o d -> chunks_ok l after -> o <= l ->
  chunks_ok o (merge_forward o d after) /\
  forall p, holds (merge_forward o d after) p <-> o <= p < chunk_end o d \/ holds after p.
Proof.
  induction after as [|[k e] after IH]; intros d l Hd Hg Hc Hl; simpl.
  { split; [done|]. intros p. by rewrite holds_cons. }
  destruct Hc as (Hk & He & Hge & Hc). pose proof (chunk_end_gt k e He).
  destruct (Z.leb_spec k (chunk_end o d)) as [Hle|Hgt].
  2: { split; [simpl; split_and!; [lia|done|done|lia|done..]|]. intros p. by rewrite !holds_cons. }
  set (d' := if chunk_end o d <? chunk_end k e then _ else d).
  assert (Hd' : d' <> [] /\ genuine o d' /\ chunk_end o d' = Z.max (chunk_end o d) (chunk_end k e)).
  { unfold d'. destruct (Z.ltb_spec (chunk_end o d) (chunk_end k e)) as [Hlt|Hge'].
    - split; [by destruct d|]. unfold chunk_end in *. split; [|rewrite length_app, length_drop; lia].
      apply genuine_app. split; [done|].
      set (n := (length e - Z.to_nat (k + #e - (o + #d)))%nat).
      replace (o + #d) with (k + Z.of_nat n) by lia. apply genuine_drop; [done|lia].
    - split_and!; [done|done|lia]. }
  destruct Hd' as (Hd1 & Hd2 & Hd3). destruct (IH d' (chunk_end k e + 1) Hd1 Hd2 Hc ltac:(lia)) as [IH1 IH2].
  split; [done|]. intros p. rewrite IH2, Hd3, holds_cons. split; [|naive_solver lia].
  intros [Hp|Hp]; [|by right; right]. destruct (decide (p < chunk_end o d)); [left|right; left]; lia.
Qed.

Lemma merge_forward_fixed o d after l : chunks_ok l after -> chunk_end o d < l ->
  merge_forward o d after = (o, d) :: after.
Proof.
  destruct after as [|[k e] after]; simpl; [done|]. intros (Hk & _) Hl.
  by rewrite (proj2 (Z.leb_gt _ _)) by lia.
Qed.

Lemma lower_bound_spec off c : forall l, chunks_ok l c ->
  let '(b, a) := lower_bound off c in
  c = b ++ a /\ Forall (fun x => x.1 < off) b /\ forall k d a', a = (k, d) :: a' -> off <= k.
Proof.
  induction c as [|[k d] c IH]; intros l Hc; simpl; [done|].
  destruct (Z.ltb_spec k off).
  - destruct Hc as (_ & _ & _ & Hc). specialize (IH _ Hc). destruct (lower_bound off c) as [b a].
    destruct IH as (-> & Hb & Ha). split_and!; [done|by constructor|done].
  - split_and!; [done|constructor|]. intros ? ? ? [= -> -> ->]. done.
Qed.

Lemma split_last_spec b :
  match split_last b with None => b = [] | Some (init, x) => b = init ++ [x] end.
Proof.
  unfold split_last. destruct (rev b) as [|x r] eqn:E; apply (f_equal (@rev _)) in E;
    rewrite rev_involutive in E; done.
Qed.

Lemma chunks_ok_key l c k d : chunks_ok l c -> (k, d) ∈ c -> l <= k.
Proof.
  revert l. induction c as [|[k0 e] c IH]; intros l; simpl; [by intros _ ?%elem_of_nil|].
  intros (Hk & He & _ & Hc) [[= -> ->]|Hin]%elem_of_cons; [done|].
  apply chunk_end_gt with (k := k0) in He. specialize (IH _ Hc Hin). lia.
Qed.

(** A key equal to [o] can only be the first one at or above [o]. *)
Lemma key_at_bound l b a o e :
  chunks_ok l a -> Forall (fun x => x.1 < o) b -> (o, e) ∈ b ++ a ->
  (forall k e a', a = (k, e) :: a' -> o <= k) -> exists a', a = (o, e) :: a'.
Proof.
  intros Ha Hlt [Hin|Hin]%elem_of_app Hge.
  { rewrite Forall_forall in Hlt. specialize (Hlt _ Hin). simpl in Hlt. lia. }
  destruct a as [|[k e0] a]; [by apply elem_of_nil in Hin|]. specialize (Hge k e0 a eq_refl).
  apply elem_of_cons in Hin as [[= <- <-]|Hin]; [by eexists|].
  destruct Ha as (_ & He0 & _ & Ha). apply chunk_end_gt with (k := k) in He0.
  pose proof (chunks_ok_key _ _ _ _ Ha Hin). lia.
Qed.

(** What inserting [d] at [o] into [c] must achieve. *)
Definition inserted (l : Z) (c : list (Z * bytes)) (o : Z) (d : bytes) (c' : list (Z * bytes)) : Prop :=
  chunks_ok l c' /\ (forall p, holds c p -> holds c' p) /\
  (forall p, holds c' p -> holds c p \/ o <= p < chunk_end o d) /\
  (shadowed c o d -> c' = c) /\
  (~ shadowed c o d -> forall p, o <= p < chunk_end o d -> holds c' p).

(** The [emplace] branch. *)
Lemma emplace_chunk_spec l b a o d :
  chunks_ok l b -> chunks_ok (next_from l b) a -> Forall (fun x => x.1 < o) b ->
  (forall k e a', a = (k, e) :: a' -> o <= k) -> next_from l b <= o -> d <> [] -> genuine o d ->
  inserted l (b ++ a) o d (emplace_chunk b a o d).
Proof.
  intros Hb Ha Hlt Hge Hn Hd Hg.
  assert (Hkey : forall e, (o, e) ∈ b ++ a -> exists a', a = (o, e) :: a').
  { intros e Hin. by eapply key_at_bound. }
  assert (Hnew : forall l', chunks_ok l' a -> o <= l' -> (~ exists e, (o, e) ∈ b ++ a) ->
    inserted l (b ++ a) o d (b ++ merge_forward o d a)).
  { intros l' Ha' Hl' Hno. destruct (merge_forward_spec o a d l' Hd Hg Ha' Hl') as [Hok Hh].
    split_and!.
    - apply chunks_ok_app. split; [done|]. by eapply chunks_ok_weaken.
    - intros p. rewrite !holds_app, Hh. tauto.
    - intros p. rewrite !holds_app, Hh. tauto.
    - intros (e & Hin & _). destruct Hno. by exists e.
    - intros _ p Hp. rewrite holds_app, Hh. tauto. }
  unfold emplace_chunk. destruct a as [|[k e] a].
  { apply (Hnew o); [done|lia|]. intros (e & Hin). by destruct (Hkey e Hin). }
  destruct (Z.eqb_spec k o) as [->|Hne].
  - destruct Ha as (H1 & H2 & H3 & Ha). rewrite (merge_forward_fixed _ _ _ _ Ha) by lia.
    split_and!; [by apply chunks_ok_app|done|by left|done|].
    intros Hns p Hp. rewrite holds_app, holds_cons. right. left.
    destruct (decide (length e < length d)%nat) as [Hlt'|]; [|unfold chunk_end in *; lia].
    destruct Hns. exists e. split; [set_solver|done].
  - specialize (Hge k e a eq_refl). apply (Hnew k); [|lia|].
    + destruct Ha as (_ & ?). simpl. split; [lia|done].
    + intros (e' & Hin). destruct (Hkey _ Hin) as [? [= ? _]]. done.
Qed.

(** The branch that grows the chunk before the new data. *)
Lemma grow_chunk_spec l b a o d po pd :
  chunks_ok l (b ++ [(po, pd)]) -> chunks_ok (chunk_end po pd + 1) a ->
  Forall (fun x => x.1 < o) (b ++ [(po, pd)]) -> o <= chunk_end po pd < chunk_end o d -> genuine o d ->
  inserted l ((b ++ [(po, pd)]) ++ a) o d
    (b ++ merge_forward po (pd ++ drop (Z.to_nat (chunk_end po pd - o)) d) a).
Proof.
  intros Hb Ha Hlt Hle Hg. apply chunks_ok_app in Hb as [Hb (Hpo & Hpd & Hpg & _)].
  pose proof (proj1 (Forall_forall _ _) Hlt) as Hlt2.
  assert (Hlt' : po < o) by (apply (Hlt2 (po, pd)); set_solver).
  pose proof (chunk_end_gt po pd Hpd). set (n := Z.to_nat (chunk_end po pd - o)).
  assert (Hend : chunk_end po (pd ++ drop n d) = chunk_end o d).
  { unfold chunk_end in *. rewrite length_app, length_drop. lia. }
  destruct (merge_forward_spec po a (pd ++ drop n d) (chunk_end po pd + 1)) as [Hok Hh]; [by destruct pd| |done|lia|].
  { apply genuine_app. split; [done|]. unfold chunk_end in *.
    replace (po + #pd) with (o + Z.of_nat n) by lia. apply genuine_drop; [done|lia]. }
  rewrite Hend in Hh. split_and!.
  - apply chunks_ok_app. split; [done|]. by eapply chunks_ok_weaken.
  - intros p. rewrite !holds_app, holds_cons, Hh, holds_nil. naive_solver lia.
  - intros p. rewrite !holds_app, holds_cons, Hh, holds_nil.
    destruct (decide (p < chunk_end po pd)); naive_solver lia.
  - intros (e & Hin & _). apply elem_of_app in Hin as [Hin|Hin].
    + specialize (Hlt2 _ Hin). simpl in Hlt2. lia.
    + pose proof (chunks_ok_key _ _ _ _ Ha Hin). lia.
  - intros _ p Hp. rewrite holds_app, Hh. right. left. lia.
Qed.

(** [insert_chunk] adds the new offsets, except that data behind a shorter
    chunk at the same key is dropped. *)
Lemma insert_chunk_spec l c o d :
  chunks_ok l c -> l <= o -> d <> [] -> genuine o d -> inserted l c o d (insert_chunk c o d).
Proof.
  intros Hc Hl Hd Hg. unfold insert_chunk. pose proof (lower_bound_spec o c l Hc) as Hlb.
  destruct (lower_bound o c) as [b a]. destruct Hlb as (-> & Hb & Ha).
  apply chunks_ok_app in Hc as [Hcb Hca].
  pose proof (split_last_spec b) as Hsl. destruct (split_last b) as [[init [po pd]]|].
  2: { subst b. by apply emplace_chunk_spec. }
  subst b. destruct (Z.leb_spec o (chunk_end po pd)) as [Hle|Hgt].
  2: { apply emplace_chunk_spec; [done..|rewrite next_from_snoc; lia|done|done]. }
  rewrite next_from_snoc in Hca. fold (chunk_end o d).
  destruct (Z.leb_spec (chunk_end o d) (chunk_end po pd)) as [Hcov|Hext].
  2: { apply grow_chunk_spec; done || lia. }
  pose proof (proj1 (Forall_forall _ _) Hb (po, pd) ltac:(set_solver)) as Hpo. simpl in Hpo.
  split_and!; [|done|by left|done|].
  - apply chunks_ok_app. by rewrite next_from_snoc.
  - intros _ p Hp. rewrite !holds_app, holds_cons. left. right. left. lia.
Qed.

Lemma trim_consumed_spec r o d :
  let '(o', d') := trim_consumed r o d in
  genuine o d -> r <= o' /\ (d' <> [] -> genuine o' d' /\ chunk_end o' d' = chunk_end o d) /\
  (forall p, r <= p -> o' <= p < chunk_end o' d' <-> o <= p < chunk_end o d).
Proof.
  unfold trim_consumed. destruct (Z.ltb_spec o r) as [Hlt|Hge]; intros Hg; [|naive_solver].
  split; [lia|]. unfold chunk_end. rewrite length_drop. split; [|intros; lia]. intros Hne.
  assert (Z.to_nat (r - o) < length d)%nat.
  { destruct (decide (Z.to_nat (r - o) < length d)%nat); [done|]. by rewrite drop_ge in Hne by lia. }
  split; [|lia]. replace r with (o + Z.of_nat (Z.to_nat (r - o))) at 1 by lia. apply genuine_drop; [done|lia].
Qed.

Lemma settle_fields s : recv_chunks (settle s) = recv_chunks s /\ recv_read_offset (settle s) = recv_read_offset s
  /\ recv_high_water (settle s) = recv_high_water s /\ recv_limit (settle s) = recv_limit s
  /\ recv_final_size (settle s) = recv_final_size s.
Proof using.
  unfold settle. destruct (recv_final_size s) eqn:Ef; [|done].
  case_decide; simpl; destruct (recv_chunks s) as [|[k d] c] eqn:Ec; case_match; simpl; split_and!; congruence.
Qed.

Lemma deliver_high s o d fin s' :
  ~ (recv_state s = ResetRecvd \/ recv_state s = ResetRead) -> 0 <= o -> o + #d < 2 ^ 63 ->
  deliver s o d fin = Some s' -> recv_high_water s' = Z.max (recv_high_water s) (o + #d).
Proof using.
  intros Hst Ho Hl. unfold deliver. rewrite decide_False by done. rewrite u64_small by (unfold u64_ok; lia).
  case_match; [done|]. destruct (match recv_final_size s with Some _ => _ | None => _ end); [done|].
  destruct (trim_consumed _ _ _). intros [= <-].
  match goal with |- context [settle ?x] => destruct (settle_fields x) as (_ & _ & -> & _) end. simpl.
  destruct (Z.ltb_spec (recv_high_water s) (o + #d)); lia.
Qed.

(** An accepted [deliver] in a state that takes data. *)
Lemma deliver_spec s o d fin s' :
  recv_inv s -> genuine o d -> 0 <= o -> o + #d < 2 ^ 63 -> deliver s o d fin = Some s' ->
  recv_inv s' /\ recv_read_offset s' = recv_read_offset s /\
  (forall p, holds (recv_chunks s) p -> holds (recv_chunks s') p) /\
  (forall p, holds (recv_chunks s') p -> holds (recv_chunks s) p \/ o <= p < chunk_end o d) /\
  (let '(o', d') := trim_consumed (recv_read_offset s) o d in
   recv_state s <> ResetRecvd -> recv_state s <> ResetRead ->
   (shadowed (recv_chunks s) o' d' -> recv_chunks s' = recv_chunks s) /\
   (~ shadowed (recv_chunks s) o' d' ->
      forall p, recv_read_offset s <= p -> o <= p < chunk_end o d -> holds (recv_chunks s') p)).
Proof.
  intros Hi Hg Ho Hlen. unfold deliver. case_decide as Hst.
  { intros [= <-]. split_and!; [done|done|done|by left|]. destruct (trim_consumed _ _ _). naive_solver. }
  rewrite u64_small by (unfold u64_ok; lia). fold (chunk_end o d).
  destruct (Z.ltb_spec (recv_limit s) (chunk_end o d)) as [|Hlim]; [done|]. case_match; [done|].
  pose proof (trim_consumed_spec (recv_read_offset s) o d) as Ht.
  destruct (trim_consumed (recv_read_offset s) o d) as [o' d'].
  destruct (Ht Hg) as (Hr & Hne & Hp). clear Ht. intros [= <-].
  set (c' := match d' with [] => _ | _ => _ end).
  assert (Hc : inserted (recv_read_offset s) (recv_chunks s) o' d' c').
  { destruct d' as [|x d'].
    - split_and!; [apply Hi|done|by left|intros (? & _ & ?); simpl in *; lia|]. unfold chunk_end; simpl; intros; lia.
    - destruct Hne as [? _]; [done|]. apply insert_chunk_spec; [apply Hi|done..]. }
  clearbody c'. destruct Hc as (Hok & Hmono & Hnew & Hsh & Hall).
  match goal with |- context [settle ?x] => destruct (settle_fields x) as (E1 & E2 & E3 & E4 & E5) end.
  destruct Hi as [Hi1 Hi2 Hi3 Hi4].
  assert (Hnew' : forall p, holds c' p -> holds (recv_chunks s) p \/ o <= p < chunk_end o d).
  { intros p Hh. destruct (Hnew p Hh) as [|Hq]; [by left|]. right. apply Hp; [lia|done]. }
  split_and!; rewrite ?E1, ?E2; simpl; [|done|done|done|].
  - split; rewrite ?E1, ?E2, ?E3, ?E4; simpl; [done|case_match; lia| |].
    + intros p [Hh|Hh]%Hnew'; [apply Hi3 in Hh|]; destruct (Z.ltb_spec (recv_high_water s) (chunk_end o d)); lia.
    + destruct (Z.ltb_spec (recv_high_water s) (chunk_end o d)); lia.
  - intros _ _. split; [done|]. intros Hns p Hp1 Hp2. apply Hall; [done|]. by apply Hp.
Qed.

Lemma read_spec s out fin s' :
  recv_inv s -> read_contiguous s = (out, fin, s') ->
  recv_inv s' /\ genuine (recv_read_offset s) out /\ recv_read_offset s' = recv_read_offset s + #out /\
  (forall p, holds (recv_chunks s') p <-> holds (recv_chunks s) p /\ recv_read_offset s' <= p) /\
  (out = [] -> ~ holds (recv_chunks s) (recv_read_offset s)) /\
  (fin = true -> recv_final_size s = Some (recv_read_offset s')) /\
  (recv_final_size s = Some (recv_read_offset s') -> recv_chunks s' = [] -> fin = true).
Proof.
  intros [Hi1 Hi2 Hi3 Hi4]. unfold read_contiguous. destruct (recv_chunks s) as [|[k d] rest] eqn:Ec.
  - assert (Hs : recv_inv s) by (split; rewrite ?Ec; done).
    destruct (recv_final_size s) as [fs|] eqn:Ef; [destruct (Z.eqb_spec (recv_read_offset s) fs) as [<-|]|];
      intros [= <- <- <-]; simpl; rewrite ?Ec, ?Ef, ?Z.add_0_r; split_and!;
      try done; try (by intros p; rewrite holds_nil; tauto); try (intros ?; by rewrite holds_nil);
      try congruence; by destruct Hs.
  - destruct Hi1 as (Hk & Hd & Hg & Hc). pose proof (chunk_end_gt k d Hd) as Hgt.
    destruct (Z.eqb_spec k (recv_read_offset s)) as [Heq|Hne].
    + subst k. assert (Hs : forall st, recv_inv (mkRecv rest (recv_read_offset s + #d) (recv_high_water s)
        (recv_limit s) (recv_final_size s) (reset_error s) st)).
      { intros st. split; simpl; [eapply chunks_ok_weaken; [|done]; unfold chunk_end; lia| | |done].
        - assert (recv_read_offset s + #d - 1 < recv_high_water s); [|unfold chunk_end in *; lia].
          apply Hi3, holds_cons. left. unfold chunk_end in *. lia.
        - intros p Hp. apply Hi3, holds_cons. by right. }
      assert (Hh : forall p, holds rest p <-> holds ((recv_read_offset s, d) :: rest) p /\ recv_read_offset s + #d <= p).
      { intros p. rewrite holds_cons. split; [|unfold chunk_end in *; naive_solver lia].
        intros Hp. pose proof (chunks_ok_holds_ge _ _ _ Hc Hp). unfold chunk_end in *. split; [by right|lia]. }
      case_match eqn:Ee; intros [= <- <- <-]; simpl; split_and!; try done; try (apply Hs).
      * intros _. destruct (recv_final_size s); [|done]. apply Z.eqb_eq in Ee. by subst.
      * intros Hf _. rewrite Hf in Ee. by rewrite Z.eqb_refl in Ee.
    + intros [= <- <- <-]. assert (Hs : recv_inv s) by (split; rewrite ?Ec; done). rewrite Ec, Z.add_0_r.
      assert (Hge : forall p, holds ((k, d) :: rest) p -> k <= p).
      { intros p. rewrite holds_cons. intros [?|Hp]; [lia|]. pose proof (chunks_ok_holds_ge _ _ _ Hc Hp). lia. }
      split_and!; try done; [|intros _ Hp%Hge; lia]. intros p. split; [|tauto].
      intros Hp. split; [done|]. apply Hge in Hp. lia.
Qed.

Lemma reset_recvd_inv s fs err s' : recv_inv s -> reset_recvd s fs err = Some s' ->
  recv_inv s' /\ recv_read_offset s' = recv_read_offset s.
Proof.
  intros [Hi1 Hi2 Hi3 Hi4]. unfold reset_recvd. case_match; [done|]. destruct (Z.ltb_spec (recv_limit s) fs); [done|].
  intros [= <-]. split; [|done]. split; simpl; [done|lia|by intros p ?%holds_nil|lia].
Qed.

(** The operations of the receive half as a sequence; the bytes handed to
    the application accumulate. *)
Inductive recv_op :=
| ODeliver (offset : Z) (data : bytes) (fin : bool)
| ORead
| OLimit (new_limit : Z)
| OReset (final_size app_error : Z).

Definition recv_step (st : RecvSide * bytes) (op : recv_op) : RecvSide * bytes :=
  let '(s, out) := st in
  match op with
  | ODeliver o d fin => (default s (deliver s o d fin), out)
  | ORead => let '(d, _, s') := read_contiguous s in (s', out ++ d)
  | OLimit n => ((set_recv_limit s n).1, out)
  | OReset fs err => (default s (reset_recvd s fs err), out)
  end.

Definition recv_run (st : RecvSide * bytes) (ops : list recv_op) : RecvSide * bytes := foldl recv_step st ops.

Definition op_ok (op : recv_op) : Prop :=
  match op with
  | ODeliver o d _ => genuine o d /\ 0 <= o /\ o + #d < 2 ^ 63
  | OLimit n => n < 2 ^ 63
  | ORead | OReset _ _ => True
  end.

Lemma recv_step_inv st op : recv_inv st.1 -> genuine 0 st.2 -> recv_read_offset st.1 = #(st.2) -> op_ok op ->
  recv_inv (recv_step st op).1 /\ genuine 0 (recv_step st op).2 /\
  recv_read_offset (recv_step st op).1 = #((recv_step st op).2).
Proof.
  destruct st as [s out]; simpl. intros Hi Hg Hr Hok. destruct op as [o d fin| |n|fs err]; simpl.
  - destruct (deliver s o d fin) as [s'|] eqn:E; [|done]. destruct Hok as (? & ? & ?).
    destruct (deliver_spec s o d fin s') as (? & Hs & _); try done. simpl. by rewrite Hs.
  - destruct (read_contiguous s) as [[d fin] s'] eqn:E. destruct (read_spec _ _ _ _ Hi E) as (? & Hd & Hs & _).
    simpl. split_and!; [done| |rewrite Hs, length_app; lia]. apply genuine_app. rewrite Hr in Hd. by rewrite Z.add_0_l.
  - unfold set_recv_limit. destruct (Z.leb_spec n (recv_limit s)); [done|]. simpl. split_and!; [|done|done].
    destruct Hi as [? ? ? ?]. simpl in Hok. by split; simpl; [..|lia].
  - destruct (reset_recvd s fs err) as [s'|] eqn:E; [|done]. destruct (reset_recvd_inv _ _ _ _ Hi E) as [? Hs].
    simpl. by rewrite Hs.
Qed.

Lemma new_recv_inv n : 0 <= n < 2 ^ 63 -> recv_inv (new_recv n).
Proof. intros Hn. split; simpl; [done|lia|by intros p ?%holds_nil|lia]. Qed.

Lemma recv_run_inv ops : forall st, recv_inv st.1 -> genuine 0 st.2 -> recv_read_offset st.1 = #(st.2) ->
  Forall op_ok ops ->
  recv_inv (recv_run st ops).1 /\ genuine 0 (recv_run st ops).2 /\
  recv_read_offset (recv_run st ops).1 = #((recv_run st ops).2).
Proof.
  induction ops as [|op ops IH]; intros st H1 H2 H3 Hops; [done|]. inversion Hops; subst. simpl.
  destruct (recv_step_inv st op) as (? & ? & ?); try done. by apply IH.
Qed.

End reassembly.

(** ** Properties of the receive half *)

(** C5: Reassembly is faithful.  Whatever order, overlap and duplication
    the peer's chunks arrive in, interleaved with reads, window updates and
    resets, the bytes handed to the application are exactly a prefix of the
    peer's stream, the read offset counts them, and the receive window is
    never exceeded. *)
Theorem stream_reassembly src limit ops :
  0 <= limit < 2 ^ 63 -> Forall (op_ok src) ops ->
  let '(s, out) := recv_run (new_recv limit, []) ops in
  out = (fun i => src (Z.of_nat i)) <$> seq 0 (length out) /\
  recv_read_offset s = #out /\ recv_high_water s <= recv_limit s.
Proof.
  intros Hl Hops. pose proof (recv_run_inv src ops (new_recv limit, [])) as H.
  destruct (recv_run (new_recv limit, []) ops) as [s out]. simpl in H.
  destruct H as (Hi & Hg & Hr); [by apply new_recv_inv|done|done|done|].
  split_and!; [|done|by apply Hi]. apply list_eq. intros i. rewrite list_lookup_fmap.
  destruct (decide (i < length out)%nat) as [Hlt|Hge].
  - rewrite lookup_seq_lt by done. simpl. destruct (lookup_lt_is_Some_2 out i Hlt) as [b Hb].
    rewrite Hb. f_equal. by apply (Hg i b).
  - rewrite lookup_ge_None_2, lookup_seq_ge by lia. done.
Qed.

Definition sample_ops : list recv_op :=
  [ODeliver 3 [3; 4] true; ORead; ODeliver 0 [0; 1] false; ORead; ODeliver 1 [1; 2; 3; 4] false; ORead].

Lemma stream_reassembly_witness :
  exists s out, recv_run (new_recv 100, []) sample_ops = (s, out) /\ out = [0; 1; 2; 3; 4] /\
    recv_high_water s <= recv_limit s.
Proof.
  assert (Hok : Forall (op_ok (fun p => p)) sample_ops).
  { repeat apply Forall_cons_2; try apply Forall_nil_2; simpl; try exact I; split_and!; try lia;
      by apply genuine_intro. }
  pose proof (stream_reassembly (fun p => p) 100 sample_ops ltac:(lia) Hok) as H.
  destruct (recv_run (new_recv 100, []) sample_ops) as [s out] eqn:E. exists s, out.
  split; [done|]. split; [|apply H]. vm_compute in E. by injection E as <- <-.
Defined.

(** An accepted chunk is stored.  [deliver] keeps everything already
    held, invents nothing, and afterwards every unread offset of the new data
    is held, unless a shorter chunk already starts at the offset where the
    (trimmed) data starts. *)
Theorem deliver_stores src s o d fin s' :
  recv_inv src s -> genuine src o d -> 0 <= o -> o + #d < 2 ^ 63 ->
  recv_state s <> ResetRecvd -> recv_state s <> ResetRead ->
  deliver s o d fin = Some s' ->
  recv_inv src s' /\
  (forall p, holds (recv_chunks s) p -> holds (recv_chunks s') p) /\
  (forall p, holds (recv_chunks s') p -> holds (recv_chunks s) p \/ o <= p < chunk_end o d) /\
  (~ shadowed (recv_chunks s) (Z.max o (recv_read_offset s))
       (drop (Z.to_nat (recv_read_offset s - o)) d) ->
   forall p, recv_read_offset s <= p -> o <= p < chunk_end o d -> holds (recv_chunks s') p).
Proof.
  intros Hi Hg Ho Hlen Hs1 Hs2 Hd. destruct (deliver_spec src s o d fin s') as (H1 & _ & H3 & H4 & H5); try done.
  split_and!; try done. unfold trim_consumed in H5. destruct (Z.ltb_spec o (recv_read_offset s)).
  - rewrite Z.max_r by lia. by apply H5.
  - rewrite Z.max_l by lia. replace (Z.to_nat (recv_read_offset s - o)) with 0%nat by lia. by apply H5.
Qed.

Lemma deliver_stores_witness :
  exists s', deliver (new_recv 10) 2 [2; 3] false = Some s' /\ holds (recv_chunks s') 3.
Proof.
  eexists. split; [reflexivity|].
  apply (deliver_stores (fun p => p) (new_recv 10) 2 [2; 3] false
    (mkRecv [(2, [2; 3])] 0 4 10 None None Recv)); simpl.
  - apply new_recv_inv; lia.
  - by apply genuine_intro.
  - lia.
  - lia.
  - discriminate.
  - discriminate.
  - reflexivity.
  - intros (e & ?%elem_of_nil & _); done.
  - lia.
  - unfold chunk_end; simpl; lia.
Defined.

(** A retransmission that extends a buffered chunk is dropped.  When a
    shorter chunk already starts at the offset of the new data, [deliver]
    reports success and counts the new end in [recv_high_water], but the map
    of chunks is unchanged: [std::map::emplace] does not overwrite. *)
Theorem deliver_drops_extension src s o d e fin s' :
  recv_inv src s -> genuine src o d -> recv_read_offset s <= o -> o + #d < 2 ^ 63 ->
  recv_state s <> ResetRecvd -> recv_state s <> ResetRead ->
  (o, e) ∈ recv_chunks s -> (length e < length d)%nat ->
  deliver s o d fin = Some s' ->
  recv_chunks s' = recv_chunks s /\ chunk_end o d <= recv_high_water s'.
Proof.
  intros Hi Hg Ho Hlen Hs1 Hs2 Hin Hlt Hd. pose proof (ri_read _ _ Hi).
  destruct (deliver_spec src s o d fin s') as (H1 & _ & _ & _ & H5); try done; [lia|].
  unfold trim_consumed in H5. rewrite (proj2 (Z.ltb_ge _ _)) in H5 by lia.
  split; [apply H5; [done..|by exists e]|]. rewrite (deliver_high s o d fin s') by (done || tauto || lia).
  unfold chunk_end. lia.
Qed.

Lemma deliver_drops_extension_witness :
  exists s', deliver (mkRecv [(5, [5])] 0 6 100 None None Recv) 5 [5; 6; 7] false = Some s' /\
    recv_chunks s' = [(5, [5])] /\ 8 <= recv_high_water s'.
Proof.
  eexists. split; [reflexivity|].
  apply (deliver_drops_extension (fun p => p) (mkRecv [(5, [5])] 0 6 100 None None Recv) 5 [5; 6; 7] [5] false); simpl.
  - split; simpl; [|lia| |lia].
    + split_and!; [lia|done| |done]. by apply genuine_intro.
    + intros p. rewrite holds_cons, holds_nil. unfold chunk_end; simpl. lia.
  - by apply genuine_intro.
  - lia.
  - lia.
  - discriminate.
  - discriminate.
  - left.
  - lia.
  - reflexivity.
Defined.

(** Reading is in order and complete: [read_contiguous] returns the
    bytes at the read offset, keeps the rest, returns nothing only when the
    next byte is not held, and raises the FIN flag exactly when the final
    size is reached (and nothing is left in the map). *)
Theorem read_contiguous_correct src s out fin s' :
  recv_inv src s -> read_contiguous s = (out, fin, s') ->
  recv_inv src s' /\ genuine src (recv_read_offset s) out /\ recv_read_offset s' = recv_read_offset s + #out /\
  (forall p, holds (recv_chunks s') p <-> holds (recv_chunks s) p /\ recv_read_offset s' <= p) /\
  (out = [] -> ~ holds (recv_chunks s) (recv_read_offset s)) /\
  (fin = true -> recv_final_size s = Some (recv_read_offset s')) /\
  (recv_final_size s = Some (recv_read_offset s') -> recv_chunks s' = [] -> fin = true).
Proof. apply read_spec. Qed.

Lemma read_contiguous_correct_witness : genuine (fun p => p) 0 [0; 1].
Proof.
  apply (read_contiguous_correct (fun p => p) (mkRecv [(0, [0; 1])] 0 2 9 (Some 2) None DataRecvd) [0; 1] true
    (mkRecv [] 2 2 9 (Some 2) None DataRead)); [|reflexivity].
  split; simpl; [|lia| |lia].
  - split_and!; [lia|done| |done]. by apply genuine_intro.
  - intros p. rewrite holds_cons, holds_nil. unfold chunk_end; simpl. lia.
Defined.

(** A FIN below data already received is accepted.  [deliver] compares
    the new end with a final size already known, never with the bytes already
    received, so a FIN may fix a final size smaller than [recv_high_water],
    a FINAL_SIZE_ERROR in RFC 9000 section 4.5; [reset_recvd] has the same gap. *)
Theorem final_size_below_received s o d err :
  recv_state s = Recv -> recv_final_size s = None -> 0 <= o -> o + #d < recv_high_water s ->
  recv_high_water s <= recv_limit s < 2 ^ 63 ->
  (exists s', deliver s o d true = Some s' /\ recv_final_size s' = Some (o + #d) /\
     recv_high_water s' = recv_high_water s) /\
  (exists s', reset_recvd s (o + #d) err = Some s' /\ recv_final_size s' = Some (o + #d) /\
     recv_high_water s' = recv_high_water s).
Proof.
  intros Hst Hfs Ho Hlt Hlim. split.
  - unfold deliver. rewrite Hst, decide_False by naive_solver. rewrite u64_small by (unfold u64_ok; lia).
    rewrite (proj2 (Z.ltb_ge _ _)), Hfs by lia. destruct (trim_consumed _ _ _). eexists. split; [done|].
    match goal with |- context [settle ?x] => destruct (settle_fields x) as (_ & _ & -> & _ & ->) end. simpl.
    split; [done|]. by rewrite (proj2 (Z.ltb_ge _ _)) by lia.
  - unfold reset_recvd. rewrite Hfs, (proj2 (Z.ltb_ge _ _)) by lia. eexists. split; [done|]. simpl.
    split; [done|]. lia.
Qed.

Lemma final_size_below_received_witness :
  exists s', deliver (mkRecv [(0, [1; 2; 3])] 0 3 9 None None Recv) 0 [1] true = Some s' /\
    recv_final_size s' = Some 1 /\ recv_high_water s' = 3.
Proof.
  apply (final_size_below_received (mkRecv [(0, [1; 2; 3])] 0 3 9 None None Recv) 0 [1] 0); simpl; done || lia.
Defined.

(** A stream that the peer resets where the application stopped reading
    ends like a stream that was sent completely: the next read reports the
    end of the stream and the state leaves [ResetRecvd]. *)
Theorem reset_reported_as_fin s err :
  recv_final_size s = None -> recv_read_offset s <= recv_limit s ->
  exists s', reset_recvd s (recv_read_offset s) err = Some s' /\ recv_state s' = ResetRecvd /\
    read_contiguous s' = ([], true, set_recv_state s' DataRead).
Proof.
  intros Hf Hl. unfold reset_recvd. rewrite Hf, (proj2 (Z.ltb_ge _ _)) by done. eexists. split; [done|]. split; [done|].
  unfold read_contiguous. cbn [recv_chunks recv_final_size recv_read_offset]. by rewrite Z.eqb_refl.
Qed.

(** ** Send half: specification

    [written] is everything the application wrote; [flight] lists the ranges
    carried by packets that are neither acknowledged nor declared lost.  Every
    byte between the base and the next fresh offset is in exactly one of: the
    acknowledged ranges, the ranges to retransmit, and the flight. *)

Definition in_rng (p : Z) (r : Z * Z) : Prop := r.1 <= p < r.1 + r.2.

Global Instance in_rng_dec p r : Decision (in_rng p r).
Proof. unfold in_rng. apply _. Defined.

(** How many of the ranges contain [p]. *)
Definition cnt (p : Z) (l : list (Z * Z)) : nat := length (filter (in_rng p) l).

Definition range_leP (a b : Z * Z) : Prop := range_le a b = true.

Record send_inv (written : bytes) (flight : list (Z * Z)) (s : SendSide) : Prop := {
  si_order : 0 <= send_buf_base_offset s <= send_next_offset s;
  si_next : send_next_offset s <= send_high_water s;
  si_high : send_high_water s = #written;
  si_head : (send_buf_head s <= length (send_buf s))%nat;
  si_live : drop (send_buf_head s) (send_buf s) = drop (Z.to_nat (send_buf_base_offset s)) written;
  si_once : forall p, cnt p (acked_ranges s ++ lost_ranges s ++ flight) =
              if decide (send_buf_base_offset s <= p < send_next_offset s) then 1%nat else 0%nat;
  si_pos : Forall (fun r => 0 < r.2) (acked_ranges s ++ lost_ranges s ++ flight);
  si_sorted : Sorted range_leP (acked_ranges s);
  si_drained : forall r rest, acked_ranges s = r :: rest -> r.1 <> send_buf_base_offset s }.

Lemma cnt_app p l k : cnt p (l ++ k) = (cnt p l + cnt p k)%nat.
Proof. unfold cnt. by rewrite filter_app, length_app. Qed.
Lemma cnt_cons p r l : cnt p (r :: l) = ((if decide (in_rng p r) then 1 else 0) + cnt p l)%nat.
Proof. unfold cnt. rewrite filter_cons. by case_decide. Qed.
Lemma cnt_nil p : cnt p [] = 0%nat.
Proof. done. Qed.
Lemma cnt_perm p l k : Permutation l k -> cnt p l = cnt p k.
Proof. intros H. unfold cnt. by rewrite H. Qed.
Lemma cnt_pos p l r : r ∈ l -> in_rng p r -> (0 < cnt p l)%nat.
Proof. intros Hin Hp. apply list_elem_of_split in Hin as (l1 & l2 & ->). rewrite cnt_app, cnt_cons, decide_True by done. lia. Qed.
Lemma cnt_inv p l : (0 < cnt p l)%nat -> exists r, r ∈ l /\ in_rng p r.
Proof.
  induction l as [|r l IH]; [rewrite cnt_nil; lia|]. rewrite cnt_cons. case_decide; [set_solver|].
  intros H'. destruct (IH H') as (r' & ? & ?). set_solver.
Qed.

Lemma range_le_total a b : range_le a b = false -> range_le b a = true.
Proof. unfold range_le. lia. Qed.

Lemma insert_sorted_perm x l : Permutation (insert_sorted x l) (x :: l).
Proof.
  induction l as [|y l IH]; simpl; [done|]. case_match; [done|]. rewrite IH. apply Permutation_swap.
Qed.
Lemma sort_ranges_perm l : Permutation (sort_ranges l) l.
Proof. induction l as [|x l IH]; simpl; [done|]. by rewrite insert_sorted_perm, IH. Qed.

Lemma insert_sorted_sorted x l : Sorted range_leP l -> Sorted range_leP (insert_sorted x l).
Proof.
  induction l as [|y l IH]; intros Hs; simpl; [repeat constructor|].
  destruct (range_le x y) eqn:E; [constructor; [done|by constructor]|].
  inversion Hs as [|? ? Hl Hh]; subst. constructor; [by apply IH|].
  apply range_le_total in E. destruct l as [|z l]; simpl; [by constructor|].
  inversion Hh; subst. case_match; by constructor.
Qed.
Lemma sort_ranges_sorted l : Sorted range_leP (sort_ranges l).
Proof. induction l; simpl; [constructor|by apply insert_sorted_sorted]. Qed.

(** Releasing the ranges at the base: the released bytes leave the count. *)
Lemma drain_spec others next : forall acked head base,
  base <= next -> Sorted range_leP acked -> Forall (fun r => 0 < r.2) acked ->
  (forall p, (cnt p acked + cnt p others)%nat = if decide (base <= p < next) then 1%nat else 0%nat) ->
  let '(head', base', acked') := drain head base acked in
  base <= base' <= next /\ Z.of_nat head' - base' = Z.of_nat head - base /\
  Sorted range_leP acked' /\ Forall (fun r => 0 < r.2) acked' /\
  (forall p, (cnt p acked' + cnt p others)%nat = if decide (base' <= p < next) then 1%nat else 0%nat) /\
  (forall r rest, acked' = r :: rest -> r.1 <> base').
Proof.
  induction acked as [|[o n] acked IH]; intros head base Hle Hs Hp Hc; simpl; [naive_solver|].
  destruct (Z.eqb_spec o base) as [->|Hne]; [|naive_solver].
  inversion Hs; subst. inversion Hp as [|? ? Hn Hp']; subst. simpl in Hn.
  assert (Hin : base + n <= next).
  { specialize (Hc (base + n - 1)). rewrite cnt_cons, decide_True in Hc by (unfold in_rng; simpl; lia).
    case_decide; lia. }
  specialize (IH (head + Z.to_nat n)%nat (base + n) ltac:(lia) ltac:(done) Hp').
  destruct (drain (head + Z.to_nat n) (base + n) acked) as [[head' base'] acked'].
  destruct IH as (? & ? & ? & ? & ? & ?); [|split_and!; try done; lia].
  intros p. specialize (Hc p). rewrite cnt_cons in Hc. unfold in_rng in Hc; simpl in Hc.
  repeat case_decide; lia.
Qed.

Section send_half.
Context (w : bytes) (fl : list (Z * Z)) (s : SendSide).
Hypothesis (Hinv : send_inv w fl s).

(** In the live part of the buffer [slice] is in bounds and exact. *)
Lemma slice_ok o n : send_buf_base_offset s <= o -> 0 <= n -> o + n <= send_high_water s ->
  slice s o n = Some (take (Z.to_nat n) (drop (Z.to_nat o) w)).
Proof using Hinv.
  intros Ho Hn Hlt. destruct Hinv as [H1 H2 H3 H4 H5 _ _ _ _].
  assert (Hlen : (length (send_buf s) - send_buf_head s = length w - Z.to_nat (send_buf_base_offset s))%nat).
  { apply (f_equal length) in H5. by rewrite !length_drop in H5. }
  unfold slice. rewrite (proj2 (orb_false_iff _ _)) by (split; apply Z.ltb_ge; lia).
  f_equal. f_equal.
  replace (Z.to_nat (Z.of_nat (send_buf_head s) + (o - send_buf_base_offset s)))
    with (send_buf_head s + Z.to_nat (o - send_buf_base_offset s))%nat by lia.
  rewrite <- drop_drop, H5, drop_drop. f_equal. lia.
Qed.

Lemma slice_length o n d : slice s o n = Some d -> 0 <= n -> #d = n.
Proof using.
  unfold slice. case_match eqn:E; [done|]. apply orb_false_iff in E as [?%Z.ltb_ge ?%Z.ltb_ge].
  intros [= <-] Hn. rewrite length_take, length_drop. lia.
Qed.

Lemma range_in_window r : r ∈ acked_ranges s ++ lost_ranges s ++ fl ->
  send_buf_base_offset s <= r.1 /\ 0 < r.2 /\ r.1 + r.2 <= send_next_offset s.
Proof using Hinv.
  intros Hin. destruct Hinv as [_ _ _ _ _ Hc Hp _ _]. rewrite Forall_forall in Hp. specialize (Hp _ Hin).
  assert (Hx : forall p, in_rng p r -> send_buf_base_offset s <= p < send_next_offset s).
  { intros p Hr. pose proof (cnt_pos p _ _ Hin Hr) as Hc'. rewrite Hc in Hc'. case_decide; [done|lia]. }
  pose proof (Hx r.1) as H1. pose proof (Hx (r.1 + r.2 - 1)) as H2. unfold in_rng in *. lia.
Qed.

Lemma write_inv d fin : send_inv (if decide (send_state s = ResetSent \/ send_state s = SResetRecvd \/
    send_state s = DataSent \/ send_state s = SDataRecvd) then w else w ++ d) fl (write s d fin).
Proof using Hinv.
  unfold write. case_decide; [done|]. destruct Hinv as [H1 H2 H3 H4 H5 H6 H7 H8 H9].
  split; simpl; try done; rewrite ?length_app; try lia.
  rewrite !drop_app, H5. f_equal. replace (Z.to_nat (send_buf_base_offset s) - length w)%nat with 0%nat by lia.
  replace (send_buf_head s - length (send_buf s))%nat with 0%nat by lia. done.
Qed.

(** Only the lost ranges, the next offset, the FIN flags and the state move
    when bytes are pulled. *)
Lemma send_inv_pull s' fl' :
  send_buf s' = send_buf s -> send_buf_head s' = send_buf_head s ->
  send_buf_base_offset s' = send_buf_base_offset s -> send_high_water s' = send_high_water s ->
  acked_ranges s' = acked_ranges s ->
  send_next_offset s <= send_next_offset s' <= send_high_water s ->
  Forall (fun r => 0 < r.2) (lost_ranges s' ++ fl') ->
  (forall p, cnt p (lost_ranges s' ++ fl') = (cnt p (lost_ranges s ++ fl) +
     if decide (send_next_offset s <= p < send_next_offset s')%Z then 1 else 0)%nat) ->
  send_inv w fl' s'.
Proof using Hinv.
  intros E1 E2 E3 E4 E5 Hn Hp Hc. destruct Hinv as [H1 H2 H3 H4 H5 H6 H7 H8 H9].
  split; rewrite ?E1, ?E2, ?E3, ?E4, ?E5; try done; try lia.
  - intros p. specialize (H6 p). specialize (Hc p). rewrite !cnt_app in *. repeat case_decide; lia.
  - apply Forall_app in H7 as [? _]. by apply Forall_app.
Qed.

Lemma emit_fin_fields s0 : send_buf (emit_fin s0) = send_buf s0 /\ send_buf_head (emit_fin s0) = send_buf_head s0 /\
  send_buf_base_offset (emit_fin s0) = send_buf_base_offset s0 /\ send_high_water (emit_fin s0) = send_high_water s0 /\
  acked_ranges (emit_fin s0) = acked_ranges s0 /\ send_next_offset (emit_fin s0) = send_next_offset s0 /\
  lost_ranges (emit_fin s0) = lost_ranges s0.
Proof using. unfold emit_fin. case_decide; done. Qed.

(** The range a pull puts in flight. *)
Definition pulled_range (p : Pulled) : list (Z * Z) :=
  match p_offset p, p_data p with
  | Some o, _ :: _ => [(o, #(p_data p))]
  | _, _ => []
  end.

(** What a pull hands out is the application's data, in the window, and the
    FIN is on the chunk that ends at the last byte written. *)
Definition pull_ok (mb mf : Z) (p : Pulled) (s' : SendSide) : Prop :=
  send_inv w (fl ++ pulled_range p) s' /\
  #(p_data p) <= mb /\ send_next_offset s' <= send_next_offset s + Z.max 0 mf /\
  send_next_offset s' <= Z.max (send_next_offset s) (send_limit s) /\
  (forall o, p_offset p = Some o -> 0 <= o /\
     p_data p = take (length (p_data p)) (drop (Z.to_nat o) w) /\
     (p_fin p = true -> send_fin_queued s = true /\ o + #(p_data p) = send_high_water s)).

Lemma fin_only_ok mb mf : 0 < mb -> pull_ok mb mf (fin_only s).1 (fin_only s).2.
Proof using Hinv.
  intros Hmb. unfold fin_only, pull_ok. pose proof Hinv as [H1 H2 _ _ _ _ _ _ _].
  case_match eqn:E; simpl; rewrite app_nil_r; [|split_and!; try done; lia].
  apply andb_prop in E as [[Hq _]%andb_prop Hn%Z.eqb_eq].
  destruct (emit_fin_fields s) as (E1 & E2 & E3 & E4 & E5 & E6 & E7).
  split_and!; rewrite ?E6; try lia.
  - apply send_inv_pull; rewrite ?E6, ?E7; try done; try lia.
    + pose proof (si_pos _ _ _ Hinv) as Hp. by apply Forall_app in Hp as [_ ?].
    + intros p. rewrite decide_False by lia. lia.
  - intros o [= <-]. split_and!; [lia|done|]. intros _. split; [done|]. simpl. lia.
Qed.

Lemma pull_retransmit_ok mb mf r rest : 0 < mb -> lost_ranges s = r :: rest ->
  exists p s', pull_retransmit s mb r rest = Some (p, s') /\ pull_ok mb mf p s'.
Proof using Hinv.
  intros Hmb Hl. destruct (range_in_window r) as (Hr1 & Hr2 & Hr3); [rewrite Hl; set_solver|].
  pose proof Hinv as [H1 H2 H3 _ _ _ Hp _ _]. unfold pull_retransmit. cbv zeta.
  set (n := Z.min mb r.2). assert (Hn : 0 < n <= r.2) by lia.
  assert (Hsl : slice s r.1 n = Some (take (Z.to_nat n) (drop (Z.to_nat r.1) w))) by (apply slice_ok; lia).
  pose proof (slice_length _ _ _ Hsl ltac:(lia)) as Hlen. rewrite Hsl. cbn [mbind option_bind].
  set (d := take (Z.to_nat n) (drop (Z.to_nat r.1) w)) in *. eexists _, _. split; [done|].
  set (s' := set_lost _ _).
  assert (Hf : send_buf s' = send_buf s /\ send_buf_head s' = send_buf_head s /\
    send_buf_base_offset s' = send_buf_base_offset s /\ send_high_water s' = send_high_water s /\
    acked_ranges s' = acked_ranges s /\ send_next_offset s' = send_next_offset s /\
    lost_ranges s' = if n =? r.2 then rest else (r.1 + n, r.2 - n) :: rest).
  { unfold s'. by case_match. }
  destruct Hf as (E1 & E2 & E3 & E4 & E5 & E6 & E7). clearbody s'. unfold pull_ok. simpl. rewrite E6.
  assert (Hrange : pulled_range (mkPulled (Some r.1) d
    (send_fin_queued s && (r.1 + n =? send_high_water s))) = [(r.1, n)]).
  { unfold pulled_range. simpl. destruct d eqn:Ed; [simpl in Hlen; lia|]. by rewrite <- Hlen. }
  rewrite Hrange. rewrite Hl in Hp. rewrite !Forall_app, Forall_cons in Hp. destruct Hp as (_ & [_ Hp1] & Hp2).
  split_and!; try lia.
  - apply send_inv_pull; rewrite ?E6; try done; try lia.
    + rewrite E7, !Forall_app, Forall_singleton. destruct (Z.eqb_spec n r.2); simpl.
      * split_and!; done || lia.
      * rewrite Forall_cons. split_and!; simpl; done || lia.
    + intros p. rewrite Hl, (decide_False (P := _ <= p < _)) by lia.
      rewrite E7, !cnt_app, cnt_cons, cnt_cons, cnt_nil.
      destruct (Z.eqb_spec n r.2) as [En|En]; rewrite ?cnt_cons; unfold in_rng; simpl; repeat case_decide; lia.
  - intros o [= <-]. split_and!; [lia| |].
    + unfold d at 2. rewrite length_take, length_drop. unfold d. f_equal. lia.
    + intros [? ?%Z.eqb_eq]%andb_prop. split; [done|]. lia.
Qed.

Lemma pull_fresh_ok mb mf : 0 < mb -> 0 <= mf -> lost_ranges s = [] ->
  exists p s', pull_fresh s mb mf = Some (p, s') /\ pull_ok mb mf p s'.
Proof using Hinv.
  intros Hmb Hmf Hl. pose proof Hinv as [H1 H2 H3 _ _ _ Hp _ _].
  assert (Hfin : exists p s', Some (fin_only s) = Some (p, s') /\ pull_ok mb mf p s').
  { pose proof (fin_only_ok mb mf Hmb). destruct (fin_only s) as [p s']. by exists p, s'. }
  unfold pull_fresh. destruct (Z.leb_spec (send_limit s) (send_next_offset s)); [done|]. cbv zeta.
  set (n := Z.min (Z.min mb _) _). destruct (Z.eqb_spec n 0); [done|]. clear Hfin.
  assert (Hn : 0 < n /\ n <= mb /\ n <= send_limit s - send_next_offset s /\
    n <= send_high_water s - send_next_offset s /\ n <= mf) by lia. clearbody n. destruct Hn as (Hn & Hn1 & Hn2 & Hn3 & Hn4).
  assert (Hsl : slice s (send_next_offset s) n = Some (take (Z.to_nat n) (drop (Z.to_nat (send_next_offset s)) w)))
    by (apply slice_ok; lia).
  pose proof (slice_length _ _ _ Hsl ltac:(lia)) as Hlen. rewrite Hsl. cbn [mbind option_bind].
  set (d := take (Z.to_nat n) (drop (Z.to_nat (send_next_offset s)) w)) in *.
  assert (Hgen : forall fin s', (s' = set_next s (send_next_offset s + n) \/
      s' = emit_fin (set_next s (send_next_offset s + n))) ->
    (fin = true -> send_fin_queued s = true /\ send_next_offset s + n = send_high_water s) ->
    pull_ok mb mf (mkPulled (Some (send_next_offset s)) d fin) s').
  { intros fin s' Hs' Hfin.
    assert (Hf : send_buf s' = send_buf s /\ send_buf_head s' = send_buf_head s /\
      send_buf_base_offset s' = send_buf_base_offset s /\ send_high_water s' = send_high_water s /\
      acked_ranges s' = acked_ranges s /\ send_next_offset s' = send_next_offset s + n /\ lost_ranges s' = lost_ranges s).
    { destruct Hs' as [->| ->]; [done|]. apply (emit_fin_fields (set_next s (send_next_offset s + n))). }
    destruct Hf as (E1 & E2 & E3 & E4 & E5 & E6 & E7). unfold pull_ok. simpl. rewrite E6.
    assert (Hrange : pulled_range (mkPulled (Some (send_next_offset s)) d fin) = [(send_next_offset s, n)]).
    { unfold pulled_range. simpl. destruct d eqn:Ed; [simpl in Hlen; lia|]. by rewrite <- Hlen. }
    rewrite Hrange. rewrite Hl in Hp. rewrite !Forall_app in Hp. destruct Hp as (_ & _ & Hp2).
    split_and!; try lia.
    - apply send_inv_pull; rewrite ?E6, ?E7, ?Hl; try done; try lia.
      + simpl. rewrite Forall_app, Forall_singleton. simpl. split; [done|lia].
      + intros p. simpl. rewrite cnt_app, cnt_cons, cnt_nil. unfold in_rng; simpl. repeat case_decide; lia.
    - intros o [= <-]. split_and!; [lia| |].
      + unfold d at 2. rewrite length_take, length_drop. unfold d. f_equal. lia.
      + intros Hf. destruct (Hfin Hf). split; [done|]. lia. }
  case_match eqn:E; eexists _, _; (split; [done|]); apply Hgen; auto; [|done].
  intros _. apply andb_prop in E as [[? ?%Z.eqb_eq]%andb_prop _]. done.
Qed.

Lemma pull_send_ok mb mf : 0 <= mb -> 0 <= mf ->
  exists p s', pull_send s mb mf = Some (p, s') /\ pull_ok mb mf p s'.
Proof using Hinv.
  intros Hmb Hmf. unfold pull_send. destruct (Z.eqb_spec mb 0) as [->|].
  { exists nothing, s. split; [done|]. pose proof Hinv as [H1 _ _ _ _ _ _ _ _].
    unfold pull_ok. simpl. rewrite app_nil_r. split_and!; try done; lia. }
  destruct (lost_ranges s) as [|r rest] eqn:E; [by apply pull_fresh_ok; [lia|..]|].
  by apply pull_retransmit_ok; [lia|].
Qed.

Lemma try_advance_fields s0 : let s1 := try_advance_send_state_after_ack s0 in
  send_buf s1 = send_buf s0 /\ send_buf_head s1 = send_buf_head s0 /\
  send_buf_base_offset s1 = send_buf_base_offset s0 /\ send_high_water s1 = send_high_water s0 /\
  acked_ranges s1 = acked_ranges s0 /\ send_next_offset s1 = send_next_offset s0 /\
  lost_ranges s1 = lost_ranges s0 /\
  (send_state s1 = send_state s0 \/
   send_state s0 = DataSent /\ send_state s1 = SDataRecvd /\ length (send_buf s0) = send_buf_head s0).
Proof using.
  simpl. unfold try_advance_send_state_after_ack. case_decide; [|naive_solver].
  case_match eqn:E; [|naive_solver]. apply andb_prop in E as [E%Nat.eqb_eq _]. simpl. naive_solver.
Qed.

(** The invariant only mentions the fields above. *)
Lemma send_inv_ext w' fl' s0 s1 : send_inv w' fl' s0 ->
  send_buf s1 = send_buf s0 -> send_buf_head s1 = send_buf_head s0 ->
  send_buf_base_offset s1 = send_buf_base_offset s0 -> send_high_water s1 = send_high_water s0 ->
  acked_ranges s1 = acked_ranges s0 -> send_next_offset s1 = send_next_offset s0 ->
  lost_ranges s1 = lost_ranges s0 -> send_inv w' fl' s1.
Proof using.
  intros [? ? ? ? ? ? ? ? ?] E1 E2 E3 E4 E5 E6 E7. split; rewrite ?E1, ?E2, ?E3, ?E4, ?E5, ?E6, ?E7; done.
Qed.

Lemma try_advance_inv w' fl' s0 : send_inv w' fl' s0 -> send_inv w' fl' (try_advance_send_state_after_ack s0).
Proof using.
  intros H. destruct (try_advance_fields s0) as (? & ? & ? & ? & ? & ? & ? & _). by eapply send_inv_ext.
Qed.

(** Compaction moves the live bytes to the front of the buffer. *)
Lemma compact_live {A} (compact : bool) head (buf : list A) : (head <= length buf)%nat ->
  let buf' := if compact then drop head buf else buf in
  let head' := if compact then 0%nat else head in
  drop head' buf' = drop head buf /\ (head' <= length buf')%nat.
Proof using. intros H. destruct compact; simpl; [split; [done|lia]|done]. Qed.

Lemma on_acked_inv o n fl' : 0 < n -> Permutation fl ((o, n) :: fl') -> send_inv w fl' (on_acked s o n).
Proof using Hinv.
  intros Hn Hperm. pose proof Hinv as [H1 H2 H3 H4 H5 H6 H7 H8 H9]. unfold on_acked.
  rewrite (proj2 (Z.eqb_neq _ _)) by lia.
  assert (Hin : (o, n) ∈ acked_ranges s ++ lost_ranges s ++ fl).
  { rewrite Hperm, !elem_of_app, elem_of_cons. auto. }
  set (a := sort_ranges (acked_ranges s ++ [(o, n)])).
  assert (Ha : Permutation a (acked_ranges s ++ [(o, n)])) by apply sort_ranges_perm.
  pose proof (drain_spec (lost_ranges s ++ fl') (send_next_offset s) a (send_buf_head s) (send_buf_base_offset s))
    as Hd.
  destruct (drain (send_buf_head s) (send_buf_base_offset s) a) as [[head base] acked].
  rewrite Hperm, !Forall_app, Forall_cons in H7. destruct H7 as (Hp1 & Hp2 & _ & Hp3).
  destruct Hd as (D1 & D2 & D3 & D4 & D5 & D6).
  { lia. } { apply sort_ranges_sorted. } { rewrite Ha, Forall_app, Forall_singleton. done. }
  { intros p. rewrite <- (H6 p), (cnt_perm _ _ _ Ha), !cnt_app, (cnt_perm _ _ _ Hperm), !cnt_cons, cnt_nil. lia. }
  assert (Hlen : (length (send_buf s) - send_buf_head s = length w - Z.to_nat (send_buf_base_offset s))%nat).
  { apply (f_equal length) in H5. by rewrite !length_drop in H5. }
  assert (Hhead : (head <= length (send_buf s))%nat) by lia.
  apply try_advance_inv. cbv zeta. destruct (compact_live ((kCompactThreshold <? head)%nat
    || (length (send_buf s) <? head * 2)%nat) head (send_buf s) Hhead) as [C1 C2].
  split; simpl; try done; [lia| | |].
  - rewrite C1. replace head with (send_buf_head s + (head - send_buf_head s))%nat by lia.
    rewrite <- drop_drop, H5, drop_drop. f_equal. lia.
  - intros p. rewrite <- (D5 p), !cnt_app. lia.
  - by rewrite !Forall_app.
Qed.

Lemma on_acked_fin_inv o : send_inv w fl (on_acked s o 0).
Proof using Hinv.
  unfold on_acked. simpl. case_match; [|done]. apply try_advance_inv. by eapply send_inv_ext.
Qed.

Lemma on_lost_inv o n fl' : 0 < n -> Permutation fl ((o, n) :: fl') -> send_inv w fl' (on_lost s o n).
Proof using Hinv.
  intros Hn Hperm. pose proof Hinv as [H1 H2 H3 H4 H5 H6 H7 H8 H9].
  assert (Hs : send_inv w fl' (set_lost s (lost_ranges s ++ [(o, n)]))).
  { rewrite Hperm, !Forall_app, Forall_cons in H7. destruct H7 as (Hp1 & Hp2 & Hp3 & Hp4).
    split; simpl; try done.
    - intros p. rewrite <- (H6 p), !cnt_app, (cnt_perm _ _ _ Hperm), !cnt_cons, cnt_nil. lia.
    - by rewrite !Forall_app, Forall_singleton. }
  unfold on_lost. rewrite (proj2 (Z.ltb_lt _ _)) by done. cbv zeta. case_match; [|done]. by eapply send_inv_ext.
Qed.

Lemma on_lost_fin_inv o : send_inv w fl (on_lost s o 0).
Proof using Hinv. unfold on_lost. simpl. case_match; [|done]. by eapply send_inv_ext. Qed.

Lemma set_send_limit_inv n : send_inv w fl (set_send_limit s n).
Proof using Hinv. unfold set_send_limit. case_match; [|done]. by eapply send_inv_ext. Qed.

(** With nothing in flight or to retransmit, everything sent is released. *)
Lemma all_acked_released : fl = [] -> lost_ranges s = [] ->
  acked_ranges s = [] /\ send_buf_base_offset s = send_next_offset s.
Proof using Hinv.
  intros Hf Hl. pose proof Hinv as [H1 H2 H3 H4 H5 H6 H7 H8 H9]. rewrite Hf, Hl, !app_nil_r in H6, H7.
  assert (Hb : send_buf_base_offset s = send_next_offset s).
  { destruct (decide (send_buf_base_offset s = send_next_offset s)) as [|Hne]; [done|]. exfalso.
    pose proof (H6 (send_buf_base_offset s)) as Hc. rewrite decide_True in Hc by lia.
    destruct (cnt_inv (send_buf_base_offset s) (acked_ranges s)) as (r & Hin & Hr); [lia|].
    assert (Hw : forall r', r' ∈ acked_ranges s -> send_buf_base_offset s <= r'.1).
    { intros r' Hr'. destruct (range_in_window r'); [by rewrite Hf, Hl, !app_nil_r|done]. }
    destruct (acked_ranges s) as [|r0 rest] eqn:Ea; [by apply elem_of_nil in Hin|].
    apply (H9 r0 rest eq_refl). pose proof (Hw r0 ltac:(left)).
    assert (r0.1 <= r.1); [|unfold in_rng in Hr; specialize (Hw r Hin); lia].
    apply elem_of_cons in Hin as [->|Hin]; [lia|].
    assert (Htr : Transitive range_leP) by (intros a b c; unfold range_leP, range_le; lia).
    apply Sorted_StronglySorted in H8; [|done]. inversion H8 as [|? ? _ Hall]; subst.
    rewrite Forall_forall in Hall. specialize (Hall _ Hin). unfold range_leP, range_le in Hall. lia. }
  split; [|done]. destruct (acked_ranges s) as [|r rest] eqn:Ea; [done|]. exfalso.
  inversion H7; subst. pose proof (H6 r.1) as Hc. rewrite cnt_cons, decide_True in Hc by (unfold in_rng; lia).
  rewrite decide_False in Hc by lia. lia.
Qed.

End send_half.

(** The send half driven by its connection: application writes, packets
    built from pulls, each packet later either acknowledged or declared lost
    (never both), window updates.  The first two components are the bytes
    written and the ranges in flight. *)
Inductive send_step : bytes * list (Z * Z) * SendSide -> bytes * list (Z * Z) * SendSide -> Prop :=
| step_write w fl s d fin : send_state s = Ready \/ send_state s = Send ->
    send_step (w, fl, s) (w ++ d, fl, write s d fin)
| step_pull w fl s mb mf p s' : 0 <= mb -> 0 <= mf -> pull_send s mb mf = Some (p, s') ->
    send_step (w, fl, s) (w, fl ++ pulled_range p, s')
| step_ack w fl fl' s o n : 0 < n -> Permutation fl ((o, n) :: fl') ->
    send_step (w, fl, s) (w, fl', on_acked s o n)
| step_lost w fl fl' s o n : 0 < n -> Permutation fl ((o, n) :: fl') ->
    send_step (w, fl, s) (w, fl', on_lost s o n)
| step_ack_fin w fl s o : send_step (w, fl, s) (w, fl, on_acked s o 0)
| step_lost_fin w fl s o : send_step (w, fl, s) (w, fl, on_lost s o 0)
| step_limit w fl s n : send_step (w, fl, s) (w, fl, set_send_limit s n).

Definition send_reachable (limit : Z) (c : bytes * list (Z * Z) * SendSide) : Prop :=
  rtc send_step ([], [], new_send limit) c.

(** What holds along every run: the invariant, and the terminal state is
    only entered once every byte written has been released. *)
Definition send_ok (c : bytes * list (Z * Z) * SendSide) : Prop :=
  let '(w, fl, s) := c in
  send_inv w fl s /\ (send_state s = SDataRecvd -> send_buf_base_offset s = send_high_water s).

Lemma new_send_ok limit : send_ok ([], [], new_send limit).
Proof.
  split; [|done]. split; simpl; try done; try lia; try constructor.
  intros p. rewrite cnt_nil. by rewrite decide_False by lia.
Qed.

(** Entering the terminal state through the acknowledgement path. *)
Lemma try_advance_terminal w fl s : send_inv w fl s ->
  (send_state s = SDataRecvd -> send_buf_base_offset s = send_high_water s) ->
  send_state (try_advance_send_state_after_ack s) = SDataRecvd ->
  send_buf_base_offset (try_advance_send_state_after_ack s) = send_high_water (try_advance_send_state_after_ack s).
Proof.
  intros Hi Hold. destruct (try_advance_fields s) as (_ & _ & -> & -> & _ & _ & _ & Hst). intros Hs.
  destruct Hst as [Hst|(_ & _ & Hlen)]; [apply Hold; congruence|].
  destruct Hi as [H1 H2 H3 _ H5 _ _ _ _]. apply (f_equal length) in H5. rewrite !length_drop in H5. lia.
Qed.

Lemma on_acked_terminal w fl fl' s o n : send_inv w fl s ->
  (send_state s = SDataRecvd -> send_buf_base_offset s = send_high_water s) ->
  0 <= n -> (n = 0 /\ fl' = fl \/ 0 < n /\ Permutation fl ((o, n) :: fl')) ->
  send_state (on_acked s o n) = SDataRecvd ->
  send_buf_base_offset (on_acked s o n) = send_high_water (on_acked s o n).
Proof.
  intros Hi Hold Hn Hfl Hs. destruct Hfl as [[-> ->]|[Hpos Hperm]].
  - unfold on_acked in *. simpl in *. destruct (send_fin_sent s); [|auto].
    eapply try_advance_terminal; [by eapply send_inv_ext|done|done].
  - pose proof (on_acked_inv w fl s Hi o n fl' Hpos Hperm) as [H1 H2 H3 H4 H5 _ _ _ _].
    unfold on_acked in *. rewrite (proj2 (Z.eqb_neq n 0)) in * by lia.
    destruct (drain _ _ _) as [[head base] acked] eqn:Ed. cbv zeta in *.
    match goal with |- context [try_advance_send_state_after_ack ?x] => set (s1 := x) in * end.
    destruct (try_advance_fields s1) as (E1 & E2 & E3 & E4 & _ & E6 & _ & Hst).
    rewrite E1, E2, E3, E4, E6 in *. destruct Hst as [Hst|(_ & _ & Hlen)].
    + assert (Hb : send_buf_base_offset s <= base).
      { assert (Hge : forall a h b, Forall (fun r => 0 < r.2) a -> b <= (drain h b a).1.2).
        { intros a. induction a as [|[x y] a IH]; intros h b Hf; simpl; [lia|].
          inversion Hf; subst. case_match; simpl in *; [|lia]. etrans; [|by apply IH]. lia. }
        specialize (Hge (sort_ranges (acked_ranges s ++ [(o, n)])) (send_buf_head s) (send_buf_base_offset s)).
        rewrite Ed in Hge. simpl in Hge. apply Hge. rewrite sort_ranges_perm, Forall_app, Forall_singleton.
        split; [|done]. pose proof (si_pos _ _ _ Hi) as Hp. by apply Forall_app in Hp as [? _]. }
      assert (send_state s = SDataRecvd) as Hs0 by (rewrite Hst in Hs; exact Hs).
      apply Hold in Hs0. simpl in *. lia.
    + apply (f_equal length) in H5. rewrite !length_drop in H5. lia.
Qed.

Lemma pull_state s mb mf p s' : pull_send s mb mf = Some (p, s') ->
  (send_state s' = SDataRecvd -> send_state s = SDataRecvd) /\
  send_buf_base_offset s' = send_buf_base_offset s /\ send_high_water s' = send_high_water s.
Proof.
  assert (He : forall s0, (send_state (emit_fin s0) = SDataRecvd -> send_state s0 = SDataRecvd) /\
    send_buf_base_offset (emit_fin s0) = send_buf_base_offset s0 /\ send_high_water (emit_fin s0) = send_high_water s0).
  { intros s0. unfold emit_fin. by case_decide. }
  assert (Hf : forall p0 s0, fin_only s = (p0, s0) -> (send_state s0 = SDataRecvd -> send_state s = SDataRecvd) /\
    send_buf_base_offset s0 = send_buf_base_offset s /\ send_high_water s0 = send_high_water s).
  { intros p0 s0. unfold fin_only. case_match; intros [= <- <-]; [apply He|done]. }
  unfold pull_send, pull_retransmit, pull_fresh. case_match; [by intros [= <- <-]|]. case_match.
  - case_match; [intros [= Hx]; eauto|]. case_match; [intros [= Hx]; eauto|].
    destruct (slice _ _ _); [|done]. simpl. case_match; intros [= <- <-]; [|done].
    apply (He (set_next s _)).
  - destruct (slice _ _ _); [|done]. simpl. intros [= <- <-]. simpl. by case_match.
Qed.

Lemma accepts_write s : send_state s = Ready \/ send_state s = Send ->
  ~ (send_state s = ResetSent \/ send_state s = SResetRecvd \/ send_state s = DataSent \/ send_state s = SDataRecvd).
Proof. intros [->| ->]; intuition discriminate. Qed.

Lemma send_step_ok c c' : send_step c c' -> send_ok c -> send_ok c'.
Proof.
  intros Hstep. destruct Hstep as [w fl s d fin Hst|w fl s mb mf p s' Hmb Hmf Hp|w fl fl' s o n Hn Hperm
    |w fl fl' s o n Hn Hperm|w fl s o|w fl s o|w fl s n]; intros [Hi Ht].
  - split.
    + pose proof (write_inv w fl s Hi d fin) as Hw. by rewrite decide_False in Hw by (by apply accepts_write).
    + unfold write. rewrite decide_False by (by apply accepts_write). simpl. destruct Hst as [Hst|Hst]; case_decide; congruence.
  - destruct (pull_send_ok w fl s Hi mb mf Hmb Hmf) as (p' & s'' & Hp' & Hok & _).
    rewrite Hp in Hp'. injection Hp' as <- <-. split; [done|]. destruct (pull_state _ _ _ _ _ Hp) as (Hs & -> & ->). auto.
  - split; [by eapply on_acked_inv|]. eapply on_acked_terminal; [done|done|lia|by right].
  - split; [by eapply on_lost_inv|]. unfold on_lost. rewrite (proj2 (Z.ltb_lt _ _)) by done. cbv zeta. by case_match.
  - split; [by apply on_acked_fin_inv|]. eapply on_acked_terminal; [done|done|lia|by left].
  - split; [by apply on_lost_fin_inv|]. unfold on_lost. simpl. by case_match.
  - split; [by apply set_send_limit_inv|]. unfold set_send_limit. by case_match.
Qed.

Lemma send_reachable_ok limit c : send_reachable limit c -> send_ok c.
Proof.
  intros Hr. assert (Hgen : forall a b, rtc send_step a b -> send_ok a -> send_ok b).
  { induction 1; eauto using send_step_ok. }
  eapply Hgen; [exact Hr|apply new_send_ok].
Qed.


(** ** Properties of the send half *)

(** C39: The send half is memory safe and loses nothing.  In every state
    reachable by writes, pulls, acknowledgements, losses and window updates,
    a pull succeeds without leaving the buffer; the bytes it hands out are the
    application's bytes at the reported offset; fresh bytes respect the
    stream window and the connection budget; and every byte between the
    released prefix and the next fresh offset is in exactly one place (held
    acknowledged, waiting for retransmission, or in flight). *)
Theorem send_half_safe limit w fl s mb mf :
  send_reachable limit (w, fl, s) -> 0 <= mb -> 0 <= mf ->
  exists p s', pull_send s mb mf = Some (p, s') /\
    #(p_data p) <= mb /\
    send_next_offset s' <= Z.max (send_next_offset s) (send_limit s) /\
    send_next_offset s' <= send_next_offset s + mf /\
    (forall o, p_offset p = Some o -> p_data p = take (length (p_data p)) (drop (Z.to_nat o) w) /\
       (p_fin p = true -> send_fin_queued s = true /\ o + #(p_data p) = #w)) /\
    (forall x, cnt x (acked_ranges s ++ lost_ranges s ++ fl) =
       if decide (send_buf_base_offset s <= x < send_next_offset s) then 1%nat else 0%nat).
Proof.
  intros [Hi _]%send_reachable_ok Hmb Hmf.
  destruct (pull_send_ok w fl s Hi mb mf Hmb Hmf) as (p & s' & Hp & Hok & H1 & H2 & H3 & H4).
  exists p, s'. split_and!; try done; [lia| |apply Hi].
  intros o Ho. destruct (H4 o Ho) as (_ & Hd & Hf). split; [done|]. rewrite <- (si_high _ _ _ Hi). done.
Qed.

(** A run with a loss: write 5 bytes, send 3 and 2, lose the first packet. *)
Definition sample_send : SendSide :=
  default (new_send 9) ('(_, s) ← pull_send (write (new_send 9) [10; 11; 12; 13; 14] true) 3 100;
                        '(_, s) ← pull_send s 3 100; Some (on_lost s 0 3)).

Lemma sample_send_reachable : send_reachable 9 ([10; 11; 12; 13; 14], [(3, 2)], sample_send).
Proof.
  eapply rtc_l; [apply (step_write [] [] (new_send 9) [10; 11; 12; 13; 14] true); by left|].
  eapply rtc_l; [apply (step_pull _ _ _ 3 100); [lia|lia|reflexivity]|].
  eapply rtc_l; [apply (step_pull _ _ _ 3 100); [lia|lia|reflexivity]|].
  eapply rtc_l; [|apply rtc_refl]. apply (step_lost _ _ [(3, 2)] _ 0 3); [lia|reflexivity].
Qed.

Lemma send_half_safe_witness : exists p s', pull_send sample_send 2 0 = Some (p, s') /\ #(p_data p) <= 2.
Proof.
  destruct (send_half_safe 9 _ _ _ 2 0 sample_send_reachable ltac:(lia) ltac:(lia)) as (p & s' & H1 & H2 & _).
  exists p, s'. split; [exact H1|exact H2].
Defined.

(** Acknowledged bytes are released.  In any reachable state with
    nothing in flight and nothing to retransmit, the whole sent prefix has
    been released: no acknowledged range is stuck behind a hole; and a send
    half in the terminal state has released every byte written. *)
Theorem send_half_releases limit w fl s : send_reachable limit (w, fl, s) ->
  (fl = [] -> lost_ranges s = [] -> acked_ranges s = [] /\ send_buf_base_offset s = send_next_offset s) /\
  (send_state s = SDataRecvd -> send_buf_base_offset s = #w).
Proof.
  intros [Hi Ht]%send_reachable_ok. split; [by eapply all_acked_released|].
  rewrite <- (si_high _ _ _ Hi). done.
Qed.

Lemma send_half_releases_witness :
  let s := on_acked (on_acked (snd (default (nothing, new_send 9) (pull_send sample_send 3 0))) 3 2) 0 3 in
  acked_ranges s = [] /\ send_buf_base_offset s = send_next_offset s.
Proof.
  assert (Hr : send_reachable 9 ([10; 11; 12; 13; 14], [],
    on_acked (on_acked (snd (default (nothing, new_send 9) (pull_send sample_send 3 0))) 3 2) 0 3)).
  { eapply rtc_r; [eapply rtc_r; [eapply rtc_r; [apply sample_send_reachable|]|]|].
    - apply (step_pull _ _ _ 3 0); [lia|lia|reflexivity].
    - apply (step_ack _ _ [(0, 3)] _ 3 2); [lia|]. vm_compute. reflexivity.
    - apply (step_ack _ _ [] _ 0 3); [lia|]. reflexivity. }
  exact (proj1 (send_half_releases 9 _ _ _ Hr) eq_refl eq_refl).
Defined.

(** A FIN that first leaves on a retransmission never completes.  The
    retransmission branch marks the FIN as sent without moving [Send] to
    [DataSent]; once everything is acknowledged, no pull, acknowledgement or
    window update changes the state any more, so the send half never reaches
    [DataRecvd] and the stream is never retired. *)
Theorem fin_on_retransmission_stuck s o n mb mf lim :
  send_state s = Send -> send_fin_sent s = true -> lost_ranges s = [] ->
  send_next_offset s = send_high_water s -> 0 < mb -> 0 <= mf ->
  pull_send s mb mf = Some (nothing, s) /\
  send_state (on_acked s o n) = Send /\ send_fin_sent (on_acked s o n) = true /\
  send_state (set_send_limit s lim) = Send.
Proof.
  intros Hs Hf Hl Hn Hmb Hmf. assert (Hfin : fin_only s = (nothing, s)).
  { unfold fin_only. rewrite Hf, andb_false_r. done. }
  assert (Hadv : forall s0, send_state s0 = Send -> try_advance_send_state_after_ack s0 = s0).
  { intros s0 H0. unfold try_advance_send_state_after_ack. by rewrite decide_False by congruence. }
  split_and!.
  - unfold pull_send. rewrite (proj2 (Z.eqb_neq _ _)), Hl by lia. unfold pull_fresh. rewrite Hfin.
    destruct (Z.leb_spec (send_limit s) (send_next_offset s)); [done|]. cbv zeta.
    by rewrite (proj2 (Z.eqb_eq _ 0)) by lia.
  - unfold on_acked. repeat case_match; rewrite ?Hadv by done; done.
  - unfold on_acked. repeat case_match; rewrite ?Hadv by done; done.
  - unfold set_send_limit. by case_match.
Qed.

(** The run that gets there: two bytes are sent and lost, the FIN is queued
    afterwards, and the retransmission carries it and is acknowledged. *)
Definition stuck_run : option (Pulled * SendSide) :=
  '(_, s) ← pull_send (write (new_send 9) [1; 2] false) 10 10;
  '(p, s) ← pull_send (write (on_lost s 0 2) [] true) 10 10;
  Some (p, on_acked s 0 2).

Lemma fin_on_retransmission_stuck_witness :
  exists p s, stuck_run = Some (p, s) /\ p_fin p = true /\ send_fin_acked s = true /\
    send_buf_base_offset s = send_high_water s /\ pull_send s 10 10 = Some (nothing, s) /\ send_state s = Send.
Proof.
  eexists _, _. split; [reflexivity|].
  split; [reflexivity|]. split; [reflexivity|]. split; [reflexivity|]. split; [|reflexivity].
  apply (fin_on_retransmission_stuck _ 0 0 10 10 0); reflexivity || lia.
Defined.

(** The acknowledgement of a data packet is taken for the
    acknowledgement of the FIN.  When the FIN travels alone behind the data,
    an acknowledgement that covers only the data marks the FIN acknowledged
    and the send half reaches its terminal state although the packet with
    the FIN is still in flight. *)
Theorem fin_acked_by_data limit w s o n :
  send_reachable limit (w, [(o, n)], s) -> 0 < n ->
  send_state s = DataSent -> send_fin_sent s = true -> lost_ranges s = [] ->
  send_next_offset s = send_high_water s -> o + n = send_high_water s ->
  send_state (on_acked s o n) = SDataRecvd.
Proof.
  intros [Hi _]%send_reachable_ok Hn Hst Hfin Hlost Hnext Hend.
  pose proof (on_acked_inv w _ s Hi o n [] Hn (Permutation_refl _)) as Hi'.
  assert (Hx : exists s1, on_acked s o n = try_advance_send_state_after_ack s1 /\ send_state s1 = DataSent /\
    send_fin_acked s1 = true /\ lost_ranges s1 = [] /\ send_next_offset s1 = send_high_water s1).
  { unfold on_acked. rewrite (proj2 (Z.eqb_neq n 0)) by lia. destruct (drain _ _ _) as [[head base] acked].
    eexists. split; [reflexivity|]. simpl. rewrite Hfin, (proj2 (Z.leb_le _ _)) by lia. done. }
  destruct Hx as (s1 & Hs1 & Hst1 & Hfa & Hl1 & Hn1). rewrite Hs1 in *.
  destruct (try_advance_fields s1) as (E1 & E2 & E3 & E4 & E5 & E6 & E7 & _).
  destruct (all_acked_released w [] _ Hi') as [_ Hb]; [done|by rewrite E7|].
  destruct Hi' as [_ _ H3 H4 H5 _ _ _ _]. rewrite E1, E2, E3, E4, E6 in *.
  apply (f_equal length) in H5. rewrite !length_drop in H5.
  unfold try_advance_send_state_after_ack. rewrite decide_True, Hfa, andb_true_r by done.
  by rewrite (proj2 (Nat.eqb_eq _ _)) by lia.
Qed.

(** Data sent without FIN, then a FIN-only frame; the data is acknowledged. *)
Definition fin_alone : SendSide :=
  default (new_send 9) ('(_, s) ← pull_send (write (new_send 9) [1; 2] false) 10 10;
                        '(_, s) ← pull_send (write s [] true) 10 10; Some s).

Lemma fin_acked_by_data_witness : send_state (on_acked fin_alone 0 2) = SDataRecvd.
Proof.
  apply (fin_acked_by_data 9 ([] ++ [1; 2] ++ []) fin_alone 0 2); try reflexivity.
  eapply rtc_l; [apply (step_write [] [] (new_send 9) [1; 2] false); by left|].
  eapply rtc_l; [apply (step_pull _ _ _ 10 10); [lia|lia|reflexivity]|].
  eapply rtc_l; [apply (step_write _ _ _ [] true); by right|].
  eapply rtc_l; [apply (step_pull _ _ _ 10 10); [lia|lia|reflexivity]|]. apply rtc_refl.
Defined.
