(* ===== verification/QuicStreamShape.v ===== *)
(** * QUIC streams: the receive half against a hostile peer

    [stream_reassembly] speaks of a peer whose chunks agree with each other.
    What the receive half keeps does not depend on the bytes themselves, only
    on their positions: replacing every byte by its position commutes with
    every operation.  So the bookkeeping (disjoint chunks between the read
    offset and the high-water mark) is right for any peer, also one that
    sends different bytes for the same position. *)
From S2P Require Import Prelude QuicStream.

Local Open Scope Z_scope.

(** The positions of [n] bytes from [o] on. *)
Definition positions (o : Z) (n : nat) : bytes := (fun i => o + Z.of_nat i) <$> seq 0 n.

Lemma positions_length o n : length (positions o n) = n.
Proof. unfold positions. by rewrite length_fmap, length_seq. Qed.

Lemma positions_genuine o n : genuine (fun p => p) o (positions o n).
Proof. apply genuine_intro. by rewrite positions_length. Qed.

Lemma positions_app o n m : positions o (n + m) = positions o n ++ positions (o + Z.of_nat n) m.
Proof.
  unfold positions. rewrite seq_app, fmap_app. f_equal. replace (seq (0 + n) m) with (Nat.add n <$> seq 0 m) by (rewrite fmap_add_seq; f_equal; lia).
  rewrite <- list_fmap_compose. apply list_fmap_ext. intros i x _. cbn. lia.
Qed.

Lemma positions_drop o n k : (k <= n)%nat -> drop k (positions o n) = positions (o + Z.of_nat k) (n - k).
Proof. intros H. replace n with (k + (n - k))%nat at 1 by lia. rewrite positions_app, drop_app_length' by by rewrite positions_length. done. Qed.

Definition relabel_chunk (ck : Z * bytes) : Z * bytes := (ck.1, positions ck.1 (length ck.2)).
Definition relabel : list (Z * bytes) -> list (Z * bytes) := fmap relabel_chunk.
Definition relabel_side (s : RecvSide) : RecvSide := set_chunks s (relabel (recv_chunks s)).

Lemma chunk_end_relabel o (d : bytes) : chunk_end o (positions o (length d)) = chunk_end o d.
Proof. unfold chunk_end. by rewrite positions_length. Qed.

(** ** Every operation commutes with the relabelling *)

Lemma merge_forward_relabel o after : forall d, merge_forward o (positions o (length d)) (relabel after) = relabel (merge_forward o d after).
Proof.
  induction after as [|[k e] after IH]; intros d; cbn [merge_forward relabel fmap list_fmap relabel_chunk fst snd]; [done|].
  rewrite !chunk_end_relabel, positions_length. destruct (Z.leb_spec k (chunk_end o d)) as [Hk|]; [|done]. cbv zeta.
  destruct (Z.ltb_spec (chunk_end o d) (chunk_end k e)) as [Hlt|]; [|apply IH]. unfold chunk_end in *.
  rewrite positions_drop by lia. set (j := (length e - Z.to_nat (k + #e - (o + #d)))%nat).
  replace (k + Z.of_nat j) with (o + #d) by lia. rewrite <- positions_app. replace (length d + (length e - j))%nat with (length (d ++ drop j e)) by (rewrite length_app, length_drop; lia). apply IH.
Qed.

Lemma lower_bound_relabel off c : lower_bound off (relabel c) = (relabel (lower_bound off c).1, relabel (lower_bound off c).2).
Proof.
  induction c as [|[k d] c IH]; [done|]. cbn [lower_bound relabel fmap list_fmap relabel_chunk fst snd]. destruct (k <? off); [|done].
  change (list_fmap _ _ relabel_chunk c) with (relabel c). rewrite IH. by destruct (lower_bound off c).
Qed.

Lemma rev_relabel b : rev (relabel b) = relabel (rev b).
Proof. induction b as [|x b IH]; [done|]. cbn [rev relabel fmap list_fmap]. change (list_fmap _ _ relabel_chunk b) with (relabel b). rewrite IH. unfold relabel. by rewrite fmap_app. Qed.

Lemma split_last_relabel b : split_last (relabel b) = (fun x => (relabel x.1, relabel_chunk x.2)) <$> split_last b.
Proof.
  unfold split_last. rewrite rev_relabel. destruct (rev b) as [|x r]; [done|]. cbn [relabel fmap list_fmap option_fmap option_map fst snd].
  change (list_fmap _ _ relabel_chunk r) with (relabel r). by rewrite rev_relabel.
Qed.

Lemma emplace_chunk_relabel b a o d : emplace_chunk (relabel b) (relabel a) o (positions o (length d)) = relabel (emplace_chunk b a o d).
Proof.
  unfold emplace_chunk. destruct a as [|[k e] a].
  - pose proof (merge_forward_relabel o [] d) as H. cbn [relabel fmap list_fmap] in *. rewrite H. unfold relabel. by rewrite fmap_app.
  - cbn [relabel fmap list_fmap relabel_chunk fst snd]. destruct (k =? o).
    + change (list_fmap _ _ relabel_chunk a) with (relabel a). rewrite merge_forward_relabel. unfold relabel. by rewrite fmap_app.
    + etrans; [|unfold relabel; by rewrite fmap_app]. f_equal. exact (merge_forward_relabel o ((k, e) :: a) d).
Qed.

Lemma insert_chunk_relabel c o d : insert_chunk (relabel c) o (positions o (length d)) = relabel (insert_chunk c o d).
Proof.
  unfold insert_chunk. rewrite lower_bound_relabel. destruct (lower_bound o c) as [b a]. cbn [fst snd]. rewrite split_last_relabel.
  destruct (split_last b) as [[init [po pd]]|]; cbn [fmap option_fmap option_map fst snd relabel_chunk]; [|apply emplace_chunk_relabel].
  rewrite chunk_end_relabel, positions_length. cbv zeta. destruct (Z.leb_spec o (chunk_end po pd)) as [Hle|]; [|apply emplace_chunk_relabel].
  destruct (Z.leb_spec (o + #d) (chunk_end po pd)) as [|Hgt]; [done|]. unfold chunk_end in *. rewrite positions_drop by lia.
  set (j := Z.to_nat (po + #pd - o)). replace (o + Z.of_nat j) with (po + #pd) by lia. rewrite <- positions_app.
  replace (length pd + (length d - j))%nat with (length (pd ++ drop j d)) by (rewrite length_app, length_drop; lia).
  rewrite merge_forward_relabel. unfold relabel. by rewrite fmap_app.
Qed.

Lemma settle_relabel s : settle (relabel_side s) = relabel_side (settle s).
Proof.
  destruct s as [c r hw lim fs err st]. unfold settle, relabel_side. cbn [recv_final_size set_chunks]. destruct fs as [fs|]; [|done]. cbn [recv_state set_chunks].
  destruct (decide (st = Recv)); cbn [recv_chunks set_recv_state set_chunks recv_read_offset]; destruct c as [|[k d] rest];
    cbn [relabel fmap list_fmap relabel_chunk fst snd]; rewrite ?chunk_end_relabel; try (by destruct (_ =? _));
    change (list_fmap _ _ relabel_chunk rest) with (relabel rest); unfold relabel; rewrite length_fmap; by destruct (_ && _).
Qed.

Lemma trim_relabel r o (d : bytes) : 0 <= r ->
  let '(o', d') := trim_consumed r o d in (length d' = 0%nat \/ trim_consumed r o (positions o (length d)) = (o', positions o' (length d'))) /\
  (length d' = 0%nat -> (trim_consumed r o (positions o (length d))).2 = []).
Proof.
  intros Hr. unfold trim_consumed. destruct (Z.ltb_spec o r) as [Hlt|]; [|split; [by right|]; by destruct d].
  rewrite length_drop. destruct (decide (length d <= Z.to_nat (r - o))%nat) as [Hle|Hgt].
  - split; [left; lia|]. intros _. cbn. apply drop_ge. by rewrite positions_length.
  - split; [|lia]. right. rewrite positions_drop by lia. f_equal. f_equal. lia.
Qed.

Lemma deliver_relabel s o d fin : 0 <= recv_read_offset s ->
  deliver (relabel_side s) o (positions o (length d)) fin = relabel_side <$> deliver s o d fin.
Proof.
  intros Hr. unfold deliver. change (recv_state (relabel_side s)) with (recv_state s). case_decide; [done|]. rewrite positions_length. cbv zeta.
  change (recv_limit (relabel_side s)) with (recv_limit s). change (recv_final_size (relabel_side s)) with (recv_final_size s).
  change (recv_high_water (relabel_side s)) with (recv_high_water s). change (recv_read_offset (relabel_side s)) with (recv_read_offset s).
  destruct (_ <? _); [done|]. destruct (match recv_final_size s with Some _ => _ | None => false end); [done|].
  pose proof (trim_relabel (recv_read_offset s) o d Hr) as Ht. destruct (trim_consumed (recv_read_offset s) o d) as [o' d']. destruct Ht as [Ht Hn].
  destruct (trim_consumed (recv_read_offset s) o (positions o (length d))) as [o2 d2]. cbn [snd] in Hn. cbn [fmap option_fmap option_map]. rewrite <- settle_relabel. do 2 f_equal.
  unfold relabel_side. cbn [recv_chunks set_chunks reset_error recv_state recv_high_water recv_read_offset recv_limit recv_final_size]. f_equal.
  destruct d' as [|x d']; [by rewrite Hn|]. destruct Ht as [|[= -> ->]]; [done|]. rewrite <- insert_chunk_relabel. done.
Qed.

Lemma reset_relabel s fs err : reset_recvd (relabel_side s) fs err = relabel_side <$> reset_recvd s fs err.
Proof.
  unfold reset_recvd. change (recv_final_size (relabel_side s)) with (recv_final_size s). destruct (match recv_final_size s with Some _ => _ | None => false end); [done|].
  change (recv_limit (relabel_side s)) with (recv_limit s). by destruct (_ <? _).
Qed.

Lemma read_relabel s : (read_contiguous (relabel_side s)).2 = relabel_side (read_contiguous s).2 /\ length (read_contiguous (relabel_side s)).1.1 = length (read_contiguous s).1.1.
Proof.
  unfold read_contiguous. destruct s as [c r hw lim fs err st]. unfold relabel_side. cbn [recv_chunks set_chunks recv_final_size recv_read_offset].
  destruct c as [|[k d] rest]; cbn [relabel fmap list_fmap relabel_chunk fst snd]; [by destruct (match fs with Some _ => _ | None => false end)|].
  rewrite positions_length. destruct (k =? r); [|done]. destruct (match fs with Some _ => _ | None => false end); cbn; by rewrite positions_length.
Qed.

(** ** The bookkeeping is right for any peer *)

Definition recv_sane (s : RecvSide) : Prop := recv_inv (fun p => p) (relabel_side s).

Lemma sane_new n : 0 <= n < 2 ^ 63 -> recv_sane (new_recv n).
Proof. apply new_recv_inv. Qed.

Lemma sane_bounds s : recv_sane s -> 0 <= recv_read_offset s <= recv_high_water s /\ recv_high_water s <= recv_limit s < 2 ^ 63.
Proof. intros [_ H1 _ H2]. by split. Qed.

Lemma sane_deliver s o d fin s' : recv_sane s -> 0 <= o -> o + #d < 2 ^ 63 -> deliver s o d fin = Some s' -> recv_sane s'.
Proof.
  intros Hs Ho Hl E. pose proof (deliver_relabel s o d fin ltac:(apply (sane_bounds s Hs))) as Hr. rewrite E in Hr. cbn [fmap option_fmap option_map] in Hr.
  apply (deliver_spec (fun p => p)) in Hr as [H _]; [done|done|apply positions_genuine|done|by rewrite positions_length].
Qed.

Lemma sane_reset s fs err s' : recv_sane s -> reset_recvd s fs err = Some s' -> recv_sane s'.
Proof.
  intros Hs E. pose proof (reset_relabel s fs err) as Hr. rewrite E in Hr. by apply (reset_recvd_inv (fun p => p)) in Hr as [H _].
Qed.

Lemma sane_read s : recv_sane s -> recv_sane (read_contiguous s).2 /\ recv_read_offset (read_contiguous s).2 = recv_read_offset s + #((read_contiguous s).1.1).
Proof.
  intros Hs. destruct (read_relabel s) as [H1 H2]. destruct (read_contiguous (relabel_side s)) as [[out fin] s'] eqn:E. cbn [fst snd] in *.
  destruct (read_spec (fun p => p) _ _ _ _ Hs E) as (Hi & _ & Hr & _). rewrite H1 in Hi, Hr. split; [exact Hi|]. rewrite <- H2. exact Hr.
Qed.

(** The bytes held for the application. *)
Definition buffered (s : RecvSide) : Z := foldr (fun ck n => #(ck.2) + n) 0 (recv_chunks s).

Lemma relabel_holds k (d : bytes) c p : holds (relabel ((k, d) :: c)) p <-> k <= p < k + #d \/ holds (relabel c) p.
Proof. change (relabel ((k, d) :: c)) with ((k, positions k (length d)) :: relabel c). rewrite holds_cons, chunk_end_relabel. done. Qed.

Lemma chunks_fit c : forall l B, chunks_ok (fun p => p) l (relabel c) -> (forall p, holds (relabel c) p -> p < B) -> l <= B ->
  foldr (fun ck n => #(ck.2) + n) 0 c <= B - l.
Proof.
  induction c as [|[k d] c IH]; intros l B Hc Hh Hl; cbn [foldr snd]; [lia|]. cbn [relabel fmap list_fmap relabel_chunk fst snd chunks_ok] in Hc. destruct Hc as (Hk & Hd & _ & Hc).
  rewrite chunk_end_relabel in Hc. assert (Hne : (0 < length d)%nat) by (destruct d; [done|cbn; lia]). unfold chunk_end in *.
  assert (HB : k + #d <= B).
  { specialize (Hh (k + #d - 1)). assert (k + #d - 1 < B); [|lia]. apply Hh. apply relabel_holds. lia. }
  destruct (decide (k + #d + 1 <= B)) as [Hle|Hgt].
  - specialize (IH (k + #d + 1) B Hc ltac:(intros p Hp; apply Hh; apply relabel_holds; by right) Hle). lia.
  - assert (c = []) as ->; [|cbn; lia]. destruct c as [|[k2 d2] c]; [done|]. exfalso. cbn [relabel fmap list_fmap relabel_chunk fst snd chunks_ok] in Hc. destruct Hc as (Hk2 & Hd2 & _).
    assert (Hne2 : (0 < length d2)%nat) by (destruct d2; [done|cbn; lia]).
    assert (k2 < B); [|lia]. apply Hh. rewrite !relabel_holds. lia.
Qed.

(** What is held lies between the read offset and the high-water mark. *)
Lemma sane_buffered s : recv_sane s -> 0 <= buffered s <= recv_high_water s - recv_read_offset s.
Proof.
  intros [H1 H2 H3 _]. unfold buffered. split; [|apply chunks_fit; [exact H1|exact H3|apply H2]].
  generalize (recv_chunks s) as c. induction c as [|ck c IH]; cbn [foldr]; lia.
Qed.
