(* ===== verification/TransportParams.v ===== *)
(** * QUIC transport parameters (RFC 9000 section 18)

    Model of example/quic-http3/src/quic/transport_params.cpp, .hpp: the
    parameter record with its RFC defaults, [encode_transport_params] and
    [decode_transport_params] (a loop over (id, length, value) triples with a
    set of the ids seen). *)
From S2P Require Import Prelude VarInt QuicFrame.

Local Open Scope Z_scope.

(** ** Data *)

Inductive TransportParamId :=
| OriginalDestinationConnectionId | MaxIdleTimeout | StatelessResetToken | MaxUdpPayloadSize
| InitialMaxData | InitialMaxStreamDataBidiLocal | InitialMaxStreamDataBidiRemote
| InitialMaxStreamDataUni | InitialMaxStreamsBidi | InitialMaxStreamsUni | AckDelayExponent
| MaxAckDelay | DisableActiveMigration | ActiveConnectionIdLimit | InitialSourceConnectionId
| RetrySourceConnectionId.

Definition param_code (p : TransportParamId) : Z :=
  match p with
  | OriginalDestinationConnectionId => 0x00 | MaxIdleTimeout => 0x01 | StatelessResetToken => 0x02
  | MaxUdpPayloadSize => 0x03 | InitialMaxData => 0x04 | InitialMaxStreamDataBidiLocal => 0x05
  | InitialMaxStreamDataBidiRemote => 0x06 | InitialMaxStreamDataUni => 0x07
  | InitialMaxStreamsBidi => 0x08 | InitialMaxStreamsUni => 0x09 | AckDelayExponent => 0x0a
  | MaxAckDelay => 0x0b | DisableActiveMigration => 0x0c | ActiveConnectionIdLimit => 0x0e
  | InitialSourceConnectionId => 0x0f | RetrySourceConnectionId => 0x10
  end.

Definition all_params : list TransportParamId :=
  [OriginalDestinationConnectionId; InitialSourceConnectionId; RetrySourceConnectionId; StatelessResetToken;
   MaxIdleTimeout; MaxUdpPayloadSize; InitialMaxData; InitialMaxStreamDataBidiLocal;
   InitialMaxStreamDataBidiRemote; InitialMaxStreamDataUni; InitialMaxStreamsBidi; InitialMaxStreamsUni;
   AckDelayExponent; MaxAckDelay; ActiveConnectionIdLimit; DisableActiveMigration].

Record TransportParameters := mkTp {
  original_destination_connection_id : option bytes;
  initial_source_connection_id : option bytes;
  retry_source_connection_id : option bytes;
  stateless_reset_token : option bytes;
  max_idle_timeout_ms : Z;
  max_udp_payload_size : Z;
  initial_max_data : Z;
  initial_max_stream_data_bidi_local : Z;
  initial_max_stream_data_bidi_remote : Z;
  initial_max_stream_data_uni : Z;
  initial_max_streams_bidi : Z;
  initial_max_streams_uni : Z;
  ack_delay_exponent : Z;
  max_ack_delay_ms : Z;
  active_connection_id_limit : Z;
  disable_active_migration : bool;
  unknown : list (Z * bytes) }.

Definition default_tp : TransportParameters :=
  mkTp None None None None 0 65527 0 0 0 0 0 0 3 25 2 false [].

(** ** Encoding *)

Definition append_param (out : bytes) (id : Z) (value : bytes) : option bytes :=
  out ← VarInt.append out id;
  out ← VarInt.append out (#value);
  Some (out ++ value).

Definition append_varint_param (out : bytes) (id value : Z) : option bytes :=
  v ← VarInt.append [] value;
  append_param out id v.

Definition append_empty_param (out : bytes) (id : Z) : option bytes :=
  out ← VarInt.append out id;
  VarInt.append out 0.

(** [if (tp.x) append_param(...)] for an optional byte string. *)
Definition append_opt (out : bytes) (p : TransportParamId) (v : option bytes) : option bytes :=
  match v with Some v => append_param out (param_code p) v | None => Some out end.

(** [if (tp.x != dflt) append_varint_param(...)] *)
Definition append_num (out : bytes) (p : TransportParamId) (dflt v : Z) : option bytes :=
  if v =? dflt then Some out else append_varint_param out (param_code p) v.

Fixpoint append_unknown (out : bytes) (us : list (Z * bytes)) : option bytes :=
  match us with
  | [] => Some out
  | (id, v) :: us => out ← append_param out id v; append_unknown out us
  end.

Definition encode_transport_params (tp : TransportParameters) : option bytes :=
  out ← append_opt [] OriginalDestinationConnectionId (original_destination_connection_id tp);
  out ← append_opt out InitialSourceConnectionId (initial_source_connection_id tp);
  out ← append_opt out RetrySourceConnectionId (retry_source_connection_id tp);
  out ← append_opt out StatelessResetToken (stateless_reset_token tp);
  out ← append_num out MaxIdleTimeout 0 (max_idle_timeout_ms tp);
  out ← append_num out MaxUdpPayloadSize 65527 (max_udp_payload_size tp);
  out ← append_num out InitialMaxData 0 (initial_max_data tp);
  out ← append_num out InitialMaxStreamDataBidiLocal 0 (initial_max_stream_data_bidi_local tp);
  out ← append_num out InitialMaxStreamDataBidiRemote 0 (initial_max_stream_data_bidi_remote tp);
  out ← append_num out InitialMaxStreamDataUni 0 (initial_max_stream_data_uni tp);
  out ← append_num out InitialMaxStreamsBidi 0 (initial_max_streams_bidi tp);
  out ← append_num out InitialMaxStreamsUni 0 (initial_max_streams_uni tp);
  out ← append_num out AckDelayExponent 3 (ack_delay_exponent tp);
  out ← append_num out MaxAckDelay 25 (max_ack_delay_ms tp);
  out ← append_num out ActiveConnectionIdLimit 2 (active_connection_id_limit tp);
  out ← (if disable_active_migration tp then append_empty_param out (param_code DisableActiveMigration) else Some out);
  append_unknown out (unknown tp).

(** ** Decoding *)

Definition kMaxCidLen : nat := 20.

Definition read_varint_value (value : bytes) : option Z :=
  '(v, off) ← VarInt.decode value 0;
  if (off =? length value)%nat then Some v else None.

(** [static_cast<TransportParamId>(id)] as the [switch] sees it. *)
Definition param_of_code (id : Z) : option TransportParamId :=
  find (fun p => param_code p =? id) all_params.

Definition set_num (tp : TransportParameters) (p : TransportParamId) (v : Z) : TransportParameters :=
  let '(mkTp a b c d e1 e2 e3 e4 e5 e6 e7 e8 e9 e10 e11 f u) := tp in
  match p with
  | MaxIdleTimeout => mkTp a b c d v e2 e3 e4 e5 e6 e7 e8 e9 e10 e11 f u
  | MaxUdpPayloadSize => mkTp a b c d e1 v e3 e4 e5 e6 e7 e8 e9 e10 e11 f u
  | InitialMaxData => mkTp a b c d e1 e2 v e4 e5 e6 e7 e8 e9 e10 e11 f u
  | InitialMaxStreamDataBidiLocal => mkTp a b c d e1 e2 e3 v e5 e6 e7 e8 e9 e10 e11 f u
  | InitialMaxStreamDataBidiRemote => mkTp a b c d e1 e2 e3 e4 v e6 e7 e8 e9 e10 e11 f u
  | InitialMaxStreamDataUni => mkTp a b c d e1 e2 e3 e4 e5 v e7 e8 e9 e10 e11 f u
  | InitialMaxStreamsBidi => mkTp a b c d e1 e2 e3 e4 e5 e6 v e8 e9 e10 e11 f u
  | InitialMaxStreamsUni => mkTp a b c d e1 e2 e3 e4 e5 e6 e7 v e9 e10 e11 f u
  | AckDelayExponent => mkTp a b c d e1 e2 e3 e4 e5 e6 e7 e8 v e10 e11 f u
  | MaxAckDelay => mkTp a b c d e1 e2 e3 e4 e5 e6 e7 e8 e9 v e11 f u
  | ActiveConnectionIdLimit => mkTp a b c d e1 e2 e3 e4 e5 e6 e7 e8 e9 e10 v f u
  | _ => tp
  end.

(** The [switch] of [decode_transport_params]; [None] is [return false]. *)
Definition apply_param (tp : TransportParameters) (id : Z) (value : bytes) : option TransportParameters :=
  let '(mkTp a b c d e1 e2 e3 e4 e5 e6 e7 e8 e9 e10 e11 f u) := tp in
  match param_of_code id with
  | Some OriginalDestinationConnectionId =>
      if (kMaxCidLen <? length value)%nat then None
      else Some (mkTp (Some value) b c d e1 e2 e3 e4 e5 e6 e7 e8 e9 e10 e11 f u)
  | Some InitialSourceConnectionId =>
      if (kMaxCidLen <? length value)%nat then None
      else Some (mkTp a (Some value) c d e1 e2 e3 e4 e5 e6 e7 e8 e9 e10 e11 f u)
  | Some RetrySourceConnectionId =>
      if (kMaxCidLen <? length value)%nat then None
      else Some (mkTp a b (Some value) d e1 e2 e3 e4 e5 e6 e7 e8 e9 e10 e11 f u)
  | Some StatelessResetToken =>
      if (length value =? 16)%nat then Some (mkTp a b c (Some value) e1 e2 e3 e4 e5 e6 e7 e8 e9 e10 e11 f u)
      else None
  | Some DisableActiveMigration =>
      if (length value =? 0)%nat then Some (mkTp a b c d e1 e2 e3 e4 e5 e6 e7 e8 e9 e10 e11 true u) else None
  | Some p => v ← read_varint_value value; Some (set_num tp p v)
  | None => Some (mkTp a b c d e1 e2 e3 e4 e5 e6 e7 e8 e9 e10 e11 f (u ++ [(id, value)]))
  end.

(** One round of the loop; the state is the cursor, [seen] and [tp]. *)
Definition decode_step (wire : bytes) (st : nat * list Z * TransportParameters)
  : (nat * list Z * TransportParameters) + option TransportParameters :=
  let '(off, seen, tp) := st in
  if (off <? length wire)%nat then
    match ('(id, off) ← VarInt.decode wire off;
           '(len, off) ← VarInt.decode wire off;
           if #wire <? u64 (Z.of_nat off + len) then None else
           if bool_decide (id ∈ seen) then None else
           let value := take (Z.to_nat len) (drop off wire) in
           tp ← apply_param tp id value;
           Some ((off + Z.to_nat len)%nat, id :: seen, tp)) with
    | Some st' => inl st'
    | None => inr None
    end
  else inr (Some tp).

Definition decode_transport_params (wire : bytes) (tp : TransportParameters) : option (option TransportParameters) :=
  loop (decode_step wire) (S (length wire)) (0%nat, [], tp).

(** ** Specification *)

(** The parameters as (id, value) pairs, in the order they are written. *)
Definition opt_entry (p : TransportParamId) (v : option bytes) : list (Z * bytes) :=
  match v with Some v => [(param_code p, v)] | None => [] end.
Definition num_entry (p : TransportParamId) (dflt v : Z) : list (Z * bytes) :=
  if v =? dflt then [] else [(param_code p, enc v)].

Definition params_of (tp : TransportParameters) : list (Z * bytes) :=
  opt_entry OriginalDestinationConnectionId (original_destination_connection_id tp)
  ++ opt_entry InitialSourceConnectionId (initial_source_connection_id tp)
  ++ opt_entry RetrySourceConnectionId (retry_source_connection_id tp)
  ++ opt_entry StatelessResetToken (stateless_reset_token tp)
  ++ num_entry MaxIdleTimeout 0 (max_idle_timeout_ms tp)
  ++ num_entry MaxUdpPayloadSize 65527 (max_udp_payload_size tp)
  ++ num_entry InitialMaxData 0 (initial_max_data tp)
  ++ num_entry InitialMaxStreamDataBidiLocal 0 (initial_max_stream_data_bidi_local tp)
  ++ num_entry InitialMaxStreamDataBidiRemote 0 (initial_max_stream_data_bidi_remote tp)
  ++ num_entry InitialMaxStreamDataUni 0 (initial_max_stream_data_uni tp)
  ++ num_entry InitialMaxStreamsBidi 0 (initial_max_streams_bidi tp)
  ++ num_entry InitialMaxStreamsUni 0 (initial_max_streams_uni tp)
  ++ num_entry AckDelayExponent 3 (ack_delay_exponent tp)
  ++ num_entry MaxAckDelay 25 (max_ack_delay_ms tp)
  ++ num_entry ActiveConnectionIdLimit 2 (active_connection_id_limit tp)
  ++ (if disable_active_migration tp then [(param_code DisableActiveMigration, [])] else [])
  ++ unknown tp.

Fixpoint wire_of (ps : list (Z * bytes)) : bytes :=
  match ps with
  | [] => []
  | (id, v) :: ps => enc id ++ enc (#v) ++ v ++ wire_of ps
  end.

Definition cid_ok (v : option bytes) : Prop := match v with Some v => (length v <= 20)%nat | None => True end.

Record tp_wf (tp : TransportParameters) : Prop := {
  wf_odcid : cid_ok (original_destination_connection_id tp);
  wf_iscid : cid_ok (initial_source_connection_id tp);
  wf_rscid : cid_ok (retry_source_connection_id tp);
  wf_token : match stateless_reset_token tp with Some t => length t = 16%nat | None => True end;
  wf_nums : Forall varint_ok [max_idle_timeout_ms tp; max_udp_payload_size tp; initial_max_data tp;
    initial_max_stream_data_bidi_local tp; initial_max_stream_data_bidi_remote tp; initial_max_stream_data_uni tp;
    initial_max_streams_bidi tp; initial_max_streams_uni tp; ack_delay_exponent tp; max_ack_delay_ms tp;
    active_connection_id_limit tp];
  wf_unknown : Forall (fun x => varint_ok x.1 /\ varint_ok (#(x.2)) /\ param_of_code x.1 = None) (unknown tp);
  wf_distinct : NoDup (unknown tp).*1 }.

Definition entry_ok (x : Z * bytes) : Prop := varint_ok x.1 /\ varint_ok (#(x.2)).

Fixpoint apply_all (tp : TransportParameters) (ps : list (Z * bytes)) : option TransportParameters :=
  match ps with
  | [] => Some tp
  | (id, v) :: ps => tp ← apply_param tp id v; apply_all tp ps
  end.

(** ** Lemmas *)

Lemma wire_of_app ps qs : wire_of (ps ++ qs) = wire_of ps ++ wire_of qs.
Proof. induction ps as [|[id v] ps IH]; simpl; [done|]. by rewrite IH, <- !app_assoc. Qed.

Lemma append_param_ok out id v : varint_ok id -> varint_ok (#v) ->
  append_param out id v = Some (out ++ wire_of [(id, v)]).
Proof. intros. unfold append_param. repeat encode_step. simpl. by rewrite app_nil_r, <- !app_assoc. Qed.

Lemma param_code_ok p : varint_ok (param_code p).
Proof. destruct p; vm_compute; split; discriminate. Qed.

Lemma small_ok n : (n <= 1000)%nat -> varint_ok (Z.of_nat n).
Proof. intros. unfold varint_ok. change kMax with (2 ^ 62 - 1). lia. Qed.

Lemma append_opt_ok out p v : (forall x, v = Some x -> (length x <= 20)%nat) ->
  append_opt out p v = Some (out ++ wire_of (opt_entry p v)).
Proof.
  intros H. destruct v as [v|]; simpl; [|by rewrite app_nil_r]. specialize (H v eq_refl).
  rewrite append_param_ok; [done|apply param_code_ok|apply small_ok; lia].
Qed.

Lemma append_num_ok out p d v : varint_ok v -> append_num out p d v = Some (out ++ wire_of (num_entry p d v)).
Proof.
  intros H. unfold append_num, num_entry. case_match; [by rewrite app_nil_r|].
  unfold append_varint_param. rewrite append_ok by done. cbn [mbind option_bind app].
  pose proof (enc_length_pos v H). apply append_param_ok; [apply param_code_ok|apply small_ok; lia].
Qed.

Lemma append_unknown_ok us : forall out, Forall entry_ok us ->
  append_unknown out us = Some (out ++ wire_of us).
Proof.
  induction us as [|[id v] us IH]; intros out H; simpl; [by rewrite app_nil_r|].
  inversion H as [|? ? [? ?]]; subst. rewrite append_param_ok by done. cbn [mbind option_bind].
  rewrite IH by done. simpl. by rewrite app_nil_r, <- !app_assoc.
Qed.

Lemma encode_tp_ok tp : tp_wf tp -> encode_transport_params tp = Some (wire_of (params_of tp)).
Proof.
  intros [H1 H2 H3 H4 H5 H6 _].
  assert (Hc : forall v, cid_ok v -> forall x, v = Some x -> (length x <= 20)%nat) by (intros ? ? ? ->; done).
  repeat match goal with H : Forall varint_ok (_ :: _) |- _ => inversion H; clear H; subst end.
  unfold encode_transport_params, params_of. rewrite !wire_of_app.
  rewrite (append_opt_ok [] OriginalDestinationConnectionId) by (by apply Hc). cbn [mbind option_bind].
  rewrite append_opt_ok by (by apply Hc). cbn [mbind option_bind]. rewrite append_opt_ok by (by apply Hc). cbn [mbind option_bind].
  rewrite append_opt_ok by (intros x Hx; rewrite Hx in H4; lia). cbn [mbind option_bind].
  do 11 (rewrite append_num_ok by done; cbn [mbind option_bind]).
  assert (Hd : forall out, (if disable_active_migration tp
      then append_empty_param out (param_code DisableActiveMigration) else Some out) =
    Some (out ++ wire_of (if disable_active_migration tp then [(param_code DisableActiveMigration, [])] else []))).
  { intros out. destruct (disable_active_migration tp); [|by rewrite app_nil_r].
    unfold append_empty_param. rewrite append_ok by apply param_code_ok. cbn [mbind option_bind].
    rewrite append_ok by (vm_compute; split; discriminate). simpl. by rewrite <- !app_assoc. }
  rewrite Hd. cbn [mbind option_bind]. rewrite append_unknown_ok.
  - f_equal. rewrite <- !app_assoc. simpl. done.
  - eapply Forall_impl; [exact H6|]. intros x (? & ? & _). done.
Qed.

(** Reading the image of a list of entries applies them in order. *)
Lemma decode_run wire ps : forall off seen tp tp' fuel,
  size_ok wire -> Forall entry_ok ps -> NoDup ps.*1 -> (forall x, x ∈ ps.*1 -> x ∉ seen) ->
  apply_all tp ps = Some tp' -> at_cursor wire off (wire_of ps) -> (length (wire_of ps) < fuel)%nat ->
  loop (decode_step wire) fuel (off, seen, tp) = Some (Some tp').
Proof.
  induction ps as [|[id v] ps IH]; intros off seen tp tp' [|fuel] Hs Hok Hnd Hseen Hap Hc Hf; try lia.
  - simpl in Hap. injection Hap as <-. apply at_cursor_length in Hc. simpl in *.
    by rewrite (proj2 (Nat.ltb_ge _ _)) by lia.
  - inversion Hok as [|? ? [Hid Hv] Hok']; subst. simpl in Hid, Hv. simpl in Hnd.
    inversion Hnd as [|? ? Hni Hnd']; subst. simpl in Hap. destruct (apply_param tp id v) as [tp1|] eqn:Ea; [|done].
    pose proof (at_cursor_length _ _ _ Hc) as Hl. simpl in Hc, Hf, Hl. rewrite !length_app in Hf, Hl.
    pose proof (enc_length_pos id Hid). cbn [loop decode_step].
    rewrite (proj2 (Nat.ltb_lt _ _)) by lia. do 2 varint_step.
    pose proof (at_cursor_length _ _ _ Hc) as Hl2. rewrite length_app in Hl2. unfold size_ok in Hs.
    rewrite u64_small by (unfold u64_ok; lia). rewrite (proj2 (Z.ltb_ge _ _)) by lia.
    rewrite bool_decide_eq_false_2 by (apply Hseen; left). rewrite Nat2Z.id.
    pose proof Hc as [_ Hd]. rewrite Hd, take_app_length, Ea. cbn [mbind option_bind].
    apply IH; try done; [|by apply at_cursor_app|lia].
    intros x Hx [->|Hin]%elem_of_cons; [done|]. apply (Hseen x); [by right|done].
Qed.

Lemma read_varint_value_enc v : varint_ok v -> read_varint_value (enc v) = Some v.
Proof.
  intros H. unfold read_varint_value. rewrite (decode_at _ _ v []); [|done|split; [lia|by rewrite app_nil_r]].
  simpl. by rewrite Nat.eqb_refl.
Qed.

Lemma apply_all_app tp ps qs : apply_all tp (ps ++ qs) = tp ← apply_all tp ps; apply_all tp qs.
Proof.
  revert tp. induction ps as [|[id v] ps IH]; intros tp; simpl; [done|].
  destruct (apply_param tp id v); simpl; [apply IH|done].
Qed.

(** A numeric field that still holds its default takes the written value. *)
Lemma apply_num_entry tp p d v : varint_ok v ->
  param_of_code (param_code p) = Some p ->
  (forall w, apply_param tp (param_code p) w = x ← read_varint_value w; Some (set_num tp p x)) ->
  set_num tp p d = tp -> apply_all tp (num_entry p d v) = Some (set_num tp p v).
Proof.
  intros Hv _ Hap Hd. unfold num_entry. destruct (Z.eqb_spec v d) as [->|]; simpl; [by rewrite Hd|].
  by rewrite Hap, read_varint_value_enc.
Qed.

Lemma apply_unknown us : forall tp, Forall (fun x => param_of_code x.1 = None) us ->
  apply_all tp us = Some (let '(mkTp a b c d e1 e2 e3 e4 e5 e6 e7 e8 e9 e10 e11 f u) := tp in
    mkTp a b c d e1 e2 e3 e4 e5 e6 e7 e8 e9 e10 e11 f (u ++ us)).
Proof.
  induction us as [|[id v] us IH]; intros [] H; simpl; [by rewrite app_nil_r|].
  inversion H as [|? ? Hn H']; subst. simpl in Hn. rewrite Hn. simpl. rewrite IH by done. by rewrite <- app_assoc.
Qed.

Lemma apply_params_of tp : tp_wf tp -> apply_all default_tp (params_of tp) = Some tp.
Proof.
  intros [H1 H2 H3 H4 H5 H6 _]. destruct tp as [a b c d e1 e2 e3 e4 e5 e6 e7 e8 e9 e10 e11 f u]; simpl in *.
  repeat match goal with H : Forall varint_ok (_ :: _) |- _ => inversion H; clear H; subst end.
  assert (Hu : Forall (fun x => param_of_code x.1 = None) u).
  { eapply Forall_impl; [exact H6|]. intros x (_ & _ & ?). done. }
  unfold params_of, default_tp; simpl.
  rewrite apply_all_app. replace (apply_all _ (opt_entry OriginalDestinationConnectionId a))
    with (Some (mkTp a None None None 0 65527 0 0 0 0 0 0 3 25 2 false []))
    by (destruct a; simpl in *; [unfold kMaxCidLen; by rewrite (proj2 (Nat.ltb_ge _ _)) by lia|done]).
  cbn [mbind option_bind]. rewrite apply_all_app.
  replace (apply_all _ (opt_entry InitialSourceConnectionId b))
    with (Some (mkTp a b None None 0 65527 0 0 0 0 0 0 3 25 2 false []))
    by (destruct b; simpl in *; [unfold kMaxCidLen; by rewrite (proj2 (Nat.ltb_ge _ _)) by lia|done]).
  cbn [mbind option_bind]. rewrite apply_all_app.
  replace (apply_all _ (opt_entry RetrySourceConnectionId c))
    with (Some (mkTp a b c None 0 65527 0 0 0 0 0 0 3 25 2 false []))
    by (destruct c; simpl in *; [unfold kMaxCidLen; by rewrite (proj2 (Nat.ltb_ge _ _)) by lia|done]).
  cbn [mbind option_bind]. rewrite apply_all_app.
  replace (apply_all _ (opt_entry StatelessResetToken d))
    with (Some (mkTp a b c d 0 65527 0 0 0 0 0 0 3 25 2 false []))
    by (destruct d; simpl in *; [by rewrite H4|done]).
  cbn [mbind option_bind].
  do 11 (rewrite apply_all_app, apply_num_entry by done; cbn [mbind option_bind set_num]).
  rewrite apply_all_app.
  replace (apply_all _ (if f then _ else _)) with (Some (mkTp a b c d e1 e2 e3 e4 e5 e6 e7 e8 e9 e10 e11 f []))
    by (destruct f; done).
  cbn [mbind option_bind]. by rewrite apply_unknown.
Qed.

Lemma decode_dup wire ps : forall off seen tp fuel,
  size_ok wire -> Forall entry_ok ps -> ~ (NoDup ps.*1 /\ forall x, x ∈ ps.*1 -> x ∉ seen) ->
  at_cursor wire off (wire_of ps) -> (length (wire_of ps) < fuel)%nat ->
  loop (decode_step wire) fuel (off, seen, tp) = Some None.
Proof.
  induction ps as [|[id v] ps IH]; intros off seen tp [|fuel] Hs Hok Hdup Hc Hf; try lia.
  - destruct Hdup. split; [constructor|]. simpl. intros x Hx. by apply elem_of_nil in Hx.
  - inversion Hok as [|? ? [Hid Hv] Hok']; subst. simpl in Hid, Hv. simpl in Hdup.
    pose proof (at_cursor_length _ _ _ Hc) as Hl. simpl in Hc, Hf, Hl. rewrite !length_app in Hf, Hl.
    pose proof (enc_length_pos id Hid). cbn [loop decode_step].
    rewrite (proj2 (Nat.ltb_lt _ _)) by lia. do 2 varint_step.
    pose proof (at_cursor_length _ _ _ Hc) as Hl2. rewrite length_app in Hl2. pose proof Hs as Hs'. unfold size_ok in Hs'.
    rewrite u64_small by (unfold u64_ok; lia). rewrite (proj2 (Z.ltb_ge _ _)) by lia.
    destruct (bool_decide_reflect (id ∈ seen)) as [|Hni]; [done|]. rewrite Nat2Z.id.
    pose proof Hc as [_ Hd]. rewrite Hd, take_app_length.
    destruct (apply_param tp id v) as [tp1|]; [|done]. cbn [mbind option_bind].
    apply IH; try done; [|by apply at_cursor_app|lia].
    intros [Hnd Hx]. apply Hdup. split.
    + constructor; [|done]. intros Hin. apply (Hx id Hin). left.
    + intros x [->|Hin]%elem_of_cons; [done|]. intros Hse. apply (Hx x Hin). by right.
Qed.

Lemma opt_entry_ids p v : (opt_entry p v).*1 `sublist_of` [param_code p].
Proof. destruct v; simpl; [done|]. apply sublist_nil_l. Qed.
Lemma num_entry_ids p d v : (num_entry p d v).*1 `sublist_of` [param_code p].
Proof. unfold num_entry. case_match; simpl; [apply sublist_nil_l|done]. Qed.

Lemma params_of_ids tp : (params_of tp).*1 `sublist_of` (param_code <$> all_params) ++ (unknown tp).*1.
Proof.
  unfold params_of. rewrite !fmap_app.
  change ((param_code <$> all_params) ++ (unknown tp).*1) with
    ([param_code OriginalDestinationConnectionId] ++ [param_code InitialSourceConnectionId] ++
     [param_code RetrySourceConnectionId] ++ [param_code StatelessResetToken] ++ [param_code MaxIdleTimeout] ++
     [param_code MaxUdpPayloadSize] ++ [param_code InitialMaxData] ++ [param_code InitialMaxStreamDataBidiLocal] ++
     [param_code InitialMaxStreamDataBidiRemote] ++ [param_code InitialMaxStreamDataUni] ++
     [param_code InitialMaxStreamsBidi] ++ [param_code InitialMaxStreamsUni] ++ [param_code AckDelayExponent] ++
     [param_code MaxAckDelay] ++ [param_code ActiveConnectionIdLimit] ++ [param_code DisableActiveMigration] ++
     (unknown tp).*1).
  repeat (apply sublist_app; [first [apply opt_entry_ids|apply num_entry_ids|idtac]|]); [|done].
  destruct (disable_active_migration tp); simpl; [done|apply sublist_nil_l].
Qed.

Lemma params_of_nodup tp : tp_wf tp -> NoDup (params_of tp).*1.
Proof.
  intros [_ _ _ _ _ H6 H7]. eapply sublist_NoDup; [|apply params_of_ids]. apply NoDup_app. split_and!.
  - apply (bool_decide_unpack _). vm_compute. done.
  - intros id Hk Hu. apply list_elem_of_fmap in Hu as (x & -> & Hx). rewrite Forall_forall in H6.
    destruct (H6 x Hx) as (_ & _ & Hn). unfold param_of_code in Hn.
    apply list_elem_of_fmap in Hk as (p & Hp & Hin). apply list_elem_of_In in Hin.
    pose proof (find_none _ _ Hn p Hin) as Hf. simpl in Hf. by rewrite Hp, Z.eqb_refl in Hf.
  - done.
Qed.

Lemma params_of_ok tp : tp_wf tp -> Forall entry_ok (params_of tp).
Proof.
  intros [H1 H2 H3 H4 H5 H6 _].
  assert (Hopt : forall p v, (forall x, v = Some x -> (length x <= 20)%nat) -> Forall entry_ok (opt_entry p v)).
  { intros p [v|] Hv; simpl; [|constructor]. specialize (Hv v eq_refl). apply Forall_singleton.
    split; [apply param_code_ok|apply small_ok; simpl; lia]. }
  assert (Hnum : forall p d v, varint_ok v -> Forall entry_ok (num_entry p d v)).
  { intros p d v Hv. unfold num_entry. destruct (v =? d); [constructor|]. apply Forall_singleton.
    pose proof (enc_length_pos v Hv). split; [apply param_code_ok|apply small_ok; simpl; lia]. }
  assert (Hc : forall v, cid_ok v -> forall x, v = Some x -> (length x <= 20)%nat) by (intros ? ? ? ->; done).
  repeat match goal with H : Forall varint_ok (_ :: _) |- _ => inversion H; clear H; subst end.
  unfold params_of. rewrite !Forall_app. split_and!; auto.
  - apply Hopt. by apply Hc.
  - apply Hopt. by apply Hc.
  - apply Hopt. by apply Hc.
  - apply Hopt. intros x Hx. rewrite Hx in H4. lia.
  - destruct (disable_active_migration tp); [|constructor]. apply Forall_singleton.
    split; [apply param_code_ok|by apply (small_ok 0); lia].
  - eapply Forall_impl; [exact H6|]. intros x (? & ? & _). done.
Qed.

(** The loop advances on every round, so it ends within its fuel. *)
Lemma decode_step_decreases wire st st' : decode_step wire st = inl st' ->
  (length wire - st'.1.1 < length wire - st.1.1)%nat.
Proof.
  destruct st as [[off seen] tp]. unfold decode_step. destruct (Nat.ltb_spec off (length wire)); [|done].
  destruct (VarInt.decode wire off) as [[id o1]|] eqn:E1; [|done]. cbn [mbind option_bind].
  destruct (VarInt.decode wire o1) as [[len o2]|] eqn:E2; [|done]. cbn [mbind option_bind].
  apply decode_progress in E1. apply decode_progress in E2.
  case_match; [|done]. intros [= <-]. repeat (case_match; [done|]).
  destruct (apply_param _ _ _); [|done]. simplify_eq/=. lia.
Qed.

Lemma decode_params_of tp : tp_wf tp -> size_ok (wire_of (params_of tp)) ->
  decode_transport_params (wire_of (params_of tp)) default_tp = Some (Some tp).
Proof.
  intros Hwf Hs.
  apply decode_run with (ps := params_of tp); try done.
  - by apply params_of_ok.
  - by apply params_of_nodup.
  - intros x _ Hx. by apply elem_of_nil in Hx.
  - by apply apply_params_of.
  - by split; [lia|].
  - lia.
Qed.

(** ** Properties *)

(** Transport parameters round-trip: for a well-formed record
    (connection ids of at most 20 bytes, a 16-byte reset token, 62-bit
    numbers, distinct unknown ids) the encoding exists and decodes, from the
    RFC defaults, to the same record, fields at their default being omitted
    from the wire. *)
Theorem transport_params_roundtrip tp : tp_wf tp ->
  exists wire, encode_transport_params tp = Some wire /\
    (size_ok wire -> decode_transport_params wire default_tp = Some (Some tp)).
Proof.
  intros Hwf. exists (wire_of (params_of tp)). split; [by apply encode_tp_ok|]. intros Hs.
  by apply decode_params_of.
Qed.

Lemma transport_params_roundtrip_witness :
  exists wire, encode_transport_params (mkTp (Some [1; 2]) None None None 30000 65527 9 0 0 0 5 0 3 25 2 true [(77, [8])])
    = Some wire /\ (size_ok wire -> decode_transport_params wire default_tp =
      Some (Some (mkTp (Some [1; 2]) None None None 30000 65527 9 0 0 0 5 0 3 25 2 true [(77, [8])]))).
Proof.
  apply transport_params_roundtrip. split; simpl; try done; try lia.
  - repeat (apply Forall_cons_2; [vm_compute; split; discriminate|]). apply Forall_nil_2.
  - apply Forall_singleton. split_and!; vm_compute; try split; try discriminate; done.
  - apply (bool_decide_unpack _). vm_compute. done.
Defined.

(** Decoding always terminates, and a parameter that appears twice is
    refused: whatever the values, a wire image with a repeated id makes
    [decode_transport_params] return false. *)
Theorem transport_params_duplicates wire tp :
  (exists r, decode_transport_params wire tp = Some r) /\
  forall ps, size_ok wire -> wire = wire_of ps -> Forall entry_ok ps -> ~ NoDup ps.*1 ->
    decode_transport_params wire tp = Some None.
Proof.
  split.
  - apply (loop_total _ (fun _ => True) (fun st => length wire - st.1.1)%nat); [|done|simpl; lia].
    intros st st' _ Hst. split; [done|]. by apply decode_step_decreases.
  - intros ps Hs -> Hok Hdup. eapply decode_dup; [done|done|by intros [? _]|by split; [lia|]|lia].
Qed.

Lemma transport_params_duplicates_witness :
  decode_transport_params [4; 1; 7; 4; 1; 9] default_tp = Some None.
Proof.
  apply (proj2 (transport_params_duplicates [4; 1; 7; 4; 1; 9] default_tp) [(4, [7]); (4, [9])]).
  - done.
  - reflexivity.
  - repeat (apply Forall_cons_2; [split; vm_compute; split; discriminate|]). apply Forall_nil_2.
  - intros H. inversion H; subst. set_solver.
Defined.

(** The ranges RFC 9000 section 18.2 demands are not checked: any
    62-bit [ack_delay_exponent] (the limit is 20) and any 62-bit
    [max_ack_delay] (the limit is 2^14) is accepted as it stands. *)
Theorem transport_params_unchecked v d : varint_ok v -> varint_ok d ->
  exists wire, (size_ok wire -> decode_transport_params wire default_tp =
    Some (Some (set_num (set_num default_tp AckDelayExponent v) MaxAckDelay d))).
Proof.
  intros Hv Hd. set (tp := set_num (set_num default_tp AckDelayExponent v) MaxAckDelay d).
  exists (wire_of (params_of tp)). intros Hs.
  assert (Hwf : tp_wf tp).
  { split; simpl; try done.
    - repeat (apply Forall_cons_2; [first [assumption|by vm_compute; split; discriminate]|]). apply Forall_nil_2.
    - constructor. }
  by apply decode_params_of.
Qed.

Lemma transport_params_unchecked_witness :
  exists wire, size_ok wire -> decode_transport_params wire default_tp =
    Some (Some (mkTp None None None None 0 65527 0 0 0 0 0 0 64 20000 2 false [])).
Proof. apply (transport_params_unchecked 64 20000); vm_compute; split; discriminate. Defined.
