(* ===== verification/QuicConn.v ===== *)
(** * QUIC connection: state and operations

    Model of [Connection] (example/quic-http3/src/quic/connection.cpp, .hpp):
    the per-level packet-number spaces and keys, the packet paths in and out,
    frame dispatch, flow control, stream limits, loss detection, key update,
    close and the timer.  Streams, frames, received packet numbers, recovery
    and congestion control are the models of their own files.

    The TLS engine is the interface [Tls]; the clock is a function of the
    number of times it was read.  [wire] is the list of datagrams handed to
    [send_fn_].  A [std::map] is the list of its entries in key order
    (SortedMap), [std::array<_, 4>] indexed by level a [PerLevel].  An
    operation that may throw or access memory outside its buffer returns an
    [option], and [None] is that case. *)
From S2P Require Import Prelude VarInt SortedMap QuicPacket QuicCrypto QuicFrame PnSpace QuicCongestion QuicStream TransportParams.

Local Open Scope Z_scope.

(** ** Encryption levels *)

Inductive EncryptionLevel := LInitial | LEarlyData | LHandshake | LApplication.

Global Instance EncryptionLevel_eq_dec : EqDecision EncryptionLevel.
Proof. solve_decision. Defined.

Record PerLevel (A : Type) := mkPerLevel { at_initial : A; at_early : A; at_handshake : A; at_application : A }.
Arguments mkPerLevel {A}.
Arguments at_initial {A}.
Arguments at_early {A}.
Arguments at_handshake {A}.
Arguments at_application {A}.

Definition at_level {A} (l : EncryptionLevel) (p : PerLevel A) : A :=
  match l with
  | LInitial => at_initial p | LEarlyData => at_early p
  | LHandshake => at_handshake p | LApplication => at_application p
  end.

Definition set_level {A} (l : EncryptionLevel) (v : A) (p : PerLevel A) : PerLevel A :=
  match l with
  | LInitial => mkPerLevel v (at_early p) (at_handshake p) (at_application p)
  | LEarlyData => mkPerLevel (at_initial p) v (at_handshake p) (at_application p)
  | LHandshake => mkPerLevel (at_initial p) (at_early p) v (at_application p)
  | LApplication => mkPerLevel (at_initial p) (at_early p) (at_handshake p) v
  end.

Definition all_levels {A} (v : A) : PerLevel A := mkPerLevel v v v v.

(** The levels the send and timer loops visit, in their order. *)
Definition send_levels : list EncryptionLevel := [LInitial; LHandshake; LApplication].

(** What the connection uses of [TlsConnection]. *)
Class Tls (T : Type) := {
  tls_advance : T -> T;
  tls_established : T -> bool;
  deliver_crypto : EncryptionLevel -> bytes -> T -> T;
  out_crypto : EncryptionLevel -> T -> bytes;
  clear_out_crypto : EncryptionLevel -> T -> T;
  read_secret : EncryptionLevel -> T -> bytes;
  write_secret : EncryptionLevel -> T -> bytes;
  negotiated_aead : T -> Aead;
  peer_transport_params : T -> TransportParameters }.

(** The peer's transport parameters are decoded from 64-bit integers. *)
Class TlsLaws (T : Type) `{Tls T} : Prop := {
  peer_data_range : forall t, u64_ok (initial_max_data (peer_transport_params t)) }.

(** ** State *)

Inductive State := Handshaking | Established | Closing | Draining | Closed.

Global Instance State_eq_dec : EqDecision State.
Proof. solve_decision. Defined.

Record SentRecord := mkSentRecord {
  rec_level : EncryptionLevel;
  ack_eliciting : bool;
  rec_bytes : Z;
  sent_at : Z;
  rec_crypto : list CryptoFrame;
  rec_streams : list StreamFrame }.

Record Space := mkSpace {
  sp_aead : Aead;
  send_keys : PacketKeys;
  recv_keys : PacketKeys;
  send_ctx : CipherCtx;
  recv_ctx : CipherCtx;
  send_keys_ready : bool;
  recv_keys_ready : bool;
  largest_recv_pn : Z;
  any_recv : bool;
  next_send_pn : Z;
  acks : PnSpace;
  crypto_recv_ : list (Z * bytes);
  crypto_read_offset : Z;
  crypto_send_offset : Z;
  last_ack_eliciting_send_time_ : Z;
  any_ack_eliciting_sent_ : bool;
  largest_acked_pn_ : Z;
  any_acked_ : bool;
  send_secret : bytes;
  recv_secret : bytes;
  next_send_keys : PacketKeys;
  next_recv_keys : PacketKeys;
  next_send_ctx : CipherCtx;
  next_recv_ctx : CipherCtx;
  send_key_phase : Z;
  recv_key_phase : Z;
  next_keys_ready : bool }.

Definition eta_Space (sp : Space) : Space :=
  mkSpace (sp_aead sp) (send_keys sp) (recv_keys sp) (send_ctx sp) (recv_ctx sp) (send_keys_ready sp) (recv_keys_ready
    sp) (largest_recv_pn sp) (any_recv sp) (next_send_pn sp) (acks sp) (crypto_recv_ sp) (crypto_read_offset sp)
    (crypto_send_offset sp) (last_ack_eliciting_send_time_ sp) (any_ack_eliciting_sent_ sp) (largest_acked_pn_ sp)
    (any_acked_ sp) (send_secret sp) (recv_secret sp) (next_send_keys sp) (next_recv_keys sp) (next_send_ctx sp)
    (next_recv_ctx sp) (send_key_phase sp) (recv_key_phase sp) (next_keys_ready sp).

Definition set_sp_aead (v : Aead) (sp : Space) : Space := ltac:(with_field eta_Space sp sp_aead v).
Definition set_send_keys (v : PacketKeys) (sp : Space) : Space := ltac:(with_field eta_Space sp send_keys v).
Definition set_recv_keys (v : PacketKeys) (sp : Space) : Space := ltac:(with_field eta_Space sp recv_keys v).
Definition set_send_ctx (v : CipherCtx) (sp : Space) : Space := ltac:(with_field eta_Space sp send_ctx v).
Definition set_recv_ctx (v : CipherCtx) (sp : Space) : Space := ltac:(with_field eta_Space sp recv_ctx v).
Definition set_send_keys_ready (v : bool) (sp : Space) : Space := ltac:(with_field eta_Space sp send_keys_ready v).
Definition set_recv_keys_ready (v : bool) (sp : Space) : Space := ltac:(with_field eta_Space sp recv_keys_ready v).
Definition set_largest_recv_pn (v : Z) (sp : Space) : Space := ltac:(with_field eta_Space sp largest_recv_pn v).
Definition set_any_recv (v : bool) (sp : Space) : Space := ltac:(with_field eta_Space sp any_recv v).
Definition set_next_send_pn (v : Z) (sp : Space) : Space := ltac:(with_field eta_Space sp next_send_pn v).
Definition set_acks (v : PnSpace) (sp : Space) : Space := ltac:(with_field eta_Space sp acks v).
Definition set_crypto_recv (v : list (Z * bytes)) (sp : Space) : Space := ltac:(with_field eta_Space sp crypto_recv_ v).
Definition set_crypto_read_offset (v : Z) (sp : Space) : Space := ltac:(with_field eta_Space sp crypto_read_offset v).
Definition set_crypto_send_offset (v : Z) (sp : Space) : Space := ltac:(with_field eta_Space sp crypto_send_offset v).
Definition set_last_ack_eliciting_send_time (v : Z) (sp : Space) : Space := ltac:(with_field eta_Space sp last_ack_eliciting_send_time_ v).
Definition set_any_ack_eliciting_sent (v : bool) (sp : Space) : Space := ltac:(with_field eta_Space sp any_ack_eliciting_sent_ v).
Definition set_largest_acked_pn (v : Z) (sp : Space) : Space := ltac:(with_field eta_Space sp largest_acked_pn_ v).
Definition set_any_acked (v : bool) (sp : Space) : Space := ltac:(with_field eta_Space sp any_acked_ v).
Definition set_send_secret (v : bytes) (sp : Space) : Space := ltac:(with_field eta_Space sp send_secret v).
Definition set_recv_secret (v : bytes) (sp : Space) : Space := ltac:(with_field eta_Space sp recv_secret v).
Definition set_next_send_keys (v : PacketKeys) (sp : Space) : Space := ltac:(with_field eta_Space sp next_send_keys v).
Definition set_next_recv_keys (v : PacketKeys) (sp : Space) : Space := ltac:(with_field eta_Space sp next_recv_keys v).
Definition set_next_send_ctx (v : CipherCtx) (sp : Space) : Space := ltac:(with_field eta_Space sp next_send_ctx v).
Definition set_next_recv_ctx (v : CipherCtx) (sp : Space) : Space := ltac:(with_field eta_Space sp next_recv_ctx v).
Definition set_send_key_phase (v : Z) (sp : Space) : Space := ltac:(with_field eta_Space sp send_key_phase v).
Definition set_recv_key_phase (v : Z) (sp : Space) : Space := ltac:(with_field eta_Space sp recv_key_phase v).
Definition set_next_keys_ready (v : bool) (sp : Space) : Space := ltac:(with_field eta_Space sp next_keys_ready v).

Definition no_keys : PacketKeys := mkKeys [] [] [].

Definition new_space : Space :=
  mkSpace Aes128Gcm no_keys no_keys None None false false 0 false 0 init_pn_space [] 0 0 0 false 0 false
    [] [] no_keys no_keys None None 0 0 false.

Section Connection.
Context {T : Type} {tls : Tls T} {lib : CryptoLib}.

Record Conn := mkConn {
  state_ : State;
  dcid_ : bytes;
  scid_ : bytes;
  original_dcid_ : bytes;
  ticks : nat;
  last_activity_ : Z;
  tls_ : T;
  local_tp_ : TransportParameters;
  spaces_ : PerLevel Space;
  recovery_ : Recovery.Recovery;
  congestion_ : Congestion.Congestion;
  streams_ : list (Z * QuicStream.Stream);
  sent_ : PerLevel (list (Z * SentRecord));
  crypto_pending_ : PerLevel (list CryptoFrame);
  sent_handshake_done_ : bool;
  pending_close_ : option ConnectionCloseFrame;
  pending_path_responses_ : list bytes;
  peer_address_validated_ : bool;
  recv_bytes_total_ : Z;
  sent_bytes_unvalidated_ : Z;
  conn_recv_max_data_ : Z;
  conn_recv_total_ : Z;
  conn_recv_consumed_ : Z;
  retired_recv_consumed_ : Z;
  max_data_pending_ : bool;
  conn_send_max_data_ : Z;
  conn_send_total_ : Z;
  local_max_streams_bidi_ : Z;
  local_max_streams_uni_ : Z;
  peer_max_streams_bidi_ : Z;
  peer_max_streams_uni_ : Z;
  streams_bidi_closed_ : Z;
  streams_uni_closed_ : Z;
  max_streams_bidi_pending_ : bool;
  max_streams_uni_pending_ : bool;
  wire : list bytes }.

Definition eta_Conn (c : Conn) : Conn :=
  mkConn (state_ c) (dcid_ c) (scid_ c) (original_dcid_ c) (ticks c) (last_activity_ c) (tls_ c) (local_tp_ c)
    (spaces_ c) (recovery_ c) (congestion_ c) (streams_ c) (sent_ c) (crypto_pending_ c) (sent_handshake_done_ c)
    (pending_close_ c) (pending_path_responses_ c) (peer_address_validated_ c) (recv_bytes_total_ c)
    (sent_bytes_unvalidated_ c) (conn_recv_max_data_ c) (conn_recv_total_ c) (conn_recv_consumed_ c)
    (retired_recv_consumed_ c) (max_data_pending_ c) (conn_send_max_data_ c) (conn_send_total_ c)
    (local_max_streams_bidi_ c) (local_max_streams_uni_ c) (peer_max_streams_bidi_ c) (peer_max_streams_uni_ c)
    (streams_bidi_closed_ c) (streams_uni_closed_ c) (max_streams_bidi_pending_ c) (max_streams_uni_pending_ c) (wire
    c).

Definition set_state (v : State) (c : Conn) : Conn := ltac:(with_field eta_Conn c state_ v).
Definition set_ticks (v : nat) (c : Conn) : Conn := ltac:(with_field eta_Conn c ticks v).
Definition set_last_activity (v : Z) (c : Conn) : Conn := ltac:(with_field eta_Conn c last_activity_ v).
Definition set_tls (v : T) (c : Conn) : Conn := ltac:(with_field eta_Conn c tls_ v).
Definition set_spaces (v : PerLevel Space) (c : Conn) : Conn := ltac:(with_field eta_Conn c spaces_ v).
Definition set_recovery (v : Recovery.Recovery) (c : Conn) : Conn := ltac:(with_field eta_Conn c recovery_ v).
Definition set_congestion (v : Congestion.Congestion) (c : Conn) : Conn := ltac:(with_field eta_Conn c congestion_ v).
Definition set_streams (v : list (Z * QuicStream.Stream)) (c : Conn) : Conn := ltac:(with_field eta_Conn c streams_ v).
Definition set_sent (v : PerLevel (list (Z * SentRecord))) (c : Conn) : Conn := ltac:(with_field eta_Conn c sent_ v).
Definition set_crypto_pending (v : PerLevel (list CryptoFrame)) (c : Conn) : Conn := ltac:(with_field eta_Conn c crypto_pending_ v).
Definition set_sent_handshake_done (v : bool) (c : Conn) : Conn := ltac:(with_field eta_Conn c sent_handshake_done_ v).
Definition set_pending_close (v : option ConnectionCloseFrame) (c : Conn) : Conn := ltac:(with_field eta_Conn c pending_close_ v).
Definition set_pending_path_responses (v : list bytes) (c : Conn) : Conn := ltac:(with_field eta_Conn c pending_path_responses_ v).
Definition set_peer_address_validated (v : bool) (c : Conn) : Conn := ltac:(with_field eta_Conn c peer_address_validated_ v).
Definition set_recv_bytes_total (v : Z) (c : Conn) : Conn := ltac:(with_field eta_Conn c recv_bytes_total_ v).
Definition set_sent_bytes_unvalidated (v : Z) (c : Conn) : Conn := ltac:(with_field eta_Conn c sent_bytes_unvalidated_ v).
Definition set_conn_recv_max_data (v : Z) (c : Conn) : Conn := ltac:(with_field eta_Conn c conn_recv_max_data_ v).
Definition set_conn_recv_total (v : Z) (c : Conn) : Conn := ltac:(with_field eta_Conn c conn_recv_total_ v).
Definition set_conn_recv_consumed (v : Z) (c : Conn) : Conn := ltac:(with_field eta_Conn c conn_recv_consumed_ v).
Definition set_retired_recv_consumed (v : Z) (c : Conn) : Conn := ltac:(with_field eta_Conn c retired_recv_consumed_ v).
Definition set_max_data_pending (v : bool) (c : Conn) : Conn := ltac:(with_field eta_Conn c max_data_pending_ v).
Definition set_conn_send_max_data (v : Z) (c : Conn) : Conn := ltac:(with_field eta_Conn c conn_send_max_data_ v).
Definition set_conn_send_total (v : Z) (c : Conn) : Conn := ltac:(with_field eta_Conn c conn_send_total_ v).
Definition set_local_max_streams_bidi (v : Z) (c : Conn) : Conn := ltac:(with_field eta_Conn c local_max_streams_bidi_ v).
Definition set_local_max_streams_uni (v : Z) (c : Conn) : Conn := ltac:(with_field eta_Conn c local_max_streams_uni_ v).
Definition set_peer_max_streams_bidi (v : Z) (c : Conn) : Conn := ltac:(with_field eta_Conn c peer_max_streams_bidi_ v).
Definition set_peer_max_streams_uni (v : Z) (c : Conn) : Conn := ltac:(with_field eta_Conn c peer_max_streams_uni_ v).
Definition set_streams_bidi_closed (v : Z) (c : Conn) : Conn := ltac:(with_field eta_Conn c streams_bidi_closed_ v).
Definition set_streams_uni_closed (v : Z) (c : Conn) : Conn := ltac:(with_field eta_Conn c streams_uni_closed_ v).
Definition set_max_streams_bidi_pending (v : bool) (c : Conn) : Conn := ltac:(with_field eta_Conn c max_streams_bidi_pending_ v).
Definition set_max_streams_uni_pending (v : bool) (c : Conn) : Conn := ltac:(with_field eta_Conn c max_streams_uni_pending_ v).
Definition set_wire (v : list bytes) (c : Conn) : Conn := ltac:(with_field eta_Conn c wire v).

Context (clock : nat -> Z).

Definition space (l : EncryptionLevel) (c : Conn) : Space := at_level l (spaces_ c).
Definition set_space (l : EncryptionLevel) (sp : Space) (c : Conn) : Conn := set_spaces (set_level l sp (spaces_ c)) c.
Definition sent_at_level (l : EncryptionLevel) (c : Conn) : list (Z * SentRecord) := at_level l (sent_ c).
Definition set_sent_at_level (l : EncryptionLevel) (m : list (Z * SentRecord)) (c : Conn) : Conn :=
  set_sent (set_level l m (sent_ c)) c.

(** [clock_fn_()] *)
Definition read_clock (c : Conn) : Z * Conn := (clock (ticks c), set_ticks (S (ticks c)) c).

(** [send_fn_(...)] *)
Definition send_datagram (dg : bytes) (c : Conn) : Conn := set_wire (wire c ++ [dg]) c.

(** A millisecond or microsecond count of a transport parameter as a
    nanosecond [Duration]: the count becomes an [int64_t], and the
    multiplication must not overflow it. *)
Definition to_duration (ns_per_unit count : Z) : option Z :=
  let v := Recovery.i64 count in
  let ns := v * ns_per_unit in
  if (ns <? - 2 ^ 63) || (2 ^ 63 <=? ns) then None else Some ns.

(** ** Construction and keys *)

Definition finalize_tp (tp : TransportParameters) (od_cid scid : bytes) : TransportParameters :=
  mkTp (Some (default od_cid (original_destination_connection_id tp)))
    (Some (default scid (initial_source_connection_id tp)))
    (retry_source_connection_id tp) (stateless_reset_token tp) (max_idle_timeout_ms tp) (max_udp_payload_size tp)
    (initial_max_data tp) (initial_max_stream_data_bidi_local tp) (initial_max_stream_data_bidi_remote tp)
    (initial_max_stream_data_uni tp) (initial_max_streams_bidi tp) (initial_max_streams_uni tp)
    (ack_delay_exponent tp) (max_ack_delay_ms tp) (active_connection_id_limit tp)
    (disable_active_migration tp) (unknown tp).

(** [tls0] is the [TlsConnection] built from the same arguments. *)
Definition new_connection (tls0 : T) (client_dcid client_scid server_scid : bytes) (tp : TransportParameters) : option Conn :=
  let tp := finalize_tp tp client_dcid server_scid in
  client_init_secret ← derive_initial_secret client_dcid Client;
  server_init_secret ← derive_initial_secret client_dcid Server;
  rk ← derive_packet_keys Aes128Gcm client_init_secret;
  sk ← derive_packet_keys Aes128Gcm server_init_secret;
  let init := set_send_keys sk (set_recv_keys rk new_space) in
  let init := set_recv_ctx (ctx_init Aes128Gcm (key rk)) (set_send_ctx (ctx_init Aes128Gcm (key sk)) init) in
  let init := set_send_keys_ready true (set_recv_keys_ready true init) in
  Some (mkConn Handshaking client_scid server_scid client_dcid 1 (clock 0) tls0 tp
    (set_level LInitial init (all_levels new_space)) Recovery.init (Congestion.new Congestion.kMaxDatagramSize) []
    (all_levels []) (all_levels []) false None [] false 0 0
    (initial_max_data tp) 0 0 0 false 0 0
    (initial_max_streams_bidi tp) (initial_max_streams_uni tp) 0 0 0 0 false false []).

Definition install_recv_keys (lvl : EncryptionLevel) (a : Aead) (rs : bytes) (sp : Space) : option Space :=
  if negb (recv_keys_ready sp) && negb (length rs =? 0)%nat then
    ks ← derive_packet_keys a rs;
    let sp := set_recv_ctx (ctx_init a (key ks)) (set_recv_keys ks (set_sp_aead a sp)) in
    let sp := set_recv_keys_ready true sp in
    Some (if bool_decide (lvl = LApplication) then set_recv_secret rs sp else sp)
  else Some sp.

Definition install_send_keys (lvl : EncryptionLevel) (a : Aead) (ws : bytes) (sp : Space) : option Space :=
  if negb (send_keys_ready sp) && negb (length ws =? 0)%nat then
    ks ← derive_packet_keys a ws;
    let sp := set_send_ctx (ctx_init a (key ks)) (set_send_keys ks (set_sp_aead a sp)) in
    let sp := set_send_keys_ready true sp in
    Some (if bool_decide (lvl = LApplication) then set_send_secret ws sp else sp)
  else Some sp.

(** The keys of a secret under the header-protection key in use (RFC 9001
    section 6.1: it does not rotate), and their context. *)
Definition next_keys (a : Aead) (secret hp_key : bytes) : option (PacketKeys * CipherCtx) :=
  ks ← derive_packet_keys a secret;
  let ks := mkKeys (key ks) (iv ks) hp_key in
  Some (ks, ctx_init a (key ks)).

Definition install_next_keys (lvl : EncryptionLevel) (sp : Space) : option Space :=
  if bool_decide (lvl = LApplication) && send_keys_ready sp && recv_keys_ready sp && negb (next_keys_ready sp) then
    let h := aead_hash (sp_aead sp) in
    next_send_secret ← derive_next_application_secret h (send_secret sp);
    next_recv_secret ← derive_next_application_secret h (recv_secret sp);
    '(sk, sctx) ← next_keys (sp_aead sp) next_send_secret (hp (send_keys sp));
    '(rk, rctx) ← next_keys (sp_aead sp) next_recv_secret (hp (recv_keys sp));
    let sp := set_next_recv_keys rk (set_next_send_keys sk sp) in
    Some (set_next_keys_ready true (set_next_recv_ctx rctx (set_next_send_ctx sctx sp)))
  else Some sp.

Definition install_level (c : Conn) (lvl : EncryptionLevel) : option Conn :=
  let a := negotiated_aead (tls_ c) in
  sp ← install_recv_keys lvl a (read_secret lvl (tls_ c)) (space lvl c);
  sp ← install_send_keys lvl a (write_secret lvl (tls_ c)) sp;
  sp ← install_next_keys lvl sp;
  Some (set_space lvl sp c).

Definition install_new_keys (c : Conn) : option Conn := for_each install_level [LHandshake; LApplication] c.

Definition pull_crypto_level (c : Conn) (lvl : EncryptionLevel) : Conn :=
  let buf := out_crypto lvl (tls_ c) in
  if (length buf =? 0)%nat then c else
  let sp := space lvl c in
  if negb (send_keys_ready sp) then c else
  let cf := mkCrypto (crypto_send_offset sp) buf in
  let c := set_space lvl (set_crypto_send_offset (u64 (crypto_send_offset sp + #buf)) sp) c in
  let c := set_crypto_pending (set_level lvl (at_level lvl (crypto_pending_ c) ++ [cf]) (crypto_pending_ c)) c in
  set_tls (clear_out_crypto lvl (tls_ c)) c.

Definition pull_crypto_from_tls (c : Conn) : Conn := foldl pull_crypto_level c send_levels.

(** [sp.recv_secret = derive_next_application_secret(...)] up to
    [sp.recv_key_phase ^= 1] *)
Definition rotate_recv (sp : Space) : option Space :=
  let h := aead_hash (sp_aead sp) in
  secret ← derive_next_application_secret h (recv_secret sp);
  let sp := set_recv_ctx (next_recv_ctx sp) (set_recv_keys (next_recv_keys sp) (set_recv_secret secret sp)) in
  next ← derive_next_application_secret h (recv_secret sp);
  '(ks, ctx) ← next_keys (sp_aead sp) next (hp (recv_keys sp));
  let sp := set_next_recv_ctx ctx (set_next_recv_keys ks sp) in
  Some (set_recv_key_phase (recv_key_phase sp .^ 1) sp).

Definition rotate_send (sp : Space) : option Space :=
  let h := aead_hash (sp_aead sp) in
  secret ← derive_next_application_secret h (send_secret sp);
  let sp := set_send_ctx (next_send_ctx sp) (set_send_keys (next_send_keys sp) (set_send_secret secret sp)) in
  next ← derive_next_application_secret h (send_secret sp);
  '(ks, ctx) ← next_keys (sp_aead sp) next (hp (send_keys sp));
  let sp := set_next_send_ctx ctx (set_next_send_keys ks sp) in
  Some (set_send_key_phase (send_key_phase sp .^ 1) sp).

Definition initiate_key_update (c : Conn) : option (bool * Conn) :=
  let sp := space LApplication c in
  if negb (next_keys_ready sp) then Some (false, c)
  else if negb (send_key_phase sp =? recv_key_phase sp) then Some (false, c)
  else
    sp ← rotate_send sp;
    Some (true, set_space LApplication sp c).

(** ** Close *)

Definition initiate_close (err : Z) (app : bool) (why : bytes) (ftype : Z) (c : Conn) : Conn :=
  if decide (state_ c = Closing \/ state_ c = Draining \/ state_ c = Closed) then c
  else set_state Closing (set_pending_close (Some (mkClose app err ftype why)) c).

Definition close_with_error (err : Z) (app : bool) (why : bytes) (ftype : Z) (c : Conn) : Conn :=
  initiate_close err app why ftype c.

Definition mark_peer_address_validated (c : Conn) : Conn := set_peer_address_validated true c.

(** ** Streams *)

Definition find_stream (stream_id : Z) (c : Conn) : option QuicStream.Stream := sm_find stream_id (streams_ c).

(** Writing through the [Stream*] of an existing entry. *)
Definition with_stream (stream_id : Z) (f : QuicStream.Stream -> QuicStream.Stream) (c : Conn) : Conn :=
  set_streams (sm_update stream_id f (streams_ c)) c.

Definition on_send_side (f : SendSide -> SendSide) (s : QuicStream.Stream) : QuicStream.Stream :=
  QuicStream.mkStream (QuicStream.id s) (recv s) (f (send s)).
Definition put_recv_side (r : RecvSide) (s : QuicStream.Stream) : QuicStream.Stream :=
  QuicStream.mkStream (QuicStream.id s) r (send s).

Definition ensure_stream (stream_id : Z) (c : Conn) : QuicStream.Stream * Conn :=
  match find_stream stream_id c with
  | Some s => (s, c)
  | None =>
      let peer := peer_transport_params (tls_ c) in
      let local := local_tp_ c in
      let '(rl, sl) :=
        if is_bidi stream_id then
          if is_client_initiated stream_id
          then (initial_max_stream_data_bidi_remote local, initial_max_stream_data_bidi_local peer)
          else (initial_max_stream_data_bidi_local local, initial_max_stream_data_bidi_remote peer)
        else
          if is_client_initiated stream_id
          then (initial_max_stream_data_uni local, 0)
          else (0, initial_max_stream_data_uni peer) in
      let s := new_stream stream_id rl sl in
      (s, set_streams (sm_insert stream_id s (streams_ c)) c)
  end.

Definition enforce_stream_limit (stream_id : Z) (c : Conn) : bool * Conn :=
  if negb (is_client_initiated stream_id) then (true, c) else
  match find_stream stream_id c with
  | Some _ => (true, c)
  | None =>
      let index := stream_id .>> 2 in
      let limit := if is_bidi stream_id then local_max_streams_bidi_ c else local_max_streams_uni_ c in
      if limit <=? index then
        (false, initiate_close 0x04 false (str "stream limit exceeded") (code FtStream) c)
      else (true, c)
  end.

Definition write_stream (stream_id : Z) (data : bytes) (fin : bool) (c : Conn) : Conn :=
  let '(s, c) := ensure_stream stream_id c in
  with_stream stream_id (on_send_side (fun x => write x data fin)) c.

(** The bytes appended to [out], [fin_out], and the new state. *)
Definition read_stream (stream_id : Z) (c : Conn) : bytes * bool * Conn :=
  match find_stream stream_id c with
  | None => ([], false, c)
  | Some s =>
      let '(out, fin, r) := read_contiguous (recv s) in
      (out, fin, with_stream stream_id (put_recv_side r) c)
  end.

Definition refresh_conn_recv_window (c : Conn) : Conn :=
  let consumed := foldl (fun acc kv => u64 (acc + recv_read_offset (recv kv.2))) (retired_recv_consumed_ c) (streams_ c) in
  let c := set_conn_recv_consumed consumed c in
  let window := initial_max_data (local_tp_ c) in
  if window =? 0 then c
  else if u64 (conn_recv_max_data_ c - conn_recv_consumed_ c) <? window / 2 then
    set_max_data_pending true (set_conn_recv_max_data (u64 (conn_recv_consumed_ c + window)) c)
  else c.

(** Whether a stream is closed in both live directions. *)
Definition terminal (sid : Z) (s : QuicStream.Stream) : bool :=
  let recv_done := bool_decide (recv_state (recv s) = DataRead \/ recv_state (recv s) = ResetRead \/ recv_state (recv s) = ResetRecvd) in
  let send_done := bool_decide (send_state (send s) = SDataRecvd \/ send_state (send s) = SResetRecvd) in
  if is_bidi sid then recv_done && send_done
  else if is_client_initiated sid then recv_done
  else send_done.

Definition credit_stream (sid : Z) (s : QuicStream.Stream) (c : Conn) : Conn :=
  let c := if is_client_initiated sid then
             if is_bidi sid then set_streams_bidi_closed (u64 (streams_bidi_closed_ c + 1)) c
             else set_streams_uni_closed (u64 (streams_uni_closed_ c + 1)) c
           else c in
  set_retired_recv_consumed (u64 (retired_recv_consumed_ c + recv_high_water (recv s))) c.

(** The erasing walk: the streams kept, and the credits of the others. *)
Fixpoint retire_walk (m : list (Z * QuicStream.Stream)) (c : Conn) : list (Z * QuicStream.Stream) * Conn :=
  match m with
  | [] => ([], c)
  | (sid, s) :: m =>
      if terminal sid s then retire_walk m (credit_stream sid s c)
      else let '(kept, c) := retire_walk m c in ((sid, s) :: kept, c)
  end.

Definition retire_closed_streams (c : Conn) : Conn :=
  let '(kept, c) := retire_walk (streams_ c) c in
  let c := set_streams kept c in
  let bidi_window := initial_max_streams_bidi (local_tp_ c) in
  let c := if (0 <? bidi_window) && (local_max_streams_bidi_ c <? u64 (streams_bidi_closed_ c + bidi_window))
           then set_max_streams_bidi_pending true (set_local_max_streams_bidi (u64 (streams_bidi_closed_ c + bidi_window)) c)
           else c in
  let uni_window := initial_max_streams_uni (local_tp_ c) in
  if (0 <? uni_window) && (local_max_streams_uni_ c <? u64 (streams_uni_closed_ c + uni_window))
  then set_max_streams_uni_pending true (set_local_max_streams_uni (u64 (streams_uni_closed_ c + uni_window)) c)
  else c.

(** ** Frames *)

Definition kMaxCryptoWindow : Z := 64 * 1024.
Definition kMaxStreamOffset : Z := 2 ^ 62 - 1.

(** The [while] of [feed_tls_crypto]: what stays buffered, the read offset,
    and the TLS engine after the chunks it was handed. *)
Fixpoint feed_walk (lvl : EncryptionLevel) (m : list (Z * bytes)) (off : Z) (t : T) : list (Z * bytes) * Z * T :=
  match m with
  | [] => ([], off, t)
  | (k, data) :: m' =>
      if off <? k then (m, off, t)
      else if u64 (k + #data) <=? off then feed_walk lvl m' off t
      else let chunk := drop (Z.to_nat (off - k)) data in
           feed_walk lvl m' (u64 (off + #chunk)) (deliver_crypto lvl chunk t)
  end.

Definition feed_tls_crypto (lvl : EncryptionLevel) (c : Conn) : Conn :=
  let sp := space lvl c in
  let '(m, off, t) := feed_walk lvl (crypto_recv_ sp) (crypto_read_offset sp) (tls_ c) in
  set_tls t (set_space lvl (set_crypto_read_offset off (set_crypto_recv m sp)) c).

Definition on_crypto_frame (lvl : EncryptionLevel) (f : CryptoFrame) (c : Conn) : Conn :=
  let sp := space lvl c in
  let fend := u64 (crypto_offset f + #(crypto_data f)) in
  if u64 (crypto_read_offset sp + kMaxCryptoWindow) <? fend then
    initiate_close 0x0d false (str "crypto buffer exceeded") (code FtCrypto) c
  else
    let c := set_space lvl (set_crypto_recv (sm_insert (crypto_offset f) (crypto_data f) (crypto_recv_ sp)) sp) c in
    feed_tls_crypto lvl c.

(** Charging the receive side: whether the connection window admits a stream
    reaching [fend], and the total after its high water moved. *)
Definition exceeds_conn_window (prev_hw fend : Z) (c : Conn) : bool :=
  (prev_hw <? fend) && (u64 (conn_recv_max_data_ c - conn_recv_total_ c) <? fend - prev_hw).

Definition charge_conn_window (prev_hw new_hw : Z) (c : Conn) : Conn :=
  if prev_hw <? new_hw then set_conn_recv_total (u64 (conn_recv_total_ c + (new_hw - prev_hw))) c else c.

Definition on_stream_frame (f : StreamFrame) (c : Conn) : Conn :=
  let '(ok, c) := enforce_stream_limit (sf_stream_id f) c in
  if negb ok then c else
  if (kMaxStreamOffset <? #(sf_data f)) || (kMaxStreamOffset - #(sf_data f) <? sf_offset f) then
    initiate_close 0x03 false (str "stream offset overflow") (code FtStream) c
  else
    let '(s, c) := ensure_stream (sf_stream_id f) c in
    let prev_hw := recv_high_water (recv s) in
    if exceeds_conn_window prev_hw (u64 (sf_offset f + #(sf_data f))) c then
      initiate_close 0x03 false (str "connection flow control") (code FtStream) c
    else match deliver (recv s) (sf_offset f) (sf_data f) (sf_fin f) with
    | None => initiate_close 0x03 false (str "stream limit violation") (code FtStream) c
    | Some r => charge_conn_window prev_hw (recv_high_water r) (with_stream (sf_stream_id f) (put_recv_side r) c)
    end.

Definition on_reset_stream_frame (f : ResetStreamFrame) (c : Conn) : Conn :=
  let '(ok, c) := enforce_stream_limit (rs_stream_id f) c in
  if negb ok then c else
  if kMaxStreamOffset <? rs_final_size f then
    initiate_close 0x03 false (str "reset final size overflow") (code FtResetStream) c
  else
    let '(s, c) := ensure_stream (rs_stream_id f) c in
    let prev_hw := recv_high_water (recv s) in
    if exceeds_conn_window prev_hw (rs_final_size f) c then
      initiate_close 0x03 false (str "connection flow control") (code FtResetStream) c
    else match reset_recvd (recv s) (rs_final_size f) (rs_app_error f) with
    | None => initiate_close 0x06 false (str "final size error") (code FtResetStream) c
    | Some r => charge_conn_window prev_hw (recv_high_water r) (with_stream (rs_stream_id f) (put_recv_side r) c)
    end.

(** ** Acknowledgement and loss *)

(** [if (auto* st = find_stream(sf.stream_id)) st->f(sf.offset, sf.data.size())] *)
Definition notify_stream (f : SendSide -> Z -> Z -> SendSide) (c : Conn) (sf : StreamFrame) : Conn :=
  with_stream (sf_stream_id sf) (on_send_side (fun x => f x (sf_offset sf) (#(sf_data sf)))) c.

Definition ack_entry (r : SentRecord) (c : Conn) : Conn :=
  let c := foldl (notify_stream on_acked) c (rec_streams r) in
  let '(now, c) := read_clock c in
  set_congestion (Congestion.on_packets_acked (congestion_ c) now (rec_bytes r)) c.

(** From [lower_bound(lo)] while the key is at most [hi]: the records kept. *)
Fixpoint ack_walk (lo hi : Z) (m : list (Z * SentRecord)) (c : Conn) : list (Z * SentRecord) * Conn :=
  match m with
  | [] => ([], c)
  | (pn, r) :: m' =>
      if pn <? lo then let '(kept, c) := ack_walk lo hi m' c in ((pn, r) :: kept, c)
      else if pn <=? hi then ack_walk lo hi m' (ack_entry r c)
      else (m, c)
  end.

Definition ack_range (lvl : EncryptionLevel) (lo hi : Z) (c : Conn) : Conn :=
  if hi <? lo then c else
  let '(kept, c) := ack_walk lo hi (sent_at_level lvl c) c in
  set_sent_at_level lvl kept c.

(** The loop over [f.ranges], carrying [lo]. *)
Fixpoint ack_more_ranges (lvl : EncryptionLevel) (lo : Z) (rs : list AckRange) (c : Conn) : Conn :=
  match rs with
  | [] => c
  | r :: rs =>
      if lo <? u64 (gap r + 2) then c else
      let hi := u64 (lo - gap r - 2) in
      if hi <? range_length r then c else
      let lo := hi - range_length r in
      ack_more_ranges lvl lo rs (ack_range lvl lo hi c)
  end.

Definition declare_lost (r : SentRecord) (lvl : EncryptionLevel) (c : Conn) : Conn :=
  let c := foldl (notify_stream on_lost) c (rec_streams r) in
  let c := set_crypto_pending (set_level lvl (at_level lvl (crypto_pending_ c) ++ rec_crypto r) (crypto_pending_ c)) c in
  if ack_eliciting r then
    let '(now, c) := read_clock c in
    set_congestion (Congestion.on_packets_lost (congestion_ c) now (rec_bytes r) (sent_at r)) c
  else c.

(** The erasing walk of [detect_and_handle_loss]. *)
Fixpoint loss_walk (lvl : EncryptionLevel) (largest cutoff : Z) (m : list (Z * SentRecord)) (c : Conn)
    : list (Z * SentRecord) * Conn :=
  match m with
  | [] => ([], c)
  | (pn, r) :: m' =>
      if largest <=? pn then (m, c)
      else if negb (Recovery.kPacketThreshold <=? largest - pn) && negb (sent_at r <=? cutoff) then
        let '(kept, c) := loss_walk lvl largest cutoff m' c in ((pn, r) :: kept, c)
      else loss_walk lvl largest cutoff m' (declare_lost r lvl c)
  end.

Definition detect_and_handle_loss (lvl : EncryptionLevel) (c : Conn) : Conn :=
  let sp := space lvl c in
  if negb (any_acked_ sp) then c else
  if (length (sent_at_level lvl c) =? 0)%nat then c else
  let '(now, c) := read_clock c in
  let time_cutoff := now - Recovery.loss_time_threshold (recovery_ c) in
  let '(kept, c) := loss_walk lvl (largest_acked_pn_ sp) time_cutoff (sent_at_level lvl c) c in
  set_sent_at_level lvl kept c.

(** The RTT sample; a shift by 64 or more is undefined. *)
Definition sample_rtt (largest_sent_at ack_delay_field : Z) (c : Conn) : option Conn :=
  let '(now, c) := read_clock c in
  let latest := now - largest_sent_at in
  let peer := peer_transport_params (tls_ c) in
  if 64 <=? ack_delay_exponent peer then None else
  let scaled := u64 (ack_delay_field .<< ack_delay_exponent peer) in
  let cap_us := u64 (max_ack_delay_ms peer * 1000) in
  let scaled := if (0 <? cap_us) && (cap_us <? scaled) then cap_us else scaled in
  delay ← to_duration 1000 scaled;
  Some (set_recovery (Recovery.on_rtt_sample (recovery_ c) latest delay) c).

Definition note_largest_acked (largest : Z) (sp : Space) : Space :=
  if negb (any_acked_ sp) || (largest_acked_pn_ sp <? largest)
  then set_any_acked true (set_largest_acked_pn largest sp) else sp.

(** Every range of the frame, the first one included. *)
Definition ack_all_ranges (lvl : EncryptionLevel) (f : AckFrame) (c : Conn) : Conn :=
  let hi := largest_acked f in
  let lo := hi - first_range f in
  ack_more_ranges lvl lo (ack_ranges f) (ack_range lvl lo hi c).

(** When the largest packet acknowledged is in flight and ack-eliciting, the
    time it was sent. *)
Definition rtt_basis (lvl : EncryptionLevel) (f : AckFrame) (c : Conn) : option Z :=
  r ← sm_find (largest_acked f) (sent_at_level lvl c);
  if ack_eliciting r then Some (sent_at r) else None.

Definition on_ack_frame (lvl : EncryptionLevel) (f : AckFrame) (c : Conn) : option Conn :=
  let sample := rtt_basis lvl f c in
  let c := set_space lvl (note_largest_acked (largest_acked f) (space lvl c)) c in
  if largest_acked f <? first_range f then Some c else
  let c := ack_all_ranges lvl f c in
  let c := set_recovery (Recovery.reset_pto (recovery_ c)) c in
  c ← match sample with Some t => sample_rtt t (ack_delay f) c | None => Some c end;
  Some (detect_and_handle_loss lvl c).

(** The walk of [check_pto]: every ack-eliciting record is declared lost. *)
Fixpoint pto_walk (lvl : EncryptionLevel) (m : list (Z * SentRecord)) (c : Conn) : list (Z * SentRecord) * Conn :=
  match m with
  | [] => ([], c)
  | (pn, r) :: m =>
      if negb (ack_eliciting r) then let '(kept, c) := pto_walk lvl m c in ((pn, r) :: kept, c)
      else pto_walk lvl m (declare_lost r lvl c)
  end.

Definition pto_level (now pto : Z) (st : bool * Conn) (lvl : EncryptionLevel) : bool * Conn :=
  let '(fired, c) := st in
  let sp := space lvl c in
  if negb (any_ack_eliciting_sent_ sp) then (fired, c) else
  if (length (sent_at_level lvl c) =? 0)%nat then (fired, c) else
  if now - last_ack_eliciting_send_time_ sp <? pto then (fired, c) else
  let '(kept, c) := pto_walk lvl (sent_at_level lvl c) c in
  let c := set_sent_at_level lvl kept c in
  (true, set_space lvl (set_any_ack_eliciting_sent false (space lvl c)) c).

Definition check_pto (c : Conn) : option Conn :=
  max_ack_delay ← to_duration 1000000 (max_ack_delay_ms (peer_transport_params (tls_ c)));
  let pto := Recovery.pto_timeout (recovery_ c) max_ack_delay in
  let '(now, c) := read_clock c in
  let '(fired, c) := foldl (pto_level now pto) (false, c) send_levels in
  Some (if fired then set_recovery (Recovery.on_pto_fired (recovery_ c)) c else c).

(** ** Dispatch *)

Definition on_frame (lvl : EncryptionLevel) (c : Conn) (f : Frame) : option Conn :=
  match f with
  | Crypto x => Some (on_crypto_frame lvl x c)
  | QuicFrame.Stream x => Some (on_stream_frame x c)
  | Ack x => on_ack_frame lvl x c
  | ConnectionClose _ => Some (set_state Draining c)
  | PathChallenge data =>
      Some (if bool_decide (lvl = LApplication)
            then set_pending_path_responses (pending_path_responses_ c ++ [data]) c else c)
  | ResetStream x => Some (on_reset_stream_frame x c)
  | MaxData m => Some (if conn_send_max_data_ c <? m then set_conn_send_max_data m c else c)
  | MaxStreamData sid m => Some (with_stream sid (on_send_side (fun s => set_send_limit s m)) c)
  | MaxStreams true m => Some (if peer_max_streams_bidi_ c <? m then set_peer_max_streams_bidi m c else c)
  | MaxStreams false m => Some (if peer_max_streams_uni_ c <? m then set_peer_max_streams_uni m c else c)
  | DataBlocked _ => Some (set_max_data_pending true c)
  | StreamsBlocked true _ => Some (set_max_streams_bidi_pending true c)
  | StreamsBlocked false _ => Some (set_max_streams_uni_pending true c)
  | Padding _ | Ping | StopSending _ _ | NewToken _ | StreamDataBlocked _ _ | NewConnectionId _
  | RetireConnectionId _ | PathResponse _ | HandshakeDone => Some c
  end.

Definition deliver_frames (lvl : EncryptionLevel) (payload : bytes) (c : Conn) : option Conn :=
  frames ← parse_frames payload;
  match frames with
  | None => Some (initiate_close 0x07 false (str "frame parse failed") 0 c)
  | Some fs => for_each (on_frame lvl) fs c
  end.

Definition note_received (pn : Z) (sp : Space) : Space :=
  let sp := if negb (any_recv sp) || (largest_recv_pn sp <? pn) then set_largest_recv_pn pn sp else sp in
  set_any_recv true sp.

(** What both packet paths do once the payload is open. *)
Definition accept_packet (lvl : EncryptionLevel) (pn : Z) (payload : bytes) (c : Conn) : option Conn :=
  let c := set_space lvl (note_received pn (space lvl c)) c in
  let c := if bool_decide (lvl = LHandshake) then set_peer_address_validated true c else c in
  c ← deliver_frames lvl payload c;
  let sp := space lvl c in
  Some (set_space lvl (set_acks (on_received (acks sp) pn true) sp) c).

(** ** Packets in *)

Definition kTagLen : nat := 16.

Definition level_of_type (t : LongType) : option EncryptionLevel :=
  match t with
  | QuicPacket.Initial => Some LInitial
  | QuicPacket.Handshake => Some LHandshake
  | ZeroRtt => Some LEarlyData
  | Retry => None
  end.

(** Header protection taken off in place: the first byte, then the packet
    number, whose length the first byte gives. *)
Definition unmask (mask : bytes) (first_mask : Z) (pn_off : nat) (pkt : bytes) : bytes * nat :=
  let pkt := xor_at 0 (default 0 (mask !! 0%nat) .& first_mask) pkt in
  let pn_len := Z.to_nat ((default 0 (pkt !! 0%nat) .& 0x03) + 1) in
  (mask_pn (drop 1 mask) pn_off pn_len pkt, pn_len).

(** The number and the payload of a long-header packet [pkt] whose packet
    number starts at [pn_off], computed modulo 2^64 like every offset here.
    [None]: an access outside [pkt]; [Some None]: the packet is skipped. *)
Definition open_long (sp : Space) (pkt : bytes) (pn_off len : Z) : option (option (Z * bytes)) :=
  if #pkt <? u64 (pn_off + 4 + Z.of_nat kSampleLen) then Some None else
  if #pkt <? pn_off + 4 + Z.of_nat kSampleLen then None else
  let off := Z.to_nat pn_off in
  let mask := hp_mask (sp_aead sp) (hp (recv_keys sp)) (take kSampleLen (drop (off + 4) pkt)) in
  let '(pkt, pn_len) := unmask mask 0x0F off pkt in
  let trunc := be_fold 0 (take pn_len (drop off pkt)) in
  let pn := decode_packet_number (if any_recv sp then largest_recv_pn sp else 0) trunc (Z.of_nat pn_len * 8) in
  let header_len := u64 (pn_off + Z.of_nat pn_len) in
  let ct_len := u64 (len - Z.of_nat pn_len) in
  if (#pkt <? u64 (header_len + ct_len)) || (ct_len <? Z.of_nat kTagLen) then Some None else
  if #pkt <? header_len + ct_len then None else
  let header_len := Z.to_nat header_len in
  let nonce := make_aead_nonce (iv (recv_keys sp)) pn in
  Some (pt ← open_inplace (recv_ctx sp) nonce (take header_len pkt) (take (Z.to_nat ct_len) (drop header_len pkt));
        Some (pn, pt)).

(** The connection, the new [off] and the number of bytes consumed. *)
Definition process_long_packet (datagram : bytes) (off : nat) (c : Conn) : option (Conn * nat * nat) :=
  match parse_long_header datagram off [] with
  | None => Some (c, off, 0%nat)
  | Some (hdr, cursor) =>
      match level_of_type (type hdr) with
      | None => Some (c, off, 0%nat)
      | Some lvl =>
          let sp := space lvl c in
          if negb (recv_keys_ready sp) then Some (c, cursor, (cursor - cursor)%nat) else
          let pkt := take (cursor - off) (drop off datagram) in
          r ← open_long sp pkt (u64 (Z.of_nat (pn_offset hdr) - Z.of_nat off)) (length_ hdr);
          match r with
          | None => Some (c, cursor, (cursor - off)%nat)
          | Some (pn, payload) =>
              c ← accept_packet lvl pn payload c;
              Some (c, cursor, (cursor - off)%nat)
          end
      end
  end.

(** The current keys, or the next ones when the key phase has flipped, in
    which case the update is committed. *)
Definition open_short (sp : Space) (kp pn : Z) (aad ct : bytes) : option (option (bytes * Space)) :=
  if kp =? recv_key_phase sp then
    Some (pt ← open_inplace (recv_ctx sp) (make_aead_nonce (iv (recv_keys sp)) pn) aad ct; Some (pt, sp))
  else if negb (next_keys_ready sp) then Some None
  else
    match open_inplace (next_recv_ctx sp) (make_aead_nonce (iv (next_recv_keys sp)) pn) aad ct with
    | None => Some None
    | Some pt =>
        sp ← rotate_recv sp;
        sp ← (if negb (send_key_phase sp =? recv_key_phase sp) then rotate_send sp else Some sp);
        Some (Some (pt, sp))
    end.

Definition process_short_packet (dg : bytes) (c : Conn) : option (bool * Conn) :=
  let sp := space LApplication c in
  if negb (recv_keys_ready sp) then Some (false, c) else
  if (length dg <? 1 + length (scid_ c) + 4 + 16)%nat then Some (false, c) else
  let pn_off := (1 + length (scid_ c))%nat in
  if (length dg <? pn_off + 4 + kSampleLen)%nat then Some (false, c) else
  let mask := hp_mask (sp_aead sp) (hp (recv_keys sp)) (take kSampleLen (drop (pn_off + 4) dg)) in
  let '(dg, pn_len) := unmask mask 0x1F pn_off dg in
  let peer_kp := u8 ((default 0 (dg !! 0%nat) .>> 2) .& 0x01) in
  let truncated := be_fold 0 (take pn_len (drop pn_off dg)) in
  let pn := decode_packet_number (if any_recv sp then largest_recv_pn sp else 0) truncated (Z.of_nat pn_len * 8) in
  let header_len := (pn_off + pn_len)%nat in
  if (length dg - header_len <? kTagLen)%nat then Some (false, c) else
  r ← open_short sp peer_kp pn (take header_len dg) (drop header_len dg);
  match r with
  | None => Some (false, c)
  | Some (payload, sp) =>
      c ← accept_packet LApplication pn payload (set_space LApplication sp c);
      Some (true, c)
  end.

(** ** Packets out *)

(** Header up to the packet number, and the bits of its first byte under
    header protection; [None] is [VarInt::append] throwing. *)
Definition packet_header (lvl : EncryptionLevel) (c : Conn) (payload_len : nat) : option (bytes * Z) :=
  if bool_decide (lvl = LHandshake) then
    let first := u8 (0x80 .| 0x40 .| u8 (type_code QuicPacket.Handshake .<< 4) .| u8 (4 - 1)) in
    let buf := [first; u8 (kQuicV1 .>> 24); u8 (kQuicV1 .>> 16); u8 (kQuicV1 .>> 8); u8 kQuicV1] in
    let buf := buf ++ u8 (#(dcid_ c)) :: dcid_ c ++ u8 (#(scid_ c)) :: scid_ c in
    buf ← VarInt.append buf (Z.of_nat (4 + payload_len + kTagLen));
    Some (buf, 0x0F)
  else
    let first := u8 (0x40 .| (send_key_phase (space lvl c) .<< 2) .| u8 (4 - 1)) in
    Some (first :: dcid_ c, 0x1F).

(** Sealing into the scratch buffer: [Some None] when [seal_inplace] fails. *)
Definition protect (lvl : EncryptionLevel) (c : Conn) (pn : Z) (payload : bytes) : option (option bytes) :=
  let sp := space lvl c in
  '(buf, hp_first_mask) ← packet_header lvl c (length payload);
  let pn_offset := length buf in
  let aad := buf ++ be_bytes 4 pn in
  match seal_inplace (send_ctx sp) (make_aead_nonce (iv (send_keys sp)) pn) aad payload with
  | None => Some None
  | Some sealed =>
      let buf := aad ++ sealed in
      let mask := hp_mask (sp_aead sp) (hp (send_keys sp)) (take kSampleLen (drop (pn_offset + 4) buf)) in
      let buf := xor_at 0 (default 0 (mask !! 0%nat) .& hp_first_mask) buf in
      Some (Some (mask_pn (drop 1 mask) pn_offset 4 buf))
  end.

(** The datagram of a packet: the Initial helper, or the scratch buffer. *)
Definition build_packet (lvl : EncryptionLevel) (c : Conn) (pn : Z) (payload : bytes) : option (option bytes) :=
  let sp := space lvl c in
  if bool_decide (lvl = LInitial) then
    dg ← build_initial_packet hp_mask lib_seal (sp_aead sp) (send_keys sp) (dcid_ c) (scid_ c) [] payload pn;
    Some (Some dg)
  else protect lvl c pn payload.

(** [sp.next_send_pn++] *)
Definition take_pn (lvl : EncryptionLevel) (c : Conn) : Z * Conn :=
  let sp := space lvl c in
  (next_send_pn sp, set_space lvl (set_next_send_pn (u64 (next_send_pn sp + 1)) sp) c).

Definition count_unvalidated (n : Z) (c : Conn) : Conn :=
  if negb (peer_address_validated_ c) then set_sent_bytes_unvalidated (u64 (sent_bytes_unvalidated_ c + n)) c else c.

Definition best_level (c : Conn) : EncryptionLevel :=
  if send_keys_ready (space LApplication c) then LApplication
  else if send_keys_ready (space LHandshake c) then LHandshake
  else LInitial.

(** The CONNECTION_CLOSE branch. *)
Definition send_close (lvl : EncryptionLevel) (f : ConnectionCloseFrame) (c : Conn) : option Conn :=
  if negb (bool_decide (lvl = best_level c)) then Some c else
  payload ← encode_frame [] (ConnectionClose f);
  let '(pn, c) := take_pn lvl c in
  dg ← build_packet lvl c pn payload;
  let c := match dg with
           | None => c
           | Some dg => send_datagram dg (count_unvalidated (#dg) c)
           end in
  Some (set_pending_close None c).

(** One round of the [while (budget > 0)] loop over a stream: the send half,
    the two budgets, the total of fresh bytes and the frames so far. *)
Record Pull := mkPull {
  pull_side : SendSide; pull_budget : Z; pull_conn_budget : Z; pull_total : Z; pull_frames : list StreamFrame }.

Definition pull_round (sid : Z) (p : Pull) : Pull + option Pull :=
  if pull_budget p <=? 0 then inr (Some p) else
  match pull_send (pull_side p) (pull_budget p) (pull_conn_budget p) with
  | None => inr None
  | Some (got, s) =>
      let n := #(p_data got) in
      if (n =? 0) && negb (p_fin got) then inr (Some (mkPull s (pull_budget p) (pull_conn_budget p) (pull_total p) (pull_frames p))) else
      let fresh := u64 (send_next_offset s - send_next_offset (pull_side p)) in
      let sf := QuicFrame.mkStream sid (default 0 (p_offset got)) true (p_fin got) (p_data got) in
      let p' := mkPull s (pull_budget p - n) (u64 (pull_conn_budget p - fresh)) (u64 (pull_total p + fresh)) (pull_frames p ++ [sf]) in
      if n =? 0 then inr (Some p') else inl p'
  end.

Definition kStreamBudget : Z := 1100.

Definition pull_stream (sid : Z) (s : SendSide) (conn_budget total : Z) (frames : list StreamFrame) : option Pull :=
  r ← loop (pull_round sid) (S (Z.to_nat kStreamBudget)) (mkPull s kStreamBudget conn_budget total frames);
  r.

(** The loop over [streams_]: the streams, the total and the frames. *)
Fixpoint pull_streams (m : list (Z * QuicStream.Stream)) (conn_budget total : Z) (frames : list StreamFrame)
    : option (list (Z * QuicStream.Stream) * Z * list StreamFrame) :=
  match m with
  | [] => Some ([], total, frames)
  | (sid, s) :: m =>
      p ← pull_stream sid (send s) conn_budget total frames;
      '(m, total, frames) ← pull_streams m (pull_conn_budget p) (pull_total p) (pull_frames p);
      Some ((sid, on_send_side (fun _ => pull_side p) s) :: m, total, frames)
  end.

(** Step 2 of [build_and_send]. *)
Definition collect_streams (lvl : EncryptionLevel) (c : Conn) : option (list StreamFrame * Conn) :=
  if bool_decide (lvl = LApplication) then
    let peer_md := initial_max_data (peer_transport_params (tls_ c)) in
    let c := if conn_send_max_data_ c <? peer_md then set_conn_send_max_data peer_md c else c in
    let conn_budget := if conn_send_total_ c <? conn_send_max_data_ c then conn_send_max_data_ c - conn_send_total_ c else 0 in
    '(m, total, frames) ← pull_streams (streams_ c) conn_budget (conn_send_total_ c) [];
    Some (frames, set_conn_send_total total (set_streams m c))
  else Some ([], c).

(** Step 3. *)
Definition collect_ack (lvl : EncryptionLevel) (c : Conn) : option AckFrame * Conn :=
  let sp := space lvl c in
  if needs_ack (acks sp) then
    let '(f, a) := build_ack_frame (acks sp) 0 in
    (Some f, set_space lvl (set_acks a sp) c)
  else (None, c).

(** Steps 5 and 6. *)
Definition collect_path_responses (lvl : EncryptionLevel) (c : Conn) : list bytes * Conn :=
  if bool_decide (lvl = LApplication) then (pending_path_responses_ c, set_pending_path_responses [] c) else ([], c).

Definition collect_control (lvl : EncryptionLevel) (c : Conn) : list Frame * Conn :=
  if bool_decide (lvl = LApplication) then
    let fs := (if max_data_pending_ c then [MaxData (conn_recv_max_data_ c)] else []) ++
              (if max_streams_bidi_pending_ c then [MaxStreams true (local_max_streams_bidi_ c)] else []) ++
              (if max_streams_uni_pending_ c then [MaxStreams false (local_max_streams_uni_ c)] else []) in
    (fs, set_max_streams_uni_pending false (set_max_streams_bidi_pending false (set_max_data_pending false c)))
  else ([], c).

(** Everything collected for one packet. *)
Record Outgoing := mkOutgoing {
  o_crypto : list CryptoFrame; o_streams : list StreamFrame; o_ack : option AckFrame; o_hs_done : bool;
  o_path : list bytes; o_control : list Frame }.

Definition collect (lvl : EncryptionLevel) (c : Conn) : option (Outgoing * Conn) :=
  let crypto := at_level lvl (crypto_pending_ c) in
  let c := set_crypto_pending (set_level lvl [] (crypto_pending_ c)) c in
  '(streams, c) ← collect_streams lvl c;
  let '(ack, c) := collect_ack lvl c in
  let hs_done := bool_decide (lvl = LApplication) && tls_established (tls_ c) && negb (sent_handshake_done_ c) in
  let '(path, c) := collect_path_responses lvl c in
  let '(control, c) := collect_control lvl c in
  Some (mkOutgoing crypto streams ack hs_done path control, c).

Definition is_empty {A} (l : list A) : bool := match l with [] => true | _ => false end.

Definition nothing_to_send (o : Outgoing) : bool :=
  is_empty (o_crypto o) && is_empty (o_streams o) && negb (bool_decide (is_Some (o_ack o))) && negb (o_hs_done o)
  && is_empty (o_path o) && is_empty (o_control o).

(** The frames in the order [build_payload] and the control loop append them. *)
Definition payload_frames (o : Outgoing) : list Frame :=
  (match o_ack o with Some a => [Ack a] | None => [] end) ++
  (Crypto <$> o_crypto o) ++ (QuicFrame.Stream <$> o_streams o) ++ (PathResponse <$> o_path o) ++
  (if o_hs_done o then [HandshakeDone] else []) ++ o_control o.

Definition build_payload (o : Outgoing) : option bytes := encode_frames [] (payload_frames o).

Definition eliciting (lvl : EncryptionLevel) (o : Outgoing) : bool :=
  negb (is_empty (o_crypto o)) || negb (is_empty (o_streams o)) || o_hs_done o ||
  (if bool_decide (lvl = LInitial) then false else negb (is_empty (o_path o)) || negb (is_empty (o_control o))).

(** Recording and sending a built datagram. *)
Definition track_and_send (lvl : EncryptionLevel) (o : Outgoing) (pn : Z) (dg : bytes) (c : Conn) : Conn :=
  let '(now, c) := read_clock c in
  let r := mkSentRecord lvl (eliciting lvl o) (#dg) now (o_crypto o) (o_streams o) in
  let c := set_sent_at_level lvl (sm_emplace pn r (sent_at_level lvl c)) c in
  let c := if eliciting lvl o then
             let c := set_congestion (Congestion.on_packet_sent (congestion_ c) (#dg)) c in
             set_space lvl (set_any_ack_eliciting_sent true (set_last_ack_eliciting_send_time now (space lvl c))) c
           else c in
  let c := if negb (bool_decide (lvl = LInitial)) && o_hs_done o then set_sent_handshake_done true c else c in
  send_datagram dg (count_unvalidated (#dg) c).

Definition kMaxDatagramEstimate : Z := 1500.

Definition amplification_blocked (c : Conn) : bool :=
  negb (peer_address_validated_ c) &&
  (u64 (3 * recv_bytes_total_ c) <? u64 (sent_bytes_unvalidated_ c + kMaxDatagramEstimate)).

Definition build_and_send (lvl : EncryptionLevel) (c : Conn) : option (bool * Conn) :=
  if negb (send_keys_ready (space lvl c)) then Some (false, c) else
  if decide (state_ c = Draining \/ state_ c = Closed) then Some (false, c) else
  match pending_close_ c with
  | Some f => c ← send_close lvl f c; Some (false, c)
  | None =>
      if amplification_blocked c then Some (false, c) else
      '(o, c) ← collect lvl c;
      if nothing_to_send o then Some (false, c) else
      payload ← build_payload o;
      let '(pn, c) := take_pn lvl c in
      dg ← build_packet lvl c pn payload;
      match dg with
      | None => Some (false, c)
      | Some dg => Some (true, track_and_send lvl o pn dg c)
      end
  end.

(** [build_and_send] at most [n] times, as long as it returns true.  The
    datagram path bounds the rounds by 64; the timer does not. *)
Fixpoint send_rounds (n : nat) (lvl : EncryptionLevel) (c : Conn) : option (bool * Conn) :=
  match n with
  | O => Some (true, c)
  | S n => '(again, c) ← build_and_send lvl c; if (again : bool) then send_rounds n lvl c else Some (false, c)
  end.

(** ** Entry points *)

Definition settle_state (c : Conn) : Conn :=
  if tls_established (tls_ c) && bool_decide (state_ c = Handshaking) then set_state Established c else c.

Definition datagram_step (datagram : bytes) (st : nat * Conn) : (nat * Conn) + option (bool * Conn) :=
  let '(off, c) := st in
  if (off <? length datagram)%nat then
    if default 0 (datagram !! off) .& 0x80 =? 0 then
      inr (r ← process_short_packet (drop off datagram) c; Some (true, r.2))
    else
      match process_long_packet datagram off c with
      | None => inr None
      | Some (c, off', consumed) => if (consumed =? 0)%nat then inr (Some (true, c)) else inl (off', c)
      end
  else inr (Some (false, c)).

(** The [while] over the packets of a datagram; [true] when it returned. *)
Definition process_packets (datagram : bytes) (c : Conn) : option (bool * Conn) :=
  r ← loop (datagram_step datagram) (S (length datagram)) (0%nat, c);
  r.

Definition kSafety : nat := 64.

Definition pump_tls (c : Conn) : option Conn :=
  c ← install_new_keys c;
  install_new_keys (set_tls (tls_advance (tls_ c)) c).

Definition on_datagram (datagram : bytes) (c : Conn) : option Conn :=
  if decide (state_ c = Closed \/ state_ c = Draining) then Some c else
  let '(now, c) := read_clock c in
  let c := set_last_activity now c in
  let c := set_recv_bytes_total (u64 (recv_bytes_total_ c + #datagram)) c in
  '(returned, c) ← process_packets datagram c;
  if (returned : bool) then Some c else
  c ← pump_tls c;
  let c := pull_crypto_from_tls c in
  c ← for_each (fun c lvl => r ← send_rounds kSafety lvl c; Some r.2) send_levels c;
  Some (settle_state c).

Definition check_idle_timeout (c : Conn) : option Conn :=
  if negb (bool_decide (state_ c = Handshaking \/ state_ c = Established)) then Some c else
  let local_ms := max_idle_timeout_ms (local_tp_ c) in
  let peer_ms := max_idle_timeout_ms (peer_transport_params (tls_ c)) in
  if (local_ms =? 0) && (peer_ms =? 0) then Some c else
  let effective_ms := if (0 <? local_ms) && (0 <? peer_ms) then Z.min local_ms peer_ms
                      else if 0 <? local_ms then local_ms else peer_ms in
  let '(now, c) := read_clock c in
  limit ← to_duration 1000000 effective_ms;
  Some (if limit <=? now - last_activity_ c then set_state Draining c else c).

(** Everything [on_timer] does before its send loops; [None] inside when it
    returned early. *)
Definition timer_work (c : Conn) : option (bool * Conn) :=
  c ← check_idle_timeout c;
  if decide (state_ c = Draining \/ state_ c = Closed) then Some (true, c) else
  c ← pump_tls c;
  c ← check_pto c;
  let c := pull_crypto_from_tls c in
  let c := retire_closed_streams c in
  Some (false, refresh_conn_recv_window c).

(** One level of the timer's send loop, with fuel; out of fuel is [None]. *)
Definition drain_level (fuel : nat) (c : Conn) (lvl : EncryptionLevel) : option Conn :=
  '(again, c) ← send_rounds fuel lvl c;
  if (again : bool) then None else Some c.

Definition on_timer (fuel : nat) (c : Conn) : option Conn :=
  '(returned, c) ← timer_work c;
  if (returned : bool) then Some c else
  c ← for_each (drain_level fuel) send_levels c;
  Some (settle_state c).

(** ** Runs

    Everything that can happen to a connection.  The timer is split into its
    work and its rounds of [build_and_send], so that a run may have any number
    of rounds. *)
Inductive Event :=
| EvDatagram (datagram : bytes)
| EvTimer
| EvSend (lvl : EncryptionLevel)
| EvSettle
| EvWrite (stream_id : Z) (data : bytes) (fin : bool)
| EvRead (stream_id : Z)
| EvClose (err : Z) (app : bool) (why : bytes) (ftype : Z)
| EvKeyUpdate
| EvValidated.

Definition run_event (c : Conn) (e : Event) : option Conn :=
  match e with
  | EvDatagram dg => on_datagram dg c
  | EvTimer => r ← timer_work c; Some r.2
  | EvSend lvl => r ← build_and_send lvl c; Some r.2
  | EvSettle => Some (settle_state c)
  | EvWrite sid data fin => Some (write_stream sid data fin c)
  | EvRead sid => Some (read_stream sid c).2
  | EvClose err app why ftype => Some (close_with_error err app why ftype c)
  | EvKeyUpdate => r ← initiate_key_update c; Some r.2
  | EvValidated => Some (mark_peer_address_validated c)
  end.

Definition run_events (es : list Event) (c : Conn) : option Conn := for_each run_event es c.
End Connection.

(** ** An instance of the TLS interface

    A handshake that yields the traffic secrets at the first [advance] and is
    complete at the second; the state counts the calls. *)
Definition demo_peer : TransportParameters :=
  mkTp None None None None 0 65527 100 50 50 50 4 4 3 25 2 false [].

Definition demo_tls : Tls nat := {|
  tls_advance := S;
  tls_established n := (2 <=? n)%nat;
  deliver_crypto lvl d n := n;
  out_crypto lvl n := [];
  clear_out_crypto lvl n := n;
  read_secret lvl n := if (n =? 0)%nat then [] else [1; 2; 3];
  write_secret lvl n := if (n =? 0)%nat then [] else [4; 5; 6];
  negotiated_aead n := Aes128Gcm;
  peer_transport_params n := demo_peer |}.

Lemma demo_tls_laws : @TlsLaws nat demo_tls.
Proof. split. intros n. vm_compute. split; congruence. Qed.

(** Ten seconds between readings. *)
Definition demo_clock (n : nat) : Z := Z.of_nat n * 10000000000.

Definition demo_tp : TransportParameters :=
  mkTp None None None None 0 65527 1000 200 200 200 4 4 3 25 2 false [].

Definition demo_conn : option Conn := @new_connection nat toy_lib demo_clock 0%nat [9; 9] [8; 8] [7; 7; 7] demo_tp.
