(* ===== verification/QuicConnStreams.v ===== *)
(** * QUIC connection: the streams' send halves

    A stream's send half is safe only when its connection follows a protocol
    (QuicStream, [send_step]): every range pulled into a packet is later
    acknowledged or declared lost at most once, and never anything else.
    This file shows that the connection does so: whatever arrives, each
    stream's ranges in flight are those of the packets recorded in [sent_]
    (and possibly some of packets that were never sent). *)
From stdpp Require Import sorting.
From S2P Require Import Prelude VarInt SortedMap QuicPacket QuicCrypto QuicFrame PnSpace QuicCongestion QuicStream TransportParams QuicConn.

Local Open Scope Z_scope.

(** ** Ranges in flight *)

(** The range a STREAM frame carries. *)
Definition frame_range (sf : StreamFrame) : list (Z * Z) :=
  match sf_data sf with [] => [] | _ => [(sf_offset sf, #(sf_data sf))] end.

Definition ranges_for (sid : Z) (sf : StreamFrame) : list (Z * Z) :=
  if sf_stream_id sf =? sid then frame_range sf else [].

Definition ranges_of (sid : Z) (fs : list StreamFrame) : list (Z * Z) := concat (ranges_for sid <$> fs).

Definition map_ranges (sid : Z) (m : list (Z * SentRecord)) : list (Z * Z) :=
  concat ((fun kr => ranges_of sid (rec_streams kr.2)) <$> m).

Definition flight (sid : Z) (p : PerLevel (list (Z * SentRecord))) : list (Z * Z) :=
  map_ranges sid (at_initial p) ++ map_ranges sid (at_early p) ++ map_ranges sid (at_handshake p) ++
  map_ranges sid (at_application p).

(** The ranges of the levels other than [l]. *)
Definition elsewhere (l : EncryptionLevel) (sid : Z) (p : PerLevel (list (Z * SentRecord))) : list (Z * Z) :=
  flight sid (set_level l [] p).

Lemma flight_split l sid p : flight sid p ≡ₚ map_ranges sid (at_level l p) ++ elsewhere l sid p.
Proof.
  unfold elsewhere, flight. destruct l; cbn [set_level at_initial at_early at_handshake at_application at_level];
    change (map_ranges sid []) with (@nil (Z * Z)); solve_Permutation.
Qed.

Lemma elsewhere_set l sid m p : elsewhere l sid (set_level l m p) = elsewhere l sid p.
Proof. by destruct l. Qed.

Lemma at_set_level {A} l (v : A) p : at_level l (set_level l v p) = v.
Proof. by destruct l. Qed.

Lemma set_level_same {A} l (p : PerLevel A) : set_level l (at_level l p) p = p.
Proof. by destruct l, p. Qed.

Lemma at_set_other {A} l l' (v : A) p : l <> l' -> at_level l (set_level l' v p) = at_level l p.
Proof. by destruct l, l'. Qed.

Lemma ranges_of_app sid a b : ranges_of sid (a ++ b) = ranges_of sid a ++ ranges_of sid b.
Proof. unfold ranges_of. by rewrite fmap_app, concat_app. Qed.

Lemma ranges_of_none sid fs : Forall (fun sf => sf_stream_id sf <> sid) fs -> ranges_of sid fs = [].
Proof.
  induction 1 as [|sf fs Hx _ IH]; [done|]. unfold ranges_of in *. cbn [fmap list_fmap concat]. rewrite IH. unfold ranges_for.
  by rewrite (proj2 (Z.eqb_neq _ _)).
Qed.

Lemma map_ranges_cons sid k r m : map_ranges sid ((k, r) :: m) = ranges_of sid (rec_streams r) ++ map_ranges sid m.
Proof. done. Qed.

(** ** The invariant of the streams *)

(** A stream the server may not write to. *)
Definition recv_only (sid : Z) : bool := negb (is_bidi sid) && is_client_initiated sid.

(** One entry of [streams_]: [w] is what the application wrote to the stream,
    [fl] its ranges in flight; [orphans] are ranges of packets that were not
    sent after all.  An id without a stream has nothing in flight. *)
Definition stream_ok (w : bytes) (fl : list (Z * Z)) (sid : Z) (o : option QuicStream.Stream) : Prop :=
  match o with
  | Some s =>
      QuicStream.id s = sid /\ send_state (send s) <> SResetRecvd /\ (recv_only sid = true -> w = []) /\
      exists orphans, send_ok (w, fl ++ orphans, send s)
  | None => fl = [] /\ w = []
  end.

Definition streams_ok (W : Z -> bytes) (fl : Z -> list (Z * Z)) (m : list (Z * QuicStream.Stream)) : Prop :=
  sorted_map m /\ forall sid, stream_ok (W sid) (fl sid) sid (sm_find sid m).

Lemma send_ok_perm w fl fl' s : fl ≡ₚ fl' -> send_ok (w, fl, s) -> send_ok (w, fl', s).
Proof.
  intros Hp [Hi Ht]. split; [|done]. destruct Hi as [H1 H2 H3 H4 H5 H6 H7 H8 H9]. split; try done.
  - intros p. rewrite <- H6. apply cnt_perm. by rewrite Hp.
  - by rewrite <- Hp.
Qed.

Lemma stream_ok_perm w fl fl' sid o : fl ≡ₚ fl' -> stream_ok w fl sid o -> stream_ok w fl' sid o.
Proof.
  intros Hp. destruct o as [s|]; cbn.
  - intros (? & ? & ? & orph & H). split_and!; try done. exists orph. eapply send_ok_perm; [|done]. by rewrite Hp.
  - intros [-> ->]. split; [|done]. by apply Permutation_nil.
Qed.

Lemma streams_ok_perm W fl fl' m : (forall sid, fl sid ≡ₚ fl' sid) -> streams_ok W fl m -> streams_ok W fl' m.
Proof. intros Hp [? H]. split; [done|]. intros sid. eapply stream_ok_perm; [apply Hp|apply H]. Qed.

(** Dropping ranges from the flight turns them into orphans. *)
Lemma streams_ok_drop W fl fl' lost m : (forall sid, fl sid ≡ₚ fl' sid ++ lost sid) -> streams_ok W fl m -> streams_ok W fl' m.
Proof.
  intros Hp [? H]. split; [done|]. intros sid. specialize (H sid). specialize (Hp sid). destruct (sm_find sid m) as [s|]; cbn in *.
  - destruct H as (? & ? & ? & orph & H). split_and!; try done. exists (lost sid ++ orph). rewrite app_assoc. eapply send_ok_perm; [|done]. by rewrite Hp.
  - destruct H as [Hn ->]. rewrite Hn in Hp. apply Permutation_nil, app_eq_nil in Hp as [-> _]. done.
Qed.

(** ** Acknowledgement and loss *)

Definition notify_map (f : SendSide -> Z -> Z -> SendSide) (m : list (Z * QuicStream.Stream)) (sf : StreamFrame) :
    list (Z * QuicStream.Stream) :=
  sm_update (sf_stream_id sf) (on_send_side (fun x => f x (sf_offset sf) (#(sf_data sf)))) m.

(** What [on_acked] and [on_lost] have in common: they take a range out of
    the flight. *)
Definition settles (f : SendSide -> Z -> Z -> SendSide) : Prop :=
  (forall w fl fl' s o n, 0 < n -> fl ≡ₚ (o, n) :: fl' -> send_ok (w, fl, s) -> send_ok (w, fl', f s o n)) /\
  (forall w fl s o, send_ok (w, fl, s) -> send_ok (w, fl, f s o 0)) /\
  (forall s o n, send_state s <> SResetRecvd -> send_state (f s o n) <> SResetRecvd).

Lemma on_acked_state s o n : send_state (on_acked s o n) = send_state s \/ send_state (on_acked s o n) = SDataRecvd.
Proof.
  assert (Ht : forall s, send_state (try_advance_send_state_after_ack s) = send_state s \/ send_state (try_advance_send_state_after_ack s) = SDataRecvd).
  { intros t. unfold try_advance_send_state_after_ack. case_decide; [case_match; auto|auto]. }
  unfold on_acked. destruct (n =? 0).
  - destruct (send_fin_sent s); [|auto]. match goal with |- context [try_advance_send_state_after_ack ?x] => destruct (Ht x) as [->|]; auto end.
  - destruct (drain _ _ _) as [[? ?] ?]. cbv zeta. match goal with |- context [try_advance_send_state_after_ack ?x] => destruct (Ht x) as [->|]; auto end.
Qed.

Lemma on_lost_state s o n : send_state (on_lost s o n) = send_state s.
Proof. unfold on_lost. destruct (0 <? n); cbv zeta; case_match; done. Qed.

Lemma on_acked_settles : settles on_acked.
Proof.
  split_and!.
  - intros w fl fl' s o n Hn Hp H. exact (send_step_ok _ _ (step_ack w fl fl' s o n Hn Hp) H).
  - intros w fl s o H. exact (send_step_ok _ _ (step_ack_fin w fl s o) H).
  - intros s o n. destruct (on_acked_state s o n) as [->| ->]; done.
Qed.

Lemma on_lost_settles : settles on_lost.
Proof.
  split_and!.
  - intros w fl fl' s o n Hn Hp H. exact (send_step_ok _ _ (step_lost w fl fl' s o n Hn Hp) H).
  - intros w fl s o H. exact (send_step_ok _ _ (step_lost_fin w fl s o) H).
  - intros s o n. by rewrite on_lost_state.
Qed.

Lemma notify_ok f W fl fl' m sf : settles f -> (forall sid, fl sid ≡ₚ ranges_for sid sf ++ fl' sid) ->
  streams_ok W fl m -> streams_ok W fl' (notify_map f m sf).
Proof.
  intros (Hs1 & Hs2 & Hs3) Hp [Hsort H]. split; [by apply sorted_update|]. intros sid. specialize (H sid). specialize (Hp sid).
  unfold notify_map. rewrite find_update. unfold ranges_for in Hp. destruct (Z.eqb_spec (sf_stream_id sf) sid) as [E|]; [|by eapply stream_ok_perm].
  destruct (sm_find sid m) as [s|] eqn:Ef; cbn [fmap option_fmap option_map stream_ok] in *.
  - destruct H as (Hid & Hr & Hw & orph & H). split_and!; [done|by apply Hs3|done|]. exists orph. cbn [on_send_side send].
    unfold frame_range in Hp. destruct (sf_data sf) as [|b d] eqn:Ed.
    + apply Hs2. apply (send_ok_perm _ (fl sid ++ orph)); [by rewrite Hp|done].
    + apply (Hs1 (W sid) (fl sid ++ orph)); [cbn; lia|by rewrite Hp|done].
  - destruct H as [Hn ->]. rewrite Hn in Hp. apply Permutation_nil, app_eq_nil in Hp as [_ ->]. done.
Qed.

Lemma notify_all_ok f W fl fl' fs : forall m, settles f -> (forall sid, fl sid ≡ₚ ranges_of sid fs ++ fl' sid) ->
  streams_ok W fl m -> streams_ok W fl' (foldl (notify_map f) m fs).
Proof.
  revert fl. induction fs as [|sf fs IH]; intros fl m Hs Hp H; cbn [foldl].
  - by eapply streams_ok_perm.
  - apply (IH (fun sid => ranges_of sid fs ++ fl' sid)); [done|done|]. eapply notify_ok; [done| |done].
    intros sid. rewrite Hp. unfold ranges_of. cbn [fmap list_fmap concat]. by rewrite app_assoc.
Qed.

Section Connection.
Context {T : Type} {tls : Tls T} {lib : CryptoLib} (clock : nat -> Z).
Implicit Types c : Conn (T := T).

(** ** The erasing walks over [sent_] *)

(** Acknowledging or losing packets moves the streams, the clock, the
    congestion state and the CRYPTO data to send again, and nothing else. *)
Definition settle_step (c c' : Conn (T := T)) : Prop :=
  exists m t g p, c' = set_streams m (set_ticks t (set_congestion g (set_crypto_pending p c))).

Lemma settle_step_refl c : settle_step c c.
Proof. exists (streams_ c), (ticks c), (congestion_ c), (crypto_pending_ c). by destruct c. Qed.

Lemma settle_step_trans c1 c2 c3 : settle_step c1 c2 -> settle_step c2 c3 -> settle_step c1 c3.
Proof. intros (m & t & g & p & ->) (m' & t' & g' & p' & ->). by exists m', t', g', p'. Qed.

Lemma notify_fold f fs : forall c, foldl (notify_stream f) c fs = set_streams (foldl (notify_map f) (streams_ c) fs) c.
Proof. induction fs as [|sf fs IH]; intros c; cbn [foldl]; [by destruct c|]. by rewrite IH. Qed.

(** [h] disposes of one record. *)
Definition disposes (h : SentRecord -> Conn (T := T) -> Conn (T := T)) : Prop := forall r c, settle_step c (h r c) /\
  forall W R, streams_ok W (fun sid => ranges_of sid (rec_streams r) ++ R sid) (streams_ c) -> streams_ok W R (streams_ (h r c)).

Lemma ack_entry_disposes : disposes (ack_entry clock).
Proof.
  intros r c. unfold ack_entry. rewrite notify_fold. cbn [read_clock]. split.
  - eexists _, _, _, (crypto_pending_ c). by destruct c.
  - intros W R H. cbn. eapply notify_all_ok; [apply on_acked_settles| |exact H]. done.
Qed.

Lemma declare_lost_disposes lvl : disposes (fun r => declare_lost clock r lvl).
Proof.
  intros r c. unfold declare_lost. rewrite notify_fold. split.
  - destruct (ack_eliciting r); cbn [read_clock].
    + eexists _, _, _, _. by destruct c.
    + eexists _, (ticks c), (congestion_ c), _. by destruct c.
  - intros W R H. eapply notify_all_ok with (fl' := R) in H; [|apply on_lost_settles|done]. by destruct (ack_eliciting r).
Qed.

(** The walks keep some records, in order, and dispose of the others. *)
Inductive walks (h : SentRecord -> Conn (T := T) -> Conn (T := T)) :
    list (Z * SentRecord) -> Conn (T := T) -> list (Z * SentRecord) -> Conn (T := T) -> Prop :=
| walks_stop m c : walks h m c m c
| walks_keep k r m c kept c' : walks h m c kept c' -> walks h ((k, r) :: m) c ((k, r) :: kept) c'
| walks_drop k r m c kept c' : walks h m (h r c) kept c' -> walks h ((k, r) :: m) c kept c'.

Lemma ack_walk_walks lo hi m : forall c, walks (ack_entry clock) m c (ack_walk clock lo hi m c).1 (ack_walk clock lo hi m c).2.
Proof.
  induction m as [|[pn r] m IH]; intros c; cbn [ack_walk]; [apply walks_stop|].
  destruct (pn <? lo).
  - specialize (IH c). destruct (ack_walk clock lo hi m c). by apply walks_keep.
  - destruct (pn <=? hi); [apply walks_drop, IH|apply walks_stop].
Qed.

Lemma loss_walk_walks lvl largest cutoff m : forall c,
  walks (fun r => declare_lost clock r lvl) m c (loss_walk clock lvl largest cutoff m c).1 (loss_walk clock lvl largest cutoff m c).2.
Proof.
  induction m as [|[pn r] m IH]; intros c; cbn [loss_walk]; [apply walks_stop|].
  destruct (largest <=? pn); [apply walks_stop|]. destruct (_ && _).
  - specialize (IH c). destruct (loss_walk clock lvl largest cutoff m c). by apply walks_keep.
  - apply walks_drop, IH.
Qed.

Lemma pto_walk_walks lvl m : forall c,
  walks (fun r => declare_lost clock r lvl) m c (pto_walk clock lvl m c).1 (pto_walk clock lvl m c).2.
Proof.
  induction m as [|[pn r] m IH]; intros c; cbn [pto_walk]; [apply walks_stop|].
  destruct (negb (ack_eliciting r)).
  - specialize (IH c). destruct (pto_walk clock lvl m c). by apply walks_keep.
  - apply walks_drop, IH.
Qed.

Lemma walks_ok h m c kept c' : disposes h -> walks h m c kept c' -> settle_step c c' /\ kept `sublist_of` m /\
  forall W R, streams_ok W (fun sid => map_ranges sid m ++ R sid) (streams_ c) ->
    streams_ok W (fun sid => map_ranges sid kept ++ R sid) (streams_ c').
Proof.
  intros Hh. induction 1 as [m c|k r m c kept c' _ (IH1 & IH2 & IH3)|k r m c kept c' _ (IH1 & IH2 & IH3)].
  - split_and!; [apply settle_step_refl|done|auto].
  - split_and!; [done|by constructor|]. intros W R H.
    apply (streams_ok_perm _ (fun sid => map_ranges sid kept ++ (ranges_of sid (rec_streams r) ++ R sid))).
    { intros sid. rewrite map_ranges_cons. solve_Permutation. }
    apply IH3. eapply streams_ok_perm; [|exact H]. intros sid. cbn beta. rewrite map_ranges_cons. solve_Permutation.
  - destruct (Hh r c) as [Hs Hd]. split_and!; [by eapply settle_step_trans|by constructor|]. intros W R H.
    apply IH3, Hd. eapply streams_ok_perm; [|exact H]. intros sid. cbn beta. by rewrite map_ranges_cons, app_assoc.
Qed.

(** ** The invariant of the connection *)

Definition send_safe (W : Z -> bytes) (c : Conn (T := T)) : Prop := streams_ok W (fun sid => flight sid (sent_ c)) (streams_ c).

(** Replacing the records of a level by what a walk kept. *)
Lemma walk_level_ok h W lvl c kept c' : disposes h -> walks h (sent_at_level lvl c) c kept c' ->
  send_safe W c -> send_safe W (set_sent_at_level lvl kept c').
Proof.
  intros Hh Hw H. destruct (walks_ok _ _ _ _ _ Hh Hw) as ((m & t & g & p & Ec) & _ & Hok). unfold send_safe in *.
  change (streams_ (set_sent_at_level lvl kept c')) with (streams_ c'). change (sent_ (set_sent_at_level lvl kept c')) with (set_level lvl kept (sent_ c')).
  assert (Es : sent_ c' = sent_ c) by by rewrite Ec. rewrite Es.
  eapply streams_ok_perm; [|apply (Hok W (fun sid => elsewhere lvl sid (sent_ c)))].
  - intros sid. cbn beta. rewrite (flight_split lvl). by rewrite at_set_level, elsewhere_set.
  - eapply streams_ok_perm; [|exact H]. intros sid. cbn beta. apply flight_split.
Qed.

Lemma send_safe_ext W c c' : streams_ c' = streams_ c -> sent_ c' = sent_ c -> send_safe W c -> send_safe W c'.
Proof. unfold send_safe. by intros -> ->. Qed.

Lemma ack_range_safe W lvl lo hi c : send_safe W c -> send_safe W (ack_range clock lvl lo hi c).
Proof.
  intros H. unfold ack_range. destruct (hi <? lo); [done|]. pose proof (ack_walk_walks lo hi (sent_at_level lvl c) c) as Hw.
  destruct (ack_walk clock lo hi (sent_at_level lvl c) c). eapply walk_level_ok; [apply ack_entry_disposes|exact Hw|done].
Qed.

Lemma ack_more_ranges_safe W lvl rs : forall lo c, send_safe W c -> send_safe W (ack_more_ranges clock lvl lo rs c).
Proof.
  induction rs as [|r rs IH]; intros lo c H; cbn [ack_more_ranges]; [done|]. destruct (_ <? _); [done|]. cbv zeta. destruct (_ <? _); [done|].
  apply IH, ack_range_safe, H.
Qed.

Lemma detect_loss_safe W lvl c : send_safe W c -> send_safe W (detect_and_handle_loss clock lvl c).
Proof.
  intros H. unfold detect_and_handle_loss. cbv zeta. destruct (negb _); [done|]. destruct (_ =? _)%nat; [done|]. cbn [read_clock].
  set (c1 := set_ticks _ c). set (cut := _ - _). pose proof (loss_walk_walks lvl (largest_acked_pn_ (space lvl c)) cut (sent_at_level lvl c1) c1) as Hw.
  destruct (loss_walk _ _ _ _ _ _). eapply walk_level_ok; [apply declare_lost_disposes|exact Hw|]. by apply (send_safe_ext W c).
Qed.

Lemma sample_rtt_ext t d c c' : sample_rtt clock t d c = Some c' -> streams_ c' = streams_ c /\ sent_ c' = sent_ c.
Proof. unfold sample_rtt. cbn [read_clock]. cbv zeta. intros H. inv_bind H. by injection H as <-. Qed.

Lemma on_ack_frame_safe W lvl f c c' : send_safe W c -> on_ack_frame clock lvl f c = Some c' -> send_safe W c'.
Proof.
  intros H. unfold on_ack_frame. cbv zeta. set (c1 := set_space lvl _ c).
  assert (H1 : send_safe W c1) by by apply (send_safe_ext W c). destruct (largest_acked f <? first_range f); [by intros [= <-]|].
  assert (H2 : send_safe W (ack_all_ranges clock lvl f c1)) by by apply ack_more_ranges_safe, ack_range_safe.
  generalize dependent (ack_all_ranges clock lvl f c1). intros c2 H2 E. apply bind_Some in E as (c5 & E & [= <-]). apply detect_loss_safe.
  destruct (rtt_basis lvl f c); [|by injection E as <-]. apply sample_rtt_ext in E as [? ?]. by apply (send_safe_ext W c2).
Qed.

Lemma pto_level_safe W now pto st lvl : send_safe W st.2 -> send_safe W (pto_level clock now pto st lvl).2.
Proof.
  destruct st as [fired c]. cbn [snd]. intros H. unfold pto_level. cbv zeta. destruct (negb _); [done|]. destruct (_ =? _)%nat; [done|]. destruct (_ <? _); [done|].
  pose proof (pto_walk_walks lvl (sent_at_level lvl c) c) as Hw. destruct (pto_walk _ _ _ _) as [kept c'].
  eapply (send_safe_ext W (set_sent_at_level lvl kept c')); [done|done|]. eapply walk_level_ok; [apply declare_lost_disposes|exact Hw|done].
Qed.

Lemma check_pto_safe W c c' : send_safe W c -> check_pto clock c = Some c' -> send_safe W c'.
Proof.
  intros H. unfold check_pto. intros E. apply bind_Some in E as (d & _ & E). cbn [read_clock] in E. cbv zeta in E.
  set (c1 := set_ticks _ c) in E. assert (H1 : send_safe W (false, c1).2) by by apply (send_safe_ext W c). revert E H1.
  generalize (false, c1). intros st E H1. assert (Hf : send_safe W (foldl (pto_level clock (clock (ticks c)) (Recovery.pto_timeout (recovery_ c) d)) st send_levels).2).
  { unfold send_levels. cbn [foldl]. by do 3 apply pto_level_safe. }
  destruct (foldl _ _ _) as [fired c2]. injection E as <-. destruct fired; [by apply (send_safe_ext W c2)|done].
Qed.

(** ** Pulling stream data into a packet *)

(** What the frames pulled from one stream are: slices of what the
    application wrote, the FIN on its last byte. *)
Definition frame_genuine (w : bytes) (sf : StreamFrame) : Prop :=
  0 <= sf_offset sf /\ sf_data sf = take (length (sf_data sf)) (drop (Z.to_nat (sf_offset sf)) w) /\
  (sf_fin sf = true -> sf_offset sf + #(sf_data sf) = #w).

(** [s0] and [p0] are the send half and the loop state at the start. *)
Record pulled (sid : Z) (w : bytes) (fl : list (Z * Z)) (p0 p : Pull) : Prop := {
  pulled_ok : exists fs, pull_frames p = pull_frames p0 ++ fs /\ Forall (fun sf => sf_stream_id sf = sid /\ frame_genuine w sf) fs /\
    send_ok (w, fl ++ ranges_of sid fs, pull_side p);
  pulled_state : send_state (pull_side p0) <> SResetRecvd -> send_state (pull_side p) <> SResetRecvd;
  pulled_budget : 0 <= pull_budget p;
  pulled_conn : 0 <= pull_conn_budget p;
  pulled_total : pull_total p + pull_conn_budget p = pull_total p0 + pull_conn_budget p0 }.

Lemma emit_fin_state s : send_state s <> SResetRecvd -> send_state (emit_fin s) <> SResetRecvd.
Proof. unfold emit_fin. by case_decide. Qed.

Lemma pull_not_reset s mb mf p s' : pull_send s mb mf = Some (p, s') -> send_state s <> SResetRecvd -> send_state s' <> SResetRecvd.
Proof.
  intros E Hs. assert (Hf : send_state (fin_only s).2 <> SResetRecvd) by (unfold fin_only; case_match; [by apply emit_fin_state|done]).
  unfold pull_send, pull_retransmit, pull_fresh in E. destruct (mb =? 0); [by injection E as <- <-|]. destruct (lost_ranges s) as [|r rest].
  - destruct (_ <=? _); [injection E as E; rewrite E in Hf; exact Hf|]. cbv zeta in E. destruct (_ =? 0); [injection E as E; rewrite E in Hf; exact Hf|].
    apply bind_Some in E as (d & _ & E). destruct (_ && _); injection E as <- <-; [by apply emit_fin_state|done].
  - apply bind_Some in E as (d & _ & E). injection E as <- <-. by destruct (_ && _).
Qed.

Lemma pull_next_mono s mb mf p s' : pull_send s mb mf = Some (p, s') -> 0 <= mb -> 0 <= mf -> send_next_offset s <= send_high_water s -> send_next_offset s <= send_next_offset s'.
Proof.
  intros E Hmb Hmf Hn. assert (He : forall t, send_next_offset (emit_fin t) = send_next_offset t) by (intros t; unfold emit_fin; by case_decide).
  assert (Hf : forall q t, fin_only s = (q, t) -> send_next_offset t = send_next_offset s).
  { intros q t. unfold fin_only. case_match; intros [= <- <-]; [apply He|done]. }
  unfold pull_send, pull_retransmit, pull_fresh in E. destruct (mb =? 0); [by injection E as <- <-|]. destruct (lost_ranges s) as [|r rest].
  - destruct (Z.leb_spec (send_limit s) (send_next_offset s)); [injection E as E; by rewrite (Hf _ _ E)|]. cbv zeta in E.
    destruct (_ =? 0); [injection E as E; by rewrite (Hf _ _ E)|].
    apply bind_Some in E as (d & _ & E). destruct (_ && _); injection E as <- <-; rewrite ?He; cbn; lia.
  - apply bind_Some in E as (d & _ & E). injection E as <- <-. by destruct (_ && _).
Qed.

Lemma pull_offset s mb mf p s' : pull_send s mb mf = Some (p, s') -> p_offset p = None -> p_data p = [] /\ p_fin p = false.
Proof.
  intros E. assert (Hf : forall q t, fin_only s = (q, t) -> p_offset q = None -> p_data q = [] /\ p_fin q = false).
  { intros q t. unfold fin_only. case_match; by intros [= <- <-]. }
  unfold pull_send, pull_retransmit, pull_fresh in E. destruct (mb =? 0); [by injection E as <- <-|]. destruct (lost_ranges s) as [|r rest].
  - destruct (_ <=? _); [injection E; eauto|]. cbv zeta in E. destruct (_ =? 0); [injection E; eauto|].
    apply bind_Some in E as (d & _ & E). destruct (_ && _); by injection E as <- <-.
  - apply bind_Some in E as (d & _ & E). by injection E as <- <-.
Qed.

(** One round on a stream in good standing: it does not leave the buffer,
    and what it hands out is accounted for. *)
Lemma pull_round_ok sid w fl p0 p : pulled sid w fl p0 p -> 0 <= pull_total p0 -> pull_total p0 <= pull_total p ->
  pull_total p0 + pull_conn_budget p0 < 2 ^ 64 ->
  match pull_round sid p with
  | inl p' => pulled sid w fl p0 p' /\ pull_total p <= pull_total p' /\ pull_budget p' < pull_budget p
  | inr r => exists p', r = Some p' /\ pulled sid w fl p0 p' /\ pull_total p0 <= pull_total p'
  end.
Proof.
  intros Hp Ht0 Ht Hmax. pose proof Hp as [(fs & Efs & Hfs & Hok) Hst Hb Hcb Htot]. unfold pull_round.
  destruct (Z.leb_spec (pull_budget p) 0); [by exists p|]. destruct Hok as [Hi Hterm].
  destruct (pull_send_ok w _ _ Hi (pull_budget p) (pull_conn_budget p)) as (got & s' & E & Hpo & Hn & Hf & _ & Hg); [lia|lia|]. rewrite E.
  pose proof (send_step_ok _ _ (step_pull w _ _ (pull_budget p) (pull_conn_budget p) got s' ltac:(lia) ltac:(lia) E) (conj Hi Hterm)) as Hok'.
  pose proof (pull_not_reset _ _ _ _ _ E) as Hnr. pose proof (pull_offset _ _ _ _ _ E) as Hoff.
  assert (Hmono : send_next_offset (pull_side p) <= send_next_offset s').
  { apply (pull_next_mono _ _ _ _ _ E); [lia|lia|apply Hi]. }
  set (n := #(p_data got)) in *. destruct ((n =? 0) && negb (p_fin got)) eqn:En.
  - eexists. split; [done|]. apply andb_prop in En as [En%Z.eqb_eq _]. split; [|done]. split; cbn; try done; [|auto].
    exists fs. split; [done|]. split; [done|]. replace (fl ++ ranges_of sid fs) with ((fl ++ ranges_of sid fs) ++ pulled_range got); [done|].
    unfold pulled_range, n in *. destruct (p_data got); [|cbn in En; lia]. destruct (p_offset got); by rewrite app_nil_r.
  - assert (Hfresh : u64 (send_next_offset s' - send_next_offset (pull_side p)) = send_next_offset s' - send_next_offset (pull_side p)).
    { apply u64_small. unfold u64_ok. lia. }
    cbv zeta. rewrite Hfresh. set (fresh := send_next_offset s' - send_next_offset (pull_side p)) in *.
    rewrite (u64_small (pull_conn_budget p - fresh)), (u64_small (pull_total p + fresh)) by (unfold u64_ok; lia).
    destruct (p_offset got) as [o|] eqn:Eo; [|destruct (Hoff eq_refl) as [Ed Ef]; unfold n in En; rewrite Ed, Ef in En; done].
    destruct (Hg o eq_refl) as (Ho & Hd & Hfin).
    set (sf := QuicFrame.mkStream sid (default 0 (Some o)) true (p_fin got) (p_data got)).
    assert (Hr : ranges_of sid [sf] = pulled_range got).
    { unfold ranges_of, ranges_for, frame_range, pulled_range. cbn [fmap list_fmap concat sf sf_stream_id sf_data sf_offset]. rewrite Z.eqb_refl, Eo, app_nil_r. by destruct (p_data got). }
    assert (Hnew : pulled sid w fl p0 (mkPull s' (pull_budget p - n) (pull_conn_budget p - fresh) (pull_total p + fresh) (pull_frames p ++ [sf]))).
    { split; cbn; [|auto|lia|lia|lia]. exists (fs ++ [sf]). rewrite Efs, app_assoc, ranges_of_app, Hr, app_assoc. split; [done|]. split; [|done].
      apply Forall_app. split; [done|]. apply Forall_singleton. split; [done|]. split_and!; [done|done|].
      intros Hfi. destruct (Hfin Hfi) as [_ Hx]. cbn. rewrite <- (si_high _ _ _ Hi). exact Hx. }
    destruct (Z.eqb_spec n 0).
    + eexists. split; [done|]. split; [exact Hnew|cbn; lia].
    + split; [exact Hnew|]. cbn. unfold n in *. lia.
Qed.

Lemma pull_stream_ok sid w fl s cb total frames : send_ok (w, fl, s) -> 0 <= cb -> 0 <= total -> total + cb < 2 ^ 64 ->
  exists p, pull_stream sid s cb total frames = Some p /\
    pulled sid w fl (mkPull s kStreamBudget cb total frames) p /\ total <= pull_total p.
Proof.
  intros Hok Hcb Ht Hmax. set (p0 := mkPull s kStreamBudget cb total frames).
  set (I := fun p => pulled sid w fl p0 p /\ total <= pull_total p).
  assert (HI0 : I p0).
  { split; [|done]. split; [|auto|cbn; unfold kStreamBudget; lia|done|done]. exists []. rewrite !app_nil_r. split; [done|]. split; [constructor|done]. }
  assert (Hstep : forall p, I p -> match pull_round sid p with inl p' => I p' /\ pull_budget p' < pull_budget p | inr r => exists p', r = Some p' /\ I p' end).
  { intros p [Hp Hle]. pose proof (pull_round_ok sid w fl p0 p Hp Ht Hle Hmax) as Hr. destruct (pull_round sid p) as [p'|r].
    - destruct Hr as (? & ? & ?). split; [split; [done|lia]|done].
    - destruct Hr as (p' & ? & ? & ?). by exists p'. }
  destruct (loop_total (pull_round sid) I (fun p => Z.to_nat (pull_budget p))) with (fuel := S (Z.to_nat kStreamBudget)) (s := p0) as [r Hr]; [|done|cbn; lia|].
  { intros p p' HI E. specialize (Hstep p HI). rewrite E in Hstep. destruct Hstep as [HI' Hlt]. split; [done|]. destruct HI' as [[_ _ Hb _ _] _]. lia. }
  assert (Hpost : exists p, r = Some p /\ I p).
  { eapply (loop_post (pull_round sid) I (fun r => exists p, r = Some p /\ I p)); [| |exact HI0|exact Hr].
    - intros p p' HI E. specialize (Hstep p HI). rewrite E in Hstep. by destruct Hstep.
    - intros p q HI E. specialize (Hstep p HI). by rewrite E in Hstep. }
  destruct Hpost as (p & -> & Hp & Hle). exists p. unfold pull_stream. fold p0. by rewrite Hr.
Qed.

(** All streams in turn.  [fs] are the frames added. *)
Lemma pull_streams_ok W fl m : forall l cb total frames, above l m -> (forall sid, l < sid -> stream_ok (W sid) (fl sid) sid (sm_find sid m)) ->
  0 <= cb -> 0 <= total -> total + cb < 2 ^ 64 ->
  exists m' total' fs, pull_streams m cb total frames = Some (m', total', frames ++ fs) /\ keys m' = keys m /\
    total <= total' <= total + cb /\ Forall (fun sf => l < sf_stream_id sf /\ frame_genuine (W (sf_stream_id sf)) sf) fs /\
    (forall sid, l < sid -> stream_ok (W sid) (fl sid ++ ranges_of sid fs) sid (sm_find sid m')).
Proof.
  induction m as [|[k s] m IH]; intros l cb total frames Hab Hok Hcb Ht Hmax; cbn [pull_streams].
  - exists [], total, []. rewrite app_nil_r. split_and!; try done; [lia|]. intros sid Hs. rewrite app_nil_r. by apply Hok.
  - destruct Hab as [Hk Hab]. pose proof (Hok k Hk) as Hs. cbn [sm_find] in Hs. rewrite Z.eqb_refl in Hs.
    destruct Hs as (Hid & Hnr & Hro & orph & Hs).
    destruct (pull_stream_ok k (W k) _ (send s) cb total frames Hs Hcb Ht Hmax) as (p & -> & [(fs1 & Ef & Hf1 & Hok1) Hst _ Hcb' Htot] & Hle).
    cbn [pull_frames pull_total pull_conn_budget pull_side] in *. cbn [mbind option_bind].
    destruct (IH k (pull_conn_budget p) (pull_total p) (pull_frames p) Hab) as (m' & total' & fs2 & -> & Hkeys & Ht' & Hf2 & Hok2).
    { intros sid Hsid. specialize (Hok sid ltac:(lia)). cbn [sm_find] in Hok. by destruct (Z.eqb_spec k sid); [lia|]. }
    { done. } { lia. } { lia. }
    cbn [mbind option_bind]. exists ((k, on_send_side (fun _ => pull_side p) s) :: m'), total', (fs1 ++ fs2).
    assert (Hno2 : forall sid, sid <= k -> ranges_of sid fs2 = []).
    { intros sid Hle'. apply ranges_of_none. eapply Forall_impl; [exact Hf2|]. intros sf [? _]. lia. }
    assert (Hno1 : forall sid, sid <> k -> ranges_of sid fs1 = []).
    { intros sid Hne. apply ranges_of_none. eapply Forall_impl; [exact Hf1|]. intros sf [-> _]. done. }
    split_and!; [rewrite Ef, app_assoc; done|by unfold keys in *; cbn; f_equal|lia|lia| |].
    + apply Forall_app. split.
      * eapply Forall_impl; [exact Hf1|]. intros sf [-> ?]. done.
      * eapply Forall_impl; [exact Hf2|]. intros sf [? ?]. split; [lia|done].
    + intros sid Hsid. cbn [sm_find]. rewrite ranges_of_app. destruct (Z.eqb_spec k sid) as [<-|Hne].
      * rewrite Hno2, app_nil_r by lia. cbn. split_and!; [done|by apply Hst|done|]. exists orph. eapply send_ok_perm; [|exact Hok1]. solve_Permutation.
      * rewrite Hno1 by done. destruct (decide (k < sid)); [by apply Hok2|].
        specialize (Hok sid Hsid). cbn [sm_find] in Hok. rewrite (proj2 (Z.eqb_neq k sid)) in Hok by done.
        rewrite (above_find k m sid Hab) in Hok by lia.
        assert (sm_find sid m' = None) as -> by (apply (above_find k); [eapply above_keys; [symmetry; exact Hkeys|done]|lia]).
        by rewrite Hno2, app_nil_r by lia.
Qed.

(** ** Frames and packets *)

(** Acknowledgement, loss and probe timeout leave everything alone but the
    components named here. *)
Definition ack_shape (c c' : Conn (T := T)) : Prop :=
  exists m t g p s sp r,
    c' = set_streams m (set_ticks t (set_congestion g (set_crypto_pending p (set_sent s (set_spaces sp (set_recovery r c)))))).

Lemma ack_shape_refl c : ack_shape c c.
Proof. exists (streams_ c), (ticks c), (congestion_ c), (crypto_pending_ c), (sent_ c), (spaces_ c), (recovery_ c). by destruct c. Qed.

Lemma ack_shape_trans c1 c2 c3 : ack_shape c1 c2 -> ack_shape c2 c3 -> ack_shape c1 c3.
Proof. intros (m & t & g & p & s & sp & r & ->) (m' & t' & g' & p' & s' & sp' & r' & ->). by exists m', t', g', p', s', sp', r'. Qed.

Lemma settle_ack_shape c c' s : settle_step c c' -> ack_shape c (set_sent s c').
Proof. intros (m & t & g & p & ->). exists m, t, g, p, s, (spaces_ c), (recovery_ c). by destruct c. Qed.

Lemma walks_shape h lvl m c kept c' : disposes h -> walks h m c kept c' -> ack_shape c (set_sent_at_level lvl kept c').
Proof. intros Hh Hw. destruct (walks_ok _ _ _ _ _ Hh Hw) as (Hs & _). by apply settle_ack_shape. Qed.

Lemma ack_range_shape lvl lo hi c : ack_shape c (ack_range clock lvl lo hi c).
Proof.
  unfold ack_range. destruct (hi <? lo); [apply ack_shape_refl|]. pose proof (ack_walk_walks lo hi (sent_at_level lvl c) c) as Hw.
  destruct (ack_walk clock lo hi (sent_at_level lvl c) c). eapply walks_shape; [apply ack_entry_disposes|exact Hw].
Qed.

Lemma ack_more_ranges_shape lvl rs : forall lo c, ack_shape c (ack_more_ranges clock lvl lo rs c).
Proof.
  induction rs as [|r rs IH]; intros lo c; cbn [ack_more_ranges]; [apply ack_shape_refl|]. destruct (_ <? _); [apply ack_shape_refl|]. cbv zeta.
  destruct (_ <? _); [apply ack_shape_refl|]. eapply ack_shape_trans; [apply ack_range_shape|apply IH].
Qed.

Ltac shape_here c := exists (streams_ c), (ticks c), (congestion_ c), (crypto_pending_ c), (sent_ c).

Lemma set_spaces_shape c sp : ack_shape c (set_spaces sp c).
Proof. shape_here c. exists sp, (recovery_ c). by destruct c. Qed.

Lemma set_recovery_shape c r : ack_shape c (set_recovery r c).
Proof. shape_here c. exists (spaces_ c), r. by destruct c. Qed.

Lemma set_ticks_shape c t : ack_shape c (set_ticks t c).
Proof. exists (streams_ c), t, (congestion_ c), (crypto_pending_ c), (sent_ c), (spaces_ c), (recovery_ c). by destruct c. Qed.

Lemma detect_loss_shape lvl c : ack_shape c (detect_and_handle_loss clock lvl c).
Proof.
  unfold detect_and_handle_loss. cbv zeta. destruct (negb _); [apply ack_shape_refl|]. destruct (_ =? _)%nat; [apply ack_shape_refl|]. cbn [read_clock].
  set (c1 := set_ticks _ c). set (cut := _ - _). pose proof (loss_walk_walks lvl (largest_acked_pn_ (space lvl c)) cut (sent_at_level lvl c1) c1) as Hw.
  destruct (loss_walk _ _ _ _ _ _). eapply ack_shape_trans; [apply set_ticks_shape|]. eapply walks_shape; [apply declare_lost_disposes|exact Hw].
Qed.

Lemma sample_rtt_shape t d c c' : sample_rtt clock t d c = Some c' -> ack_shape c c'.
Proof.
  unfold sample_rtt. cbn [read_clock]. cbv zeta. intros H. inv_bind H. injection H as <-.
  eapply ack_shape_trans; [apply set_ticks_shape|apply set_recovery_shape].
Qed.

Lemma on_ack_frame_shape lvl f c c' : on_ack_frame clock lvl f c = Some c' -> ack_shape c c'.
Proof.
  unfold on_ack_frame. cbv zeta. set (c1 := set_space lvl _ c). assert (H1 : ack_shape c c1) by apply set_spaces_shape.
  destruct (largest_acked f <? first_range f); [by intros [= <-]|]. intros E. apply bind_Some in E as (c5 & E & [= <-]).
  eapply ack_shape_trans; [|apply detect_loss_shape]. eapply ack_shape_trans; [exact H1|]. eapply ack_shape_trans; [apply ack_range_shape|].
  eapply ack_shape_trans; [apply ack_more_ranges_shape|]. eapply ack_shape_trans; [apply set_recovery_shape|].
  destruct (rtt_basis lvl f c); [|injection E as <-; apply ack_shape_refl]. by eapply sample_rtt_shape.
Qed.

Lemma pto_level_shape now pto st lvl : ack_shape st.2 (pto_level clock now pto st lvl).2.
Proof.
  destruct st as [fired c]. cbn [snd]. unfold pto_level. cbv zeta. destruct (negb _); [apply ack_shape_refl|].
  destruct (_ =? _)%nat; [apply ack_shape_refl|]. destruct (_ <? _); [apply ack_shape_refl|].
  pose proof (pto_walk_walks lvl (sent_at_level lvl c) c) as Hw. destruct (pto_walk _ _ _ _) as [kept c'].
  eapply ack_shape_trans; [|apply set_spaces_shape]. eapply walks_shape; [apply declare_lost_disposes|exact Hw].
Qed.

Lemma check_pto_shape c c' : check_pto clock c = Some c' -> ack_shape c c'.
Proof.
  unfold check_pto. intros E. apply bind_Some in E as (d & _ & E). cbn [read_clock] in E. cbv zeta in E.
  set (f := pto_level _ _ _) in E.
  assert (Hf : forall l st, ack_shape st.2 (foldl f st l).2).
  { induction l as [|lvl l IH]; intros st; [apply ack_shape_refl|]. eapply ack_shape_trans; [apply pto_level_shape|apply IH]. }
  specialize (Hf send_levels (false, set_ticks (S (ticks c)) c)). destruct (foldl _ _ _) as [fired c2]. injection E as <-.
  eapply ack_shape_trans; [apply set_ticks_shape|]. eapply ack_shape_trans; [exact Hf|].
  destruct fired; [apply set_recovery_shape|apply ack_shape_refl].
Qed.

(** The parts of the state the invariant is about. *)
Definition send_view c := (streams_ c, sent_ c, conn_send_total_ c, conn_send_max_data_ c).

Definition safe (W : Z -> bytes) (c : Conn (T := T)) : Prop :=
  send_safe W c /\ 0 <= conn_send_total_ c <= conn_send_max_data_ c /\ conn_send_max_data_ c < 2 ^ 64.

Lemma safe_view W c c' : send_view c' = send_view c -> safe W c -> safe W c'.
Proof. unfold safe, send_safe, send_view. intros [= -> -> -> ->]. done. Qed.

Lemma safe_shape W c c' : ack_shape c c' -> send_safe W c' -> safe W c -> safe W c'.
Proof. intros (m & t & g & p & s & sp & r & ->) H (_ & H1 & H2). by split. Qed.

Lemma initiate_close_view e a w f c : send_view (initiate_close e a w f c) = send_view c.
Proof. unfold initiate_close. by case_decide. Qed.

Lemma enforce_stream_limit_view sid c : send_view (enforce_stream_limit sid c).2 = send_view c.
Proof.
  unfold enforce_stream_limit. destruct (negb _); [done|]. destruct (find_stream sid c); [done|]. cbv zeta.
  destruct (_ <=? _); [apply initiate_close_view|done].
Qed.

Lemma charge_conn_window_view p n c : send_view (charge_conn_window p n c) = send_view c.
Proof. unfold charge_conn_window. by case_match. Qed.

(** Updating one stream's entry. *)
Lemma safe_with_stream W sid f c : safe W c ->
  (forall s, sm_find sid (streams_ c) = Some s -> stream_ok (W sid) (flight sid (sent_ c)) sid (Some s) ->
     stream_ok (W sid) (flight sid (sent_ c)) sid (Some (f s))) -> safe W (with_stream sid f c).
Proof.
  intros ([Hsort H] & Hw) Hf. split; [|exact Hw]. split; [by apply sorted_update|]. intros sid'. cbn. rewrite find_update. specialize (H sid').
  destruct (Z.eqb_spec sid sid') as [<-|]; [|done]. destruct (sm_find sid (streams_ c)) as [s|] eqn:E; cbn [fmap option_fmap option_map]; [by apply Hf|done].
Qed.

Lemma safe_recv_side W sid r c : safe W c -> safe W (with_stream sid (put_recv_side r) c).
Proof. intros H. apply safe_with_stream; [done|]. by intros s _. Qed.

Lemma safe_send_limit W sid n c : safe W c -> safe W (with_stream sid (on_send_side (fun s => set_send_limit s n)) c).
Proof.
  intros H. apply safe_with_stream; [done|]. intros s _ (? & ? & ? & orph & Hs). split; [done|].
  split; [cbn; unfold set_send_limit; by case_match|]. split; [done|]. exists orph. exact (send_step_ok _ _ (step_limit _ _ _ n) Hs).
Qed.

Lemma new_stream_send_ok sid rl sl : stream_ok [] [] sid (Some (new_stream sid rl sl)).
Proof. split; [done|]. split; [done|]. split; [done|]. exists []. apply new_send_ok. Qed.

(** [ensure_stream] changes [streams_] at most, and returns the entry. *)
Lemma ensure_stream_shape sid c : exists m, (ensure_stream sid c).2 = set_streams m c /\
  sm_find sid m = Some (ensure_stream sid c).1 /\
  (m = streams_ c \/ sm_find sid (streams_ c) = None /\ exists rl sl, m = sm_insert sid (new_stream sid rl sl) (streams_ c)).
Proof.
  unfold ensure_stream, find_stream. destruct (sm_find sid (streams_ c)) as [s|] eqn:E.
  - exists (streams_ c). split; [by destruct c|]. split; [done|]. by left.
  - set (lim := if is_bidi sid then _ else _). destruct lim as [rl sl]. eexists. split; [done|]. split; [by rewrite find_insert, Z.eqb_refl|].
    right. split; [done|]. by exists rl, sl.
Qed.

Lemma ensure_stream_safe W sid c : safe W c -> safe W (ensure_stream sid c).2.
Proof.
  intros H. destruct (ensure_stream_shape sid c) as (m & -> & _ & [->|(En & rl & sl & ->)]); [by apply (safe_view W c)|].
  destruct H as ([Hsort H] & Hw). split; [|exact Hw]. split; [by apply sorted_insert|]. intros sid'. cbn. rewrite find_insert. specialize (H sid').
  destruct (Z.eqb_spec sid sid') as [<-|]; [|done]. rewrite En in H. destruct H as [-> ->]. apply new_stream_send_ok.
Qed.

Lemma on_stream_frame_safe W f c : safe W c -> safe W (on_stream_frame f c).
Proof.
  intros H. unfold on_stream_frame. pose proof (enforce_stream_limit_view (sf_stream_id f) c) as Hv. destruct (enforce_stream_limit _ c) as [ok c1]. cbn [snd] in Hv.
  assert (H1 : safe W c1) by by apply (safe_view W c). destruct (negb ok); [done|]. case_match; [by apply (safe_view W c1), H1; apply initiate_close_view|].
  pose proof (ensure_stream_safe W (sf_stream_id f) c1 H1) as H2. destruct (ensure_stream _ c1) as [s c2]. cbn [snd] in H2. cbv zeta.
  case_match; [by apply (safe_view W c2), H2; apply initiate_close_view|]. destruct (deliver _ _ _ _) as [r|]; [|by apply (safe_view W c2), H2; apply initiate_close_view].
  eapply safe_view; [apply charge_conn_window_view|]. by apply safe_recv_side.
Qed.

Lemma on_reset_stream_frame_safe W f c : safe W c -> safe W (on_reset_stream_frame f c).
Proof.
  intros H. unfold on_reset_stream_frame. pose proof (enforce_stream_limit_view (rs_stream_id f) c) as Hv. destruct (enforce_stream_limit _ c) as [ok c1]. cbn [snd] in Hv.
  assert (H1 : safe W c1) by by apply (safe_view W c). destruct (negb ok); [done|]. case_match; [by apply (safe_view W c1), H1; apply initiate_close_view|].
  pose proof (ensure_stream_safe W (rs_stream_id f) c1 H1) as H2. destruct (ensure_stream _ c1) as [s c2]. cbn [snd] in H2. cbv zeta.
  case_match; [by apply (safe_view W c2), H2; apply initiate_close_view|]. destruct (reset_recvd _ _ _) as [r|]; [|by apply (safe_view W c2), H2; apply initiate_close_view].
  eapply safe_view; [apply charge_conn_window_view|]. by apply safe_recv_side.
Qed.

Lemma on_crypto_frame_view lvl f c : send_view (on_crypto_frame lvl f c) = send_view c.
Proof.
  unfold on_crypto_frame. cbv zeta. case_match; [apply initiate_close_view|]. unfold feed_tls_crypto. by destruct (feed_walk _ _ _ _) as [[? ?] ?].
Qed.

Lemma on_frame_safe W lvl f c c' : safe W c -> frame_ranges f -> on_frame clock lvl c f = Some c' -> safe W c'.
Proof.
  intros H Hf E. destruct f as [| |x|x| |x| |x|m|sid m|[] m| | |[] | | |d| | |]; cbn [on_frame] in E.
  all: try (injection E as <-; by apply (safe_view W c)).
  all: try (injection E as <-; case_match; by apply (safe_view W c)).
  - eapply safe_shape; [by eapply on_ack_frame_shape| |done]. eapply on_ack_frame_safe; [apply H|done].
  - injection E as <-. by apply on_reset_stream_frame_safe.
  - injection E as <-. apply (safe_view W c); [apply on_crypto_frame_view|done].
  - injection E as <-. by apply on_stream_frame_safe.
  - injection E as <-. destruct H as (H & H1 & H2). destruct (Z.ltb_spec (conn_send_max_data_ c) m); [|done]. split; [by apply (send_safe_ext W c)|].
    cbn in *. apply varint_lt63 in Hf. lia.
  - injection E as <-. by apply safe_send_limit.
Qed.

(** ** Retiring streams *)

(** A stream is retired only when nothing of it is in flight. *)
Lemma terminal_flight w fl sid s : stream_ok w fl sid (Some s) -> terminal sid s = true -> fl = [].
Proof.
  intros (_ & Hnr & Hro & orph & [Hi Ht]) Hterm.
  assert (Hb : send_next_offset (send s) <= send_buf_base_offset (send s)).
  { pose proof Hi as [H1 H2 H3 _ _ _ _ _ _]. unfold terminal in Hterm. unfold recv_only in Hro. destruct (is_bidi sid) eqn:Eb.
    - apply andb_prop in Hterm as [_ [Hs|Hs]%bool_decide_eq_true_1]; [rewrite Ht by done; lia|done].
    - destruct (is_client_initiated sid) eqn:Ec.
      + rewrite (Hro eq_refl) in H3. cbn in H3. lia.
      + apply bool_decide_eq_true_1 in Hterm as [Hs|Hs]; [rewrite Ht by done; lia|done]. }
  destruct fl as [|r fl]; [done|]. exfalso.
  destruct (range_in_window w _ (send s) Hi r) as (H1 & H2 & H3); [|lia]. rewrite !elem_of_app, elem_of_cons. auto.
Qed.

Definition live (kv : Z * QuicStream.Stream) : Prop := terminal kv.1 kv.2 = false.

Global Instance live_dec kv : Decision (live kv).
Proof. unfold live. apply _. Defined.

Lemma retire_walk_shape m : forall c, exists a b r, retire_walk m c =
  (filter live m, set_streams_bidi_closed a (set_streams_uni_closed b (set_retired_recv_consumed r c))).
Proof.
  induction m as [|[sid s] m IH]; intros c; cbn [retire_walk].
  - exists (streams_bidi_closed_ c), (streams_uni_closed_ c), (retired_recv_consumed_ c). by destruct c.
  - rewrite filter_cons. destruct (decide (live (sid, s))) as [Hl|Hl]; unfold live in Hl; cbn [fst snd] in Hl.
    + rewrite Hl. destruct (IH c) as (a & b & r & ->). by exists a, b, r.
    + apply not_false_iff_true in Hl. rewrite Hl. destruct (IH (credit_stream sid s c)) as (a & b & r & ->). exists a, b, r.
      unfold credit_stream. by destruct (is_client_initiated sid), (is_bidi sid).
Qed.

(** What the application wrote to the streams still there. *)
Definition prune (m : list (Z * QuicStream.Stream)) (W : Z -> bytes) (sid : Z) : bytes :=
  match sm_find sid m with Some _ => W sid | None => [] end.

Lemma retire_safe W c : safe W c -> safe (prune (streams_ (retire_closed_streams c)) W) (retire_closed_streams c).
Proof.
  intros ([Hsort H] & Hw). unfold retire_closed_streams. destruct (retire_walk_shape (streams_ c) c) as (a & b & r & ->). cbv zeta.
  set (c1 := set_streams _ _). assert (H1 : safe (prune (filter live (streams_ c)) W) c1).
  { split; [|exact Hw]. split; [by apply sorted_filter|]. intros sid. cbn. unfold prune. rewrite find_filter by done. specialize (H sid).
    destruct (sm_find sid (streams_ c)) as [s|] eqn:Ef; cbn [mbind option_bind]; [|by destruct H].
    destruct (decide (live (sid, s))) as [Hl|Hl]; [done|]. split; [|done]. eapply terminal_flight; [exact H|]. unfold live in Hl. cbn in Hl. by destruct (terminal sid s). }
  set (c2 := if _ && _ then _ else c1). assert (E2 : send_view c2 = send_view c1) by (unfold c2; by case_match).
  set (c3 := if _ && _ then _ else c2). assert (E3 : send_view c3 = send_view c1) by (rewrite <- E2; unfold c3; by case_match).
  change (streams_ c3) with (send_view c3).1.1.1. rewrite E3. by apply (safe_view _ c1).
Qed.

(** ** Sending *)

(** The invariant while the ranges of [fs] are pulled but not yet recorded. *)
Definition safe_pulled (W : Z -> bytes) (fs : list StreamFrame) (c : Conn (T := T)) : Prop :=
  streams_ok W (fun sid => flight sid (sent_ c) ++ ranges_of sid fs) (streams_ c) /\
  0 <= conn_send_total_ c <= conn_send_max_data_ c /\ conn_send_max_data_ c < 2 ^ 64.

Lemma safe_pulled_view W fs c c' : send_view c' = send_view c -> safe_pulled W fs c -> safe_pulled W fs c'.
Proof. unfold safe_pulled, send_view. intros [= -> -> -> ->]. done. Qed.

Lemma safe_pulled_nil W c : safe W c -> safe_pulled W [] c.
Proof. intros (H & Hw). split; [|done]. eapply streams_ok_perm; [|exact H]. intros sid. unfold ranges_of. cbn. by rewrite app_nil_r. Qed.

Lemma safe_pulled_drop W fs c : safe_pulled W fs c -> safe W c.
Proof. intros (H & Hw). split; [|done]. eapply streams_ok_drop with (lost := fun sid => ranges_of sid fs); [|exact H]. done. Qed.

Lemma map_ranges_insert sid pn r m : sm_find pn m = None -> map_ranges sid (sm_insert pn r m) ≡ₚ ranges_of sid (rec_streams r) ++ map_ranges sid m.
Proof.
  induction m as [|[k r'] m IH]; cbn [sm_find sm_insert]; intros E; [done|]. destruct (Z.eqb_spec k pn); [done|]. destruct (Z.ltb_spec pn k); [done|].
  rewrite !map_ranges_cons, IH by done. solve_Permutation.
Qed.

Lemma safe_emplace W lvl pn r c : safe_pulled W (rec_streams r) c -> safe W (set_sent_at_level lvl (sm_emplace pn r (sent_at_level lvl c)) c).
Proof.
  intros H. unfold sm_emplace. destruct (sm_find pn (sent_at_level lvl c)) eqn:E.
  - apply safe_pulled_drop in H. apply (safe_view W c); [|done]. unfold send_view, sent_at_level. cbn. by rewrite set_level_same.
  - destruct H as (H & Hw). split; [|exact Hw]. unfold send_safe. cbn. eapply streams_ok_perm; [|exact H]. intros sid. cbn beta.
    rewrite (flight_split lvl sid (set_level _ _ _)), at_set_level, elsewhere_set, map_ranges_insert by done. rewrite (flight_split lvl sid (sent_ c)).
    unfold sent_at_level. solve_Permutation.
Qed.

Context {tls_laws : TlsLaws T}.

(** Collecting stream data never leaves a stream's buffer; the frames are
    what the application wrote, and fresh data stays within the peer's limit. *)
Lemma collect_streams_ok W lvl c : safe W c ->
  exists fs m t x, collect_streams lvl c = Some (fs, set_conn_send_total t (set_streams m (set_conn_send_max_data x c))) /\
    safe_pulled W fs (set_conn_send_total t (set_streams m (set_conn_send_max_data x c))) /\
    Forall (fun sf => frame_genuine (W (sf_stream_id sf)) sf) fs.
Proof.
  intros H. unfold collect_streams. destruct (bool_decide (lvl = LApplication)).
  2: { exists [], (streams_ c), (conn_send_total_ c), (conn_send_max_data_ c). replace (set_conn_send_total _ _) with c by by destruct c.
       split; [done|]. split; [by apply safe_pulled_nil|constructor]. }
  cbv zeta. set (md := initial_max_data _). pose proof (peer_data_range (tls_ c)) as Hmd. fold md in Hmd.
  set (x := Z.max (conn_send_max_data_ c) md).
  assert (Ec : (if conn_send_max_data_ c <? md then set_conn_send_max_data md c else c) = set_conn_send_max_data x c).
  { unfold x. destruct (Z.ltb_spec (conn_send_max_data_ c) md); [by rewrite Z.max_r by lia|]. rewrite Z.max_l by lia. by destruct c. }
  rewrite Ec. cbn [set_conn_send_max_data conn_send_total_ conn_send_max_data_ streams_]. destruct H as ([[l Hab] H] & Hw1 & Hw2). unfold u64_ok in Hmd.
  set (cb := if conn_send_total_ c <? x then x - conn_send_total_ c else 0).
  assert (Hx : x < 2 ^ 64 /\ conn_send_max_data_ c <= x) by (unfold x; lia).
  assert (Hcb : 0 <= cb /\ conn_send_total_ c + cb <= x) by (unfold cb; destruct (Z.ltb_spec (conn_send_total_ c) x); lia).
  destruct (pull_streams_ok W (fun sid => flight sid (sent_ c)) (streams_ c) l cb (conn_send_total_ c) [] Hab) as (m & t & fs & -> & Hk & Ht & Hf & Hok); [done|lia..|].
  cbn [mbind option_bind app]. exists fs, m, t, x. split; [done|]. split.
  - split; [|cbn; lia]. split; [exists l; eapply above_keys; [symmetry; exact Hk|done]|]. intros sid. cbn. destruct (decide (l < sid)) as [|Hle]; [by apply Hok|].
    specialize (H sid). rewrite (above_find l (streams_ c) sid Hab) in H by lia. assert (Hab' : above l m) by (eapply above_keys; [symmetry; exact Hk|done]).
    rewrite (above_find l m sid Hab') by lia. rewrite ranges_of_none; [by rewrite app_nil_r|]. eapply Forall_impl; [exact Hf|]. intros sf [? _]. lia.
  - eapply Forall_impl; [exact Hf|]. by intros sf [_ ?].
Qed.

Lemma collect_ack_view lvl c : send_view (collect_ack lvl c).2 = send_view c.
Proof. unfold collect_ack. cbv zeta. destruct (needs_ack _); [|done]. by destruct (build_ack_frame _ _). Qed.

Lemma collect_ok W lvl c : safe W c ->
  exists o c', collect lvl c = Some (o, c') /\ safe_pulled W (o_streams o) c' /\
    Forall (fun sf => frame_genuine (W (sf_stream_id sf)) sf) (o_streams o).
Proof.
  intros H. unfold collect. cbv zeta. set (c1 := set_crypto_pending _ c). assert (H1 : safe W c1) by by apply (safe_view W c).
  destruct (collect_streams_ok W lvl c1 H1) as (fs & m & t & x & -> & H2 & Hf). cbn [mbind option_bind].
  set (c2 := set_conn_send_total _ _) in *. pose proof (collect_ack_view lvl c2) as E3. destruct (collect_ack lvl c2) as [ack c3]. cbn [snd] in E3.
  assert (E4 : send_view (collect_path_responses lvl c3).2 = send_view c3) by (unfold collect_path_responses; by case_match).
  destruct (collect_path_responses lvl c3) as [path c4]. cbn [snd] in E4.
  assert (E5 : send_view (collect_control lvl c4).2 = send_view c4) by (unfold collect_control; by case_match).
  destruct (collect_control lvl c4) as [ctl c5]. cbn [snd] in E5. eexists _, c5. split; [done|]. split; [|done]. apply (safe_pulled_view W fs c2); [congruence|done].
Qed.

Lemma count_unvalidated_view n c : send_view (count_unvalidated n c) = send_view c.
Proof. unfold count_unvalidated. by case_match. Qed.

Lemma send_close_view lvl f c c' : send_close lvl f c = Some c' -> send_view c' = send_view c.
Proof.
  unfold send_close. destruct (negb _); [by intros [= <-]|]. intros E. apply bind_Some in E as (pl & _ & E). cbn [take_pn] in E. cbv zeta in E.
  apply bind_Some in E as (dg & _ & [= <-]). destruct dg as [dg|]; [|done]. unfold send_datagram. 
  match goal with |- send_view (set_pending_close _ (set_wire _ ?x)) = _ => change (send_view x = send_view c) end. by rewrite count_unvalidated_view.
Qed.

Lemma track_and_send_safe W lvl o pn dg c : safe_pulled W (o_streams o) c -> safe W (track_and_send clock lvl o pn dg c).
Proof.
  intros H. unfold track_and_send. cbn [read_clock]. cbv zeta. set (c1 := set_ticks _ c). set (r := mkSentRecord _ _ _ _ _ _).
  assert (H1 : safe W (set_sent_at_level lvl (sm_emplace pn r (sent_at_level lvl c1)) c1)) by (apply safe_emplace; by apply (safe_pulled_view W _ c)).
  set (c2 := set_sent_at_level _ _ _) in *. set (c3 := if eliciting lvl o then _ else c2). assert (E3 : send_view c3 = send_view c2) by (unfold c3; by case_match).
  set (c4 := if _ && _ then _ else c3). assert (E4 : send_view c4 = send_view c3) by (unfold c4; by case_match).
  apply (safe_view W c2); [|done]. rewrite <- E3, <- E4, <- (count_unvalidated_view (#dg) c4). done.
Qed.

Lemma build_and_send_safe W lvl c b c' : safe W c -> build_and_send clock lvl c = Some (b, c') -> safe W c'.
Proof.
  intros H E. unfold build_and_send in E. destruct (negb _); [by injection E as <- <-|]. case_decide; [by injection E as <- <-|].
  destruct (pending_close_ c) as [f|].
  { apply bind_Some in E as (c1 & E1 & [= <- <-]). apply (safe_view W c); [by eapply send_close_view|done]. }
  destruct (amplification_blocked c); [by injection E as <- <-|]. destruct (collect_ok W lvl c H) as (o & c1 & E1 & H1 & _). rewrite E1 in E. cbn [mbind option_bind] in E.
  destruct (nothing_to_send o); [injection E as <- <-; by eapply safe_pulled_drop|]. apply bind_Some in E as (pl & _ & E). cbn [take_pn] in E. cbv zeta in E.
  set (c2 := set_space _ _ c1) in E. assert (H2 : safe_pulled W (o_streams o) c2) by by apply (safe_pulled_view W _ c1).
  apply bind_Some in E as ([dg|] & _ & [= <- <-]); [by apply track_and_send_safe|by eapply safe_pulled_drop].
Qed.

Context {lib_laws : CryptoLibLaws}.

Lemma deliver_frames_safe W lvl payload c c' : safe W c -> bytes_ok payload -> deliver_frames clock lvl payload c = Some c' -> safe W c'.
Proof.
  intros H Hb E. unfold deliver_frames in E. apply bind_Some in E as ([fs|] & Ep & E).
  2: { injection E as <-. apply (safe_view W c); [apply initiate_close_view|done]. }
  pose proof (parse_frames_ranges payload fs Hb Ep) as Hf. clear Ep. revert c H E. induction Hf as [|f fs Hf _ IH]; intros c H E; cbn [for_each] in E; [by injection E as <-|].
  apply bind_Some in E as (c1 & E1 & E). eapply IH; [|exact E]. by eapply on_frame_safe.
Qed.

Lemma accept_packet_safe W lvl pn payload c c' : safe W c -> bytes_ok payload -> accept_packet clock lvl pn payload c = Some c' -> safe W c'.
Proof.
  intros H Hb E. unfold accept_packet in E. cbv zeta in E. apply bind_Some in E as (c1 & E1 & [= <-]). apply (safe_view W c1); [done|].
  eapply deliver_frames_safe; [|done|exact E1]. apply (safe_view W c); [|done]. by case_match.
Qed.

Lemma xor_at_bytes i m l : byte_ok m -> bytes_ok l -> bytes_ok (xor_at i m l).
Proof.
  intros Hm Hl. unfold xor_at, bytes_ok in *. apply Forall_lookup. intros j x E. rewrite list_lookup_alter in E. rewrite Forall_lookup in Hl.
  case_decide; [|by eapply Hl]. subst. apply fmap_Some in E as (y & Ey & ->). apply lxor_byte; [by eapply Hl|done].
Qed.

Lemma mask_pn_bytes mask off n : forall l, bytes_ok mask -> bytes_ok l -> bytes_ok (mask_pn mask off n l).
Proof.
  revert off n. induction mask as [|m mask IH]; intros off n l Hm Hl; destruct n; cbn [mask_pn]; try done. inversion Hm; subst. apply IH; [done|]. by apply xor_at_bytes.
Qed.

Lemma unmask_bytes mask fm off l : bytes_ok mask -> byte_ok fm -> bytes_ok l -> bytes_ok (unmask mask fm off l).1.
Proof.
  intros Hm Hf Hl. unfold unmask. cbn [fst]. apply mask_pn_bytes; [by apply Forall_drop|]. apply xor_at_bytes; [|done].
  assert (Hd : byte_ok (default 0 (mask !! 0%nat))).
  { destruct (mask !! 0%nat) eqn:E; cbn; [|unfold byte_ok; lia]. unfold bytes_ok in Hm. rewrite Forall_lookup in Hm. by eapply Hm. }
  by apply land_byte.
Qed.

Lemma open_inplace_bytes ctx n aad ct p : bytes_ok ct -> open_inplace ctx n aad ct = Some p -> bytes_ok p.
Proof. unfold open_inplace. intros Hb E. apply bind_Some in E as ([a k] & _ & E). destruct (_ =? _)%nat; [done|]. by eapply open_bytes. Qed.

Lemma open_long_bytes sp pkt pn_off len pn pl : bytes_ok pkt -> open_long sp pkt pn_off len = Some (Some (pn, pl)) -> bytes_ok pl.
Proof.
  intros Hb. unfold open_long. case_match; [done|]. case_match; [done|]. cbv zeta. set (mask := hp_mask _ _ _).
  pose proof (unmask_bytes mask 0x0F (Z.to_nat pn_off) pkt (mask_bytes _ _ _ ltac:(by apply Forall_take, Forall_drop)) ltac:(by unfold byte_ok; lia) Hb) as Hu. destruct (unmask _ _ _ _) as [pkt' n]. cbn [fst] in Hu.
  case_match; [done|]. case_match; [done|]. intros [= E]. apply bind_Some in E as (p & E & [= _ <-]). eapply open_inplace_bytes; [|exact E]. by apply Forall_take, Forall_drop.
Qed.

Lemma process_long_packet_safe W dg off c c' off' n : bytes_ok dg -> safe W c -> process_long_packet clock dg off c = Some (c', off', n) -> safe W c'.
Proof.
  intros Hb H E. unfold process_long_packet in E. destruct (parse_long_header dg off []) as [[hdr cursor]|]; [|by injection E as <- _ _].
  destruct (level_of_type (type hdr)) as [lvl|]; [|by injection E as <- _ _]. cbv zeta in E. destruct (negb _); [by injection E as <- _ _|].
  apply bind_Some in E as ([[pn pl]|] & Eo & E); [|by injection E as <- _ _]. apply bind_Some in E as (c1 & E1 & [= <- _ _]).
  eapply accept_packet_safe; [exact H| |exact E1]. eapply open_long_bytes; [|exact Eo]. by apply Forall_take, Forall_drop.
Qed.

Lemma open_short_bytes sp kp pn aad ct pl sp' : bytes_ok ct -> open_short sp kp pn aad ct = Some (Some (pl, sp')) -> bytes_ok pl.
Proof.
  intros Hb. unfold open_short. destruct (_ =? _).
  - intros [= E]. apply bind_Some in E as (p & E & [= <- _]). by eapply open_inplace_bytes.
  - destruct (negb _); [done|]. destruct (open_inplace _ _ _ _) as [p|] eqn:E; [|done]. intros E'. apply bind_Some in E' as (s1 & _ & E'). apply bind_Some in E' as (s2 & _ & [= <- _]).
    by eapply open_inplace_bytes.
Qed.

Lemma process_short_packet_safe W dg c b c' : bytes_ok dg -> safe W c -> process_short_packet clock dg c = Some (b, c') -> safe W c'.
Proof.
  intros Hb H E. unfold process_short_packet in E. cbv zeta in E. repeat match type of E with (if ?b then _ else _) = _ => destruct b; [by injection E as _ <-|] end.
  set (mask := hp_mask _ _ _) in E. pose proof (unmask_bytes mask 0x1F (1 + length (scid_ c)) dg (mask_bytes _ _ _ ltac:(by apply Forall_take, Forall_drop)) ltac:(by unfold byte_ok; lia) Hb) as Hu.
  destruct (unmask _ _ _ _) as [dg' n]. cbn [fst] in Hu. destruct (_ <? _)%nat; [by injection E as _ <-|].
  apply bind_Some in E as ([[pl sp]|] & Eo & E); [|by injection E as _ <-]. apply bind_Some in E as (c1 & E1 & [= _ <-]).
  eapply accept_packet_safe; [| |exact E1]; [by apply (safe_view W c)|]. eapply open_short_bytes; [|exact Eo]. by apply Forall_drop.
Qed.

Lemma process_packets_safe W dg c b c' : bytes_ok dg -> safe W c -> process_packets clock dg c = Some (b, c') -> safe W c'.
Proof.
  intros Hb H E. unfold process_packets in E. apply bind_Some in E as (r & E & ->).
  refine (loop_post (datagram_step clock dg) (fun st => safe W st.2) (fun r => forall b c, r = Some (b, c) -> safe W c) _ _ _ _ _ _ E b c' eq_refl); [| |exact H].
  - intros [off c1] [off' c2] H1 Es. unfold datagram_step in Es. destruct (_ <? _)%nat; [|done]. destruct (_ =? 0); [done|].
    destruct (process_long_packet _ _ _ _) as [[[c3 o] n]|] eqn:El; [|done]. destruct (n =? 0)%nat; [done|]. injection Es as <- <-. by eapply process_long_packet_safe.
  - intros [off c1] r H1 Es b2 c2 ->. unfold datagram_step in Es. destruct (_ <? _)%nat; [|by injection Es as <- <-]. destruct (_ =? 0).
    + injection Es as Es. apply bind_Some in Es as ([b3 c3] & E3 & [= <- <-]). eapply process_short_packet_safe; [|exact H1|exact E3]. by apply Forall_drop.
    + destruct (process_long_packet _ _ _ _) as [[[c3 o] n]|] eqn:El; [|done]. destruct (n =? 0)%nat; [|done]. injection Es as <- <-. by eapply process_long_packet_safe.
Qed.

Lemma install_new_keys_shape c c' : install_new_keys c = Some c' -> exists ps, c' = set_spaces ps c.
Proof.
  assert (Hl : forall lvl c c', install_level c lvl = Some c' -> exists ps, c' = set_spaces ps c).
  { intros lvl c1 c2 E. unfold install_level in E. cbv zeta in E. inv_bind E. injection E as <-. by eexists. }
  unfold install_new_keys. cbn [for_each]. intros E. apply bind_Some in E as (c1 & E1 & E). apply bind_Some in E as (c2 & E2 & [= <-]).
  apply Hl in E1 as [p1 ->]. apply Hl in E2 as [p2 ->]. by exists p2.
Qed.

Lemma pull_crypto_shape c : exists ps cp t, pull_crypto_from_tls c = set_tls t (set_crypto_pending cp (set_spaces ps c)).
Proof.
  assert (Hl : forall lvl c, exists ps cp t, pull_crypto_level c lvl = set_tls t (set_crypto_pending cp (set_spaces ps c))).
  { intros lvl c1. unfold pull_crypto_level. cbv zeta. assert (Hid : exists ps cp t, c1 = set_tls t (set_crypto_pending cp (set_spaces ps c1))).
    { exists (spaces_ c1), (crypto_pending_ c1), (tls_ c1). by destruct c1. }
    destruct (_ =? _)%nat; [done|]. destruct (negb _); [done|]. eexists _, _, _. by destruct c1. }
  unfold pull_crypto_from_tls, send_levels. cbn [foldl].
  destruct (Hl LInitial c) as (p1 & q1 & t1 & ->). destruct (Hl LHandshake (set_tls t1 (set_crypto_pending q1 (set_spaces p1 c)))) as (p2 & q2 & t2 & ->).
  match goal with |- context [pull_crypto_level ?x LApplication] => destruct (Hl LApplication x) as (p3 & q3 & t3 & ->) end. by exists p3, q3, t3.
Qed.

Lemma pump_tls_shape c c' : pump_tls c = Some c' -> exists ps t, c' = set_spaces ps (set_tls t c).
Proof.
  unfold pump_tls. intros E. apply bind_Some in E as (c1 & E1 & E). apply install_new_keys_shape in E1 as [p1 ->]. apply install_new_keys_shape in E as [p2 ->]. eexists _, _. done.
Qed.

Lemma send_rounds_safe W n lvl : forall c b c', safe W c -> send_rounds clock n lvl c = Some (b, c') -> safe W c'.
Proof.
  induction n as [|n IH]; intros c b c' H E; cbn [send_rounds] in E; [by injection E as _ <-|]. apply bind_Some in E as ([again c1] & E1 & E).
  apply (build_and_send_safe W) in E1; [|done]. destruct again; [by eapply IH|by injection E as _ <-].
Qed.

Lemma settle_state_view c : send_view (settle_state c) = send_view c.
Proof. unfold settle_state. by case_match. Qed.

Lemma on_datagram_safe W dg c c' : bytes_ok dg -> safe W c -> on_datagram clock dg c = Some c' -> safe W c'.
Proof.
  intros Hb H E. unfold on_datagram in E. case_decide; [by injection E as <-|]. cbn [read_clock] in E. cbv zeta in E. set (c1 := set_recv_bytes_total _ _) in E.
  assert (H1 : safe W c1) by by apply (safe_view W c). apply bind_Some in E as ([ret c2] & E2 & E). apply (process_packets_safe W) in E2; [|done|done].
  destruct ret; [by injection E as <-|]. apply bind_Some in E as (c3 & E3 & E). apply pump_tls_shape in E3 as (ps & t & ->).
  destruct (pull_crypto_shape (set_spaces ps (set_tls t c2))) as (p4 & q4 & t4 & Ep). rewrite Ep in E. apply bind_Some in E as (c5 & E5 & [= <-]).
  apply (safe_view W c5); [apply settle_state_view|]. refine (for_each_inv _ (safe W) _ _ _ _ _ E5); [|by apply (safe_view W c2)].
  intros s lvl s' Hs Es. apply bind_Some in Es as ([b s1] & E6 & [= <-]). by eapply send_rounds_safe.
Qed.

Lemma check_idle_view c c' : check_idle_timeout clock c = Some c' -> send_view c' = send_view c.
Proof.
  unfold check_idle_timeout. destruct (negb _); [by intros [= <-]|]. cbv zeta. destruct (_ && _); [by intros [= <-]|]. cbn [read_clock].
  intros E. apply bind_Some in E as (a & _ & [= <-]). by case_match.
Qed.

Lemma refresh_view c : send_view (refresh_conn_recv_window c) = send_view c.
Proof. unfold refresh_conn_recv_window. cbv zeta. case_match; [done|]. by case_match. Qed.

Lemma timer_work_safe W c b c' : safe W c -> timer_work clock c = Some (b, c') -> safe (prune (streams_ c') W) c'.
Proof.
  intros H E. unfold timer_work in E. apply bind_Some in E as (c1 & E1 & E). apply check_idle_view in E1. assert (H1 : safe W c1) by by apply (safe_view W c).
  case_decide.
  { injection E as _ <-. destruct H1 as ([Hs H1] & Hw). split; [|done]. split; [done|]. intros sid. specialize (H1 sid). unfold prune.
    destruct (sm_find sid (streams_ c1)); [done|]. by destruct H1. }
  apply bind_Some in E as (c2 & E2 & E). apply pump_tls_shape in E2 as (ps & t & ->). apply bind_Some in E as (c3 & E3 & E).
  assert (H3 : safe W c3).
  { assert (H2 : safe W (set_spaces ps (set_tls t c1))) by by apply (safe_view W c1). eapply safe_shape; [by eapply check_pto_shape| |exact H2].
    eapply check_pto_safe; [apply H2|done]. }
  destruct (pull_crypto_shape c3) as (p4 & q4 & t4 & Ep). rewrite Ep in E. cbv zeta in E. set (c4 := set_tls t4 _) in E. injection E as _ <-.
  assert (H4 : safe W c4) by by apply (safe_view W c3). apply retire_safe in H4. pose proof (refresh_view (retire_closed_streams c4)) as Ev.
  assert (Es : streams_ (refresh_conn_recv_window (retire_closed_streams c4)) = streams_ (retire_closed_streams c4)) by by injection Ev.
  rewrite Es. by apply (safe_view _ (retire_closed_streams c4)).
Qed.

(** ** What the application has written *)

(** Whether a write to the stream is taken. *)
Definition accepts (sid : Z) (c : Conn (T := T)) : bool :=
  bool_decide (send_state (send (ensure_stream sid c).1) = Ready \/ send_state (send (ensure_stream sid c).1) = Send).

Definition written_after (e : Event) (c c' : Conn (T := T)) (W : Z -> bytes) : Z -> bytes :=
  match e with
  | EvWrite sid data _ => fun sid' => if (sid =? sid') && accepts sid c then W sid' ++ data else W sid'
  | _ => prune (streams_ c') W
  end.

(** A run that also says what has been written to each live stream. *)
Definition run_step (st : (Z -> bytes) * Conn (T := T)) (e : Event) : option ((Z -> bytes) * Conn (T := T)) :=
  c' ← run_event clock st.2 e;
  Some (written_after e st.2 c' st.1, c').

(** Datagrams are byte strings, and the application does not write to the
    peer's unidirectional streams. *)
Definition event_ok (e : Event) : Prop :=
  match e with
  | EvDatagram dg => bytes_ok dg
  | EvWrite sid _ _ => recv_only sid = false
  | _ => True
  end.

Lemma write_not_reset s d fin : send_state s <> SResetRecvd -> send_state (write s d fin) <> SResetRecvd.
Proof. intros H. unfold write. case_decide; [done|]. cbn. by case_decide. Qed.

Lemma write_stream_safe W sid d fin c : recv_only sid = false -> safe W c ->
  safe (written_after (EvWrite sid d fin) c (write_stream sid d fin c) W) (write_stream sid d fin c).
Proof.
  intros Hro H. pose proof (ensure_stream_safe W sid c H) as H1. unfold write_stream, written_after, accepts.
  destruct (ensure_stream_shape sid c) as (m & Es & Ef & _). destruct (ensure_stream sid c) as [s c1]. cbn [fst snd] in *.
  assert (Efs : sm_find sid (streams_ c1) = Some s) by by rewrite Es. destruct H1 as ([Hsort H1] & Hw).
  split; [|exact Hw]. split; [by apply sorted_update|]. intros sid'. cbn. rewrite find_update. specialize (H1 sid').
  destruct (Z.eqb_spec sid sid') as [<-|]; [|done]. rewrite Efs in *. cbn [fmap option_fmap option_map andb]. destruct H1 as (Hid & Hnr & Hx & orph & Hs).
  split; [done|]. split; [by apply write_not_reset|]. split; [congruence|]. exists orph. cbn [on_send_side send].
  destruct (bool_decide_reflect (send_state (send s) = Ready \/ send_state (send s) = Send)) as [Hst|Hst].
  - exact (send_step_ok _ _ (step_write _ _ _ d fin Hst) Hs).
  - replace (write (send s) d fin) with (send s); [done|]. unfold write. rewrite decide_True; [done|]. destruct (send_state (send s)); tauto.
Qed.

Lemma safe_prune W c : safe W c -> safe (prune (streams_ c) W) c.
Proof.
  intros ([Hs H] & Hw). split; [|done]. split; [done|]. intros sid. specialize (H sid). unfold prune. destruct (sm_find sid (streams_ c)); [done|by destruct H].
Qed.

Lemma run_event_safe W c e c' : safe W c -> event_ok e -> run_event clock c e = Some c' -> safe (written_after e c c' W) c'.
Proof.
  intros H He E. destruct e as [dg| |lvl| |sid d fin|sid|er ap wh ft| |]; cbn [run_event] in E.
  - apply safe_prune. by eapply on_datagram_safe.
  - apply bind_Some in E as ([b c1] & E & [= <-]). by eapply timer_work_safe.
  - apply bind_Some in E as ([b c1] & E & [= <-]). apply safe_prune. by eapply build_and_send_safe.
  - injection E as <-. apply safe_prune, (safe_view W c); [apply settle_state_view|done].
  - injection E as <-. by apply write_stream_safe.
  - injection E as <-. apply safe_prune. unfold read_stream. destruct (find_stream sid c) as [s|]; [|done]. destruct (read_contiguous (recv s)) as [[? ?] ?]. by apply safe_recv_side.
  - injection E as <-. apply safe_prune, (safe_view W c); [apply initiate_close_view|done].
  - apply bind_Some in E as ([b c1] & E & [= <-]). apply safe_prune, (safe_view W c); [|done]. unfold initiate_key_update in E. cbv zeta in E.
    destruct (negb _); [by injection E as _ <-|]. destruct (negb _); [by injection E as _ <-|]. apply bind_Some in E as (sp & _ & [= _ <-]). done.
  - injection E as <-. by apply safe_prune, (safe_view W c).
Qed.

Lemma run_step_safe es st st' : safe st.1 st.2 -> Forall event_ok es -> for_each run_step es st = Some st' -> safe st'.1 st'.2.
Proof.
  intros H Hf. revert st H. induction Hf as [|e es He _ IH]; intros st H E; cbn [for_each] in E; [by injection E as <-|].
  apply bind_Some in E as (st1 & E1 & E). eapply IH; [|exact E]. unfold run_step in E1. apply bind_Some in E1 as (c1 & E1 & [= <-]). by apply run_event_safe.
Qed.

Lemma new_connection_safe t dc cs ss tp c : new_connection clock t dc cs ss tp = Some c -> safe (fun _ => []) c.
Proof.
  unfold new_connection. cbv zeta. intros E. do 4 apply bind_Some in E as (? & _ & E). injection E as <-. split; [|cbn; lia].
  split; [by exists 0|]. by intros sid.
Qed.

(** C2: The connection drives its streams' send halves safely.  After any
    sequence of events (datagrams with arbitrary contents, timers, sends,
    application reads and writes), collecting stream data for a packet never
    leaves a send buffer; every STREAM frame it produces is a slice of what
    the application wrote to that stream, at its offset, with the FIN on the
    last byte; the fresh bytes stay within the peer's connection limit; and
    every byte a stream has sent and not released is in exactly one place:
    held acknowledged, waiting for retransmission, in a packet recorded in
    [sent_], or in a packet that could not be sent. *)
Theorem connection_send_safe t dc cs ss tp c0 es W c lvl :
  new_connection clock t dc cs ss tp = Some c0 -> Forall event_ok es -> for_each run_step es ((fun _ => []), c0) = Some (W, c) ->
  (exists fs c', collect_streams lvl c = Some (fs, c') /\ Forall (fun sf => frame_genuine (W (sf_stream_id sf)) sf) fs /\
     conn_send_total_ c' <= conn_send_max_data_ c') /\
  (forall sid s, find_stream sid c = Some s -> exists orphans, forall x,
     cnt x (acked_ranges (send s) ++ lost_ranges (send s) ++ flight sid (sent_ c) ++ orphans) =
       if decide (send_buf_base_offset (send s) <= x < send_next_offset (send s)) then 1%nat else 0%nat).
Proof.
  intros Hn He Hr. apply run_step_safe in Hr; [|by eapply new_connection_safe|done]. cbn [fst snd] in Hr. split.
  - destruct (collect_streams_ok W lvl c Hr) as (fs & m & n & x & -> & (_ & Hw & _) & Hf). eexists fs, _. split; [done|]. split; [done|]. apply Hw.
  - intros sid s Ef. destruct Hr as ([_ Hs] & _). specialize (Hs sid). unfold find_stream in Ef. rewrite Ef in Hs. destruct Hs as (_ & _ & _ & orph & [Hi _]).
    exists orph. intros x. apply Hi.
Qed.
End Connection.

(** Five bytes written to stream 0, sent, lost by a probe timeout. *)
Definition demo_events : list Event :=
  [EvTimer; EvValidated; EvWrite 0 [10; 11; 12; 13; 14] true; EvSend LApplication; EvTimer].

(** The frames the next packet carries. *)
Definition demo_frames : option (list StreamFrame) :=
  c0 ← demo_conn; st ← for_each (@run_step nat demo_tls toy_lib demo_clock) demo_events ((fun _ => []), c0);
  '(fs, _) ← @collect_streams nat demo_tls LApplication st.2; Some fs.

Lemma some_of {A} (m : option A) : is_empty (option_list m) = false -> exists a, m = Some a.
Proof. destruct m as [a|]; [by exists a|done]. Qed.

Lemma bind_steps {A B} (m : option A) (f : A -> option B) : is_empty (option_list (m ≫= f)) = false ->
  exists a b, m = Some a /\ f a = Some b.
Proof. destruct m as [a|]; [|done]. intros H. destruct (some_of _ H) as [b E]. exists a, b. split; [done|exact E]. Qed.

Lemma demo_runs : exists c0 st, @new_connection nat toy_lib demo_clock 0%nat [9; 9] [8; 8] [7; 7; 7] demo_tp = Some c0 /\
  for_each (@run_step nat demo_tls toy_lib demo_clock) demo_events ((fun _ => []), c0) = Some st.
Proof.
  refine (bind_steps (@new_connection nat toy_lib demo_clock 0%nat [9; 9] [8; 8] [7; 7; 7] demo_tp) (fun c0 => for_each (@run_step nat demo_tls toy_lib demo_clock) demo_events ((fun _ => []), c0)) _).
  vm_compute. reflexivity.
Qed.

Lemma demo_frames_eq : demo_frames = Some [QuicFrame.mkStream 0 0 true true [10; 11; 12; 13; 14]].
Proof. vm_compute. reflexivity. Qed.

Lemma connection_send_safe_witness : exists c0 W c fs c',
  for_each (@run_step nat demo_tls toy_lib demo_clock) demo_events ((fun _ => []), c0) = Some (W, c) /\
  @collect_streams nat demo_tls LApplication c = Some (fs, c') /\ Forall (fun sf => frame_genuine (W (sf_stream_id sf)) sf) fs /\
  demo_frames = Some [QuicFrame.mkStream 0 0 true true [10; 11; 12; 13; 14]].
Proof.
  destruct demo_runs as (c0 & [W c] & E0 & Hr).
  destruct (@connection_send_safe nat demo_tls toy_lib demo_clock demo_tls_laws toy_lib_laws 0%nat [9; 9] [8; 8] [7; 7; 7] demo_tp c0 demo_events W c LApplication E0)
    as [(fs & c' & H1 & H2 & _) _]; [repeat constructor|exact Hr|].
  exists c0, W, c, fs, c'. split; [exact Hr|]. split; [exact H1|]. split; [exact H2|exact demo_frames_eq].
Defined.
