(* ===== verification/QuicConnNumbers.v ===== *)
(** * QUIC connection: packet numbers

    Over whole runs of a connection: the packet numbers of an encryption level
    are used in order and never twice, every record of a sent packet has a
    number that was used, and an acknowledgement that is due has something to
    acknowledge. *)
From S2P Require Import Prelude VarInt SortedMap QuicPacket QuicCrypto QuicFrame PnSpace QuicCongestion QuicStream TransportParams QuicConn QuicConnStreams.

Local Open Scope Z_scope.

(** An acknowledgement is due only when a packet was received. *)
Definition ack_fine (a : PnSpace) : Prop := needs_ack a = true -> ranges a <> [].

Lemma insert_range_not_nil pn rs : insert_range pn rs <> [].
Proof.
  unfold insert_range. assert (Hh : forall a b, insert_here pn a b <> []).
  { intros a [|r b]; unfold insert_here; [|case_match; [by destruct a|]]; by destruct a. }
  destruct rs as [|r rs]; [done|]. destruct (find_slot pn (r :: rs)) as [[a b]|]; [|done].
  destruct (prev_of a) as [[a' h]|]; [|apply Hh]. case_match; [|apply Hh]. unfold extend_down. destruct b; [by destruct a'|]. case_match; by destruct a'.
Qed.

Lemma on_received_fine a pn e : ack_fine (on_received a pn e).
Proof. intros _. apply insert_range_not_nil. Qed.

Lemma build_ack_fine a d : ack_fine a -> ack_fine (build_ack_frame a d).2 /\ (needs_ack a = true -> needs_ack (build_ack_frame a d).2 = false).
Proof.
  unfold build_ack_frame, ack_fine. intros H. destruct (ranges a) eqn:E; cbn; [|by split]. rewrite E. split; [done|]. intros Hn. by destruct (H Hn).
Qed.

Section Numbers.
Context {T : Type} {tls : Tls T} {lib : CryptoLib} (clock : nat -> Z).
Implicit Types c : Conn (T := T).

Definition next_pn (lvl : EncryptionLevel) (c : Conn (T := T)) : Z := next_send_pn (space lvl c).

(** Steps that use no number and forget sent packets at most. *)
Record kept (c c' : Conn (T := T)) : Prop := {
  k_next : forall lvl, next_pn lvl c' = next_pn lvl c;
  k_acks : forall lvl, acks (space lvl c') = acks (space lvl c);
  k_sent : forall lvl pn, pn ∈ keys (sent_at_level lvl c') -> pn ∈ keys (sent_at_level lvl c) }.

Global Instance kept_preorder : PreOrder kept.
Proof. split; [by intros c|]. intros c1 c2 c3 [A1 B1 C1] [A2 B2 C2]. split; [congruence|congruence|auto]. Qed.

Definition number_view (c : Conn (T := T)) := (spaces_ c, sent_ c).

Lemma kept_view c c' : number_view c' = number_view c -> kept c c'.
Proof. unfold number_view. intros [= E1 E2]. unfold next_pn, space, sent_at_level. split; intros lvl; unfold next_pn, space, sent_at_level; by rewrite ?E1, ?E2. Qed.

Lemma space_set l l' sp c : space l (set_space l' sp c) = if decide (l = l') then sp else space l c.
Proof. unfold space, set_space. cbn. case_decide as E; [subst; by rewrite at_set_level|by rewrite at_set_other]. Qed.

Lemma kept_space lvl sp c : next_send_pn sp = next_pn lvl c -> acks sp = acks (space lvl c) -> kept c (set_space lvl sp c).
Proof. intros H1 H2. split; intros l; unfold next_pn; rewrite ?space_set; try (case_decide; by subst). done. Qed.

Lemma keys_sublist (m m' : list (Z * SentRecord)) pn : m `sublist_of` m' -> pn ∈ keys m -> pn ∈ keys m'.
Proof. induction 1 as [|x l l' _ IH|x l l' _ IH]; [done|..]; unfold keys in *; cbn; rewrite ?elem_of_cons; intuition. Qed.

Lemma kept_walk h lvl c m c' : disposes h -> walks h (sent_at_level lvl c) c m c' -> kept c (set_sent_at_level lvl m c').
Proof.
  intros Hh Hw. destruct (walks_ok _ _ _ _ _ Hh Hw) as ((a & b & d & e & ->) & Hs & _). split; [done|done|]. intros l pn. unfold sent_at_level, set_sent_at_level. cbn.
  destruct (decide (l = lvl)) as [->|Hn]; [rewrite at_set_level; by apply keys_sublist|by rewrite at_set_other].
Qed.

Lemma ack_range_kept lvl lo hi c : kept c (ack_range clock lvl lo hi c).
Proof.
  unfold ack_range. destruct (hi <? lo); [done|]. pose proof (ack_walk_walks clock lo hi (sent_at_level lvl c) c) as Hw.
  destruct (ack_walk clock lo hi (sent_at_level lvl c) c). eapply kept_walk; [apply ack_entry_disposes|exact Hw].
Qed.

Lemma ack_more_ranges_kept lvl rs : forall lo c, kept c (ack_more_ranges clock lvl lo rs c).
Proof.
  induction rs as [|r rs IH]; intros lo c; cbn [ack_more_ranges]; [done|]. destruct (_ <? _); [done|]. cbv zeta.
  destruct (_ <? _); [done|]. etrans; [apply ack_range_kept|apply IH].
Qed.

Lemma detect_loss_kept lvl c : kept c (detect_and_handle_loss clock lvl c).
Proof.
  unfold detect_and_handle_loss. cbv zeta. destruct (negb _); [done|]. destruct (_ =? _)%nat; [done|]. cbn [read_clock].
  set (c1 := set_ticks _ c). set (cut := _ - _). pose proof (loss_walk_walks clock lvl (largest_acked_pn_ (space lvl c)) cut (sent_at_level lvl c1) c1) as Hw.
  destruct (loss_walk _ _ _ _ _ _). trans c1; [by apply kept_view|]. eapply kept_walk; [apply declare_lost_disposes|exact Hw].
Qed.

Lemma on_ack_frame_kept lvl f c c' : on_ack_frame clock lvl f c = Some c' -> kept c c'.
Proof.
  unfold on_ack_frame. cbv zeta. set (c1 := set_space lvl _ c).
  assert (H1 : kept c c1) by (apply kept_space; unfold note_largest_acked; by case_match).
  destruct (largest_acked f <? first_range f); [by intros [= <-]|]. intros E. apply bind_Some in E as (c5 & E & [= <-]).
  etrans; [|apply detect_loss_kept]. etrans; [exact H1|]. trans (ack_all_ranges clock lvl f c1).
  { etrans; [apply ack_range_kept|apply ack_more_ranges_kept]. }
  apply kept_view. destruct (rtt_basis lvl f c); [|by injection E as <-]. unfold sample_rtt in E. cbn [read_clock] in E. cbv zeta in E. inv_bind E. by injection E as <-.
Qed.

Lemma pto_level_kept now pto st lvl : kept st.2 (pto_level clock now pto st lvl).2.
Proof.
  destruct st as [fired c]. cbn [snd]. unfold pto_level. cbv zeta. destruct (negb _); [done|].
  destruct (_ =? _)%nat; [done|]. destruct (_ <? _); [done|].
  pose proof (pto_walk_walks clock lvl (sent_at_level lvl c) c) as Hw. destruct (pto_walk _ _ _ _) as [m c'].
  trans (set_sent_at_level lvl m c'); [eapply kept_walk; [apply declare_lost_disposes|exact Hw]|by apply kept_space].
Qed.

Lemma check_pto_kept c c' : check_pto clock c = Some c' -> kept c c'.
Proof.
  unfold check_pto. intros E. apply bind_Some in E as (d & _ & E). cbn [read_clock] in E. cbv zeta in E. set (f := pto_level _ _ _) in E.
  assert (Hf : forall l st, kept st.2 (foldl f st l).2) by (induction l as [|lvl l IH]; intros st; [done|]; etrans; [apply pto_level_kept|apply IH]).
  specialize (Hf send_levels (false, set_ticks (S (ticks c)) c)). destruct (foldl _ _ _) as [fired c2]. injection E as <-.
  trans (set_ticks (S (ticks c)) c); [by apply kept_view|]. etrans; [exact Hf|]. apply kept_view. by destruct fired.
Qed.
(** ** Frames *)

Lemma initiate_close_numbers e a w f c : number_view (initiate_close e a w f c) = number_view c.
Proof. unfold initiate_close. by case_decide. Qed.

Lemma enforce_numbers sid c : number_view (enforce_stream_limit sid c).2 = number_view c.
Proof.
  unfold enforce_stream_limit. destruct (negb _); [done|]. destruct (find_stream sid c); [done|]. cbv zeta. destruct (_ <=? _); [apply initiate_close_numbers|done].
Qed.

Lemma ensure_numbers sid c : number_view (ensure_stream sid c).2 = number_view c.
Proof. unfold ensure_stream. destruct (find_stream sid c); [done|]. by destruct (is_bidi sid), (is_client_initiated sid). Qed.

Lemma charge_numbers p n c : number_view (charge_conn_window p n c) = number_view c.
Proof. unfold charge_conn_window. by case_match. Qed.

Lemma on_stream_frame_numbers f c : number_view (on_stream_frame f c) = number_view c.
Proof.
  unfold on_stream_frame. pose proof (enforce_numbers (sf_stream_id f) c) as E1. destruct (enforce_stream_limit _ c) as [ok c1]. cbn [snd] in E1. destruct (negb ok); [done|].
  destruct (_ || _); [by rewrite initiate_close_numbers|]. pose proof (ensure_numbers (sf_stream_id f) c1) as E2. destruct (ensure_stream _ c1) as [s c2]. cbn [snd] in E2. cbv zeta.
  destruct (exceeds_conn_window _ _ _); [rewrite initiate_close_numbers; congruence|]. destruct (deliver _ _ _ _); [|rewrite initiate_close_numbers; congruence].
  rewrite charge_numbers. change (number_view (with_stream (sf_stream_id f) (put_recv_side r) c2)) with (number_view c2). congruence.
Qed.

Lemma on_reset_stream_frame_numbers f c : number_view (on_reset_stream_frame f c) = number_view c.
Proof.
  unfold on_reset_stream_frame. pose proof (enforce_numbers (rs_stream_id f) c) as E1. destruct (enforce_stream_limit _ c) as [ok c1]. cbn [snd] in E1. destruct (negb ok); [done|].
  destruct (_ <? _); [by rewrite initiate_close_numbers|]. pose proof (ensure_numbers (rs_stream_id f) c1) as E2. destruct (ensure_stream _ c1) as [s c2]. cbn [snd] in E2. cbv zeta.
  destruct (exceeds_conn_window _ _ _); [rewrite initiate_close_numbers; congruence|]. destruct (reset_recvd _ _ _); [|rewrite initiate_close_numbers; congruence].
  rewrite charge_numbers. change (number_view (with_stream (rs_stream_id f) (put_recv_side r) c2)) with (number_view c2). congruence.
Qed.

Lemma feed_tls_crypto_kept lvl c : kept c (feed_tls_crypto lvl c).
Proof.
  unfold feed_tls_crypto. destruct (feed_walk _ _ _ _) as [[m off] t].
  trans (set_space lvl (set_crypto_read_offset off (set_crypto_recv m (space lvl c))) c); [by apply kept_space|by apply kept_view].
Qed.

Lemma on_crypto_frame_kept lvl f c : kept c (on_crypto_frame lvl f c).
Proof.
  unfold on_crypto_frame. cbv zeta. destruct (_ <? _); [apply kept_view, initiate_close_numbers|].
  etrans; [|apply feed_tls_crypto_kept]. by apply kept_space.
Qed.

Lemma on_frame_kept lvl f c c' : on_frame clock lvl c f = Some c' -> kept c c'.
Proof.
  destruct f; cbn [on_frame]; try (by intros [= <-]; apply kept_view);
    try (intros [= <-]; apply kept_view; case_match; done); try (destruct bidi; intros [= <-]; apply kept_view; try case_match; done).
  - apply on_ack_frame_kept.
  - intros [= <-]. apply kept_view, on_reset_stream_frame_numbers.
  - intros [= <-]. apply on_crypto_frame_kept.
  - intros [= <-]. apply kept_view, on_stream_frame_numbers.
Qed.
Lemma deliver_frames_kept lvl payload c c' : deliver_frames clock lvl payload c = Some c' -> kept c c'.
Proof.
  unfold deliver_frames. intros E. apply bind_Some in E as ([fs|] & _ & E); [|injection E as <-; apply kept_view, initiate_close_numbers].
  refine (for_each_inv _ (kept c) _ _ _ _ _ E); [|done]. intros s f s' Hs Es. etrans; [exact Hs|by eapply on_frame_kept].
Qed.

(** ** Keys *)

Lemma rotate_recv_numbers sp sp' : rotate_recv sp = Some sp' -> next_send_pn sp' = next_send_pn sp /\ acks sp' = acks sp.
Proof. unfold rotate_recv. cbv zeta. intros E. inv_bind E. repeat case_match; simplify_eq; done. Qed.

Lemma rotate_send_numbers sp sp' : rotate_send sp = Some sp' -> next_send_pn sp' = next_send_pn sp /\ acks sp' = acks sp.
Proof. unfold rotate_send. cbv zeta. intros E. inv_bind E. repeat case_match; simplify_eq; done. Qed.

Lemma install_level_kept lvl c c' : install_level c lvl = Some c' -> kept c c'.
Proof.
  unfold install_level. cbv zeta. intros E. apply bind_Some in E as (s1 & E1 & E). apply bind_Some in E as (s2 & E2 & E). apply bind_Some in E as (s3 & E3 & [= <-]).
  assert (H1 : next_send_pn s1 = next_pn lvl c /\ acks s1 = acks (space lvl c)).
  { unfold install_recv_keys in E1. destruct (_ && _); [|by injection E1 as <-]. apply bind_Some in E1 as (k & _ & [= <-]). by case_match. }
  assert (H2 : next_send_pn s2 = next_send_pn s1 /\ acks s2 = acks s1).
  { unfold install_send_keys in E2. destruct (_ && _); [|by injection E2 as <-]. apply bind_Some in E2 as (k & _ & [= <-]). by case_match. }
  assert (H3 : next_send_pn s3 = next_send_pn s2 /\ acks s3 = acks s2).
  { unfold install_next_keys in E3. destruct (_ && _); [|by injection E3 as <-]. cbv zeta in E3. inv_bind E3. repeat case_match; simplify_eq; done. }
  destruct H1, H2, H3. apply kept_space; congruence.
Qed.

Lemma install_new_keys_kept c c' : install_new_keys c = Some c' -> kept c c'.
Proof.
  intros E. refine (for_each_inv _ (kept c) _ _ _ _ _ E); [|done]. intros s l s' Hs Es. etrans; [exact Hs|by eapply install_level_kept].
Qed.

Lemma pump_tls_kept c c' : pump_tls c = Some c' -> kept c c'.
Proof.
  unfold pump_tls. intros E. apply bind_Some in E as (c1 & E1 & E). etrans; [by eapply install_new_keys_kept|].
  etrans; [|by eapply install_new_keys_kept]. by apply kept_view.
Qed.

Lemma pull_crypto_kept c : kept c (pull_crypto_from_tls c).
Proof.
  assert (Hl : forall lvl c, kept c (pull_crypto_level c lvl)).
  { intros lvl c1. unfold pull_crypto_level. cbv zeta. destruct (_ =? _)%nat; [done|]. destruct (negb _); [done|].
    set (sp := set_crypto_send_offset _ _). trans (set_space lvl sp c1); [by apply kept_space|by apply kept_view]. }
  unfold pull_crypto_from_tls, send_levels. cbn [foldl]. etrans; [apply Hl|]. etrans; [apply Hl|apply Hl].
Qed.

(** ** Numbers in use *)

(** At most [n] packets were sent at each level, with the numbers below
    [next_send_pn]. *)
Record numbered (n : Z) (c : Conn (T := T)) : Prop := {
  nu_next : forall lvl, 0 <= next_pn lvl c <= n;
  nu_acks : forall lvl, ack_fine (acks (space lvl c));
  nu_sent : forall lvl pn, pn ∈ keys (sent_at_level lvl c) -> 0 <= pn < next_pn lvl c }.

(** From [c] to [c'], at most [k] packets more per level. *)
Record sends (k : Z) (c c' : Conn (T := T)) : Prop := {
  se_next : forall n, numbered n c -> n + k < 2 ^ 64 -> numbered (n + k) c';
  se_grow : forall n, numbered n c -> n + k < 2 ^ 64 -> forall lvl, next_pn lvl c <= next_pn lvl c' }.

Lemma sends_kept c c' : kept c c' -> sends 0 c c'.
Proof.
  intros [H1 H2 H3]. split; intros n [A B C] Hn; rewrite ?Z.add_0_r; [|intros lvl; rewrite H1; lia].
  split; [intros lvl; rewrite H1; apply A|intros lvl; rewrite H2; apply B|]. intros lvl pn Hin. rewrite H1. apply C, H3, Hin.
Qed.

Lemma sends_trans j k c1 c2 c3 : 0 <= j -> 0 <= k -> sends j c1 c2 -> sends k c2 c3 -> sends (j + k) c1 c3.
Proof.
  intros Hj Hk [A1 B1] [A2 B2]. split; intros n H Hn.
  - rewrite Z.add_assoc. apply A2; [apply A1; [done|lia]|lia].
  - intros lvl. etrans; [apply (B1 n); [done|lia]|]. apply (B2 (n + j)); [apply A1; [done|lia]|lia].
Qed.

Lemma sends_weaken j k c c' : 0 <= j <= k -> sends j c c' -> sends k c c'.
Proof.
  intros Hj [A B]. split; intros n H Hn; [|apply (B n); [done|lia]]. destruct (A n H ltac:(lia)) as [H1 H2 H3]. split; [|done|done]. intros lvl. specialize (H1 lvl). lia.
Qed.

Lemma accept_packet_sends lvl pn payload c c' : accept_packet clock lvl pn payload c = Some c' -> sends 0 c c'.
Proof.
  intros E. unfold accept_packet in E. cbv zeta in E. apply bind_Some in E as (c1 & E1 & [= <-]). apply deliver_frames_kept in E1.
  set (c0 := if bool_decide (lvl = LHandshake) then _ else _) in E1.
  assert (H0 : kept c c0). { trans (set_space lvl (note_received pn (space lvl c)) c); [apply kept_space; unfold note_received; cbv zeta; by case_match|]. unfold c0. case_match; by apply kept_view. }
  apply (sends_trans 0 0 c c1); [done|done|apply sends_kept; by etrans|]. clear. split; intros n [A B C] Hn; rewrite ?Z.add_0_r.
  - split; intros l; [unfold next_pn; rewrite space_set; case_decide; subst; apply A|rewrite space_set; case_decide; subst; [apply on_received_fine|apply B]|].
    intros q Hq. unfold next_pn. rewrite space_set. case_decide; subst; by apply C.
  - intros l. unfold next_pn. rewrite space_set. case_decide; subst; cbn; unfold next_pn; lia.
Qed.
(** ** Packets in *)

Lemma process_long_packet_sends dg off c c' off' n : process_long_packet clock dg off c = Some (c', off', n) -> sends 0 c c'.
Proof.
  intros E. unfold process_long_packet in E. destruct (parse_long_header dg off []) as [[hdr cursor]|]; [|injection E as <- _ _; by apply sends_kept].
  destruct (level_of_type (type hdr)) as [lvl|]; [|injection E as <- _ _; by apply sends_kept]. cbv zeta in E. destruct (negb _); [injection E as <- _ _; by apply sends_kept|].
  apply bind_Some in E as ([[pn pl]|] & _ & E); [|injection E as <- _ _; by apply sends_kept]. apply bind_Some in E as (c1 & E1 & [= <- _ _]). by eapply accept_packet_sends.
Qed.

Lemma open_short_numbers sp kp pn aad ct pl sp' : open_short sp kp pn aad ct = Some (Some (pl, sp')) -> next_send_pn sp' = next_send_pn sp /\ acks sp' = acks sp.
Proof.
  unfold open_short. destruct (_ =? _); [intros [= E]; by apply bind_Some in E as (p & _ & [= _ <-])|]. destruct (negb _); [done|].
  destruct (open_inplace _ _ _ _); [|done]. intros E. apply bind_Some in E as (s1 & E1 & E). apply bind_Some in E as (s2 & E2 & [= _ <-]).
  apply rotate_recv_numbers in E1 as [H1 H2]. destruct (negb _); [apply rotate_send_numbers in E2 as [H3 H4]; split; congruence|]. by injection E2 as <-.
Qed.

Lemma process_short_packet_sends dg c b c' : process_short_packet clock dg c = Some (b, c') -> sends 0 c c'.
Proof.
  intros E. unfold process_short_packet in E. cbv zeta in E. repeat match type of E with (if ?b then _ else _) = _ => destruct b; [injection E as _ <-; by apply sends_kept|] end.
  destruct (unmask _ _ _ _) as [dg' n]. destruct (_ <? _)%nat; [injection E as _ <-; by apply sends_kept|].
  apply bind_Some in E as ([[pl sp]|] & Eo & E); [|injection E as _ <-; by apply sends_kept]. apply bind_Some in E as (c1 & E1 & [= _ <-]). apply open_short_numbers in Eo as [H1 H2].
  apply (sends_trans 0 0 c (set_space LApplication sp c)); [done|done|by apply sends_kept, kept_space|by eapply accept_packet_sends].
Qed.

Lemma process_packets_sends dg c b c' : process_packets clock dg c = Some (b, c') -> sends 0 c c'.
Proof.
  intros E. unfold process_packets in E. apply bind_Some in E as (r & E & ->).
  assert (Hc : forall c1 c2, sends 0 c c1 -> sends 0 c1 c2 -> sends 0 c c2) by (intros c1 c2 H1 H2; by apply (sends_trans 0 0 c c1)).
  refine (loop_post (datagram_step clock dg) (fun st => sends 0 c st.2) (fun r => forall b c', r = Some (b, c') -> sends 0 c c') _ _ _ _ _ _ E b c' eq_refl); [| |by apply sends_kept].
  - intros [off c1] [off' c2] H1 Es. unfold datagram_step in Es. destruct (_ <? _)%nat; [|done]. destruct (_ =? 0); [done|].
    destruct (process_long_packet _ _ _ _) as [[[c3 o] n]|] eqn:El; [|done]. destruct (n =? 0)%nat; [done|]. injection Es as <- <-. eapply Hc; [exact H1|by eapply process_long_packet_sends].
  - intros [off c1] r H1 Es b2 c2 ->. unfold datagram_step in Es. destruct (_ <? _)%nat; [|by injection Es as <- <-]. destruct (_ =? 0).
    + injection Es as Es. apply bind_Some in Es as ([b3 c3] & E3 & [= <- <-]). eapply Hc; [exact H1|by eapply process_short_packet_sends].
    + destruct (process_long_packet _ _ _ _) as [[[c3 o] n]|] eqn:El; [|done]. destruct (n =? 0)%nat; [|done]. injection Es as <- <-. eapply Hc; [exact H1|by eapply process_long_packet_sends].
Qed.

(** ** Packets out *)

(** Collecting a packet's contents settles the acknowledgement that is due. *)
Lemma collect_numbers lvl c o c' : collect lvl c = Some (o, c') ->
  sent_ c' = sent_ c /\ wire c' = wire c /\ (forall l, next_pn l c' = next_pn l c) /\
  (forall l, ack_fine (acks (space l c)) -> ack_fine (acks (space l c'))) /\
  (ack_fine (acks (space lvl c)) -> needs_ack (acks (space lvl c')) = false) /\ bool_decide (is_Some (o_ack o)) = needs_ack (acks (space lvl c)).
Proof.
  unfold collect. cbv zeta. intros E. apply bind_Some in E as ([fs c1] & E1 & E).
  assert (H1 : spaces_ c1 = spaces_ c /\ sent_ c1 = sent_ c /\ wire c1 = wire c).
  { unfold collect_streams in E1. destruct (bool_decide _); [|by injection E1 as _ <-]. cbv zeta in E1. apply bind_Some in E1 as ([[m t] fr] & _ & [= _ <-]). by destruct (_ <? _). }
  destruct H1 as (Hsp & Hse & Hw). destruct (collect_ack lvl c1) as [ack c2] eqn:E2. destruct (collect_path_responses lvl c2) as [path c3] eqn:E3.
  destruct (collect_control lvl c3) as [ctl c4] eqn:E4. injection E as <- <-.
  assert (H4 : spaces_ c4 = spaces_ c2 /\ sent_ c4 = sent_ c2 /\ wire c4 = wire c2).
  { unfold collect_control in E4. unfold collect_path_responses in E3. destruct (bool_decide _); injection E4 as _ <-; by injection E3 as _ <-. }
  destruct H4 as (Hsp4 & Hse4 & Hw4). unfold next_pn. assert (Hs4 : forall l, space l c4 = space l c2) by (intros l; unfold space; by rewrite Hsp4).
  assert (Hs1 : forall l, space l c1 = space l c) by (intros l; unfold space; by rewrite Hsp). cbn [o_ack].
  unfold collect_ack in E2. cbv zeta in E2. rewrite Hs1 in E2. destruct (needs_ack (acks (space lvl c))) eqn:En.
  - destruct (build_ack_frame (acks (space lvl c)) 0) as [f a] eqn:Eb. injection E2 as <- <-.
    assert (Hsp2 : forall l, space l c4 = if decide (l = lvl) then set_acks a (space lvl c) else space l c) by (intros l; by rewrite Hs4, space_set, Hs1).
    split_and!; [rewrite Hse4; exact Hse|rewrite Hw4; exact Hw| | | |done].
    + intros l. rewrite Hsp2. case_decide; by subst.
    + intros l Hf. rewrite Hsp2. case_decide; [|done]. subst. destruct (build_ack_fine _ 0 Hf) as [H _]. by rewrite Eb in H.
    + intros Hf. rewrite Hsp2, decide_True by done. destruct (build_ack_fine _ 0 Hf) as [_ H]. rewrite Eb in H. by apply H.
  - injection E2 as <- <-. split_and!; [rewrite Hse4; exact Hse|rewrite Hw4; exact Hw| | | |done]; [intros l; by rewrite Hs4, Hs1|intros l; by rewrite Hs4, Hs1|].
    intros _. by rewrite Hs4, Hs1.
Qed.
Lemma take_pn_numbers lvl c : sent_ (take_pn lvl c).2 = sent_ c /\ wire (take_pn lvl c).2 = wire c /\
  (forall l, acks (space l (take_pn lvl c).2) = acks (space l c)) /\
  (forall l, next_pn l (take_pn lvl c).2 = if decide (l = lvl) then u64 (next_pn lvl c + 1) else next_pn l c).
Proof.
  unfold take_pn. cbn [snd]. split; [done|]. split; [done|]. split; intros l; unfold next_pn; rewrite space_set; case_decide; by subst.
Qed.

Lemma sent_emplace_keys pn r (m : list (Z * SentRecord)) k : k ∈ keys (sm_emplace pn r m) -> k = pn \/ k ∈ keys m.
Proof.
  unfold sm_emplace. destruct (sm_find pn m); [by right|]. unfold keys. induction m as [|[j w] m IH]; cbn [sm_insert]; [set_solver|].
  destruct (_ <? _); [set_solver|]. destruct (_ =? _); set_solver.
Qed.

Lemma track_numbers lvl o pn dg c : let c' := track_and_send clock lvl o pn dg c in
  wire c' = wire c ++ [dg] /\ (forall l, acks (space l c') = acks (space l c)) /\ (forall l, next_pn l c' = next_pn l c) /\
  (forall l k, k ∈ keys (sent_at_level l c') -> (l = lvl /\ k = pn) \/ k ∈ keys (sent_at_level l c)) /\
  is_Some (sm_find pn (sent_at_level lvl c')).
Proof.
  cbv zeta. unfold track_and_send. cbn [read_clock]. cbv zeta. set (r := mkSentRecord _ _ _ _ _ _). set (c1 := set_ticks _ c).
  set (c2 := set_sent_at_level lvl (sm_emplace pn r (sent_at_level lvl c1)) c1). set (c3 := if eliciting lvl o then _ else c2).
  set (c4 := if _ && _ then _ else c3). set (c5 := send_datagram dg _).
  assert (H3 : wire c3 = wire c2 /\ sent_ c3 = sent_ c2 /\ (forall l, acks (space l c3) = acks (space l c2)) /\ forall l, next_pn l c3 = next_pn l c2).
  { unfold c3. destruct (eliciting lvl o); [|done]. split; [done|]. split; [done|]. split; intros l; unfold next_pn; rewrite space_set; case_decide; by subst. }
  assert (H5 : wire c5 = wire c3 ++ [dg] /\ sent_ c5 = sent_ c3 /\ spaces_ c5 = spaces_ c3) by (unfold c5, c4, count_unvalidated, send_datagram; destruct (_ && _); by destruct (negb _)).
  destruct H3 as (W3 & S3 & A3 & N3). destruct H5 as (W5 & S5 & P5). unfold next_pn, space in *. rewrite P5.
  split; [by rewrite W5, W3|]. split; [intros l; by rewrite A3|]. split; [intros l; by rewrite N3|]. unfold sent_at_level. rewrite S5, S3. split.
  - intros l k. unfold c2, set_sent_at_level. cbn. destruct (decide (l = lvl)) as [->|Hn]; [|rewrite at_set_other by done; by right].
    rewrite at_set_level. intros [->|H]%sent_emplace_keys; [by left|by right].
  - unfold c2, set_sent_at_level. cbn. rewrite at_set_level. unfold sm_emplace. destruct (sm_find pn (sent_at_level lvl c1)) eqn:E; [by rewrite E|]. rewrite find_insert, Z.eqb_refl. by eexists.
Qed.

Lemma send_close_sends lvl f c c' : send_close lvl f c = Some c' -> sends 1 c c'.
Proof.
  unfold send_close. destruct (negb _); [intros [= <-]; apply (sends_weaken 0); [lia|by apply sends_kept]|]. intros E. apply bind_Some in E as (pl & _ & E).
  destruct (take_pn_numbers lvl c) as (S1 & _ & A1 & N1). destruct (take_pn lvl c) as [pn c1]. cbn [snd] in *. apply bind_Some in E as (dg & _ & [= <-]).
  set (c2 := set_pending_close _ _). assert (E2 : number_view c2 = number_view c1).
  { unfold c2. destruct dg; [|done]. unfold count_unvalidated, send_datagram. by destruct (negb _). }
  apply (sends_trans 1 0 c c1); [lia|lia| |by apply sends_kept, kept_view]. split; intros n [A B C] Hn.
  - split; [|intros l; rewrite A1; apply B|].
    + intros l. pose proof (A l). pose proof (A lvl). rewrite N1. case_decide; [|lia]. rewrite u64_small by (unfold u64_ok; lia). lia.
    + intros l k Hk. unfold sent_at_level in Hk. rewrite S1 in Hk. specialize (C l k Hk). pose proof (A lvl). rewrite N1. case_decide; [subst|lia]. rewrite u64_small by (unfold u64_ok; lia). lia.
  - intros l. pose proof (A lvl). rewrite N1. case_decide; [subst|lia]. rewrite u64_small by (unfold u64_ok; lia). lia.
Qed.

(** A packet that leaves uses the next number of its level, which no record
    has, and is recorded under it. *)
Lemma build_and_send_numbers lvl c b c' n : numbered n c -> n + 1 < 2 ^ 64 -> build_and_send clock lvl c = Some (b, c') ->
  numbered (n + 1) c' /\ (forall l, next_pn l c <= next_pn l c') /\
  (b = true -> (exists dg, wire c' = wire c ++ [dg]) /\ (forall l, next_pn l c' = if decide (l = lvl) then next_pn lvl c + 1 else next_pn l c) /\
     sm_find (next_pn lvl c) (sent_at_level lvl c) = None /\ is_Some (sm_find (next_pn lvl c) (sent_at_level lvl c'))).
Proof.
  intros H Hn E. assert (Hq : forall k c2, 0 <= k <= 1 -> sends k c c2 -> numbered (n + 1) c2 /\ forall l, next_pn l c <= next_pn l c2).
  { intros k c2 Hk Hs. apply (sends_weaken k 1) in Hs; [|done]. split; [by apply Hs|by apply (se_grow _ _ _ Hs n)]. }
  unfold build_and_send in E. destruct (negb _); [injection E as <- <-; destruct (Hq 0 c ltac:(lia) (sends_kept _ _ ltac:(done))); by split_and!|].
  case_decide; [injection E as <- <-; destruct (Hq 0 c ltac:(lia) (sends_kept _ _ ltac:(done))); by split_and!|]. destruct (pending_close_ c) as [f|].
  { apply bind_Some in E as (c1 & E1 & [= <- <-]). destruct (Hq 1 c1 ltac:(lia) ltac:(by eapply send_close_sends)). by split_and!. }
  destruct (amplification_blocked c); [injection E as <- <-; destruct (Hq 0 c ltac:(lia) (sends_kept _ _ ltac:(done))); by split_and!|].
  apply bind_Some in E as ([o c1] & E1 & E). apply collect_numbers in E1 as (S1 & W1 & N1 & A1 & _ & _). destruct H as [HA HB HC].
  assert (H1 : numbered n c1). { split; [intros l; rewrite N1; apply HA|intros l; by apply A1, HB|]. intros l k Hk. unfold sent_at_level in Hk. rewrite S1 in Hk. rewrite N1. by apply HC. }
  destruct (nothing_to_send o). { injection E as <- <-. split; [|split; [intros l; by rewrite N1|done]]. destruct H1 as [X Y Z']. split; [intros l; specialize (X l); lia|done|done]. }
  apply bind_Some in E as (pl & _ & E). destruct (take_pn_numbers lvl c1) as (S2 & W2 & A2 & N2). assert (Epn : (take_pn lvl c1).1 = next_pn lvl c1) by done.
  destruct (take_pn lvl c1) as [pn c2]. cbn [fst snd] in *. subst pn. rewrite N1 in *.
  assert (Hu : u64 (next_pn lvl c + 1) = next_pn lvl c + 1) by (apply u64_small; unfold u64_ok; specialize (HA lvl); lia). rewrite Hu in N2.
  assert (H2 : numbered (n + 1) c2 /\ forall l, next_pn l c <= next_pn l c2).
  { split; [|intros l; rewrite N2; case_decide; [subst; lia|by rewrite N1]]. destruct H1 as [X Y Z']. split.
    - intros l. rewrite N2. specialize (HA l). case_decide; [subst; lia|]. rewrite N1. lia.
    - intros l. rewrite A2. apply Y.
    - intros l k Hk. unfold sent_at_level in Hk. rewrite S2 in Hk. specialize (Z' l k Hk). rewrite N1 in Z'. rewrite N2. case_decide; [subst; lia|]. by rewrite N1. }
  destruct H2 as [H2 G2]. apply bind_Some in E as ([dg|] & _ & [= <- <-]); [|by split_and!].
  destruct (track_numbers lvl o (next_pn lvl c) dg c2) as (W3 & A3 & N3 & S3 & F3). set (c3 := track_and_send _ _ _ _ _ _) in *.
  split; [|split; [intros l; rewrite N3; apply G2|]].
  - destruct H2 as [X Y Z']. split; [intros l; rewrite N3; apply X|intros l; rewrite A3; apply Y|]. intros l k Hk. rewrite N3. apply S3 in Hk as [[-> ->]|Hk]; [|by apply Z'].
    rewrite N2, decide_True by done. specialize (HA lvl). lia.
  - intros _. split; [exists dg; congruence|]. split; [intros l; rewrite N3, N2; case_decide; [done|apply N1]|]. split; [|exact F3].
    destruct (sm_find (next_pn lvl c) (sent_at_level lvl c)) as [r|] eqn:Ef; [|done]. apply find_elem in Ef.
    assert (Hin : next_pn lvl c ∈ keys (sent_at_level lvl c)) by (apply list_elem_of_fmap; by exists (next_pn lvl c, r)). apply HC in Hin. lia.
Qed.
Lemma build_and_send_sends lvl c b c' : build_and_send clock lvl c = Some (b, c') -> sends 1 c c'.
Proof. intros E. split; intros n H Hn; by destruct (build_and_send_numbers lvl c b c' n H Hn E) as (? & ? & _). Qed.

Lemma send_rounds_sends k lvl : forall c b c', send_rounds clock k lvl c = Some (b, c') -> sends (Z.of_nat k) c c'.
Proof.
  induction k as [|k IH]; intros c b c' E; cbn [send_rounds] in E; [injection E as _ <-; by apply sends_kept|]. apply bind_Some in E as ([again c1] & E1 & E).
  apply build_and_send_sends in E1. replace (Z.of_nat (S k)) with (1 + Z.of_nat k) by lia. apply (sends_trans 1 (Z.of_nat k) c c1); [lia|lia|done|].
  destruct again; [by eapply IH|]. injection E as _ <-. apply (sends_weaken 0); [lia|by apply sends_kept].
Qed.

(** ** Runs *)

Definition kPerEvent : Z := 192.

Lemma on_datagram_sends dg c c' : on_datagram clock dg c = Some c' -> sends kPerEvent c c'.
Proof.
  intros E. assert (H0 : forall c1, sends 0 c c1 -> sends kPerEvent c c1) by (intros c1; by apply sends_weaken).
  unfold on_datagram in E. case_decide; [injection E as <-; by apply H0, sends_kept|]. cbn [read_clock] in E. cbv zeta in E. set (c1 := set_recv_bytes_total _ _) in E.
  apply bind_Some in E as ([ret c2] & E2 & E). apply process_packets_sends in E2.
  assert (H2 : sends 0 c c2) by (apply (sends_trans 0 0 c c1); [done|done|by apply sends_kept, kept_view|done]).
  destruct ret; [injection E as <-; by apply H0|]. apply bind_Some in E as (c3 & E3 & E). apply pump_tls_kept in E3. cbv zeta in E.
  apply bind_Some in E as (c5 & E5 & [= <-]). set (c4 := pull_crypto_from_tls c3) in E5.
  assert (H4 : sends 0 c c4) by (apply (sends_trans 0 0 c c2); [done|done|done|apply sends_kept; etrans; [exact E3|apply pull_crypto_kept]]).
  assert (H5 : sends kPerEvent c c5).
  { unfold send_levels in E5. cbn [for_each] in E5. apply bind_Some in E5 as (d1 & F1 & E5). apply bind_Some in E5 as (d2 & F2 & E5). apply bind_Some in E5 as (d3 & F3 & [= <-]).
    apply bind_Some in F1 as ([b1 e1] & F1 & [= <-]). apply bind_Some in F2 as ([b2 e2] & F2 & [= <-]). apply bind_Some in F3 as ([b3 e3] & F3 & [= <-]).
    apply send_rounds_sends in F1, F2, F3. cbn [snd] in *. change kPerEvent with (0 + (64 + (64 + 64))). apply (sends_trans _ _ c c4); [lia|lia|done|].
    apply (sends_trans _ _ c4 e1); [lia|lia|done|]. by apply (sends_trans _ _ e1 e2). }
  replace kPerEvent with (kPerEvent + 0) by lia. apply (sends_trans _ _ c c5); [done|done|done|]. apply sends_kept, kept_view. unfold settle_state. by destruct (_ && _).
Qed.

Lemma retire_numbers c : number_view (retire_closed_streams c) = number_view c.
Proof.
  unfold retire_closed_streams. assert (Hw : forall m c, number_view (retire_walk m c).2 = number_view c).
  { induction m as [|[sid s] m IH]; intros c1; cbn [retire_walk]; [done|]. destruct (terminal sid s).
    - rewrite IH. unfold credit_stream. destruct (is_client_initiated sid); [|done]. by destruct (is_bidi sid).
    - specialize (IH c1). by destruct (retire_walk m c1). }
  specialize (Hw (streams_ c) c). destruct (retire_walk _ c) as [m c1]. cbn [snd] in Hw. cbv zeta.
  repeat match goal with |- context [if ?b then _ else _] => destruct b end; exact Hw.
Qed.

Lemma timer_work_sends c b c' : timer_work clock c = Some (b, c') -> sends 0 c c'.
Proof.
  intros E. unfold timer_work in E. apply bind_Some in E as (c1 & E1 & E).
  assert (H1 : kept c c1).
  { apply kept_view. unfold check_idle_timeout in E1. destruct (negb _); [by injection E1 as <-|]. cbv zeta in E1. destruct (_ && _); [by injection E1 as <-|]. cbn [read_clock] in E1.
    apply bind_Some in E1 as (a & _ & [= <-]). by destruct (_ <=? _). }
  case_decide; [injection E as _ <-; by apply sends_kept|]. apply bind_Some in E as (c2 & E2 & E). apply bind_Some in E as (c3 & E3 & E). cbv zeta in E. injection E as _ <-.
  apply sends_kept. etrans; [exact H1|]. etrans; [by eapply pump_tls_kept|]. etrans; [by eapply check_pto_kept|]. etrans; [apply pull_crypto_kept|]. apply kept_view.
  etrans; [|apply retire_numbers]. unfold refresh_conn_recv_window. cbv zeta. destruct (_ =? 0); [done|]. by destruct (_ <? _).
Qed.

Lemma run_event_sends e c c' : run_event clock c e = Some c' -> sends kPerEvent c c'.
Proof.
  assert (Hk : forall k c1, 0 <= k <= 1 -> sends k c c1 -> sends kPerEvent c c1) by (intros k c1 Hk; apply sends_weaken; unfold kPerEvent; lia).
  assert (Hv : forall c1, number_view c1 = number_view c -> sends kPerEvent c c1) by (intros c1 H; apply (Hk 0); [lia|]; by apply sends_kept, kept_view).
  destruct e; cbn [run_event].
  - apply on_datagram_sends.
  - intros E. apply bind_Some in E as ([b c1] & E & [= <-]). apply (Hk 0); [lia|]. by eapply timer_work_sends.
  - intros E. apply bind_Some in E as ([b c1] & E & [= <-]). apply (Hk 1); [lia|]. by eapply build_and_send_sends.
  - intros [= <-]. apply Hv. unfold settle_state. by destruct (_ && _).
  - intros [= <-]. apply Hv. unfold write_stream. pose proof (ensure_numbers stream_id c) as H. destruct (ensure_stream stream_id c). exact H.
  - intros [= <-]. apply Hv. unfold read_stream. destruct (find_stream stream_id c); [|done]. by destruct (read_contiguous _) as [[? ?] ?].
  - intros [= <-]. apply Hv, initiate_close_numbers.
  - intros E. apply bind_Some in E as ([b c1] & E & [= <-]). cbn [snd]. unfold initiate_key_update in E. cbv zeta in E. destruct (negb _); [injection E as _ <-; by apply Hv|].
    destruct (negb _); [injection E as _ <-; by apply Hv|]. apply bind_Some in E as (sp & E & [= _ <-]). apply rotate_send_numbers in E as [H1 H2]. apply (Hk 0); [lia|]. by apply sends_kept, kept_space.
  - intros [= <-]. by apply Hv.
Qed.

Lemma run_events_sends es : forall c c', run_events clock es c = Some c' -> sends (kPerEvent * #es) c c'.
Proof.
  induction es as [|e es IH]; intros c c' E; unfold run_events in E; cbn [for_each] in E; [injection E as <-; by apply sends_kept|].
  apply bind_Some in E as (c1 & E1 & E). replace (kPerEvent * #(e :: es)) with (kPerEvent + kPerEvent * #es) by (cbn [length]; lia).
  apply (sends_trans _ _ c c1); [done|unfold kPerEvent; lia|by eapply run_event_sends|by apply IH].
Qed.

Lemma new_connection_numbered t dc cs ss tp c : new_connection clock t dc cs ss tp = Some c -> numbered 0 c.
Proof.
  unfold new_connection. cbv zeta. intros E. do 4 apply bind_Some in E as (? & _ & E). injection E as <-.
  split; intros lvl; destruct lvl; unfold next_pn; cbn; try lia; try done; intros pn H; by apply elem_of_nil in H.
Qed.

(** C11: Packet numbers are never reused.  After any run of events, and
    whatever keys, losses and retransmissions it had, a packet that leaves at
    some level takes the number [next_send_pn] of that level, which no packet
    in [sent_] has; the packet is recorded under it and the next one will take
    the number after it; numbers never go back during a run; and an
    acknowledgement is only due when there is a packet to acknowledge.  (Fewer
    than 2^56 events, so that no counter can wrap.) *)
Theorem packet_numbers_fresh t dc cs ss tp c0 es es' c1 c lvl b c' :
  new_connection clock t dc cs ss tp = Some c0 -> run_events clock es c0 = Some c1 -> run_events clock es' c1 = Some c ->
  #es + #es' < 2 ^ 56 -> build_and_send clock lvl c = Some (b, c') ->
  (forall l, next_pn l c1 <= next_pn l c <= next_pn l c') /\
  (forall l pn, pn ∈ keys (sent_at_level l c) -> 0 <= pn < next_pn l c) /\
  (forall l, needs_ack (acks (space l c)) = true -> ranges (acks (space l c)) <> []) /\
  (b = true -> (exists dg, wire c' = wire c ++ [dg]) /\
     (forall l, next_pn l c' = if decide (l = lvl) then next_pn lvl c + 1 else next_pn l c) /\
     sm_find (next_pn lvl c) (sent_at_level lvl c) = None /\ is_Some (sm_find (next_pn lvl c) (sent_at_level lvl c'))).
Proof.
  intros E0 E1 E2 Hn E. apply new_connection_numbered in E0. apply run_events_sends in E1, E2. unfold kPerEvent in *.
  pose proof (se_next _ _ _ E1 0 E0 ltac:(lia)) as H1. pose proof (se_next _ _ _ E2 _ H1 ltac:(lia)) as H2. pose proof (se_grow _ _ _ E2 _ H1 ltac:(lia)) as G2.
  destruct (build_and_send_numbers lvl c b c' _ H2 ltac:(lia) E) as (_ & G3 & Hb). split; [intros l; split; [apply G2|apply G3]|]. split; [apply H2|]. split; [apply H2|exact Hb].
Qed.
End Numbers.

(** Data written, sent, lost by a probe timeout and sent again. *)
Lemma packet_numbers_fresh_witness : exists (c c' : Conn (T := nat)), @build_and_send nat demo_tls toy_lib demo_clock LApplication c = Some (true, c') /\
  next_pn LApplication c' = next_pn LApplication c + 1 /\ sm_find (next_pn LApplication c) (sent_at_level LApplication c) = None.
Proof.
  assert (E : (c0 ← @new_connection nat toy_lib demo_clock 0%nat [9; 9] [8; 8] [7; 7; 7] demo_tp;
    c ← @run_events nat demo_tls toy_lib demo_clock demo_events c0;
    r ← @build_and_send nat demo_tls toy_lib demo_clock LApplication c; Some r.1) = Some true) by (vm_compute; reflexivity).
  apply bind_Some in E as (c0 & E0 & E). apply bind_Some in E as (c & E1 & E). apply bind_Some in E as ([b c'] & E2 & E). apply (inj Some) in E. cbn [fst] in E. subst b.
  destruct (@packet_numbers_fresh nat demo_tls toy_lib demo_clock 0%nat [9; 9] [8; 8] [7; 7; 7] demo_tp c0 demo_events [] c c LApplication true c' E0 E1 eq_refl) as (_ & _ & _ & H);
    [vm_compute; reflexivity|exact E2|].
  destruct (H eq_refl) as (_ & H1 & H2 & _). exists c, c'. split; [exact E2|]. split; [exact (H1 LApplication)|exact H2].
Defined.
