(* ===== verification/QuicConnTimer.v ===== *)
(** * QUIC connection: the timer's send loops end

    [on_timer] sends at each level as long as [build_and_send] returns true,
    without a bound of its own.  Every packet carries away a part of what is
    queued, so the loop ends after at most as many rounds as there are bytes
    and FINs waiting, and one. *)
From S2P Require Import Prelude VarInt SortedMap QuicPacket QuicCrypto QuicFrame PnSpace QuicStream TransportParams QuicConn QuicConnStreams QuicConnNumbers.

Local Open Scope Z_scope.

(** ** What a stream has left to send *)

Definition lost_bytes (l : list (Z * Z)) : Z := foldr (fun r n => r.2 + n) 0 l.

Definition backlog (s : SendSide) : Z :=
  (send_high_water s - send_next_offset s) + lost_bytes (lost_ranges s) + (if send_fin_queued s && negb (send_fin_sent s) then 1 else 0).

Ltac fields := cbn [send_high_water send_next_offset lost_ranges send_fin_queued send_fin_sent set_next set_lost set_fin_sent negb andb].

Lemma lost_bytes_nonneg l : Forall (fun r => 0 < r.2) l -> 0 <= lost_bytes l.
Proof. unfold lost_bytes. induction 1 as [|r l Hr _ IH]; cbn; lia. Qed.

Lemma lost_positive w fl s : send_inv w fl s -> Forall (fun r => 0 < r.2) (lost_ranges s).
Proof. intros H. pose proof (si_pos _ _ _ H) as Hp. apply Forall_app in Hp as [_ Hp]. by apply Forall_app in Hp as [? _]. Qed.

Lemma backlog_nonneg w fl s : send_inv w fl s -> 0 <= backlog s.
Proof.
  intros H. pose proof (si_next _ _ _ H). pose proof (lost_bytes_nonneg _ (lost_positive _ _ _ H)). unfold backlog. case_match; lia.
Qed.

(** Handing something out shortens it. *)
Definition handed (p : Pulled) : Z := if (#(p_data p) =? 0) && negb (p_fin p) then 0 else 1.

Lemma emit_fin_backlog s : send_fin_queued s = true -> send_fin_sent s = false -> backlog (emit_fin s) = backlog s - 1.
Proof.
  intros H1 H2. unfold emit_fin. assert (H : backlog (set_fin_sent s true) = backlog s - 1) by (unfold backlog; fields; rewrite H1, H2; fields; lia).
  case_decide; exact H.
Qed.

Lemma fin_only_backlog s : backlog (fin_only s).2 + handed (fin_only s).1 <= backlog s.
Proof.
  unfold fin_only. destruct (_ && _) eqn:E; cbn [fst snd]; [|change (handed nothing) with 0; lia]. apply andb_prop in E as [E _]. apply andb_prop in E as [Hq Hs]. apply negb_true_iff in Hs.
  rewrite emit_fin_backlog by done. change (handed _) with 1. lia.
Qed.

Lemma pull_backlog w fl s mb mf p s' : send_inv w fl s -> 0 <= mb -> 0 <= mf -> pull_send s mb mf = Some (p, s') -> backlog s' + handed p <= backlog s.
Proof.
  intros Hi Hmb Hmf E. pose proof (si_next _ _ _ Hi) as Hn. pose proof (lost_positive _ _ _ Hi) as Hl. unfold pull_send in E.
  destruct (Z.eqb_spec mb 0); [injection E as <- <-; change (handed nothing) with 0; lia|]. assert (Hh : handed p <= 1) by (unfold handed; destruct (_ && _); lia).
  destruct (lost_ranges s) as [|r rest] eqn:El.
  - unfold pull_fresh in E. destruct (Z.leb_spec (send_limit s) (send_next_offset s)); [injection E as E; pose proof (fin_only_backlog s) as H'; by rewrite E in H'|]. cbv zeta in E.
    set (k := Z.min _ _) in E. assert (Hk : 0 <= k) by (unfold k; lia). destruct (Z.eqb_spec k 0); [injection E as E; pose proof (fin_only_backlog s) as H'; by rewrite E in H'|].
    apply bind_Some in E as (d & _ & E). assert (Hb : backlog (set_next s (send_next_offset s + k)) = backlog s - k) by (unfold backlog; fields; lia).
    destruct (_ && _) eqn:Ef; injection E as <- <-; [|lia]. apply andb_prop in Ef as [Ef Hs]. apply andb_prop in Ef as [Hq _]. apply negb_true_iff in Hs.
    rewrite emit_fin_backlog by done. lia.
  - unfold pull_retransmit in E. cbv zeta in E. inversion Hl as [|? ? Hr Hrest]; subst. set (k := Z.min mb r.2) in E. assert (Hk : 0 < k <= r.2) by (unfold k; lia).
    apply bind_Some in E as (d & _ & E). set (l' := if k =? r.2 then rest else _) in E. set (s1 := if _ && _ then _ else s) in E. injection E as <- <-.
    assert (Hl' : lost_bytes l' = lost_bytes (lost_ranges s) - k) by (unfold l'; rewrite El; destruct (Z.eqb_spec k r.2); unfold lost_bytes; cbn [foldr snd]; lia).
    assert (Hs1 : backlog (set_lost s1 l') <= backlog (set_lost s l')). { unfold s1. destruct (_ && _); [|lia]. unfold backlog. fields. rewrite andb_false_r. destruct (_ && _); lia. }
    assert (Hb : backlog (set_lost s l') = backlog s - k) by (unfold backlog; fields; rewrite Hl'; lia). lia.
Qed.

(** ** A packet's worth of every stream *)

Lemma pull_stream_backlog sid w fl s cb total frames p : send_ok (w, fl, s) -> 0 <= cb -> 0 <= total -> total + cb < 2 ^ 64 ->
  pull_stream sid s cb total frames = Some p -> backlog (pull_side p) + #(pull_frames p) <= backlog s + #frames.
Proof.
  intros Hok Hcb Ht Hmax E. set (p0 := mkPull s kStreamBudget cb total frames).
  set (I := fun p => (pulled sid w fl p0 p /\ total <= pull_total p) /\ backlog (pull_side p) + #(pull_frames p) <= backlog s + #frames).
  assert (HI0 : I p0).
  { split; [|done]. split; [|done]. split; [|auto|cbn; unfold kStreamBudget; lia|done|done]. exists []. rewrite !app_nil_r. split; [done|]. split; [constructor|done]. }
  assert (Hgo : forall p got s', I p -> 0 < pull_budget p -> pull_send (pull_side p) (pull_budget p) (pull_conn_budget p) = Some (got, s') ->
    backlog s' + handed got + #(pull_frames p) <= backlog s + #frames).
  { intros q got s' [[Hq _] Hle] Hb Eq. pose proof Hq as [(fs & _ & _ & [Hi _]) _ _ Hc _].
    pose proof (pull_backlog _ _ _ _ _ _ _ Hi (Z.lt_le_incl _ _ Hb) Hc Eq). lia. }
  assert (Hstep : forall p, I p -> match pull_round sid p with inl p' => I p' | inr r => forall p', r = Some p' -> I p' end).
  { intros q HI. pose proof HI as [[Hq Hle] Hlen]. pose proof (pull_round_ok sid w fl p0 q Hq Ht Hle Hmax) as Hr. unfold pull_round in *.
    destruct (Z.leb_spec (pull_budget q) 0); [by intros p' [= <-]|]. destruct (pull_send _ _ _) as [[got s']|] eqn:Eq; [|done].
    specialize (Hgo q got s' HI ltac:(lia) Eq). unfold handed in Hgo. cbv zeta in *. destruct (_ && _).
    - intros p' [= <-]. destruct Hr as (p'' & [= <-] & Hp & Htot). split; [done|]. cbn [pull_side pull_frames]. lia.
    - destruct (_ =? 0).
      + intros p' [= <-]. destruct Hr as (p'' & [= <-] & Hp & Htot). split; [done|]. cbn [pull_side pull_frames]. rewrite length_app. cbn [length]. lia.
      + destruct Hr as (Hp & Htot & _). split; [split; [done|cbn [pull_total] in *; lia]|]. cbn [pull_side pull_frames]. rewrite length_app. cbn [length]. lia. }
  unfold pull_stream in E. fold p0 in E. apply bind_Some in E as (r & E & ->).
  refine (proj2 (loop_post (pull_round sid) I (fun r => forall p, r = Some p -> I p) _ _ _ _ _ HI0 E p eq_refl)).
  - intros q q' HI Eq. specialize (Hstep q HI). by rewrite Eq in Hstep.
  - intros q r HI Eq. specialize (Hstep q HI). by rewrite Eq in Hstep.
Qed.

Definition stream_backlog (s : QuicStream.Stream) : Z := backlog (send s).

Lemma pull_streams_backlog W fl m : forall l cb total frames m' total' frames', above l m ->
  (forall sid, l < sid -> stream_ok (W sid) (fl sid) sid (sm_find sid m)) -> 0 <= cb -> 0 <= total -> total + cb < 2 ^ 64 ->
  pull_streams m cb total frames = Some (m', total', frames') ->
  sm_sum stream_backlog m' + #frames' <= sm_sum stream_backlog m + #frames.
Proof.
  induction m as [|[k s] m IH]; intros l cb total frames m' total' frames' Hab Hok Hcb Ht Hmax E; cbn [pull_streams] in E; [by injection E as <- <- <-|].
  destruct Hab as [Hk Hab]. pose proof (Hok k Hk) as Hs. cbn [sm_find] in Hs. rewrite Z.eqb_refl in Hs. destruct Hs as (_ & _ & _ & orph & Hs).
  destruct (pull_stream_ok k (W k) _ (send s) cb total frames Hs Hcb Ht Hmax) as (p & Ep & [_ _ _ Hcb' Htot] & Hle). rewrite Ep in E. cbn [mbind option_bind] in E.
  pose proof (pull_stream_backlog _ _ _ _ _ _ _ _ Hs Hcb Ht Hmax Ep) as Hb. cbn [pull_total pull_conn_budget] in *.
  apply bind_Some in E as ([[m1 t1] f1] & E1 & [= <- <- <-]).
  assert (H1 : sm_sum stream_backlog m1 + #f1 <= sm_sum stream_backlog m + #(pull_frames p)).
  { apply (IH k _ _ _ _ _ _ Hab) in E1; [done| |lia..]. intros sid Hsid. specialize (Hok sid ltac:(lia)). cbn [sm_find] in Hok. by destruct (Z.eqb_spec k sid); [lia|]. }
  unfold sm_sum in *. cbn [foldr snd]. unfold stream_backlog at 1 3. cbn [send on_send_side]. lia.
Qed.

(** ** Rounds *)

Section Timer.
Context {T : Type} {tls : Tls T} {lib : CryptoLib} (clock : nat -> Z).
Context {tls_laws : TlsLaws T} {lib_laws : CryptoLibLaws}.
Implicit Types c : Conn (T := T).

Definition queued (c : Conn (T := T)) : Z := sm_sum stream_backlog (streams_ c).

Lemma queued_nonneg W c : safe W c -> 0 <= queued c.
Proof.
  intros (([l Hab] & H) & _). unfold queued. assert (Hall : forall k s, (k, s) ∈ streams_ c -> 0 <= stream_backlog s).
  { intros k s Hin. destruct (above_elem _ _ _ _ Hab Hin) as [_ Ef]. specialize (H k). rewrite Ef in H. destruct H as (_ & _ & _ & orph & [Hi _]). by eapply backlog_nonneg. }
  clear Hab H. revert Hall. generalize (streams_ c) as m. induction m as [|[k s] m IH]; intros Hall; [done|]. unfold sm_sum in *. cbn [foldr snd].
  pose proof (Hall k s ltac:(left)). assert (0 <= foldr (fun kv n => stream_backlog kv.2 + n) 0 m) by (apply IH; intros j v Hj; apply (Hall j); by right). lia.
Qed.

(** Something waits that is not stream data. *)
Definition others (lvl : EncryptionLevel) (c : Conn (T := T)) : bool :=
  negb (is_empty (at_level lvl (crypto_pending_ c))) || needs_ack (acks (space lvl c)) ||
  (bool_decide (lvl = LApplication) &&
   ((tls_established (tls_ c) && negb (sent_handshake_done_ c)) || negb (is_empty (pending_path_responses_ c)) ||
    max_data_pending_ c || max_streams_bidi_pending_ c || max_streams_uni_pending_ c)).

(** The number of packets that may still be sent. *)
Definition packets_left (lvl : EncryptionLevel) (c : Conn (T := T)) : nat :=
  (Z.to_nat (queued c) + if others lvl c then 1 else 0)%nat.

Lemma collect_streams_queued W lvl c fs c' : safe W c -> collect_streams lvl c = Some (fs, c') -> queued c' + #fs <= queued c.
Proof.
  intros (([l Hab] & H) & Hw1 & Hw2). unfold collect_streams, queued. destruct (bool_decide _); [|intros [= <- <-]; cbn [length]; lia]. cbv zeta.
  set (md := initial_max_data _). pose proof (peer_data_range (tls_ c)) as Hmd. fold md in Hmd. unfold u64_ok in Hmd.
  set (c1 := if conn_send_max_data_ c <? md then set_conn_send_max_data md c else c). assert (H1 : streams_ c1 = streams_ c /\ conn_send_total_ c1 = conn_send_total_ c /\ conn_send_max_data_ c1 < 2 ^ 64).
  { unfold c1. destruct (_ <? _); (split; [done|]); (split; [done|]); cbn [conn_send_max_data_ set_conn_send_max_data]; lia. }
  destruct H1 as (-> & -> & Hx). intros E. apply bind_Some in E as ([[m t] fr] & E & [= <- <-]). cbn [streams_ set_streams set_conn_send_total].
  eapply pull_streams_backlog in E; [cbn [length] in E; lia|exact Hab|intros sid _; apply H|destruct (Z.ltb_spec (conn_send_total_ c) (conn_send_max_data_ c1)); lia|lia|].
  destruct (Z.ltb_spec (conn_send_total_ c) (conn_send_max_data_ c1)); lia.
Qed.

(** What a packet takes with it. *)
Lemma collect_left W lvl c o c' : safe W c -> ack_fine (acks (space lvl c)) -> collect lvl c = Some (o, c') ->
  queued c' + #(o_streams o) <= queued c /\ (nothing_to_send o = false -> o_streams o <> [] \/ others lvl c = true) /\
  at_level lvl (crypto_pending_ c') = [] /\ needs_ack (acks (space lvl c')) = false /\
  (lvl = LApplication -> pending_path_responses_ c' = [] /\ max_data_pending_ c' = false /\ max_streams_bidi_pending_ c' = false /\ max_streams_uni_pending_ c' = false /\
     o_hs_done o = tls_established (tls_ c') && negb (sent_handshake_done_ c')).
Proof.
  intros Hs Hf E. destruct (collect_numbers _ _ _ _ E) as (_ & _ & _ & _ & Hna & Hack). specialize (Hna Hf). unfold collect in E. cbv zeta in E.
  apply bind_Some in E as ([fs c1] & E1 & E). pose proof (collect_streams_queued W _ (set_crypto_pending (set_level lvl [] (crypto_pending_ c)) c) _ _ ltac:(by apply (safe_view W c)) E1) as Hq.
  assert (H1 : crypto_pending_ c1 = set_level lvl [] (crypto_pending_ c) /\ tls_ c1 = tls_ c /\ sent_handshake_done_ c1 = sent_handshake_done_ c /\
    pending_path_responses_ c1 = pending_path_responses_ c /\ max_data_pending_ c1 = max_data_pending_ c /\ max_streams_bidi_pending_ c1 = max_streams_bidi_pending_ c /\
    max_streams_uni_pending_ c1 = max_streams_uni_pending_ c).
  { unfold collect_streams in E1. destruct (bool_decide _); [|by injection E1 as _ <-]. cbv zeta in E1. apply bind_Some in E1 as ([[m t] fr] & _ & [= _ <-]). by destruct (_ <? _). }
  destruct (collect_ack lvl c1) as [ack c2] eqn:E2.
  assert (H2 : exists sp, c2 = set_spaces sp c1). { unfold collect_ack in E2. cbv zeta in E2. destruct (needs_ack _); [destruct (build_ack_frame _ _)|]; injection E2 as _ <-; [by eexists|]. exists (spaces_ c1). by destruct c1. }
  destruct H2 as [sp ->]. unfold collect_path_responses, collect_control in E. unfold nothing_to_send, others.
  destruct H1 as (K1 & K2 & K3 & K4 & K5 & K6 & K7). destruct (bool_decide (lvl = LApplication)) eqn:Eb.
  - injection E as <- <-. split; [exact Hq|]. cbn in Hna, Hack |- *. rewrite K1, K2, K3, K4, K5, K6, K7, at_set_level in *. split; [|by split_and!].
    intros Hn. destruct fs; [|by left]. right. cbn in Hn. rewrite Hack in Hn. revert Hn. clear.
    destruct (is_empty (at_level lvl _)), (needs_ack _), (tls_established _), (sent_handshake_done_ _), (is_empty (pending_path_responses_ _)), (max_data_pending_ _), (max_streams_bidi_pending_ _), (max_streams_uni_pending_ _); cbn; done.
  - injection E as <- <-. split; [exact Hq|]. cbn in Hna, Hack |- *. rewrite K1, at_set_level in *. split; [|split_and!; [done|done|intros ->; by rewrite bool_decide_true in Eb]].
    intros Hn. destruct fs; [|by left]. right. cbn in Hn. rewrite Hack in Hn. revert Hn. clear. destruct (is_empty (at_level lvl _)), (needs_ack _); cbn; done.
Qed.
Lemma track_left lvl o pn dg c : let c' := track_and_send clock lvl o pn dg c in
  streams_ c' = streams_ c /\ crypto_pending_ c' = crypto_pending_ c /\ pending_path_responses_ c' = pending_path_responses_ c /\
  max_data_pending_ c' = max_data_pending_ c /\ max_streams_bidi_pending_ c' = max_streams_bidi_pending_ c /\ max_streams_uni_pending_ c' = max_streams_uni_pending_ c /\
  tls_ c' = tls_ c /\ sent_handshake_done_ c' = sent_handshake_done_ c || (negb (bool_decide (lvl = LInitial)) && o_hs_done o).
Proof.
  cbv zeta. unfold track_and_send, send_datagram, count_unvalidated. cbn [read_clock]. cbv zeta. destruct (negb (bool_decide (lvl = LInitial)) && o_hs_done o), (eliciting lvl o);
    cbn [peer_address_validated_]; destruct (negb _); split_and!; try done; cbn; by rewrite ?orb_true_r, ?orb_false_r.
Qed.

(** A packet that leaves brings the end nearer. *)
Lemma round_left W n lvl c c' : safe W c -> numbered n c -> build_and_send clock lvl c = Some (true, c') -> (packets_left lvl c' < packets_left lvl c)%nat.
Proof.
  intros Hs Hn E. pose proof (queued_nonneg W c' ltac:(by eapply build_and_send_safe)) as Hq'. unfold build_and_send in E. destruct (negb _); [done|]. case_decide; [done|].
  destruct (pending_close_ c) as [f|]; [by apply bind_Some in E as (c1 & _ & [= ?])|]. destruct (amplification_blocked c); [done|].
  apply bind_Some in E as ([o c1] & E1 & E). destruct (collect_left W lvl c o c1 Hs ltac:(apply Hn) E1) as (Hq & Hne & Hcr & Hna & Happ).
  destruct (nothing_to_send o); [done|]. specialize (Hne eq_refl). apply bind_Some in E as (pl & _ & E).
  destruct (take_pn_numbers lvl c1) as (_ & _ & A2 & _). assert (H2 : exists sp, (take_pn lvl c1).2 = set_spaces sp c1) by (by eexists). destruct (take_pn lvl c1) as [pn c2]. cbn [snd] in *. destruct H2 as [sp ->].
  apply bind_Some in E as ([dg|] & _ & [= <-]). set (c2 := set_spaces sp c1) in *. destruct (track_left lvl o pn dg c2) as (K1 & K2 & K3 & K4 & K5 & K6 & K7 & K8).
  destruct (track_numbers clock lvl o pn dg c2) as (_ & A3 & _). set (c3 := track_and_send _ _ _ _ _ _) in *.
  assert (Hq3 : queued c3 = queued c1) by (unfold queued; by rewrite K1).
  assert (Ho : others lvl c3 = false).
  { unfold others. rewrite K2, A3, A2, K3, K4, K5, K6, K7, K8. change (crypto_pending_ c2) with (crypto_pending_ c1). rewrite Hcr, Hna. cbn [is_empty negb orb].
    destruct (decide (lvl = LApplication)) as [->|Hl]; [|by rewrite bool_decide_false]. destruct (Happ eq_refl) as (B1 & B2 & B3 & B4 & B5). unfold c2. cbn. rewrite B1, B2, B3, B4, B5.
    cbn. destruct (tls_established _), (sent_handshake_done_ _); done. }
  unfold packets_left. rewrite Ho, Hq3. rewrite Hq3 in Hq'. destruct Hne as [Hne|Hne].
  - assert (0 < #(o_streams o)) by (destruct (o_streams o); [done|cbn; lia]). destruct (others lvl c); lia.
  - rewrite Hne. lia.
Qed.

(** The loop ends: a round finds nothing to send, or one throws. *)
Definition ends (fuel : nat) (lvl : EncryptionLevel) (c : Conn (T := T)) : Prop :=
  (exists c', send_rounds clock fuel lvl c = Some (false, c')) \/
  (exists k c', (k < fuel)%nat /\ send_rounds clock k lvl c = Some (true, c') /\ build_and_send clock lvl c' = None).

Lemma rounds_end W fuel lvl : forall c n, safe W c -> numbered n c -> n + Z.of_nat fuel < 2 ^ 64 -> (packets_left lvl c < fuel)%nat -> ends fuel lvl c.
Proof.
  induction fuel as [|fuel IH]; intros c n Hs Hn Hb Hf; [lia|]. destruct (build_and_send clock lvl c) as [[again c1]|] eqn:E.
  2: { right. exists 0%nat, c. split; [lia|]. split; [done|exact E]. }
  destruct again; [|left; exists c1; cbn [send_rounds]; by rewrite E]. destruct (build_and_send_numbers clock lvl c true c1 n Hn ltac:(lia) E) as (Hn1 & _).
  destruct (IH c1 (n + 1)) as [[c' Ec]|(k & c' & Hk & Ec & Et)]; [by eapply build_and_send_safe|done|lia|apply (round_left W n) in E; [lia|done|done]|..].
  - left. exists c'. cbn [send_rounds]. by rewrite E.
  - right. exists (S k), c'. split; [lia|]. split; [|done]. cbn [send_rounds]. by rewrite E.
Qed.

Lemma run_step_events es : forall st st', for_each (run_step clock) es st = Some st' -> run_events clock es st.2 = Some st'.2.
Proof.
  unfold run_events. induction es as [|e es IH]; intros st st' E; cbn [for_each] in *; [by injection E as <-|]. apply bind_Some in E as (st1 & E1 & E).
  unfold run_step in E1. apply bind_Some in E1 as (c1 & E1 & [= <-]). rewrite E1. cbn [mbind option_bind]. by apply IH in E.
Qed.

(** C12: The timer's unbounded send loops end.  In every state a connection
    can reach, [build_and_send] returns true at most [packets_left] times in a
    row: every packet takes stream data, a FIN or everything else that waits
    with it.  So the loop [while (build_and_send(level)) {}] stops, by finding
    nothing to send or by an exception, and a fuel above [packets_left] gives
    its result. *)
Theorem timer_loop_ends t dc cs ss tp c0 es W c lvl fuel :
  new_connection clock t dc cs ss tp = Some c0 -> Forall event_ok es -> for_each (run_step clock) es ((fun _ => []), c0) = Some (W, c) ->
  #es + Z.of_nat fuel < 2 ^ 56 -> (packets_left lvl c < fuel)%nat -> ends fuel lvl c.
Proof.
  intros E0 He Hr Hb Hf. pose proof (run_step_events _ _ _ Hr) as Hv. cbn [snd] in Hv. apply run_events_sends in Hv.
  pose proof (se_next _ _ _ Hv 0 (new_connection_numbered clock _ _ _ _ _ _ E0) ltac:(unfold kPerEvent; lia)) as Hn.
  pose proof (run_step_safe clock es _ _ (new_connection_safe clock _ _ _ _ _ _ E0 : safe ((fun _ => []), c0).1 ((fun _ => []), c0).2) He Hr) as Hs. eapply rounds_end; [exact Hs|exact Hn|unfold kPerEvent; lia|done].
Qed.
End Timer.

(** Twenty-five hundred bytes wait; the peer's limit lets one packet leave. *)
Definition timer_events : list Event := [EvTimer; EvValidated; EvWrite 0 (replicate 2500 7) true].

Lemma timer_loop_ends_witness : exists W (c : Conn (T := nat)),
  @ends nat demo_tls toy_lib demo_clock (S (@packets_left nat demo_tls LApplication c)) LApplication c /\ Z.of_nat (@packets_left nat demo_tls LApplication c) = 2501 /\
  (r ← @send_rounds nat demo_tls toy_lib demo_clock 10 LApplication c; Some (r.1, length (wire r.2))) = Some (false, 1%nat) /\ W 0 = replicate 2500 7.
Proof.
  assert (E : (c0 ← @new_connection nat toy_lib demo_clock 0%nat [9; 9] [8; 8] [7; 7; 7] demo_tp;
    st ← for_each (@run_step nat demo_tls toy_lib demo_clock) timer_events ((fun _ => []), c0);
    r ← @send_rounds nat demo_tls toy_lib demo_clock 10 LApplication st.2;
    Some (@packets_left nat demo_tls LApplication st.2, (r.1, length (wire r.2)), bool_decide (st.1 0 = replicate 2500 7))) = Some (2501%nat, (false, 1%nat), true)) by (vm_compute; reflexivity).
  apply bind_Some in E as (c0 & E0 & E). apply bind_Some in E as ([W c] & E1 & E). apply bind_Some in E as (r & E2 & E). apply (inj Some) in E. cbn [fst snd] in *.
  apply pair_equal_spec in E as [E Ew]. apply pair_equal_spec in E as [El Er]. apply bool_decide_eq_true in Ew. exists W, c. split_and!; [|by rewrite El|by rewrite E2; cbn; f_equal|done].
  refine (@timer_loop_ends nat demo_tls toy_lib demo_clock demo_tls_laws toy_lib_laws 0%nat [9; 9] [8; 8] [7; 7; 7] demo_tp c0 timer_events W c LApplication _ E0 _ E1 _ _).
  - repeat constructor.
  - rewrite El. vm_compute. reflexivity.
  - lia.
Defined.
