(* ===== verification/QuicConnSteps.v ===== *)
(** * QUIC connection: runs as sequences of elementary steps

    Every event of a connection (a datagram, a timer, an application call) is
    a sequence of the elementary steps of [atom]: the ones that touch the
    connection's lifecycle, its receive accounting, its stream table or the
    wire, and quiet ones that touch none of these.  The invariants of
    QuicConnLife and QuicConnFlow are proved per elementary step. *)
From stdpp Require Import relations.
From S2P Require Import Prelude VarInt SortedMap QuicPacket QuicCrypto QuicFrame PnSpace QuicCongestion QuicStream TransportParams QuicConn QuicConnStreams.

Local Open Scope Z_scope.

Lemma for_each_rtc {S A} (R : S -> S -> Prop) (f : S -> A -> option S) l : forall s s',
  (forall s a s', f s a = Some s' -> rtc R s s') -> for_each f l s = Some s' -> rtc R s s'.
Proof.
  induction l as [|a l IH]; intros s s' Hf E; cbn [for_each] in E; [injection E as <-; apply rtc_refl|].
  apply bind_Some in E as (s1 & E1 & E). etrans; [by eapply Hf|by apply IH].
Qed.

(** The receiving halves of the stream table. *)
Definition recv_halves (m : list (Z * QuicStream.Stream)) : list (Z * RecvSide) := (fun kv => (kv.1, recv kv.2)) <$> m.
Arguments recv_halves : simpl never.

Section Steps.
Context {T : Type} {tls : Tls T} {lib : CryptoLib} (clock : nat -> Z).
Implicit Types c : Conn (T := T).

(** What a quiet step leaves alone. *)
Definition core (c : Conn (T := T)) :=
  ((state_ c, pending_close_ c, wire c), (dcid_ c, scid_ c, original_dcid_ c, local_tp_ c),
   (peer_address_validated_ c, recv_bytes_total_ c, sent_bytes_unvalidated_ c),
   (conn_recv_max_data_ c, conn_recv_total_ c, conn_recv_consumed_ c, retired_recv_consumed_ c),
   (local_max_streams_bidi_ c, local_max_streams_uni_ c, streams_bidi_closed_ c, streams_uni_closed_ c),
   recv_halves (streams_ c)).

(** [up] tells whether the steps may raise the receive window; the frames
    that reach the streams satisfy [P]. *)
Inductive atom (up : bool) (P : Frame -> Prop) : Conn (T := T) -> Conn (T := T) -> Prop :=
| atom_quiet c c' : core c' = core c -> atom up P c c'
| atom_close e a w f c : atom up P c (initiate_close e a w f c)
| atom_drain c : atom up P c (set_state Draining c)
| atom_settle c : state_ c = Handshaking -> atom up P c (set_state Established c)
| atom_stream f c : P (QuicFrame.Stream f) -> atom up P c (on_stream_frame f c)
| atom_reset f c : P (ResetStream f) -> atom up P c (on_reset_stream_frame f c)
| atom_ensure sid c : atom up P c (ensure_stream sid c).2
| atom_read sid c : atom up P c (read_stream sid c).2
| atom_retire c : atom up P c (retire_closed_streams c)
| atom_refresh c : up = true -> atom up P c (refresh_conn_recv_window c)
| atom_validated c : atom up P c (set_peer_address_validated true c)
| atom_emit dg c : state_ c <> Draining -> state_ c <> Closed -> pending_close_ c = None -> amplification_blocked c = false ->
    atom up P c (send_datagram dg (count_unvalidated (#dg) c))
| atom_emit_close f dg c : state_ c <> Draining -> state_ c <> Closed -> pending_close_ c = Some f ->
    atom up P c (set_pending_close None (from_option (fun dg => send_datagram dg (count_unvalidated (#dg) c)) c dg)).

(** A datagram is counted when it arrives, before anything else happens. *)
Definition arrive (e : Event) (c : Conn (T := T)) : Conn (T := T) :=
  match e with
  | EvDatagram dg => if decide (state_ c = Closed \/ state_ c = Draining) then c
                     else set_recv_bytes_total (u64 (recv_bytes_total_ c + #dg)) c
  | _ => c
  end.

Definition steps (up : bool) (P : Frame -> Prop) : Conn (T := T) -> Conn (T := T) -> Prop := rtc (atom up P).

(** What is known of the datagrams ([D]) and of the frames in them ([P]). *)
Class Typing (P : Frame -> Prop) (D : bytes -> Prop) := {
  ty_drop : forall off dg, D dg -> D (drop off dg);
  ty_long : forall sp dg off n pn_off len pn pl, D dg -> open_long sp (take n (drop off dg)) pn_off len = Some (Some (pn, pl)) -> D pl;
  ty_short : forall a k off dg dg' n sp kp pn aad pl sp', D dg ->
    unmask (hp_mask a k (take kSampleLen (drop (off + 4) dg))) 0x1F off dg = (dg', n) ->
    open_short sp kp pn aad (drop (off + n) dg') = Some (Some (pl, sp')) -> D pl;
  ty_parse : forall pl fs, D pl -> parse_frames pl = Some (Some fs) -> Forall P fs }.

Definition arrives_ok (D : bytes -> Prop) (e : Event) : Prop := match e with EvDatagram dg => D dg | _ => True end.

(** Nothing at all is known. *)
Global Instance untyped : Typing (fun _ => True) (fun _ => True).
Proof. split; try done. intros pl fs _ _. by apply Forall_true. Qed.

Lemma steps_once {up P} c c' : atom up P c c' -> steps up P c c'.
Proof. apply rtc_once. Qed.

Lemma steps_quiet {up P} c c' : core c' = core c -> steps up P c c'.
Proof. intros H. by apply rtc_once, atom_quiet. Qed.

Lemma recv_halves_update sid f m : recv_halves (sm_update sid (on_send_side f) m) = recv_halves m.
Proof. induction m as [|[k s] m IH]; [done|]. cbn [sm_update]. case_match; [done|]. unfold recv_halves in *. cbn. f_equal. exact IH. Qed.

Lemma recv_halves_notify f fs : forall m, recv_halves (foldl (notify_map f) m fs) = recv_halves m.
Proof. induction fs as [|sf fs IH]; intros m; cbn [foldl]; [done|]. rewrite IH. apply recv_halves_update. Qed.

(** ** Acknowledgement, loss and probe timeouts are quiet *)

Lemma ack_entry_core r c : core (ack_entry clock r c) = core c.
Proof. unfold ack_entry. rewrite notify_fold. unfold core. cbn. by rewrite recv_halves_notify. Qed.

Lemma declare_lost_core lvl r c : core (declare_lost clock r lvl c) = core c.
Proof. unfold declare_lost. rewrite notify_fold. unfold core. destruct (ack_eliciting r); cbn; by rewrite recv_halves_notify. Qed.

Lemma walks_core h m c kept c' : (forall r c, core (h r c) = core c) -> walks h m c kept c' -> core c' = core c.
Proof. intros Hh Hw. induction Hw; [done|done|]. by rewrite IHHw, Hh. Qed.

Lemma ack_range_core lvl lo hi c : core (ack_range clock lvl lo hi c) = core c.
Proof.
  unfold ack_range. destruct (hi <? lo); [done|]. pose proof (ack_walk_walks clock lo hi (sent_at_level lvl c) c) as Hw.
  destruct (ack_walk clock lo hi (sent_at_level lvl c) c) as [kept c']. exact (walks_core _ _ _ _ _ ack_entry_core Hw).
Qed.

Lemma ack_more_ranges_core lvl rs : forall lo c, core (ack_more_ranges clock lvl lo rs c) = core c.
Proof.
  induction rs as [|r rs IH]; intros lo c; cbn [ack_more_ranges]; [done|]. destruct (_ <? _); [done|]. cbv zeta.
  destruct (_ <? _); [done|]. by rewrite IH, ack_range_core.
Qed.

Lemma detect_loss_core lvl c : core (detect_and_handle_loss clock lvl c) = core c.
Proof.
  unfold detect_and_handle_loss. cbv zeta. destruct (negb _); [done|]. destruct (_ =? _)%nat; [done|]. cbn [read_clock].
  set (c1 := set_ticks _ c). set (cut := _ - _). pose proof (loss_walk_walks clock lvl (largest_acked_pn_ (space lvl c)) cut (sent_at_level lvl c1) c1) as Hw.
  destruct (loss_walk _ _ _ _ _ _) as [kept c']. exact (walks_core _ _ _ _ _ (declare_lost_core lvl) Hw).
Qed.

Lemma on_ack_frame_core lvl f c c' : on_ack_frame clock lvl f c = Some c' -> core c' = core c.
Proof.
  unfold on_ack_frame. cbv zeta. destruct (largest_acked f <? first_range f); [by intros [= <-]|]. intros E. apply bind_Some in E as (c5 & E & [= <-]).
  rewrite detect_loss_core. set (c4 := set_recovery _ _) in E. transitivity (core c4).
  - destruct (rtt_basis lvl f c); [|by injection E as <-]. unfold sample_rtt in E. cbn [read_clock] in E. cbv zeta in E. inv_bind E. by injection E as <-.
  - subst c4. transitivity (core (ack_all_ranges clock lvl f (set_space lvl (note_largest_acked (largest_acked f) (space lvl c)) c))); [done|].
    unfold ack_all_ranges. by rewrite ack_more_ranges_core, ack_range_core.
Qed.

Lemma pto_level_core now pto st lvl : core (pto_level clock now pto st lvl).2 = core st.2.
Proof.
  destruct st as [fired c]. cbn [snd]. unfold pto_level. cbv zeta. destruct (negb _); [done|]. destruct (_ =? _)%nat; [done|]. destruct (_ <? _); [done|].
  pose proof (pto_walk_walks clock lvl (sent_at_level lvl c) c) as Hw. destruct (pto_walk _ _ _ _) as [kept c'].
  exact (walks_core _ _ _ _ _ (declare_lost_core lvl) Hw).
Qed.

Lemma check_pto_core c c' : check_pto clock c = Some c' -> core c' = core c.
Proof.
  unfold check_pto. intros E. apply bind_Some in E as (d & _ & E). cbn [read_clock] in E. cbv zeta in E. set (f := pto_level _ _ _) in E.
  assert (Hf : forall l st, core (foldl f st l).2 = core st.2).
  { induction l as [|lvl l IH]; intros st; [done|]. cbn [foldl]. rewrite IH. apply pto_level_core. }
  specialize (Hf send_levels (false, set_ticks (S (ticks c)) c)). destruct (foldl _ _ _) as [fired c2]. injection E as <-. by destruct fired.
Qed.

(** ** Packets in *)

Lemma on_crypto_frame_steps {up P} lvl f c : steps up P c (on_crypto_frame lvl f c).
Proof.
  unfold on_crypto_frame. cbv zeta. case_match; [apply steps_once, atom_close|]. apply steps_quiet. unfold feed_tls_crypto.
  by destruct (feed_walk _ _ _ _) as [[? ?] ?].
Qed.

Lemma on_frame_steps {up P} lvl f c c' : P f -> on_frame clock lvl c f = Some c' -> steps up P c c'.
Proof.
  intros HP E. destruct f as [| |x|x| |x| |x|m|sid m|[] m| | |[] | | |d| | |]; cbn [on_frame] in E.
  all: try (injection E as <-; by apply steps_quiet).
  all: try (injection E as <-; case_match; by apply steps_quiet).
  - apply steps_quiet. by eapply on_ack_frame_core.
  - injection E as <-. by apply steps_once, atom_reset.
  - injection E as <-. apply on_crypto_frame_steps.
  - injection E as <-. by apply steps_once, atom_stream.
  - injection E as <-. apply steps_quiet. unfold core. cbn. by rewrite recv_halves_update.
  - injection E as <-. apply steps_once, atom_drain.
Qed.

Lemma accept_packet_steps {up} `{Typing P D} lvl pn payload c c' : D payload -> accept_packet clock lvl pn payload c = Some c' -> steps up P c c'.
Proof.
  intros HD. unfold accept_packet. cbv zeta. set (c1 := if bool_decide _ then _ else _). intros E. apply bind_Some in E as (c2 & E & [= <-]).
  trans c2; [|by apply steps_quiet]. trans c1.
  - unfold c1. case_match; [|by apply steps_quiet]. etrans; [|apply steps_once, atom_validated]. by apply steps_quiet.
  - clearbody c1. unfold deliver_frames in E. apply bind_Some in E as ([fs|] & Ep & E); [|apply (inj Some) in E as <-].
    2: apply steps_once, atom_close.
    pose proof (ty_parse payload fs HD Ep) as Hfs. clear Ep. revert c1 E. induction Hfs as [|f fs Hf _ IH]; intros c1 E; cbn [for_each] in E; [by injection E as <-|].
    apply bind_Some in E as (c3 & E3 & E). etrans; [by eapply on_frame_steps|by apply IH].
Qed.

Lemma process_long_packet_steps {up} `{Typing P D} dg off c c' off' n : D dg -> process_long_packet clock dg off c = Some (c', off', n) -> steps up P c c'.
Proof.
  intros HD E. unfold process_long_packet in E. destruct (parse_long_header dg off []) as [[hdr cursor]|]; [|injection E as <- _ _; done].
  destruct (level_of_type (type hdr)) as [lvl|]; [|injection E as <- _ _; done]. cbv zeta in E. destruct (negb _); [injection E as <- _ _; done|].
  apply bind_Some in E as ([[pn pl]|] & Eo & E); [|injection E as <- _ _; done]. apply bind_Some in E as (c1 & E1 & [= <- _ _]). eapply accept_packet_steps; [|exact E1]. by eapply ty_long.
Qed.

Lemma process_short_packet_steps {up} `{Typing P D} dg c b c' : D dg -> process_short_packet clock dg c = Some (b, c') -> steps up P c c'.
Proof.
  intros HD E. unfold process_short_packet in E. cbv zeta in E. repeat match type of E with (if ?b then _ else _) = _ => destruct b; [injection E as _ <-; done|] end.
  destruct (unmask _ _ _ _) as [dg' n] eqn:Eu. destruct (_ <? _)%nat; [injection E as _ <-; done|].
  apply bind_Some in E as ([[pl sp]|] & Eo & E); [|injection E as _ <-; done]. apply bind_Some in E as (c1 & E1 & [= _ <-]).
  etrans; [|eapply accept_packet_steps; [|exact E1]; by eapply ty_short]. by apply steps_quiet.
Qed.

Lemma process_packets_steps {up} `{Typing P D} dg c b c' : D dg -> process_packets clock dg c = Some (b, c') -> steps up P c c'.
Proof.
  intros HD E. unfold process_packets in E. apply bind_Some in E as (r & E & ->).
  refine (loop_post (datagram_step clock dg) (fun st => steps up P c st.2) (fun r => forall b c', r = Some (b, c') -> steps up P c c') _ _ _ _ _ _ E b c' eq_refl); [| |done].
  - intros [off c1] [off' c2] H1 Es. unfold datagram_step in Es. destruct (_ <? _)%nat; [|done]. destruct (_ =? 0); [done|].
    destruct (process_long_packet _ _ _ _) as [[[c3 o] n]|] eqn:El; [|done]. destruct (n =? 0)%nat; [done|]. injection Es as <- <-.
    etrans; [exact H1|]. by eapply process_long_packet_steps.
  - intros [off c1] r H1 Es b2 c2 ->. unfold datagram_step in Es. destruct (_ <? _)%nat; [|by injection Es as <- <-]. destruct (_ =? 0).
    + injection Es as Es. apply bind_Some in Es as ([b3 c3] & E3 & [= <- <-]). etrans; [exact H1|]. eapply process_short_packet_steps; [|exact E3]. by apply ty_drop.
    + destruct (process_long_packet _ _ _ _) as [[[c3 o] n]|] eqn:El; [|done]. destruct (n =? 0)%nat; [|done]. injection Es as <- <-.
      etrans; [exact H1|]. by eapply process_long_packet_steps.
Qed.

(** ** Packets out *)

Lemma pull_streams_recv m : forall cb t fs m' t' fs', pull_streams m cb t fs = Some (m', t', fs') -> recv_halves m' = recv_halves m.
Proof.
  induction m as [|[sid s] m IH]; intros cb t fs m' t' fs' E; cbn [pull_streams] in E; [by injection E as <- _ _|].
  apply bind_Some in E as (p & _ & E). apply bind_Some in E as ([[m1 t1] fs1] & E1 & [= <- _ _]). apply IH in E1. unfold recv_halves in *. cbn. by f_equal.
Qed.

Lemma collect_streams_core lvl c fs c' : collect_streams lvl c = Some (fs, c') -> core c' = core c.
Proof.
  unfold collect_streams. destruct (bool_decide _); [|by intros [= _ <-]]. cbv zeta. set (c1 := if conn_send_max_data_ c <? _ then _ else c).
  assert (E1 : core c1 = core c) by (unfold c1; by case_match). rewrite <- E1. clearbody c1. intros E.
  apply bind_Some in E as ([[m t] fs'] & E & [= _ <-]). apply pull_streams_recv in E. unfold core. cbn. by rewrite E.
Qed.

Lemma collect_core lvl c o c' : collect lvl c = Some (o, c') -> core c' = core c.
Proof.
  unfold collect. cbv zeta. intros E. apply bind_Some in E as ([fs c1] & E1 & E). apply collect_streams_core in E1.
  transitivity (core c1); [|by rewrite E1].
  assert (E2 : core (collect_ack lvl c1).2 = core c1) by (unfold collect_ack; cbv zeta; destruct (needs_ack _); [|done]; by destruct (build_ack_frame _ _)).
  destruct (collect_ack lvl c1) as [ack c2]. cbn [snd] in E2.
  assert (E3 : core (collect_path_responses lvl c2).2 = core c2) by (unfold collect_path_responses; destruct (bool_decide _); reflexivity).
  destruct (collect_path_responses lvl c2) as [path c3]. cbn [snd] in E3.
  assert (E4 : core (collect_control lvl c3).2 = core c3) by (unfold collect_control; destruct (bool_decide _); reflexivity).
  destruct (collect_control lvl c3) as [ctl c4]. cbn [snd] in E4. injection E as _ <-. congruence.
Qed.

Lemma amplification_core c c' : core c' = core c -> amplification_blocked c' = amplification_blocked c.
Proof. unfold core, amplification_blocked. intros H. injection H. intros. congruence. Qed.

Lemma track_and_send_steps {up P} lvl o pn dg c : state_ c <> Draining -> state_ c <> Closed -> pending_close_ c = None ->
  amplification_blocked c = false -> steps up P c (track_and_send clock lvl o pn dg c).
Proof.
  intros H1 H2 H3 H4. unfold track_and_send. cbn [read_clock]. cbv zeta. set (r := mkSentRecord _ _ _ _ _ _). set (c2 := set_sent_at_level _ _ _).
  set (c3 := if eliciting lvl o then _ else c2). assert (E3 : core c3 = core c) by (unfold c3; by case_match).
  set (c4 := if _ && _ then _ else c3). assert (E4 : core c4 = core c) by (rewrite <- E3; unfold c4; by case_match). clearbody c4.
  trans c4; [by apply steps_quiet|]. pose proof (amplification_core c c4 E4) as Ea. unfold core in E4. injection E4. intros.
  apply steps_once, atom_emit; congruence.
Qed.

Lemma send_close_steps {up P} lvl f c c' : state_ c <> Draining -> state_ c <> Closed -> pending_close_ c = Some f ->
  send_close lvl f c = Some c' -> steps up P c c'.
Proof.
  intros H1 H2 H3. unfold send_close. destruct (negb _); [intros [= <-]; done|]. intros E. apply bind_Some in E as (pl & _ & E). cbn [take_pn] in E. cbv zeta in E.
  apply bind_Some in E as (dg & _ & [= <-]). set (c1 := set_space _ _ c). trans c1; [by apply steps_quiet|].
  apply steps_once. exact (atom_emit_close _ _ f dg c1 H1 H2 H3).
Qed.

Lemma build_and_send_steps {up P} lvl c b c' : build_and_send clock lvl c = Some (b, c') -> steps up P c c'.
Proof.
  intros E. unfold build_and_send in E. destruct (negb _); [injection E as <- <-; done|].
  destruct (decide (state_ c = Draining \/ state_ c = Closed)) as [|Hs]; [injection E as <- <-; done|].
  destruct (pending_close_ c) as [f|] eqn:Ep.
  { apply bind_Some in E as (c1 & E1 & [= <- <-]). eapply send_close_steps; [tauto|tauto|exact Ep|done]. }
  destruct (amplification_blocked c) eqn:Ea; [injection E as <- <-; done|]. apply bind_Some in E as ([o c1] & E1 & E). apply collect_core in E1.
  destruct (nothing_to_send o); [injection E as <- <-; by apply steps_quiet|]. apply bind_Some in E as (pl & _ & E). cbn [take_pn] in E. cbv zeta in E.
  set (c2 := set_space _ _ c1) in E. assert (E2 : core c2 = core c) by by rewrite <- E1.
  trans c2; [by apply steps_quiet|]. pose proof (amplification_core c c2 E2) as Ea2. unfold core in E2. injection E2. intros.
  apply bind_Some in E as ([dg|] & _ & [= <- <-]); [|done]. apply Decidable.not_or in Hs as [? ?]. apply track_and_send_steps; congruence.
Qed.

Lemma send_rounds_steps {up P} n lvl : forall c b c', send_rounds clock n lvl c = Some (b, c') -> steps up P c c'.
Proof.
  induction n as [|n IH]; intros c b c' E; cbn [send_rounds] in E; [by injection E as _ <-|]. apply bind_Some in E as ([again c1] & E1 & E).
  apply (build_and_send_steps (up := up) (P := P)) in E1. etrans; [exact E1|]. destruct again; [by eapply IH|by injection E as _ <-].
Qed.

(** ** Events *)

Lemma settle_state_steps {up P} c : steps up P c (settle_state c).
Proof.
  unfold settle_state. destruct (tls_established (tls_ c)); [|done]. destruct (bool_decide_reflect (state_ c = Handshaking)); [|done].
  by apply steps_once, atom_settle.
Qed.

Lemma pump_tls_core c c' : pump_tls c = Some c' -> core c' = core c.
Proof. intros E. by apply pump_tls_shape in E as (ps & t & ->). Qed.

Lemma pull_crypto_core c : core (pull_crypto_from_tls c) = core c.
Proof. by destruct (pull_crypto_shape c) as (ps & cp & t & ->). Qed.

Lemma on_datagram_steps {up} `{Typing P D} dg c c' : D dg -> on_datagram clock dg c = Some c' -> steps up P (arrive (EvDatagram dg) c) c'.
Proof.
  intros HD E. unfold on_datagram in E. cbn [arrive]. case_decide; [injection E as <-; done|]. cbn [read_clock] in E. cbv zeta in E.
  set (c1 := set_recv_bytes_total _ (set_last_activity _ _)) in E. trans c1; [by apply steps_quiet|]. apply bind_Some in E as ([ret c2] & E2 & E).
  apply (process_packets_steps (up := up)) in E2; [|done]. etrans; [exact E2|]. destruct ret; [by injection E as <-|]. apply bind_Some in E as (c3 & E3 & E).
  apply pump_tls_core in E3. trans c3; [by apply steps_quiet|]. trans (pull_crypto_from_tls c3); [apply steps_quiet, pull_crypto_core|].
  apply bind_Some in E as (c5 & E5 & [= <-]). etrans; [|apply settle_state_steps]. eapply for_each_rtc; [|exact E5].
  intros s lvl s' Es. apply bind_Some in Es as ([b s1] & E6 & [= <-]). by eapply send_rounds_steps.
Qed.

Lemma check_idle_steps {up P} c c' : check_idle_timeout clock c = Some c' -> steps up P c c'.
Proof.
  unfold check_idle_timeout. destruct (negb _); [intros [= <-]; done|]. cbv zeta. destruct (_ && _); [intros [= <-]; done|]. cbn [read_clock].
  intros E. apply bind_Some in E as (a & _ & [= <-]). set (c1 := set_ticks _ c). trans c1; [by apply steps_quiet|].
  case_match; [apply steps_once, atom_drain|done].
Qed.

(** The window is raised at the end, if at all. *)
Lemma timer_work_window {P} c b c' : timer_work clock c = Some (b, c') -> exists c1, steps false P c c1 /\ (c' = c1 \/ c' = refresh_conn_recv_window c1).
Proof.
  intros E. unfold timer_work in E. apply bind_Some in E as (c1 & E1 & E). apply (check_idle_steps (up := false) (P := P)) in E1.
  case_decide; [injection E as _ <-; exists c1; by split; [|left]|]. apply bind_Some in E as (c2 & E2 & E). apply pump_tls_core in E2.
  apply bind_Some in E as (c3 & E3 & E). apply check_pto_core in E3. cbv zeta in E. injection E as _ <-.
  exists (retire_closed_streams (pull_crypto_from_tls c3)). split; [|by right]. etrans; [exact E1|]. trans c2; [by apply steps_quiet|]. trans c3; [by apply steps_quiet|].
  trans (pull_crypto_from_tls c3); [apply steps_quiet, pull_crypto_core|]. apply steps_once, atom_retire.
Qed.

Lemma steps_up {P} c c' : steps false P c c' -> steps true P c c'.
Proof.
  apply rtc_subrel. intros x y H.
  destruct H; [by apply atom_quiet|apply atom_close|apply atom_drain|by apply atom_settle|by apply atom_stream|by apply atom_reset|apply atom_ensure|apply atom_read|
    apply atom_retire|done|apply atom_validated|by apply atom_emit|by eapply atom_emit_close].
Qed.

Lemma timer_work_steps {P} c b c' : timer_work clock c = Some (b, c') -> steps true P c c'.
Proof.
  intros E. destruct (timer_work_window (P := P) c b c' E) as (c1 & H & [->| ->]); [by apply steps_up|].
  etrans; [by apply steps_up|]. by apply steps_once, atom_refresh.
Qed.

Lemma on_timer_steps {P} fuel c c' : on_timer clock fuel c = Some c' -> steps true P c c'.
Proof.
  intros E. unfold on_timer in E. apply bind_Some in E as ([ret c1] & E1 & E). apply (timer_work_steps (P := P)) in E1. etrans; [exact E1|].
  destruct ret; [injection E as <-; done|]. apply bind_Some in E as (c2 & E2 & [= <-]). etrans; [|apply settle_state_steps].
  eapply for_each_rtc; [|exact E2]. intros s lvl s' Es. unfold drain_level in Es. apply bind_Some in Es as ([[] s1] & Es & E); [done|].
  injection E as <-. by eapply send_rounds_steps.
Qed.

Lemma write_stream_steps {up P} sid d fin c : steps up P c (write_stream sid d fin c).
Proof.
  unfold write_stream. pose proof (atom_ensure up P sid c) as H. destruct (ensure_stream sid c) as [s c1]. cbn [snd] in H.
  trans c1; [by apply steps_once|]. apply steps_quiet. unfold core. cbn. by rewrite recv_halves_update.
Qed.

(** Every event is a sequence of elementary steps behind its arrival, the
    timer's possibly followed by a window update. *)
Lemma run_event_window `{Typing P D} c e c' : arrives_ok D e -> run_event clock c e = Some c' ->
  steps false P (arrive e c) c' \/ (e = EvTimer /\ exists c1, steps false P c c1 /\ c' = refresh_conn_recv_window c1).
Proof.
  intros HD E. destruct e as [dg| |lvl| |sid d fin|sid|er ap wh ft| |]; cbn [run_event] in E.
  2: { apply bind_Some in E as ([b c1] & E & [= <-]). destruct (timer_work_window (P := P) c b c1 E) as (c2 & H2 & [->| ->]); [by left|]. right. split; [done|by exists c2]. }
  all: left.
  - by eapply on_datagram_steps.
  - apply bind_Some in E as ([b c1] & E & [= <-]). by eapply build_and_send_steps.
  - injection E as <-. apply settle_state_steps.
  - injection E as <-. apply write_stream_steps.
  - injection E as <-. apply steps_once, atom_read.
  - injection E as <-. apply steps_once, atom_close.
  - apply bind_Some in E as ([b c1] & E & [= <-]). apply steps_quiet. unfold initiate_key_update in E. cbv zeta in E.
    destruct (negb _); [by injection E as _ <-|]. destruct (negb _); [by injection E as _ <-|]. by apply bind_Some in E as (sp & _ & [= _ <-]).
  - injection E as <-. apply steps_once, atom_validated.
Qed.

Lemma run_event_steps `{Typing P D} c e c' : arrives_ok D e -> run_event clock c e = Some c' -> steps true P (arrive e c) c'.
Proof.
  intros HD E. destruct (run_event_window c e c' HD E) as [Hs|(-> & c1 & Hs & ->)]; [by apply steps_up|].
  etrans; [by apply steps_up|]. by apply steps_once, atom_refresh.
Qed.

Lemma run_event_any c e c' : run_event clock c e = Some c' -> steps true (fun _ => True) (arrive e c) c'.
Proof. apply (run_event_steps (D := fun _ => True)). by destruct e. Qed.

(** An invariant of the elementary steps is one of every run. *)
Lemma steps_inv {up P} (I : Conn (T := T) -> Prop) : (forall c c', atom up P c c' -> I c -> I c') -> forall c c', steps up P c c' -> I c -> I c'.
Proof. intros Ha c c' H. induction H as [|c1 c2 c3 H12 _ IH]; [done|]. intros Hi. apply IH. by eapply Ha. Qed.

Lemma steps_rel {up P} (R : Conn (T := T) -> Conn (T := T) -> Prop) `{!PreOrder R} : (forall c c', atom up P c c' -> R c c') -> forall c c', steps up P c c' -> R c c'.
Proof. intros Ha c c' H. induction H as [|c1 c2 c3 H12 _ IH]; [done|]. etrans; [by apply Ha|exact IH]. Qed.

Lemma run_events_rel (R : Conn (T := T) -> Conn (T := T) -> Prop) `{!PreOrder R} : (forall c c', atom true (fun _ => True) c c' -> R c c') -> (forall e c, R c (arrive e c)) ->
  forall es c c', run_events clock es c = Some c' -> R c c'.
Proof.
  intros Ha Hr es. induction es as [|e es IH]; intros c c' E; unfold run_events in E; cbn [for_each] in E; [by injection E as <-|].
  apply bind_Some in E as (c1 & E1 & E). etrans; [|by eapply IH]. etrans; [apply Hr|]. eapply steps_rel; [done|exact Ha|]. by eapply run_event_any.
Qed.
End Steps.
