(* ===== verification/QuicConnFlow.v ===== *)
(** * QUIC connection: what the peer can make us buffer

    The receive accounting of a connection against an arbitrary peer: the
    bytes charged to the connection window are the high-water marks of its
    streams, they stay within the window that was advertised, the window is
    never more than one [initial_max_data] ahead of what the application has
    taken, and so the stream data held for the application never exceeds
    [initial_max_data], whatever arrives. *)
From stdpp Require Import relations.
From S2P Require Import Prelude VarInt SortedMap QuicPacket QuicCrypto QuicFrame PnSpace QuicCongestion QuicStream QuicStreamShape TransportParams QuicConn QuicConnStreams QuicConnSteps.

Local Open Scope Z_scope.

(** ** Sums over the receiving halves *)

Lemma sum_halves g m : sm_sum (fun s => g (recv s)) m = sm_sum g (recv_halves m).
Proof. unfold sm_sum, recv_halves. induction m as [|[k s] m IH]; [done|]. cbn. by rewrite IH. Qed.

Lemma above_halves l m : above l (recv_halves m) <-> above l m.
Proof. revert l. unfold recv_halves. induction m as [|[k s] m IH]; intros l; [done|]. cbn. by rewrite <- IH. Qed.

Lemma sorted_halves m : sorted_map (recv_halves m) <-> sorted_map m.
Proof. unfold sorted_map. by setoid_rewrite above_halves. Qed.

Lemma forall_halves (P : RecvSide -> Prop) m : Forall (fun kv => P kv.2) (recv_halves m) <-> Forall (fun kv => P (recv kv.2)) m.
Proof. unfold recv_halves. by rewrite Forall_fmap. Qed.

Lemma sum_le {V} (f g : V -> Z) m : Forall (fun kv => f kv.2 <= g kv.2) m -> sm_sum f m <= sm_sum g m.
Proof. unfold sm_sum. induction 1; cbn; lia. Qed.

Lemma sum_sub {V} (f g : V -> Z) m : sm_sum (fun v => f v - g v) m = sm_sum f m - sm_sum g m.
Proof. unfold sm_sum. induction m; cbn; lia. Qed.

Lemma sum_nonneg {V} (f : V -> Z) m : Forall (fun kv => 0 <= f kv.2) m -> 0 <= sm_sum f m.
Proof. unfold sm_sum. induction 1; cbn; lia. Qed.

Definition read_sum (m : list (Z * QuicStream.Stream)) : Z := sm_sum (fun s => recv_read_offset (recv s)) m.
Definition high_sum (m : list (Z * QuicStream.Stream)) : Z := sm_sum (fun s => recv_high_water (recv s)) m.
Definition held_sum (m : list (Z * QuicStream.Stream)) : Z := sm_sum (fun s => buffered (recv s)) m.

Definition all_sane (m : list (Z * QuicStream.Stream)) : Prop := Forall (fun kv => recv_sane (recv kv.2)) m.

Lemma read_sum_high m : all_sane m -> 0 <= read_sum m <= high_sum m.
Proof.
  intros H. split; [apply sum_nonneg|apply sum_le]; (eapply Forall_impl; [exact H|]; intros kv Hs; apply sane_bounds in Hs; lia).
Qed.

Lemma held_sum_bound m : all_sane m -> 0 <= held_sum m <= high_sum m - read_sum m.
Proof.
  intros H. split; [apply sum_nonneg; eapply Forall_impl; [exact H|]; intros kv Hs; apply (sane_buffered _ Hs)|].
  unfold high_sum, read_sum. rewrite <- sum_sub. apply sum_le. eapply Forall_impl; [exact H|]. intros kv Hs. apply (sane_buffered _ Hs).
Qed.

(** ** A receiving half that is put back *)

Lemma put_sum (g : RecvSide -> Z) sid r s m : sm_find sid m = Some s ->
  sm_sum (fun s => g (recv s)) (sm_update sid (put_recv_side r) m) = sm_sum (fun s => g (recv s)) m + g r - g (recv s).
Proof. intros E. rewrite sum_update, E. cbn. lia. Qed.

Lemma put_sane sid r m : recv_sane r -> all_sane m -> all_sane (sm_update sid (put_recv_side r) m).
Proof.
  intros Hr H. unfold all_sane in *. induction H as [|[k s] m Hs H IH]; [constructor|]. cbn [sm_update]. by destruct (k =? sid); apply Forall_cons.
Qed.

Lemma find_sane sid s m : all_sane m -> sm_find sid m = Some s -> recv_sane (recv s).
Proof. intros H E. apply find_elem in E. unfold all_sane in H. rewrite Forall_forall in H. by apply (H (sid, s)). Qed.

Lemma insert_sane sid s m : recv_sane (recv s) -> all_sane m -> all_sane (sm_insert sid s m).
Proof.
  intros Hs H. unfold all_sane in *. induction H as [|[k t] m Ht H IH]; cbn [sm_insert]; [by apply Forall_singleton|].
  destruct (sid <? k); [apply Forall_cons; split; [done|]; by apply Forall_cons|]. by destruct (k =? sid); apply Forall_cons.
Qed.

(** What a delivery or a reset does to the numbers of a half. *)
Definition moves (s s' : RecvSide) (e : Z) : Prop :=
  recv_sane s' /\ recv_read_offset s' = recv_read_offset s /\ recv_high_water s <= recv_high_water s' <= Z.max (recv_high_water s) e.

Lemma settle_numbers s : recv_read_offset (settle s) = recv_read_offset s /\ recv_high_water (settle s) = recv_high_water s.
Proof.
  unfold settle. destruct (recv_final_size s); [|done]. destruct (decide (recv_state s = Recv)); destruct (recv_chunks _) as [|[? ?] ?]; repeat case_match; done.
Qed.

Lemma deliver_moves s o d fin s' : recv_sane s -> 0 <= o -> o + #d < 2 ^ 63 -> deliver s o d fin = Some s' -> moves s s' (o + #d).
Proof.
  intros Hs Ho Hl E. split; [by eapply sane_deliver|]. unfold deliver in E. case_decide; [injection E as <-; lia|]. cbv zeta in E.
  rewrite u64_small in E by (unfold u64_ok; lia). destruct (_ <? _); [done|]. destruct (match recv_final_size s with Some _ => _ | None => false end); [done|].
  destruct (trim_consumed _ _ _) as [po pd]. injection E as <-. destruct (settle_numbers (mkRecv (match pd with [] => recv_chunks s | _ => insert_chunk (recv_chunks s) po pd end)
    (recv_read_offset s) (if recv_high_water s <? o + #d then o + #d else recv_high_water s) (recv_limit s) (if fin then Some (o + #d) else recv_final_size s) (reset_error s) (recv_state s))) as [-> ->].
  cbn. destruct (Z.ltb_spec (recv_high_water s) (o + #d)); lia.
Qed.

Lemma reset_moves s fs err s' : recv_sane s -> reset_recvd s fs err = Some s' -> moves s s' fs.
Proof.
  intros Hs E. split; [by eapply sane_reset|]. unfold reset_recvd in E. destruct (match recv_final_size s with Some _ => _ | None => false end); [done|].
  destruct (_ <? _); [done|]. injection E as <-. cbn. lia.
Qed.

(** The limits of our own transport parameters fit their varints. *)
Definition limits_ok (tp : TransportParameters) : Prop :=
  0 <= initial_max_data tp /\ 0 <= initial_max_stream_data_bidi_local tp < 2 ^ 62 /\
  0 <= initial_max_stream_data_bidi_remote tp < 2 ^ 62 /\ 0 <= initial_max_stream_data_uni tp < 2 ^ 62.

Section Flow.
Context {T : Type} {tls : Tls T} {lib : CryptoLib} {lib_laws : CryptoLibLaws} (clock : nat -> Z).
Implicit Types c : Conn (T := T).

(** The frames of byte strings have their numbers in range. *)
Global Instance typed : Typing frame_ranges bytes_ok.
Proof.
  split.
  - intros off dg. apply Forall_drop.
  - intros sp dg off n pn_off len pn pl Hb. apply open_long_bytes. by apply Forall_take, Forall_drop.
  - intros a k off dg dg' n sp kp pn aad pl sp' Hb Eu. apply open_short_bytes. apply Forall_drop.
    pose proof (unmask_bytes (hp_mask a k (take kSampleLen (drop (off + 4) dg))) 0x1F off dg
      (mask_bytes _ _ _ ltac:(by apply Forall_take, Forall_drop)) ltac:(by unfold byte_ok; lia) Hb) as Hu. by rewrite Eu in Hu.
  - apply parse_frames_ranges.
Qed.

(** The receive accounting, with [B] the largest window advertised so far. *)
Record flow (tp : TransportParameters) (B : Z) (c : Conn (T := T)) : Prop := {
  fl_tp : local_tp_ c = tp;
  fl_sorted : sorted_map (streams_ c);
  fl_sane : all_sane (streams_ c);
  fl_retired : 0 <= retired_recv_consumed_ c;
  fl_total : conn_recv_total_ c = retired_recv_consumed_ c + high_sum (streams_ c);
  fl_max : conn_recv_total_ c <= conn_recv_max_data_ c <= B;
  fl_window : conn_recv_max_data_ c <= retired_recv_consumed_ c + read_sum (streams_ c) + initial_max_data tp }.

Definition flow_view (c : Conn (T := T)) :=
  (local_tp_ c, retired_recv_consumed_ c, conn_recv_total_ c, conn_recv_max_data_ c, recv_halves (streams_ c)).

Lemma flow_same tp B c c' : flow_view c' = flow_view c -> flow tp B c -> flow tp B c'.
Proof.
  intros E [H1 H2 H3 H4 H5 H6 H7].
  assert (local_tp_ c' = local_tp_ c /\ retired_recv_consumed_ c' = retired_recv_consumed_ c /\ conn_recv_total_ c' = conn_recv_total_ c /\
    conn_recv_max_data_ c' = conn_recv_max_data_ c /\ recv_halves (streams_ c') = recv_halves (streams_ c)) as (E1 & E2 & E3 & E4 & E5) by (unfold flow_view in E; split_and!; congruence).
  unfold high_sum, read_sum, all_sane in *. rewrite <- sorted_halves in H2. rewrite <- forall_halves in H3. rewrite !sum_halves in *.
  split; unfold high_sum, read_sum, all_sane; rewrite <- ?sorted_halves, <- ?forall_halves, ?sum_halves, ?E1, ?E2, ?E3, ?E4, ?E5; done.
Qed.

Lemma core_flow c c' : core c' = core c -> flow_view c' = flow_view c.
Proof. unfold core, flow_view. intros H. injection H. intros. congruence. Qed.

Lemma close_flow e a w f c : flow_view (initiate_close e a w f c) = flow_view c.
Proof. unfold initiate_close. by case_decide. Qed.

Lemma enforce_flow sid c : flow_view (enforce_stream_limit sid c).2 = flow_view c.
Proof.
  unfold enforce_stream_limit. destruct (negb _); [done|]. destruct (find_stream sid c); [done|]. cbv zeta.
  destruct (_ <=? _); cbn [snd]; [apply close_flow|done].
Qed.

Lemma close_keeps tp B e a w f c : flow tp B c -> flow tp B (initiate_close e a w f c).
Proof. apply flow_same, close_flow. Qed.

Lemma ensure_flow tp B sid c : limits_ok tp -> flow tp B c ->
  flow tp B (ensure_stream sid c).2 /\ sm_find sid (streams_ (ensure_stream sid c).2) = Some (ensure_stream sid c).1.
Proof.
  intros (_ & L1 & L2 & L3) H. unfold ensure_stream, find_stream. destruct (sm_find sid (streams_ c)) as [s|] eqn:Ef; [done|]. cbv zeta.
  set (lim := if is_bidi sid then _ else _). assert (Hl : 0 <= lim.1 < 2 ^ 63).
  { unfold lim. rewrite (fl_tp _ _ _ H). destruct (is_bidi sid), (is_client_initiated sid); cbn [fst]; lia. }
  destruct lim as [rl sl]. cbn [fst snd] in *. split; [|cbn; by rewrite find_insert, Z.eqb_refl]. destruct H as [H1 H2 H3 H4 H5 H6 H7].
  assert (Hs : recv_sane (recv (new_stream sid rl sl))) by by apply sane_new.
  split; cbn [set_streams local_tp_ streams_ retired_recv_consumed_ conn_recv_total_ conn_recv_max_data_]; try done.
  - by apply sorted_insert.
  - by apply insert_sane.
  - rewrite H5. unfold high_sum. rewrite sum_insert, Ef by done. cbn. lia.
  - unfold read_sum. rewrite sum_insert, Ef by done. cbn. unfold read_sum in H7. lia.
Qed.

(** A half that moved within the connection window, put back and charged. *)
Lemma charge_keeps tp B sid s r e c : B < 2 ^ 63 -> flow tp B c -> sm_find sid (streams_ c) = Some s -> moves (recv s) r e ->
  exceeds_conn_window (recv_high_water (recv s)) e c = false ->
  flow tp B (charge_conn_window (recv_high_water (recv s)) (recv_high_water r) (with_stream sid (put_recv_side r) c)).
Proof.
  intros HB [H1 H2 H3 H4 H5 H6 H7] Ef (Hr & Ho & Hh) Hx. pose proof (read_sum_high _ H3) as Hrs.
  assert (Ex : recv_high_water (recv s) < e -> e - recv_high_water (recv s) <= conn_recv_max_data_ c - conn_recv_total_ c).
  { intros Hlt. unfold exceeds_conn_window in Hx. rewrite u64_small in Hx by (unfold u64_ok; lia).
    destruct (Z.ltb_spec (recv_high_water (recv s)) e); [|lia]. cbn [andb] in Hx. by apply Z.ltb_ge in Hx. }
  assert (Esum : high_sum (sm_update sid (put_recv_side r) (streams_ c)) = high_sum (streams_ c) + recv_high_water r - recv_high_water (recv s)) by by apply put_sum.
  assert (Eread : read_sum (sm_update sid (put_recv_side r) (streams_ c)) = read_sum (streams_ c)).
  { unfold read_sum. rewrite (put_sum recv_read_offset sid r s _ Ef). lia. }
  assert (Et : flow_view (charge_conn_window (recv_high_water (recv s)) (recv_high_water r) (with_stream sid (put_recv_side r) c)) =
    flow_view (set_conn_recv_total (conn_recv_total_ c + (recv_high_water r - recv_high_water (recv s))) (with_stream sid (put_recv_side r) c))).
  { unfold charge_conn_window. destruct (Z.ltb_spec (recv_high_water (recv s)) (recv_high_water r)).
    - cbn [with_stream conn_recv_total_ set_streams]. rewrite u64_small by (unfold u64_ok; lia). done.
    - unfold flow_view. cbn. replace (_ + (_ - _)) with (conn_recv_total_ c) by lia. done. }
  eapply flow_same; [exact Et|]. split; cbn [with_stream set_streams set_conn_recv_total local_tp_ streams_ retired_recv_consumed_ conn_recv_total_ conn_recv_max_data_]; rewrite ?Esum, ?Eread; try done.
  - by apply sorted_update.
  - by apply put_sane.
  - lia.
  - lia.
Qed.

Lemma stream_flow tp B f c : limits_ok tp -> B < 2 ^ 63 -> varint_ok (sf_offset f) -> flow tp B c -> flow tp B (on_stream_frame f c).
Proof.
  intros HL HB Ho H. unfold on_stream_frame. pose proof (flow_same tp B _ _ (enforce_flow (sf_stream_id f) c) H) as H1.
  destruct (enforce_stream_limit _ c) as [[] c1]; cbn [negb snd] in *; [|done]. destruct (Z.ltb_spec kMaxStreamOffset (#(sf_data f))) as [|Hd]; [by apply close_keeps|].
  destruct (Z.ltb_spec (kMaxStreamOffset - #(sf_data f)) (sf_offset f)) as [|Hm]; [by apply close_keeps|]. cbn [orb].
  destruct (ensure_flow tp B (sf_stream_id f) c1 HL H1) as [H2 Ef]. destruct (ensure_stream _ c1) as [s c2]. cbn [fst snd] in *. cbv zeta.
  unfold varint_ok, kMaxStreamOffset in *. rewrite u64_small by (unfold u64_ok; lia).
  destruct (exceeds_conn_window _ _ _) eqn:Ex; [by apply close_keeps|]. destruct (deliver _ _ _ _) as [r|] eqn:Ed; [|by apply close_keeps].
  eapply charge_keeps; [done|done|done| |exact Ex]. eapply deliver_moves; [|lia| |exact Ed]; [|lia]. eapply find_sane; [apply H2|done].
Qed.

Lemma reset_flow tp B f c : limits_ok tp -> B < 2 ^ 63 -> flow tp B c -> flow tp B (on_reset_stream_frame f c).
Proof.
  intros HL HB H. unfold on_reset_stream_frame. pose proof (flow_same tp B _ _ (enforce_flow (rs_stream_id f) c) H) as H1.
  destruct (enforce_stream_limit _ c) as [[] c1]; cbn [negb snd] in *; [|done]. destruct (_ <? _); [by apply close_keeps|].
  destruct (ensure_flow tp B (rs_stream_id f) c1 HL H1) as [H2 Ef]. destruct (ensure_stream _ c1) as [s c2]. cbn [fst snd] in *. cbv zeta.
  destruct (exceeds_conn_window _ _ _) eqn:Ex; [by apply close_keeps|]. destruct (reset_recvd _ _ _) as [r|] eqn:Ed; [|by apply close_keeps].
  eapply charge_keeps; [done|done|done| |exact Ex]. eapply reset_moves; [|exact Ed]. eapply find_sane; [apply H2|done].
Qed.

Lemma read_flow tp B sid c : flow tp B c -> flow tp B (read_stream sid c).2.
Proof.
  intros [H1 H2 H3 H4 H5 H6 H7]. unfold read_stream, find_stream. destruct (sm_find sid (streams_ c)) as [s|] eqn:Ef; [|by split].
  pose proof (sane_read (recv s) (find_sane _ _ _ H3 Ef)) as [Hs Ho]. assert (Hh : recv_high_water (read_contiguous (recv s)).2 = recv_high_water (recv s)).
  { unfold read_contiguous. destruct (recv_chunks (recv s)) as [|[? ?] ?]; repeat (case_match; try done). }
  destruct (read_contiguous (recv s)) as [[out fin] r]. cbn [fst snd] in *.
  split; cbn [with_stream set_streams local_tp_ streams_ retired_recv_consumed_ conn_recv_total_ conn_recv_max_data_]; try done.
  - by apply sorted_update.
  - by apply put_sane.
  - unfold high_sum. rewrite (put_sum recv_high_water sid r s _ Ef). unfold high_sum in H5. lia.
  - unfold read_sum. rewrite (put_sum recv_read_offset sid r s _ Ef). unfold read_sum in H7. lia.
Qed.

(** Retiring moves the whole high-water mark of a stream to the consumed side. *)
Lemma retire_walk_flow m : forall c, all_sane m -> 0 <= retired_recv_consumed_ c -> retired_recv_consumed_ c + high_sum m < 2 ^ 63 ->
  let '(kept, c') := retire_walk m c in
  all_sane kept /\ 0 <= retired_recv_consumed_ c' /\ retired_recv_consumed_ c' + high_sum kept = retired_recv_consumed_ c + high_sum m /\
  retired_recv_consumed_ c + read_sum m <= retired_recv_consumed_ c' + read_sum kept.
Proof.
  induction m as [|[sid s] m IH]; intros c Hm Hc Hb; cbn [retire_walk]; [split_and!; try done; lia|]. apply Forall_cons in Hm as [Hs Hm]. cbn [snd] in Hs.
  pose proof (sane_bounds _ Hs) as Hsb. pose proof (read_sum_high _ Hm) as Hrs.
  change (high_sum ((sid, s) :: m)) with (recv_high_water (recv s) + high_sum m) in *. change (read_sum ((sid, s) :: m)) with (recv_read_offset (recv s) + read_sum m).
  destruct (terminal sid s).
  - assert (Er : retired_recv_consumed_ (credit_stream sid s c) = retired_recv_consumed_ c + recv_high_water (recv s)).
    { unfold credit_stream. cbv zeta. rewrite <- (u64_small (retired_recv_consumed_ c + _)) by (unfold u64_ok; lia). by destruct (is_client_initiated sid), (is_bidi sid). }
    specialize (IH (credit_stream sid s c) Hm). rewrite Er in IH. specialize (IH ltac:(lia) ltac:(lia)). destruct (retire_walk m _) as [kept c']. destruct IH as (? & ? & ? & ?). split_and!; [done|lia..].
  - specialize (IH c Hm Hc ltac:(lia)). destruct (retire_walk m c) as [kept c']. destruct IH as (? & ? & ? & ?).
    change (high_sum ((sid, s) :: kept)) with (recv_high_water (recv s) + high_sum kept). change (read_sum ((sid, s) :: kept)) with (recv_read_offset (recv s) + read_sum kept).
    split_and!; [by apply Forall_cons|lia..].
Qed.

Lemma retire_flow tp B c : B < 2 ^ 63 -> flow tp B c -> flow tp B (retire_closed_streams c).
Proof.
  intros HB [H1 H2 H3 H4 H5 H6 H7]. unfold retire_closed_streams. pose proof (retire_walk_flow (streams_ c) c H3 H4 ltac:(lia)) as Hw.
  destruct (retire_walk_shape (streams_ c) c) as (a & b & r & E). rewrite E in *. cbv zeta. destruct Hw as (Hk & Hr & Hh & Hrd).
  change (retired_recv_consumed_ (set_streams_bidi_closed _ _)) with r in *.
  set (c1 := set_streams _ _). assert (F1 : flow tp B c1).
  { split; try done; [by apply sorted_filter|change (conn_recv_total_ c = r + high_sum (filter live (streams_ c))); lia|
      change (conn_recv_max_data_ c <= r + read_sum (filter live (streams_ c)) + initial_max_data tp); lia]. }
  set (c2 := if _ && _ then _ else c1). assert (F2 : flow tp B c2) by (unfold c2; destruct (_ && _); [by apply (flow_same tp B c1)|done]).
  clearbody c2. destruct (_ && _); [by apply (flow_same tp B c2)|done].
Qed.

Lemma consumed_sum m : forall n, all_sane m -> 0 <= n -> n + read_sum m < 2 ^ 63 ->
  foldl (fun acc kv => u64 (acc + recv_read_offset (recv kv.2))) n m = n + read_sum m.
Proof.
  induction m as [|[sid s] m IH]; intros n Hm Hn Hb; [cbn; lia|]. apply Forall_cons in Hm as [Hs Hm]. cbn [snd] in Hs. pose proof (sane_bounds _ Hs). pose proof (read_sum_high _ Hm).
  change (read_sum ((sid, s) :: m)) with (recv_read_offset (recv s) + read_sum m) in *. cbn [foldl snd]. rewrite u64_small by (unfold u64_ok; lia). rewrite IH; [lia|done|lia..].
Qed.

(** A window update raises the bound by at most one window. *)
Lemma refresh_flow tp B c : limits_ok tp -> B + initial_max_data tp < 2 ^ 63 -> flow tp B c -> flow tp (B + initial_max_data tp) (refresh_conn_recv_window c).
Proof.
  intros (Hw & _) HB F. pose proof F as [H1 H2 H3 H4 H5 H6 H7]. pose proof (read_sum_high _ H3) as Hrs. unfold refresh_conn_recv_window. rewrite consumed_sum by (done || lia). cbv zeta.
  set (k := retired_recv_consumed_ c + read_sum (streams_ c)). assert (F1 : flow tp (B + initial_max_data tp) (set_conn_recv_consumed k c)) by (split; try done; cbn; lia).
  change (local_tp_ (set_conn_recv_consumed k c)) with (local_tp_ c). rewrite H1. destruct (_ =? 0); [done|]. destruct (_ <? _); [|done].
  change (conn_recv_consumed_ (set_conn_recv_consumed k c)) with k. rewrite u64_small by (unfold u64_ok; lia).
  split; try done; cbn [set_max_data_pending set_conn_recv_max_data set_conn_recv_consumed conn_recv_total_ conn_recv_max_data_ retired_recv_consumed_ streams_]; lia.
Qed.

Lemma atom_flow tp B c c' : limits_ok tp -> B < 2 ^ 63 -> atom false frame_ranges c c' -> flow tp B c -> flow tp B c'.
Proof.
  intros HL HB [] F; try (by apply (flow_same tp B c0)).
  - eapply flow_same; [|exact F]. by apply core_flow.
  - by apply close_keeps.
  - apply stream_flow; [done|done|by destruct H|done].
  - by apply reset_flow.
  - by apply ensure_flow.
  - by apply read_flow.
  - by apply retire_flow.
  - apply (flow_same tp B c0); [|done]. unfold count_unvalidated. by destruct (peer_address_validated_ c0).
  - apply (flow_same tp B c0); [|done]. destruct dg as [dg|]; [|done]. cbn [from_option]. unfold count_unvalidated. by destruct (peer_address_validated_ c0).
Qed.

Lemma arrive_flow tp B e c : flow tp B c -> flow tp B (arrive e c).
Proof. destruct e; try done. cbn [arrive]. case_decide; [done|]. by apply flow_same. Qed.

(** The timer ticks among the events. *)
Definition timers (es : list Event) : nat := length (List.filter (fun e => match e with EvTimer => true | _ => false end) es).

Lemma run_event_flow tp B c e c' : limits_ok tp -> B + initial_max_data tp * Z.of_nat (timers [e]) < 2 ^ 63 -> arrives_ok bytes_ok e ->
  run_event clock c e = Some c' -> flow tp B c -> flow tp (B + initial_max_data tp * Z.of_nat (timers [e])) c'.
Proof.
  intros HL HB Ha E F. assert (Hw : 0 <= initial_max_data tp) by apply HL.
  assert (Hgrow : forall B', B <= B' -> flow tp B c' -> flow tp B' c') by (intros B' HB' [? ? ? ? ? ? ?]; split; try done; lia).
  destruct (run_event_window clock c e c' Ha E) as [Hs|(-> & c1 & Hs & ->)].
  - apply Hgrow; [lia|]. refine (steps_inv (flow tp B) _ _ _ Hs _); [|by apply arrive_flow]. intros x y Hxy. apply atom_flow; [done|lia|done].
  - change (timers [EvTimer]) with 1%nat in *. rewrite Z.mul_1_r in *. apply refresh_flow; [done|done|].
    refine (steps_inv (flow tp B) _ _ _ Hs F). intros x y Hxy. apply atom_flow; [done|lia|done].
Qed.

Lemma run_events_flow tp es : forall B c c', limits_ok tp -> B + initial_max_data tp * Z.of_nat (timers es) < 2 ^ 63 -> Forall (arrives_ok bytes_ok) es ->
  run_events clock es c = Some c' -> flow tp B c -> flow tp (B + initial_max_data tp * Z.of_nat (timers es)) c'.
Proof.
  induction es as [|e es IH]; intros B c c' HL HB Ha E F; unfold run_events in E; cbn [for_each] in E.
  - injection E as <-. unfold timers. cbn. by rewrite Z.mul_0_r, Z.add_0_r.
  - apply Forall_cons in Ha as [Ha Hes]. apply bind_Some in E as (c1 & E1 & E). assert (Et : timers (e :: es) = (timers [e] + timers es)%nat) by by destruct e.
    assert (Hw : 0 <= initial_max_data tp) by apply HL. rewrite Et, Nat2Z.inj_add, Z.mul_add_distr_l, Z.add_assoc in *.
    eapply IH; [done|done|done|exact E|]. eapply run_event_flow; [done|lia|done|exact E1|exact F].
Qed.

Lemma new_connection_flow t dc cs ss tp c : limits_ok tp -> new_connection clock t dc cs ss tp = Some c ->
  flow (finalize_tp tp dc ss) (initial_max_data tp) c.
Proof.
  intros (Hw & _). unfold new_connection. cbv zeta. intros E. do 4 apply bind_Some in E as (? & _ & E). injection E as <-.
  split; cbn; [done|by exists 0|by apply Forall_nil|lia..].
Qed.

(** C9: The memory a peer can claim is bounded.  Whatever datagrams arrive
    (forged, malformed, overlapping, out of order, contradicting each other),
    the stream data held for the application, summed over all streams, never
    exceeds [initial_max_data], and on each stream it never exceeds the limit
    that stream was opened with; what is charged to the connection window is
    exactly the high-water marks of the streams seen so far; and it stays
    within the window that was advertised. *)
Theorem receive_memory_bounded t dc cs ss tp c0 es c :
  limits_ok tp -> initial_max_data tp * (1 + Z.of_nat (timers es)) < 2 ^ 63 -> Forall (arrives_ok bytes_ok) es ->
  new_connection clock t dc cs ss tp = Some c0 -> run_events clock es c0 = Some c ->
  held_sum (streams_ c) <= initial_max_data tp /\
  (forall sid s, find_stream sid c = Some s -> buffered (recv s) <= recv_limit (recv s) - recv_read_offset (recv s)) /\
  conn_recv_total_ c = retired_recv_consumed_ c + high_sum (streams_ c) /\
  conn_recv_total_ c <= conn_recv_max_data_ c.
Proof.
  intros HL HB Ha Hn Hr. rewrite Z.mul_add_distr_l, Z.mul_1_r in HB. assert (HL' : limits_ok (finalize_tp tp dc ss)) by exact HL.
  destruct (run_events_flow _ es _ c0 c HL' HB Ha Hr (new_connection_flow _ _ _ _ _ _ HL Hn)) as [H1 H2 H3 H4 H5 H6 H7].
  pose proof (held_sum_bound _ H3) as Hh. change (initial_max_data (finalize_tp tp dc ss)) with (initial_max_data tp) in *.
  split; [lia|]. split; [|split; [done|lia]]. intros sid s Ef. pose proof (find_sane _ _ _ H3 Ef) as Hs.
  pose proof (sane_buffered _ Hs). pose proof (sane_bounds _ Hs). lia.
Qed.
End Flow.

(** ** Example *)

(** A TLS engine with the same secrets in both directions: a connection with
    it can stand for the peer of another. *)
Definition mirror_tls : Tls nat := {|
  tls_advance := S;
  tls_established n := (2 <=? n)%nat;
  deliver_crypto lvl d n := n;
  out_crypto lvl n := [];
  clear_out_crypto lvl n := n;
  read_secret lvl n := if (n =? 0)%nat then [] else [1; 2; 3];
  write_secret lvl n := if (n =? 0)%nat then [] else [1; 2; 3];
  negotiated_aead n := Aes128Gcm;
  peer_transport_params n := demo_peer |}.

(** The packets of a peer that writes five bytes to stream 0. *)
Definition peer_wire : list bytes :=
  default [] (c0 ← @new_connection nat toy_lib demo_clock 0%nat [9; 9] [7; 7; 7] [8; 8] demo_tp;
    c ← @run_events nat mirror_tls toy_lib demo_clock [EvTimer; EvTimer; EvValidated; EvWrite 0 [10; 11; 12; 13; 14] true; EvSend LApplication] c0;
    Some (wire c)).

Definition peer_events : list Event := [EvTimer; EvTimer] ++ (EvDatagram <$> peer_wire).

Definition mirror_accounts (c : Conn (T := nat)) : option (Z * Z * Z) := Some (held_sum (streams_ c), conn_recv_total_ c, conn_recv_max_data_ c).

Lemma peer_runs : exists c0 c, @new_connection nat toy_lib demo_clock 0%nat [9; 9] [8; 8] [7; 7; 7] demo_tp = Some c0 /\
  @run_events nat mirror_tls toy_lib demo_clock peer_events c0 = Some c /\ mirror_accounts c = Some (5, 5, 1000).
Proof.
  assert (E : (c0 ← @new_connection nat toy_lib demo_clock 0%nat [9; 9] [8; 8] [7; 7; 7] demo_tp;
    c ← @run_events nat mirror_tls toy_lib demo_clock peer_events c0; mirror_accounts c) = Some (5, 5, 1000)) by (vm_compute; reflexivity).
  apply bind_Some in E as (c0 & E0 & E). apply bind_Some in E as (c & E1 & E2). exists c0, c. split; [exact E0|]. split; [exact E1|exact E2].
Qed.

Lemma peer_wire_bytes : Forall (arrives_ok bytes_ok) peer_events.
Proof.
  assert (E : peer_events = [EvTimer; EvTimer; EvDatagram [72; 7; 7; 7; 0; 5; 10; 11; 11; 0; 5; 10; 11; 12; 13; 14; 30; 90; 90; 90; 90; 90; 90; 90; 90; 90; 90; 90; 90; 90; 90; 90; 90]])
    by (vm_compute; reflexivity).
  rewrite E. apply Forall_cons; split; [exact I|]. apply Forall_cons; split; [exact I|]. apply Forall_singleton. unfold arrives_ok, bytes_ok. refine (bool_decide_unpack _ _). vm_compute. exact I.
Qed.

Lemma receive_memory_bounded_witness : exists c, mirror_accounts c = Some (5, 5, 1000) /\
  held_sum (streams_ c) <= 1000 /\ conn_recv_total_ c <= conn_recv_max_data_ c.
Proof.
  destruct peer_runs as (c0 & c & E0 & E1 & E2). exists c. split; [exact E2|].
  destruct (@receive_memory_bounded nat mirror_tls toy_lib toy_lib_laws demo_clock 0%nat [9; 9] [8; 8] [7; 7; 7] demo_tp c0 peer_events c) as (H1 & _ & _ & H4).
  - vm_compute. intuition discriminate.
  - vm_compute. reflexivity.
  - exact peer_wire_bytes.
  - exact E0.
  - exact E1.
  - split; [exact H1|exact H4].
Defined.
