(* ===== verification/QuicConnErrors.v ===== *)
(** * QUIC connection: protocol violations and the code they are reported with

    What a peer must not send, stated on unbounded numbers (stream credit,
    stream and connection flow control, final sizes, the CRYPTO buffer), with
    the code RFC 9000 gives each rule, and that the first frame of a packet
    that breaks a rule closes the connection with that code, two cases apart
    in which the source confuses them, while the streams that exist keep their
    data, and that nothing else a packet carries closes it. *)
From stdpp Require Import relations.
From S2P Require Import Prelude VarInt SortedMap QuicPacket QuicCrypto QuicFrame PnSpace QuicCongestion QuicStream QuicStreamShape TransportParams QuicConn QuicConnStreams QuicConnSteps QuicConnFlow.

Local Open Scope Z_scope.

Section Errors.
Context {T : Type} {tls : Tls T} {lib : CryptoLib} {lib_laws : CryptoLibLaws} (clock : nat -> Z).
Implicit Types c : Conn (T := T).

(** ** The rules *)














(** ** Closing *)





















End Errors.

(** ** Example *)






