(* ===== verification/QuicConnLife.v ===== *)
(** * QUIC connection: lifecycle and address validation

    The states of a connection are only ever passed forwards, the identity of
    a connection never changes, the first reason to close is the one that is
    reported, a draining connection is silent, and before the peer's address
    is validated the connection answers with at most three times the bytes it
    received. *)
From stdpp Require Import relations.
From S2P Require Import Prelude VarInt SortedMap QuicPacket QuicCrypto QuicFrame PnSpace QuicCongestion QuicStream TransportParams QuicConn QuicConnStreams QuicConnSteps.

Local Open Scope Z_scope.

(** The order of the states; nothing makes a connection [Closed]. *)
Definition rank (s : State) : Z :=
  match s with Handshaking => 0 | Established => 1 | Closing => 2 | Draining | Closed => 3 end.

Section Life.
Context {T : Type} {tls : Tls T} {lib : CryptoLib} (clock : nat -> Z).
Implicit Types c : Conn (T := T).

Definition ident (c : Conn (T := T)) := (dcid_ c, scid_ c, original_dcid_ c, local_tp_ c).

(** The part of a connection this file is about. *)
Definition life (c : Conn (T := T)) :=
  (state_ c, pending_close_ c, wire c, ident c, (peer_address_validated_ c, recv_bytes_total_ c, sent_bytes_unvalidated_ c)).

Lemma core_life c c' : core c' = core c -> life c' = life c.
Proof. unfold core, life, ident. intros H. injection H. intros. congruence. Qed.

Lemma amplification_life c c' : life c' = life c -> amplification_blocked c' = amplification_blocked c.
Proof. unfold life, amplification_blocked. intros H. injection H. intros. congruence. Qed.

(** *** The steps, as far as the lifecycle is concerned *)
Inductive life_step : Conn (T := T) -> Conn (T := T) -> Prop :=
| life_same c c' : life c' = life c -> life_step c c'
| life_close e a w f c c' : rank (state_ c) < 2 -> life c' = life (set_state Closing (set_pending_close (Some (mkClose a e f w)) c)) -> life_step c c'
| life_drain c : life_step c (set_state Draining c)
| life_settle c : state_ c = Handshaking -> life_step c (set_state Established c)
| life_validated c : life_step c (set_peer_address_validated true c)
| life_emit dg c : rank (state_ c) < 3 -> pending_close_ c = None -> amplification_blocked c = false ->
    life_step c (send_datagram dg (count_unvalidated (#dg) c))
| life_emit_close f dg c : rank (state_ c) < 3 -> pending_close_ c = Some f ->
    life_step c (set_pending_close None (from_option (fun dg => send_datagram dg (count_unvalidated (#dg) c)) c dg)).

Lemma initiate_close_life e a w f c c' : life c' = life (initiate_close e a w f c) -> life_step c c'.
Proof.
  unfold initiate_close. case_decide as Hs; intros H; [by apply life_same|]. apply (life_close e a w f); [|done].
  destruct (state_ c); cbn; try lia; tauto.
Qed.

(** A frame handler leaves the lifecycle alone or closes. *)
Lemma enforce_life sid c : life_step c (enforce_stream_limit sid c).2 /\
  ((enforce_stream_limit sid c).1 = true -> (enforce_stream_limit sid c).2 = c).
Proof.
  unfold enforce_stream_limit. destruct (negb _); [split; [by apply life_same|done]|]. destruct (find_stream sid c); [split; [by apply life_same|done]|]. cbv zeta.
  destruct (_ <=? _); cbn [fst snd]; [split; [by eapply initiate_close_life|done]|split; [by apply life_same|done]].
Qed.

Lemma ensure_life sid c : life (ensure_stream sid c).2 = life c.
Proof. by destruct (ensure_stream_shape sid c) as (m & -> & _). Qed.

Lemma charge_life p n c : life (charge_conn_window p n c) = life c.
Proof. unfold charge_conn_window. by destruct (p <? n). Qed.

Lemma close_after e a w f c c1 : life c1 = life c -> life_step c (initiate_close e a w f c1).
Proof.
  intros E. apply (initiate_close_life e a w f). assert (Es : state_ c1 = state_ c) by (unfold life in E; congruence).
  unfold initiate_close. rewrite Es. case_decide; [done|]. unfold life, ident in *. cbn. injection E. intros. congruence.
Qed.

Lemma on_stream_frame_life f c : life_step c (on_stream_frame f c).
Proof.
  unfold on_stream_frame. destruct (enforce_life (sf_stream_id f) c) as [He Ho]. destruct (enforce_stream_limit _ c) as [[] c1]; cbn [fst snd negb] in *; [|done].
  specialize (Ho eq_refl). subst c1. destruct (_ || _); [by apply close_after|]. pose proof (ensure_life (sf_stream_id f) c) as E2.
  destruct (ensure_stream _ c) as [s c2]. cbn [snd] in E2. cbv zeta. destruct (exceeds_conn_window _ _ _); [by apply close_after|].
  destruct (deliver _ _ _ _) as [r|]; [|by apply close_after]. apply life_same. by rewrite charge_life.
Qed.

Lemma on_reset_stream_frame_life f c : life_step c (on_reset_stream_frame f c).
Proof.
  unfold on_reset_stream_frame. destruct (enforce_life (rs_stream_id f) c) as [He Ho]. destruct (enforce_stream_limit _ c) as [[] c1]; cbn [fst snd negb] in *; [|done].
  specialize (Ho eq_refl). subst c1. destruct (_ <? _); [by apply close_after|]. pose proof (ensure_life (rs_stream_id f) c) as E2.
  destruct (ensure_stream _ c) as [s c2]. cbn [snd] in E2. cbv zeta. destruct (exceeds_conn_window _ _ _); [by apply close_after|].
  destruct (reset_recvd _ _ _) as [r|]; [|by apply close_after]. apply life_same. by rewrite charge_life.
Qed.

Lemma read_stream_life sid c : life (read_stream sid c).2 = life c.
Proof. unfold read_stream. destruct (find_stream sid c) as [s|]; [|done]. by destruct (read_contiguous (recv s)) as [[? ?] ?]. Qed.

Lemma retire_life c : life (retire_closed_streams c) = life c.
Proof.
  unfold retire_closed_streams. destruct (retire_walk_shape (streams_ c) c) as (a & b & r & ->). cbv zeta.
  set (c1 := set_streams _ _). set (c2 := if _ && _ then _ else c1). assert (E2 : life c2 = life c) by (unfold c2; by destruct (_ && _)).
  clearbody c2. by destruct (_ && _).
Qed.

Lemma refresh_life c : life (refresh_conn_recv_window c) = life c.
Proof. unfold refresh_conn_recv_window. cbv zeta. destruct (_ =? 0); [done|]. by destruct (_ <? _). Qed.

Lemma atom_life {up P} c c' : atom up P c c' -> life_step c c'.
Proof.
  intros [].
  - by apply life_same, core_life.
  - by eapply initiate_close_life.
  - apply life_drain.
  - by apply life_settle.
  - apply on_stream_frame_life.
  - apply on_reset_stream_frame_life.
  - apply life_same, ensure_life.
  - apply life_same, read_stream_life.
  - apply life_same, retire_life.
  - apply life_same, refresh_life.
  - apply life_validated.
  - apply life_emit; [|done..]. destruct (state_ c0); cbn; try lia; done.
  - eapply life_emit_close; [|done]. destruct (state_ c0); cbn; try lia; done.
Qed.

(** ** Forwards only *)

Record evolves (c c' : Conn (T := T)) : Prop := {
  ev_ident : ident c' = ident c;
  ev_rank : rank (state_ c) <= rank (state_ c');
  ev_open : state_ c <> Closed -> state_ c' <> Closed;
  ev_wire : wire c `prefix_of` wire c';
  ev_silent : rank (state_ c) = 3 -> wire c' = wire c;
  ev_reason : 2 <= rank (state_ c) -> pending_close_ c' = pending_close_ c \/ pending_close_ c' = None;
  ev_validated : peer_address_validated_ c = true -> peer_address_validated_ c' = true }.

Global Instance evolves_preorder : PreOrder evolves.
Proof.
  split; [by split; auto|]. intros c1 c2 c3 [] []. split; try congruence; try lia; auto.
  - by etrans.
  - intros. rewrite ev_silent1; [auto|]. pose proof (eq_refl : rank Draining = 3). destruct (state_ c1), (state_ c2); cbn in *; lia.
  - intros H. destruct ev_reason1 as [->| ->]; [lia| |by right]. by apply ev_reason0.
Qed.

Lemma evolves_same c c' : life c' = life c -> evolves c c'.
Proof.
  intros H. assert (state_ c' = state_ c /\ pending_close_ c' = pending_close_ c /\ wire c' = wire c /\ ident c' = ident c /\
    peer_address_validated_ c' = peer_address_validated_ c) as (Es & Ep & Ew & Ei & Ev) by (unfold life in H; split_and!; congruence).
  split; rewrite ?Es, ?Ep, ?Ew, ?Ei, ?Ev; auto. lia.
Qed.

Lemma sent_count_life dg c : life (send_datagram dg (count_unvalidated (#dg) c)) =
  (state_ c, pending_close_ c, wire c ++ [dg], ident c, (peer_address_validated_ c, recv_bytes_total_ c,
    if peer_address_validated_ c then sent_bytes_unvalidated_ c else u64 (sent_bytes_unvalidated_ c + #dg))).
Proof. unfold count_unvalidated. by destruct (peer_address_validated_ c) eqn:E; cbn; unfold life; cbn; rewrite E. Qed.

Lemma evolves_emit dg c : rank (state_ c) < 3 -> evolves c (send_datagram dg (count_unvalidated (#dg) c)).
Proof.
  intros Hr. pose proof (sent_count_life dg c) as H. set (c' := send_datagram _ _) in *. unfold life in H.
  assert (state_ c' = state_ c /\ pending_close_ c' = pending_close_ c /\ wire c' = wire c ++ [dg] /\ ident c' = ident c /\
    peer_address_validated_ c' = peer_address_validated_ c) as (Es & Ep & Ew & Ei & Ev) by (split_and!; congruence).
  split; rewrite ?Es, ?Ep, ?Ew, ?Ei, ?Ev; auto; try lia. by eexists.
Qed.

Lemma atom_evolves {up P} c c' : atom up P c c' -> evolves c c'.
Proof.
  intros H. apply atom_life in H. destruct H as [c c' H|e a w f c c' Hr H|c|c Hs|c|dg c Hr _ _|f dg c Hr Hp].
  - by apply evolves_same.
  - etrans; [|by apply evolves_same]. split; cbn; try done; lia.
  - split; cbn; auto; destruct (state_ c); cbn; lia.
  - split; cbn; rewrite ?Hs; cbn; auto; lia.
  - by split; cbn; auto.
  - by apply evolves_emit.
  - trans (from_option (fun dg => send_datagram dg (count_unvalidated (#dg) c)) c dg).
    + destruct dg as [dg|]; [by apply evolves_emit|done].
    + split; cbn; try done. by right.
Qed.

Lemma arrive_evolves e c : evolves c (arrive e c).
Proof. destruct e; try done. cbn [arrive]. case_decide; [done|]. by split; cbn; auto. Qed.

Lemma run_events_evolves es c c' : run_events clock es c = Some c' -> evolves c c'.
Proof. apply run_events_rel; [apply _|apply atom_evolves|apply arrive_evolves]. Qed.

Lemma run_events_app es es' c : run_events clock (es ++ es') c = c1 ← run_events clock es c; run_events clock es' c1.
Proof. apply for_each_app. Qed.

(** ** Anti-amplification *)

Definition total_bytes (l : list bytes) : Z := foldr (fun d n => #d + n) 0 l.
Arguments total_bytes : simpl never.

Lemma total_bytes_app a b : total_bytes (a ++ b) = total_bytes a + total_bytes b.
Proof. unfold total_bytes. induction a as [|d a IH]; cbn; lia. Qed.

Lemma total_bytes_nonneg l : 0 <= total_bytes l.
Proof. unfold total_bytes. induction l; cbn; lia. Qed.

(** Datagrams no larger than what the sending path assumes of them. *)
Definition small (dg : bytes) : Prop := #dg <= kMaxDatagramEstimate.

(** Room for the CONNECTION_CLOSE packet, which is not held back. *)
Definition close_allowance (c : Conn (T := T)) : Z :=
  if decide (2 <= rank (state_ c) /\ pending_close_ c = None) then kMaxDatagramEstimate else 0.

(** A reason to close is only pending in a state that says so. *)
Definition noted (c : Conn (T := T)) : Prop := rank (state_ c) < 2 -> pending_close_ c = None.

Lemma life_step_noted c c' : life_step c c' -> noted c -> noted c'.
Proof.
  unfold noted. intros H Hc. destruct H as [c c' H|e a w f c c' Hr H|c|c Hs|c|dg c Hr Hp Hb|f dg c Hr Hp]; cbn in *; try done.
  - unfold life in H. intros. assert (state_ c' = state_ c /\ pending_close_ c' = pending_close_ c) as [Es ->] by (split; congruence). apply Hc. by rewrite <- Es.
  - unfold life in H. intros Hl. assert (Es : state_ c' = Closing) by (cbn in H; congruence). rewrite Es in Hl. done.
  - intros _. apply Hc. rewrite Hs. done.
  - unfold count_unvalidated. destruct (negb _); cbn; auto.
Qed.

(** The counters after at most [k] bytes were received. *)
Record counted (k : Z) (c : Conn (T := T)) : Prop := {
  cn_recv : 0 <= recv_bytes_total_ c <= k;
  cn_close : noted c;
  cn_sent : peer_address_validated_ c = false -> Forall small (wire c) ->
    sent_bytes_unvalidated_ c = total_bytes (wire c) /\ total_bytes (wire c) <= 3 * recv_bytes_total_ c + close_allowance c }.

Lemma counted_same k c c' : life c' = life c -> counted k c -> counted k c'.
Proof.
  intros H []. assert (state_ c' = state_ c /\ pending_close_ c' = pending_close_ c /\ wire c' = wire c /\
    peer_address_validated_ c' = peer_address_validated_ c /\ recv_bytes_total_ c' = recv_bytes_total_ c /\
    sent_bytes_unvalidated_ c' = sent_bytes_unvalidated_ c) as (Es & Ep & Ew & Ev & Er & Ex) by (unfold life in H; split_and!; congruence).
  by split; unfold close_allowance, noted; rewrite ?Es, ?Ep, ?Ew, ?Ev, ?Er, ?Ex.
Qed.

Lemma allowance_mono c s : rank (state_ c) <= rank s -> close_allowance c <= close_allowance (set_state s c).
Proof.
  unfold close_allowance, kMaxDatagramEstimate. cbn. intros Hr. case_decide as H1; [|case_decide; lia].
  rewrite decide_True; [lia|]. split; [lia|apply H1].
Qed.

(** Sending [dg] is within the bounds when the budget [b] admits it. *)
Lemma counted_emit k dg c b : k < 2 ^ 62 -> counted k c -> 
  (peer_address_validated_ c = false -> Forall small (wire c) -> small dg -> total_bytes (wire c) + #dg <= 3 * recv_bytes_total_ c + b) ->
  b <= kMaxDatagramEstimate -> forall c', life c' = life (send_datagram dg (count_unvalidated (#dg) c)) ->
  peer_address_validated_ c' = false -> Forall small (wire c') ->
  sent_bytes_unvalidated_ c' = total_bytes (wire c') /\ total_bytes (wire c') <= 3 * recv_bytes_total_ c' + b.
Proof.
  intros Hk [Hr _ Hs] Hb Hk2 c' E Hv Hw. rewrite sent_count_life in E. unfold life in E.
  assert (wire c' = wire c ++ [dg] /\ peer_address_validated_ c = false /\ recv_bytes_total_ c' = recv_bytes_total_ c /\
    sent_bytes_unvalidated_ c' = u64 (sent_bytes_unvalidated_ c + #dg)) as (Ew & Ev & Er & Ex).
  { injection E. intros. split_and!; try congruence. destruct (peer_address_validated_ c); congruence. }
  rewrite Ew in *. apply Forall_app in Hw as [Hw Hd]. rewrite Forall_singleton in Hd. destruct (Hs Ev Hw) as [Hs1 Hs2]. specialize (Hb Ev Hw Hd).
  rewrite Er, Ex, Hs1, total_bytes_app. change (total_bytes [dg]) with (#dg + 0). pose proof (total_bytes_nonneg (wire c)). unfold kMaxDatagramEstimate in *.
  rewrite u64_small; [lia|]. unfold u64_ok. lia.
Qed.

Lemma not_blocked c : amplification_blocked c = false -> peer_address_validated_ c = false ->
  u64 (sent_bytes_unvalidated_ c + kMaxDatagramEstimate) <= u64 (3 * recv_bytes_total_ c).
Proof. unfold amplification_blocked. intros H Hv. rewrite Hv in H. cbn [negb andb] in H. by apply Z.ltb_ge in H. Qed.

Lemma life_step_counted k c c' : k < 2 ^ 62 -> life_step c c' -> counted k c -> counted k c'.
Proof.
  intros Hk H Hc. pose proof (life_step_noted _ _ H (cn_close _ _ Hc)) as Hn. destruct H as [c c' H|e a w f c c' Hr H|c|c Hs|c|dg c Hr Hp Hb|f dg c Hr Hp]; pose proof Hc as [H1 H2 H3].
  - by eapply counted_same.
  - eapply counted_same; [exact H|]. split; [done|by intros ?|]. cbn. intros Hv Hw. destruct (H3 Hv Hw) as [Ha Hb]. split; [done|].
    unfold close_allowance in *. cbn. rewrite decide_False in Hb by lia. rewrite decide_False by (by intros [_ ?]). exact Hb.
  - split; [done|done|]. cbn. intros Hv Hw. destruct (H3 Hv Hw) as [? ?]. split; [done|]. etrans; [done|]. apply Z.add_le_mono_l.
    apply (allowance_mono c Draining). destruct (state_ c); cbn; lia.
  - split; [done|done|]. cbn. intros Hv Hw. destruct (H3 Hv Hw) as [? ?]. split; [done|]. etrans; [done|].
    apply Z.add_le_mono_l, (allowance_mono c Established). rewrite Hs. cbn. lia.
  - split; cbn; [done|done|done].
  - pose proof (counted_emit k dg c (close_allowance c) Hk Hc) as He. pose proof (sent_count_life dg c) as El. set (c' := send_datagram _ _) in *.
    assert (state_ c' = state_ c /\ pending_close_ c' = pending_close_ c /\ recv_bytes_total_ c' = recv_bytes_total_ c) as (Es & Ep & Er) by (unfold life in El; split_and!; congruence).
    split; [by rewrite Er|done|]. replace (close_allowance c') with (close_allowance c) by (unfold close_allowance; by rewrite Es, Ep).
    apply He; [|unfold close_allowance; case_decide; unfold kMaxDatagramEstimate; lia|done]. intros Hv Hw Hd. pose proof (not_blocked c Hb Hv) as Hb'. destruct (H3 Hv Hw) as [Hs1 Hs2].
    unfold small in Hd. pose proof (total_bytes_nonneg (wire c)). rewrite Hs1 in Hb'. unfold close_allowance in *. unfold kMaxDatagramEstimate in *.
    rewrite !u64_small in Hb'; unfold u64_ok; case_decide; lia.
  - destruct (decide (rank (state_ c) < 2)) as [Hlt|Hge]; [rewrite H2 in Hp by done; done|].
    assert (Ha : close_allowance c = 0) by (unfold close_allowance; rewrite decide_False; [done|rewrite Hp; by intros [_ ?]]).
    destruct dg as [dg|]; cbn [from_option].
    + pose proof (counted_emit k dg c kMaxDatagramEstimate Hk Hc) as He. pose proof (sent_count_life dg c) as El. set (c' := send_datagram _ _) in *.
      assert (state_ c' = state_ c /\ recv_bytes_total_ c' = recv_bytes_total_ c) as (Es & Er) by (unfold life in El; split_and!; congruence).
      clearbody c'. split; [cbn; by rewrite Er|done|]. unfold close_allowance. cbn. rewrite Es, decide_True by (split; [lia|done]). change (wire (set_pending_close None c')) with (wire c'). apply He; [|lia|done].
      intros Hv Hw Hd. destruct (H3 Hv Hw). unfold small in Hd. lia.
    + split; [done|done|]. cbn. unfold close_allowance. cbn. rewrite decide_True by (split; [lia|done]). intros Hv Hw. destruct (H3 Hv Hw). unfold kMaxDatagramEstimate. lia.
Qed.

(** The bytes of the datagrams among the events. *)
Definition received (es : list Event) : Z :=
  total_bytes (omap (fun e => match e with EvDatagram dg => Some dg | _ => None end) es).

Lemma arrive_counted k e c : k + received [e] < 2 ^ 62 -> counted k c -> counted (k + received [e]) (arrive e c).
Proof.
  intros Hk [H1 H2 H3]. assert (Hz : 0 <= received [e]) by apply total_bytes_nonneg.
  assert (Hc : counted (k + received [e]) c) by (split; [lia|done|done]).
  destruct e as [dg| | | | | | | |]; try exact Hc. cbn [arrive]. case_decide; [done|]. assert (Er : received [EvDatagram dg] = #dg) by (unfold received, total_bytes; cbn; lia). rewrite Er in *.
  assert (Eu : u64 (recv_bytes_total_ c + #dg) = recv_bytes_total_ c + #dg) by (apply u64_small; unfold u64_ok; lia). rewrite Eu.
  split; cbn; [lia|done|]. intros Hv Hw. destruct (H3 Hv Hw). split; [done|]. unfold close_allowance in *. cbn in *. lia.
Qed.

Lemma run_counted es : forall k c c', k + received es < 2 ^ 62 -> counted k c -> run_events clock es c = Some c' -> counted (k + received es) c'.
Proof.
  induction es as [|e es IH]; intros k c c' Hk Hc E; unfold run_events in E; cbn [for_each] in E.
  - injection E as <-. unfold received. cbn. by rewrite Z.add_0_r.
  - apply bind_Some in E as (c1 & E1 & E). assert (Er : received (e :: es) = received [e] + received es).
    { unfold received. rewrite <- total_bytes_app. by destruct e. }
    assert (0 <= received es) by apply total_bytes_nonneg. assert (0 <= received [e]) by apply total_bytes_nonneg.
    rewrite Er, Z.add_assoc in *. eapply IH; [done| |exact E]. apply run_event_any in E1. refine (steps_inv _ _ _ _ E1 _).
    + intros x y Ha. apply life_step_counted; [lia|by eapply atom_life].
    + apply arrive_counted; [lia|done].
Qed.

Lemma new_connection_counted t dc cs ss tp c : new_connection clock t dc cs ss tp = Some c -> counted 0 c /\ state_ c = Handshaking /\ scid_ c = ss /\ dcid_ c = cs.
Proof.
  unfold new_connection. cbv zeta. intros E. do 4 apply bind_Some in E as (? & _ & E). injection E as <-. split_and!; [|done..].
  split; cbn; [lia|done|]. intros _ _. split; [done|]. unfold close_allowance, total_bytes. cbn. rewrite decide_False by lia. lia.
Qed.

(** C8: A connection only moves forwards.  Whatever happens to it, its
    connection ids stay the ones it was created with, its state never goes
    back (in particular it never becomes handshaking again), what was sent
    stays sent, the first reason for closing is the one reported and it is
    reported at most once, and a draining connection stays draining and sends
    nothing. *)
Theorem connection_lifecycle t dc cs ss tp c0 es es' c1 c2 :
  new_connection clock t dc cs ss tp = Some c0 -> run_events clock es c0 = Some c1 -> run_events clock es' c1 = Some c2 ->
  (scid_ c2 = ss /\ dcid_ c2 = cs /\ state_ c2 <> Closed /\ rank (state_ c1) <= rank (state_ c2) /\ wire c1 `prefix_of` wire c2) /\
  (state_ c1 = Draining -> state_ c2 = Draining /\ wire c2 = wire c1) /\
  (forall f, pending_close_ c1 = Some f -> pending_close_ c2 = Some f \/ pending_close_ c2 = None) /\
  (state_ c1 = Closing -> pending_close_ c1 = None -> pending_close_ c2 = None).
Proof.
  intros Hn H1 H2. destruct (new_connection_counted _ _ _ _ _ _ Hn) as (Hc & Hs & Hss & Hcs).
  pose proof (run_events_evolves _ _ _ H1) as E1. pose proof (run_events_evolves _ _ _ H2) as E2. assert (E12 : evolves c0 c2) by by etrans.
  pose proof (ev_ident _ _ E12) as Ei. pose proof (ev_open _ _ E12) as Eo. pose proof (ev_rank _ _ E2) as Er. unfold ident in Ei. rewrite Hs in Eo.
  assert (Hrank : pending_close_ c1 <> None -> 2 <= rank (state_ c1)).
  { intros Hp. destruct (decide (rank (state_ c1) < 2)) as [Hlt|]; [|lia]. exfalso. apply Hp. revert Hlt.
    refine (for_each_inv _ noted _ _ _ _ _ H1); [|apply Hc].
    intros s e s' Hs' E. refine (steps_inv noted _ _ _ (run_event_any _ _ _ _ E) _); [intros x y Ha; by eapply life_step_noted, atom_life|].
    destruct e; try exact Hs'. cbn [arrive]. by case_decide. }
  split; [|split; [|split]]; [split; [congruence|split; [congruence|split; [by apply Eo|split; [done|apply E2]]]]|..].
  - intros Hd. split; [|by apply E2; rewrite Hd]. rewrite Hd in Er. cbn in Er. specialize (Eo ltac:(done)). destruct (state_ c2); cbn in Er; try lia; done.
  - intros f Hf. rewrite <- Hf. apply E2, Hrank. by rewrite Hf.
  - intros Hcl Hp. destruct (ev_reason _ _ E2) as [->| ->]; [rewrite Hcl; cbn; lia|done|done].
Qed.

(** C7: Anti-amplification.  As long as the peer's address is not validated
    (and the datagrams the connection builds keep to the size its sending path
    assumes), everything it has sent amounts to at most three times the bytes
    it received, one CONNECTION_CLOSE packet apart. *)
Theorem amplification_limited t dc cs ss tp c0 es c :
  new_connection clock t dc cs ss tp = Some c0 -> run_events clock es c0 = Some c -> received es < 2 ^ 62 ->
  peer_address_validated_ c = false -> Forall small (wire c) ->
  total_bytes (wire c) <= 3 * received es + (if decide (rank (state_ c) < 2) then 0 else kMaxDatagramEstimate).
Proof.
  intros Hn Hr Hk Hv Hw. destruct (new_connection_counted _ _ _ _ _ _ Hn) as (Hc & _).
  destruct (run_counted es 0 c0 c Hk Hc Hr) as [H1 H2 H3]. destruct (H3 Hv Hw) as [_ H4]. unfold close_allowance in H4.
  repeat case_decide; unfold kMaxDatagramEstimate in *; lia.
Qed.
End Life.

(** ** Examples *)

(** The application closes an established connection, the close is sent, and
    the peer answers with something that cannot be opened. *)
Definition life_events : list Event := [EvTimer; EvTimer; EvSettle; EvValidated; EvClose 5 true [66; 121; 101] 0].
Definition life_events' : list Event := [EvSend LApplication; EvDatagram [64; 1; 2; 3]; EvClose 6 true [] 0; EvSend LApplication].

Lemma life_runs : exists c0 c1 c2, @new_connection nat toy_lib demo_clock 0%nat [9; 9] [8; 8] [7; 7; 7] demo_tp = Some c0 /\
  @run_events nat demo_tls toy_lib demo_clock life_events c0 = Some c1 /\ @run_events nat demo_tls toy_lib demo_clock life_events' c1 = Some c2.
Proof.
  destruct (bind_steps (@new_connection nat toy_lib demo_clock 0%nat [9; 9] [8; 8] [7; 7; 7] demo_tp)
    (fun c0 => c1 ← @run_events nat demo_tls toy_lib demo_clock life_events c0; @run_events nat demo_tls toy_lib demo_clock life_events' c1)) as (c0 & c2 & E0 & E);
    [vm_compute; reflexivity|].
  apply bind_Some in E as (c1 & E1 & E2). exists c0, c1, c2. split; [exact E0|]. split; [exact E1|exact E2].
Qed.

Lemma connection_lifecycle_witness : exists c1 c2, @run_events nat demo_tls toy_lib demo_clock life_events' c1 = Some c2 /\
  scid_ c2 = [7; 7; 7] /\ state_ c2 <> Closed /\ wire c1 `prefix_of` wire c2.
Proof.
  destruct life_runs as (c0 & c1 & c2 & E0 & E1 & E2).
  destruct (@connection_lifecycle nat demo_tls toy_lib demo_clock 0%nat [9; 9] [8; 8] [7; 7; 7] demo_tp c0 life_events life_events' c1 c2 E0 E1 E2)
    as [(H1 & _ & H2 & _ & H3) _].
  exists c1, c2. split; [exact E2|]. split; [exact H1|]. split; [exact H2|exact H3].
Defined.

(** 600 bytes arrive, the handshake completes, HANDSHAKE_DONE is sent. *)
Definition amp_events : list Event := [EvDatagram (64 :: replicate 599 0); EvTimer; EvTimer; EvSend LApplication].

Global Instance small_dec dg : Decision (small dg).
Proof. unfold small. apply _. Defined.

Definition amp_sizes (c : Conn (T := nat)) : option (list nat) :=
  if peer_address_validated_ c then None else if bool_decide (Forall small (wire c)) then Some (length <$> wire c) else None.

Lemma amp_runs : exists c0 c, @new_connection nat toy_lib demo_clock 0%nat [9; 9] [8; 8] [7; 7; 7] demo_tp = Some c0 /\
  @run_events nat demo_tls toy_lib demo_clock amp_events c0 = Some c /\ amp_sizes c = Some [24%nat].
Proof.
  assert (E : (c0 ← @new_connection nat toy_lib demo_clock 0%nat [9; 9] [8; 8] [7; 7; 7] demo_tp;
    c ← @run_events nat demo_tls toy_lib demo_clock amp_events c0; amp_sizes c) = Some [24%nat]) by (vm_compute; reflexivity).
  apply bind_Some in E as (c0 & E0 & E). apply bind_Some in E as (c & E1 & E2). exists c0, c. split; [exact E0|]. split; [exact E1|exact E2].
Qed.

Lemma amplification_limited_witness : exists c, amp_sizes c = Some [24%nat] /\
  total_bytes (wire c) <= 3 * 600 + (if decide (rank (state_ c) < 2) then 0 else kMaxDatagramEstimate).
Proof.
  destruct amp_runs as (c0 & c & E0 & E1 & E2). exists c. split; [exact E2|].
  apply (@amplification_limited nat demo_tls toy_lib demo_clock 0%nat [9; 9] [8; 8] [7; 7; 7] demo_tp c0 amp_events c E0 E1); [vm_compute; reflexivity| |].
  - unfold amp_sizes in E2. by destruct (peer_address_validated_ c).
  - unfold amp_sizes in E2. destruct (peer_address_validated_ c); [discriminate|]. by destruct (bool_decide_reflect (Forall small (wire c))).
Defined.

(** The CONNECTION_CLOSE is not the last packet: in the same run the closing
    connection goes on to send HANDSHAKE_DONE. *)
Theorem closing_still_sends :
  (c0 ← @new_connection nat toy_lib demo_clock 0%nat [9; 9] [8; 8] [7; 7; 7] demo_tp;
   c ← @run_events nat demo_tls toy_lib demo_clock (life_events ++ life_events') c0; Some (state_ c, pending_close_ c, length <$> wire c))
  = Some (Closing, None, [29%nat; 24%nat]).
Proof. vm_compute. reflexivity. Qed.
