(* ===== verification/Listener.v ===== *)
(** * QUIC listener

    Model of [Listener] (example/quic-http3/src/quic/listener.cpp, .hpp): the
    stateless packets (Version Negotiation, Retry), the random connection ids,
    the Retry tokens that carry a client's address through a round trip, and
    the routing of datagrams to connections.

    [sent] is what was handed to [send_fn_].  Each connection has a clock and
    a TLS engine of its own, given by the order of creation.  A connection's
    [send_fn_] looks up its own entry and sends to the address stored there,
    which does not change during a call: what a connection sent is passed on
    to that address when its operation returns. *)
From S2P Require Import Prelude VarInt ByteMap QuicPacket QuicCrypto QuicFrame TransportParams QuicConn.

Local Open Scope Z_scope.

(** ** Stateless packets *)

Definition kRetryIntegrityKeyV1 : bytes :=
  [0xbe; 0x0c; 0x69; 0x0b; 0x9f; 0x66; 0x57; 0x5a; 0x1d; 0x76; 0x6b; 0x54; 0xe3; 0x68; 0xc8; 0x4e].

Definition kRetryIntegrityNonceV1 : bytes :=
  [0x46; 0x15; 0x99; 0xd3; 0x5d; 0x63; 0x2b; 0xf2; 0x23; 0x98; 0x25; 0xbb].

Definition retry_pseudo (original_dcid retry_packet_without_tag : bytes) : bytes :=
  u8 (#original_dcid) :: original_dcid ++ retry_packet_without_tag.

Definition compute_retry_integrity_tag `{CryptoLib} (original_dcid retry_packet_without_tag : bytes) : option bytes :=
  sealed ← lib_seal Aes128Gcm kRetryIntegrityKeyV1 kRetryIntegrityNonceV1 (retry_pseudo original_dcid retry_packet_without_tag) [];
  if negb (length sealed =? 16)%nat then None else Some sealed.

Definition retry_header (client_scid server_scid : bytes) : bytes :=
  [u8 (0x80 .| 0x40 .| u8 (type_code Retry .<< 4) .| 0x0F);
   u8 (kQuicV1 .>> 24); u8 (kQuicV1 .>> 16); u8 (kQuicV1 .>> 8); u8 kQuicV1] ++
  u8 (#client_scid) :: client_scid ++ u8 (#server_scid) :: server_scid.

(** [None] is the [std::runtime_error]. *)
Definition build_retry_packet `{CryptoLib} (client_scid server_scid token odcid : bytes) : option bytes :=
  let pkt := retry_header client_scid server_scid ++ token in
  tag ← compute_retry_integrity_tag odcid pkt;
  Some (pkt ++ tag).

Definition build_version_negotiation_packet (client_dcid_echo client_scid_echo supported_versions_be : bytes) : bytes :=
  [0xC0; 0; 0; 0; 0] ++ u8 (#client_dcid_echo) :: client_dcid_echo ++ u8 (#client_scid_echo) :: client_scid_echo
  ++ supported_versions_be.

(** ** Peers *)

Inductive AddressFamily := AF_INET | AF_INET6 | AF_OTHER.

Global Instance AddressFamily_eq_dec : EqDecision AddressFamily.
Proof. solve_decision. Defined.

(** A [sockaddr_storage] through the two views the listener takes of it; a
    port is the number its two bytes in network order spell in the host's
    order. *)
Record PeerAddr := mkPeer {
  peer_length : Z; ss_family : AddressFamily;
  sin_addr : bytes; sin_port : Z; sin6_addr : bytes; sin6_port : Z }.

Definition sizeof_sockaddr_in : Z := 16.
Definition sizeof_sockaddr_in6 : Z := 28.

Definition encode_peer_addr (peer : PeerAddr) : option bytes :=
  if (sizeof_sockaddr_in <=? peer_length peer) && bool_decide (ss_family peer = AF_INET) then
    Some (sin_addr peer ++ [u8 (sin_port peer .& 0xFF); u8 ((sin_port peer .>> 8) .& 0xFF)])
  else if (sizeof_sockaddr_in6 <=? peer_length peer) && bool_decide (ss_family peer = AF_INET6) then
    Some (sin6_addr peer ++ [u8 (sin6_port peer .& 0xFF); u8 ((sin6_port peer .>> 8) .& 0xFF)])
  else None.

(** ** Random bytes *)

Definition xorshift (s : Z) : Z :=
  let s := s .^ u64 (s .<< 13) in
  let s := s .^ (s .>> 7) in
  s .^ u64 (s .<< 17).

Fixpoint random_bytes (n : nat) (s : Z) : bytes * Z :=
  match n with
  | O => ([], s)
  | S n => let s := xorshift s in
           let '(l, s') := random_bytes n s in (u8 (s .& 0xFF) :: l, s')
  end.

(** ** State *)

Record Config := mkConfig {
  server_tp : TransportParameters; server_cid_length : nat; require_retry : bool; random_seed : Z }.

Section Listener.
Context {T : Type} {tls : Tls T} {lib : CryptoLib}.

Record ConnState := mkConnState { conn : Conn (T := T); last_peer : PeerAddr; serial : nat }.

Record Listener := mkListener {
  cfg_ : Config;
  connections_ : list (bytes * ConnState);
  connections_aliases_ : list (bytes * bytes);
  token_key_ : bytes;
  prng_state_ : Z;
  created : nat;
  sent : list (PeerAddr * bytes) }.

Definition eta_Listener (l : Listener) : Listener :=
  mkListener (cfg_ l) (connections_ l) (connections_aliases_ l) (token_key_ l) (prng_state_ l) (created l) (sent l).

Definition set_connections (v : list (bytes * ConnState)) (l : Listener) : Listener := ltac:(with_field eta_Listener l connections_ v).
Definition set_aliases (v : list (bytes * bytes)) (l : Listener) : Listener := ltac:(with_field eta_Listener l connections_aliases_ v).
Definition set_prng_state (v : Z) (l : Listener) : Listener := ltac:(with_field eta_Listener l prng_state_ v).
Definition set_created (v : nat) (l : Listener) : Listener := ltac:(with_field eta_Listener l created v).
Definition set_sent_to (v : list (PeerAddr * bytes)) (l : Listener) : Listener := ltac:(with_field eta_Listener l sent v).

(** [auto_seed] is what the constructor mixes from [std::random_device] and
    its own address. *)
Definition new_listener (cfg : Config) (auto_seed : Z) : Listener :=
  let cfg := if (server_cid_length cfg =? 0)%nat || (kMaxConnectionIdLen <? server_cid_length cfg)%nat
             then mkConfig (server_tp cfg) 8 (require_retry cfg) (random_seed cfg) else cfg in
  let prng := if negb (random_seed cfg =? 0) then random_seed cfg else auto_seed in
  mkListener cfg [] [] (random_bytes 32 prng).1 prng 0 [].

Definition send_fn (peer : PeerAddr) (dg : bytes) (l : Listener) : Listener := set_sent_to (sent l ++ [(peer, dg)]) l.

Definition new_random_cid (l : Listener) : bytes * Listener :=
  let '(out, s) := random_bytes (server_cid_length (cfg_ l)) (prng_state_ l) in
  (out, set_prng_state s l).

(** ** Retry tokens *)

Definition kNonceLen : nat := 16.
Definition kMacLen : nat := 16.

(** The bytes under the MAC. *)
Definition token_body (nonce addr odcid : bytes) : bytes :=
  nonce ++ u8 (#addr) :: addr ++ u8 (#odcid) :: odcid.

(** The empty token when the address cannot be encoded; [None] when the MAC
    is shorter than what is taken of it. *)
Definition make_retry_token (odcid : bytes) (peer : PeerAddr) (l : Listener) : option (bytes * Listener) :=
  let '(nonce, s) := random_bytes kNonceLen (prng_state_ l) in
  let l := set_prng_state s l in
  match encode_peer_addr peer with
  | None => Some ([], l)
  | Some addr =>
      let body := token_body nonce addr odcid in
      let mac := hkdf_extract Sha256 (token_key_ l) body in
      if (length mac <? kMacLen)%nat then None else Some (body ++ take kMacLen mac, l)
  end.

(** [diff |= mac[i] ^ token_mac[i]] over the bytes of the token's MAC. *)
Definition mac_diff (mac token_mac : bytes) : Z := foldl Z.lor 0 (zip_with (fun a b => u8 (a .^ b)) (take kMacLen mac) token_mac).

(** The address the token was made for and its length field, the connection
    id, and the number of bytes under the MAC; [None] is [return false]. *)
Definition parse_token (token : bytes) : option (bytes * bytes * nat) :=
  if (length token <? kNonceLen + 1 + kMacLen)%nat then None else
  addr_len ← Z.to_nat <$> token !! kNonceLen;
  let off := (kNonceLen + 1)%nat in
  if (length token <? off + addr_len + 1)%nat then None else
  let token_addr := take addr_len (drop off token) in
  let off := (off + addr_len)%nat in
  odcid_len ← Z.to_nat <$> token !! off;
  let off := (off + 1)%nat in
  if (kMaxConnectionIdLen <? odcid_len)%nat then None else
  if negb (off + odcid_len + kMacLen =? length token)%nat then None else
  Some (token_addr, take odcid_len (drop off token), (kNonceLen + 1 + addr_len + 1 + odcid_len)%nat).

(** The connection id of an acceptable token.  [None] is a read behind the
    MAC, [Some None] is [return false]. *)
Definition validate_retry_token (token : bytes) (peer : PeerAddr) (l : Listener) : option (option bytes) :=
  match parse_token token with
  | None => Some None
  | Some (token_addr, token_odcid, n) =>
      let mac := hkdf_extract Sha256 (token_key_ l) (take n token) in
      if (length mac <? kMacLen)%nat then None else
      if negb (mac_diff mac (take kMacLen (drop n token)) =? 0) then Some None else
      Some (current_addr ← encode_peer_addr peer;
            if bool_decide (current_addr = token_addr) then Some token_odcid else None)
  end.

(** ** Routing *)

Definition peek_long (dg : bytes) : option (Z * bytes * bytes) :=
  if (length dg <? 7)%nat then None else
  first ← dg !! 0%nat;
  if first .& 0x80 =? 0 then None else
  let version := be_fold 0 (take 4 (drop 1 dg)) in
  dlen ← Z.to_nat <$> dg !! 5%nat;
  let off := 6%nat in
  if (length dg <? off + dlen + 1)%nat || (kMaxConnectionIdLen <? dlen)%nat then None else
  let dcid := take dlen (drop off dg) in
  let off := (off + dlen)%nat in
  slen ← Z.to_nat <$> dg !! off;
  let off := (off + 1)%nat in
  if (length dg <? off + slen)%nat || (kMaxConnectionIdLen <? slen)%nat then None else
  Some (version, dcid, take slen (drop off dg)).

Context (clock : nat -> nat -> Z) (tls_new : nat -> bytes -> TransportParameters -> T) (fuel : nat).

(** Storing a connection behind an operation and sending what it produced. *)
Definition put_back (k : bytes) (st : ConnState) (c : Conn) (l : Listener) : Listener :=
  let l := set_sent_to (sent l ++ ((fun dg => (last_peer st, dg)) <$> wire c)) l in
  set_connections (bm_insert k (mkConnState (set_wire [] c) (last_peer st) (serial st)) (connections_ l)) l.

(** [conn->on_datagram(dg); conn->on_timer();] *)
Definition feed (k : bytes) (st : ConnState) (dg : bytes) (l : Listener) : option Listener :=
  c ← QuicConn.on_datagram (clock (serial st)) dg (conn st);
  c ← QuicConn.on_timer (clock (serial st)) fuel c;
  Some (put_back k st c l).

(** A datagram for the existing connection [k]. *)
Definition deliver_to (k : bytes) (st : ConnState) (peer : PeerAddr) (dg : bytes) (l : Listener) : option Listener :=
  let st := if bool_decide (state_ (conn st) = Handshaking) then mkConnState (conn st) peer (serial st) else st in
  feed k st dg l.

Definition with_cids (od_cid : bytes) (retry_scid : option bytes) (tp : TransportParameters) : TransportParameters :=
  mkTp (Some od_cid) (initial_source_connection_id tp)
    (match retry_scid with Some s => Some s | None => retry_source_connection_id tp end)
    (stateless_reset_token tp) (max_idle_timeout_ms tp) (max_udp_payload_size tp)
    (initial_max_data tp) (initial_max_stream_data_bidi_local tp) (initial_max_stream_data_bidi_remote tp)
    (initial_max_stream_data_uni tp) (initial_max_streams_bidi tp) (initial_max_streams_uni tp)
    (ack_delay_exponent tp) (max_ack_delay_ms tp) (active_connection_id_limit tp)
    (disable_active_migration tp) (unknown tp).

(** Creating the connection for the Initial [dg]; [odcid] is what a valid
    Retry token carried.  [None] when the connection id is taken: [emplace]
    then destroys the new connection, and the pointer used next dangles. *)
Definition open_connection (dcid scid : bytes) (odcid : option bytes) (peer : PeerAddr) (dg : bytes) (l : Listener) : option Listener :=
  let '(server_scid, l) := match odcid with Some _ => (dcid, l) | None => new_random_cid l end in
  let retry_scid := match odcid with Some _ => if (length dcid =? 0)%nat then None else Some dcid | None => None end in
  let tp := with_cids (default dcid odcid) retry_scid (server_tp (cfg_ l)) in
  let n := created l in
  c ← new_connection (clock n) (tls_new n dcid (finalize_tp tp dcid server_scid)) dcid scid server_scid tp;
  let c := match odcid with Some _ => mark_peer_address_validated c | None => c end in
  let st := mkConnState c peer n in
  let l := set_created (S n) (set_aliases (bm_insert dcid server_scid (connections_aliases_ l)) l) in
  match bm_find server_scid (connections_ l) with
  | Some _ => None
  | None => feed server_scid st dg (set_connections (bm_insert server_scid st (connections_ l)) l)
  end.

(** The first Initial of a client that has no token. *)
Definition send_retry (dcid scid : bytes) (peer : PeerAddr) (l : Listener) : option Listener :=
  let '(retry_scid, l) := new_random_cid l in
  '(token, l) ← make_retry_token dcid peer l;
  if (length token =? 0)%nat then Some l else
  retry ← build_retry_packet scid retry_scid token dcid;
  Some (send_fn peer retry l).

(** A long-header packet that belongs to no connection. *)
Definition on_new_peer (dcid scid : bytes) (peer : PeerAddr) (dg : bytes) (l : Listener) : option Listener :=
  if negb (u8 ((default 0 (dg !! 0%nat) .>> 4) .& 0x03) =? type_code Initial) then Some l else
  match parse_long_header dg 0 [] with
  | None => Some l
  | Some (full, _) =>
      if negb (bool_decide (type full = Initial)) then Some l else
      if require_retry (cfg_ l) then
        if (length (token full) =? 0)%nat then send_retry dcid scid peer l
        else
          r ← validate_retry_token (token full) peer l;
          match r with
          | None => Some l
          | Some odcid => open_connection dcid scid (Some odcid) peer dg l
          end
      else open_connection dcid scid None peer dg l
  end.

(** The connection a long-header packet is for: by its own id, else by the
    alias of the id the client chose. *)
Definition lookup_long (dcid : bytes) (l : Listener) : option (bytes * ConnState) :=
  match bm_find dcid (connections_ l) with
  | Some st => Some (dcid, st)
  | None => k ← bm_find dcid (connections_aliases_ l); st ← bm_find k (connections_ l); Some (k, st)
  end.

Definition on_long (peer : PeerAddr) (dg : bytes) (l : Listener) : option Listener :=
  match peek_long dg with
  | None => Some l
  | Some (version, dcid, scid) =>
      if negb (version =? kQuicV1) then
        Some (send_fn peer (build_version_negotiation_packet dcid scid [0x00; 0x00; 0x00; 0x01]) l)
      else
        match lookup_long dcid l with
        | Some (k, st) => deliver_to k st peer dg l
        | None => on_new_peer dcid scid peer dg l
        end
  end.

Definition on_short (peer : PeerAddr) (dg : bytes) (l : Listener) : option Listener :=
  if (length dg <? 1 + server_cid_length (cfg_ l))%nat then Some l else
  let dcid := take (server_cid_length (cfg_ l)) (drop 1 dg) in
  match bm_find dcid (connections_ l) with
  | None => Some l
  | Some st => deliver_to dcid st peer dg l
  end.

Definition on_datagram (peer : PeerAddr) (dg : bytes) (l : Listener) : option Listener :=
  match dg with
  | [] => Some l
  | first :: _ => if negb (first .& 0x80 =? 0) then on_long peer dg l else on_short peer dg l
  end.

Definition on_timer (l : Listener) : option Listener :=
  for_each (fun l '(k, st) => c ← QuicConn.on_timer (clock (serial st)) fuel (conn st); Some (put_back k st c l)) (connections_ l) l.

Definition connection_count (l : Listener) : nat := length (connections_ l).

Definition find_connection (scid : bytes) (l : Listener) : option Conn := conn <$> bm_find scid (connections_ l).

Definition peer_for (scid : bytes) (l : Listener) : option PeerAddr := last_peer <$> bm_find scid (connections_ l).

(** What the application does to a connection it found ([write_stream],
    [read_stream], [close_with_error]). *)
Definition use_connection (k : bytes) (f : Conn -> Conn) (l : Listener) : Listener :=
  match bm_find k (connections_ l) with
  | None => l
  | Some st => put_back k st (f (conn st)) l
  end.
End Listener.

(** ** Retry tokens: exactly the listener's own, for the address at hand *)

Definition peer_ok (p : PeerAddr) : Prop :=
  length (sin_addr p) = 4%nat /\ length (sin6_addr p) = 16%nat /\ bytes_ok (sin_addr p) /\ bytes_ok (sin6_addr p) /\
  0 <= sin_port p < 2 ^ 16 /\ 0 <= sin6_port p < 2 ^ 16.

(** The address a peer is reached at: family, host and port. *)
Definition peer_address (p : PeerAddr) : option (AddressFamily * bytes * Z) :=
  match ss_family p with
  | AF_INET => if sizeof_sockaddr_in <=? peer_length p then Some (AF_INET, sin_addr p, sin_port p) else None
  | AF_INET6 => if sizeof_sockaddr_in6 <=? peer_length p then Some (AF_INET6, sin6_addr p, sin6_port p) else None
  | AF_OTHER => None
  end.

Lemma encode_peer_cases p : encode_peer_addr p =
  '(_, a, port) ← peer_address p; Some (a ++ [u8 (port .& 0xFF); u8 ((port .>> 8) .& 0xFF)]).
Proof.
  unfold encode_peer_addr, peer_address. destruct (ss_family p).
  - rewrite (bool_decide_eq_true_2 (AF_INET = AF_INET)) by done. rewrite (bool_decide_eq_false_2 (AF_INET = AF_INET6)) by done.
    rewrite andb_true_r, andb_false_r. by destruct (_ <=? _).
  - rewrite (bool_decide_eq_true_2 (AF_INET6 = AF_INET6)) by done. rewrite (bool_decide_eq_false_2 (AF_INET6 = AF_INET)) by done.
    rewrite andb_true_r, andb_false_r. by destruct (sizeof_sockaddr_in6 <=? _).
  - rewrite !bool_decide_eq_false_2 by done. by rewrite !andb_false_r.
Qed.

Lemma port_bytes_inj a b : 0 <= a < 2 ^ 16 -> 0 <= b < 2 ^ 16 ->
  u8 (a .& 0xFF) = u8 (b .& 0xFF) -> u8 ((a .>> 8) .& 0xFF) = u8 ((b .>> 8) .& 0xFF) -> a = b.
Proof.
  intros Ha Hb. rewrite !u8_land255, !(land_mask _ 8 255), !shr_div by (lia || done). change (2 ^ 8) with 256. change (2 ^ 16) with 65536 in *.
  intros. Z.div_mod_to_equations. lia.
Qed.

(** Encoded addresses are equal only for the same family, host and port. *)
Lemma encode_peer_inj p q addr : peer_ok p -> peer_ok q -> encode_peer_addr p = Some addr -> encode_peer_addr q = Some addr ->
  peer_address p = peer_address q.
Proof.
  rewrite !encode_peer_cases. intros (Hp4 & Hp6 & _ & _ & Hpp & Hpp6) (Hq4 & Hq6 & _ & _ & Hqp & Hqp6). unfold peer_address.
  destruct (ss_family p), (ss_family q); try done; repeat (destruct (_ <=? _); cbn [mbind option_bind]; [|done]); intros [= <-] [= E].
  all: try (apply (f_equal length) in E; rewrite !length_app in E; cbn in E; lia).
  all: apply app_inj_1 in E as [-> E]; [|congruence]; injection E as E1 E2.
  - by rewrite (port_bytes_inj (sin_port q) (sin_port p)).
  - by rewrite (port_bytes_inj (sin6_port q) (sin6_port p)).
Qed.

Lemma encode_peer_length p addr : peer_ok p -> encode_peer_addr p = Some addr -> (length addr <= 18)%nat /\ bytes_ok addr.
Proof.
  rewrite encode_peer_cases. intros (Hp4 & Hp6 & Hb4 & Hb6 & _). unfold peer_address. destruct (ss_family p); try done;
    (destruct (_ <=? _); cbn [mbind option_bind]; [|done]); intros [= <-]; rewrite length_app; cbn; (split; [lia|]);
    apply Forall_app; (split; [done|]); repeat constructor; apply u8_range.
Qed.

Lemma lor_all_zero l : forall a, foldl Z.lor a l = 0 <-> a = 0 /\ Forall (fun x => x = 0) l.
Proof.
  induction l as [|x l IH]; intros a; cbn [foldl]; [split; [by intros ->|by intros [-> _]]|].
  rewrite IH, Z.lor_eq_0_iff, Forall_cons. tauto.
Qed.

(** The comparison loop accepts exactly the equal MACs. *)
Lemma mac_diff_zero mac tm : bytes_ok mac -> bytes_ok tm -> length (take kMacLen mac) = length tm ->
  mac_diff mac tm = 0 <-> take kMacLen mac = tm.
Proof.
  intros Hm Ht Hl. unfold mac_diff. rewrite lor_all_zero. assert (Hm' : bytes_ok (take kMacLen mac)) by by apply Forall_take.
  revert Hm' Hl. generalize (take kMacLen mac). clear Hm mac. induction Ht as [|b tm Hb Ht IH]; intros [|a m] Hm Hl; try done.
  inversion Hm as [|? ? Ha Hm']; subst. cbn [zip_with]. rewrite Forall_cons. injection Hl as Hl. specialize (IH m Hm' Hl).
  rewrite u8_small by by apply lxor_byte. split.
  - intros (_ & E%Z.lxor_eq & Hf). subst. f_equal. by apply IH.
  - intros [= -> ->]. rewrite Z.lxor_nilpotent. split; [done|]. split; [done|]. by apply IH.
Qed.

Lemma token_parse_built nonce addr odcid mac : length nonce = kNonceLen -> (length addr <= 255)%nat -> (length odcid <= kMaxConnectionIdLen)%nat ->
  length mac = kMacLen -> parse_token (token_body nonce addr odcid ++ mac) = Some (addr, odcid, length (token_body nonce addr odcid)).
Proof.
  intros Hn Ha Ho Hm. set (token := token_body nonce addr odcid ++ mac).
  assert (Ht : token = nonce ++ #addr :: addr ++ #odcid :: odcid ++ mac).
  { unfold token, token_body. rewrite !u8_small by (unfold byte_ok, kMaxConnectionIdLen in *; lia). by rewrite <- !app_assoc, <- app_comm_cons, <- !app_assoc. }
  assert (Hl : length token = (kNonceLen + 1 + length addr + 1 + length odcid + kMacLen)%nat).
  { rewrite Ht. rewrite !length_app. cbn [length]. rewrite !length_app. cbn [length]. rewrite !length_app. lia. }
  pose proof (at_cursor_start nonce (#addr :: addr ++ #odcid :: odcid ++ mac)) as C0. rewrite <- Ht, Hn in C0. apply at_cursor_cons in C0 as (L0 & C1 & _).
  pose proof (at_cursor_app _ _ _ _ C1) as C2. apply at_cursor_cons in C2 as (L2 & C3 & _).
  unfold parse_token. rewrite Hl, L0. cbn [fmap option_fmap option_map mbind option_bind]. rewrite Nat2Z.id, L2. cbn [fmap option_fmap option_map mbind option_bind].
  rewrite Nat2Z.id. rewrite !(proj2 (Nat.ltb_ge _ _)) by (unfold kMaxConnectionIdLen in *; lia).
  rewrite (proj2 (Nat.eqb_eq _ _)) by lia. cbn [negb]. f_equal. repeat f_equal.
  - by apply (take_at token _ addr _ (length addr) C1).
  - by apply (take_at token _ odcid _ (length odcid) C3).
  - unfold token_body. rewrite !length_app. cbn [length]. rewrite !length_app. cbn [length]. lia.
Qed.

Lemma token_parse_inv token addr odcid n : bytes_ok token -> parse_token token = Some (addr, odcid, n) ->
  exists nonce mac, length nonce = kNonceLen /\ length mac = kMacLen /\ (length odcid <= kMaxConnectionIdLen)%nat /\
    token = token_body nonce addr odcid ++ mac /\ n = length (token_body nonce addr odcid).
Proof.
  intros Hb E. unfold parse_token in E. destruct (Nat.ltb_spec (length token) (kNonceLen + 1 + kMacLen)) as [|Hl]; [done|].
  apply bind_Some in E as (al & Ea & E). apply fmap_Some in Ea as (a & Ea & ->). cbv zeta in E.
  destruct (Nat.ltb_spec (length token) (kNonceLen + 1 + Z.to_nat a + 1)) as [|Hl2]; [done|].
  apply bind_Some in E as (ol & Eo & E). apply fmap_Some in Eo as (o & Eo & ->). 
  destruct (Nat.ltb_spec kMaxConnectionIdLen (Z.to_nat o)) as [|Ho]; [done|]. destruct (Nat.eqb_spec (kNonceLen + 1 + Z.to_nat a + 1 + Z.to_nat o + kMacLen) (length token)) as [Hl3|]; [|done].
  cbn [negb] in E. apply (inj Some) in E. apply pair_equal_spec in E as [E <-]. apply pair_equal_spec in E as [<- <-]. pose proof (proj1 (Forall_lookup _ _) Hb _ _ Ea) as Ra. pose proof (proj1 (Forall_lookup _ _) Hb _ _ Eo) as Ro. unfold byte_ok in *.
  set (ad := take (Z.to_nat a) (drop (kNonceLen + 1) token)). set (od := take (Z.to_nat o) (drop (kNonceLen + 1 + Z.to_nat a + 1) token)).
  assert (Lad : length ad = Z.to_nat a) by (unfold ad; rewrite length_take, length_drop; lia).
  assert (Lod : length od = Z.to_nat o) by (unfold od; rewrite length_take, length_drop; lia).
  exists (take kNonceLen token), (drop (kNonceLen + 1 + Z.to_nat a + 1 + Z.to_nat o) token).
  assert (Hlen : length (take kNonceLen token) = kNonceLen) by (rewrite length_take; lia).
  split; [done|]. split; [rewrite length_drop; lia|]. split; [lia|]. split.
  - unfold token_body. rewrite Lad, Lod, !Z2Nat.id, !u8_small by (unfold byte_ok; lia). rewrite <- !app_assoc, <- app_comm_cons, <- !app_assoc, <- app_comm_cons.
    rewrite <- (take_drop kNonceLen token) at 1. f_equal. rewrite (drop_S token a kNonceLen Ea). f_equal. replace (S kNonceLen) with (kNonceLen + 1)%nat by lia.
    rewrite <- (take_drop (Z.to_nat a) (drop (kNonceLen + 1) token)) at 1. f_equal. rewrite drop_drop, (drop_S token o _ Eo). f_equal.
    replace (S (kNonceLen + 1 + Z.to_nat a)) with (kNonceLen + 1 + Z.to_nat a + 1)%nat by lia.
    rewrite <- (take_drop (Z.to_nat o) (drop _ token)) at 1. f_equal. by rewrite drop_drop.
  - unfold token_body. rewrite !length_app. cbn [length]. rewrite length_app. cbn [length]. lia.
Qed.

(** HMAC-SHA-256 and HMAC-SHA-384 return as many bytes as their digest has. *)
Class MacLaws `{CryptoLib} : Prop := {
  mac_length : forall h k d, length (hkdf_extract h k d) = hash_length h;
  mac_bytes : forall h k d, bytes_ok (hkdf_extract h k d) }.

Lemma toy_mac_laws : @MacLaws toy_lib.
Proof.
  split; intros h k d; cbn; unfold toy_digest; [by rewrite length_replicate|]. apply Forall_replicate.
  generalize (k ++ d). assert (Hf : forall l a, byte_ok a -> byte_ok (foldl Z.lxor a (map u8 l))).
  { induction l as [|x l IH]; intros a Ha; cbn; [done|]. apply IH, lxor_byte; [done|apply u8_range]. }
  intros l. apply Hf. unfold byte_ok. lia.
Qed.

Section Tokens.
Context {T : Type} {lib : CryptoLib} {mac_laws : MacLaws}.
Implicit Types l : Listener (T := T).

(** The token for [odcid] and an encoded address, with the given nonce. *)
Definition token_of (key nonce addr odcid : bytes) : bytes :=
  let body := token_body nonce addr odcid in body ++ take kMacLen (hkdf_extract Sha256 key body).

Lemma mac_enough h k d : length (take kMacLen (hkdf_extract h k d)) = kMacLen /\ (length (hkdf_extract h k d) <? kMacLen)%nat = false.
Proof. rewrite length_take, mac_length. split; [destruct h; unfold kMacLen; cbn; lia|]. apply Nat.ltb_ge. destruct h; unfold kMacLen; cbn; lia. Qed.

Lemma validate_built l peer key nonce addr odcid : token_key_ l = key -> peer_ok peer -> encode_peer_addr peer = Some addr ->
  length nonce = kNonceLen -> (length odcid <= kMaxConnectionIdLen)%nat ->
  validate_retry_token (token_of key nonce addr odcid) peer l = Some (Some odcid).
Proof.
  intros <- Hp Ha Hn Ho. destruct (encode_peer_length peer addr Hp Ha) as [Hl _]. unfold token_of, validate_retry_token. cbv zeta.
  rewrite token_parse_built by (lia || done || apply mac_enough). rewrite take_app_length, drop_app_length.
  destruct (mac_enough Sha256 (token_key_ l) (token_body nonce addr odcid)) as [H1 ->].
  rewrite take_ge by lia. assert (E : mac_diff (hkdf_extract Sha256 (token_key_ l) (token_body nonce addr odcid)) (take kMacLen (hkdf_extract Sha256 (token_key_ l) (token_body nonce addr odcid))) = 0).
  { apply mac_diff_zero; [apply mac_bytes|apply Forall_take, mac_bytes|done|done]. }
  rewrite E, Ha. cbn [Z.eqb negb mbind option_bind]. by rewrite bool_decide_eq_true_2.
Qed.

Lemma validate_inv l peer token : bytes_ok token -> exists r, validate_retry_token token peer l = Some r /\
  forall odcid, r = Some odcid -> (length odcid <= kMaxConnectionIdLen)%nat /\
    exists nonce addr, length nonce = kNonceLen /\ encode_peer_addr peer = Some addr /\ token = token_of (token_key_ l) nonce addr odcid.
Proof.
  intros Hb. unfold validate_retry_token. destruct (parse_token token) as [[[addr od] n]|] eqn:Ep; [|by exists None].
  destruct (token_parse_inv _ _ _ _ Hb Ep) as (nonce & mac & Hn & Hm & Ho & -> & ->). cbv zeta.
  rewrite take_app_length, drop_app_length, (take_ge mac) by lia. destruct (mac_enough Sha256 (token_key_ l) (token_body nonce addr od)) as [H1 ->].
  destruct (Z.eqb_spec (mac_diff (hkdf_extract Sha256 (token_key_ l) (token_body nonce addr od)) mac) 0) as [E|]; cbn [negb]; [|by exists None].
  apply Forall_app in Hb as [_ Hb]. apply mac_diff_zero in E; [|apply mac_bytes|done|by rewrite H1]. eexists. split; [done|].
  intros odcid Er. destruct (encode_peer_addr peer) as [cur|] eqn:Ec; [|done]. cbn [mbind option_bind] in Er. case_bool_decide as Heq; [|done].
  injection Er as ->. subst cur. split; [done|]. exists nonce, addr. split; [done|]. split; [done|]. unfold token_of. by rewrite E.
Qed.

Lemma random_bytes_length n : forall s, length (random_bytes n s).1 = n.
Proof. induction n as [|n IH]; intros s; cbn; [done|]. specialize (IH (xorshift s)). destruct (random_bytes n (xorshift s)). cbn in *. lia. Qed.

(** C36: Retry tokens prove an address.  Validation never reads outside the
    token or the MAC; it accepts exactly the byte strings that are a nonce,
    the address of the peer at hand, a connection id of at most 20 bytes and
    the first 16 bytes of the MAC over these under the listener's key, and
    returns that connection id.  So a token the listener issues is accepted
    when it comes back from the same address, and a token accepted from two
    addresses proves them to be the same family, host and port. *)
Theorem retry_token_exact l peer : peer_ok peer ->
  (forall odcid, (length odcid <= kMaxConnectionIdLen)%nat -> is_Some (peer_address peer) ->
     exists token l', make_retry_token odcid peer l = Some (token, l') /\ validate_retry_token token peer l' = Some (Some odcid)) /\
  (forall token, bytes_ok token -> exists r, validate_retry_token token peer l = Some r /\
     forall odcid, r = Some odcid <-> (length odcid <= kMaxConnectionIdLen)%nat /\
       exists nonce addr, length nonce = kNonceLen /\ encode_peer_addr peer = Some addr /\ token = token_of (token_key_ l) nonce addr odcid) /\
  (forall token peer' od od', bytes_ok token -> peer_ok peer' -> validate_retry_token token peer l = Some (Some od) ->
     validate_retry_token token peer' l = Some (Some od') -> peer_address peer = peer_address peer' /\ od = od').
Proof.
  intros Hp. split; [|split].
  - intros odcid Ho [[[fam host] port] Ha]. unfold make_retry_token. pose proof (random_bytes_length kNonceLen (prng_state_ l)) as Hn.
    destruct (random_bytes kNonceLen (prng_state_ l)) as [nonce s]. cbn [fst] in Hn. assert (He : is_Some (encode_peer_addr peer)) by (rewrite encode_peer_cases, Ha; by eexists).
    destruct He as [addr He]. rewrite He. cbv zeta. rewrite (proj2 (mac_enough _ _ _)). eexists _, _. split; [done|]. by apply validate_built.
  - intros token Hb. destruct (validate_inv l peer token Hb) as (r & Er & Hr). exists r. split; [done|]. intros odcid. split; [apply Hr|].
    intros (Ho & nonce & addr & Hn & Ha & ->). rewrite (validate_built l peer (token_key_ l) nonce addr odcid) in Er by done. by injection Er.
  - intros token peer' od od' Hb Hp' E1 E2. destruct (validate_inv l peer token Hb) as (r & Er & Hr). rewrite E1 in Er. injection Er as <-.
    destruct (validate_inv l peer' token Hb) as (r' & Er' & Hr'). rewrite E2 in Er'. injection Er' as <-.
    destruct (Hr od eq_refl) as (Ho & n1 & a1 & Hn1 & Ha1 & ->). destruct (Hr' od' eq_refl) as (Ho' & n2 & a2 & Hn2 & Ha2 & Et).
    pose proof (token_parse_built n1 a1 od _ Hn1 ltac:(destruct (encode_peer_length _ _ Hp Ha1); lia) Ho (proj1 (mac_enough Sha256 (token_key_ l) (token_body n1 a1 od)))) as P1.
    pose proof (token_parse_built n2 a2 od' _ Hn2 ltac:(destruct (encode_peer_length _ _ Hp' Ha2); lia) Ho' (proj1 (mac_enough Sha256 (token_key_ l) (token_body n2 a2 od')))) as P2.
    unfold token_of in Et. cbv zeta in Et. rewrite Et, P2 in P1. injection P1 as -> -> _. split; [|done]. by eapply encode_peer_inj.
Qed.
End Tokens.

(** ** The token key is sent to the clients *)

Lemma random_bytes_app n m : forall s, random_bytes (n + m) s =
  ((random_bytes n s).1 ++ (random_bytes m (random_bytes n s).2).1, (random_bytes m (random_bytes n s).2).2).
Proof.
  induction n as [|n IH]; intros s; cbn [Nat.add random_bytes]; [cbn; by destruct (random_bytes m s)|]. cbv zeta. rewrite IH.
  by destruct (random_bytes n (xorshift s)).
Qed.

(** A client's first Initial: no token. *)
Definition tokenless_initial (dg dcid scid : bytes) : Prop :=
  peek_long dg = Some (kQuicV1, dcid, scid) /\ u8 ((default 0 (dg !! 0%nat) .>> 4) .& 0x03) = type_code Initial /\
  exists full off, parse_long_header dg 0 [] = Some (full, off) /\ type full = Initial /\ token full = [].

(** The connection id and the nonce of a Retry packet, to a client whose own
    connection id has [n] bytes. *)
Definition retry_scid_of (n : nat) (pkt : bytes) : bytes := take 8 (drop (7 + n) pkt).
Definition retry_nonce_of (n : nat) (pkt : bytes) : bytes := take kNonceLen (drop (15 + n) pkt).

Section Leak.
Context {T : Type} {tls : Tls T} {lib : CryptoLib} {mac_laws : MacLaws} {lib_laws : CryptoLibLaws}.
Context (clock : nat -> nat -> Z) (tls_new : nat -> bytes -> TransportParameters -> T) (fuel : nat).
Implicit Types l : Listener (T := T).

Lemma peek_long_first dg x : peek_long dg = Some x -> exists first rest, dg = first :: rest /\ first .& 0x80 <> 0.
Proof.
  unfold peek_long. destruct (_ <? _)%nat; [done|]. destruct dg as [|first rest]; [done|]. cbn [lookup list_lookup mbind option_bind].
  destruct (Z.eqb_spec (first .& 0x80) 0); [done|]. intros _. by exists first, rest.
Qed.

Lemma tokenless_retry dg dcid scid peer l : tokenless_initial dg dcid scid -> require_retry (cfg_ l) = true ->
  lookup_long dcid l = None -> on_datagram clock tls_new fuel peer dg l = send_retry dcid scid peer l.
Proof.
  intros (Hp & Ht & full & off & Hf & Hty & Htok) Hr Hl. destruct (peek_long_first _ _ Hp) as (first & rest & Hd & Hb).
  unfold on_datagram. rewrite Hd. rewrite (proj2 (Z.eqb_neq _ _) Hb). cbn [negb]. rewrite <- Hd. unfold on_long. rewrite Hp. cbn [Z.eqb negb kQuicV1].
  unfold kQuicV1. cbn [Z.eqb Pos.eqb negb]. rewrite Hl. unfold on_new_peer. rewrite Ht, Z.eqb_refl, Hf. cbn [negb]. rewrite Hty, bool_decide_eq_true_2 by done.
  cbn [negb]. by rewrite Hr, Htok.
Qed.

Lemma send_retry_eq dcid scid peer addr l : peer_ok peer -> encode_peer_addr peer = Some addr ->
  exists tag, send_retry dcid scid peer l =
    let r := random_bytes (server_cid_length (cfg_ l)) (prng_state_ l) in
    let n := random_bytes kNonceLen r.2 in
    Some (send_fn peer (retry_header scid r.1 ++ token_of (token_key_ l) n.1 addr dcid ++ tag) (set_prng_state n.2 l)).
Proof.
  intros Hp Ha. unfold send_retry, new_random_cid. destruct (random_bytes (server_cid_length (cfg_ l)) (prng_state_ l)) as [rscid s1].
  unfold make_retry_token. cbn [prng_state_ set_prng_state]. destruct (random_bytes kNonceLen s1) as [nonce s2] eqn:En. rewrite Ha. cbv zeta. rewrite (proj2 (mac_enough _ _ _)).
  cbn [mbind option_bind fst snd]. change (token_key_ (set_prng_state s2 (set_prng_state s1 l))) with (token_key_ l).
  fold (token_of (token_key_ l) nonce addr dcid). set (tok := token_of _ _ _ _).
  assert (Hl : (length tok =? 0)%nat = false).
  { apply Nat.eqb_neq. unfold tok, token_of, token_body. rewrite !length_app. cbn [length]. lia. }
  rewrite Hl. unfold build_retry_packet, compute_retry_integrity_tag.
  destruct (seal_opens Aes128Gcm kRetryIntegrityKeyV1 kRetryIntegrityNonceV1 (retry_pseudo dcid (retry_header scid rscid ++ tok)) []) as (tag & -> & Ht & _); [done..|].
  cbn [mbind option_bind]. rewrite Ht. exists tag. rewrite En. cbn [aead_tag_length length Nat.add Nat.eqb negb mbind option_bind fst snd]. by rewrite <- app_assoc.
Qed.

Lemma retry_header_split scid rscid : exists h, length h = (7 + length scid)%nat /\ retry_header scid rscid = h ++ rscid.
Proof.
  eexists (_ :: _ :: _ :: _ :: _ :: _ :: scid ++ [_]). split; [cbn; rewrite length_app; cbn; lia|].
  unfold retry_header. cbn [app]. rewrite <- app_assoc. reflexivity.
Qed.

Lemma retry_reveals scid rscid key nonce addr dcid tag : length rscid = 8%nat -> length nonce = kNonceLen ->
  retry_scid_of (length scid) (retry_header scid rscid ++ token_of key nonce addr dcid ++ tag) = rscid /\
  retry_nonce_of (length scid) (retry_header scid rscid ++ token_of key nonce addr dcid ++ tag) = nonce.
Proof.
  intros Hr Hn. unfold retry_scid_of, retry_nonce_of. destruct (retry_header_split scid rscid) as (h & Hh & ->).
  assert (Et : exists rest, token_of key nonce addr dcid ++ tag = nonce ++ rest) by (eexists; unfold token_of, token_body; cbv zeta; by rewrite <- !app_assoc).
  destruct Et as [rest ->]. rewrite <- Hh. rewrite <- app_assoc. split.
  - rewrite drop_app_length. rewrite <- Hr. apply take_app_length.
  - replace (15 + length scid)%nat with (length h + length rscid)%nat by lia. rewrite <- drop_drop, !drop_app_length, <- Hn. apply take_app_length.
Qed.

(** The key of the Retry tokens is public.  With Retry enabled and the
    default connection-id length, the answers to the first two Initials
    without a token contain the whole token key: the key is made of the same
    32 pseudo-random bytes that the two connection ids and the first nonce are
    made of.  Whoever asked can make a token the listener accepts from any
    address. *)
Theorem retry_token_key_leaks cfg seed p1 p2 a1 a2 dg1 dg2 d1 s1 d2 s2 :
  server_cid_length cfg = 8%nat -> require_retry cfg = true ->
  peer_ok p1 -> peer_ok p2 -> encode_peer_addr p1 = Some a1 -> encode_peer_addr p2 = Some a2 ->
  tokenless_initial dg1 d1 s1 -> tokenless_initial dg2 d2 s2 ->
  exists l2 r1 r2, (l ← on_datagram clock tls_new fuel p1 dg1 (new_listener cfg seed); on_datagram clock tls_new fuel p2 dg2 l) = Some l2 /\
    sent l2 = [(p1, r1); (p2, r2)] /\
    forall victim addr nonce odcid, peer_ok victim -> encode_peer_addr victim = Some addr -> length nonce = kNonceLen ->
      (length odcid <= kMaxConnectionIdLen)%nat ->
      let key := retry_scid_of (length s1) r1 ++ retry_nonce_of (length s1) r1 ++ retry_scid_of (length s2) r2 in
      validate_retry_token (token_of key nonce addr odcid) victim l2 = Some (Some odcid).
Proof.
  intros Hc Hr Hp1 Hp2 Ha1 Ha2 Ht1 Ht2. set (l0 := new_listener cfg seed).
  assert (H0 : server_cid_length (cfg_ l0) = 8%nat /\ require_retry (cfg_ l0) = true /\ token_key_ l0 = (random_bytes (8 + (16 + 8)) (prng_state_ l0)).1).
  { unfold l0, new_listener. rewrite Hc. cbn [Nat.eqb orb]. rewrite (proj2 (Nat.ltb_ge _ _)) by (unfold kMaxConnectionIdLen; lia). done. }
  destruct H0 as (Hc0 & Hr0 & Hk). rewrite (tokenless_retry dg1 d1 s1 p1 l0 Ht1 Hr0) by done.
  destruct (send_retry_eq d1 s1 p1 a1 l0 Hp1 Ha1) as [tag1 ->]. cbv zeta. cbn [mbind option_bind]. set (l1 := send_fn _ _ _).
  rewrite (tokenless_retry dg2 d2 s2 p2 l1 Ht2 Hr0) by done. destruct (send_retry_eq d2 s2 p2 a2 l1 Hp2 Ha2) as [tag2 ->]. cbv zeta.
  eexists _, _, _. split; [reflexivity|]. split; [reflexivity|]. intros victim addr nonce odcid Hv Ha Hn Ho.
  change (server_cid_length (cfg_ l1)) with (server_cid_length (cfg_ l0)). rewrite Hc0.
  destruct (retry_reveals s1 (random_bytes 8 (prng_state_ l0)).1 (token_key_ l0) (random_bytes kNonceLen (random_bytes 8 (prng_state_ l0)).2).1 a1 d1 tag1) as [-> ->];
    [apply random_bytes_length..|].
  destruct (retry_reveals s2 (random_bytes 8 (prng_state_ l1)).1 (token_key_ l1) (random_bytes kNonceLen (random_bytes 8 (prng_state_ l1)).2).1 a2 d2 tag2) as [-> _];
    [apply random_bytes_length..|].
  apply validate_built; [|done..]. change (token_key_ l0 = (random_bytes 8 (prng_state_ l0)).1 ++ (random_bytes kNonceLen (random_bytes 8 (prng_state_ l0)).2).1 ++ (random_bytes 8 (prng_state_ l1)).1).
  rewrite Hk, !random_bytes_app. cbn [fst snd]. unfold l1. cbn [prng_state_ send_fn set_sent_to set_prng_state]. by rewrite Hc0.
Qed.
End Leak.

(** ** Examples *)

Definition demo_addr : PeerAddr := mkPeer 16 AF_INET [127; 0; 0; 1] 0x5C11 (replicate 16 0) 0.
Definition demo_addr6 : PeerAddr := mkPeer 28 AF_INET6 (replicate 4 0) 0x3930 (replicate 15 0 ++ [1]) 0x3930.

(** An Initial without a token, 16 bytes long. *)
Definition demo_initial : bytes := [0xC3; 0; 0; 0; 1; 2; 9; 9; 1; 8; 0; 4; 1; 2; 3; 4].

Definition demo_config (retry : bool) : Config := mkConfig demo_tp 8 retry 0x123456789.
Definition demo_clocks (n : nat) : nat -> Z := demo_clock.
Definition demo_tls_new (n : nat) (d : bytes) (tp : TransportParameters) : nat := 0%nat.

Lemma demo_addr_ok : peer_ok demo_addr /\ peer_ok demo_addr6.
Proof. unfold peer_ok. cbn. repeat split; try lia; repeat constructor; unfold byte_ok; lia. Qed.

Definition demo_listener : Listener (T := nat) := new_listener (demo_config true) 0.

Lemma retry_token_exact_witness : exists token l',
  @make_retry_token nat toy_lib [9; 9] demo_addr demo_listener = Some (token, l') /\
  @validate_retry_token nat toy_lib token demo_addr l' = Some (Some [9; 9]) /\
  @validate_retry_token nat toy_lib token demo_addr6 l' = Some None.
Proof.
  destruct (@retry_token_exact nat toy_lib toy_mac_laws demo_listener demo_addr (proj1 demo_addr_ok)) as (H & _ & _).
  destruct (H [9; 9]) as (token & l' & E1 & E2); [cbn; unfold kMaxConnectionIdLen; lia|by eexists|]. exists token, l'. split; [exact E1|]. split; [exact E2|].
  vm_compute in E1. injection E1 as <- <-. vm_compute. reflexivity.
Defined.

Lemma demo_tokenless : tokenless_initial demo_initial [9; 9] [8].
Proof. split; [vm_compute; reflexivity|]. split; [vm_compute; reflexivity|]. eexists _, _. split; [vm_compute; reflexivity|]. by split. Qed.

Lemma retry_token_key_leaks_witness : exists l2 r1 r2 key, sent l2 = [(demo_addr, r1); (demo_addr, r2)] /\
  @validate_retry_token nat toy_lib (@token_of toy_lib key (replicate 16 0) (replicate 15 0 ++ [1; 0x30; 0x39]) [1; 2; 3]) demo_addr6 l2 = Some (Some [1; 2; 3]).
Proof.
  destruct (@retry_token_key_leaks nat demo_tls toy_lib toy_mac_laws toy_lib_laws demo_clocks demo_tls_new 10%nat (demo_config true) 0 demo_addr demo_addr
    [127; 0; 0; 1; 0x11; 0x5C] [127; 0; 0; 1; 0x11; 0x5C] demo_initial demo_initial [9; 9] [8] [9; 9] [8]) as (l2 & r1 & r2 & _ & E & H);
    [reflexivity|reflexivity|apply demo_addr_ok|apply demo_addr_ok|vm_compute; reflexivity|vm_compute; reflexivity|exact demo_tokenless|exact demo_tokenless|].
  eexists l2, r1, r2, _. split; [exact E|]. apply (H demo_addr6); [apply demo_addr_ok|vm_compute; reflexivity|reflexivity|cbn; unfold kMaxConnectionIdLen; lia].
Defined.

(** ** Version Negotiation *)

Lemma peek_long_built first v dcid scid rest : first .& 0x80 <> 0 -> 0 <= v < 2 ^ 32 -> (length dcid <= kMaxConnectionIdLen)%nat ->
  (length scid <= kMaxConnectionIdLen)%nat -> peek_long (first :: be_bytes 4 v ++ cid_bytes dcid ++ cid_bytes scid ++ rest) = Some (v, dcid, scid).
Proof.
  intros Hf Hv Hd Hs. set (dg := first :: _). assert (Hl : length dg = (7 + length dcid + length scid + length rest)%nat).
  { unfold dg, cid_bytes. repeat (rewrite ?length_app; cbn [length app]). rewrite be_bytes_length. lia. }
  assert (C0 : at_cursor dg 5 (cid_bytes dcid ++ cid_bytes scid ++ rest)).
  { change 5%nat with (1 + 4)%nat. pose proof (at_cursor_app dg 1 (be_bytes 4 v) (cid_bytes dcid ++ cid_bytes scid ++ rest)) as H. rewrite be_bytes_length in H.
    apply H. split; [rewrite Hl; lia|done]. }
  unfold cid_bytes in C0. cbn [app] in C0. apply at_cursor_cons in C0 as (L0 & C1 & _). pose proof (at_cursor_app _ _ _ _ C1) as C2.
  apply at_cursor_cons in C2 as (L2 & C3 & _). unfold peek_long. rewrite Hl, (proj2 (Nat.ltb_ge _ 7)) by lia. cbn [lookup list_lookup mbind option_bind].
  change (dg !! 0%nat) with (Some first). cbn [mbind option_bind]. rewrite (proj2 (Z.eqb_neq _ _) Hf), L0. cbn [fmap option_fmap option_map mbind option_bind].
  rewrite Nat2Z.id. rewrite (proj2 (Nat.ltb_ge _ (6 + length dcid + 1))), (proj2 (Nat.ltb_ge kMaxConnectionIdLen _)) by lia. cbn [orb].
  change (5 + 1)%nat with 6%nat in *. rewrite L2. cbn [fmap option_fmap option_map mbind option_bind]. rewrite Nat2Z.id.
  rewrite (proj2 (Nat.ltb_ge _ (6 + length dcid + 1 + length scid))), (proj2 (Nat.ltb_ge kMaxConnectionIdLen _)) by lia. cbn [orb].
  assert (Ev : take 4 (drop 1 dg) = be_bytes 4 v) by (change (drop 1 dg) with (be_bytes 4 v ++ cid_bytes dcid ++ cid_bytes scid ++ rest); by apply take_app_length').
  rewrite Ev, be_fold_version by done. do 2 f_equal; [f_equal|].
  - by apply (take_at dg _ dcid _ _ C1).
  - by apply (take_at dg _ scid _ _ C3).
Qed.

(** Version Negotiation.  A long-header packet of another version is
    answered with a Version Negotiation packet to its sender and changes
    nothing else; but that answer carries the packet's connection ids in the
    order they came, so it names as its destination an id of the server and
    not the client's, and it is itself a packet of version zero: a listener
    that receives it sends the very same packet back. *)
Theorem version_negotiation_echoes {T} {tls : Tls T} {lib : CryptoLib} clock tls_new fuel peer peer' first v dcid scid rest (l l' : Listener (T := T)) :
  first .& 0x80 <> 0 -> 0 <= v < 2 ^ 32 -> v <> kQuicV1 -> (length dcid <= kMaxConnectionIdLen)%nat -> (length scid <= kMaxConnectionIdLen)%nat ->
  exists vn, on_datagram clock tls_new fuel peer (first :: be_bytes 4 v ++ cid_bytes dcid ++ cid_bytes scid ++ rest) l = Some (send_fn peer vn l) /\
    peek_long vn = Some (0, dcid, scid) /\ on_datagram clock tls_new fuel peer' vn l' = Some (send_fn peer' vn l').
Proof.
  intros Hf Hv Hne Hd Hs. exists (build_version_negotiation_packet dcid scid [0; 0; 0; 1]).
  assert (Hc : forall cid : bytes, (length cid <= kMaxConnectionIdLen)%nat -> u8 (#cid) = #cid) by (intros; apply u8_small; unfold byte_ok, kMaxConnectionIdLen in *; lia).
  assert (Evn : build_version_negotiation_packet dcid scid [0; 0; 0; 1] = 0xC0 :: be_bytes 4 0 ++ cid_bytes dcid ++ cid_bytes scid ++ [0; 0; 0; 1]).
  { unfold build_version_negotiation_packet, cid_bytes. rewrite !Hc by done. done. }
  assert (Hans : forall p f w r x, f .& 0x80 <> 0 -> 0 <= w < 2 ^ 32 -> w <> kQuicV1 ->
    on_datagram clock tls_new fuel p (f :: be_bytes 4 w ++ cid_bytes dcid ++ cid_bytes scid ++ r) x = Some (send_fn p (build_version_negotiation_packet dcid scid [0; 0; 0; 1]) x)).
  { intros p f w r x Hf' Hw Hn. unfold on_datagram. rewrite (proj2 (Z.eqb_neq _ _) Hf'). cbn [negb]. unfold on_long. rewrite peek_long_built by done.
    by rewrite (proj2 (Z.eqb_neq _ _) Hn). }
  split; [by apply Hans|]. rewrite Evn at 1 2. split; [by apply peek_long_built|]. by apply Hans.
Qed.

Lemma version_negotiation_echoes_witness : exists vn, peek_long vn = Some (0, [9; 9], [8]) /\
  @on_datagram nat demo_tls toy_lib demo_clocks demo_tls_new 10 demo_addr vn demo_listener = Some (send_fn demo_addr vn demo_listener).
Proof.
  destruct (@version_negotiation_echoes nat demo_tls toy_lib demo_clocks demo_tls_new 10%nat demo_addr demo_addr 0xC0 0x6b3343cf [9; 9] [8] [1; 2; 3] demo_listener demo_listener)
    as (vn & _ & H1 & H2); [done|lia|done|cbn; unfold kMaxConnectionIdLen; lia..|].
  exists vn. split; [exact H1|exact H2].
Defined.

(** A Retry may be more than three times the datagram it answers: nothing
    checks the size of an Initial. *)
Theorem retry_amplifies : length demo_initial = 16%nat /\
  (l ← @on_datagram nat demo_tls toy_lib demo_clocks demo_tls_new 10 demo_addr6 demo_initial demo_listener; Some ((fun e => length e.2) <$> sent l))
    = Some [86%nat].
Proof. split; vm_compute; reflexivity. Qed.

(** A Version Negotiation packet, which is legal only alone, behind the
    packet of a known connection: the header parser leaves its packet number
    offset and its length at 0, so the offsets computed from them wrap around
    and the connection reads outside the packet.  The first packet alone is
    harmless. *)
Theorem coalesced_version_zero :
  let first := @on_datagram nat demo_tls toy_lib demo_clocks demo_tls_new 10 demo_addr demo_initial (new_listener (demo_config false) 0) in
  let again tail := (l ← first; @on_datagram nat demo_tls toy_lib demo_clocks demo_tls_new 10 demo_addr (demo_initial ++ tail) l) in
  is_Some first /\ is_Some (again []) /\ again ([0xC0; 0; 0; 0; 0; 0; 0] ++ replicate 20 0) = None.
Proof. split; [|split]; [eexists; vm_compute; reflexivity..|vm_compute; reflexivity]. Qed.
