(* ===== verification/ListenerSafety.v ===== *)
(** * QUIC listener: routing

    The listener's table is consistent, a connection is never lost or
    confused with another, the address it answers to is frozen when its
    handshake is over, and nothing is sent to an address that has not sent
    anything itself. *)
From stdpp Require Import relations.
From S2P Require Import Prelude VarInt ByteMap QuicPacket QuicCrypto QuicFrame TransportParams QuicConn QuicConnSteps QuicConnLife Listener.

Local Open Scope Z_scope.

Section Routing.
Context {T : Type} {tls : Tls T} {lib : CryptoLib}.
Context (clock : nat -> nat -> Z) (tls_new : nat -> bytes -> TransportParameters -> T) (fuel : nat).
Implicit Types (l : Listener (T := T)) (st : ConnState (T := T)) (c : Conn (T := T)).

(** ** What happens to one connection *)

Record keeps (st st' : ConnState (T := T)) : Prop := {
  kp_ident : ident (conn st') = ident (conn st);
  kp_rank : rank (state_ (conn st)) <= rank (state_ (conn st'));
  kp_peer : state_ (conn st) <> Handshaking -> last_peer st' = last_peer st }.

Lemma rank_handshaking s s' : rank s <= rank s' -> s <> Handshaking -> s' <> Handshaking.
Proof. intros H Hs ->. destruct s; cbn in H; lia || done. Qed.

Global Instance keeps_preorder : PreOrder keeps.
Proof.
  split; [by split|]. intros s1 s2 s3 [] []. split; [congruence|lia|]. intros H. rewrite kp_peer1; [by apply kp_peer0|]. by eapply rank_handshaking.
Qed.

Lemma evolves_keeps st c p n : evolves (conn st) c -> (state_ (conn st) <> Handshaking -> p = last_peer st) ->
  keeps st (mkConnState (set_wire [] c) p n).
Proof. intros [] Hp. split; cbn; [done|done|by intros ?%Hp]. Qed.

(** ** The table *)

Record listener_ok (l : Listener (T := T)) : Prop := {
  lo_sorted : bm_sorted (connections_ l);
  lo_conns : forall k st, bm_find k (connections_ l) = Some st -> scid_ (conn st) = k /\ wire (conn st) = [];
  lo_aliases : forall d k, bm_find d (connections_aliases_ l) = Some k -> is_Some (bm_find k (connections_ l)) }.

(** The peers heard from cover every address used. *)
Record heard (ps : list PeerAddr) (l : Listener (T := T)) : Prop := {
  hd_sent : Forall (fun e => e.1 ∈ ps) (sent l);
  hd_conns : forall k st, bm_find k (connections_ l) = Some st -> last_peer st ∈ ps }.

Record later (l l' : Listener (T := T)) : Prop := {
  la_conns : forall k st, bm_find k (connections_ l) = Some st -> exists st', bm_find k (connections_ l') = Some st' /\ keeps st st';
  la_sent : sent l `prefix_of` sent l' }.

Global Instance later_preorder : PreOrder later.
Proof.
  split.
  - intros l. split; [|done]. intros k st H. by exists st.
  - intros l1 l2 l3 [H1 H1'] [H2 H2']. split; [|by etrans]. intros k st H. destruct (H1 k st H) as (st2 & E2 & K2).
    destruct (H2 k st2 E2) as (st3 & E3 & K3). exists st3. split; [done|by etrans].
Qed.

(** What each operation of the listener does, with [ps] the peers heard. *)
Definition good (ps : list PeerAddr) (l l' : Listener (T := T)) : Prop :=
  listener_ok l -> heard ps l -> listener_ok l' /\ heard ps l' /\ later l l'.

Global Instance good_preorder ps : PreOrder (good ps).
Proof.
  split; [by intros l H1 H2|]. intros l1 l2 l3 H12 H23 H1 H2. destruct (H12 H1 H2) as (A & B & C). destruct (H23 A B) as (D & E & F). by split_and!; [..|etrans].
Qed.

(** Writing back an existing connection. *)
Lemma put_back_good ps k st0 st c l : bm_find k (connections_ l) = Some st0 -> evolves (conn st0) c ->
  (state_ (conn st0) <> Handshaking -> last_peer st = last_peer st0) -> last_peer st ∈ ps -> good ps l (put_back k st c l).
Proof.
  intros Ef Hev Hp Hin [H1 H2 H3] [H4 H5]. unfold put_back. set (st' := mkConnState _ _ _). assert (Hk : keeps st0 st') by by apply evolves_keeps.
  split_and!; split; cbn.
  - by apply bm_sorted_insert.
  - intros j sj. rewrite bm_find_insert. case_decide as Ej; [|apply H2]. intros [= <-]. subst j. split; [|done]. destruct (H2 _ _ Ef) as [<- _].
    pose proof (ev_ident _ _ Hev) as Ei. unfold ident in Ei. cbn. congruence.
  - intros d j Ed. apply H3 in Ed. rewrite bm_find_insert. by case_decide.
  - apply Forall_app. split; [done|]. apply Forall_fmap, Forall_forall. by intros.
  - intros j sj. rewrite bm_find_insert. case_decide as Ej; [|apply H5]. by intros [= <-].
  - intros j sj Ej. rewrite bm_find_insert. case_decide as Ek; [|by exists sj]. subst j. rewrite Ef in Ej. injection Ej as <-. by exists st'.
  - by eexists.
Qed.

Lemma feed_evolves n c dg c1 c2 : QuicConn.on_datagram (clock n) dg c = Some c1 -> QuicConn.on_timer (clock n) fuel c1 = Some c2 -> evolves c c2.
Proof.
  intros E1 E2. apply (on_datagram_steps _ (up := true) (D := fun _ => True)) in E1; [|done]. apply (on_timer_steps _ (P := fun _ => True)) in E2. etrans; [apply (arrive_evolves (EvDatagram dg))|].
  etrans; [|exact (steps_rel evolves atom_evolves _ _ E2)]. exact (steps_rel evolves atom_evolves _ _ E1).
Qed.

Lemma deliver_to_good ps k st peer dg l l' : bm_find k (connections_ l) = Some st -> peer ∈ ps ->
  deliver_to clock fuel k st peer dg l = Some l' -> good ps l l'.
Proof.
  intros Ef Hp E Hok Hh. unfold deliver_to, feed in E. apply bind_Some in E as (c1 & E1 & E). apply bind_Some in E as (c2 & E2 & [= <-]).
  assert (Hev : evolves (conn st) c2) by (case_bool_decide; by eapply feed_evolves).
  pose proof (hd_conns _ _ Hh k st Ef) as Hl. revert Hok Hh. case_bool_decide as Hs; by (eapply put_back_good; [exact Ef|exact Hev|..]).
Qed.

(** Steps that leave the table alone. *)
Lemma good_quiet ps l l' : connections_ l' = connections_ l -> connections_aliases_ l' = connections_aliases_ l ->
  (exists new, sent l' = sent l ++ new /\ Forall (fun e => e.1 ∈ ps) new) -> good ps l l'.
Proof.
  intros Ec Ea (new & Es & Hn) [H1 H2 H3] [H4 H5]. split_and!; split; rewrite ?Ec, ?Ea, ?Es; try done.
  - by apply Forall_app.
  - intros k st H. by exists st.
  - by eexists.
Qed.

Lemma send_fn_good ps peer dg l : peer ∈ ps -> good ps l (send_fn peer dg l).
Proof. intros H. apply good_quiet; [done..|]. exists [(peer, dg)]. split; [done|]. by repeat constructor. Qed.

Lemma good_prng ps l s : good ps l (set_prng_state s l).
Proof. apply good_quiet; [done..|]. exists []. by rewrite app_nil_r. Qed.

Lemma send_retry_good ps dcid scid peer l l' : peer ∈ ps -> send_retry dcid scid peer l = Some l' -> good ps l l'.
Proof.
  intros Hp E. unfold send_retry, new_random_cid, make_retry_token in E. destruct (random_bytes _ (prng_state_ l)) as [rscid s1]. cbn [prng_state_ set_prng_state] in E.
  destruct (random_bytes kNonceLen _) as [nonce s2]. apply bind_Some in E as ([tok l1] & E1 & E).
  assert (Hg : good ps l l1).
  { trans (set_prng_state s2 (set_prng_state s1 l)); [etrans; apply good_prng|]. destruct (encode_peer_addr peer); [|injection E1 as _ <-; done].
    cbv zeta in E1. destruct (_ <? _)%nat; [done|]. injection E1 as _ <-. done. }
  destruct (_ =? 0)%nat; [injection E as <-; done|]. apply bind_Some in E as (r & _ & [= <-]). etrans; [exact Hg|]. by apply send_fn_good.
Qed.

(** A new entry in the table. *)
Lemma insert_good ps dcid k st n l : bm_find k (connections_ l) = None -> scid_ (conn st) = k -> wire (conn st) = [] -> last_peer st ∈ ps ->
  good ps l (set_connections (bm_insert k st (connections_ l)) (set_created n (set_aliases (bm_insert dcid k (connections_aliases_ l)) l))).
Proof.
  intros En Hs Hw Hp [H1 H2 H3] [H4 H5]. split_and!; split; cbn; try done.
  - by apply bm_sorted_insert.
  - intros j sj. rewrite bm_find_insert. case_decide as Ej; [|apply H2]. intros [= <-]. by subst.
  - intros d j. rewrite !bm_find_insert. case_decide; [intros [= <-]; by rewrite decide_True|]. intros E. case_decide; [done|by eapply H3].
  - intros j sj. rewrite bm_find_insert. case_decide as Ej; [|apply H5]. by intros [= <-].
  - intros j sj Ej. rewrite bm_find_insert. case_decide; [congruence|by exists sj].
Qed.

Lemma new_connection_ids n t dc cs ss tp c : new_connection (clock n) t dc cs ss tp = Some c -> scid_ c = ss /\ wire c = [].
Proof. unfold new_connection. cbv zeta. intros E. do 4 apply bind_Some in E as (? & _ & E). by injection E as <-. Qed.

Lemma open_connection_good ps dcid scid odcid peer dg l l' : peer ∈ ps ->
  open_connection clock tls_new fuel dcid scid odcid peer dg l = Some l' -> good ps l l'.
Proof.
  intros Hp E. unfold open_connection in E. set (choice := match odcid with Some _ => (dcid, l) | None => new_random_cid l end) in E.
  assert (Hg : good ps l choice.2).
  { unfold choice, new_random_cid. destruct odcid; [done|]. destruct (random_bytes _ _). apply good_prng. }
  destruct choice as [k l1]. cbn [snd] in Hg. etrans; [exact Hg|]. cbv zeta in E. apply bind_Some in E as (c & Ec & E).
  destruct (new_connection_ids _ _ _ _ _ _ _ Ec) as [Hs Hw]. set (c' := match odcid with Some _ => _ | None => c end) in E.
  assert (Hc' : scid_ c' = k /\ wire c' = []) by (unfold c'; by destruct odcid). clearbody c'. destruct Hc' as [Hs' Hw'].
  cbn [connections_ set_created set_aliases] in E. destruct (bm_find k (connections_ l1)) eqn:Ef; [done|]. set (st := mkConnState c' peer (created l1)) in E.
  etrans; [exact (insert_good ps dcid k st (S (created l1)) l1 Ef Hs' Hw' Hp)|]. unfold feed in E.
  apply bind_Some in E as (c1 & E1 & E). apply bind_Some in E as (c2 & E2 & [= <-]). eapply put_back_good; [|by eapply feed_evolves|done|done].
  cbn. by rewrite bm_find_insert, decide_True.
Qed.

Lemma lookup_long_found dcid l k st : lookup_long dcid l = Some (k, st) -> bm_find k (connections_ l) = Some st.
Proof.
  unfold lookup_long. destruct (bm_find dcid (connections_ l)) eqn:E; [by intros [= <- <-]|]. intros H. inv_bind H. congruence.
Qed.

Lemma on_datagram_good ps peer dg l l' : peer ∈ ps -> on_datagram clock tls_new fuel peer dg l = Some l' -> good ps l l'.
Proof.
  intros Hp E. unfold on_datagram in E. destruct dg as [|first rest]; [injection E as <-; done|]. set (dg := first :: rest) in E. clearbody dg.
  destruct (negb _).
  - unfold on_long in E. destruct (peek_long dg) as [[[v dcid] scid]|]; [|injection E as <-; done].
    destruct (negb (v =? kQuicV1)); [injection E as <-; by apply send_fn_good|].
    destruct (lookup_long dcid l) as [[k st]|] eqn:El; [eapply deliver_to_good; [by eapply lookup_long_found|exact Hp|exact E]|].
    unfold on_new_peer in E. destruct (negb _); [injection E as <-; done|]. destruct (parse_long_header dg 0 []) as [[full off]|]; [|injection E as <-; done].
    destruct (negb _); [injection E as <-; done|]. destruct (require_retry (cfg_ l)); [|by eapply open_connection_good].
    destruct (_ =? 0)%nat; [by eapply send_retry_good|]. apply bind_Some in E as ([od|] & _ & E); [by eapply open_connection_good|injection E as <-; done].
  - unfold on_short in E. destruct (_ <? _)%nat; [injection E as <-; done|]. cbv zeta in E. destruct (bm_find _ _) as [st|] eqn:Ef; [|injection E as <-; done].
    by eapply deliver_to_good.
Qed.

Lemma timer_walk_good ps todo : forall l l', bm_sorted todo -> (forall k st, (k, st) ∈ todo -> bm_find k (connections_ l) = Some st) ->
  for_each (fun l '(k, st) => c ← QuicConn.on_timer (clock (serial st)) fuel (conn st); Some (put_back k st c l)) todo l = Some l' -> good ps l l'.
Proof.
  induction todo as [|[k st] todo IH]; intros l l' Hsort Hin E; cbn [for_each] in E; [injection E as <-; done|].
  apply bind_Some in E as (l1 & E1 & E). apply bind_Some in E1 as (c & Ec & [= <-]). cbn [bm_sorted] in Hsort. destruct Hsort as [Hk Hsort].
  assert (Ef : bm_find k (connections_ l) = Some st) by (apply Hin; left). intros Hok Hh.
  assert (Hg : good ps l (put_back k st c l)).
  { eapply put_back_good; [exact Ef|exact (steps_rel evolves atom_evolves _ _ (on_timer_steps (P := fun _ => True) _ _ _ _ Ec))|done|by eapply hd_conns]. }
  revert Hok Hh. change (good ps l l'). etrans; [exact Hg|]. apply IH; [done| |done]. intros j sj Hj. cbn. rewrite bm_find_insert.
  rewrite decide_False; [apply Hin; by right|]. intros <-. eapply Forall_forall in Hk; [|exact Hj]. cbn in Hk. by rewrite bytes_lt_irrefl in Hk.
Qed.

Lemma on_timer_good ps l l' : on_timer clock fuel l = Some l' -> good ps l l'.
Proof.
  intros E Hok. pose proof Hok as [Hs _ _]. revert Hok. change (good ps l l'). eapply timer_walk_good; [exact Hs| |exact E].
  intros k st. by apply bm_elem_find.
Qed.

(** ** Runs *)

Inductive LEvent :=
| LDatagram (peer : PeerAddr) (dg : bytes)
| LTimer
| LUse (k : bytes) (f : Conn (T := T) -> Conn (T := T)).

Definition run_levent (l : Listener (T := T)) (e : LEvent) : option (Listener (T := T)) :=
  match e with
  | LDatagram peer dg => on_datagram clock tls_new fuel peer dg l
  | LTimer => on_timer clock fuel l
  | LUse k f => Some (use_connection k f l)
  end.

(** The application uses connections through their own operations. *)
Definition levent_ok (e : LEvent) : Prop := match e with LUse _ f => forall c, evolves c (f c) | _ => True end.

Definition peers (es : list LEvent) : list PeerAddr := omap (fun e => match e with LDatagram p _ => Some p | _ => None end) es.

Lemma run_levent_good ps e l l' : levent_ok e -> peers [e] ⊆ ps -> run_levent l e = Some l' -> good ps l l'.
Proof.
  intros He Hp E. destruct e as [peer dg| |k f]; cbn [run_levent] in E.
  - eapply on_datagram_good; [|exact E]. apply Hp. cbn. left.
  - by apply on_timer_good.
  - injection E as <-. intros Hok Hh. unfold use_connection. destruct (bm_find k (connections_ l)) as [st|] eqn:Ef; [|by split_and!].
    revert Hok Hh. pose proof (fun Hh : heard ps l => hd_conns _ _ Hh k st Ef) as Hl. intros Hok Hh. by apply (put_back_good ps k st st); auto.
Qed.

Lemma run_levents_good ps es : forall l l', Forall levent_ok es -> peers es ⊆ ps -> for_each run_levent es l = Some l' -> good ps l l'.
Proof.
  induction es as [|e es IH]; intros l l' Hok Hp E; cbn [for_each] in E; [injection E as <-; done|]. apply bind_Some in E as (l1 & E1 & E).
  inversion Hok as [|? ? He Hes]; subst. assert (Hc : peers (e :: es) = peers [e] ++ peers es) by by destruct e. rewrite Hc in Hp.
  etrans; [eapply run_levent_good; [exact He| |exact E1]; set_solver|]. apply IH; [done|set_solver|done].
Qed.

Lemma new_listener_good cfg seed : listener_ok (new_listener (T := T) cfg seed) /\ forall ps, heard ps (new_listener (T := T) cfg seed).
Proof. unfold new_listener. split; [by split|]. by split. Qed.

(** C6: The listener's routing is sound.  For every sequence of datagrams
    from any addresses, timers and uses of the connections by the
    application: the table maps each connection id to the connection that
    carries it, and every alias to a connection that exists; connections are
    never dropped or replaced, and they keep their ids and only move forwards;
    once a connection's handshake is over, the address its packets go to
    never changes; what was sent stays sent; and nothing goes to an address
    from which no datagram came. *)
Theorem listener_routing cfg seed es es' l1 l2 :
  Forall levent_ok (es ++ es') -> for_each run_levent es (new_listener cfg seed) = Some l1 -> for_each run_levent es' l1 = Some l2 ->
  (forall k st, bm_find k (connections_ l2) = Some st -> scid_ (conn st) = k) /\
  (forall d k, bm_find d (connections_aliases_ l2) = Some k -> is_Some (bm_find k (connections_ l2))) /\
  (forall k st, bm_find k (connections_ l1) = Some st -> exists st', bm_find k (connections_ l2) = Some st' /\
     dcid_ (conn st') = dcid_ (conn st) /\ rank (state_ (conn st)) <= rank (state_ (conn st')) /\
     (state_ (conn st) <> Handshaking -> last_peer st' = last_peer st)) /\
  sent l1 `prefix_of` sent l2 /\ (forall p dg, (p, dg) ∈ sent l2 -> p ∈ peers (es ++ es')).
Proof.
  intros Hok E1 E2. apply Forall_app in Hok as [Hok1 Hok2]. destruct (new_listener_good cfg seed) as [H0 Hh0].
  assert (Hp : peers (es ++ es') = peers es ++ peers es') by apply omap_app. set (ps := peers (es ++ es')) in *.
  destruct (run_levents_good ps es _ _ Hok1 ltac:(rewrite Hp; set_solver) E1 H0 (Hh0 ps)) as (Ha & Hb & _).
  destruct (run_levents_good ps es' _ _ Hok2 ltac:(rewrite Hp; set_solver) E2 Ha Hb) as ([A1 A2 A3] & [B1 B2] & [C1 C2]).
  split; [intros k st H; by apply A2|]. split; [exact A3|]. split; [|split; [exact C2|]].
  - intros k st H. destruct (C1 k st H) as (st' & E & [K1 K2 K3]). exists st'. split; [done|]. unfold ident in K1. split; [congruence|]. by split.
  - intros p dg Hin. exact (proj1 (Forall_forall _ _) B1 _ Hin).
Qed.
End Routing.

(** ** An example: a connection, a timer, a write by the application, and a
    datagram from elsewhere under the client's old connection id. *)
Definition demo_key : bytes := [6; 216; 25; 17; 125; 61; 241; 72].
Definition routing_events : list (LEvent (T := nat)) := [LDatagram demo_addr (demo_initial ++ replicate 600 0); LTimer; LTimer].
Definition routing_events' : list (LEvent (T := nat)) :=
  [LUse demo_key (@write_stream nat demo_tls 3 [1; 2] false); LDatagram demo_addr6 demo_initial; LTimer].

Lemma routing_runs : exists l1 l2,
  for_each (@run_levent nat demo_tls toy_lib demo_clocks demo_tls_new 10) routing_events (@new_listener nat (demo_config false) 0) = Some l1 /\
  for_each (@run_levent nat demo_tls toy_lib demo_clocks demo_tls_new 10) routing_events' l1 = Some l2 /\
  (state_ ∘ conn <$> bm_find demo_key (connections_ l1)) = Some Established /\ last_peer <$> bm_find demo_key (connections_ l2) = Some demo_addr /\
  sent l2 <> [].
Proof.
  assert (E : (l1 ← for_each (@run_levent nat demo_tls toy_lib demo_clocks demo_tls_new 10) routing_events (@new_listener nat (demo_config false) 0);
    l2 ← for_each (@run_levent nat demo_tls toy_lib demo_clocks demo_tls_new 10) routing_events' l1;
    Some ((state_ ∘ conn <$> bm_find demo_key (connections_ l1)), last_peer <$> bm_find demo_key (connections_ l2), is_empty (sent l2)))
    = Some (Some Established, Some demo_addr, false)) by (vm_compute; reflexivity).
  apply bind_Some in E as (l1 & E1 & E). apply bind_Some in E as (l2 & E2 & E). exists l1, l2. split; [exact E1|]. split; [exact E2|].
  injection E as Ea Eb Ec. split; [exact Ea|]. split; [exact Eb|]. by destruct (sent l2).
Qed.

Lemma listener_routing_witness : exists l2 : Listener (T := nat), sent l2 <> [] /\ last_peer <$> bm_find demo_key (connections_ l2) = Some demo_addr /\
  (forall p dg, (p, dg) ∈ sent l2 -> p ∈ [demo_addr; demo_addr6]).
Proof.
  destruct routing_runs as (l1 & l2 & E1 & E2 & _ & E4 & E5).
  destruct (@listener_routing nat demo_tls toy_lib demo_clocks demo_tls_new 10%nat (demo_config false) 0 routing_events routing_events' l1 l2) as (_ & _ & _ & _ & H);
    [|exact E1|exact E2|].
  - do 3 (constructor; [exact I|]). constructor; [|do 2 (constructor; [exact I|]); constructor].
    intros c. exact (steps_rel evolves atom_evolves _ _ (write_stream_steps (up := true) (P := fun _ => True) 3 [1; 2] false c)).
  - exists l2. split; [exact E5|]. split; [exact E4|exact H].
Defined.
