(* ===== verification/H3Frame.v ===== *)
(** * HTTP/3 frames (RFC 9114 section 7)

    Model of example/quic-http3/src/http3/h3frame.cpp: [parse_h3_frame] and
    [encode_h3_frame].  The parser returns the cursor it leaves behind with
    every result, because on an incomplete frame it is restored and on a
    malformed body it stays behind the frame. *)
From S2P Require Import Prelude VarInt QuicFrame.

Local Open Scope Z_scope.

Inductive H3FrameType := H3tData | H3tHeaders | H3tCancelPush | H3tSettings | H3tPushPromise | H3tGoAway | H3tMaxPushId.

Definition h3_code (t : H3FrameType) : Z :=
  match t with
  | H3tData => 0x00 | H3tHeaders => 0x01 | H3tCancelPush => 0x03 | H3tSettings => 0x04
  | H3tPushPromise => 0x05 | H3tGoAway => 0x07 | H3tMaxPushId => 0x0d
  end.

Inductive H3Frame :=
| H3Data (data : bytes)
| H3Headers (encoded_field_section : bytes)
| H3Settings (entries : list (Z * Z))
| H3GoAway (stream_or_push_id : Z)
| H3MaxPushId (value : Z)
| H3CancelPush (push_id : Z)
| H3Reserved (type : Z) (data : bytes).

(** The SETTINGS loop over the frame body. *)
Definition settings_step (body : bytes) (st : nat * list (Z * Z)) : (nat * list (Z * Z)) + option (list (Z * Z)) :=
  let '(off, es) := st in
  if (off <? length body)%nat then
    match ('(i, off) ← VarInt.decode body off;
           '(v, off) ← VarInt.decode body off; Some (off, es ++ [(i, v)])) with
    | Some st' => inl st'
    | None => inr None
    end
  else inr (Some es).

Definition parse_settings (body : bytes) : option (option (list (Z * Z))) :=
  loop (settings_step body) (S (length body)) (0%nat, []).

(** GOAWAY, MAX_PUSH_ID, CANCEL_PUSH: one integer that fills the body. *)
Definition parse_single (body : bytes) : option Z :=
  '(v, off) ← VarInt.decode body 0;
  if (off =? length body)%nat then Some v else None.

(** The [switch] on the type; [None] is [return false]. *)
Definition parse_h3_body (type : Z) (body : bytes) : option H3Frame :=
  if type =? h3_code H3tData then Some (H3Data body)
  else if type =? h3_code H3tHeaders then Some (H3Headers body)
  else if type =? h3_code H3tSettings then
    match parse_settings body with Some (Some es) => Some (H3Settings es) | _ => None end
  else if type =? h3_code H3tGoAway then H3GoAway <$> parse_single body
  else if type =? h3_code H3tMaxPushId then H3MaxPushId <$> parse_single body
  else if type =? h3_code H3tCancelPush then H3CancelPush <$> parse_single body
  else Some (H3Reserved type body).

(** The frame, if any, and the cursor left behind. *)
Definition parse_h3_frame (buf : bytes) (offset : nat) : option H3Frame * nat :=
  match ('(type, off) ← VarInt.decode buf offset;
         '(len, off) ← VarInt.decode buf off; Some (type, len, off)) with
  | None => (None, offset)
  | Some (type, len, off) =>
      if #buf <? u64 (Z.of_nat off + len) then (None, offset)
      else (parse_h3_body type (take (Z.to_nat len) (drop off buf)), (off + Z.to_nat len)%nat)
  end.

Fixpoint append_entries (body : bytes) (es : list (Z * Z)) : option bytes :=
  match es with
  | [] => Some body
  | (i, v) :: es =>
      body ← VarInt.append body i;
      body ← VarInt.append body v;
      append_entries body es
  end.

(** Type, length, body. *)
Definition append_h3 (out : bytes) (type : Z) (body : bytes) : option bytes :=
  out ← VarInt.append out type;
  out ← VarInt.append out (#body);
  Some (out ++ body).

Definition encode_h3_frame (out : bytes) (f : H3Frame) : option bytes :=
  match f with
  | H3Data d => append_h3 out (h3_code H3tData) d
  | H3Headers d => append_h3 out (h3_code H3tHeaders) d
  | H3Settings es => body ← append_entries [] es; append_h3 out (h3_code H3tSettings) body
  | H3GoAway v => body ← VarInt.append [] v; append_h3 out (h3_code H3tGoAway) body
  | H3MaxPushId v => body ← VarInt.append [] v; append_h3 out (h3_code H3tMaxPushId) body
  | H3CancelPush v => body ← VarInt.append [] v; append_h3 out (h3_code H3tCancelPush) body
  | H3Reserved t d => append_h3 out t d
  end.

(** ** Specification *)

(** A reserved frame must not carry the type of one of the others. *)
Definition h3_wf (f : H3Frame) : Prop :=
  match f with
  | H3Data d | H3Headers d => varint_ok (#d)
  | H3Settings es => Forall (fun e => varint_ok e.1 /\ varint_ok e.2) es /\ varint_ok (16 * #es)
  | H3GoAway v | H3MaxPushId v | H3CancelPush v => varint_ok v
  | H3Reserved t d => varint_ok t /\ varint_ok (#d) /\
      Forall (fun k => t <> h3_code k) [H3tData; H3tHeaders; H3tCancelPush; H3tSettings; H3tGoAway; H3tMaxPushId]
  end.

Definition h3_type (f : H3Frame) : Z :=
  match f with
  | H3Data _ => h3_code H3tData | H3Headers _ => h3_code H3tHeaders | H3Settings _ => h3_code H3tSettings
  | H3GoAway _ => h3_code H3tGoAway | H3MaxPushId _ => h3_code H3tMaxPushId
  | H3CancelPush _ => h3_code H3tCancelPush | H3Reserved t _ => t
  end.

Fixpoint entries_wire (es : list (Z * Z)) : bytes :=
  match es with [] => [] | (i, v) :: es => enc i ++ enc v ++ entries_wire es end.

Definition h3_body (f : H3Frame) : bytes :=
  match f with
  | H3Data d | H3Headers d | H3Reserved _ d => d
  | H3Settings es => entries_wire es
  | H3GoAway v | H3MaxPushId v | H3CancelPush v => enc v
  end.

(** ** Lemmas *)

Lemma append_entries_ok es : forall body, Forall (fun e => varint_ok e.1 /\ varint_ok e.2) es ->
  append_entries body es = Some (body ++ entries_wire es).
Proof.
  induction es as [|[i v] es IH]; intros body H; simpl; [by rewrite app_nil_r|].
  inversion H as [|? ? [? ?]]; subst. simpl in *. repeat encode_step. rewrite IH by done. by rewrite <- !app_assoc.
Qed.

Lemma entries_wire_length es : Forall (fun e => varint_ok e.1 /\ varint_ok e.2) es ->
  (length (entries_wire es) <= 16 * length es)%nat.
Proof.
  induction es as [|[i v] es IH]; intros H; simpl; [lia|]. inversion H as [|? ? [Hi Hv] H']; subst.
  simpl in *. specialize (IH H'). rewrite !length_app. pose proof (enc_length_pos i Hi).
  pose proof (enc_length_pos v Hv). lia.
Qed.

Lemma h3_wire_ok f : h3_wf f -> varint_ok (h3_type f) /\ varint_ok (#(h3_body f)).
Proof.
  assert (Hcode : forall t, varint_ok (h3_code t)) by (intros []; vm_compute; split; discriminate).
  intros Hwf. destruct f as [d|d|es|v|v|v|t d]; cbn [h3_wf h3_type h3_body] in *;
    (split; [first [apply Hcode|apply Hwf]|]); try assumption.
  - destruct Hwf as [Hes Hlen]. pose proof (entries_wire_length es Hes). unfold varint_ok in *. lia.
  - pose proof (enc_length_pos v Hwf). unfold varint_ok. change kMax with (2 ^ 62 - 1). lia.
  - pose proof (enc_length_pos v Hwf). unfold varint_ok. change kMax with (2 ^ 62 - 1). lia.
  - pose proof (enc_length_pos v Hwf). unfold varint_ok. change kMax with (2 ^ 62 - 1). lia.
  - apply Hwf.
Qed.

Lemma encode_h3_ok f out : h3_wf f ->
  encode_h3_frame out f = Some (out ++ enc (h3_type f) ++ enc (#(h3_body f)) ++ h3_body f).
Proof.
  intros Hwf. destruct (h3_wire_ok f Hwf) as [Ht Hl].
  assert (Ha : append_h3 out (h3_type f) (h3_body f) =
    Some (out ++ enc (h3_type f) ++ enc (#(h3_body f)) ++ h3_body f)).
  { unfold append_h3. repeat encode_step. by rewrite <- !app_assoc. }
  destruct f as [d|d|es|v|v|v|t d]; simpl in *; try done.
  - rewrite append_entries_ok by apply Hwf. done.
  - rewrite append_ok by done. done.
  - rewrite append_ok by done. done.
  - rewrite append_ok by done. done.
Qed.

Lemma parse_single_enc v : varint_ok v -> parse_single (enc v) = Some v.
Proof.
  intros H. unfold parse_single. rewrite (decode_at _ _ v []); [|done|split; [lia|by rewrite app_nil_r]].
  simpl. by rewrite Nat.eqb_refl.
Qed.

Lemma settings_run body es : forall off acc fuel,
  Forall (fun e => varint_ok e.1 /\ varint_ok e.2) es -> at_cursor body off (entries_wire es) ->
  (length (entries_wire es) < fuel)%nat ->
  loop (settings_step body) fuel (off, acc) = Some (Some (acc ++ es)).
Proof.
  induction es as [|[i v] es IH]; intros off acc [|fuel] Hok Hc Hf; try lia.
  - apply at_cursor_length in Hc. simpl in *. rewrite (proj2 (Nat.ltb_ge _ _)) by lia. by rewrite app_nil_r.
  - inversion Hok as [|? ? [Hi Hv] Hok']; subst. simpl in Hi, Hv.
    pose proof (at_cursor_length _ _ _ Hc) as Hl. simpl in Hc, Hf, Hl. rewrite !length_app in Hf, Hl.
    pose proof (enc_length_pos i Hi). cbn [loop settings_step]. rewrite (proj2 (Nat.ltb_lt _ _)) by lia.
    do 2 varint_step. rewrite IH; [by rewrite <- app_assoc|done|done|lia].
Qed.

Lemma parse_h3_body_ok f : h3_wf f -> parse_h3_body (h3_type f) (h3_body f) = Some f.
Proof.
  intros Hwf. destruct f as [d|d|es|v|v|v|t d]; unfold parse_h3_body; cbn [h3_type h3_body]; try done.
  - cbn [h3_code Z.eqb Pos.eqb]. unfold parse_settings.
    rewrite (settings_run _ es); [done|apply Hwf|by split; [lia|]|lia].
  - cbn [h3_code Z.eqb Pos.eqb]. by rewrite parse_single_enc.
  - cbn [h3_code Z.eqb Pos.eqb]. by rewrite parse_single_enc.
  - cbn [h3_code Z.eqb Pos.eqb]. by rewrite parse_single_enc.
  - destruct Hwf as (_ & _ & Hne). repeat match goal with H : Forall _ (_ :: _) |- _ => inversion H; clear H; subst end.
    by rewrite !(proj2 (Z.eqb_neq _ _)) by done.
Qed.

Lemma settings_step_decreases body st st' : settings_step body st = inl st' ->
  (length body - st'.1 < length body - st.1)%nat.
Proof.
  destruct st as [off es]. unfold settings_step. destruct (Nat.ltb_spec off (length body)); [|done].
  destruct (VarInt.decode body off) as [[i o1]|] eqn:E1; [|done]. cbn [mbind option_bind].
  destruct (VarInt.decode body o1) as [[v o2]|] eqn:E2; [|done]. cbn [mbind option_bind].
  apply decode_progress in E1. apply decode_progress in E2. intros [= <-]. simpl. lia.
Qed.

(** ** Properties *)

(** The wire image of a frame, read back. *)
Lemma h3_frame_wire f out : h3_wf f ->
  exists bs, encode_h3_frame out f = Some (out ++ bs) /\
    (forall buf off rest, size_ok buf -> at_cursor buf off (bs ++ rest) ->
       parse_h3_frame buf off = (Some f, (off + length bs)%nat)) /\
    (forall buf off n, size_ok buf -> (n < length bs)%nat -> at_cursor buf off (take n bs) ->
       parse_h3_frame buf off = (None, off)).
Proof.
  intros Hwf. destruct (h3_wire_ok f Hwf) as [Ht Hl]. eexists. split; [by apply encode_h3_ok|]. split.
  - intros buf off rest Hs Hc. rewrite <- !app_assoc in Hc. unfold parse_h3_frame. do 2 varint_step.
    pose proof (at_cursor_length _ _ _ Hc) as Hlen. rewrite length_app in Hlen. unfold size_ok in Hs.
    rewrite u64_small by (unfold u64_ok; lia). rewrite (proj2 (Z.ltb_ge _ _)), Nat2Z.id by lia.
    destruct Hc as [_ ->]. rewrite take_app_length, parse_h3_body_ok by done. f_equal. rewrite !length_app. lia.
  - intros buf off n Hs Hn Hc. unfold parse_h3_frame. rewrite !length_app in Hn.
    destruct (take_app_cases n (enc (h3_type f)) (enc (#(h3_body f)) ++ h3_body f)) as [[Hlt E]|[Hge E]];
      rewrite E in Hc; [by rewrite (decode_prefix _ _ _ _ Ht Hlt Hc)|]. varint_step.
    match type of Hc with at_cursor _ _ (take ?k _) => set (k' := k) in * end.
    destruct (take_app_cases k' (enc (#(h3_body f))) (h3_body f)) as [[Hlt2 E2]|[Hge2 E2]];
      rewrite E2 in Hc; [by rewrite (decode_prefix _ _ _ _ Hl Hlt2 Hc)|]. varint_step.
    pose proof (at_cursor_length _ _ _ Hc) as Hlen. rewrite length_take in Hlen. unfold size_ok in Hs.
    destruct Hl as [_ Hl]. change kMax with (2 ^ 62 - 1) in Hl.
    rewrite u64_small by (unfold u64_ok; lia). by rewrite (proj2 (Z.ltb_lt _ _)) by lia.
Qed.

(** HTTP/3 frames round-trip anywhere in a buffer, with the cursor
    behind the frame, whatever follows; and a frame of which only a strict
    prefix has arrived is reported incomplete with the cursor restored. *)
Theorem h3_frame_roundtrip f out : h3_wf f ->
  exists bs, encode_h3_frame out f = Some (out ++ bs) /\
    (forall buf off rest, size_ok buf -> at_cursor buf off (bs ++ rest) ->
       parse_h3_frame buf off = (Some f, (off + length bs)%nat)) /\
    (forall buf off n, size_ok buf -> (n < length bs)%nat -> at_cursor buf off (take n bs) ->
       parse_h3_frame buf off = (None, off)).
Proof. exact (h3_frame_wire f out). Qed.

Lemma h3_frame_roundtrip_witness :
  exists bs, encode_h3_frame [9] (H3Settings [(6, 16384); (1, 0)]) = Some ([9] ++ bs) /\
    (forall buf off rest, size_ok buf -> at_cursor buf off (bs ++ rest) ->
       parse_h3_frame buf off = (Some (H3Settings [(6, 16384); (1, 0)]), (off + length bs)%nat)).
Proof.
  destruct (h3_frame_roundtrip (H3Settings [(6, 16384); (1, 0)]) [9]) as (bs & H1 & H2 & _).
  - split; [|vm_compute; split; discriminate].
    repeat (apply Forall_cons_2; [split; vm_compute; split; discriminate|]). apply Forall_nil_2.
  - exists bs. split; [exact H1|exact H2].
Defined.

(** Parsing hostile input is safe: the SETTINGS loop always ends, the
    cursor never leaves the buffer, and it only stays where it was when
    nothing was parsed. *)
Theorem parse_h3_frame_safe buf offset : bytes_ok buf -> size_ok buf -> (offset <= length buf)%nat ->
  (forall body, exists r, parse_settings body = Some r) /\
  (offset <= (parse_h3_frame buf offset).2 <= length buf)%nat /\
  ((parse_h3_frame buf offset).2 = offset -> (parse_h3_frame buf offset).1 = None).
Proof.
  intros Hb Hs Ho. split.
  { intros body. apply (loop_total _ (fun _ => True) (fun st => length body - st.1)%nat); [|done|simpl; lia].
    intros st st' _ Hst. split; [done|]. by apply settings_step_decreases. }
  unfold parse_h3_frame. destruct (VarInt.decode buf offset) as [[t o1]|] eqn:E1; [|done]. cbn [mbind option_bind].
  destruct (VarInt.decode buf o1) as [[l o2]|] eqn:E2; [|done]. cbn [mbind option_bind].
  apply decode_bounds in E1 as (_ & E1 & _); [|done]. apply decode_bounds in E2 as ([Hl0 Hl1] & E2 & _); [|done].
  unfold size_ok in Hs. change kMax with (2 ^ 62 - 1) in Hl1. rewrite u64_small by (unfold u64_ok; lia).
  destruct (Z.ltb_spec (#buf) (Z.of_nat o2 + l)); simpl; [lia || done|]. split; [lia|]. lia.
Qed.

Lemma parse_h3_frame_safe_witness : (0 <= (parse_h3_frame [0; 1; 7]%Z 0).2 <= 3)%nat.
Proof. apply (parse_h3_frame_safe [0; 1; 7] 0); [repeat constructor; done|done|simpl; lia]. Defined.

