(* ===== verification/Chunking.v ===== *)
(** * Incremental byte machines

    The reactor dispatchers share one shape: bytes are appended to a receive
    buffer, and a loop consumes as much of it as the current state allows.
    [ByteMachine] is that shape and [ByteMachineLaws] what a dispatcher
    promises about one iteration; from the laws follow that processing
    terminates and that the way the network splits the bytes does not matter. *)
From S2P Require Import Prelude.

(** [bm_step]: [inl] goes on, [inr] returns (to wait for bytes or because the
    connection is closing). *)
Class ByteMachine (S : Type) := {
  (** Bounds the number of iterations; usually the bytes buffered. *)
  bm_weight : S -> nat;
  bm_push : bytes -> S -> S;
  bm_closing : S -> bool;
  bm_step : S -> S + S
}.

Class ByteMachineLaws (S : Type) `{ByteMachine S} := {
  (** The states in which the laws hold. *)
  bm_ok : S -> Prop;
  bm_push_closing : forall x s, bm_closing (bm_push x s) = bm_closing s;
  bm_push_push : forall x y s, bm_push y (bm_push x s) = bm_push (x ++ y) s;
  (** A state is in order when it is with more input behind (so that a
      dispatcher may bound what it buffers). *)
  bm_push_ok : forall x s, bm_ok (bm_push x s) -> bm_ok s;
  (** An iteration that goes on makes progress. *)
  bm_progress : forall s s', bm_ok s -> bm_step s = inl s' ->
    bm_ok s' /\ (bm_weight s' < bm_weight s)%nat;
  (** It does the same with more bytes behind. *)
  bm_step_push : forall s s' x, bm_ok s -> bm_step s = inl s' -> bm_step (bm_push x s) = inl (bm_push x s');
  (** An iteration that returns is closing, or has changed nothing. *)
  bm_return_ok : forall s r, bm_ok s -> bm_step s = inr r -> bm_ok r;
  bm_return : forall s r x, bm_ok s -> bm_step s = inr r ->
    r = s \/ (bm_closing r = true /\ bm_step (bm_push x s) = inr (bm_push x r));
  bm_closing_stops : forall s, bm_closing s = true -> bm_step s = inr s
}.

(** ** The receive loop *)

Definition bm_process {S} `{ByteMachine S} (s : S) : option S := loop bm_step (Datatypes.S (bm_weight s)) s.

Definition bm_on_data {S} `{ByteMachine S} (data : bytes) (s : S) : option S :=
  let s := bm_push data s in if bm_closing s then Some s else bm_process s.

Fixpoint bm_feed {S} `{ByteMachine S} (chunks : list bytes) (s : S) : option S :=
  match chunks with
  | [] => Some s
  | c :: chunks => bm_on_data c s ≫= bm_feed chunks
  end.

Section Laws.
Context {S : Type} `{ByteMachineLaws S}.

Lemma bm_total s fuel : bm_ok s -> (bm_weight s < fuel)%nat ->
  exists r, loop bm_step fuel s = Some r /\ bm_ok r.
Proof.
  intros Hok Hf. destruct (loop_total bm_step bm_ok bm_weight bm_progress fuel s Hok Hf) as [r Hr].
  exists r. split; [done|]. revert Hr. apply (loop_post _ bm_ok bm_ok); [by intros; eapply bm_progress|exact bm_return_ok|done].
Qed.

Lemma bm_process_push s r x fuel fuel' : bm_ok (bm_push x s) -> loop bm_step fuel s = Some r ->
  (bm_weight (bm_push x s) < fuel')%nat ->
  loop bm_step fuel' (bm_push x s) = (if bm_closing r then Some (bm_push x r) else bm_process (bm_push x r)) /\
  bm_ok (bm_push x r).
Proof.
  revert s fuel'. induction fuel as [|fuel IH]; intros s fuel' Hok Hr Hf; [done|]. cbn [loop] in Hr.
  pose proof (bm_push_ok _ _ Hok) as Hs0. destruct (bm_step s) as [s'|r'] eqn:Es.
  - pose proof (bm_step_push _ _ x Hs0 Es) as Ep. pose proof (bm_progress _ _ Hok Ep) as [Hok' Hlt].
    destruct fuel' as [|fuel']; [lia|]. cbn [loop]. rewrite Ep. apply IH; [done|done|lia].
  - injection Hr as ->. destruct (bm_return _ _ x Hs0 Es) as [->|[Hcl Hs]].
    + split; [|done]. destruct (bm_total (bm_push x s) (Datatypes.S (bm_weight (bm_push x s))) Hok) as (r2 & Hr2 & _); [lia|].
      unfold bm_process. rewrite Hr2. assert (Hm : loop bm_step fuel' (bm_push x s) = Some r2).
      { eapply loop_mono; [exact Hr2|lia]. }
      rewrite Hm. destruct (bm_closing s) eqn:Ec; [|done]. cbn [loop] in Hr2.
      rewrite bm_closing_stops in Hr2 by (by rewrite bm_push_closing). congruence.
    + split; [|by apply (bm_return_ok _ _ Hok Hs)]. rewrite Hcl. destruct fuel' as [|fuel']; [lia|]. cbn [loop]. by rewrite Hs.
Qed.

(** Processing terminates. *)
Lemma bm_on_data_total s data : bm_ok (bm_push data s) -> exists s', bm_on_data data s = Some s' /\ bm_ok s'.
Proof.
  intros Hp. unfold bm_on_data. cbv zeta. case_match; [by eexists|]. apply bm_total; [done|lia].
Qed.

(** Two reads are one. *)
Lemma bm_on_data_app s a b : bm_ok (bm_push (a ++ b) s) -> exists r, bm_on_data a s = Some r /\
  bm_on_data (a ++ b) s = bm_on_data b r /\ bm_ok (bm_push b r).
Proof.
  rewrite <- bm_push_push. intros Hok. pose proof (bm_push_ok _ _ Hok) as Ha.
  destruct (bm_on_data_total s a Ha) as (r & Hr & Hokr). exists r. split; [done|].
  unfold bm_on_data in *. cbv zeta in *. rewrite !bm_push_closing in *. destruct (bm_closing s) eqn:Ec.
  - injection Hr as <-. split; [by rewrite bm_push_closing, Ec, bm_push_push|done].
  - rewrite <- (bm_push_push a b s). unfold bm_process at 1. apply (bm_process_push (bm_push a s) r b _ _ Hok Hr). lia.
Qed.

(** What a read leaves behind waits for bytes. *)
Lemma bm_idle_after s c r : bm_ok (bm_push c s) -> bm_on_data c s = Some r -> bm_on_data [] r = Some r.
Proof.
  intros Hok Hr. assert (Hok' : bm_ok (bm_push (c ++ []) s)) by by rewrite app_nil_r.
  destruct (bm_on_data_app s c [] Hok') as (r' & Hr' & Ha' & _). rewrite app_nil_r in Ha'. congruence.
Qed.

(** From a state that waits for bytes, any split gives the same result. *)
Lemma bm_chunking s chunks : bm_on_data [] s = Some s -> bm_ok (bm_push (concat chunks) s) ->
  exists r, bm_feed chunks s = Some r /\ bm_on_data (concat chunks) s = Some r /\ bm_ok r.
Proof.
  revert s. induction chunks as [|c cs IH]; cbn [concat bm_feed]; intros s Hidle Hok.
  - exists s. pose proof (bm_push_ok _ _ Hok). done.
  - destruct (bm_on_data_app s c (concat cs) Hok) as (r & Hr & Ha & Hk). rewrite Hr. cbn [mbind option_bind].
    assert (Hi : bm_on_data [] r = Some r).
    { eapply bm_idle_after; [|exact Hr]. rewrite <- bm_push_push in Hok. by eapply bm_push_ok. }
    rewrite Ha. exact (IH r Hi Hk).
Qed.
End Laws.
