(* ===== verification/Huffman.v ===== *)
(** * Huffman coding of header strings (RFC 7541 appendix B)

    Model of src/codec/huffman.cpp, shared by HPACK and QPACK: the code table,
    the bit-packing encoder, the decoding tree built from the table (an array
    of nodes with child indices, -1 for none) and the decoder that walks it.
    Strings and byte buffers are lists of bytes. *)
From S2P Require Import Prelude.

Local Open Scope Z_scope.

(** ** Table *)

(** Per symbol: code and bit length; entry 256 is EOS. *)
Definition kTable : list (Z * nat) :=
  [
   (0x1ff8, 13%nat); (0x7fffd8, 23%nat); (0xfffffe2, 28%nat); (0xfffffe3, 28%nat); (0xfffffe4, 28%nat); (0xfffffe5, 28%nat);
   (0xfffffe6, 28%nat); (0xfffffe7, 28%nat); (0xfffffe8, 28%nat); (0xffffea, 24%nat); (0x3ffffffc, 30%nat); (0xfffffe9, 28%nat);
   (0xfffffea, 28%nat); (0x3ffffffd, 30%nat); (0xfffffeb, 28%nat); (0xfffffec, 28%nat); (0xfffffed, 28%nat); (0xfffffee, 28%nat);
   (0xfffffef, 28%nat); (0xffffff0, 28%nat); (0xffffff1, 28%nat); (0xffffff2, 28%nat); (0x3ffffffe, 30%nat); (0xffffff3, 28%nat);
   (0xffffff4, 28%nat); (0xffffff5, 28%nat); (0xffffff6, 28%nat); (0xffffff7, 28%nat); (0xffffff8, 28%nat); (0xffffff9, 28%nat);
   (0xffffffa, 28%nat); (0xffffffb, 28%nat); (0x14, 6%nat); (0x3f8, 10%nat); (0x3f9, 10%nat); (0xffa, 12%nat);
   (0x1ff9, 13%nat); (0x15, 6%nat); (0xf8, 8%nat); (0x7fa, 11%nat); (0x3fa, 10%nat); (0x3fb, 10%nat);
   (0xf9, 8%nat); (0x7fb, 11%nat); (0xfa, 8%nat); (0x16, 6%nat); (0x17, 6%nat); (0x18, 6%nat);
   (0x0, 5%nat); (0x1, 5%nat); (0x2, 5%nat); (0x19, 6%nat); (0x1a, 6%nat); (0x1b, 6%nat);
   (0x1c, 6%nat); (0x1d, 6%nat); (0x1e, 6%nat); (0x1f, 6%nat); (0x5c, 7%nat); (0xfb, 8%nat);
   (0x7ffc, 15%nat); (0x20, 6%nat); (0xffb, 12%nat); (0x3fc, 10%nat); (0x1ffa, 13%nat); (0x21, 6%nat);
   (0x5d, 7%nat); (0x5e, 7%nat); (0x5f, 7%nat); (0x60, 7%nat); (0x61, 7%nat); (0x62, 7%nat);
   (0x63, 7%nat); (0x64, 7%nat); (0x65, 7%nat); (0x66, 7%nat); (0x67, 7%nat); (0x68, 7%nat);
   (0x69, 7%nat); (0x6a, 7%nat); (0x6b, 7%nat); (0x6c, 7%nat); (0x6d, 7%nat); (0x6e, 7%nat);
   (0x6f, 7%nat); (0x70, 7%nat); (0x71, 7%nat); (0x72, 7%nat); (0xfc, 8%nat); (0x73, 7%nat);
   (0xfd, 8%nat); (0x1ffb, 13%nat); (0x7fff0, 19%nat); (0x1ffc, 13%nat); (0x3ffc, 14%nat); (0x22, 6%nat);
   (0x7ffd, 15%nat); (0x3, 5%nat); (0x23, 6%nat); (0x4, 5%nat); (0x24, 6%nat); (0x5, 5%nat);
   (0x25, 6%nat); (0x26, 6%nat); (0x27, 6%nat); (0x6, 5%nat); (0x74, 7%nat); (0x75, 7%nat);
   (0x28, 6%nat); (0x29, 6%nat); (0x2a, 6%nat); (0x7, 5%nat); (0x2b, 6%nat); (0x76, 7%nat);
   (0x2c, 6%nat); (0x8, 5%nat); (0x9, 5%nat); (0x2d, 6%nat); (0x77, 7%nat); (0x78, 7%nat);
   (0x79, 7%nat); (0x7a, 7%nat); (0x7b, 7%nat); (0x7ffe, 15%nat); (0x7fc, 11%nat); (0x3ffd, 14%nat);
   (0x1ffd, 13%nat); (0xffffffc, 28%nat); (0xfffe6, 20%nat); (0x3fffd2, 22%nat); (0xfffe7, 20%nat); (0xfffe8, 20%nat);
   (0x3fffd3, 22%nat); (0x3fffd4, 22%nat); (0x3fffd5, 22%nat); (0x7fffd9, 23%nat); (0x3fffd6, 22%nat); (0x7fffda, 23%nat);
   (0x7fffdb, 23%nat); (0x7fffdc, 23%nat); (0x7fffdd, 23%nat); (0x7fffde, 23%nat); (0xffffeb, 24%nat); (0x7fffdf, 23%nat);
   (0xffffec, 24%nat); (0xffffed, 24%nat); (0x3fffd7, 22%nat); (0x7fffe0, 23%nat); (0xffffee, 24%nat); (0x7fffe1, 23%nat);
   (0x7fffe2, 23%nat); (0x7fffe3, 23%nat); (0x7fffe4, 23%nat); (0x1fffdc, 21%nat); (0x3fffd8, 22%nat); (0x7fffe5, 23%nat);
   (0x3fffd9, 22%nat); (0x7fffe6, 23%nat); (0x7fffe7, 23%nat); (0xffffef, 24%nat); (0x3fffda, 22%nat); (0x1fffdd, 21%nat);
   (0xfffe9, 20%nat); (0x3fffdb, 22%nat); (0x3fffdc, 22%nat); (0x7fffe8, 23%nat); (0x7fffe9, 23%nat); (0x1fffde, 21%nat);
   (0x7fffea, 23%nat); (0x3fffdd, 22%nat); (0x3fffde, 22%nat); (0xfffff0, 24%nat); (0x1fffdf, 21%nat); (0x3fffdf, 22%nat);
   (0x7fffeb, 23%nat); (0x7fffec, 23%nat); (0x1fffe0, 21%nat); (0x1fffe1, 21%nat); (0x3fffe0, 22%nat); (0x1fffe2, 21%nat);
   (0x7fffed, 23%nat); (0x3fffe1, 22%nat); (0x7fffee, 23%nat); (0x7fffef, 23%nat); (0xfffea, 20%nat); (0x3fffe2, 22%nat);
   (0x3fffe3, 22%nat); (0x3fffe4, 22%nat); (0x7ffff0, 23%nat); (0x3fffe5, 22%nat); (0x3fffe6, 22%nat); (0x7ffff1, 23%nat);
   (0x3ffffe0, 26%nat); (0x3ffffe1, 26%nat); (0xfffeb, 20%nat); (0x7fff1, 19%nat); (0x3fffe7, 22%nat); (0x7ffff2, 23%nat);
   (0x3fffe8, 22%nat); (0x1ffffec, 25%nat); (0x3ffffe2, 26%nat); (0x3ffffe3, 26%nat); (0x3ffffe4, 26%nat); (0x7ffffde, 27%nat);
   (0x7ffffdf, 27%nat); (0x3ffffe5, 26%nat); (0xfffff1, 24%nat); (0x1ffffed, 25%nat); (0x7fff2, 19%nat); (0x1fffe3, 21%nat);
   (0x3ffffe6, 26%nat); (0x7ffffe0, 27%nat); (0x7ffffe1, 27%nat); (0x3ffffe7, 26%nat); (0x7ffffe2, 27%nat); (0xfffff2, 24%nat);
   (0x1fffe4, 21%nat); (0x1fffe5, 21%nat); (0x3ffffe8, 26%nat); (0x3ffffe9, 26%nat); (0xffffffd, 28%nat); (0x7ffffe3, 27%nat);
   (0x7ffffe4, 27%nat); (0x7ffffe5, 27%nat); (0xfffec, 20%nat); (0xfffff3, 24%nat); (0xfffed, 20%nat); (0x1fffe6, 21%nat);
   (0x3fffe9, 22%nat); (0x1fffe7, 21%nat); (0x1fffe8, 21%nat); (0x7ffff3, 23%nat); (0x3fffea, 22%nat); (0x3fffeb, 22%nat);
   (0x1ffffee, 25%nat); (0x1ffffef, 25%nat); (0xfffff4, 24%nat); (0xfffff5, 24%nat); (0x3ffffea, 26%nat); (0x7ffff4, 23%nat);
   (0x3ffffeb, 26%nat); (0x7ffffe6, 27%nat); (0x3ffffec, 26%nat); (0x3ffffed, 26%nat); (0x7ffffe7, 27%nat); (0x7ffffe8, 27%nat);
   (0x7ffffe9, 27%nat); (0x7ffffea, 27%nat); (0x7ffffeb, 27%nat); (0xffffffe, 28%nat); (0x7ffffec, 27%nat); (0x7ffffed, 27%nat);
   (0x7ffffee, 27%nat); (0x7ffffef, 27%nat); (0x7fffff0, 27%nat); (0x3ffffee, 26%nat); (0x3fffffff, 30%nat)
  ].

(** [kTable[ch]], with the bounds of [std::array] as a default. *)
Definition sym_of (ch : Z) : Z * nat := nth (Z.to_nat ch) kTable (0, 0%nat).

(** ** Encoder *)

Fixpoint encoded_bits (input : bytes) : nat :=
  match input with [] => 0 | ch :: input => (sym_of ch).2 + encoded_bits input end.

Definition huffman_encoded_size (input : bytes) : nat := (encoded_bits input + 7) / 8.

(** [while (held >= 8)]: emit the top eight of the held bits. *)
Fixpoint flush_bytes (fuel : nat) (buf : Z) (held : nat) (out : bytes) : nat * bytes :=
  match fuel with
  | O => (held, out)
  | S fuel =>
      if (8 <=? held)%nat then
        let held := (held - 8)%nat in
        flush_bytes fuel buf held (out ++ [u8 ((buf .>> Z.of_nat held) .& 0xFF)])
      else (held, out)
  end.

(** One character: the state is the 64-bit buffer, the number of bits held
    and the output.  At most 37 bits are held, so the inner loop runs at most
    four times. *)
Definition encode_char (st : Z * nat * bytes) (ch : Z) : Z * nat * bytes :=
  let '(buf, held, out) := st in
  let '(code, bits) := sym_of ch in
  let buf := u64 (buf .<< Z.of_nat bits) .| code in
  let '(held, out) := flush_bytes 5 buf (held + bits) out in
  (buf, held, out).

Definition huffman_encode (input : bytes) (out : bytes) : bytes :=
  let '(buf, held, out) := foldl encode_char (0, 0%nat, out) input in
  if (0 <? held)%nat then
    let pad := Z.of_nat (8 - held) in
    let pad_bits := (1 .<< pad) - 1 in
    out ++ [u8 ((u64 (buf .<< pad) .| pad_bits) .& 0xFF)]
  else out.

(** ** Decoding tree *)

Record DecNode := mkNode { child0 : Z; child1 : Z; symbol : Z }.

Definition empty_node : DecNode := mkNode (-1) (-1) (-1).

Definition child (n : DecNode) (b : bool) : Z := if b then child1 n else child0 n.
Definition set_child (n : DecNode) (b : bool) (c : Z) : DecNode :=
  if b then mkNode (child0 n) c (symbol n) else mkNode c (child1 n) (symbol n).

Definition node_at (nodes : list DecNode) (i : Z) : DecNode := nth (Z.to_nat i) nodes empty_node.

(** The loop of [HuffTree::insert] over the bits of a code, most significant
    first, from node [cur]. *)
Fixpoint insert_bits (nodes : list DecNode) (cur : Z) (sym : Z) (code : Z) (bits : nat) : list DecNode :=
  match bits with
  | O => alter (fun n => mkNode (child0 n) (child1 n) sym) (Z.to_nat cur) nodes
  | S k =>
      let b := negb ((code .>> Z.of_nat k) .& 1 =? 0) in
      let next := child (node_at nodes cur) b in
      if next <? 0 then
        let next := #nodes in
        let nodes := alter (fun n => set_child n b next) (Z.to_nat cur) (nodes ++ [empty_node]) in
        insert_bits nodes next sym code k
      else insert_bits nodes next sym code k
  end.

Definition insert (nodes : list DecNode) (sym : Z) (code : Z) (bits : nat) : list DecNode :=
  insert_bits nodes 0 sym code bits.

(** [HuffTree::HuffTree]: the root, then symbols 0..256. *)
Definition build_tree : list DecNode :=
  foldl (fun nodes '(s, (code, bits)) => insert nodes (Z.of_nat s) code bits) [empty_node]
    (zip (seq 0 257) kTable).

(** The tree as computed once ([static const HuffTree]). *)
Definition tree : list DecNode := Eval vm_compute in build_tree.

Definition step (node : Z) (b : bool) : Z := child (node_at tree node) b.
Definition symbol_at (node : Z) : Z := symbol (node_at tree node).

(** ** Decoder *)

Record DecState := mkDec {
  d_node : Z; d_bit_count : nat; d_pad_start_node : Z; d_pad_start_bit : nat; d_out : bytes }.

(** The body of the inner loop; [None] is [return false]. *)
Definition decode_bit (st : DecState) (b : bool) : option DecState :=
  let next := step (d_node st) b in
  if next <? 0 then None else
  let bit_count := S (d_bit_count st) in
  let sym := symbol_at next in
  if 0 <=? sym then
    if sym =? 256 then None
    else Some (mkDec 0 bit_count 0 bit_count (d_out st ++ [u8 sym]))
  else Some (mkDec next bit_count (d_pad_start_node st) (d_pad_start_bit st) (d_out st)).

Fixpoint decode_bits (st : DecState) (bs : list bool) : option DecState :=
  match bs with
  | [] => Some st
  | b :: bs => st ← decode_bit st b; decode_bits st bs
  end.

(** [(b >> j) & 1] for [j = 7 .. 0]. *)
Definition byte_bits (b : Z) : list bool :=
  (fun j => negb ((b .>> j) .& 1 =? 0)) <$> [7; 6; 5; 4; 3; 2; 1; 0].

Fixpoint decode_bytes (st : DecState) (input : bytes) : option DecState :=
  match input with
  | [] => Some st
  | b :: input => st ← decode_bits st (byte_bits b); decode_bytes st input
  end.

(** The walk along ones that validates the padding. *)
Fixpoint walk_ones (n : nat) (node : Z) : option Z :=
  match n with
  | O => Some node
  | S n => let next := step node true in if next <? 0 then None else walk_ones n next
  end.

Definition huffman_decode (input : bytes) : option bytes :=
  st ← decode_bytes (mkDec 0 0 0 0 []) input;
  if d_node st =? 0 then Some (d_out st) else
  let pad_bits := (d_bit_count st - d_pad_start_bit st)%nat in
  if (7 <? pad_bits)%nat then None else
  match walk_ones pad_bits (d_pad_start_node st) with
  | Some check => if check =? d_node st then Some (d_out st) else None
  | None => None
  end.

(** ** Bit strings *)

(** The [n] low bits of [v], most significant first. *)
Fixpoint bits_of (n : nat) (v : Z) : list bool :=
  match n with O => [] | S k => Z.testbit v (Z.of_nat k) :: bits_of k v end.

Definition code_bits (s : Z) : list bool := bits_of (sym_of s).2 (sym_of s).1.

Fixpoint codes (input : bytes) : list bool :=
  match input with [] => [] | ch :: input => code_bits ch ++ codes input end.

Fixpoint bytes_bits (l : bytes) : list bool :=
  match l with [] => [] | b :: l => byte_bits b ++ bytes_bits l end.

Lemma bits_of_length n v : length (bits_of n v) = n.
Proof. induction n; simpl; congruence. Qed.

Lemma bits_of_ext n v w : (forall i, 0 <= i < Z.of_nat n -> Z.testbit v i = Z.testbit w i) -> bits_of n v = bits_of n w.
Proof.
  induction n as [|n IH]; intros H; simpl; [done|]. f_equal; [apply H; lia|]. apply IH. intros; apply H; lia.
Qed.

Lemma bits_of_split a b v : bits_of (a + b) v = bits_of a (v .>> Z.of_nat b) ++ bits_of b v.
Proof.
  induction a as [|a IH]; simpl; [done|]. rewrite IH. f_equal.
  rewrite Z.shiftr_spec by lia. f_equal. lia.
Qed.

Lemma bit_test v j : 0 <= j -> negb ((v .>> j) .& 1 =? 0) = Z.testbit v j.
Proof.
  intros Hj. rewrite Z.testbit_eqb by lia. rewrite (land_mask _ 1 1), shr_div by (lia || done).
  change (2 ^ 1) with 2. pose proof (Z.mod_pos_bound (v / 2 ^ j) 2). destruct (Z.eqb_spec ((v / 2 ^ j) mod 2) 0);
    destruct (Z.eqb_spec ((v / 2 ^ j) mod 2) 1); simpl; lia || done.
Qed.

Lemma byte_bits_spec b : byte_bits b = bits_of 8 b.
Proof. unfold byte_bits. cbn [fmap list_fmap bits_of]. rewrite !bit_test by lia. done. Qed.

Lemma bits_of_u8 v : bits_of 8 (u8 (v .& 0xFF)) = bits_of 8 v.
Proof.
  apply bits_of_ext. intros i Hi. rewrite u8_land255. change 0xFF with (Z.ones 8).
  rewrite Z.land_spec, Z.ones_spec_low, andb_true_r by lia. done.
Qed.

Lemma bytes_bits_app l k : bytes_bits (l ++ k) = bytes_bits l ++ bytes_bits k.
Proof. induction l as [|b l IH]; [done|]. cbn [app bytes_bits]. by rewrite IH, <- app_assoc. Qed.

Lemma bytes_bits_length l : length (bytes_bits l) = (8 * length l)%nat.
Proof. induction l as [|b l IH]; [done|]. cbn [bytes_bits]. rewrite length_app, IH. simpl. lia. Qed.

(** Bytes are determined by their bits. *)
Lemma bits_of_inj n v w : 0 <= v < 2 ^ Z.of_nat n -> 0 <= w < 2 ^ Z.of_nat n -> bits_of n v = bits_of n w -> v = w.
Proof.
  intros Hv Hw H.
  assert (Hb : forall i, 0 <= i < Z.of_nat n -> Z.testbit v i = Z.testbit w i).
  { clear Hv Hw. induction n as [|n IH]; intros i Hi; [lia|]. simpl in H. injection H as H0 H1.
    destruct (decide (i = Z.of_nat n)) as [->|]; [done|]. apply IH; [done|lia]. }
  apply Z.bits_inj_iff'. intros i Hi. destruct (decide (i < Z.of_nat n)); [apply Hb; lia|].
  rewrite <- (Z.mod_small v (2 ^ Z.of_nat n)), <- (Z.mod_small w (2 ^ Z.of_nat n)) by done.
  rewrite !Z.mod_pow2_bits_high by lia. done.
Qed.

Lemma bytes_bits_inj l k : bytes_ok l -> bytes_ok k -> bytes_bits l = bytes_bits k -> l = k.
Proof.
  revert k. induction l as [|b l IH]; intros [|c k] Hl Hk H; try done.
  inversion Hl as [|? ? Hb Hl']; inversion Hk as [|? ? Hc Hk']; subst. cbn [bytes_bits] in H.
  apply app_inj_1 in H as [H1 H2]; [|by rewrite !byte_bits_spec, !bits_of_length].
  rewrite !byte_bits_spec in H1. f_equal; [|by apply IH].
  apply (bits_of_inj 8); [exact Hb|exact Hc|exact H1].
Qed.

(** ** Encoder lemmas *)

(** Every code fits its length, between 5 and 30 bits. *)
Definition table_ok : bool :=
  forallb (fun '(code, bits) => (0 <=? code) && (code <? 2 ^ Z.of_nat bits) && (5 <=? bits)%nat && (bits <=? 30)%nat) kTable.

Lemma sym_of_ok ch : byte_ok ch -> 0 <= (sym_of ch).1 < 2 ^ Z.of_nat (sym_of ch).2 /\ (5 <= (sym_of ch).2 <= 30)%nat.
Proof.
  intros Hc. unfold byte_ok in Hc. assert (Ht : table_ok = true) by (vm_compute; done).
  unfold table_ok in Ht. rewrite forallb_forall in Ht. specialize (Ht (sym_of ch)).
  assert (Hin : In (sym_of ch) kTable).
  { apply nth_In. change (length kTable) with 257%nat. lia. }
  specialize (Ht Hin). destruct (sym_of ch) as [code bits]. cbn [fst snd].
  rewrite !andb_true_iff in Ht. destruct Ht as [[[?%Z.leb_le ?%Z.ltb_lt] ?%Nat.leb_le] ?%Nat.leb_le]. lia.
Qed.

Lemma flush_bytes_spec fuel : forall buf held out, (held <= 8 * fuel + 7)%nat ->
  let '(held', out') := flush_bytes fuel buf held out in
  (held' < 8)%nat /\ bytes_bits out ++ bits_of held buf = bytes_bits out' ++ bits_of held' buf /\
  (bytes_ok out -> bytes_ok out').
Proof.
  induction fuel as [|fuel IH]; intros buf held out Hf; cbn [flush_bytes]; [split; [lia|by split]|].
  destruct (8 <=? held)%nat eqn:E; [apply Nat.leb_le in E|apply Nat.leb_gt in E; split; [lia|by split]].
  specialize (IH buf (held - 8)%nat (out ++ [u8 ((buf .>> Z.of_nat (held - 8)) .& 0xFF)]) ltac:(lia)).
  destruct (flush_bytes fuel buf (held - 8) _) as [held' out']. destruct IH as (H1 & H2 & H3).
  split_and!; [done| |].
  - rewrite <- H2, bytes_bits_app. cbn [bytes_bits]. rewrite byte_bits_spec, bits_of_u8, app_nil_r, <- app_assoc.
    f_equal. rewrite <- bits_of_split. f_equal. lia.
  - intros Ho. apply H3. apply Forall_app. split; [done|]. constructor; [apply u8_range|constructor].
Qed.

(** Shifting a code into the 64-bit buffer keeps the bits that matter. *)
Lemma shift_in held bits buf code : (held + bits <= 64)%nat -> 0 <= code < 2 ^ Z.of_nat bits ->
  bits_of (held + bits) (u64 (buf .<< Z.of_nat bits) .| code) = bits_of held buf ++ bits_of bits code.
Proof.
  intros Hh Hc. rewrite bits_of_split. f_equal; apply bits_of_ext; intros i Hi.
  - rewrite Z.shiftr_spec, Z.lor_spec by lia. unfold u64, wrap. rewrite Z.mod_pow2_bits_low by lia.
    rewrite Z.shiftl_spec by lia. replace (i + Z.of_nat bits - Z.of_nat bits) with i by lia.
    rewrite <- (Z.mod_small code (2 ^ Z.of_nat bits)), Z.mod_pow2_bits_high, orb_false_r by lia. done.
  - rewrite Z.lor_spec. unfold u64, wrap. rewrite Z.mod_pow2_bits_low by lia.
    by rewrite Z.shiftl_spec_low by lia.
Qed.

Lemma encode_chars_spec input : forall buf held out, bytes_ok input -> (held < 8)%nat ->
  let '(buf', held', out') := foldl encode_char (buf, held, out) input in
  (held' < 8)%nat /\ bytes_bits out' ++ bits_of held' buf' = bytes_bits out ++ bits_of held buf ++ codes input /\
  (bytes_ok out -> bytes_ok out').
Proof.
  induction input as [|ch input IH]; intros buf held out Hok Hh; cbn [foldl codes].
  { by rewrite app_nil_r. }
  inversion Hok as [|? ? Hch Hok']; subst. destruct (sym_of_ok ch Hch) as [Hc Hb]. unfold encode_char at 2.
  unfold code_bits. destruct (sym_of ch) as [code bits]. cbn [fst snd] in *.
  pose proof (flush_bytes_spec 5 (u64 (buf .<< Z.of_nat bits) .| code) (held + bits) out ltac:(lia)) as Hf.
  destruct (flush_bytes 5 _ (held + bits) out) as [held1 out1]. destruct Hf as (F1 & F2 & F3).
  rewrite shift_in in F2 by lia.
  specialize (IH (u64 (buf .<< Z.of_nat bits) .| code) held1 out1 Hok' F1).
  destruct (foldl encode_char _ input) as [[buf2 held2] out2]. destruct IH as (I1 & I2 & I3).
  split_and!; [done| |auto]. rewrite I2, app_assoc, <- F2, <- !app_assoc. done.
Qed.

Lemma bits_of_pad held buf : (0 < held < 8)%nat ->
  let pad := (8 - held)%nat in
  bits_of 8 (u64 (buf .<< Z.of_nat pad) .| ((1 .<< Z.of_nat pad) - 1)) = bits_of held buf ++ replicate pad true.
Proof.
  intros Hh. cbv zeta. replace 8%nat with (held + (8 - held))%nat at 1 by lia.
  rewrite (shl_mul 1), Z.mul_1_l by lia. replace (2 ^ Z.of_nat (8 - held) - 1) with (Z.ones (Z.of_nat (8 - held)))
    by (rewrite Z.ones_equiv; lia).
  rewrite shift_in; [|lia|rewrite Z.ones_equiv; lia].
  f_equal. assert (Hgen : forall n k, (n <= k)%nat -> bits_of n (Z.ones (Z.of_nat k)) = replicate n true).
  { intros n k Hnk. induction n as [|n IH]; [done|]. simpl. rewrite Z.ones_spec_low by lia. f_equal. apply IH. lia. }
  by apply Hgen.
Qed.

(** The encoder emits the codes one after the other, padded with ones. *)
Lemma huffman_encode_bits input out : bytes_ok input -> exists pad, (pad < 8)%nat /\
  bytes_bits (huffman_encode input out) = bytes_bits out ++ codes input ++ replicate pad true /\
  (bytes_ok out -> bytes_ok (huffman_encode input out)).
Proof.
  intros Hok. unfold huffman_encode. pose proof (encode_chars_spec input 0 0 out Hok ltac:(lia)) as H.
  destruct (foldl encode_char _ input) as [[buf held] out']. destruct H as (H1 & H2 & H3). cbn [bits_of app] in H2.
  destruct held as [|held]; [exists 0%nat; cbn [Nat.ltb Nat.leb replicate]; rewrite app_nil_r|
    exists (8 - S held)%nat]; simpl bits_of in H2.
  - rewrite app_nil_r in H2. split_and!; [lia|done|done].
  - rewrite (proj2 (Nat.ltb_lt 0 _)) by lia. split_and!; [lia| |].
    + rewrite bytes_bits_app. cbn [bytes_bits]. rewrite byte_bits_spec, bits_of_u8, bits_of_pad, app_nil_r by lia.
      rewrite app_assoc. change (Z.testbit buf (Z.of_nat held) :: bits_of held buf) with (bits_of (S held) buf) in H2.
      rewrite H2, <- app_assoc. done.
    + intros Ho. apply Forall_app. split; [by apply H3|]. constructor; [apply u8_range|constructor].
Qed.

Lemma encoded_bits_le input : bytes_ok input -> (encoded_bits input <= 30 * length input)%nat.
Proof.
  induction input as [|c l IH]; intros H; cbn [encoded_bits length]; [lia|]. inversion H as [|? ? Hc Hl]; subst.
  destruct (sym_of_ok c Hc) as [_ ?]. specialize (IH Hl). lia.
Qed.

(** ** The tree

    Its facts are established by computation on the 513 nodes: every node has
    a path, children extend the path of their parent by their bit, and a leaf
    carries the symbol whose code is its path. *)

Lemma tree_built : build_tree = tree.
Proof. vm_compute. reflexivity. Qed.

(** The path of every node, filled in from parents to children. *)
Definition paths : list (list bool) :=
  Eval vm_compute in
  foldl (fun ps i =>
      let n := nth i tree empty_node in
      let p := nth i ps [] in
      let ps := if child0 n <? 0 then ps else <[Z.to_nat (child0 n) := p ++ [false]]> ps in
      if child1 n <? 0 then ps else <[Z.to_nat (child1 n) := p ++ [true]]> ps)
    (replicate (length tree) []) (seq 0 (length tree)).

Definition path (node : Z) : list bool := nth (Z.to_nat node) paths [].

Definition edge_ok (i : nat) (b : bool) : bool :=
  let c := step (Z.of_nat i) b in
  if c <? 0 then true else
  (0 <? c) && (c <? 513) && bool_decide (path c = path (Z.of_nat i) ++ [b]).

Definition leaf_ok (i : nat) : bool :=
  let s := symbol_at (Z.of_nat i) in
  if s <? 0 then true else (s <=? 256) && bool_decide (path (Z.of_nat i) = code_bits s).

Lemma tree_checked :
  forallb (fun i => edge_ok i false && edge_ok i true && leaf_ok i) (seq 0 513) = true.
Proof. vm_compute. reflexivity. Qed.

Definition valid_node (n : Z) : Prop := 0 <= n < 513.

Lemma node_checked n : valid_node n ->
  edge_ok (Z.to_nat n) false = true /\ edge_ok (Z.to_nat n) true = true /\ leaf_ok (Z.to_nat n) = true.
Proof.
  intros Hn. pose proof tree_checked as H. rewrite forallb_forall in H. unfold valid_node in Hn.
  specialize (H (Z.to_nat n)). rewrite !andb_true_iff in H. destruct H as [[? ?] ?]; [|done].
  apply in_seq. lia.
Qed.

Lemma step_path n b : valid_node n -> 0 <= step n b ->
  valid_node (step n b) /\ step n b <> 0 /\ path (step n b) = path n ++ [b].
Proof.
  intros Hn Hs. destruct (node_checked n Hn) as (H0 & H1 & _).
  assert (He : edge_ok (Z.to_nat n) b = true) by (by destruct b). unfold edge_ok in He.
  unfold valid_node in *. rewrite Z2Nat.id in He by lia. cbv zeta in He. rewrite (proj2 (Z.ltb_ge _ _)) in He by done.
  rewrite !andb_true_iff, bool_decide_eq_true, !Z.ltb_lt in He. destruct He as [[? ?] ->].
  split_and!; [lia|lia|lia|done].
Qed.

Lemma leaf_path n : valid_node n -> 0 <= symbol_at n -> symbol_at n <= 256 /\ path n = code_bits (symbol_at n).
Proof.
  intros Hn Hs. destruct (node_checked n Hn) as (_ & _ & He). unfold leaf_ok in He. unfold valid_node in Hn.
  rewrite Z2Nat.id in He by lia. cbv zeta in He. rewrite (proj2 (Z.ltb_ge _ _)) in He by done.
  rewrite andb_true_iff, bool_decide_eq_true, Z.leb_le in He. done.
Qed.

(** The other direction: every code leads from the root to its leaf, through
    inner nodes. *)
Fixpoint leads_to (node : Z) (bs : list bool) (s : Z) : bool :=
  match bs with
  | [] => false
  | b :: bs =>
      let n := step node b in
      (0 <=? n) && match bs with
                   | [] => symbol_at n =? s
                   | _ => (symbol_at n <? 0) && leads_to n bs s
                   end
  end.

Lemma codes_lead : forallb (fun s => leads_to 0 (code_bits (Z.of_nat s)) (Z.of_nat s)) (seq 0 256) = true.
Proof. vm_compute. reflexivity. Qed.

Lemma decode_code bs : forall st s, leads_to (d_node st) bs s = true -> byte_ok s ->
  decode_bits st bs = Some (mkDec 0 (d_bit_count st + length bs) 0 (d_bit_count st + length bs) (d_out st ++ [s])).
Proof.
  induction bs as [|b bs IH]; intros st s Hl Hs; cbn [leads_to] in Hl; [done|]. unfold byte_ok in Hs.
  apply andb_prop in Hl as [Hn%Z.leb_le Hl]. cbn [decode_bits]. unfold decode_bit.
  rewrite (proj2 (Z.ltb_ge _ 0)) by done. cbv zeta. destruct bs as [|b' bs].
  - apply Z.eqb_eq in Hl. rewrite Hl, (proj2 (Z.leb_le 0 s)), (proj2 (Z.eqb_neq s 256)) by lia.
    cbn [mbind option_bind decode_bits length]. rewrite u8_small by (unfold byte_ok; lia).
    by replace (d_bit_count st + 1)%nat with (S (d_bit_count st)) by lia.
  - apply andb_prop in Hl as [Hneg%Z.ltb_lt Hl]. rewrite (proj2 (Z.leb_gt 0 _)) by done.
    cbn [mbind option_bind]. rewrite (IH _ s); [|done|done]. cbn [d_bit_count d_out length].
    do 2 f_equal; lia.
Qed.

Lemma decode_bits_app st l k : decode_bits st (l ++ k) = st ← decode_bits st l; decode_bits st k.
Proof.
  revert st. induction l as [|b l IH]; intros st; simpl; [done|]. destruct (decode_bit st b); simpl; [apply IH|done].
Qed.

Lemma decode_bytes_bits input : forall st, decode_bytes st input = decode_bits st (bytes_bits input).
Proof.
  induction input as [|b input IH]; intros st; [done|]. cbn [decode_bytes bytes_bits]. rewrite decode_bits_app.
  destruct (decode_bits st (byte_bits b)); simpl; [apply IH|done].
Qed.

Lemma decode_codes input : forall st, bytes_ok input -> d_node st = 0 -> input <> [] ->
  decode_bits st (codes input) =
    Some (mkDec 0 (d_bit_count st + length (codes input)) 0 (d_bit_count st + length (codes input)) (d_out st ++ input)).
Proof.
  induction input as [|ch input IH]; intros st Hok Hn Hne; [done|].
  inversion Hok as [|? ? Hch Hok']; subst. cbn [codes]. rewrite decode_bits_app, (decode_code _ st ch).
  - cbn [mbind option_bind]. destruct input as [|c input]; [cbn [codes]; by rewrite app_nil_r|].
    rewrite IH by done. cbn [d_bit_count d_out]. rewrite <- app_assoc, length_app. cbn [app]. do 2 f_equal; lia.
  - rewrite Hn. pose proof codes_lead as H. rewrite forallb_forall in H. unfold byte_ok in Hch.
    specialize (H (Z.to_nat ch)). rewrite Z2Nat.id in H by lia. apply H, in_seq. lia.
  - done.
Qed.

(** Up to seven ones from the root stay on inner nodes. *)
Fixpoint ones_inner (k : nat) (node : Z) : bool :=
  match k with
  | O => true
  | S k => let n := step node true in (0 <? n) && (symbol_at n <? 0) && ones_inner k n
  end.

Lemma seven_ones : ones_inner 7 0 = true.
Proof. vm_compute. reflexivity. Qed.

Lemma ones_inner_le k k' node : (k' <= k)%nat -> ones_inner k node = true -> ones_inner k' node = true.
Proof.
  revert k' node. induction k as [|k IH]; intros [|k'] node Hk H; simpl in *; try done; [lia|].
  apply andb_prop in H as [-> H]. apply IH; [lia|done].
Qed.

Lemma walk_ones_spec k : forall st, ones_inner k (d_node st) = true ->
  exists n, walk_ones k (d_node st) = Some n /\ ((0 < k)%nat -> n <> 0) /\
    decode_bits st (replicate k true) =
      Some (mkDec n (d_bit_count st + k) (d_pad_start_node st) (d_pad_start_bit st) (d_out st)).
Proof.
  induction k as [|k IH]; intros st H.
  - exists (d_node st). simpl. rewrite Nat.add_0_r. destruct st. split_and!; [done|lia|done].
  - cbn [ones_inner] in H. apply andb_prop in H as [[Hn%Z.ltb_lt Hs%Z.ltb_lt]%andb_prop H].
    cbn [walk_ones replicate decode_bits]. unfold decode_bit.
    rewrite (proj2 (Z.ltb_ge _ 0)), (proj2 (Z.leb_gt 0 _)) by lia. cbv zeta. cbn [mbind option_bind].
    destruct (IH (mkDec (step (d_node st) true) (S (d_bit_count st)) (d_pad_start_node st) (d_pad_start_bit st)
      (d_out st)) H) as (n & Hw & Hn0 & Hd). cbn [d_node d_bit_count d_out d_pad_start_node d_pad_start_bit] in *.
    exists n. split_and!; [done| |rewrite Hd; by replace (d_bit_count st + S k)%nat with (S (d_bit_count st) + k)%nat by lia].
    intros _. destruct k; [|apply Hn0; lia]. cbn [walk_ones] in Hw.
    assert (n = step (d_node st) true) as -> by congruence. lia.
Qed.

(** Soundness of the walk: what was consumed is the codes of what was
    emitted, followed by the path to the current node. *)
Record dec_inv (consumed : list bool) (st : DecState) : Prop := {
  di_node : valid_node (d_node st);
  di_bits : consumed = codes (d_out st) ++ path (d_node st);
  di_count : d_bit_count st = length consumed;
  di_pad_node : d_pad_start_node st = 0;
  di_pad_bit : d_pad_start_bit st = length (codes (d_out st));
  di_out : bytes_ok (d_out st) }.

Lemma codes_app l k : codes (l ++ k) = codes l ++ codes k.
Proof. induction l as [|c l IH]; [done|]. cbn [app codes]. by rewrite IH, <- app_assoc. Qed.

Lemma path_root : path 0 = [].
Proof. vm_compute. reflexivity. Qed.

Lemma decode_bit_sound consumed st b st' : dec_inv consumed st -> decode_bit st b = Some st' ->
  dec_inv (consumed ++ [b]) st'.
Proof.
  intros [H1 H2 H3 H4 H5 H6]. unfold decode_bit. destruct (Z.ltb_spec (step (d_node st) b) 0) as [|Hn]; [done|].
  destruct (step_path _ b H1 Hn) as (Hv & Hne & Hp). cbv zeta.
  destruct (Z.leb_spec 0 (symbol_at (step (d_node st) b))) as [Hs|Hs].
  - destruct (leaf_path _ Hv Hs) as [Hle Hc]. destruct (Z.eqb_spec (symbol_at (step (d_node st) b)) 256); [done|].
    intros [= <-]. rewrite u8_small by (unfold byte_ok; lia).
    assert (Hcodes : consumed ++ [b] = codes (d_out st ++ [symbol_at (step (d_node st) b)])).
    { rewrite codes_app. cbn [codes]. by rewrite app_nil_r, <- Hc, Hp, app_assoc, <- H2. }
    split; cbn [d_node d_out d_bit_count d_pad_start_node d_pad_start_bit].
    + unfold valid_node. lia.
    + by rewrite path_root, app_nil_r.
    + rewrite length_app, H3. simpl. lia.
    + done.
    + rewrite <- Hcodes, length_app, H3. simpl. lia.
    + apply Forall_app. split; [done|]. apply Forall_singleton. unfold byte_ok. lia.
  - intros [= <-]. split; cbn [d_node d_out d_bit_count d_pad_start_node d_pad_start_bit]; try done.
    + by rewrite Hp, app_assoc, <- H2.
    + rewrite length_app, H3. simpl. lia.
Qed.

Lemma decode_bits_sound bs : forall consumed st st', dec_inv consumed st -> decode_bits st bs = Some st' ->
  dec_inv (consumed ++ bs) st'.
Proof.
  induction bs as [|b bs IH]; intros consumed st st' Hi; cbn [decode_bits].
  - intros [= <-]. by rewrite app_nil_r.
  - destruct (decode_bit st b) as [st1|] eqn:E; [|done]. cbn [mbind option_bind]. intros H.
    rewrite cons_middle, app_assoc. eapply IH; [|exact H]. by eapply decode_bit_sound.
Qed.

(** A successful walk along ones ends at the node whose path is all ones. *)
Lemma walk_ones_path k : forall node n, valid_node node -> walk_ones k node = Some n ->
  path n = path node ++ replicate k true.
Proof.
  induction k as [|k IH]; intros node n Hv; cbn [walk_ones].
  - intros [= <-]. by rewrite app_nil_r.
  - destruct (Z.ltb_spec (step node true) 0) as [|Hs]; [done|]. intros H.
    destruct (step_path _ _ Hv Hs) as (Hv' & _ & Hp). rewrite (IH _ _ Hv' H), Hp, <- app_assoc. done.
Qed.

Lemma huffman_decode_bits w out : huffman_decode w = Some out ->
  bytes_ok out /\ exists pad, (pad <= 7)%nat /\ bytes_bits w = codes out ++ replicate pad true.
Proof.
  unfold huffman_decode. destruct (decode_bytes (mkDec 0 0 0 0 []) w) as [st|] eqn:E; [|done].
  cbn [mbind option_bind]. rewrite decode_bytes_bits in E.
  assert (Hi : dec_inv (bytes_bits w) st).
  { apply (decode_bits_sound (bytes_bits w) [] (mkDec 0 0 0 0 [])); [|done].
    split; cbn [d_node d_out d_bit_count d_pad_start_node d_pad_start_bit]; [|done..|constructor].
    unfold valid_node. lia. }
  destruct Hi as [H1 H2 H3 H4 H5 H6]. destruct (Z.eqb_spec (d_node st) 0) as [H0|H0].
  { intros [= <-]. split; [done|]. exists 0%nat. split; [lia|]. by rewrite H2, H0, path_root. }
  destruct (Nat.ltb_spec 7 (d_bit_count st - d_pad_start_bit st)) as [|Hp]; [done|]. rewrite H4.
  destruct (walk_ones _ 0) as [n|] eqn:Ew; [|done]. destruct (Z.eqb_spec n (d_node st)) as [->|]; [|done].
  intros [= <-]. split; [done|]. eexists. split; [exact Hp|].
  apply walk_ones_path in Ew; [|unfold valid_node; lia]. by rewrite H2, Ew, path_root.
Qed.

Lemma huffman_decode_encode input : bytes_ok input ->
  huffman_decode (huffman_encode input []) = Some input /\
  length (huffman_encode input []) = huffman_encoded_size input.
Proof.
  intros Hok. destruct (huffman_encode_bits input [] Hok) as (pad & Hpad & Hb & _). cbn [bytes_bits app] in Hb.
  assert (Hlen : length (codes input) = encoded_bits input).
  { clear. induction input as [|c l IH]; [done|]. cbn [codes encoded_bits]. rewrite length_app, IH.
    unfold code_bits. by rewrite bits_of_length. }
  split.
  - unfold huffman_decode. rewrite decode_bytes_bits, Hb, decode_bits_app.
    assert (Hc : decode_bits (mkDec 0 0 0 0 []) (codes input) =
      Some (mkDec 0 (length (codes input)) 0 (length (codes input)) input)).
    { destruct input as [|c input]; [done|]. by rewrite decode_codes. }
    rewrite Hc. cbn [mbind option_bind].
    destruct (walk_ones_spec pad (mkDec 0 (length (codes input)) 0 (length (codes input)) input))
      as (n & Hw & Hn & Hd). { apply (ones_inner_le 7); [lia|apply seven_ones]. }
    rewrite Hd. cbn [mbind option_bind d_node d_out d_bit_count d_pad_start_node d_pad_start_bit] in *.
    destruct (Z.eqb_spec n 0); [done|].
    replace (length (codes input) + pad - length (codes input))%nat with pad by lia.
    rewrite (proj2 (Nat.ltb_ge 7 pad)), Hw, Z.eqb_refl by lia. done.
  - apply (f_equal length) in Hb. rewrite bytes_bits_length, length_app, length_replicate, Hlen in Hb.
    unfold huffman_encoded_size. apply (Nat.div_unique _ _ _ (7 - pad)); lia.
Qed.

(** ** Properties *)

(** Huffman coding round-trips: every byte string encodes to exactly
    [huffman_encoded_size] bytes, and decoding them returns the string. *)
Theorem huffman_roundtrip input : bytes_ok input ->
  huffman_decode (huffman_encode input []) = Some input /\
  length (huffman_encode input []) = huffman_encoded_size input.
Proof. apply huffman_decode_encode. Qed.

Lemma huffman_roundtrip_witness :
  huffman_decode (huffman_encode [119; 119; 119; 46; 10; 255] []) = Some [119; 119; 119; 46; 10; 255].
Proof. apply (huffman_roundtrip [119; 119; 119; 46; 10; 255]). repeat constructor; done. Defined.

(** The decoder accepts only canonical encodings: if it returns a
    string, the input is byte for byte what the encoder produces for that
    string, so over-long, non-ones or EOS padding is refused. *)
Theorem huffman_decode_canonical w out : bytes_ok w -> huffman_decode w = Some out ->
  bytes_ok out /\ huffman_encode out [] = w.
Proof.
  intros Hw Hd. destruct (huffman_decode_bits w out Hd) as (Hok & pad & Hpad & Hb). split; [done|].
  destruct (huffman_encode_bits out [] Hok) as (pad' & Hpad' & Hb' & Hok'). cbn [bytes_bits app] in Hb'.
  apply bytes_bits_inj; [apply Hok', Forall_nil_2|done|]. rewrite Hb', Hb. f_equal. f_equal.
  apply (f_equal length) in Hb, Hb'. rewrite bytes_bits_length, length_app, length_replicate in Hb, Hb'. lia.
Qed.

Lemma huffman_decode_canonical_witness : huffman_encode [97] [] = [31].
Proof. apply (huffman_decode_canonical [31] [97]); [repeat constructor; done|vm_compute; reflexivity]. Defined.
