(* ===== verification/Qpack.v ===== *)
(** * QPACK field sections, static table only (RFC 9204)

    Model of example/quic-http3/src/http3/qpack.cpp: the static table,
    prefix integers, string literals (always Huffman-coded on output),
    [qpack_encode] and [qpack_decode]. *)
From S2P Require Import Prelude PrefixInt Huffman.

Local Open Scope Z_scope.

Abbreviation HeaderList := (list (list Z * list Z)) (only parsing).

(** ** Static table *)

Definition kStatic : list (bytes * bytes) :=
  [(str ":authority", []);
   (str ":path", str "/");
   (str "age", str "0");
   (str "content-disposition", []);
   (str "content-length", str "0");
   (str "cookie", []);
   (str "date", []);
   (str "etag", []);
   (str "if-modified-since", []);
   (str "if-none-match", []);
   (str "last-modified", []);
   (str "link", []);
   (str "location", []);
   (str "referer", []);
   (str "set-cookie", []);
   (str ":method", str "CONNECT");
   (str ":method", str "DELETE");
   (str ":method", str "GET");
   (str ":method", str "HEAD");
   (str ":method", str "OPTIONS");
   (str ":method", str "POST");
   (str ":method", str "PUT");
   (str ":scheme", str "http");
   (str ":scheme", str "https");
   (str ":status", str "103");
   (str ":status", str "200");
   (str ":status", str "304");
   (str ":status", str "404");
   (str ":status", str "503");
   (str "accept", str "*/*");
   (str "accept", str "application/dns-message");
   (str "accept-encoding", str "gzip, deflate, br");
   (str "accept-ranges", str "bytes");
   (str "access-control-allow-headers", str "cache-control");
   (str "access-control-allow-headers", str "content-type");
   (str "access-control-allow-origin", str "*");
   (str "cache-control", str "max-age=0");
   (str "cache-control", str "max-age=2592000");
   (str "cache-control", str "max-age=604800");
   (str "cache-control", str "no-cache");
   (str "cache-control", str "no-store");
   (str "cache-control", str "public, max-age=31536000");
   (str "content-encoding", str "br");
   (str "content-encoding", str "gzip");
   (str "content-type", str "application/dns-message");
   (str "content-type", str "application/javascript");
   (str "content-type", str "application/json");
   (str "content-type", str "application/x-www-form-urlencoded");
   (str "content-type", str "image/gif");
   (str "content-type", str "image/jpeg");
   (str "content-type", str "image/png");
   (str "content-type", str "text/css");
   (str "content-type", str "text/html; charset=utf-8");
   (str "content-type", str "text/plain");
   (str "content-type", str "text/plain;charset=utf-8");
   (str "range", str "bytes=0-");
   (str "strict-transport-security", str "max-age=31536000");
   (str "strict-transport-security", str "max-age=31536000; includesubdomains");
   (str "strict-transport-security", str "max-age=31536000; includesubdomains; preload");
   (str "vary", str "accept-encoding");
   (str "vary", str "origin");
   (str "x-content-type-options", str "nosniff");
   (str "x-xss-protection", str "1; mode=block");
   (str ":status", str "100");
   (str ":status", str "204");
   (str ":status", str "206");
   (str ":status", str "302");
   (str ":status", str "400");
   (str ":status", str "403");
   (str ":status", str "421");
   (str ":status", str "425");
   (str ":status", str "500");
   (str "accept-language", []);
   (str "access-control-allow-credentials", str "FALSE");
   (str "access-control-allow-credentials", str "TRUE");
   (str "access-control-allow-headers", str "*");
   (str "access-control-allow-methods", str "get");
   (str "access-control-allow-methods", str "get, post, options");
   (str "access-control-allow-methods", str "options");
   (str "access-control-expose-headers", str "content-length");
   (str "access-control-request-headers", str "content-type");
   (str "access-control-request-method", str "get");
   (str "access-control-request-method", str "post");
   (str "alt-svc", str "clear");
   (str "authorization", []);
   (str "content-security-policy", str "script-src 'none'; object-src 'none'; base-uri 'none'");
   (str "early-data", str "1");
   (str "expect-ct", []);
   (str "forwarded", []);
   (str "if-range", []);
   (str "origin", []);
   (str "purpose", str "prefetch");
   (str "server", []);
   (str "timing-allow-origin", str "*");
   (str "upgrade-insecure-requests", str "1");
   (str "user-agent", []);
   (str "x-forwarded-for", []);
   (str "x-frame-options", str "deny");
   (str "x-frame-options", str "sameorigin")].

(** [name + "\x1f" + value], the key of [StaticIndex::by_pair]. *)
Definition pair_key (name value : bytes) : bytes := name ++ [0x1f] ++ value.

(** [by_pair]: later entries overwrite earlier ones. *)
Definition by_pair (key : bytes) : option Z :=
  foldl (fun acc '(i, (n, v)) => if bool_decide (pair_key n v = key) then Some (Z.of_nat i) else acc) None
    (zip (seq 0 (length kStatic)) kStatic).

(** [by_name[name].front()]: the first entry with that name. *)
Definition by_name (name : bytes) : option Z :=
  foldr (fun '(i, (n, _)) acc => if bool_decide (n = name) then Some (Z.of_nat i) else acc) None
    (zip (seq 0 (length kStatic)) kStatic).

(** ** Prefix integers *)

Definition write_int (out : bytes) (value prefix : Z) (n : Z) : bytes := PrefixInt.write_int 10 out value prefix n.

(** The accumulator is a [uint64_t]; the loop stops at a shift above 63. *)
Definition read_int (buf : bytes) (off : nat) (n : Z) : option (Z * nat) := PrefixInt.read_int 64 63 buf off n.

(** ** Strings *)

Definition write_string (out : bytes) (s : bytes) (prefix_bits : Z) (n : Z) : bytes :=
  let huff := huffman_encode s [] in
  let huff_bit := u8 (1 .<< n) in
  write_int out (#huff) (prefix_bits .| huff_bit) n ++ huff.

Definition read_string (buf : bytes) (off : nat) (n : Z) : option (bytes * nat) :=
  b ← buf !! off;
  let huff := negb (b .& (1 .<< n) =? 0) in
  '(len, off) ← read_int buf off n;
  if Z.of_nat (length buf - off) <? len then None else
  let raw := take (Z.to_nat len) (drop off buf) in
  let off := (off + Z.to_nat len)%nat in
  if huff then s ← huffman_decode raw; Some (s, off) else Some (raw, off).

(** ** Field sections *)

Definition encode_field (out : bytes) (h : bytes * bytes) : bytes :=
  let '(name, value) := h in
  match by_pair (pair_key name value) with
  | Some i => write_int out i 0xC0 6
  | None =>
      match by_name name with
      | Some i => write_string (write_int out i 0x50 4) value 0x00 7
      | None => write_string (write_string out name 0x20 3) value 0x00 7
      end
  end.

Definition qpack_encode (headers : HeaderList) (out : bytes) : bytes :=
  foldl encode_field (out ++ [0x00; 0x00]) headers.

(** [tbl[index]] after [!is_static || index >= tbl.size()]. *)
Definition static_entry (is_static : bool) (index : Z) : option (bytes * bytes) :=
  if is_static && (index <? #kStatic) then kStatic !! Z.to_nat index else None.

(** One field line at the cursor. *)
Definition decode_field (input : bytes) (off : nat) : option ((bytes * bytes) * nat) :=
  b ← input !! off;
  if negb (b .& 0x80 =? 0) then
    let is_static := negb (b .& 0x40 =? 0) in
    '(index, off) ← read_int input off 6;
    e ← static_entry is_static index;
    Some (e, off)
  else if negb (b .& 0x40 =? 0) then
    let is_static := negb (b .& 0x10 =? 0) in
    '(index, off) ← read_int input off 4;
    '(value, off) ← read_string input off 7;
    e ← static_entry is_static index;
    Some ((e.1, value), off)
  else if negb (b .& 0x20 =? 0) then
    '(name, off) ← read_string input off 3;
    '(value, off) ← read_string input off 7;
    Some ((name, value), off)
  else None.

Definition qpack_step (input : bytes) (st : nat * HeaderList) : (nat * HeaderList) + option HeaderList :=
  let '(off, out) := st in
  if (off <? length input)%nat then
    match decode_field input off with
    | Some (h, off) => inl (off, out ++ [h])
    | None => inr None
    end
  else inr (Some out).

(** The outer [option] is the fuel of the loop, the inner one the result. *)
Definition qpack_decode (input : bytes) : option (option HeaderList) :=
  match ('(insert_count, off) ← read_int input 0 8;
         if (length input <=? off)%nat then None else
         '(delta_base, off) ← read_int input off 7;
         if negb (insert_count =? 0) || negb (delta_base =? 0) then None else Some off) with
  | None => Some None
  | Some off => loop (qpack_step input) (S (length input)) (off, [])
  end.

(** ** Integer lemmas *)

(** Prefix integers: the image starts with a byte that keeps the prefix. *)
Lemma write_int_spec out v prefix n :
  1 <= n <= 8 -> 0 <= prefix < 256 -> prefix mod 2 ^ n = 0 -> 0 <= v < 2 ^ 63 ->
  exists b l, write_int out v prefix n = out ++ b :: l /\ (exists r, 0 <= r < 2 ^ n /\ b = prefix + r) /\
    forall buf off rest, at_cursor buf off ((b :: l) ++ rest) ->
      read_int buf off n = Some (v, (off + length (b :: l))%nat).
Proof.
  intros ???[??]. apply (prefix_int_spec 64 63); try (done || lia).
Qed.

(** ** String lemmas *)

Definition string_ok (s : bytes) : Prop := bytes_ok s /\ #s < 2 ^ 60.

Lemma huff_size s : string_ok s -> 0 <= #(huffman_encode s []) < 2 ^ 63.
Proof.
  intros [Hb Hl]. rewrite (proj2 (huffman_decode_encode s Hb)). unfold huffman_encoded_size.
  pose proof (encoded_bits_le s Hb). pose proof (Nat.Div0.div_le_upper_bound (encoded_bits s + 7) 8 (4 * length s + 1)).
  lia.
Qed.

(** The two shapes of string in a field line: a value (7-bit length) and a
    literal name (3-bit length behind 001N). *)
Lemma write_string_spec out s pb n : string_ok s -> (pb, n) ∈ [(0x00, 7); (0x20, 3)] ->
  exists b l, write_string out s pb n = out ++ b :: l /\
    (exists r, 0 <= r < 2 ^ n /\ b = pb + 2 ^ n + r) /\
    forall buf off rest, at_cursor buf off ((b :: l) ++ rest) ->
      read_string buf off n = Some (s, (off + length (b :: l))%nat).
Proof.
  intros Hs Hpb.
  assert (Hn : 1 <= n <= 8 /\ pb .| u8 (1 .<< n) = pb + 2 ^ n /\ 0 <= pb + 2 ^ n < 256 /\ (pb + 2 ^ n) mod 2 ^ n = 0
    /\ forall r, 0 <= r < 2 ^ n -> negb ((pb + 2 ^ n + r) .& (1 .<< n) =? 0) = true).
  { rewrite !elem_of_cons, elem_of_nil in Hpb. destruct Hpb as [[= -> ->]|[[= -> ->]|[]]].
    - split_and!; try (vm_compute; congruence). apply (forall_below _ 128). vm_compute. done.
    - split_and!; try (vm_compute; congruence). apply (forall_below _ 8). vm_compute. done. }
  destruct Hn as (Hn & Hor & Hr & Hm & Hbit). unfold write_string. cbv zeta. rewrite Hor.
  destruct (write_int_spec out (#(huffman_encode s [])) (pb + 2 ^ n) n Hn Hr Hm (huff_size s Hs))
    as (b & l & Hw & (r & Hr2 & Hb) & Hread).
  exists b, (l ++ huffman_encode s []). split; [rewrite Hw, <- app_assoc; done|].
  split; [exists r; split; done|]. intros buf off rest Hc. rewrite app_comm_cons, <- app_assoc in Hc.
  unfold read_string. destruct (at_cursor_cons _ _ _ _ Hc) as (-> & _ & _). cbn [mbind option_bind].
  rewrite (Hread buf off _ Hc). cbn [mbind option_bind].
  assert (Hbb : negb (b .& (1 .<< n) =? 0) = true) by (rewrite Hb; apply (Hbit r Hr2)). rewrite Hbb.
  apply at_cursor_app in Hc. pose proof (at_cursor_length _ _ _ Hc) as Hl. rewrite length_app in Hl.
  rewrite (proj2 (Z.ltb_ge _ _)), Nat2Z.id by lia. destruct Hc as [_ ->]. rewrite take_app_length.
  rewrite (proj1 (huffman_decode_encode s (proj1 Hs))). cbn [mbind option_bind]. do 2 f_equal.
  rewrite app_comm_cons, length_app. lia.
Qed.

(** ** Static table lemmas *)

(** The separator occurs in no name and no value of the table. *)
Lemma static_no_sep : forallb (fun '(n, v) => bool_decide (0x1f ∉ n) && bool_decide (0x1f ∉ v)) kStatic = true.
Proof. vm_compute. reflexivity. Qed.

Lemma split_at_sep (x : Z) n v n' v' : x ∉ n -> x ∉ v -> n ++ x :: v = n' ++ x :: v' -> n = n' /\ v = v'.
Proof.
  revert n'. induction n as [|y n IH]; intros [|y' n'] Hn Hv H; simplify_eq/=.
  - done.
  - set_solver.
  - set_solver.
  - destruct (IH n') as [-> ->]; [set_solver|done|done|done].
Qed.

Lemma elem_of_zip_seq {A} (l : list A) k i x : (i, x) ∈ zip (seq k (length l)) l -> (k <= i)%nat /\ l !! (i - k)%nat = Some x.
Proof.
  revert k. induction l as [|y l IH]; intros k; cbn [length seq zip zip_with]; [by intros ?%elem_of_nil|].
  intros [[= -> ->]|Hin]%elem_of_cons.
  - split; [lia|]. by rewrite Nat.sub_diag.
  - destruct (IH (S k) Hin) as [Hk Hl]. split; [lia|]. replace (i - k)%nat with (S (i - S k)) by lia. done.
Qed.

Lemma by_pair_some n v i : by_pair (pair_key n v) = Some i ->
  0 <= i < #kStatic /\ kStatic !! Z.to_nat i = Some (n, v).
Proof.
  unfold by_pair. assert (Hgen : forall l acc, foldl (fun acc '(i, (n', v')) =>
      if bool_decide (pair_key n' v' = pair_key n v) then Some (Z.of_nat i) else acc) acc l = Some i ->
    acc = Some i \/ exists j n' v', (j, (n', v')) ∈ l /\ i = Z.of_nat j /\ pair_key n' v' = pair_key n v).
  { induction l as [|[j [n' v']] l IH]; intros acc; cbn [foldl]; [by left|]. intros [Ha|Ha]%IH.
    - case_bool_decide; [|by left]. right. exists j, n', v'. split; [left|]. split; [congruence|done].
    - right. destruct Ha as (j0 & n0 & v0 & ? & ?). exists j0, n0, v0. split; [by right|done]. }
  intros [?|(j & n' & v' & Hin & -> & Hk)]%Hgen; [done|].
  apply elem_of_zip_seq in Hin as [_ Hl]. rewrite Nat.sub_0_r in Hl.
  pose proof (lookup_lt_Some _ _ _ Hl). split; [lia|]. rewrite Nat2Z.id.
  pose proof static_no_sep as Hs. rewrite forallb_forall in Hs. specialize (Hs (n', v')).
  rewrite andb_true_iff, !bool_decide_eq_true in Hs. destruct Hs as [Hs1 Hs2].
  { apply list_elem_of_In. by eapply list_elem_of_lookup_2. }
  unfold pair_key in Hk. cbn [app] in Hk. by destruct (split_at_sep _ _ _ _ _ Hs1 Hs2 Hk) as [-> ->].
Qed.

Lemma by_name_some n i : by_name n = Some i ->
  0 <= i < #kStatic /\ exists v, kStatic !! Z.to_nat i = Some (n, v).
Proof.
  unfold by_name. assert (Hgen : forall l : list (nat * (bytes * bytes)), foldr (fun '(i, (n', _)) acc =>
      if bool_decide (n' = n) then Some (Z.of_nat i) else acc) None l = Some i ->
    exists j v', (j, (n, v')) ∈ l /\ i = Z.of_nat j).
  { induction l as [|[j [n' v']] l IH]; cbn [foldr]; [done|]. case_bool_decide.
    - intros [= <-]. subst. exists j, v'. split; [left|done].
    - intros (j0 & v0 & ? & ?)%IH. exists j0, v0. split; [by right|done]. }
  intros (j & v' & Hin & ->)%Hgen. apply elem_of_zip_seq in Hin as [_ Hl]. rewrite Nat.sub_0_r in Hl.
  pose proof (lookup_lt_Some _ _ _ Hl). split; [lia|]. exists v'. by rewrite Nat2Z.id.
Qed.

(** ** Field lines *)

Lemma static_entry_ok i e : 0 <= i < #kStatic -> kStatic !! Z.to_nat i = Some e -> static_entry true i = Some e.
Proof. intros Hi He. unfold static_entry. rewrite (proj2 (Z.ltb_lt _ _)) by lia. done. Qed.

(** The pattern bits of the three field lines. *)
Lemma indexed_bits r : 0 <= r < 2 ^ 6 ->
  negb ((0xC0 + r) .& 0x80 =? 0) && negb ((0xC0 + r) .& 0x40 =? 0) = true.
Proof. apply (forall_below (fun r => negb ((0xC0 + r) .& 0x80 =? 0) && negb ((0xC0 + r) .& 0x40 =? 0)) 64). vm_compute. done. Qed.
Lemma name_ref_bits r : 0 <= r < 2 ^ 4 ->
  ((0x50 + r) .& 0x80 =? 0) && negb ((0x50 + r) .& 0x40 =? 0) && negb ((0x50 + r) .& 0x10 =? 0) = true.
Proof.
  apply (forall_below (fun r => ((0x50 + r) .& 0x80 =? 0) && negb ((0x50 + r) .& 0x40 =? 0)
    && negb ((0x50 + r) .& 0x10 =? 0)) 16). vm_compute. done.
Qed.
Lemma literal_bits r : 0 <= r < 2 ^ 3 ->
  ((0x28 + r) .& 0x80 =? 0) && ((0x28 + r) .& 0x40 =? 0) && negb ((0x28 + r) .& 0x20 =? 0) = true.
Proof.
  apply (forall_below (fun r => ((0x28 + r) .& 0x80 =? 0) && ((0x28 + r) .& 0x40 =? 0)
    && negb ((0x28 + r) .& 0x20 =? 0)) 8). vm_compute. done.
Qed.

Definition header_ok (h : bytes * bytes) : Prop := string_ok h.1 /\ string_ok h.2.

Lemma field_roundtrip out h : header_ok h ->
  exists bs, encode_field out h = out ++ bs /\ (0 < length bs)%nat /\
    forall buf off rest, at_cursor buf off (bs ++ rest) ->
      decode_field buf off = Some (h, (off + length bs)%nat).
Proof.
  destruct h as [name value]. intros [Hn Hv]. cbn [fst snd] in *. unfold encode_field.
  destruct (by_pair (pair_key name value)) as [i|] eqn:Ep.
  { destruct (by_pair_some _ _ _ Ep) as [Hi He]. assert (Hk : #kStatic = 99) by done.
    destruct (write_int_spec out i 0xC0 6) as (b & l & Hw & (r & Hr & Hb) & Hread); try (done || lia).
    exists (b :: l). split; [done|]. split; [simpl; lia|]. intros buf off rest Hc. unfold decode_field.
    destruct (at_cursor_cons _ _ _ _ Hc) as (-> & _ & _). cbn [mbind option_bind].
    pose proof (indexed_bits r Hr) as Hbits. rewrite <- Hb in Hbits. apply andb_prop in Hbits as [-> ->].
    rewrite (Hread buf off rest Hc). cbn [mbind option_bind]. by rewrite (static_entry_ok i (name, value)). }
  destruct (by_name name) as [i|] eqn:En.
  { destruct (by_name_some _ _ En) as [Hi [v He]]. assert (Hk : #kStatic = 99) by done.
    destruct (write_int_spec out i 0x50 4) as (b & l & Hw & (r & Hr & Hb) & Hread); try (done || lia).
    destruct (write_string_spec (write_int out i 0x50 4) value 0 7) as (b2 & l2 & Hw2 & _ & Hread2); [done|set_solver|].
    exists ((b :: l) ++ b2 :: l2). rewrite Hw2, Hw, <- app_assoc. split; [done|]. split; [simpl; lia|].
    intros buf off rest Hc. rewrite <- app_assoc in Hc. unfold decode_field.
    destruct (at_cursor_cons _ _ _ _ Hc) as (-> & _ & _). cbn [mbind option_bind].
    pose proof (name_ref_bits r Hr) as Hbits. rewrite <- Hb in Hbits.
    apply andb_prop in Hbits as [[-> ->]%andb_prop ->]. cbn [negb].
    rewrite (Hread buf off _ Hc). cbn [mbind option_bind]. apply at_cursor_app in Hc.
    rewrite (Hread2 buf _ rest Hc). cbn [mbind option_bind]. rewrite (static_entry_ok i (name, v)) by done.
    cbn [mbind option_bind fst]. same_cursor. }
  destruct (write_string_spec out name 0x20 3) as (b & l & Hw & (r & Hr & Hb) & Hread); [done|set_solver|].
  destruct (write_string_spec (write_string out name 0x20 3) value 0 7) as (b2 & l2 & Hw2 & _ & Hread2); [done|set_solver|].
  exists ((b :: l) ++ b2 :: l2). rewrite Hw2, Hw, <- app_assoc. split; [done|]. split; [simpl; lia|].
  intros buf off rest Hc. rewrite <- app_assoc in Hc. unfold decode_field.
  destruct (at_cursor_cons _ _ _ _ Hc) as (-> & _ & _). cbn [mbind option_bind].
  pose proof (literal_bits r Hr) as Hbits. change (0x20 + 2 ^ 3) with 0x28 in Hb. rewrite <- Hb in Hbits.
  apply andb_prop in Hbits as [[-> ->]%andb_prop ->]. cbn [negb].
  rewrite (Hread buf off _ Hc). cbn [mbind option_bind]. apply at_cursor_app in Hc.
  rewrite (Hread2 buf _ rest Hc). cbn [mbind option_bind]. same_cursor.
Qed.

Lemma fields_roundtrip hs : forall out, Forall header_ok hs ->
  exists bs, foldl encode_field out hs = out ++ bs /\
    forall buf off acc fuel, at_cursor buf off bs -> (length bs < fuel)%nat ->
      loop (qpack_step buf) fuel (off, acc) = Some (Some (acc ++ hs)).
Proof.
  induction hs as [|h hs IH]; intros out Hok; cbn [foldl].
  - exists []. split; [by rewrite app_nil_r|]. intros buf off acc [|fuel] Hc Hf; [simpl in Hf; lia|].
    apply at_cursor_length in Hc. simpl in *. rewrite (proj2 (Nat.ltb_ge _ _)), app_nil_r by lia. done.
  - inversion Hok as [|? ? Hh Hhs]; subst. destruct (field_roundtrip out h Hh) as (b1 & He & Hpos & Hd).
    destruct (IH (encode_field out h) Hhs) as (b2 & He2 & Hd2). exists (b1 ++ b2).
    split; [rewrite He2, He, <- app_assoc; done|]. intros buf off acc [|fuel] Hc Hf; [lia|].
    pose proof (at_cursor_length _ _ _ Hc) as Hl. rewrite length_app in Hl, Hf. cbn [loop qpack_step].
    rewrite (proj2 (Nat.ltb_lt _ _)) by lia. rewrite (Hd buf off b2 Hc).
    rewrite Hd2; [by rewrite <- app_assoc|by apply at_cursor_app|lia].
Qed.

(** ** Bounds *)

Lemma read_int_bound buf off n v off' : read_int buf off n = Some (v, off') -> (off < off' <= length buf)%nat.
Proof. apply prefix_int_bound. Qed.

Lemma read_string_bound buf off n s off' : read_string buf off n = Some (s, off') -> (off < off' <= length buf)%nat.
Proof.
  unfold read_string. destruct (buf !! off) as [b|]; [|done]. cbn [mbind option_bind].
  destruct (read_int buf off n) as [[len o1]|] eqn:E; [|done]. apply read_int_bound in E. cbn [mbind option_bind].
  destruct (Z.ltb_spec (Z.of_nat (length buf - o1)) len); [done|]. case_match.
  - destruct (huffman_decode _); [|done]. cbn [mbind option_bind]. intros [= <- <-]. lia.
  - intros [= <- <-]. lia.
Qed.

Lemma decode_field_bound buf off h off' : decode_field buf off = Some (h, off') -> (off < off' <= length buf)%nat.
Proof.
  unfold decode_field. destruct (buf !! off) as [b|]; [|done]. cbn [mbind option_bind].
  intros H. repeat case_match; inv_bind H;
    repeat match goal with
    | H : read_int _ _ _ = Some _ |- _ => apply read_int_bound in H
    | H : read_string _ _ _ = Some _ |- _ => apply read_string_bound in H
    end; simplify_eq/=; lia.
Qed.

(** ** Properties *)

Lemma qpack_decode_encode hs : Forall header_ok hs -> qpack_decode (qpack_encode hs []) = Some (Some hs).
Proof.
  intros Hok. unfold qpack_encode. cbn [app]. destruct (fields_roundtrip hs [0x00; 0x00] Hok) as (bs & -> & Hd).
  unfold qpack_decode. cbn [app].
  assert (E1 : read_int (0 :: 0 :: bs) 0 8 = Some (0, 1%nat)) by reflexivity.
  assert (E2 : read_int (0 :: 0 :: bs) 1 7 = Some (0, 2%nat)) by reflexivity.
  rewrite E1. cbn [mbind option_bind]. rewrite (proj2 (Nat.leb_gt _ _)), E2 by (simpl; lia).
  cbn [mbind option_bind Z.eqb negb orb]. rewrite (Hd (0 :: 0 :: bs) 2%nat []); [done|split; [simpl; lia|done]|simpl; lia].
Qed.

(** QPACK field sections round-trip: for every header list the section
    produced by [qpack_encode] decodes to the same list, in order, whether a
    field hits the static table completely, by name only, or not at all. *)
Theorem qpack_roundtrip hs : Forall header_ok hs -> qpack_decode (qpack_encode hs []) = Some (Some hs).
Proof. exact (qpack_decode_encode hs). Qed.

Lemma qpack_roundtrip_witness :
  qpack_decode (qpack_encode [(str ":method", str "GET"); (str ":path", str "/a"); (str "x-y", [31; 200])] []) =
    Some (Some [(str ":method", str "GET"); (str ":path", str "/a"); (str "x-y", [31; 200])]).
Proof.
  apply qpack_roundtrip. repeat (apply Forall_cons_2; [split; (split; [|vm_compute; reflexivity])|]); [..|apply Forall_nil_2];
    (apply (bool_decide_unpack _); vm_compute; exact I).
Defined.

Lemma qpack_decode_total input : exists r, qpack_decode input = Some r.
Proof.
  unfold qpack_decode. case_match; [|by eexists].
  apply (loop_total _ (fun _ => True) (fun st => length input - st.1)%nat); [|done|simpl; lia].
  intros [off out] st' _ Hs. split; [done|]. unfold qpack_step in Hs. destruct (Nat.ltb_spec off (length input)); [|done].
  destruct (decode_field input off) as [[h o1]|] eqn:E; [|done]. injection Hs as <-. apply decode_field_bound in E.
  simpl. lia.
Qed.

(** Decoding hostile field sections is safe: the loop always ends, and
    every integer, string and field line that is accepted lies inside the
    input, also when the announced length is near 2^64. *)
Theorem qpack_decode_safe input :
  (exists r, qpack_decode input = Some r) /\
  (forall off n s off', read_string input off n = Some (s, off') -> (off < off' <= length input)%nat) /\
  (forall off h off', decode_field input off = Some (h, off') -> (off < off' <= length input)%nat).
Proof.
  split; [apply qpack_decode_total|]. split; [apply read_string_bound|apply decode_field_bound].
Qed.

Lemma qpack_decode_safe_witness : (0 < 3 <= length [0x02; 0x30; 0x31]%Z)%nat.
Proof. apply (proj1 (proj2 (qpack_decode_safe [0x02; 0x30; 0x31])) 0%nat 7 [0x30; 0x31]). reflexivity. Defined.
