(* ===== verification/Http3Server.v ===== *)
(** * HTTP/3 server

    Model of [Http3Server] (example/quic-http3/src/http3/server.cpp, .hpp),
    the layer between one QUIC connection and the application's request
    handler, and of [QuicHttp3Service] (service.cpp, .hpp), which runs a
    listener and one [Http3Server] per connection.

    [calls] is the list of the requests handed to the application, with the
    stream each came on; the handler is a function of the calls before and the
    request, and [None] when it throws.  A run in which the handler throws, or
    in which a response's frames cannot be encoded, throws out of the pump,
    which catches nothing, and is [None]. *)
From S2P Require Import Prelude Utils VarInt SortedMap ByteMap QuicPacket QuicCrypto QuicFrame QuicStream TransportParams QuicConn Listener H3Frame Qpack.

Local Open Scope Z_scope.

(** ** Messages and state *)

Record Http3Request := mkH3Request {
  rq_method : bytes; rq_scheme : bytes; rq_authority : bytes; rq_path : bytes;
  rq_headers : list (bytes * bytes); rq_body : bytes }.

Record Http3Response := mkH3Response {
  rs_status : Z; rs_headers : list (bytes * bytes); rs_body : bytes }.

Definition empty_request : Http3Request := mkH3Request [] [] [] [] [] [].

Definition kMaxRequestStreamBytes : Z := 64 * 1024 * 1024.
Definition kMaxRequestBodyBytes : Z := 64 * 1024 * 1024.
Definition kMaxFieldSectionBytes : Z := 128 * 1024.
Definition kMaxUniStreamBytes : Z := 64 * 1024.
Definition kH3ExcessiveLoad : Z := 0x0508.

Definition kServerControl : Z := 3.
Definition kServerQpackEncoder : Z := 7.
Definition kServerQpackDecoder : Z := 11.

(** [H3UniStreamType] and [H3SettingId]. *)
Definition kUniControl : Z := 0x00.
Definition kUniQpackEncoder : Z := 0x02.
Definition kUniQpackDecoder : Z := 0x03.
Definition kQpackMaxTableCapacity : Z := 0x01.
Definition kQpackBlockedStreams : Z := 0x07.

Record PendingRequest := mkPending {
  recv_buf : bytes; req : Http3Request; headers_parsed : bool; fin_seen : bool; handled : bool }.

Definition new_pending : PendingRequest := mkPending [] empty_request false false false.

(** [UINT64_MAX] while the stream's type has not arrived. *)
Definition kNoType : Z := 2 ^ 64 - 1.

Record PendingUni := mkUni { uni_type : Z; uni_buf : bytes }.

Definition new_uni : PendingUni := mkUni kNoType [].

Record Http3Server := mkServer {
  initialized_ : bool;
  pending_ : list (Z * PendingRequest);
  uni_ : list (Z * PendingUni);
  calls : list (Z * Http3Request) }.

Definition new_server : Http3Server := mkServer false [] [] [].

(** [m[id]]: a default entry when there is none. *)
Definition sm_at {V} (d : V) (id : Z) (m : list (Z * V)) : V := default d (sm_find id m).

(** ** Framing *)

Definition consume_leading_varint (buf : bytes) : option (Z * bytes) :=
  '(v, off) ← VarInt.decode buf 0;
  Some (v, drop off buf).

Definition consume_leading_h3_frame (buf : bytes) : option (H3Frame * bytes) :=
  match parse_h3_frame buf 0 with
  | (Some f, off) => Some (f, drop off buf)
  | (None, _) => None
  end.

Definition is_uni (id : Z) : bool := negb (id .& 0x02 =? 0).
Definition is_request_stream (id : Z) : bool := negb (is_uni id) && is_client_initiated id.

(** One field line of a decoded header section. *)
Definition apply_field (r : Http3Request) (nv : bytes * bytes) : Http3Request :=
  let '(name, value) := nv in
  if bool_decide (name = str ":method") then mkH3Request value (rq_scheme r) (rq_authority r) (rq_path r) (rq_headers r) (rq_body r)
  else if bool_decide (name = str ":scheme") then mkH3Request (rq_method r) value (rq_authority r) (rq_path r) (rq_headers r) (rq_body r)
  else if bool_decide (name = str ":authority") then mkH3Request (rq_method r) (rq_scheme r) value (rq_path r) (rq_headers r) (rq_body r)
  else if bool_decide (name = str ":path") then mkH3Request (rq_method r) (rq_scheme r) (rq_authority r) value (rq_headers r) (rq_body r)
  else mkH3Request (rq_method r) (rq_scheme r) (rq_authority r) (rq_path r) (rq_headers r ++ [(name, value)]) (rq_body r).

Definition add_body (d : bytes) (r : Http3Request) : Http3Request :=
  mkH3Request (rq_method r) (rq_scheme r) (rq_authority r) (rq_path r) (rq_headers r) (rq_body r ++ d).

(** How the loop over the frames ends: it runs out of frames, it returns, or
    it returns behind a [close_with_error] with the given reason. *)
Inductive Drained := NoMoreFrames | Returned | ClosedFor (reason : bytes).

(** One round of [while (true)]. *)
Definition drain_step (pr : PendingRequest) : PendingRequest + option (Drained * PendingRequest) :=
  match consume_leading_h3_frame (recv_buf pr) with
  | None => inr (Some (NoMoreFrames, pr))
  | Some (f, rest) =>
      let pr := mkPending rest (req pr) (headers_parsed pr) (fin_seen pr) (handled pr) in
      match f with
      | H3Headers section =>
          if kMaxFieldSectionBytes <? #section then inr (Some (ClosedFor (str "header section too large"), pr)) else
          match qpack_decode section with
          | None => inr None
          | Some None => inr (Some (Returned, pr))
          | Some (Some hl) => inl (mkPending rest (foldl apply_field (req pr) hl) true (fin_seen pr) (handled pr))
          end
      | H3Data d =>
          if u64 (kMaxRequestBodyBytes - #(rq_body (req pr))) <? #d then inr (Some (ClosedFor (str "request body too large"), pr)) else
          inl (mkPending rest (add_body d (req pr)) (headers_parsed pr) (fin_seen pr) (handled pr))
      | _ => inl pr
      end
  end.

Definition drain_frames (pr : PendingRequest) : option (Drained * PendingRequest) :=
  r ← loop drain_step (S (length (recv_buf pr))) pr;
  r.

(** The [while] over the frames of a control stream. *)
Definition control_step (buf : bytes) : bytes + bytes :=
  match consume_leading_h3_frame buf with
  | Some (_, rest) => inl rest
  | None => inr buf
  end.

Definition drain_control (buf : bytes) : option bytes := loop control_step (S (length buf)) buf.

(** The response on the wire. *)
Definition response_headers (resp : Http3Response) : list (bytes * bytes) :=
  (str ":status", to_string (rs_status resp)) :: rs_headers resp.

Definition encode_response (resp : Http3Response) : option bytes :=
  wire ← encode_h3_frame [] (H3Headers (qpack_encode (response_headers resp) []));
  if (length (rs_body resp) =? 0)%nat then Some wire else encode_h3_frame wire (H3Data (rs_body resp)).

(** ** The server *)

Section Server.
Context {T : Type} {tls : Tls T} {lib : CryptoLib}.
Context (on_request : list (Z * Http3Request) -> Http3Request -> option Http3Response).

Definition h3_close (why : bytes) (c : Conn (T := T)) : Conn (T := T) := close_with_error kH3ExcessiveLoad true why 0 c.

Definition initialize_server_streams (h : Http3Server) (c : Conn) : option (Http3Server * Conn) :=
  if initialized_ h then Some (h, c) else
  ctl ← VarInt.append [] kUniControl;
  ctl ← encode_h3_frame ctl (H3Settings [(kQpackMaxTableCapacity, 0); (kQpackBlockedStreams, 0)]);
  let c := write_stream kServerControl ctl false c in
  qenc ← VarInt.append [] kUniQpackEncoder;
  let c := write_stream kServerQpackEncoder qenc false c in
  qdec ← VarInt.append [] kUniQpackDecoder;
  let c := write_stream kServerQpackDecoder qdec false c in
  Some (mkServer true (pending_ h) (uni_ h) (calls h), c).

Definition put_uni (id : Z) (u : PendingUni) (h : Http3Server) : Http3Server :=
  mkServer (initialized_ h) (pending_ h) (sm_insert id u (uni_ h)) (calls h).

Definition put_pending (id : Z) (pr : PendingRequest) (h : Http3Server) : Http3Server :=
  mkServer (initialized_ h) (sm_insert id pr (pending_ h)) (uni_ h) (calls h).

(** Bytes of a client's unidirectional stream. *)
Definition process_uni (id : Z) (chunk : bytes) (h : Http3Server) (c : Conn) : option (Http3Server * Conn) :=
  let u := sm_at new_uni id (uni_ h) in
  if u64 (kMaxUniStreamBytes - #(uni_buf u)) <? #chunk then
    Some (put_uni id u h, h3_close (str "uni stream buffer overflow") c)
  else
    let buf := uni_buf u ++ chunk in
    match (if uni_type u =? kNoType then consume_leading_varint buf else Some (uni_type u, buf)) with
    | None => Some (put_uni id (mkUni (uni_type u) buf) h, c)
    | Some (t, buf) =>
        if t =? kUniControl then
          buf ← drain_control buf;
          Some (put_uni id (mkUni t buf) h, c)
        else Some (put_uni id (mkUni t []) h, c)
    end.

(** Handing a complete request to the application. *)
Definition dispatch (id : Z) (pr : PendingRequest) (h : Http3Server) (c : Conn) : option (Http3Server * Conn) :=
  if headers_parsed pr && fin_seen pr && negb (handled pr) then
    let pr := mkPending (recv_buf pr) (req pr) true true true in
    resp ← on_request (calls h) (req pr);
    wire ← encode_response resp;
    let h := put_pending id pr h in
    Some (mkServer (initialized_ h) (pending_ h) (uni_ h) (calls h ++ [(id, req pr)]), write_stream id wire true c)
  else Some (put_pending id pr h, c).

(** Bytes of a request stream. *)
Definition process_request (id : Z) (chunk : bytes) (fin : bool) (h : Http3Server) (c : Conn) : option (Http3Server * Conn) :=
  let pr := sm_at new_pending id (pending_ h) in
  if u64 (kMaxRequestStreamBytes - #(recv_buf pr)) <? #chunk then
    Some (put_pending id pr h, h3_close (str "request stream buffer overflow") c)
  else
    let pr := mkPending (recv_buf pr ++ chunk) (req pr) (headers_parsed pr) (if fin then true else fin_seen pr) (handled pr) in
    '(how, pr) ← drain_frames pr;
    match how with
    | NoMoreFrames => dispatch id pr h c
    | Returned => Some (put_pending id pr h, c)
    | ClosedFor why => Some (put_pending id pr h, h3_close why c)
    end.

Definition process_stream (id : Z) (h : Http3Server) (c : Conn) : option (Http3Server * Conn) :=
  let '(chunk, fin, c) := read_stream id c in
  if (length chunk =? 0)%nat && negb fin then Some (h, c) else
  if is_uni id && is_client_initiated id then process_uni id chunk h c
  else if negb (is_request_stream id) then Some (h, c)
  else process_request id chunk fin h c.

Definition is_own_stream (id : Z) : bool := (id =? kServerControl) || (id =? kServerQpackEncoder) || (id =? kServerQpackDecoder).

Definition pump_stream (st : Http3Server * Conn) (id : Z) : option (Http3Server * Conn) :=
  if is_own_stream id then Some st else process_stream id st.1 st.2.

(** No stream is added or erased while [for_each_stream] runs. *)
Definition pump (h : Http3Server) (c : Conn) : option (Http3Server * Conn) :=
  if bool_decide (state_ c = Handshaking) then Some (h, c) else
  '(h, c) ← initialize_server_streams h c;
  for_each pump_stream (keys (streams_ c)) (h, c).

(** ** The service *)

Record Service := mkService { listener_ : Listener (T := T); servers_ : list (bytes * Http3Server) }.

Context (clock : nat -> nat -> Z) (tls_new : nat -> bytes -> TransportParameters -> T) (fuel : nat).

(** One round of [for_each_connection]. *)
Definition pump_connection (s : Service) (e : bytes * ConnState (T := T)) : option Service :=
  let '(scid, st) := e in
  let h := default new_server (bm_find scid (servers_ s)) in
  '(h, c) ← pump h (conn st);
  Some (mkService (use_connection scid (fun _ => c) (listener_ s)) (bm_insert scid h (servers_ s))).

Definition pump_all (s : Service) : option Service :=
  l ← Listener.on_timer clock fuel (listener_ s);
  for_each pump_connection (connections_ l) (mkService l (servers_ s)).

Definition handle_datagram (peer : PeerAddr) (dg : bytes) (s : Service) : option Service :=
  l ← Listener.on_datagram clock tls_new fuel peer dg (listener_ s);
  pump_all (mkService l (servers_ s)).
End Server.
