(* ===== verification/Http3Delivery.v ===== *)
(** * HTTP/3 server: requests are delivered whole and once

    The bytes of a request stream are an incremental byte machine, so the way
    QUIC splits them does not matter; a request that arrives in any pieces is
    handed to the application once, as the client sent it, and the response is
    written to its stream. *)
From S2P Require Import Prelude Utils VarInt SortedMap ByteMap QuicPacket QuicCrypto QuicFrame QuicStream TransportParams QuicConn Listener H3Frame Qpack Chunking Http3Server.

Local Open Scope Z_scope.

(** ** Frames at the front of a buffer *)

Lemma decode_extend buf off v off' x : VarInt.decode buf off = Some (v, off') -> VarInt.decode (buf ++ x) off = Some (v, off').
Proof.
  unfold VarInt.decode. intros H. destruct (Nat.leb_spec (length buf) off) as [|Hl]; [done|].
  rewrite length_app, (proj2 (Nat.leb_gt _ _)) by lia. apply bind_Some in H as (first & Ef & H). rewrite lookup_app_l, Ef by lia. cbn [mbind option_bind]. cbv zeta in *.
  set (size := Nat.pow 2 _) in *. destruct (Nat.ltb_spec (length buf) (off + size)) as [|Hs]; [done|]. rewrite (proj2 (Nat.ltb_ge _ _)) by lia.
  assert (0 < size)%nat by (unfold size; apply Nat.neq_0_lt_0, Nat.pow_nonzero; lia).
  rewrite drop_app_le, take_app_le by (rewrite ?length_drop; lia). exact H.
Qed.

Lemma parse_h3_extend buf f off x : bytes_ok buf -> parse_h3_frame buf 0 = (Some f, off) ->
  parse_h3_frame (buf ++ x) 0 = (Some f, off) /\ (0 < off <= length buf)%nat.
Proof.
  intros Hb. unfold parse_h3_frame. destruct (VarInt.decode buf 0) as [[t o1]|] eqn:E1; [|done]. cbn [mbind option_bind].
  destruct (VarInt.decode buf o1) as [[l o2]|] eqn:E2; [|done]. cbn [mbind option_bind].
  rewrite (decode_extend _ _ _ _ x E1). cbn [mbind option_bind]. rewrite (decode_extend _ _ _ _ x E2). cbn [mbind option_bind].
  apply decode_bounds in E1 as (_ & P1 & Q1); [|done]. apply decode_bounds in E2 as ([Hl0 Hl1] & P2 & Q2); [|done].
  assert (o1 <= 8 /\ o2 <= 16)%nat as [_ Ho] by set_solver by lia.
  change kMax with (2 ^ 62 - 1) in Hl1. rewrite !u64_small by (unfold u64_ok; lia). rewrite length_app.
  destruct (Z.ltb_spec (#buf) (Z.of_nat o2 + l)) as [|Hle]; [done|]. intros [= H <-]. rewrite (proj2 (Z.ltb_ge _ _)) by lia.
  rewrite drop_app_le, take_app_le by (rewrite ?length_drop; lia). rewrite H. split; [done|]. lia.
Qed.

Lemma consume_extend buf f rest x : bytes_ok buf -> consume_leading_h3_frame buf = Some (f, rest) ->
  consume_leading_h3_frame (buf ++ x) = Some (f, rest ++ x) /\ (length rest < length buf)%nat /\ bytes_ok rest.
Proof.
  unfold consume_leading_h3_frame. intros Hb. destruct (parse_h3_frame buf 0) as [[g|] off] eqn:E; [|done]. intros [= <- <-].
  destruct (parse_h3_extend _ _ _ x Hb E) as [-> Ho]. rewrite drop_app_le by lia. split; [done|]. rewrite length_drop. split; [lia|by apply Forall_drop].
Qed.

(** ** A request stream as a byte machine *)

Record Drain := mkDrain { d_how : Drained; d_pr : PendingRequest }.

Definition push_buf (x : bytes) (pr : PendingRequest) : PendingRequest :=
  mkPending (recv_buf pr ++ x) (req pr) (headers_parsed pr) (fin_seen pr) (handled pr).

Definition drain_round (s : Drain) : Drain + Drain :=
  match d_how s with
  | NoMoreFrames =>
      match drain_step (d_pr s) with
      | inl pr => inl (mkDrain NoMoreFrames pr)
      | inr (Some (how, pr)) => inr (mkDrain how pr)
      | inr None => inr s
      end
  | _ => inr s
  end.

Global Instance drain_machine : ByteMachine Drain := {|
  bm_weight s := length (recv_buf (d_pr s));
  bm_push x s := mkDrain (d_how s) (push_buf x (d_pr s));
  bm_closing s := match d_how s with NoMoreFrames => false | _ => true end;
  bm_step := drain_round |}.

(** What a round does, by the frame at the front. *)
Lemma drain_step_frame pr f rest : consume_leading_h3_frame (recv_buf pr) = Some (f, rest) ->
  (exists r p, drain_step pr = inl (mkPending rest r p (fin_seen pr) (handled pr)) /\
     forall pr', req pr' = req pr -> headers_parsed pr' = headers_parsed pr -> forall rest', consume_leading_h3_frame (recv_buf pr') = Some (f, rest') ->
       drain_step pr' = inl (mkPending rest' r p (fin_seen pr') (handled pr'))) \/
  (exists how, how <> NoMoreFrames /\ drain_step pr = inr (Some (how, mkPending rest (req pr) (headers_parsed pr) (fin_seen pr) (handled pr))) /\
     forall pr', req pr' = req pr -> headers_parsed pr' = headers_parsed pr -> forall rest', consume_leading_h3_frame (recv_buf pr') = Some (f, rest') ->
       drain_step pr' = inr (Some (how, mkPending rest' (req pr') (headers_parsed pr') (fin_seen pr') (handled pr')))).
Proof.
  intros E. unfold drain_step. rewrite E. cbv zeta. cbn [req headers_parsed fin_seen handled].
  destruct f as [d|section|es|v|v|v|t d].
  - destruct (_ <? #d) eqn:El; [right|left].
    + eexists. split; [|split; [reflexivity|]]; [done|]. intros pr' Er Ep rest' E'. by rewrite E', Er, El.
    + eexists _, _. split; [reflexivity|]. intros pr' Er Ep rest' E'. by rewrite E', Er, Ep, El.
  - destruct (kMaxFieldSectionBytes <? #section) eqn:El.
    { right. eexists. split; [|split; [reflexivity|]]; [done|]. intros pr' Er Ep rest' E'. by rewrite E', El. }
    destruct (qpack_decode_total section) as [[hl|] Eq]; rewrite Eq; [left|right].
    + eexists _, _. split; [reflexivity|]. intros pr' Er Ep rest' E'. by rewrite E', El, Eq, Er.
    + eexists. split; [|split; [reflexivity|]]; [done|]. intros pr' Er Ep rest' E'. by rewrite E', El, Eq.
  - left. eexists _, _. split; [reflexivity|]. intros pr' Er Ep rest' E'. by rewrite E', Er, Ep.
  - left. eexists _, _. split; [reflexivity|]. intros pr' Er Ep rest' E'. by rewrite E', Er, Ep.
  - left. eexists _, _. split; [reflexivity|]. intros pr' Er Ep rest' E'. by rewrite E', Er, Ep.
  - left. eexists _, _. split; [reflexivity|]. intros pr' Er Ep rest' E'. by rewrite E', Er, Ep.
  - left. eexists _, _. split; [reflexivity|]. intros pr' Er Ep rest' E'. by rewrite E', Er, Ep.
Qed.

Lemma drain_step_idle pr : consume_leading_h3_frame (recv_buf pr) = None -> drain_step pr = inr (Some (NoMoreFrames, pr)).
Proof. unfold drain_step. by intros ->. Qed.

Definition drain_ok (s : Drain) : Prop := bytes_ok (recv_buf (d_pr s)).

(** A round, with [x] behind the buffer. *)
Lemma drain_round_push s x : drain_ok s -> d_how s = NoMoreFrames ->
  match drain_round s with
  | inl s' => drain_round (bm_push x s) = inl (bm_push x s') /\ d_how s' = NoMoreFrames /\ drain_ok s' /\
      (length (recv_buf (d_pr s')) < length (recv_buf (d_pr s)))%nat
  | inr r => r = s \/ (bm_closing r = true /\ drain_round (bm_push x s) = inr (bm_push x r) /\ drain_ok r)
  end.
Proof.
  destruct s as [how pr]. unfold drain_ok. cbn. intros Hb ->. unfold drain_round. cbn [d_how d_pr bm_push drain_machine].
  destruct (consume_leading_h3_frame (recv_buf pr)) as [[f rest]|] eqn:E; [|rewrite (drain_step_idle pr E); by left].
  destruct (consume_extend _ _ _ x Hb E) as (Ex & Hlt & Hbr).
  destruct (drain_step_frame pr f rest E) as [(r & p & -> & Hp)|(how & Hh & -> & Hp)]; cbn [d_pr d_how recv_buf].
  - by rewrite (Hp (push_buf x pr) eq_refl eq_refl _ Ex).
  - right. rewrite (Hp (push_buf x pr) eq_refl eq_refl _ Ex). by destruct how.
Qed.

Lemma drain_round_closed s : d_how s <> NoMoreFrames -> drain_round s = inr s.
Proof. unfold drain_round. by destruct (d_how s). Qed.

Global Instance drain_laws : ByteMachineLaws Drain.
Proof.
  assert (Hr : forall s, drain_ok s -> drain_round s = inr s \/ d_how s = NoMoreFrames).
  { intros s _. destruct (d_how s) eqn:E; [by right|left; apply drain_round_closed; by rewrite E..]. }
  refine {| bm_ok := drain_ok |}.
  - done.
  - intros x y [how pr]. cbn. unfold push_buf. cbn. by rewrite app_assoc.
  - intros x [how pr] Hb. by apply Forall_app in Hb as [? _].
  - intros s s' Hok E. cbn in E. destruct (Hr s Hok) as [E2|Hh]; [congruence|]. pose proof (drain_round_push s [] Hok Hh) as H. rewrite E in H. tauto.
  - intros s s' x Hok E. cbn in E. destruct (Hr s Hok) as [E2|Hh]; [congruence|]. pose proof (drain_round_push s x Hok Hh) as H. rewrite E in H. tauto.
  - intros s r Hok E. cbn in E. destruct (Hr s Hok) as [E2|Hh]; [congruence|]. pose proof (drain_round_push s [] Hok Hh) as H. rewrite E in H.
    destruct H as [->|H]; tauto.
  - intros s r x Hok E. cbn in E. destruct (Hr s Hok) as [E2|Hh]; [left; congruence|]. pose proof (drain_round_push s x Hok Hh) as H. rewrite E in H. tauto.
  - intros s H. apply drain_round_closed. cbn in H. by destruct (d_how s).
Defined.

(** ** The loop of the source is the machine's *)

Definition set_fin (b : bool) (pr : PendingRequest) : PendingRequest :=
  mkPending (recv_buf pr) (req pr) (headers_parsed pr) b (handled pr).

Lemma drain_loop b n : forall pr r, loop drain_round n (mkDrain NoMoreFrames pr) = Some r ->
  loop drain_step n (set_fin b pr) = Some (Some (d_how r, set_fin b (d_pr r))).
Proof.
  induction n as [|n IH]; intros pr r E; [done|]. cbn [loop] in *. unfold drain_round in E. cbn [d_how d_pr] in E.
  destruct (consume_leading_h3_frame (recv_buf pr)) as [[f rest]|] eqn:Ec.
  - destruct (drain_step_frame pr f rest Ec) as [(q & p & Es & Hp)|(how & Hh & Es & Hp)]; rewrite Es in E.
    + rewrite (Hp (set_fin b pr) eq_refl eq_refl rest Ec). exact (IH _ _ E).
    + rewrite (Hp (set_fin b pr) eq_refl eq_refl rest Ec). by injection E as <-.
  - rewrite (drain_step_idle pr Ec) in E. injection E as <-. by rewrite (drain_step_idle (set_fin b pr) Ec).
Qed.

Lemma drain_frames_eq b pr r : bm_process (mkDrain NoMoreFrames pr) = Some r ->
  drain_frames (set_fin b pr) = Some (d_how r, set_fin b (d_pr r)).
Proof. intros E. unfold drain_frames. pose proof (drain_loop b _ _ _ E) as H. change (bm_weight _) with (length (recv_buf (set_fin b pr))) in H. by rewrite H. Qed.

Lemma drain_loop_buf n : forall s r, drain_ok s -> loop drain_round n s = Some r ->
  (length (recv_buf (d_pr r)) <= length (recv_buf (d_pr s)))%nat /\ fin_seen (d_pr r) = fin_seen (d_pr s) /\ handled (d_pr r) = handled (d_pr s).
Proof.
  intros s r Hok E.
  refine (loop_post drain_round (fun x => drain_ok x /\ (length (recv_buf (d_pr x)) <= length (recv_buf (d_pr s)))%nat /\ fin_seen (d_pr x) = fin_seen (d_pr s) /\ handled (d_pr x) = handled (d_pr s))
    (fun x => (length (recv_buf (d_pr x)) <= length (recv_buf (d_pr s)))%nat /\ fin_seen (d_pr x) = fin_seen (d_pr s) /\ handled (d_pr x) = handled (d_pr s)) _ _ n s r _ E); [| |by split_and!].
  all: intros x y (Hx & Hl & Hf & Hh) Ey; unfold drain_round in Ey; destruct (d_how x) eqn:Ed; try done; try (injection Ey as <-; done).
  all: destruct (consume_leading_h3_frame (recv_buf (d_pr x))) as [[f rest]|] eqn:Ec;
    [destruct (consume_extend _ _ _ [] Hx Ec) as (_ & Hlt & Hbr); destruct (drain_step_frame _ f rest Ec) as [(q & p & Es & _)|(how & _ & Es & _)]; rewrite Es in Ey
    |rewrite (drain_step_idle _ Ec) in Ey]; try done; injection Ey as <-; cbn; try done.
  - split_and!; [done|lia|done|done].
  - split_and!; [lia|done|done].
Qed.

Lemma on_data_buf d s r : drain_ok (bm_push d s) -> bm_on_data d s = Some r ->
  (length (recv_buf (d_pr r)) <= length (recv_buf (d_pr s)) + length d)%nat /\ fin_seen (d_pr r) = fin_seen (d_pr s) /\ handled (d_pr r) = handled (d_pr s).
Proof.
  intros Hok E. unfold bm_on_data in E. cbv zeta in E. assert (Hl : length (recv_buf (d_pr (bm_push d s))) = (length (recv_buf (d_pr s)) + length d)%nat) by (cbn; apply length_app).
  destruct (bm_closing _); [apply (inj Some) in E as <-; rewrite Hl; by split_and!|]. apply drain_loop_buf in E; [|done]. rewrite Hl in E. exact E.
Qed.

Lemma feed_closed chunks : forall s r, bm_closing s = true -> bm_feed chunks s = Some r -> bm_closing r = true.
Proof.
  induction chunks as [|x chunks IH]; intros s r Hc E; cbn [bm_feed] in E; [by injection E as <-|]. apply bind_Some in E as (s1 & E1 & E).
  eapply IH; [|exact E]. unfold bm_on_data in E1. cbv zeta in E1. rewrite bm_push_closing, Hc in E1. apply (inj Some) in E1 as <-. by rewrite bm_push_closing.
Qed.

(** ** Requests on the wire *)

Definition h3_image (f : H3Frame) : bytes := enc (h3_type f) ++ enc (#(h3_body f)) ++ h3_body f.
Definition frames_image (fs : list H3Frame) : bytes := concat (h3_image <$> fs).

(** The fields of a request, pseudo-headers first. *)
Definition request_fields (r : Http3Request) : list (bytes * bytes) :=
  [(str ":method", rq_method r); (str ":scheme", rq_scheme r); (str ":authority", rq_authority r); (str ":path", rq_path r)] ++ rq_headers r.

Definition pseudo : list bytes := [str ":method"; str ":scheme"; str ":authority"; str ":path"].

(** What a DATA frame contributes, and the frames that may follow a header
    section: DATA and anything a server ignores. *)
Definition data_of (f : H3Frame) : bytes := match f with H3Data d => d | _ => [] end.
Definition is_headers (f : H3Frame) : bool := match f with H3Headers _ => true | _ => false end.

(** A request and the frames behind its header section. *)
Record request_ok (r : Http3Request) (tail : list H3Frame) : Prop := {
  ro_fields : Forall header_ok (request_fields r);
  ro_names : Forall (fun h => h.1 ∉ pseudo) (rq_headers r);
  ro_section : #(qpack_encode (request_fields r) []) <= kMaxFieldSectionBytes;
  ro_tail : Forall (fun f => h3_wf f /\ is_headers f = false) tail;
  ro_body : concat (data_of <$> tail) = rq_body r;
  ro_size : #(frames_image (H3Headers (qpack_encode (request_fields r) []) :: tail)) <= kMaxRequestStreamBytes }.

Definition request_image (r : Http3Request) (tail : list H3Frame) : bytes :=
  frames_image (H3Headers (qpack_encode (request_fields r) []) :: tail).

Lemma apply_other hs : forall r, Forall (fun h => h.1 ∉ pseudo) hs ->
  foldl apply_field r hs = mkH3Request (rq_method r) (rq_scheme r) (rq_authority r) (rq_path r) (rq_headers r ++ hs) (rq_body r).
Proof.
  induction hs as [|[n v] hs IH]; intros r H; cbn [foldl]; [rewrite app_nil_r; by destruct r|]. inversion H as [|? ? Hn Hs]; subst. cbn [fst] in Hn.
  unfold pseudo in Hn. rewrite !not_elem_of_cons in Hn. destruct Hn as (H1 & H2 & H3 & H4 & _).
  rewrite IH by done. cbn [apply_field]. rewrite !bool_decide_eq_false_2 by done. cbn. by rewrite <- app_assoc.
Qed.

Lemma fields_applied r : Forall (fun h => h.1 ∉ pseudo) (rq_headers r) ->
  foldl apply_field empty_request (request_fields r) = mkH3Request (rq_method r) (rq_scheme r) (rq_authority r) (rq_path r) (rq_headers r) [].
Proof.
  intros H. unfold request_fields. rewrite foldl_app, apply_other by done. reflexivity.
Qed.

Lemma consume_image f rest : h3_wf f -> size_ok (h3_image f ++ rest) -> consume_leading_h3_frame (h3_image f ++ rest) = Some (f, rest).
Proof.
  intros Hf Hs. destruct (h3_frame_wire f [] Hf) as (bs & E & H & _). rewrite encode_h3_ok in E by done. injection E as E. fold (h3_image f) in E. subst bs.
  unfold consume_leading_h3_frame. rewrite (H (h3_image f ++ rest) 0%nat rest Hs); [|split; [lia|done]]. by rewrite Nat.add_0_l, drop_app_length.
Qed.

Lemma frames_image_cons f fs : frames_image (f :: fs) = h3_image f ++ frames_image fs.
Proof. done. Qed.

Lemma image_body f : h3_wf f -> (length (data_of f) <= length (h3_image f))%nat.
Proof. intros _. unfold h3_image. rewrite !length_app. destruct f; cbn; lia. Qed.

(** The frames behind the header section. *)
Lemma tail_run tail : forall n r p fin hd, Forall (fun f => h3_wf f /\ is_headers f = false) tail ->
  #(rq_body r) + #(frames_image tail) <= kMaxRequestStreamBytes -> (length (frames_image tail) < n)%nat ->
  loop drain_round n (mkDrain NoMoreFrames (mkPending (frames_image tail) r p fin hd)) =
    Some (mkDrain NoMoreFrames (mkPending [] (add_body (concat (data_of <$> tail)) r) p fin hd)).
Proof.
  induction tail as [|f tail IH]; intros n r p fin hd Ht Hb Hn; (destruct n as [|n]; [lia|]); cbn [loop].
  - unfold drain_round. cbn. unfold add_body. rewrite app_nil_r. by destruct r.
  - inversion Ht as [|? ? [Hf Hnh] Ht']; subst. rewrite frames_image_cons in *. rewrite length_app in *. pose proof (image_body f Hf) as Hd.
    assert (Hs : size_ok (h3_image f ++ frames_image tail)) by (unfold size_ok, kMaxRequestStreamBytes in *; rewrite length_app; lia).
    pose proof (consume_image f (frames_image tail) Hf Hs) as Ec.
    assert (Hlen : (0 < length (h3_image f))%nat) by (unfold h3_image; rewrite length_app; pose proof (enc_length_pos _ (proj1 (h3_wire_ok f Hf))); lia).
    unfold drain_round. cbn [d_how d_pr]. unfold drain_step. cbn [recv_buf]. rewrite Ec. cbv zeta. cbn [req headers_parsed fin_seen handled].
    assert (Hgo : loop drain_round n (mkDrain NoMoreFrames (mkPending (frames_image tail) (add_body (data_of f) r) p fin hd)) =
      Some (mkDrain NoMoreFrames (mkPending [] (add_body (concat (data_of <$> f :: tail)) r) p fin hd))).
    { rewrite IH; [|done| |lia]; [|cbn; rewrite length_app; lia]. do 3 f_equal. unfold add_body. cbn. by rewrite <- app_assoc. }
    assert (Hnil : data_of f = [] -> add_body (data_of f) r = r) by (intros ->; unfold add_body; rewrite app_nil_r; by destruct r).
    destruct f as [d|s|es|v|v|v|t d]; try done; try (rewrite Hnil in Hgo by done; exact Hgo).
    cbn [data_of] in *. rewrite u64_small by (unfold u64_ok, kMaxRequestBodyBytes, kMaxRequestStreamBytes in *; lia).
    rewrite (proj2 (Z.ltb_ge _ _)) by (unfold kMaxRequestBodyBytes, kMaxRequestStreamBytes in *; lia). exact Hgo.
Qed.

Lemma request_run r tail : request_ok r tail ->
  bm_on_data (request_image r tail) (mkDrain NoMoreFrames new_pending) = Some (mkDrain NoMoreFrames (mkPending [] r true false false)).
Proof.
  intros [Hf Hn Hsec Ht Hb Hsz]. unfold bm_on_data, bm_process. cbn [bm_closing bm_push drain_machine d_how bm_weight d_pr bm_step].
  unfold push_buf. cbn [recv_buf new_pending app req headers_parsed fin_seen handled]. fold (request_image r tail) in Hsz.
  unfold request_image in *. rewrite frames_image_cons in *. remember (qpack_encode (request_fields r) []) as sec eqn:Esec.
  assert (Hwf : h3_wf (H3Headers sec)) by (cbn [h3_wf]; unfold varint_ok; change kMax with (2 ^ 62 - 1); unfold kMaxFieldSectionBytes in Hsec; lia).
  assert (Hs : size_ok (h3_image (H3Headers sec) ++ frames_image tail)) by (unfold size_ok, kMaxRequestStreamBytes in *; lia).
  assert (Hlen : (0 < length (h3_image (H3Headers sec)))%nat) by (unfold h3_image; rewrite length_app; pose proof (enc_length_pos _ (proj1 (h3_wire_ok _ Hwf))); lia).
  pose proof (consume_image _ _ Hwf Hs) as Ec. rewrite length_app in Hsz.
  remember (length (h3_image (H3Headers sec) ++ frames_image tail)) as k eqn:El. rewrite length_app in El.
  cbn [loop]. unfold drain_round at 1. cbn [d_how d_pr]. unfold drain_step. cbn [recv_buf]. rewrite Ec. cbv zeta. rewrite (proj2 (Z.ltb_ge _ _)) by done.
  rewrite Esec, qpack_decode_encode by done. cbn [req fin_seen handled]. rewrite fields_applied by done.
  rewrite (tail_run tail k); [|done|cbn; lia|lia]. do 3 f_equal. rewrite Hb. unfold add_body. cbn. by destruct r.
Qed.

Section Delivery.
Context {T : Type} {tls : Tls T} {lib : CryptoLib}.
Context (on_request : list (Z * Http3Request) -> Http3Request -> option Http3Response).
Implicit Types (c : Conn (T := T)) (h : Http3Server).

(** The entry of stream [id], and a server that is [h] with the entry [pr]. *)
Definition holds_entry (id : Z) (pr : PendingRequest) (h h' : Http3Server) : Prop :=
  sm_at new_pending id (pending_ h') = pr /\ calls h' = calls h.

(** A piece that does not end the stream. *)
Lemma piece_processed id h h' c pr chunk r : is_request_stream id = true -> (read_stream id c).1 = (chunk, false) ->
  holds_entry id pr h h' -> fin_seen pr = false -> bytes_ok (recv_buf pr ++ chunk) -> #(recv_buf pr) + #chunk <= kMaxRequestStreamBytes ->
  bm_on_data [] (mkDrain NoMoreFrames pr) = Some (mkDrain NoMoreFrames pr) ->
  bm_on_data chunk (mkDrain NoMoreFrames pr) = Some (mkDrain NoMoreFrames r) ->
  exists h'' c', process_stream on_request id h' c = Some (h'', c') /\ holds_entry id r h h''.
Proof.
  intros Hid Hr [He Hc] Hfin Hb Hsz Hidle E. unfold process_stream. destruct (read_stream id c) as [[ck fin] c1]. cbn [fst] in Hr. injection Hr as -> ->.
  destruct (length chunk =? 0)%nat eqn:El.
  - apply Nat.eqb_eq in El. destruct chunk; [|done]. cbn [andb negb]. eexists _, _. split; [done|]. rewrite Hidle in E. injection E as <-. by split.
  - cbn [andb negb]. assert (Hu : is_uni id = false) by (unfold is_request_stream in Hid; destruct (is_uni id); done). rewrite Hu. cbn [andb]. rewrite Hid. cbn [negb].
    unfold process_request. rewrite He. cbv zeta. rewrite u64_small by (unfold u64_ok, kMaxRequestStreamBytes in *; lia). rewrite (proj2 (Z.ltb_ge _ _)) by lia.
    change (mkPending (recv_buf pr ++ chunk) (req pr) (headers_parsed pr) (fin_seen pr) (handled pr)) with (push_buf chunk pr).
    destruct (on_data_buf chunk (mkDrain NoMoreFrames pr) _ Hb E) as (_ & Hf' & _). cbn [d_pr] in Hf'.
    unfold bm_on_data in E. cbn [bm_push bm_closing drain_machine d_how d_pr] in E. apply (drain_frames_eq false) in E. cbn [d_how d_pr] in E.
    replace (set_fin false (push_buf chunk pr)) with (push_buf chunk pr) in E by (unfold set_fin; cbn; by rewrite <- Hfin).
    replace (set_fin false r) with r in E by (destruct r; unfold set_fin; cbn in *; congruence).
    rewrite E. cbn [mbind option_bind]. unfold dispatch. rewrite Hf', Hfin, andb_false_r. cbn [andb]. eexists _, _. split; [done|].
    split; [|done]. unfold sm_at. cbn. by rewrite find_insert, Z.eqb_refl.
Qed.

(** Processing the stream each time the connection has been driven further. *)
Definition serve (id : Z) (st : Http3Server * Conn (T := T)) (c : Conn (T := T)) : option (Http3Server * Conn (T := T)) :=
  process_stream on_request id st.1 c.

Lemma pieces_processed id h chunks : is_request_stream id = true -> forall cs st pr r,
  (fun c => (read_stream id c).1) <$> cs = (fun x => (x, false)) <$> chunks ->
  holds_entry id pr h st.1 -> fin_seen pr = false -> bytes_ok (recv_buf pr ++ concat chunks) ->
  #(recv_buf pr) + #(concat chunks) <= kMaxRequestStreamBytes ->
  bm_on_data [] (mkDrain NoMoreFrames pr) = Some (mkDrain NoMoreFrames pr) ->
  bm_feed chunks (mkDrain NoMoreFrames pr) = Some (mkDrain NoMoreFrames r) ->
  exists st', for_each (serve id) cs st = Some st' /\ holds_entry id r h st'.1 /\ fin_seen r = false /\
    #(recv_buf r) <= #(recv_buf pr) + #(concat chunks).
Proof.
  intros Hid. induction chunks as [|x chunks IH]; intros cs st pr r Hcs He Hf Hb Hsz Hidle E.
  - destruct cs; [|done]. injection E as <-. exists st. split; [done|]. split; [done|]. split; [done|]. cbn. lia.
  - destruct cs as [|c cs]; [done|]. injection Hcs as Hc Hcs. cbn [bm_feed] in E. apply bind_Some in E as ([how pr1] & E1 & E).
    cbn [concat] in Hb, Hsz. rewrite app_assoc in Hb. pose proof (proj1 (proj1 (Forall_app _ _ _) Hb)) as Hb1. rewrite length_app in Hsz.
    assert (how = NoMoreFrames) as ->.
    { destruct (bm_closing (mkDrain how pr1)) eqn:Ecl; [apply (feed_closed chunks) with (r := mkDrain NoMoreFrames r) in Ecl; done|by destruct how]. }
    destruct (on_data_buf x (mkDrain NoMoreFrames pr) _ Hb1 E1) as (Hl & Hf1 & _). cbn [d_pr] in Hl, Hf1.
    destruct (piece_processed id h st.1 c pr x pr1 Hid Hc He Hf Hb1 ltac:(lia) Hidle E1) as (h1 & c1 & Ep & He1).
    cbn [for_each]. change (serve id st c) with (process_stream on_request id st.1 c). rewrite Ep. cbn [mbind option_bind].
    assert (Hb2 : bytes_ok (recv_buf pr1 ++ concat chunks)).
    { apply Forall_app. split; [|by apply Forall_app in Hb as [_ ?]]. assert (Hm : bm_ok (bm_push x (mkDrain NoMoreFrames pr))) by exact Hb1. destruct (bm_on_data_total _ _ Hm) as (s' & Es & Hs). rewrite E1 in Es. by injection Es as <-. }
    destruct (IH cs (h1, c1) pr1 r Hcs He1 ltac:(congruence) Hb2 ltac:(lia)) as (st' & Es & Hh & Hr1 & Hr2); [eapply bm_idle_after; [|exact E1]; exact Hb1|done|].
    exists st'. split; [done|]. split; [done|]. split; [done|]. cbn [concat]. rewrite length_app. lia.
Qed.

(** The piece that ends the stream. *)
Lemma last_processed id h h' c pr chunk r w : is_request_stream id = true -> (read_stream id c).1 = (chunk, true) ->
  holds_entry id pr h h' -> handled pr = false -> #(recv_buf pr) + #chunk <= kMaxRequestStreamBytes ->
  bm_on_data chunk (mkDrain NoMoreFrames pr) = Some (mkDrain NoMoreFrames (mkPending [] r true false false)) ->
  on_request (calls h) r ≫= encode_response = Some w ->
  exists h'', process_stream on_request id h' c = Some (h'', write_stream id w true (read_stream id c).2) /\ calls h'' = calls h ++ [(id, r)].
Proof.
  intros Hid Hr [He Hc] Hh Hsz E Hw. unfold process_stream. destruct (read_stream id c) as [[ck fin] c1]. cbn [fst snd] in *. injection Hr as -> ->.
  rewrite andb_false_r. assert (Hu : is_uni id = false) by (unfold is_request_stream in Hid; destruct (is_uni id); done). rewrite Hu. cbn [andb]. rewrite Hid. cbn [negb].
  unfold process_request. rewrite He. cbv zeta. rewrite u64_small by (unfold u64_ok, kMaxRequestStreamBytes in *; lia). rewrite (proj2 (Z.ltb_ge _ _)) by lia.
  change (mkPending (recv_buf pr ++ chunk) (req pr) (headers_parsed pr) true (handled pr)) with (set_fin true (push_buf chunk pr)).
  unfold bm_on_data in E. cbn [bm_push bm_closing drain_machine d_how d_pr] in E. rewrite (drain_frames_eq true _ _ E). cbn [mbind option_bind d_how d_pr].
  unfold dispatch, set_fin. cbn [headers_parsed fin_seen handled andb negb req recv_buf]. apply bind_Some in Hw as (resp & Eo & Hw). rewrite Hc, Eo. cbn [mbind option_bind]. rewrite Hw. cbn [mbind option_bind]. eexists. split; [reflexivity|]. cbn. by rewrite Hc.
Qed.

(** C3: Requests arrive whole and once.  A request (its header section
    followed by DATA frames and frames the server ignores, within the
    limits) that arrives on a new request stream in any pieces, the last one
    with the end of the stream, is handed to the application exactly once,
    with the fields and the body the client sent; if the application returns
    a response that can be encoded, the response is encoded and
    written to the same stream with the end of the stream behind it. *)
Theorem h3_request_delivered id h c0 r tail chunks lastp cs cl w :
  is_request_stream id = true -> sm_find id (pending_ h) = None -> request_ok r tail -> bytes_ok (request_image r tail) ->
  concat chunks ++ lastp = request_image r tail ->
  (fun c => (read_stream id c).1) <$> cs = (fun x => (x, false)) <$> chunks -> (read_stream id cl).1 = (lastp, true) ->
  on_request (calls h) r ≫= encode_response = Some w ->
  exists h', for_each (serve id) (cs ++ [cl]) (h, c0) = Some (h', write_stream id w true (read_stream id cl).2) /\
    calls h' = calls h ++ [(id, r)].
Proof.
  intros Hid Hnew Hok Hby Himg Hcs Hcl Hw. pose proof (request_run r tail Hok) as Hrun. pose proof (ro_size _ _ Hok) as Hsz. fold (request_image r tail) in Hsz.
  set (s0 := mkDrain NoMoreFrames new_pending) in *. rewrite <- Himg in Hrun, Hby, Hsz. rewrite length_app in Hsz.
  assert (Hok0 : bm_ok (bm_push (concat chunks ++ lastp) s0)) by exact Hby.
  destruct (bm_on_data_app s0 (concat chunks) lastp Hok0) as (s1 & E1 & E2 & Hok1). rewrite Hrun in E2. symmetry in E2.
  assert (Hidle : bm_on_data [] s0 = Some s0) by by vm_compute.
  destruct (bm_chunking s0 chunks Hidle) as (s1' & Ef & E1' & _); [by apply Forall_app in Hby as [? _]|]. rewrite E1 in E1'. injection E1' as <-.
  destruct s1 as [how pr]. assert (how = NoMoreFrames) as ->.
  { destruct (bm_closing (mkDrain how pr)) eqn:Ecl; [|by destruct how]. unfold bm_on_data in E2. cbv zeta in E2. rewrite bm_push_closing, Ecl in E2. injection E2. by destruct how. }
  assert (He0 : holds_entry id new_pending h h) by (split; [unfold sm_at; by rewrite Hnew|done]).
  destruct (pieces_processed id h chunks Hid cs (h, c0) new_pending pr Hcs He0 eq_refl) as (st1 & Er & He1 & Hf1 & Hl1);
    [by apply Forall_app in Hby as [? _]|cbn; lia|done|done|].
  destruct (on_data_buf (concat chunks) s0 _ ltac:(by apply Forall_app in Hby as [? _]) E1) as (_ & _ & Hh1). cbn in Hh1, Hl1.
  destruct (last_processed id h st1.1 cl pr lastp r w Hid Hcl He1 Hh1 ltac:(lia) E2 Hw) as (h' & Ep & Hcalls). exists h'. split; [|done].
  rewrite for_each_app, Er. cbn [mbind option_bind for_each]. unfold serve. by rewrite Ep.
Qed.
End Delivery.

(** ** A request in two pieces *)

Definition demo_request : Http3Request :=
  mkH3Request (str "POST") (str "https") (str "a.example") (str "/x") [(str "accept", str "*/*")] [1; 2; 3; 4].
Definition demo_tail : list H3Frame := [H3Data [1; 2]; H3Reserved 0x21 [9]; H3Data [3; 4]].
Definition demo_image : bytes := Eval vm_compute in request_image demo_request demo_tail.
Definition demo_app (log : list (Z * Http3Request)) (r : Http3Request) : option Http3Response := Some (mkH3Response 200 [] (rq_body r)).
Definition demo_server : Http3Server := new_server.

(** The connection after the first seven bytes, and after the rest. *)
Definition demo_first (c : Conn (T := nat)) : Conn := @on_stream_frame nat demo_tls (QuicFrame.mkStream 0 0 true false (take 7 demo_image)) c.
Definition demo_second (c : Conn (T := nat)) : Conn :=
  @on_stream_frame nat demo_tls (QuicFrame.mkStream 0 7 true true (drop 7 demo_image)) (read_stream 0 (demo_first c)).2.

Lemma demo_request_ok : request_ok demo_request demo_tail.
Proof.
  split; [..|vm_compute; done].
  - repeat constructor; vm_compute; done.
  - repeat constructor; vm_compute; intros H; repeat (inversion H as [|? ? ? H']; subst; clear H; rename H' into H).
  - vm_compute. done.
  - repeat constructor; vm_compute; done.
  - done.
Qed.

Lemma h3_request_delivered_witness : exists c1 c2 h', for_each (@serve nat demo_tls demo_app 0) [c1; c2] (demo_server, c1) = Some h' /\
  calls h'.1 = [(0, demo_request)].
Proof.
  assert (E : (c ← demo_conn; Some ((read_stream 0 (demo_first c)).1, (read_stream 0 (demo_second c)).1)) =
    Some ((take 7 demo_image, false), (drop 7 demo_image, true))) by (vm_compute; reflexivity).
  apply bind_Some in E as (c & _ & E). apply (inj Some), pair_equal_spec in E as [E1 E2].
  assert (Ew : exists w, demo_app [] demo_request ≫= encode_response = Some w) by (eexists; vm_compute; reflexivity). destruct Ew as [w Ew].
  destruct (@h3_request_delivered nat demo_tls demo_app 0 demo_server (demo_first c) demo_request demo_tail [take 7 demo_image] (drop 7 demo_image)
    [demo_first c] (demo_second c) w) as (h' & Eh & Hc); [done|done|exact demo_request_ok|vm_compute; repeat constructor; done| | |exact E2|exact Ew|].
  - vm_compute. reflexivity.
  - cbn [fmap list_fmap]. by rewrite E1.
  - exists (demo_first c), (demo_second c). eexists. split; [exact Eh|exact Hc].
Defined.
