(* ===== verification/Http3Safety.v ===== *)
(** * HTTP/3 server: bounded buffers and one call per request

    The invariant of the HTTP/3 server of one connection: the undecoded bytes
    and the bodies it holds for the peer stay within the limits of the source
    (the decoded header fields do not), and the application is called at most
    once per stream.  Driving the server never fails and
    never sends: what it writes leaves with a later event of the connection. *)
From S2P Require Import Prelude Utils VarInt SortedMap ByteMap QuicPacket QuicCrypto QuicFrame QuicStream TransportParams QuicConn Listener ListenerSafety H3Frame Chunking Qpack Http3Server Http3Delivery.

Local Open Scope Z_scope.

(** ** Invariants *)

Definition pending_wf (pr : PendingRequest) : Prop :=
  bytes_ok (recv_buf pr) /\ #(recv_buf pr) <= kMaxRequestStreamBytes /\ #(rq_body (req pr)) <= kMaxRequestBodyBytes.

Definition uni_wf (u : PendingUni) : Prop := bytes_ok (uni_buf u) /\ #(uni_buf u) <= kMaxUniStreamBytes.

Record h3_ok (h : Http3Server) : Prop := {
  ho_pending : forall id pr, sm_find id (pending_ h) = Some pr -> pending_wf pr;
  ho_uni : forall id u, sm_find id (uni_ h) = Some u -> uni_wf u;
  ho_once : NoDup (calls h).*1;
  ho_handled : forall id r, (id, r) ∈ calls h -> is_request_stream id = true /\ #(rq_body r) <= kMaxRequestBodyBytes /\
    exists pr, sm_find id (pending_ h) = Some pr /\ handled pr = true }.

(** The chunks a connection holds for its readers are bytes. *)
Definition chunks_bytes {T} (c : Conn (T := T)) : Prop :=
  forall id s, find_stream id c = Some s -> Forall (fun ck => bytes_ok ck.2) (recv_chunks (recv s)).

(** ** The frames of a request stream *)

Lemma apply_fields_body hl : forall r, rq_body (foldl apply_field r hl) = rq_body r.
Proof.
  induction hl as [|[n v] hl IH]; intros r; [done|]. cbn [foldl]. rewrite IH. unfold apply_field. repeat (case_bool_decide; [done|]). done.
Qed.

Lemma drain_step_safe pr : pending_wf pr ->
  let keeps pr' := pending_wf pr' /\ fin_seen pr' = fin_seen pr /\ handled pr' = handled pr in
  match drain_step pr with
  | inl pr' => keeps pr' /\ (length (recv_buf pr') < length (recv_buf pr))%nat
  | inr r => exists how pr', r = Some (how, pr') /\ keeps pr'
  end.
Proof.
  intros (Hb & Hl & Hy). cbv zeta. unfold drain_step. destruct (consume_leading_h3_frame _) as [[f rest]|] eqn:E; [|by eexists _, _].
  destruct (consume_extend _ _ _ [] Hb E) as (_ & Hlt & Hr).
  assert (Hw : forall r p, #(rq_body r) <= kMaxRequestBodyBytes ->
    (pending_wf (mkPending rest r p (fin_seen pr) (handled pr)) /\ fin_seen pr = fin_seen pr /\ handled pr = handled pr)) by (intros; repeat split; cbn; auto; lia).
  destruct f as [d|sec|es|v|v|v|t d]; cbn [req headers_parsed fin_seen handled recv_buf]; try (split; [by apply Hw|done]).
  - rewrite u64_small by (unfold u64_ok, kMaxRequestBodyBytes in *; lia). destruct (Z.ltb_spec (kMaxRequestBodyBytes - #(rq_body (req pr))) (#d)).
    + eexists _, _. split; [done|by apply Hw].
    + split; [|done]. apply Hw. cbn. rewrite length_app. lia.
  - destruct (kMaxFieldSectionBytes <? #sec); [eexists _, _; split; [done|by apply Hw]|]. destruct (qpack_decode_total sec) as [[hl|] ->].
    + split; [|done]. apply Hw. by rewrite apply_fields_body.
    + eexists _, _. split; [done|by apply Hw].
Qed.

Lemma drain_frames_safe pr : pending_wf pr -> exists how pr', drain_frames pr = Some (how, pr') /\
  pending_wf pr' /\ fin_seen pr' = fin_seen pr /\ handled pr' = handled pr.
Proof.
  intros Hw. set (I pr' := pending_wf pr' /\ fin_seen pr' = fin_seen pr /\ handled pr' = handled pr).
  assert (Hstep : forall s s', I s -> drain_step s = inl s' -> I s' /\ (length (recv_buf s') < length (recv_buf s))%nat).
  { intros s s' (H1 & H2 & H3) E. pose proof (drain_step_safe s H1) as H. cbv zeta in H. rewrite E in H. destruct H as ((? & ? & ?) & ?).
    split; [|done]. split; [done|]. split; congruence. }
  destruct (loop_total drain_step I (fun s => length (recv_buf s)) Hstep (S (length (recv_buf pr))) pr ltac:(done) ltac:(lia)) as [r E].
  assert (Q : exists how pr', r = Some (how, pr') /\ I pr').
  { revert E. apply (loop_post drain_step I (fun r => exists how pr', r = Some (how, pr') /\ I pr')); [intros s s' H E; by destruct (Hstep _ _ H E)| |done].
    intros s r' (H1 & H2 & H3) E. pose proof (drain_step_safe s H1) as H. cbv zeta in H. rewrite E in H. destruct H as (how & pr' & -> & ? & ? & ?).
    eexists _, _. split; [done|]. split; [done|]. split; congruence. }
  destruct Q as (how & pr' & -> & H). exists how, pr'. unfold drain_frames. rewrite E. done.
Qed.

Lemma drain_control_safe buf : bytes_ok buf -> exists r, drain_control buf = Some r /\ bytes_ok r /\ (length r <= length buf)%nat.
Proof.
  intros Hb. set (I (b : bytes) := bytes_ok b /\ (length b <= length buf)%nat).
  assert (Hstep : forall s s', I s -> control_step s = inl s' -> I s' /\ (length s' < length s)%nat).
  { intros s s' [H1 H2]. unfold control_step. destruct (consume_leading_h3_frame s) as [[f rest]|] eqn:E; [|done]. intros [= <-].
    destruct (consume_extend _ _ _ [] H1 E) as (_ & ? & ?). split; [split; [done|lia]|done]. }
  destruct (loop_total control_step I length Hstep (S (length buf)) buf ltac:(done) ltac:(lia)) as [r E]. exists r. split; [done|].
  revert E. apply (loop_post control_step I I); [intros s s' H E; by destruct (Hstep _ _ H E)| |done].
  intros s r' H. unfold control_step. case_match; [by case_match|]. by intros [= <-].
Qed.

(** ** What the server does to its connection *)

Section Safety.
Context {T : Type} {tls : Tls T} {lib : CryptoLib}.
Context (on_request : list (Z * Http3Request) -> Http3Request -> option Http3Response).
Implicit Types (c : Conn (T := T)) (h : Http3Server).

(** Nothing is sent, and what waits to be read stays bytes. *)
Definition local_step (c c' : Conn (T := T)) : Prop := wire c' = wire c /\ (chunks_bytes c -> chunks_bytes c').

Lemma local_refl c : local_step c c.
Proof. done. Qed.

Lemma local_trans c1 c2 c3 : local_step c1 c2 -> local_step c2 c3 -> local_step c1 c3.
Proof. intros [E1 H1] [E2 H2]. split; [congruence|auto]. Qed.

Lemma read_stream_local id c : local_step c (read_stream id c).2 /\ (chunks_bytes c -> bytes_ok (read_stream id c).1.1).
Proof.
  unfold read_stream. destruct (find_stream id c) as [s|] eqn:Es; [|by repeat split; try constructor].
  assert (Hr : Forall (fun ck => bytes_ok ck.2) (recv_chunks (recv s)) ->
    bytes_ok (read_contiguous (recv s)).1.1 /\ Forall (fun ck => bytes_ok ck.2) (recv_chunks (read_contiguous (recv s)).2)).
  { intros H. unfold read_contiguous. destruct (recv_chunks (recv s)) as [|[k d] rest] eqn:Ec; [by case_match; cbn; rewrite ?Ec; repeat constructor|].
    inversion H; subst. case_match; [case_match; by split|]. split; [constructor|]. cbn. by rewrite Ec. }
  destruct (read_contiguous (recv s)) as [[out fin] r]. cbn [fst snd] in *. split; [split; [done|]|intros H; by apply Hr, (H id)].
  intros H j s'. unfold find_stream, with_stream. cbn [streams_ set_streams]. rewrite find_update. destruct (Z.eqb_spec id j) as [<-|]; [|apply H].
  unfold find_stream in Es. rewrite Es. intros [= <-]. cbn. apply Hr. by apply (H id).
Qed.

Lemma ensure_stream_local id c : local_step c (ensure_stream id c).2.
Proof.
  unfold ensure_stream. destruct (find_stream id c) eqn:Es; [done|]. destruct (is_bidi id), (is_client_initiated id); (split; [done|]); intros H j s'; unfold find_stream; cbn [streams_ set_streams snd];
    (rewrite find_insert; destruct (Z.eqb_spec id j) as [<-|]; [|apply H]; intros [= <-]; constructor).
Qed.

Lemma write_stream_local id d fin c : local_step c (write_stream id d fin c).
Proof.
  unfold write_stream. pose proof (ensure_stream_local id c) as He. destruct (ensure_stream id c) as [s c1]. cbn [snd] in He. eapply local_trans; [exact He|].
  split; [done|]. intros H j s'. unfold find_stream, with_stream. cbn [streams_ set_streams]. rewrite find_update. destruct (Z.eqb_spec id j) as [<-|]; [|apply H].
  destruct (sm_find id (streams_ c1)) as [s1|] eqn:E1; [|done]. intros [= <-]. cbn. by apply (H id).
Qed.

Lemma h3_close_local why c : local_step c (h3_close why c).
Proof. unfold h3_close, close_with_error, initiate_close. by case_decide. Qed.

(** ** The server's operations *)

(** What an operation promises: it succeeds, keeps the invariant, appends to
    the calls and leaves the connection to later events. *)
Definition serves (h : Http3Server) (c : Conn (T := T)) (r : option (Http3Server * Conn (T := T))) : Prop :=
  exists h' c', r = Some (h', c') /\ h3_ok h' /\ calls h `prefix_of` calls h' /\ local_step c c'.

Lemma put_pending_ok id pr h : h3_ok h -> pending_wf pr -> handled pr = handled (sm_at new_pending id (pending_ h)) -> h3_ok (put_pending id pr h).
Proof.
  intros [Hp Hu Ho Hh] Hw Hn. split; [|done|done|].
  - intros j pr'. cbn. rewrite find_insert. destruct (Z.eqb_spec id j); [by intros [= <-]|apply Hp].
  - intros j r Hin. destruct (Hh j r Hin) as (H1 & H2 & pr' & H3 & H4). split; [done|]. split; [done|]. cbn. rewrite find_insert.
    destruct (Z.eqb_spec id j) as [->|]; [|by eexists]. exists pr. split; [done|]. rewrite Hn. unfold sm_at. by rewrite H3.
Qed.

Lemma put_uni_ok id u h : h3_ok h -> uni_wf u -> h3_ok (put_uni id u h).
Proof.
  intros [Hp Hu Ho Hh] Hw. split; [done| |done|done]. intros j u'. cbn. rewrite find_insert. destruct (Z.eqb_spec id j); [by intros [= <-]|apply Hu].
Qed.

Lemma pending_at h id : h3_ok h -> pending_wf (sm_at new_pending id (pending_ h)).
Proof.
  intros H. unfold sm_at. destruct (sm_find id (pending_ h)) eqn:E; [by eapply ho_pending|]. repeat split; [constructor|cbn; unfold kMaxRequestStreamBytes; lia|cbn; unfold kMaxRequestBodyBytes; lia].
Qed.

Lemma uni_at h id : h3_ok h -> uni_wf (sm_at new_uni id (uni_ h)).
Proof.
  intros H. unfold sm_at. destruct (sm_find id (uni_ h)) eqn:E; [by eapply ho_uni|]. split; [constructor|cbn; unfold kMaxUniStreamBytes; lia].
Qed.
Lemma serves_quiet h h' c c' : h3_ok h' -> calls h' = calls h -> local_step c c' -> serves h c (Some (h', c')).
Proof. intros H1 H2 H3. eexists _, _. split; [done|]. split; [done|]. split; [by rewrite H2|done]. Qed.

Lemma consume_varint_shrinks buf v rest : bytes_ok buf -> consume_leading_varint buf = Some (v, rest) -> bytes_ok rest /\ (length rest <= length buf)%nat.
Proof.
  unfold consume_leading_varint. intros Hb E. apply bind_Some in E as ([v' off] & _ & E). injection E as <- <-. split; [by apply Forall_drop|]. rewrite length_drop. lia.
Qed.

Lemma process_uni_serves id chunk h c : h3_ok h -> bytes_ok chunk -> serves h c (process_uni id chunk h c).
Proof.
  intros Hok Hc. destruct (uni_at h id Hok) as [Hb Hl]. unfold process_uni. rewrite u64_small by (unfold u64_ok, kMaxUniStreamBytes in *; lia).
  destruct (Z.ltb_spec (kMaxUniStreamBytes - #(uni_buf (sm_at new_uni id (uni_ h)))) (#chunk)) as [|Hs].
  { apply serves_quiet; [by apply put_uni_ok|done|apply h3_close_local]. }
  cbv zeta. set (u := sm_at new_uni id (uni_ h)) in *. set (buf := uni_buf u ++ chunk).
  assert (Hbuf : bytes_ok buf) by by apply Forall_app. assert (Hlen : #buf <= kMaxUniStreamBytes) by (unfold buf; rewrite length_app; lia).
  assert (Hput : forall t b, bytes_ok b -> (length b <= length buf)%nat -> serves h c (Some (put_uni id (mkUni t b) h, c))).
  { intros t b H1 H2. apply serves_quiet; [apply put_uni_ok; [done|split; [done|cbn; lia]]|done|apply local_refl]. }
  assert (Hcase : forall t b, bytes_ok b -> (length b <= length buf)%nat ->
    serves h c (if t =? kUniControl then buf ← drain_control b; Some (put_uni id (mkUni t buf) h, c) else Some (put_uni id (mkUni t []) h, c))).
  { intros t b H1 H2. case_match; [|apply Hput; [constructor|cbn; lia]]. destruct (drain_control_safe b H1) as (r & -> & H3 & H4). cbn. apply Hput; [done|lia]. }
  destruct (uni_type u =? kNoType); [|by apply Hcase]. destruct (consume_leading_varint buf) as [[t b]|] eqn:E; [|by apply Hput].
  destruct (consume_varint_shrinks _ _ _ Hbuf E). by apply Hcase.
Qed.

Context (answers : forall log r, #(rq_body r) <= kMaxRequestBodyBytes -> is_Some (on_request log r ≫= encode_response)).

(** A stream that has been dispatched has a handled entry, so a second
    dispatch cannot happen. *)
Lemma dispatch_serves id pr h c : is_request_stream id = true -> h3_ok h -> pending_wf pr -> handled pr = handled (sm_at new_pending id (pending_ h)) ->
  serves h c (dispatch on_request id pr h c).
Proof.
  intros Hid Hok Hw Hh. unfold dispatch. destruct (headers_parsed pr && fin_seen pr && negb (handled pr)) eqn:Ed.
  2: { apply serves_quiet; [by apply put_pending_ok|done|apply local_refl]. }
  cbv zeta. destruct (answers (calls h) (req pr) ltac:(apply Hw)) as [w Ew]. apply bind_Some in Ew as (resp & Eo & Ew). cbn [req]. rewrite Eo. cbn [mbind option_bind]. rewrite Ew. cbn [mbind option_bind]. eexists _, _. split; [done|].
  assert (Hn : handled pr = false) by (destruct (handled pr); [by rewrite andb_false_r in Ed|done]). destruct Hok as [Hp Hu Ho Hc].
  assert (Hfresh : forall r, (id, r) ∉ calls h). { intros r Hin. destruct (Hc id r Hin) as (_ & _ & pr' & E & H). unfold sm_at in Hh. rewrite E in Hh. cbn in Hh. congruence. }
  split; [|split; [cbn; by apply prefix_app_r|apply write_stream_local]]. split; cbn.
  - intros j pr'. rewrite find_insert. destruct (Z.eqb_spec id j); [by intros [= <-]|apply Hp].
  - done.
  - rewrite fmap_app, NoDup_app. split; [done|]. split; [|apply NoDup_singleton]. intros j Hj Hj'. cbn in Hj'. apply list_elem_of_singleton in Hj'. subst j.
    apply list_elem_of_fmap in Hj as ([j r] & Ej & Hin). cbn in Ej. subst j. by apply (Hfresh r).
  - intros j r Hin. rewrite find_insert. destruct (Z.eqb_spec id j) as [<-|Hne].
    + split; [done|]. split; [|by eexists]. apply elem_of_app in Hin as [Hin|Hin]; [by destruct (Hfresh r)|]. apply list_elem_of_singleton in Hin as [= ->]. apply Hw.
    + apply elem_of_app in Hin as [Hin|Hin]; [|by apply list_elem_of_singleton in Hin as [= -> ->]]. apply (Hc j r Hin).
Qed.

Lemma process_request_serves id chunk fin h c : is_request_stream id = true -> h3_ok h -> bytes_ok chunk ->
  serves h c (process_request on_request id chunk fin h c).
Proof.
  intros Hid Hok Hc. pose proof (pending_at h id Hok) as Hw. destruct Hw as (Hb & Hl & Hy). unfold process_request.
  rewrite u64_small by (unfold u64_ok, kMaxRequestStreamBytes in *; lia).
  destruct (Z.ltb_spec (kMaxRequestStreamBytes - #(recv_buf (sm_at new_pending id (pending_ h)))) (#chunk)) as [|Hs].
  { apply serves_quiet; [by apply put_pending_ok|done|apply h3_close_local]. }
  cbv zeta. set (pr0 := sm_at new_pending id (pending_ h)) in *.
  destruct (drain_frames_safe (mkPending (recv_buf pr0 ++ chunk) (req pr0) (headers_parsed pr0) (if fin then true else fin_seen pr0) (handled pr0))) as (how & pr & -> & Hw & _ & Hh).
  { split; [by apply Forall_app|]. cbn. rewrite length_app. split; [lia|done]. }
  cbn [mbind option_bind]. cbn [handled] in Hh. destruct how; [by apply dispatch_serves|..]; (apply serves_quiet; [by apply put_pending_ok|done|]); [apply local_refl|apply h3_close_local].
Qed.

Lemma serves_after h c c1 r : local_step c c1 -> serves h c1 r -> serves h c r.
Proof. intros H (h' & c' & -> & H1 & H2 & H3). eexists _, _. split; [done|]. split; [done|]. split; [done|]. by eapply local_trans. Qed.

Lemma process_stream_serves id h c : h3_ok h -> chunks_bytes c -> serves h c (process_stream on_request id h c).
Proof.
  intros Hok Hc. unfold process_stream. destruct (read_stream_local id c) as [Hl Hb]. specialize (Hb Hc). destruct (read_stream id c) as [[chunk fin] c1]. cbn [fst snd] in *.
  eapply serves_after; [exact Hl|]. destruct (_ && _); [by apply serves_quiet|]. destruct (is_uni id && _); [by apply process_uni_serves|].
  destruct (is_request_stream id) eqn:E; [by apply process_request_serves|by apply serves_quiet].
Qed.

Lemma pump_streams_serve ids : forall h c, h3_ok h -> chunks_bytes c -> serves h c (for_each (pump_stream on_request) ids (h, c)).
Proof.
  induction ids as [|id ids IH]; intros h c Hok Hc; cbn [for_each]; [by apply serves_quiet|]. change (pump_stream on_request (h, c) id) with (if is_own_stream id then Some (h, c) else process_stream on_request id h c).
  destruct (is_own_stream id); [by apply IH|]. destruct (process_stream_serves id h c Hok Hc) as (h1 & c1 & -> & Hok1 & Hp1 & Hl1). cbn [mbind option_bind].
  destruct (IH h1 c1 Hok1 (proj2 Hl1 Hc)) as (h2 & c2 & -> & Hok2 & Hp2 & Hl2). eexists _, _. split; [done|]. split; [done|]. split; [by etrans|by eapply local_trans].
Qed.

Lemma pump_serves h c : h3_ok h -> chunks_bytes c -> serves h c (pump on_request h c).
Proof.
  intros Hok Hc. unfold pump. case_bool_decide; [by apply serves_quiet|]. 
  assert (Hi : serves h c (initialize_server_streams h c)).
  { unfold initialize_server_streams. destruct (initialized_ h); [by apply serves_quiet|].
    repeat match goal with |- context [?m ≫= ?k] => let r := eval vm_compute in m in change m with r; cbn [mbind option_bind] end.
    apply serves_quiet; [destruct Hok; by split|done|]. do 2 (eapply local_trans; [|apply write_stream_local]). apply write_stream_local. }
  destruct Hi as (h1 & c1 & -> & Hok1 & Hp1 & Hl1). cbn [mbind option_bind].
  destruct (pump_streams_serve (keys (streams_ c1)) h1 c1 Hok1 (proj2 Hl1 Hc)) as (h2 & c2 & -> & Hok2 & Hp2 & Hl2).
  eexists _, _. split; [done|]. split; [done|]. split; [by etrans|by eapply local_trans].
Qed.
Lemma new_server_ok : h3_ok new_server.
Proof. split; [done|done|constructor|]. intros id r H. by apply elem_of_nil in H. Qed.

Lemma pumps_serve cs : forall h c0, h3_ok h -> Forall chunks_bytes cs ->
  exists st, for_each (fun st c => pump on_request st.1 c) cs (h, c0) = Some st /\ h3_ok st.1.
Proof.
  induction cs as [|c cs IH]; intros h c0 Hok Hcs; [by exists (h, c0)|]. inversion Hcs; subst. cbn [for_each fst].
  destruct (pump_serves h c Hok) as (h1 & c1 & -> & Hok1 & _); [done|]. cbn [mbind option_bind]. by apply IH.
Qed.

(** C34: Whatever the peer sends, as long as the application answers
    (hypothesis [answers]: given a body within the limit the handler returns,
    without throwing, a response whose frames can be encoded), driving the
    HTTP/3 server of a connection succeeds, each request stream is handed to
    the application at most once, with a body within the limit, and three of
    the buffers a peer fills stay within the limits of the source: 64 MiB of
    undecoded bytes and 64 MiB of body on a request stream, 64 KiB of
    undecoded bytes on a unidirectional stream.  The decoded header fields
    are not among them (see [header_fields_accumulate]).  The connection may
    change in any way between two pumps, provided what it holds for its
    readers are bytes. *)
Theorem h3_server_safe cs c0 : Forall chunks_bytes cs ->
  exists st, for_each (fun st c => pump on_request st.1 c) cs (new_server, c0) = Some st /\
    NoDup (calls st.1).*1 /\
    (forall id r, (id, r) ∈ calls st.1 -> is_request_stream id = true /\ #(rq_body r) <= kMaxRequestBodyBytes) /\
    (forall id pr, sm_find id (pending_ st.1) = Some pr -> #(recv_buf pr) <= kMaxRequestStreamBytes /\ #(rq_body (req pr)) <= kMaxRequestBodyBytes) /\
    (forall id u, sm_find id (uni_ st.1) = Some u -> #(uni_buf u) <= kMaxUniStreamBytes).
Proof.
  intros Hcs. destruct (pumps_serve cs new_server c0 new_server_ok Hcs) as (st & E & [Hp Hu Ho Hh]). exists st. split; [done|]. split; [done|].
  split; [intros id r H; destruct (Hh id r H) as (? & ? & _); by split|]. split; [intros id pr H; by destruct (Hp id pr H) as (_ & ? & ?)|].
  intros id u H. by destruct (Hu id u H).
Qed.

(** A HEADERS frame with the one field [a: b]. *)
Definition one_field : bytes := Eval vm_compute in qpack_encode [(str "a", str "b")] [].
Definition one_field_frame : bytes := Eval vm_compute in default [] (encode_h3_frame [] (H3Headers one_field)).

Lemma one_field_drained r hp : exists hp', drain_frames (mkPending one_field_frame r hp false false) =
  Some (NoMoreFrames, mkPending [] (apply_field r (str "a", str "b")) hp' false false).
Proof.
  assert (E1 : consume_leading_h3_frame one_field_frame = Some (H3Headers one_field, [])) by (vm_compute; reflexivity).
  assert (E2 : qpack_decode one_field = Some (Some [(str "a", str "b")])) by (vm_compute; reflexivity).
  assert (E3 : consume_leading_h3_frame [] = None) by (vm_compute; reflexivity).
  exists true. unfold drain_frames. change (S (length _)) with (S (S (Nat.pred (length one_field_frame)))). cbn [loop]. unfold drain_step at 1. cbn [recv_buf]. rewrite E1. cbn [req headers_parsed fin_seen handled].
  rewrite (proj2 (Z.ltb_ge kMaxFieldSectionBytes (#one_field))) by (vm_compute; discriminate). rewrite E2. cbn [foldl]. unfold drain_step. cbn [recv_buf]. by rewrite E3.
Qed.

(** [k] fields collected, nothing undecoded. *)
Definition collected (k : nat) (h : Http3Server) : Prop :=
  exists hp, sm_at new_pending 0 (pending_ h) = mkPending [] (mkH3Request [] [] [] [] (replicate k (str "a", str "b")) []) hp false false.

Lemma one_field_collected k h c : collected k h -> exists h', process_request on_request 0 one_field_frame false h c = Some (h', c) /\ collected (S k) h'.
Proof.
  intros [hp E]. unfold process_request. rewrite E. cbn [recv_buf req headers_parsed fin_seen handled app]. rewrite (proj2 (Z.ltb_ge _ (#one_field_frame))) by (vm_compute; discriminate).
  destruct (one_field_drained (mkH3Request [] [] [] [] (replicate k (str "a", str "b")) []) hp) as [hp' ->].
  cbn [mbind option_bind]. unfold dispatch. cbn [fin_seen]. rewrite andb_false_r. cbn [andb]. eexists. split; [reflexivity|]. exists hp'.
  unfold sm_at. cbn [pending_ put_pending]. rewrite find_insert, Z.eqb_refl. unfold default, from_option, id. f_equal. rewrite <- Nat.add_1_r, replicate_add. reflexivity.
Qed.

(** Nothing bounds the header fields of a request: every further HEADERS
    frame on a request stream adds its fields to those collected, so [n]
    frames of a few bytes leave [n] fields, the connection open and the
    buffer empty.  Only the transport's limit on the stream's bytes ends
    this. *)
Theorem header_fields_accumulate n c :
  exists h, for_each (fun st x => process_request on_request 0 x false st.1 st.2) (replicate n one_field_frame) (new_server, c) = Some (h, c) /\
    rq_headers (req (sm_at new_pending 0 (pending_ h))) = replicate n (str "a", str "b") /\
    recv_buf (sm_at new_pending 0 (pending_ h)) = [].
Proof.
  assert (H : forall m h k, collected k h ->
    exists h', for_each (fun st x => process_request on_request 0 x false st.1 st.2) (replicate m one_field_frame) (h, c) = Some (h', c) /\ collected (m + k) h').
  { induction m as [|m IH]; intros h k Hk; [by exists h|]. cbn [replicate for_each fst snd]. destruct (one_field_collected k h c Hk) as (h1 & -> & H1). cbn [mbind option_bind].
    destruct (IH h1 (S k) H1) as (h' & E & H'). exists h'. split; [exact E|]. by replace (S m + k)%nat with (m + S k)%nat by lia. }
  destruct (H n new_server 0%nat) as (h & E & hp & Eh); [by exists false|]. exists h. split; [exact E|]. rewrite Eh. cbn. by rewrite Nat.add_0_r.
Qed.

(** ** The service *)

Context (clock : nat -> nat -> Z) (tls_new : nat -> bytes -> TransportParameters -> T) (fuel : nat).

Definition servers_ok (s : Service (T := T)) : Prop := forall k h, bm_find k (servers_ s) = Some h -> h3_ok h.

Lemma pump_connections todo : forall s, bm_sorted todo -> servers_ok s ->
  (forall k st, (k, st) ∈ todo -> bm_find k (connections_ (listener_ s)) = Some st /\ chunks_bytes (conn st) /\ wire (conn st) = []) ->
  exists s', for_each (pump_connection on_request) todo s = Some s' /\ servers_ok s' /\ sent (listener_ s') = sent (listener_ s).
Proof.
  induction todo as [|[k st] todo IH]; intros s Hsort Hs Hin; [by exists s|]. cbn [bm_sorted] in Hsort. destruct Hsort as [Hk Hsort].
  destruct (Hin k st ltac:(left)) as (Ef & Hc & Hw). cbn [for_each pump_connection].
  assert (Hok : h3_ok (default new_server (bm_find k (servers_ s)))) by (destruct (bm_find k (servers_ s)) eqn:E; [by eapply Hs|apply new_server_ok]).
  destruct (pump_serves _ (conn st) Hok Hc) as (h1 & c1 & -> & Hok1 & _ & Hw1 & _). cbn [mbind option_bind].
  unfold use_connection. rewrite Ef. unfold put_back. rewrite Hw1, Hw. cbn [fmap list_fmap]. rewrite app_nil_r.
  edestruct IH as (s' & E & Hs' & Es); [exact Hsort| | |exists s'; split; [exact E|split; [exact Hs'|exact Es]]].
  - intros j hj. cbn. rewrite bm_find_insert. case_decide; [by intros [= <-]|apply Hs].
  - intros j sj Hj. cbn. rewrite bm_find_insert. rewrite decide_False; [apply Hin; by right|].
    intros <-. eapply Forall_forall in Hk; [|exact Hj]. cbn in Hk. by rewrite bytes_lt_irrefl in Hk.
Qed.

(** The HTTP/3 service answers one event late.  [handle_datagram] feeds
    the datagram to the listener, runs the timers and only then lets the
    HTTP/3 servers run; the pump succeeds, but nothing it writes is sent
    before the call returns: what has been sent then is what the listener
    had sent before the pump. *)
Theorem h3_response_waits peer dg s l1 l : listener_ok (listener_ s) -> servers_ok s ->
  Listener.on_datagram clock tls_new fuel peer dg (listener_ s) = Some l1 -> Listener.on_timer clock fuel l1 = Some l ->
  (forall k st, bm_find k (connections_ l) = Some st -> chunks_bytes (conn st)) ->
  exists s', handle_datagram on_request clock tls_new fuel peer dg s = Some s' /\ servers_ok s' /\ sent (listener_ s') = sent l.
Proof.
  intros Hok Hs E1 E2 Hc. unfold handle_datagram, pump_all. rewrite E1. cbn [mbind option_bind listener_]. rewrite E2. cbn [mbind option_bind servers_].
  set (ps := peer :: (sent (listener_ s)).*1 ++ ((fun e => last_peer e.2) <$> connections_ (listener_ s))).
  assert (Hh : heard ps (listener_ s)).
  { split; [apply Forall_forall; intros e He; right; apply elem_of_app; left; by apply list_elem_of_fmap_2|].
    intros k st E. right. apply elem_of_app. right. apply list_elem_of_fmap. exists (k, st). split; [done|]. by apply bm_find_elem. }
  destruct (on_datagram_good clock tls_new fuel ps peer dg _ _ ltac:(left) E1 Hok Hh) as (Hok1 & Hh1 & _).
  destruct (on_timer_good clock fuel ps _ _ E2 Hok1 Hh1) as (Hok2 & _ & _).
  apply (pump_connections (connections_ l) (mkService l (servers_ s))); [apply Hok2|done|]. intros k st Hin. apply bm_elem_find in Hin; [|apply Hok2].
  split; [done|]. split; [by eapply Hc|]. by destruct (lo_conns _ Hok2 k st Hin).
Qed.
End Safety.

(** ** Witnesses *)

Lemma demo_answers log r : #(rq_body r) <= kMaxRequestBodyBytes -> is_Some (demo_app log r ≫= encode_response).
Proof.
  intros H. unfold encode_response, demo_app. cbn [mbind option_bind rs_body].
  destruct (encode_h3_frame [] (H3Headers (qpack_encode (response_headers (mkH3Response 200 [] (rq_body r))) []))) as [w|] eqn:E; [|by vm_compute in E].
  cbn [mbind option_bind]. case_match; [by eexists|]. rewrite encode_h3_ok; [by eexists|]. cbn [h3_wf]. unfold varint_ok, kMaxRequestBodyBytes in *. change kMax with (2 ^ 62 - 1). lia.
Qed.

(** The streams of a fresh connection. *)
Lemma no_streams_bytes {T} (c : Conn (T := T)) : streams_ c = [] -> chunks_bytes c.
Proof. intros E id s. unfold find_stream. by rewrite E. Qed.

Lemma chunks_listed {T} (c : Conn (T := T)) l : (fun e => recv_chunks (recv e.2)) <$> streams_ c = l -> Forall (Forall (fun ck => bytes_ok ck.2)) l -> chunks_bytes c.
Proof.
  intros <- H id s E. unfold find_stream in E. apply find_elem in E. apply (proj1 (Forall_forall _ _) H). apply list_elem_of_fmap. by exists (id, s).
Qed.

(** The request of [demo_request] in two pieces, pumped after each. *)
Definition demo_pumps (c : Conn (T := nat)) : list Conn := [set_state Established (demo_first c); set_state Established (demo_second c)].

Lemma h3_server_safe_witness : exists (c : Conn (T := nat)) st,
  for_each (fun st c => @pump nat demo_tls demo_app st.1 c) (demo_pumps c) (new_server, c) = Some st /\ NoDup (calls st.1).*1 /\
  calls st.1 = [(0, demo_request)].
Proof.
  assert (E : (c ← demo_conn; st ← for_each (fun st c => @pump nat demo_tls demo_app st.1 c) (demo_pumps c) (new_server, c);
    Some ((fun c => (fun e => recv_chunks (recv e.2)) <$> streams_ c) <$> demo_pumps c, calls st.1)) =
    Some ([[[(0, take 7 demo_image)]]; [[(7, drop 7 demo_image)]]], [(0, demo_request)])) by (vm_compute; reflexivity).
  apply bind_Some in E as (c & _ & E). apply bind_Some in E as (st & Ep & E). apply (inj Some), pair_equal_spec in E as [Ec E].
  apply (inj2 cons) in Ec as [Ec1 Ec]. apply (inj2 cons) in Ec as [Ec2 _].
  destruct (@h3_server_safe nat demo_tls demo_app demo_answers (demo_pumps c) c) as (st' & H & Hn & _).
  - constructor; [|constructor; [|constructor]].
    + apply (chunks_listed _ _ Ec1). vm_compute. repeat constructor; done.
    + apply (chunks_listed _ _ Ec2). vm_compute. repeat constructor; done.
  - exists c, st'. split; [exact H|]. split; [exact Hn|]. rewrite Ep in H. injection H as <-. exact E.
Defined.

Lemma only_empty {T} (m : list (bytes * ConnState (T := T))) k st : (fun e => streams_ (conn e.2)) <$> m = [[]] -> (k, st) ∈ m -> streams_ (conn st) = [].
Proof. destruct m as [|e [|]]; [done| |done]. intros [= E] He%list_elem_of_singleton. by subst e. Qed.

Definition service0 : Service (T := nat) := mkService (new_listener (demo_config false) 0) [].

Lemma h3_response_waits_witness : exists (s' : Service (T := nat)) (l : Listener (T := nat)),
  @handle_datagram nat demo_tls toy_lib demo_app demo_clocks demo_tls_new 10 demo_addr (demo_initial ++ replicate 600 0) service0 = Some s' /\
  sent (listener_ s') = sent l /\ length (sent l) = 1%nat.
Proof.
  assert (E : (l1 ← @Listener.on_datagram nat demo_tls toy_lib demo_clocks demo_tls_new 10 demo_addr (demo_initial ++ replicate 600 0) (listener_ service0);
    l ← @Listener.on_timer nat demo_tls toy_lib demo_clocks 10 l1; Some ((fun e => streams_ (conn e.2)) <$> connections_ l, length (sent l))) = Some ([[]], 1%nat)) by (vm_compute; reflexivity).
  apply bind_Some in E as (l1 & E1 & E). apply bind_Some in E as (l & E2 & E). apply (inj Some), pair_equal_spec in E as [E Es].
  destruct (@h3_response_waits nat demo_tls toy_lib demo_app demo_answers demo_clocks demo_tls_new 10%nat demo_addr (demo_initial ++ replicate 600 0) service0 l1 l) as (s' & H & _ & Hs).
  - apply new_listener_good.
  - by intros k h.
  - exact E1.
  - exact E2.
  - intros k st Hf. apply no_streams_bytes. exact (only_empty _ k st E (bm_find_elem _ _ _ Hf)).
  - exists s', l. split; [exact H|]. split; [exact Hs|exact Es].
Defined.
