(* ===== verification/Hpack.v ===== *)
(** * HPACK header blocks, static table only (RFC 7541)

    Model of the [HPACK] part of example/http2/src/codec.cpp: the static
    table, 32-bit prefix integers, string literals (Huffman-coded strings are
    accepted on input, never written) and the encoder and decoder of header
    blocks.  An [unordered_map] that is iterated is the list of its entries in
    iteration order; the decoder's result is a finite map. *)
From stdpp Require Import gmap.
From S2P Require Import Prelude PrefixInt Huffman.

Local Open Scope Z_scope.

(** ** Static table *)

Definition static_table : list (bytes * bytes) :=
  [([], []);
   (str ":authority", []);
   (str ":method", str "GET");
   (str ":method", str "POST");
   (str ":path", str "/");
   (str ":path", str "/index.html");
   (str ":scheme", str "http");
   (str ":scheme", str "https");
   (str ":status", str "200");
   (str ":status", str "204");
   (str ":status", str "206");
   (str ":status", str "304");
   (str ":status", str "400");
   (str ":status", str "404");
   (str ":status", str "500");
   (str "accept-charset", []);
   (str "accept-encoding", str "gzip, deflate");
   (str "accept-language", []);
   (str "accept-ranges", []);
   (str "accept", []);
   (str "access-control-allow-origin", []);
   (str "age", []);
   (str "allow", []);
   (str "authorization", []);
   (str "cache-control", []);
   (str "content-disposition", []);
   (str "content-encoding", []);
   (str "content-language", []);
   (str "content-length", []);
   (str "content-location", []);
   (str "content-range", []);
   (str "content-type", []);
   (str "cookie", []);
   (str "date", []);
   (str "etag", []);
   (str "expect", []);
   (str "expires", []);
   (str "from", []);
   (str "host", []);
   (str "if-match", []);
   (str "if-modified-since", []);
   (str "if-none-match", []);
   (str "if-range", []);
   (str "if-unmodified-since", []);
   (str "last-modified", []);
   (str "link", []);
   (str "location", []);
   (str "max-forwards", []);
   (str "proxy-authenticate", []);
   (str "proxy-authorization", []);
   (str "range", []);
   (str "referer", []);
   (str "refresh", []);
   (str "retry-after", []);
   (str "server", []);
   (str "set-cookie", []);
   (str "strict-transport-security", []);
   (str "transfer-encoding", []);
   (str "user-agent", []);
   (str "vary", []);
   (str "via", []);
   (str "www-authenticate", [])].

Definition get_static_table_entry (index : nat) : bytes * bytes := nth index static_table ([], []).

(** ** Integers and strings *)

(** The value is a [uint32_t]: five continuation bytes at most. *)
Definition encode_prefix_int (out : bytes) (high_bits prefix_bits value : Z) : bytes :=
  write_int 5 out (u32 value) high_bits prefix_bits.

Definition decode_prefix_int (data : bytes) (offset : nat) (prefix_bits : Z) : option (Z * nat) :=
  read_int 32 28 data offset prefix_bits.

Definition encode_string (out s : bytes) : bytes := encode_prefix_int out 0x00 7 (#s) ++ s.

Definition decode_string (data : bytes) (offset : nat) : option (bytes * nat) :=
  b ← data !! offset;
  let huffman := negb (b .& 0x80 =? 0) in
  '(len, offset) ← decode_prefix_int data offset 7;
  if Z.of_nat (length data) <? Z.of_nat offset + len then None else
  let raw := take (Z.to_nat len) (drop offset data) in
  out ← (if huffman then huffman_decode raw else Some raw);
  Some (out, (offset + Z.to_nat len)%nat).

(** ** Encoder *)

(** [std::string::operator<] compares bytes as unsigned characters. *)
Fixpoint lex_leb (a b : bytes) : bool :=
  match a, b with
  | [], _ => true
  | _ :: _, [] => false
  | x :: a, y :: b => (x <? y) || ((x =? y) && lex_leb a b)
  end.

Definition pair_leb (p q : bytes * bytes) : bool :=
  if bool_decide (p.1 = q.1) then lex_leb p.2 q.2 else lex_leb p.1 q.1.

Fixpoint insert_sorted (p : bytes * bytes) (l : list (bytes * bytes)) : list (bytes * bytes) :=
  match l with
  | [] => [p]
  | q :: l' => if pair_leb p q then p :: l else q :: insert_sorted p l'
  end.

(** [std::sort]: the order is total, so the result does not depend on the
    algorithm. *)
Fixpoint sort (l : list (bytes * bytes)) : list (bytes * bytes) :=
  match l with [] => [] | p :: l => insert_sorted p (sort l) end.

Definition is_pseudo (p : bytes * bytes) : bool := match p.1 with c :: _ => c =? 58 | [] => false end.

(** The first index from [i] on whose entry satisfies [f]. *)
Fixpoint find_from (i : Z) (table : list (bytes * bytes)) (f : bytes * bytes -> bool) : option Z :=
  match table with
  | [] => None
  | e :: table => if f e then Some i else find_from (i + 1) table f
  end.

Definition find_pair (name value : bytes) : option Z :=
  find_from 1 (drop 1 static_table) (fun e => bool_decide (e.1 = name) && bool_decide (e.2 = value)).
Definition find_name (name : bytes) : option Z :=
  find_from 1 (drop 1 static_table) (fun e => bool_decide (e.1 = name)).

Definition emit (result : bytes) (h : bytes * bytes) : bytes :=
  let '(name, value) := h in
  match find_pair name value with
  | Some i => encode_prefix_int result 0x80 7 i
  | None =>
      match find_name name with
      | Some i => encode_string (encode_prefix_int result 0x00 4 i) value
      | None => encode_string (encode_string (result ++ [0x00]) name) value
      end
  end.

Definition encode_headers (headers : list (bytes * bytes)) : bytes :=
  let pseudo := sort (List.filter is_pseudo headers) in
  let regular := sort (List.filter (fun p => negb (is_pseudo p)) headers) in
  foldl emit (foldl emit [] pseudo) regular.

(** ** Decoder *)

(** Both literal representations: the name by index or by string, the value. *)
Definition decode_literal (data : bytes) (offset : nat) (prefix_bits : Z) (headers : gmap bytes bytes)
    : option (nat * gmap bytes bytes) :=
  '(name_index, offset) ← decode_prefix_int data offset prefix_bits;
  '(name, offset) ← (if name_index =? 0 then decode_string data offset
                     else if name_index <? #static_table
                     then Some ((get_static_table_entry (Z.to_nat name_index)).1, offset)
                     else Some ([], offset));
  '(value, offset) ← decode_string data offset;
  Some (offset, if bool_decide (name = []) then headers else <[name := value]> headers).

(** One representation at the cursor; [None] is a [break]. *)
Definition decode_representation (data : bytes) (offset : nat) (headers : gmap bytes bytes)
    : option (nat * gmap bytes bytes) :=
  b ← data !! offset;
  if negb (b .& 0x80 =? 0) then
    '(index, offset) ← decode_prefix_int data offset 7;
    if (index =? 0) || (#static_table <=? index) then Some (offset, headers)
    else let '(n, v) := get_static_table_entry (Z.to_nat index) in Some (offset, <[n := v]> headers)
  else if b .& 0xC0 =? 0x40 then decode_literal data offset 6 headers
  else if b .& 0xE0 =? 0x20 then
    '(new_size, offset) ← decode_prefix_int data offset 5;
    Some (offset, headers)
  else if (b .& 0xF0 =? 0x00) || (b .& 0xF0 =? 0x10) then decode_literal data offset 4 headers
  else None.

Definition decode_step (data : bytes) (st : nat * gmap bytes bytes) : (nat * gmap bytes bytes) + gmap bytes bytes :=
  let '(offset, headers) := st in
  if (offset <? length data)%nat then
    match decode_representation data offset headers with
    | Some st => inl st
    | None => inr headers
    end
  else inr headers.

(** [None] stands for a loop that is out of fuel. *)
Definition decode_headers (data : bytes) : option (gmap bytes bytes) :=
  loop (decode_step data) (S (length data)) (0%nat, ∅).

(** ** Lemmas *)

Lemma encode_int_spec out v hb n :
  1 <= n <= 8 -> 0 <= hb < 256 -> hb mod 2 ^ n = 0 -> 0 <= v < 2 ^ 32 ->
  exists b l, encode_prefix_int out hb n v = out ++ b :: l /\ (exists r, 0 <= r < 2 ^ n /\ b = hb + r) /\
    forall buf off rest, at_cursor buf off ((b :: l) ++ rest) ->
      decode_prefix_int buf off n = Some (v, (off + length (b :: l))%nat).
Proof.
  intros ??? Hv. unfold encode_prefix_int. rewrite u32_small by done.
  apply (prefix_int_spec 32 28); try (done || lia).
  intros s Hs ?. apply Z.mod_divide in Hs as [q ->]; lia.
Qed.

Lemma encode_int_out out hb n v : encode_prefix_int out hb n v = out ++ encode_prefix_int [] hb n v.
Proof. unfold encode_prefix_int, write_int. cbv zeta. by case_match. Qed.

Lemma encode_string_out out s : encode_string out s = out ++ encode_string [] s.
Proof. unfold encode_string. by rewrite encode_int_out, <- app_assoc. Qed.

Definition string_ok (s : bytes) : Prop := #s < 2 ^ 32.

Lemma encode_string_spec out s : string_ok s -> exists l, encode_string out s = out ++ l /\ (0 < length l)%nat /\
  forall buf off rest, at_cursor buf off (l ++ rest) -> decode_string buf off = Some (s, (off + length l)%nat).
Proof.
  intros Hs. unfold encode_string. unfold string_ok in Hs.
  destruct (encode_int_spec out (#s) 0 7) as (b & l & -> & (r & Hr & ->) & Hd); try (done || lia).
  exists ((0 + r) :: l ++ s). rewrite <- app_assoc. split; [done|]. split; [simpl; lia|]. intros buf off rest Hc.
  rewrite app_comm_cons, <- app_assoc in Hc. unfold decode_string.
  destruct (at_cursor_cons _ _ _ _ Hc) as (-> & _ & _). cbn [mbind option_bind]. rewrite (Hd _ _ _ Hc).
  cbn [mbind option_bind]. apply at_cursor_app in Hc. pose proof (at_cursor_length _ _ _ Hc) as Hl.
  rewrite length_app in Hl. rewrite (proj2 (Z.ltb_ge _ _)), Nat2Z.id by lia. destruct Hc as [_ ->].
  rewrite take_app_length. destruct (small_byte r ltac:(lia)) as (_ & _ & Hb). rewrite Z.add_0_l, Hb.
  cbn [negb Z.eqb mbind option_bind]. do 2 f_equal. rewrite app_comm_cons, length_app. cbn [length]. lia.
Qed.

Lemma find_from_some t f : forall i j, find_from i t f = Some j -> 0 <= i ->
  i <= j < i + #t /\ exists e, t !! Z.to_nat (j - i) = Some e /\ f e = true.
Proof.
  induction t as [|e t IH]; intros i j H Hi; cbn [find_from] in H; [done|]. destruct (f e) eqn:E.
  - simplify_eq. cbn [length]. rewrite Z.sub_diag. split; [lia|]. by exists e.
  - apply IH in H as (Hj & e' & He & Hf); [|lia]. cbn [length]. split; [lia|]. exists e'. split; [|done].
    replace (Z.to_nat (j - i)) with (S (Z.to_nat (j - (i + 1)))) by lia. done.
Qed.

(** A hit is an index from 1 on whose entry satisfies the test. *)
Lemma find_static f j : find_from 1 (drop 1 static_table) f = Some j ->
  1 <= j < #static_table /\ f (get_static_table_entry (Z.to_nat j)) = true.
Proof.
  intros H. apply find_from_some in H as (Hj & e & He & Hf); [|lia]. rewrite length_drop in Hj.
  rewrite lookup_drop in He. replace (1 + Z.to_nat (j - 1))%nat with (Z.to_nat j) in He by lia.
  split; [lia|]. unfold get_static_table_entry. apply (nth_lookup_Some _ _ ([], [])) in He. by rewrite He.
Qed.

Definition field_ok (h : bytes * bytes) : Prop := h.1 <> [] /\ string_ok h.1 /\ string_ok h.2.

(** The three dispatch tests of the decoder on the encoder's first bytes. *)
Lemma indexed_byte r : 0 <= r < 2 ^ 7 -> negb ((0x80 + r) .& 0x80 =? 0) = true.
Proof. revert r. apply (forall_below _ 128). vm_compute. done. Qed.

Lemma literal_byte r : 0 <= r < 2 ^ 4 ->
  negb ((0 + r) .& 0x80 =? 0) || ((0 + r) .& 0xC0 =? 0x40) || ((0 + r) .& 0xE0 =? 0x20) = false /\
  ((0 + r) .& 0xF0 =? 0x00) = true.
Proof.
  intros Hr. split; revert r Hr; [|apply (forall_below _ 16); vm_compute; done].
  enough (H : forall r, 0 <= r < 16 -> negb (negb ((0 + r) .& 0x80 =? 0) || ((0 + r) .& 0xC0 =? 0x40) || ((0 + r) .& 0xE0 =? 0x20)) = true).
  { intros r Hr. apply negb_true_iff, H. done. }
  apply (forall_below _ 16). vm_compute. done.
Qed.

Lemma decode_literal_byte data off r hs : data !! off = Some (0 + r) -> 0 <= r < 2 ^ 4 ->
  decode_representation data off hs = decode_literal data off 4 hs.
Proof.
  intros Hl Hr. unfold decode_representation. rewrite Hl. cbn [mbind option_bind].
  destruct (literal_byte r Hr) as [[[H1 H2]%orb_false_elim H3]%orb_false_elim H4]. by rewrite H1, H2, H3, H4.
Qed.

(** What the decoder does with the image of one header. *)
Lemma emit_spec h : field_ok h -> exists bs, (0 < length bs)%nat /\ (forall out, emit out h = out ++ bs) /\
  forall buf off rest hs, at_cursor buf off (bs ++ rest) ->
    decode_representation buf off hs = Some ((off + length bs)%nat, <[h.1 := h.2]> hs).
Proof.
  destruct h as [name value]. intros (Hne & Hn & Hv). cbn [fst snd] in *. unfold emit.
  destruct (find_pair name value) as [i|] eqn:Ep; [|destruct (find_name name) as [i|] eqn:En].
  - apply find_static in Ep as [Hi Hf]. change (#static_table) with 62 in Hi.
    destruct (encode_int_spec [] i 0x80 7) as (b & l & Ee & (r & Hr & ->) & Hd); try (done || lia).
    exists ((0x80 + r) :: l). split; [simpl; lia|]. split; [intros; by rewrite encode_int_out, Ee|].
    intros buf off rest hs Hc. unfold decode_representation. destruct (at_cursor_cons _ _ _ _ Hc) as (-> & _ & _).
    cbn [mbind option_bind]. rewrite indexed_byte, (Hd _ _ _ Hc) by done. cbn [mbind option_bind].
    rewrite (proj2 (Z.eqb_neq i 0)), (proj2 (Z.leb_gt _ _)) by (change (#static_table) with 62; lia). cbn [orb].
    destruct (get_static_table_entry _) as [n v]. apply andb_prop in Hf as [Hf1%bool_decide_eq_true Hf2%bool_decide_eq_true].
    cbn [fst snd] in *. by rewrite Hf1, Hf2.
  - apply find_static in En as [Hi Hf%bool_decide_eq_true]. change (#static_table) with 62 in Hi.
    destruct (encode_int_spec [] i 0x00 4) as (b & l & Ee & (r & Hr & ->) & Hd); try (done || lia).
    destruct (encode_string_spec [] value Hv) as (lv & Ev & _ & Hdv).
    exists (((0 + r) :: l) ++ lv). split; [simpl; lia|].
    split; [intros; rewrite encode_string_out, encode_int_out, Ee, Ev; by rewrite <- app_assoc|].
    intros buf off rest hs Hc. rewrite <- app_assoc in Hc.
    rewrite (decode_literal_byte _ _ r) by (done || apply (at_cursor_cons _ _ _ _ Hc)). unfold decode_literal.
    rewrite (Hd _ _ _ Hc). cbn [mbind option_bind].
    rewrite (proj2 (Z.eqb_neq i 0)), (proj2 (Z.ltb_lt _ _)) by (change (#static_table) with 62; lia).
    cbn [mbind option_bind]. apply at_cursor_app in Hc. rewrite (Hdv _ _ _ Hc). cbn [mbind option_bind].
    rewrite Hf, bool_decide_eq_false_2 by done. rewrite length_app, Nat.add_assoc. done.
  - destruct (encode_string_spec [] name Hn) as (ln & Eln & _ & Hdn).
    destruct (encode_string_spec [] value Hv) as (lv & Ev & _ & Hdv).
    exists ([0x00] ++ ln ++ lv). split; [simpl; lia|].
    split; [intros; rewrite encode_string_out, (encode_string_out (out ++ _)), Eln, Ev; by rewrite <- !app_assoc|].
    intros buf off rest hs Hc. rewrite <- !app_assoc in Hc.
    rewrite (decode_literal_byte _ _ 0) by (done || apply (at_cursor_cons _ _ _ _ Hc)). unfold decode_literal.
    assert (Hz : decode_prefix_int buf off 4 = Some (0, (off + 1)%nat)).
    { unfold decode_prefix_int, read_int. destruct (at_cursor_cons _ _ _ _ Hc) as (-> & _ & _). cbn.
      by replace (off + 1)%nat with (S off) by lia. }
    rewrite Hz. cbn [mbind option_bind Z.eqb]. apply at_cursor_app in Hc. cbn [length] in Hc.
    rewrite (Hdn _ _ _ Hc). cbn [mbind option_bind]. apply at_cursor_app in Hc. rewrite (Hdv _ _ _ Hc).
    cbn [mbind option_bind]. rewrite bool_decide_eq_false_2 by done. rewrite !length_app, !Nat.add_assoc. done.
Qed.

Definition add_header (m : gmap bytes bytes) (h : bytes * bytes) : gmap bytes bytes := <[h.1 := h.2]> m.

Lemma emits_spec l : Forall field_ok l -> exists bs, (forall out, foldl emit out l = out ++ bs) /\
  forall buf off hs fuel, at_cursor buf off bs -> (length bs < fuel)%nat ->
    loop (decode_step buf) fuel (off, hs) = Some (foldl add_header hs l).
Proof.
  induction 1 as [|h l Hh Hl IH].
  - exists []. split; [intros; by rewrite app_nil_r|]. intros buf off hs fuel Hc Hf. destruct fuel as [|fuel]; [simpl in Hf; lia|].
    cbn [loop decode_step]. apply at_cursor_length in Hc. cbn [length] in Hc.
    by rewrite (proj2 (Nat.ltb_ge _ _)) by lia.
  - destruct (emit_spec h Hh) as (b1 & Hpos & He & Hd). destruct IH as (b2 & He2 & Hd2).
    exists (b1 ++ b2). split; [intros; cbn [foldl]; by rewrite He, He2, app_assoc|].
    intros buf off hs fuel Hc Hf. rewrite length_app in Hf. destruct fuel as [|fuel]; [lia|].
    cbn [loop decode_step]. pose proof (at_cursor_length _ _ _ Hc) as Hlen. rewrite length_app in Hlen.
    rewrite (proj2 (Nat.ltb_lt _ _)) by lia. rewrite (Hd _ _ _ _ Hc). cbn [foldl].
    apply Hd2; [by apply at_cursor_app|lia].
Qed.

(** ** Order of the headers *)

Lemma sorted_insert_perm p l : insert_sorted p l ≡ₚ p :: l.
Proof. induction l as [|q l IH]; cbn [insert_sorted]; [done|]. case_match; [done|]. rewrite IH. apply Permutation_swap. Qed.

Lemma sort_perm l : sort l ≡ₚ l.
Proof. induction l as [|p l IH]; cbn [sort]; [done|]. by rewrite sorted_insert_perm, IH. Qed.

Lemma partition_perm (f : bytes * bytes -> bool) l : List.filter f l ++ List.filter (fun p => negb (f p)) l ≡ₚ l.
Proof.
  induction l as [|p l IH]; cbn [List.filter]; [done|]. destruct (f p); cbn [negb app].
  - by rewrite IH.
  - rewrite <- Permutation_middle. by rewrite IH.
Qed.

Lemma add_headers_map l : NoDup l.*1 -> foldl add_header ∅ l = list_to_map l.
Proof.
  intros Hnd. rewrite (list_to_map_proper l (reverse l) Hnd) by (by rewrite reverse_Permutation).
  assert (Hgen : forall l m, foldl add_header m l = foldr (fun h m => add_header m h) m (reverse l)).
  { clear. intros l. induction l as [|h l IH]; intros m; [done|]. rewrite reverse_cons, foldr_app. apply IH. }
  rewrite Hgen. clear. induction (reverse l) as [|[k v] l' IH]; [done|]. cbn [foldr]. by rewrite IH.
Qed.

Lemma decode_encode_headers headers : Forall field_ok headers -> NoDup headers.*1 ->
  decode_headers (encode_headers headers) = Some (list_to_map headers).
Proof.
  intros Hok Hnd. unfold encode_headers. cbv zeta. rewrite <- foldl_app.
  set (l := sort _ ++ sort _).
  assert (Hp : l ≡ₚ headers) by (unfold l; rewrite !sort_perm; apply partition_perm).
  destruct (emits_spec l) as (bs & -> & Hd); [by rewrite Hp|]. cbn [app]. unfold decode_headers.
  rewrite Hd; [|split; [lia|done]|lia]. f_equal.
  rewrite add_headers_map by (by rewrite Hp). apply list_to_map_proper; [by rewrite Hp|done].
Qed.

(** ** Properties *)

(** An HPACK header block decodes to the header map it was built from,
    for every map of non-empty names whose strings are shorter than 2^32
    bytes; the block, moreover, does not depend on the order in which the
    hash table enumerates the map as far as the decoder can tell. *)
Theorem hpack_roundtrip headers headers' : Forall field_ok headers -> NoDup headers.*1 -> headers' ≡ₚ headers ->
  decode_headers (encode_headers headers') = Some (list_to_map headers).
Proof.
  intros Hok Hnd Hp. rewrite decode_encode_headers by (by rewrite Hp). f_equal.
  apply list_to_map_proper; [by rewrite Hp|done].
Qed.

Lemma hpack_roundtrip_witness :
  decode_headers (encode_headers [(str "x-id", str "7"); (str ":status", str "200"); (str "content-type", str "text/html")])
  = Some (list_to_map [(str "content-type", str "text/html"); (str ":status", str "200"); (str "x-id", str "7")]).
Proof.
  apply hpack_roundtrip.
  - repeat constructor; discriminate || (unfold string_ok; vm_compute; congruence).
  - apply (bool_decide_unpack _). vm_compute. exact I.
  - apply (bool_decide_unpack _). vm_compute. exact I.
Defined.

Lemma decode_string_bound data off s off' : decode_string data off = Some (s, off') -> (off < off' <= length data)%nat.
Proof.
  unfold decode_string. destruct (data !! off) as [b|]; [|done]. cbn [mbind option_bind].
  destruct (decode_prefix_int data off 7) as [[len o1]|] eqn:E; [|done].
  apply prefix_int_nonneg in E as Hlen; [|done..]. apply prefix_int_bound in E.
  cbn [mbind option_bind]. destruct (Z.ltb_spec (#data) (Z.of_nat o1 + len)); [done|].
  intros [x [_ H']]%bind_Some. simplify_eq. lia.
Qed.

Lemma decode_literal_bound data off n hs off' hs' : decode_literal data off n hs = Some (off', hs') ->
  (off < off' <= length data)%nat /\ (hs !! [] = None -> hs' !! [] = None).
Proof.
  unfold decode_literal. destruct (decode_prefix_int data off n) as [[ix o1]|] eqn:E; [|done]. apply prefix_int_bound in E.
  cbn [mbind option_bind]. intros [[name o2] [En H]]%bind_Some.
  assert (o1 <= o2)%nat.
  { destruct (ix =? 0); [apply decode_string_bound in En; lia|]. destruct (ix <? _); simplify_eq; lia. }
  apply bind_Some in H as [[value o3] [Ev%decode_string_bound H]]. simplify_eq. split; [lia|].
  intros Hn. case_bool_decide; [done|]. by rewrite lookup_insert_ne.
Qed.

Lemma static_names i : 1 <= i < #static_table -> (get_static_table_entry (Z.to_nat i)).1 <> [].
Proof.
  intros Hi. enough (H : bool_decide ((get_static_table_entry (Z.to_nat i)).1 <> []) = true) by (by apply bool_decide_eq_true in H).
  revert i Hi. change (#static_table) with 62.
  enough (H : forall i, 0 <= i < 61 -> bool_decide ((get_static_table_entry (Z.to_nat (i + 1))).1 <> []) = true).
  { intros i Hi. replace i with (i - 1 + 1) by lia. apply H. lia. }
  apply (forall_below _ 61). vm_compute. done.
Qed.

Lemma decode_representation_bound data off hs off' hs' : decode_representation data off hs = Some (off', hs') ->
  (off < off' <= length data)%nat /\ (hs !! [] = None -> hs' !! [] = None).
Proof.
  unfold decode_representation. destruct (data !! off) as [b|]; [|done]. cbn [mbind option_bind]. case_match.
  - destruct (decode_prefix_int data off 7) as [[ix o1]|] eqn:E; [|done]. apply prefix_int_bound in E as Hb.
    cbn [mbind option_bind]. destruct (Z.eqb_spec ix 0); cbn [orb]; [intros [= <- <-]; done|].
    destruct (Z.leb_spec (#static_table) ix); [intros [= <- <-]; done|].
    pose proof (static_names ix) as Hs. destruct (get_static_table_entry _) as [nm v]. intros [= <- <-].
    split; [done|]. intros ?. rewrite lookup_insert_ne; [done|]. apply Hs.
    apply prefix_int_nonneg in E; [lia|done..].
  - case_match; [apply decode_literal_bound|]. case_match; [|case_match; [apply decode_literal_bound|done]].
    destruct (decode_prefix_int data off 5) as [[ix o1]|] eqn:E; [|done]. apply prefix_int_bound in E as Hb.
    intros [= <- <-]. done.
Qed.

Lemma decode_headers_total data : exists headers, decode_headers data = Some headers /\ headers !! [] = None.
Proof.
  set (I := fun st : nat * gmap bytes bytes => st.2 !! [] = None).
  assert (Hstep : forall s s', I s -> decode_step data s = inl s' -> I s' /\ (length data - s'.1 < length data - s.1)%nat).
  { intros [off hs] [off' hs'] Hi Hs. unfold decode_step in Hs. destruct (Nat.ltb_spec off (length data)); [|done].
    destruct (decode_representation data off hs) as [[o h]|] eqn:E; [|done]. simplify_eq.
    apply decode_representation_bound in E as [Hb Hh]. unfold I in *. cbn [fst snd] in *. split; [by apply Hh|lia]. }
  destruct (loop_total (decode_step data) I _ Hstep (S (length data)) (0%nat, ∅)) as [r Hr]; [done|simpl; lia|].
  exists r. split; [done|]. revert Hr. apply (loop_post _ I (fun r => r !! [] = None)); [by intros; eapply Hstep| |done].
  intros [off hs] r' Hi. unfold decode_step. repeat case_match; intros; by simplify_eq.
Qed.

(** The decoder terminates on every input, and no input, however damaged,
    makes it store a header with an empty name. *)
Theorem hpack_decode_total data : exists headers, decode_headers data = Some headers /\ headers !! [] = None.
Proof. apply decode_headers_total. Qed.

(** The guard on the shift does not keep the 32-bit accumulator from
    wrapping: an indexed field whose index is 2^32 more than a static index
    decodes to that static entry instead of being dropped as out of range. *)
Theorem hpack_index_wraps i : 1 <= i < 62 ->
  decode_headers (0xFF :: write_tail 5 (2 ^ 32 + i - 127)) =
    Some {[ (get_static_table_entry (Z.to_nat i)).1 := (get_static_table_entry (Z.to_nat i)).2 ]}.
Proof.
  intros Hi. apply (bool_decide_eq_true_1 (decode_headers _ = _)). replace i with (i - 1 + 1) by lia. assert (Hj : 0 <= i - 1 < 61) by lia.
  revert Hj. generalize (i - 1). apply (forall_below _ 61). vm_compute. done.
Qed.

Lemma hpack_index_wraps_witness :
  decode_headers [0xFF; 0x83; 0xFF; 0xFF; 0xFF; 0x0F] = Some {[ str ":method" := str "GET" ]}.
Proof. apply (hpack_index_wraps 2). lia. Defined.
