(* ===== verification/ResponseWriter.v ===== *)
(** * Response writers

    Model of [ResponseWriter] in include/libspaznet/reactor/response_writer.hpp:
    the shared state behind all copies of a completion token.  A call is one
    step, because its critical section is; what it calls from there ([deliver],
    the [on_ready] callback) is the list of [Effect]s, callbacks being
    numbered. *)
From S2P Require Import Prelude.

Section Writer.
Context {Response : Type}.

(** [on_ready] is [None] when no callback, or an empty one, is registered. *)
Record State := mkState { on_ready_ : option nat; completed : bool }.

Inductive Effect := Delivered (r : Response) | Ready (callback : nat).

Definition new_state : State := mkState None false.

Definition complete (response : Response) (st : State) : State * list Effect :=
  if completed st then (st, [])
  else (mkState None true,
        Delivered response :: match on_ready_ st with Some cb => [Ready cb] | None => [] end).

Definition is_completed (st : State) : bool := completed st.

Definition on_ready (callback : option nat) (st : State) : State * list Effect :=
  if completed st then (st, match callback with Some cb => [Ready cb] | None => [] end)
  else (mkState callback (completed st), []).

(** The calls made on any of the copies, in the order of the lock. *)
Inductive Call := Complete (r : Response) | OnReady (callback : option nat).

Definition call (c : Call) (st : State) : State * list Effect :=
  match c with Complete r => complete r st | OnReady cb => on_ready cb st end.

Fixpoint calls (cs : list Call) (st : State) : State * list Effect :=
  match cs with
  | [] => (st, [])
  | c :: cs => let '(st, e) := call c st in let '(st, es) := calls cs st in (st, e ++ es)
  end.

(** ** Lemmas *)

Definition responses (es : list Effect) : list Response := omap (fun e => match e with Delivered r => Some r | _ => None end) es.
Definition callbacks (es : list Effect) : list nat := omap (fun e => match e with Ready cb => Some cb | _ => None end) es.

Fixpoint first_complete (cs : list Call) : option Response :=
  match cs with [] => None | Complete r :: _ => Some r | _ :: cs => first_complete cs end.

Definition is_complete (c : Call) : Prop := match c with Complete _ => True | OnReady _ => False end.

Lemma calls_app cs1 cs2 st : calls (cs1 ++ cs2) st =
  let '(st, es1) := calls cs1 st in let '(st, es2) := calls cs2 st in (st, es1 ++ es2).
Proof.
  revert st. induction cs1 as [|c cs1 IH]; intros st; cbn [app calls]; [by destruct (calls cs2 st)|].
  destruct (call c st) as [st1 e]. rewrite IH. destruct (calls cs1 st1) as [st2 es1]. destruct (calls cs2 st2) as [st3 es2]. by rewrite app_assoc.
Qed.

(** Nothing is delivered twice. *)
Lemma calls_completed cs : forall st, completed st = true -> (calls cs st).1 = st /\ responses (calls cs st).2 = [] /\
  (Forall is_complete cs -> callbacks (calls cs st).2 = []).
Proof.
  induction cs as [|c cs IH]; intros st Hst; [done|]. cbn [calls].
  destruct c as [r|cb]; cbn [call]; unfold complete, on_ready; rewrite Hst; specialize (IH st Hst);
    destruct (calls cs st) as [st2 es]; cbn [fst snd] in *; destruct IH as (H1 & H2 & H3); (split; [done|]).
  - split; [done|]. intros Hc. inversion Hc; subst. auto.
  - split; [unfold responses in *; destruct cb; cbn; by rewrite H2|]. intros Hc. inversion Hc; done.
Qed.

Lemma calls_open cs : forall cb, responses (calls cs (mkState cb false)).2 = option_list (first_complete cs) /\
  (Forall is_complete cs -> callbacks (calls cs (mkState cb false)).2 = match cs with [] => [] | _ => option_list cb end /\
   (calls cs (mkState cb false)).1 = match cs with [] => mkState cb false | _ => mkState None true end).
Proof.
  induction cs as [|c cs IH]; intros cb; [done|]. cbn [calls first_complete]. destruct c as [r|cb']; cbn [call]; unfold complete, on_ready; cbn [completed on_ready_].
  - destruct (calls_completed cs (mkState None true) eq_refl) as (H1 & H2 & H3). destruct (calls cs (mkState None true)) as [st2 es]. cbn [fst snd] in *.
    unfold responses, callbacks in *. split; [destruct cb; cbn; by rewrite H2|]. intros Hc. inversion Hc; subst.
    split; [|done]. destruct cb; cbn; by rewrite H3.
  - specialize (IH cb'). destruct (calls cs (mkState cb' false)) as [st2 es]. cbn [fst snd app] in *. destruct IH as [H1 H2].
    split; [done|]. intros Hc. inversion Hc; done.
Qed.
End Writer.
Arguments Call : clear implicits.
Arguments Effect : clear implicits.

(** ** Properties *)

(** However the copies of a writer are used, exactly one response is
    delivered: that of the first [complete].  And the callback of an
    [on_ready] fires exactly once if any [complete] happens, before or after
    the registration, and not at all otherwise. *)
Theorem writer_delivers_once {Response} (cs cs' : list (Call Response)) cb :
  responses (calls cs new_state).2 = option_list (first_complete cs) /\
  (Forall is_complete (cs ++ cs') ->
   callbacks (calls (cs ++ OnReady (Some cb) :: cs') new_state).2 = match cs ++ cs' with [] => [] | _ => [cb] end).
Proof.
  split; [apply calls_open|]. intros [Hc Hc']%Forall_app. rewrite calls_app.
  destruct (calls_open cs None) as [_ H]. unfold new_state. destruct (H Hc) as [H1 H2].
  destruct (calls cs (mkState None false)) as [st es]. cbn [fst snd] in *. subst st. cbn [calls]. destruct cs as [|c cs].
  - cbn [call]. unfold on_ready. cbn [completed]. destruct (calls_open cs' (Some cb)) as [_ H']. destruct (H' Hc') as [H3 _].
    destruct (calls cs' (mkState (Some cb) false)) as [st2 es2]. cbn [snd app] in *. unfold callbacks in *. rewrite omap_app, H1. by destruct cs'.
  - cbn [call]. unfold on_ready. cbn [completed]. destruct (calls_completed cs' (mkState None true) eq_refl) as (_ & _ & H3).
    destruct (calls cs' (mkState None true)) as [st2 es2]. cbn [snd] in *. unfold callbacks in *. cbn [option_list] in H1. rewrite omap_app, H1.
    cbn. by rewrite H3.
Qed.

Lemma writer_delivers_once_witness :
  callbacks (calls ([Complete 7%nat; Complete 8%nat] ++ OnReady (Some 3%nat) :: [Complete 9%nat]) new_state).2 = [3%nat].
Proof. apply (proj2 (writer_delivers_once [Complete 7%nat; Complete 8%nat] [Complete 9%nat] 3%nat)). by repeat constructor. Defined.
