(* ===== verification/Http1.v ===== *)
(** * HTTP/1.1 messages

    Model of example/http/src/handler.cpp: [HTTPRequest] and [HTTPResponse]
    with their helpers, the response serialisers, and [HTTPParser].

    A [std::unordered_map] of headers iterates in an order the language does
    not fix.  While headers are parsed the model keeps them in the order of
    insertion; [order] is the iteration order of the finished map, an argument
    of the parser about which only [order_perm] is assumed.  The headers of a
    message that is serialised or looked into are given in iteration order. *)
From S2P Require Import Prelude Utils.

Local Open Scope Z_scope.

Abbreviation header_map := (list (bytes * bytes)) (only parsing).

Record HTTPRequest := mkRequest {
  method : bytes;
  request_target : bytes;
  version : bytes;
  headers : header_map;
  body : bytes
}.

Record HTTPResponse := mkResponse {
  rs_version : bytes;
  status_code : Z;
  reason_phrase : bytes;
  rs_headers : header_map;
  rs_body : bytes
}.

(** [HTTPParser::ParseResult], with the parsed message and [bytes_consumed]
    of a success. *)
Inductive ParseResult (A : Type) := Success (a : A) (bytes_consumed : nat) | Incomplete | Error.
Arguments Success {A} a bytes_consumed.
Arguments Incomplete {A}.
Arguments Error {A}.

Definition kMaxHeaderBytes : nat := 16 * 1024.
Definition kMaxHeaders : nat := 100.
Definition kMaxBodySize : Z := 64 * 1024 * 1024.
Definition kMaxChunkSize : Z := 16 * 1024 * 1024.

(** ** Strings *)

Definition CR : Z := 13.
Definition LF : Z := 10.
Definition CRLF : bytes := [CR; LF].

(** [std::string::find] of a character. *)
Fixpoint index_of (c : Z) (s : bytes) : option nat :=
  match s with
  | [] => None
  | x :: s => if x =? c then Some O else S <$> index_of c s
  end.

(** The successive results of [std::getline] with a delimiter: what follows
    the last delimiter is a line only when it is not empty. *)
Fixpoint getlines (delim : Z) (cur s : bytes) : list bytes :=
  match s with
  | [] => match cur with [] => [] | _ => [cur] end
  | c :: s => if c =? delim then cur :: getlines delim [] s else getlines delim (cur ++ [c]) s
  end.

(** Splitting at every delimiter, the last piece included. *)
Fixpoint split_on (delim : Z) (cur s : bytes) : list bytes :=
  match s with
  | [] => [cur]
  | c :: s => if c =? delim then cur :: split_on delim [] s else split_on delim (cur ++ [c]) s
  end.

(** [if (line.back() == '\r') line.pop_back()]. *)
Definition strip_cr (line : bytes) : bytes :=
  match last line with Some c => if c =? CR then take (length line - 1) line else line | None => line end.

Definition is_alnum (c : Z) : bool :=
  is_digit c || ((65 <=? c) && (c <=? 90)) || ((97 <=? c) && (c <=? 122)).

Definition is_token_char (c : Z) : bool :=
  is_alnum c || bool_decide (c ∈ str "!#$%&'*+-.^_`|~").

Definition is_valid_field_name (name : bytes) : bool :=
  match name with [] => false | _ => forallb is_token_char name end.

Definition is_valid_field_value (value : bytes) : bool :=
  forallb (fun c => negb ((c =? CR) || (c =? LF) || (c =? 0))) value.

(** [std::stoi]: leading white space and a sign are skipped, digits are read
    as far as they go; [None] is the exception. *)
Definition is_space (c : Z) : bool := (c =? 32) || ((9 <=? c) && (c <=? 13)).

Fixpoint skip_space (s : bytes) : bytes :=
  match s with [] => [] | c :: s' => if is_space c then skip_space s' else s end.

Fixpoint digit_run (s : bytes) : bytes :=
  match s with [] => [] | c :: s => if is_digit c then c :: digit_run s else [] end.

Definition stoi (s : bytes) : option Z :=
  let s := skip_space s in
  let '(negative, s) := match s with
                        | c :: s' => if c =? 45 then (true, s') else if c =? 43 then (false, s') else (false, s)
                        | [] => (false, s)
                        end in
  let ds := digit_run s in
  let v := if negative then - decimal 0 ds else decimal 0 ds in
  match ds with
  | [] => None
  | _ => if (v <? INT_MIN) || (INT_MAX <? v) then None else Some v
  end.

(** ** Requests and responses *)

Definition get_header (hs : header_map) (name : bytes) : option bytes := get_header_case_insensitive hs name.

(** The loop over the tokens of a [Connection] header: (has_close,
    has_keep_alive). *)
Definition connection_tokens (conn : bytes) : bool * bool :=
  foldl (fun '(has_close, has_keep_alive) part =>
           let part := trim_ows part in
           if bool_decide (part = str "close") then (true, has_keep_alive)
           else if bool_decide (part = str "keep-alive") then (has_close, true)
           else (has_close, has_keep_alive)) (false, false) (getlines 44 [] (to_lower conn)).

Definition should_keep_alive (r : HTTPRequest) : bool :=
  let is_http_11 := bool_decide (version r = str "1.1") in
  let is_http_10 := bool_decide (version r = str "1.0") in
  match get_header (headers r) (str "Connection") with
  | Some connection =>
      let '(has_close, has_keep_alive) := connection_tokens connection in
      if has_close then false
      else if is_http_10 then has_keep_alive
      else if is_http_11 then true
      else has_keep_alive
  | None => is_http_11
  end.

Definition get_content_length (hs : header_map) : option Z :=
  cl ← get_header hs (str "Content-Length"); parse_uint64 cl.

(** The last non-empty element of a comma-separated list of codings. *)
Definition last_coding (te : bytes) : bytes :=
  foldl (fun last_token part => match trim_ows part with [] => last_token | part => part end) []
        (getlines 44 [] (to_lower te)).

Definition is_chunked (hs : header_map) : bool :=
  match get_header hs (str "Transfer-Encoding") with
  | None => false
  | Some te => bool_decide (last_coding te = str "chunked")
  end.

(** [headers[key] = value]. *)
Fixpoint set_header (hs : header_map) (key value : bytes) : header_map :=
  match hs with
  | [] => [(key, value)]
  | (k, v) :: hs => if bool_decide (k = key) then (k, value) :: hs else (k, v) :: set_header hs key value
  end.

Definition set_content_length (hs : header_map) (len : Z) : header_map := set_header hs (str "Content-Length") (to_string len).
Definition set_chunked (hs : header_map) : header_map := set_header hs (str "Transfer-Encoding") (str "chunked").

(** ** Serialisers *)

Definition status_line (r : HTTPResponse) : bytes :=
  str "HTTP/" ++ rs_version r ++ str " " ++ to_string (status_code r) ++ str " " ++ reason_phrase r ++ CRLF.

Definition header_ok (h : bytes * bytes) : bool := is_valid_field_name h.1 && is_valid_field_value h.2.

Definition header_line (h : bytes * bytes) : bytes := h.1 ++ str ": " ++ h.2 ++ CRLF.

(** Entries that are not well formed are dropped. *)
Fixpoint header_lines (hs : header_map) : bytes :=
  match hs with
  | [] => []
  | h :: hs => if header_ok h then header_line h ++ header_lines hs else header_lines hs
  end.

Definition status_forbids_body (code : Z) : bool :=
  ((100 <=? code) && (code <? 200)) || (code =? 204) || (code =? 304).

Definition serialize (r : HTTPResponse) : bytes :=
  status_line r ++ header_lines (rs_headers r) ++
  (if negb (status_forbids_body (status_code r)) && bool_decide (find_exact (rs_headers r) (str "Content-Length") = None)
      && bool_decide (find_exact (rs_headers r) (str "Transfer-Encoding") = None)
   then str "Content-Length: " ++ to_string (#(rs_body r)) ++ CRLF else []) ++
  CRLF ++ rs_body r.

(** [std::hex << n]. *)
Definition hex_char (d : Z) : Z := if d <? 10 then 48 + d else 87 + d.

Fixpoint hex_digits (fuel : nat) (n : Z) (acc : bytes) : bytes :=
  match fuel with
  | O => acc
  | S fuel => let acc := hex_char (n mod 16) :: acc in
              if n <? 16 then acc else hex_digits fuel (n / 16) acc
  end.

Definition to_hex (n : Z) : bytes := hex_digits 16 n [].

Definition has_transfer_encoding (hs : header_map) : bool :=
  existsb (fun h => header_ok h && bool_decide (to_lower h.1 = str "transfer-encoding")) hs.

Definition serialize_chunked (r : HTTPResponse) : bytes :=
  status_line r ++ header_lines (rs_headers r) ++
  (if has_transfer_encoding (rs_headers r) then [] else str "Transfer-Encoding: chunked" ++ CRLF) ++
  CRLF ++
  match rs_body r with [] => [] | _ => to_hex (#(rs_body r)) ++ CRLF ++ rs_body r ++ CRLF end ++
  str "0" ++ CRLF ++ CRLF.

(** ** Lines of the header block *)

Definition parse_request_line (line : bytes) : option (bytes * bytes * bytes) :=
  first_space ← index_of 32 line;
  let method := take first_space line in
  if negb (forallb is_token_char method) then None else
  let rest := drop (first_space + 1) line in
  second_space ← index_of 32 rest;
  let target := take second_space rest in
  let rest := drop (second_space + 1) rest in
  if negb (bool_decide (take 5 rest = str "HTTP/")) then None else
  Some (method, target, drop 5 rest).

Definition parse_status_line (line : bytes) : option (bytes * Z * bytes) :=
  if negb (bool_decide (take 5 line = str "HTTP/")) then None else
  let rest := drop 5 line in
  first_space ← index_of 32 rest;
  let version := take first_space rest in
  let rest := drop (first_space + 1) rest in
  match index_of 32 rest with
  | None => code ← stoi rest; Some (version, code, [])
  | Some second_space =>
      code ← parse_int (take second_space rest);
      Some (version, code, drop (second_space + 1) rest)
  end.

(** A field under a name already present is appended to its value. *)
Fixpoint add_field (hs : header_map) (name value : bytes) : header_map :=
  match hs with
  | [] => [(name, value)]
  | (k, v) :: hs => if bool_decide (k = name) then (k, v ++ str ", " ++ value) :: hs else (k, v) :: add_field hs name value
  end.

Definition parse_header_field (line : bytes) (hs : header_map) : option header_map :=
  colon ← index_of 58 line;
  if (colon =? 0)%nat then None else
  if is_ows (nth_byte line (colon - 1)) then None else
  let field_name := take colon line in
  let field_value := drop (colon + 1) line in
  if negb (forallb is_token_char field_name) then None else
  Some (add_field hs field_name (trim_ows field_value)).

(** The loop over the header lines, up to the first empty one. *)
Fixpoint parse_headers (lines : list bytes) (header_count : nat) (hs : header_map) : option header_map :=
  match lines with
  | [] => Some hs
  | line :: lines =>
      let line := strip_cr line in
      match line with
      | [] => Some hs
      | _ => if (kMaxHeaders <? S header_count)%nat then None else
             hs ← parse_header_field line hs; parse_headers lines (S header_count) hs
      end
  end.

Inductive HeaderEndState := Found (header_end : nat) | HeaderIncomplete | TooLarge.

(** The scan for CR LF CR LF.  A stray CR or LF between the two pairs does not
    clear [found_crlf]. *)
Fixpoint scan_header (l : bytes) (i : nat) (found_crlf : bool) : option nat :=
  match l with
  | a :: ((b :: l') as t) =>
      if (a =? CR) && (b =? LF) then
        if found_crlf then Some (i + 2)%nat else scan_header l' (i + 2) true
      else scan_header t (i + 1) (found_crlf && ((a =? CR) || (a =? LF)))
  | _ => None
  end.

Definition find_header_end (buffer : bytes) (max_bytes : nat) : HeaderEndState :=
  match scan_header (take max_bytes buffer) 0 false with
  | Some header_end => Found header_end
  | None => if (max_bytes <=? length buffer)%nat then TooLarge else HeaderIncomplete
  end.

(** ** Framing headers *)

(** The scan over the map: the position of the last Content-Length and the
    last Transfer-Encoding; [None] when two Content-Lengths differ. *)
Fixpoint framing_scan (hs : header_map) (i : nat) (cl : option (nat * bytes)) (te : option bytes)
  : option (option (nat * bytes) * option bytes) :=
  match hs with
  | [] => Some (cl, te)
  | (key, value) :: hs =>
      if ascii_iequals key (str "Content-Length") then
        match cl with
        | Some (_, v) => if bool_decide (v = value) then framing_scan hs (S i) (Some (i, value)) te else None
        | None => framing_scan hs (S i) (Some (i, value)) te
        end
      else if ascii_iequals key (str "Transfer-Encoding") then framing_scan hs (S i) cl (Some value)
      else framing_scan hs (S i) cl te
  end.

(** The elements of a Content-Length list: all the same run of digits, which
    is returned. *)
Definition length_token (value : bytes) : option bytes :=
  let tokens := trim_ows <$> split_on 44 [] value in
  if negb (forallb (fun t => negb (bool_decide (t = [])) && forallb is_digit t) tokens) then None else
  match tokens with
  | [] => None
  | first_token :: tokens => if forallb (fun t => bool_decide (t = first_token)) tokens then Some first_token else None
  end.

Definition set_value (hs : header_map) (i : nat) (v : bytes) : header_map :=
  match hs !! i with Some (k, _) => <[i := (k, v)]> hs | None => hs end.

(** [false] is [None]; the headers come back because the Content-Length found
    last is normalised in place. *)
Definition validate_framing_headers (hs : header_map) : option header_map :=
  '(cl, te) ← framing_scan hs 0 None None;
  hs' ← match cl with
        | Some (i, value) => token ← length_token value; Some (set_value hs i token)
        | None => Some hs
        end;
  match cl, te with
  | Some _, Some _ => None
  | None, Some te => if bool_decide (last_coding te = str "chunked") then Some hs' else None
  | _, None => Some hs'
  end.

(** ** Chunked bodies *)

Fixpoint parse_hex (value : Z) (saw_digit : bool) (line : bytes) : option Z :=
  match line with
  | [] => if saw_digit then Some value else None
  | c :: line =>
      if c =? 59 then (if saw_digit then Some value else None) else
      digit ← (if is_digit c then Some (c - 48)
               else if (97 <=? c) && (c <=? 102) then Some (10 + (c - 97))
               else if (65 <=? c) && (c <=? 70) then Some (10 + (c - 65)) else None);
      if (UINT64_MAX - digit) / 16 <? value then None
      else parse_hex (u64 (value * 16 + digit)) true line
  end.

Definition parse_chunk_size (line : bytes) : option Z := parse_hex 0 false line.

Definition chunk_line_max : nat := 4096.

Inductive LineEnd := LineFound (n : nat) | LineIncomplete | LineTooLong.

(** The scan for CR LF from a position, [n] bytes behind it. *)
Fixpoint find_crlf (l : bytes) (n : nat) : LineEnd :=
  match l with
  | a :: ((b :: _) as t) =>
      if (a =? CR) && (b =? LF) then LineFound n
      else if (chunk_line_max <? n)%nat then LineTooLong else find_crlf t (S n)
  | _ => LineIncomplete
  end.

(** The trailer lines after the last chunk; the state is the position and the
    bytes from there on. *)
Definition trailer_step (st : nat * bytes) : (nat * bytes) + ParseResult unit :=
  let '(pos, rest) := st in
  match rest with
  | a :: b :: _ =>
      if (a =? CR) && (b =? LF) then inr (Success tt (pos + 2)) else
      match find_crlf rest 0 with
      | LineFound n => inl ((pos + n + 2)%nat, drop (n + 2) rest)
      | LineIncomplete => inr Incomplete
      | LineTooLong => inr Error
      end
  | _ => inr Incomplete
  end.

Definition skip_trailers (pos : nat) (rest : bytes) : option (ParseResult unit) :=
  loop trailer_step (S (length rest)) (pos, rest).

Definition chunk_step (st : nat * bytes * bytes) : (nat * bytes * bytes) + option (ParseResult bytes) :=
  let '(pos, rest, body) := st in
  match rest with [] => inr (Some Incomplete) | _ =>
  match find_crlf rest 0 with
  | LineTooLong => inr (Some Error)
  | LineIncomplete => inr (Some Incomplete)
  | LineFound n =>
      match parse_chunk_size (take n rest) with
      | None => inr (Some Error)
      | Some chunk_size =>
          if kMaxChunkSize <? chunk_size then inr (Some Error) else
          let pos := (pos + n + 2)%nat in
          let rest := drop (n + 2) rest in
          if chunk_size =? 0 then
            inr (match skip_trailers pos rest with
                 | Some (Success _ n) => Some (Success body n)
                 | Some Incomplete => Some Incomplete
                 | Some Error => Some Error
                 | None => None
                 end)
          else
          let k := Z.to_nat chunk_size in
          if (length rest <? k + 2)%nat then inr (Some Incomplete) else
          if kMaxBodySize <? #body + chunk_size then inr (Some Error) else
          let body := body ++ take k rest in
          match drop k rest with
          | a :: b :: rest => if (a =? CR) && (b =? LF) then inl ((pos + k + 2)%nat, rest, body) else inr (Some Error)
          | _ => inr (Some Error)
          end
      end
  end end.

Definition parse_chunked_body (buffer : bytes) : option (ParseResult bytes) :=
  r ← loop chunk_step (S (length buffer)) (O, buffer, []); r.

(** ** Messages *)

Section Parser.
Context (order : header_map -> header_map).

(** Request line and headers of a complete header block. *)
Definition parse_request_head (block : bytes) : option (bytes * bytes * bytes * header_map) :=
  match getlines LF [] block with
  | [] => None
  | line :: lines =>
      '(method, target, version) ← parse_request_line (strip_cr line);
      hs ← parse_headers lines 0 [];
      hs ← validate_framing_headers (order hs);
      Some (method, target, version, hs)
  end.

Definition parse_request (buffer : bytes) : option (ParseResult HTTPRequest) :=
  match find_header_end buffer kMaxHeaderBytes with
  | HeaderIncomplete => Some Incomplete
  | TooLarge => Some Error
  | Found header_end =>
      match parse_request_head (take header_end buffer) with
      | None => Some Error
      | Some (method, target, version, hs) =>
          match get_content_length hs with
          | Some body_size =>
              if kMaxBodySize <? body_size then Some Error else
              let n := (header_end + Z.to_nat body_size)%nat in
              if (length buffer <? n)%nat then Some Incomplete else
              Some (Success (mkRequest method target version hs (take (Z.to_nat body_size) (drop header_end buffer))) n)
          | None =>
              if is_chunked hs then
                r ← parse_chunked_body (drop header_end buffer);
                match r with
                | Success body n => Some (Success (mkRequest method target version hs body) (header_end + n))
                | Incomplete => Some Incomplete
                | Error => Some Error
                end
              else Some (Success (mkRequest method target version hs []) header_end)
          end
      end
  end.

Definition parse_response_head (block : bytes) : option (bytes * Z * bytes * header_map) :=
  match getlines LF [] block with
  | [] => None
  | line :: lines =>
      '(version, code, reason) ← parse_status_line (strip_cr line);
      hs ← parse_headers lines 0 [];
      hs ← validate_framing_headers (order hs);
      Some (version, code, reason, hs)
  end.

Definition parse_response (buffer : bytes) : option (ParseResult HTTPResponse) :=
  match find_header_end buffer kMaxHeaderBytes with
  | HeaderIncomplete => Some Incomplete
  | TooLarge => Some Error
  | Found header_end =>
      match parse_response_head (take header_end buffer) with
      | None => Some Error
      | Some (version, code, reason, hs) =>
          match get_header hs (str "Content-Length") with
          | Some cl =>
              match parse_uint64 cl with
              | None => Some Error
              | Some body_size =>
                  if kMaxBodySize <? body_size then Some Error else
                  let n := (header_end + Z.to_nat body_size)%nat in
                  if (length buffer <? n)%nat then Some Incomplete else
                  Some (Success (mkResponse version code reason hs (take (Z.to_nat body_size) (drop header_end buffer))) n)
              end
          | None =>
              match get_header hs (str "Transfer-Encoding") with
              | None => Some (Success (mkResponse version code reason hs []) header_end)
              | Some te =>
                  if negb (bool_decide (last_coding te = str "chunked")) then Some Error else
                  r ← parse_chunked_body (drop header_end buffer);
                  match r with
                  | Success body n => Some (Success (mkResponse version code reason hs body) (header_end + n))
                  | Incomplete => Some Incomplete
                  | Error => Some Error
                  end
              end
          end
      end
  end.
End Parser.

(** ** The parser on a longer buffer *)

Lemma scan_header_cons a b l i f : scan_header (a :: b :: l) i f =
  if (a =? CR) && (b =? LF) then (if f then Some (i + 2)%nat else scan_header l (i + 2) true)
  else scan_header (b :: l) (i + 1) (f && ((a =? CR) || (a =? LF))).
Proof. done. Qed.

Lemma find_crlf_cons a b l n : find_crlf (a :: b :: l) n =
  if (a =? CR) && (b =? LF) then LineFound n
  else if (chunk_line_max <? n)%nat then LineTooLong else find_crlf (b :: l) (S n).
Proof. done. Qed.

Lemma scan_header_ext x l : forall i f n, scan_header l i f = Some n ->
  scan_header (l ++ x) i f = Some n /\ (i + 2 <= n <= i + length l)%nat.
Proof.
  induction l as [l IH] using (well_founded_induction (well_founded_ltof _ (@length Z))). unfold ltof in IH.
  intros i f n. destruct l as [|a [|b l]]; [done|done|]. cbn [app length]. rewrite !scan_header_cons. destruct ((a =? CR) && (b =? LF)).
  - destruct f; [intros [= <-]; split; [done|lia]|]. intros [H1 H2]%IH; [|cbn; lia]. split; [done|lia].
  - intros [H1 H2]%IH; [|cbn; lia]. split; [done|cbn in H2; lia].
Qed.

Lemma find_header_end_bound buf max n : find_header_end buf max = Found n ->
  (2 <= n <= length buf)%nat /\ (n <= max)%nat.
Proof.
  unfold find_header_end. destruct (scan_header (take max buf) 0 false) eqn:E; [|by case_match].
  intros [= ->]. apply (scan_header_ext []) in E as [_ H]. rewrite length_take in H. lia.
Qed.

Lemma find_header_end_ext x buf max : find_header_end buf max <> HeaderIncomplete ->
  find_header_end (buf ++ x) max = find_header_end buf max.
Proof.
  unfold find_header_end. destruct (Nat.leb_spec max (length buf)) as [Hm|Hm].
  - intros _. rewrite take_app_le by done. rewrite length_app. destruct (Nat.leb_spec max (length buf + length x)); [done|lia].
  - rewrite (take_ge buf) by lia. destruct (scan_header buf 0 false) eqn:E; [|done]. intros _.
    rewrite take_app_ge by lia. by rewrite (proj1 (scan_header_ext _ _ _ _ _ E)).
Qed.

Lemma find_crlf_ext x l : forall n, find_crlf l n <> LineIncomplete -> find_crlf (l ++ x) n = find_crlf l n.
Proof.
  induction l as [|a l IH]; [done|]. intros n. destruct l as [|b l]; [done|].
  cbn [app] in *. rewrite !find_crlf_cons. destruct (_ && _); [done|]. destruct (_ <? _)%nat; [done|]. apply IH.
Qed.

Lemma find_crlf_bound l : forall n m, find_crlf l n = LineFound m -> (n <= m)%nat /\ (m + 2 <= n + length l)%nat.
Proof.
  induction l as [|a l IH]; [done|]. intros n m. destruct l as [|b l]; [done|]. rewrite find_crlf_cons. intros H.
  destruct (_ && _); [injection H as <-; cbn; lia|]. destruct (_ <? _)%nat; [done|]. apply IH in H. cbn in *. lia.
Qed.

(** A verdict that more bytes cannot change. *)
Definition final {A} (r : ParseResult A) : Prop := match r with Incomplete => False | _ => True end.

Lemma trailer_step_ext x pos rest : match trailer_step (pos, rest) with
  | inl (p, r) => trailer_step (pos, rest ++ x) = inl (p, r ++ x) /\ (length r < length rest)%nat /\ (p + length r = pos + length rest)%nat
  | inr r => (final r -> trailer_step (pos, rest ++ x) = inr r) /\
             forall n, r = Success tt n -> (pos < n <= pos + length rest)%nat
  end.
Proof.
  unfold trailer_step. destruct rest as [|a [|b l]]; [done|done|]. destruct ((a =? CR) && (b =? LF)) eqn:E.
  - cbn [app]. rewrite E. split; [done|]. intros n [= <-]. cbn. lia.
  - destruct (find_crlf (a :: b :: l) 0) as [n| |] eqn:F; [|done|].
    + pose proof (find_crlf_bound _ _ _ F) as [_ Hb]. cbn [app]. rewrite E.
      change (a :: b :: l ++ x) with ((a :: b :: l) ++ x). rewrite find_crlf_ext, F by (by rewrite F).
      rewrite drop_app_le by lia. rewrite length_drop. repeat split; lia.
    + cbn [app]. rewrite E. change (a :: b :: l ++ x) with ((a :: b :: l) ++ x).
      rewrite find_crlf_ext, F by (by rewrite F). done.
Qed.

Lemma skip_trailers_total pos rest : exists r, skip_trailers pos rest = Some r /\
  forall n, r = Success tt n -> (pos < n <= pos + length rest)%nat.
Proof.
  unfold skip_trailers.
  destruct (loop_total trailer_step (fun _ => True) (fun s => length s.2)) with (fuel := S (length rest)) (s := (pos, rest)) as [r Hr]; [|done|cbn; lia|].
  { intros [p l] [p' l'] _ E. pose proof (trailer_step_ext [] p l) as H. rewrite E in H. split; [done|cbn; lia]. }
  exists r. split; [done|]. revert Hr.
  apply (loop_post _ (fun s => (pos <= s.1)%nat /\ (s.1 + length s.2 = pos + length rest)%nat)
    (fun r => forall n, r = Success tt n -> (pos < n <= pos + length rest)%nat)); [| |cbn; lia].
  - intros [p l] [p' l'] [H1 H2] E. pose proof (trailer_step_ext [] p l) as H. rewrite E in H. cbn in *. lia.
  - intros [p l] r' [H1 H2] E n ->. pose proof (trailer_step_ext [] p l) as H. rewrite E in H. cbn in *.
    destruct H as [_ H]. specialize (H n eq_refl). lia.
Qed.

Lemma skip_trailers_ext x pos rest r : skip_trailers pos rest = Some r -> final r -> skip_trailers pos (rest ++ x) = Some r.
Proof.
  intros Hr Hf. eapply (loop_sim trailer_step (fun s t => t = (s.1, s.2 ++ x)) final); [| |exact Hr|done|done|rewrite length_app; lia].
  - intros [p l] t [p' l'] -> E. pose proof (trailer_step_ext x p l) as H. rewrite E in H. cbn. eexists. split; [apply H|done].
  - intros [p l] t r' -> E HQ. pose proof (trailer_step_ext x p l) as H. rewrite E in H. by apply H.
Qed.


(** What follows a chunk-size line. *)
Definition chunk_data (pos : nat) (rest body : bytes) (chunk_size : Z) : (nat * bytes * bytes) + option (ParseResult bytes) :=
  if kMaxChunkSize <? chunk_size then inr (Some Error) else
  if chunk_size =? 0 then
    inr (match skip_trailers pos rest with
         | Some (Success _ n) => Some (Success body n)
         | Some Incomplete => Some Incomplete
         | Some Error => Some Error
         | None => None
         end)
  else
  let k := Z.to_nat chunk_size in
  if (length rest <? k + 2)%nat then inr (Some Incomplete) else
  if kMaxBodySize <? #body + chunk_size then inr (Some Error) else
  let body := body ++ take k rest in
  match drop k rest with
  | a :: b :: rest => if (a =? CR) && (b =? LF) then inl ((pos + k + 2)%nat, rest, body) else inr (Some Error)
  | _ => inr (Some Error)
  end.

Lemma chunk_step_eq pos rest body : chunk_step (pos, rest, body) =
  match find_crlf rest 0 with
  | LineTooLong => inr (Some Error)
  | LineIncomplete => inr (Some Incomplete)
  | LineFound n => match parse_chunk_size (take n rest) with
                   | None => inr (Some Error)
                   | Some chunk_size => chunk_data (pos + n + 2) (drop (n + 2) rest) body chunk_size
                   end
  end.
Proof. unfold chunk_step, chunk_data. by destruct rest. Qed.

Lemma chunk_data_ext x pos rest body size : 0 <= size -> match chunk_data pos rest body size with
  | inl (p, r, b) => chunk_data pos (rest ++ x) body size = inl (p, r ++ x, b) /\ (length r < length rest)%nat /\
                     (p + length r = pos + length rest)%nat /\ #b <= kMaxBodySize
  | inr r => exists r', r = Some r' /\ (final r' -> chunk_data pos (rest ++ x) body size = inr r) /\
             forall b n, r' = Success b n -> b = body /\ (pos < n <= pos + length rest)%nat
  end.
Proof.
  intros Hs. unfold chunk_data. cbv zeta. destruct (_ <? size); [by eexists|]. destruct (Z.eqb_spec size 0) as [->|Hz].
  - destruct (skip_trailers_total pos rest) as (r & Hr & Hb). rewrite Hr.
    destruct r as [[] n| |]; eexists; (split; [reflexivity|]); split; try done.
    + intros _. by rewrite (skip_trailers_ext x _ _ _ Hr).
    + intros b m [= <- <-]. split; [done|]. by apply Hb.
    + intros _. by rewrite (skip_trailers_ext x _ _ _ Hr).
  - destruct (Nat.ltb_spec (length rest) (Z.to_nat size + 2)); [by eexists|].
    rewrite length_app. destruct (Nat.ltb_spec (length rest + length x) (Z.to_nat size + 2)); [lia|].
    destruct (Z.ltb_spec kMaxBodySize (#body + size)); [by eexists|].
    rewrite take_app_le, drop_app_le by lia.
    destruct (drop (Z.to_nat size) rest) as [|a [|b l]] eqn:Ed; [|apply (f_equal length) in Ed; rewrite length_drop in Ed; cbn in Ed; lia|].
    { apply (f_equal length) in Ed. rewrite length_drop in Ed. cbn in Ed. lia. }
    apply (f_equal length) in Ed. rewrite length_drop in Ed. cbn [app length] in *. destruct (_ && _); [|by eexists].
    rewrite length_app, length_take. repeat split; lia.
Qed.

Lemma parse_hex_nonneg l : forall v saw r, 0 <= v -> parse_hex v saw l = Some r -> 0 <= r.
Proof.
  induction l as [|c l IH]; intros v saw r Hv; cbn [parse_hex]; [destruct saw; by intros [= <-]|].
  destruct (_ =? 59); [destruct saw; by intros [= <-]|]. intros H. inv_bind H.
  apply IH in H; [done|]. apply u64_range.
Qed.

Lemma chunk_step_ext x pos rest body : match chunk_step (pos, rest, body) with
  | inl (p, r, b) => chunk_step (pos, rest ++ x, body) = inl (p, r ++ x, b) /\ (length r < length rest)%nat /\
                     (p + length r = pos + length rest)%nat /\ #b <= kMaxBodySize
  | inr r => exists r', r = Some r' /\ (final r' -> chunk_step (pos, rest ++ x, body) = inr r) /\
             forall b n, r' = Success b n -> b = body /\ (pos < n <= pos + length rest)%nat
  end.
Proof.
  rewrite !chunk_step_eq. destruct (find_crlf rest 0) as [n| |] eqn:F; [|by eexists|].
  - pose proof (find_crlf_bound _ _ _ F) as [_ Hb]. rewrite find_crlf_ext, F by (by rewrite F).
    rewrite take_app_le, drop_app_le by lia. destruct (parse_chunk_size (take n rest)) as [size|] eqn:Ep; [|by eexists].
    assert (Hs : 0 <= size) by (eapply parse_hex_nonneg, Ep; lia).
    pose proof (chunk_data_ext x (pos + n + 2) (drop (n + 2) rest) body size Hs) as H.
    destruct (chunk_data _ (drop _ rest) body size) as [[[p r] b]|r]; rewrite length_drop in H.
    + destruct H as (H1 & H2 & H3 & H4). repeat split; [done|lia|lia|done].
    + destruct H as (r' & -> & H1 & H2). exists r'. split; [done|]. split; [done|]. intros b m E.
      destruct (H2 b m E). split; [done|lia].
  - rewrite find_crlf_ext, F by (by rewrite F). by eexists.
Qed.

Lemma parse_chunked_body_total buffer : exists r, parse_chunked_body buffer = Some r /\
  forall b n, r = Success b n -> #b <= kMaxBodySize /\ (0 < n <= length buffer)%nat.
Proof.
  unfold parse_chunked_body.
  destruct (loop_total chunk_step (fun _ => True) (fun s => length s.1.2)) with (fuel := S (length buffer)) (s := (O, buffer, [] : bytes)) as [r Hr]; [|done|cbn; lia|].
  { intros [[p l] b] [[p' l'] b'] _ E. pose proof (chunk_step_ext [] p l b) as H. rewrite E in H. split; [done|cbn; lia]. }
  rewrite Hr. cbn [mbind option_bind]. revert Hr.
  apply (loop_post _ (fun s => (s.1.1 + length s.1.2 = length buffer)%nat /\ #(s.2) <= kMaxBodySize)
    (fun r => exists r', r = Some r' /\ forall b n, r' = Success b n -> #b <= kMaxBodySize /\ (0 < n <= length buffer)%nat)); [| |done].
  - intros [[p l] b] [[p' l'] b'] [H1 H2] E. pose proof (chunk_step_ext [] p l b) as H. rewrite E in H. cbn in *. lia.
  - intros [[p l] b] r' [H1 H2] E. pose proof (chunk_step_ext [] p l b) as H. rewrite E in H.
    destruct H as (r'' & -> & _ & H). exists r''. split; [done|]. intros b' n ->. destruct (H _ _ eq_refl) as [-> ?]. cbn in *. lia.
Qed.

Lemma parse_chunked_body_ext x buffer r : parse_chunked_body buffer = Some r -> final r ->
  parse_chunked_body (buffer ++ x) = Some r.
Proof.
  unfold parse_chunked_body. intros Hr Hf. apply bind_Some in Hr as (o & Hr & ->).
  erewrite (loop_sim chunk_step (fun s t => t = (s.1.1, s.1.2 ++ x, s.2)) (fun o => exists r', o = Some r' /\ final r'));
    [done| | |exact Hr|by eexists|done|rewrite length_app; lia].
  - intros [[p l] b] t [[p' l'] b'] -> E. pose proof (chunk_step_ext x p l b) as H. rewrite E in H. cbn. eexists. split; [apply H|done].
  - intros [[p l] b] t o -> E (r' & -> & HQ). pose proof (chunk_step_ext x p l b) as H. rewrite E in H.
    destruct H as (r2 & [= <-] & H & _). cbn. by apply H.
Qed.

Section Incremental.
Context (order : header_map -> header_map).

(** What a successful parse of a request says about its size. *)
Definition request_bounded (buffer : bytes) (r : HTTPRequest) (n : nat) : Prop :=
  (2 <= n <= length buffer)%nat /\ #(body r) <= kMaxBodySize /\
  (exists h, find_header_end buffer kMaxHeaderBytes = Found h /\ (h <= kMaxHeaderBytes)%nat /\ (h <= n)%nat).

Lemma content_length_nonneg hs v : get_content_length hs = Some v -> 0 <= v.
Proof.
  unfold get_content_length. intros H. inv_bind H. rewrite parse_uint64_spec in H. case_match; [|done]. injection H as <-.
  apply decimal_ge; [lia|]. by apply andb_true_iff in H0 as [[_ ?]%andb_true_iff _].
Qed.

Lemma parse_request_total buffer : exists r, parse_request order buffer = Some r /\
  forall req n, r = Success req n -> request_bounded buffer req n.
Proof.
  unfold parse_request. destruct (find_header_end buffer kMaxHeaderBytes) as [h| |] eqn:Eh; [|by eexists|by eexists].
  pose proof (find_header_end_bound _ _ _ Eh) as [Hb Hm]. destruct (parse_request_head _ _) as [[[[me ta] ve] hs]|]; [|by eexists].
  destruct (get_content_length hs) as [v|] eqn:Ec.
  - pose proof (content_length_nonneg _ _ Ec). destruct (Z.ltb_spec kMaxBodySize v); [by eexists|]. cbv zeta.
    destruct (Nat.ltb_spec (length buffer) (h + Z.to_nat v)); [by eexists|].
    eexists. split; [reflexivity|]. intros req n [= <- <-]. split; [lia|]. split; [cbn; rewrite length_take, length_drop; lia|].
    exists h. split; [done|lia].
  - destruct (is_chunked hs).
    + destruct (parse_chunked_body_total (drop h buffer)) as (r & -> & Hr). cbn [mbind option_bind].
      destruct r as [b k| |]; eexists; (split; [reflexivity|]); [|done|done]. intros req n [= <- <-].
      destruct (Hr _ _ eq_refl) as [H1 H2]. rewrite length_drop in H2. split; [lia|]. split; [done|]. exists h. split; [done|lia].
    + eexists. split; [reflexivity|]. intros req n [= <- <-]. split; [done|]. split; [done|]. exists h. split; [done|lia].
Qed.

Lemma parse_request_ext x buffer r : parse_request order buffer = Some r -> final r ->
  parse_request order (buffer ++ x) = Some r.
Proof.
  unfold parse_request. intros Hr Hf. destruct (find_header_end buffer kMaxHeaderBytes) as [h| |] eqn:Eh;
    [|injection Hr as <-; done|by rewrite find_header_end_ext, Eh by (by rewrite Eh)].
  pose proof (find_header_end_bound _ _ _ Eh) as [Hb Hm]. rewrite find_header_end_ext, Eh by (by rewrite Eh).
  rewrite take_app_le by lia. destruct (parse_request_head _ _) as [[[[me ta] ve] hs]|]; [|done].
  rewrite drop_app_le by lia. destruct (get_content_length hs) as [v|] eqn:Ec.
  - destruct (Z.ltb_spec kMaxBodySize v); [done|]. cbv zeta in *.
    destruct (Nat.ltb_spec (length buffer) (h + Z.to_nat v)); [injection Hr as <-; done|].
    rewrite length_app. destruct (Nat.ltb_spec (length buffer + length x) (h + Z.to_nat v)); [lia|].
    rewrite take_app_le by (rewrite length_drop; lia). done.
  - destruct (is_chunked hs); [|done]. apply bind_Some in Hr as (cr & Hcr & Hr).
    rewrite (parse_chunked_body_ext x _ _ Hcr); [done|]. destruct cr; [done|injection Hr as <-; done|done].
Qed.

Lemma parse_response_total buffer : exists r, parse_response order buffer = Some r /\
  forall req n, r = Success req n -> (2 <= n <= length buffer)%nat /\ #(rs_body req) <= kMaxBodySize.
Proof.
  unfold parse_response. destruct (find_header_end buffer kMaxHeaderBytes) as [h| |] eqn:Eh; [|by eexists|by eexists].
  pose proof (find_header_end_bound _ _ _ Eh) as [Hb Hm]. destruct (parse_response_head _ _) as [[[[me ta] ve] hs]|]; [|by eexists].
  destruct (get_header hs (str "Content-Length")) as [cl|].
  - destruct (parse_uint64 cl) as [v|] eqn:Ep; [|by eexists].
    destruct (Z.ltb_spec kMaxBodySize v); [by eexists|]. cbv zeta.
    destruct (Nat.ltb_spec (length buffer) (h + Z.to_nat v)); [by eexists|].
    eexists. split; [reflexivity|]. intros req n [= <- <-]. split; [lia|]. cbn [rs_body]. rewrite length_take, length_drop.
    unfold kMaxBodySize in *. lia.
  - destruct (get_header hs _); [|eexists; split; [reflexivity|]; by intros req n [= <- <-]].
    case_match; [by eexists|]. destruct (parse_chunked_body_total (drop h buffer)) as (r & -> & Hr). cbn [mbind option_bind].
    destruct r as [b' k| |]; eexists; (split; [reflexivity|]); [|done|done]. intros req n [= <- <-].
    destruct (Hr _ _ eq_refl) as [H1 H2]. rewrite length_drop in H2. split; [lia|done].
Qed.

Lemma parse_response_ext x buffer r : parse_response order buffer = Some r -> final r ->
  parse_response order (buffer ++ x) = Some r.
Proof.
  unfold parse_response. intros Hr Hf. destruct (find_header_end buffer kMaxHeaderBytes) as [h| |] eqn:Eh;
    [|injection Hr as <-; done|by rewrite find_header_end_ext, Eh by (by rewrite Eh)].
  pose proof (find_header_end_bound _ _ _ Eh) as [Hb Hm]. rewrite find_header_end_ext, Eh by (by rewrite Eh).
  rewrite take_app_le by lia. destruct (parse_response_head _ _) as [[[[me ta] ve] hs]|]; [|done].
  rewrite drop_app_le by lia. destruct (get_header hs (str "Content-Length")) as [cl|].
  - destruct (parse_uint64 cl) as [v|]; [|done]. destruct (Z.ltb_spec kMaxBodySize v); [done|]. cbv zeta in *.
    destruct (Nat.ltb_spec (length buffer) (h + Z.to_nat v)); [injection Hr as <-; done|].
    rewrite length_app. destruct (Nat.ltb_spec (length buffer + length x) (h + Z.to_nat v)); [lia|].
    rewrite take_app_le by (rewrite length_drop; lia). done.
  - destruct (get_header hs _); [|done]. destruct (negb _); [done|]. apply bind_Some in Hr as (cr & Hcr & Hr).
    rewrite (parse_chunked_body_ext x _ _ Hcr); [done|]. destruct cr; [done|injection Hr as <-; done|done].
Qed.
End Incremental.

(** ** Messages as they are written on the wire *)

(** No CR and no LF. *)
Definition clean (l : bytes) : Prop := Forall (fun c => c <> CR /\ c <> LF) l.

Global Instance clean_dec l : Decision (clean l).
Proof. unfold clean. apply _. Defined.

(** Lines, each with its CR LF, and the empty line behind them. *)
Definition head_block (lines : list bytes) : bytes := concat ((.++ CRLF) <$> lines) ++ CRLF.

Definition field (h : bytes * bytes) : bytes := h.1 ++ str ": " ++ h.2.

Lemma head_block_cons l ls : head_block (l :: ls) = l ++ CR :: LF :: head_block ls.
Proof. unfold head_block. cbn [fmap list_fmap concat]. by rewrite <- !app_assoc. Qed.

Lemma scan_line l t : forall i f, clean l -> l <> [] ->
  scan_header (l ++ CR :: LF :: t) i f = scan_header t (i + length l + 2) true.
Proof.
  induction l as [|a l IH]; intros i f Hl Hne; [done|]. inversion Hl as [|? ? [Ha1 Ha2] Hl']; subst. destruct l as [|b l].
  - cbn [app length]. rewrite scan_header_cons. rewrite (proj2 (Z.eqb_neq a CR)), (proj2 (Z.eqb_neq a LF)) by done.
    cbn [andb orb]. rewrite andb_false_r, scan_header_cons. done.
  - cbn [app]. rewrite scan_header_cons. rewrite (proj2 (Z.eqb_neq a CR)) by done. cbn [andb].
    change (b :: l ++ CR :: LF :: t) with ((b :: l) ++ CR :: LF :: t). rewrite IH by done. f_equal. cbn [length]. lia.
Qed.

Lemma scan_block lines rest : forall i, Forall (fun l => clean l /\ l <> []) lines ->
  scan_header (head_block lines ++ rest) i true = Some (i + length (head_block lines))%nat.
Proof.
  induction lines as [|l ls IH]; intros i Hl; [done|]. inversion Hl as [|? ? [H1 H2] H3]; subst.
  rewrite head_block_cons, <- app_assoc. cbn [app]. rewrite scan_line by done. rewrite IH by done.
  f_equal. rewrite length_app. cbn [length]. lia.
Qed.

Lemma find_header_end_block line lines rest max : Forall (fun l => clean l /\ l <> []) (line :: lines) ->
  (length (head_block (line :: lines)) <= max)%nat ->
  find_header_end (head_block (line :: lines) ++ rest) max = Found (length (head_block (line :: lines))).
Proof.
  intros Hl Hm. unfold find_header_end. rewrite take_app_ge by done. inversion Hl as [|? ? [H1 H2] H3]; subst.
  rewrite head_block_cons, <- app_assoc. cbn [app]. rewrite scan_line by done. rewrite scan_block by done.
  f_equal. rewrite length_app. cbn [length]. lia.
Qed.

Lemma getlines_line d cur l t : Forall (fun c => c <> d) l -> getlines d cur (l ++ d :: t) = (cur ++ l) :: getlines d [] t.
Proof.
  revert cur. induction l as [|a l IH]; intros cur Hl; cbn [app getlines].
  - by rewrite Z.eqb_refl, app_nil_r.
  - inversion Hl; subst. rewrite (proj2 (Z.eqb_neq a d)) by done. rewrite IH by done. by rewrite <- app_assoc.
Qed.

Lemma getlines_block lines : Forall clean lines -> getlines LF [] (head_block lines) = ((.++ [CR]) <$> lines) ++ [[CR]].
Proof.
  induction 1 as [|l ls Hl Hls IH]; [done|]. rewrite head_block_cons.
  change (l ++ CR :: LF :: head_block ls) with (l ++ [CR] ++ LF :: head_block ls). rewrite app_assoc, getlines_line.
  - by rewrite IH.
  - apply Forall_app. split; [by eapply Forall_impl; [exact Hl|]; intros c [? ?]|by constructor].
Qed.

Lemma strip_cr_line l : strip_cr (l ++ [CR]) = l.
Proof.
  unfold strip_cr. rewrite last_snoc, Z.eqb_refl, length_app. cbn [length].
  replace (length l + 1 - 1)%nat with (length l) by lia. by rewrite take_app_length.
Qed.

Lemma index_of_app c l t : Forall (fun x => x <> c) l -> index_of c (l ++ c :: t) = Some (length l).
Proof.
  induction 1 as [|a l Ha Hl IH]; cbn [app index_of length]; [by rewrite Z.eqb_refl|].
  rewrite (proj2 (Z.eqb_neq a c)) by done. by rewrite IH.
Qed.

(** The characters of a token are none of those that delimit one. *)
Lemma token_char_spec c : is_token_char c = true -> c <> CR /\ c <> LF /\ c <> 58 /\ c <> 32 /\ c <> 9 /\ c <> 44.
Proof.
  intros H. repeat split; intros ->; by vm_compute in H.
Qed.

Lemma token_chars_spec l : forallb is_token_char l = true ->
  clean l /\ Forall (fun x => x <> 58) l /\ Forall (fun x => x <> 32) l.
Proof.
  intros H. pose proof (proj2 (List.Forall_forall (fun c => is_token_char c = true) l) (proj1 (forallb_forall _ _) H)) as Hl. clear H.
  split; [|split]; (eapply Forall_impl; [exact Hl|]); intros c H%token_char_spec; tauto.
Qed.

Lemma skip_ows_idem s : skip_ows (32 :: s) = skip_ows s.
Proof. done. Qed.

Lemma parse_header_field_ok k v hs : is_valid_field_name k = true ->
  parse_header_field (field (k, v)) hs = Some (add_field hs k (trim_ows v)).
Proof.
  intros Hk. unfold is_valid_field_name in Hk. destruct k as [|c0 k0] eqn:Ek; [done|]. rewrite <- Ek in *.
  pose proof (token_chars_spec k Hk) as (_ & H58 & _). unfold parse_header_field, field. cbn [fst snd].
  change (str ": " ++ v) with (58 :: 32 :: v). rewrite index_of_app by done. cbn [mbind option_bind].
  rewrite (proj2 (Nat.eqb_neq (length k) 0)) by (by rewrite Ek).
  assert (Hn : is_token_char (nth_byte (k ++ 58 :: 32 :: v) (length k - 1)) = true).
  { unfold nth_byte. rewrite app_nth1 by (rewrite Ek; cbn; lia). apply (proj1 (forallb_forall _ _) Hk), nth_In. rewrite Ek. cbn. lia. }
  apply token_char_spec in Hn. unfold is_ows. rewrite (proj2 (Z.eqb_neq _ 32)), (proj2 (Z.eqb_neq _ 9)) by tauto. cbn [orb].
  rewrite take_app_length, Hk. cbn [negb]. replace (length k + 1)%nat with (length (k ++ [58])) by (rewrite length_app; cbn; lia).
  change (58 :: 32 :: v) with ([58] ++ 32 :: v). rewrite app_assoc, drop_app_length. unfold trim_ows.
  by rewrite skip_ows_idem.
Qed.

Lemma add_field_new hs k v : k ∉ hs.*1 -> add_field hs k v = hs ++ [(k, v)].
Proof.
  induction hs as [|[k' v'] hs IH]; cbn; [done|]. rewrite not_elem_of_cons. intros [H1 H2].
  rewrite bool_decide_eq_false_2 by done. by rewrite IH.
Qed.

(** A field whose line goes through the parser. *)
Definition field_ok (h : bytes * bytes) : Prop := is_valid_field_name h.1 = true /\ clean h.2.

Lemma field_line_ok h : field_ok h -> clean (field h) /\ field h <> [].
Proof.
  destruct h as [k v]. intros [Hk Hv]. cbn [fst snd] in *. unfold field. cbn [fst snd]. destruct k as [|c k]; [done|].
  split; [|done]. apply Forall_app. split; [by apply (token_chars_spec (c :: k))|].
  change (str ": " ++ v) with (58 :: 32 :: v). by repeat constructor.
Qed.

Definition trim_field (h : bytes * bytes) : bytes * bytes := (h.1, trim_ows h.2).

Lemma parse_headers_ok hs : forall n acc, Forall field_ok hs -> NoDup (acc.*1 ++ hs.*1) -> (n + length hs <= kMaxHeaders)%nat ->
  parse_headers (((.++ [CR]) ∘ field <$> hs) ++ [[CR]]) n acc = Some (acc ++ (trim_field <$> hs)).
Proof.
  induction hs as [|[k v] hs IH]; intros n acc Hok Hnd Hc; cbn [fmap list_fmap app parse_headers compose].
  - cbn. by rewrite app_nil_r.
  - inversion Hok as [|? ? Hf Hok']; subst. rewrite strip_cr_line. destruct (field (k, v)) as [|c0 l0] eqn:Ef.
    { by apply field_line_ok in Hf as [_ ?]. } rewrite <- Ef. cbn in Hc.
    destruct (Nat.ltb_spec kMaxHeaders (S n)); [lia|]. rewrite parse_header_field_ok by apply Hf. cbn [mbind option_bind].
    cbn [fmap list_fmap] in Hnd. assert (Hnk : k ∉ acc.*1).
    { apply NoDup_app in Hnd as (_ & Hd & _). intros Hin. apply (Hd k Hin). by left. }
    rewrite add_field_new by done. rewrite IH; [|done| |lia].
    + f_equal. rewrite <- app_assoc. done.
    + rewrite fmap_app. cbn. by rewrite <- app_assoc.
Qed.

(** *** Chunked bodies *)

Definition chunk_wire (c : bytes) : bytes := to_hex (#c) ++ CRLF ++ c ++ CRLF.
Definition chunked_wire (cs : list bytes) : bytes := concat (chunk_wire <$> cs) ++ str "0" ++ CRLF ++ CRLF.

Lemma parse_hex_char v saw d acc : 0 <= d < 16 -> 0 <= v -> v * 16 + d < 2 ^ 64 ->
  parse_hex v saw (hex_char d :: acc) = parse_hex (v * 16 + d) true acc.
Proof.
  intros Hd Hv Hb. cbn [parse_hex]. assert (Hx : ((UINT64_MAX - d) / 16 <? v) = false).
  { apply Z.ltb_ge. unfold UINT64_MAX. apply Z.div_le_lower_bound; lia. }
  unfold hex_char, is_digit. destruct (Z.ltb_spec d 10).
  - replace (48 + d =? 59) with false by lia. replace ((48 <=? 48 + d) && (48 + d <=? 57)) with true by lia.
    cbn [mbind option_bind]. replace (48 + d - 48) with d by lia. by rewrite Hx, u64_small by (unfold u64_ok; lia).
  - replace (87 + d =? 59) with false by lia. replace ((48 <=? 87 + d) && (87 + d <=? 57)) with false by lia.
    replace ((97 <=? 87 + d) && (87 + d <=? 102)) with true by lia. cbn [mbind option_bind].
    replace (10 + (87 + d - 97)) with d by lia. by rewrite Hx, u64_small by (unfold u64_ok; lia).
Qed.

Lemma parse_hex_digits fuel : forall n saw acc, 0 <= n < 16 ^ Z.of_nat fuel -> n < 2 ^ 64 -> (0 < fuel)%nat ->
  parse_hex 0 saw (hex_digits fuel n acc) = parse_hex n true acc.
Proof.
  induction fuel as [|fuel IH]; intros n saw acc Hn Hb Hf; [lia|]. cbn [hex_digits].
  destruct (Z.ltb_spec n 16).
  - rewrite Z.mod_small by lia. rewrite parse_hex_char by lia. done.
  - rewrite Nat2Z.inj_succ, Z.pow_succ_r in Hn by lia. assert (Hq : 0 <= n / 16 < 16 ^ Z.of_nat fuel).
    { split; [apply Z.div_pos; lia|]. apply Z.div_lt_upper_bound; lia. }
    pose proof (Z.mod_pos_bound n 16 ltac:(lia)). pose proof (Z.div_mod n 16 ltac:(lia)).
    rewrite IH; [|done|lia|]. 2: { destruct fuel; [cbn in Hq; lia|lia]. }
    rewrite parse_hex_char by lia. f_equal. lia.
Qed.

Lemma parse_to_hex n : 0 <= n < 2 ^ 64 -> parse_chunk_size (to_hex n) = Some n.
Proof. intros Hn. unfold parse_chunk_size, to_hex. rewrite parse_hex_digits; [done|done|lia|lia]. Qed.

Lemma hex_digits_chars fuel : forall n acc, 0 <= n -> (length (hex_digits fuel n acc) <= fuel + length acc)%nat /\
  (clean acc -> clean (hex_digits fuel n acc)).
Proof.
  induction fuel as [|fuel IH]; intros n acc Hn; [done|]. cbn [hex_digits].
  assert (Hc : clean acc -> clean (hex_char (n mod 16) :: acc)).
  { pose proof (Z.mod_pos_bound n 16 ltac:(lia)). constructor; [|done]. unfold hex_char, CR, LF. case_match; lia. }
  case_match; [split; [cbn; lia|done]|]. destruct (IH (n / 16) (hex_char (n mod 16) :: acc)) as [H1 H2]; [apply Z.div_pos; lia|].
  split; [cbn in H1; lia|auto].
Qed.

Lemma find_crlf_line l t : forall n, clean l -> (n + length l <= chunk_line_max + 1)%nat ->
  find_crlf (l ++ CR :: LF :: t) n = LineFound (n + length l).
Proof.
  induction l as [|a l IH]; intros n Hl Hn.
  - cbn [app length]. rewrite find_crlf_cons, Nat.add_0_r. done.
  - inversion Hl as [|? ? [Ha _] Hl']; subst. cbn [length] in *.
    assert (E : forall b u, find_crlf (a :: b :: u) n = find_crlf (b :: u) (S n)).
    { intros b u. rewrite find_crlf_cons, (proj2 (Z.eqb_neq a CR)) by done. cbn [andb].
      destruct (Nat.ltb_spec chunk_line_max n); [lia|done]. }
    cbn [app]. destruct l as [|b l]; cbn [app]; rewrite E.
    + rewrite find_crlf_cons. cbn. f_equal. lia.
    + change (b :: l ++ CR :: LF :: t) with ((b :: l) ++ CR :: LF :: t). rewrite IH by (done || lia). f_equal. lia.
Qed.

(** The sizes the parser accepts. *)
Definition chunk_ok (c : bytes) : Prop := 0 < #c <= kMaxChunkSize.

Lemma chunk_step_wire pos c t body : chunk_ok c -> #body + #c <= kMaxBodySize ->
  chunk_step (pos, chunk_wire c ++ t, body) = inl ((pos + length (chunk_wire c))%nat, t, body ++ c).
Proof.
  intros Hc Hb. unfold chunk_ok, kMaxChunkSize in Hc. pose proof (hex_digits_chars 16 (#c) [] ltac:(lia)) as [Hlen Hcl].
  rewrite chunk_step_eq. unfold chunk_wire. rewrite <- !app_assoc. change (CRLF ++ c ++ CRLF ++ t) with (CR :: LF :: c ++ CR :: LF :: t).
  rewrite find_crlf_line; [|by apply Hcl, Forall_nil|unfold chunk_line_max, to_hex; cbn [length] in Hlen; lia].
  cbn [Nat.add]. rewrite take_app_length, parse_to_hex by lia.
  replace (length (to_hex (#c)) + 2)%nat with (length (to_hex (#c) ++ CRLF)) by (rewrite length_app; cbn; lia).
  change (CR :: LF :: c ++ CR :: LF :: t) with (CRLF ++ c ++ CR :: LF :: t). rewrite (app_assoc (to_hex _) CRLF), drop_app_length.
  unfold chunk_data. cbv zeta. destruct (Z.ltb_spec kMaxChunkSize (#c)); [unfold kMaxChunkSize in *; lia|].
  rewrite (proj2 (Z.eqb_neq (#c) 0)) by lia. rewrite Nat2Z.id. destruct (Nat.ltb_spec (length (c ++ CR :: LF :: t)) (length c + 2)).
  { rewrite length_app in *. cbn in *. lia. }
  destruct (Z.ltb_spec kMaxBodySize (#body + #c)); [lia|]. rewrite drop_app_length, take_app_length, !Z.eqb_refl. cbn [andb].
  do 3 f_equal. rewrite !length_app. cbn [length CRLF]. lia.
Qed.

Lemma chunk_step_last pos rest body :
  chunk_step (pos, str "0" ++ CRLF ++ CRLF ++ rest, body) = inr (Some (Success body (pos + 5))).
Proof.
  rewrite chunk_step_eq. change (str "0" ++ CRLF ++ CRLF ++ rest) with ([48] ++ CR :: LF :: CR :: LF :: rest).
  rewrite find_crlf_line; [|by repeat constructor|unfold chunk_line_max; cbn [length]; lia].
  cbn [Nat.add length app take drop]. change (parse_chunk_size [48]) with (Some 0). unfold chunk_data. cbv zeta.
  cbn [Z.ltb Z.eqb Z.compare kMaxChunkSize Z.mul Pos.mul]. unfold skip_trailers. cbn [length loop trailer_step]. rewrite !Z.eqb_refl.
  cbn [andb]. do 3 f_equal. lia.
Qed.

Lemma chunk_loop cs rest : forall fuel pos body, Forall chunk_ok cs -> #body + #(concat cs) <= kMaxBodySize ->
  (length cs < fuel)%nat ->
  loop chunk_step fuel (pos, chunked_wire cs ++ rest, body) =
    Some (Some (Success (body ++ concat cs) (pos + length (chunked_wire cs)))).
Proof.
  induction cs as [|c cs IH]; intros fuel pos body Hc Hb Hf; (destruct fuel as [|fuel]; [cbn in Hf; lia|]); cbn [loop].
  - unfold chunked_wire. cbn [fmap list_fmap concat app]. rewrite <- !app_assoc, chunk_step_last. by rewrite app_nil_r.
  - inversion Hc; subst. unfold chunked_wire. cbn [fmap list_fmap concat app]. rewrite <- (app_assoc (chunk_wire c)), <- (app_assoc (chunk_wire c)).
    cbn [concat] in Hb. rewrite length_app in Hb. rewrite chunk_step_wire by (done || lia). fold (chunked_wire cs).
    rewrite IH; [|done|rewrite length_app; lia|cbn in Hf; lia]. rewrite <- app_assoc. do 3 f_equal.
    rewrite (length_app (chunk_wire c)). fold (chunked_wire cs). lia.
Qed.

Lemma chunk_wire_pos c : (0 < length (chunk_wire c))%nat.
Proof. unfold chunk_wire. rewrite !length_app. cbn. lia. Qed.

Lemma parse_chunked_wire cs rest : Forall chunk_ok cs -> #(concat cs) <= kMaxBodySize ->
  parse_chunked_body (chunked_wire cs ++ rest) = Some (Success (concat cs) (length (chunked_wire cs))).
Proof.
  intros Hc Hb. unfold parse_chunked_body. rewrite chunk_loop; [done|done|cbn; lia|].
  rewrite length_app. unfold chunked_wire. rewrite length_app. assert (H : (length cs <= length (concat (chunk_wire <$> cs)))%nat).
  { clear. induction cs as [|c cs IH]; [done|]. cbn [fmap list_fmap concat length]. rewrite length_app. pose proof (chunk_wire_pos c). unfold fmap in *. lia. }
  lia.
Qed.

(** *** Framing *)

#[local] Arguments str : simpl never.

Abbreviation is_cl k := (ascii_iequals k (str "Content-Length")) (only parsing).
Abbreviation is_te k := (ascii_iequals k (str "Transfer-Encoding")) (only parsing).

(** The three ways the headers of a message delimit its body, with the body
    and its image on the wire. *)
Inductive framed (hs : header_map) : bytes -> bytes -> Prop :=
  | framed_none : Forall (fun h => is_cl h.1 = false /\ is_te h.1 = false) hs -> framed hs [] []
  | framed_length body : Forall (fun h => is_te h.1 = false /\ (is_cl h.1 = true -> h.2 = to_string (#body))) hs ->
      Exists (fun h => is_cl h.1 = true) hs -> #body <= kMaxBodySize -> framed hs body body
  | framed_chunked cs : Forall (fun h => is_cl h.1 = false /\ (is_te h.1 = true -> last_coding h.2 = str "chunked")) hs ->
      Exists (fun h => is_te h.1 = true) hs -> Forall chunk_ok cs -> #(concat cs) <= kMaxBodySize ->
      framed hs (concat cs) (chunked_wire cs).

Global Instance framed_proper : Proper (Permutation ==> eq ==> eq ==> iff) framed.
Proof.
  enough (H : forall hs hs' b w, hs ≡ₚ hs' -> framed hs b w -> framed hs' b w).
  { intros hs hs' Hp b ? <- w ? <-. split; by apply H. }
  intros hs hs' b w Hp Hf. destruct Hf; [apply framed_none|apply framed_length|apply framed_chunked]; try done;
    by rewrite <- Hp.
Qed.

Lemma ascii_iequals_refl k : ascii_iequals k k = true.
Proof. induction k as [|c k IH]; [done|]. cbn. by rewrite Z.eqb_refl. Qed.

Lemma get_header_elem hs n v : get_header hs n = Some v -> exists k, (k, v) ∈ hs /\ ascii_iequals k n = true.
Proof.
  unfold get_header, get_header_case_insensitive. destruct (find_exact hs n) eqn:E.
  - intros [= ->]. induction hs as [|[k' v'] hs IH]; [done|]. cbn in E. case_bool_decide.
    + simplify_eq. exists n. split; [left|apply ascii_iequals_refl].
    + destruct (IH E) as (k & Hk & ?). exists k. split; [by right|done].
  - clear E. induction hs as [|[k' v'] hs IH]; [done|]. cbn. destruct (ascii_iequals k' n) eqn:Ek.
    + intros [= ->]. exists k'. split; [left|done].
    + intros E. destruct (IH E) as (k & Hk & ?). exists k. split; [by right|done].
Qed.

Lemma get_header_none hs n : Forall (fun h => ascii_iequals h.1 n = false) hs -> get_header hs n = None.
Proof.
  intros H. destruct (get_header hs n) as [v|] eqn:E; [|done]. apply get_header_elem in E as (k & Hin & Hk).
  rewrite Forall_forall in H. specialize (H _ Hin). cbn in H. congruence.
Qed.

Lemma find_iequals_exists hs n : Exists (fun h => ascii_iequals h.1 n = true) hs -> is_Some (find_iequals hs n).
Proof.
  induction 1 as [[k v] hs H|[k v] hs H IH]; cbn in *; [rewrite H; by eexists|]. case_match; [by eexists|done].
Qed.

Lemma get_header_exists hs n : Exists (fun h => ascii_iequals h.1 n = true) hs -> is_Some (get_header hs n).
Proof.
  intros H%find_iequals_exists. unfold get_header, get_header_case_insensitive. by destruct (find_exact hs n).
Qed.

Lemma framing_scan_ok hs tok : forall i cl te,
  Forall (fun h => is_cl h.1 = true -> h.2 = tok) hs -> (forall j v, cl = Some (j, v) -> v = tok) ->
  exists cl' te', framing_scan hs i cl te = Some (cl', te') /\
    (cl' = cl /\ Forall (fun h => is_cl h.1 = false) hs \/
     exists j k, cl' = Some ((i + j)%nat, tok) /\ hs !! j = Some (k, tok) /\ is_cl k = true) /\
    (te' = te /\ Forall (fun h => is_cl h.1 = false -> is_te h.1 = false) hs \/
     exists k v, te' = Some v /\ (k, v) ∈ hs /\ is_te k = true).
Proof.
  induction hs as [|[k v] hs IH]; intros i cl te Hcl Hc; cbn [framing_scan].
  { exists cl, te. split; [done|]. split; left; split; done || constructor. }
  inversion Hcl as [|? ? Hk Hcl']; subst. cbn in Hk. destruct (is_cl k) eqn:Ek.
  - specialize (Hk eq_refl) as ->.
    assert (E : match cl with
                | Some (_, v) => if bool_decide (v = tok) then framing_scan hs (S i) (Some (i, tok)) te else None
                | None => framing_scan hs (S i) (Some (i, tok)) te
                end = framing_scan hs (S i) (Some (i, tok)) te).
    { destruct cl as [[j w]|]; [|done]. rewrite (Hc j w eq_refl). by rewrite bool_decide_eq_true_2. }
    rewrite E. destruct (IH (S i) (Some (i, tok)) te Hcl') as (cl' & te' & -> & H1 & H2); [by intros ? ? [= _ <-]|].
    exists cl', te'. split; [done|]. split.
    + right. destruct H1 as [[-> _]|(j & k' & -> & Hj)]; [exists O, k; split; [do 2 f_equal; lia|by split]|].
      exists (S j), k'. split; [do 2 f_equal; lia|done].
    + destruct H2 as [[-> H2]|(k' & v' & -> & H2 & H3)]; [left; split; [done|]; constructor; [cbn; congruence|done]|].
      right. exists k', v'. split; [done|]. split; [by right|done].
  - destruct (is_te k) eqn:Et.
    + destruct (IH (S i) cl (Some v) Hcl' Hc) as (cl' & te' & -> & H1 & H2). exists cl', te'. split; [done|]. split.
      * destruct H1 as [[-> H1]|(j & k' & -> & Hj)]; [left; split; [done|by constructor]|].
        right. exists (S j), k'. split; [do 2 f_equal; lia|done].
      * right. destruct H2 as [[-> _]|(k' & v' & -> & H2 & H3)]; [exists k, v; split; [done|split; [left|done]]|].
        exists k', v'. split; [done|]. split; [by right|done].
    + destruct (IH (S i) cl te Hcl' Hc) as (cl' & te' & -> & H1 & H2). exists cl', te'. split; [done|]. split.
      * destruct H1 as [[-> H1]|(j & k' & -> & Hj)]; [left; split; [done|by constructor]|].
        right. exists (S j), k'. split; [do 2 f_equal; lia|done].
      * destruct H2 as [[-> H2]|(k' & v' & -> & H2 & H3)]; [left; split; [done|by constructor]|].
        right. exists k', v'. split; [done|]. split; [by right|done].
Qed.

Lemma split_on_none d s : forall cur, Forall (fun c => c <> d) s -> split_on d cur s = [cur ++ s].
Proof.
  induction s as [|c s IH]; intros cur Hs; cbn [split_on]; [by rewrite app_nil_r|]. inversion Hs; subst.
  rewrite (proj2 (Z.eqb_neq c d)) by done. rewrite IH by done. by rewrite <- app_assoc.
Qed.

Lemma skip_ows_digits s : Forall (fun c => is_digit c = true) s -> skip_ows s = s.
Proof.
  destruct 1 as [|c s Hc Hs]; [done|]. cbn. unfold is_digit in Hc. unfold is_ows.
  by replace ((c =? 32) || (c =? 9)) with false by lia.
Qed.

Lemma trim_ows_digits s : Forall (fun c => is_digit c = true) s -> trim_ows s = s.
Proof.
  intros H. unfold trim_ows. rewrite (skip_ows_digits s) by done. rewrite skip_ows_digits; [apply rev_involutive|].
  by apply Forall_rev.
Qed.

Lemma to_string_digits n : 0 <= n < 2 ^ 64 -> to_string n <> [] /\ Forall (fun c => is_digit c = true) (to_string n).
Proof.
  intros Hn. unfold to_string. rewrite (proj2 (Z.ltb_ge n 0)) by lia.
  destruct (digits_spec 20 n []) as (ds & -> & Hne & Hd & Hv); [split; [lia|]|lia|].
  { apply (Z.lt_le_trans _ (2 ^ 64)); [lia|]. vm_compute. congruence. }
  rewrite app_nil_r. split; [done|]. apply List.Forall_forall. by apply forallb_forall.
Qed.

Lemma length_token_digits tok : tok <> [] -> Forall (fun c => is_digit c = true) tok -> length_token tok = Some tok.
Proof.
  intros Hne Hd. unfold length_token. rewrite split_on_none by (eapply Forall_impl; [exact Hd|]; intros c H ->; done).
  cbn [app fmap list_fmap]. rewrite trim_ows_digits by done. cbn [forallb]. rewrite bool_decide_eq_false_2 by done.
  assert (Hf : forallb is_digit tok = true) by (apply forallb_forall; by apply List.Forall_forall). by rewrite Hf.
Qed.

Lemma set_value_same hs i k v : hs !! i = Some (k, v) -> set_value hs i v = hs.
Proof. intros H. unfold set_value. rewrite H. by apply list_insert_id. Qed.

Lemma validate_framed hs b w : framed hs b w -> validate_framing_headers hs = Some hs.
Proof.
  intros Hf. unfold validate_framing_headers. destruct Hf as [H|body H _ Hb|cs H Hex _ _]; rewrite Forall_forall in H.
  - destruct (framing_scan_ok hs [] 0 None None) as (cl & te & -> & H1 & H2); [|done|].
    { apply Forall_forall. intros h Hh Hk. destruct (H h Hh). congruence. }
    cbn [mbind option_bind]. destruct H1 as [[-> _]|(j & k & _ & Hj%list_elem_of_lookup_2 & Hk)].
    2: { destruct (H _ Hj) as [E _]. cbn in E. congruence. }
    destruct H2 as [[-> _]|(k & v & -> & Hj & Hk)]; [done|]. destruct (H _ Hj) as [_ E]. cbn in E. congruence.
  - destruct (to_string_digits (#body)) as [Ht1 Ht2]; [unfold kMaxBodySize in *; lia|].
    destruct (framing_scan_ok hs (to_string (#body)) 0 None None) as (cl & te & -> & H1 & H2); [|done|].
    { apply Forall_forall. intros h Hh Hk. by apply (H h Hh). }
    cbn [mbind option_bind]. assert (Hte : te = None).
    { destruct H2 as [[-> _]|(k & v & -> & Hj & Hk)]; [done|]. destruct (H _ Hj) as [E _]. cbn in E. congruence. }
    subst te. destruct H1 as [[-> _]|(j & k & -> & Hj & Hk)]; [done|]. rewrite length_token_digits by done.
    cbn [mbind option_bind Nat.add]. by rewrite (set_value_same _ _ _ _ Hj).
  - destruct (framing_scan_ok hs [] 0 None None) as (cl & te & -> & H1 & H2); [|done|].
    { apply Forall_forall. intros h Hh Hk. destruct (H h Hh). congruence. }
    cbn [mbind option_bind]. destruct H1 as [[-> _]|(j & k & _ & Hj%list_elem_of_lookup_2 & Hk)].
    2: { destruct (H _ Hj) as [E _]. cbn in E. congruence. }
    destruct H2 as [[-> _]|(k & v & -> & Hj & Hk)]; [done|]. destruct (H _ Hj) as [_ E]. cbn in E.
    by rewrite bool_decide_eq_true_2 by (by apply E).
Qed.

(** What the body parsers of requests and responses find out. *)
Lemma framed_lookup hs b w : framed hs b w ->
  (get_header hs (str "Content-Length") = None /\ get_header hs (str "Transfer-Encoding") = None /\ b = [] /\ w = []) \/
  (get_header hs (str "Content-Length") = Some (to_string (#b)) /\ w = b /\ #b <= kMaxBodySize) \/
  (get_header hs (str "Content-Length") = None /\
   exists te cs, get_header hs (str "Transfer-Encoding") = Some te /\ last_coding te = str "chunked" /\
     b = concat cs /\ w = chunked_wire cs /\ Forall chunk_ok cs /\ #(concat cs) <= kMaxBodySize).
Proof.
  destruct 1 as [H|body H Hex Hb|cs H Hex Hc Hb]; [left|right; left|right; right].
  - split; [|split; [|done]]; apply get_header_none; (eapply Forall_impl; [exact H|]); by intros h [? ?].
  - destruct (get_header_exists hs _ Hex) as [v Hv]. split; [|done]. rewrite Hv. f_equal.
    apply get_header_elem in Hv as (k & Hin & Hk). rewrite Forall_forall in H. by apply (H _ Hin).
  - split; [apply get_header_none; (eapply Forall_impl; [exact H|]); by intros h [? ?]|].
    destruct (get_header_exists hs _ Hex) as [te Hte]. exists te, cs. split; [done|].
    apply get_header_elem in Hte as (k & Hin & Hk). rewrite Forall_forall in H. split; [by apply (H _ Hin)|done].
Qed.

(** *** Whole messages *)

Definition request_line (r : HTTPRequest) : bytes :=
  method r ++ str " " ++ request_target r ++ str " HTTP/" ++ version r.

(** A request as a client writes it, [w] being the image of its body. *)
Definition request_head (r : HTTPRequest) : bytes := head_block (request_line r :: (field <$> headers r)).
Definition request_wire (r : HTTPRequest) (w : bytes) : bytes := request_head r ++ w.

Record request_ok (r : HTTPRequest) (w : bytes) : Prop := {
  rq_method : forallb is_token_char (method r) = true;
  rq_target : clean (request_target r) /\ Forall (fun c => c <> 32) (request_target r);
  rq_version : clean (version r);
  rq_fields : Forall field_ok (headers r);
  rq_names : NoDup (headers r).*1;
  rq_count : (length (headers r) <= kMaxHeaders)%nat;
  rq_framed : framed (trim_field <$> headers r) (body r) w;
  rq_size : (length (request_head r) <= kMaxHeaderBytes)%nat
}.

Lemma drop_delim {A} (l : list A) c t : drop (length l + 1) (l ++ c :: t) = t.
Proof. rewrite drop_app_ge by lia. by replace (length l + 1 - length l)%nat with 1%nat by lia. Qed.

Lemma parse_request_line_ok r : forallb is_token_char (method r) = true -> Forall (fun c => c <> 32) (request_target r) ->
  parse_request_line (request_line r) = Some (method r, request_target r, version r).
Proof.
  intros Hm Ht. unfold parse_request_line, request_line. pose proof (token_chars_spec _ Hm) as (_ & _ & H32).
  change (str " " ++ request_target r ++ str " HTTP/" ++ version r) with (32 :: request_target r ++ 32 :: str "HTTP/" ++ version r).
  rewrite index_of_app by done. cbn [mbind option_bind]. rewrite take_app_length, Hm. cbn [negb].
  rewrite drop_delim, index_of_app by done. cbn [mbind option_bind].
  by rewrite take_app_length, drop_delim.
Qed.

Lemma head_lines_ok line hs : clean line -> line <> [] -> Forall field_ok hs ->
  Forall (fun l => clean l /\ l <> []) (line :: (field <$> hs)).
Proof.
  intros H1 H2 H3. constructor; [done|]. apply Forall_fmap. eapply Forall_impl; [exact H3|]. intros h. apply field_line_ok.
Qed.

(** The lines of a block built from a first line and fields. *)
Lemma block_lines line hs : clean line -> Forall field_ok hs ->
  getlines LF [] (head_block (line :: (field <$> hs))) = (line ++ [CR]) :: ((.++ [CR]) ∘ field <$> hs) ++ [[CR]].
Proof.
  intros H1 H3. rewrite getlines_block.
  - cbn [fmap list_fmap app]. do 2 f_equal. by rewrite <- list_fmap_compose.
  - constructor; [done|]. apply Forall_fmap. eapply Forall_impl; [exact H3|]. intros h Hh. by apply field_line_ok.
Qed.

Section Wire.
Context (order : header_map -> header_map).
Hypothesis order_perm : forall l, order l ≡ₚ l.

(** The headers of a block, as the parser stores them. *)
Lemma parse_fields_ok hs b w : Forall field_ok hs -> NoDup hs.*1 -> (length hs <= kMaxHeaders)%nat ->
  framed (trim_field <$> hs) b w ->
  exists hs0, parse_headers (((.++ [CR]) ∘ field <$> hs) ++ [[CR]]) 0 [] = Some hs0 /\ hs0 = trim_field <$> hs /\
    validate_framing_headers (order hs0) = Some (order hs0) /\ framed (order hs0) b w.
Proof.
  intros H1 H2 H3 Hf. exists (trim_field <$> hs). rewrite parse_headers_ok by (done || cbn; lia).
  split; [done|]. split; [done|]. assert (Ho : framed (order (trim_field <$> hs)) b w) by (by rewrite order_perm).
  split; [by eapply validate_framed|done].
Qed.

Lemma parse_request_wire r w rest : request_ok r w ->
  parse_request order (request_wire r w ++ rest) =
    Some (Success (mkRequest (method r) (request_target r) (version r) (order (trim_field <$> headers r)) (body r))
                  (length (request_wire r w))).
Proof.
  intros [Hm [Ht1 Ht2] Hv Hf Hn Hc Hfr Hs].
  assert (Hl : clean (request_line r) /\ request_line r <> []).
  { split; [|unfold request_line; by destruct (method r)]. unfold request_line. apply Forall_app. split; [by apply token_chars_spec|].
    apply Forall_app. split; [by repeat constructor|]. apply Forall_app. split; [done|]. apply Forall_app. split; [|done].
    by repeat constructor. }
  destruct Hl as [Hl1 Hl2]. unfold parse_request, request_wire. rewrite <- app_assoc. unfold request_head in *.
  rewrite find_header_end_block; [|by apply head_lines_ok|done]. rewrite take_app_length. unfold parse_request_head.
  rewrite block_lines by done. rewrite strip_cr_line, parse_request_line_ok by done. cbn [mbind option_bind].
  destruct (parse_fields_ok (headers r) (body r) w Hf Hn Hc Hfr) as (hs0 & -> & -> & Hval & Hfr').
  cbn [mbind option_bind]. rewrite Hval. cbn [mbind option_bind].
  destruct (framed_lookup _ _ _ Hfr') as [(E1 & E2 & E3 & E4)|[(E1 & E2 & Hb)|(E1 & te & cs & E2 & E3 & E4 & E5 & Hcs & Hb)]].
  - unfold get_content_length, is_chunked. rewrite E1, E2, E3, E4. cbn [mbind option_bind]. by rewrite app_nil_r.
  - unfold get_content_length. rewrite E1. cbn [mbind option_bind]. unfold kMaxBodySize in *. rewrite parse_to_string by lia.
    destruct (Z.ltb_spec (64 * 1024 * 1024) (#(body r))); [lia|]. cbv zeta. rewrite Nat2Z.id, E2.
    destruct (Nat.ltb_spec (length (head_block (request_line r :: (field <$> headers r)) ++ body r ++ rest))
       (length (head_block (request_line r :: (field <$> headers r))) + length (body r))); [rewrite !length_app in *; lia|].
    by rewrite drop_app_length, take_app_length, length_app.
  - unfold get_content_length, is_chunked. rewrite E1, E2. cbn [mbind option_bind]. rewrite bool_decide_eq_true_2 by done.
    rewrite drop_app_length, E5, parse_chunked_wire by done. cbn [mbind option_bind]. by rewrite E4, length_app.
Qed.

Definition status_text (version : bytes) (code : Z) (reason : bytes) : bytes :=
  str "HTTP/" ++ version ++ str " " ++ to_string code ++ str " " ++ reason.

Lemma parse_status_line_ok v code reason : Forall (fun c => c <> 32) v -> 0 <= code < 2 ^ 31 ->
  parse_status_line (status_text v code reason) = Some (v, code, reason).
Proof.
  intros Hv Hc. unfold parse_status_line, status_text.
  change (str "HTTP/" ++ v ++ str " " ++ to_string code ++ str " " ++ reason)
    with (str "HTTP/" ++ v ++ 32 :: to_string code ++ 32 :: reason).
  rewrite (take_app_length' (str "HTTP/")), (drop_app_length' (str "HTTP/")) by done. rewrite bool_decide_eq_true_2 by done. cbn [negb].
  rewrite index_of_app by done. cbn [mbind option_bind]. rewrite take_app_length, drop_delim.
  destruct (to_string_digits code) as [_ Hd]; [lia|].
  rewrite index_of_app by (eapply Forall_impl; [exact Hd|]; intros c H ->; done).
  rewrite take_app_length, parse_int_to_string by done. cbn [mbind option_bind]. by rewrite drop_delim.
Qed.

Lemma status_text_ok v code reason : clean v -> clean reason -> 0 <= code < 2 ^ 31 ->
  clean (status_text v code reason) /\ status_text v code reason <> [].
Proof.
  intros Hv Hr Hc. split; [|done]. destruct (to_string_digits code) as [_ Hd]; [lia|]. unfold status_text.
  apply Forall_app. split; [by repeat constructor|]. apply Forall_app. split; [done|]. apply Forall_app. split; [by repeat constructor|].
  apply Forall_app. split; [eapply Forall_impl; [exact Hd|]; intros c H; split; intros ->; done|].
  apply Forall_app. split; [by repeat constructor|done].
Qed.

Lemma parse_response_wire v code reason hs b w rest : clean v -> Forall (fun c => c <> 32) v -> clean reason -> 0 <= code < 2 ^ 31 ->
  Forall field_ok hs -> NoDup hs.*1 -> (length hs <= kMaxHeaders)%nat -> framed (trim_field <$> hs) b w ->
  (length (head_block (status_text v code reason :: (field <$> hs))) <= kMaxHeaderBytes)%nat ->
  parse_response order ((head_block (status_text v code reason :: (field <$> hs)) ++ w) ++ rest) =
    Some (Success (mkResponse v code reason (order (trim_field <$> hs)) b)
                  (length (head_block (status_text v code reason :: (field <$> hs)) ++ w))).
Proof.
  intros Hv Hv' Hr Hc Hf Hn Hl Hfr Hs. destruct (status_text_ok v code reason Hv Hr Hc) as [Hl1 Hl2].
  unfold parse_response. rewrite <- app_assoc. rewrite find_header_end_block; [|by apply head_lines_ok|done].
  rewrite take_app_length. unfold parse_response_head.
  rewrite block_lines by done. rewrite strip_cr_line, parse_status_line_ok by done. cbn [mbind option_bind].
  destruct (parse_fields_ok hs b w Hf Hn Hl Hfr) as (hs0 & -> & -> & Hval & Hfr').
  cbn [mbind option_bind]. rewrite Hval. cbn [mbind option_bind]. set (head := head_block _).
  destruct (framed_lookup _ _ _ Hfr') as [(E1 & E2 & E3 & E4)|[(E1 & E2 & Hb)|(E1 & te & cs & E2 & E3 & E4 & E5 & Hcs & Hb)]]; rewrite E1.
  - rewrite E2, E3, E4. by rewrite app_nil_r.
  - unfold kMaxBodySize in *. rewrite parse_to_string by lia.
    destruct (Z.ltb_spec (64 * 1024 * 1024) (#b)); [lia|]. cbv zeta. rewrite Nat2Z.id, E2.
    destruct (Nat.ltb_spec (length (head ++ b ++ rest)) (length head + length b)); [rewrite !length_app in *; lia|].
    by rewrite drop_app_length, take_app_length, length_app.
  - rewrite E2. rewrite bool_decide_eq_true_2 by done. cbn [negb].
    rewrite drop_app_length, E5, parse_chunked_wire by done. cbn [mbind option_bind]. by rewrite E4, length_app.
Qed.
End Wire.

(** *** What the serialisers write *)

Abbreviation kept hs := (List.filter header_ok hs) (only parsing).

Lemma header_lines_kept hs : header_lines hs = concat ((.++ CRLF) <$> (field <$> kept hs)).
Proof.
  induction hs as [|h hs IH]; [done|]. cbn [header_lines List.filter]. destruct (header_ok h); [|done].
  cbn [fmap list_fmap concat]. rewrite IH. f_equal. unfold header_line, field. by rewrite <- !app_assoc.
Qed.

Lemma status_line_text r : status_line r = status_text (rs_version r) (status_code r) (reason_phrase r) ++ CRLF.
Proof. unfold status_line, status_text. by rewrite <- !app_assoc. Qed.

Lemma head_block_snoc line hs h :
  (line ++ CRLF) ++ concat ((.++ CRLF) <$> (field <$> hs)) ++ (field h ++ CRLF) ++ CRLF = head_block (line :: (field <$> (hs ++ [h]))).
Proof.
  rewrite fmap_app. unfold head_block. cbn [fmap list_fmap concat]. fold (@fmap list _).
  rewrite fmap_app, concat_app. cbn [fmap list_fmap concat]. by rewrite app_nil_r, <- !app_assoc.
Qed.

Definition length_field (r : HTTPResponse) : bytes * bytes := (str "Content-Length", to_string (#(rs_body r))).
Definition coding_field : bytes * bytes := (str "Transfer-Encoding", str "chunked").

(** The responses whose framing is left to the serialiser. *)
Record response_ok (r : HTTPResponse) : Prop := {
  rp_version : clean (rs_version r) /\ Forall (fun c => c <> 32) (rs_version r);
  rp_code : 0 <= status_code r < 2 ^ 31;
  rp_reason : clean (reason_phrase r);
  rp_names : NoDup (rs_headers r).*1;
  rp_framing : Forall (fun h => is_cl h.1 = false /\ is_te h.1 = false) (rs_headers r);
  rp_count : (length (kept (rs_headers r)) < kMaxHeaders)%nat;
  rp_size : (length (status_line r ++ header_lines (rs_headers r)) + 64 <= kMaxHeaderBytes)%nat
}.

Lemma find_exact_absent hs n : Forall (fun h => ascii_iequals h.1 n = false) hs -> find_exact hs n = None.
Proof.
  induction 1 as [|[k v] hs H Hs IH]; [done|]. cbn in *. rewrite bool_decide_eq_false_2; [done|].
  intros ->. by rewrite ascii_iequals_refl in H.
Qed.

Lemma serialize_wire r : response_ok r -> status_forbids_body (status_code r) = false ->
  serialize r = head_block (status_text (rs_version r) (status_code r) (reason_phrase r) ::
                            (field <$> (kept (rs_headers r) ++ [length_field r]))) ++ rs_body r.
Proof.
  intros [_ _ _ _ Hf _ _] Hs. unfold serialize. rewrite Hs, !find_exact_absent by (eapply Forall_impl; [exact Hf|]; by intros h [? ?]).
  rewrite !bool_decide_eq_true_2 by done. cbn [negb andb]. rewrite <- head_block_snoc, status_line_text, header_lines_kept.
  unfold length_field, field at 2. cbn [fst snd]. by rewrite <- !app_assoc.
Qed.

Lemma has_te_false hs : Forall (fun h => is_cl h.1 = false /\ is_te h.1 = false) hs -> has_transfer_encoding hs = false.
Proof.
  induction 1 as [|h hs [_ H] Hs IH]; [done|]. cbn [has_transfer_encoding existsb]. unfold has_transfer_encoding in IH. rewrite IH, orb_false_r.
  rewrite bool_decide_eq_false_2; [apply andb_false_r|]. intros E.
  assert (Hx : forall a b, to_lower a = to_lower b -> ascii_iequals a b = true).
  { clear. induction a as [|x a IH]; intros [|y b] [=]; [done|]. cbn. rewrite H0, Z.eqb_refl. by apply IH. }
  rewrite (Hx h.1 (str "Transfer-Encoding")) in H; [done|]. by rewrite E.
Qed.

Definition body_chunks (b : bytes) : list bytes := match b with [] => [] | _ => [b] end.

Lemma serialize_chunked_wire r : response_ok r ->
  serialize_chunked r = head_block (status_text (rs_version r) (status_code r) (reason_phrase r) ::
                            (field <$> (kept (rs_headers r) ++ [coding_field]))) ++ chunked_wire (body_chunks (rs_body r)).
Proof.
  intros [_ _ _ _ Hf _ _]. unfold serialize_chunked. rewrite has_te_false by done.
  rewrite <- head_block_snoc, status_line_text, header_lines_kept. unfold chunked_wire, body_chunks.
  change (field coding_field) with (str "Transfer-Encoding: chunked"). destruct (rs_body r) eqn:Eb; [by rewrite <- !app_assoc|].
  rewrite <- Eb. cbn [fmap list_fmap concat]. rewrite app_nil_r. unfold chunk_wire. by rewrite <- !app_assoc.
Qed.

Lemma kept_fields hs : Forall field_ok (kept hs).
Proof.
  induction hs as [|[k v] hs IH]; [constructor|]. cbn [List.filter]. destruct (header_ok (k, v)) eqn:E; [|done]. constructor; [|done].
  apply andb_true_iff in E as [Hk Hv]. split; [done|]. unfold is_valid_field_value in Hv. apply List.Forall_forall.
  intros c Hc. apply (proj1 (forallb_forall _ _) Hv) in Hc. apply negb_true_iff in Hc. unfold CR, LF in *. lia.
Qed.

Lemma kept_sub hs : sublist (kept hs) hs.
Proof. induction hs as [|h hs IH]; [constructor|]. cbn [List.filter]. destruct (header_ok h); by constructor. Qed.

(** The kept headers with the framing field the serialiser adds. *)
Lemma kept_snoc r h : response_ok r -> field_ok h -> (is_cl h.1 = true \/ is_te h.1 = true) ->
  Forall field_ok (kept (rs_headers r) ++ [h]) /\ NoDup (kept (rs_headers r) ++ [h]).*1 /\
  (length (kept (rs_headers r) ++ [h]) <= kMaxHeaders)%nat /\
  Forall (fun h => is_cl h.1 = false /\ is_te h.1 = false) (trim_field <$> kept (rs_headers r)).
Proof.
  intros [_ _ _ Hn Hf Hc _] Hh Hk. pose proof (kept_sub (rs_headers r)) as Hs.
  assert (Hf' : Forall (fun h => is_cl h.1 = false /\ is_te h.1 = false) (kept (rs_headers r))).
  { apply List.Forall_forall. intros h' [Hin _]%filter_In. by apply (proj1 (List.Forall_forall _ _) Hf). }
  split; [|split; [|split]].
  - apply Forall_app. split; [apply kept_fields|by constructor].
  - rewrite fmap_app. apply NoDup_app. split; [by eapply sublist_NoDup; [exact Hn|apply fmap_sublist]|]. split; [|apply NoDup_singleton].
    intros k (h' & -> & Hin)%list_elem_of_fmap Hk'. apply list_elem_of_singleton in Hk'.
    rewrite Forall_forall in Hf'. destruct (Hf' _ Hin) as [E1 E2]. rewrite Hk' in *. destruct Hk; congruence.
  - rewrite length_app. cbn. lia.
  - apply Forall_fmap. exact Hf'.
Qed.

Lemma head_size r h : response_ok r -> (length (field h) <= 60)%nat ->
  (length (head_block (status_text (rs_version r) (status_code r) (reason_phrase r) :: (field <$> (kept (rs_headers r) ++ [h])))) <= kMaxHeaderBytes)%nat.
Proof.
  intros [_ _ _ _ _ _ Hs] Hh. rewrite <- head_block_snoc, <- status_line_text, <- header_lines_kept. rewrite !length_app in *. cbn [length CRLF] in *. lia.
Qed.

Lemma digits_length fuel : forall n acc, (length (digits fuel n acc) <= fuel + length acc)%nat.
Proof.
  induction fuel as [|fuel IH]; intros n acc; cbn [digits]; [lia|]. case_match; [cbn; lia|].
  etransitivity; [apply IH|]. cbn. lia.
Qed.

Lemma length_field_ok r : #(rs_body r) <= kMaxBodySize -> field_ok (length_field r) /\ (length (field (length_field r)) <= 60)%nat /\
  trim_field (length_field r) = length_field r.
Proof.
  intros Hb. unfold kMaxBodySize in Hb. destruct (to_string_digits (#(rs_body r))) as [_ Hd]; [lia|]. split; [|split].
  - split; [done|]. eapply Forall_impl; [exact Hd|]. intros c H. split; intros ->; done.
  - unfold field, length_field, to_string. cbn [fst snd]. rewrite (proj2 (Z.ltb_ge _ 0)) by lia. rewrite !length_app.
    pose proof (digits_length 20 (#(rs_body r)) []) as H. change (length (str "Content-Length")) with 14%nat.
    change (length (str ": ")) with 2%nat. cbn [length] in H. lia.
  - unfold trim_field, length_field. cbn [fst snd]. by rewrite trim_ows_digits.
Qed.

Lemma body_chunks_ok b : #b <= kMaxChunkSize -> concat (body_chunks b) = b /\ Forall chunk_ok (body_chunks b).
Proof.
  intros Hb. unfold body_chunks. destruct b as [|c b]; [by split; [|constructor]|]. split; [cbn; by rewrite app_nil_r|].
  constructor; [|constructor]. unfold chunk_ok. cbn [length] in *. lia.
Qed.

(** ** Properties *)

(** Parsing is incremental.  [parse_request] and [parse_response] always
    return; a success or an error they report for a buffer is the one they
    report when more bytes have arrived, so re-parsing the whole buffer after
    every read never revises a verdict. *)
Theorem http_parse_incremental order buffer x :
  (exists r, parse_request order buffer = Some r /\
     match r with Incomplete => True | _ => parse_request order (buffer ++ x) = Some r end) /\
  (exists r, parse_response order buffer = Some r /\
     match r with Incomplete => True | _ => parse_response order (buffer ++ x) = Some r end).
Proof.
  split.
  - destruct (parse_request_total order buffer) as (r & Hr & _). exists r. split; [done|].
    destruct r; [|done|]; by apply parse_request_ext.
  - destruct (parse_response_total order buffer) as (r & Hr & _). exists r. split; [done|].
    destruct r; [|done|]; by apply parse_response_ext.
Qed.

(** What the server writes, a client reads, whatever the application put into
    the headers: the entries with a well-formed name and a value free of CR,
    LF and NUL arrive, the others are dropped, no entry can start a header or
    a message of its own, and the framing field added by the serialiser makes
    the body arrive exactly, with the bytes of the next message left alone. *)
Theorem http_response_roundtrip order r rest : (forall l, order l ≡ₚ l) -> response_ok r ->
  (status_forbids_body (status_code r) = false -> #(rs_body r) <= kMaxBodySize ->
   parse_response order (serialize r ++ rest) =
     Some (Success (mkResponse (rs_version r) (status_code r) (reason_phrase r)
                      (order ((trim_field <$> kept (rs_headers r)) ++ [length_field r])) (rs_body r)) (length (serialize r)))) /\
  (#(rs_body r) <= kMaxChunkSize ->
   parse_response order (serialize_chunked r ++ rest) =
     Some (Success (mkResponse (rs_version r) (status_code r) (reason_phrase r)
                      (order ((trim_field <$> kept (rs_headers r)) ++ [coding_field])) (rs_body r)) (length (serialize_chunked r)))).
Proof.
  intros Ho Hr. split.
  - intros Hs Hb. destruct (length_field_ok r Hb) as (Hf & Hl & Ht). rewrite (serialize_wire r Hr Hs).
    destruct (kept_snoc r (length_field r) Hr Hf) as (H1 & H2 & H3 & H4); [by left|]. destruct (Hr) as [[V1 V2] Hc Hre _ _ _ _].
    rewrite parse_response_wire with (b := rs_body r); try done; [| |by apply head_size].
    + by rewrite fmap_app, list_fmap_singleton, Ht.
    + rewrite fmap_app, list_fmap_singleton, Ht. apply framed_length; [| |done].
      * apply Forall_app. split; [eapply Forall_impl; [exact H4|]; intros h [E1 E2]; split; [done|congruence]|by repeat constructor].
      * apply Exists_app. right. by constructor.
  - intros Hb. rewrite (serialize_chunked_wire r Hr). destruct (body_chunks_ok _ Hb) as [Hcat Hok].
    destruct (kept_snoc r coding_field Hr) as (H1 & H2 & H3 & H4); [by split; [|repeat constructor]|by right|].
    destruct (Hr) as [[V1 V2] Hc Hre _ _ _ _].
    rewrite parse_response_wire with (b := rs_body r); try done; [| |by apply head_size; [|vm_compute; lia]].
    + by rewrite fmap_app, list_fmap_singleton.
    + rewrite fmap_app, list_fmap_singleton. rewrite <- Hcat at 1. apply framed_chunked; [| |done|].
      * apply Forall_app. split; [eapply Forall_impl; [exact H4|]; intros h [E1 E2]; split; [done|congruence]|by repeat constructor].
      * apply Exists_app. right. by constructor.
      * rewrite Hcat. unfold kMaxChunkSize, kMaxBodySize in *. lia.
Qed.

(** A response with an attempt at response splitting in one of its headers. *)
Definition split_attempt : HTTPResponse :=
  mkResponse (str "1.1") 200 (str "OK")
    [(str "X", str "a" ++ CRLF ++ str "Set-Cookie: b"); (str "Server", str "spaznet")] (str "hello").

Lemma http_response_roundtrip_witness :
  parse_response (fun l => l) (serialize split_attempt ++ str "next") =
    Some (Success (mkResponse (str "1.1") 200 (str "OK") [(str "Server", str "spaznet"); (str "Content-Length", str "5")] (str "hello")) 60).
Proof.
  assert (Hr : response_ok split_attempt).
  { split; try done; try (vm_compute; lia).
    - split; by repeat constructor.
    - by repeat constructor.
    - apply (bool_decide_unpack _). by vm_compute.
    - by repeat constructor. }
  etransitivity; [apply (proj1 (http_response_roundtrip (fun l => l) split_attempt (str "next") (fun l => reflexivity l) Hr)); by vm_compute|by vm_compute].
Defined.

(** C35: The parser accepts every well-formed request, in each of the three
    framings (no body, Content-Length, chunked), at the front of any buffer:
    it returns the method, target, version, the trimmed header fields and the
    decoded body, and consumes exactly the bytes of the request. *)
Theorem http_request_accepted order r w rest : (forall l, order l ≡ₚ l) -> request_ok r w ->
  parse_request order (request_wire r w ++ rest) =
    Some (Success (mkRequest (method r) (request_target r) (version r) (order (trim_field <$> headers r)) (body r))
                  (length (request_wire r w))).
Proof. intros Ho Hr. by apply parse_request_wire. Qed.

Definition chunked_post : HTTPRequest :=
  mkRequest (str "POST") (str "/a?b") (str "1.1") [(str "Host", str "x"); (str "transfer-encoding", str " gzip , Chunked")] (str "hello world").

Lemma http_request_accepted_witness :
  parse_request (fun l => rev l) (request_wire chunked_post (chunked_wire [str "hello "; str "world"]) ++ str "GET") =
    Some (Success (mkRequest (str "POST") (str "/a?b") (str "1.1")
      [(str "transfer-encoding", str "gzip , Chunked"); (str "Host", str "x")] (str "hello world")) 93).
Proof.
  etransitivity; [apply (http_request_accepted (fun l => rev l) chunked_post (chunked_wire [str "hello "; str "world"]) (str "GET"));
    [intros l; symmetry; apply Permutation_rev|]|by vm_compute].
  split; try done; try (vm_compute; lia).
  - split; by repeat constructor.
  - by repeat constructor.
  - repeat constructor; by vm_compute.
  - apply (bool_decide_unpack _). by vm_compute.
  - change (body chunked_post) with (concat [str "hello "; str "world"]). apply framed_chunked.
    + repeat constructor; by vm_compute.
    + right. left. by vm_compute.
    + repeat constructor; by vm_compute.
    + by vm_compute.
Defined.

(** *** What an accepted request satisfies *)

Definition named (h : bytes * bytes) : Prop := is_valid_field_name h.1 = true.

Lemma add_field_named hs k v : Forall named hs -> is_valid_field_name k = true ->
  Forall named (add_field hs k v) /\ (length (add_field hs k v) <= S (length hs))%nat.
Proof.
  intros H Hk. induction H as [|[k' v'] hs H1 H2 [IH1 IH2]]; cbn [add_field]; [split; [by repeat constructor|done]|].
  case_bool_decide; [split; [by constructor|cbn; lia]|split; [by constructor|cbn; lia]].
Qed.

Lemma parse_headers_sound lines : forall n hs hs', parse_headers lines n hs = Some hs' -> Forall named hs -> (length hs <= n)%nat ->
  (n <= kMaxHeaders)%nat -> Forall named hs' /\ (length hs' <= kMaxHeaders)%nat.
Proof.
  induction lines as [|l lines IH]; intros n hs hs'; cbn [parse_headers]; [intros [= <-] H1 H2 H3; split; [done|lia]|].
  destruct (strip_cr l) as [|c0 l0] eqn:E; [intros [= <-] H1 H2 H3; split; [done|lia]|]. rewrite <- E.
  destruct (Nat.ltb_spec kMaxHeaders (S n)) as [|Hn]; [done|]. intros H H1 H2 H3. apply bind_Some in H as (hs1 & Hp & H).
  unfold parse_header_field in Hp. apply bind_Some in Hp as (colon & Hc & Hp).
  destruct (Nat.eqb_spec colon 0); [done|]. destruct (is_ows _); [done|]. destruct (forallb is_token_char _) eqn:Et; [|done].
  cbn [negb] in Hp. injection Hp as <-. assert (Hv : is_valid_field_name (take colon (strip_cr l)) = true).
  { unfold is_valid_field_name. rewrite Et, E. by destruct colon. }
  destruct (add_field_named hs _ (trim_ows (drop (colon + 1) (strip_cr l))) H1 Hv). eapply IH; [exact H|done|lia|lia].
Qed.

Lemma ascii_iequals_length a : forall b, ascii_iequals a b = true -> length a = length b.
Proof. induction a as [|x a IH]; intros [|y b]; try done. cbn. intros [_ H]%andb_true_iff. by rewrite (IH b). Qed.

Lemma cl_not_te k : is_cl k = true -> is_te k = true -> False.
Proof. intros H1%ascii_iequals_length H2%ascii_iequals_length. rewrite H1 in H2. by vm_compute in H2. Qed.

Lemma framing_scan_sound hs : forall i cl te cl' te', framing_scan hs i cl te = Some (cl', te') ->
  (cl' = None -> cl = None /\ Forall (fun h => is_cl h.1 = false) hs) /\
  (te' = None -> te = None /\ Forall (fun h => is_te h.1 = false) hs).
Proof.
  induction hs as [|[k v] hs IH]; intros i cl te cl' te'; cbn [framing_scan].
  { intros [= <- <-]. split; intros ->; split; done || constructor. }
  destruct (is_cl k) eqn:Ek.
  - assert (Ht : is_te k = false) by (destruct (is_te k) eqn:Et; [destruct (cl_not_te k Ek Et)|done]).
    destruct cl as [[j w]|]; [destruct (bool_decide _); [|done]|]; intros [H1 H2]%IH;
      (split; [intros [H _]%H1; done|intros [-> H]%H2; split; [done|by constructor]]).
  - destruct (is_te k) eqn:Et; intros [H1 H2]%IH; (split; [intros [-> H]%H1; split; [done|by constructor]|]);
      intros [Hn H]%H2; [done|]. split; [done|by constructor].
Qed.

Lemma set_value_keys hs i v : (set_value hs i v).*1 = hs.*1.
Proof.
  unfold set_value. destruct (hs !! i) as [[k w]|] eqn:E; [|done]. rewrite list_fmap_insert. cbn. apply list_insert_id.
  by rewrite list_lookup_fmap, E.
Qed.

Lemma Forall_keys {P : bytes -> Prop} (hs hs' : header_map) : hs'.*1 = hs.*1 -> Forall (fun h => P h.1) hs -> Forall (fun h => P h.1) hs'.
Proof. intros E H. apply Forall_fmap. rewrite E. by apply Forall_fmap. Qed.

Lemma validate_sound hs hs' : validate_framing_headers hs = Some hs' ->
  hs'.*1 = hs.*1 /\ (Forall (fun h => is_cl h.1 = false) hs' \/ Forall (fun h => is_te h.1 = false) hs').
Proof.
  unfold validate_framing_headers. intros H. apply bind_Some in H as ([cl te] & Hs & H). cbn beta iota in H.
  apply framing_scan_sound in Hs as [H1 H2]. apply bind_Some in H as (hs1 & Hh & H).
  assert (Hk : hs1.*1 = hs.*1).
  { destruct cl as [[i value]|]; [|by injection Hh as <-]. apply bind_Some in Hh as (tok & _ & [= <-]). apply set_value_keys. }
  assert (hs1 = hs') as -> by (destruct cl as [[? ?]|], te; try done; [by injection H|case_bool_decide; [by injection H|done]|by injection H]).
  split; [done|]. destruct cl as [[i value]|].
  - right. destruct te; [done|]. apply (Forall_keys (P := fun k => is_te k = false) hs); [done|]. by apply H2.
  - left. apply (Forall_keys (P := fun k => is_cl k = false) hs); [done|]. by apply H1.
Qed.

(** A request the parser accepts is in bounds and unambiguously framed: it
    lies inside the buffer, its head within 16 KiB and 100 fields, its body
    within 64 MiB; every field name is a token; Content-Length and
    Transfer-Encoding do not both occur, in any spelling; and the body has the
    length a usable Content-Length announces, is the decoded chunks, or is
    empty. *)
Theorem http_request_sound order buffer r n : (forall l, order l ≡ₚ l) -> parse_request order buffer = Some (Success r n) ->
  request_bounded buffer r n /\ (length (headers r) <= kMaxHeaders)%nat /\ Forall named (headers r) /\
  (Forall (fun h => is_cl h.1 = false) (headers r) \/ Forall (fun h => is_te h.1 = false) (headers r)) /\
  match get_content_length (headers r) with
  | Some v => #(body r) = v
  | None => is_chunked (headers r) = true \/ body r = []
  end.
Proof.
  intros Ho Hp. destruct (parse_request_total order buffer) as (r' & Hr' & Hb). rewrite Hp in Hr'. injection Hr' as <-.
  split; [by apply Hb|]. clear Hb. unfold parse_request in Hp.
  destruct (find_header_end buffer kMaxHeaderBytes) as [h| |] eqn:Eh; [|done|done].
  pose proof (find_header_end_bound _ _ _ Eh) as [Hhb _].
  destruct (parse_request_head order (take h buffer)) as [[[[me ta] ve] hs]|] eqn:Ep; [|done].
  assert (Hhs : (length hs <= kMaxHeaders)%nat /\ Forall named hs /\
    (Forall (fun h => is_cl h.1 = false) hs \/ Forall (fun h => is_te h.1 = false) hs)).
  { unfold parse_request_head in Ep. destruct (getlines LF [] (take h buffer)) as [|line lines]; [done|].
    apply bind_Some in Ep as ([[me' ta'] ve'] & _ & Ep). apply bind_Some in Ep as (hs0 & Hh0 & Ep).
    apply bind_Some in Ep as (hs1 & Hv & [= -> -> -> ->]).
    destruct (parse_headers_sound _ _ _ _ Hh0) as [Hn Hl]; [constructor|done|lia|]. destruct (validate_sound _ _ Hv) as [Hk Hx].
    split; [|split; [|done]].
    - rewrite <- (length_fmap fst hs), Hk, length_fmap. by rewrite Ho.
    - apply (Forall_keys (P := fun k => is_valid_field_name k = true) (order hs0)); [done|]. by rewrite Ho. }
  destruct (get_content_length hs) as [v|] eqn:Ec.
  - pose proof (content_length_nonneg _ _ Ec). destruct (kMaxBodySize <? v); [done|]. cbv zeta in Hp.
    destruct (Nat.ltb_spec (length buffer) (h + Z.to_nat v)); [done|]. injection Hp as <- <-. cbn. rewrite Ec.
    split; [tauto|]. split; [tauto|]. split; [tauto|]. rewrite length_take, length_drop. lia.
  - destruct (is_chunked hs) eqn:Ech.
    + apply bind_Some in Hp as ([b k| |] & Hcb & Hp); [|done|done]. injection Hp as <- <-. cbn. rewrite Ec. tauto.
    + injection Hp as <- <-. cbn. rewrite Ec. tauto.
Qed.

Definition put_two : bytes := str "PUT /x HTTP/1.1" ++ CRLF ++ str "Content-Length: 2, 2" ++ CRLF ++ CRLF ++ str "okGET".

Lemma http_request_sound_witness : parse_request (fun l => l) put_two =
    Some (Success (mkRequest (str "PUT") (str "/x") (str "1.1") [(str "Content-Length", str "2")] (str "ok")) 43) /\
  #(str "ok") = 2.
Proof.
  assert (Hp : parse_request (fun l => l) put_two =
    Some (Success (mkRequest (str "PUT") (str "/x") (str "1.1") [(str "Content-Length", str "2")] (str "ok")) 43)) by (by vm_compute).
  split; [exact Hp|].
  exact (proj2 (proj2 (proj2 (proj2 (http_request_sound (fun l => l) put_two _ _ (fun l => reflexivity l) Hp))))).
Defined.

(** *** Framing defects *)

(** A request in which no usable framing field is found. *)
Lemma parse_request_unframed order buffer h line lines m t v hs hs' :
  find_header_end buffer kMaxHeaderBytes = Found h -> getlines LF [] (take h buffer) = line :: lines ->
  parse_request_line (strip_cr line) = Some (m, t, v) -> parse_headers lines 0 [] = Some hs ->
  validate_framing_headers (order hs) = Some hs' -> get_content_length hs' = None -> is_chunked hs' = false ->
  parse_request order buffer = Some (Success (mkRequest m t v hs' []) h).
Proof.
  intros E1 E2 E3 E4 E5 E6 E7. unfold parse_request. rewrite E1. unfold parse_request_head. rewrite E2, E3. cbn [mbind option_bind].
  rewrite E4. cbn [mbind option_bind]. rewrite E5. cbn [mbind option_bind]. by rewrite E6, E7.
Qed.

(** A Content-Length that does not fit 64 bits is ignored instead of refused:
    [validate_framing_headers] only asks for digits, and a failed
    [parse_uint64] means "no Content-Length" to [parse_request].  The request
    is accepted without a body and its body is left in the buffer, to be read
    as the next request. *)
Theorem http_length_overflow_ignored order d rest : (forall l, order l ≡ₚ l) ->
  d <> [] -> forallb is_digit d = true -> 2 ^ 64 <= decimal 0 d -> (length d <= 1000)%nat ->
  let r := mkRequest (str "POST") (str "/") (str "1.1") [(str "Content-Length", d)] [] in
  parse_request order (request_head r ++ rest) = Some (Success r (length (request_head r))).
Proof.
  intros Ho Hne Hd Hbig Hlen r. assert (Hdf : Forall (fun c => is_digit c = true) d) by (apply List.Forall_forall; by apply forallb_forall).
  assert (Hs : order [(str "Content-Length", d)] = [(str "Content-Length", d)]) by (by apply Permutation_singleton_r, Ho).
  assert (Hf : Forall field_ok (headers r)).
  { constructor; [|constructor]. split; [done|]. eapply Forall_impl; [exact Hdf|]. intros c H. split; intros ->; done. }
  assert (Hl : clean (request_line r)) by (by repeat constructor).
  unfold parse_request, request_head. rewrite find_header_end_block; [|by apply head_lines_ok|].
  2: { unfold head_block, field. cbn [fmap list_fmap concat headers r fst snd]. rewrite !length_app.
       change (length (request_line r)) with 15%nat. change (length (str "Content-Length")) with 14%nat.
       change (length (str ": ")) with 2%nat. change (length CRLF) with 2%nat. unfold kMaxHeaderBytes. cbn [length]. lia. }
  rewrite take_app_length. unfold parse_request_head. rewrite block_lines by done.
  rewrite strip_cr_line, parse_request_line_ok by (done || by repeat constructor). cbn [mbind option_bind].
  rewrite parse_headers_ok; [|done|by apply NoDup_singleton|cbn; unfold kMaxHeaders; lia]. cbn [mbind option_bind app fmap list_fmap headers r].
  unfold trim_field. cbn [fst snd]. rewrite trim_ows_digits, Hs by done. unfold validate_framing_headers. cbn [framing_scan].
  change (is_cl (str "Content-Length")) with true. cbn [mbind option_bind]. rewrite length_token_digits by done. cbn [mbind option_bind].
  change (set_value [(str "Content-Length", d)] 0 d) with [(str "Content-Length", d)].
  assert (Hg : get_content_length [(str "Content-Length", d)] = None).
  { unfold get_content_length. change (get_header [(str "Content-Length", d)] (str "Content-Length")) with (Some d). cbn [mbind option_bind].
    rewrite parse_uint64_spec, Hd. destruct (Z.ltb_spec (decimal 0 d) (2 ^ 64)); [lia|]. by rewrite andb_false_r. }
  rewrite Hg. done.
Qed.

Lemma http_length_overflow_ignored_witness : exists n, parse_request (fun l => l)
  (request_head (mkRequest (str "POST") (str "/") (str "1.1") [(str "Content-Length", str "18446744073709551616")] []) ++ str "GET /admin") =
  Some (Success (mkRequest (str "POST") (str "/") (str "1.1") [(str "Content-Length", str "18446744073709551616")] []) n).
Proof.
  eexists. apply (http_length_overflow_ignored (fun l => l) (str "18446744073709551616") (str "GET /admin")); [done|done|by vm_compute|by vm_compute|].
  vm_compute. lia.
Defined.

(** Content-Length lists repeated under two spellings defeat the
    normalisation: only the entry the map iterates last is rewritten to a
    single number, and [get_header] reads the one it iterates first.  Whatever
    the iteration order, the request is accepted without its body. *)
Definition two_spellings : bytes :=
  str "POST / HTTP/1.1" ++ CRLF ++ str "content-length: 5" ++ CRLF ++ str "content-length: 5" ++ CRLF ++
  str "CONTENT-LENGTH: 5" ++ CRLF ++ str "CONTENT-LENGTH: 5" ++ CRLF ++ CRLF ++ str "hello".

Theorem http_spelling_hides_length order : (forall l, order l ≡ₚ l) ->
  exists r, parse_request order two_spellings = Some (Success r (length two_spellings - 5)) /\ body r = [].
Proof.
  intros Ho. set (hs := [(str "content-length", str "5, 5"); (str "CONTENT-LENGTH", str "5, 5")]).
  assert (H : exists hs', validate_framing_headers (order hs) = Some hs' /\ get_content_length hs' = None /\ is_chunked hs' = false).
  { destruct (Permutation_length_2_inv (symmetry (Ho hs))) as [-> | ->]; eexists; (split; [by vm_compute|]); by vm_compute. }
  destruct H as (hs' & H1 & H2 & H3). exists (mkRequest (str "POST") (str "/") (str "1.1") hs' []). split; [|done].
  eapply (parse_request_unframed order two_spellings _ _ _ _ _ _ hs hs'); [vm_compute; reflexivity ..|done|done|done].
Qed.

Lemma http_spelling_hides_length_witness :
  exists r, parse_request (fun l => l) two_spellings = Some (Success r (length two_spellings - 5)) /\ body r = [].
Proof. apply (http_spelling_hides_length (fun l => l)). done. Defined.

(** A blank line made of a bare LF ends the loop over the header lines, but
    not the header block, which is only delimited by CR LF CR LF.  The fields
    behind it are consumed and ignored: here a Content-Length, whose body is
    left to be read as the next request. *)
Definition bare_lf : bytes :=
  str "POST / HTTP/1.1" ++ CRLF ++ str "Host: a" ++ [LF; LF] ++ str "Content-Length: 5" ++ CRLF ++ CRLF ++ str "hello".

Theorem http_bare_lf_hides_fields order : (forall l, order l ≡ₚ l) ->
  parse_request order bare_lf =
    Some (Success (mkRequest (str "POST") (str "/") (str "1.1") [(str "Host", str "a")] []) (length bare_lf - 5)).
Proof.
  intros Ho. assert (Hs : order [(str "Host", str "a")] = [(str "Host", str "a")]) by (by apply Permutation_singleton_r, Ho).
  eapply (parse_request_unframed order bare_lf _ _ _ _ _ _ [(str "Host", str "a")]); [vm_compute; reflexivity ..|by rewrite Hs|done|done].
Qed.

Lemma http_bare_lf_hides_fields_witness : parse_request (fun l => l) bare_lf =
    Some (Success (mkRequest (str "POST") (str "/") (str "1.1") [(str "Host", str "a")] []) (length bare_lf - 5)).
Proof. apply (http_bare_lf_hides_fields (fun l => l)). done. Defined.

(** A response whose status forbids a body is written with its body all the
    same, and without a framing field: a client that honours the status reads
    the body as the start of the next response. *)
Theorem http_bodyless_status_body_written order r rest : (forall l, order l ≡ₚ l) -> response_ok r ->
  status_forbids_body (status_code r) = true ->
  exists head, serialize r = head ++ rs_body r /\
    parse_response order (head ++ rs_body r ++ rest) =
      Some (Success (mkResponse (rs_version r) (status_code r) (reason_phrase r) (order (trim_field <$> kept (rs_headers r))) [])
                    (length head)).
Proof.
  intros Ho [[V1 V2] Hc Hre Hn Hf Hcnt Hs] Hst.
  exists (head_block (status_text (rs_version r) (status_code r) (reason_phrase r) :: (field <$> kept (rs_headers r)))).
  assert (Hh : status_line r ++ header_lines (rs_headers r) ++ CRLF =
    head_block (status_text (rs_version r) (status_code r) (reason_phrase r) :: (field <$> kept (rs_headers r)))).
  { unfold head_block. cbn [fmap list_fmap concat]. rewrite status_line_text, header_lines_kept. by rewrite <- !app_assoc. }
  split.
  - unfold serialize. rewrite Hst. cbn [negb andb app]. rewrite <- Hh. by rewrite <- !app_assoc.
  - rewrite <- (app_nil_r (head_block _)) at 1. rewrite parse_response_wire with (b := []); try done.
    + by rewrite app_nil_r.
    + apply kept_fields.
    + by eapply sublist_NoDup; [exact Hn|apply fmap_sublist, kept_sub].
    + lia.
    + apply framed_none, Forall_fmap. apply List.Forall_forall. intros h [Hin _]%filter_In.
      exact (proj1 (List.Forall_forall _ _) Hf h Hin).
    + rewrite <- Hh. rewrite app_assoc, length_app. change (length CRLF) with 2%nat. lia.
Qed.

Lemma http_bodyless_status_body_written_witness : exists head,
  serialize (mkResponse (str "1.1") 304 (str "Not Modified") [] (str "oops")) = head ++ str "oops" /\
  parse_response (fun l => l) (head ++ str "oops" ++ []) =
    Some (Success (mkResponse (str "1.1") 304 (str "Not Modified") [] []) (length head)).
Proof.
  apply (http_bodyless_status_body_written (fun l => l) (mkResponse (str "1.1") 304 (str "Not Modified") [] (str "oops")) []); [done| |done].
  split; try done; try (vm_compute; lia); [split; by repeat constructor|by repeat constructor|constructor].
Defined.
