(* ===== verification/Http1Server.v ===== *)
(** * HTTP/1.1 server connection

    Model of [Http1Connection] in example/http/src/dispatcher_reactor.cpp: the
    loop that parses buffered requests, dispatches them one at a time and
    writes the responses, with the completions that arrive later.

    The application's handler is an argument: given what has happened on the
    connection so far and a request, it says whether it completed the response
    before returning and whether it threw.  [write_fails k] says whether the
    [k]-th write finds the connection gone, which runs [on_closed] inside that
    write.  [active_requests] is this connection's contribution to the
    counter.  [close_after_flush] closes at once when nothing is pending and
    later otherwise; either way [on_closed] is the next thing that happens, and
    the model leaves it to the environment. *)
From S2P Require Import Prelude Chunking Utils Http1.

Local Open Scope Z_scope.

Definition serialize_response (response : HTTPResponse) : bytes :=
  match get_header (rs_headers response) (str "Transfer-Encoding") with
  | Some te => match find_sub (str "chunked") (to_lower te) with
               | Some _ => serialize_chunked response
               | None => serialize response
               end
  | None => serialize response
  end.

(** ** State *)

Definition kMaxRequestBytes : Z := 1024 * 1024.

Inductive Phase := ReadingRequest | Dispatching.

Global Instance Phase_eq_dec : EqDecision Phase.
Proof. solve_decision. Defined.

(** What the connection does to the outside. *)
Inductive Event :=
  | Dispatched (r : HTTPRequest)
  | Wrote (bs : bytes)
  | CloseAfterFlush
  | Closed.

Record H1 := mkH1 {
  buffer : bytes;
  phase : Phase;
  closing : bool;
  dispatch_call_active : bool;
  notify_closed : bool;
  conn_open : bool;
  writes : nat;
  active_requests : Z;
  log : list Event
}.

Definition set_buffer v st := mkH1 v (phase st) (closing st) (dispatch_call_active st) (notify_closed st) (conn_open st) (writes st) (active_requests st) (log st).
Definition set_phase v st := mkH1 (buffer st) v (closing st) (dispatch_call_active st) (notify_closed st) (conn_open st) (writes st) (active_requests st) (log st).
Definition set_closing v st := mkH1 (buffer st) (phase st) v (dispatch_call_active st) (notify_closed st) (conn_open st) (writes st) (active_requests st) (log st).
Definition set_dispatch_call_active v st := mkH1 (buffer st) (phase st) (closing st) v (notify_closed st) (conn_open st) (writes st) (active_requests st) (log st).
Definition set_notify_closed v st := mkH1 (buffer st) (phase st) (closing st) (dispatch_call_active st) v (conn_open st) (writes st) (active_requests st) (log st).
Definition set_conn_open v st := mkH1 (buffer st) (phase st) (closing st) (dispatch_call_active st) (notify_closed st) v (writes st) (active_requests st) (log st).
Definition set_writes v st := mkH1 (buffer st) (phase st) (closing st) (dispatch_call_active st) (notify_closed st) (conn_open st) v (active_requests st) (log st).
Definition set_active_requests v st := mkH1 (buffer st) (phase st) (closing st) (dispatch_call_active st) (notify_closed st) (conn_open st) (writes st) v (log st).
Definition emit (e : Event) st := mkH1 (buffer st) (phase st) (closing st) (dispatch_call_active st) (notify_closed st) (conn_open st) (writes st) (active_requests st) (log st ++ [e]).

Definition new_conn : H1 := mkH1 [] ReadingRequest false false true true 0 0 [].

Section Connection.
Context (order : list (bytes * bytes) -> list (bytes * bytes)).
Context (handler : list Event -> HTTPRequest -> option HTTPResponse * bool).
Context (write_fails : nat -> bool).

(** ** Operations *)

Definition on_closed (st : H1) : H1 :=
  let st := match phase st with
            | Dispatching => set_phase ReadingRequest (set_active_requests (active_requests st - 1) st)
            | ReadingRequest => st
            end in
  let st := set_closing true st in
  if notify_closed st then emit Closed (set_notify_closed false st) else st.

(** [BufferedConnection::close]. *)
Definition close (st : H1) : H1 := if conn_open st then on_closed (set_conn_open false st) else st.

Definition write (bs : bytes) (st : H1) : H1 :=
  if conn_open st then
    let st := set_writes (S (writes st)) st in
    if write_fails (writes st) then close st else emit (Wrote bs) st
  else st.

Definition close_after_flush (st : H1) : H1 := if conn_open st then emit CloseAfterFlush st else st.

Definition error_response (status : Z) (reason : bytes) : HTTPResponse :=
  mkResponse (str "1.1") status reason
    (set_header (set_header [] (str "Connection") (str "close")) (str "Content-Length") (str "0")) [].

Definition send_error_and_close (status : Z) (reason : bytes) (st : H1) : H1 :=
  let st := set_closing true st in
  if conn_open st then close_after_flush (write (serialize (error_response status reason)) st) else st.

(** [on_response_ready] up to the decision whether to look for the next
    request; [true] when it does. *)
Definition deliver_response (response : HTTPResponse) (keep_alive : bool) (st : H1) : H1 * bool :=
  let st := set_active_requests (active_requests st - 1) st in
  let st := set_phase ReadingRequest st in
  if negb (conn_open st) || closing st then (st, false) else
  let hs := set_header (rs_headers response) (str "Connection") (if keep_alive then str "keep-alive" else str "close") in
  let response := mkResponse (rs_version response) (status_code response) (reason_phrase response) hs (rs_body response) in
  let st := write (serialize_response response) st in
  if negb keep_alive then (close_after_flush (set_closing true st), false)
  else (st, negb (dispatch_call_active st)).

(** A request that has been parsed. *)
Definition dispatch (request : HTTPRequest) (st : H1) : H1 + H1 :=
  let keep_alive := should_keep_alive request in
  let st := set_phase Dispatching st in
  let st := emit (Dispatched request) (set_active_requests (active_requests st + 1) st) in
  let st := set_dispatch_call_active true st in
  let '(response, threw) := handler (log st) request in
  let st := match response with Some r => (deliver_response r keep_alive st).1 | None => st end in
  let st := set_dispatch_call_active false st in
  if threw then
    let st := match phase st with
              | Dispatching => set_phase ReadingRequest (set_active_requests (active_requests st - 1) st)
              | ReadingRequest => st
              end in
    inr (close (set_closing true st))
  else inl st.

(** One round of the loop of [try_process]. *)
Definition process_step (st : H1) : H1 + H1 :=
  if bool_decide (phase st = Dispatching) || closing st || negb (conn_open st) then inr st else
  match parse_request order (buffer st) with
  | None => inr st
  | Some Incomplete =>
      if kMaxRequestBytes <=? #(buffer st) then inr (send_error_and_close 400 (str "Bad Request") st) else inr st
  | Some Error => inr (send_error_and_close 400 (str "Bad Request") st)
  | Some (Success request bytes_consumed) =>
      if (length (buffer st) <? bytes_consumed)%nat then inr (close (set_closing true st)) else
      dispatch request (set_buffer (drop bytes_consumed (buffer st)) st)
  end.

Definition try_process (st : H1) : option H1 := loop process_step (S (length (buffer st))) st.

Definition on_data (data : bytes) (st : H1) : option H1 :=
  let st := set_buffer (buffer st ++ data) st in
  if closing st || bool_decide (phase st = Dispatching) then Some st else try_process st.

(** A completion that arrives after the handler has returned. *)
Definition on_response_ready (response : HTTPResponse) (keep_alive : bool) (st : H1) : option H1 :=
  let '(st, continue) := deliver_response response keep_alive st in
  if continue then try_process st else Some st.

(** [start], with the bytes a caller has already read. *)
Definition start (initial_buffer : bytes) (st : H1) : option H1 :=
  let st := set_buffer initial_buffer st in
  match initial_buffer with [] => Some st | _ => try_process st end.
End Connection.

(** ** The connection is an incremental byte machine *)

(** An operation that neither reads nor writes the receive buffer. *)
Definition buf_neutral (op : H1 -> H1) : Prop := forall b st, op (set_buffer b st) = set_buffer b (op st).

Lemma buf_neutral_keeps op st : buf_neutral op -> buffer (op st) = buffer st.
Proof. intros H. replace st with (set_buffer (buffer st) st) at 1 by (by destruct st). by rewrite H. Qed.

Definition sum_map {A B} (f : A -> B) (s : A + A) : B + B := match s with inl a => inl (f a) | inr a => inr (f a) end.

Section Machine.
Context (order : list (bytes * bytes) -> list (bytes * bytes)).
Context (handler : list Event -> HTTPRequest -> option HTTPResponse * bool).
Context (write_fails : nat -> bool).

Lemma on_closed_buf : buf_neutral on_closed.
Proof. intros b st. unfold on_closed. cbn [phase set_buffer]. by destruct (phase st), (notify_closed st) eqn:E; cbn; rewrite ?E. Qed.

Lemma close_buf : buf_neutral close.
Proof. intros b st. unfold close. cbn [conn_open set_buffer]. case_match; [|done]. by rewrite <- on_closed_buf. Qed.

Lemma write_buf bs : buf_neutral (write write_fails bs).
Proof.
  intros b st. unfold write. cbn [conn_open set_buffer writes set_writes]. case_match; [|done].
  case_match; [|done]. by rewrite <- close_buf.
Qed.

Lemma close_after_flush_buf : buf_neutral close_after_flush.
Proof. intros b st. unfold close_after_flush. cbn. by case_match. Qed.

Lemma send_error_buf code reason : buf_neutral (send_error_and_close write_fails code reason).
Proof.
  intros b st. unfold send_error_and_close. cbn [conn_open set_buffer set_closing]. case_match; [|done].
  by rewrite <- close_after_flush_buf, <- write_buf.
Qed.

Lemma deliver_buf r ka b st : deliver_response write_fails r ka (set_buffer b st) =
  (set_buffer b (deliver_response write_fails r ka st).1, (deliver_response write_fails r ka st).2).
Proof.
  unfold deliver_response. cbv zeta.
  change (set_phase ReadingRequest (set_active_requests (active_requests (set_buffer b st) - 1) (set_buffer b st)))
    with (set_buffer b (set_phase ReadingRequest (set_active_requests (active_requests st - 1) st))).
  set (st1 := set_phase _ _). clearbody st1. cbn [conn_open closing set_buffer]. case_match; [done|]. fold (set_buffer b st1).
  rewrite !write_buf. destruct ka; cbn [negb fst snd]; [reflexivity|]. set (st2 := write _ _ st1).
  change (set_closing true (set_buffer b st2)) with (set_buffer b (set_closing true st2)). by rewrite close_after_flush_buf.
Qed.

Lemma dispatch_buf req b st : dispatch handler write_fails req (set_buffer b st) =
  sum_map (set_buffer b) (dispatch handler write_fails req st).
Proof.
  unfold dispatch. cbv zeta. set (st1 := set_dispatch_call_active true (emit _ (set_active_requests _ (set_phase Dispatching st)))).
  change (set_dispatch_call_active true (emit _ (set_active_requests _ (set_phase Dispatching (set_buffer b st))))) with (set_buffer b st1).
  change (log (set_buffer b st1)) with (log st1).
  destruct (handler (log st1) req) as [response threw]. clearbody st1. set (d := match response with Some r => _ | None => set_buffer b st1 end).
  set (d' := match response with Some r => _ | None => st1 end).
  assert (Hd : d = set_buffer b d') by (unfold d, d'; destruct response; [by rewrite deliver_buf|done]). rewrite Hd. clearbody d d'. clear Hd.
  destruct threw; [|done]. cbn [phase set_dispatch_call_active set_buffer]. destruct (phase d'); cbn [sum_map]; f_equal;
    by rewrite <- close_buf.
Qed.

Definition push (x : bytes) (st : H1) : H1 := set_buffer (buffer st ++ x) st.

Definition stopped (st : H1) : bool := closing st || bool_decide (phase st = Dispatching).

#[export] Instance h1_machine : ByteMachine H1 := {
  bm_weight := fun st => length (buffer st);
  bm_push := push;
  bm_closing := stopped;
  bm_step := process_step order handler write_fails
}.

Definition small (st : H1) : Prop := #(buffer st) < kMaxRequestBytes.

Lemma dispatch_buffer req st : buffer (match dispatch handler write_fails req st with inl s => s | inr s => s end) = buffer st.
Proof.
  replace st with (set_buffer (buffer st) st) at 1 by (by destruct st). rewrite dispatch_buf.
  by destruct (dispatch handler write_fails req st).
Qed.

Lemma close_closing st : closing st = true -> closing (close st) = true.
Proof. intros H. unfold close, on_closed. destruct (conn_open st); [|done]. cbn. by destruct (phase st); cbn; destruct (notify_closed st). Qed.

Lemma write_closing bs st : closing st = true -> closing (write write_fails bs st) = true.
Proof. intros H. unfold write. case_match; [|done]. case_match; [by apply close_closing|done]. Qed.

Lemma send_error_closing code reason st : closing (send_error_and_close write_fails code reason st) = true.
Proof.
  unfold send_error_and_close. cbn [conn_open set_closing]. case_match; [|done]. unfold close_after_flush.
  assert (H1 : closing (write write_fails (serialize (error_response code reason)) (set_closing true st)) = true) by (by apply write_closing).
  by case_match.
Qed.

Lemma dispatch_return_closing req st r : dispatch handler write_fails req st = inr r -> closing r = true.
Proof.
  unfold dispatch. cbv zeta. destruct (handler _ req) as [response threw]. destruct threw; [|done].
  intros [= <-]. by apply close_closing.
Qed.

(** The round behind a complete request. *)
Lemma process_step_push st x : small st -> match process_step order handler write_fails st with
  | inl st' => process_step order handler write_fails (push x st) = inl (push x st') /\ (length (buffer st') < length (buffer st))%nat
  | inr r => r = st \/ (closing r = true /\ process_step order handler write_fails (push x st) = inr (push x r) /\
                        (length (buffer r) <= length (buffer st))%nat)
  end.
Proof.
  intros Hs. unfold process_step. cbn [phase closing conn_open push set_buffer buffer]. fold (push x st).
  destruct (_ || _); [by left|]. destruct (parse_request_total order (buffer st)) as (pr & Hp & Hb). rewrite Hp.
  destruct pr as [req n| |].
  - pose proof (Hb _ _ eq_refl) as [Hn _]. rewrite (parse_request_ext order x _ _ Hp I).
    destruct (Nat.ltb_spec (length (buffer st)) n); [lia|]. rewrite length_app.
    destruct (Nat.ltb_spec (length (buffer st) + length x) n); [lia|]. rewrite drop_app_le by lia.
    pose proof (dispatch_buffer req (set_buffer (drop n (buffer st)) st)) as Hd.
    pose proof (dispatch_return_closing req (set_buffer (drop n (buffer st)) st)) as Hc.
    change (set_buffer (drop n (buffer st) ++ x) (push x st)) with (set_buffer (drop n (buffer st) ++ x) (set_buffer (drop n (buffer st)) st)).
    rewrite (dispatch_buf req (drop n (buffer st) ++ x)). destruct (dispatch handler write_fails req (set_buffer (drop n (buffer st)) st)) as [s|s]; cbn [sum_map buffer set_buffer] in *.
    + split; [unfold push; by rewrite Hd|rewrite Hd, length_drop; lia].
    + right. split; [by apply Hc|]. split; [unfold push; by rewrite Hd|rewrite Hd, length_drop; lia].
  - destruct (Z.leb_spec kMaxRequestBytes (#(buffer st))); [unfold small in Hs; lia|by left].
  - rewrite (parse_request_ext order x _ _ Hp I). right. split; [apply send_error_closing|].
    pose proof (buf_neutral_keeps _ st (send_error_buf 400 (str "Bad Request"))) as Hk. split; [|by rewrite Hk].
    unfold push at 1. rewrite send_error_buf. unfold push. by rewrite Hk.
Qed.

#[export] Program Instance h1_machine_laws : ByteMachineLaws H1 := { bm_ok := small }.
Next Obligation. done. Qed.
Next Obligation. intros x y st. cbn. unfold push. cbn. by rewrite app_assoc. Qed.
Next Obligation. intros x st. unfold small. cbn. rewrite length_app. lia. Qed.
Next Obligation.
  intros st st' Hs E. pose proof (process_step_push st [] Hs) as H. cbn in *. rewrite E in H. unfold small in *. split; lia.
Qed.
Next Obligation. intros st st' x Hs E. pose proof (process_step_push st x Hs) as H. cbn in *. rewrite E in H. apply H. Qed.
Next Obligation.
  intros st r Hs E. pose proof (process_step_push st [] Hs) as H. cbn in *. rewrite E in H. unfold small in *. destruct H as [-> |H]; [done|lia].
Qed.
Next Obligation.
  intros st r x Hs E. pose proof (process_step_push st x Hs) as H. cbn in *. rewrite E in H. destruct H as [-> |(H1 & H2 & _)]; [by left|].
  right. split; [unfold stopped; by rewrite H1|done].
Qed.
Next Obligation.
  intros st Hc. cbn in *. unfold stopped in Hc. unfold process_step. by rewrite (orb_comm _ (closing st)), Hc.
Qed.

Lemma on_data_machine data st : on_data order handler write_fails data st = bm_on_data data st.
Proof. done. Qed.
End Machine.

(** ** Reachable states *)

Section Reach.
Context (order : list (bytes * bytes) -> list (bytes * bytes)).
Context (handler : list Event -> HTTPRequest -> option HTTPResponse * bool).
Context (write_fails : nat -> bool).

(** The events since the connection was opened: whether they are requests
    and responses in turn, and whether the last request is still open. *)
Fixpoint in_turn (open : bool) (es : list Event) : option bool :=
  match es with
  | [] => Some open
  | Dispatched _ :: es => if open then None else in_turn true es
  | Wrote _ :: es => if open then in_turn false es else None
  | _ :: es => None
  end.

Definition is_open (st : H1) : bool := bool_decide (phase st = Dispatching).

(** The invariant of the states between two calls into the connection. *)
Record h1_inv (st : H1) : Prop := {
  inv_idle : dispatch_call_active st = false;
  inv_open : closing st = false -> conn_open st = true;
  inv_turn : closing st = false -> in_turn false (log st) = Some (is_open st);
  inv_active : closing st = false -> active_requests st = if is_open st then 1 else 0
}.

Lemma in_turn_snoc es e : forall o, in_turn o (es ++ [e]) = (o' ← in_turn o es; in_turn o' [e]).
Proof.
  induction es as [|e' es IH]; intros o; [done|]. cbn [app in_turn]. destruct e'; try done; destruct o; try done; apply IH.
Qed.

Lemma new_conn_inv : h1_inv new_conn.
Proof. by split. Qed.

Lemma h1_inv_closing st : closing st = true -> dispatch_call_active st = false -> h1_inv st.
Proof. intros H1 H2. by split; try congruence. Qed.

Lemma close_active st : dispatch_call_active (close st) = dispatch_call_active st.
Proof. unfold close, on_closed. destruct (conn_open st); [|done]. cbn. by destruct (phase st); cbn; destruct (notify_closed st). Qed.

Lemma write_cases bs st : conn_open st = true ->
  dispatch_call_active (write write_fails bs st) = dispatch_call_active st /\
  (closing (write write_fails bs st) = true \/
   write write_fails bs st = emit (Wrote bs) (set_writes (S (writes st)) st)).
Proof.
  intros Ho. unfold write. rewrite Ho. cbv zeta. case_match; [|by split; [|right]]. split; [by rewrite close_active|].
  left. unfold close. cbn [conn_open set_writes]. rewrite Ho. unfold on_closed. cbn. by destruct (phase st); cbn; destruct (notify_closed st).
Qed.

(** A response to the open request, written or lost with the connection. *)
Lemma deliver_cases r ka st : conn_open st = true -> closing st = false ->
  in_turn false (log st) = Some true -> active_requests st = 1 ->
  let st' := (deliver_response write_fails r ka st).1 in
  dispatch_call_active st' = dispatch_call_active st /\ phase st' = ReadingRequest /\
  (closing st' = true \/ (conn_open st' = true /\ closing st' = false /\ in_turn false (log st') = Some false /\ active_requests st' = 0)).
Proof.
  intros Ho Hc Ht Ha. unfold deliver_response. cbv zeta. set (st1 := set_phase ReadingRequest _).
  assert (Ho1 : conn_open st1 = true) by done. assert (Hc1 : closing st1 = false) by done. rewrite Ho1, Hc1. cbn [negb orb].
  set (w := serialize_response _). destruct (write_cases w st1 Ho1) as [Hd Hw].
  assert (Hp : phase (write write_fails w st1) = ReadingRequest).
  { unfold write. rewrite Ho1. cbv zeta. case_match; [|done]. unfold close, on_closed. cbn. by destruct (conn_open st), (notify_closed st). }
  destruct ka; cbn [negb fst].
  - split; [done|]. split; [done|]. destruct Hw as [Hw|Hw]; [by left|right]. rewrite Hw. split; [done|]. split; [done|].
    split; [|cbn; lia]. change (log (emit _ _)) with (log st ++ [Wrote w]). by rewrite in_turn_snoc, Ht.
  - unfold close_after_flush. cbn [conn_open set_closing]. case_match; (split; [done|]); (split; [done|]); by left.
Qed.

Lemma dispatch_inv req st : h1_inv st -> closing st = false -> phase st = ReadingRequest ->
  h1_inv (match dispatch handler write_fails req st with inl s => s | inr s => s end).
Proof.
  intros [Hi Hop Ht Ha] Hc Hp. specialize (Hop Hc). specialize (Ht Hc). specialize (Ha Hc). unfold is_open in *. rewrite Hp in *.
  rewrite bool_decide_eq_false_2 in Ht, Ha by done.
  unfold dispatch. cbv zeta. set (st1 := set_dispatch_call_active true _). destruct (handler (log st1) req) as [response threw].
  assert (Ht1 : in_turn false (log st1) = Some true) by (change (log st1) with (log st ++ [Dispatched req]); by rewrite in_turn_snoc, Ht).
  assert (Ha1 : active_requests st1 = 1) by (change (active_requests st1) with (active_requests st + 1); lia).
  destruct threw.
  - set (st2 := match response with Some r => _ | None => _ end). apply h1_inv_closing; [|rewrite close_active; cbn; by destruct (phase st2)].
    by apply close_closing.
  - destruct response as [r|].
    + destruct (deliver_cases r (should_keep_alive req) st1 Hop Hc Ht1 Ha1) as (_ & Hp2 & [Hcl|(H1 & H2 & H3 & H4)]); [by apply h1_inv_closing|].
      split; try done; cbn; unfold is_open; cbn; by rewrite Hp2.
    + by split.
Qed.

Lemma process_step_inv st : h1_inv st -> h1_inv (match process_step order handler write_fails st with inl s => s | inr s => s end).
Proof.
  intros Hi. unfold process_step. destruct (bool_decide (phase st = Dispatching)) eqn:Ep; [done|]. destruct (closing st) eqn:Ec; [done|].
  cbn [orb]. destruct (negb (conn_open st)); [done|]. apply bool_decide_eq_false in Ep.
  assert (He : h1_inv (send_error_and_close write_fails 400 (str "Bad Request") st)).
  { apply h1_inv_closing; [apply send_error_closing|]. unfold send_error_and_close, close_after_flush. cbn [conn_open set_closing].
    case_match; [|apply Hi]. destruct (write_cases (serialize (error_response 400 (str "Bad Request"))) (set_closing true st)) as [Hd _]; [done|].
    case_match; (etransitivity; [exact Hd|apply Hi]). }
  destruct (parse_request order (buffer st)) as [[req n| |]|]; [| |done|done].
  - destruct (_ <? n)%nat; [|apply dispatch_inv; [by destruct Hi|done|cbn; by destruct (phase st)]].
    apply h1_inv_closing; [by apply close_closing|]. rewrite close_active. apply Hi.
  - by destruct (_ <=? _).
Qed.

Lemma try_process_inv st st' : h1_inv st -> try_process order handler write_fails st = Some st' -> h1_inv st'.
Proof.
  intros Hi. unfold try_process. apply loop_post with (I := h1_inv); [| |done].
  - intros s s' Hs E. pose proof (process_step_inv s Hs) as H. by rewrite E in H.
  - intros s s' Hs E. pose proof (process_step_inv s Hs) as H. by rewrite E in H.
Qed.

(** What can happen to a connection: bytes arrive while it is open; the open
    request is answered; the peer goes away. *)
Inductive reach : H1 -> Prop :=
  | reach_new : reach new_conn
  | reach_data st data st' : reach st -> conn_open st = true -> on_data order handler write_fails data st = Some st' -> reach st'
  | reach_complete st r ka st' : reach st -> phase st = Dispatching ->
      on_response_ready order handler write_fails r ka st = Some st' -> reach st'
  | reach_closed st : reach st -> reach (close st).

Lemma on_response_inv st r ka st' : h1_inv st -> phase st = Dispatching ->
  on_response_ready order handler write_fails r ka st = Some st' -> h1_inv st'.
Proof.
  intros [Hi Hop Ht Ha] Hp. unfold on_response_ready. destruct (closing st) eqn:Ec.
  - unfold deliver_response. cbn [conn_open closing set_phase set_active_requests]. rewrite Ec, orb_true_r. intros [= <-]. by apply h1_inv_closing.
  - specialize (Hop eq_refl). specialize (Ht eq_refl). specialize (Ha eq_refl). unfold is_open in *. rewrite Hp, bool_decide_eq_true_2 in Ht, Ha by done.
    destruct (deliver_cases r ka st Hop Ec Ht Ha) as (Hd & Hp2 & Hx). destruct (deliver_response write_fails r ka st) as [st2 c]. cbn [fst] in *.
    assert (Hinv : h1_inv st2).
    { destruct Hx as [Hcl|(H1 & H2 & H3 & H4)]; [apply h1_inv_closing; congruence|].
      split; try congruence; intros _; unfold is_open; rewrite Hp2; done. }
    destruct c; [by apply try_process_inv|by intros [= <-]].
Qed.

Lemma reach_inv st : reach st -> h1_inv st.
Proof.
  induction 1 as [|st data st' _ IH Ho E|st r ka st' _ IH Hp E|st _ IH]; [apply new_conn_inv| | |].
  - unfold on_data in E. cbv zeta in E. assert (Hi : h1_inv (set_buffer (buffer st ++ data) st)) by (by destruct IH).
    destruct (_ || _); [by injection E as <-|by eapply try_process_inv].
  - by eapply on_response_inv.
  - unfold close. destruct (conn_open st) eqn:Eo; [|done]. apply h1_inv_closing.
    + unfold on_closed. cbn. by destruct (phase st); cbn; destruct (notify_closed st).
    + unfold on_closed. cbn. destruct IH. by destruct (phase st); cbn; destruct (notify_closed st).
Qed.
End Reach.

(** ** Pipelined requests *)

Section Pipeline.
Context (order : list (bytes * bytes) -> list (bytes * bytes)).
Hypothesis order_perm : forall l, order l ≡ₚ l.
(** A handler that answers before it returns. *)
Context (answer : list Event -> HTTPRequest -> HTTPResponse).

Definition sync (es : list Event) (r : HTTPRequest) : option HTTPResponse * bool := (Some (answer es r), false).
Definition never (k : nat) : bool := false.

(** A request as the parser hands it over. *)
Definition parsed (r : HTTPRequest) : HTTPRequest :=
  mkRequest (method r) (request_target r) (version r) (order (trim_field <$> headers r)) (body r).

(** A response as it is written on a connection that stays open. *)
Definition kept_alive (r : HTTPResponse) : bytes :=
  serialize_response (mkResponse (rs_version r) (status_code r) (reason_phrase r)
                        (set_header (rs_headers r) (str "Connection") (str "keep-alive")) (rs_body r)).

Definition serve (es : list Event) (r : HTTPRequest) : list Event :=
  es ++ [Dispatched r; Wrote (kept_alive (answer (es ++ [Dispatched r]) r))].

Lemma serve_step st r w rest : request_ok r w -> should_keep_alive (parsed r) = true ->
  phase st = ReadingRequest -> closing st = false -> conn_open st = true -> dispatch_call_active st = false ->
  buffer st = request_wire r w ++ rest ->
  exists st', process_step order sync never st = inl st' /\ phase st' = ReadingRequest /\ closing st' = false /\
    conn_open st' = true /\ dispatch_call_active st' = false /\ buffer st' = rest /\ log st' = serve (log st) (parsed r) /\
    active_requests st' = active_requests st.
Proof.
  intros Hr Hk Hp Hc Ho Hd Hb. unfold process_step. rewrite Hp, Hc, Ho, Hb. cbn [negb orb bool_decide].
  rewrite bool_decide_eq_false_2 by done. cbn [orb]. rewrite (parse_request_wire order order_perm r w rest Hr).
  destruct (Nat.ltb_spec (length (request_wire r w ++ rest)) (length (request_wire r w))); [rewrite length_app in *; lia|].
  fold (parsed r). rewrite drop_app_length. unfold dispatch. cbv zeta. unfold sync at 1. cbn [fst snd]. rewrite Hk.
  unfold deliver_response. cbv zeta. cbn [conn_open closing set_phase set_active_requests set_dispatch_call_active emit set_buffer].
  rewrite Ho, Hc. cbn [negb orb fst]. unfold write.
  match goal with |- context [if conn_open ?s then _ else _] => change (conn_open s) with (conn_open st) end.
  rewrite Ho. cbv zeta. cbn [never].
  eexists. split; [reflexivity|]. split; [done|]. split; [done|]. split; [done|]. split; [done|]. split; [done|].
  split; [|cbn; lia]. unfold serve. exact (eq_sym (app_assoc (log st) [_] [_])).
Qed.

Lemma request_wire_pos r w : (0 < length (request_wire r w))%nat.
Proof. unfold request_wire, request_head, head_block. rewrite !length_app. cbn. lia. Qed.

Lemma pipeline_loop reqs : forall fuel st,
  Forall (fun rw => request_ok rw.1 rw.2 /\ should_keep_alive (parsed rw.1) = true) reqs ->
  phase st = ReadingRequest -> closing st = false -> conn_open st = true -> dispatch_call_active st = false ->
  buffer st = concat ((fun rw => request_wire rw.1 rw.2) <$> reqs) -> (length reqs < fuel)%nat ->
  exists st', loop (process_step order sync never) fuel st = Some st' /\ phase st' = ReadingRequest /\ closing st' = false /\
    buffer st' = [] /\ log st' = foldl serve (log st) ((fun rw => parsed rw.1) <$> reqs) /\ active_requests st' = active_requests st.
Proof.
  induction reqs as [|[r w] reqs IH]; intros fuel st Hr Hp Hc Ho Hd Hb Hf; (destruct fuel as [|fuel]; [cbn in Hf; lia|]); cbn [loop].
  - exists st. unfold process_step. rewrite Hp, Hc, Ho, Hb. by rewrite bool_decide_eq_false_2.
  - inversion Hr as [|? ? [H1 H2] Hr']; subst. cbn [fst snd fmap list_fmap concat] in *.
    destruct (serve_step st r w _ H1 H2 Hp Hc Ho Hd Hb) as (st1 & -> & Hp1 & Hc1 & Ho1 & Hd1 & Hb1 & Hl1 & Ha1).
    destruct (IH fuel st1 Hr' Hp1 Hc1 Ho1 Hd1 Hb1) as (st2 & E & Hp2 & Hc2 & Hb2 & Hl2 & Ha2); [cbn in Hf; lia|].
    exists st2. split; [done|]. split; [done|]. split; [done|]. split; [done|]. cbn [foldl]. rewrite Hl2, Hl1, Ha2. done.
Qed.
End Pipeline.

(** ** Properties *)

Definition feed (order : list (bytes * bytes) -> list (bytes * bytes)) (handler : list Event -> HTTPRequest -> option HTTPResponse * bool)
  (write_fails : nat -> bool) (chunks : list bytes) (st : H1) : option H1 :=
  @bm_feed H1 (h1_machine order handler write_fails) chunks st.

(** However the network splits the client's bytes into reads, the connection
    ends in the same state, having dispatched the same requests and written
    the same responses in the same order, for every handler and every pattern
    of write failures, as long as less than 1 MiB waits in the buffer; and
    processing terminates. *)
Theorem h1_chunking order handler write_fails st chunks :
  on_data order handler write_fails [] st = Some st -> #(buffer st) + #(concat chunks) < kMaxRequestBytes ->
  exists st', feed order handler write_fails chunks st = Some st' /\ on_data order handler write_fails (concat chunks) st = Some st'.
Proof.
  intros Hi Hs. destruct (@bm_chunking H1 (h1_machine order handler write_fails) (h1_machine_laws order handler write_fails) st chunks)
    as (st' & Hf & Ho & _); [done| |by exists st'].
  cbn. unfold small, push. cbn. rewrite length_app. lia.
Qed.

(** A request and the response to it, used in the examples. *)
Definition get_slash : HTTPRequest := mkRequest (str "GET") (str "/") (str "1.1") [(str "Host", str "x")] [].
Definition hello (es : list Event) (r : HTTPRequest) : HTTPResponse := mkResponse (str "1.1") 200 (str "OK") [] (str "hi").

Lemma get_slash_ok : request_ok get_slash [].
Proof.
  split; try done; try (vm_compute; lia).
  - split; by repeat constructor.
  - by repeat constructor.
  - repeat constructor; by vm_compute.
  - apply NoDup_singleton.
  - apply framed_none. repeat constructor; by vm_compute.
Qed.

Lemma h1_chunking_witness : exists st,
  feed (fun l => l) (sync hello) never [take 9 (request_wire get_slash []); drop 9 (request_wire get_slash [])] new_conn = Some st /\
  on_data (fun l => l) (sync hello) never (request_wire get_slash []) new_conn = Some st.
Proof.
  destruct (h1_chunking (fun l => l) (sync hello) never new_conn [take 9 (request_wire get_slash []); drop 9 (request_wire get_slash [])])
    as (st & H1 & H2); [by vm_compute|by vm_compute|]. exists st. split; [exact H1|exact H2].
Defined.

(** C4: Pipelined requests are served in order, each with its own response.  For
    any requests that keep the connection alive, written back to back in any
    of the framings, and a handler that answers before it returns: every
    request is dispatched exactly once, with the headers and body the client
    sent, its response is written before the next request is dispatched, and
    nothing is left in the buffer. *)
Theorem h1_pipelining order answer reqs : (forall l, order l ≡ₚ l) ->
  Forall (fun rw => request_ok rw.1 rw.2 /\ should_keep_alive (parsed order rw.1) = true) reqs ->
  exists st, on_data order (sync answer) never (concat ((fun rw => request_wire rw.1 rw.2) <$> reqs)) new_conn = Some st /\
    log st = foldl (serve answer) [] ((fun rw => parsed order rw.1) <$> reqs) /\ buffer st = [] /\ closing st = false /\ active_requests st = 0.
Proof.
  intros Ho Hr. set (st0 := set_buffer (concat ((fun rw => request_wire rw.1 rw.2) <$> reqs)) new_conn).
  destruct (pipeline_loop order Ho answer reqs (S (length (buffer st0))) st0) as (st & E & _ & Hc & Hb & Hl & Ha); try done.
  - cbn [buffer set_buffer st0]. clear. induction reqs as [|[r w] reqs IH]; [cbn; lia|]. cbn [fmap list_fmap concat length fst snd] in *.
    rewrite length_app. pose proof (request_wire_pos r w). unfold fmap in *. lia.
  - by exists st.
Qed.

Lemma h1_pipelining_witness : exists st,
  on_data (fun l => l) (sync hello) never (request_wire get_slash [] ++ request_wire get_slash [] ++ []) new_conn = Some st /\
  log st = [Dispatched get_slash; Wrote (kept_alive (hello [] get_slash)); Dispatched get_slash; Wrote (kept_alive (hello [] get_slash))].
Proof.
  destruct (h1_pipelining (fun l => l) hello [(get_slash, []); (get_slash, [])]) as (st & H1 & H2 & _); [done| |].
  - constructor; [split; [apply get_slash_ok|by vm_compute]|]. constructor; [split; [apply get_slash_ok|by vm_compute]|constructor].
  - exists st. split; [exact H1|]. rewrite H2. by vm_compute.
Defined.

(** One request at a time.  Whatever arrives, whatever the handlers do and
    whenever they complete, as long as the connection is not closing its
    events are requests and responses strictly in turn, the last request being
    unanswered exactly in the phase [Dispatching], and the connection
    contributes that one request, or nothing, to [active_requests]. *)
Theorem h1_in_order order handler write_fails st : reach order handler write_fails st -> closing st = false ->
  in_turn false (log st) = Some (is_open st) /\ active_requests st = if is_open st then 1 else 0.
Proof. intros Hr Hc. destruct (reach_inv order handler write_fails st Hr). auto. Qed.

(** A handler that defers every response. *)
Definition deferring (es : list Event) (r : HTTPRequest) : option HTTPResponse * bool := (None, false).

Definition waiting : H1 := default new_conn (on_data (fun l => l) deferring never (request_wire get_slash []) new_conn).

Lemma waiting_reach : reach (fun l => l) deferring never waiting.
Proof. apply (reach_data _ _ _ new_conn (request_wire get_slash [])); [constructor|done|by vm_compute]. Qed.

Lemma h1_in_order_witness : in_turn false (log waiting) = Some true /\ active_requests waiting = 1.
Proof. apply (h1_in_order (fun l => l) deferring never waiting waiting_reach). by vm_compute. Defined.

(** Bytes that arrive while a request is being handled are served just as if
    they had arrived behind its response: reading and completing commute. *)
Theorem h1_completion_commutes order handler write_fails st data r ka :
  phase st = Dispatching -> conn_open st = true -> dispatch_call_active st = false ->
  #(buffer st) + #data < kMaxRequestBytes ->
  (on_data order handler write_fails data st ≫= on_response_ready order handler write_fails r ka) =
  (on_response_ready order handler write_fails r ka st ≫= on_data order handler write_fails data).
Proof.
  intros Hp Ho Hd Hs. unfold on_data at 1. cbv zeta. cbn [closing phase set_buffer]. rewrite Hp, bool_decide_eq_true_2, orb_true_r by done.
  cbn [mbind option_bind]. unfold on_response_ready. rewrite deliver_buf.
  destruct (deliver_response write_fails r ka st) as [st1 c] eqn:Ed. cbn [fst snd].
  assert (Hb : buffer st1 = buffer st).
  { pose proof (deliver_buf write_fails r ka (buffer st) st) as H. replace (set_buffer (buffer st) st) with st in H by (by destruct st).
    rewrite Ed in H. injection H as H. by rewrite H. }
  rewrite <- Hb. fold (push data st1). destruct c.
  - destruct (bm_total (S := H1) (H0 := h1_machine_laws order handler write_fails) st1 (S (length (buffer st1)))) as (s2 & E2 & _);
      [change (small st1); unfold small; rewrite Hb; lia|cbn; lia|].
    change (loop (process_step order handler write_fails) (S (length (buffer st1))) st1 = Some s2) in E2.
    unfold try_process at 2. rewrite E2. cbn [mbind option_bind]. rewrite on_data_machine.
    destruct (bm_process_push (S := H1) (H0 := h1_machine_laws order handler write_fails) st1 s2 data (S (length (buffer st1))) (S (length (buffer (push data st1))))) as [E _];
      [change (small (push data st1)); unfold small, push; cbn [buffer set_buffer]; rewrite length_app, Hb; lia|exact E2|cbn; rewrite length_app; lia|].
    etransitivity; [exact E|]. unfold bm_on_data. cbn [bm_push bm_closing h1_machine]. by destruct (stopped s2) eqn:Es; unfold stopped in *; cbn; rewrite Es.
  - cbn [mbind option_bind]. unfold on_data. cbv zeta. fold (push data st1). assert (Hst : stopped (push data st1) = true).
    { unfold deliver_response in Ed. cbn [conn_open closing set_phase set_active_requests] in Ed. rewrite Ho in Ed. cbn [negb orb] in Ed.
      destruct (closing st) eqn:Ec; [injection Ed as <-; unfold stopped; cbn; by rewrite Ec|]. destruct ka; cbn [negb] in Ed.
      - injection Ed as <- Ed. exfalso. apply negb_false_iff in Ed.
        match type of Ed with dispatch_call_active (write _ ?bs ?s) = true => destruct (write_cases write_fails bs s Ho) as [Hw _] end.
        rewrite Hw in Ed. cbn in Ed. congruence.
      - injection Ed as <-. unfold stopped, close_after_flush. cbn [conn_open set_closing]. by case_match. }
    unfold stopped in Hst. by rewrite Hst.
Qed.

Lemma h1_completion_commutes_witness :
  (on_data (fun l => l) deferring never (request_wire get_slash []) waiting ≫= on_response_ready (fun l => l) deferring never (hello [] get_slash) true) =
  (on_response_ready (fun l => l) deferring never (hello [] get_slash) true waiting ≫= on_data (fun l => l) deferring never (request_wire get_slash [])).
Proof. apply (h1_completion_commutes (fun l => l) deferring never waiting); by vm_compute. Defined.

(** A response that is completed after its connection has closed is counted
    twice: [on_closed] has already given the request back, and
    [on_response_ready] decrements [active_requests] unconditionally. *)
Theorem h1_late_completion_counted_twice order handler write_fails st r ka :
  reach order handler write_fails st -> phase st = Dispatching -> closing st = false ->
  exists st', on_response_ready order handler write_fails r ka (close st) = Some st' /\ active_requests st' = -1.
Proof.
  intros Hr Hp Hc. destruct (reach_inv order handler write_fails st Hr) as [_ Hop _ Ha]. specialize (Hop Hc). specialize (Ha Hc).
  unfold is_open in Ha. rewrite Hp, bool_decide_eq_true_2 in Ha by done. unfold close. rewrite Hop. unfold on_closed. cbn [phase set_conn_open].
  rewrite Hp. cbn [active_requests set_conn_open set_phase set_active_requests set_closing notify_closed].
  destruct (notify_closed st); (eexists; split; [reflexivity|cbn; lia]).
Qed.

Lemma h1_late_completion_counted_twice_witness : exists st',
  on_response_ready (fun l => l) deferring never (hello [] get_slash) true (close waiting) = Some st' /\ active_requests st' = -1.
Proof. apply (h1_late_completion_counted_twice (fun l => l) deferring never waiting _ _ waiting_reach); by vm_compute. Defined.
