(* ===== verification/WsFrame.v ===== *)
(** * WebSocket frames

    Model of example/http-websocket/src/handler.cpp: [Frame::serialize] and
    [Frame::parse].  An opcode is its 4-bit code, because [parse] casts any
    nibble to [Opcode] before it asks whether it is one. *)
From S2P Require Import Prelude Utils.

Local Open Scope Z_scope.

Definition Continuation : Z := 0x0.
Definition Text : Z := 0x1.
Definition Binary : Z := 0x2.
Definition Close : Z := 0x8.
Definition Ping : Z := 0x9.
Definition Pong : Z := 0xA.

Definition kMaxPayloadBytes : Z := 16 * 1024 * 1024.
Definition kFinBit : Z := 0x80.
Definition kRsv1Bit : Z := 0x40.
Definition kRsv2Bit : Z := 0x20.
Definition kRsv3Bit : Z := 0x10.
Definition kMaskBit : Z := 0x80.
Definition kPayloadLenMask : Z := 0x7F.
Definition kOpcodeMask : Z := 0x0F.
Definition kPayloadLen16Code : Z := 126.
Definition kPayloadLen64Code : Z := 127.
Definition kPayloadLen16MaxExclusive : Z := 65536.

Record Frame := mkFrame {
  fin : bool;
  rsv1 : bool;
  rsv2 : bool;
  rsv3 : bool;
  opcode : Z;
  masked : bool;
  payload_length : Z;
  masking_key : Z;
  payload : bytes
}.

(** The masking of payload bytes from index [i] on. *)
Fixpoint mask_payload (key : Z) (i : nat) (l : bytes) : bytes :=
  match l with
  | [] => []
  | b :: l => (b .^ ((key .>> ((3 - (Z.of_nat i) mod 4) * 8)) .& 0xFF)) :: mask_payload key (S i) l
  end.

Definition bit (b : bool) (v : Z) : Z := if b then v else 0.

Definition serialize (f : Frame) : bytes :=
  let byte1 := bit (fin f) kFinBit .| bit (rsv1 f) kRsv1Bit .| bit (rsv2 f) kRsv2Bit .| bit (rsv3 f) kRsv3Bit .| u8 (opcode f) in
  let byte2 := bit (masked f) kMaskBit in
  let len := payload_length f in
  [byte1] ++
  (if len <? kPayloadLen16Code then [u8 (byte2 .| len)]
   else if len <? kPayloadLen16MaxExclusive then
     [byte2 .| kPayloadLen16Code; (len .>> 8) .& 0xFF; len .& 0xFF]
   else (byte2 .| kPayloadLen64Code) :: be_bytes 8 len) ++
  (if masked f then [(masking_key f .>> 24) .& 0xFF; (masking_key f .>> 16) .& 0xFF; (masking_key f .>> 8) .& 0xFF; masking_key f .& 0xFF]
   else []) ++
  (if masked f then mask_payload (masking_key f) 0 (payload f) else payload f).

Definition is_known_opcode (op : Z) : bool :=
  (op =? Continuation) || (op =? Text) || (op =? Binary) || (op =? Close) || (op =? Ping) || (op =? Pong).

Definition is_control_opcode (op : Z) : bool := (op =? Close) || (op =? Ping) || (op =? Pong).

(** The payload length and the header size up to there; [None] is an
    exception. *)
Definition parse_length (data : bytes) : option (Z * nat) :=
  let payload_len_byte := nth_byte data 1 .& kPayloadLenMask in
  if payload_len_byte <? kPayloadLen16Code then Some (payload_len_byte, 2%nat)
  else if payload_len_byte =? kPayloadLen16Code then
    if (length data <? 4)%nat then None else
    let len := (nth_byte data 2 .<< 8) .| nth_byte data 3 in
    if len <? kPayloadLen16Code then None else Some (len, 4%nat)
  else
    if (length data <? 10)%nat then None else
    let len := be_fold 0 (take 8 (drop 2 data)) in
    if len <? kPayloadLen16MaxExclusive then None
    else if negb (len .& (1 .<< 63) =? 0) then None
    else Some (len, 10%nat).

Definition parse_key (data : bytes) : Z :=
  u32 (nth_byte data 0 .<< 24) .| u32 (nth_byte data 1 .<< 16) .| u32 (nth_byte data 2 .<< 8) .| nth_byte data 3.

Definition parse (data : bytes) : option Frame :=
  if (length data <? 2)%nat then None else
  let b0 := nth_byte data 0 in
  let fin := negb (b0 .& kFinBit =? 0) in
  let rsv1 := negb (b0 .& kRsv1Bit =? 0) in
  let rsv2 := negb (b0 .& kRsv2Bit =? 0) in
  let rsv3 := negb (b0 .& kRsv3Bit =? 0) in
  let opcode := b0 .& kOpcodeMask in
  if negb (is_known_opcode opcode) || rsv1 || rsv2 || rsv3 then None else
  let masked := negb (nth_byte data 1 .& kMaskBit =? 0) in
  '(len, header_size) ← parse_length data;
  if is_control_opcode opcode && (negb fin || (125 <? len)) then None else
  if kMaxPayloadBytes <? len then None else
  '(key, header_size) ← (if masked then
                           if (length data <? header_size + 4)%nat then None
                           else Some (parse_key (drop header_size data), (header_size + 4)%nat)
                         else Some (0, header_size));
  if (length data <? header_size + Z.to_nat len)%nat then None else
  let payload := take (Z.to_nat len) (drop header_size data) in
  Some (mkFrame fin rsv1 rsv2 rsv3 opcode masked len key (if masked then mask_payload key 0 payload else payload)).

(** ** Lemmas *)

Lemma mask_payload_length key l : forall i, length (mask_payload key i l) = length l.
Proof. induction l as [|b l IH]; intros i; cbn; [done|]. by rewrite IH. Qed.

(** Masking is its own inverse. *)
Lemma mask_payload_involutive key l : forall i, mask_payload key i (mask_payload key i l) = l.
Proof.
  induction l as [|b l IH]; intros i; cbn [mask_payload]; [done|]. rewrite IH.
  by rewrite Z.lxor_assoc, Z.lxor_nilpotent, Z.lxor_0_r.
Qed.

Definition len_bytes (m : bool) (len : Z) : bytes :=
  if len <? kPayloadLen16Code then [u8 (bit m kMaskBit .| len)]
  else if len <? kPayloadLen16MaxExclusive then
    [bit m kMaskBit .| kPayloadLen16Code; (len .>> 8) .& 0xFF; len .& 0xFF]
  else (bit m kMaskBit .| kPayloadLen64Code) :: be_bytes 8 len.

Lemma short_length_bits m len : 0 <= len < 126 ->
  u8 (bit m kMaskBit .| len) .& kPayloadLenMask = len /\ negb (u8 (bit m kMaskBit .| len) .& kMaskBit =? 0) = m.
Proof.
  intros H. assert (Hc : forallb (fun i => let v := u8 (bit m kMaskBit .| Z.of_nat i) in
    (v .& kPayloadLenMask =? Z.of_nat i) && Bool.eqb (negb (v .& kMaskBit =? 0)) m) (seq 0 126) = true) by (by destruct m; vm_compute).
  pose proof (forall_below (fun i => let v := u8 (bit m kMaskBit .| i) in
    (v .& kPayloadLenMask =? i) && Bool.eqb (negb (v .& kMaskBit =? 0)) m) 126 Hc len ltac:(lia)) as Hx.
  cbv zeta in Hx. apply andb_true_iff in Hx as [H1%Z.eqb_eq H2%eqb_prop]. done.
Qed.

Lemma top_bit len : 0 <= len < 2 ^ 64 -> (len .& (1 .<< 63) =? 0) = (len <? 2 ^ 63).
Proof.
  intros H. rewrite Z.shiftl_1_l. assert (Hb : Z.testbit len 63 = negb (len <? 2 ^ 63)).
  { rewrite Z.testbit_odd, Z.shiftr_div_pow2 by lia. destruct (Z.ltb_spec len (2 ^ 63)).
    - by rewrite Z.div_small by lia.
    - replace (len / 2 ^ 63) with 1; [done|]. apply Z.div_unique with (len - 2 ^ 63); lia. }
  assert (Hl : Z.testbit (len .& 2 ^ 63) 63 = negb (len <? 2 ^ 63)) by (rewrite Z.land_spec, Z.pow2_bits_true, andb_true_r by lia; done).
  destruct (len <? 2 ^ 63); cbn [negb] in *.
  - apply Z.eqb_eq, Z.bits_inj'. intros n Hn. rewrite Z.land_spec, Z.bits_0, Z.pow2_bits_eqb by lia.
    destruct (Z.eqb_spec 63 n) as [<-|]; [by rewrite Hb|apply andb_false_r].
  - apply Z.eqb_neq. intros E. rewrite E, Z.bits_0 in Hl. done.
Qed.

Lemma parse_length_ok b0 m len rest : 0 <= len < 2 ^ 63 ->
  parse_length (b0 :: len_bytes m len ++ rest) = Some (len, S (length (len_bytes m len))) /\
  negb (nth_byte (b0 :: len_bytes m len ++ rest) 1 .& kMaskBit =? 0) = m.
Proof.
  intros Hl. unfold parse_length, len_bytes. destruct (Z.ltb_spec len kPayloadLen16Code) as [H|H].
  - destruct (short_length_bits m len ltac:(unfold kPayloadLen16Code in H; lia)) as [E1 E2]. cbn [app nth_byte nth].
    change (nth_byte _ 1) with (u8 (bit m kMaskBit .| len)). rewrite E1, E2.
    destruct (Z.ltb_spec len kPayloadLen16Code); [done|lia].
  - destruct (Z.ltb_spec len kPayloadLen16MaxExclusive) as [H'|H']; unfold kPayloadLen16Code, kPayloadLen16MaxExclusive in *.
    + assert (Hb : forall x, nth_byte (b0 :: [bit m kMaskBit .| 126; (len .>> 8) .& 0xFF; len .& 0xFF] ++ x) 1 = bit m kMaskBit .| 126) by done.
      rewrite Hb. replace ((bit m kMaskBit .| 126) .& kPayloadLenMask) with 126 by (by destruct m). cbn [Z.ltb Z.eqb Z.compare Pos.compare Pos.compare_cont Pos.eqb app length Nat.ltb Nat.leb].
      unfold nth_byte. cbn [nth].
      assert (E : ((((len .>> 8) .& 0xFF) .<< 8) .| (len .& 0xFF)) = len).
      { rewrite lor_shl_add by (lia || apply land255_ok). bits. pose proof (Z.div_mod len (2 ^ 8) ltac:(lia)).
        rewrite (Z.mod_small (len / 2 ^ 8)); [lia|]. split; [apply Z.div_pos; lia|apply Z.div_lt_upper_bound; lia]. }
      rewrite E. destruct (Z.ltb_spec len 126); [lia|]. split; [done|by destruct m].
    + pose proof (be_fold_be_bytes 8 0 len ltac:(lia) ltac:(lia)) as Hf. pose proof (be_bytes_length 8 len) as Hbl.
      set (bb := be_bytes 8 len) in *. change (nth_byte _ 1) with (bit m kMaskBit .| kPayloadLen64Code).
      replace ((bit m kMaskBit .| kPayloadLen64Code) .& kPayloadLenMask) with 127 by (by destruct m).
      cbn [Z.ltb Z.eqb Z.compare Pos.compare Pos.compare_cont Pos.eqb length app drop].
      rewrite drop_0, (take_app_length' bb), length_app, Hbl by (by rewrite Hbl). cbn [Nat.add Nat.ltb Nat.leb].
      rewrite Hf, Z.mod_small by lia. replace (0 * 2 ^ (8 * Z.of_nat 8) + len) with len by lia.
      destruct (Z.ltb_spec len 65536); [lia|]. rewrite top_bit by lia. destruct (Z.ltb_spec len (2 ^ 63)); [|lia].
      split; [done|by destruct m].
Qed.

(** A frame the parser accepts and the serialiser reproduces. *)
Record frame_ok (f : Frame) : Prop := {
  fr_rsv : rsv1 f = false /\ rsv2 f = false /\ rsv3 f = false;
  fr_opcode : is_known_opcode (opcode f) = true;
  fr_length : payload_length f = #(payload f) /\ #(payload f) <= kMaxPayloadBytes;
  fr_control : is_control_opcode (opcode f) = true -> fin f = true /\ #(payload f) <= 125;
  fr_key : if masked f then 0 <= masking_key f < 2 ^ 32 else masking_key f = 0
}.

Lemma first_byte f : frame_ok f ->
  let b0 := bit (fin f) kFinBit .| bit (rsv1 f) kRsv1Bit .| bit (rsv2 f) kRsv2Bit .| bit (rsv3 f) kRsv3Bit .| u8 (opcode f) in
  negb (b0 .& kFinBit =? 0) = fin f /\ b0 .& kRsv1Bit = 0 /\ b0 .& kRsv2Bit = 0 /\ b0 .& kRsv3Bit = 0 /\ b0 .& kOpcodeMask = opcode f.
Proof.
  intros [(-> & -> & ->) Ho _ _ _]. unfold is_known_opcode in Ho. rewrite !orb_true_iff, !Z.eqb_eq in Ho.
  destruct Ho as [[[[[-> | ->]| ->]| ->]| ->]| ->]; by destruct (fin f).
Qed.

Lemma key_bytes k rest : 0 <= k < 2 ^ 32 ->
  parse_key ([(k .>> 24) .& 0xFF; (k .>> 16) .& 0xFF; (k .>> 8) .& 0xFF; k .& 0xFF] ++ rest) = k.
Proof. intros Hk. pose proof (decode32_encode k rest Hk) as H. unfold encode_uint32_be in H. by rewrite !u8_land255 in H. Qed.

Lemma serialize_eq f : serialize f =
  (bit (fin f) kFinBit .| bit (rsv1 f) kRsv1Bit .| bit (rsv2 f) kRsv2Bit .| bit (rsv3 f) kRsv3Bit .| u8 (opcode f)) ::
  len_bytes (masked f) (payload_length f) ++
  (if masked f then [(masking_key f .>> 24) .& 0xFF; (masking_key f .>> 16) .& 0xFF; (masking_key f .>> 8) .& 0xFF; masking_key f .& 0xFF]
   else []) ++
  (if masked f then mask_payload (masking_key f) 0 (payload f) else payload f).
Proof. done. Qed.

Lemma parse_serialize f rest : frame_ok f -> parse (serialize f ++ rest) = Some f.
Proof.
  intros Hok. destruct (first_byte f Hok) as (F1 & F2 & F3 & F4 & F5). pose proof Hok as [(R1 & R2 & R3) Ho [Hl Hm] Hc Hk].
  unfold kMaxPayloadBytes in Hm. rewrite serialize_eq. cbn [app]. set (b0 := _ .| _) in *. rewrite <- !app_assoc.
  set (tl := (if masked f then [_; _; _; _] else []) ++ _). destruct (parse_length_ok b0 (masked f) (payload_length f) tl ltac:(lia)) as [E1 E2].
  unfold parse. rewrite E1, E2. change (nth_byte (b0 :: _) 0) with b0. rewrite F1, F2, F3, F4, F5, Ho. cbn [negb orb Z.eqb].
  destruct (Nat.ltb_spec (length (b0 :: len_bytes (masked f) (payload_length f) ++ tl)) 2) as [Hlt|_].
  { exfalso. cbn [length] in Hlt. rewrite length_app in Hlt. unfold len_bytes in Hlt. revert Hlt. repeat case_match; cbn [length]; lia. }
  cbn [mbind option_bind]. replace (is_control_opcode (opcode f) && (negb (fin f) || (125 <? payload_length f))) with false.
  2: { symmetry. destruct (is_control_opcode (opcode f)); [|done]. destruct (Hc eq_refl) as [-> ?]. cbn. apply Z.ltb_ge. lia. }
  destruct (Z.ltb_spec kMaxPayloadBytes (payload_length f)); [unfold kMaxPayloadBytes in *; lia|].
  set (lb := len_bytes (masked f) (payload_length f)) in *.
  assert (Hd : drop (S (length lb)) (b0 :: lb ++ tl) = tl) by (cbn [drop]; by rewrite drop_app_length).
  assert (Hlen : length (b0 :: lb ++ tl) = (S (length lb) + length tl)%nat) by (cbn [length]; rewrite length_app; lia).
  rewrite Hl. rewrite Nat2Z.id. unfold tl in *. clear tl. destruct f as [ff fr1 fr2 fr3 fo fm fl fk fp]. cbn [masked masking_key payload fin opcode rsv1 rsv2 rsv3 payload_length] in *.
  subst fr1 fr2 fr3. destruct fm.
  - rewrite Hlen. rewrite !length_app. cbn [length]. rewrite mask_payload_length.
    destruct (Nat.ltb_spec (S (length lb) + (4 + (length fp + length rest))) (S (length lb) + 4)); [lia|]. cbn [mbind option_bind].
    rewrite Hd, key_bytes by done. destruct (Nat.ltb_spec (S (length lb) + (4 + (length fp + length rest))) (S (length lb) + 4 + length fp)); [lia|].
    rewrite <- drop_drop, Hd. cbn [drop app].
    rewrite drop_0, take_app_length' by (by rewrite mask_payload_length). rewrite mask_payload_involutive, Hl. done.
  - cbn [mbind option_bind app] in *. rewrite Hlen, length_app.
    destruct (Nat.ltb_spec (S (length lb) + (length fp + length rest)) (S (length lb) + length fp)); [lia|].
    rewrite Hd, take_app_length, Hl, Hk. done.
Qed.

(** *** The parser accepts nothing but images of frames *)

Lemma be_bytes_snoc n v : be_bytes (S n) v = be_bytes n (v .>> 8) ++ [v .& 255].
Proof.
  induction n as [|n IH]; [cbn; by rewrite Z.shiftr_0_r|].
  change (be_bytes (S (S n)) v) with (((v .>> (8 * Z.of_nat (S n))) .& 255) :: be_bytes (S n) v). rewrite IH.
  change (be_bytes (S n) (v .>> 8)) with ((((v .>> 8) .>> (8 * Z.of_nat n)) .& 255) :: be_bytes n (v .>> 8)).
  cbn [app]. f_equal. rewrite Z.shiftr_shiftr by lia. do 2 f_equal. lia.
Qed.

Lemma be_fold_small l : bytes_ok l -> (length l <= 8)%nat -> 0 <= be_fold 0 l < 2 ^ (8 * #l).
Proof.
  induction l as [|b l IH] using rev_ind; intros Hb Hl; [done|]. apply Forall_app in Hb as [Hb1 Hb2]. inversion Hb2 as [|? ? Hb _]; subst.
  rewrite length_app in Hl. cbn [length] in Hl. specialize (IH Hb1 ltac:(lia)). rewrite be_fold_app. unfold be_fold at 1 3. cbn [foldl]. fold (be_fold 0 l).
  rewrite length_app. cbn [length]. replace (8 * Z.of_nat (length l + 1)) with (8 * #l + 8) by lia. rewrite Z.pow_add_r by lia.
  assert (Hp : 2 ^ (8 * #l) <= 2 ^ 56) by (apply Z.pow_le_mono_r; lia). unfold byte_ok in Hb.
  rewrite u64_small by (unfold u64_ok; rewrite shl_mul by lia; lia). rewrite lor_shl_add by lia. lia.
Qed.

Lemma be_bytes_be_fold l : bytes_ok l -> (length l <= 8)%nat -> be_bytes (length l) (be_fold 0 l) = l.
Proof.
  induction l as [|b l IH] using rev_ind; intros Hb Hl; [done|]. apply Forall_app in Hb as [Hb1 Hb2]. inversion Hb2 as [|? ? Hb _]; subst.
  rewrite length_app in *. cbn [length] in *. pose proof (be_fold_small l Hb1 ltac:(lia)) as Hs.
  assert (Hp : 2 ^ (8 * #l) <= 2 ^ 56) by (apply Z.pow_le_mono_r; lia). unfold byte_ok in Hb.
  rewrite Nat.add_1_r, be_bytes_snoc, be_fold_app. unfold be_fold at 1 3. cbn [foldl]. fold (be_fold 0 l).
  rewrite u64_small by (unfold u64_ok; rewrite shl_mul by lia; lia). rewrite lor_shl_add by lia. bits. change (2 ^ 8) with 256.
  rewrite Z.div_add_l, (Z.div_small b 256), Z.add_0_r by lia. rewrite IH by (done || lia).
  rewrite Z.add_comm, Z.mod_add, Z.mod_small by lia. done.
Qed.

(** The two fixed bytes, checked value by value. *)
Lemma first_byte_inv b0 : byte_ok b0 -> is_known_opcode (b0 .& kOpcodeMask) = true ->
  negb (b0 .& kRsv1Bit =? 0) = false -> negb (b0 .& kRsv2Bit =? 0) = false -> negb (b0 .& kRsv3Bit =? 0) = false ->
  bit (negb (b0 .& kFinBit =? 0)) kFinBit .| bit false kRsv1Bit .| bit false kRsv2Bit .| bit false kRsv3Bit .| u8 (b0 .& kOpcodeMask) = b0.
Proof.
  intros Hb Ho H1 H2 H3.
  pose proof (forall_below (fun b0 => negb (is_known_opcode (b0 .& kOpcodeMask) && (b0 .& kRsv1Bit =? 0) && (b0 .& kRsv2Bit =? 0) && (b0 .& kRsv3Bit =? 0))
    || (bit (negb (b0 .& kFinBit =? 0)) kFinBit .| bit false kRsv1Bit .| bit false kRsv2Bit .| bit false kRsv3Bit .| u8 (b0 .& kOpcodeMask) =? b0)) 256
    ltac:(by vm_compute) b0 ltac:(unfold byte_ok in Hb; lia)) as H.
  cbv beta in H. apply negb_false_iff in H1, H2, H3. rewrite Ho, H1, H2, H3 in H. cbn [andb negb orb] in H. by apply Z.eqb_eq.
Qed.

Lemma second_byte_inv b1 : byte_ok b1 -> 0 <= b1 .& kPayloadLenMask < 128 /\
  bit (negb (b1 .& kMaskBit =? 0)) kMaskBit .| (b1 .& kPayloadLenMask) = b1.
Proof.
  intros Hb.
  pose proof (forall_below (fun b1 => (0 <=? b1 .& kPayloadLenMask) && (b1 .& kPayloadLenMask <? 128) &&
    (bit (negb (b1 .& kMaskBit =? 0)) kMaskBit .| (b1 .& kPayloadLenMask) =? b1)) 256 ltac:(by vm_compute) b1 ltac:(unfold byte_ok in Hb; lia)) as H.
  cbv beta in H. apply andb_true_iff in H as [[H1 H2]%andb_true_iff H3]. split; [lia|by apply Z.eqb_eq].
Qed.

Lemma parse_length_inv b0 b1 tl len hs : bytes_ok (b0 :: b1 :: tl) -> parse_length (b0 :: b1 :: tl) = Some (len, hs) ->
  0 <= len < 2 ^ 63 /\ b0 :: b1 :: tl = b0 :: len_bytes (negb (b1 .& kMaskBit =? 0)) len ++ drop hs (b0 :: b1 :: tl) /\
  hs = S (length (len_bytes (negb (b1 .& kMaskBit =? 0)) len)).
Proof.
  intros Hb. inversion Hb as [|? ? _ Hb']; subst. inversion Hb' as [|? ? Hb1 Ht]; subst. destruct (second_byte_inv b1 Hb1) as [Hr E1].
  unfold parse_length. change (nth_byte (b0 :: b1 :: tl) 1) with b1. unfold len_bytes, kPayloadLen16Code, kPayloadLen16MaxExclusive, kPayloadLen64Code in *.
  set (m := negb (b1 .& kMaskBit =? 0)) in *. set (v := b1 .& kPayloadLenMask) in *. destruct (Z.ltb_spec v 126) as [Hv|Hv].
  - intros E; injection E as E2 E3; rewrite <- E2, <- E3; clear E2 E3. destruct (Z.ltb_spec v 126); [|lia]. cbn [length app drop]. rewrite E1, u8_small by done. split; [lia|done].
  - destruct (Z.eqb_spec v 126) as [Ev|Ev].
    + destruct tl as [|b2 [|b3 tl]]; [done|done|]. cbn [length Nat.ltb Nat.leb]. change (nth_byte (_ :: _) 2) with b2. change (nth_byte (_ :: _) 3) with b3.
      apply Forall_cons in Ht as [Hb2 [Hb3 _]%Forall_cons]. unfold byte_ok in Hb2, Hb3.
      rewrite lor_shl_add by lia. destruct (Z.ltb_spec (b2 * 2 ^ 8 + b3) 126) as [|Hlen]; [done|]. intros E; injection E as E2 E3; rewrite <- E2, <- E3; clear E2 E3.
      destruct (Z.ltb_spec (b2 * 2 ^ 8 + b3) 126); [lia|]. destruct (Z.ltb_spec (b2 * 2 ^ 8 + b3) 65536); [|lia]. rewrite Ev in E1. rewrite E1.
      bits. rewrite Z.div_add_l, (Z.div_small b3), Z.add_0_r, (Z.mod_small b2) by lia.
      rewrite (Z.add_comm _ b3), Z.mod_add, (Z.mod_small b3) by lia. split; [lia|done].
    + assert (Ev' : v = 127) by lia. cbn [length]. destruct (Nat.ltb_spec (S (S (length tl))) 10) as [|Hlt]; [done|].
      cbn [drop]. assert (Ht8 : bytes_ok (take 8 tl)) by (by apply Forall_take).
      assert (Hl8 : length (take 8 tl) = 8%nat) by (rewrite length_take; lia).
      pose proof (be_fold_small (take 8 tl) Ht8 ltac:(lia)) as Hs. pose proof (be_bytes_be_fold (take 8 tl) Ht8 ltac:(lia)) as Hf.
      rewrite Hl8 in Hs, Hf. rewrite !drop_0. set (len0 := be_fold 0 (take 8 tl)) in *. destruct (Z.ltb_spec len0 65536) as [|Hge]; [done|].
      rewrite top_bit by lia. destruct (Z.ltb_spec len0 (2 ^ 63)) as [Hlt'|]; [|done]. cbn [negb]. intros E; injection E as E2 E3; rewrite <- E2, <- E3; clear E2 E3.
      destruct (Z.ltb_spec len0 126); [lia|]. destruct (Z.ltb_spec len0 65536); [lia|]. rewrite Ev' in E1. rewrite E1, Hf.
      split; [lia|]. cbn [app drop length]. rewrite Hl8, take_drop. done.
Qed.

Lemma parse_key_inv k0 k1 k2 k3 : byte_ok k0 -> byte_ok k1 -> byte_ok k2 -> byte_ok k3 ->
  let k := parse_key [k0; k1; k2; k3] in
  0 <= k < 2 ^ 32 /\ [(k .>> 24) .& 0xFF; (k .>> 16) .& 0xFF; (k .>> 8) .& 0xFF; k .& 0xFF] = [k0; k1; k2; k3].
Proof.
  intros H0 H1 H2 H3. unfold parse_key, nth_byte. cbn [nth]. rewrite or_bytes by done. unfold byte_ok in *. cbv zeta.
  split; [lia|]. bits. change (2 ^ 8) with 256. change (2 ^ 16) with 65536. change (2 ^ 24) with 16777216.
  repeat f_equal; Z.div_mod_to_equations; lia.
Qed.

Lemma parse_key_take tl : parse_key tl = parse_key (take 4 tl).
Proof. unfold parse_key, nth_byte. by destruct tl as [|a [|b [|c [|d tl]]]]. Qed.

Lemma parse_canonical data f : bytes_ok data -> parse data = Some f -> frame_ok f /\ exists rest, data = serialize f ++ rest.
Proof.
  intros Hb H. unfold parse in H. destruct data as [|b0 [|b1 tl]]; [done|done|]. change (length (b0 :: b1 :: tl) <? 2)%nat with false in H. cbv iota in H.
  change (nth_byte (b0 :: b1 :: tl) 0) with b0 in H. change (nth_byte (b0 :: b1 :: tl) 1) with b1 in H.
  assert (Hb0 : byte_ok b0) by (by inversion Hb).
  destruct (is_known_opcode (b0 .& kOpcodeMask)) eqn:Eo; [|done]. cbn [negb orb] in H.
  destruct (negb (b0 .& kRsv1Bit =? 0)) eqn:E1; [done|]. destruct (negb (b0 .& kRsv2Bit =? 0)) eqn:E2; [done|].
  destruct (negb (b0 .& kRsv3Bit =? 0)) eqn:E3; [done|]. cbn [orb] in H.
  apply bind_Some in H as ([len hs] & El & H). destruct (parse_length_inv b0 b1 tl len hs Hb El) as (Hl & Hd & Hh). clear El.
  set (m := negb (b1 .& kMaskBit =? 0)) in *. set (data := b0 :: b1 :: tl) in *.
  destruct (is_control_opcode _ && _) eqn:Ec; [done|]. destruct (Z.ltb_spec kMaxPayloadBytes len) as [|Hmax]; [done|].
  apply bind_Some in H as ([key hs'] & Ek & H). destruct (Nat.ltb_spec (length data) (hs' + Z.to_nat len)) as [|Hlen]; [done|].
  injection H as <-. pose proof (first_byte_inv b0 Hb0 Eo E1 E2 E3) as Hf.
  assert (Hdrop : bytes_ok (drop hs data)) by (by apply Forall_drop).
  assert (Hp : length (take (Z.to_nat len) (drop hs' data)) = Z.to_nat len) by (rewrite length_take, length_drop; lia).
  assert (Hp' : length (if m then mask_payload key 0 (take (Z.to_nat len) (drop hs' data)) else take (Z.to_nat len) (drop hs' data)) = Z.to_nat len).
  { destruct m; [by rewrite mask_payload_length|done]. }
  assert (Hkey : (if m then 0 <= key < 2 ^ 32 else key = 0) /\
    drop hs data = (if m then [(key .>> 24) .& 0xFF; (key .>> 16) .& 0xFF; (key .>> 8) .& 0xFF; key .& 0xFF] else []) ++ drop hs' data).
  { destruct m; [|by injection Ek as <- <-]. destruct (Nat.ltb_spec (length data) (hs + 4)) as [|Hk4]; [done|]. injection Ek as Ek <-.
    assert (Hdl : (4 <= length (drop hs data))%nat) by (rewrite length_drop; lia).
    rewrite <- drop_drop. destruct (drop hs data) as [|k0 [|k1 [|k2 [|k3 tl']]]]; try (cbn in Hdl; lia).
    rewrite parse_key_take in Ek. change (take 4 _) with [k0; k1; k2; k3] in Ek. unfold bytes_ok in Hdrop. rewrite !Forall_cons in Hdrop. destruct Hdrop as (K0 & K1 & K2 & K3 & _).
    destruct (parse_key_inv k0 k1 k2 k3 K0 K1 K2 K3) as [Kr Ke]. rewrite <- Ek. split; [done|]. rewrite Ke. cbn [app drop]. by rewrite drop_0. }
  split.
  - split; cbn [rsv1 rsv2 rsv3 opcode payload_length payload fin masking_key masked]; [done|done| | |apply Hkey].
    + rewrite Hp'. lia.
    + intros Hct. rewrite Hct in Ec. cbn [andb] in Ec. apply orb_false_iff in Ec as [Hfin Hlen125]. apply negb_false_iff in Hfin. rewrite Hp'. split; [done|lia].
  - exists (drop (Z.to_nat len) (drop hs' data)). rewrite Hd at 1. rewrite serialize_eq.
    cbn [rsv1 rsv2 rsv3 opcode payload_length payload fin masking_key masked]. rewrite Hf. cbn [app]. f_equal. rewrite <- !app_assoc. f_equal.
    destruct Hkey as [_ ->]. f_equal. destruct m; rewrite ?mask_payload_involutive; by rewrite take_drop.
Qed.

(** ** Properties *)

(** A frame survives the wire, masked or not, in each of the three length
    encodings: [parse] returns it from the front of any buffer that starts
    with its image. *)
Theorem ws_frame_roundtrip f rest : frame_ok f -> parse (serialize f ++ rest) = Some f.
Proof. apply parse_serialize. Qed.

Definition masked_text : Frame := mkFrame true false false false Text true 300 0xDEADBEEF (replicate 300 97).

Lemma ws_frame_roundtrip_witness : parse (serialize masked_text ++ [1; 2]) = Some masked_text.
Proof. apply (ws_frame_roundtrip masked_text [1; 2]). split; by vm_compute. Defined.

(** And [parse] accepts nothing else: what it accepts has no reserved bit or
    opcode, a control frame is whole and short, the payload is within 16 MiB,
    and the bytes are exactly those [serialize] writes for the frame, so a
    non-minimal length or any other second encoding is refused. *)
Theorem ws_parse_canonical data f : bytes_ok data -> parse data = Some f -> frame_ok f /\ exists rest, data = serialize f ++ rest.
Proof. apply parse_canonical. Qed.

Lemma ws_parse_canonical_witness : exists f rest, parse [0x89; 0x82; 1; 2; 3; 4; 0x69; 0x6B; 7] = Some f /\
  [0x89; 0x82; 1; 2; 3; 4; 0x69; 0x6B; 7] = serialize f ++ rest.
Proof.
  destruct (ws_parse_canonical [0x89; 0x82; 1; 2; 3; 4; 0x69; 0x6B; 7] (mkFrame true false false false Ping true 2 0x01020304 [0x68; 0x69]))
    as [_ [rest Hr]]; [by repeat constructor|by vm_compute|]. eexists _, rest. split; [|exact Hr]. by vm_compute.
Defined.
