(* ===== verification/WsHandshake.v ===== *)
(** * WebSocket handshake

    Model of example/http-websocket/src/handshake.cpp: SHA-1, Base64, the
    tokens of a header value, and the recognition of an upgrade request.  A
    [uint32_t] of SHA-1 is an integer kept below [2^32]. *)
From S2P Require Import Prelude Utils Http1.

Local Open Scope Z_scope.

(** ** SHA-1 *)

Definition rotl (value bits : Z) : Z := u32 (value .<< bits) .| (value .>> (32 - bits)).

Definition pad_step (msg : bytes) : bytes + bytes :=
  if ((length msg + 8) mod 64 =? 0)%nat then inr msg else inl (msg ++ [0]).

(** The padded message; 64 rounds always reach the next block. *)
Definition sha1_pad (data : bytes) : option bytes :=
  let total_bits := u64 (#data * 8) in
  msg ← loop pad_step 64 (data ++ [0x80]);
  Some (msg ++ ((fun i => u8 ((total_bits .>> (i * 8)) .& 0xFF)) <$> [7; 6; 5; 4; 3; 2; 1; 0])).

(** [w[0..15]] of a chunk, last word first. *)
Definition chunk_words (chunk : bytes) : list Z :=
  rev ((fun i => u32 (nth_byte chunk (i * 4) .<< 24) .| (nth_byte chunk (i * 4 + 1) .<< 16)
                 .| (nth_byte chunk (i * 4 + 2) .<< 8) .| nth_byte chunk (i * 4 + 3)) <$> seq 0 16).

(** [w[16..79]], on the list with the last word first. *)
Fixpoint extend_words (n : nat) (w : list Z) : list Z :=
  match n with
  | O => w
  | S n => extend_words n (rotl (nth 2 w 0 .^ nth 7 w 0 .^ nth 13 w 0 .^ nth 15 w 0) 1 :: w)
  end.

Record Regs := mkRegs { ra : Z; rb : Z; rc : Z; rd : Z; re : Z }.

(** [~b] on 32 bits. *)
Definition not32 (b : Z) : Z := 0xFFFFFFFF - b.

Definition sha1_round (r : Regs) (iw : nat * Z) : Regs :=
  let '(i, w) := iw in
  let '(mkRegs a b c d e) := r in
  let '(f, k) := if (i <? 20)%nat then ((b .& c) .| (not32 b .& d), 0x5A827999)
                 else if (i <? 40)%nat then (b .^ c .^ d, 0x6ED9EBA1)
                 else if (i <? 60)%nat then ((b .& c) .| (b .& d) .| (c .& d), 0x8F1BBCDC)
                 else (b .^ c .^ d, 0xCA62C1D6) in
  let temp := u32 (rotl a 5 + f + e + k + w) in
  mkRegs temp a (rotl b 30) c d.

Definition sha1_chunk (h : Regs) (chunk : bytes) : Regs :=
  let w := rev (extend_words 64 (chunk_words chunk)) in
  let r := foldl sha1_round h (zip (seq 0 80) w) in
  mkRegs (u32 (ra h + ra r)) (u32 (rb h + rb r)) (u32 (rc h + rc r)) (u32 (rd h + rd r)) (u32 (re h + re r)).

Fixpoint sha1_chunks (n : nat) (msg : bytes) (h : Regs) : Regs :=
  match n with O => h | S n => sha1_chunks n (drop 64 msg) (sha1_chunk h (take 64 msg)) end.

Definition word_bytes (h : Z) : bytes :=
  [u8 ((h .>> 24) .& 0xFF); u8 ((h .>> 16) .& 0xFF); u8 ((h .>> 8) .& 0xFF); u8 (h .& 0xFF)].

Definition sha1 (data : bytes) : option bytes :=
  msg ← sha1_pad data;
  let h := sha1_chunks (length msg / 64) msg (mkRegs 0x67452301 0xEFCDAB89 0x98BADCFE 0x10325476 0xC3D2E1F0) in
  Some (word_bytes (ra h) ++ word_bytes (rb h) ++ word_bytes (rc h) ++ word_bytes (rd h) ++ word_bytes (re h)).

(** ** Base64 *)

Definition kAlphabet : bytes := str "ABCDEFGHIJKLMNOPQRSTUVWXYZabcdefghijklmnopqrstuvwxyz0123456789+/".

Definition b64_char (triple shift : Z) : Z := nth_byte kAlphabet (Z.to_nat ((triple .>> shift) .& 0x3F)).

Fixpoint base64_encode (data : bytes) : bytes :=
  match data with
  | a :: b :: c :: data =>
      let triple := (a .<< 16) .| (b .<< 8) .| c in
      [b64_char triple 18; b64_char triple 12; b64_char triple 6; b64_char triple 0] ++ base64_encode data
  | [a; b] =>
      let triple := (a .<< 16) .| (b .<< 8) in [b64_char triple 18; b64_char triple 12; b64_char triple 6; 61]
  | [a] => let triple := a .<< 16 in [b64_char triple 18; b64_char triple 12; 61; 61]
  | [] => []
  end.

(** ** Headers *)

(** Erasing white space from the front and from the back. *)
Definition trim_space (s : bytes) : bytes := rev (skip_space (rev (skip_space s))).

Definition header_has_token (value token : bytes) : bool :=
  existsb (fun part => bool_decide (trim_space part = to_lower token)) (getlines 44 [] (to_lower value)).

Definition is_b64 (c : Z) : bool :=
  ((65 <=? c) && (c <=? 90)) || ((97 <=? c) && (c <=? 122)) || is_digit c || (c =? 43) || (c =? 47).

Definition is_valid_ws_key (key : bytes) : bool :=
  (length key =? 24)%nat && forallb is_b64 (take 22 key) && bool_decide (drop 22 key = [61; 61]).

Record HandshakeRequest := mkHandshake { hs_method : bytes; hs_headers : list (bytes * bytes) }.

(** The first white-space delimited word, as [operator>>] reads it. *)
Fixpoint take_word (s : bytes) : bytes :=
  match s with [] => [] | c :: s => if is_space c then [] else c :: take_word s end.

(** One header line; a line without a colon is skipped. *)
Definition add_line (line : bytes) (hs : list (bytes * bytes)) : list (bytes * bytes) :=
  match index_of 58 line with
  | None => hs
  | Some colon => set_header hs (to_lower (take colon line)) (skip_space (drop (colon + 1) line))
  end.

Fixpoint handshake_headers (lines : list bytes) (hs : list (bytes * bytes)) : list (bytes * bytes) :=
  match lines with
  | [] => hs
  | line :: lines =>
      if bool_decide (strip_cr line = []) then hs
      else handshake_headers lines (add_line (strip_cr line) hs)
  end.

Definition terminator : bytes := CRLF ++ CRLF.

Definition parse_handshake (request : bytes) : option HandshakeRequest :=
  header_end ← find_sub terminator request;
  match getlines LF [] (take header_end request) with
  | [] => None
  | line :: lines =>
      let method := take_word (skip_space (strip_cr line)) in
      match method with
      | [] => None
      | _ => Some (mkHandshake method (handshake_headers lines []))
      end
  end.

Definition is_upgrade (req : HandshakeRequest) : bool :=
  let hdrs := hs_headers req in
  match find_exact hdrs (str "upgrade"), find_exact hdrs (str "connection"),
        find_exact hdrs (str "sec-websocket-key"), find_exact hdrs (str "sec-websocket-version") with
  | Some upgrade, Some connection, Some key, Some version =>
      bool_decide (hs_method req = str "GET") && header_has_token upgrade (str "websocket") &&
      header_has_token connection (str "upgrade") && bool_decide (to_lower version = str "13") && is_valid_ws_key key
  | _, _, _, _ => false
  end.

Definition kGuid : bytes := str "258EAFA5-E914-47DA-95CA-C5AB0DC85B11".

Definition compute_accept (key : bytes) : option bytes :=
  digest ← sha1 (key ++ kGuid); Some (base64_encode digest).

(** ** Base64 decoding, as a specification *)

Definition b64_val (c : Z) : option Z := Z.of_nat <$> index_of c kAlphabet.

Fixpoint b64_decode (s : bytes) : option bytes :=
  match s with
  | [] => Some []
  | a :: b :: c :: d :: s =>
      x ← b64_val a; y ← b64_val b;
      if c =? 61 then (if (d =? 61) && bool_decide (s = []) then Some [x * 4 + y / 16] else None) else
      z ← b64_val c;
      if d =? 61 then (if bool_decide (s = []) then Some [x * 4 + y / 16; (y mod 16) * 16 + z / 4] else None) else
      t ← b64_val d; rest ← b64_decode s;
      Some (x * 4 + y / 16 :: (y mod 16) * 16 + z / 4 :: (z mod 4) * 64 + t :: rest)
  | _ => None
  end.

Lemma alphabet_ok i : 0 <= i < 64 -> let c := nth_byte kAlphabet (Z.to_nat i) in
  b64_val c = Some i /\ c <> 61 /\ is_b64 c = true.
Proof.
  intros Hi. pose proof (forall_below (fun i => let c := nth_byte kAlphabet (Z.to_nat i) in
    bool_decide (b64_val c = Some i) && negb (c =? 61) && is_b64 c) 64 ltac:(by vm_compute) i Hi) as H.
  cbv beta zeta in *. apply andb_true_iff in H as [[H1%bool_decide_eq_true H2]%andb_true_iff H3]. split; [done|]. split; [lia|done].
Qed.

Lemma b64_char_spec triple shift : 0 <= shift -> let c := b64_char triple shift in
  b64_val c = Some (triple / 2 ^ shift mod 64) /\ c <> 61 /\ is_b64 c = true.
Proof.
  intros Hs. unfold b64_char. rewrite (land_mask _ 6 63), shr_div by done. apply alphabet_ok. apply Z.mod_pos_bound. lia.
Qed.

Lemma triple_value a b c : byte_ok a -> byte_ok b -> byte_ok c -> (a .<< 16) .| (b .<< 8) .| c = a * 65536 + b * 256 + c.
Proof.
  unfold byte_ok. intros Ha Hb Hc. rewrite !shl_mul by lia. rewrite (lor_low_add 8 (b * 2 ^ 8)) by (lia || apply Z.mod_mul; lia).
  rewrite (lor_low_add 16 (a * 2 ^ 16)) by (lia || apply Z.mod_mul; lia). lia.
Qed.

Lemma base64_decode_encode data : bytes_ok data -> b64_decode (base64_encode data) = Some data.
Proof.
  induction data as [data IH] using (well_founded_induction (well_founded_ltof _ (@length Z))). unfold ltof in IH. intros Hb.
  destruct data as [|a [|b [|c data]]]; [done| | |]; unfold bytes_ok in Hb; rewrite ?Forall_cons in Hb.
  - destruct Hb as [Ha _]. cbn [base64_encode]. rewrite shl_mul by lia. set (t := a * 2 ^ 16). destruct (b64_char_spec t 18 ltac:(lia)) as (E1 & _). destruct (b64_char_spec t 12 ltac:(lia)) as (E2 & _).
    cbn [b64_decode]. rewrite E1, E2. cbn [mbind option_bind Z.eqb Pos.eqb andb]. rewrite bool_decide_eq_true_2 by done. do 2 f_equal.
    unfold t, byte_ok in *. clear -Ha. Z.div_mod_to_equations. lia.
  - destruct Hb as (Ha & Hb' & _). cbn [base64_encode]. pose proof (triple_value a b 0 Ha Hb' ltac:(done)) as Ht. rewrite Z.lor_0_r in Ht.
    rewrite Ht. set (t := a * 65536 + b * 256 + 0). destruct (b64_char_spec t 18 ltac:(lia)) as (E1 & _). destruct (b64_char_spec t 12 ltac:(lia)) as (E2 & _).
    destruct (b64_char_spec t 6 ltac:(lia)) as (E3 & N3 & _).
    cbn [b64_decode]. rewrite E1, E2, E3, (proj2 (Z.eqb_neq _ _) N3). cbn [mbind option_bind Z.eqb Pos.eqb]. rewrite bool_decide_eq_true_2 by done.
    unfold t, byte_ok in *. clear -Ha Hb'. repeat f_equal; Z.div_mod_to_equations; lia.
  - destruct Hb as (Ha & Hb' & Hc & Hd). cbn [base64_encode]. rewrite triple_value by done. set (t := a * 65536 + b * 256 + c).
    destruct (b64_char_spec t 18 ltac:(lia)) as (E1 & _). destruct (b64_char_spec t 12 ltac:(lia)) as (E2 & _).
    destruct (b64_char_spec t 6 ltac:(lia)) as (E3 & N3 & _). destruct (b64_char_spec t 0 ltac:(lia)) as (E4 & N4 & _).
    cbn [app b64_decode]. rewrite E1, E2, E3, E4, (proj2 (Z.eqb_neq _ _) N3), (proj2 (Z.eqb_neq _ _) N4). cbn [mbind option_bind].
    rewrite IH by (cbn; done || lia). cbn [mbind option_bind]. unfold t, byte_ok in *. clear -Ha Hb' Hc.
    repeat f_equal; rewrite ?Z.pow_0_r, ?Z.div_1_r; Z.div_mod_to_equations; lia.
Qed.

Lemma base64_length data : (length (base64_encode data) = 4 * ((length data + 2) / 3))%nat.
Proof.
  induction data as [data IH] using (well_founded_induction (well_founded_ltof _ (@length Z))). unfold ltof in IH.
  destruct data as [|a [|b [|c data]]]; [done|done|done|]. cbn [base64_encode]. rewrite length_app, IH by (cbn; lia). cbn [length].
  replace (S (S (S (length data))) + 2)%nat with ((length data + 2) + 1 * 3)%nat by lia. rewrite Nat.div_add by lia. lia.
Qed.

(** ** The digest and the accept key *)

Lemma pad_total msg : exists k, loop pad_step 64 msg = Some (msg ++ replicate k 0) /\ ((length msg + k + 8) mod 64 = 0)%nat /\ (k < 64)%nat.
Proof.
  assert (H : forall fuel m, ((64 - (length m + 8) mod 64) mod 64 < fuel)%nat ->
    exists k, loop pad_step fuel m = Some (m ++ replicate k 0) /\ ((length m + k + 8) mod 64 = 0)%nat /\ (k < fuel)%nat).
  { induction fuel as [|fuel IH]; intros m Hm; [lia|]. cbn [loop].
    unfold pad_step at 1. destruct (Nat.eqb_spec ((length m + 8) mod 64) 0) as [E|E].
    - exists O. rewrite app_nil_r. split; [done|]. split; [by rewrite Nat.add_0_r|lia].
    - destruct (IH (m ++ [0])) as (k & Hk & Hm' & Hlt).
      { rewrite length_app. cbn [length]. pose proof (Nat.mod_upper_bound (length m + 8) 64 ltac:(lia)).
        replace (length m + 1 + 8)%nat with ((length m + 8) + 1)%nat by lia. rewrite <- Nat.Div0.add_mod_idemp_l.
        set (r := ((length m + 8) mod 64)%nat) in *. destruct (decide (r = 63%nat)) as [->|].
        - cbn in *. lia.
        - rewrite (Nat.mod_small (r + 1)) by lia. rewrite Nat.mod_small in Hm |- * by lia. lia. }
      exists (S k). rewrite Hk, <- app_assoc. split; [done|]. rewrite length_app in Hm'. cbn [length] in Hm'. split; [rewrite <- Hm'; f_equal; lia|lia]. }
  apply H. apply Nat.mod_upper_bound. lia.
Qed.

Lemma sha1_total data : exists d, sha1 data = Some d /\ length d = 20%nat /\ bytes_ok d.
Proof.
  unfold sha1, sha1_pad. cbv zeta. destruct (pad_total (data ++ [0x80])) as (k & -> & _). cbn [mbind option_bind].
  eexists. split; [reflexivity|]. split; [done|]. unfold word_bytes. cbn [app].
  do 20 (constructor; [apply u8_range|]). constructor.
Qed.

(** ** Recognising an upgrade *)

Lemma nonce_key_valid nonce : length nonce = 16%nat -> is_valid_ws_key (base64_encode nonce) = true.
Proof.
  intros Hl. do 16 (destruct nonce as [|? nonce]; [done|]). destruct nonce; [|done]. clear Hl. cbn [base64_encode app].
  unfold is_valid_ws_key. cbn [length Nat.eqb take drop forallb andb].
  assert (Hc : forall t s, 0 <= s -> is_b64 (b64_char t s) = true) by (intros t s Hs; by apply b64_char_spec).
  rewrite !Hc by lia. cbn [andb]. by rewrite bool_decide_eq_true_2.
Qed.

Lemma find_sub_skip c s : c <> CR -> find_sub terminator (c :: s) = S <$> find_sub terminator s.
Proof.
  intros Hc. cbn [find_sub]. rewrite bool_decide_eq_false_2; [done|]. intros H. apply (f_equal head) in H. cbn in H. congruence.
Qed.

Lemma find_sub_clean l s : clean l -> find_sub terminator (l ++ s) = (fun n => length l + n)%nat <$> find_sub terminator s.
Proof.
  induction 1 as [|c l [Hc _] Hl IH]; [cbn [app length]; by destruct (find_sub terminator s)|]. cbn [app]. rewrite find_sub_skip, IH by done. by destruct (find_sub terminator s).
Qed.

Definition joined (l : bytes) (ls : list bytes) : bytes := l ++ concat ((CRLF ++.) <$> ls).

Lemma head_block_joined l ls : head_block (l :: ls) = joined l ls ++ terminator.
Proof.
  revert l. induction ls as [|l' ls IH]; intros l; rewrite head_block_cons.
  - unfold joined, head_block. cbn. by rewrite app_nil_r.
  - rewrite IH. unfold joined. cbn [fmap list_fmap concat]. by rewrite <- !app_assoc.
Qed.

Lemma find_terminator l ls rest : Forall (fun l => clean l /\ l <> []) (l :: ls) ->
  find_sub terminator (head_block (l :: ls) ++ rest) = Some (length (joined l ls)).
Proof.
  revert l. induction ls as [|l' ls IH]; intros l Hl; inversion Hl as [|? ? [H1 H2] H3]; subst; rewrite head_block_cons, <- app_assoc, find_sub_clean by done.
  - assert (E : find_sub terminator ((CR :: LF :: head_block []) ++ rest) = Some O) by done. rewrite E.
    unfold joined. cbn [fmap option_fmap option_map list_fmap concat]. f_equal. rewrite app_nil_r. lia.
  - inversion H3 as [|? ? [H4 H5] _]; subst. destruct l' as [|c l']; [done|]. inversion H4 as [|? ? [Hc _] _]; subst.
    assert (E : forall t, find_sub terminator (CR :: LF :: c :: t) = (fun n => 2 + n)%nat <$> find_sub terminator (c :: t)).
    { intros t. change (find_sub terminator (CR :: LF :: c :: t)) with
        (if bool_decide (take 4 (CR :: LF :: c :: t) = terminator) then Some O else S <$> find_sub terminator (LF :: c :: t)).
      rewrite bool_decide_eq_false_2 by (intros H; apply Hc; unfold terminator, CRLF in H; destruct t; cbn in H; by injection H). rewrite find_sub_skip by done.
      by destruct (find_sub terminator (c :: t)). }
    specialize (IH (c :: l') H3). rewrite head_block_cons in *. cbn [app] in *. rewrite E, IH. cbn [fmap option_fmap option_map]. f_equal.
    unfold joined. cbn [fmap list_fmap concat]. rewrite !length_app. change (length CRLF) with 2%nat. lia.
Qed.

Lemma strip_cr_clean l : clean l -> strip_cr l = l.
Proof.
  intros Hl. unfold strip_cr. destruct (last l) as [c|] eqn:E; [|done]. apply last_Some in E as [l' ->].
  apply Forall_app in Hl as [_ Hc]. apply Forall_cons in Hc as [[Hc _] _]. by rewrite (proj2 (Z.eqb_neq c CR)).
Qed.

Lemma getlines_joined l ls : Forall (fun l => clean l /\ l <> []) (l :: ls) -> strip_cr <$> getlines LF [] (joined l ls) = l :: ls.
Proof.
  revert l. induction ls as [|l' ls IH]; intros l Hl; inversion Hl as [|? ? [H1 H2] H3]; subst; unfold joined.
  - cbn [fmap list_fmap concat]. rewrite app_nil_r. assert (E : forall cur s, cur ++ s <> [] -> Forall (fun c => c <> LF) s -> getlines LF cur s = [cur ++ s]).
    { clear. intros cur s. revert cur. induction s as [|c s IH]; intros cur Hne Hs; cbn [getlines].
      - rewrite app_nil_r in *. by destruct cur.
      - inversion Hs; subst. rewrite (proj2 (Z.eqb_neq c LF)) by done. rewrite IH, <- app_assoc; [done|by destruct cur|done]. }
    rewrite E; [cbn; by rewrite strip_cr_clean|done|]. eapply Forall_impl; [exact H1|]. by intros c [_ ?].
  - cbn [fmap list_fmap concat]. change (l ++ (CRLF ++ l') ++ concat ((CRLF ++.) <$> ls)) with (l ++ [CR] ++ LF :: joined l' ls).
    rewrite app_assoc, getlines_line.
    + cbn [app fmap list_fmap]. rewrite strip_cr_line. f_equal. by apply IH.
    + apply Forall_app. split; [|by repeat constructor]. eapply Forall_impl; [exact H1|]. by intros c [_ ?].
Qed.

#[local] Arguments str : simpl never.

(** A header field as a client writes it. *)
Definition hs_field_ok (h : bytes * bytes) : Prop := clean h.1 /\ h.1 <> [] /\ Forall (fun c => c <> 58) h.1 /\ clean h.2.

Global Instance hs_field_ok_dec h : Decision (hs_field_ok h).
Proof. unfold hs_field_ok. apply _. Defined.

Definition lowered (h : bytes * bytes) : bytes * bytes := (to_lower h.1, skip_space h.2).

Lemma set_header_new hs k v : k ∉ hs.*1 -> set_header hs k v = hs ++ [(k, v)].
Proof.
  induction hs as [|[k' v'] hs IH]; cbn; [done|]. rewrite not_elem_of_cons. intros [H1 H2].
  rewrite bool_decide_eq_false_2 by done. by rewrite IH.
Qed.

Lemma add_line_field k v hs : Forall (fun c => c <> 58) k -> add_line (field (k, v)) hs = set_header hs (to_lower k) (skip_space v).
Proof.
  intros Hk. unfold add_line, field. cbn [fst snd]. change (str ": " ++ v) with (58 :: 32 :: v).
  by rewrite index_of_app, take_app_length, drop_delim by done.
Qed.

Lemma handshake_headers_ok fields : forall lines acc, Forall hs_field_ok fields -> NoDup (acc.*1 ++ (lowered <$> fields).*1) ->
  strip_cr <$> lines = field <$> fields -> handshake_headers lines acc = acc ++ (lowered <$> fields).
Proof.
  induction fields as [|[k v] fields IH]; intros [|line lines] acc Hf Hn Hl; try discriminate Hl; [cbn; by rewrite app_nil_r|].
  cbn [fmap list_fmap] in Hl. injection Hl as Hs Hl. inversion Hf as [|? ? (H1 & H2 & H3 & H4) Hf']; subst. cbn [fst snd] in *.
  cbn [handshake_headers]. rewrite Hs. rewrite bool_decide_eq_false_2 by (unfold field; cbn; by destruct k).
  rewrite add_line_field by done. cbn [fmap list_fmap] in Hn |- *. assert (Hnk : to_lower k ∉ acc.*1).
  { apply NoDup_app in Hn as (_ & Hd & _). intros Hin. apply (Hd _ Hin). by left. }
  rewrite set_header_new by done. rewrite (IH lines); [by rewrite <- app_assoc|done| |done].
  rewrite fmap_app. cbn. by rewrite <- app_assoc.
Qed.

(** The request a client sends to open a WebSocket. *)
Definition upgrade_request (target : bytes) (fields : list (bytes * bytes)) : bytes :=
  head_block ((str "GET " ++ target ++ str " HTTP/1.1") :: (field <$> fields)).

Lemma parse_handshake_ok target fields rest : clean target -> Forall hs_field_ok fields -> NoDup (lowered <$> fields).*1 ->
  parse_handshake (upgrade_request target fields ++ rest) = Some (mkHandshake (str "GET") (lowered <$> fields)).
Proof.
  intros Ht Hf Hn. unfold upgrade_request. set (l := str "GET " ++ target ++ str " HTTP/1.1").
  assert (Hl : Forall (fun l => clean l /\ l <> []) (l :: (field <$> fields))).
  { constructor.
    - split; [|done]. apply Forall_app. split; [by repeat constructor|]. apply Forall_app. split; [done|by repeat constructor].
    - apply Forall_fmap. eapply Forall_impl; [exact Hf|]. intros [k v] (H1 & H2 & H3 & H4). unfold field. cbn in *. split; [|by destruct k].
      apply Forall_app. split; [done|]. apply Forall_app. split; [by repeat constructor|done]. }
  unfold parse_handshake. rewrite find_terminator by done. cbn [mbind option_bind].
  rewrite head_block_joined, <- app_assoc, take_app_length. pose proof (getlines_joined l (field <$> fields) Hl) as Hg.
  destruct (getlines LF [] (joined l (field <$> fields))) as [|line lines]; [done|]. cbn [fmap list_fmap] in Hg. injection Hg as -> Hg.
  change (take_word (skip_space l)) with (str "GET"). by rewrite (handshake_headers_ok fields).
Qed.

Lemma base64_clean data : clean (base64_encode data).
Proof.
  assert (Hc : forall t s, 0 <= s -> b64_char t s <> CR /\ b64_char t s <> LF).
  { intros t s Hs. destruct (b64_char_spec t s Hs) as (_ & _ & H). unfold is_b64, is_digit in H. unfold CR, LF. lia. }
  assert (Hp : 61 <> CR /\ 61 <> LF) by done.
  induction data as [data IH] using (well_founded_induction (well_founded_ltof _ (@length Z))). unfold ltof in IH.
  destruct data as [|a [|b [|c data]]]; cbn [base64_encode]; [constructor| | |].
  - repeat (constructor; [first [done|apply Hc; lia]|]). constructor.
  - repeat (constructor; [first [done|apply Hc; lia]|]). constructor.
  - do 4 (constructor; [apply Hc; lia|]). apply IH. cbn. lia.
Qed.

(** ** Properties *)

(** Base64 loses nothing: decoding what [base64_encode] writes gives the data
    back, and the length is the padded one. *)
Theorem base64_roundtrip data : bytes_ok data ->
  b64_decode (base64_encode data) = Some data /\ (length (base64_encode data) = 4 * ((length data + 2) / 3))%nat.
Proof. intros Hb. split; [by apply base64_decode_encode|apply base64_length]. Qed.

Lemma base64_roundtrip_witness : b64_decode (base64_encode [0xFB; 0xFF; 0; 7]) = Some [0xFB; 0xFF; 0; 7].
Proof. apply (base64_roundtrip [0xFB; 0xFF; 0; 7]). by repeat constructor. Defined.

(** [compute_accept] is total: for every key it returns the 28 characters that
    encode a 20-byte digest; and it computes the example of RFC 6455. *)
Theorem ws_accept_total :
  (forall key, exists accept digest, compute_accept key = Some accept /\ length accept = 28%nat /\
     b64_decode accept = Some digest /\ length digest = 20%nat) /\
  compute_accept (str "dGhlIHNhbXBsZSBub25jZQ==") = Some (str "s3pPLMBiTxaQ9kYGzzhZRbK+xOo=").
Proof.
  split; [|by vm_compute]. intros key. unfold compute_accept. destruct (sha1_total (key ++ kGuid)) as (d & -> & Hl & Hb). cbn [mbind option_bind].
  exists (base64_encode d), d. split; [done|]. rewrite base64_length, Hl. split; [done|]. split; [by apply base64_decode_encode|done].
Qed.

(** A client's opening request is recognised: with any target, any further
    fields, the fields in any order and any spelling of their names, with the
    tokens anywhere in their lists, and with the encoding of any 16-byte nonce
    as the key, whatever bytes follow the request. *)
Theorem ws_upgrade_recognised target fields nonce upgrade connection rest :
  clean target -> Forall hs_field_ok fields -> NoDup (lowered <$> fields).*1 ->
  find_exact (lowered <$> fields) (str "upgrade") = Some upgrade -> header_has_token upgrade (str "websocket") = true ->
  find_exact (lowered <$> fields) (str "connection") = Some connection -> header_has_token connection (str "upgrade") = true ->
  find_exact (lowered <$> fields) (str "sec-websocket-version") = Some (str "13") ->
  find_exact (lowered <$> fields) (str "sec-websocket-key") = Some (base64_encode nonce) -> length nonce = 16%nat ->
  exists req, parse_handshake (upgrade_request target fields ++ rest) = Some req /\ is_upgrade req = true.
Proof.
  intros Ht Hf Hn H1 H2 H3 H4 H5 H6 Hl. eexists. split; [by apply parse_handshake_ok|]. unfold is_upgrade. cbn [hs_headers hs_method].
  rewrite H1, H3, H5, H6, H2, H4, nonce_key_valid by done. by rewrite !bool_decide_eq_true_2.
Qed.

Definition sample_nonce : bytes := [0; 1; 2; 3; 4; 5; 6; 7; 8; 9; 10; 11; 12; 13; 14; 15].
Definition sample_fields (version : bytes) : list (bytes * bytes) :=
  [(str "Host", str "a"); (str "CONNECTION", str "keep-alive, Upgrade"); (str "Upgrade", str "WebSocket");
   (str "Sec-WebSocket-Version", version); (str "Sec-WebSocket-Key", base64_encode sample_nonce)].

Lemma ws_upgrade_recognised_witness :
  exists req, parse_handshake (upgrade_request (str "/chat") (sample_fields (str "13")) ++ [0x81]) = Some req /\ is_upgrade req = true.
Proof.
  apply (ws_upgrade_recognised (str "/chat") (sample_fields (str "13")) sample_nonce (str "WebSocket") (str "keep-alive, Upgrade") [0x81]);
    try (by vm_compute); apply (bool_decide_unpack _); by vm_compute.
Defined.

(** White space behind a header value is not part of it, but only white space
    in front is removed: a request with a space behind the version number is
    refused. *)
Theorem ws_trailing_space_refused target nonce rest : clean target -> length nonce = 16%nat ->
  let fields := [(str "Connection", str "Upgrade"); (str "Upgrade", str "websocket");
                 (str "Sec-WebSocket-Version", str "13 "); (str "Sec-WebSocket-Key", base64_encode nonce)] in
  exists req, parse_handshake (upgrade_request target fields ++ rest) = Some req /\ is_upgrade req = false.
Proof.
  intros Ht Hl fields. eexists. split.
  - apply parse_handshake_ok; [done| |].
    + unfold fields. do 3 (constructor; [apply (bool_decide_unpack _); by vm_compute|]). constructor; [|constructor].
      split; [by repeat constructor|]. split; [done|]. split; [by repeat constructor|apply base64_clean].
    + apply (bool_decide_unpack _). by vm_compute.
  - unfold is_upgrade. cbn [hs_headers hs_method fields fmap list_fmap lowered fst snd].
    change (find_exact _ (str "upgrade")) with (Some (str "websocket")). change (find_exact _ (str "connection")) with (Some (str "Upgrade")).
    change (find_exact _ (str "sec-websocket-key")) with (Some (skip_space (base64_encode nonce))).
    change (find_exact _ (str "sec-websocket-version")) with (Some (str "13 ")). cbv iota.
    rewrite (bool_decide_eq_false_2 (to_lower (str "13 ") = str "13")) by (by vm_compute). by rewrite !andb_false_r.
Qed.

Lemma ws_trailing_space_refused_witness :
  exists req, parse_handshake (upgrade_request (str "/") [(str "Connection", str "Upgrade"); (str "Upgrade", str "websocket");
                 (str "Sec-WebSocket-Version", str "13 "); (str "Sec-WebSocket-Key", base64_encode sample_nonce)] ++ []) = Some req /\ is_upgrade req = false.
Proof. apply (ws_trailing_space_refused (str "/") sample_nonce []); [by repeat constructor|done]. Defined.
