(* ===== verification/WsServer.v ===== *)
(** * HTTP/1.1 + WebSocket server connection

    Model of [WsConnection] in example/http-websocket/src/dispatcher_reactor.cpp
    (and [reactor::Connection::send] of reactor_handler.hpp): the sniffing of
    the first request, the handshake or the hand-off to the HTTP dispatcher,
    the frame loop and the reassembly of messages.

    The application's handlers are arguments: given what has happened so far
    (and the message), they say which frames they send; they do not throw.
    [io k] is the outcome of the [k]-th attempt to flush the output; a failed
    one closes the connection and runs [on_closed] inside the write.  After a
    hand-off the connection belongs to [Http1Connection]; [http_input] is all
    the bytes it has been given, in order. *)
From S2P Require Import Prelude Chunking Utils Http1 Http1Server WsFrame WsHandshake.

Local Open Scope Z_scope.

Definition opcode_known (op : Z) : bool :=
  (op =? Continuation) || (op =? Text) || (op =? Binary) || (op =? Close) || (op =? Ping) || (op =? Pong).

Inductive Phase := Sniffing | ReadingHeader | ReadingPayload.

Global Instance Phase_eq_dec : EqDecision Phase.
Proof. solve_decision. Defined.

Definition kMaxHandshakeBytes : Z := 8192.

(** [reactor::Connection::send(opcode, payload, fin)]. *)
Record Send := mkSend { send_opcode : Z; send_payload : bytes; send_fin : bool }.

Record Message := mkMessage { msg_opcode : Z; msg_data : bytes }.

(** [OutputBuffer::Result]. *)
Inductive Result := Flushed | WouldBlock | Error.

(** What the connection does to the outside. *)
Inductive Event :=
  | Wrote (bs : bytes)
  | OnOpen
  | OnMessage (m : Message)
  | OnClose
  | SocketClosed
  | Notified
  | HandedOff.

(** [output_pending], [flush_then_close] and [conn_open] are the
    [BufferedConnection]'s: whether bytes wait in its output buffer, whether it
    closes when they are gone, and whether it is open. *)
Record WS := mkWS {
  buffer : bytes;
  phase : Phase;
  closing : bool;
  handed_off : bool;
  http_input : option bytes;
  ws_open : bool;
  sent_close : bool;
  pending_fin : bool;
  pending_opcode : Z;
  pending_masking_key : Z;
  pending_payload_len : Z;
  message_buffer : bytes;
  current_message_opcode : Z;
  fragmented : bool;
  notify_closed : bool;
  conn_open : bool;
  output_pending : bool;
  flush_then_close : bool;
  flushes : nat;
  log : list Event
}.

Definition set_buffer v st := mkWS v (phase st) (closing st) (handed_off st) (http_input st) (ws_open st) (sent_close st) (pending_fin st) (pending_opcode st) (pending_masking_key st) (pending_payload_len st) (message_buffer st) (current_message_opcode st) (fragmented st) (notify_closed st) (conn_open st) (output_pending st) (flush_then_close st) (flushes st) (log st).
Definition set_phase v st := mkWS (buffer st) v (closing st) (handed_off st) (http_input st) (ws_open st) (sent_close st) (pending_fin st) (pending_opcode st) (pending_masking_key st) (pending_payload_len st) (message_buffer st) (current_message_opcode st) (fragmented st) (notify_closed st) (conn_open st) (output_pending st) (flush_then_close st) (flushes st) (log st).
Definition set_closing v st := mkWS (buffer st) (phase st) v (handed_off st) (http_input st) (ws_open st) (sent_close st) (pending_fin st) (pending_opcode st) (pending_masking_key st) (pending_payload_len st) (message_buffer st) (current_message_opcode st) (fragmented st) (notify_closed st) (conn_open st) (output_pending st) (flush_then_close st) (flushes st) (log st).
Definition set_handed_off v st := mkWS (buffer st) (phase st) (closing st) v (http_input st) (ws_open st) (sent_close st) (pending_fin st) (pending_opcode st) (pending_masking_key st) (pending_payload_len st) (message_buffer st) (current_message_opcode st) (fragmented st) (notify_closed st) (conn_open st) (output_pending st) (flush_then_close st) (flushes st) (log st).
Definition set_http_input v st := mkWS (buffer st) (phase st) (closing st) (handed_off st) v (ws_open st) (sent_close st) (pending_fin st) (pending_opcode st) (pending_masking_key st) (pending_payload_len st) (message_buffer st) (current_message_opcode st) (fragmented st) (notify_closed st) (conn_open st) (output_pending st) (flush_then_close st) (flushes st) (log st).
Definition set_ws_open v st := mkWS (buffer st) (phase st) (closing st) (handed_off st) (http_input st) v (sent_close st) (pending_fin st) (pending_opcode st) (pending_masking_key st) (pending_payload_len st) (message_buffer st) (current_message_opcode st) (fragmented st) (notify_closed st) (conn_open st) (output_pending st) (flush_then_close st) (flushes st) (log st).
Definition set_sent_close v st := mkWS (buffer st) (phase st) (closing st) (handed_off st) (http_input st) (ws_open st) v (pending_fin st) (pending_opcode st) (pending_masking_key st) (pending_payload_len st) (message_buffer st) (current_message_opcode st) (fragmented st) (notify_closed st) (conn_open st) (output_pending st) (flush_then_close st) (flushes st) (log st).
Definition set_pending_fin v st := mkWS (buffer st) (phase st) (closing st) (handed_off st) (http_input st) (ws_open st) (sent_close st) v (pending_opcode st) (pending_masking_key st) (pending_payload_len st) (message_buffer st) (current_message_opcode st) (fragmented st) (notify_closed st) (conn_open st) (output_pending st) (flush_then_close st) (flushes st) (log st).
Definition set_pending_opcode v st := mkWS (buffer st) (phase st) (closing st) (handed_off st) (http_input st) (ws_open st) (sent_close st) (pending_fin st) v (pending_masking_key st) (pending_payload_len st) (message_buffer st) (current_message_opcode st) (fragmented st) (notify_closed st) (conn_open st) (output_pending st) (flush_then_close st) (flushes st) (log st).
Definition set_pending_masking_key v st := mkWS (buffer st) (phase st) (closing st) (handed_off st) (http_input st) (ws_open st) (sent_close st) (pending_fin st) (pending_opcode st) v (pending_payload_len st) (message_buffer st) (current_message_opcode st) (fragmented st) (notify_closed st) (conn_open st) (output_pending st) (flush_then_close st) (flushes st) (log st).
Definition set_pending_payload_len v st := mkWS (buffer st) (phase st) (closing st) (handed_off st) (http_input st) (ws_open st) (sent_close st) (pending_fin st) (pending_opcode st) (pending_masking_key st) v (message_buffer st) (current_message_opcode st) (fragmented st) (notify_closed st) (conn_open st) (output_pending st) (flush_then_close st) (flushes st) (log st).
Definition set_message_buffer v st := mkWS (buffer st) (phase st) (closing st) (handed_off st) (http_input st) (ws_open st) (sent_close st) (pending_fin st) (pending_opcode st) (pending_masking_key st) (pending_payload_len st) v (current_message_opcode st) (fragmented st) (notify_closed st) (conn_open st) (output_pending st) (flush_then_close st) (flushes st) (log st).
Definition set_current_message_opcode v st := mkWS (buffer st) (phase st) (closing st) (handed_off st) (http_input st) (ws_open st) (sent_close st) (pending_fin st) (pending_opcode st) (pending_masking_key st) (pending_payload_len st) (message_buffer st) v (fragmented st) (notify_closed st) (conn_open st) (output_pending st) (flush_then_close st) (flushes st) (log st).
Definition set_fragmented v st := mkWS (buffer st) (phase st) (closing st) (handed_off st) (http_input st) (ws_open st) (sent_close st) (pending_fin st) (pending_opcode st) (pending_masking_key st) (pending_payload_len st) (message_buffer st) (current_message_opcode st) v (notify_closed st) (conn_open st) (output_pending st) (flush_then_close st) (flushes st) (log st).
Definition set_notify_closed v st := mkWS (buffer st) (phase st) (closing st) (handed_off st) (http_input st) (ws_open st) (sent_close st) (pending_fin st) (pending_opcode st) (pending_masking_key st) (pending_payload_len st) (message_buffer st) (current_message_opcode st) (fragmented st) v (conn_open st) (output_pending st) (flush_then_close st) (flushes st) (log st).
Definition set_conn_open v st := mkWS (buffer st) (phase st) (closing st) (handed_off st) (http_input st) (ws_open st) (sent_close st) (pending_fin st) (pending_opcode st) (pending_masking_key st) (pending_payload_len st) (message_buffer st) (current_message_opcode st) (fragmented st) (notify_closed st) v (output_pending st) (flush_then_close st) (flushes st) (log st).
Definition set_output_pending v st := mkWS (buffer st) (phase st) (closing st) (handed_off st) (http_input st) (ws_open st) (sent_close st) (pending_fin st) (pending_opcode st) (pending_masking_key st) (pending_payload_len st) (message_buffer st) (current_message_opcode st) (fragmented st) (notify_closed st) (conn_open st) v (flush_then_close st) (flushes st) (log st).
Definition set_flush_then_close v st := mkWS (buffer st) (phase st) (closing st) (handed_off st) (http_input st) (ws_open st) (sent_close st) (pending_fin st) (pending_opcode st) (pending_masking_key st) (pending_payload_len st) (message_buffer st) (current_message_opcode st) (fragmented st) (notify_closed st) (conn_open st) (output_pending st) v (flushes st) (log st).
Definition set_flushes v st := mkWS (buffer st) (phase st) (closing st) (handed_off st) (http_input st) (ws_open st) (sent_close st) (pending_fin st) (pending_opcode st) (pending_masking_key st) (pending_payload_len st) (message_buffer st) (current_message_opcode st) (fragmented st) (notify_closed st) (conn_open st) (output_pending st) (flush_then_close st) v (log st).
Definition emit (e : Event) st := mkWS (buffer st) (phase st) (closing st) (handed_off st) (http_input st) (ws_open st) (sent_close st) (pending_fin st) (pending_opcode st) (pending_masking_key st) (pending_payload_len st) (message_buffer st) (current_message_opcode st) (fragmented st) (notify_closed st) (conn_open st) (output_pending st) (flush_then_close st) (flushes st) (log st ++ [e]).

Definition new_conn : WS :=
  mkWS [] Sniffing false false None false false false Continuation 0 0 [] Continuation false true true false false 0 [].

Section Connection.
Context (http_handler ws_handler : bool).
Context (on_open_sends : list Event -> list Send).
Context (on_message_sends : list Event -> Message -> list Send).
Context (io : nat -> Result).

(** ** Output *)

Definition on_closed (st : WS) : WS :=
  let st := set_closing true st in
  let st := if ws_open st then
              let st := set_ws_open false st in if ws_handler then emit OnClose st else st
            else st in
  if notify_closed st then emit Notified (set_notify_closed false st) else st.

(** [BufferedConnection::close] and [write]. *)
Definition close (st : WS) : WS :=
  if conn_open st then on_closed (emit SocketClosed (set_conn_open false st)) else st.

(** [write] tries to flush when nothing was waiting. *)
Definition write (bs : bytes) (st : WS) : WS :=
  if negb (conn_open st) then st else
  if output_pending st then emit (Wrote bs) st else
  let st := set_flushes (S (flushes st)) st in
  match io (flushes st) with
  | Flushed => emit (Wrote bs) st
  | WouldBlock => emit (Wrote bs) (set_output_pending true st)
  | Error => close st
  end.

Definition close_after_flush (st : WS) : WS :=
  if negb (conn_open st) then st
  else if output_pending st then set_flush_then_close true st else close st.

(** The socket has become writable. *)
Definition on_writable (st : WS) : WS :=
  if negb (conn_open st) then st else
  let st := set_flushes (S (flushes st)) st in
  match io (flushes st) with
  | Flushed => let st := set_output_pending false st in if flush_then_close st then close st else st
  | WouldBlock => st
  | Error => close st
  end.

Definition control_frame (op : Z) (payload : bytes) (close_code : Z) : Frame :=
  let payload := if (op =? Close) && negb (close_code =? 0)
                 then u8 ((close_code .>> 8) .& 0xFF) :: u8 (close_code .& 0xFF) :: payload else payload in
  mkFrame true false false false op false (#payload) 0 payload.

Definition send_frame (op : Z) (payload : bytes) (close_code : Z) (st : WS) : WS :=
  write (serialize (control_frame op payload close_code)) st.

(** [reactor::Connection::send] on the connection's own thread. *)
Definition send (s : Send) (st : WS) : WS :=
  write (serialize (mkFrame (send_fin s) false false false (send_opcode s) false (#(send_payload s)) 0 (send_payload s))) st.

Definition sends (ss : list Send) (st : WS) : WS := foldl (fun st s => send s st) st ss.

Definition fail_close (code : Z) (st : WS) : WS :=
  let st := set_closing true st in
  let st := if sent_close st then st else send_frame Close [] code (set_sent_close true st) in
  close_after_flush st.

(** ** Sniffing *)

Definition hand_off_to_http (st : WS) : WS :=
  let st := set_handed_off true st in
  if negb http_handler then close (set_closing true st)
  else
    let initial := buffer st in
    let st := set_notify_closed false (set_buffer [] st) in
    emit HandedOff (set_http_input (Some initial) st).

Definition switching_response (accept_key : bytes) : bytes :=
  str "HTTP/1.1 101 Switching Protocols" ++ CRLF ++ str "Upgrade: websocket" ++ CRLF ++ str "Connection: Upgrade" ++ CRLF ++
  str "Sec-WebSocket-Accept: " ++ accept_key ++ CRLF ++ CRLF.

Definition complete_ws_handshake (req : HandshakeRequest) (leftover : bytes) (st : WS) : WS :=
  let key := default [] (find_exact (hs_headers req) (str "sec-websocket-key")) in
  let st := write (switching_response (default [] (compute_accept key))) st in
  let st := set_phase ReadingHeader (set_buffer leftover (set_ws_open true st)) in
  let st := emit OnOpen st in
  sends (on_open_sends (log st)) st.

Definition try_sniff (st : WS) : WS * bool :=
  match find_sub terminator (buffer st) with
  | None => if kMaxHandshakeBytes <=? #(buffer st) then (hand_off_to_http st, false) else (st, false)
  | Some hs_end =>
      match (if ws_handler then parse_handshake (buffer st) else None) with
      | Some handshake =>
          if is_upgrade handshake then (complete_ws_handshake handshake (drop (hs_end + 4) (buffer st)) st, true)
          else (hand_off_to_http st, false)
      | None => (hand_off_to_http st, false)
      end
  end.

(** ** Frames *)

(** The payload length and the size of the header up to it. *)
Definition read_length (buf : bytes) : option (Z * nat) :=
  let payload_len_byte := nth_byte buf 1 .& 0x7F in
  if payload_len_byte =? 126 then
    let len := (nth_byte buf 2 .<< 8) .| nth_byte buf 3 in if len <? 126 then None else Some (len, 4%nat)
  else if payload_len_byte =? 127 then
    let len := be_fold 0 (take 8 (drop 2 buf)) in
    if negb (len .& (1 .<< 63) =? 0) then None else if len <? 65536 then None else Some (len, 10%nat)
  else Some (payload_len_byte, 2%nat).

(** The checks on the header; [inl code] fails the connection. *)
Definition check_header (buf : bytes) : Z + Z * nat :=
  let op := nth_byte buf 0 .& 0x0F in
  if negb (nth_byte buf 0 .& 0x40 =? 0) || negb (nth_byte buf 0 .& 0x20 =? 0) || negb (nth_byte buf 0 .& 0x10 =? 0) then inl 1002
  else if nth_byte buf 1 .& 0x80 =? 0 then inl 1002
  else if negb (opcode_known op) then inl 1002
  else
  match read_length buf with
  | None => inl 1002
  | Some (len, base_header_size) =>
      if is_control_opcode op && ((nth_byte buf 0 .& 0x80 =? 0) || (125 <? len)) then inl 1002
      else if kMaxPayloadBytes <? len then inl 1009
      else inr (len, base_header_size)
  end.

Definition header_sizes (buf : bytes) : nat * nat :=
  let payload_len_byte := nth_byte buf 1 .& 0x7F in
  let base := if payload_len_byte =? 126 then 4%nat else if payload_len_byte =? 127 then 10%nat else 2%nat in
  (base, (base + (if (nth_byte buf 1 .& 0x80 =? 0)%Z then 0 else 4))%nat).

Definition try_read_header (st : WS) : WS * bool :=
  let buf := buffer st in
  if (length buf <? 2)%nat then (st, false) else
  let '(_, full_header_size) := header_sizes buf in
  if (length buf <? full_header_size)%nat then (st, false) else
  match check_header buf with
  | inl code => (fail_close code st, false)
  | inr (len, base) =>
      let st := set_pending_masking_key (parse_key (drop base buf)) st in
      let st := set_pending_fin (negb (nth_byte buf 0 .& 0x80 =? 0)) st in
      let st := set_pending_opcode (nth_byte buf 0 .& 0x0F) st in
      let st := set_pending_payload_len len st in
      (set_phase ReadingPayload (set_buffer (drop full_header_size buf) st), true)
  end.

(** Storing a data frame in the message; [None] closes with the code. *)
Definition handle_data (op : Z) (fin : bool) (payload : bytes) (st : WS) : WS + Z :=
  if negb (op =? Continuation) then
    if fragmented st then inr 1002
    else inl (set_fragmented (negb fin) (set_message_buffer payload (set_current_message_opcode op st)))
  else
    if negb (fragmented st) then inr 1002
    else if kMaxPayloadBytes <? #(message_buffer st) + #payload then inr 1009
    else inl (set_message_buffer (message_buffer st ++ payload) st).

Definition handle_frame (op : Z) (fin : bool) (payload : bytes) (st : WS) : WS * bool :=
  if is_control_opcode op then
    if op =? Close then
      let st := if sent_close st then st else send_frame Close payload 0 (set_sent_close true st) in
      (close_after_flush (set_closing true st), false)
    else if op =? Ping then (send_frame Pong payload 0 st, true)
    else (st, true)
  else
    match handle_data op fin payload st with
    | inr code => (fail_close code st, false)
    | inl st =>
        let st := if fin then
                    let msg := mkMessage (current_message_opcode st) (message_buffer st) in
                    let st := set_message_buffer [] (set_fragmented false st) in
                    if ws_handler then
                      let st := emit (OnMessage msg) st in sends (on_message_sends (log st) msg) st
                    else st
                  else st in
        (st, negb (closing st))
    end.

Definition try_read_payload (st : WS) : WS * bool :=
  if #(buffer st) <? pending_payload_len st then (st, false) else
  let n := Z.to_nat (pending_payload_len st) in
  let payload := mask_payload (pending_masking_key st) 0 (take n (buffer st)) in
  let st := set_phase ReadingHeader (set_buffer (drop n (buffer st)) st) in
  handle_frame (pending_opcode st) (pending_fin st) payload st.

(** One round of the loop of [process]. *)
Definition process_step (st : WS) : WS + WS :=
  if closing st || handed_off st then inr st else
  let '(st, progressed) := match phase st with
                           | Sniffing => try_sniff st
                           | ReadingHeader => try_read_header st
                           | ReadingPayload => try_read_payload st
                           end in
  if (progressed : bool) then inl st else inr st.

(** Every round consumes input or ends a payload. *)
Definition weight (st : WS) : nat :=
  (2 * length (buffer st) + match phase st with ReadingPayload => 1 | _ => 0 end)%nat.

Definition process (st : WS) : option WS := loop process_step (S (weight st)) st.

(** Bytes read from the socket go to the buffer, or to the HTTP dispatcher. *)
Definition receive (data : bytes) (st : WS) : WS :=
  match http_input st with
  | Some bs => set_http_input (Some (bs ++ data)) st
  | None => set_buffer (buffer st ++ data) st
  end.

Definition on_data (data : bytes) (st : WS) : option WS :=
  let st := receive data st in
  if closing st || handed_off st then Some st else process st.

(** ** What an output operation leaves alone *)

(** The receiving side of the state: the buffer and where it goes. *)
Definition relocate b p h i (st : WS) : WS := set_buffer b (set_phase p (set_handed_off h (set_http_input i st))).

Definition neutral (op : WS -> WS) : Prop := forall b p h i st, op (relocate b p h i st) = relocate b p h i (op st).

Lemma relocate_self st : relocate (buffer st) (phase st) (handed_off st) (http_input st) st = st.
Proof. by destruct st. Qed.

Lemma neutral_keeps op st : neutral op ->
  buffer (op st) = buffer st /\ phase (op st) = phase st /\ handed_off (op st) = handed_off st /\ http_input (op st) = http_input st.
Proof. intros H. rewrite <- (relocate_self st) at 1 3 5 7. by rewrite H. Qed.

Lemma neutral_set_buffer op b st : neutral op -> op (set_buffer b st) = set_buffer b (op st).
Proof.
  intros H. assert (E : forall s, set_buffer b s = relocate b (phase s) (handed_off s) (http_input s) s) by (by intros []).
  rewrite (E (op st)), (E st), H. by destruct (neutral_keeps op st H) as (_ & -> & -> & ->).
Qed.

Lemma neutral_comp f g : neutral f -> neutral g -> neutral (fun st => g (f st)).
Proof. intros Hf Hg b p h i st. by rewrite Hf, Hg. Qed.

Lemma neutral_if (c : WS -> bool) f g : (forall b p h i st, c (relocate b p h i st) = c st) ->
  neutral f -> neutral g -> neutral (fun st => if c st then f st else g st).
Proof. intros Hc Hf Hg b p h i st. rewrite Hc. by destruct (c st). Qed.

Lemma on_closed_neutral : neutral on_closed.
Proof. intros b p h i st. unfold on_closed. destruct st as [? ? ? ? ? o ? ? ? ? ? ? ? ? n ? ? ? ? ?]. cbn. by destruct o, n, ws_handler. Qed.

Lemma close_neutral : neutral close.
Proof. apply (neutral_if conn_open); [done| |done]. intros b p h i st. apply (on_closed_neutral b p h i (emit SocketClosed (set_conn_open false st))). Qed.

Lemma write_neutral bs : neutral (write bs).
Proof.
  apply (neutral_if (fun st => negb (conn_open st))); [done|done|]. apply (neutral_if output_pending); [done|done|].
  intros b p h i st. cbv zeta. cbn [flushes set_flushes]. change (flushes (relocate b p h i st)) with (flushes st).
  destruct (io (S (flushes st))); [done|done|]. apply (close_neutral b p h i (set_flushes _ st)).
Qed.

Lemma close_after_flush_neutral : neutral close_after_flush.
Proof. apply (neutral_if (fun st => negb (conn_open st))); [done|done|]. apply (neutral_if output_pending); [done|done|apply close_neutral]. Qed.

Lemma sends_neutral ss : neutral (sends ss).
Proof. unfold sends. induction ss as [|s ss IH]; [done|]. intros b p h i st. cbn [foldl]. unfold send at 2. by rewrite write_neutral, IH. Qed.

(** The close frame, unless one has been sent. *)
Definition send_close (payload : bytes) (code : Z) (st : WS) : WS :=
  if sent_close st then st else send_frame Close payload code (set_sent_close true st).

Lemma send_close_neutral payload code : neutral (send_close payload code).
Proof. apply (neutral_if sent_close); [done|done|]. intros b p h i st. apply (write_neutral _ b p h i (set_sent_close true st)). Qed.

Lemma fail_close_neutral code : neutral (fail_close code).
Proof.
  intros b p h i st. change (close_after_flush (send_close [] code (relocate b p h i (set_closing true st))) =
    relocate b p h i (close_after_flush (send_close [] code (set_closing true st)))).
  by rewrite send_close_neutral, close_after_flush_neutral.
Qed.

Lemma handle_data_neutral op fin payload b p h i st : handle_data op fin payload (relocate b p h i st) =
  match handle_data op fin payload st with inl s => inl (relocate b p h i s) | inr c => inr c end.
Proof.
  unfold handle_data. change (fragmented (relocate b p h i st)) with (fragmented st).
  change (message_buffer (relocate b p h i st)) with (message_buffer st).
  destruct (op =? Continuation), (fragmented st), (_ <? _); done.
Qed.

(** Handing a complete message to the application. *)
Definition deliver (st : WS) : WS :=
  let msg := mkMessage (current_message_opcode st) (message_buffer st) in
  let st := set_message_buffer [] (set_fragmented false st) in
  if ws_handler then let st := emit (OnMessage msg) st in sends (on_message_sends (log st) msg) st else st.

Lemma deliver_neutral : neutral deliver.
Proof. intros b p h i st. unfold deliver. destruct ws_handler; [|done]. by rewrite <- sends_neutral. Qed.

Lemma handle_frame_neutral op fin payload b p h i st : handle_frame op fin payload (relocate b p h i st) =
  (relocate b p h i (handle_frame op fin payload st).1, (handle_frame op fin payload st).2).
Proof.
  unfold handle_frame. destruct (is_control_opcode op).
  - destruct (op =? Close).
    + fold (send_close payload 0 st) (send_close payload 0 (relocate b p h i st)). cbn [fst snd]. f_equal.
      rewrite <- close_after_flush_neutral, send_close_neutral. done.
    + destruct (op =? Ping); [|done]. unfold send_frame. by rewrite write_neutral.
  - rewrite handle_data_neutral. destruct (handle_data op fin payload st) as [s|c].
    + fold (deliver (relocate b p h i s)) (deliver s). rewrite deliver_neutral. by destruct fin.
    + by rewrite fail_close_neutral.
Qed.

(** *** The [closing] flag is never taken back *)

Lemma ws_close_closing st : closing st = true -> closing (close st) = true.
Proof. intros H. unfold close, on_closed. destruct st as [? ? ? ? ? o ? ? ? ? ? ? ? ? n c ? ? ? ?]. cbn in *. by destruct c, o, n, ws_handler. Qed.

Lemma ws_write_closing bs st : closing st = true -> closing (write bs st) = true.
Proof. intros H. unfold write. repeat (case_match; try done). by apply ws_close_closing. Qed.

Lemma close_after_flush_closing st : closing st = true -> closing (close_after_flush st) = true.
Proof. intros H. unfold close_after_flush. repeat (case_match; try done). by apply ws_close_closing. Qed.

Lemma send_close_closing payload code st : closing st = true -> closing (send_close payload code st) = true.
Proof. intros H. unfold send_close. case_match; [done|]. by apply ws_write_closing. Qed.

Lemma fail_close_closing code st : closing (fail_close code st) = true.
Proof. unfold fail_close. apply close_after_flush_closing. by apply (send_close_closing [] code (set_closing true st)). Qed.

Lemma handle_frame_stops op fin payload st : (handle_frame op fin payload st).2 = false -> closing (handle_frame op fin payload st).1 = true.
Proof.
  unfold handle_frame. destruct (is_control_opcode op).
  - destruct (op =? Close); [intros _; by apply close_after_flush_closing|]. by destruct (op =? Ping).
  - destruct (handle_data op fin payload st); [|intros _; apply fail_close_closing]. cbn [fst snd]. by intros ?%negb_false_iff.
Qed.

(** *** What a round reads does not change when bytes follow *)

Lemma nth_byte_app buf x i : (i < length buf)%nat -> nth_byte (buf ++ x) i = nth_byte buf i.
Proof. intros H. unfold nth_byte. by apply app_nth1. Qed.

Lemma find_sub_app pat s x i : find_sub pat s = Some i -> find_sub pat (s ++ x) = Some i /\ (i + length pat <= length s)%nat.
Proof.
  revert i. induction s as [|c s IH]; intros i.
  - cbn [find_sub]. destruct (bool_decide_reflect (take (length pat) [] = pat)) as [E|]; [|done]. rewrite take_nil in E. subst pat. intros [= <-]. by destruct x.
  - change (find_sub pat (c :: s)) with (if bool_decide (take (length pat) (c :: s) = pat) then Some O else S <$> find_sub pat s).
    cbn [app]. change (find_sub pat (c :: s ++ x)) with (if bool_decide (take (length pat) (c :: s ++ x) = pat) then Some O else S <$> find_sub pat (s ++ x)).
    destruct (bool_decide_reflect (take (length pat) (c :: s) = pat)) as [E|N].
    + intros [= <-]. assert (Hl : (length pat <= length (c :: s))%nat) by (rewrite <- E at 1; rewrite length_take; lia).
      rewrite bool_decide_eq_true_2; [done|]. change (c :: s ++ x) with ((c :: s) ++ x). by rewrite take_app_le.
    + destruct (find_sub pat s) as [j|] eqn:Ej; [|done]. intros [= <-]. destruct (IH j eq_refl) as [H1 H2]. rewrite H1.
      rewrite bool_decide_eq_false_2; [cbn [length]; split; [done|lia]|]. change (c :: s ++ x) with ((c :: s) ++ x).
      rewrite take_app_le by (cbn [length]; lia). done.
Qed.

Lemma parse_handshake_app s x i : find_sub terminator s = Some i -> parse_handshake (s ++ x) = parse_handshake s.
Proof.
  intros H. unfold parse_handshake. rewrite H. destruct (find_sub_app _ _ x _ H) as [-> Hl]. cbn [mbind option_bind].
  rewrite take_app_le by lia. done.
Qed.

Lemma header_sizes_app buf x : (2 <= length buf)%nat -> header_sizes (buf ++ x) = header_sizes buf.
Proof. intros H. unfold header_sizes. by rewrite nth_byte_app by lia. Qed.

Lemma check_header_app buf x : (2 <= length buf)%nat -> ((header_sizes buf).2 <= length buf)%nat ->
  check_header (buf ++ x) = check_header buf.
Proof.
  intros H2 Hs. unfold check_header. rewrite !(nth_byte_app buf x 0), !(nth_byte_app buf x 1) by lia.
  replace (read_length (buf ++ x)) with (read_length buf); [done|]. unfold read_length. rewrite (nth_byte_app buf x 1) by lia.
  unfold header_sizes in Hs. cbn [fst snd] in Hs. set (plen := nth_byte buf 1 .& 0x7F) in *.
  destruct (plen =? 126).
  - by rewrite (nth_byte_app buf x 2), (nth_byte_app buf x 3) by lia.
  - destruct (plen =? 127); [|done]. rewrite drop_app_le, take_app_le by (rewrite ?length_drop; lia). done.
Qed.

(** The header has room for its key. *)
Lemma check_header_sizes buf len base : check_header buf = inr (len, base) -> header_sizes buf = (base, (base + 4)%nat).
Proof.
  unfold check_header, header_sizes, read_length. destruct (_ || _); [done|]. destruct (nth_byte buf 1 .& 0x80 =? 0); [done|].
  destruct (negb _); [done|]. destruct (nth_byte buf 1 .& 0x7F =? 126); [|destruct (nth_byte buf 1 .& 0x7F =? 127)];
    repeat (case_match; try done); intros [= <- <-]; by simplify_eq.
Qed.

Lemma parse_key_app l x : (4 <= length l)%nat -> parse_key (l ++ x) = parse_key l.
Proof. intros H. rewrite (parse_key_take (l ++ x)), (parse_key_take l), take_app_le by lia. done. Qed.

(** ** The connection is an incremental byte machine *)

Definition stopped (st : WS) : bool := closing st || handed_off st.

(** The header block of the first request ends within the limit, or may
    still do so. *)
Definition sniffable (buf : bytes) : Prop :=
  match find_sub terminator buf with Some i => Z.of_nat i + 4 <= kMaxHandshakeBytes | None => #buf < kMaxHandshakeBytes end.

Record ws_ok (st : WS) : Prop := {
  ok_attached : handed_off st = false -> http_input st = None;
  ok_sniffing : handed_off st = false -> phase st = Sniffing -> sniffable (buffer st)
}.

Lemma receive_attached x st : http_input st = None -> receive x st = set_buffer (buffer st ++ x) st.
Proof. intros H. unfold receive. by rewrite H. Qed.

Lemma receive_neutral x op st : neutral op -> http_input st = None -> op (receive x st) = receive x (op st).
Proof.
  intros Ho Hi. destruct (neutral_keeps op st Ho) as (Eb & _ & _ & Ei). rewrite Hi in Ei.
  rewrite !receive_attached, Eb by done. by apply neutral_set_buffer.
Qed.

(** The handshake's effect apart from the receiving side. *)
Definition greet (req : HandshakeRequest) (st : WS) : WS :=
  let key := default [] (find_exact (hs_headers req) (str "sec-websocket-key")) in
  let st := emit OnOpen (set_ws_open true (write (switching_response (default [] (compute_accept key))) st)) in
  sends (on_open_sends (log st)) st.

Lemma greet_neutral req : neutral (greet req).
Proof.
  intros b p h i st. unfold greet. cbv zeta. rewrite write_neutral.
  set (st1 := write _ st). change (emit OnOpen (set_ws_open true (relocate b p h i st1))) with (relocate b p h i (emit OnOpen (set_ws_open true st1))).
  by rewrite sends_neutral.
Qed.

Lemma complete_eq req l st :
  complete_ws_handshake req l st = relocate l ReadingHeader (handed_off st) (http_input st) (greet req st).
Proof.
  rewrite <- greet_neutral. unfold complete_ws_handshake, greet. cbv zeta.
  rewrite write_neutral. set (st1 := write _ st). assert (Hk : handed_off st1 = handed_off st /\ http_input st1 = http_input st).
  { destruct (neutral_keeps _ st (write_neutral (switching_response (default [] (compute_accept (default [] (find_exact (hs_headers req) (str "sec-websocket-key"))))))))
      as (_ & _ & ? & ?). done. }
  destruct Hk as [<- <-]. assert (E : forall s, emit OnOpen (set_phase ReadingHeader (set_buffer l (set_ws_open true s))) =
    emit OnOpen (set_ws_open true (relocate l ReadingHeader (handed_off s) (http_input s) s))) by (by intros []).
  by rewrite E.
Qed.

Lemma hand_off_push x st : http_input st = None ->
  hand_off_to_http (receive x st) = receive x (hand_off_to_http st) /\ handed_off (hand_off_to_http st) = true.
Proof.
  intros Hi. rewrite receive_attached by done. unfold hand_off_to_http. destruct http_handler; cbn [negb].
  - unfold receive. by destruct st; cbn.
  - destruct (neutral_keeps _ (set_closing true (set_handed_off true st)) close_neutral) as (_ & _ & -> & _). split; [|done].
    rewrite <- (receive_neutral x close) by (done || apply close_neutral). by rewrite receive_attached.
Qed.

(** Without the end of the header block, sniffing waits or gives up; with it,
    more bytes make no difference. *)
Lemma try_sniff_push x st : handed_off st = false -> http_input st = None ->
  try_sniff st = (st, false) \/
  (find_sub terminator (buffer st) = None /\ kMaxHandshakeBytes <= #(buffer st) /\
   (try_sniff st).2 = false /\ handed_off (try_sniff st).1 = true) \/
  (try_sniff (receive x st) = (receive x (try_sniff st).1, (try_sniff st).2) /\
   if (try_sniff st).2 then phase (try_sniff st).1 = ReadingHeader /\ (length (buffer (try_sniff st).1) + 4 <= length (buffer st))%nat /\
                            handed_off (try_sniff st).1 = false /\ http_input (try_sniff st).1 = None
   else handed_off (try_sniff st).1 = true).
Proof.
  intros Hh Hi. destruct (hand_off_push x st Hi) as [Hp Hoff]. rewrite receive_attached in Hp |- * by done. unfold try_sniff in *. cbn [buffer set_buffer].
  destruct (find_sub terminator (buffer st)) as [i|] eqn:Ef.
  2: { destruct (Z.leb_spec kMaxHandshakeBytes (#(buffer st))); [right; left; done|by left]. }
  right; right. destruct (find_sub_app _ _ x _ Ef) as [-> Hl]. change (length terminator) with 4%nat in Hl. rewrite (parse_handshake_app _ x _ Ef).
  destruct (if ws_handler then parse_handshake (buffer st) else None) as [hs|]; [|by rewrite Hp].
  destruct (is_upgrade hs); [|by rewrite Hp]. cbn [fst snd]. rewrite !complete_eq. cbn [handed_off http_input set_buffer].
  fold (set_buffer (buffer st ++ x) st). rewrite (neutral_set_buffer _ _ _ (greet_neutral hs)), drop_app_le by lia. rewrite Hi.
  split; [by rewrite receive_attached|]. cbn [phase buffer handed_off http_input relocate set_buffer set_phase set_handed_off set_http_input].
  rewrite length_drop. split; [done|]. split; [lia|done].
Qed.

Lemma try_read_header_push x st : http_input st = None ->
  try_read_header st = (st, false) \/
  (try_read_header (receive x st) = (receive x (try_read_header st).1, (try_read_header st).2) /\
   http_input (try_read_header st).1 = None /\ handed_off (try_read_header st).1 = handed_off st /\
   if (try_read_header st).2 then phase (try_read_header st).1 = ReadingPayload /\ (length (buffer (try_read_header st).1) < length (buffer st))%nat
   else closing (try_read_header st).1 = true /\ phase (try_read_header st).1 = phase st).
Proof.
  intros Hi. rewrite (receive_attached x st) by done. unfold try_read_header. cbn [buffer set_buffer].
  destruct (Nat.ltb_spec (length (buffer st)) 2) as [|H2]; [by left|]. rewrite header_sizes_app by done.
  pose proof (check_header_app (buffer st) x H2) as Hc. pose proof (check_header_sizes (buffer st)) as Hs.
  destruct (header_sizes (buffer st)) as [base0 full]. cbn [snd] in Hc. destruct (Nat.ltb_spec (length (buffer st)) full) as [|Hf]; [by left|]. right.
  rewrite length_app. destruct (Nat.ltb_spec (length (buffer st) + length x) 2); [lia|].
  destruct (Nat.ltb_spec (length (buffer st) + length x) full); [lia|]. rewrite Hc by done.
  destruct (check_header (buffer st)) as [code|[len base]].
  - destruct (neutral_keeps _ st (fail_close_neutral code)) as (_ & Ep & Eh & Ei). cbn [fst snd]. rewrite <- (receive_neutral x _ st (fail_close_neutral code)) by done.
    rewrite (receive_attached x st) by done. split; [done|]. split; [congruence|]. split; [done|]. split; [apply fail_close_closing|done].
  - specialize (Hs _ _ eq_refl). injection Hs as -> ->. cbn [fst snd]. rewrite (receive_attached x) by done.
    rewrite !drop_app_le, parse_key_app, nth_byte_app by (rewrite ?length_drop; lia). split; [done|]. split; [done|]. split; [done|]. split; [done|].
    cbn [buffer set_phase set_buffer set_pending_payload_len set_pending_opcode set_pending_fin set_pending_masking_key]. rewrite length_drop. lia.
Qed.

Lemma try_read_payload_push x st : http_input st = None ->
  try_read_payload st = (st, false) \/
  (try_read_payload (receive x st) = (receive x (try_read_payload st).1, (try_read_payload st).2) /\
   http_input (try_read_payload st).1 = None /\ handed_off (try_read_payload st).1 = handed_off st /\
   phase (try_read_payload st).1 = ReadingHeader /\ (length (buffer (try_read_payload st).1) <= length (buffer st))%nat /\
   ((try_read_payload st).2 = false -> closing (try_read_payload st).1 = true)).
Proof.
  intros Hi. rewrite (receive_attached x st) by done. unfold try_read_payload. cbn [buffer set_buffer pending_payload_len pending_masking_key pending_opcode pending_fin set_phase].
  destruct (Z.ltb_spec (#(buffer st)) (pending_payload_len st)) as [|Hn]; [by left|]. right. rewrite length_app.
  destruct (Z.ltb_spec (Z.of_nat (length (buffer st) + length x)) (pending_payload_len st)); [lia|].
  set (n := Z.to_nat (pending_payload_len st)). assert (Hln : (n <= length (buffer st))%nat) by lia. rewrite take_app_le, drop_app_le by done.
  set (payload := mask_payload _ _ _). set (op := pending_opcode st). set (f := pending_fin st).
  assert (E : forall b, handle_frame op f payload (set_phase ReadingHeader (set_buffer b st)) =
    (relocate b ReadingHeader (handed_off st) (http_input st) (handle_frame op f payload st).1, (handle_frame op f payload st).2)).
  { intros b. rewrite <- handle_frame_neutral. by destruct st. }
  fold (set_buffer (buffer st ++ x) st).
  change (set_phase ReadingHeader (set_buffer (drop n (buffer st) ++ x) (set_buffer (buffer st ++ x) st)))
    with (set_phase ReadingHeader (set_buffer (drop n (buffer st) ++ x) st)).
  rewrite !E. cbn [fst snd]. rewrite Hi. rewrite receive_attached by done.
  split; [done|]. split; [done|]. split; [done|]. split; [done|]. split.
  - cbn [buffer relocate set_buffer]. rewrite length_drop. lia.
  - intros H0. exact (handle_frame_stops op f payload st H0).
Qed.

Lemma ws_process_step_push x st : ws_ok st -> match process_step st with
  | inl st' => process_step (receive x st) = inl (receive x st') /\ (weight st' < weight st)%nat /\ ws_ok st'
  | inr r => r = st \/ (stopped r = true /\ process_step (receive x st) = inr (receive x r) /\ ws_ok r)
  end.
Proof.
  intros [Hatt Hsn]. unfold process_step at 1. destruct (closing st) eqn:Ec; [by left|]. destruct (handed_off st) eqn:Eh; [by left|]. cbn [orb].
  specialize (Hatt eq_refl). specialize (Hsn eq_refl).
  assert (Hp : process_step (receive x st) = let '(s, progressed) := match phase st with
      | Sniffing => try_sniff (receive x st) | ReadingHeader => try_read_header (receive x st) | ReadingPayload => try_read_payload (receive x st) end in
    if progressed : bool then inl s else inr s).
  { unfold process_step. rewrite receive_attached by done. cbn [closing handed_off phase set_buffer]. by rewrite Ec, Eh. }
  rewrite Hp. clear Hp. unfold weight. destruct (phase st) eqn:Ep.
  - destruct (try_sniff_push x st Eh Hatt) as [-> |[(Ef & Hmax & _)|[-> H]]]; [by left| |].
    { specialize (Hsn eq_refl). unfold sniffable in Hsn. rewrite Ef in Hsn. lia. }
    destruct (try_sniff st) as [s []]; cbn [fst snd] in *.
    + destruct H as (Hph & Hl & H1 & H2). rewrite Hph. split; [done|]. split; [lia|]. split; [done|congruence].
    + right. unfold stopped. rewrite H, orb_true_r. split; [done|]. split; [done|]. split; congruence.
  - destruct (try_read_header_push x st Hatt) as [-> |(-> & H1 & H2 & H)]; [by left|]. destruct (try_read_header st) as [s []]; cbn [fst snd] in *.
    + destruct H as (Hph & Hl). rewrite Hph. split; [done|]. split; [lia|]. split; congruence.
    + right. destruct H as [Hc Hph]. unfold stopped. rewrite Hc. split; [done|]. split; [done|]. split; congruence.
  - destruct (try_read_payload_push x st Hatt) as [-> |(-> & H1 & H2 & Hph & Hl & Hc)]; [by left|]. destruct (try_read_payload st) as [s []]; cbn [fst snd] in *.
    + rewrite Hph. split; [done|]. split; [lia|]. split; congruence.
    + right. unfold stopped. rewrite Hc by done. split; [done|]. split; [done|]. split; congruence.
Qed.

#[export] Instance ws_machine : ByteMachine WS := {
  bm_weight := weight;
  bm_push := receive;
  bm_closing := stopped;
  bm_step := process_step
}.

Lemma sniffable_app buf x : sniffable (buf ++ x) -> sniffable buf.
Proof.
  unfold sniffable. destruct (find_sub terminator buf) as [i|] eqn:E; [by destruct (find_sub_app _ _ x _ E) as [-> _]|].
  rewrite length_app. destruct (find_sub terminator (buf ++ x)) as [i|] eqn:E'; [|lia]. intros Hi.
  assert (Hlt : (length buf < i + 4)%nat); [|lia]. apply Nat.nle_gt. intros Hle.
  assert (Hn : find_sub terminator buf <> None); [|done]. clear E Hi. revert i x E' Hle. induction buf as [|c buf IH]; intros i x E' Hle.
  { cbn [length] in Hle. lia. }
  change (find_sub terminator (c :: buf)) with (if bool_decide (take 4 (c :: buf) = terminator) then Some O else S <$> find_sub terminator buf).
  change ((c :: buf) ++ x) with (c :: buf ++ x) in E'.
  change (find_sub terminator (c :: buf ++ x)) with (if bool_decide (take 4 (c :: buf ++ x) = terminator) then Some O else S <$> find_sub terminator (buf ++ x)) in E'.
  destruct (bool_decide_reflect (take 4 (c :: buf ++ x) = terminator)) as [Et|].
  - injection E' as <-. rewrite bool_decide_eq_true_2; [done|]. rewrite <- Et. change (c :: buf ++ x) with ((c :: buf) ++ x). by rewrite take_app_le.
  - case_match; [done|]. destruct (find_sub terminator (buf ++ x)) as [j|] eqn:Ej; [|done]. injection E' as <-.
    destruct (find_sub terminator buf) eqn:Eb; [done|]. exfalso. apply (IH j x Ej); [cbn [length] in Hle; lia|done].
Qed.

#[export] Program Instance ws_machine_laws : ByteMachineLaws WS := { bm_ok := ws_ok }.
Next Obligation. intros x st. cbn. unfold receive, stopped. by case_match. Qed.
Next Obligation. intros x y st. cbn. unfold receive. destruct (http_input st) eqn:E; cbn; [|rewrite E; cbn]; by rewrite app_assoc. Qed.
Next Obligation.
  intros x st [H1 H2]. cbn in *. unfold receive in *. split.
  - intros Hh. destruct (http_input st) eqn:E; [|done]. by specialize (H1 Hh).
  - intros Hh Hp. destruct (http_input st) eqn:E; cbn in *; [by specialize (H1 Hh)|]. by eapply sniffable_app, H2.
Qed.
Next Obligation. intros st st' Hs E. pose proof (ws_process_step_push [] st Hs) as H. cbn in *. rewrite E in H. split; apply H. Qed.
Next Obligation. intros st st' x Hs E. pose proof (ws_process_step_push x st Hs) as H. cbn in *. rewrite E in H. apply H. Qed.
Next Obligation. intros st r Hs E. pose proof (ws_process_step_push [] st Hs) as H. cbn in *. rewrite E in H. by destruct H as [-> |(_ & _ & ?)]. Qed.
Next Obligation. intros st r x Hs E. pose proof (ws_process_step_push x st Hs) as H. cbn in *. rewrite E in H. destruct H as [-> |(? & ? & _)]; [by left|by right]. Qed.
Next Obligation. intros st Hc. cbn in *. unfold stopped in Hc. unfold process_step. by rewrite Hc. Qed.

Lemma ws_on_data_machine data st : on_data data st = bm_on_data data st.
Proof. done. Qed.

(** ** Reads *)

Fixpoint feed (chunks : list bytes) (st : WS) : option WS :=
  match chunks with
  | [] => Some st
  | c :: chunks => on_data c st ≫= feed chunks
  end.

Lemma feed_machine chunks st : feed chunks st = bm_feed chunks st.
Proof. revert st. induction chunks as [|c cs IH]; intros st; [done|]. cbn [feed bm_feed]. rewrite ws_on_data_machine. by destruct (bm_on_data c st); cbn. Qed.

Lemma feed_chunking chunks st : on_data [] st = Some st -> ws_ok (receive (concat chunks) st) ->
  exists r, feed chunks st = Some r /\ on_data (concat chunks) st = Some r.
Proof.
  intros Hidle Hok. destruct (bm_chunking st chunks) as (r & H1 & H2 & _); [done|done|]. exists r. by rewrite feed_machine, ws_on_data_machine.
Qed.

Lemma new_conn_idle : on_data [] new_conn = Some new_conn.
Proof. done. Qed.

Lemma new_conn_ok buf : sniffable buf -> ws_ok (receive buf new_conn).
Proof. intros H. by split. Qed.

(** ** The messages *)

(** A frame of a client. *)
Definition client_frame (f : Frame) : Prop := frame_ok f /\ masked f = true.

(** What the receiving side does with a frame's header. *)
Definition pend (f : Frame) (st : WS) : WS :=
  set_pending_payload_len (payload_length f) (set_pending_opcode (opcode f) (set_pending_fin (fin f) (set_pending_masking_key (masking_key f) st))).

(** One frame after the other, as the application sees them. *)
Fixpoint frames (fs : list Frame) (st : WS) : WS :=
  match fs with
  | [] => st
  | f :: fs =>
      let '(st, more) := handle_frame (opcode f) (fin f) (payload f) (pend f st) in
      if more && negb (closing st) then frames fs st else st
  end.

Definition key_bytes_of (k : Z) : bytes := [(k .>> 24) .& 0xFF; (k .>> 16) .& 0xFF; (k .>> 8) .& 0xFF; k .& 0xFF].

(** The length as the dispatcher reads it and as [Frame::parse] does. *)
Lemma length_checks_agree d n l : parse_length d = Some (l, n) -> read_length d = Some (l, n).
Proof.
  unfold parse_length, read_length. change kPayloadLenMask with 0x7F. change kPayloadLen16Code with 126. change kPayloadLen16MaxExclusive with 65536.
  pose proof (Z.mod_pos_bound (nth_byte d 1) 128 ltac:(lia)) as Hb. change 128 with (2 ^ 7) in Hb. rewrite <- (land_mask _ 7 127) in Hb by done.
  set (v := nth_byte d 1 .& 0x7F) in *. destruct (Z.ltb_spec v 126) as [Hv|Hv].
  - destruct (Z.eqb_spec v 126); [lia|]. by destruct (Z.eqb_spec v 127); [lia|].
  - destruct (Z.eqb_spec v 126); [by destruct (_ <? 4)%nat|]. destruct (Z.eqb_spec v 127); [|lia].
    destruct (_ <? 10)%nat; [done|]. cbv zeta. by destruct (_ <? _), (negb _).
Qed.

(** A client frame as the header, the key and the masked payload. *)
Lemma client_frame_bytes f rest : client_frame f -> exists hd,
  serialize f ++ rest = hd ++ key_bytes_of (masking_key f) ++ mask_payload (masking_key f) 0 (payload f) ++ rest /\
  check_header (serialize f ++ rest) = inr (payload_length f, length hd) /\ (2 <= length hd)%nat /\
  negb (nth_byte (serialize f ++ rest) 0 .& 0x80 =? 0) = fin f /\ nth_byte (serialize f ++ rest) 0 .& 0x0F = opcode f.
Proof.
  intros [Hok Hm]. destruct (first_byte f Hok) as (F1 & F2 & F3 & F4 & F5). pose proof Hok as [_ Ho [Hl Hmax] Hc _].
  unfold kMaxPayloadBytes in Hmax. set (b0 := _ .| _ .| _ .| _ .| _) in *.
  set (tl := key_bytes_of (masking_key f) ++ mask_payload (masking_key f) 0 (payload f) ++ rest).
  assert (Eb : serialize f ++ rest = b0 :: len_bytes true (payload_length f) ++ tl).
  { rewrite serialize_eq, Hm. unfold tl, key_bytes_of, b0. cbn [app]. by rewrite <- !app_assoc. }
  rewrite Eb. clearbody tl. exists (b0 :: len_bytes true (payload_length f)).
  destruct (parse_length_ok b0 true (payload_length f) tl ltac:(lia)) as [E1 E2]. clearbody b0.
  split; [done|]. assert (H2 : (2 <= length (b0 :: len_bytes true (payload_length f)))%nat) by (unfold len_bytes; repeat case_match; cbn [length]; lia).
  split; [|done]. unfold check_header. change (nth_byte (b0 :: _) 0) with b0.
  change (b0 .& 0x40) with (b0 .& kRsv1Bit). change (b0 .& 0x20) with (b0 .& kRsv2Bit). change (b0 .& 0x10) with (b0 .& kRsv3Bit).
  change (b0 .& 0x0F) with (b0 .& kOpcodeMask). change (b0 .& 0x80) with (b0 .& kFinBit). rewrite F2, F3, F4, F5. cbn [Z.eqb negb orb].
  apply negb_true_iff in E2. change kMaskBit with 0x80 in E2. rewrite E2.
  change (opcode_known (opcode f)) with (is_known_opcode (opcode f)). rewrite Ho. cbn [negb].
  rewrite (length_checks_agree _ _ _ E1).
  replace (is_control_opcode (opcode f) && ((b0 .& kFinBit =? 0) || (125 <? payload_length f))) with false.
  2: { symmetry. destruct (is_control_opcode (opcode f)); [|done]. destruct (Hc eq_refl) as [Hf ?]. rewrite Hf in F1. apply negb_true_iff in F1. rewrite F1. cbn. apply Z.ltb_ge. lia. }
  destruct (Z.ltb_spec kMaxPayloadBytes (payload_length f)); [unfold kMaxPayloadBytes in *; lia|]. done.
Qed.

Lemma handle_frame_set_buffer op fin payload b st : handle_frame op fin payload (set_buffer b st) =
  (set_buffer b (handle_frame op fin payload st).1, (handle_frame op fin payload st).2).
Proof.
  assert (E : forall s, set_buffer b s = relocate b (phase s) (handed_off s) (http_input s) s) by (by intros []).
  rewrite (E st), handle_frame_neutral. f_equal. rewrite E. f_equal; symmetry;
    pose proof (handle_frame_neutral op fin payload (buffer st) (phase st) (handed_off st) (http_input st) st) as H; rewrite relocate_self in H;
    by rewrite H.
Qed.

Lemma handle_frame_keeps op fin payload st : let s := (handle_frame op fin payload st).1 in
  buffer s = buffer st /\ phase s = phase st /\ handed_off s = handed_off st /\ http_input s = http_input st.
Proof.
  pose proof (handle_frame_neutral op fin payload (buffer st) (phase st) (handed_off st) (http_input st) st) as H. rewrite relocate_self in H.
  cbv zeta. by rewrite H.
Qed.

(** Two rounds read a frame and handle it. *)
Lemma read_frame f rest st : client_frame f -> phase st = ReadingHeader -> stopped st = false -> buffer st = serialize f ++ rest ->
  exists st1, process_step st = inl st1 /\
    process_step st1 = let '(s, more) := handle_frame (opcode f) (fin f) (payload f) (pend f (set_buffer rest st)) in
                       if more : bool then inl s else inr s.
Proof.
  intros Hf Hp Hs Hb. destruct (client_frame_bytes f rest Hf) as (hd & E & Ec & H2 & Ef & Eo). pose proof Hf as [[_ _ [Hl _] _ Hk] Hm]. rewrite Hm in Hk.
  exists (set_phase ReadingPayload (set_buffer (mask_payload (masking_key f) 0 (payload f) ++ rest) (pend f st))). split.
  - unfold process_step, try_read_header. unfold stopped in Hs. rewrite Hs, Hp, Hb, (check_header_sizes _ _ _ Ec), Ec, Ef, Eo, E.
    rewrite !length_app. destruct (Nat.ltb_spec (length hd + (length (key_bytes_of (masking_key f)) + (length (mask_payload (masking_key f) 0 (payload f)) + length rest))) 2); [lia|].
    change (length (key_bytes_of (masking_key f))) with 4%nat.
    destruct (Nat.ltb_spec (length hd + (4 + (length (mask_payload (masking_key f) 0 (payload f)) + length rest))) (length hd + 4)); [lia|].
    rewrite <- drop_drop, drop_app_length. unfold key_bytes_of. rewrite key_bytes by done. cbn [app drop]. rewrite drop_0. done.
  - unfold process_step, try_read_payload. cbn [closing handed_off phase buffer pending_payload_len pending_masking_key pending_opcode pending_fin
      set_phase set_buffer pend set_pending_payload_len set_pending_opcode set_pending_fin set_pending_masking_key].
    unfold stopped in Hs. rewrite Hs, Hl, Nat2Z.id, length_app, mask_payload_length.
    destruct (Z.ltb_spec (Z.of_nat (length (payload f) + length rest)) (#(payload f))); [lia|].
    rewrite take_app_length', drop_app_length' by (by rewrite mask_payload_length). rewrite mask_payload_involutive.
    assert (E3 : set_phase ReadingHeader (set_buffer rest (set_phase ReadingPayload (set_buffer (mask_payload (masking_key f) 0 (payload f) ++ rest) (pend f st)))) =
      pend f (set_buffer rest st)) by (destruct st; cbn in Hp; by subst).
    rewrite <- E3. unfold pend. rewrite Hl. done.
Qed.

Lemma process_frames fs : Forall client_frame fs -> forall fuel st r, phase st = ReadingHeader -> stopped st = false ->
  buffer st = concat (serialize <$> fs) -> loop process_step fuel st = Some r ->
  set_buffer [] r = frames fs (set_buffer [] st) /\ (closing r = false -> buffer r = []).
Proof.
  induction 1 as [|f fs Hf Hfs IH]; intros fuel st r Hp Hs Hb Hr.
  - destruct fuel as [|fuel]; [done|]. cbn [loop] in Hr. unfold process_step at 1, try_read_header in Hr. unfold stopped in Hs. rewrite Hs, Hp, Hb in Hr.
    cbn in Hr. injection Hr as <-. by rewrite Hb.
  - cbn [fmap list_fmap concat] in Hb. destruct (read_frame f _ st Hf Hp Hs Hb) as (st1 & E1 & E2).
    destruct fuel as [|fuel]; [done|]. cbn [loop] in Hr. rewrite E1 in Hr. destruct fuel as [|fuel]; [done|]. cbn [loop] in Hr. rewrite E2 in Hr. clear E1 E2.
    cbn [frames]. set (rest := concat (serialize <$> fs)) in *.
    change (pend f (set_buffer ?b st)) with (set_buffer b (pend f st)) in *. rewrite handle_frame_set_buffer in Hr |- *.
    destruct (handle_frame_keeps (opcode f) (fin f) (payload f) (pend f st)) as (_ & Kp & Kh & _). cbn [phase handed_off pend set_pending_payload_len set_pending_opcode set_pending_fin set_pending_masking_key] in Kp, Kh.
    pose proof (handle_frame_stops (opcode f) (fin f) (payload f) (pend f st)) as Kc.
    destruct (handle_frame (opcode f) (fin f) (payload f) (pend f st)) as [s more]. cbn [fst snd] in *.
    destruct more; cbn [andb]; [|injection Hr as <-; cbn; by rewrite (Kc eq_refl)].
    cbn [closing set_buffer]. destruct (closing s) eqn:Ec; cbn [negb].
    + destruct fuel as [|fuel]; [done|]. cbn [loop] in Hr. unfold process_step at 1 in Hr. cbn [closing set_buffer] in Hr. rewrite Ec in Hr. injection Hr as <-. cbn. by rewrite Ec.
    + apply (IH fuel (set_buffer rest s) r); [by cbn; rewrite Kp| |done|done].
      apply orb_false_iff in Hs as [_ Hs]. unfold stopped. cbn. by rewrite Ec, Kh, Hs.
Qed.

(** *** Reassembly *)

(** What can come before the last fragment of a message. *)
Inductive Item := Part (d : bytes) | PingItem (d : bytes) | PongItem (d : bytes).

Definition body (f : Frame) : Z * bool * bytes := (opcode f, fin f, payload f).

Fixpoint message_bodies (op : Z) (items : list Item) (final : bytes) : list (Z * bool * bytes) :=
  match items with
  | [] => [(op, true, final)]
  | Part d :: items => (op, false, d) :: message_bodies Continuation items final
  | PingItem d :: items => (Ping, true, d) :: message_bodies op items final
  | PongItem d :: items => (Pong, true, d) :: message_bodies op items final
  end.

Fixpoint message_data (items : list Item) (final : bytes) : bytes :=
  match items with
  | [] => final
  | Part d :: items => d ++ message_data items final
  | _ :: items => message_data items final
  end.

(** The pongs the server answers with. *)
Fixpoint pongs (items : list Item) : list Event :=
  match items with
  | [] => []
  | PingItem d :: items => Wrote (serialize (control_frame Pong d 0)) :: pongs items
  | _ :: items => pongs items
  end.

Definition sent (s : Send) : Event :=
  Wrote (serialize (mkFrame (send_fin s) false false false (send_opcode s) false (#(send_payload s)) 0 (send_payload s))).

(** An open connection and what it has logged since. *)
Record goes_on (es : list Event) (st st' : WS) : Prop := {
  go_log : log st' = log st ++ es;
  go_open : conn_open st' = true;
  go_closing : closing st' = closing st;
  go_fragmented : fragmented st' = fragmented st;
  go_buffer : message_buffer st' = message_buffer st;
  go_opcode : current_message_opcode st' = current_message_opcode st
}.

Section Healthy.
Context (no_error : forall k, io k <> Error) (has_handler : ws_handler = true).

Lemma write_goes_on bs st : conn_open st = true -> goes_on [Wrote bs] st (write bs st).
Proof.
  intros H. unfold write. rewrite H. cbn [negb]. destruct (output_pending st); [by split|].
  cbv zeta. cbn [flushes set_flushes]. pose proof (no_error (S (flushes st))). by destruct (io (S (flushes st))).
Qed.

Lemma goes_on_trans es es' s1 s2 s3 : goes_on es s1 s2 -> goes_on es' s2 s3 -> goes_on (es ++ es') s1 s3.
Proof. intros [] []. split; try congruence. rewrite app_assoc. congruence. Qed.

Lemma sends_go_on ss : forall st, conn_open st = true -> goes_on (sent <$> ss) st (sends ss st).
Proof.
  unfold sends. induction ss as [|s ss IH]; intros st H; cbn [foldl fmap list_fmap]; [split; by rewrite ?app_nil_r|].
  pose proof (write_goes_on (serialize (mkFrame (send_fin s) false false false (send_opcode s) false (#(send_payload s)) 0 (send_payload s))) st H) as H1.
  apply (goes_on_trans [sent s] _ _ _ _ H1). apply IH. apply (go_open _ _ _ H1).
Qed.

(** The events of a message that has arrived. *)
Definition delivery (before : list Event) (m : Message) : list Event :=
  OnMessage m :: (sent <$> on_message_sends (before ++ [OnMessage m]) m).

(** The part of a message that has been stored. *)
Definition stored (op : Z) (acc : bytes) (mop : Z) (st : WS) : Prop :=
  (op = Text \/ op = Binary) /\ fragmented st = false /\ acc = [] /\ mop = op \/
  op = Continuation /\ fragmented st = true /\ acc = message_buffer st /\ mop = current_message_opcode st.

Lemma stored_data op fin acc mop payload st : stored op acc mop st -> #acc + #payload <= kMaxPayloadBytes ->
  is_control_opcode op = false /\
  exists st1, handle_data op fin payload st = inl st1 /\ message_buffer st1 = acc ++ payload /\ current_message_opcode st1 = mop /\
    log st1 = log st /\ conn_open st1 = conn_open st /\ closing st1 = closing st /\ (fin = false -> fragmented st1 = true).
Proof.
  intros [(Ho & Hf & -> & ->)|(-> & Hf & -> & ->)] Hmax; unfold handle_data.
  - assert (Hop : is_control_opcode op = false /\ (op =? Continuation) = false) by (by destruct Ho as [-> | ->]). destruct Hop as [-> ->].
    split; [done|]. cbn [negb]. rewrite Hf. eexists. split; [reflexivity|]. cbn. repeat (split; [done|]). by intros ->.
  - split; [done|]. cbn [negb Z.eqb Continuation]. rewrite Hf. cbn [negb]. destruct (Z.ltb_spec kMaxPayloadBytes (#(message_buffer st) + #payload)); [lia|].
    eexists. split; [reflexivity|]. done.
Qed.

Lemma frames_message items final : forall op acc mop fs st, conn_open st = true -> closing st = false -> stored op acc mop st ->
  #acc + #(message_data items final) <= kMaxPayloadBytes -> body <$> fs = message_bodies op items final ->
  let m := mkMessage mop (acc ++ message_data items final) in
  let r := frames fs st in
  log r = log st ++ pongs items ++ delivery (log st ++ pongs items) m /\ conn_open r = true /\ closing r = false /\ fragmented r = false.
Proof.
  induction items as [|it items IH]; intros op acc mop fs st Ho Hc Hst Hmax Hfs.
  - destruct fs as [|f [|]]; [done| |done]. injection Hfs as E1 E2 E3. cbn [frames message_data pongs app] in *. rewrite E1, E2, E3.
    destruct (stored_data op true acc mop final (pend f st) Hst Hmax) as (Hop & st1 & Hd & Hb & Hm & Hl & Hco & Hcl & _).
    unfold handle_frame. rewrite Hop, Hd, has_handler, Hm, Hb. cbn [andb]. set (m := mkMessage mop (acc ++ final)).
    set (st2 := emit (OnMessage m) (set_message_buffer [] (set_fragmented false st1))).
    destruct (sends_go_on (on_message_sends (log st2) m) st2) as [G1 G2 G3 G4 _ _]; [by cbn; rewrite Hco|].
    set (st3 := sends _ st2) in *. assert (Hc3 : closing st3 = false) by (rewrite G3; cbn; by rewrite Hcl).
    destruct (negb (closing st3) && _); cbv zeta; (split; [|done]); rewrite G1; cbn [log st2 emit set_message_buffer set_fragmented]; rewrite Hl; cbn [log pend]; 
      unfold delivery; rewrite <- !app_assoc, ?app_nil_r; done.
  - destruct fs as [|f fs]; [by destruct it|]. cbn [frames]. destruct it as [d|d|d]; cbn [message_bodies message_data pongs] in *; injection Hfs as E1 E2 E3 Hfs; rewrite E1, E2, E3.
    + rewrite length_app in Hmax. destruct (stored_data op false acc mop d (pend f st) Hst ltac:(lia)) as (Hop & st1 & Hd & Hb & Hm & Hl & Hco & Hcl & Hf).
      unfold handle_frame. rewrite Hop, Hd. cbn [andb]. rewrite Hcl. cbn [closing pend set_pending_payload_len set_pending_opcode set_pending_fin set_pending_masking_key].
      rewrite Hc. cbn [negb andb]. replace (log st) with (log st1) by done. rewrite (app_assoc acc d).
      apply (IH Continuation (acc ++ d) mop fs st1); [by rewrite Hco|by rewrite Hcl| |rewrite length_app; lia|done].
      right. rewrite Hb, Hm. split; [done|]. by split; [apply Hf|].
    + change (handle_frame Ping true d (pend f st)) with (send_frame Pong d 0 (pend f st), true).
      assert (G : goes_on [Wrote (serialize (control_frame Pong d 0))] (pend f st) (send_frame Pong d 0 (pend f st))) by (by apply write_goes_on).
      destruct G as [G1 G2 G3 G4 G5 G6].
      set (st1 := send_frame Pong d 0 (pend f st)) in *. cbn [log closing fragmented message_buffer current_message_opcode pend set_pending_payload_len set_pending_opcode set_pending_fin set_pending_masking_key] in *.
      rewrite G3, Hc. cbn [negb andb]. destruct (IH op acc mop fs st1) as (I1 & I2); [done|congruence| |done|done|].
      { unfold stored. rewrite G4, G5, G6. exact Hst. }
      split; [|done]. rewrite I1, G1, <- !app_assoc. done.
    + change (handle_frame Pong true d (pend f st)) with (pend f st, true). cbn [closing pend set_pending_payload_len set_pending_opcode set_pending_fin set_pending_masking_key].
      rewrite Hc. cbn [negb andb]. by apply (IH op acc mop fs (pend f st)).
Qed.
End Healthy.

(** ** Termination and resource bounds, for every input *)

(** What the output operations leave alone on the message side. *)
Definition core (st : WS) := (pending_payload_len st, pending_opcode st, message_buffer st, fragmented st).

Lemma close_core st : core (close st) = core st.
Proof. unfold close, on_closed. destruct st as [? ? ? ? ? o ? ? ? ? ? ? ? ? n c ? ? ? ?]. cbn in *. by destruct c, o, n, ws_handler. Qed.

Lemma write_core bs st : core (write bs st) = core st.
Proof. unfold write. repeat (case_match; try done). by rewrite close_core. Qed.

Lemma close_after_flush_core st : core (close_after_flush st) = core st.
Proof. unfold close_after_flush. repeat (case_match; try done). by rewrite close_core. Qed.

Lemma sends_core ss : forall st, core (sends ss st) = core st.
Proof. unfold sends. induction ss as [|s ss IH]; intros st; [done|]. cbn [foldl]. rewrite IH. apply write_core. Qed.

Lemma send_close_core payload code st : core (send_close payload code st) = core st.
Proof. unfold send_close. case_match; [done|]. apply (write_core _ (set_sent_close true st)). Qed.

Lemma fail_close_core code st : core (fail_close code st) = core st.
Proof. unfold fail_close. rewrite close_after_flush_core. apply (send_close_core [] code (set_closing true st)). Qed.

Record bounded (st : WS) : Prop := {
  bd_len : pending_payload_len st <= kMaxPayloadBytes;
  bd_control : is_control_opcode (pending_opcode st) = true -> pending_payload_len st <= 125;
  bd_message : #(message_buffer st) <= kMaxPayloadBytes
}.

Lemma bounded_core st st' : core st' = core st -> bounded st -> bounded st'.
Proof. unfold core. intros E [H1 H2 H3]. injection E as E1 E2 E3 _. split; rewrite ?E1, ?E2, ?E3; done. Qed.

Lemma handle_data_bounded op fin payload st st1 : bounded st -> #payload <= kMaxPayloadBytes ->
  handle_data op fin payload st = inl st1 -> bounded st1 /\ handed_off st1 = handed_off st.
Proof.
  intros [H1 H2 H3] Hp. unfold handle_data. destruct (negb (op =? Continuation)).
  - destruct (fragmented st); [done|]. intros [= <-]. by split.
  - destruct (negb (fragmented st)); [done|]. destruct (Z.ltb_spec kMaxPayloadBytes (#(message_buffer st) + #payload)); [done|]. intros [= <-].
    split; [|done]. split; cbn; [done|done|]. rewrite length_app. lia.
Qed.

Lemma deliver_bounded st : bounded st -> bounded (deliver st).
Proof.
  intros [H1 H2 H3]. unfold deliver. assert (Hb : bounded (set_message_buffer [] (set_fragmented false st))) by (split; cbn; [done|done|unfold kMaxPayloadBytes; lia]).
  destruct ws_handler; [|done]. eapply bounded_core; [apply sends_core|]. destruct Hb as [? ? ?]. by split.
Qed.

Lemma handle_frame_bounded op fin payload st : bounded st -> #payload <= kMaxPayloadBytes -> bounded (handle_frame op fin payload st).1.
Proof.
  intros Hb Hp. unfold handle_frame. destruct (is_control_opcode op).
  - destruct (op =? Close); [|destruct (op =? Ping); [|done]]; cbn [fst].
    + eapply bounded_core; [|exact Hb]. rewrite close_after_flush_core. apply (send_close_core payload 0).
    + eapply bounded_core; [apply write_core|exact Hb].
  - destruct (handle_data op fin payload st) as [s|code] eqn:E; cbn [fst].
    + destruct (handle_data_bounded _ _ _ _ _ Hb Hp E) as [Hs _]. destruct fin; [|done]. by apply deliver_bounded.
    + eapply bounded_core; [apply fail_close_core|exact Hb].
Qed.

(** The receive buffer of a connection that waits for more. *)
Definition waits_small (st : WS) : Prop :=
  match phase st with
  | Sniffing => #(buffer st) < kMaxHandshakeBytes
  | ReadingHeader => #(buffer st) < 14
  | ReadingPayload => #(buffer st) < pending_payload_len st
  end.

Lemma header_sizes_small buf : ((header_sizes buf).2 <= 14)%nat.
Proof. unfold header_sizes. cbn [snd]. repeat case_match; lia. Qed.

Lemma check_header_bounded buf len base : check_header buf = inr (len, base) ->
  len <= kMaxPayloadBytes /\ (is_control_opcode (nth_byte buf 0 .& 0x0F) = true -> len <= 125).
Proof.
  unfold check_header. destruct (_ || _); [done|]. destruct (_ =? 0); [done|]. destruct (negb _); [done|].
  destruct (read_length buf) as [[l b]|]; [|done]. destruct (is_control_opcode _ && _) eqn:Ec; [done|].
  destruct (Z.ltb_spec kMaxPayloadBytes l); [done|]. intros [= <- <-]. split; [lia|]. intros Hc. rewrite Hc in Ec. cbn in Ec.
  apply orb_false_iff in Ec as [_ Ec]. lia.
Qed.

Definition attached (st : WS) : Prop := handed_off st = false -> http_input st = None.

Lemma try_sniff_bounded st : bounded st -> bounded (try_sniff st).1 /\
  (try_sniff st = (st, false) -> phase st = Sniffing -> handed_off st = false -> waits_small st).
Proof.
  intros Hb. assert (Hho : bounded (hand_off_to_http st) /\ (handed_off st = false -> hand_off_to_http st <> st)).
  { unfold hand_off_to_http. destruct http_handler; cbn [negb].
    - split; [by destruct Hb|]. intros Hh E. apply (f_equal handed_off) in E. cbn in E. congruence.
    - split; [eapply bounded_core; [apply close_core|by destruct Hb]|]. intros Hh E.
      destruct (neutral_keeps _ (set_closing true (set_handed_off true st)) close_neutral) as (_ & _ & E' & _). rewrite E in E'. cbn in E'. congruence. }
  destruct Hho as [Hb1 Hne]. unfold try_sniff. destruct (find_sub terminator (buffer st)) as [i|].
  - destruct (if ws_handler then _ else _) as [hs|]; [destruct (is_upgrade hs)|]; cbn [fst].
    + split; [|done]. unfold complete_ws_handshake. cbv zeta. eapply bounded_core; [rewrite sends_core|exact Hb].
      apply (write_core _ st).
    + split; [done|]. intros [= E] _ Hh. by specialize (Hne Hh).
    + split; [done|]. intros [= E] _ Hh. by specialize (Hne Hh).
  - destruct (Z.leb_spec kMaxHandshakeBytes (#(buffer st))); cbn [fst].
    + split; [done|]. intros [= E] _ Hh. by specialize (Hne Hh).
    + split; [done|]. intros _ Hp _. unfold waits_small. by rewrite Hp.
Qed.

Lemma try_read_header_bounded st : bounded st -> bounded (try_read_header st).1 /\
  (try_read_header st = (st, false) -> phase st = ReadingHeader -> closing st = false -> waits_small st).
Proof.
  intros Hb. unfold try_read_header. destruct (Nat.ltb_spec (length (buffer st)) 2) as [H2|H2].
  { split; [done|]. intros _ Hp _. unfold waits_small. rewrite Hp. lia. }
  pose proof (header_sizes_small (buffer st)) as Hs. destruct (header_sizes (buffer st)) as [base0 full]. cbn [snd] in Hs.
  destruct (Nat.ltb_spec (length (buffer st)) full) as [Hf|Hf].
  { split; [done|]. intros _ Hp _. unfold waits_small. rewrite Hp. lia. }
  destruct (check_header (buffer st)) as [code|[len base]] eqn:Ec; cbn [fst].
  - split; [eapply bounded_core; [apply fail_close_core|exact Hb]|]. intros [= E] _ Hc. pose proof (fail_close_closing code st) as H. rewrite E in H. congruence.
  - destruct (check_header_bounded _ _ _ Ec) as [H3 H4]. split; [|done]. destruct Hb as [_ _ Hb]. by split.
Qed.

Lemma try_read_payload_bounded st : bounded st -> bounded (try_read_payload st).1 /\
  (try_read_payload st = (st, false) -> phase st = ReadingPayload -> waits_small st).
Proof.
  intros Hb. unfold try_read_payload. destruct (Z.ltb_spec (#(buffer st)) (pending_payload_len st)) as [Hn|Hn].
  { split; [done|]. intros _ Hp. unfold waits_small. by rewrite Hp. }
  split.
  - apply handle_frame_bounded; [by destruct Hb|]. rewrite mask_payload_length, length_take. destruct Hb as [Hb _ _]. unfold kMaxPayloadBytes in *. lia.
  - intros E Hp. apply (f_equal fst) in E. pose proof (handle_frame_keeps (pending_opcode st) (pending_fin st)
      (mask_payload (pending_masking_key st) 0 (take (Z.to_nat (pending_payload_len st)) (buffer st)))
      (set_phase ReadingHeader (set_buffer (drop (Z.to_nat (pending_payload_len st)) (buffer st)) st))) as (_ & K & _).
    cbn [fst] in E. cbn in E, K. rewrite E in K. cbn in K. congruence.
Qed.

(** A round, for every buffer. *)
Lemma process_step_any st : attached st -> bounded st -> match process_step st with
  | inl st' => attached st' /\ bounded st' /\ (weight st' < weight st)%nat
  | inr r => attached r /\ bounded r /\ (stopped r = false -> waits_small r)
  end.
Proof.
  intros Ha Hb. destruct (decide (stopped st = true)) as [Hs|Hs%not_true_is_false].
  { assert (E : process_step st = inr st) by (unfold process_step; unfold stopped in Hs; by rewrite Hs). rewrite E, Hs. done. }
  pose proof Hs as [Hc Hh]%orb_false_iff. specialize (Ha Hh). assert (Hat : forall s, http_input s = None -> attached s) by (by intros s ? ?).
  unfold process_step, stopped in *. rewrite Hs. unfold weight. destruct (phase st) eqn:Ep.
  - destruct (try_sniff_bounded st Hb) as [B1 B2]. destruct (try_sniff_push [] st Hh Ha) as [E|[(_ & _ & H1 & H2)|[_ H]]].
    + rewrite E in *. auto.
    + destruct (try_sniff st) as [s p]. cbn [fst snd] in *. subst p. rewrite H2, orb_true_r. split; [|done]. intros ?. congruence.
    + destruct (try_sniff st) as [s []]; cbn [fst snd] in *.
      * destruct H as (-> & Hl & H1 & H2). split; [by apply Hat|]. split; [done|]. lia.
      * rewrite H, orb_true_r. split; [|done]. intros ?. congruence.
  - destruct (try_read_header_bounded st Hb) as [B1 B2]. destruct (try_read_header_push [] st Ha) as [E|(_ & H1 & H2 & H)]; [rewrite E in *; auto|].
    destruct (try_read_header st) as [s []]; cbn [fst snd] in *.
    + destruct H as [-> Hl]. split; [by apply Hat|]. split; [done|]. lia.
    + destruct H as [-> _]. split; [by apply Hat|done].
  - destruct (try_read_payload_bounded st Hb) as [B1 B2]. destruct (try_read_payload_push [] st Ha) as [E|(_ & H1 & H2 & Hph & Hl & Hst)]; [rewrite E in *; auto|].
    destruct (try_read_payload st) as [s []]; cbn [fst snd] in *.
    + rewrite Hph. split; [by apply Hat|]. split; [done|]. lia.
    + rewrite Hst by done. split; [by apply Hat|done].
Qed.

(** ** What the application sees of a connection's life *)

(** [Greeted] and [Gone] are an open WebSocket and one whose [on_close] has
    run; [Lost] is one that was opened after its socket had been closed. *)
Inductive Life := Fresh | Greeted | Closing | Ending | Gone | Dying | Dead | Lost | Http.

Definition live (l : Life) (e : Event) : option Life :=
  match l, e with
  | Fresh, Wrote _ => Some Fresh
  | Fresh, OnOpen => Some Greeted
  | Fresh, SocketClosed => Some Dying
  | Fresh, HandedOff => Some Http
  | Greeted, Wrote _ => Some Greeted
  | Greeted, OnMessage _ => Some Greeted
  | Greeted, SocketClosed => Some Closing
  | Closing, OnClose => Some Ending
  | Ending, Notified => Some Gone
  | Dying, Notified => Some Dead
  | Dead, OnOpen => Some Lost
  | _, _ => None
  end.

Fixpoint life (l : Life) (es : list Event) : option Life :=
  match es with
  | [] => Some l
  | e :: es => live l e ≫= fun l => life l es
  end.

Lemma life_app es : forall l es', life l (es ++ es') = life l es ≫= fun l => life l es'.
Proof. induction es as [|e es IH]; intros l es'; [done|]. cbn. destruct (live l e); [apply IH|done]. Qed.

Lemma life_emit l l' e st : life Fresh (log st) = Some l -> live l e = Some l' -> life Fresh (log (emit e st)) = Some l'.
Proof. intros H E. cbn. rewrite life_app, H. cbn. by rewrite E. Qed.

(** The life so far and the state. *)
Definition agrees (l : Life) (st : WS) : Prop :=
  life Fresh (log st) = Some l /\
  match l with
  | Fresh => phase st = Sniffing /\ conn_open st = true /\ ws_open st = false /\ notify_closed st = true
  | Greeted => phase st <> Sniffing /\ conn_open st = true /\ ws_open st = true /\ notify_closed st = true /\ ws_handler = true
  | Gone => conn_open st = false /\ ws_open st = false /\ closing st = true
  | Dead => conn_open st = false /\ ws_open st = false /\ closing st = true
  | Lost => conn_open st = false /\ ws_open st = true /\ closing st = true
  | Http => handed_off st = true /\ http_input st <> None
  | _ => False
  end.

(** From the first life to the second without an [OnOpen]. *)
Definition ages (l l' : Life) : Prop := l' = l \/ l = Fresh /\ l' = Dead \/ l = Greeted /\ l' = Gone.

Definition ageing (op : WS -> WS) : Prop := forall l st, agrees l st -> l <> Http -> exists l', agrees l' (op st) /\ ages l l'.

Lemma ages_trans l1 l2 l3 : ages l1 l2 -> ages l2 l3 -> ages l1 l3.
Proof. unfold ages. naive_solver. Qed.

Lemma ageing_comp f g : ageing f -> ageing g -> ageing (fun st => g (f st)).
Proof.
  intros Hf Hg l st H Hn. destruct (Hf l st H Hn) as (l1 & H1 & A1). destruct (Hg l1 (f st) H1) as (l2 & H2 & A2); [unfold ages in A1; naive_solver|].
  exists l2. split; [done|by eapply ages_trans].
Qed.

Lemma close_ages : ageing close.
Proof.
  intros l st [Hl H] Hn. unfold close. destruct l; try done; try (by destruct Hn); try (destruct H as (Hc & H); rewrite Hc; match goal with |- exists _, _ /\ ages ?l _ => exists l end; split; [by split|by left]).
  - destruct H as (Hp & Hc & Ho & Hnt). rewrite Hc. exists Dead. unfold on_closed. cbn [ws_open set_closing emit set_conn_open]. rewrite Ho. cbn [notify_closed set_closing emit set_conn_open].
    rewrite Hnt. split; [|right; by left]. split; [|done]. cbn. rewrite !life_app, Hl. done.
  - destruct H as (Hp & Hc & Ho & Hnt & Hw). rewrite Hc. exists Gone. unfold on_closed. cbn [ws_open set_closing emit set_conn_open]. rewrite Ho, Hw. cbn [notify_closed set_closing emit set_conn_open set_ws_open].
    rewrite Hnt. split; [|right; by right]. split; [|done]. cbn. rewrite !life_app, Hl. done.
Qed.

(** Steps that neither log nor touch what [agrees] speaks of. *)
Lemma agrees_same l st st' : agrees l st -> log st' = log st -> phase st' = phase st -> conn_open st' = conn_open st ->
  ws_open st' = ws_open st -> notify_closed st' = notify_closed st -> (closing st = true -> closing st' = true) -> handed_off st' = handed_off st ->
  (http_input st <> None -> http_input st' <> None) -> agrees l st'.
Proof. intros [H1 H2] E1 E2 E3 E4 E5 E6 E7 E8. unfold agrees. rewrite E1, E2, E3, E4, E5, E7. split; [done|]. destruct l; naive_solver. Qed.

Lemma write_ages bs : ageing (write bs).
Proof.
  intros l st H Hn. unfold write. destruct (conn_open st) eqn:Hc; cbn [negb]; [|exists l; by split; [|left]].
  assert (Hw : forall st1, agrees l st1 -> conn_open st1 = true -> agrees l (emit (Wrote bs) st1)).
  { intros st1 [Hl Ha] Hco. destruct l; try done; try (by destruct Hn); try (destruct Ha as [? _]; congruence); (split; [by eapply life_emit|exact Ha]). }
  destruct (output_pending st); [exists l; split; [by apply Hw|by left]|]. cbv zeta. cbn [flushes set_flushes].
  assert (Hf : agrees l (set_flushes (S (flushes st)) st)) by (by eapply agrees_same).
  destruct (io (S (flushes st))).
  - exists l. split; [by apply Hw|by left].
  - exists l. split; [apply Hw; [by eapply agrees_same|done]|by left].
  - by apply close_ages.
Qed.

Lemma close_after_flush_ages : ageing close_after_flush.
Proof.
  intros l st H Hn. unfold close_after_flush. destruct (negb (conn_open st)); [exists l; by split; [|left]|].
  destruct (output_pending st); [|by apply close_ages]. exists l. split; [by eapply agrees_same|by left].
Qed.

Lemma on_writable_ages : ageing on_writable.
Proof.
  intros l st H Hn. unfold on_writable. destruct (negb (conn_open st)); [exists l; by split; [|left]|]. cbv zeta. cbn [flushes set_flushes].
  destruct (io (S (flushes st))).
  - cbn [flush_then_close set_output_pending set_flushes]. destruct (flush_then_close st).
    + apply close_ages; [by eapply agrees_same|done].
    + exists l. split; [by eapply agrees_same|by left].
  - exists l. split; [by eapply agrees_same|by left].
  - apply close_ages; [by eapply agrees_same|done].
Qed.

Lemma sends_age ss : ageing (sends ss).
Proof.
  unfold sends. induction ss as [|s ss IH]; [intros l st H Hn; exists l; by split; [|left]|].
  exact (ageing_comp (send s) (sends ss) (write_ages _) IH).
Qed.

Lemma send_close_ages payload code : ageing (send_close payload code).
Proof.
  intros l st H Hn. unfold send_close. destruct (sent_close st); [exists l; by split; [|left]|].
  apply write_ages; [by eapply agrees_same|done].
Qed.

Lemma fail_close_ages code : ageing (fail_close code).
Proof.
  intros l st H Hn. unfold fail_close. apply (ageing_comp (send_close [] code) close_after_flush); [apply send_close_ages|apply close_after_flush_ages| |done].
  by eapply agrees_same.
Qed.

Lemma handle_frame_ages op fin payload st : agrees Greeted st -> exists l, agrees l (handle_frame op fin payload st).1 /\ ages Greeted l.
Proof.
  intros H. unfold handle_frame. destruct (is_control_opcode op).
  - destruct (op =? Close); [|destruct (op =? Ping)]; cbn [fst].
    + fold (send_close payload 0 st). destruct (send_close_ages payload 0 Greeted st H) as (l & H1 & A); [done|].
      destruct (close_after_flush_ages l (set_closing true (send_close payload 0 st))) as (l' & H2 & A'); [|unfold ages in A; naive_solver|].
      * by eapply agrees_same.
      * exists l'. split; [done|by eapply ages_trans].
    + by apply write_ages.
    + exists Greeted. by split; [|left].
  - destruct (handle_data op fin payload st) as [s|code] eqn:E; cbn [fst]; [|by apply fail_close_ages].
    assert (Hs : agrees Greeted s). { unfold handle_data in E. repeat (case_match; try done); injection E as <-; by eapply agrees_same. }
    destruct fin; [|exists Greeted; by split; [|left]]. destruct (ws_handler) eqn:Ew; [|exists Greeted; split; [by eapply agrees_same|by left]].
    apply sends_age; [|done]. destruct Hs as [Hl Ha]. split; [by eapply (life_emit Greeted)|exact Ha].
Qed.

Lemma try_sniff_ages st : agrees Fresh st -> exists l, agrees l (try_sniff st).1.
Proof.
  intros H. assert (Ho : exists l, agrees l (hand_off_to_http st)).
  { unfold hand_off_to_http. destruct http_handler; cbn [negb].
    - exists Http. split; [|done]. destruct H as [H _]. by eapply (life_emit Fresh).
    - destruct (close_ages Fresh (set_closing true (set_handed_off true st))) as (l & ? & _); [|done|by exists l]. destruct H as [Hl Ha]. by split. }
  unfold try_sniff. destruct (find_sub terminator (buffer st)); [|by case_match; [|exists Fresh]].
  destruct ws_handler eqn:Ew; [|done]. destruct (parse_handshake (buffer st)) as [hs|]; [|done]. destruct (is_upgrade hs); [|done]. cbn [fst].
  unfold complete_ws_handshake. cbv zeta. set (bs := switching_response _). destruct (write_ages bs Fresh st H) as (l & [Hl Ha] & A); [done|].
  set (st1 := write bs st) in *. set (st2 := emit OnOpen _).
  assert (H2 : agrees Greeted st2 \/ agrees Lost st2).
  { destruct A as [-> |[[_ ->]|[? _]]]; [left|right|done]; (split; [by eapply life_emit|]).
    - destruct Ha as (_ & Hc & _ & Hnt). by rewrite Ew.
    - by destruct Ha as (Hc & _ & Hcl). }
  destruct H2 as [H2|H2]; destruct (sends_age (on_open_sends (log st2)) _ st2 H2) as (l' & ? & _); try done; by exists l'.
Qed.

Lemma process_step_ages st : (exists l, agrees l st) -> exists l, agrees l (match process_step st with inl s => s | inr s => s end).
Proof.
  intros [l H]. unfold process_step. destruct (closing st || handed_off st) eqn:Es; [by exists l|]. apply orb_false_iff in Es as [Ec Eh].
  assert (Hl : match phase st with Sniffing => agrees Fresh st | _ => agrees Greeted st end).
  { pose proof H as [_ Ha]. destruct l; try done.
    - destruct Ha as [-> _]. exact H.
    - destruct Ha as [Hp _]. by destruct (phase st).
    - destruct Ha as (_ & _ & ?). congruence.
    - destruct Ha as (_ & _ & ?). congruence.
    - destruct Ha as (_ & _ & ?). congruence.
    - destruct Ha as [? _]. congruence. }
  clear H l. destruct (phase st) eqn:Ep.
  - destruct (try_sniff_ages st Hl) as [l H]. exists l. by destruct (try_sniff st) as [s []].
  - unfold try_read_header. destruct (_ <? 2)%nat; [by exists Greeted|]. destruct (header_sizes (buffer st)) as [b f]. destruct (_ <? f)%nat; [by exists Greeted|].
    destruct (check_header (buffer st)) as [code|[len base]].
    + destruct (fail_close_ages code Greeted st Hl) as (l & ? & _); [done|by exists l].
    + exists Greeted. destruct Hl as [H1 (H2 & H3)]. by split.
  - unfold try_read_payload. destruct (_ <? _); [by exists Greeted|]. cbv zeta. set (st1 := set_phase ReadingHeader _). set (pl := mask_payload _ _ _).
    destruct (handle_frame_ages (pending_opcode st1) (pending_fin st1) pl st1) as (l & H & _); [destruct Hl as [H1 (H2 & H3)]; by split|].
    exists l. by destruct (handle_frame _ _ _ _) as [s []].
Qed.

(** ** Everything that can happen to a connection *)

(** [SendLater] is a frame sent through a stored [reactor::Connection],
    [Eof] the end of the stream or an error of the socket. *)
Inductive Action := Read (data : bytes) | Writable | Eof | SendLater (s : Send).

Definition act (a : Action) (st : WS) : option WS :=
  match http_input st, a with
  | _, Read data => on_data data st
  | None, Writable => Some (on_writable st)
  | None, Eof => Some (close st)
  | None, SendLater s => Some (send s st)
  | Some _, _ => Some st
  end.

Fixpoint acts (xs : list Action) (st : WS) : option WS :=
  match xs with [] => Some st | x :: xs => act x st ≫= acts xs end.

Record ws_inv (st : WS) : Prop := {
  inv_attached : attached st;
  inv_bounded : bounded st;
  inv_waits : stopped st = false -> waits_small st;
  inv_life : exists l, agrees l st
}.

Lemma on_data_inv data st : ws_inv st -> exists st', on_data data st = Some st' /\ ws_inv st'.
Proof.
  intros [Ha Hb Hw [l Hl]]. set (st1 := receive data st).
  assert (H1 : attached st1 /\ bounded st1 /\ (exists l, agrees l st1) /\ stopped st1 = stopped st).
  { unfold st1, receive. destruct (http_input st) eqn:E.
    - split; [intros Hh; specialize (Ha Hh); congruence|]. split; [by destruct Hb|]. split; [|done]. exists l. by eapply agrees_same.
    - split; [by intros ?|]. split; [by destruct Hb|]. split; [|done]. exists l. by eapply agrees_same. }
  destruct H1 as (A1 & B1 & L1 & S1). unfold on_data. fold st1. cbv zeta. fold (stopped st1). destruct (stopped st1) eqn:Es.
  { exists st1. split; [done|]. split; try done. by rewrite Es. }
  unfold process. set (I := fun s => attached s /\ bounded s /\ exists l, agrees l s).
  assert (HI : forall s, I s -> match process_step s with inl s' => I s' /\ (weight s' < weight s)%nat | inr r => ws_inv r end).
  { intros s (X1 & X2 & X3). pose proof (process_step_any s X1 X2) as Y. pose proof (process_step_ages s X3) as Z0.
    destruct (process_step s); [by destruct Y as (? & ? & ?)|]. destruct Y as (? & ? & ?). by split. }
  destruct (loop_total process_step I weight (fun s s' X E => ltac:(pose proof (HI s X) as Y; rewrite E in Y; exact Y)) (S (weight st1)) st1) as [r Hr]; [done|lia|].
  exists r. split; [done|]. revert Hr. apply (loop_post process_step I ws_inv); [| |done].
  - intros s s' X E. pose proof (HI s X) as Y. rewrite E in Y. apply Y.
  - intros s s' X E. pose proof (HI s X) as Y. by rewrite E in Y.
Qed.

(** An action on the output side. *)
Lemma output_inv op st : neutral op -> (forall st, core (op st) = core st) -> (forall st, closing st = true -> closing (op st) = true) -> ageing op ->
  http_input st = None -> ws_inv st -> ws_inv (op st).
Proof.
  intros Hn Hc Hcl Hag Hi [Ha Hb Hw [l Hl]]. destruct (neutral_keeps op st Hn) as (Kb & Kp & Kh & Ki). split.
  - unfold attached. by rewrite Ki.
  - eapply bounded_core; [apply Hc|done].
  - intros Hs. assert (Hs' : stopped st = false).
    { unfold stopped in *. rewrite Kh in Hs. apply orb_false_iff in Hs as [Hs1 ->]. destruct (closing st) eqn:E; [|done]. specialize (Hcl st E). congruence. }
    specialize (Hw Hs'). unfold waits_small in *. pose proof (Hc st) as Ec. unfold core in Ec. injection Ec as -> _ _ _. by rewrite Kp, Kb.
  - destruct (Hag l st Hl) as (l' & ? & _); [|by exists l']. intros ->. destruct Hl as [_ [_ ?]]. done.
Qed.

Lemma on_writable_neutral : neutral on_writable.
Proof.
  apply (neutral_if (fun st => negb (conn_open st))); [done|done|]. intros b p h i st. cbv zeta. cbn [flushes set_flushes].
  change (flushes (relocate b p h i st)) with (flushes st). destruct (io (S (flushes st))); [|done|apply (close_neutral b p h i (set_flushes _ st))].
  change (flush_then_close (set_output_pending false (set_flushes (S (flushes st)) (relocate b p h i st)))) with (flush_then_close st).
  change (flush_then_close (set_output_pending false (set_flushes (S (flushes st)) st))) with (flush_then_close st).
  destruct (flush_then_close st); [|done]. apply (close_neutral b p h i (set_output_pending false (set_flushes _ st))).
Qed.

Lemma on_writable_core st : core (on_writable st) = core st.
Proof. unfold on_writable. repeat (case_match; try done); by rewrite close_core. Qed.

Lemma on_writable_closing st : closing st = true -> closing (on_writable st) = true.
Proof. intros H. unfold on_writable. repeat (case_match; try done); by apply ws_close_closing. Qed.

Lemma act_inv a st : ws_inv st -> exists st', act a st = Some st' /\ ws_inv st'.
Proof.
  intros H. unfold act. destruct a as [data| | |s].
  - destruct (http_input st); by apply on_data_inv.
  - destruct (http_input st) eqn:E; (eexists; split; [done|]); [done|].
    apply output_inv; [apply on_writable_neutral|apply on_writable_core|apply on_writable_closing|apply on_writable_ages|done|done].
  - destruct (http_input st) eqn:E; (eexists; split; [done|]); [done|].
    apply output_inv; [apply close_neutral|apply close_core|apply ws_close_closing|apply close_ages|done|done].
  - destruct (http_input st) eqn:E; (eexists; split; [done|]); [done|].
    apply (output_inv (send s)); [apply write_neutral|apply write_core|apply ws_write_closing|apply write_ages|done|done].
Qed.

Lemma ws_new_conn_inv : ws_inv new_conn.
Proof.
  split; [done|by split|done|]. exists Fresh. done.
Qed.

Lemma acts_inv xs : forall st, ws_inv st -> exists st', acts xs st = Some st' /\ ws_inv st'.
Proof.
  induction xs as [|x xs IH]; intros st H; [by exists st|]. cbn [acts]. destruct (act_inv x st H) as (st1 & -> & H1). by apply IH.
Qed.

(** ** Plain HTTP *)

Section Http.
Context (order : list (bytes * bytes) -> list (bytes * bytes)).
Context (handler : list Http1Server.Event -> HTTPRequest -> option HTTPResponse * bool).
Context (write_fails : nat -> bool).

(** The connection with the [Http1Connection] it hands itself to. *)
Definition serve_chunk (data : bytes) (s : WS * option H1) : option (WS * option H1) :=
  match s.2 with
  | Some h => h ← Http1Server.on_data order handler write_fails data h; Some (receive data s.1, Some h)
  | None =>
      ws ← on_data data s.1;
      match http_input ws with
      | Some initial => h ← Http1Server.start order handler write_fails initial Http1Server.new_conn; Some (ws, Some h)
      | None => Some (ws, None)
      end
  end.

Fixpoint serve (chunks : list bytes) (s : WS * option H1) : option (WS * option H1) :=
  match chunks with
  | [] => Some s
  | c :: chunks => serve_chunk c s ≫= serve chunks
  end.

(** The first request does not ask for an upgrade. *)
Definition plain (bs : bytes) : Prop :=
  match (if ws_handler then parse_handshake bs else None) with Some hs => is_upgrade hs = false | None => True end.

(** Enough has arrived to stop sniffing. *)
Definition decided (bs : bytes) : bool :=
  match find_sub terminator bs with Some _ => true | None => kMaxHandshakeBytes <=? #bs end.

Lemma sniff_plain pre c rest : http_handler = true -> decided pre = false -> plain (pre ++ c ++ rest) ->
  on_data c (set_buffer pre new_conn) = Some
    (if decided (pre ++ c) then set_http_input (Some (pre ++ c)) (set_notify_closed false (set_handed_off true (emit HandedOff new_conn)))
     else set_buffer (pre ++ c) new_conn).
Proof.
  intros Hh Hpre Hplain. assert (Ho : hand_off_to_http (set_buffer (pre ++ c) new_conn) =
    set_http_input (Some (pre ++ c)) (set_notify_closed false (set_handed_off true (emit HandedOff new_conn)))) by (unfold hand_off_to_http; by rewrite Hh).
  unfold on_data. change (receive c (set_buffer pre new_conn)) with (set_buffer (pre ++ c) new_conn). cbv zeta.
  change (closing (set_buffer (pre ++ c) new_conn) || handed_off (set_buffer (pre ++ c) new_conn)) with false. cbv iota.
  unfold process. cbn [loop]. unfold process_step at 1.
  change (closing (set_buffer (pre ++ c) new_conn) || handed_off (set_buffer (pre ++ c) new_conn)) with false.
  change (phase (set_buffer (pre ++ c) new_conn)) with Sniffing. cbv iota.
  unfold try_sniff, decided. change (buffer (set_buffer (pre ++ c) new_conn)) with (pre ++ c).
  destruct (find_sub terminator (pre ++ c)) as [i|] eqn:Ef.
  - assert (Hp : plain (pre ++ c)). { unfold plain in *. rewrite app_assoc, (parse_handshake_app _ rest _ Ef) in Hplain. exact Hplain. }
    unfold plain in Hp. destruct (if ws_handler then parse_handshake (pre ++ c) else None) as [hs|]; [rewrite Hp|]; by rewrite Ho.
  - destruct (kMaxHandshakeBytes <=? #(pre ++ c)); [by rewrite Ho|done].
Qed.

Lemma start_on_data bs : bs <> [] -> Http1Server.start order handler write_fails bs Http1Server.new_conn = Http1Server.on_data order handler write_fails bs Http1Server.new_conn.
Proof. by destruct bs. Qed.

Lemma serve_attached chunks : forall ws h, (serve chunks (ws, Some h)) =
  (h ← Http1Server.feed order handler write_fails chunks h; Some (foldl (fun ws c => receive c ws) ws chunks, Some h)).
Proof.
  induction chunks as [|c cs IH]; intros ws h; [done|]. cbn [serve serve_chunk snd fst foldl].
  change (Http1Server.feed order handler write_fails (c :: cs) h) with (Http1Server.on_data order handler write_fails c h ≫= Http1Server.feed order handler write_fails cs).
  destruct (Http1Server.on_data order handler write_fails c h) as [h'|]; cbn [mbind option_bind]; [apply IH|done].
Qed.

Lemma serve_plain chunks : http_handler = true -> forall pre, decided pre = false -> decided (pre ++ concat chunks) = true ->
  plain (pre ++ concat chunks) -> #(pre ++ concat chunks) < kMaxRequestBytes ->
  exists ws h, serve chunks (set_buffer pre new_conn, None) = Some (ws, Some h) /\
    Http1Server.on_data order handler write_fails (pre ++ concat chunks) Http1Server.new_conn = Some h.
Proof.
  intros Hh. induction chunks as [|c cs IH]; intros pre Hd He Hp Hs; cbn [concat] in *.
  { rewrite app_nil_r in He. congruence. }
  cbn [serve]. unfold serve_chunk. cbn [snd fst]. rewrite (sniff_plain pre c (concat cs) Hh Hd Hp). cbn [mbind option_bind].
  destruct (decided (pre ++ c)) eqn:Ed.
  - change (http_input (set_http_input (Some (pre ++ c)) ?s)) with (Some (pre ++ c)). cbv iota beta.
    assert (Hne : pre ++ c <> []) by (intros E; rewrite E in Ed; done). rewrite start_on_data by done.
    destruct (@bm_chunking H1 (Http1Server.h1_machine order handler write_fails) (Http1Server.h1_machine_laws order handler write_fails) Http1Server.new_conn ((pre ++ c) :: cs))
      as (h & F1 & F2 & _); [done| |].
    { cbn. unfold Http1Server.small, Http1Server.push. cbn. rewrite <- app_assoc. done. }
    cbn [concat] in F2. rewrite <- app_assoc in F2. cbn [bm_feed] in F1. fold (Http1Server.feed order handler write_fails) in F1.
    rewrite <- !Http1Server.on_data_machine in *. 
    destruct (Http1Server.on_data order handler write_fails (pre ++ c) Http1Server.new_conn) as [h0|]; [|done]. cbn [mbind option_bind] in *.
    rewrite serve_attached. unfold Http1Server.feed. rewrite F1. cbn [mbind option_bind]. eauto.
  - change (http_input (set_buffer (pre ++ c) new_conn)) with (@None bytes). cbv iota beta. cbn [mbind option_bind].
    rewrite (app_assoc pre c) in *. by apply IH.
Qed.
End Http.

Lemma frames_keep fs : forall st, phase (frames fs st) = phase st /\ handed_off (frames fs st) = handed_off st /\
  http_input (frames fs st) = http_input st.
Proof.
  induction fs as [|f fs IH]; intros st; [done|]. cbn [frames].
  destruct (handle_frame_keeps (opcode f) (fin f) (payload f) (pend f st)) as (_ & Kp & Kh & Ki).
  destruct (handle_frame (opcode f) (fin f) (payload f) (pend f st)) as [s more]. cbn [fst] in *.
  destruct (more && negb (closing s)); [destruct (IH s) as (-> & -> & ->)|]; done.
Qed.

(** A WebSocket between two messages. *)
Record idle (st : WS) : Prop := {
  idle_phase : phase st = ReadingHeader;
  idle_stopped : stopped st = false;
  idle_http : http_input st = None;
  idle_open : conn_open st = true;
  idle_buffer : buffer st = [];
  idle_fragmented : fragmented st = false
}.

Lemma message_delivered fs op items final st chunks : (forall k, io k <> Error) -> ws_handler = true -> idle st ->
  Forall client_frame fs -> op = Text \/ op = Binary -> #(message_data items final) <= kMaxPayloadBytes ->
  body <$> fs = message_bodies op items final -> concat chunks = concat (serialize <$> fs) ->
  exists r, feed chunks st = Some r /\ idle r /\
    log r = log st ++ pongs items ++ delivery (log st ++ pongs items) (mkMessage op (message_data items final)).
Proof.
  intros Hio Hw [Ip Is Ih Io Ib If] Hfs Hop Hmax Hb Hc.
  assert (Hid : on_data [] st = Some st).
  { unfold on_data. rewrite receive_attached, app_nil_r by done. replace (set_buffer (buffer st) st) with st by (by destruct st). unfold stopped in Is. rewrite Is.
    unfold process. cbn [loop]. unfold process_step at 1, try_read_header. by rewrite Is, Ip, Ib. }
  destruct (feed_chunking chunks st Hid) as (r & Hf & Hr).
  { rewrite receive_attached by done. split; cbn; [done|]. rewrite Ip. done. }
  exists r. split; [done|]. rewrite Hc in Hr. unfold on_data in Hr. rewrite receive_attached in Hr by done. cbn [closing handed_off set_buffer] in Hr.
  unfold stopped in Is. rewrite Is in Hr. unfold process in Hr. rewrite Ib in Hr. cbn [app] in Hr.
  destruct (process_frames fs Hfs _ (set_buffer (concat (serialize <$> fs)) st) r Ip Is eq_refl Hr) as [Hfr Hbr].
  change (set_buffer [] (set_buffer (concat (serialize <$> fs)) st)) with (set_buffer [] st) in Hfr. rewrite <- Ib in Hfr at 2.
  replace (set_buffer (buffer st) st) with st in Hfr by (by destruct st).
  apply orb_false_iff in Is as [Isc Ish].
  destruct (frames_message Hio Hw items final op [] op fs st Io Isc) as (L1 & L2 & L3 & L4); [by left|done|done|].
  destruct (frames_keep fs st) as (K1 & K2 & K3). rewrite <- Hfr in *. cbn in L1, L2, L3, L4, K1, K2, K3. split; [|done].
  split; try congruence; [unfold stopped; by rewrite L3, K2|by apply Hbr].
Qed.

(** ** The handshake *)

(** What the client and the application see first. *)
Definition opening (hs : HandshakeRequest) : list Event :=
  let key := default [] (find_exact (hs_headers hs) (str "sec-websocket-key")) in
  [Wrote (switching_response (default [] (compute_accept key))); OnOpen].

Lemma upgrade_opens bs hs i chunks : (forall k, io k <> Error) -> ws_handler = true -> find_sub terminator bs = Some i -> length bs = (i + 4)%nat ->
  #bs <= kMaxHandshakeBytes -> parse_handshake bs = Some hs -> is_upgrade hs = true -> concat chunks = bs ->
  exists r, feed chunks new_conn = Some r /\ idle r /\ log r = opening hs ++ (sent <$> on_open_sends (opening hs)).
Proof.
  intros Hio Hw Hi Hl Hmax Hp Hu Hc. destruct (feed_chunking chunks new_conn new_conn_idle) as (r & Hf & Hr).
  { apply new_conn_ok. rewrite Hc. unfold sniffable. rewrite Hi. lia. }
  exists r. split; [done|]. rewrite Hc in Hr. unfold on_data in Hr. cbn [closing handed_off receive http_input new_conn set_buffer buffer app orb] in Hr.
  fold new_conn in Hr. fold (set_buffer bs new_conn) in Hr. unfold process in Hr.
  assert (E1 : process_step (set_buffer bs new_conn) = inl (complete_ws_handshake hs [] (set_buffer bs new_conn))).
  { unfold process_step, try_sniff. cbn [closing handed_off phase buffer new_conn set_buffer orb]. fold new_conn. fold (set_buffer bs new_conn).
    rewrite Hi, Hw, Hp, Hu, drop_ge by lia. done. }
  cbn [loop] in Hr. rewrite E1 in Hr. rewrite complete_eq in Hr.
  assert (G : goes_on (opening hs ++ (sent <$> on_open_sends (opening hs))) (set_ws_open true (set_buffer bs new_conn)) (greet hs (set_buffer bs new_conn))).
  { unfold greet. cbv zeta. set (bs' := switching_response _).
    destruct (write_goes_on Hio bs' (set_buffer bs new_conn) eq_refl) as [G1 G2 G3 G4 G5 G6].
    set (st1 := write bs' (set_buffer bs new_conn)) in *. set (st2 := emit OnOpen (set_ws_open true st1)).
    assert (Hlog : log st2 = opening hs) by (change (log st2) with (log st1 ++ [OnOpen]); by rewrite G1). rewrite Hlog.
    apply (goes_on_trans _ _ _ st2); [by split|]. apply (sends_go_on Hio). done. }
  destruct (neutral_keeps _ (set_buffer bs new_conn) (greet_neutral hs)) as (_ & _ & Kh & Ki).
  destruct G as [G1 G2 G3 G4 _ _]. set (st1 := greet hs (set_buffer bs new_conn)) in *. destruct (weight (set_buffer bs new_conn)) as [|n] eqn:Ew; [done|].
  cbn [loop] in Hr. unfold process_step at 1, try_read_header in Hr.
  cbn [closing handed_off phase buffer relocate set_buffer set_phase set_handed_off set_http_input new_conn] in Hr, G3. rewrite G3 in Hr. cbn in Hr.
  injection Hr as <-. cbn in *. split; [|done]. split; try done. unfold stopped. cbn. by rewrite G3.
Qed.
End Connection.

(** ** Properties *)

(** However the network splits the client's bytes into reads, the connection
    ends in the same state, having written the same bytes and made the same
    calls to the application in the same order, for every application and
    every pattern of blocked and failed writes; and processing terminates.
    The first header block has to end within the first 8192 bytes. *)
Theorem ws_chunking http_handler ws_handler on_open_sends on_message_sends io st chunks :
  on_data http_handler ws_handler on_open_sends on_message_sends io [] st = Some st -> ws_ok (receive (concat chunks) st) ->
  exists r, feed http_handler ws_handler on_open_sends on_message_sends io chunks st = Some r /\
    on_data http_handler ws_handler on_open_sends on_message_sends io (concat chunks) st = Some r.
Proof. apply feed_chunking. Qed.

(** An upgrade request, in any reads, is answered with the accept key of its
    key, the application is told, and what it sends follows; the connection
    then waits for frames. *)
Theorem ws_handshake_completes http_handler on_open_sends on_message_sends io bs hs i chunks :
  (forall k, io k <> Error) -> find_sub terminator bs = Some i -> length bs = (i + 4)%nat -> #bs <= kMaxHandshakeBytes ->
  parse_handshake bs = Some hs -> is_upgrade hs = true -> concat chunks = bs ->
  exists r, feed http_handler true on_open_sends on_message_sends io chunks new_conn = Some r /\ idle r /\
    log r = opening hs ++ (sent <$> on_open_sends (opening hs)).
Proof. intros Hio Hi Hl Hm Hp Hu Hc. by eapply upgrade_opens. Qed.

(** C1: A message arrives whole: a client may split it into any fragments, put
    pings and pongs between them and mask every frame with any key, and the
    network may split the bytes into any reads; every ping is answered with a
    pong of its payload, in order, the application receives the concatenation
    of the fragments with the opcode of the first, exactly once and after the
    pongs, its replies are written, and the connection is ready for the next
    message. *)
Theorem ws_message_delivered http_handler on_open_sends on_message_sends io fs op items final st chunks :
  (forall k, io k <> Error) -> idle st -> Forall client_frame fs -> op = Text \/ op = Binary -> #(message_data items final) <= kMaxPayloadBytes ->
  body <$> fs = message_bodies op items final -> concat chunks = concat (serialize <$> fs) ->
  exists r, feed http_handler true on_open_sends on_message_sends io chunks st = Some r /\ idle r /\
    log r = log st ++ pongs items ++ delivery on_message_sends (log st ++ pongs items) (mkMessage op (message_data items final)).
Proof. intros Hio Hi Hf Ho Hm Hb Hc. by eapply message_delivered. Qed.

(** A client that does not ask for an upgrade is served exactly as by the
    HTTP dispatcher alone: once the header block of its first request (or 8192
    bytes) has arrived, in any reads, the HTTP connection is in the state it
    would be in had it received all the bytes itself. *)
Theorem ws_http_transparent ws_handler on_open_sends on_message_sends io order handler write_fails chunks :
  plain ws_handler (concat chunks) -> decided (concat chunks) = true -> #(concat chunks) < kMaxRequestBytes ->
  exists ws h, serve true ws_handler on_open_sends on_message_sends io order handler write_fails chunks (new_conn, None) = Some (ws, Some h) /\
    Http1Server.on_data order handler write_fails (concat chunks) Http1Server.new_conn = Some h.
Proof. intros Hp Hd Hs. by apply (serve_plain true ws_handler on_open_sends on_message_sends io order handler write_fails chunks eq_refl [] eq_refl). Qed.

(** Whatever the client, the network and the application do, processing
    terminates and memory stays bounded: a frame announces at most 16 MiB
    (control frames 125 bytes), a message under reassembly has at most 16 MiB,
    and a connection that waits for input holds less than a handshake, a frame
    header or the announced payload. *)
Theorem ws_resource_bounds http_handler ws_handler on_open_sends on_message_sends io xs :
  exists st, acts http_handler ws_handler on_open_sends on_message_sends io xs new_conn = Some st /\
    bounded st /\ (stopped st = false -> waits_small st).
Proof. destruct (acts_inv http_handler ws_handler on_open_sends on_message_sends io xs new_conn) as (st & H & []); [apply ws_new_conn_inv|]. by exists st. Qed.

(** C38: Whatever happens, the calls to the application are [on_open] once, then
    messages, then [on_close] once, right behind the closing of the socket,
    and then the notification of the owner; nothing is written to a closed
    socket, and a connection that is handed to HTTP makes none of these calls.
    The exception is [Lost]: the socket is closed while the response to the
    handshake is written. *)
Theorem ws_lifecycle http_handler ws_handler on_open_sends on_message_sends io xs :
  exists st l, acts http_handler ws_handler on_open_sends on_message_sends io xs new_conn = Some st /\
    life Fresh (log st) = Some l /\ agrees ws_handler l st.
Proof.
  destruct (acts_inv http_handler ws_handler on_open_sends on_message_sends io xs new_conn) as (st & H & [_ _ _ [l Hl]]); [apply ws_new_conn_inv|].
  exists st, l. split; [done|]. split; [apply Hl|done].
Qed.

(** *** Examples *)

Definition no_sends (es : list Event) : list Send := [].
Definition echo (es : list Event) (m : Message) : list Send := [mkSend (msg_opcode m) (msg_data m) true].
Definition flushed (k : nat) : Result := Flushed.
Definition sample_upgrade : bytes := upgrade_request (str "/chat") (sample_fields (str "13")).
Definition sample_hs : HandshakeRequest := default (mkHandshake [] []) (parse_handshake sample_upgrade).
Definition client (op : Z) (fin : bool) (payload : bytes) : Frame := mkFrame fin false false false op true (#payload) 0x01020304 payload.
Definition sample_frames : list Frame := [client Text false (str "he"); client Ping true (str "p"); client Continuation true (str "llo")].
Definition open_conn : WS :=
  mkWS [] ReadingHeader false false None true false false Continuation 0 0 [] Continuation false true true false false 1 (opening sample_hs).

Lemma ws_chunking_witness : exists r, feed true true no_sends echo flushed [take 20 sample_upgrade; drop 20 sample_upgrade] new_conn = Some r /\
  on_data true true no_sends echo flushed sample_upgrade new_conn = Some r.
Proof.
  destruct (ws_chunking true true no_sends echo flushed new_conn [take 20 sample_upgrade; drop 20 sample_upgrade]) as (r & H1 & H2);
    [by vm_compute|split; [done|intros _ _; by vm_compute]|]. exists r. split; [exact H1|exact H2].
Defined.

Lemma ws_handshake_completes_witness : exists r, feed true true no_sends echo flushed [take 20 sample_upgrade; drop 20 sample_upgrade] new_conn = Some r /\
  idle r /\ log r = opening sample_hs.
Proof.
  destruct (ws_handshake_completes true no_sends echo flushed sample_upgrade sample_hs (length sample_upgrade - 4) [take 20 sample_upgrade; drop 20 sample_upgrade])
    as (r & H1 & H2 & H3); [done|by vm_compute|by vm_compute|by vm_compute|by vm_compute|by vm_compute|by vm_compute|]. exists r. split; [exact H1|]. split; [exact H2|exact H3].
Defined.

Lemma client_frame_ok op fin payload : is_known_opcode op = true -> #payload <= 125 -> (is_control_opcode op = true -> fin = true) ->
  client_frame (client op fin payload).
Proof. intros Ho Hl Hc. split; [|done]. split; cbn; try done; [unfold kMaxPayloadBytes; lia|auto]. Qed.

Lemma ws_message_delivered_witness : exists r,
  feed true true no_sends echo flushed [take 9 (concat (serialize <$> sample_frames)); drop 9 (concat (serialize <$> sample_frames))] open_conn = Some r /\ idle r /\
  log r = opening sample_hs ++ [Wrote [0x8A; 1; 112]; OnMessage (mkMessage Text (str "hello")); Wrote (0x81 :: 5 :: str "hello")].
Proof.
  destruct (ws_message_delivered true no_sends echo flushed sample_frames Text [Part (str "he"); PingItem (str "p")] (str "llo") open_conn
    [take 9 (concat (serialize <$> sample_frames)); drop 9 (concat (serialize <$> sample_frames))]) as (r & H1 & H2 & H3).
  - done.
  - by split.
  - repeat constructor; by apply client_frame_ok.
  - by left.
  - done.
  - done.
  - by vm_compute.
  - exists r. split; [exact H1|]. split; [exact H2|]. rewrite H3. by vm_compute.
Defined.

Lemma ws_http_transparent_witness :
  exists ws h, serve true true no_sends echo flushed (fun l => l) (sync hello) never
      [take 9 (request_wire get_slash []); drop 9 (request_wire get_slash [])] (new_conn, None) = Some (ws, Some h) /\
    Http1Server.on_data (fun l => l) (sync hello) never (request_wire get_slash []) Http1Server.new_conn = Some h.
Proof.
  destruct (ws_http_transparent true no_sends echo flushed (fun l => l) (sync hello) never [take 9 (request_wire get_slash []); drop 9 (request_wire get_slash [])])
    as (ws & h & H1 & H2); [by vm_compute|by vm_compute|by vm_compute|]. exists ws, h. split; [exact H1|exact H2].
Defined.

(** *** Findings *)

Definition fails (k : nat) : Result := Error.

(** A handshake whose response cannot be written: the socket is closed and the
    owner told, and then the application's [on_open] is called for a
    connection that is gone and whose [on_close] will never be called,
    whatever happens next. *)
Theorem ws_open_after_close xs : exists st,
  acts true true no_sends echo fails (Read sample_upgrade :: xs) new_conn = Some st /\ log st = [SocketClosed; Notified; OnOpen] /\ ws_open st = true.
Proof.
  cbn [acts act new_conn http_input]. assert (E : exists st, on_data true true no_sends echo fails sample_upgrade new_conn = Some st /\
    closing st = true /\ conn_open st = false /\ http_input st = None /\ log st = [SocketClosed; Notified; OnOpen] /\ ws_open st = true).
  { eexists. split; [by vm_compute|]. done. }
  destruct E as (st & E & H1 & H2 & H3 & H4 & H5). fold new_conn. rewrite E. cbn [mbind option_bind]. clear E. revert st H1 H2 H3 H4 H5.
  induction xs as [|x xs IH]; intros st H1 H2 H3 H4 H5; [by exists st|]. cbn [acts]. unfold act at 1. rewrite H3. destruct x as [data| | |s].
  - unfold on_data. rewrite receive_attached by done. cbn [closing set_buffer]. rewrite H1. cbn [orb mbind option_bind]. by apply IH.
  - unfold on_writable. rewrite H2. cbn. by apply IH.
  - unfold close. rewrite H2. cbn. by apply IH.
  - unfold send, write. rewrite H2. cbn. by apply IH.
Qed.

Definition long_upgrade : bytes := upgrade_request (str "/") (replicate 130 (str "X", replicate 60 97) ++ sample_fields (str "13")).
Definition kib4 : nat := Z.to_nat 4096.

Definition opened (r : option WS) : bool := match r with Some st => ws_open st | None => false end.
Definition given_to_http (r : option WS) : bool := match r with Some st => handed_off st | None => false end.

(** The limit on the handshake is only looked at while its end is missing, so
    for a longer request it is the reads that decide: the same bytes are a
    WebSocket when the second read is a little short, and an HTTP request when
    it is full. *)
Theorem ws_limit_depends_on_reads :
  opened (feed true true no_sends echo flushed [take kib4 long_upgrade; take 4000 (drop kib4 long_upgrade); drop 4000 (drop kib4 long_upgrade)] new_conn) = true /\
  given_to_http (feed true true no_sends echo flushed [take kib4 long_upgrade; take kib4 (drop kib4 long_upgrade); drop kib4 (drop kib4 long_upgrade)] new_conn) = true.
Proof. split; by vm_compute. Qed.
