(* ===== verification/Http2Frame.v ===== *)
(** * HTTP/2 frames, settings, messages and stream states (RFC 9113)

    Model of example/http2/src/codec.cpp without its HPACK part (Hpack.v) and
    of the data types of http2/handler.hpp.  [FrameType] is cast from any
    byte, so a type is a byte with named values. *)
From stdpp Require Import gmap.
From S2P Require Import Prelude Utils Hpack.

Local Open Scope Z_scope.

(** ** Frames *)

Definition DATA : Z := 0x0.
Definition HEADERS : Z := 0x1.
Definition RST_STREAM : Z := 0x3.
Definition SETTINGS : Z := 0x4.
Definition PING : Z := 0x6.
Definition GOAWAY : Z := 0x7.
Definition WINDOW_UPDATE : Z := 0x8.

Definition END_STREAM : Z := 0x1.
Definition END_HEADERS : Z := 0x4.
Definition ACK : Z := 0x1.

Record Frame := mkFrame {
  frame_length : Z;
  frame_type : Z;
  flags : Z;
  frame_stream_id : Z;
  payload : bytes
}.

Definition frame_serialize (f : Frame) : bytes :=
  encode_uint24_be (frame_length f) ++ [frame_type f] ++ [flags f] ++
  encode_uint32_be (frame_stream_id f .& 0x7FFFFFFF) ++ payload f.

(** The second component is [offset] afterwards, which a failure past the
    header length leaves advanced. *)
Definition frame_parse (data : bytes) (offset : nat) : option Frame * nat :=
  if (length data <? offset + 9)%nat then (None, offset) else
  let len := decode_uint24_be (drop offset data) in
  let offset := (offset + 3)%nat in
  if 16384 <? len then (None, offset) else
  let ty := nth_byte data offset in
  let fl := nth_byte data (offset + 1) in
  let sid := decode_uint32_be (drop (offset + 2) data) .& 0x7FFFFFFF in
  let offset := (offset + 6)%nat in
  if (length data <? offset + Z.to_nat len)%nat then (None, offset) else
  (Some (mkFrame len ty fl sid (take (Z.to_nat len) (drop offset data))), (offset + Z.to_nat len)%nat).

(** ** Settings *)

Record Settings := mkSettings {
  header_table_size : Z;
  enable_push : bool;
  max_concurrent_streams : Z;
  initial_window_size : Z;
  max_frame_size : Z;
  max_header_list_size : Z
}.

Definition default_settings : Settings := mkSettings 4096 true 0 65535 16384 0.

Definition set_header_table_size (s : Settings) (v : Z) : Settings :=
  mkSettings v (enable_push s) (max_concurrent_streams s) (initial_window_size s) (max_frame_size s) (max_header_list_size s).
Definition set_enable_push (s : Settings) (v : bool) : Settings :=
  mkSettings (header_table_size s) v (max_concurrent_streams s) (initial_window_size s) (max_frame_size s) (max_header_list_size s).
Definition set_max_concurrent_streams (s : Settings) (v : Z) : Settings :=
  mkSettings (header_table_size s) (enable_push s) v (initial_window_size s) (max_frame_size s) (max_header_list_size s).
Definition set_initial_window_size (s : Settings) (v : Z) : Settings :=
  mkSettings (header_table_size s) (enable_push s) (max_concurrent_streams s) v (max_frame_size s) (max_header_list_size s).
Definition set_max_frame_size (s : Settings) (v : Z) : Settings :=
  mkSettings (header_table_size s) (enable_push s) (max_concurrent_streams s) (initial_window_size s) v (max_header_list_size s).
Definition set_max_header_list_size (s : Settings) (v : Z) : Settings :=
  mkSettings (header_table_size s) (enable_push s) (max_concurrent_streams s) (initial_window_size s) (max_frame_size s) v.

(** The four [push_back] of a 32-bit value. *)
Definition push_u32 (v : Z) : bytes :=
  [u8 ((v .>> 24) .& 0xFF); u8 ((v .>> 16) .& 0xFF); u8 ((v .>> 8) .& 0xFF); u8 (v .& 0xFF)].

Definition settings_serialize (s : Settings) : bytes :=
  [0x00; 0x01] ++ push_u32 (header_table_size s) ++
  [0x00; 0x02; 0x00; 0x00; 0x00; if enable_push s then 0x01 else 0x00] ++
  [0x00; 0x03] ++ push_u32 (max_concurrent_streams s) ++
  [0x00; 0x04] ++ push_u32 (initial_window_size s) ++
  [0x00; 0x05] ++ push_u32 (max_frame_size s) ++
  [0x00; 0x06] ++ push_u32 (max_header_list_size s).

Definition apply_setting (s : Settings) (id value : Z) : Settings :=
  if id =? 0x1 then set_header_table_size s value
  else if id =? 0x2 then set_enable_push s (negb (value =? 0))
  else if id =? 0x3 then set_max_concurrent_streams s value
  else if id =? 0x4 then set_initial_window_size s value
  else if id =? 0x5 then
    if (16384 <=? value) && (value <=? 16777215) then set_max_frame_size s value else s
  else if id =? 0x6 then set_max_header_list_size s value
  else s.

(** Six bytes a parameter; a shorter tail is ignored. *)
Fixpoint parse_into (payload : bytes) (s : Settings) : Settings :=
  match payload with
  | a :: b :: c :: d :: e :: f :: payload =>
      let id := u16 ((a .<< 8) .| b) in
      let value := u32 (c .<< 24) .| u32 (d .<< 16) .| u32 (e .<< 8) .| f in
      parse_into payload (apply_setting s id value)
  | _ => s
  end.

Definition settings_parse (payload : bytes) : Settings := parse_into payload default_settings.

(** ** Header names and values *)

Definition is_other_tchar (c : Z) : bool :=
  existsb (Z.eqb c) (str "!#$%&'*+-.^_`|~").

Definition name_char (c : Z) : bool :=
  ((97 <=? c) && (c <=? 122)) || ((48 <=? c) && (c <=? 57)) || is_other_tchar c.

Definition is_valid_http2_name (name : bytes) : bool :=
  match name with
  | [] => false
  | c :: rest =>
      if c =? 58 then
        if (length name <? 2)%nat then false else forallb name_char rest
      else forallb name_char name
  end.

Definition is_valid_http2_value (value : bytes) : bool :=
  forallb (fun c => negb ((c =? 13) || (c =? 10) || (c =? 0))) value.

Definition sanitize_http2_headers (headers : list (bytes * bytes)) : list (bytes * bytes) :=
  List.filter (fun '(k, v) => is_valid_http2_name k && is_valid_http2_value v) headers.

(** ** Messages *)

(** Outgoing header maps as the list of their entries in iteration order. *)
Record Response := mkResponse {
  stream_id : Z;
  status_code : Z;
  headers : list (bytes * bytes);
  body : bytes
}.

Record Request := mkRequest {
  req_stream_id : Z;
  method : bytes;
  path : bytes;
  req_headers : list (bytes * bytes)
}.

Definition header_flags (end_headers end_stream : bool) : Z :=
  let fl := 0 in
  let fl := if end_headers then fl .| END_HEADERS else fl in
  if end_stream then fl .| END_STREAM else fl.

Definition build_headers_frame_request (r : Request) (sid : Z) (end_headers end_stream : bool) : Frame :=
  let payload := encode_headers (sanitize_http2_headers (req_headers r)) in
  mkFrame (u32 (#payload)) HEADERS (header_flags end_headers end_stream) sid payload.

Definition response_headers (r : Response) : list (bytes * bytes) :=
  let hs := sanitize_http2_headers (headers r) in
  match find_exact hs (str ":status") with
  | None => hs ++ [(str ":status", to_string (status_code r))]
  | Some _ => hs
  end.

Definition build_headers_frame_response (r : Response) (sid : Z) (end_headers end_stream : bool) : Frame :=
  let payload := encode_headers (response_headers r) in
  mkFrame (u32 (#payload)) HEADERS (header_flags end_headers end_stream) sid payload.

Definition build_data_frame (sid : Z) (data : bytes) (end_stream : bool) : Frame :=
  mkFrame (u32 (#data)) DATA (if end_stream then END_STREAM else 0) sid data.

Definition build_settings_frame (s : Settings) (ack : bool) : Frame :=
  if ack then mkFrame 0 SETTINGS ACK 0 []
  else let payload := settings_serialize s in mkFrame (#payload) SETTINGS 0 0 payload.

Definition build_goaway_frame (last_stream_id error_code : Z) : Frame :=
  mkFrame 8 GOAWAY 0 0 (push_u32 last_stream_id ++ push_u32 error_code).

Definition build_rst_stream_frame (sid error_code : Z) : Frame :=
  mkFrame 4 RST_STREAM 0 sid (push_u32 error_code).

Definition build_window_update_frame (sid increment : Z) : Frame :=
  mkFrame 4 WINDOW_UPDATE 0 sid (push_u32 increment).

Definition build_ping_frame (opaque_data : bytes) (ack : bool) : Frame :=
  let payload := if (length opaque_data =? 8)%nat then opaque_data else replicate 8 0 in
  mkFrame (#payload) PING (if ack then ACK else 0) 0 payload.

(** One DATA frame per iteration; [fuel] bounds the iterations. *)
Definition to_frames_step (r : Response) (max : Z) (st : nat * list Frame) : (nat * list Frame) + list Frame :=
  let '(offset, frames) := st in
  if (offset <? length (body r))%nat then
    let chunk_size := Nat.min (Z.to_nat max) (length (body r) - offset) in
    let end_stream := (length (body r) <=? offset + chunk_size)%nat in
    let chunk := take chunk_size (drop offset (body r)) in
    inl ((offset + chunk_size)%nat, frames ++ [build_data_frame (stream_id r) chunk end_stream])
  else inr frames.

Definition to_frames (r : Response) (max : Z) : option (list Frame) :=
  let empty := bool_decide (body r = []) in
  let frames := [build_headers_frame_response r (stream_id r) true empty] in
  if empty then Some frames
  else loop (to_frames_step r max) (S (length (body r))) (0%nat, frames).

(** ** Parser *)

Definition CONNECTION_PREFACE : bytes :=
  str "PRI * HTTP/2.0" ++ [13; 10; 13; 10] ++ str "SM" ++ [13; 10; 13; 10].
Definition CONNECTION_PREFACE_LEN : nat := 24.

Definition parse_connection_preface (data : bytes) (offset : nat) : bool * nat :=
  if (length data <? offset + CONNECTION_PREFACE_LEN)%nat then (false, offset)
  else if bool_decide (take CONNECTION_PREFACE_LEN (drop offset data) = CONNECTION_PREFACE)
  then (true, (offset + CONNECTION_PREFACE_LEN)%nat) else (false, offset).

(** What a HEADERS frame adds to a response: stream, headers, status; the
    outer [option] is the decoder's fuel, the inner one [ParseResult::Error]. *)
Definition parse_headers_frame_response (f : Frame) (status0 : Z)
    : option (option (Z * gmap bytes bytes * Z)) :=
  if negb (frame_type f =? HEADERS) then Some None else
  hs ← decode_headers (payload f);
  let status := match hs !! str ":status" with
                | Some v => default 200 (parse_int v)
                | None => status0
                end in
  Some (Some (frame_stream_id f, hs, status)).

Definition parse_headers_frame_request (f : Frame) (method0 path0 : bytes)
    : option (option (Z * gmap bytes bytes * bytes * bytes)) :=
  if negb (frame_type f =? HEADERS) then Some None else
  hs ← decode_headers (payload f);
  Some (Some (frame_stream_id f, hs, default method0 (hs !! str ":method"), default path0 (hs !! str ":path"))).

(** ** Connection *)

Inductive StreamState :=
  | IDLE | RESERVED_LOCAL | RESERVED_REMOTE | OPEN | HALF_CLOSED_LOCAL | HALF_CLOSED_REMOTE | CLOSED.

#[export] Instance StreamState_eq_dec : EqDecision StreamState.
Proof. solve_decision. Defined.

Definition get_stream_state (streams : gmap Z StreamState) (sid : Z) : StreamState := default IDLE (streams !! sid).
Definition is_valid_stream (sid : Z) : bool := negb (sid =? 0).
Definition initialize_stream (streams : gmap Z StreamState) (sid : Z) : gmap Z StreamState := <[sid := OPEN]> streams.
Definition close_stream (streams : gmap Z StreamState) (sid : Z) : gmap Z StreamState := <[sid := CLOSED]> streams.

(** [false] is [ParseResult::Error]. *)
Definition process_frame (streams : gmap Z StreamState) (f : Frame) : bool * gmap Z StreamState :=
  let sid := frame_stream_id f in
  if negb (sid =? 0) && negb (is_valid_stream sid) then (false, streams) else
  if negb (sid =? 0) then
    let streams :=
      if frame_type f =? HEADERS then
        if bool_decide (get_stream_state streams sid = IDLE) then initialize_stream streams sid else streams
      else streams in
    (true, if negb (flags f .& END_STREAM =? 0) then close_stream streams sid else streams)
  else (true, streams).

(** ** Frame lemmas *)

Definition frame_ok (f : Frame) : Prop :=
  frame_length f = #(payload f) /\ #(payload f) <= 16384 /\ byte_ok (frame_type f) /\ byte_ok (flags f) /\
  0 <= frame_stream_id f < 2 ^ 31.

Lemma land31 v : 0 <= v < 2 ^ 31 -> v .& 0x7FFFFFFF = v.
Proof. intros. rewrite (land_mask v 31 0x7FFFFFFF) by (lia || done). apply Z.mod_small. lia. Qed.

Lemma length_frame_serialize f : length (frame_serialize f) = (9 + length (payload f))%nat.
Proof. unfold frame_serialize. rewrite !length_app. done. Qed.

Lemma h2f_parse_serialize f buf off rest : frame_ok f -> at_cursor buf off (frame_serialize f ++ rest) ->
  frame_parse buf off = (Some f, (off + length (frame_serialize f))%nat).
Proof.
  intros (Hlen & Hmax & Ht & Hf & Hs) Hc. rewrite length_frame_serialize. unfold frame_serialize in Hc.
  rewrite <- !app_assoc in Hc. pose proof (at_cursor_length _ _ _ Hc) as Hl. rewrite !length_app in Hl.
  cbn [length encode_uint24_be encode_uint32_be] in Hl. unfold frame_parse.
  rewrite (proj2 (Nat.ltb_ge _ _)) by lia. cbv zeta.
  rewrite (proj2 Hc), decode24_encode by lia. rewrite (proj2 (Z.ltb_ge _ _)) by lia.
  apply at_cursor_app in Hc. cbn [length encode_uint24_be] in Hc.
  destruct (at_cursor_cons _ _ _ _ Hc) as (Hty & Hc1 & _). destruct (at_cursor_cons _ _ _ _ Hc1) as (Hfl & Hc2 & _).
  unfold nth_byte. rewrite (nth_lookup_Some _ _ 0 _ Hty), (nth_lookup_Some _ _ 0 _ Hfl).
  replace (off + 3 + 1 + 1)%nat with (off + 3 + 2)%nat in Hc2 by lia. rewrite (proj2 Hc2), (land31 (frame_stream_id f)) by done.
  rewrite decode32_encode, land31 by lia. apply at_cursor_app in Hc2. cbn [length encode_uint32_be] in Hc2.
  rewrite Hlen, Nat2Z.id. rewrite (proj2 (Nat.ltb_ge _ _)) by lia.
  replace (off + 3 + 2 + 4)%nat with (off + 3 + 6)%nat in Hc2 by lia. rewrite (proj2 Hc2), take_app_length.
  rewrite <- Hlen. f_equal; [by destruct f|lia].
Qed.

(** Whatever the cursor, a parsed frame lies in the buffer and is well formed. *)
Lemma frame_parse_inv data off f off' : bytes_ok data -> frame_parse data off = (Some f, off') ->
  frame_ok f /\ off' = (off + 9 + length (payload f))%nat /\ (off' <= length data)%nat.
Proof.
  intros Hb. unfold frame_parse. destruct (Nat.ltb_spec (length data) (off + 9)); [done|]. cbv zeta.
  assert (Hn : forall i, byte_ok (nth_byte data i)).
  { intros i. unfold nth_byte. destruct (nth_in_or_default i data 0) as [Hi| ->]; [|done].
    by apply (proj1 (List.Forall_forall _ _) Hb). }
  assert (Hd : byte_ok (nth_byte (drop off data) 2)).
  { unfold nth_byte. destruct (nth_in_or_default 2 (drop off data) 0) as [Hi| ->]; [|done].
    assert (Hb' : bytes_ok (drop off data)) by (by apply Forall_drop).
    by apply (proj1 (List.Forall_forall _ _) Hb'). }
  assert (0 <= decode_uint24_be (drop off data)).
  { unfold decode_uint24_be. rewrite !Z.lor_nonneg. unfold u32, wrap, byte_ok in *.
    split; [|split]; [apply Z.mod_pos_bound; lia|apply Z.mod_pos_bound; lia|lia]. }
  destruct (Z.ltb_spec 16384 (decode_uint24_be (drop off data))); [done|].
  destruct (Nat.ltb_spec (length data) (off + 3 + 6 + Z.to_nat (decode_uint24_be (drop off data)))); [done|].
  intros [= <- <-]. unfold frame_ok. cbn [frame_length frame_type flags frame_stream_id payload].
  rewrite length_take, length_drop. rewrite (land_mask _ 31 0x7FFFFFFF) by done.
  pose proof (Z.mod_pos_bound (decode_uint32_be (drop (off + 3 + 2) data)) (2 ^ 31) ltac:(lia)).
  split_and!; try lia; apply Hn.
Qed.

(** ** Settings lemmas *)

Definition u32_field (v : Z) : Prop := 0 <= v < 2 ^ 32.

Lemma push_u32_value v : u32_field v ->
  u32 (u8 ((v .>> 24) .& 0xFF) .<< 24) .| u32 (u8 ((v .>> 16) .& 0xFF) .<< 16) .|
  u32 (u8 ((v .>> 8) .& 0xFF) .<< 8) .| u8 (v .& 0xFF) = v.
Proof. intros Hv. pose proof (decode32_encode v [] Hv) as H. exact H. Qed.

Lemma parse_into_app a b s : (exists n, length a = (n * 6)%nat) -> parse_into (a ++ b) s = parse_into b (parse_into a s).
Proof.
  intros [n Hn]. revert a s Hn. induction n as [|n IH]; intros a s Hn.
  - destruct a; [done|simpl in Hn; lia].
  - do 6 (destruct a as [|? a]; [simpl in Hn; lia|]). cbn [app parse_into]. apply IH. simpl in Hn. lia.
Qed.

Lemma parse_one id v s rest : 0 <= id < 256 -> u32_field v ->
  parse_into ([0x00; id] ++ push_u32 v ++ rest) s = parse_into rest (apply_setting s id v).
Proof.
  intros Hid Hv. unfold push_u32. cbn [app parse_into]. rewrite push_u32_value by done.
  rewrite Z.shiftl_0_l, Z.lor_0_l. unfold u16, wrap. by rewrite Z.mod_small by lia.
Qed.

Lemma set1 s v : apply_setting s 1 v = set_header_table_size s v.
Proof. done. Qed.
Lemma set2 s v : apply_setting s 2 v = set_enable_push s (negb (v =? 0)).
Proof. done. Qed.
Lemma set3 s v : apply_setting s 3 v = set_max_concurrent_streams s v.
Proof. done. Qed.
Lemma set4 s v : apply_setting s 4 v = set_initial_window_size s v.
Proof. done. Qed.
Lemma set5 s v : apply_setting s 5 v = if (16384 <=? v) && (v <=? 16777215) then set_max_frame_size s v else s.
Proof. done. Qed.
Lemma set6 s v : apply_setting s 6 v = set_max_header_list_size s v.
Proof. done. Qed.

Definition settings_ok (s : Settings) : Prop :=
  u32_field (header_table_size s) /\ u32_field (max_concurrent_streams s) /\ u32_field (initial_window_size s) /\
  u32_field (max_frame_size s) /\ u32_field (max_header_list_size s).

Definition frame_size_ok (v : Z) : bool := (16384 <=? v) && (v <=? 16777215).

Lemma parse_serialize_settings s s0 : settings_ok s ->
  parse_into (settings_serialize s) s0 =
    if frame_size_ok (max_frame_size s) then s else set_max_frame_size s (max_frame_size s0).
Proof.
  intros (H1 & H2 & H3 & H4 & H5). unfold settings_serialize.
  rewrite parse_one by (done || lia). 
  assert (E : [0x00; 0x02; 0x00; 0x00; 0x00; if enable_push s then 0x01 else 0x00] =
    [0x00; 0x02] ++ push_u32 (if enable_push s then 1 else 0)) by (by destruct (enable_push s)).
  rewrite E, <- !app_assoc. rewrite parse_one by (lia || (unfold u32_field; destruct (enable_push s); lia)).
  rewrite !parse_one by (done || lia). rewrite <- (app_nil_r (push_u32 (max_header_list_size s))).
  rewrite parse_one by (done || lia). cbn [parse_into]. rewrite set1, set2, set3, set4, set5, set6. unfold frame_size_ok.
  destruct s as [? p ? ? m ?]. cbn [max_frame_size enable_push].
  destruct ((16384 <=? m) && (m <=? 16777215)); by destruct p.
Qed.

Lemma parse_into_frame_size p : forall s, frame_size_ok (max_frame_size s) = true ->
  frame_size_ok (max_frame_size (parse_into p s)) = true.
Proof.
  intros s Hs. remember (length p) as n eqn:En. revert p s Hs En.
  induction n as [n IH] using lt_wf_ind. intros p s Hs En.
  do 6 (destruct p as [|? p]; [done|]). cbn [parse_into]. apply (IH (length p)); [simpl in En; lia| |done].
  unfold apply_setting. repeat case_match; done.
Qed.

(** ** Message lemmas *)

Definition no_end (f : Frame) : Prop := flags f .& END_STREAM = 0.
Definition data_ok (r : Response) (max : Z) (f : Frame) : Prop :=
  frame_type f = DATA /\ frame_stream_id f = stream_id r /\ frame_length f = #(payload f) /\ 0 < #(payload f) <= max.

(** END_STREAM is on the last frame and on no other. *)
Definition ended (fs : list Frame) : Prop :=
  exists pre f, fs = pre ++ [f] /\ Forall no_end pre /\ flags f .& END_STREAM <> 0.

Definition frames_inv (r : Response) (max : Z) (h : Frame) (st : nat * list Frame) : Prop :=
  let '(off, fs) := st in
  exists ds, fs = h :: ds /\ (off <= length (body r))%nat /\ concat (payload <$> ds) = take off (body r) /\
    Forall (data_ok r max) ds /\ if (off <? length (body r))%nat then Forall no_end fs else ended fs.

Lemma to_frames_step_inv r max h st st' : 0 < max < 2 ^ 32 -> frames_inv r max h st ->
  to_frames_step r max st = inl st' -> frames_inv r max h st' /\ (length (body r) - st'.1 < length (body r) - st.1)%nat.
Proof.
  destruct st as [off fs]. intros Hmax (ds & -> & Hle & Hcat & Hok & Hend). unfold to_frames_step.
  destruct (Nat.ltb_spec off (length (body r))) as [Hlt|]; [|done]. intros [= <-].
  set (n := Nat.min (Z.to_nat max) (length (body r) - off)).
  assert (Hn : (0 < n)%nat /\ (n <= length (body r) - off)%nat /\ Z.of_nat n <= max) by (unfold n; lia).
  assert (Hl : length (take n (drop off (body r))) = n) by (rewrite length_take, length_drop; lia).
  cbn [fst]. split; [|lia]. exists (ds ++ [build_data_frame (stream_id r) (take n (drop off (body r))) (length (body r) <=? off + n)%nat]).
  split; [done|]. split; [lia|]. split.
  { rewrite fmap_app, concat_app, Hcat. cbn [fmap list_fmap concat payload build_data_frame]. rewrite app_nil_r.
    by rewrite <- take_take_drop. }
  split.
  { apply Forall_app. split; [done|]. constructor; [|done]. unfold data_ok, build_data_frame.
    cbn [frame_type frame_stream_id frame_length payload]. rewrite Hl, u32_small by lia. split_and!; lia || done. }
  destruct (Nat.ltb_spec (off + n) (length (body r))); destruct (Nat.leb_spec (length (body r)) (off + n)); try lia.
  - rewrite app_comm_cons. apply Forall_app. split; [done|]. by repeat constructor.
  - eexists (h :: ds), _. split; [done|]. done.
Qed.

Lemma filter_headers_elem hs k v : (k, v) ∈ sanitize_http2_headers hs <->
  (k, v) ∈ hs /\ is_valid_http2_name k = true /\ is_valid_http2_value v = true.
Proof. unfold sanitize_http2_headers. rewrite !list_elem_of_In, filter_In, andb_true_iff. done. Qed.

Lemma find_exact_none hs n : find_exact hs n = None <-> n ∉ hs.*1.
Proof.
  induction hs as [|[k v] hs IH]; cbn [find_exact fmap list_fmap fst]; [split; [intros _ ?%elem_of_nil; done|done]|].
  case_bool_decide; [subst; split; [done|set_solver]|]. rewrite IH. set_solver.
Qed.

Lemma sanitize_keys hs : NoDup hs.*1 -> NoDup (sanitize_http2_headers hs).*1.
Proof.
  unfold sanitize_http2_headers. induction hs as [|[k v] hs IH]; cbn [List.filter fmap list_fmap fst]; [done|].
  intros [Hk Hnd]%NoDup_cons. case_match; [|by apply IH]. cbn [fmap list_fmap fst]. apply NoDup_cons. split; [|by apply IH].
  intros Hin. apply Hk. apply list_elem_of_fmap in Hin as ([k' v'] & -> & Hin). apply list_elem_of_In, filter_In in Hin as [Hin _].
  apply list_elem_of_fmap. exists (k', v'). split; [done|]. by apply list_elem_of_In.
Qed.

Lemma valid_name_nonempty k : is_valid_http2_name k = true -> k <> [].
Proof. by intros ? ->. Qed.

Definition header_sizes (hs : list (bytes * bytes)) : Prop := Forall (fun h => string_ok h.1 /\ string_ok h.2) hs.

Lemma sanitize_fields hs : header_sizes hs -> Forall field_ok (sanitize_http2_headers hs).
Proof.
  intros Hs. apply Forall_forall. intros [k v] (Hin & Hk & _)%filter_headers_elem.
  unfold header_sizes in Hs. rewrite Forall_forall in Hs. destruct (Hs _ Hin). split; [by apply valid_name_nonempty|done].
Qed.

Lemma length_digits fuel : forall n acc, (length (digits fuel n acc) <= fuel + length acc)%nat.
Proof.
  induction fuel as [|fuel IH]; intros n acc; cbn [digits]; [simpl; lia|]. cbv zeta.
  case_match; [simpl; lia|]. etransitivity; [apply IH|]. simpl. lia.
Qed.

Lemma status_field n : field_ok (str ":status", to_string n).
Proof.
  split; [done|]. split; [done|]. unfold string_ok, to_string. cbn [snd].
  pose proof (length_digits 20 (- n) []). pose proof (length_digits 20 n []). case_match; cbn [length] in *; lia.
Qed.

(** ** Properties *)

(** The length field decides how many bytes a frame needs. *)
Lemma frame_prefix_incomplete f buf off rest n : frame_ok f -> at_cursor buf off (frame_serialize f ++ rest) ->
  (n < 9 + length (payload f))%nat -> (frame_parse (take (off + n) buf) off).1 = None.
Proof.
  intros (Hlen & Hmax & _) Hc Hn. pose proof (at_cursor_length _ _ _ Hc) as Hl.
  rewrite length_app, length_frame_serialize in Hl. unfold frame_parse. rewrite length_take.
  destruct (Nat.ltb_spec ((off + n) `min` length buf) (off + 9)); [done|]. cbv zeta.
  assert (E : decode_uint24_be (drop off (take (off + n) buf)) = #(payload f)).
  { rewrite skipn_firstn_comm. replace (off + n - off)%nat with n by lia. destruct Hc as [_ ->].
    unfold frame_serialize. rewrite <- app_assoc, take_app_ge by (cbn [length encode_uint24_be]; lia).
    rewrite decode24_encode by lia. done. }
  rewrite E, Nat2Z.id. rewrite (proj2 (Z.ltb_ge _ _)) by lia. by rewrite (proj2 (Nat.ltb_lt _ _)) by lia.
Qed.

(** A frame that fits the size limit is parsed back exactly, at any
    position of a buffer and whatever follows it; every strict prefix of it
    is reported as incomplete; and whatever [Frame::parse] accepts lies
    inside the buffer and has a consistent length of at most 16384. *)
Theorem http2_frame_roundtrip f buf off rest : frame_ok f -> bytes_ok buf ->
  at_cursor buf off (frame_serialize f ++ rest) ->
  frame_parse buf off = (Some f, (off + 9 + length (payload f))%nat) /\
  (forall n, (n < 9 + length (payload f))%nat -> (frame_parse (take (off + n) buf) off).1 = None) /\
  (forall o f' o', frame_parse buf o = (Some f', o') ->
     frame_ok f' /\ o' = (o + 9 + length (payload f'))%nat /\ (o' <= length buf)%nat).
Proof.
  intros Hf Hb Hc. rewrite (h2f_parse_serialize f buf off rest Hf Hc), length_frame_serialize. split; [f_equal; lia|].
  split; [intros n; by eapply frame_prefix_incomplete|intros; by eapply frame_parse_inv].
Qed.

Definition ex_frame : Frame := mkFrame 2 HEADERS 5 3 [0x88; 0x82].

Lemma http2_frame_roundtrip_witness : frame_parse (frame_serialize ex_frame) 0 = (Some ex_frame, 11%nat).
Proof.
  apply (http2_frame_roundtrip ex_frame (frame_serialize ex_frame) 0 []).
  - unfold frame_ok. split_and!; done.
  - apply (bool_decide_unpack _). vm_compute. exact I.
  - split; [simpl; lia|]. by rewrite app_nil_r.
Defined.

(** A SETTINGS payload applied to any settings reproduces the settings
    it was serialised from, except that a MAX_FRAME_SIZE outside the legal
    range leaves the receiver's value; frames accumulate; and no payload
    takes MAX_FRAME_SIZE out of its range. *)
Theorem http2_settings_roundtrip s s0 : settings_ok s ->
  parse_into (settings_serialize s) s0 =
    (if frame_size_ok (max_frame_size s) then s else set_max_frame_size s (max_frame_size s0)) /\
  (forall p, parse_into (settings_serialize s ++ p) s0 = parse_into p (parse_into (settings_serialize s) s0)) /\
  (forall p, frame_size_ok (max_frame_size s0) = true -> frame_size_ok (max_frame_size (parse_into p s0)) = true).
Proof.
  intros Hs. split; [by apply parse_serialize_settings|]. split; intros p.
  - apply parse_into_app. by exists 6%nat.
  - apply parse_into_frame_size.
Qed.

Lemma http2_settings_roundtrip_witness :
  parse_into (settings_serialize (mkSettings 0 false 100 65535 16384 65536)) default_settings =
  mkSettings 0 false 100 65535 16384 65536.
Proof.
  apply (http2_settings_roundtrip (mkSettings 0 false 100 65535 16384 65536) default_settings).
  unfold settings_ok, u32_field. cbn. lia.
Defined.

Lemma to_frames_spec r max : 0 < max < 2 ^ 32 ->
  exists ds, to_frames r max = Some (build_headers_frame_response r (stream_id r) true (bool_decide (body r = [])) :: ds) /\
    concat (payload <$> ds) = body r /\ Forall (data_ok r max) ds /\
    ended (build_headers_frame_response r (stream_id r) true (bool_decide (body r = [])) :: ds).
Proof.
  intros Hmax. unfold to_frames. cbv zeta. case_bool_decide as Hb.
  - exists []. rewrite Hb. repeat split; try done. eexists [], _. by split.
  - set (h := build_headers_frame_response _ _ _ _).
    assert (Hl : (0 < length (body r))%nat) by (destruct (body r); [done|simpl; lia]).
    assert (Hi : frames_inv r max h (0%nat, [h])).
    { exists []. rewrite (proj2 (Nat.ltb_lt _ _) Hl). repeat split; try (done || lia). by repeat constructor. }
    destruct (loop_total (to_frames_step r max) (frames_inv r max h) (fun st => length (body r) - st.1)%nat
      ltac:(intros; by eapply to_frames_step_inv) (S (length (body r))) (0%nat, [h])) as [fs Hfs]; [done|simpl; lia|].
    rewrite Hfs. revert Hfs. apply (loop_post _ (frames_inv r max h) (fun fs => exists ds, Some fs = Some (h :: ds) /\ _)); [| |done].
    + intros s s' Hs Hst. by eapply to_frames_step_inv.
    + intros [off fs'] fs2 (ds & -> & Hle & Hcat & Hok & Hend). unfold to_frames_step.
      destruct (Nat.ltb_spec off (length (body r))); [done|]. intros [= <-]. exists ds. split; [done|].
      rewrite Hcat, firstn_all2 by lia. done.
Qed.

(** [Response::to_frames] terminates for every positive frame size; its
    frames are the HEADERS frame followed by DATA frames of the stream,
    non-empty and no larger than the limit, whose payloads concatenate to
    the body; END_STREAM is set on the last frame and on no other. *)
Theorem to_frames_correct r max : 0 < max < 2 ^ 32 ->
  exists ds, to_frames r max = Some (build_headers_frame_response r (stream_id r) true (bool_decide (body r = [])) :: ds) /\
    concat (payload <$> ds) = body r /\ Forall (data_ok r max) ds /\
    ended (build_headers_frame_response r (stream_id r) true (bool_decide (body r = [])) :: ds).
Proof. apply to_frames_spec. Qed.

Lemma to_frames_correct_witness :
  exists ds, concat (payload <$> ds) = [1; 2; 3; 4; 5] /\ length ds = 3%nat /\
    to_frames (mkResponse 1 200 [] [1; 2; 3; 4; 5]) 2 = Some (mkFrame 1 HEADERS 4 1 [0x88] :: ds).
Proof.
  destruct (to_frames_correct (mkResponse 1 200 [] [1; 2; 3; 4; 5]) 2 ltac:(lia)) as (ds & E & Hc & _).
  exists ds. split; [exact Hc|]. split; [|exact E]. vm_compute in E. by injection E as <-.
Defined.

(** What a peer decodes from the HEADERS frame of a response is its
    status code and exactly the headers whose name and value are legal in
    HTTP/2, so no CR, LF or NUL and no malformed name gets on the wire. *)
Theorem response_headers_roundtrip r sid eh es st0 :
  header_sizes (headers r) -> NoDup (headers r).*1 -> str ":status" ∉ (headers r).*1 -> 0 <= status_code r < 2 ^ 31 ->
  exists hs, parse_headers_frame_response (build_headers_frame_response r sid eh es) st0 = Some (Some (sid, hs, status_code r)) /\
    forall k v, hs !! k = Some v <->
      ((k, v) ∈ headers r /\ is_valid_http2_name k = true /\ is_valid_http2_value v = true) \/
      (k = str ":status" /\ v = to_string (status_code r)).
Proof.
  intros Hsz Hnd Hst Hsc.
  assert (Hns : str ":status" ∉ (sanitize_http2_headers (headers r)).*1).
  { intros ([k v] & Hk & (Hin & _)%filter_headers_elem)%list_elem_of_fmap. apply Hst. rewrite Hk.
    by apply (list_elem_of_fmap_2 fst). }
  assert (Hh : response_headers r = sanitize_http2_headers (headers r) ++ [(str ":status", to_string (status_code r))]).
  { unfold response_headers. cbv zeta. by rewrite (proj2 (find_exact_none _ _) Hns). }
  assert (Hnd2 : NoDup (response_headers r).*1).
  { rewrite Hh, fmap_app. apply NoDup_app. split; [by apply sanitize_keys|]. split; [|apply NoDup_singleton].
    intros x Hx Hx2. apply list_elem_of_singleton in Hx2 as ->. done. }
  exists (list_to_map (response_headers r)). 
  assert (Hl : forall k v, (list_to_map (response_headers r) : gmap bytes bytes) !! k = Some v <-> (k, v) ∈ response_headers r).
  { intros k v. by rewrite elem_of_list_to_map. }
  split.
  - unfold parse_headers_frame_response, build_headers_frame_response. cbn [frame_type payload frame_stream_id]. cbn [negb Z.eqb HEADERS].
    rewrite decode_encode_headers; [|rewrite Hh; apply Forall_app; split; [by apply sanitize_fields|constructor; [apply status_field|done]]|done].
    cbn [mbind option_bind]. assert (Hs : (list_to_map (response_headers r) : gmap bytes bytes) !! str ":status" = Some (to_string (status_code r))).
    { apply Hl. rewrite Hh. set_solver. }
    rewrite Hs. by rewrite parse_int_to_string.
  - intros k v. rewrite Hl, Hh, elem_of_app, filter_headers_elem, list_elem_of_singleton. naive_solver.
Qed.

Lemma response_headers_roundtrip_witness :
  exists hs, parse_headers_frame_response (build_headers_frame_response
      (mkResponse 1 404 [(str "content-type", str "text/plain"); (str "Bad", str "x")] []) 1 true true) 200 = Some (Some (1, hs, 404)) /\
    hs !! str "Bad" = None.
Proof.
  destruct (response_headers_roundtrip (mkResponse 1 404 [(str "content-type", str "text/plain"); (str "Bad", str "x")] []) 1 true true 200)
    as (hs & E & H).
  - repeat constructor; vm_compute; congruence.
  - apply (bool_decide_unpack _). vm_compute. exact I.
  - apply (bool_decide_unpack _). vm_compute. exact I.
  - cbn. lia.
  - exists hs. split; [exact E|]. destruct (hs !! str "Bad") as [v|] eqn:Ev; [|reflexivity].
    apply H in Ev as [(_ & Hn & _)|[Hk _]]; [vm_compute in Hn; discriminate Hn|vm_compute in Hk; discriminate Hk].
Defined.

(** The life of a stream as [Connection] tracks it. *)
Definition state_rank (s : StreamState) : nat :=
  match s with IDLE => 0 | OPEN => 1 | CLOSED => 2 | _ => 3 end.

Definition run_frames (streams : gmap Z StreamState) (fs : list Frame) : gmap Z StreamState :=
  foldl (fun s f => (process_frame s f).2) streams fs.

Lemma process_frame_step streams f sid : (state_rank (get_stream_state streams sid) <= 2)%nat ->
  (process_frame streams f).1 = true /\
  (state_rank (get_stream_state streams sid) <= state_rank (get_stream_state (process_frame streams f).2 sid) <= 2)%nat.
Proof.
  intros Hr. unfold process_frame, is_valid_stream. cbv zeta. destruct (Z.eqb_spec (frame_stream_id f) 0); cbn [negb andb fst snd]; [done|].
  split; [done|]. set (s1 := if frame_type f =? HEADERS then _ else _).
  assert (H1 : (state_rank (get_stream_state streams sid) <= state_rank (get_stream_state s1 sid) <= 2)%nat).
  { unfold s1. case_match; [|done]. case_bool_decide as Hi; [|done]. unfold initialize_stream, get_stream_state in *.
    destruct (decide (sid = frame_stream_id f)) as [->|]; [rewrite lookup_insert_eq, Hi; simpl; lia|].
    by rewrite lookup_insert_ne. }
  case_match; [|done]. unfold close_stream. unfold get_stream_state in *.
  destruct (decide (sid = frame_stream_id f)) as [->|]; [rewrite lookup_insert_eq; simpl in *; lia|].
  by rewrite lookup_insert_ne.
Qed.

(** Over any sequence of frames a stream is only ever idle, open or
    closed and moves forward only: an open stream never becomes idle again
    and a closed one is never reopened. *)
Theorem http2_streams_forward fs1 fs2 sid :
  let s1 := get_stream_state (run_frames ∅ fs1) sid in
  let s2 := get_stream_state (run_frames ∅ (fs1 ++ fs2)) sid in
  (s1 = IDLE \/ s1 = OPEN \/ s1 = CLOSED) /\ (state_rank s1 <= state_rank s2 <= 2)%nat.
Proof.
  assert (Hgen : forall fs streams, (state_rank (get_stream_state streams sid) <= 2)%nat ->
    (state_rank (get_stream_state streams sid) <= state_rank (get_stream_state (run_frames streams fs) sid) <= 2)%nat).
  { induction fs as [|f fs IH]; intros streams Hs; [done|]. cbn [run_frames foldl].
    destruct (process_frame_step streams f sid Hs) as [_ Hf]. specialize (IH (process_frame streams f).2 ltac:(lia)).
    unfold run_frames in IH. lia. }
  cbv zeta. assert (H1 := Hgen fs1 ∅ ltac:(unfold get_stream_state; rewrite lookup_empty; simpl; lia)).
  unfold run_frames. rewrite foldl_app. fold (run_frames ∅ fs1). split; [|apply Hgen; lia].
  destruct (get_stream_state (run_frames ∅ fs1) sid); simpl in H1; try lia; auto.
Qed.
