(* ===== verification/Http2Server.v ===== *)
(** * HTTP/2 server connection

    Model of [Http2Connection] in example/http2/src/dispatcher_reactor.cpp:
    the preface/header/payload state machine over the receive buffer, the
    handling of every frame type, the dispatch of complete requests to the
    application and the writing of responses.

    The application's handler is an argument: for a request it says whether it
    completed the response at once and whether it threw.  [write_fails k] says
    whether the [k]-th write to the socket finds the connection gone, which
    runs [on_closed] at that point.  What the connection does to the outside
    (frames written, requests dispatched, closes) is the [log]. *)
From stdpp Require Import gmap.
From S2P Require Import Prelude Chunking Utils Hpack Http2Frame.

Local Open Scope Z_scope.

Definition CONTINUATION : Z := 0x9.
Definition PADDED : Z := 0x8.
Definition PRIORITY : Z := 0x20.

Definition kInitialWindow : Z := 65535.
Definition kMaxFrameSizeDefault : Z := 16384.
Definition kMaxHeaderListBytes : Z := 64 * 1024.
Definition kMaxBodyBytes : Z := 64 * 1024 * 1024.
Definition kMaxConcurrentStreams : Z := 100.
Definition kMaxFlowControlWindow : Z := 0x7FFFFFFF.

(** ** State *)

Record Stream := mkStream {
  s_id : Z;
  headers_received : bool;
  end_stream_received : bool;
  recv_window : Z;
  send_window : Z;
  s_headers : gmap bytes bytes;
  s_body : bytes;
  pending_hpack : bytes
}.

Definition new_stream : Stream := mkStream 0 false false kInitialWindow kInitialWindow ∅ [] [].

Definition set_s_id (v : Z) (st : Stream) : Stream := mkStream v (headers_received st) (end_stream_received st) (recv_window st) (send_window st) (s_headers st) (s_body st) (pending_hpack st).
Definition set_headers_received (v : bool) (st : Stream) : Stream := mkStream (s_id st) v (end_stream_received st) (recv_window st) (send_window st) (s_headers st) (s_body st) (pending_hpack st).
Definition set_end_stream_received (v : bool) (st : Stream) : Stream := mkStream (s_id st) (headers_received st) v (recv_window st) (send_window st) (s_headers st) (s_body st) (pending_hpack st).
Definition set_recv_window (v : Z) (st : Stream) : Stream := mkStream (s_id st) (headers_received st) (end_stream_received st) v (send_window st) (s_headers st) (s_body st) (pending_hpack st).
Definition set_send_window (v : Z) (st : Stream) : Stream := mkStream (s_id st) (headers_received st) (end_stream_received st) (recv_window st) v (s_headers st) (s_body st) (pending_hpack st).
Definition set_s_headers (v : gmap bytes bytes) (st : Stream) : Stream := mkStream (s_id st) (headers_received st) (end_stream_received st) (recv_window st) (send_window st) v (s_body st) (pending_hpack st).
Definition set_s_body (v : bytes) (st : Stream) : Stream := mkStream (s_id st) (headers_received st) (end_stream_received st) (recv_window st) (send_window st) (s_headers st) v (pending_hpack st).
Definition set_pending_hpack (v : bytes) (st : Stream) : Stream := mkStream (s_id st) (headers_received st) (end_stream_received st) (recv_window st) (send_window st) (s_headers st) (s_body st) v.

(** A request as it is handed to the application. *)
Record Req := mkReq {
  rq_stream_id : Z;
  rq_method : bytes;
  rq_path : bytes;
  rq_headers : gmap bytes bytes;
  rq_body : bytes
}.

Inductive Phase := Preface | FrameHeaderPhase | FramePayload.

(** [cur_length_], [cur_type_], [cur_flags_], [cur_stream_id_]. *)
Record FrameHeader := mkHeader { cur_length : Z; cur_type : Z; cur_flags : Z; cur_stream_id : Z }.

Inductive Event :=
  | Wrote (f : Frame)
  | Dispatched (r : Req)
  | Closed
  | CloseAfterFlush.

Record H2 := mkH2 {
  buffer : bytes;
  phase : Phase;
  closing : bool;
  cur : FrameHeader;
  peer_settings : Settings;
  our_settings : Settings;
  conn_send_window : Z;
  conn_recv_window : Z;
  last_stream_id_handled : Z;
  goaway_sent : bool;
  streams : gmap Z Stream;
  conn_open : bool;
  writes : nat;
  active_requests : Z;
  log : list Event
}.

Definition set_buffer (v : bytes) (st : H2) : H2 := mkH2 v (phase st) (closing st) (cur st) (peer_settings st) (our_settings st) (conn_send_window st) (conn_recv_window st) (last_stream_id_handled st) (goaway_sent st) (streams st) (conn_open st) (writes st) (active_requests st) (log st).
Definition set_phase (v : Phase) (st : H2) : H2 := mkH2 (buffer st) v (closing st) (cur st) (peer_settings st) (our_settings st) (conn_send_window st) (conn_recv_window st) (last_stream_id_handled st) (goaway_sent st) (streams st) (conn_open st) (writes st) (active_requests st) (log st).
Definition set_closing (v : bool) (st : H2) : H2 := mkH2 (buffer st) (phase st) v (cur st) (peer_settings st) (our_settings st) (conn_send_window st) (conn_recv_window st) (last_stream_id_handled st) (goaway_sent st) (streams st) (conn_open st) (writes st) (active_requests st) (log st).
Definition set_cur (v : FrameHeader) (st : H2) : H2 := mkH2 (buffer st) (phase st) (closing st) v (peer_settings st) (our_settings st) (conn_send_window st) (conn_recv_window st) (last_stream_id_handled st) (goaway_sent st) (streams st) (conn_open st) (writes st) (active_requests st) (log st).
Definition set_peer_settings (v : Settings) (st : H2) : H2 := mkH2 (buffer st) (phase st) (closing st) (cur st) v (our_settings st) (conn_send_window st) (conn_recv_window st) (last_stream_id_handled st) (goaway_sent st) (streams st) (conn_open st) (writes st) (active_requests st) (log st).
Definition set_our_settings (v : Settings) (st : H2) : H2 := mkH2 (buffer st) (phase st) (closing st) (cur st) (peer_settings st) v (conn_send_window st) (conn_recv_window st) (last_stream_id_handled st) (goaway_sent st) (streams st) (conn_open st) (writes st) (active_requests st) (log st).
Definition set_conn_send_window (v : Z) (st : H2) : H2 := mkH2 (buffer st) (phase st) (closing st) (cur st) (peer_settings st) (our_settings st) v (conn_recv_window st) (last_stream_id_handled st) (goaway_sent st) (streams st) (conn_open st) (writes st) (active_requests st) (log st).
Definition set_conn_recv_window (v : Z) (st : H2) : H2 := mkH2 (buffer st) (phase st) (closing st) (cur st) (peer_settings st) (our_settings st) (conn_send_window st) v (last_stream_id_handled st) (goaway_sent st) (streams st) (conn_open st) (writes st) (active_requests st) (log st).
Definition set_last_stream_id_handled (v : Z) (st : H2) : H2 := mkH2 (buffer st) (phase st) (closing st) (cur st) (peer_settings st) (our_settings st) (conn_send_window st) (conn_recv_window st) v (goaway_sent st) (streams st) (conn_open st) (writes st) (active_requests st) (log st).
Definition set_goaway_sent (v : bool) (st : H2) : H2 := mkH2 (buffer st) (phase st) (closing st) (cur st) (peer_settings st) (our_settings st) (conn_send_window st) (conn_recv_window st) (last_stream_id_handled st) v (streams st) (conn_open st) (writes st) (active_requests st) (log st).
Definition set_streams (v : gmap Z Stream) (st : H2) : H2 := mkH2 (buffer st) (phase st) (closing st) (cur st) (peer_settings st) (our_settings st) (conn_send_window st) (conn_recv_window st) (last_stream_id_handled st) (goaway_sent st) v (conn_open st) (writes st) (active_requests st) (log st).
Definition set_conn_open (v : bool) (st : H2) : H2 := mkH2 (buffer st) (phase st) (closing st) (cur st) (peer_settings st) (our_settings st) (conn_send_window st) (conn_recv_window st) (last_stream_id_handled st) (goaway_sent st) (streams st) v (writes st) (active_requests st) (log st).
Definition set_writes (v : nat) (st : H2) : H2 := mkH2 (buffer st) (phase st) (closing st) (cur st) (peer_settings st) (our_settings st) (conn_send_window st) (conn_recv_window st) (last_stream_id_handled st) (goaway_sent st) (streams st) (conn_open st) v (active_requests st) (log st).
Definition set_active_requests (v : Z) (st : H2) : H2 := mkH2 (buffer st) (phase st) (closing st) (cur st) (peer_settings st) (our_settings st) (conn_send_window st) (conn_recv_window st) (last_stream_id_handled st) (goaway_sent st) (streams st) (conn_open st) (writes st) v (log st).
Definition set_log (v : list Event) (st : H2) : H2 := mkH2 (buffer st) (phase st) (closing st) (cur st) (peer_settings st) (our_settings st) (conn_send_window st) (conn_recv_window st) (last_stream_id_handled st) (goaway_sent st) (streams st) (conn_open st) (writes st) (active_requests st) v.

Definition new_conn : H2 :=
  mkH2 [] Preface false (mkHeader 0 0 0 0) default_settings default_settings kInitialWindow kInitialWindow 0 false ∅
       true 0 0 [].

Definition emit_event (e : Event) (st : H2) : H2 := set_log (log st ++ [e]) st.

(** [map[k] = v] on the entries of a hash map. *)
Fixpoint map_set (hs : list (bytes * bytes)) (k v : bytes) : list (bytes * bytes) :=
  match hs with
  | [] => [(k, v)]
  | (k', v') :: hs => if bool_decide (k' = k) then (k, v) :: hs else (k', v') :: map_set hs k v
  end.

(** The payload between the pad length and the padding; [None] is a
    protocol error. *)
Definition strip_padding (flags : Z) (payload : bytes) : option bytes :=
  match payload with
  | pad_len :: rest =>
      if negb (flags .& PADDED =? 0) then
        if #rest <=? pad_len then None else Some (take (length rest - Z.to_nat pad_len) rest)
      else Some payload
  | [] => Some payload
  end.

Section Connection.
(** The application, given what has happened on the connection so far: the
    response the handler completed before it returned, if any, and whether it
    threw.  A response completed later is a call of [on_response_ready]. *)
Context (handler : list Event -> Req -> option Response * bool).
Context (write_fails : nat -> bool).

(** ** Output *)

Definition write_frame (f : Frame) (st : H2) : H2 :=
  if conn_open st then
    let st := set_writes (S (writes st)) st in
    if write_fails (writes st) then set_closing true (set_conn_open false st)
    else emit_event (Wrote f) st
  else st.

Definition send_goaway (error_code : Z) (st : H2) : H2 :=
  if goaway_sent st then st
  else write_frame (build_goaway_frame (last_stream_id_handled st) error_code) (set_goaway_sent true st).

Definition close_after_flush (st : H2) : H2 := if conn_open st then emit_event CloseAfterFlush st else st.

Definition fatal (error_code : Z) (st : H2) : H2 :=
  close_after_flush (set_closing true (send_goaway error_code st)).

Definition erase_stream (sid : Z) (st : H2) : H2 := set_streams (delete sid (streams st)) st.

Definition rst_stream (sid error_code : Z) (st : H2) : H2 :=
  erase_stream sid (write_frame (build_rst_stream_frame sid error_code) st).

(** ** Requests and responses *)

Definition finish_response (sid : Z) (response : Response) : Response :=
  let hs := map_set (headers response) (str ":status") (to_string (status_code response)) in
  let hs := match find_exact hs (str "content-length") with
            | None => if bool_decide (body response = []) then hs
                      else map_set hs (str "content-length") (to_string (#(body response)))
            | Some _ => hs
            end in
  mkResponse sid (status_code response) hs (body response).

Definition on_response_ready (sid : Z) (response : Response) (st : H2) : H2 :=
  let st := set_active_requests (active_requests st - 1) st in
  if negb (conn_open st) || closing st then st else
  let max_chunk := if 0 <? max_frame_size (peer_settings st) then max_frame_size (peer_settings st)
                   else kMaxFrameSizeDefault in
  foldl (fun st f => write_frame f st) st (default [] (to_frames (finish_response sid response) max_chunk)).

Definition dispatch_request (req : Req) (st : H2) : H2 :=
  let st := emit_event (Dispatched req) (set_active_requests (active_requests st + 1) st) in
  let '(response, threw) := handler (log st) req in
  match response with
  | Some r => on_response_ready (rq_stream_id req) r st
  | None =>
      if threw then
        write_frame (build_rst_stream_frame (rq_stream_id req) 0x2) (set_active_requests (active_requests st - 1) st)
      else st
  end.

Definition handoff_request (s : Stream) (st : H2) : H2 :=
  let m := default [] (s_headers s !! str ":method") in
  let p := default [] (s_headers s !! str ":path") in
  dispatch_request (mkReq (s_id s) m p (s_headers s) (s_body s)) (set_last_stream_id_handled (s_id s) st).

(** ** Frames *)

Definition decode_u32_31 (payload : bytes) : Z := decode_uint32_be payload .& 0x7FFFFFFF.

Definition handle_settings (flags sid : Z) (payload : bytes) (st : H2) : H2 :=
  if negb (sid =? 0) then fatal 0x1 st
  else if negb (flags .& ACK =? 0) then
    if negb (bool_decide (payload = [])) then fatal 0x6 st else st
  else if negb (length payload mod 6 =? 0)%nat then fatal 0x6 st
  else write_frame (build_settings_frame (our_settings st) true)
         (set_peer_settings (parse_into payload (peer_settings st)) st).

Definition handle_ping (flags sid : Z) (payload : bytes) (st : H2) : H2 :=
  if negb (sid =? 0) then fatal 0x1 st
  else if negb (length payload =? 8)%nat then fatal 0x6 st
  else if negb (flags .& ACK =? 0) then st
  else write_frame (build_ping_frame payload true) st.

Definition handle_window_update (sid : Z) (payload : bytes) (st : H2) : H2 :=
  if negb (length payload =? 4)%nat then fatal 0x6 st else
  let inc := decode_u32_31 payload in
  if inc =? 0 then
    if sid =? 0 then fatal 0x1 st else rst_stream sid 0x1 st
  else if sid =? 0 then
    if kMaxFlowControlWindow <? conn_send_window st + inc then fatal 0x3 st
    else set_conn_send_window (conn_send_window st + inc) st
  else
    match streams st !! sid with
    | None => st
    | Some s =>
        if kMaxFlowControlWindow <? send_window s + inc then rst_stream sid 0x3 st
        else set_streams (<[sid := set_send_window (send_window s + inc) s]> (streams st)) st
    end.

Definition handle_rst_stream (sid : Z) (payload : bytes) (st : H2) : H2 :=
  if sid =? 0 then fatal 0x1 st
  else if negb (length payload =? 4)%nat then fatal 0x6 st
  else erase_stream sid st.

Definition handle_goaway (st : H2) : H2 := close_after_flush (set_closing true (send_goaway 0 st)).

(** The block fragment behind padding and priority fields. *)
Definition header_fragment (flags : Z) (payload : bytes) : option bytes :=
  p ← strip_padding flags payload;
  if negb (flags .& PRIORITY =? 0) then
    if (length p <? 5)%nat then None else Some (drop 5 p)
  else Some p.

Definition put_stream (sid : Z) (s : Stream) (st : H2) : H2 := set_streams (<[sid := s]> (streams st)) st.

(** [s.headers = decode_headers(s.pending_hpack); s.pending_hpack.clear()]. *)
Definition decode_block (s : Stream) : Stream :=
  set_pending_hpack [] (set_s_headers (default ∅ (decode_headers (pending_hpack s))) s).

Definition handle_headers (flags sid : Z) (payload : bytes) (st : H2) : H2 :=
  if sid =? 0 then fatal 0x1 st else
  if bool_decide (streams st !! sid = None) && (kMaxConcurrentStreams <=? Z.of_nat (size (streams st)))
  then rst_stream sid 0x7 st else
  let s := default new_stream (streams st !! sid) in
  let s := set_headers_received true (set_s_id sid s) in
  match header_fragment flags payload with
  | None => rst_stream sid 0x1 (put_stream sid s st)
  | Some block =>
      let s := set_pending_hpack block s in
      let end_headers := negb (flags .& END_HEADERS =? 0) in
      let end_stream := negb (flags .& END_STREAM =? 0) in
      let s := if end_stream then set_end_stream_received true s else s in
      if end_headers then
        let s := decode_block s in
        if end_stream then erase_stream sid (handoff_request s (put_stream sid s st))
        else put_stream sid s st
      else put_stream sid s st
  end.

Definition handle_continuation (flags sid : Z) (payload : bytes) (st : H2) : H2 :=
  match streams st !! sid with
  | None => fatal 0x1 st
  | Some s =>
      if negb (headers_received s) then fatal 0x1 st
      else if kMaxHeaderListBytes <? #(pending_hpack s) + #payload then fatal 0xb st
      else
        let s := set_pending_hpack (pending_hpack s ++ payload) s in
        if negb (flags .& END_HEADERS =? 0) then
          let s := decode_block s in
          if end_stream_received s then erase_stream sid (handoff_request s (put_stream sid s st))
          else put_stream sid s st
        else put_stream sid s st
  end.

Definition handle_data (flags sid : Z) (payload : bytes) (st : H2) : H2 :=
  match streams st !! sid with
  | None => fatal 0x1 st
  | Some s =>
      if negb (headers_received s) then fatal 0x1 st else
      match strip_padding flags payload with
      | None => rst_stream sid 0x1 st
      | Some data =>
          if kMaxBodyBytes <? #(s_body s) + #data then erase_stream sid (rst_stream sid 0xb st) else
          let s := set_recv_window (recv_window s - #data) (set_s_body (s_body s ++ data) s) in
          let st := put_stream sid s st in
          let st := if 0 <? #payload then
                      write_frame (build_window_update_frame sid (#payload))
                        (write_frame (build_window_update_frame 0 (#payload)) st)
                    else st in
          if negb (flags .& END_STREAM =? 0) then
            let s := set_end_stream_received true s in
            erase_stream sid (handoff_request s (put_stream sid s st))
          else st
      end
  end.

Definition handle_frame (type flags sid : Z) (payload : bytes) (st : H2) : H2 :=
  if type =? SETTINGS then handle_settings flags sid payload st
  else if type =? PING then handle_ping flags sid payload st
  else if type =? WINDOW_UPDATE then handle_window_update sid payload st
  else if type =? RST_STREAM then handle_rst_stream sid payload st
  else if type =? GOAWAY then handle_goaway st
  else if type =? HEADERS then handle_headers flags sid payload st
  else if type =? CONTINUATION then handle_continuation flags sid payload st
  else if type =? DATA then handle_data flags sid payload st
  else st.

(** ** The receive state machine *)

Definition advertised : Settings :=
  mkSettings 0 false kMaxConcurrentStreams kInitialWindow kMaxFrameSizeDefault 0.

Definition parse_frame_header (b : bytes) : FrameHeader :=
  mkHeader (decode_uint24_be b) (nth_byte b 3) (nth_byte b 4) (decode_uint32_be (drop 5 b) .& 0x7FFFFFFF).

(** One iteration of the loop: [inr] is a [return]. *)
Definition process_step (st : H2) : H2 + H2 :=
  if closing st || negb (conn_open st) then inr st else
  match phase st with
  | Preface =>
      if (length (buffer st) <? CONNECTION_PREFACE_LEN)%nat then inr st
      else if negb (bool_decide (take CONNECTION_PREFACE_LEN (buffer st) = CONNECTION_PREFACE))
      then inr (emit_event Closed (set_conn_open false (set_closing true st)))
      else
        let st := set_buffer (drop CONNECTION_PREFACE_LEN (buffer st)) st in
        let st := set_our_settings advertised st in
        inl (set_phase FrameHeaderPhase (write_frame (build_settings_frame (our_settings st) false) st))
  | FrameHeaderPhase =>
      if (length (buffer st) <? 9)%nat then inr st else
      let h := parse_frame_header (buffer st) in
      let st := set_buffer (drop 9 (buffer st)) st in
      if max_frame_size (our_settings st) <? cur_length h then inr (fatal 0x6 st)
      else if cur_length h =? 0 then inl (handle_frame (cur_type h) (cur_flags h) (cur_stream_id h) [] st)
      else inl (set_phase FramePayload (set_cur h st))
  | FramePayload =>
      if Z.of_nat (length (buffer st)) <? cur_length (cur st) then inr st else
      let h := cur st in
      let n := Z.to_nat (cur_length h) in
      let payload := take n (buffer st) in
      let st := set_buffer (drop n (buffer st)) st in
      let st := if cur_type h =? DATA then set_conn_recv_window (conn_recv_window st - cur_length h) st else st in
      let st := set_phase FrameHeaderPhase st in
      inl (handle_frame (cur_type h) (cur_flags h) (cur_stream_id h) payload st)
  end.

(** Every iteration that goes on consumes at least a byte, so one more than
    the buffered bytes is enough fuel. *)
Definition try_process (st : H2) : option H2 := loop process_step (S (length (buffer st))) st.

Definition on_data (data : bytes) (st : H2) : option H2 :=
  let st := set_buffer (buffer st ++ data) st in
  if closing st then Some st else try_process st.

Definition on_closed (st : H2) : H2 := set_conn_open false (set_closing true st).

End Connection.

(** ** The receive side is untouched by the handlers *)

(** Buffer, phase and pending frame header. *)
Definition with_rx (rx : bytes * Phase * FrameHeader) (st : H2) : H2 :=
  set_buffer rx.1.1 (set_phase rx.1.2 (set_cur rx.2 st)).

Definition rx_of (st : H2) : bytes * Phase * FrameHeader := (buffer st, phase st, cur st).

Lemma with_rx_of st : with_rx (rx_of st) st = st.
Proof. by destruct st. Qed.

Lemma rx_of_with rx st : rx_of (with_rx rx st) = rx.
Proof. by destruct rx as [[]]. Qed.

(** An operation that neither reads nor writes the receive side. *)
Definition rx_neutral (op : H2 -> H2) : Prop := forall rx st, op (with_rx rx st) = with_rx rx (op st).

Lemma rx_neutral_keeps op st : rx_neutral op -> rx_of (op st) = rx_of st.
Proof. intros H. rewrite <- (with_rx_of st) at 1. rewrite H. apply rx_of_with. Qed.

Section Neutral.
Context (handler : list Event -> Req -> option Response * bool).
Context (write_fails : nat -> bool).

Lemma write_frame_rx f : rx_neutral (write_frame write_fails f).
Proof. intros rx st. destruct st. unfold write_frame. cbn. repeat case_match; done. Qed.

Lemma send_goaway_rx e : rx_neutral (send_goaway write_fails e).
Proof.
  intros rx st. unfold send_goaway. cbn [goaway_sent last_stream_id_handled with_rx set_buffer set_phase set_cur].
  case_match; [done|]. rewrite <- write_frame_rx. by destruct st.
Qed.

Lemma close_after_flush_rx : rx_neutral close_after_flush.
Proof. intros rx st. unfold close_after_flush. cbn. by case_match. Qed.

Lemma set_closing_rx b : rx_neutral (set_closing b).
Proof. by intros rx st. Qed.
Lemma set_active_rx b : rx_neutral (set_active_requests b).
Proof. by intros rx st. Qed.
Lemma set_last_rx b : rx_neutral (set_last_stream_id_handled b).
Proof. by intros rx st. Qed.
Lemma emit_event_rx e : rx_neutral (emit_event e).
Proof. by intros rx st. Qed.
Lemma erase_stream_rx sid : rx_neutral (erase_stream sid).
Proof. by intros rx st. Qed.
Lemma put_stream_rx sid s : rx_neutral (put_stream sid s).
Proof. by intros rx st. Qed.

Lemma fatal_rx e : rx_neutral (fatal write_fails e).
Proof. intros rx st. unfold fatal. by rewrite send_goaway_rx, set_closing_rx, close_after_flush_rx. Qed.

Lemma rst_stream_rx sid e : rx_neutral (rst_stream write_fails sid e).
Proof. intros rx st. unfold rst_stream. by rewrite write_frame_rx, erase_stream_rx. Qed.

Lemma write_frames_rx fs : rx_neutral (fun st => foldl (fun st f => write_frame write_fails f st) st fs).
Proof. induction fs as [|f fs IH]; intros rx st; [done|]. cbn [foldl]. rewrite write_frame_rx. apply IH. Qed.

Lemma on_response_ready_rx sid r : rx_neutral (on_response_ready write_fails sid r).
Proof.
  intros rx st. unfold on_response_ready. cbv zeta.
  change (active_requests (with_rx rx st)) with (active_requests st). rewrite set_active_rx.
  set (st1 := set_active_requests _ st). change (conn_open (with_rx rx st1)) with (conn_open st1).
  change (closing (with_rx rx st1)) with (closing st1). change (peer_settings (with_rx rx st1)) with (peer_settings st1).
  destruct (negb (conn_open st1) || closing st1); [done|]. apply write_frames_rx.
Qed.

Lemma dispatch_request_rx req : rx_neutral (dispatch_request handler write_fails req).
Proof.
  intros rx st. unfold dispatch_request. cbv zeta. change (active_requests (with_rx rx st)) with (active_requests st).
  rewrite set_active_rx, emit_event_rx. set (st0 := emit_event _ _). change (log (with_rx rx st0)) with (log st0). destruct (handler (log st0) req) as [[r|] threw]; [apply on_response_ready_rx|].
  destruct threw; [|done]. change (active_requests (with_rx rx st0)) with (active_requests st0).
  by rewrite set_active_rx, write_frame_rx.
Qed.

Lemma handoff_request_rx s : rx_neutral (handoff_request handler write_fails s).
Proof. intros rx st. unfold handoff_request. cbv zeta. by rewrite set_last_rx, dispatch_request_rx. Qed.

Lemma set_streams_rx v : rx_neutral (set_streams v).
Proof. by intros rx st. Qed.
Lemma set_peer_settings_rx v : rx_neutral (set_peer_settings v).
Proof. by intros rx st. Qed.
Lemma set_conn_send_window_rx v : rx_neutral (set_conn_send_window v).
Proof. by intros rx st. Qed.

Ltac rx_proj st rx :=
  change (streams (with_rx rx st)) with (streams st); change (our_settings (with_rx rx st)) with (our_settings st);
  change (peer_settings (with_rx rx st)) with (peer_settings st);
  change (conn_send_window (with_rx rx st)) with (conn_send_window st).

Ltac rx_steps :=
  rewrite ?fatal_rx, ?rst_stream_rx, ?put_stream_rx, ?set_streams_rx, ?set_peer_settings_rx, ?set_conn_send_window_rx,
    ?erase_stream_rx, ?write_frame_rx, ?handoff_request_rx, ?send_goaway_rx, ?set_closing_rx, ?close_after_flush_rx,
    ?rst_stream_rx, ?erase_stream_rx, ?put_stream_rx, ?write_frame_rx, ?handoff_request_rx, ?erase_stream_rx.

Lemma handle_settings_rx flags sid payload : rx_neutral (handle_settings write_fails flags sid payload).
Proof. intros rx st. unfold handle_settings. rx_proj st rx. rx_steps. repeat case_match; done. Qed.
Lemma handle_ping_rx flags sid payload : rx_neutral (handle_ping write_fails flags sid payload).
Proof. intros rx st. unfold handle_ping. rx_proj st rx. rx_steps. repeat case_match; done. Qed.
Lemma handle_window_update_rx sid payload : rx_neutral (handle_window_update write_fails sid payload).
Proof. intros rx st. unfold handle_window_update. cbv zeta. rx_proj st rx. repeat (case_match; rx_steps; try done). Qed.
Lemma handle_rst_stream_rx sid payload : rx_neutral (handle_rst_stream write_fails sid payload).
Proof. intros rx st. unfold handle_rst_stream. rx_steps. repeat case_match; done. Qed.
Lemma handle_goaway_rx : rx_neutral (handle_goaway write_fails).
Proof. intros rx st. unfold handle_goaway. by rx_steps. Qed.
Lemma handle_headers_rx flags sid payload : rx_neutral (handle_headers handler write_fails flags sid payload).
Proof.
  intros rx st. unfold handle_headers. cbv zeta. rx_proj st rx. rx_steps. repeat (case_match; [rx_steps; try done|]).
  all: try done. all: repeat case_match; rx_steps; try done.
Qed.
Lemma handle_continuation_rx flags sid payload : rx_neutral (handle_continuation handler write_fails flags sid payload).
Proof. intros rx st. unfold handle_continuation. cbv zeta. rx_proj st rx. rx_steps. repeat case_match; rx_steps; done. Qed.
Lemma handle_data_rx flags sid payload : rx_neutral (handle_data handler write_fails flags sid payload).
Proof. intros rx st. unfold handle_data. cbv zeta. rx_proj st rx. rx_steps. repeat (case_match; rx_steps; try done). Qed.

Lemma handle_frame_rx type flags sid payload : rx_neutral (handle_frame handler write_fails type flags sid payload).
Proof.
  intros rx st. unfold handle_frame.
  rewrite handle_settings_rx, handle_ping_rx, handle_window_update_rx, handle_rst_stream_rx, handle_goaway_rx,
    handle_headers_rx, handle_continuation_rx, handle_data_rx. repeat (case_match; [done|]). done.
Qed.

(** ** Chunking *)

Definition add_bytes (x : bytes) (st : H2) : H2 := set_buffer (buffer st ++ x) st.

Lemma handle_frame_add type flags sid payload x st :
  handle_frame handler write_fails type flags sid payload (add_bytes x st) =
  add_bytes x (handle_frame handler write_fails type flags sid payload st).
Proof.
  pose proof (rx_neutral_keeps _ st (handle_frame_rx type flags sid payload)) as Hk.
  change (add_bytes x st) with (with_rx (buffer st ++ x, phase st, cur st) st). rewrite handle_frame_rx.
  unfold rx_of in Hk. injection Hk as Hb Hp Hc. unfold add_bytes. rewrite Hb.
  destruct (handle_frame _ _ _ _ _ _ _). cbn in *. by subst.
Qed.

Lemma write_frame_add f x st : write_frame write_fails f (add_bytes x st) = add_bytes x (write_frame write_fails f st).
Proof. destruct st. unfold write_frame. cbn. repeat case_match; done. Qed.

Lemma fatal_add e x st : fatal write_fails e (add_bytes x st) = add_bytes x (fatal write_fails e st).
Proof.
  pose proof (rx_neutral_keeps _ st (fatal_rx e)) as Hk.
  change (add_bytes x st) with (with_rx (buffer st ++ x, phase st, cur st) st). rewrite fatal_rx.
  unfold rx_of in Hk. injection Hk as Hb Hp Hc. unfold add_bytes. rewrite Hb.
  destruct (fatal _ _ _). cbn in *. by subst.
Qed.

Lemma parse_frame_header_app b x : (9 <= length b)%nat -> parse_frame_header (b ++ x) = parse_frame_header b.
Proof. intros Hl. do 9 (destruct b as [|? b]; [simpl in Hl; lia|]). done. Qed.

(** More bytes behind the buffer do not change an iteration that goes on. *)
Lemma process_step_add st st' x : process_step handler write_fails st = inl st' ->
  process_step handler write_fails (add_bytes x st) = inl (add_bytes x st').
Proof.
  unfold process_step. change (closing (add_bytes x st)) with (closing st). change (conn_open (add_bytes x st)) with (conn_open st).
  change (phase (add_bytes x st)) with (phase st). change (buffer (add_bytes x st)) with (buffer st ++ x).
  change (cur (add_bytes x st)) with (cur st). destruct (closing st || negb (conn_open st)); [done|].
  rewrite length_app. destruct (phase st).
  - destruct (Nat.ltb_spec (length (buffer st)) CONNECTION_PREFACE_LEN); [done|].
    rewrite (proj2 (Nat.ltb_ge _ _)) by lia. rewrite take_app_le by done. case_match; [done|]. intros [= <-].
    rewrite drop_app_le by done. f_equal. unfold write_frame, emit_event. destruct st. cbn. repeat case_match; done.
  - destruct (Nat.ltb_spec (length (buffer st)) 9); [done|]. rewrite (proj2 (Nat.ltb_ge _ _)) by lia. cbv zeta.
    rewrite parse_frame_header_app, drop_app_le by done. set (h := parse_frame_header (buffer st)).
    set (st1 := set_buffer (drop 9 (buffer st)) st).
    change (set_buffer (drop 9 (buffer st) ++ x) (add_bytes x st)) with (add_bytes x st1).
    change (our_settings (add_bytes x st1)) with (our_settings st1). case_match; [done|].
    case_match; intros [= <-]; [by rewrite handle_frame_add|done].
  - destruct (Z.ltb_spec (#(buffer st)) (cur_length (cur st))); [done|]. rewrite (proj2 (Z.ltb_ge _ _)) by lia. cbv zeta.
    intros [= <-]. rewrite take_app_le, drop_app_le by lia. f_equal.
    rewrite <- handle_frame_add. f_equal. by case_match.
Qed.

(** An iteration that returns either has closed the connection, or is waiting
    for bytes and has changed nothing. *)
Lemma process_step_return st r x : process_step handler write_fails st = inr r ->
  r = st \/ (closing r = true /\ process_step handler write_fails (add_bytes x st) = inr (add_bytes x r)).
Proof.
  unfold process_step. change (closing (add_bytes x st)) with (closing st). change (conn_open (add_bytes x st)) with (conn_open st).
  change (phase (add_bytes x st)) with (phase st). change (buffer (add_bytes x st)) with (buffer st ++ x).
  destruct (closing st || negb (conn_open st)); [intros [= <-]; by left|].
  rewrite length_app. destruct (phase st).
  - destruct (Nat.ltb_spec (length (buffer st)) CONNECTION_PREFACE_LEN); [intros [= <-]; by left|].
    rewrite (proj2 (Nat.ltb_ge _ _)) by lia. rewrite take_app_le by done. case_match; [|done]. intros [= <-]. by right.
  - destruct (Nat.ltb_spec (length (buffer st)) 9); [intros [= <-]; by left|]. rewrite (proj2 (Nat.ltb_ge _ _)) by lia. cbv zeta.
    rewrite parse_frame_header_app, drop_app_le by done.
    set (st1 := set_buffer (drop 9 (buffer st)) st).
    change (set_buffer (drop 9 (buffer st) ++ x) (add_bytes x st)) with (add_bytes x st1).
    change (our_settings (add_bytes x st1)) with (our_settings st1). case_match; [|by case_match]. intros [= <-].
    right. rewrite fatal_add. split; [|done]. unfold fatal, close_after_flush. by case_match.
  - destruct (Z.ltb_spec (#(buffer st)) (cur_length (cur st))); [intros [= <-]; by left|done].
Qed.

Definition rx_ok (st : H2) : Prop :=
  bytes_ok (buffer st) /\ (phase st = FramePayload -> 0 < cur_length (cur st)).

Lemma nth_byte_ok b i : bytes_ok b -> byte_ok (nth_byte b i).
Proof.
  intros Hb. unfold nth_byte. destruct (nth_in_or_default i b 0) as [Hi| ->]; [|done].
  by apply (proj1 (List.Forall_forall _ _) Hb).
Qed.

Lemma decode24_nonneg b : bytes_ok b -> 0 <= decode_uint24_be b.
Proof.
  intros Hb. unfold decode_uint24_be. rewrite !Z.lor_nonneg. pose proof (nth_byte_ok b 2 Hb). unfold u32, wrap, byte_ok in *.
  split; [|split]; [apply Z.mod_pos_bound; lia|apply Z.mod_pos_bound; lia|lia].
Qed.

(** Every iteration that goes on consumes input. *)
Lemma process_step_progress st st' : rx_ok st -> process_step handler write_fails st = inl st' ->
  rx_ok st' /\ (length (buffer st') < length (buffer st))%nat.
Proof.
  intros [Hb Hc]. unfold process_step. destruct (closing st || negb (conn_open st)); [done|].
  assert (Hdrop : forall n, bytes_ok (drop n (buffer st))) by (intros n; by apply Forall_drop).
  destruct (phase st) eqn:Ep.
  - destruct (Nat.ltb_spec (length (buffer st)) CONNECTION_PREFACE_LEN) as [|Hl]; [done|]. case_match; [done|]. intros [= <-].
    set (st1 := set_our_settings _ _).
    pose proof (rx_neutral_keeps _ st1 (write_frame_rx (build_settings_frame (our_settings st1) false))) as Hk.
    injection Hk as Hb' _ _. split; [split; [cbn [buffer set_phase]; rewrite Hb'; apply Hdrop|done]|].
    cbn [buffer set_phase]. rewrite Hb'. cbn [buffer st1 set_our_settings set_buffer]. rewrite length_drop.
    unfold CONNECTION_PREFACE_LEN in *. lia.
  - destruct (Nat.ltb_spec (length (buffer st)) 9); [done|]. cbv zeta. case_match; [done|].
    set (st1 := set_buffer _ _). set (h := parse_frame_header _). case_match.
    + intros [= <-]. pose proof (rx_neutral_keeps _ st1 (handle_frame_rx (cur_type h) (cur_flags h) (cur_stream_id h) [])) as Hk.
      injection Hk as Hb' Hp' _. split; [split; [rewrite Hb'; apply Hdrop|rewrite Hp'; cbn; by rewrite Ep]|].
      rewrite Hb'. cbn. rewrite length_drop. lia.
    + intros [= <-]. split; [split; [apply Hdrop|]|cbn; rewrite length_drop; lia].
      intros _. cbn [cur set_phase set_cur]. pose proof (decode24_nonneg (buffer st) Hb).
      unfold h in *. cbn [cur_length parse_frame_header] in *. lia.
  - destruct (Z.ltb_spec (#(buffer st)) (cur_length (cur st))); [done|]. cbv zeta. intros [= <-].
    set (st1 := set_phase FrameHeaderPhase _). specialize (Hc eq_refl).
    pose proof (rx_neutral_keeps _ st1 (handle_frame_rx (cur_type (cur st)) (cur_flags (cur st)) (cur_stream_id (cur st))
      (take (Z.to_nat (cur_length (cur st))) (buffer st)))) as Hk. injection Hk as Hb' Hp' _.
    assert (E : buffer st1 = drop (Z.to_nat (cur_length (cur st))) (buffer st)) by (unfold st1; by case_match).
    match type of Hb' with _ = ?b => change b with (buffer st1) in Hb' end.
    split; [split; [rewrite Hb', E; apply Hdrop|rewrite Hp'; done]|]. rewrite Hb', E, length_drop. lia.
Qed.

Lemma process_step_return_ok st r : rx_ok st -> process_step handler write_fails st = inr r -> rx_ok r.
Proof.
  intros [Hb Hc] Hs. apply (process_step_return _ _ []) in Hs as Hs2. destruct Hs2 as [->|[Hcl _]]; [by split|].
  unfold process_step in Hs. destruct (closing st || negb (conn_open st)); [by simplify_eq; split|].
  destruct (phase st) eqn:Ep.
  - repeat case_match; simplify_eq; (split; [done|intros Hp; cbn in Hp; congruence]).
  - destruct (length (buffer st) <? 9)%nat; [simplify_eq; split; [done|congruence]|]. cbv zeta in Hs. case_match; [|by case_match].
    injection Hs as <-. set (st1 := set_buffer _ _). pose proof (rx_neutral_keeps _ st1 (fatal_rx 0x6)) as Hk.
    injection Hk as Hb' Hp' _. split; [rewrite Hb'; by apply Forall_drop|rewrite Hp'; cbn; by rewrite Ep].
  - case_match; simplify_eq. split; [done|auto].
Qed.

Lemma rx_ok_push x st : rx_ok st -> bytes_ok x -> rx_ok (add_bytes x st).
Proof. intros [Hb Hc] Hx. split; [by apply Forall_app|done]. Qed.

(** ** The connection is an incremental byte machine *)

#[export] Instance h2_machine : ByteMachine H2 := {
  bm_weight := fun st => length (buffer st);
  bm_push := add_bytes;
  bm_closing := closing;
  bm_step := process_step handler write_fails
}.

#[export] Program Instance h2_machine_laws : ByteMachineLaws H2 := { bm_ok := rx_ok }.
Next Obligation. done. Qed.
Next Obligation. intros x y st. cbn. unfold add_bytes. cbn. by rewrite app_assoc. Qed.
Next Obligation. intros x st [Hb Hc]. split; [by apply Forall_app in Hb as [? _]|done]. Qed.
Next Obligation. exact process_step_progress. Qed.
Next Obligation. intros st st' x _. apply process_step_add. Qed.
Next Obligation. exact process_step_return_ok. Qed.
Next Obligation. intros st r x _. apply process_step_return. Qed.
Next Obligation. intros st Hc. cbn in *. unfold process_step. by rewrite Hc. Qed.

(** [on_data] is the machine's receive loop. *)
Lemma h2_on_data_machine data st : on_data handler write_fails data st = bm_on_data data st.
Proof. done. Qed.

Lemma on_data_total st data : rx_ok st -> bytes_ok data -> exists st', on_data handler write_fails data st = Some st' /\ rx_ok st'.
Proof. intros Hok Hd. rewrite h2_on_data_machine. exact (bm_on_data_total st data (rx_ok_push data st Hok Hd)). Qed.
End Neutral.

(** ** Resource bounds and the request gauge *)

Section Invariant.
Context (handler : list Event -> Req -> option Response * bool).
Context (write_fails : nat -> bool).

(** Requests whose handler left the response for later. *)
Definition is_deferred (l : list Event) (e : Event) : bool :=
  match e with
  | Dispatched r => match handler (l ++ [e]) r with (None, false) => true | _ => false end
  | _ => false
  end.

Fixpoint deferred_from (before l : list Event) : Z :=
  match l with [] => 0 | e :: l => (if is_deferred before e then 1 else 0) + deferred_from (before ++ [e]) l end.

Definition deferred (l : list Event) : Z := deferred_from [] l.

Arguments deferred l : simpl never.

(** What output and dispatch leave alone; the last component is the gauge
    against the deferred requests. *)
Definition core (st : H2) : gmap Z Stream * Z * Settings * Settings * Z :=
  (streams st, conn_send_window st, peer_settings st, our_settings st, active_requests st - deferred (log st)).

Lemma deferred_from_app l : forall before l', deferred_from before (l ++ l') = deferred_from before l + deferred_from (before ++ l) l'.
Proof. induction l as [|e l IH]; intros before l'; cbn [deferred_from app]; [by rewrite app_nil_r|]. rewrite IH, <- app_assoc. cbn [app]. lia. Qed.

Lemma deferred_from_nonneg l : forall before, 0 <= deferred_from before l.
Proof. induction l as [|e l IH]; intros before; cbn [deferred_from]; [done|]. specialize (IH (before ++ [e])). case_match; lia. Qed.

Lemma deferred_app l e : deferred (l ++ [e]) = deferred l + if is_deferred l e then 1 else 0.
Proof. unfold deferred. rewrite deferred_from_app. cbn [deferred_from app]. lia. Qed.

Lemma write_frame_core f st : core (write_frame write_fails f st) = core st.
Proof.
  unfold write_frame. case_match; [|done]. cbv zeta. case_match; [done|]. unfold core, emit_event. cbn.
  rewrite deferred_app. cbn. by rewrite Z.add_0_r.
Qed.

Lemma h2_close_after_flush_core st : core (close_after_flush st) = core st.
Proof. unfold close_after_flush. case_match; [|done]. unfold core. cbn. rewrite deferred_app. cbn. by rewrite Z.add_0_r. Qed.

Lemma send_goaway_core e st : core (send_goaway write_fails e st) = core st.
Proof. unfold send_goaway. case_match; [done|]. by rewrite write_frame_core. Qed.

Lemma fatal_core e st : core (fatal write_fails e st) = core st.
Proof. unfold fatal. rewrite h2_close_after_flush_core. unfold core at 1. cbn. apply (send_goaway_core e st). Qed.

Lemma write_frames_core fs st : core (foldl (fun st f => write_frame write_fails f st) st fs) = core st.
Proof. revert st. induction fs as [|f fs IH]; intros st; [done|]. cbn [foldl]. by rewrite IH, write_frame_core. Qed.

(** Completing a response takes one off the gauge and changes nothing else. *)
Lemma on_response_ready_core sid r st :
  core (on_response_ready write_fails sid r st) = core (set_active_requests (active_requests st - 1) st).
Proof. unfold on_response_ready. cbv zeta. case_match; [done|]. by rewrite write_frames_core. Qed.

Lemma dispatch_request_core req st : core (dispatch_request handler write_fails req st) = core st.
Proof.
  unfold dispatch_request. cbv zeta. set (st0 := emit_event _ _). destruct (handler (log st0) req) as [[r|] threw] eqn:Eh; cbn [st0 emit_event set_log log set_active_requests] in Eh.
  - rewrite on_response_ready_core. unfold core. cbn. rewrite deferred_app. cbn. rewrite Eh. f_equal. lia.
  - destruct threw.
    + rewrite write_frame_core. unfold core. cbn. rewrite deferred_app. cbn. rewrite Eh. f_equal. lia.
    + unfold core. cbn. rewrite deferred_app. cbn. rewrite Eh. f_equal. lia.
Qed.

Lemma handoff_request_core s st : core (handoff_request handler write_fails s st) = core st.
Proof. unfold handoff_request. cbv zeta. by rewrite dispatch_request_core. Qed.

Definition stream_ok (sid : Z) (s : Stream) : Prop :=
  s_id s = sid /\ sid <> 0 /\ headers_received s = true /\ #(pending_hpack s) <= kMaxHeaderListBytes /\
  #(s_body s) <= kMaxBodyBytes /\ send_window s <= kMaxFlowControlWindow.

(** [g] is the gauge and the settings we advertise. *)
Definition core_ok (g : Z * Settings) (c : gmap Z Stream * Z * Settings * Settings * Z) : Prop :=
  let '(ss, csw, peer, ours, gauge) := c in
  Z.of_nat (size ss) <= kMaxConcurrentStreams /\ map_Forall stream_ok ss /\ csw <= kMaxFlowControlWindow /\
  frame_size_ok (max_frame_size peer) = true /\ (gauge, ours) = g.

Lemma core_ok_put g st sid s : core_ok g (core st) -> stream_ok sid s ->
  (streams st !! sid = None -> Z.of_nat (size (streams st)) < kMaxConcurrentStreams) -> core_ok g (core (put_stream sid s st)).
Proof.
  intros (Hn & Hs & Hw & Hp) Hok Hroom. cbn [core core_ok put_stream set_streams streams conn_send_window peer_settings our_settings].
  split; [|split; [by apply map_Forall_insert_2|done]]. destruct (streams st !! sid) as [s'|] eqn:E.
  - rewrite map_size_insert_Some by (by eexists). done.
  - rewrite map_size_insert_None by done. specialize (Hroom eq_refl). lia.
Qed.

Lemma core_ok_erase g st sid : core_ok g (core st) -> core_ok g (core (erase_stream sid st)).
Proof.
  intros (Hn & Hs & Hw & Hp). cbn [core core_ok erase_stream set_streams streams conn_send_window peer_settings our_settings].
  split; [|split; [by apply map_Forall_delete|done]]. rewrite map_size_delete.
  destruct (streams st !! sid); unfold id; lia.
Qed.

Lemma core_ok_rst g st sid e : core_ok g (core st) -> core_ok g (core (rst_stream write_fails sid e st)).
Proof. intros H. unfold rst_stream. apply core_ok_erase. by rewrite write_frame_core. Qed.

Lemma core_ok_handoff g st sid s : core_ok g (core st) -> core_ok g (core (erase_stream sid (handoff_request handler write_fails s st))).
Proof. intros H. apply core_ok_erase. by rewrite handoff_request_core. Qed.

Lemma strip_padding_length fl p d : strip_padding fl p = Some d -> (length d <= length p)%nat.
Proof.
  unfold strip_padding. destruct p as [|b p]; [intros [= <-]; done|]. case_match; [|intros [= <-]; done].
  case_match; [done|]. intros [= <-]. rewrite length_take. simpl. lia.
Qed.

Lemma header_fragment_length fl p d : header_fragment fl p = Some d -> (length d <= length p)%nat.
Proof.
  unfold header_fragment. destruct (strip_padding fl p) as [q|] eqn:E; [|done]. apply strip_padding_length in E.
  cbn [mbind option_bind]. repeat case_match; intros [= <-]; [rewrite length_drop|]; lia.
Qed.

Lemma handle_headers_ok g flags sid payload st : core_ok g (core st) -> #payload <= kMaxFrameSizeDefault ->
  core_ok g (core (handle_headers handler write_fails flags sid payload st)).
Proof.
  intros H Hp. unfold handle_headers. destruct (Z.eqb_spec sid 0); [by rewrite fatal_core|]. cbv zeta.
  destruct (bool_decide _ && _) eqn:Efull; [by apply core_ok_rst|].
  set (s0 := set_headers_received true (set_s_id sid (default new_stream (streams st !! sid)))).
  assert (Hroom : streams st !! sid = None -> Z.of_nat (size (streams st)) < kMaxConcurrentStreams).
  { intros E. rewrite E in Efull. cbn in Efull. lia. }
  assert (Hs0 : stream_ok sid s0).
  { unfold s0. destruct (streams st !! sid) as [s|] eqn:E; cbn [default].
    - destruct H as (_ & Hs & _). apply (map_Forall_lookup_1 _ _ _ _ Hs) in E. unfold stream_ok in *. cbn. naive_solver.
    - unfold stream_ok. cbn. unfold kMaxHeaderListBytes, kMaxBodyBytes, kInitialWindow, kMaxFlowControlWindow. lia. }
  destruct (header_fragment flags payload) as [block|] eqn:Ef.
  2: { apply core_ok_rst, core_ok_put; done. }
  assert (Hs1 : forall e, stream_ok sid (if e : bool then set_end_stream_received true (set_pending_hpack block s0) else set_pending_hpack block s0)).
  { intros e. apply header_fragment_length in Ef. unfold kMaxFrameSizeDefault, kMaxHeaderListBytes in *.
    destruct Hs0 as (? & ? & ? & ? & ? & ?). destruct e; unfold stream_ok, kMaxHeaderListBytes; cbn in *; split_and!; lia || done. }
  case_match; [|by apply core_ok_put].
  assert (Hs2 : forall e, stream_ok sid (decode_block (if e : bool then set_end_stream_received true (set_pending_hpack block s0) else set_pending_hpack block s0))).
  { intros e. destruct (Hs1 e) as (? & ? & ? & ? & ? & ?). unfold stream_ok, kMaxHeaderListBytes. cbn. split_and!; lia || done. }
  destruct (negb (flags .& END_STREAM =? 0)); [apply core_ok_handoff|]; apply core_ok_put; try done; [apply (Hs2 true)|apply (Hs2 false)].
Qed.

Lemma handle_continuation_ok g flags sid payload st : core_ok g (core st) ->
  core_ok g (core (handle_continuation handler write_fails flags sid payload st)).
Proof.
  intros H. unfold handle_continuation. destruct (streams st !! sid) as [s|] eqn:E; [|by rewrite fatal_core].
  case_match; [by rewrite fatal_core|]. destruct (Z.ltb_spec kMaxHeaderListBytes (#(pending_hpack s) + #payload)); [by rewrite fatal_core|].
  cbv zeta. pose proof H as (_ & Hs & _). apply (map_Forall_lookup_1 _ _ _ _ Hs) in E as Hok. destruct Hok as (? & ? & ? & ? & ? & ?).
  assert (Hroom : streams st !! sid = None -> Z.of_nat (size (streams st)) < kMaxConcurrentStreams) by (by rewrite E).
  set (s1 := set_pending_hpack (pending_hpack s ++ payload) s).
  assert (Hs1 : stream_ok sid s1) by (unfold stream_ok; cbn; rewrite length_app; split_and!; lia || done).
  assert (Hs2 : stream_ok sid (decode_block s1)) by (unfold stream_ok, kMaxHeaderListBytes; cbn; split_and!; lia || done).
  case_match; [|by apply core_ok_put]. case_match; [apply core_ok_handoff|]; by apply core_ok_put.
Qed.

Lemma handle_data_ok g flags sid payload st : core_ok g (core st) ->
  core_ok g (core (handle_data handler write_fails flags sid payload st)).
Proof.
  intros H. unfold handle_data. destruct (streams st !! sid) as [s|] eqn:E; [|by rewrite fatal_core].
  case_match; [by rewrite fatal_core|]. destruct (strip_padding flags payload) as [d|]; [|by apply core_ok_rst].
  destruct (Z.ltb_spec kMaxBodyBytes (#(s_body s) + #d)); [by apply core_ok_erase, core_ok_rst|]. cbv zeta.
  pose proof H as (_ & Hs & _). apply (map_Forall_lookup_1 _ _ _ _ Hs) in E as Hok. destruct Hok as (? & ? & ? & ? & ? & ?).
  set (s1 := set_recv_window _ _). assert (Hs1 : stream_ok sid s1) by (unfold stream_ok; cbn; rewrite length_app; split_and!; lia || done).
  set (st1 := put_stream sid s1 st). assert (Hc1 : core_ok g (core st1)) by (apply core_ok_put; [done|done|by rewrite E]).
  set (st2 := if 0 <? #payload then _ else _).
  assert (E2 : core st2 = core st1) by (unfold st2; case_match; by rewrite ?write_frame_core).
  case_match; [|by rewrite E2]. apply core_ok_handoff, core_ok_put; [by rewrite E2|done|].
  intros Hnone. injection E2 as E2 _ _ _ _. rewrite E2 in Hnone. unfold st1 in Hnone. cbn in Hnone. by rewrite lookup_insert_eq in Hnone.
Qed.

Lemma handle_window_update_ok g sid payload st : core_ok g (core st) ->
  core_ok g (core (handle_window_update write_fails sid payload st)).
Proof.
  intros H. unfold handle_window_update. case_match; [by rewrite fatal_core|]. cbv zeta.
  case_match; [case_match; [by rewrite fatal_core|by apply core_ok_rst]|]. case_match.
  - destruct (Z.ltb_spec kMaxFlowControlWindow (conn_send_window st + decode_u32_31 payload)); [by rewrite fatal_core|].
    destruct H as (? & ? & ? & ?). done.
  - destruct (streams st !! sid) as [s|] eqn:E; [|done].
    destruct (Z.ltb_spec kMaxFlowControlWindow (send_window s + decode_u32_31 payload)); [by apply core_ok_rst|].
    apply (core_ok_put g st sid); [done| |by rewrite E]. pose proof H as (_ & Hs & _).
    apply (map_Forall_lookup_1 _ _ _ _ Hs) in E as (? & ? & ? & ? & ? & ?). unfold stream_ok. cbn. split_and!; lia || done.
Qed.

Lemma handle_frame_ok g type flags sid payload st : core_ok g (core st) -> #payload <= kMaxFrameSizeDefault ->
  core_ok g (core (handle_frame handler write_fails type flags sid payload st)).
Proof.
  intros H Hp. unfold handle_frame. repeat (case_match; [try done|]); [..|done].
  - unfold handle_settings. repeat case_match; rewrite ?fatal_core, ?write_frame_core; try done.
    destruct H as (? & ? & ? & ? & ?). cbn [core core_ok set_peer_settings streams conn_send_window peer_settings].
    split_and!; try done. by apply parse_into_frame_size.
  - unfold handle_ping. repeat case_match; by rewrite ?fatal_core, ?write_frame_core.
  - by apply handle_window_update_ok.
  - unfold handle_rst_stream. repeat case_match; rewrite ?fatal_core; try done. by apply core_ok_erase.
  - unfold handle_goaway. rewrite h2_close_after_flush_core. by rewrite <- (send_goaway_core 0 st) in H.
  - by apply handle_headers_ok.
  - by apply handle_continuation_ok.
  - by apply handle_data_ok.
Qed.

Definition conn_inv (g : Z) (st : H2) : Prop :=
  rx_ok st /\ (phase st = FramePayload -> cur_length (cur st) <= kMaxFrameSizeDefault) /\
  exists o, core_ok (g, o) (core st) /\ (phase st = Preface \/ o = advertised).

Lemma core_ok_ext g c st : core st = c -> core_ok g c -> core_ok g (core st).
Proof. by intros ->. Qed.

Lemma h2_process_step_inv g st st' : conn_inv g st -> process_step handler write_fails st = inl st' -> conn_inv g st'.
Proof.
  intros (Hrx & Hcur & o & Hc & Ho) E.
  destruct (process_step_progress _ _ _ _ Hrx E) as [Hrx' _]. split; [done|]. unfold process_step in E.
  destruct (closing st || negb (conn_open st)); [done|]. destruct (phase st) eqn:Ep.
  - destruct (_ <? _)%nat; [done|]. destruct (negb _); [done|]. injection E as <-. split; [done|].
    exists advertised. split; [|by right]. cbn [core set_phase]. set (st1 := set_our_settings _ _).
    eapply core_ok_ext; [apply (write_frame_core (build_settings_frame (our_settings st1) false) st1)|].
    destruct Hc as (? & ? & ? & ? & [= Hg _]). cbn. split_and!; try done. by rewrite Hg.
  - destruct (_ <? _)%nat; [done|]. cbv zeta in E. destruct (Z.ltb_spec (max_frame_size (our_settings st))
      (cur_length (parse_frame_header (buffer st)))) as [|Hle]; cbn [our_settings set_buffer] in E.
    { rewrite (proj2 (Z.ltb_lt _ _)) in E by done. done. }
    rewrite (proj2 (Z.ltb_ge _ _)) in E by done. destruct Ho as [Ho| ->]; [done|]. destruct (_ =? 0).
    + injection E as <-. set (st1 := set_buffer _ _).
      pose proof (rx_neutral_keeps _ st1 (handle_frame_rx handler write_fails (cur_type (parse_frame_header (buffer st)))
        (cur_flags (parse_frame_header (buffer st))) (cur_stream_id (parse_frame_header (buffer st))) [])) as [= _ Hp _].
      rewrite Ep in Hp. rewrite Hp. split; [done|]. exists advertised. split; [|by right].
      apply handle_frame_ok; [done|cbn; unfold kMaxFrameSizeDefault; lia].
    + injection E as <-. split; [|exists advertised; by split; [|right]]. intros _. cbn.
      destruct Hc as (_ & _ & _ & _ & [= _ Hos]). rewrite Hos in Hle. done.
  - destruct (_ <? _); [done|]. cbv zeta in E. injection E as <-. destruct Ho as [Ho| ->]; [done|].
    set (st1 := set_phase FrameHeaderPhase _). set (p := take _ _).
    pose proof (rx_neutral_keeps _ st1 (handle_frame_rx handler write_fails (cur_type (cur st)) (cur_flags (cur st))
      (cur_stream_id (cur st)) p)) as Hk. apply (f_equal (fun x => x.1.2)) in Hk. cbn [fst snd rx_of] in Hk.
    rewrite Hk. split; [done|]. exists advertised. split; [|by right]. apply handle_frame_ok.
    + unfold st1. by case_match.
    + unfold p. rewrite length_take. specialize (Hcur eq_refl). destruct Hrx as [_ Hpos]. rewrite Ep in Hpos. specialize (Hpos eq_refl). lia.
Qed.

Lemma process_step_return_inv g st r : conn_inv g st -> process_step handler write_fails st = inr r -> conn_inv g r.
Proof.
  intros (Hrx & Hcur & o & Hc & Ho) E.
  assert (Hrx' : rx_ok r).
  { by eapply process_step_return_ok. }
  split; [done|]. unfold process_step in E. destruct (closing st || negb (conn_open st)); [injection E as <-; by split; [|exists o]|].
  destruct (phase st) eqn:Ep.
  - destruct (_ <? _)%nat; [injection E as <-; split; [by rewrite Ep|exists o; by rewrite Ep]|]. destruct (negb _); [|done].
    injection E as <-. cbn. rewrite Ep. split; [done|]. exists o. split; [|by left]. rewrite deferred_app. cbn. by rewrite Z.add_0_r.
  - destruct (_ <? _)%nat; [injection E as <-; split; [by rewrite Ep|exists o; by rewrite Ep]|]. cbv zeta in E.
    destruct (_ <? _); [|by destruct (_ =? 0)]. injection E as <-. set (st1 := set_buffer _ _).
    pose proof (rx_neutral_keeps _ st1 (fatal_rx write_fails 0x6)) as [= _ Hp _]. rewrite Hp, Ep. split; [done|].
    exists o. split; [by rewrite fatal_core|]. destruct Ho as [Ho|Ho]; [done|by right].
  - destruct (_ <? _); [|done]. injection E as <-. rewrite Ep. split; [done|]. exists o. by split.
Qed.

Lemma h2_on_data_inv g data st st' : conn_inv g st -> bytes_ok data -> on_data handler write_fails data st = Some st' -> conn_inv g st'.
Proof.
  intros ((Hb & Hrx) & Hcur & Hc) Hd. unfold on_data. cbv zeta. set (st1 := set_buffer _ st).
  assert (H1 : conn_inv g st1) by (split; [split; [by apply Forall_app|done]|by split]).
  case_match; [by intros [= <-]|]. apply (loop_post _ (conn_inv g) (conn_inv g)); [..|done].
  - intros s s'. apply h2_process_step_inv.
  - intros s r. apply process_step_return_inv.
Qed.

Lemma h2_on_response_inv g sid r st : conn_inv g st -> conn_inv (g - 1) (on_response_ready write_fails sid r st).
Proof.
  intros (Hrx & Hcur & o & Hc & Ho). pose proof (rx_neutral_keeps _ st (on_response_ready_rx write_fails sid r)) as [= Hb Hp Hcu].
  split; [|split].
  - unfold rx_ok. by rewrite Hb, Hp, Hcu.
  - by rewrite Hp, Hcu.
  - exists o. rewrite Hp, on_response_ready_core. split; [|done]. destruct Hc as (? & ? & ? & ? & [= Hg Hos]).
    cbn. split_and!; try done. rewrite Hos. f_equal. lia.
Qed.

(** ** The log only grows *)

Definition grows (op : H2 -> H2) : Prop := forall st, log st `prefix_of` log (op st).

Lemma write_frame_grows f : grows (write_frame write_fails f).
Proof. intros st. unfold write_frame. repeat case_match; [done| |done]. by apply prefix_app_r. Qed.
Lemma close_after_flush_grows : grows close_after_flush.
Proof. intros st. unfold close_after_flush. case_match; [|done]. by apply prefix_app_r. Qed.
Lemma send_goaway_grows e : grows (send_goaway write_fails e).
Proof. intros st. unfold send_goaway. case_match; [done|]. apply (write_frame_grows _ (set_goaway_sent true st)). Qed.
Lemma fatal_grows e : grows (fatal write_fails e).
Proof.
  intros st. unfold fatal. etrans; [|apply close_after_flush_grows]. apply send_goaway_grows.
Qed.
Lemma rst_stream_grows sid e : grows (rst_stream write_fails sid e).
Proof. intros st. apply write_frame_grows. Qed.
Lemma write_frames_grow fs : grows (fun st => foldl (fun st f => write_frame write_fails f st) st fs).
Proof.
  induction fs as [|f fs IH]; intros st; [done|]. cbn [foldl]. etrans; [apply (write_frame_grows f)|apply IH].
Qed.
Lemma on_response_grows sid r : grows (on_response_ready write_fails sid r).
Proof.
  intros st. unfold on_response_ready. cbv zeta. case_match; [done|].
  apply (write_frames_grow _ (set_active_requests (active_requests st - 1) st)).
Qed.
Lemma handoff_grows s : grows (handoff_request handler write_fails s).
Proof.
  intros st. unfold handoff_request, dispatch_request. cbv zeta. set (st1 := emit_event _ _).
  assert (H1 : log st `prefix_of` log st1) by (by apply prefix_app_r). destruct (handler _) as [[r|] threw].
  - etrans; [exact H1|apply on_response_grows].
  - destruct threw; [|done]. etrans; [exact H1|].
    change (log st1) with (log (set_active_requests (active_requests st1 - 1) st1)). apply write_frame_grows.
Qed.

Ltac grow :=
  lazymatch goal with
  | |- _ `prefix_of` log (fatal _ _ _) => apply fatal_grows
  | |- _ `prefix_of` log (rst_stream _ _ _ ?s) => etrans; [|apply rst_stream_grows]; grow
  | |- _ `prefix_of` log (write_frame _ _ ?s) => etrans; [|apply write_frame_grows]; grow
  | |- _ `prefix_of` log (close_after_flush ?s) => etrans; [|apply close_after_flush_grows]; grow
  | |- ?l `prefix_of` log (set_closing _ ?s) => change (l `prefix_of` log s); grow
  | |- _ `prefix_of` log (send_goaway _ _ _) => apply send_goaway_grows
  | |- ?l `prefix_of` log (erase_stream _ ?s) => change (l `prefix_of` log s); grow
  | |- ?l `prefix_of` log (put_stream _ _ ?s) => change (l `prefix_of` log s); grow
  | |- _ `prefix_of` log (handoff_request _ _ _ ?s) => etrans; [|apply handoff_grows]; grow
  | |- _ => done
  end.

Lemma handle_frame_grows type flags sid payload : grows (handle_frame handler write_fails type flags sid payload).
Proof.
  intros st. unfold handle_frame, handle_settings, handle_ping, handle_window_update, handle_rst_stream, handle_goaway,
    handle_headers, handle_continuation, handle_data. cbv zeta.
  repeat (case_match; try grow).
Qed.

(** The connection's life: bytes arrive, deferred responses are completed
    (each once), the socket goes away.  [k] counts the completions. *)
Inductive reach : H2 -> nat -> Prop :=
  | reach_new : reach new_conn 0
  | reach_data st k data st' : reach st k -> bytes_ok data -> on_data handler write_fails data st = Some st' -> reach st' k
  | reach_response st k sid r : reach st k -> Z.of_nat k < deferred (log st) ->
      reach (on_response_ready write_fails sid r st) (S k)
  | reach_closed st k : reach st k -> reach (on_closed st) k.

Lemma h2_reach_inv st k : reach st k -> conn_inv (- Z.of_nat k) st.
Proof.
  induction 1 as [|st k data st' _ IH Hd E|st k sid r _ IH Hk|st k _ IH].
  - split; [split; [constructor|done]|]. split; [done|]. exists default_settings. split; [|by left]. cbn.
    unfold kMaxConcurrentStreams, kMaxFlowControlWindow, kInitialWindow. rewrite map_size_empty. split_and!; lia || done.
  - by eapply h2_on_data_inv.
  - replace (- Z.of_nat (S k)) with (- Z.of_nat k - 1) by lia. by apply h2_on_response_inv.
  - destruct IH as ([? ?] & ? & o & ? & ?). split; [by split|]. split; [done|]. by exists o.
Qed.

Lemma prefix_deferred l l' : l `prefix_of` l' -> deferred l <= deferred l'.
Proof. intros [k ->]. unfold deferred. rewrite deferred_from_app. pose proof (deferred_from_nonneg k ([] ++ l)). lia. Qed.

Lemma process_step_grows st : match process_step handler write_fails st with
  inl st' => log st `prefix_of` log st' | inr st' => log st `prefix_of` log st' end.
Proof.
  unfold process_step. destruct (closing st || negb (conn_open st)); [done|]. destruct (phase st).
  - destruct (_ <? _)%nat; [done|]. destruct (negb _); [by apply prefix_app_r|].
    apply (write_frame_grows (build_settings_frame advertised false) (set_our_settings advertised (set_buffer (drop CONNECTION_PREFACE_LEN (buffer st)) st))).
  - destruct (_ <? _)%nat; [done|]. cbv zeta. destruct (_ <? _); [apply (fatal_grows _ (set_buffer (drop 9 (buffer st)) st))|].
    destruct (_ =? 0); [|done]. apply (handle_frame_grows _ _ _ _ (set_buffer (drop 9 (buffer st)) st)).
  - destruct (_ <? _); [done|]. cbv zeta. etrans; [|apply handle_frame_grows]. by destruct (_ =? DATA).
Qed.

Lemma on_data_grows data st st' : on_data handler write_fails data st = Some st' -> log st `prefix_of` log st'.
Proof.
  unfold on_data. cbv zeta. set (st1 := set_buffer _ st). change (log st) with (log st1).
  case_match; [by intros [= <-]|]. unfold try_process.
  apply (loop_post _ (fun s => log st1 `prefix_of` log s) (fun s => log st1 `prefix_of` log s)); [..|done].
  - intros s s' Hs E. pose proof (process_step_grows s) as Hg. rewrite E in Hg. by etrans.
  - intros s s' Hs E. pose proof (process_step_grows s) as Hg. rewrite E in Hg. by etrans.
Qed.

Lemma reach_completions st k : reach st k -> Z.of_nat k <= deferred (log st).
Proof.
  induction 1 as [|st k data st' _ IH Hd E|st k sid r _ IH Hk|st k _ IH]; [done| | |done].
  - apply on_data_grows, prefix_deferred in E. lia.
  - pose proof (prefix_deferred _ _ (on_response_grows sid r st)). lia.
Qed.
End Invariant.

(** ** Properties *)

(** Bytes arriving in pieces. *)
Definition feed (handler : list Event -> Req -> option Response * bool) (write_fails : nat -> bool) (chunks : list bytes) (st : H2) : option H2 :=
  @bm_feed H2 (h2_machine handler write_fails) chunks st.

(** What ends a stretch of reads: a deferred response is completed, or the
    socket goes away. *)
Inductive Pause := Completed (sid : Z) (r : Response) | SocketGone.

Definition pause (write_fails : nat -> bool) (p : Pause) (st : H2) : H2 :=
  match p with Completed sid r => on_response_ready write_fails sid r st | SocketGone => on_closed st end.

(** A history: the reads before each pause, and those after the last. *)
Fixpoint history (handler : list Event -> Req -> option Response * bool) (write_fails : nat -> bool) (hs : list (list bytes * Pause)) (last : list bytes) (st : H2) : option H2 :=
  match hs with
  | [] => feed handler write_fails last st
  | (chunks, p) :: hs => st ← feed handler write_fails chunks st; history handler write_fails hs last (pause write_fails p st)
  end.

(** Nothing happens before more bytes arrive. *)
Definition waiting (st : H2) : Prop :=
  closing st = true \/ conn_open st = false \/
  match phase st with
  | Preface => (length (buffer st) < CONNECTION_PREFACE_LEN)%nat
  | FrameHeaderPhase => (length (buffer st) < 9)%nat
  | FramePayload => #(buffer st) < cur_length (cur st)
  end.

Section Histories.
Context (handler : list Event -> Req -> option Response * bool) (write_fails : nat -> bool).
Abbreviation process_step := (process_step handler write_fails).
Abbreviation feed := (feed handler write_fails).
Abbreviation history := (history handler write_fails).
Abbreviation pause := (pause write_fails).

Lemma waiting_step st : waiting st -> process_step st = inr st.
Proof.
  intros H. unfold Http2Server.process_step. destruct (closing st) eqn:Ec; [done|]. destruct (conn_open st) eqn:Eo; [|done]. cbn [orb negb]. destruct H as [?|[?|H]]; [congruence..|].
  destruct (phase st); [by rewrite (proj2 (Nat.ltb_lt _ _))|by rewrite (proj2 (Nat.ltb_lt _ _))|by rewrite (proj2 (Z.ltb_lt _ _))].
Qed.

Lemma return_waiting st r : process_step st = inr r -> waiting r.
Proof.
  unfold Http2Server.process_step. destruct (closing st) eqn:Ec; [intros [= <-]; by left|]. destruct (conn_open st) eqn:Eo; [|intros [= <-]; by right; left]. cbn [orb negb]. destruct (phase st) eqn:Ep.
  - destruct (Nat.ltb_spec (length (buffer st)) CONNECTION_PREFACE_LEN); [intros [= <-]; right; right; by rewrite Ep|]. destruct (negb _); [|done]. intros [= <-]. by left.
  - destruct (Nat.ltb_spec (length (buffer st)) 9); [intros [= <-]; right; right; by rewrite Ep|]. cbv zeta. destruct (_ <? _); [|by destruct (_ =? _)]. intros [= <-]. left. unfold fatal, close_after_flush. by case_match.
  - destruct (Z.ltb_spec (#(buffer st)) (cur_length (cur st))); [intros [= <-]; right; right; by rewrite Ep|done].
Qed.

Lemma waiting_idle st : waiting st -> on_data handler write_fails [] st = Some st.
Proof.
  intros H. unfold on_data. cbv zeta. replace (set_buffer (buffer st ++ []) st) with st by (rewrite app_nil_r; by destruct st). destruct (closing st); [done|]. unfold try_process. cbn [loop]. by rewrite waiting_step.
Qed.

Lemma on_data_waiting data st st' : on_data handler write_fails data st = Some st' -> waiting st'.
Proof.
  unfold on_data. cbv zeta. destruct (closing _) eqn:Ec; [intros [= <-]; by left|]. unfold try_process. apply (loop_post _ (fun _ => True) waiting); [done| |done]. intros s r _. apply return_waiting.
Qed.

Lemma feed_waiting chunks : forall st st', waiting st -> feed chunks st = Some st' -> waiting st'.
Proof.
  induction chunks as [|c cs IH]; intros st st' Hw E; cbn in E; [by injection E as <-|]. apply bind_Some in E as (s1 & E1 & E). eapply IH; [|exact E]. eapply (on_data_waiting c st). exact E1.
Qed.

Lemma pause_waiting p st : waiting st -> waiting (pause p st).
Proof.
  intros H. destruct p as [sid r|]; [|by left]. cbn [Http2Server.pause]. pose proof (rx_neutral_keeps _ st (on_response_ready_rx write_fails sid r)) as Hk. unfold rx_of in Hk. injection Hk as H1 H2 H3.
  unfold waiting. rewrite H1, H2, H3. unfold on_response_ready. cbv zeta. cbn [conn_open closing set_active_requests]. destruct (negb (conn_open st) || closing st) eqn:E; [done|].
  apply orb_false_iff in E as [E1 E2]. apply negb_false_iff in E1. destruct H as [?|[?|?]]; [congruence..|by right; right].
Qed.

Lemma pause_rx_ok p st : rx_ok st -> rx_ok (pause p st).
Proof.
  intros H. destruct p as [sid r|]; [|exact H]. cbn [Http2Server.pause]. pose proof (rx_neutral_keeps _ st (on_response_ready_rx write_fails sid r)) as Hk. unfold rx_of in Hk. injection Hk as H1 H2 H3. unfold rx_ok. by rewrite H1, H2, H3.
Qed.

Lemma feed_whole chunks st : waiting st -> rx_ok st -> Forall bytes_ok chunks -> exists st', feed chunks st = Some st' /\ feed [concat chunks] st = Some st' /\ waiting st' /\ rx_ok st'.
Proof.
  intros Hw Hr Hc. destruct (@bm_chunking H2 (h2_machine handler write_fails) (h2_machine_laws handler write_fails) st chunks (waiting_idle st Hw)) as (st' & Hf & Ho & Hok).
  - apply rx_ok_push; [done|by apply Forall_concat].
  - exists st'. split; [exact Hf|]. split; [unfold Http2Server.feed; cbn [bm_feed]; rewrite Ho; done|]. split; [by eapply feed_waiting|exact Hok].
Qed.
End Histories.

(** C37: However the network splits the client's bytes into reads, the
    connection ends in the same state, having written the same frames and
    dispatched the same requests in the same order.  A connection's history is
    any sequence of bytes that arrive, deferred responses that are completed
    and the loss of the socket; what arrives between two of these may come in
    any pieces (in which reads it comes relative to them does matter, for
    instance to a response completed before or after the peer's GOAWAY was
    read).  Processing always terminates.  The handler may answer at once, later
    or never, depending on everything that has happened, or throw; writes may
    fail in any pattern. *)
Theorem h2_chunking handler write_fails hs last : Forall (fun h => Forall bytes_ok h.1) hs -> Forall bytes_ok last ->
  exists st, history handler write_fails hs last new_conn = Some st /\
             history handler write_fails ((fun h => ([concat h.1], h.2)) <$> hs) [concat last] new_conn = Some st.
Proof.
  intros Hh Hl. assert (Hn : waiting new_conn /\ rx_ok new_conn) by (split; [right; right; vm_compute; lia|split; [constructor|done]]). destruct Hn as [Hw Hr]. revert Hw Hr. generalize new_conn.
  induction Hh as [|[chunks p] hs Hc Hh IH]; intros st Hw Hr; cbn [history fmap list_fmap fst snd] in *.
  - destruct (feed_whole handler write_fails last st Hw Hr Hl) as (st' & E1 & E2 & _). by exists st'.
  - destruct (feed_whole handler write_fails chunks st Hw Hr Hc) as (st' & E1 & E2 & Hw' & Hr'). rewrite E1, E2. cbn [mbind option_bind]. apply IH; [by apply pause_waiting|by apply pause_rx_ok].
Qed.

(** A handler that answers every request at once with an empty 200. *)
Definition ok_handler (es : list Event) (r : Req) : option Response * bool := (Some (mkResponse 0 200 [] []), false).
Definition never (k : nat) : bool := false.

(** A client's opening: the preface and a GET request on stream 1. *)
Definition get_request : bytes :=
  CONNECTION_PREFACE ++ frame_serialize (mkFrame 3 HEADERS 0x5 1 [0x82; 0x84; 0x86]).

(** The answer to the request is completed later; the client's GOAWAY comes
    after it. *)
Definition late_handler (es : list Event) (r : Req) : option Response * bool := (None, false).
Definition goaway_bytes : bytes := frame_serialize (build_goaway_frame 0 0).

Lemma h2_chunking_witness : exists st,
  history late_handler never [([take 10 get_request; drop 10 get_request], Completed 1 (mkResponse 1 200 [] []))] [take 3 goaway_bytes; drop 3 goaway_bytes] new_conn = Some st /\
  history late_handler never [([get_request], Completed 1 (mkResponse 1 200 [] []))] [goaway_bytes] new_conn = Some st.
Proof.
  destruct (h2_chunking late_handler never [([take 10 get_request; drop 10 get_request], Completed 1 (mkResponse 1 200 [] []))] [take 3 goaway_bytes; drop 3 goaway_bytes]) as (st & H1 & H2).
  - constructor; [|constructor]. cbn [fst]. apply (bool_decide_unpack _). vm_compute. exact I.
  - apply (bool_decide_unpack _). vm_compute. exact I.
  - exists st. split; [exact H1|exact H2].
Defined.

(** In every reachable state of a connection the memory a peer can make
    the server hold is bounded: at most 100 streams, each with a header
    block of at most 64 KiB and a body of at most 64 MiB; send windows never
    exceed 2^31-1, and the peer's frame size stays in its legal range. *)
Theorem h2_resource_bounds handler write_fails st k : reach handler write_fails st k ->
  Z.of_nat (size (streams st)) <= kMaxConcurrentStreams /\ map_Forall stream_ok (streams st) /\
  conn_send_window st <= kMaxFlowControlWindow /\ frame_size_ok (max_frame_size (peer_settings st)) = true.
Proof. intros (_ & _ & o & (? & ? & ? & ? & _) & _)%h2_reach_inv. done. Qed.

Lemma reach_example : exists st, reach ok_handler never st 0 /\ on_data ok_handler never get_request new_conn = Some st.
Proof.
  destruct (on_data_total ok_handler never new_conn get_request) as (st & E & _); [split; [constructor|done]| |].
  - apply (bool_decide_unpack _). vm_compute. exact I.
  - exists st. split; [|exact E]. eapply reach_data; [apply reach_new| |exact E].
    apply (bool_decide_unpack _). vm_compute. exact I.
Defined.

Lemma h2_resource_bounds_witness : exists st, on_data ok_handler never get_request new_conn = Some st /\
  Z.of_nat (size (streams st)) <= kMaxConcurrentStreams.
Proof.
  destruct reach_example as (st & Hr & E). exists st. split; [exact E|].
  apply (h2_resource_bounds ok_handler never st 0 Hr).
Defined.

(** The active-request gauge of a connection is exact: in every reachable
    state it equals the number of requests handed to the application whose
    response is still outstanding, so it never goes negative and returns to
    zero. *)
Theorem h2_active_requests handler write_fails st k : reach handler write_fails st k ->
  active_requests st = deferred handler (log st) - Z.of_nat k /\ 0 <= active_requests st.
Proof.
  intros H. assert (E : active_requests st = deferred handler (log st) - Z.of_nat k).
  { apply h2_reach_inv in H as (_ & _ & o & (_ & _ & _ & _ & [= Hg _]) & _). lia. }
  split; [done|]. rewrite E. pose proof (reach_completions _ _ _ _ H). lia.
Qed.

Lemma h2_active_requests_witness : exists st, on_data ok_handler never get_request new_conn = Some st /\ 0 <= active_requests st.
Proof.
  destruct reach_example as (st & Hr & E). exists st. split; [exact E|].
  apply (h2_active_requests ok_handler never st 0 Hr).
Defined.

(** ** Delivery of a request *)

Definition quiet (st : H2) : Prop := closing st = false /\ conn_open st = true.

Lemma write_frame_never f st : conn_open st = true ->
  write_frame never f st = emit_event (Wrote f) (set_writes (S (writes st)) st).
Proof. intros H. unfold write_frame. by rewrite H. Qed.

Lemma write_frames_never fs : forall st, quiet st ->
  quiet (foldl (fun st f => write_frame never f st) st fs) /\
  log (foldl (fun st f => write_frame never f st) st fs) = log st ++ (Wrote <$> fs) /\
  conn_send_window (foldl (fun st f => write_frame never f st) st fs) = conn_send_window st /\
  streams (foldl (fun st f => write_frame never f st) st fs) = streams st.
Proof.
  induction fs as [|f fs IH]; intros st Hq; cbn [foldl fmap list_fmap]; [by rewrite app_nil_r|].
  destruct Hq as [Hc Ho]. rewrite write_frame_never by done.
  destruct (IH (emit_event (Wrote f) (set_writes (S (writes st)) st))) as (Hq & Hl & Hw & Hs); [done|].
  rewrite Hl, Hw, Hs. split; [done|]. split; [|done]. cbn. by rewrite <- app_assoc.
Qed.

Lemma on_response_never sid r st : quiet st -> quiet (on_response_ready never sid r st).
Proof.
  intros Hq. unfold on_response_ready. cbv zeta. case_match; [done|]. by apply write_frames_never.
Qed.

Lemma handoff_never handler s st : quiet st ->
  quiet (handoff_request handler never s st) /\
  exists rest, log (handoff_request handler never s st) =
    log st ++ Dispatched (mkReq (s_id s) (default [] (s_headers s !! str ":method"))
      (default [] (s_headers s !! str ":path")) (s_headers s) (s_body s)) :: rest.
Proof.
  intros Hq. split.
  - unfold handoff_request, dispatch_request. cbv zeta. destruct (handler _ _) as [[r|] []]; try done.
    + by apply on_response_never.
    + by apply on_response_never.
    + destruct Hq as [? ?]. by rewrite write_frame_never.
  - unfold handoff_request, dispatch_request. cbv zeta. set (st1 := emit_event _ _). destruct (handler _ _) as [[r|] threw].
    + destruct (on_response_grows never (s_id s) r st1) as [k Hk]. exists k. cbn [rq_stream_id]. rewrite Hk. cbn. by rewrite <- app_assoc.
    + destruct threw; [|exists []; done]. 
      destruct (write_frame_grows never (build_rst_stream_frame (s_id s) 2) (set_active_requests (active_requests st1 - 1) st1)) as [k Hk].
      exists k. cbn [rq_stream_id]. rewrite Hk. cbn. by rewrite <- app_assoc.
Qed.

Lemma erase_quiet sid st : quiet st -> quiet (erase_stream sid st).
Proof. done. Qed.

(** A complete HEADERS frame on a fresh stream is dispatched. *)
Lemma headers_dispatched handler sid payload st block :
  quiet st -> streams st = ∅ -> sid <> 0 -> header_fragment 5 payload = Some block ->
  let hs := default ∅ (decode_headers block) in
  let st' := handle_frame handler never HEADERS 5 sid payload st in
  quiet st' /\ exists rest, log st' =
    log st ++ Dispatched (mkReq sid (default [] (hs !! str ":method")) (default [] (hs !! str ":path")) hs []) :: rest.
Proof.
  intros Hq Hs Hsid Hf. cbv zeta. unfold handle_frame. cbn [Z.eqb Pos.eqb HEADERS SETTINGS PING WINDOW_UPDATE RST_STREAM GOAWAY].
  unfold handle_headers. rewrite (proj2 (Z.eqb_neq sid 0)), Hs, lookup_empty, map_size_empty by done. cbn [default]. cbv zeta.
  replace (bool_decide _ && _) with false by (rewrite andb_false_r; done). rewrite Hf.
  change (negb (5 .& END_HEADERS =? 0)) with true. change (negb (5 .& END_STREAM =? 0)) with true. cbv iota.
  set (s := decode_block _). destruct (handoff_never handler s (put_stream sid s st) Hq) as [Hq' [rest Hl]].
  split; [done|]. exists rest. exact Hl.
Qed.

Lemma parse_header_serialize f : frame_ok f ->
  parse_frame_header (frame_serialize f) = mkHeader (#(payload f)) (frame_type f) (flags f) (frame_stream_id f).
Proof.
  intros (Hlen & Hmax & Ht & Hf & Hs). unfold parse_frame_header. f_equal.
  - unfold frame_serialize. rewrite decode24_encode; lia.
  - change (drop 5 (frame_serialize f)) with (encode_uint32_be (frame_stream_id f .& 0x7FFFFFFF) ++ payload f).
    rewrite (land31 (frame_stream_id f)) by done. rewrite decode32_encode by lia. by apply land31.
Qed.

Definition ready (st : H2) : Prop := quiet st /\ phase st = FrameHeaderPhase /\ our_settings st = advertised.

(** The preface moves a new connection to the frame phase. *)
Lemma preface_step handler rest : process_step handler never (set_buffer (CONNECTION_PREFACE ++ rest) new_conn) =
  inl (set_writes 1 (set_phase FrameHeaderPhase (set_our_settings advertised (set_log [Wrote (build_settings_frame advertised false)]
    (set_buffer rest new_conn))))).
Proof.
  unfold process_step. cbn [closing conn_open phase set_buffer new_conn buffer orb negb].
  rewrite length_app. replace (length CONNECTION_PREFACE + length rest <? CONNECTION_PREFACE_LEN)%nat with false.
  2: { symmetry. apply Nat.ltb_ge. unfold CONNECTION_PREFACE_LEN. change (length CONNECTION_PREFACE) with 24%nat. lia. }
  change CONNECTION_PREFACE_LEN with (length CONNECTION_PREFACE). rewrite take_app_length, drop_app_length.
  rewrite bool_decide_eq_true_2 by done. done.
Qed.

(** Reading the header of a frame, then its payload. *)
Lemma frame_steps handler f st : ready st -> buffer st = frame_serialize f -> frame_ok f -> 0 < #(payload f) ->
  exists st1, process_step handler never st = inl st1 /\
    process_step handler never st1 = inl (handle_frame handler never (frame_type f) (flags f) (frame_stream_id f) (payload f)
      (set_cur (mkHeader (#(payload f)) (frame_type f) (flags f) (frame_stream_id f))
        (set_buffer [] (if frame_type f =? DATA then set_conn_recv_window (conn_recv_window st - #(payload f)) st else st)))).
Proof.
  intros ([Hc Ho] & Hp & Hos) Hb Hok Hpos.
  set (h := mkHeader (#(payload f)) (frame_type f) (flags f) (frame_stream_id f)).
  exists (set_phase FramePayload (set_cur h (set_buffer (payload f) st))). split.
  - unfold process_step. rewrite Hc, Ho, Hp, Hb, length_frame_serialize. cbn [orb negb].
    rewrite (proj2 (Nat.ltb_ge _ _)) by lia. cbv zeta. rewrite parse_header_serialize by done. fold h.
    cbn [our_settings set_buffer]. rewrite Hos. destruct Hok as (_ & Hmax & _).
    rewrite (proj2 (Z.ltb_ge _ _)) by (cbn; unfold kMaxFrameSizeDefault; lia).
    rewrite (proj2 (Z.eqb_neq _ _)) by (cbn; lia). done.
  - unfold process_step. cbn [closing conn_open phase set_phase set_cur set_buffer buffer cur]. rewrite Hc, Ho. cbn [orb negb].
    cbn [cur_length cur_type cur_flags cur_stream_id h]. rewrite Z.ltb_irrefl. cbv zeta. rewrite Nat2Z.id, firstn_all2, drop_ge by lia.
    do 2 f_equal. destruct st. cbn in *. subst. by destruct (_ =? DATA).
Qed.

(** A request sent by a client reaches the application: after the
    connection preface and one HEADERS frame, the server has written its
    SETTINGS and dispatched exactly the request whose headers were encoded,
    with its method and path, and nothing before it. *)
Theorem h2_request_delivered handler rq sid :
  let f := build_headers_frame_request rq sid true true in
  let m : gmap bytes bytes := list_to_map (sanitize_http2_headers (req_headers rq)) in
  header_sizes (req_headers rq) -> NoDup (req_headers rq).*1 -> 0 < sid < 2 ^ 31 -> 0 < #(payload f) <= 16384 ->
  exists st rest, on_data handler never (CONNECTION_PREFACE ++ frame_serialize f) new_conn = Some st /\
    log st = Wrote (build_settings_frame advertised false) ::
      Dispatched (mkReq sid (default [] (m !! str ":method")) (default [] (m !! str ":path")) m []) :: rest.
Proof.
  intros f m Hsz Hnd Hsid Hp. unfold on_data. cbn [closing set_buffer new_conn buffer app].
  change (mkH2 (CONNECTION_PREFACE ++ frame_serialize f) Preface false (mkHeader 0 0 0 0) default_settings default_settings
    kInitialWindow kInitialWindow 0 false ∅ true 0 0 []) with (set_buffer (CONNECTION_PREFACE ++ frame_serialize f) new_conn).
  set (st1 := set_writes 1 (set_phase FrameHeaderPhase (set_our_settings advertised (set_log [Wrote (build_settings_frame advertised false)]
    (set_buffer (frame_serialize f) new_conn))))).
  assert (Hok : frame_ok f).
  { unfold frame_ok. change (frame_length f) with (u32 (#(payload f))). rewrite u32_small by lia.
    change (frame_stream_id f) with sid. split_and!; done || lia. }
  destruct (frame_steps handler f st1 ltac:(done) ltac:(done) Hok ltac:(lia)) as (st2 & Hs1 & Hs2).
  set (st2' := set_cur _ _) in Hs2.
  destruct (headers_dispatched handler sid (payload f) st2' (payload f) ltac:(done) ltac:(done) ltac:(lia)) as ([Hcl Hop] & rest & Hl).
  { unfold header_fragment, strip_padding. change (5 .& PADDED) with 0. change (5 .& PRIORITY) with 0. cbn [Z.eqb negb].
    by destruct (payload f). }
  change (handle_frame handler never (frame_type f) (flags f) (frame_stream_id f) (payload f) st2')
    with (handle_frame handler never HEADERS 5 sid (payload f) st2') in Hs2.
  set (st3 := handle_frame handler never HEADERS 5 sid (payload f) st2') in *. exists st3, rest. split.
  - unfold try_process. apply (loop_mono _ 4).
    + cbn [loop]. rewrite preface_step. fold st1. rewrite Hs1, Hs2. unfold process_step. rewrite Hcl, Hop. cbn [orb negb].
      pose proof (rx_neutral_keeps _ st2' (handle_frame_rx handler never HEADERS 5 sid (payload f))) as Hk.
      fold st3 in Hk. unfold rx_of in Hk. assert (Hb : buffer st3 = []) by exact (f_equal (fun x => x.1.1) Hk).
      assert (Hph : phase st3 = FrameHeaderPhase) by exact (f_equal (fun x => x.1.2) Hk). rewrite Hb, Hph. done.
    + cbn [buffer set_buffer]. rewrite length_app. change (length CONNECTION_PREFACE) with 24%nat. lia.
  - rewrite Hl. assert (Hd : decode_headers (payload f) = Some m).
    { unfold f, m. cbn [payload build_headers_frame_request]. apply decode_encode_headers; [by apply sanitize_fields|by apply sanitize_keys]. }
    rewrite Hd. done.
Qed.

Lemma h2_request_delivered_witness : exists st rest,
  on_data ok_handler never (CONNECTION_PREFACE ++ frame_serialize (build_headers_frame_request
    (mkRequest 1 [] [] [(str ":method", str "GET"); (str ":path", str "/x"); (str "host", str "a")]) 1 true true)) new_conn = Some st /\
  log st = Wrote (build_settings_frame advertised false) ::
    Dispatched (mkReq 1 (str "GET") (str "/x") (list_to_map [(str ":method", str "GET"); (str ":path", str "/x"); (str "host", str "a")]) []) :: rest.
Proof.
  apply (h2_request_delivered ok_handler (mkRequest 1 [] [] [(str ":method", str "GET"); (str ":path", str "/x"); (str "host", str "a")]) 1).
  - repeat constructor; vm_compute; congruence.
  - apply (bool_decide_unpack _). vm_compute. exact I.
  - lia.
  - vm_compute. split; congruence.
Defined.

(** ** Behaviour that departs from the protocol *)

(** A second HEADERS block of a request (its trailers) replaces the
    request's headers: the dispatched request has the trailers' map alone, so
    its method and path are lost, whatever headers the stream had. *)
Theorem h2_trailers_replace_headers handler st s sid payload block :
  quiet st -> sid <> 0 -> streams st !! sid = Some s -> header_fragment 5 payload = Some block ->
  let hs := default ∅ (decode_headers block) in
  exists rest, log (handle_frame handler never HEADERS 5 sid payload st) =
    log st ++ Dispatched (mkReq sid (default [] (hs !! str ":method")) (default [] (hs !! str ":path")) hs (s_body s)) :: rest.
Proof.
  intros Hq Hsid Hs Hf. cbv zeta. unfold handle_frame. cbn [Z.eqb Pos.eqb HEADERS SETTINGS PING WINDOW_UPDATE RST_STREAM GOAWAY].
  unfold handle_headers. rewrite (proj2 (Z.eqb_neq sid 0)), Hs by done. cbn [default]. cbv zeta.
  rewrite bool_decide_eq_false_2 by done. cbn [andb]. rewrite Hf.
  change (negb (5 .& END_HEADERS =? 0)) with true. change (negb (5 .& END_STREAM =? 0)) with true. cbv iota.
  set (s' := decode_block _). destruct (handoff_never handler s' (put_stream sid s' st) Hq) as [_ [rest Hl]].
  exists rest. exact Hl.
Qed.

(** A connection in which stream 1 has received its request headers. *)
Definition open_stream : H2 :=
  set_streams {[1 := mkStream 1 true false 65535 65535 {[str ":method" := str "POST"]} [] []]} new_conn.

Lemma h2_trailers_replace_headers_witness : exists rest,
  log (handle_frame ok_handler never HEADERS 5 1 [0x00; 0x01; 0x78; 0x01; 0x79] open_stream) =
  [Dispatched (mkReq 1 [] [] {[str "x" := str "y"]} [])] ++ rest.
Proof.
  destruct (h2_trailers_replace_headers ok_handler open_stream (mkStream 1 true false 65535 65535 {[str ":method" := str "POST"]} [] []) 1
    [0x00; 0x01; 0x78; 0x01; 0x79] [0x00; 0x01; 0x78; 0x01; 0x79]) as [rest E].
  - by split.
  - lia.
  - reflexivity.
  - reflexivity.
  - exists rest. rewrite E. reflexivity.
Defined.

(** Responses ignore flow control: whatever the connection's and the
    stream's send windows, zero and negative ones included, the whole body is
    written at once, and no window is charged for it. *)
Theorem h2_send_window_ignored st sid r : quiet st -> frame_size_ok (max_frame_size (peer_settings st)) = true ->
  exists h ds, log (on_response_ready never sid r st) = log st ++ (Wrote <$> h :: ds) /\
    concat (payload <$> ds) = body r /\ Forall (fun f => frame_type f = DATA /\ frame_stream_id f = sid) ds /\
    conn_send_window (on_response_ready never sid r st) = conn_send_window st /\
    streams (on_response_ready never sid r st) = streams st.
Proof.
  intros Hq Hfs. pose proof Hq as [Hc Ho]. unfold on_response_ready. cbv zeta. set (st1 := set_active_requests _ _).
  change (closing st1) with (closing st). change (conn_open st1) with (conn_open st). rewrite Hc, Ho. cbn [negb orb].
  change (peer_settings st1) with (peer_settings st). unfold frame_size_ok in Hfs.
  rewrite (proj2 (Z.ltb_lt 0 _)) by lia.
  destruct (to_frames_spec (finish_response sid r) (max_frame_size (peer_settings st)) ltac:(lia)) as (ds & -> & Hcat & Hok & _).
  set (h := build_headers_frame_response _ _ _ _). cbn [default].
  destruct (write_frames_never (h :: ds) st1 Hq) as (_ & Hl & Hw & Hs). exists h, ds. split; [exact Hl|]. split; [done|].
  split; [|by split]. eapply Forall_impl; [exact Hok|]. intros f (? & ? & _). by split.
Qed.

Lemma h2_send_window_ignored_witness : exists h ds,
  log (on_response_ready never 1 (mkResponse 1 200 [] [1; 2; 3]) (set_conn_send_window 0 new_conn)) = [] ++ (Wrote <$> h :: ds) /\
  concat (payload <$> ds) = [1; 2; 3].
Proof.
  destruct (h2_send_window_ignored (set_conn_send_window 0 new_conn) 1 (mkResponse 1 200 [] [1; 2; 3])) as (h & ds & E & Hc & _).
  - by split.
  - reflexivity.
  - exists h, ds. split; [exact E|exact Hc].
Defined.

(** A padded frame whose padding takes all the space behind the pad
    length, which is legal and carries no data, is refused: the stream is
    reset with PROTOCOL_ERROR. *)
Theorem h2_full_padding_refused handler st s sid fl pad :
  quiet st -> streams st !! sid = Some s -> headers_received s = true -> fl .& PADDED <> 0 ->
  handle_frame handler never DATA fl sid (#pad :: pad) st = rst_stream never sid 0x1 st.
Proof.
  intros Hq Hs Hr Hfl. unfold handle_frame. cbn [Z.eqb DATA SETTINGS PING WINDOW_UPDATE RST_STREAM GOAWAY HEADERS CONTINUATION].
  unfold handle_data. rewrite Hs, Hr. cbn [negb]. unfold strip_padding. rewrite (proj2 (Z.eqb_neq _ _)) by done. cbn [negb].
  by rewrite Z.leb_refl.
Qed.

Lemma h2_full_padding_refused_witness :
  streams (handle_frame ok_handler never DATA 0x8 1 (#(replicate 2 0) :: replicate 2 0) open_stream) = ∅.
Proof.
  rewrite (h2_full_padding_refused ok_handler open_stream (mkStream 1 true false 65535 65535 {[str ":method" := str "POST"]} [] []) 1 0x8 (replicate 2 0)).
  - reflexivity.
  - by split.
  - reflexivity.
  - reflexivity.
  - discriminate.
Defined.
