(* ===== verification/Buffers.v ===== *)
(** * Buffered connections

    Model of src/reactor/buffered_connection.cpp: the two byte buffers and the
    event-driven connection built on them, in a build without TLS.

    The kernel is an argument: [send k n] and [recv k n] are the results of
    the [k]-th call on a socket with [n] bytes offered, resp. [n] bytes of
    room; that [send] accepts, and [recv] delivers, at least one and at most
    [n] bytes when it succeeds is the hypothesis of the theorems.  The
    application is an argument too: on data it answers with calls on the
    connection.  [log] records what the connection does to the outside. *)
From S2P Require Import Prelude.

Local Open Scope Z_scope.

(** ** InputBuffer *)

Record InputBuffer := mkIn { in_buf : bytes; in_read_pos : nat; in_write_pos : nat }.

Definition new_input : InputBuffer := mkIn [] 0 0.

(** [std::vector::resize]: new elements are zero. *)
Definition resize (l : bytes) (n : nat) : bytes := take n l ++ replicate (n - length l) 0.

(** [memmove] of [n] bytes from [from] to the start. *)
Definition move_to_front (buf : bytes) (from n : nat) : bytes := take n (drop from buf) ++ drop n buf.

Definition prepare (min_capacity : nat) (b : InputBuffer) : InputBuffer :=
  let b := if (0 <? in_read_pos b)%nat && (length (in_buf b) - in_write_pos b <? min_capacity)%nat then
             let remaining := (in_write_pos b - in_read_pos b)%nat in
             mkIn (if (0 <? remaining)%nat then move_to_front (in_buf b) (in_read_pos b) remaining else in_buf b) 0 remaining
           else b in
  if (length (in_buf b) - in_write_pos b <? min_capacity)%nat
  then mkIn (resize (in_buf b) (in_write_pos b + min_capacity)) (in_read_pos b) (in_write_pos b)
  else b.

(** The size of the span [prepare] returned. *)
Definition span_size (b : InputBuffer) : nat := length (in_buf b) - in_write_pos b.

(** The caller's writes into the span: [data] at [write_pos_]. *)
Definition fill (data : bytes) (b : InputBuffer) : InputBuffer :=
  mkIn (take (in_write_pos b) (in_buf b) ++ data ++ drop (in_write_pos b + length data) (in_buf b)) (in_read_pos b) (in_write_pos b).

Definition commit (n : nat) (b : InputBuffer) : InputBuffer := mkIn (in_buf b) (in_read_pos b) (in_write_pos b + n).

Definition consume (n : nat) (b : InputBuffer) : InputBuffer :=
  let r := (in_read_pos b + Nat.min n (in_write_pos b - in_read_pos b))%nat in
  if (r =? in_write_pos b)%nat then mkIn (in_buf b) 0 0 else mkIn (in_buf b) r (in_write_pos b).

(** [data()]. *)
Definition input_data (b : InputBuffer) : bytes := take (in_write_pos b - in_read_pos b) (drop (in_read_pos b) (in_buf b)).

(** ** OutputBuffer *)

Record OutputBuffer := mkOut { out_buf : bytes; out_read_pos : nat }.

Definition new_output : OutputBuffer := mkOut [] 0.

Inductive FlushResult := Flushed | WouldBlock | Error.

Definition pending (b : OutputBuffer) : nat := length (out_buf b) - out_read_pos b.

(** [append(const uint8_t*, size_t)]. *)
Definition append_copy (data : bytes) (b : OutputBuffer) : OutputBuffer :=
  if (length data =? 0)%nat then b else
  let b := if (length (out_buf b) <=? out_read_pos b)%nat then mkOut [] 0 else b in
  mkOut (out_buf b ++ data) (out_read_pos b).

(** [append(std::vector<uint8_t>)]. *)
Definition append (data : bytes) (b : OutputBuffer) : OutputBuffer :=
  if (length data =? 0)%nat then b
  else if (length (out_buf b) <=? out_read_pos b)%nat then mkOut data 0
  else append_copy data b.

(** A socket call: bytes transferred, end of file (zero), a retryable error,
    another error. *)
Inductive IoResult := Bytes (n : nat) | Zero | Again | Failed.

(** ** BufferedConnection *)

Inductive ConnEvent :=
  | RemoveIo
  | CloseFd
  | OnClosed.

(** [interest]: the read and write directions registered with the event loop,
    each of which is dropped when it fires.  [bytes_buffered]: what the
    connection has added to the global gauge.  [wire] and [written] are history:
    what the kernel took and what [write] was given while the connection was
    open. *)
Record Conn := mkConn {
  input : InputBuffer;
  output : OutputBuffer;
  closed : bool;
  write_interest_armed : bool;
  close_after_flush_ : bool;
  interest : bool * bool;
  bytes_buffered : Z;
  sends : nat;
  recvs : nat;
  wire : bytes;
  written : bytes;
  log : list ConnEvent
}.

Definition set_input (v : InputBuffer) (st : Conn) : Conn := mkConn v (output st) (closed st) (write_interest_armed st) (close_after_flush_ st) (interest st) (bytes_buffered st) (sends st) (recvs st) (wire st) (written st) (log st).
Definition set_output (v : OutputBuffer) (st : Conn) : Conn := mkConn (input st) v (closed st) (write_interest_armed st) (close_after_flush_ st) (interest st) (bytes_buffered st) (sends st) (recvs st) (wire st) (written st) (log st).
Definition set_closed (v : bool) (st : Conn) : Conn := mkConn (input st) (output st) v (write_interest_armed st) (close_after_flush_ st) (interest st) (bytes_buffered st) (sends st) (recvs st) (wire st) (written st) (log st).
Definition set_write_interest_armed (v : bool) (st : Conn) : Conn := mkConn (input st) (output st) (closed st) v (close_after_flush_ st) (interest st) (bytes_buffered st) (sends st) (recvs st) (wire st) (written st) (log st).
Definition set_close_after_flush_ (v : bool) (st : Conn) : Conn := mkConn (input st) (output st) (closed st) (write_interest_armed st) v (interest st) (bytes_buffered st) (sends st) (recvs st) (wire st) (written st) (log st).
Definition set_interest (v : bool * bool) (st : Conn) : Conn := mkConn (input st) (output st) (closed st) (write_interest_armed st) (close_after_flush_ st) v (bytes_buffered st) (sends st) (recvs st) (wire st) (written st) (log st).
Definition set_bytes_buffered (v : Z) (st : Conn) : Conn := mkConn (input st) (output st) (closed st) (write_interest_armed st) (close_after_flush_ st) (interest st) v (sends st) (recvs st) (wire st) (written st) (log st).
Definition set_sends (v : nat) (st : Conn) : Conn := mkConn (input st) (output st) (closed st) (write_interest_armed st) (close_after_flush_ st) (interest st) (bytes_buffered st) v (recvs st) (wire st) (written st) (log st).
Definition set_recvs (v : nat) (st : Conn) : Conn := mkConn (input st) (output st) (closed st) (write_interest_armed st) (close_after_flush_ st) (interest st) (bytes_buffered st) (sends st) v (wire st) (written st) (log st).
Definition set_wire (v : bytes) (st : Conn) : Conn := mkConn (input st) (output st) (closed st) (write_interest_armed st) (close_after_flush_ st) (interest st) (bytes_buffered st) (sends st) (recvs st) v (written st) (log st).
Definition set_written (v : bytes) (st : Conn) : Conn := mkConn (input st) (output st) (closed st) (write_interest_armed st) (close_after_flush_ st) (interest st) (bytes_buffered st) (sends st) (recvs st) (wire st) v (log st).
Definition set_log (v : list ConnEvent) (st : Conn) : Conn := mkConn (input st) (output st) (closed st) (write_interest_armed st) (close_after_flush_ st) (interest st) (bytes_buffered st) (sends st) (recvs st) (wire st) (written st) v.

Definition new_conn : Conn := mkConn new_input new_output false false false (false, false) 0 0 0 [] [] [].

(** What the data callback may do with its connection. *)
Inductive Action := Consume (n : nat) | Write (data : bytes) | Close | CloseAfterFlush.

Definition kReadChunk : nat := 4096.

(** [set_io_handler] adds the directions named. *)
Definition set_io_handler (rd wr : bool) (st : Conn) : Conn :=
  set_interest ((interest st).1 || rd, (interest st).2 || wr) st.

Definition adjust_bytes_buffered (delta : Z) (st : Conn) : Conn := set_bytes_buffered (bytes_buffered st + delta) st.

Definition emit (e : ConnEvent) (st : Conn) : Conn := set_log (log st ++ [e]) st.

Section Connection.
Context (send recv : nat -> nat -> IoResult) (recv_data : nat -> bytes).
Context (on_data : bytes -> list Action).

(** One [send] per iteration. *)
Definition flush_step (st : Conn) : Conn + (FlushResult * Conn) :=
  let b := output st in
  if (out_read_pos b <? length (out_buf b))%nat then
    let r := send (sends st) (length (out_buf b) - out_read_pos b) in
    let st := set_sends (S (sends st)) st in
    match r with
    | Bytes n =>
        inl (set_wire (wire st ++ take n (drop (out_read_pos b) (out_buf b)))
               (set_output (mkOut (out_buf b) (out_read_pos b + n)) st))
    | Zero => inr (WouldBlock, st)
    | Again => inr (WouldBlock, st)
    | Failed => inr (Error, st)
    end
  else inr (Flushed, set_output (mkOut [] 0) st).

Definition try_flush (st : Conn) : option (FlushResult * Conn) := loop flush_step (S (pending (output st))) st.

Definition close (st : Conn) : Conn :=
  if closed st then st else
  let st := set_closed true st in
  let st := if (0 <? pending (output st))%nat then adjust_bytes_buffered (- Z.of_nat (pending (output st))) st else st in
  emit OnClosed (emit CloseFd (emit RemoveIo (set_interest (false, false) st))).

Definition close_after_flush (st : Conn) : Conn :=
  if closed st then st
  else if (pending (output st) =? 0)%nat then close st
  else set_close_after_flush_ true st.

Definition report_buffered_delta (before : nat) (st : Conn) : Conn :=
  let delta := Z.of_nat (pending (output st)) - Z.of_nat before in
  if delta =? 0 then st else adjust_bytes_buffered delta st.

Definition arm_write (st : Conn) : Conn :=
  if write_interest_armed st then st else set_io_handler true true (set_write_interest_armed true st).

Definition write (data : bytes) (st : Conn) : option Conn :=
  if closed st || (length data =? 0)%nat then Some st else
  let before := pending (output st) in
  let was_empty := (before =? 0)%nat in
  let st := set_written (written st ++ data) (set_output (append data (output st)) st) in
  if was_empty then
    '(r, st) ← try_flush st;
    match r with
    | Error => Some (close (report_buffered_delta before st))
    | Flushed => Some (report_buffered_delta before st)
    | WouldBlock => Some (report_buffered_delta before (arm_write st))
    end
  else Some (report_buffered_delta before (arm_write st)).

Definition run_action (a : Action) (st : Conn) : option Conn :=
  match a with
  | Consume n => Some (set_input (consume n (input st)) st)
  | Write d => write d st
  | Close => Some (close st)
  | CloseAfterFlush => Some (close_after_flush st)
  end.

Fixpoint run_actions (l : list Action) (st : Conn) : option Conn :=
  match l with
  | [] => Some st
  | a :: l => st ← run_action a st; run_actions l st
  end.

Definition start (st : Conn) : Conn := if closed st then st else set_io_handler true false st.

(** One [recv] per iteration; [None] in the result is the callback out of
    fuel. *)
Definition read_step (st : Conn) : Conn + option Conn :=
  let st := set_input (prepare kReadChunk (input st)) st in
  let k := recvs st in
  let r := recv k (span_size (input st)) in
  let st := set_recvs (S k) st in
  match r with
  | Bytes n =>
      let st := set_input (commit n (fill (take n (recv_data k)) (input st))) st in
      match run_actions (on_data (input_data (input st))) st with
      | None => inr None
      | Some st => if closed st then inr (Some st) else inl st
      end
  | Zero => inr (Some (close st))
  | Again => inr (Some (set_io_handler true (write_interest_armed st) st))
  | Failed => inr (Some (close st))
  end.

(** The loop reads until the socket has nothing left: [fuel] bounds the
    number of reads. *)
Definition on_readable (fuel : nat) (st : Conn) : option Conn :=
  if closed st then Some st else
  match loop read_step fuel st with Some r => r | None => None end.

Definition on_writable (st : Conn) : option Conn :=
  if closed st then Some st else
  let before := pending (output st) in
  '(r, st) ← try_flush st;
  let st := report_buffered_delta before st in
  match r with
  | Error => Some (close st)
  | Flushed =>
      if close_after_flush_ st then Some (close st)
      else Some (set_io_handler true false (set_write_interest_armed false st))
  | WouldBlock => Some (set_io_handler true true st)
  end.

Definition on_error (st : Conn) : Conn := close st.

(** The destructor, when no reference is left. *)
Definition destroy (st : Conn) : Conn := if closed st then st else emit CloseFd (emit RemoveIo st).

End Connection.

(** ** Input buffer lemmas *)

Definition in_wf (b : InputBuffer) : Prop := (in_read_pos b <= in_write_pos b <= length (in_buf b))%nat.

Lemma length_resize l n : length (resize l n) = n.
Proof. unfold resize. rewrite length_app, length_take, length_replicate. lia. Qed.

Lemma take_resize l n k : (k <= length l)%nat -> (length l <= n)%nat -> take k (resize l n) = take k l.
Proof. intros. unfold resize. rewrite take_app_le by (rewrite length_take; lia). rewrite take_take. f_equal. lia. Qed.

Lemma compact_view buf r w : (r <= w <= length buf)%nat ->
  take (w - r) (move_to_front buf r (w - r)) = take (w - r) (drop r buf).
Proof.
  intros H. unfold move_to_front. rewrite take_app_le by (rewrite length_take, length_drop; lia). rewrite take_take. f_equal. lia.
Qed.

Lemma length_move buf r w : (r <= w <= length buf)%nat -> length (move_to_front buf r (w - r)) = length buf.
Proof. intros H. unfold move_to_front. rewrite length_app, length_take, !length_drop. lia. Qed.

(** Compacting and growing keep the unread bytes and make room. *)
Lemma prepare_spec n b : in_wf b ->
  in_wf (prepare n b) /\ input_data (prepare n b) = input_data b /\ (n <= span_size (prepare n b))%nat.
Proof.
  intros Hwf. unfold prepare. cbv zeta.
  set (b1 := if _ && _ then _ else b).
  assert (H1 : in_wf b1 /\ input_data b1 = input_data b).
  { unfold b1. destruct (_ && _); [|done]. unfold in_wf in *. unfold input_data. cbn [in_buf in_read_pos in_write_pos].
    destruct (Nat.ltb_spec 0 (in_write_pos b - in_read_pos b)) as [Hr|Hr].
    - rewrite length_move by done. split; [lia|]. rewrite Nat.sub_0_r. cbn [drop]. by apply compact_view.
    - split; [lia|]. replace (in_write_pos b - in_read_pos b)%nat with 0%nat by lia. done. }
  destruct H1 as [Hwf1 Hd1]. destruct (Nat.ltb_spec (length (in_buf b1) - in_write_pos b1) n) as [Hlt|Hge].
  - unfold in_wf, span_size in *. cbn [in_buf in_read_pos in_write_pos]. rewrite length_resize. split; [lia|]. split; [|lia].
    rewrite <- Hd1. unfold input_data. cbn [in_buf in_read_pos in_write_pos].
    rewrite !firstn_skipn_comm. replace (in_read_pos b1 + (in_write_pos b1 - in_read_pos b1))%nat with (in_write_pos b1) by lia.
    by rewrite take_resize by lia.
  - done.
Qed.

Lemma commit_spec data b : in_wf b -> (length data <= span_size b)%nat ->
  in_wf (commit (length data) (fill data b)) /\ input_data (commit (length data) (fill data b)) = input_data b ++ data.
Proof.
  unfold in_wf, span_size. intros Hwf Hl. destruct b as [buf r w]. unfold input_data, commit, fill. cbn [in_buf in_read_pos in_write_pos] in *.
  rewrite !length_app, length_take, length_drop. split; [lia|]. rewrite drop_app_le by (rewrite length_take; lia).
  rewrite skipn_firstn_comm. rewrite take_app_ge by (rewrite length_take, length_drop; lia). f_equal.
  rewrite length_take, length_drop. rewrite take_app_le by lia. apply firstn_all2. lia.
Qed.

Lemma consume_spec n b : in_wf b -> in_wf (consume n b) /\ input_data (consume n b) = drop n (input_data b).
Proof.
  unfold in_wf, consume, input_data. destruct b as [buf r w]. cbn [in_buf in_read_pos in_write_pos]. intros Hwf. cbv zeta.
  destruct (Nat.eqb_spec (r + n `min` (w - r)) w) as [E|E]; cbn [in_buf in_read_pos in_write_pos].
  - split; [lia|]. rewrite (drop_ge (take _ _)) by (rewrite length_take; lia). done.
  - split; [lia|]. rewrite skipn_firstn_comm, drop_drop. f_equal; [lia|]. f_equal. lia.
Qed.

(** ** Output buffer lemmas *)

Definition out_wf (b : OutputBuffer) : Prop := (out_read_pos b <= length (out_buf b))%nat.
Definition out_view (b : OutputBuffer) : bytes := drop (out_read_pos b) (out_buf b).

Lemma length_out_view b : length (out_view b) = pending b.
Proof. unfold out_view, pending. apply length_drop. Qed.

Lemma append_spec d b : out_wf b -> out_wf (append d b) /\ out_view (append d b) = out_view b ++ d.
Proof.
  unfold out_wf, out_view, append, append_copy. intros Hwf. destruct (Nat.eqb_spec (length d) 0) as [E|E].
  - destruct d; [|done]. by rewrite app_nil_r.
  - cbv zeta. destruct (Nat.leb_spec (length (out_buf b)) (out_read_pos b)); cbn [out_buf out_read_pos].
    + split; [lia|]. rewrite (drop_ge (out_buf b)) by lia. done.
    + rewrite length_app. split; [lia|]. by rewrite drop_app_le.
Qed.

(** ** Connection lemmas *)

Section Proofs.
Context (send recv : nat -> nat -> IoResult) (recv_data : nat -> bytes).
Context (on_data : bytes -> list Action).
(** A successful [send] takes some of the bytes it is offered; a successful
    [recv] delivers some bytes into the room it is offered. *)
Hypothesis send_ok : forall k n m, send k n = Bytes m -> (0 < m <= n)%nat.
Hypothesis recv_ok : forall k n m, recv k n = Bytes m -> (0 < m <= n)%nat /\ (m <= length (recv_data k))%nat.

(** The invariant that holds at every call: buffers well formed, output in
    order, gauge exact, teardown done once. *)
Definition conn_ok (st : Conn) : Prop :=
  in_wf (input st) /\ out_wf (output st) /\ wire st ++ out_view (output st) = written st /\
  bytes_buffered st = (if closed st then 0 else Z.of_nat (pending (output st))) /\
  log st = (if closed st then [RemoveIo; CloseFd; OnClosed] else []).

(** Pending output is never forgotten: write interest is armed, and a close
    that waits for it has something to wait for. *)
Definition waiting_ok (st : Conn) : Prop :=
  closed st = false ->
  ((0 < pending (output st))%nat -> write_interest_armed st = true /\ (interest st).2 = true) /\
  (write_interest_armed st = true -> (0 < pending (output st))%nat) /\
  (close_after_flush_ st = true -> (0 < pending (output st))%nat).

(** What [try_flush] leaves alone. *)
Definition rest_of (st : Conn) := (input st, closed st, write_interest_armed st, close_after_flush_ st, interest st,
  bytes_buffered st, recvs st, written st, log st).

Definition flush_inv (st0 st : Conn) : Prop :=
  out_wf (output st) /\ wire st ++ out_view (output st) = wire st0 ++ out_view (output st0) /\ rest_of st = rest_of st0 /\
  (pending (output st) <= pending (output st0))%nat.

Lemma flush_step_inv st0 st : flush_inv st0 st ->
  match flush_step send st with
  | inl st' => flush_inv st0 st' /\ (pending (output st') < pending (output st))%nat
  | inr (r, st') => flush_inv st0 st' /\ (r = Flushed -> pending (output st') = 0%nat) /\
                    (r = WouldBlock -> (0 < pending (output st'))%nat)
  end.
Proof.
  intros (Hwf & Hw & Hr & Hp). unfold flush_step. cbv zeta. destruct (Nat.ltb_spec (out_read_pos (output st)) (length (out_buf (output st)))) as [Hlt|Hge].
  - assert (Hpos : (0 < pending (output st))%nat) by (unfold pending; lia).
    destruct (send _ _) as [m| | |] eqn:Es; try (split; [done|split; done]).
    apply send_ok in Es. unfold flush_inv, out_wf, out_view, pending in *. cbn [output set_wire set_output wire out_read_pos out_buf].
    split; [|lia]. split; [lia|]. split; [|split; [exact Hr|lia]]. rewrite <- Hw, <- app_assoc. f_equal.
    rewrite <- (take_drop m (drop (out_read_pos (output st)) (out_buf (output st)))) at 2. by rewrite drop_drop.
  - split; [|split; [done|discriminate]]. unfold flush_inv, out_wf, out_view, pending in *. cbn. split; [lia|]. split; [|split; [exact Hr|lia]].
    rewrite <- Hw. by rewrite (drop_ge (out_buf (output st))).
Qed.

Lemma try_flush_spec st : out_wf (output st) -> exists r st', try_flush send st = Some (r, st') /\ flush_inv st st' /\
  (r = Flushed -> pending (output st') = 0%nat) /\ (r = WouldBlock -> (0 < pending (output st'))%nat).
Proof.
  intros Hwf. assert (H0 : flush_inv st st) by (by repeat split).
  assert (Hstep : forall s s', flush_inv st s -> flush_step send s = inl s' -> flush_inv st s' /\ (pending (output s') < pending (output s))%nat).
  { intros s s' Hs E. pose proof (flush_step_inv st s Hs) as H. by rewrite E in H. }
  destruct (loop_total (flush_step send) (flush_inv st) (fun s => pending (output s)) Hstep (S (pending (output st))) st H0)
    as [[r st'] Hl]; [lia|].
  exists r, st'. split; [done|]. revert Hl.
  apply (loop_post _ (flush_inv st) (fun p => flush_inv st p.2 /\ (p.1 = Flushed -> pending (output p.2) = 0%nat) /\
    (p.1 = WouldBlock -> (0 < pending (output p.2))%nat))); [by intros; eapply Hstep| |done].
  intros s [r' s'] Hs E. pose proof (flush_step_inv st s Hs) as H. by rewrite E in H.
Qed.

Lemma report_delta_ok b st : conn_ok (report_buffered_delta b st) <->
  conn_ok (set_bytes_buffered (bytes_buffered st + (Z.of_nat (pending (output st)) - Z.of_nat b)) st).
Proof.
  unfold report_buffered_delta. cbv zeta. destruct (Z.eqb_spec (Z.of_nat (pending (output st)) - Z.of_nat b) 0) as [E|E]; [|done].
  rewrite E, Z.add_0_r. by destruct st.
Qed.

Lemma close_ok st : conn_ok st -> conn_ok (close st) /\ closed (close st) = true /\ written (close st) = written st.
Proof.
  intros (Hi & Ho & Hw & Hb & Hl). unfold close.
  destruct (closed st) eqn:Ec; [unfold conn_ok; rewrite Ec in *; done|].
  cbv zeta. unfold conn_ok. cbn [output set_closed]. destruct (Nat.ltb_spec 0 (pending (output st))); cbn;
    rewrite Hl; cbn; split_and!; try done; lia.
Qed.

Lemma close_waiting st : waiting_ok (close st).
Proof. unfold waiting_ok. intros Hc. exfalso. unfold close in Hc. destruct (closed st) eqn:E; [congruence|]. cbv zeta in Hc. by destruct (_ <? _)%nat. Qed.

(** Closing settles everything: shared by the error paths. *)
Lemma close_settled st : conn_ok st -> conn_ok (close st) /\ waiting_ok (close st).
Proof. intros H. split; [by apply close_ok|apply close_waiting]. Qed.

(** The gauge after a change of the output buffer that is then reported. *)
Lemma report_spec b st : conn_ok (set_bytes_buffered (Z.of_nat (pending (output st))) st) -> closed st = false ->
  bytes_buffered st = Z.of_nat b -> conn_ok (report_buffered_delta b st).
Proof. intros H Hc Hb. apply report_delta_ok. rewrite Hb. by replace (Z.of_nat b + _) with (Z.of_nat (pending (output st))) by lia. Qed.

Lemma report_rest b st : rest_of (report_buffered_delta b st) =
    rest_of (set_bytes_buffered (bytes_buffered (report_buffered_delta b st)) st) /\
  output (report_buffered_delta b st) = output st /\ wire (report_buffered_delta b st) = wire st.
Proof. unfold report_buffered_delta. cbv zeta. by destruct (_ =? 0); destruct st. Qed.

Lemma report_waiting b st : waiting_ok st -> waiting_ok (report_buffered_delta b st).
Proof.
  unfold waiting_ok. destruct (report_rest b st) as ([= _ Hc Ha Hcl Hi _ _ _] & Ho & _). by rewrite Hc, Ho, Ha, Hcl, Hi.
Qed.

Lemma arm_write_spec st : closed st = false ->
  let st' := arm_write st in
  write_interest_armed st' = true /\ rest_of st' = rest_of (set_interest (interest st') (set_write_interest_armed true st)) /\
  output st' = output st /\ wire st' = wire st /\ (write_interest_armed st = false -> (interest st').2 = true) /\
  (write_interest_armed st = true -> interest st' = interest st).
Proof.
  intros Hc. cbv zeta. unfold arm_write. destruct (write_interest_armed st) eqn:Ea.
  - split_and!; try done. destruct st. cbn in *. by subst.
  - cbn. split_and!; try done. intros _. apply orb_true_r.
Qed.

(** The common end of [write]: there is output, so interest is armed. *)
Lemma arm_report st b : closed st = false -> (0 < pending (output st))%nat -> bytes_buffered st = Z.of_nat b ->
  conn_ok (set_bytes_buffered (Z.of_nat (pending (output st))) st) ->
  (write_interest_armed st = true -> (interest st).2 = true) ->
  conn_ok (report_buffered_delta b (arm_write st)) /\ waiting_ok (report_buffered_delta b (arm_write st)).
Proof.
  intros Hc Hp Hb Hok Hint. destruct (arm_write_spec st Hc) as (Ha & Hr & Ho & Hw & H1 & H2). split.
  - apply report_spec.
    + rewrite Ho. unfold conn_ok in *. cbn in *. injection Hr as Ei Ec _ _ _ _ Ewr Elg. by rewrite Ei, Ec, Ewr, Elg, Ho, Hw.
    + by injection Hr as _ -> _ _ _ _ _ _.
    + by injection Hr as _ _ _ _ -> _ _ _.
  - apply report_waiting. intros _. rewrite Ho. split; [|split; done]. intros _. split; [done|].
    destruct (write_interest_armed st) eqn:E; [rewrite H2 by done; by apply Hint|by apply H1].
Qed.

Lemma and3 (A B C : Prop) : A /\ B -> C -> A /\ B /\ C.
Proof. tauto. Qed.

(** A closed connection stays closed, read interest is not lost while it is
    open, and nothing is received. *)
Definition read_kept (st st' : Conn) : Prop :=
  (closed st = true -> closed st' = true) /\
  (closed st' = false -> (interest st).1 = true -> (interest st').1 = true) /\
  recvs st' = recvs st.

Lemma read_kept_refl st : read_kept st st.
Proof. by split. Qed.

Lemma read_kept_trans a b c : read_kept a b -> read_kept b c -> read_kept a c.
Proof.
  intros (H1 & H2 & H5) (H3 & H4 & H6). split; [auto|]. split; [|congruence]. intros Hc Hi. apply H4; [done|]. apply H2; [|done].
  destruct (closed b); [by rewrite H3 in Hc|done].
Qed.

Lemma closed_close st : closed (close st) = true.
Proof. unfold close. destruct (closed st) eqn:E; [done|]. cbv zeta. by destruct (_ <? _)%nat. Qed.

Lemma arm_report_kept st b st0 : closed st0 = false -> interest st = interest st0 -> recvs st = recvs st0 ->
  read_kept st0 (report_buffered_delta b (arm_write st)).
Proof.
  intros Hc Hi Hrv. split; [by rewrite Hc|]. destruct (report_rest b (arm_write st)) as ([= _ _ _ _ Hi2 Hrv2 _ _] & _ & _).
  split; [|rewrite Hrv2; unfold arm_write; by case_match]. intros _ Hr. rewrite Hi2.
  unfold arm_write. case_match; rewrite ?Hi; [done|]. cbn. rewrite Hi. by rewrite Hr.
Qed.

Lemma close_kept st0 st : recvs st = recvs st0 -> read_kept st0 (close st).
Proof.
  intros Hr. pose proof (closed_close st) as E. split; [done|]. rewrite E. split; [done|]. rewrite <- Hr.
  unfold close. case_match; [done|]. cbv zeta. by destruct (_ <? _)%nat.
Qed.

(** Output appended and then partly flushed, before the gauge is reported. *)
Lemma flushed_ok st d st' : conn_ok st -> closed st = false ->
  flush_inv (set_written (written st ++ d) (set_output (append d (output st)) st)) st' ->
  conn_ok (set_bytes_buffered (Z.of_nat (pending (output st'))) st') /\ closed st' = false /\
  bytes_buffered st' = Z.of_nat (pending (output st)).
Proof.
  intros (Hi & Ho & Hw & Hb & Hl) Hc (Hwf & Hwv & Hrest & _). cbn in Hwv.
  injection Hrest as Ei Ec _ _ _ Ebb _ Ewr Elg. rewrite Hc in *. unfold conn_ok. cbn. rewrite Ei, Ec, Ewr, Elg, Ebb.
  split_and!; try done. rewrite Hwv. destruct (append_spec d (output st) Ho) as [_ ->]. by rewrite app_assoc, Hw.
Qed.

Lemma write_ok d st : conn_ok st -> waiting_ok st ->
  exists st', write send d st = Some st' /\ conn_ok st' /\ waiting_ok st' /\ read_kept st st'.
Proof.
  intros Hok Hwait. unfold write. destruct (closed st) eqn:Hc; [exists st; split_and!; done || apply read_kept_refl|]. cbn [orb].
  destruct (Nat.eqb_spec (length d) 0) as [|Hd]; [exists st; split_and!; done || apply read_kept_refl|]. cbv zeta.
  set (st1 := set_written _ _). pose proof Hok as (_ & Ho & _). destruct (append_spec d (output st) Ho) as [Hwf1 Hv1].
  specialize (Hwait Hc) as (Hw1 & Hw2 & Hw3).
  assert (Hp1 : pending (output st1) = (pending (output st) + length d)%nat).
  { rewrite <- !length_out_view. unfold st1. cbn. by rewrite Hv1, length_app. }
  destruct (Nat.eqb_spec (pending (output st)) 0) as [Hz|Hnz].
  - destruct (try_flush_spec st1 Hwf1) as (r & st2 & -> & Hinv & Hfl & Hwb). cbn [mbind option_bind].
    destruct (flushed_ok st d st2 Hok Hc Hinv) as (Hok2 & Hc2 & Hb2).
    destruct Hinv as (_ & _ & [= _ _ Ea Ecf Ei _ Erv _ _] & _).
    assert (Harm : write_interest_armed st = false) by (destruct (write_interest_armed st); [specialize (Hw2 eq_refl); lia|done]).
    destruct r; eexists; (split; [reflexivity|]).
    + specialize (Hfl eq_refl). split; [by apply report_spec|]. split.
      * apply report_waiting. intros _. rewrite Hfl, Ea, Ecf, Harm. split; [lia|]. split; [done|].
        intros Hcf. specialize (Hw3 Hcf). lia.
      * destruct (report_rest (pending (output st)) st2) as ([= _ _ _ _ Hi2 Hrv2 _ _] & _ & _).
        split; [by rewrite Hc|]. rewrite Hi2, Hrv2, Ei, Erv. done.
    + specialize (Hwb eq_refl). apply and3; [|by apply arm_report_kept]. apply arm_report; try done. by rewrite Ea, Harm.
    + apply and3; [apply close_settled; by apply report_spec|]. apply close_kept.
      destruct (report_rest (pending (output st)) st2) as ([= _ _ _ _ _ Hrv2 _ _] & _ & _). by rewrite Hrv2, Erv.
  - eexists. split; [reflexivity|]. apply and3; [|by apply arm_report_kept].
    destruct (flushed_ok st d st1 Hok Hc) as (Hok2 & Hc2 & Hb2); [by repeat split|].
    apply arm_report; [done|lia|done|done|]. intros _. apply Hw1. lia.
Qed.

Lemma close_after_flush_ok st : conn_ok st -> waiting_ok st ->
  conn_ok (close_after_flush st) /\ waiting_ok (close_after_flush st) /\ read_kept st (close_after_flush st).
Proof.
  intros Hok Hw. unfold close_after_flush. destruct (closed st) eqn:Hc; [done|].
  destruct (Nat.eqb_spec (pending (output st)) 0).
  - apply and3; [by apply close_settled|by apply close_kept].
  - split; [done|]. split; [|done]. intros _. specialize (Hw Hc) as (? & ? & ?). cbn. split_and!; try done. lia.
Qed.

Lemma run_actions_ok l : forall st, conn_ok st -> waiting_ok st ->
  exists st', run_actions send l st = Some st' /\ conn_ok st' /\ waiting_ok st' /\ read_kept st st'.
Proof.
  induction l as [|a l IH]; intros st Hok Hw; [exists st; split_and!; done || apply read_kept_refl|]. cbn [run_actions].
  assert (Ha : exists st1, run_action send a st = Some st1 /\ conn_ok st1 /\ waiting_ok st1 /\ read_kept st st1).
  { destruct a as [n|d| |]; cbn [run_action].
    - eexists. split; [done|]. destruct Hok as (Hi & ? & ? & ? & ?). split; [split; [by apply consume_spec|done]|]. by split.
    - by apply write_ok.
    - eexists. split; [done|]. destruct (close_settled st Hok). split_and!; try done; by apply close_kept.
    - eexists. split; [done|]. by apply close_after_flush_ok. }
  destruct Ha as (st1 & -> & H1 & H2 & H3). cbn [mbind option_bind].
  destruct (IH st1 H1 H2) as (st2 & E & H4 & H5 & H6). exists st2. split_and!; try done. by eapply read_kept_trans.
Qed.

(** What is registered with the event loop between events. *)
Definition settled (st : Conn) : Prop :=
  conn_ok st /\ waiting_ok st /\ (closed st = false -> (interest st).1 = true).

Lemma read_step_ok st : conn_ok st -> waiting_ok st -> closed st = false ->
  match read_step send recv recv_data on_data st with
  | inl st' => conn_ok st' /\ waiting_ok st' /\ closed st' = false /\ recvs st' = S (recvs st)
  | inr None => False
  | inr (Some st') => settled st'
  end.
Proof.
  intros Hok Hw Hc. unfold read_step. cbv zeta. set (st1 := set_input (prepare kReadChunk (input st)) st).
  pose proof Hok as (Hi & Ho & Hwr & Hb & Hl). destruct (prepare_spec kReadChunk (input st) Hi) as (Hi1 & _ & Hs).
  assert (Hok1 : conn_ok (set_recvs (S (recvs st1)) st1)) by (by split).
  assert (Hw1 : waiting_ok (set_recvs (S (recvs st1)) st1)) by done.
  destruct (recv _ _) as [n| | |] eqn:Er.
  - apply recv_ok in Er as [Hn Hn2]. set (st2 := set_input _ _).
    assert (Hlen : length (take n (recv_data (recvs st1))) = n) by (rewrite length_take; lia).
    assert (Hi2 : in_wf (input st2)).
    { unfold st2. cbn [input set_input set_recvs]. rewrite <- Hlen at 1. apply commit_spec; [done|]. rewrite Hlen. exact (proj2 Hn). }
    destruct (run_actions_ok (on_data (input_data (input st2))) st2) as (st3 & -> & H1 & H2 & H3); [by split|done|].
    destruct (closed st3) eqn:Ec3; [split; [done|]; split; [done|congruence]|].
    split_and!; try done. by destruct H3 as (_ & _ & ->).
  - destruct (close_settled _ Hok1). split_and!; try done. by rewrite closed_close.
  - split; [done|]. split.
    + intros _. specialize (Hw Hc) as (Ha & Hb' & Hcf). cbn. split_and!; try done. intros Hp. specialize (Ha Hp) as [Ha1 Ha2].
      by rewrite Ha2.
    + intros _. cbn. by rewrite orb_true_r.
  - destruct (close_settled _ Hok1). split_and!; try done. by rewrite closed_close.
Qed.

Lemma on_readable_ok fuel st st' : conn_ok st -> waiting_ok st ->
  on_readable send recv recv_data on_data fuel st = Some st' -> settled st'.
Proof.
  intros Hok Hw. unfold on_readable. destruct (closed st) eqn:Hc; [intros [= <-]; split; [done|]; split; [done|congruence]|].
  destruct (loop _ fuel st) as [r|] eqn:El; [|done]. intros ->. revert El.
  apply (loop_post _ (fun s => conn_ok s /\ waiting_ok s /\ closed s = false) (fun r => match r with Some s => settled s | None => True end)); [..|done].
  - intros s s' (H1 & H2 & H3) E. pose proof (read_step_ok s H1 H2 H3) as H. rewrite E in H. naive_solver.
  - intros s r (H1 & H2 & H3) E. pose proof (read_step_ok s H1 H2 H3) as H. rewrite E in H. by destruct r.
Qed.

(** The read loop ends as soon as the socket has nothing more to give. *)
Lemma on_readable_total K fuel st : conn_ok st -> waiting_ok st -> (forall n m, recv K n <> Bytes m) ->
  (recvs st <= K)%nat -> (K - recvs st < fuel)%nat -> exists st', on_readable send recv recv_data on_data fuel st = Some st'.
Proof.
  intros Hok Hw HK Hle Hf. unfold on_readable. destruct (closed st) eqn:Hc; [by exists st|].
  set (I := fun s => (conn_ok s /\ waiting_ok s /\ closed s = false) /\ (recvs s <= K)%nat).
  assert (Hstep : forall s s', I s -> read_step send recv recv_data on_data s = inl s' -> I s' /\ (K - recvs s' < K - recvs s)%nat).
  { intros s s' [(H1 & H2 & H3) H4] E. pose proof (read_step_ok s H1 H2 H3) as H. rewrite E in H. destruct H as (? & ? & ? & Hr).
    assert (recvs s <> K).
    { intros Heq. unfold read_step in E. cbv zeta in E. cbn [recvs set_input] in E. destruct (recv (recvs s) _) eqn:Er; try done.
      rewrite Heq in Er. by apply HK in Er. }
    unfold I. split; [split; [done|]|]; lia. }
  destruct (loop_total _ I _ Hstep fuel st) as [r Hr]; [by split|done|]. rewrite Hr.
  assert (Hp : match r with Some s => settled s | None => False end).
  { revert Hr. apply (loop_post _ I (fun r => match r with Some s => settled s | None => False end)); [by intros; eapply Hstep| |by split].
    intros s r' [(H1 & H2 & H3) _] E. pose proof (read_step_ok s H1 H2 H3) as H. rewrite E in H. by destruct r'. }
  destruct r as [s|]; [by exists s|done].
Qed.

Lemma on_writable_ok st : conn_ok st ->
  (closed st = false -> (write_interest_armed st = true <-> (0 < pending (output st))%nat) /\
     (close_after_flush_ st = true -> (0 < pending (output st))%nat)) ->
  exists st', on_writable send st = Some st' /\ settled st'.
Proof.
  intros Hok Hw. unfold on_writable. destruct (closed st) eqn:Hc.
  { exists st. split; [done|]. split; [done|]. split; [|congruence]. intros ?; congruence. }
  cbv zeta. specialize (Hw eq_refl) as [Ha Hcf].
  pose proof Hok as (Hin & Ho & Hwr & Hb & Hl). rewrite Hc in Hb, Hl.
  destruct (try_flush_spec st Ho) as (r & st1 & -> & (Hwf & Hwv & [= Ei Ec Ea Ecf Eint Ebb _ Ewr Elg] & Hle) & Hfl & Hwb).
  cbn [mbind option_bind]. set (st2 := report_buffered_delta _ st1).
  destruct (report_rest (pending (output st)) st1) as ([= Ri Rc Ra Rcf Rint _ _ _] & Rout & _). fold st2 in Ri, Rc, Ra, Rcf, Rint, Rout.
  assert (Hok2 : conn_ok st2).
  { apply report_spec; [|congruence|congruence]. unfold conn_ok. cbn. rewrite Ei, Ec, Hc, Ewr, Elg, Hl. split_and!; try done. congruence. }
  destruct r.
  - specialize (Hfl eq_refl). destruct (close_after_flush_ st2) eqn:Ecf2.
    + eexists. split; [done|]. destruct (close_settled _ Hok2). split_and!; try done. by rewrite closed_close.
    + eexists. split; [done|]. split; [done|]. split; [|intros _; cbn; by rewrite orb_true_r].
      intros _. cbn. rewrite Rout, Hfl. split_and!; [lia|done|congruence].
  - specialize (Hwb eq_refl). eexists. split; [done|]. split; [done|]. split; [|intros _; cbn; by rewrite orb_true_r].
    intros _. cbn. rewrite Rout, Ra, Ea, orb_true_r. split_and!; try done. intros _. split; [|done]. apply Ha. lia.
  - eexists. split; [done|]. destruct (close_settled _ Hok2). split_and!; try done. by rewrite closed_close.
Qed.

(** ** Life of a connection *)

(** Events: the application acts, the event loop reports a direction it had
    registered (and drops it), or an error. *)
Inductive reach : Conn -> Prop :=
  | reach_start : reach (start new_conn)
  | reach_action st a st' : reach st -> run_action send a st = Some st' -> reach st'
  | reach_readable st fuel st' : reach st -> (interest st).1 = true ->
      on_readable send recv recv_data on_data fuel (set_interest (false, (interest st).2) st) = Some st' -> reach st'
  | reach_writable st st' : reach st -> (interest st).2 = true ->
      on_writable send (set_interest ((interest st).1, false) st) = Some st' -> reach st'
  | reach_error st : reach st -> reach (on_error st).

Lemma reach_settled st : reach st -> settled st.
Proof.
  induction 1 as [|st a st' _ (H1 & H2 & H3) E|st fuel st' _ (H1 & H2 & H3) Hi E|st st' _ (H1 & H2 & H3) Hi E|st _ (H1 & H2 & H3)].
  - split; [unfold conn_ok, in_wf, out_wf; cbn; split_and!; done || lia|]. split; [|done]. intros _. cbn. split_and!; try done. lia.
  - destruct (run_actions_ok [a] st H1 H2) as (st2 & E2 & H4 & H5 & H6). cbn [run_actions] in E2. rewrite E in E2.
    injection E2 as <-. split_and!; try done. destruct H6 as (H6 & H7 & _). intros Hc. apply H7; [done|]. apply H3.
    destruct (closed st); [by rewrite H6 in Hc|done].
  - eapply on_readable_ok; [..|exact E]; done.
  - destruct (on_writable_ok (set_interest ((interest st).1, false) st)) as (st2 & E2 & Hs); [done| |].
    + intros Hc. specialize (H2 Hc) as (Ha & Hb & Hcf). cbn. split; [split; [done|]|done]. intros Hp. by apply Ha.
    + rewrite E in E2. by injection E2 as ->.
  - destruct (close_settled _ H1). split_and!; try done. unfold on_error. by rewrite closed_close.
Qed.
End Proofs.

(** ** Properties *)

(** The input buffer is a byte queue: reserving room keeps the unread
    bytes and yields at least the room asked for, bytes received into that
    room are appended, and consuming drops from the front, whatever
    compaction, growth and reset do to the storage. *)
Theorem input_buffer_fifo b cap data n : in_wf b -> (length data <= span_size (prepare cap b))%nat ->
  let b' := commit (length data) (fill data (prepare cap b)) in
  (cap <= span_size (prepare cap b))%nat /\ in_wf b' /\ input_data b' = input_data b ++ data /\
  in_wf (consume n b') /\ input_data (consume n b') = drop n (input_data b ++ data).
Proof.
  intros Hwf Hl. cbv zeta. destruct (prepare_spec cap b Hwf) as (H1 & H2 & H3).
  destruct (commit_spec data (prepare cap b) H1 Hl) as [H4 H5]. destruct (consume_spec n _ H4) as [H6 H7].
  rewrite H7, H5, H2. done.
Qed.

Lemma input_buffer_fifo_witness :
  input_data (consume 3 (commit 2 (fill [5; 6] (prepare 4 (mkIn [1; 2; 3; 4] 1 4))))) = [5; 6].
Proof.
  refine (proj2 (proj2 (proj2 (proj2 (input_buffer_fifo (mkIn [1; 2; 3; 4] 1 4) 4 [5; 6] 3%nat _ _))))).
  - unfold in_wf. cbn. lia.
  - vm_compute. lia.
Defined.

(** Kernels for the witnesses: one that takes and gives everything at once,
    one whose send buffer is full. *)
Definition greedy (k n : nat) : IoResult := match n with O => Again | _ => Bytes n end.
Definition blocked (k n : nat) : IoResult := Again.

Lemma greedy_ok k n m : greedy k n = Bytes m -> (0 < m <= n)%nat.
Proof. unfold greedy. destruct n; [done|]. intros [= <-]. lia. Qed.
Lemma blocked_send k n m : blocked k n = Bytes m -> (0 < m <= n)%nat.
Proof. done. Qed.
Lemma blocked_recv (data : nat -> bytes) k n m : blocked k n = Bytes m -> (0 < m <= n)%nat /\ (m <= length (data k))%nat.
Proof. done. Qed.

Definition written_conn : Conn := Eval vm_compute in default new_conn (write blocked [1; 2; 3] (start new_conn)).

Lemma written_reach : reach blocked blocked (fun _ => []) (fun _ => []) written_conn.
Proof. eapply (reach_action _ _ _ _ _ (Write [1; 2; 3])); [apply reach_start|]. vm_compute. reflexivity. Defined.

(** Output is neither lost, duplicated nor reordered: in every reachable
    state, whatever the kernel accepts and however reads, writes, callbacks
    and closes interleave, the bytes the kernel took followed by the bytes
    still buffered are exactly the bytes given to [write]. *)
Theorem conn_output_fifo send recv recv_data on_data st :
  (forall k n m, send k n = Bytes m -> (0 < m <= n)%nat) ->
  (forall k n m, recv k n = Bytes m -> (0 < m <= n)%nat /\ (m <= length (recv_data k))%nat) ->
  reach send recv recv_data on_data st -> wire st ++ out_view (output st) = written st.
Proof. intros Hs Hr H. by apply (reach_settled _ _ _ _ Hs Hr) in H as [(_ & _ & ? & _) _]. Qed.

Lemma conn_output_fifo_witness : wire written_conn ++ out_view (output written_conn) = written written_conn.
Proof.
  apply (conn_output_fifo blocked blocked (fun _ => []) (fun _ => []) written_conn).
  - apply blocked_send.
  - apply blocked_recv.
  - apply written_reach.
Defined.

(** Bookkeeping is exact on every path: in every reachable state the
    connection's share of the global buffered-bytes gauge is the number of
    bytes it has pending, and zero once it is closed; and it deregisters,
    closes its descriptor and notifies its owner exactly once, in that order. *)
Theorem conn_accounting send recv recv_data on_data st :
  (forall k n m, send k n = Bytes m -> (0 < m <= n)%nat) ->
  (forall k n m, recv k n = Bytes m -> (0 < m <= n)%nat /\ (m <= length (recv_data k))%nat) ->
  reach send recv recv_data on_data st ->
  bytes_buffered st = (if closed st then 0 else Z.of_nat (pending (output st))) /\
  log st = (if closed st then [RemoveIo; CloseFd; OnClosed] else []).
Proof. intros Hs Hr H. by apply (reach_settled _ _ _ _ Hs Hr) in H as [(_ & _ & _ & ?) _]. Qed.

Lemma conn_accounting_witness : bytes_buffered written_conn = 3 /\ log written_conn = [].
Proof.
  apply (conn_accounting blocked blocked (fun _ => []) (fun _ => []) written_conn).
  - apply blocked_send.
  - apply blocked_recv.
  - apply written_reach.
Defined.

(** No wake-up is lost: while a connection is open, read interest is
    registered between any two events, and write interest whenever output is
    pending; and a connection told to close after flushing always has output
    to flush, so that it does get closed. *)
Theorem conn_no_lost_wakeup send recv recv_data on_data st :
  (forall k n m, send k n = Bytes m -> (0 < m <= n)%nat) ->
  (forall k n m, recv k n = Bytes m -> (0 < m <= n)%nat /\ (m <= length (recv_data k))%nat) ->
  reach send recv recv_data on_data st -> closed st = false ->
  (interest st).1 = true /\ ((0 < pending (output st))%nat -> (interest st).2 = true) /\
  (close_after_flush_ st = true -> (0 < pending (output st))%nat).
Proof.
  intros Hs Hr H Hc. apply (reach_settled _ _ _ _ Hs Hr) in H as (_ & Hw & Hi). specialize (Hw Hc) as (Ha & _ & Hcf).
  split; [by apply Hi|]. split; [|done]. intros Hp. by apply Ha.
Qed.

Lemma conn_no_lost_wakeup_witness : (interest written_conn).1 = true /\ ((0 < pending (output written_conn))%nat -> (interest written_conn).2 = true) /\
  (close_after_flush_ written_conn = true -> (0 < pending (output written_conn))%nat).
Proof.
  apply (conn_no_lost_wakeup blocked blocked (fun _ => []) (fun _ => []) written_conn).
  - apply blocked_send.
  - apply blocked_recv.
  - apply written_reach.
  - reflexivity.
Defined.

Lemma wire_close st : wire (close st) = wire st.
Proof. unfold close. case_match; [done|]. cbv zeta. by destruct (_ <? _)%nat. Qed.

Lemma flush_greedy send st : (forall k n, (sends st <= k)%nat -> (0 < n)%nat -> send k n = Bytes n) ->
  exists st', loop (flush_step send) (S (pending (output st))) st = Some (Flushed, st').
Proof.
  intros Hg. assert (Hdone : forall s fuel, pending (output s) = 0%nat ->
    exists s', loop (flush_step send) (S fuel) s = Some (Flushed, s')).
  { intros s fuel Hp. cbn [loop]. unfold flush_step. unfold pending in Hp. rewrite (proj2 (Nat.ltb_ge _ _)) by lia. by eexists. }
  destruct (pending (output st)) as [|p] eqn:Hp; [by apply Hdone|]. cbn [loop]. unfold flush_step at 1. unfold pending in Hp.
  rewrite (proj2 (Nat.ltb_lt _ _)), Hg by lia. cbv zeta. apply Hdone. unfold pending. cbn. lia.
Qed.

(** Once the kernel takes everything it is offered, a writable event
    drains the buffer completely, and then closes the connection if that was
    asked for. *)
Theorem conn_flush_completes send recv recv_data on_data st :
  (forall k n, (sends st <= k)%nat -> (0 < n)%nat -> send k n = Bytes n) -> (forall k n m, send k n = Bytes m -> (0 < m <= n)%nat) ->
  (forall k n m, recv k n = Bytes m -> (0 < m <= n)%nat /\ (m <= length (recv_data k))%nat) ->
  reach send recv recv_data on_data st -> closed st = false ->
  exists st', on_writable send st = Some st' /\ wire st' = written st /\ closed st' = close_after_flush_ st.
Proof.
  intros Hg Hs Hr H Hc. apply (reach_settled _ _ _ _ Hs Hr) in H as [(Hi & Ho & Hw & Hb & Hl) _].
  destruct (try_flush_spec send Hs st Ho) as (r & st1 & E & (_ & Hwv & [= _ Ec _ Ecf _ _ _ _ _] & _) & Hfl & _).
  destruct (flush_greedy send st Hg) as [st2 E2]. unfold try_flush in E. rewrite E2 in E. injection E as <- ->.
  unfold on_writable, try_flush. rewrite Hc, E2. cbv zeta. cbn [mbind option_bind].
  destruct (report_rest (pending (output st)) st1) as ([= _ Rc _ Rcf _ _ _ _] & _ & Rw). rewrite Rcf, Ecf.
  assert (Hv : out_view (output st1) = []) by (apply nil_length_inv; rewrite length_out_view; auto).
  rewrite Hv, app_nil_r, Hw in Hwv. destruct (close_after_flush_ st); (eexists; split; [reflexivity|]).
  - rewrite closed_close. split; [|done]. by rewrite wire_close, Rw.
  - cbn. rewrite Rw, Rc. split; [done|congruence].
Qed.

(** A kernel whose send buffer is full for the first call only. *)
Definition unblocks (k n : nat) : IoResult := match k with O => Again | S _ => greedy k n end.

Definition waiting_conn : Conn := Eval vm_compute in default new_conn (write unblocks [1; 2; 3] (start new_conn)).
Definition draining_conn : Conn := Eval vm_compute in close_after_flush waiting_conn.

Lemma conn_flush_completes_witness : exists st', on_writable unblocks draining_conn = Some st' /\ wire st' = [1; 2; 3] /\ closed st' = true.
Proof.
  apply (conn_flush_completes unblocks blocked (fun _ => []) (fun _ => []) draining_conn).
  - intros k n Hk Hn. change (sends draining_conn) with 1%nat in Hk. destruct k; [lia|]. destruct n; [lia|reflexivity].
  - intros k n m. unfold unblocks. destruct k; [discriminate|]. apply (greedy_ok (S k)).
  - apply blocked_recv.
  - apply (reach_action _ _ _ _ waiting_conn CloseAfterFlush); [|vm_compute; reflexivity].
    eapply (reach_action _ _ _ _ _ (Write [1; 2; 3])); [apply reach_start|]. vm_compute. reflexivity.
  - reflexivity.
Defined.

(** The destructor of a connection that was never closed drops its
    pending output without taking it off the global gauge, which [close]
    does: the count is leaked for the rest of the process. *)
Theorem destructor_leaks_gauge send recv recv_data on_data st :
  (forall k n m, send k n = Bytes m -> (0 < m <= n)%nat) ->
  (forall k n m, recv k n = Bytes m -> (0 < m <= n)%nat /\ (m <= length (recv_data k))%nat) ->
  reach send recv recv_data on_data st -> closed st = false -> (0 < pending (output st))%nat ->
  bytes_buffered (destroy st) = Z.of_nat (pending (output st)) /\ bytes_buffered (close st) = 0.
Proof.
  intros Hs Hr H Hc Hp. apply (reach_settled _ _ _ _ Hs Hr) in H as [(Hi & Ho & Hw & Hb & Hl) _]. rewrite Hc in Hb.
  unfold destroy, close. rewrite Hc. cbv zeta. cbn [output set_closed]. rewrite (proj2 (Nat.ltb_lt _ _) Hp). cbn. lia.
Qed.

Lemma destructor_leaks_gauge_witness : bytes_buffered (destroy written_conn) = 3 /\ bytes_buffered (close written_conn) = 0.
Proof.
  apply (destructor_leaks_gauge blocked blocked (fun _ => []) (fun _ => []) written_conn).
  - apply blocked_send.
  - apply blocked_recv.
  - apply written_reach.
  - reflexivity.
  - vm_compute. lia.
Defined.
