(* ===== verification/LinkedQueue.v ===== *)
(** * The queues of the event loop

    [TaskQueue] and [CallbackQueue] of include/libspaznet/platform/io_context.hpp
    are the same singly linked list with a sentinel node in front, here on an
    explicit heap of nodes so that allocation, the two pointers and deletion
    are the code's.  The theorem is that the list behaves as a first-in
    first-out queue, never follows a dangling pointer, and leaves no node
    behind. *)
From stdpp Require Import gmap.
From S2P Require Import Prelude.

Section LinkedQueue.
Context {A : Type}.

(** [Node*], [nullptr] being [None]. *)
Abbreviation ptr := positive (only parsing).

(** The payload is [None] for the empty task of the sentinel and for one that
    was moved out. *)
Record Node := mkNode { payload : option A; next : option ptr }.

Record Queue := mkQueue { heap : gmap ptr Node; head_ : ptr; tail_ : ptr }.

(** [new Node(x)]. *)
Definition alloc (x : option A) (h : gmap ptr Node) : ptr * gmap ptr Node :=
  let p := fresh (dom h) in (p, <[p := mkNode x None]> h).

Definition new_queue : Queue :=
  let '(dummy, h) := alloc None ∅ in mkQueue h dummy dummy.

(** [None] is a dereference of a pointer to nothing. *)
Definition enqueue (x : A) (q : Queue) : option Queue :=
  let '(node, h) := alloc (Some x) (heap q) in
  t ← h !! tail_ q;
  Some (mkQueue (<[tail_ q := mkNode (payload t) (Some node)]> h) (head_ q) node).

(** The returned value is [None] for [false]; otherwise what was moved to the
    out parameter. *)
Definition dequeue (q : Queue) : option (option (option A) * Queue) :=
  hd ← heap q !! head_ q;
  match next hd with
  | None => Some (None, q)
  | Some nx =>
      n ← heap q !! nx;
      let h := <[nx := mkNode None (next n)]> (heap q) in
      Some (Some (payload n), mkQueue (delete (head_ q) h) nx (tail_ q))
  end.

Definition empty (q : Queue) : option bool :=
  hd ← heap q !! head_ q; Some (bool_decide (next hd = None)).

(** The destructor's loop. *)
Fixpoint destroy_from (fuel : nat) (node : option ptr) (h : gmap ptr Node) : option (gmap ptr Node) :=
  match node with
  | None => Some h
  | Some p =>
      match fuel with
      | O => None
      | S fuel => n ← h !! p; destroy_from fuel (next n) (delete p h)
      end
  end.

Definition destroy (q : Queue) : option (gmap ptr Node) := destroy_from (size (heap q)) (Some (head_ q)) (heap q).

(** ** What the structure holds *)

(** The nodes [ps] from [p] on, with their payloads, ending in [last]. *)
Fixpoint chain (h : gmap ptr Node) (p : ptr) (ps : list (ptr * A)) (last : ptr) : Prop :=
  match ps with
  | [] => p = last /\ exists x, h !! p = Some (mkNode x None)
  | (n, a) :: ps =>
      (exists x, h !! p = Some (mkNode x (Some n))) /\ (exists y, h !! n = Some (mkNode (Some a) y)) /\ chain h n ps last
  end.

(** The sentinel and the nodes of the queue are all there is on the heap. *)
Definition holds (q : Queue) (l : list A) : Prop := exists ps,
  ps.*2 = l /\ chain (heap q) (head_ q) ps (tail_ q) /\ NoDup (head_ q :: ps.*1) /\ dom (heap q) = list_to_set (head_ q :: ps.*1).

Lemma chain_frame h h' p ps last : (forall k, k ∈ p :: ps.*1 -> h' !! k = h !! k) -> chain h p ps last -> chain h' p ps last.
Proof.
  revert p. induction ps as [|[n a] ps IH]; intros p Hk; cbn [chain].
  - intros [-> [x Hx]]. split; [done|]. exists x. rewrite Hk; [done|left].
  - intros ([x Hx] & [y Hy] & Hc). rewrite !Hk by (cbn; set_solver). split; [by exists x|]. split; [by exists y|].
    apply IH; [|done]. intros k Hin. apply Hk. by right.
Qed.

Lemma chain_last h p ps last : chain h p ps last -> last ∈ p :: ps.*1 /\ exists x, h !! last = Some (mkNode x None).
Proof.
  revert p. induction ps as [|[n a] ps IH]; intros p; cbn [chain].
  - intros [-> Hx]. split; [left|done].
  - intros (_ & _ & Hc). apply IH in Hc as [Hin Hx]. split; [by right|done].
Qed.

(** Appending a node behind the last one. *)
Lemma chain_snoc h p ps last n a : chain h p ps last -> NoDup (p :: ps.*1) -> n ∉ p :: ps.*1 -> h !! n = Some (mkNode (Some a) None) ->
  forall x, h !! last = Some (mkNode x None) -> chain (<[last := mkNode x (Some n)]> h) p (ps ++ [(n, a)]) n.
Proof.
  revert p. induction ps as [|[m b] ps IH]; intros p Hc Hnd Hn Ha x Hx; cbn [chain app] in *.
  - destruct Hc as [-> _]. split; [exists x; by rewrite lookup_insert_eq|]. assert (last <> n) by set_solver.
    rewrite lookup_insert_ne by done. split; [by exists None|]. split; [done|]. by exists (Some a).
  - destruct Hc as ([y Hy] & [z Hz] & Hc). pose proof (chain_last _ _ _ _ Hc) as [Hin _]. apply NoDup_cons in Hnd as [Hp Hnd].
    assert (p <> last) by (intros ->; by apply Hp). rewrite lookup_insert_ne by done. split; [by exists y|].
    split; [|apply IH; [done|done|set_solver|done|done]]. destruct (decide (m = last)) as [->|Hm].
    + rewrite lookup_insert_eq. rewrite Hx in Hz. injection Hz as -> <-. by exists (Some n).
    + rewrite lookup_insert_ne by done. by exists z.
Qed.

Lemma new_holds : holds new_queue [].
Proof.
  exists []. split; [done|]. unfold new_queue, alloc. cbn [heap head_ tail_ chain fmap list_fmap list_to_set]. split; [split; [done|]; exists None; by rewrite lookup_insert_eq|].
  split; [apply NoDup_singleton|]. set_solver.
Qed.

Lemma enqueue_holds x q l : holds q l -> exists q', enqueue x q = Some q' /\ holds q' (l ++ [x]).
Proof.
  intros (ps & <- & Hc & Hnd & Hd). destruct (chain_last _ _ _ _ Hc) as [Hin [y Hy]]. unfold enqueue, alloc. set (n := fresh _).
  assert (Hn : n ∉ dom (heap q)) by apply is_fresh. assert (Hn' : n ∉ head_ q :: ps.*1) by (rewrite Hd in Hn; set_solver). assert (Hne : n <> tail_ q) by (intros ->; by apply Hn').
  rewrite lookup_insert_ne by done. rewrite Hy. cbn [mbind option_bind payload]. eexists. split; [done|]. exists (ps ++ [(n, x)]). cbn [heap head_ tail_].
  split; [by rewrite fmap_app|]. rewrite fmap_app. split.
  - apply chain_snoc; [|done|done|by rewrite lookup_insert_eq|by rewrite lookup_insert_ne]. eapply chain_frame; [|exact Hc].
    intros k Hk. apply lookup_insert_ne. intros ->. by apply Hn'.
  - split; [change (NoDup ((head_ q :: ps.*1) ++ [n])); apply NoDup_app; split; [done|]; split; [set_solver|apply NoDup_singleton]|].
    rewrite !dom_insert_L, Hd. cbn [fmap list_fmap fst]. rewrite !list_to_set_cons, list_to_set_app_L. cbn [list_to_set]. set_solver.
Qed.

Lemma dequeue_holds q l : holds q l -> match l with
  | [] => dequeue q = Some (None, q)
  | a :: l' => exists q', dequeue q = Some (Some (Some a), q') /\ holds q' l'
  end.
Proof.
  intros (ps & <- & Hc & Hnd & Hd). unfold dequeue. destruct ps as [|[n a] ps]; cbn [chain fmap list_fmap fst snd] in *.
  - destruct Hc as [_ [x ->]]. done.
  - destruct Hc as ([x ->] & [y Hy] & Hc). cbn [mbind option_bind next]. rewrite Hy. cbn [mbind option_bind next payload]. eexists. split; [done|].
    apply NoDup_cons in Hnd as [Hh Hnd]. assert (Hne : head_ q <> n) by set_solver. exists ps. cbn [heap head_ tail_]. split; [done|]. split; [|split; [done|]].
    + revert Hc Hy. set (h := heap q). intros Hc Hy. assert (Hfr : forall k, k ∈ ps.*1 -> delete (head_ q) (<[n := mkNode None y]> h) !! k = h !! k).
      { intros k Hk. rewrite lookup_delete_ne by set_solver. apply lookup_insert_ne. intros ->. apply NoDup_cons in Hnd as [? _]. done. }
      destruct ps as [|[m b] ps]; cbn [chain] in *.
      * destruct Hc as [-> [z Hz]]. split; [done|]. exists None. rewrite lookup_delete_ne by congruence. rewrite lookup_insert_eq. congruence.
      * destruct Hc as ([z Hz] & [w Hw] & Hc). rewrite Hz in Hy. injection Hy as -> <-.
        split; [exists None; rewrite lookup_delete_ne by done; by rewrite lookup_insert_eq|].
        split; [exists w; rewrite Hfr; [done|left]|]. eapply chain_frame; [|exact Hc]. exact Hfr.
    + rewrite dom_delete_L, dom_insert_L, Hd. cbn [list_to_set]. set_solver.
Qed.

Lemma empty_holds q l : holds q l -> empty q = Some (bool_decide (l = [])).
Proof.
  intros (ps & <- & Hc & _ & _). unfold empty. destruct ps as [|[n a] ps]; cbn [chain] in Hc.
  - destruct Hc as [_ [x ->]]. done.
  - by destruct Hc as ([x ->] & _).
Qed.

Lemma destroy_from_chain ps : forall p h fuel last, chain h p ps last -> NoDup (p :: ps.*1) -> dom h = list_to_set (p :: ps.*1) -> (length ps < fuel)%nat ->
  destroy_from fuel (Some p) h = Some ∅.
Proof.
  induction ps as [|[n a] ps IH]; intros p h fuel last Hc Hnd Hd Hf; destruct fuel as [|fuel]; try (cbn in Hf; lia); cbn [chain destroy_from] in *.
  - destruct Hc as [_ [x Hx]]. rewrite Hx. cbn [mbind option_bind next]. destruct fuel; cbn [destroy_from]; f_equal; apply dom_empty_inv_L; rewrite dom_delete_L, Hd; cbn [fmap list_fmap list_to_set]; set_solver.
  - destruct Hc as ([x Hx] & _ & Hc). rewrite Hx. cbn [mbind option_bind next]. cbn [fmap list_fmap fst] in Hnd, Hd. apply NoDup_cons in Hnd as [Hp Hnd]. eapply IH; [|done| |cbn in Hf; lia].
    + eapply chain_frame; [|exact Hc]. intros k Hk. apply lookup_delete_ne. intros ->. by apply Hp.
    + rewrite dom_delete_L, Hd. cbn [list_to_set]. set_solver.
Qed.

Lemma destroy_holds q l : holds q l -> destroy q = Some ∅.
Proof.
  intros (ps & _ & Hc & Hnd & Hd). unfold destroy. eapply destroy_from_chain; [exact Hc|exact Hnd|exact Hd|].
  rewrite <- size_dom, Hd, size_list_to_set by exact Hnd. cbn. rewrite length_fmap. lia.
Qed.

(** ** Runs *)

Inductive QueueOp := Enqueue (x : A) | Dequeue | IsEmpty.
Inductive QueueOut := Done | Took (r : option (option A)) | WasEmpty (b : bool).

Definition run_op (st : list QueueOut * Queue) (op : QueueOp) : option (list QueueOut * Queue) :=
  match op with
  | Enqueue x => q ← enqueue x st.2; Some (st.1 ++ [Done], q)
  | Dequeue => '(r, q) ← dequeue st.2; Some (st.1 ++ [Took r], q)
  | IsEmpty => b ← empty st.2; Some (st.1 ++ [WasEmpty b], st.2)
  end.

(** The same on a list. *)
Definition spec_op (st : list QueueOut * list A) (op : QueueOp) : list QueueOut * list A :=
  match op with
  | Enqueue x => (st.1 ++ [Done], st.2 ++ [x])
  | Dequeue => match st.2 with
               | [] => (st.1 ++ [Took None], [])
               | x :: l => (st.1 ++ [Took (Some (Some x))], l)
               end
  | IsEmpty => (st.1 ++ [WasEmpty (bool_decide (st.2 = []))], st.2)
  end.

Lemma run_op_spec out q l op : holds q l -> exists q', run_op (out, q) op = Some ((spec_op (out, l) op).1, q') /\ holds q' (spec_op (out, l) op).2.
Proof.
  intros H. destruct op as [x| |]; cbn [run_op spec_op fst snd].
  - destruct (enqueue_holds x q l H) as (q' & -> & H'). by exists q'.
  - pose proof (dequeue_holds q l H) as Hd. destruct l as [|a l].
    + rewrite Hd. by exists q.
    + destruct Hd as (q' & -> & H'). by exists q'.
  - rewrite (empty_holds q l H). by exists q.
Qed.

(** C31: The linked queue is a first-in first-out queue.  For every sequence of
    [enqueue], [dequeue] and [empty] on a new queue, no operation follows a
    null or dangling pointer, every answer is the one a list gives with
    insertion at the end and removal at the front (a task that was enqueued
    comes out exactly once, never moved-out and never the sentinel's empty
    one), and destroying the queue at the end frees every node. *)
Theorem queue_is_fifo ops : exists q,
  for_each run_op ops ([], new_queue) = Some ((foldl spec_op ([], []) ops).1, q) /\
  holds q (foldl spec_op ([], []) ops).2 /\ destroy q = Some ∅.
Proof.
  assert (Hg : forall out q l, holds q l -> exists q', for_each run_op ops (out, q) = Some ((foldl spec_op (out, l) ops).1, q') /\ holds q' (foldl spec_op (out, l) ops).2).
  { induction ops as [|op ops IH]; intros out q l H; cbn [for_each foldl]; [by exists q|]. destruct (run_op_spec out q l op H) as (q1 & -> & H1). cbn [mbind option_bind].
    destruct (spec_op (out, l) op) as [out1 l1]. by apply IH. }
  destruct (Hg [] new_queue [] new_holds) as (q & E & H). exists q. split; [exact E|]. split; [exact H|]. by eapply destroy_holds.
Qed.
End LinkedQueue.
