(* ===== verification/Parking.v ===== *)
(** * Parked workers

    How the worker threads of src/platform/io_context.cpp sleep and are woken:
    [worker_thread] against [schedule], [post] and [stop] as programs that
    interleave at every access to a queue, the flag, the mutex and the
    condition variable.  A thread blocked in [condition_variable::wait] is in
    [sleepers] until it is notified or wakes up spuriously.  The theorem is
    that no wake-up is lost: all workers sleep over a queued task or callback
    only while the thread that queued it is still on its way to notify one of
    them, and none sleeps through [stop]. *)
From stdpp Require Import gmap relations.
From S2P Require Import Prelude.

Section Parking.
Context {C : Type}.

Inductive Notify := One | All.

(** Where [schedule], [post] or [stop] is. *)
Inductive Caller :=
| Idle
| ToLock (n : Notify)    (* queued, or the flag cleared; about to lock *)
| ToNotify (n : Notify)  (* the mutex is held *)
| ToUnlock.

(** Where a thread is: the states of [worker_thread]; a thread of the
    application is in [WRun] all the time. *)
Inductive Thread :=
| WTop                   (* [while (running_)] *)
| WTake (k : nat)        (* [try_take], then [try_take_callback] *)
| WRun (c : Caller)      (* runs what it took, which may call the loop *)
| WLock                  (* about to construct the [unique_lock] *)
| WCheck (k : nat)       (* the predicate, with the mutex: the flag, then the queues *)
| WWait                  (* in the condition variable, the mutex released *)
| WUnlock                (* the predicate holds *)
| WExit.

(** The task queues, then the callback queues. *)
Record Shared := mkShared { queues : list (list C); running : bool; mutex : option nat; sleepers : gset nat }.

Definition with_mutex (m : option nat) (s : Shared) : Shared := mkShared (queues s) (running s) m (sleepers s).
Definition with_sleepers (v : gset nat) (s : Shared) : Shared := mkShared (queues s) (running s) (mutex s) v.
Definition with_queues (v : list (list C)) (s : Shared) : Shared := mkShared v (running s) (mutex s) (sleepers s).

(** What a thread does where it has a choice: what an idle one calls, and which
    sleeper [notify_one] wakes; [Spurious] is a wake-up of its own accord. *)
Inductive Do := Go | Enqueue (q : nat) (c : C) | CallStop | WakeOne (j : nat) | Spurious.

Definition lock (me : nat) (s : Shared) : option Shared := match mutex s with None => Some (with_mutex (Some me) s) | Some _ => None end.

Definition call_step (me : nat) (d : Do) (c : Caller) (s : Shared) : option (Caller * Shared) :=
  match c, d with
  | Idle, Enqueue q x => if decide (q < length (queues s)) then Some (ToLock One, with_queues (alter (fun l => l ++ [x]) q (queues s)) s) else None
  | Idle, CallStop => Some (ToLock All, mkShared (queues s) false (mutex s) (sleepers s))
  | ToLock n, Go => s' ← lock me s; Some (ToNotify n, s')
  | ToNotify One, WakeOne j => if decide (j ∈ sleepers s) then Some (ToUnlock, with_sleepers (sleepers s ∖ {[j]}) s) else None
  | ToNotify One, Go => if decide (sleepers s = ∅) then Some (ToUnlock, s) else None
  | ToNotify All, Go => Some (ToUnlock, with_sleepers ∅ s)
  | ToUnlock, Go => Some (Idle, with_mutex None s)
  | _, _ => None
  end.

(** The [k]-th queue worker [i] tries, of [n] task and [n] callback queues. *)
Definition probe (n i k : nat) : nat := if decide (k < n) then (i + k) mod n else n + (i + (k - n)) mod n.

Definition dequeue (q : nat) (s : Shared) : option Shared :=
  match queues s !! q with Some (_ :: l) => Some (with_queues (<[q := l]> (queues s)) s) | _ => None end.

Definition is_empty (q : nat) (s : Shared) : bool := match queues s !! q with Some (_ :: _) => false | _ => true end.

(** [n] queues of each kind; the first [num_threads] threads are the workers. *)
Context (n num_threads : nat).

Definition thread_step (i : nat) (d : Do) (w : Thread) (s : Shared) : option (Thread * Shared) :=
  match w, d with
  | WTop, Go => Some (if running s then WTake 0 else WExit, s)
  | WTake k, Go => if decide (k < 2 * n) then Some (match dequeue (probe n i k) s with Some s' => (WRun Idle, s') | None => (WTake (S k), s) end)
                   else Some (WLock, s)
  | WRun Idle, Go => if decide (i < num_threads) then Some (WTop, s) else None
  | WRun c, _ => '(c', s') ← call_step i d c s; Some (WRun c', s')
  | WLock, Go => s' ← lock i s; Some (WCheck 0, s')
  | WCheck 0, Go => Some (if running s then WCheck 1 else WUnlock, s)
  | WCheck (S j), Go => if decide (j < 2 * n) then Some (if is_empty j s then WCheck (S (S j)) else WUnlock, s)
                        else Some (WWait, with_sleepers ({[i]} ∪ sleepers s) (with_mutex None s))
  | WWait, Spurious => if decide (i ∈ sleepers s) then Some (WWait, with_sleepers (sleepers s ∖ {[i]}) s) else None
  | WWait, Go => if decide (i ∈ sleepers s) then None else s' ← lock i s; Some (WCheck 0, s')
  | WUnlock, Go => Some (WTop, with_mutex None s)
  | _, _ => None
  end.

Record State := mkState { shared : Shared; threads : list Thread }.

(** Thread [i] takes a step. *)
Definition step (i : nat) (d : Do) (st : State) : option State :=
  w ← threads st !! i; '(w', s') ← thread_step i d w (shared st); Some (mkState s' (<[i := w']> (threads st))).

(** [run] has started the workers; there may be any number of other threads. *)
Definition init (others : nat) : State :=
  mkState (mkShared (replicate (2 * n) []) true None ∅) (replicate num_threads WTop ++ replicate others (WRun Idle)).

Definition steps_to (st st' : State) : Prop := exists i d, step i d st = Some st'.

Definition reachable (others : nat) (st : State) : Prop := rtc steps_to (init others) st.

(** ** The invariant *)

Definition holds (w : Thread) : bool := match w with WCheck _ | WUnlock | WRun (ToNotify _) | WRun ToUnlock => true | _ => false end.
Definition to_lock (w : Thread) : bool := match w with WRun (ToLock _) => true | _ => false end.
Definition to_lock_all (w : Thread) : bool := match w with WRun (ToLock All) => true | _ => false end.
Definition to_notify (w : Thread) : bool := match w with WRun (ToLock _) | WRun (ToNotify _) => true | _ => false end.
Definition to_notify_all (w : Thread) : bool := match w with WRun (ToLock All) | WRun (ToNotify All) => true | _ => false end.

Definition some_thread (P : Thread -> bool) (st : State) : Prop := exists i w, threads st !! i = Some w /\ P w = true.

Record park_ok (st : State) : Prop := {
  po_mutex : forall i, mutex (shared st) = Some i <-> exists w, threads st !! i = Some w /\ holds w = true;
  po_sleepers : forall i, i ∈ sleepers (shared st) -> threads st !! i = Some WWait;
  po_others : forall i w, num_threads <= i -> threads st !! i = Some w -> exists c, w = WRun c;
  po_flag : forall i k, threads st !! i = Some (WCheck (S k)) -> running (shared st) = false -> some_thread to_lock_all st;
  po_checked : forall i k j, threads st !! i = Some (WCheck (S k)) -> j < k -> is_empty j (shared st) = false -> some_thread to_lock st;
  po_work : forall j, j < 2 * n -> is_empty j (shared st) = false -> (forall i, i < num_threads -> i ∈ sleepers (shared st)) -> 0 < num_threads -> some_thread to_notify st;
  po_stop : running (shared st) = false -> sleepers (shared st) <> ∅ -> some_thread to_notify_all st }.

Lemma some_thread_insert P s i w w' ts : ts !! i = Some w -> some_thread P (mkState s (<[i := w']> ts)) <-> P w' = true \/ exists j v, j <> i /\ ts !! j = Some v /\ P v = true.
Proof.
  intros E. split.
  - intros (j & v & Ej & Hv). cbn in Ej. destruct (decide (j = i)) as [->|Hj]; [|rewrite list_lookup_insert_ne in Ej by done; right; by exists j, v].
    rewrite list_lookup_insert_eq in Ej by (by eapply lookup_lt_Some). left. by simplify_eq.
  - intros [H|(j & v & Hj & Ej & Hv)]; [exists i, w'; cbn; by rewrite list_lookup_insert_eq by (by eapply lookup_lt_Some)|].
    exists j, v. cbn. by rewrite list_lookup_insert_ne.
Qed.

(** A thread that stays, or comes, where [P] holds. *)
Lemma some_thread_keep P s s' i w w' ts : ts !! i = Some w -> (P w = true -> P w' = true) -> some_thread P (mkState s ts) -> some_thread P (mkState s' (<[i := w']> ts)).
Proof.
  intros E H (j & v & Ej & Hv). rewrite some_thread_insert by done. cbn in Ej. destruct (decide (j = i)) as [->|Hj]; [left; apply H; congruence|right; by exists j, v].
Qed.

Definition locks (i : nat) (w w' : Thread) (s s' : Shared) : Prop :=
  (mutex s' = mutex s /\ holds w' = holds w) \/ (mutex s = None /\ mutex s' = Some i /\ holds w' = true) \/ (holds w = true /\ mutex s' = None /\ holds w' = false).

Definition sleeps (i : nat) (w w' : Thread) (s s' : Shared) : Prop :=
  (sleepers s' ⊆ sleepers s /\ (w = WWait -> w' = WWait \/ i ∉ sleepers s)) \/
  (w' = WWait /\ sleepers s' = {[i]} ∪ sleepers s /\ queues s' = queues s /\ running s' = running s /\ exists k, w = WCheck (S k) /\ 2 * n <= k).

(** What a step can do to the things the invariant speaks of. *)
Record effect (i : nat) (w w' : Thread) (s s' : Shared) : Prop := {
  ef_mutex : locks i w w' s s';
  ef_sleep : sleeps i w w' s s';
  ef_flag : running s' = running s \/ to_lock_all w' = true;
  ef_queues : (forall j, is_empty j s' = false -> is_empty j s = false) \/ to_lock w' = true;
  ef_lock : to_lock w = true -> mutex s = None;
  ef_notify : to_notify w = true -> to_notify w' = true \/ (exists j, j ∈ sleepers s /\ j ∉ sleepers s') \/ sleepers s' = ∅;
  ef_all : to_notify_all w = true -> to_notify_all w' = true \/ sleepers s' = ∅;
  ef_check : forall k, w' = WCheck (S k) -> s' = s /\ (k = 0 /\ running s = true \/ exists k', k = S k' /\ w = WCheck (S k') /\ is_empty k' s = true);
  ef_other : num_threads <= i -> (exists c, w = WRun c) -> exists c', w' = WRun c' }.

Lemma lock_inv i (s s' : Shared) : lock i s = Some s' -> mutex s = None /\ s' = with_mutex (Some i) s.
Proof. unfold lock. destruct (mutex s) eqn:E; [done|]. by intros [= <-]. Qed.

Lemma dequeue_empty q (s s' : Shared) j : dequeue q s = Some s' -> is_empty j s' = false -> is_empty j s = false.
Proof.
  unfold dequeue, is_empty. destruct (queues s !! q) as [[|x l]|] eqn:E; [done| |done]. intros [= <-]. cbn. destruct (decide (q = j)) as [<-|Hj]; [by rewrite E|]. by rewrite list_lookup_insert_ne.
Qed.

Lemma call_effect i d c c' s s' : call_step i d c s = Some (c', s') -> effect i (WRun c) (WRun c') s s'.
Proof.
  intros E. destruct c as [|[]|[]|], d as [|q x| |j|]; cbn in E; try discriminate E.
  - destruct (decide _); [|done]. injection E as <- <-. split; try done; [by left|by left|by left|by right|by eauto].
  - injection E as <- <-. split; try done; [by left|by left|by right|by left|by eauto].
  - apply bind_Some in E as (s1 & E0 & E). apply lock_inv in E0 as [E1 ->]. injection E as <- <-. split; try done; [by right; left|by left|by left|by left|by left|by eauto].
  - apply bind_Some in E as (s1 & E0 & E). apply lock_inv in E0 as [E1 ->]. injection E as <- <-. split; try done; [by right; left|by left|by left|by left|by left|by left|by eauto].
  - destruct (decide _) as [Hd|]; [|done]. injection E as <- <-. split; try done; [by left|by left; split; [set_solver|done]|by left|by left| |by eauto]. intros _. right. right. exact Hd.
  - destruct (decide _) as [Hd|]; [|done]. injection E as <- <-. split; try done; [by left|by left; split; [set_solver|done]|by left|by left| |by eauto]. intros _. right. left. exists j. cbn. set_solver.
  - injection E as <- <-. split; try done; [by left|by left; split; [set_solver|done]|by left|by left|by right; right|by right|by eauto].
  - injection E as <- <-. split; try done; [by right; right|by left|by left|by left|by eauto].
Qed.

(** Steps that touch neither the mutex nor who sleeps, with no call on the way. *)
Lemma plain_effect i w w' s s' : mutex s' = mutex s -> sleepers s' = sleepers s -> running s' = running s -> (forall j, is_empty j s' = false -> is_empty j s = false) ->
  holds w' = holds w -> to_notify w = false -> w <> WWait -> (forall c, w <> WRun c) -> (forall k, w' <> WCheck (S k)) -> effect i w w' s s'.
Proof.
  intros H1 H2 H3 H4 H5 H6 H7 H8 H9. split; [by left|left; by rewrite H2|by left|by left|by destruct w; try done; destruct (H8 c)|by rewrite H6|by destruct w; try done; destruct (H8 c)|by intros k ?; destruct (H9 k)|].
  intros _ [c ?]. by destruct (H8 c).
Qed.

(** Taking the mutex to look at the queues. *)
Lemma lock_effect i w s : mutex s = None -> (w = WLock \/ w = WWait /\ i ∉ sleepers s) -> effect i w (WCheck 0) s (with_mutex (Some i) s).
Proof.
  intros Hm Hw. split; [by right; left|left; split; [done|]|by left|by left|by destruct Hw as [->|[-> _]]..|done|]; destruct Hw as [->|[-> Hi]]; try done; [by right|by intros _ [c ?]..].
Qed.

Lemma thread_effect i d w w' s s' : thread_step i d w s = Some (w', s') -> effect i w w' s s'.
Proof.
  intros E. destruct w as [|k|c| |[|k]| | |]; cbn [thread_step] in E.
  - destruct d; try discriminate E. destruct (running s); simplify_eq; by apply plain_effect.
  - destruct d; try discriminate E. destruct (decide _); [|simplify_eq; by apply plain_effect]. destruct (dequeue _ s) as [s1|] eqn:Ed; simplify_eq; [|by apply plain_effect].
    apply plain_effect; try done; [unfold dequeue in Ed; destruct (queues s !! _) as [[]|]; by simplify_eq..|]. intros j. by eapply dequeue_empty.
  - assert (Hrun : (call_step i d c s ≫= fun '(c', s') => Some (WRun c', s')) = Some (w', s') -> effect i (WRun c) w' s s').
    { intros E'. inv_bind E'. simplify_eq. by eapply call_effect. }
    destruct c as [| | |]; [destruct d|..]; try by apply Hrun. destruct (decide _) as [Hi|]; simplify_eq. split; try done; [by left|by left|by left|by left|]. intros. lia.
  - destruct d; try discriminate E. apply bind_Some in E as (s1 & E0 & E). apply lock_inv in E0 as [E1 ->]. simplify_eq. apply lock_effect; auto.
  - destruct d; try discriminate E. destruct (running s) eqn:Er; simplify_eq; [|by apply plain_effect]. split; try done; [by left|by left|by left|by left| |by intros _ [c ?]]. intros k [= <-]. split; [done|]. by left.
  - destruct d; try discriminate E. destruct (decide _).
    + destruct (is_empty k s) eqn:Ee; simplify_eq; [|by apply plain_effect]. split; try done; [by left|by left|by left|by left| |by intros _ [c ?]]. intros k' [= <-]. split; [done|]. right. by exists k.
    + simplify_eq. split; try done; try (by left); [by right; right| |by intros _ [c ?]]. right. repeat split; try done. exists k. split; [done|lia].
  - destruct d; try discriminate E; (destruct (decide _); [|discriminate E || idtac]).
    + discriminate E.
    + apply bind_Some in E as (s1 & E0 & E). apply lock_inv in E0 as [E1 ->]. simplify_eq. apply lock_effect; auto.
    + simplify_eq. split; try done; try (by intros _ [c ?]); try (by left). left. split; [set_solver|by left].
  - destruct d; try discriminate E. simplify_eq. split; try done; try (by left); try (by intros _ [c ?]). by right; right.
  - destruct d; discriminate E.
Qed.

Section Preserve.
Context (i : nat) (w w' : Thread) (s s' : Shared) (ts : list Thread).
Context (Hi : ts !! i = Some w) (Hok : park_ok (mkState s ts)) (He : effect i w w' s s').

Lemma now_at j v : <[i := w']> ts !! j = Some v -> j = i /\ v = w' \/ j <> i /\ ts !! j = Some v.
Proof.
  destruct (decide (j = i)) as [->|Hj]; [rewrite list_lookup_insert_eq by (by eapply lookup_lt_Some); intros [= <-]; by left|rewrite list_lookup_insert_ne by done; by right].
Qed.

(** Nobody locks while another thread checks the queues. *)
Lemma checking_excludes j k : j <> i -> ts !! j = Some (WCheck k) -> to_lock w = false.
Proof.
  intros Hj Ej. destruct (to_lock w) eqn:E; [|done]. pose proof (ef_lock _ _ _ _ _ He E) as Hm. assert (K : mutex s = Some j) by (apply (po_mutex _ Hok); by eexists). by rewrite Hm in K.
Qed.

Lemma keep_mutex j : mutex s' = Some j <-> exists v, <[i := w']> ts !! j = Some v /\ holds v = true.
Proof.
  pose proof (po_mutex _ Hok) as HM. cbn in HM. assert (Hat : <[i := w']> ts !! i = Some w') by (apply list_lookup_insert_eq; by eapply lookup_lt_Some).
  destruct (decide (j = i)) as [->|Hj].
  - rewrite Hat. destruct (ef_mutex _ _ _ _ _ He) as [[K1 K2]|[(K1 & K2 & K3)|(K1 & K2 & K3)]].
    + rewrite K1, HM, Hi. split; intros (v & [= <-] & Hv); eexists; (split; [done|congruence]).
    + split; [|done]. intros _. by eexists.
    + rewrite K2. split; [done|]. intros (v & [= <-] & Hv). congruence.
  - rewrite list_lookup_insert_ne by done. destruct (ef_mutex _ _ _ _ _ He) as [[K1 K2]|[(K1 & K2 & K3)|(K1 & K2 & K3)]].
    + by rewrite K1.
    + rewrite K2. split; [congruence|]. intros H. apply HM in H. congruence.
    + rewrite K2. split; [done|]. intros H. apply HM in H. assert (K : mutex s = Some i) by (apply HM; by eexists). congruence.
Qed.

Lemma keep_sleepers j : j ∈ sleepers s' -> <[i := w']> ts !! j = Some WWait.
Proof.
  intros Hs. assert (Hold : j ∈ sleepers s -> ts !! j = Some WWait) by apply (po_sleepers _ Hok). destruct (decide (j = i)) as [->|Hj].
  - rewrite list_lookup_insert_eq by (by eapply lookup_lt_Some). f_equal. destruct (ef_sleep _ _ _ _ _ He) as [[K1 K2]|(K & _)]; [|done].
    assert (K : i ∈ sleepers s) by set_solver. specialize (Hold K). rewrite Hi in Hold. injection Hold as Hw. by destruct (K2 Hw).
  - rewrite list_lookup_insert_ne by done. apply Hold. destruct (ef_sleep _ _ _ _ _ He) as [[K1 _]|(_ & K & _)]; set_solver.
Qed.

Lemma keep_flag j k : <[i := w']> ts !! j = Some (WCheck (S k)) -> running s' = false -> some_thread to_lock_all (mkState s' (<[i := w']> ts)).
Proof.
  intros Ej Hr. destruct (ef_flag _ _ _ _ _ He) as [Er|Ha]; [|by eapply some_thread_insert; [done|left]]. rewrite Er in Hr. destruct (now_at _ _ Ej) as [[-> Ew]|[Hj Eo]].
  - destruct (ef_check _ _ _ _ _ He k (eq_sym Ew)) as [_ [[_ K]|(k' & _ & Kw & _)]]; [congruence|]. eapply some_thread_keep; [done| |eapply (po_flag _ Hok i k'); [cbn; congruence|done]]. by rewrite Kw.
  - eapply some_thread_keep; [done| |by eapply (po_flag _ Hok)]. pose proof (checking_excludes j _ Hj Eo). by destruct w as [| |[|[]| |]| | | | |].
Qed.

Lemma keep_checked j k q : <[i := w']> ts !! j = Some (WCheck (S k)) -> q < k -> is_empty q s' = false -> some_thread to_lock (mkState s' (<[i := w']> ts)).
Proof.
  intros Ej Hq Hn. destruct (ef_queues _ _ _ _ _ He) as [Eq|Ha]; [|by eapply some_thread_insert; [done|left]]. apply Eq in Hn. destruct (now_at _ _ Ej) as [[-> Ew]|[Hj Eo]].
  - destruct (ef_check _ _ _ _ _ He k (eq_sym Ew)) as [_ [[K _]|(k' & -> & Kw & Ke)]]; [lia|]. assert (Hk : q <> k') by congruence. eapply some_thread_keep; [done| |eapply (po_checked _ Hok i k' q); [cbn; congruence|lia|done]]. by rewrite Kw.
  - eapply some_thread_keep; [done| |by eapply (po_checked _ Hok j k q)]. by rewrite (checking_excludes j _ Hj Eo).
Qed.

Lemma keep_work q : q < 2 * n -> is_empty q s' = false -> (forall j, j < num_threads -> j ∈ sleepers s') -> 0 < num_threads -> some_thread to_notify (mkState s' (<[i := w']> ts)).
Proof.
  intros Hq Hn Hall H0. destruct (ef_queues _ _ _ _ _ He) as [Eq|Ha]; [|eapply some_thread_insert; [done|left]; by destruct w' as [| |[]| | | | |]]. apply Eq in Hn.
  destruct (ef_sleep _ _ _ _ _ He) as [[Hsub _]|(-> & Es & _ & _ & k & -> & Hk)].
  - assert (Hall' : forall j, j < num_threads -> j ∈ sleepers s) by set_solver. destruct (po_work _ Hok q Hq Hn Hall' H0) as (j & v & Ej & Hv). apply some_thread_insert with (1 := Hi). cbn in Ej.
    destruct (decide (j = i)) as [->|Hj]; [left|right; by exists j, v]. rewrite Hi in Ej. injection Ej as <-. destruct (ef_notify _ _ _ _ _ He Hv) as [|[(j & H1 & H2)|H]]; [done|..].
    + destruct (decide (j < num_threads)) as [Hj|Hj]; [by destruct H2; apply Hall|]. apply (po_sleepers _ Hok) in H1. destruct (po_others _ Hok j WWait) as [c Hc]; [lia|done|done].
    + specialize (Hall 0 H0). set_solver.
  - eapply some_thread_keep; [done|done|]. destruct (po_checked _ Hok i k q Hi ltac:(lia) Hn) as (j & v & Ej & Hv). exists j, v. split; [done|]. by destruct v as [| |[]| | | | |].
Qed.

Lemma keep_stop : running s' = false -> sleepers s' <> ∅ -> some_thread to_notify_all (mkState s' (<[i := w']> ts)).
Proof.
  intros Hr Hs. destruct (ef_flag _ _ _ _ _ He) as [Er|Ha]; [|eapply some_thread_insert; [done|left]; by destruct w' as [| |[|[]| |]| | | | |]]. rewrite Er in Hr.
  destruct (ef_sleep _ _ _ _ _ He) as [[Hsub _]|(-> & Es & _ & _ & k & -> & Hk)].
  - assert (Hs' : sleepers s <> ∅) by set_solver. destruct (po_stop _ Hok Hr Hs') as (j & v & Ej & Hv). apply some_thread_insert with (1 := Hi). cbn in Ej.
    destruct (decide (j = i)) as [->|Hj]; [left|right; by exists j, v]. rewrite Hi in Ej. injection Ej as <-. by destruct (ef_all _ _ _ _ _ He Hv).
  - eapply some_thread_keep; [done|done|]. destruct (po_flag _ Hok i k Hi Hr) as (j & v & Ej & Hv). exists j, v. split; [done|]. by destruct v as [| |[|[]| |]| | | | |].
Qed.

Lemma keep_ok : park_ok (mkState s' (<[i := w']> ts)).
Proof.
  split; cbn [shared threads].
  - apply keep_mutex.
  - apply keep_sleepers.
  - intros j v Hj Ej. destruct (now_at _ _ Ej) as [[-> ->]|[_ Eo]]; [|by eapply (po_others _ Hok)]. apply (ef_other _ _ _ _ _ He Hj). by eapply (po_others _ Hok).
  - apply keep_flag.
  - apply keep_checked.
  - apply keep_work.
  - apply keep_stop.
Qed.
End Preserve.

Lemma init_ok others : park_ok (init others).
Proof.
  assert (Hat : forall i w, (replicate num_threads WTop ++ replicate others (WRun Idle)) !! i = Some w -> w = WTop \/ w = WRun Idle).
  { intros i w [E|[_ E]]%lookup_app_Some; apply lookup_replicate in E as [-> _]; [by left|by right]. }
  assert (Hem : forall q, is_empty q (mkShared (replicate (2 * n) []) true None ∅) = true).
  { intros q. unfold is_empty. cbn [queues]. destruct (replicate (2 * n) [] !! q) as [l|] eqn:E; [|done]. by apply lookup_replicate in E as [-> _]. }
  split; cbn [shared threads init mutex sleepers running]; try done.
  - intros i. split; [done|]. intros (w & E & Hw). by destruct (Hat _ _ E) as [->| ->].
  - intros i w Hi [E|[_ E]]%lookup_app_Some; apply lookup_replicate in E as [-> ?]; [lia|by eexists].
  - intros i k j _ _. by rewrite Hem.
  - intros j _. by rewrite Hem.
Qed.

Lemma reachable_ok others st : reachable others st -> park_ok st.
Proof.
  intros Hr. apply (rtc_ind_r (R := steps_to) park_ok (init others)); [apply init_ok| |exact Hr]. intros [s ts] st' _ (i & d & E) Hok. unfold step in E. cbn [threads shared] in E.
  apply bind_Some in E as (w & Ew & E). apply bind_Some in E as ([w' s'] & Es & E). injection E as <-. eapply keep_ok; [done|done|]. by eapply thread_effect.
Qed.

Lemma holder_moves i w s : holds w = true -> exists d w' s', thread_step i d w s = Some (w', s').
Proof.
  intros Hw. destruct w as [| |[| |[]|]| |[|k]| | |]; try done.
  - destruct (decide (sleepers s = ∅)) as [E|E]; [exists Go|apply set_choose_L in E as [j Hj]; exists (WakeOne j)]; cbn; rewrite decide_True by done; by eexists _, _.
  - exists Go. by eexists _, _.
  - exists Go. by eexists _, _.
  - exists Go. by eexists _, _.
  - exists Go. cbn. destruct (decide _); by eexists _, _.
  - exists Go. by eexists _, _.
Qed.

(** C30: No wake-up is lost, in any interleaving of the workers with any number of
    threads that schedule, post and stop.  If every worker is asleep while a
    task or a callback is queued, some thread is on its way to notify one; if
    the loop has been stopped while a worker is asleep, some thread is on its
    way to notify them all; a notification does wake a sleeper if there is
    one; and no thread can keep the others from getting on, since at most one
    holds the mutex and it can always take its next step. *)
Theorem no_worker_sleeps_over_work others st : reachable others st ->
  (forall q, q < 2 * n -> is_empty q (shared st) = false -> 0 < num_threads -> (forall i, i < num_threads -> i ∈ sleepers (shared st)) -> some_thread to_notify st) /\
  (running (shared st) = false -> sleepers (shared st) <> ∅ -> some_thread to_notify_all st) /\
  (forall i m d st', threads st !! i = Some (WRun (ToNotify m)) -> step i d st = Some st' -> sleepers (shared st) <> ∅ -> exists j, j ∈ sleepers (shared st) /\ j ∉ sleepers (shared st')) /\
  (forall i, mutex (shared st) = Some i -> exists d, is_Some (step i d st)).
Proof.
  intros Hr. apply reachable_ok in Hr as Hok. split; [intros q Hq Hn H0 Hall; by apply (po_work _ Hok q)|]. split; [by apply po_stop|]. split.
  - intros i m d st' Ei E Hs. unfold step in E. rewrite Ei in E. cbn [mbind option_bind] in E. apply bind_Some in E as ([w' s'] & Es & E). injection E as <-. cbn [shared].
    destruct m, d; cbn in Es; try discriminate Es.
    + destruct (decide _); [done|discriminate Es].
    + destruct (decide _); [|discriminate Es]. injection Es as <- <-. exists j. cbn. set_solver.
    + injection Es as <- <-. apply set_choose_L in Hs as [j Hj]. exists j. cbn. set_solver.
  - intros i Hm. apply (po_mutex _ Hok) in Hm as (w & Ei & Hw). destruct (holder_moves i w (shared st) Hw) as (d & w' & s' & E). exists d. unfold step. rewrite Ei. cbn. rewrite E. by eexists.
Qed.
End Parking.

(** A worker has gone to sleep when another thread queues a callback. *)
Definition asleep : option (State (C := nat)) := foldl (fun st x => st ≫= step 1 1 x.1 x.2) (Some (init 1 1 1)) (replicate 9 (0, Go) ++ [(1, Enqueue 1 7)]).

Lemma no_worker_sleeps_over_work_witness : exists st, asleep = Some st /\ sleepers (shared st) = {[0]} /\ some_thread to_notify st.
Proof.
  assert (E : asleep = Some (mkState (mkShared [[]; [7]] true None {[0]}) [WWait; WRun (ToLock One)])) by (vm_compute; reflexivity). eexists. split; [exact E|]. split; [done|].
  destruct (no_worker_sleeps_over_work 1 1 1 (mkState (mkShared [[]; [7]] true None {[0]}) [WWait; WRun (ToLock One)])) as [H _].
  - assert (Hf : forall l st st', foldl (fun st x => st ≫= step 1 1 x.1 x.2) (Some st) l = Some st' -> rtc (steps_to (C := nat) 1 1) st st').
    { induction l as [|x l IH]; intros st st' El; cbn in El; [by injection El as ->|]. destruct (step 1 1 x.1 x.2 st) as [st1|] eqn:E1; [eapply rtc_l; [by exists x.1, x.2|by apply IH]|].
      exfalso. clear -El. induction l as [|y l IHl]; [discriminate El|by apply IHl]. }
    exact (Hf _ _ _ E).
  - apply (H 1); [lia|reflexivity|lia|]. intros [|i] Hi; [set_solver|lia].
Defined.
