(* ===== verification/Resume.v ===== *)
(** * Resuming coroutines

    [resume_with_depth_bound] and [drain_pending_resumes] of
    include/libspaznet/platform/io_context.hpp.  A resumed coroutine runs until
    it suspends, and on the way resumes others: the one it awaits, or the one
    that awaited it when it finishes.  What each does is arbitrary.  The native
    stack is explicit: a resumption that is under way has left an [After] on
    it.  The theorem is that the stack stays bounded, whatever the length of
    the chain, and that deferring loses and repeats nothing. *)
From stdpp Require Import base list sorting.
From S2P Require Import Prelude.

Local Open Scope Z_scope.

Section Resume.
Context {H B : Type}.

(** A [PendingResume]: the handle, if it is one, and the control block to
    release after it. *)
Record Request := mkRequest { handle : option H; cb_to_release : option B }.

Definition kResumeDepthThreshold : Z := 32.

Inductive Event := Asked (r : Request) | Resumed (r : Request) | Finished (r : Request) | Released (b : B).

Inductive Item :=
| Call (r : Request)    (* [resume_with_depth_bound] *)
| Enter (r : Request)   (* an entry of [drain_pending_resumes] *)
| Run (r : Request)     (* [handle.resume()] *)
| After (r : Request)   (* what follows it *)
| Drain.                (* [while (!g_pending_resumes.empty())] *)

Record Thread := mkThread { g_resume_depth : Z; g_pending_resumes : list Request; events : list Event }.

(** What a coroutine asks to be resumed in the course of a resumption, given
    all that has happened. *)
Context (body : list Event -> H -> list Request).

Definition note (e : Event) (t : Thread) : Thread := mkThread (g_resume_depth t) (g_pending_resumes t) (events t ++ [e]).
Definition set_depth (d : Z) (t : Thread) : Thread := mkThread d (g_pending_resumes t) (events t).
Definition set_pending (l : list Request) (t : Thread) : Thread := mkThread (g_resume_depth t) l (events t).

Definition release (b : option B) (t : Thread) : Thread := match b with Some b => note (Released b) t | None => t end.

(** The continuation of a resumption is what is left on the stack. *)
Definition resume_with_depth_bound (r : Request) (rest : list Item) (t : Thread) : list Item * Thread :=
  let t := note (Asked r) t in
  match handle r with
  | None => (rest, release (cb_to_release r) (note (Finished r) t))
  | Some _ =>
      if kResumeDepthThreshold <=? g_resume_depth t then (rest, set_pending (g_pending_resumes t ++ [r]) t)
      else (Run r :: After r :: rest, set_depth (g_resume_depth t + 1) t)
  end.

Definition drain_pending_resumes (rest : list Item) (t : Thread) : list Item * Thread :=
  match g_pending_resumes t with
  | [] => (rest, t)
  | pending => ((Enter <$> pending) ++ Drain :: rest, set_pending [] t)
  end.

Definition step (it : Item) (rest : list Item) (t : Thread) : list Item * Thread :=
  match it with
  | Call r => resume_with_depth_bound r rest t
  | Enter r => (Run r :: After r :: rest, set_depth (g_resume_depth t + 1) t)
  | Run r => (match handle r with Some h => Call <$> body (events t) h | None => [] end ++ rest, note (Resumed r) t)
  | After r => (rest, release (cb_to_release r) (note (Finished r) (set_depth (g_resume_depth t - 1) t)))
  | Drain => drain_pending_resumes rest t
  end.

(** A worker's [task.resume(); drain_pending_resumes()]: the task itself is not
    counted. *)
Definition start (r : Request) : list Item * Thread := ([Run r; Drain], mkThread 0 [] []).

Inductive steps : list Item * Thread -> list Item * Thread -> Prop :=
| steps_refl st : steps st st
| steps_one st it rest t : steps st (it :: rest, t) -> steps st (step it rest t).

(** ** What happened *)

Definition asked (l : list Event) : list Request := flat_map (fun e => match e with Asked r => [r] | _ => [] end) l.
Definition resumed (l : list Event) : list Request := flat_map (fun e => match e with Resumed r => [r] | _ => [] end) l.
Definition finished (l : list Event) : list Request := flat_map (fun e => match e with Finished r => [r] | _ => [] end) l.
Definition released (l : list Event) : list B := flat_map (fun e => match e with Released b => [b] | _ => [] end) l.
Definition to_release (l : list Request) : list B := flat_map (fun r => option_list (cb_to_release r)) l.

(** Resumptions under way, those about to start, and those a drain has taken
    from the queue. *)
Definition under_way (items : list Item) : list Request := flat_map (fun it => match it with After r => [r] | _ => [] end) items.
Definition starting (items : list Item) : list Request := flat_map (fun it => match it with Run r => [r] | _ => [] end) items.
Definition taken (items : list Item) : list Request := flat_map (fun it => match it with Enter r => [r] | _ => [] end) items.

Definition real (r : Request) : bool := match handle r with Some _ => true | None => false end.

(** A drain is at the bottom of the stack. *)
Fixpoint bottom (items : list Item) : Prop :=
  match items with
  | [] => False
  | [Drain] => True
  | it :: rest => (match it with Drain => False | Enter _ => under_way rest = [] | _ => True end) /\ bottom rest
  end.

Record bounded (r0 : Request) (st : list Item * Thread) : Prop := {
  bd_depth : g_resume_depth st.2 = Z.of_nat (length (under_way st.1));
  bd_bound : g_resume_depth st.2 <= kResumeDepthThreshold;
  bd_asked : asked (events st.2) ≡ₚ finished (events st.2) ++ under_way st.1 ++ taken st.1 ++ g_pending_resumes st.2;
  bd_resumed : resumed (events st.2) ++ starting st.1 ≡ₚ r0 :: List.filter real (finished (events st.2)) ++ under_way st.1;
  bd_released : released (events st.2) = to_release (finished (events st.2));
  bd_real : Forall (fun r => real r = true) (under_way st.1 ++ taken st.1 ++ g_pending_resumes st.2);
  bd_bottom : bottom st.1 \/ st.1 = [] /\ g_pending_resumes st.2 = [] }.

Lemma bottom_calls l rest : bottom rest -> bottom ((Call <$> l) ++ rest).
Proof. intros Hr. induction l as [|r l IH]; [done|]. cbn. destruct ((Call <$> l) ++ rest) eqn:E; [by destruct l|]. by split. Qed.

Lemma bottom_tail it rest : bottom (it :: rest) -> it = Drain /\ rest = [] \/ it <> Drain /\ bottom rest.
Proof. cbn. destruct rest as [|x l]; destruct it; try (by intros []); try (by left); intros [H1 H2]; try done; by right. Qed.

Lemma bottom_cons it rest : (match it with Drain => False | Enter _ => under_way rest = [] | _ => True end) -> bottom rest -> bottom (it :: rest).
Proof. intros H1 H2. cbn. destruct rest; [done|]. destruct it; done. Qed.

Lemma fm_snoc {X Y} (f : X -> list Y) l x : flat_map f (l ++ [x]) = flat_map f l ++ f x.
Proof. rewrite flat_map_app. cbn. by rewrite app_nil_r. Qed.

Lemma under_way_calls l rest : under_way ((Call <$> l) ++ rest) = under_way rest /\ taken ((Call <$> l) ++ rest) = taken rest /\ starting ((Call <$> l) ++ rest) = starting rest.
Proof. unfold under_way, taken, starting. induction l as [|r l (IH1 & IH2 & IH3)]; [done|]. by cbn. Qed.

Lemma taken_enters l rest : under_way ((Enter <$> l) ++ rest) = under_way rest /\ taken ((Enter <$> l) ++ rest) = l ++ taken rest /\ starting ((Enter <$> l) ++ rest) = starting rest.
Proof. unfold under_way, taken, starting. induction l as [|r l (IH1 & IH2 & IH3)]; [done|]. cbn. by rewrite IH2. Qed.

Lemma finish_null r (t : Thread) : let t' := release (cb_to_release r) (note (Finished r) t) in
  g_resume_depth t' = g_resume_depth t /\ g_pending_resumes t' = g_pending_resumes t /\ asked (events t') = asked (events t) /\ resumed (events t') = resumed (events t) /\
  finished (events t') = finished (events t) ++ [r] /\ released (events t') = released (events t) ++ option_list (cb_to_release r).
Proof.
  unfold asked, resumed, finished, released. destruct (cb_to_release r); cbn; rewrite ?fm_snoc; cbn; rewrite ?app_nil_r; done.
Qed.

Lemma to_release_snoc l r : to_release (l ++ [r]) = to_release l ++ option_list (cb_to_release r).
Proof. unfold to_release. by rewrite fm_snoc. Qed.

Lemma bounded_after r0 r rest t : bounded r0 (After r :: rest, t) -> bounded r0 (step (After r) rest t).
Proof.
  intros [H1 H2 H3 H4 H5 H6 H7]. cbn [fst snd step] in *. destruct (finish_null r (set_depth (g_resume_depth t - 1) t)) as (E1 & E2 & E3 & E4 & E5 & E6). cbn in H1, H6.
  split; cbn [fst snd]; rewrite ?E1, ?E2, ?E3, ?E4, ?E5, ?E6; cbn [g_resume_depth g_pending_resumes events set_depth].
  - fold (under_way rest) in H1. lia.
  - lia.
  - rewrite H3. cbn. fold (under_way rest). solve_Permutation.
  - rewrite List.filter_app. cbn in *. apply Forall_cons in H6 as [H6 _]. rewrite H6. fold (starting rest) in H4. fold (under_way rest) in H4. rewrite H4. solve_Permutation.
  - by rewrite H5, to_release_snoc.
  - by apply Forall_cons in H6 as [_ ?].
  - destruct H7 as [H7|[? _]]; [|done]. destruct (bottom_tail _ _ H7) as [[? _]|[_ ?]]; [done|by left].
Qed.

Lemma bounded_call r0 r rest t : bounded r0 (Call r :: rest, t) -> bounded r0 (step (Call r) rest t).
Proof.
  intros [H1 H2 H3 H4 H5 H6 H7]. cbn [fst snd] in *. unfold step, resume_with_depth_bound. assert (Hb : bottom rest).
  { destruct H7 as [H7|[? _]]; [|done]. by destruct (bottom_tail _ _ H7) as [[? _]|[_ ?]]. }
  assert (Ea : asked (events (note (Asked r) t)) = asked (events t) ++ [r]) by (unfold asked; cbn; by rewrite fm_snoc).
  assert (Ef : finished (events (note (Asked r) t)) = finished (events t)) by (unfold finished; cbn; by rewrite fm_snoc, app_nil_r).
  assert (Er : resumed (events (note (Asked r) t)) = resumed (events t)) by (unfold resumed; cbn; by rewrite fm_snoc, app_nil_r).
  assert (El : released (events (note (Asked r) t)) = released (events t)) by (unfold released; cbn; by rewrite fm_snoc, app_nil_r).
  change (under_way (Call r :: rest)) with (under_way rest) in *. change (taken (Call r :: rest)) with (taken rest) in *. change (starting (Call r :: rest)) with (starting rest) in *.
  destruct (handle r) as [h|] eqn:Eh.
  - assert (Hr : real r = true) by (unfold real; by rewrite Eh). destruct (Z.leb_spec kResumeDepthThreshold (g_resume_depth (note (Asked r) t))) as [Hd|Hd].
    + split; cbn [fst snd g_resume_depth g_pending_resumes set_pending events]; rewrite ?Ea, ?Ef, ?Er, ?El; try done; [|..|by left].
      * rewrite H3. solve_Permutation.
      * rewrite !app_assoc. apply Forall_app. split; [by rewrite <- app_assoc|by apply Forall_singleton].
    + split; cbn [fst snd g_resume_depth g_pending_resumes set_depth events]; rewrite ?Ea, ?Ef, ?Er, ?El; try done; [| | | | |left; by repeat apply bottom_cons].
      * change (g_resume_depth (note (Asked r) t)) with (g_resume_depth t). rewrite H1. cbn. fold (under_way rest). lia.
      * lia.
      * rewrite H3. cbn. fold (under_way rest) (taken rest). solve_Permutation.
      * cbn. fold (starting rest) (under_way rest). rewrite <- Permutation_middle, H4. cbn. solve_Permutation.
      * cbn. by apply Forall_cons.
  - destruct (finish_null r (note (Asked r) t)) as (E1 & E2 & E3 & E4 & E5 & E6). split; cbn [fst snd]; rewrite ?E1, ?E2, ?E3, ?E4, ?E5, ?E6, ?Ea, ?Ef, ?Er, ?El; try done; [| | |by left].
    + cbn. rewrite H3. solve_Permutation.
    + rewrite List.filter_app. cbn. unfold real. rewrite Eh. by rewrite app_nil_r.
    + by rewrite H5, to_release_snoc.
Qed.

Lemma bounded_enter r0 r rest t : bounded r0 (Enter r :: rest, t) -> bounded r0 (step (Enter r) rest t).
Proof.
  intros [H1 H2 H3 H4 H5 H6 H7]. cbn [fst snd] in *. change (under_way (Enter r :: rest)) with (under_way rest) in *. change (taken (Enter r :: rest)) with (r :: taken rest) in *. change (starting (Enter r :: rest)) with (starting rest) in *.
  assert (Hb : bottom rest /\ under_way rest = []). { destruct H7 as [H7|[? _]]; [|done]. destruct (bottom_tail _ _ H7) as [[? _]|[_ ?]]; [done|]. split; [done|]. cbn in H7. destruct rest; by destruct H7. }
  destruct Hb as [Hb Hu]. rewrite Hu in *. split; cbn [step fst snd g_resume_depth g_pending_resumes set_depth events]; change (under_way (Run r :: After r :: rest)) with (r :: under_way rest);
    change (taken (Run r :: After r :: rest)) with (taken rest); change (starting (Run r :: After r :: rest)) with (r :: starting rest); rewrite ?Hu.
  - rewrite H1. done.
  - rewrite H1. cbn. unfold kResumeDepthThreshold. lia.
  - rewrite H3. done.
  - rewrite <- Permutation_middle, H4. solve_Permutation.
  - done.
  - done.
  - left. by repeat apply bottom_cons.
Qed.

Lemma bounded_run r0 r rest t : bounded r0 (Run r :: rest, t) -> bounded r0 (step (Run r) rest t).
Proof.
  intros [H1 H2 H3 H4 H5 H6 H7]. cbn [fst snd] in *. change (under_way (Run r :: rest)) with (under_way rest) in *. change (taken (Run r :: rest)) with (taken rest) in *. change (starting (Run r :: rest)) with (r :: starting rest) in *.
  assert (Hb : bottom rest). { destruct H7 as [H7|[? _]]; [|done]. by destruct (bottom_tail _ _ H7) as [[? _]|[_ ?]]. }
  cbn [step]. set (l := match handle r with Some h => body (events t) h | None => [] end). replace (match handle r with Some h => Call <$> body (events t) h | None => [] end) with (Call <$> l) by (unfold l; by destruct (handle r)).
  destruct (under_way_calls l rest) as (E1 & E2 & E3). split; cbn [fst snd g_resume_depth g_pending_resumes note events]; rewrite ?E1, ?E2, ?E3; unfold asked, finished, resumed, released in *; rewrite ?fm_snoc, ?app_nil_r; try done.
  - rewrite <- app_assoc. exact H4.
  - left. by apply bottom_calls.
Qed.

Lemma bounded_drain r0 rest t : bounded r0 (Drain :: rest, t) -> bounded r0 (step Drain rest t).
Proof.
  intros [H1 H2 H3 H4 H5 H6 H7]. cbn [fst snd] in *. assert (Hr : rest = []). { destruct H7 as [H7|[? _]]; [|done]. by destruct (bottom_tail _ _ H7) as [[_ ?]|[? _]]. }
  subst rest. cbn [step]. unfold drain_pending_resumes. destruct (g_pending_resumes t) as [|r l] eqn:Ep.
  - split; cbn [fst snd]; rewrite ?Ep; try done. by right.
  - set (pending := r :: l) in *. clearbody pending. destruct (taken_enters pending [Drain]) as (E1 & E2 & E3). split; cbn [fst snd set_pending g_resume_depth g_pending_resumes events]; rewrite ?E1, ?E2, ?E3; cbn; rewrite ?app_nil_r; try done.
    { cbn in H4. by rewrite !app_nil_r in H4. }
    left. clear. induction pending as [|r l IH]; [done|]. cbn. destruct ((Enter <$> l) ++ [Drain]) eqn:E; [by destruct l|]. rewrite <- E in *. split; [|done]. destruct (taken_enters l [Drain]) as (-> & _). done.
Qed.

Lemma steps_bounded r0 st : steps (start r0) st -> bounded r0 st.
Proof.
  intros Hs. remember (start r0) as st0 eqn:E0. induction Hs as [st|st it rest t Hs IH]; subst st.
  - split; cbn; try done. by left.
  - specialize (IH eq_refl). destruct it; [by apply bounded_call|by apply bounded_enter|by apply bounded_run|by apply bounded_after|by apply bounded_drain].
Qed.

(** Whatever the coroutines do, when a worker resumes a task and drains the
    queue: the number of resumptions nested on the native stack, the task's
    own apart, is what [g_resume_depth] says and never exceeds the threshold;
    every continuation that was handed over has been resumed and finished, is
    under way, or is queued, exactly once; the reference that came with a
    continuation is released when its resumption has returned, and once; and
    when the worker is done nothing is left in the queue. *)
Theorem resume_depth_bounded r0 items t : steps (start r0) (items, t) ->
  (g_resume_depth t = Z.of_nat (length (under_way items)) /\ g_resume_depth t <= kResumeDepthThreshold) /\
  asked (events t) ≡ₚ finished (events t) ++ under_way items ++ taken items ++ g_pending_resumes t /\
  resumed (events t) ++ starting items ≡ₚ r0 :: List.filter real (finished (events t)) ++ under_way items /\
  released (events t) = to_release (finished (events t)) /\
  (items = [] -> g_pending_resumes t = [] /\ g_resume_depth t = 0 /\ asked (events t) ≡ₚ finished (events t)).
Proof.
  intros Hs. destruct (steps_bounded r0 _ Hs) as [H1 H2 H3 H4 H5 _ H7]. cbn [fst snd] in *. split_and!; try done. intros ->. destruct H7 as [[]|[_ Hp]]. rewrite Hp in *. cbn in *. rewrite app_nil_r in H3. done.
Qed.
End Resume.

(** ** Example *)

(** Coroutine [n] hands over to [n + 1], up to the hundredth. *)
Definition chain (l : list (Event (H := nat) (B := nat))) (h : nat) : list (Request (H := nat) (B := nat)) := if (h <? 100)%nat then [mkRequest (Some (S h)) (Some h)] else [].

Fixpoint run_steps (fuel : nat) (st : list (Item (H := nat) (B := nat)) * Thread) : list (Item (H := nat) (B := nat)) * Thread :=
  match fuel, st with S fuel, (it :: rest, t) => run_steps fuel (step chain it rest t) | _, _ => st end.

Lemma run_steps_steps fuel st0 st : steps chain st0 st -> steps chain st0 (run_steps fuel st).
Proof. revert st. induction fuel as [|fuel IH]; intros [[|it rest] t] Hs; try done. cbn [run_steps]. apply IH. by constructor. Qed.

(** The chain is a hundred long, the stack 32 deep. *)
Lemma resume_depth_bounded_witness :
  let st := run_steps 65 (start (mkRequest (Some 0%nat) None)) in let st' := run_steps 1000 (start (mkRequest (Some 0%nat) None)) in
  g_resume_depth st.2 <= kResumeDepthThreshold /\ length (under_way st.1) = 32%nat /\ st'.1 = [] /\ g_pending_resumes st'.2 = [] /\ length (resumed (events st'.2)) = 101%nat.
Proof.
  cbv zeta. set (st := run_steps 65 _). set (st' := run_steps 1000 _).
  assert (Hs : steps chain (start (mkRequest (Some 0%nat) None)) st) by (apply run_steps_steps; constructor). assert (Hs' : steps chain (start (mkRequest (Some 0%nat) None)) st') by (apply run_steps_steps; constructor).
  assert (E1 : length (under_way st.1) = 32%nat) by (vm_compute; reflexivity). assert (E2 : st'.1 = []) by (vm_compute; reflexivity). assert (E3 : length (resumed (events st'.2)) = 101%nat) by (vm_compute; reflexivity). clearbody st st'.
  destruct st as [items t], st' as [items' t']. destruct (resume_depth_bounded chain _ _ _ Hs) as [[_ H2] _]. destruct (resume_depth_bounded chain _ _ _ Hs') as (_ & _ & _ & _ & H). cbn in E2. destruct (H E2) as [H3 _]. done.
Defined.
