(* ===== verification/Coroutine.v ===== *)
(** * The lifetime of coroutines

    The control blocks of include/libspaznet/platform/io_context.hpp: one per
    coroutine frame, counting the [CoroutineHandle]s that refer to it, wherever
    they are stored, and the continuations that will be resumed.  Handles live
    in the locals of a frame or outside all frames (a queue, the descriptor
    table, a timer); destroying a frame destroys its locals, which may release
    further frames.  The theorem is that the counts are exact, so that no frame
    is used or released after its destruction; the defects are frames which
    refer to each other, and the reference a suspended coroutine leaves in a
    frame that is destroyed before it finishes. *)
From stdpp Require Import gmap.
From S2P Require Import Prelude.

Local Open Scope Z_scope.

(** [CoroutineControlBlock*]. *)
Abbreviation ptr := positive (only parsing).

(** A control block with what its frame holds: the handles among its locals,
    and [continuation_cb] of its promise. *)
Record Block := mkBlock { ref_count : Z; locals : list ptr; continuation_cb : option ptr }.

(** [lost]: the continuations of frames destroyed before they finished, which
    were counted when the awaiting coroutine suspended and are released by
    nobody; no code reads this list. *)
Record World := mkWorld {
  blocks : gmap ptr Block;
  outside : list ptr;
  lost : list ptr;
  total_coroutines_created : Z;
  active_coroutines : Z;
  total_memory_bytes : Z }.

Definition ESTIMATED_COROUTINE_FRAME_SIZE : Z := 512.

Definition set_blocks (m : gmap ptr Block) (w : World) : World :=
  mkWorld m (outside w) (lost w) (total_coroutines_created w) (active_coroutines w) (total_memory_bytes w).
Definition set_outside (l : list ptr) (w : World) : World :=
  mkWorld (blocks w) l (lost w) (total_coroutines_created w) (active_coroutines w) (total_memory_bytes w).

(** [add_ref_coroutine_control_block]; [None] is an access to a block that is
    not there. *)
Definition add_ref (p : ptr) (w : World) : option World :=
  b ← blocks w !! p; Some (set_blocks (<[p := mkBlock (ref_count b + 1) (locals b) (continuation_cb b)]> (blocks w)) w).

(** [release_coroutine_control_block] on each of the references given: the last
    one destroys the frame, and with it its locals. *)
Definition release_step (st : list ptr * World) : (list ptr * World) + option World :=
  let '(todo, w) := st in
  match todo with
  | [] => inr (Some w)
  | p :: todo =>
      match blocks w !! p with
      | None => inr None
      | Some b =>
          if ref_count b =? 1 then
            inl (locals b ++ todo,
                 mkWorld (delete p (blocks w)) (outside w) (option_list (continuation_cb b) ++ lost w)
                   (total_coroutines_created w) (active_coroutines w - 1) (total_memory_bytes w - ESTIMATED_COROUTINE_FRAME_SIZE))
          else inl (todo, set_blocks (<[p := mkBlock (ref_count b - 1) (locals b) (continuation_cb b)]> (blocks w)) w)
      end
  end.

(** All references there are: handles and the continuations of frames. *)
Definition frame_refs (b : Block) : list ptr := locals b ++ option_list (continuation_cb b).
Definition all_frames (m : gmap ptr Block) : list ptr := concat (frame_refs <$> (map_to_list m).*2).
Definition references (w : World) : list ptr := outside w ++ all_frames (blocks w).

(** What has been counted. *)
Definition accounted (w : World) : list ptr := lost w ++ references w.

Definition release_all (todo : list ptr) (w : World) : option World :=
  match loop release_step (S (length (todo ++ accounted w))) (todo, w) with Some r => r | None => None end.

(** Where a handle is stored: among the locals of a frame, or outside. *)
Abbreviation owner := (option ptr) (only parsing).

Definition give (o : owner) (p : ptr) (w : World) : option World :=
  match o with
  | None => Some (set_outside (p :: outside w) w)
  | Some f => b ← blocks w !! f; Some (set_blocks (<[f := mkBlock (ref_count b) (p :: locals b) (continuation_cb b)]> (blocks w)) w)
  end.

(** One occurrence. *)
Fixpoint take_one (p : ptr) (l : list ptr) : option (list ptr) :=
  match l with
  | [] => None
  | q :: l => if decide (q = p) then Some l else l' ← take_one p l; Some (q :: l')
  end.

Definition take (o : owner) (p : ptr) (w : World) : option World :=
  match o with
  | None => l ← take_one p (outside w); Some (set_outside l w)
  | Some f => b ← blocks w !! f; l ← take_one p (locals b); Some (set_blocks (<[f := mkBlock (ref_count b) l (continuation_cb b)]> (blocks w)) w)
  end.

(** [make_coroutine_control_block] and [adopt]. *)
Definition create (o : owner) (w : World) : option (ptr * World) :=
  let p := fresh (dom (blocks w)) in
  let w := mkWorld (<[p := mkBlock 1 [] None]> (blocks w)) (outside w) (lost w) (total_coroutines_created w + 1) (active_coroutines w + 1)
             (total_memory_bytes w + ESTIMATED_COROUTINE_FRAME_SIZE) in
  w ← give o p w; Some (p, w).

(** The copy constructor, [from_handle]. *)
Definition copy_handle (o : owner) (p : ptr) (w : World) : option World := w ← add_ref p w; give o p w.

(** The move constructor. *)
Definition move_handle (o o' : owner) (p : ptr) (w : World) : option World := w ← take o p w; give o' p w.

(** The destructor. *)
Definition drop_handle (o : owner) (p : ptr) (w : World) : option World := w ← take o p w; release_all [p] w.

(** Copy assignment, [*this] being another handle: what it held is released
    first. *)
Definition assign_handle (o : owner) (old new : ptr) (w : World) : option World := w ← drop_handle o old w; copy_handle o new w.

Definition set_continuation (p : ptr) (c : option ptr) (w : World) : option World :=
  b ← blocks w !! p; Some (set_blocks (<[p := mkBlock (ref_count b) (locals b) c]> (blocks w)) w).

(** [io_task_suspend] for an awaiting coroutine with a control block. *)
Definition io_task_suspend (awaited awaiter : ptr) (w : World) : option World :=
  b ← blocks w !! awaited;
  w ← match continuation_cb b with
      | Some c => w ← set_continuation awaited None w; release_all [c] w
      | None => Some w
      end;
  w ← add_ref awaiter w;
  set_continuation awaited (Some awaiter) w.

(** [TaskFinalAwaiter]: the reference goes to [resume_with_depth_bound], which
    releases it later. *)
Definition final_suspend (p : ptr) (w : World) : option World :=
  b ← blocks w !! p;
  match continuation_cb b with
  | Some c => w ← set_continuation p None w; give None c w
  | None => Some w
  end.

Inductive Op :=
| OCreate (o : owner)
| OCopy (o : owner) (p : ptr)
| OMove (o o' : owner) (p : ptr)
| ODrop (o : owner) (p : ptr)
| OSuspend (awaited awaiter : ptr)
| OFinal (p : ptr).

Definition run_op (w : World) (op : Op) : option World :=
  match op with
  | OCreate o => '(_, w) ← create o w; Some w
  | OCopy o p => copy_handle o p w
  | OMove o o' p => move_handle o o' p w
  | ODrop o p => drop_handle o p w
  | OSuspend a c => io_task_suspend a c w
  | OFinal p => final_suspend p w
  end.

Definition new_world : World := mkWorld ∅ [] [] 0 0 0.

(** ** Counting *)

Definition occ (p : ptr) (l : list ptr) : nat := length (filter (eq p) l).

Lemma occ_app p l1 l2 : occ p (l1 ++ l2) = (occ p l1 + occ p l2)%nat.
Proof. unfold occ. by rewrite filter_app, length_app. Qed.

Lemma occ_cons p q l : occ p (q :: l) = ((if decide (p = q) then 1 else 0) + occ p l)%nat.
Proof. unfold occ. rewrite filter_cons. destruct (decide (p = q)); done. Qed.

Global Instance occ_proper p : Proper ((≡ₚ) ==> eq) (occ p).
Proof. intros l1 l2 E. unfold occ. by rewrite E. Qed.

Lemma occ_elem p l : (0 < occ p l)%nat <-> p ∈ l.
Proof.
  induction l as [|q l IH]; [split; [cbn; lia|by intros ?%elem_of_nil]|]. rewrite occ_cons, elem_of_cons, <- IH. destruct (decide (p = q)); [split; [by left|lia]|]. split; [by right|]. intros [?|?]; [done|lia].
Qed.

Lemma all_frames_new m p b : m !! p = None -> all_frames (<[p := b]> m) ≡ₚ frame_refs b ++ all_frames m.
Proof. intros E. unfold all_frames. rewrite map_to_list_insert by done. done. Qed.

Lemma all_frames_delete m p b : m !! p = Some b -> all_frames m ≡ₚ frame_refs b ++ all_frames (delete p m).
Proof. intros E. rewrite <- (insert_delete_id m p b E) at 1. apply all_frames_new. apply lookup_delete_eq. Qed.

Lemma all_frames_change m p b b' : m !! p = Some b -> all_frames (<[p := b']> m) ++ frame_refs b ≡ₚ all_frames m ++ frame_refs b'.
Proof.
  intros E. rewrite (all_frames_delete m p b E). rewrite <- insert_delete_eq. rewrite all_frames_new by apply lookup_delete_eq. solve_Permutation.
Qed.

(** The counts of the blocks, when the references [todo] are under way. *)
Record counted (todo : list ptr) (w : World) : Prop := {
  ct_count : forall p b, blocks w !! p = Some b -> ref_count b = Z.of_nat (occ p (todo ++ accounted w)) /\ 1 <= ref_count b;
  ct_live : forall p, p ∈ todo ++ accounted w -> is_Some (blocks w !! p);
  ct_active : active_coroutines w = Z.of_nat (size (blocks w));
  ct_memory : total_memory_bytes w = ESTIMATED_COROUTINE_FRAME_SIZE * active_coroutines w }.

(** References only change places. *)
Lemma counted_move todo todo' w w' : todo' ++ accounted w' ≡ₚ todo ++ accounted w -> (forall p, ref_count <$> blocks w' !! p = ref_count <$> blocks w !! p) ->
  size (blocks w') = size (blocks w) -> active_coroutines w' = active_coroutines w -> total_memory_bytes w' = total_memory_bytes w -> counted todo w -> counted todo' w'.
Proof.
  intros E1 E2 E3 E4 E5 [H1 H2 H3 H4]. split.
  - intros p b' Eb'. specialize (E2 p). rewrite Eb' in E2. cbn in E2. destruct (blocks w !! p) as [b|] eqn:Eb; [|done]. cbn in E2. injection E2 as E2. rewrite E2, E1. by apply H1.
  - intros p Hp. rewrite E1 in Hp. specialize (E2 p). destruct (H2 p Hp) as [b Eb]. rewrite Eb in E2. destruct (blocks w' !! p); [done|done].
  - congruence.
  - congruence.
Qed.

Lemma size_change (m : gmap ptr Block) p b b' : m !! p = Some b -> size (<[p := b']> m) = size m.
Proof. intros E. rewrite map_size_insert_Some by done. done. Qed.

(** A block that keeps its count. *)
Lemma counted_block todo todo' w p b b' : blocks w !! p = Some b -> ref_count b' = ref_count b -> todo' ++ frame_refs b' ≡ₚ todo ++ frame_refs b -> counted todo w ->
  counted todo' (set_blocks (<[p := b']> (blocks w)) w).
Proof.
  intros E Er Ef. apply counted_move; cbn; [|intros q; destruct (decide (q = p)) as [->|Hq]; [rewrite lookup_insert_eq, E; cbn; congruence|by rewrite lookup_insert_ne]|by eapply size_change|done|done].
  unfold accounted, references. cbn. pose proof (all_frames_change (blocks w) p b b' E) as K. apply (Permutation_app_inv_r (frame_refs b)).
  transitivity ((todo' ++ outside w ++ lost w) ++ (all_frames (<[p := b']> (blocks w)) ++ frame_refs b)); [solve_Permutation|]. rewrite K.
  transitivity ((todo' ++ frame_refs b') ++ outside w ++ lost w ++ all_frames (blocks w)); [solve_Permutation|]. rewrite Ef. solve_Permutation.
Qed.

Definition owner_ok (o : option ptr) (w : World) : Prop := match o with None => True | Some f => is_Some (blocks w !! f) end.

Lemma give_counted o p todo w : owner_ok o w -> counted (p :: todo) w -> exists w', give o p w = Some w' /\ counted todo w' /\ dom (blocks w') = dom (blocks w).
Proof.
  intros Ho Hc. destruct o as [f|]; cbn [give owner_ok] in *.
  - destruct Ho as [b Eb]. rewrite Eb. cbn. eexists. split; [done|]. split; [|cbn; apply dom_insert_lookup_L; by eexists]. eapply counted_block; [done|done| |exact Hc]. unfold frame_refs. cbn. solve_Permutation.
  - eexists. split; [done|]. split; [|done]. eapply counted_move; [..|exact Hc]; try done. unfold accounted, references. cbn. solve_Permutation.
Qed.

Lemma take_one_perm p l : p ∈ l -> exists l', take_one p l = Some l' /\ l ≡ₚ p :: l'.
Proof.
  induction l as [|q l IH]; [by intros ?%elem_of_nil|]. intros Hp. cbn. destruct (decide (q = p)) as [->|Hq]; [by exists l|]. destruct IH as (l' & E & K); [by apply elem_of_cons in Hp as [?|?]|].
  rewrite E. cbn. eexists. split; [done|]. rewrite K. apply Permutation_swap.
Qed.

(** The handles an owner holds. *)
Definition held (o : option ptr) (w : World) : list ptr := match o with None => outside w | Some f => match blocks w !! f with Some b => locals b | None => [] end end.

Lemma take_counted o p todo w : p ∈ held o w -> counted todo w -> exists w', take o p w = Some w' /\ counted (p :: todo) w' /\ dom (blocks w') = dom (blocks w).
Proof.
  intros Hp Hc. destruct o as [f|]; cbn [take held] in *.
  - destruct (blocks w !! f) as [b|] eqn:Eb; [|by apply elem_of_nil in Hp]. cbn. destruct (take_one_perm _ _ Hp) as (l & E & K). rewrite E. cbn. eexists. split; [done|]. split; [|cbn; apply dom_insert_lookup_L; by eexists].
    eapply counted_block; [done|done| |exact Hc]. unfold frame_refs. cbn. rewrite K. solve_Permutation.
  - destruct (take_one_perm _ _ Hp) as (l & E & K). rewrite E. cbn. eexists. split; [done|]. split; [|done]. eapply counted_move; [..|exact Hc]; try done. unfold accounted, references. cbn. rewrite K. solve_Permutation.
Qed.

(** A block whose count changes by what the reference list changes. *)
Lemma counted_count todo todo' w p b n : blocks w !! p = Some b -> 1 <= n -> n = Z.of_nat (occ p (todo' ++ accounted w)) -> (forall q, q <> p -> occ q todo' = occ q todo) ->
  counted todo w -> counted todo' (set_blocks (<[p := mkBlock n (locals b) (continuation_cb b)]> (blocks w)) w).
Proof.
  intros E Hn Hocc Hq [H1 H2 H3 H4]. set (w' := set_blocks _ w). assert (Er : accounted w' ≡ₚ accounted w).
  { unfold accounted, references, w'. cbn. do 2 apply Permutation_app_head. pose proof (all_frames_change (blocks w) p b (mkBlock n (locals b) (continuation_cb b)) E) as K. by apply Permutation_app_inv_r in K. }
  split.
  - intros q c Ec. cbn in Ec. destruct (decide (q = p)) as [->|Hqp].
    + rewrite lookup_insert_eq in Ec. injection Ec as <-. cbn [ref_count]. rewrite Er. done.
    + rewrite lookup_insert_ne in Ec by done. rewrite Er, occ_app, Hq, <- occ_app by done. by apply H1.
  - intros q Hin. cbn. destruct (decide (q = p)) as [->|Hqp]; [rewrite lookup_insert_eq; by eexists|]. rewrite lookup_insert_ne by done. apply H2. rewrite Er in Hin. apply occ_elem. apply occ_elem in Hin. rewrite occ_app in *. by rewrite Hq in Hin.
  - cbn. by rewrite (size_change _ _ _ _ E).
  - done.
Qed.

Lemma add_ref_counted p todo w : is_Some (blocks w !! p) -> counted todo w -> exists w', add_ref p w = Some w' /\ counted (p :: todo) w' /\ dom (blocks w') = dom (blocks w).
Proof.
  intros [b Eb] Hc. unfold add_ref. rewrite Eb. cbn. eexists. split; [done|]. split; [|cbn; apply dom_insert_lookup_L; by eexists]. destruct (ct_count _ _ Hc p b Eb) as [K1 K2].
  eapply counted_count; [done|lia| | |exact Hc]; [cbn [app]; rewrite occ_cons, decide_True by done; lia|]. intros q Hq. by rewrite occ_cons, decide_False by done.
Qed.

Lemma create_counted w : counted [] w -> let p := fresh (dom (blocks w)) in
  counted [p] (mkWorld (<[p := mkBlock 1 [] None]> (blocks w)) (outside w) (lost w) (total_coroutines_created w + 1) (active_coroutines w + 1) (total_memory_bytes w + ESTIMATED_COROUTINE_FRAME_SIZE)).
Proof.
  intros [H1 H2 H3 H4] p. assert (Ep : blocks w !! p = None) by (apply not_elem_of_dom, is_fresh). set (w' := mkWorld _ _ _ _ _ _).
  assert (Er : accounted w' ≡ₚ accounted w) by (unfold accounted, references, w'; cbn; by rewrite all_frames_new by done).
  assert (Hp : occ p (accounted w) = 0%nat). { destruct (occ p (accounted w)) as [|k] eqn:E; [done|]. assert (K : p ∈ accounted w) by (apply occ_elem; lia). apply (H2 p) in K. rewrite Ep in K. by destruct K. }
  split.
  - intros q b Eb. cbn in Eb. cbn [app]. rewrite occ_cons, Er. destruct (decide (q = p)) as [->|Hq]; [rewrite lookup_insert_eq in Eb; injection Eb as <-; by rewrite Hp|]. rewrite lookup_insert_ne in Eb by done. by apply H1.
  - intros q [->|Hq]%elem_of_cons; cbn; [rewrite lookup_insert_eq; by eexists|]. rewrite Er in Hq. apply H2 in Hq. destruct (decide (q = p)) as [->|Hqp]; [by rewrite lookup_insert_eq|by rewrite lookup_insert_ne].
  - cbn. rewrite map_size_insert_None by done. lia.
  - cbn. unfold ESTIMATED_COROUTINE_FRAME_SIZE in *. lia.
Qed.

(** The last reference of a block: the frame goes, and what it held is released
    next. *)
Lemma release_last p todo w b : counted (p :: todo) w -> blocks w !! p = Some b -> ref_count b = 1 ->
  let w' := mkWorld (delete p (blocks w)) (outside w) (option_list (continuation_cb b) ++ lost w) (total_coroutines_created w) (active_coroutines w - 1) (total_memory_bytes w - ESTIMATED_COROUTINE_FRAME_SIZE) in
  counted (locals b ++ todo) w' /\ (locals b ++ todo) ++ accounted w' ≡ₚ todo ++ accounted w.
Proof.
  intros [H1 H2 H3 H4] Eb E1 w'.
  assert (Er : (locals b ++ todo) ++ accounted w' ≡ₚ todo ++ accounted w) by (unfold accounted, references, w'; cbn; rewrite (all_frames_delete _ _ _ Eb); unfold frame_refs; solve_Permutation).
  split; [|done]. assert (Hp : p ∉ todo ++ accounted w).
  { intros K. apply occ_elem in K. destruct (H1 p b Eb) as [K1 _]. cbn [app] in K1. rewrite occ_cons, decide_True in K1 by done. lia. }
  split.
  - intros q c Ec. cbn in Ec. destruct (decide (q = p)) as [->|Hq]; [by rewrite lookup_delete_eq in Ec|]. rewrite lookup_delete_ne in Ec by done. rewrite Er. destruct (H1 q c Ec) as [K1 K2]. cbn [app] in K1. rewrite occ_cons, decide_False in K1 by done. done.
  - intros q Hq. rewrite Er in Hq. cbn. rewrite lookup_delete_ne by (intros ->; done). apply H2. cbn. by right.
  - cbn. rewrite map_size_delete_Some by (by eexists). assert (size (blocks w) <> 0%nat) by (intros K; apply map_size_empty_inv in K; rewrite K, lookup_empty in Eb; done). lia.
  - cbn. unfold ESTIMATED_COROUTINE_FRAME_SIZE in *. lia.
Qed.

Lemma release_step_counted todo w st : counted todo w -> release_step (todo, w) = inl st -> counted st.1 st.2 /\ (length (st.1 ++ accounted st.2) < length (todo ++ accounted w))%nat.
Proof.
  intros Hc E. destruct todo as [|p todo]; [done|]. cbn in E. destruct (ct_live _ _ Hc p) as [b Eb]; [by left|]. rewrite Eb in E. destruct (ct_count _ _ Hc p b Eb) as [K1 K2]. cbn [app] in K1. rewrite occ_cons, decide_True in K1 by done.
  destruct (Z.eqb_spec (ref_count b) 1) as [E1|E1]; injection E as <-; cbn [fst snd].
  - destruct (release_last p todo w b Hc Eb E1) as [C1 C2]. split; [exact C1|]. rewrite C2. cbn. lia.
  - split; [eapply counted_count; [done|lia| | |exact Hc]; [lia|]; intros q Hq; by rewrite occ_cons, decide_False by done|]. cbn. rewrite !length_app. unfold accounted, references. cbn. rewrite !length_app.
    pose proof (Permutation_length (all_frames_change (blocks w) p b (mkBlock (ref_count b - 1) (locals b) (continuation_cb b)) Eb)) as K. unfold frame_refs in K. cbn in K. rewrite !length_app in K. lia.
Qed.

Lemma release_all_counted todo w : counted todo w -> exists w', release_all todo w = Some w' /\ counted [] w'.
Proof.
  intros Hc. unfold release_all. set (I := fun st : list ptr * World => counted st.1 st.2).
  destruct (loop_total release_step I (fun st => length (st.1 ++ accounted st.2)) (fun st st' Hi Es => release_step_counted st.1 st.2 st' Hi ltac:(destruct st; exact Es)) (S (length (todo ++ accounted w))) (todo, w) Hc) as [r Er]; [cbn; lia|].
  rewrite Er. refine (loop_post release_step I (fun r => exists w', r = Some w' /\ counted [] w') _ _ _ _ _ (Hc : I (todo, w)) Er).
  - intros [l v] st' Hi Es. by apply release_step_counted in Es as [? _].
  - intros [l v] r' Hi Es. destruct l as [|p l]; cbn in Es; [injection Es as <-; by exists v|]. destruct (ct_live _ _ Hi p) as [b Eb]; [by left|]. cbn in Eb. rewrite Eb in Es. by destruct (ref_count b =? 1).
Qed.

(** ** Every use *)

(** What a user of handles does: the handles it names exist. *)
Definition op_ok (w : World) (op : Op) : Prop :=
  match op with
  | OCreate o => owner_ok o w
  | OCopy o p => is_Some (blocks w !! p) /\ owner_ok o w
  | OMove o o' p => p ∈ held o w /\ owner_ok o' w
  | ODrop o p => p ∈ held o w
  | OSuspend a c => is_Some (blocks w !! c) /\ exists b, blocks w !! a = Some b /\ continuation_cb b = None
  | OFinal p => is_Some (blocks w !! p)
  end.

Fixpoint ops_ok (w : World) (ops : list Op) : Prop :=
  match ops with [] => True | op :: ops => op_ok w op /\ forall w', run_op w op = Some w' -> ops_ok w' ops end.

Fixpoint run_ops (ops : list Op) (w : World) : option World := match ops with [] => Some w | op :: ops => w' ← run_op w op; run_ops ops w' end.

Lemma owner_ok_dom o w w' : dom (blocks w') = dom (blocks w) -> owner_ok o w -> owner_ok o w'.
Proof. intros E. destruct o; [|done]. cbn. by rewrite <- !elem_of_dom, E. Qed.

Lemma set_continuation_counted p c c' todo todo' w b : blocks w !! p = Some b -> continuation_cb b = c -> todo' ++ option_list c' ≡ₚ todo ++ option_list c -> counted todo w ->
  exists w', set_continuation p c' w = Some w' /\ counted todo' w' /\ dom (blocks w') = dom (blocks w).
Proof.
  intros Eb <- Ep Hc. unfold set_continuation. rewrite Eb. cbn. eexists. split; [done|]. split; [|cbn; apply dom_insert_lookup_L; by eexists]. eapply counted_block; [done|done| |exact Hc]. unfold frame_refs. cbn.
  transitivity (locals b ++ (todo' ++ option_list c')); [solve_Permutation|]. rewrite Ep. solve_Permutation.
Qed.

Lemma run_op_counted w op : counted [] w -> op_ok w op -> exists w', run_op w op = Some w' /\ counted [] w'.
Proof.
  intros Hc Ho. destruct op as [o|o p|o o' p|o p|a c|p]; cbn [run_op op_ok] in *.
  - pose proof (create_counted w Hc) as K. unfold create. cbv zeta in *. set (p := fresh _) in *. set (w1 := mkWorld _ _ _ _ _ _) in *. assert (Ho' : owner_ok o w1).
    { destruct o as [f|]; [|done]. cbn in *. destruct (decide (f = p)) as [->|Hf]; [rewrite lookup_insert_eq; by eexists|by rewrite lookup_insert_ne]. }
    destruct (give_counted o _ _ _ Ho' K) as (w' & E & C1 & _). rewrite E. cbn. by exists w'.
  - destruct Ho as [Hp Ho]. unfold copy_handle. destruct (add_ref_counted p [] w Hp Hc) as (w1 & E1 & C1 & D1). rewrite E1. cbn. destruct (give_counted o p [] w1 (owner_ok_dom _ _ _ D1 Ho) C1) as (w2 & E2 & C2 & _). by exists w2.
  - destruct Ho as [Hp Ho]. unfold move_handle. destruct (take_counted o p [] w Hp Hc) as (w1 & E1 & C1 & D1). rewrite E1. cbn. destruct (give_counted o' p [] w1 (owner_ok_dom _ _ _ D1 Ho) C1) as (w2 & E2 & C2 & _). by exists w2.
  - unfold drop_handle. destruct (take_counted o p [] w Ho Hc) as (w1 & E1 & C1 & _). rewrite E1. cbn. by apply release_all_counted.
  - destruct Ho as [Hl (b & Eb & En)]. unfold io_task_suspend. rewrite Eb. cbn. rewrite En. cbn. destruct (add_ref_counted c [] w Hl Hc) as (w1 & E1 & C1 & D1). rewrite E1. cbn.
    unfold add_ref in E1. destruct (blocks w !! c) as [bc|] eqn:Ec; [|done]. injection E1 as <-. assert (K : exists b', blocks (set_blocks (<[c := mkBlock (ref_count bc + 1) (locals bc) (continuation_cb bc)]> (blocks w)) w) !! a = Some b' /\ continuation_cb b' = None).
    { cbn. destruct (decide (a = c)) as [->|Hac]; [rewrite lookup_insert_eq; eexists; split; [done|]; cbn; congruence|rewrite lookup_insert_ne by done; by exists b]. }
    destruct K as (b' & Eb' & En'). destruct (set_continuation_counted a None (Some c) [c] [] _ b' Eb' En' ltac:(done) C1) as (w2 & E2 & C2 & _). by exists w2.
  - destruct Ho as [b Eb]. unfold final_suspend. rewrite Eb. cbn. destruct (continuation_cb b) as [c|] eqn:Ec; [|by exists w].
    destruct (set_continuation_counted p (Some c) None [] [c] w b Eb Ec ltac:(done) Hc) as (w1 & E1 & C1 & _). rewrite E1. cbn [mbind option_bind]. destruct (give_counted None c [] w1 I C1) as (w2 & E2 & C2 & _). by exists w2.
Qed.

(** C32: However handles are created, copied, moved and destroyed, inside and
    outside the frames of coroutines, and coroutines suspended on each other
    and finished ([ops_ok]: the handles and blocks named exist, and a
    coroutine is awaited by one other at a time), no operation touches a
    destroyed block, destroying frames one after the other comes to an end,
    and afterwards: the count of every control block is the number of
    references to it plus the number of references lost with frames that
    were destroyed before they finished while it was suspended on them; a
    frame that is referred to lives, and a frame that lives is referred to
    or was so lost (then it is never destroyed, see
    [destroyed_await_leaks]); and the statistics count the frames that
    live. *)
Theorem refcounts_exact ops : ops_ok new_world ops -> exists w, run_ops ops new_world = Some w /\
  (forall p b, blocks w !! p = Some b -> ref_count b = Z.of_nat (occ p (references w)) + Z.of_nat (occ p (lost w))) /\
  (forall p, is_Some (blocks w !! p) <-> p ∈ references w \/ p ∈ lost w) /\
  active_coroutines w = Z.of_nat (size (blocks w)) /\ total_memory_bytes w = ESTIMATED_COROUTINE_FRAME_SIZE * active_coroutines w.
Proof.
  assert (Hg : forall w, counted [] w -> ops_ok w ops -> exists w', run_ops ops w = Some w' /\ counted [] w').
  { induction ops as [|op ops IH]; intros w Hc Ho; [by exists w|]. cbn in *. destruct Ho as [Ho Hrest]. destruct (run_op_counted w op Hc Ho) as (w1 & E1 & C1). rewrite E1. cbn. by apply IH, Hrest. }
  intros Ho. destruct (Hg new_world) as (w & E & [H1 H2 H3 H4]); [|done|exists w; split; [done|split; [|split; [|done]]]].
  - split; cbn; try done. intros p Hp. unfold accounted, references, all_frames in Hp. cbn in Hp. rewrite map_to_list_empty in Hp. by apply elem_of_nil in Hp.
  - intros p b Eb. destruct (H1 p b Eb) as [-> _]. cbn [app]. unfold accounted. rewrite occ_app. lia.
  - intros p. rewrite Logic.or_comm, <- elem_of_app. split; [|apply (H2 p)]. intros [b Eb]. destruct (H1 p b Eb) as [K1 K2]. apply occ_elem. cbn [app] in K1. unfold accounted in K1. lia.
Qed.

(** ** Example *)

(** A coroutine awaits another, which finishes; the scheduler then forgets the
    first, and both frames go. *)
Definition await_demo : list Op := [OCreate None; OCreate (Some 1%positive); OSuspend 2 1; OFinal 2; ODrop (Some 1%positive) 2; ODrop None 1; ODrop None 1].

Lemma await_demo_ok : ops_ok new_world await_demo.
Proof.
  cbn [ops_ok await_demo]. split; [done|]. intros w E. vm_compute in E. injection E as <-. split; [vm_compute; by eexists|]. intros w E. vm_compute in E. injection E as <-. split; [vm_compute; split; [by eexists|by eexists]|].
  intros w E. vm_compute in E. injection E as <-. split; [vm_compute; by eexists|]. intros w E. vm_compute in E. injection E as <-. split; [vm_compute; constructor|]. intros w E. vm_compute in E. injection E as <-.
  split; [vm_compute; constructor|]. intros w E. vm_compute in E. injection E as <-. split; [vm_compute; constructor|done].
Qed.

Lemma refcounts_exact_witness : exists w, run_ops await_demo new_world = Some w /\ active_coroutines w = Z.of_nat (size (blocks w)) /\ blocks w = ∅.
Proof.
  destruct (refcounts_exact await_demo await_demo_ok) as (w & E & _ & _ & H & _). exists w. split; [done|]. split; [done|]. vm_compute in E. injection E as <-. reflexivity.
Defined.

(** ** Defects *)

(** A coroutine that is suspended on another, which waits for a descriptor,
    when the descriptor is removed from the table: the last reference from
    outside is gone, but the two frames keep each other alive and are never
    destroyed. *)
Theorem abandoned_await_leaks : exists w, run_ops [OCreate None; OCreate (Some 1%positive); OSuspend 2 1; OCopy None 2; ODrop None 1; ODrop None 2] new_world = Some w /\
  outside w = [] /\ lost w = [] /\ active_coroutines w = 2 /\ (ref_count <$> blocks w !! 1%positive) = Some 1 /\ (ref_count <$> blocks w !! 2%positive) = Some 1.
Proof. eexists. split; [vm_compute; reflexivity|]. repeat split; vm_compute; reflexivity. Qed.

(** A coroutine that is suspended on another when the other is destroyed
    before it finishes (its last handle is dropped): the destructor of the
    promise does not release the continuation, so the count of the suspended
    coroutine stays 1 when its own last handle is gone, with no reference to
    it left anywhere. *)
Theorem destroyed_await_leaks : exists w, run_ops [OCreate None; OCreate None; OSuspend 2 1; ODrop None 2; ODrop None 1] new_world = Some w /\
  references w = [] /\ lost w = [1%positive] /\ active_coroutines w = 1 /\ (ref_count <$> blocks w !! 1%positive) = Some 1.
Proof. eexists. split; [vm_compute; reflexivity|]. repeat split; vm_compute; reflexivity. Qed.
