(* ===== verification/PlatformIO.v ===== *)
(** * The event demultiplexers

    include/libspaznet/platform/platform_io.hpp and its epoll and poll
    implementations (src/platform/platform_io_epoll.cpp, platform_io_poll.cpp).
    [PlatformIO] is what the event loop relies on: a table of the descriptors
    with the directions they are watched for and the caller's token, and
    reports that carry the tokens back.  The epoll system calls are a
    parameter ([EpollKernel]) with their documented behaviour. *)
From stdpp Require Import gmap.
From S2P Require Import Prelude.

Local Open Scope Z_scope.

(** [(x & m) != 0]. *)
Definition has (x m : Z) : bool := negb (x .& m =? 0).

Definition EVENT_READ : Z := 0x01.
Definition EVENT_WRITE : Z := 0x02.
Definition EVENT_ERROR : Z := 0x04.
Definition EVENT_EDGE_TRIGGER : Z := 0x08.

Record Event := mkEvent { ev_fd : Z; ev_events : Z; user_data : Z }.

(** ** The interface *)

(** A watched descriptor: for reading, for writing, and its token. *)
Record Interest := mkInterest { for_read : bool; for_write : bool; token : Z }.

Definition interest_of (events user : Z) : Interest := mkInterest (has events EVENT_READ) (has events EVENT_WRITE) user.

(** [R] is what the operating system reports to [wait]. *)
Class PlatformIO (P R : Type) := {
  add_fd : Z -> Z -> Z -> P -> bool * P;
  modify_fd : Z -> Z -> Z -> P -> bool * P;
  remove_fd : Z -> P -> bool * P;
  wait_events : R -> P -> list Event;
  watched : P -> Z -> option Interest;
  reports : R -> P -> Prop;
  consistent : P -> Prop }.

Class PlatformLaws (P R : Type) `{PlatformIO P R} : Prop := {
  add_consistent : forall fd ev user p, consistent p -> consistent (add_fd fd ev user p).2;
  modify_consistent : forall fd ev user p, consistent p -> consistent (modify_fd fd ev user p).2;
  remove_consistent : forall fd p, consistent p -> consistent (remove_fd fd p).2;
  add_watched : forall fd ev user p fd', watched p fd = None ->
    watched (add_fd fd ev user p).2 fd' = if fd' =? fd then Some (interest_of ev user) else watched p fd';
  modify_watched : forall fd ev user p fd', watched p fd <> None ->
    watched (modify_fd fd ev user p).2 fd' = if fd' =? fd then Some (interest_of ev user) else watched p fd';
  remove_watched : forall fd p fd', watched (remove_fd fd p).2 fd' = if fd' =? fd then None else watched p fd';
  wait_watched : forall r p e, consistent p -> reports r p -> e ∈ wait_events r p -> exists fd i, watched p fd = Some i /\ token i = user_data e /\
    (has (ev_events e) EVENT_WRITE = true -> for_write i = true) /\
    (has (ev_events e) EVENT_READ = true -> for_read i = true \/ has (ev_events e) EVENT_ERROR = true) }.

(** ** epoll *)

Definition EPOLLIN : Z := 0x001.
Definition EPOLLOUT : Z := 0x004.
Definition EPOLLERR : Z := 0x008.
Definition EPOLLHUP : Z := 0x010.
Definition EPOLLET : Z := 1 .<< 31.

Inductive CtlOp := EPOLL_CTL_ADD | EPOLL_CTL_MOD | EPOLL_CTL_DEL.

(** epoll_ctl(2) and the interest list it maintains. *)
Class EpollKernel (K : Type) := {
  epoll_ctl : CtlOp -> Z -> Z -> Z -> K -> bool * K;
  registered : K -> Z -> option (Z * Z) }.

(** epoll_ctl(2), resource errors apart: EEXIST for an [ADD] of a registered
    descriptor, ENOENT for a [MOD] or [DEL] of one that is not. *)
Class EpollLaws (K : Type) `{EpollKernel K} : Prop := {
  ctl_add : forall fd ev data k fd', registered k fd = None -> (epoll_ctl EPOLL_CTL_ADD fd ev data k).1 = true /\
    registered (epoll_ctl EPOLL_CTL_ADD fd ev data k).2 fd' = if fd' =? fd then Some (ev, data) else registered k fd';
  ctl_add_exists : forall fd ev data k, registered k fd <> None -> epoll_ctl EPOLL_CTL_ADD fd ev data k = (false, k);
  ctl_mod : forall fd ev data k fd', registered k fd <> None -> (epoll_ctl EPOLL_CTL_MOD fd ev data k).1 = true /\
    registered (epoll_ctl EPOLL_CTL_MOD fd ev data k).2 fd' = if fd' =? fd then Some (ev, data) else registered k fd';
  ctl_mod_missing : forall fd ev data k, registered k fd = None -> epoll_ctl EPOLL_CTL_MOD fd ev data k = (false, k);
  ctl_del : forall fd ev data k fd', registered k fd <> None -> (epoll_ctl EPOLL_CTL_DEL fd ev data k).1 = true /\
    registered (epoll_ctl EPOLL_CTL_DEL fd ev data k).2 fd' = if fd' =? fd then None else registered k fd';
  ctl_del_missing : forall fd ev data k, registered k fd = None -> epoll_ctl EPOLL_CTL_DEL fd ev data k = (false, k) }.

Section Epoll.
Context {K : Type} {kernel : EpollKernel K}.

Definition epoll_mask (events : Z) : Z :=
  let m := 0 in
  let m := if has events EVENT_READ then m .| EPOLLIN else m in
  let m := if has events EVENT_WRITE then m .| EPOLLOUT else m in
  let m := if has events EVENT_ERROR then m .| (EPOLLERR .| EPOLLHUP) else m in
  if has events EVENT_EDGE_TRIGGER then m .| EPOLLET else m.

Definition epoll_add_fd (fd events user : Z) (k : K) : bool * K := epoll_ctl EPOLL_CTL_ADD fd (epoll_mask events) user k.
Definition epoll_modify_fd (fd events user : Z) (k : K) : bool * K := epoll_ctl EPOLL_CTL_MOD fd (epoll_mask events) user k.
Definition epoll_remove_fd (fd : Z) (k : K) : bool * K := epoll_ctl EPOLL_CTL_DEL fd 0 0 k.

(** [static_cast<int>(static_cast<int32_t>(x))]. *)
Definition s32 (x : Z) : Z := let y := u32 x in if 2 ^ 31 <=? y then y - 2 ^ 32 else y.

(** One [epoll_event] (its events and its data) as an [Event]. *)
Definition epoll_event (e : Z * Z) : Event :=
  let '(flags, data) := e in
  let ev := 0 in
  let ev := if has flags EPOLLIN then ev .| EVENT_READ else ev in
  let ev := if has flags EPOLLOUT then ev .| EVENT_WRITE else ev in
  let ev := if has flags (EPOLLERR .| EPOLLHUP) then ev .| (EVENT_READ .| EVENT_ERROR) else ev in
  mkEvent (s32 (data .& 0xFFFFFFFF)) ev data.

Definition epoll_wait_events (reported : list (Z * Z)) : list Event := epoll_event <$> reported.

Definition epoll_watched (k : K) (fd : Z) : option Interest :=
  (fun e => mkInterest (has e.1 EPOLLIN) (has e.1 EPOLLOUT) e.2) <$> registered k fd.

(** epoll_wait(2): data is what the descriptor was registered with, and apart
    from EPOLLERR and EPOLLHUP, which are always reported, only requested
    events are. *)
Definition epoll_reports (reported : list (Z * Z)) (k : K) : Prop := Forall (fun e => exists fd m, registered k fd = Some (m, e.2) /\
  (has e.1 EPOLLIN = true -> has m EPOLLIN = true) /\ (has e.1 EPOLLOUT = true -> has m EPOLLOUT = true)) reported.

Global Instance epoll_platform : PlatformIO K (list (Z * Z)) := {|
  add_fd := epoll_add_fd; modify_fd := epoll_modify_fd; remove_fd := epoll_remove_fd;
  wait_events r _ := epoll_wait_events r; watched := epoll_watched; reports := epoll_reports; consistent _ := True |}.

Lemma mask_interest ev user : mkInterest (has (epoll_mask ev) EPOLLIN) (has (epoll_mask ev) EPOLLOUT) user = interest_of ev user.
Proof.
  unfold interest_of, epoll_mask. destruct (has ev EVENT_READ), (has ev EVENT_WRITE), (has ev EVENT_ERROR), (has ev EVENT_EDGE_TRIGGER); reflexivity.
Qed.

Context {laws : EpollLaws K}.

Global Instance epoll_laws : PlatformLaws K (list (Z * Z)).
Proof.
  split; cbn [watched add_fd modify_fd remove_fd wait_events reports consistent epoll_platform]; unfold epoll_watched; try done.
  - intros fd ev user k fd' Hn. apply fmap_None in Hn. destruct (ctl_add fd (epoll_mask ev) user k fd' Hn) as [_ E]. unfold epoll_add_fd. rewrite E.
    destruct (fd' =? fd); [|done]. cbn. by rewrite mask_interest.
  - intros fd ev user k fd' Hn. assert (Hr : registered k fd <> None) by (intros E; apply Hn; by rewrite E).
    destruct (ctl_mod fd (epoll_mask ev) user k fd' Hr) as [_ E]. unfold epoll_modify_fd. rewrite E. destruct (fd' =? fd); [|done]. cbn. by rewrite mask_interest.
  - intros fd k fd'. unfold epoll_remove_fd. destruct (decide (registered k fd = None)) as [Hn|Hr].
    + rewrite ctl_del_missing by done. cbn [snd]. destruct (Z.eqb_spec fd' fd) as [->|]; [by rewrite Hn|done].
    + destruct (ctl_del fd 0 0 k fd' Hr) as [_ ->]. by destruct (fd' =? fd).
  - intros r k e _ Hr Hin. unfold epoll_wait_events in Hin. apply list_elem_of_fmap in Hin as ([fl d] & -> & Hin). unfold epoll_reports in Hr. rewrite Forall_forall in Hr.
    destruct (Hr _ Hin) as (fd & m & E & H1 & H2). cbn [fst snd] in *. exists fd. rewrite E. eexists. split; [done|]. cbn [token for_read for_write user_data ev_events epoll_event fst snd].
    split; [done|]. destruct (has fl EPOLLIN), (has fl EPOLLOUT), (has fl (EPOLLERR .| EPOLLHUP)); cbn; split; intros ?; try discriminate; auto.
Qed.
End Epoll.

(** ** poll *)

Definition POLLIN : Z := 0x001.
Definition POLLOUT : Z := 0x004.
Definition POLLERR : Z := 0x008.
Definition POLLHUP : Z := 0x010.
Definition POLLNVAL : Z := 0x020.

(** [pollfds_] with the requested events, and [fd_info_]: token and events. *)
Record PollState := mkPoll { pollfds : list (Z * Z); fd_info : gmap Z (Z * Z) }.

Definition poll_mask (events : Z) : Z :=
  let m := 0 in
  let m := if has events EVENT_READ then m .| POLLIN else m in
  if has events EVENT_WRITE then m .| POLLOUT else m.

Definition poll_add_fd (fd events user : Z) (p : PollState) : bool * PollState :=
  match fd_info p !! fd with
  | Some _ => (false, p)
  | None => (true, mkPoll (pollfds p ++ [(fd, poll_mask events)]) (<[fd := (user, events)]> (fd_info p)))
  end.

(** The loop with its [break] at the first entry of the descriptor. *)
Fixpoint set_mask (fd m : Z) (l : list (Z * Z)) : list (Z * Z) :=
  match l with
  | [] => []
  | (f, x) :: l => if f =? fd then (f, m) :: l else (f, x) :: set_mask fd m l
  end.

Definition poll_modify_fd (fd events user : Z) (p : PollState) : bool * PollState :=
  match fd_info p !! fd with
  | None => poll_add_fd fd events user p
  | Some _ => (true, mkPoll (set_mask fd (poll_mask events) (pollfds p)) (<[fd := (user, events)]> (fd_info p)))
  end.

Fixpoint erase_pollfd (fd : Z) (l : list (Z * Z)) : list (Z * Z) :=
  match l with
  | [] => []
  | (f, x) :: l => if f =? fd then l else (f, x) :: erase_pollfd fd l
  end.

Definition poll_remove_fd (fd : Z) (p : PollState) : bool * PollState :=
  match fd_info p !! fd with
  | None => (false, p)
  | Some _ => (true, mkPoll (erase_pollfd fd (pollfds p)) (delete fd (fd_info p)))
  end.

(** One entry of the snapshot with its [revents], looked up in the table of
    the time after the system call. *)
Definition poll_event (info : gmap Z (Z * Z)) (fd revents : Z) : option Event :=
  if revents =? 0 then None else
  '(user, _) ← info !! fd;
  let ev := 0 in
  let ev := if has revents POLLIN then ev .| EVENT_READ else ev in
  let ev := if has revents POLLOUT then ev .| EVENT_WRITE else ev in
  let ev := if has revents (POLLERR .| POLLHUP) then ev .| (EVENT_READ .| EVENT_ERROR) else ev in
  let ev := if has revents POLLNVAL then ev .| EVENT_ERROR else ev in
  Some (mkEvent fd ev user).

(** [wait] with the events vector of the caller: the table [before] the system
    call gives the snapshot, [revents] is its result (one for each entry), the
    table [after] it gives the tokens. *)
Definition poll_wait (events : list Event) (before : PollState) (revents : list Z) (after : PollState) : Z * list Event :=
  match pollfds before with
  | [] => (0, events)
  | _ => (Z.of_nat (length (filter (fun r => r <> 0) revents)),
          omap (fun x => poll_event (fd_info after) x.1.1 x.2) (zip (pollfds before) revents))
  end.

Definition poll_watched (p : PollState) (fd : Z) : option Interest := (fun i => interest_of i.2 i.1) <$> fd_info p !! fd.

(** poll(2): apart from POLLERR, POLLHUP and POLLNVAL only requested events
    are reported. *)
Definition poll_reports (revents : list Z) (p : PollState) : Prop := length revents = length (pollfds p) /\ Forall (fun x => (has x.2 POLLIN = true -> has x.1.2 POLLIN = true) /\ (has x.2 POLLOUT = true -> has x.1.2 POLLOUT = true)) (zip (pollfds p) revents).

(** Both containers describe the same descriptors. *)
Record poll_consistent (p : PollState) : Prop := {
  pc_nodup : NoDup (pollfds p).*1;
  pc_same : forall fd m, (fd, m) ∈ pollfds p <-> exists user ev, fd_info p !! fd = Some (user, ev) /\ m = poll_mask ev }.

Global Instance poll_platform : PlatformIO PollState (list Z) := {|
  add_fd := poll_add_fd; modify_fd := poll_modify_fd; remove_fd := poll_remove_fd;
  wait_events r p := (poll_wait [] p r p).2; watched := poll_watched; reports := poll_reports; consistent := poll_consistent |}.

Lemma set_mask_fds fd m l : (set_mask fd m l).*1 = l.*1.
Proof. induction l as [|[f x] l IH]; [done|]. cbn [set_mask]. destruct (f =? fd); [done|]. cbn. by rewrite IH. Qed.

Lemma set_mask_elem fd m l f x : NoDup l.*1 -> (f, x) ∈ set_mask fd m l <-> if f =? fd then f ∈ l.*1 /\ x = m else (f, x) ∈ l.
Proof.
  induction l as [|[g y] l IH]; intros Hnd; cbn [set_mask fmap list_fmap fst] in *; [destruct (f =? fd); set_solver|]. apply NoDup_cons in Hnd as [Hg Hnd]. specialize (IH Hnd).
  destruct (Z.eqb_spec g fd) as [->|Hne]; rewrite !elem_of_cons.
  - destruct (Z.eqb_spec f fd) as [->|]; [|rewrite elem_of_cons; split; (intros [[= ? ?]|?]; [done|by right])]. split; [intros [[= ->]|Hin]; [by split; [left|]|]|intros [_ ->]; by left].
    exfalso. apply Hg. apply list_elem_of_fmap. by exists (fd, x).
  - rewrite IH. destruct (Z.eqb_spec f fd) as [->|]; rewrite elem_of_cons; [|done]. split; [intros [[= <- ?]|[? ->]]; [done|by split; [right|]]|]. intros [[->|?] ->]; [done|by right].
Qed.

Lemma erase_elem fd l f x : NoDup l.*1 -> (f, x) ∈ erase_pollfd fd l <-> (f, x) ∈ l /\ f <> fd.
Proof.
  induction l as [|[g y] l IH]; intros Hnd; cbn [erase_pollfd fmap list_fmap fst] in *; [set_solver|]. apply NoDup_cons in Hnd as [Hg Hnd]. specialize (IH Hnd).
  destruct (Z.eqb_spec g fd) as [->|Hne]; rewrite !elem_of_cons.
  - split; [intros Hin; split; [by right|]; intros ->; apply Hg, list_elem_of_fmap; by exists (fd, x)|]. intros [[[= ->]|Hin] Hf]; done.
  - rewrite IH. split; [intros [[= -> ->]|[? ?]]; [by split; [left|]|by split; [right|]]|]. intros [[[= -> ->]|?] ?]; [by left|by right].
Qed.

Lemma erase_nodup fd l : NoDup l.*1 -> NoDup (erase_pollfd fd l).*1.
Proof.
  induction l as [|[g y] l IH]; intros Hnd; cbn [erase_pollfd fmap list_fmap fst] in *; [done|]. apply NoDup_cons in Hnd as [Hg Hnd].
  destruct (g =? fd); [done|]. cbn. apply NoDup_cons. split; [|by apply IH]. intros Hin. apply list_elem_of_fmap in Hin as ([f x] & -> & Hin). apply erase_elem in Hin as [Hin _]; [|done].
  apply Hg, list_elem_of_fmap. by exists (f, x).
Qed.

Lemma info_elem p fd : poll_consistent p -> fd ∈ (pollfds p).*1 <-> fd_info p !! fd <> None.
Proof.
  intros [_ Hs]. rewrite list_elem_of_fmap. split.
  - intros ([f m] & -> & Hin). apply Hs in Hin as (u & e & E & _). cbn. by rewrite E.
  - intros Hn. destruct (fd_info p !! fd) as [[u e]|] eqn:E; [|done]. exists (fd, poll_mask e). split; [done|]. apply Hs. by exists u, e.
Qed.

Lemma poll_add_consistent fd ev user p : poll_consistent p -> poll_consistent (poll_add_fd fd ev user p).2.
Proof.
  intros Hp. unfold poll_add_fd. destruct (fd_info p !! fd) as [i|] eqn:E; [done|]. pose proof (info_elem p fd Hp) as Hi. rewrite E in Hi. destruct Hp as [Hn Hs]. split; cbn [snd pollfds fd_info].
  - rewrite fmap_app. apply NoDup_app. split; [done|]. split; [|apply NoDup_singleton]. intros f Hf Hin. apply list_elem_of_singleton in Hin as ->. by apply Hi in Hf.
  - intros f m. rewrite elem_of_app, list_elem_of_singleton, Hs. destruct (decide (f = fd)) as [->|Hne].
    + rewrite lookup_insert_eq, E. split; [intros [(? & ? & [=] & _)|[= ->]]; by exists user, ev|]. intros (u & e & [= <- <-] & ->). by right.
    + rewrite lookup_insert_ne by done. split; [intros [H|[= ? ?]]; done|]. intros H. by left.
Qed.

Lemma poll_modify_consistent fd ev user p : poll_consistent p -> poll_consistent (poll_modify_fd fd ev user p).2.
Proof.
  intros Hp. unfold poll_modify_fd. destruct (fd_info p !! fd) as [i|] eqn:E; [|by apply poll_add_consistent]. pose proof (info_elem p fd Hp) as Hi. rewrite E in Hi.
  destruct Hp as [Hn Hs]. split; cbn [snd pollfds fd_info]; [by rewrite set_mask_fds|]. intros f m. rewrite set_mask_elem by done. destruct (Z.eqb_spec f fd) as [->|Hne].
  - rewrite lookup_insert_eq, Hi. split; [intros [_ ->]; by exists user, ev|]. intros (u & e & [= <- <-] & ->). done.
  - rewrite lookup_insert_ne by done. apply Hs.
Qed.

Lemma poll_remove_consistent fd p : poll_consistent p -> poll_consistent (poll_remove_fd fd p).2.
Proof.
  intros [Hn Hs]. unfold poll_remove_fd. destruct (fd_info p !! fd) as [i|] eqn:E; [|done]. split; cbn [snd pollfds fd_info]; [by apply erase_nodup|].
  intros f m. rewrite erase_elem, Hs by done. destruct (decide (f = fd)) as [->|Hne].
  - rewrite lookup_delete_eq. split; [by intros [_ ?]|]. by intros (u & e & [=] & _).
  - rewrite lookup_delete_ne by done. split; [by intros [? _]|done].
Qed.

Lemma poll_mask_bits ev : has (poll_mask ev) POLLIN = has ev EVENT_READ /\ has (poll_mask ev) POLLOUT = has ev EVENT_WRITE.
Proof. unfold poll_mask. by destruct (has ev EVENT_READ), (has ev EVENT_WRITE). Qed.

Lemma poll_event_inv info fd r e : poll_event info fd r = Some e -> exists user ev, info !! fd = Some (user, ev) /\ user_data e = user /\
  (has (ev_events e) EVENT_WRITE = true -> has r POLLOUT = true) /\ (has (ev_events e) EVENT_READ = true -> has r POLLIN = true \/ has (ev_events e) EVENT_ERROR = true).
Proof.
  unfold poll_event. destruct (r =? 0); [done|]. intros E. apply bind_Some in E as ([user ev] & Ei & E). cbv zeta in E. apply (inj Some) in E. subst e. exists user, ev. split; [done|]. cbn [user_data ev_events].
  split; [done|]. destruct (has r POLLIN), (has r POLLOUT), (has r (POLLERR .| POLLHUP)), (has r POLLNVAL); cbn; split; intros ?; try discriminate; auto.
Qed.

Global Instance poll_laws : PlatformLaws PollState (list Z).
Proof.
  split; cbn [watched add_fd modify_fd remove_fd wait_events reports consistent poll_platform]; unfold poll_watched.
  - intros. by apply poll_add_consistent.
  - intros. by apply poll_modify_consistent.
  - intros. by apply poll_remove_consistent.
  - intros fd ev user p fd' Hn. apply fmap_None in Hn. unfold poll_add_fd. rewrite Hn. cbn [snd fd_info].
    destruct (Z.eqb_spec fd' fd) as [->|]; [by rewrite lookup_insert_eq|by rewrite lookup_insert_ne].
  - intros fd ev user p fd' Hn. unfold poll_modify_fd. destruct (fd_info p !! fd) as [i|] eqn:E; [|done]. cbn [snd fd_info].
    destruct (Z.eqb_spec fd' fd) as [->|]; [by rewrite lookup_insert_eq|by rewrite lookup_insert_ne].
  - intros fd p fd'. unfold poll_remove_fd. destruct (fd_info p !! fd) as [i|] eqn:E; cbn [snd fd_info]; destruct (Z.eqb_spec fd' fd) as [->|]; [by rewrite lookup_delete_eq|by rewrite lookup_delete_ne|by rewrite E|done].
  - intros r p e Hc [_ Hr] Hin. unfold poll_wait in Hin. destruct (pollfds p) as [|pf pfs] eqn:Ep; [by apply elem_of_nil in Hin|]. rewrite <- Ep in *. cbn [snd] in Hin.
    apply list_elem_of_omap in Hin as ([[fd m] rv] & Hin & E). cbn [fst snd] in E. apply poll_event_inv in E as (user & ev & Ei & Hu & Hw & Hrd).
    rewrite Forall_forall in Hr. destruct (Hr _ Hin) as [H1 H2]. cbn [fst snd] in *. assert (Hm : m = poll_mask ev).
    { apply elem_of_zip_l in Hin. apply (pc_same _ Hc) in Hin as (u & e' & E & ->). congruence. }
    subst m. destruct (poll_mask_bits ev) as [B1 B2]. rewrite B1, B2 in *. exists fd. rewrite Ei. eexists. split; [done|]. cbn. split; [done|].
    split; [auto|]. intros H. destruct (Hrd H) as [H'|H']; auto.
Qed.

(** ** An epoll kernel, to show that the laws can hold *)

Global Instance map_kernel : EpollKernel (gmap Z (Z * Z)) := {|
  epoll_ctl op fd ev data k :=
    match op, k !! fd with
    | EPOLL_CTL_ADD, None | EPOLL_CTL_MOD, Some _ => (true, <[fd := (ev, data)]> k)
    | EPOLL_CTL_DEL, Some _ => (true, delete fd k)
    | _, _ => (false, k)
    end;
  registered k fd := k !! fd |}.

Global Instance map_kernel_laws : EpollLaws (gmap Z (Z * Z)).
Proof.
  split; cbn [epoll_ctl registered map_kernel]; intros fd ev data k.
  - intros fd' E. rewrite E. split; [done|]. cbn [snd]. destruct (Z.eqb_spec fd' fd) as [->|]; [by rewrite lookup_insert_eq|by rewrite lookup_insert_ne].
  - intros E. by destruct (k !! fd).
  - intros fd' E. destruct (k !! fd); [|done]. split; [done|]. cbn [snd]. destruct (Z.eqb_spec fd' fd) as [->|]; [by rewrite lookup_insert_eq|by rewrite lookup_insert_ne].
  - intros E. by rewrite E.
  - intros fd' E. destruct (k !! fd); [|done]. split; [done|]. cbn [snd]. destruct (Z.eqb_spec fd' fd) as [->|]; [by rewrite lookup_delete_eq|by rewrite lookup_delete_ne].
  - intros E. by rewrite E.
Qed.

(** ** Defects *)

(** The tokens are looked up after the system call: when a descriptor is
    removed and its number registered again while [poll] is blocked, the
    report of the old descriptor is delivered with the new one's token, and
    the generation in it no longer tells them apart. *)
Theorem poll_token_of_the_future fd ev user user' before revents rest : fd_info before !! fd = Some (user, ev) -> has revents POLLIN = true ->
  pollfds before = (fd, poll_mask ev) :: rest ->
  let after := (poll_add_fd fd ev user' (poll_remove_fd fd before).2).2 in
  exists e es, (poll_wait [] before (revents :: replicate (length rest) 0) after).2 = e :: es /\ user_data e = user' /\ has (ev_events e) EVENT_READ = true.
Proof.
  intros Ei Hr Ep. cbv zeta. unfold poll_wait. rewrite Ep. cbn [snd zip zip_with omap list_omap]. unfold poll_remove_fd. rewrite Ei. unfold poll_add_fd. cbn [snd fd_info pollfds].
  rewrite lookup_delete_eq. cbn [snd fd_info fst]. unfold poll_event at 1. assert (Hz : revents =? 0 = false) by (destruct (Z.eqb_spec revents 0) as [->|]; done). rewrite Hz, lookup_insert_eq.
  cbn [mbind option_bind]. eexists _, _. split; [done|]. cbn [user_data ev_events]. split; [done|]. rewrite Hr. by destruct (has revents POLLOUT), (has revents (POLLERR .| POLLHUP)), (has revents POLLNVAL).
Qed.

(** With nothing registered [wait] returns 0 and leaves the caller's events of
    the previous round in the vector, which the loop dispatches again. *)
Theorem poll_keeps_old_events events revents after : poll_wait events (mkPoll [] ∅) revents after = (0, events).
Proof. done. Qed.
