(* ===== verification/Resources.v ===== *)
(** * Objects that have to be given back

    Code that makes objects through a C interface, any call of which may fail,
    and gives them back on every path: the descriptors and address lists of
    src/server_impl.cpp, the certificates, keys and BIOs of
    src/tls/tls_stream.cpp.  What is owned is a list; giving back what is not
    owned is recorded as a fault. *)
From S2P Require Import Prelude.

Section Objects.
Context {R : Type} {R_eq_dec : EqDecision R} (works : nat -> bool).

(** The calls made so far, the objects owned, and whether something was freed
    that was not owned. *)
Record Objects := mkObjects { tried : nat; live : list R; faulty : bool }.

(** A call that may fail, and one that returns an object or null. *)
Definition attempt (o : Objects) : bool * Objects := (works (tried o), mkObjects (S (tried o)) (live o) (faulty o)).

Definition acquire (r : R) (o : Objects) : bool * Objects :=
  if works (tried o) then (true, mkObjects (S (tried o)) (r :: live o) (faulty o)) else (false, mkObjects (S (tried o)) (live o) (faulty o)).

Fixpoint remove_one (r : R) (l : list R) : list R :=
  match l with [] => [] | x :: l => if bool_decide (x = r) then l else x :: remove_one r l end.

(** Freed, or passed on to an object that frees it. *)
Definition release (r : R) (o : Objects) : Objects :=
  if bool_decide (r ∈ live o) then mkObjects (tried o) (remove_one r (live o)) (faulty o) else mkObjects (tried o) (live o) true.

Definition release_all (rs : list R) (o : Objects) : Objects := foldl (fun o r => release r o) o rs.
End Objects.

Arguments Objects : clear implicits.

(** Both outcomes of the next call. *)
Ltac try_call works := match goal with |- context [works ?n] => destruct (works n) end; cbn.
