(* ===== verification/Socket.v ===== *)
(** * Sockets for coroutines

    [Socket::async_read], [async_write] and [async_handshake] of
    src/server_impl.cpp.  Each attempts the operation, suspends the coroutine
    until the descriptor is ready when the attempt would block, and attempts
    it again when it is resumed.  What is attempted is an interface: a plain
    descriptor below, or a TLS stream (TlsStream.v).  The theorems are about a
    descriptor whose kernel decides at every call how much is there and how
    much it takes. *)
From S2P Require Import Prelude PlatformIO.

Local Open Scope Z_scope.

(** ** The loops *)

(** The outcome of one attempt: [Want] names the event to wait for. *)
Inductive ReadResult := Got (bs : bytes) | Eof | Want (events : Z) | Failed.
Inductive WriteResult := Took (n : nat) | WantToWrite (events : Z) | WriteFailed.

Class SocketIO (S : Type) := {
  attempt_read : nat -> S -> ReadResult * S;
  attempt_write : bytes -> S -> WriteResult * S;
  (** [wants_write] and [flush]: data taken that is still to be sent. *)
  has_unsent : S -> bool;
  attempt_flush : S -> WriteResult * S }.

Section Async.
Context {S : Type} {socket_io : SocketIO S}.

(** The events the coroutine was suspended on. *)
Record Sock := mkSock { inner : S; waited : list Z }.

(** [co_await ReadAwaiter]: [await_ready], and if that would block
    [await_suspend] and [await_resume]. *)
Definition await_read (size : nat) (k : Sock) : ReadResult * Sock :=
  let '(r, s) := attempt_read size (inner k) in
  match r with
  | Want ev => let '(r, s) := attempt_read size s in (r, mkSock s (waited k ++ [ev]))
  | _ => (r, mkSock s (waited k))
  end.

(** One round of [async_read]; the result and the buffer. *)
Definition read_step (size : nat) (k : Sock) : Sock + (Z * bytes * Sock) :=
  let '(r, k) := await_read size k in
  match r with
  | Got bs => inr (#bs, bs, k)
  | Eof => inr (0, [], k)
  | Want _ => inl k
  | Failed => inr (-1, [], k)
  end.

Definition async_read (fuel size : nat) (k : Sock) : option (Z * bytes * Sock) := loop (read_step size) fuel k.

Definition await_write (data : bytes) (k : Sock) : WriteResult * Sock :=
  let '(r, s) := attempt_write data (inner k) in
  match r with
  | WantToWrite ev => let '(r, s) := attempt_write data s in (r, mkSock s (waited k ++ [ev]))
  | _ => (r, mkSock s (waited k))
  end.

Definition await_flush (k : Sock) : WriteResult * Sock :=
  let '(r, s) := attempt_flush (inner k) in
  match r with
  | WantToWrite ev => let '(r, s) := attempt_flush s in (r, mkSock s (waited k ++ [ev]))
  | _ => (r, mkSock s (waited k))
  end.

(** Where [async_write] is: at the head of its loop with the data still to be
    sent, or flushing; the result is the data never handed over. *)
Inductive Writing := Sending (rest : bytes) | Flushing (rest : bytes).

Definition write_step (st : Writing * Sock) : (Writing * Sock) + (bytes * Sock) :=
  let '(w, k) := st in
  match w with
  | Sending [] => inr ([], k)
  | Sending rest =>
      let '(r, k) := await_write rest k in
      match r with
      | Took (Datatypes.S n) => inl (Flushing (drop (Datatypes.S n) rest), k)
      | Took O => inr (rest, k)
      | WantToWrite _ => inl (Sending rest, k)
      | WriteFailed => inr (rest, k)
      end
  | Flushing rest =>
      if has_unsent (inner k) then
        let '(r, k) := await_flush k in
        match r with
        | Took _ => inl (Flushing rest, k)
        | WantToWrite _ => inl (Flushing rest, k)
        | WriteFailed => inr (rest, k)
        end
      else inl (Sending rest, k)
  end.

Definition async_write (fuel : nat) (data : bytes) (k : Sock) : option (bytes * Sock) := loop write_step fuel (Sending data, k).
End Async.

(** ** A descriptor *)

(** What the peer sends and has not been received, what has been sent to it,
    and the number of calls so far. *)
Record Kernel := mkKernel { inbox : bytes; outbox : bytes; calls : nat }.

(** What the [n]-th call meets: it would block, it fails, or there are so many
    bytes, or so much room. *)
Inductive Weather := WouldBlock | Broken | Room (n : nat).

Section Descriptor.
Context (weather : nat -> Weather).

Definition count (k : Kernel) : Kernel := mkKernel (inbox k) (outbox k) (S (calls k)).

(** recv(2) on a non-blocking descriptor. *)
Definition socket_recv (size : nat) (k : Kernel) : ReadResult * Kernel :=
  match weather (calls k) with
  | WouldBlock => (Want EVENT_READ, count k)
  | Broken => (Failed, count k)
  | Room n =>
      match inbox k with
      | [] => (Eof, count k)
      | bs => let m := Nat.min size (Nat.max 1 n) in (Got (take m bs), mkKernel (drop m bs) (outbox k) (S (calls k)))
      end
  end.

(** send(2): a part, at least one byte. *)
Definition socket_send (data : bytes) (k : Kernel) : WriteResult * Kernel :=
  match weather (calls k) with
  | WouldBlock => (WantToWrite EVENT_WRITE, count k)
  | Broken => (WriteFailed, count k)
  | Room n => let m := Nat.min (length data) (Nat.max 1 n) in (Took m, mkKernel (inbox k) (outbox k ++ take m data) (S (calls k)))
  end.

Instance descriptor_io : SocketIO Kernel :=
  {| attempt_read := socket_recv; attempt_write := socket_send; has_unsent _ := false; attempt_flush k := (Took 0, k) |}.

(** Some later call does not block. *)
Definition settles (from : nat) : Prop := exists j, (from <= j)%nat /\ weather j <> WouldBlock.

Lemma recv_would_block size k : weather (calls k) = WouldBlock -> socket_recv size k = (Want EVENT_READ, count k).
Proof. intros E. unfold socket_recv. by rewrite E. Qed.

(** What one call yields when it does not block. *)
Definition received (size : nat) (k : Kernel) (res : Z * bytes * Sock) : Prop :=
  let '(n, bs, k') := res in
  (n = -1 /\ bs = [] /\ inbox (inner k') = inbox k /\ exists j, (calls k <= j < calls (inner k'))%nat /\ weather j = Broken) \/
  (n = #bs /\ inbox k = bs ++ inbox (inner k') /\ (length bs <= size)%nat /\ (bs = [] -> inbox k = [])).

Lemma recv_settled size k : (0 < size)%nat -> weather (calls k) <> WouldBlock -> exists r k', socket_recv size k = (r, k') /\ outbox k' = outbox k /\
  match r with
  | Got bs => bs <> [] /\ inbox k = bs ++ inbox k' /\ (length bs <= size)%nat
  | Eof => inbox k = [] /\ inbox k' = []
  | Failed => inbox k' = inbox k /\ calls k' = S (calls k) /\ weather (calls k) = Broken
  | Want _ => False
  end.
Proof.
  intros Hs Hw. unfold socket_recv. destruct (weather (calls k)) as [| |n] eqn:Ew; [done|by eexists _, _|]. destruct (inbox k) as [|b bs] eqn:Ei; [eexists _, _; split; [done|]; by rewrite <- Ei|].
  eexists _, _. split; [done|]. split; [done|]. cbn [inbox]. split; [|split; [by rewrite take_drop|rewrite length_take; lia]].
  destruct (Nat.min size (Nat.max 1 n)) eqn:E; [lia|done].
Qed.

(** The suspensions [k'] adds to those of [k] were for [ev]. *)
Definition waits_only {T : Type} (ev : Z) (k k' : Sock (S := T)) : Prop := exists n, waited k' = waited k ++ replicate n ev.

Lemma waits_refl {T : Type} ev (k : Sock (S := T)) (s : T) : waits_only ev k (mkSock s (waited k)).
Proof. exists O. cbn. by rewrite app_nil_r. Qed.

Lemma waits_one {T : Type} ev (k : Sock (S := T)) (s : T) : waits_only ev k (mkSock s (waited k ++ [ev])).
Proof. by exists 1%nat. Qed.

Lemma waits_trans {T : Type} ev (k1 k2 k3 : Sock (S := T)) : waits_only ev k1 k2 -> waits_only ev k2 k3 -> waits_only ev k1 k3.
Proof. intros [n E] [m E']. exists (n + m)%nat. by rewrite E', E, <- app_assoc, replicate_add. Qed.

(** One round: a result, or at least one more call that would have blocked. *)
Lemma read_step_spec size k : (0 < size)%nat ->
  match read_step size k with
  | inr res => received size (inner k) res /\ outbox (inner res.2) = outbox (inner k) /\ waits_only EVENT_READ k res.2
  | inl k' => inbox (inner k') = inbox (inner k) /\ outbox (inner k') = outbox (inner k) /\ waits_only EVENT_READ k k' /\ calls (inner k') = S (S (calls (inner k))) /\
      weather (calls (inner k)) = WouldBlock /\ weather (S (calls (inner k))) = WouldBlock
  end.
Proof.
  intros Hs. assert (Hset : forall s r s', socket_recv size s = (r, s') -> (match r with Want _ => False | _ => True end) -> weather (calls s) <> WouldBlock).
  { intros s r s' E Hr Hw. rewrite recv_would_block in E by done. injection E as <- <-. done. }
  unfold read_step, await_read. cbn [attempt_read descriptor_io]. destruct (socket_recv size (inner k)) as [r s] eqn:E1. destruct r as [bs| |ev|].
  - destruct (recv_settled size (inner k) Hs (Hset _ _ _ E1 I)) as (r' & s' & E & Ho & Hr). rewrite E1 in E. injection E as <- <-. destruct Hr as (H1 & H2 & H3). split; [right; by split_and!|]. split; [done|apply waits_refl].
  - destruct (recv_settled size (inner k) Hs (Hset _ _ _ E1 I)) as (r' & s' & E & Ho & Hr). rewrite E1 in E. injection E as <- <-. destruct Hr as [H1 H2]. split; [right; split_and!; cbn; try done; [by rewrite H1, H2|lia]|]. split; [done|apply waits_refl].
  - assert (Hw : weather (calls (inner k)) = WouldBlock). { unfold socket_recv in E1. destruct (weather _); [done|done|]. by destruct (inbox _). }
    rewrite (recv_would_block _ _ Hw) in E1. injection E1 as <- <-. destruct (socket_recv size (count (inner k))) as [r2 s2] eqn:E2.
    destruct r2 as [bs| |ev|].
    + destruct (recv_settled size (count (inner k)) Hs (Hset _ _ _ E2 I)) as (r' & s' & E & Ho & Hr). rewrite E2 in E. injection E as <- <-. destruct Hr as (H1 & H2 & H3). split; [right; by split_and!|]. split; [done|apply waits_one].
    + destruct (recv_settled size (count (inner k)) Hs (Hset _ _ _ E2 I)) as (r' & s' & E & Ho & Hr). rewrite E2 in E. injection E as <- <-. destruct Hr as [H1 H2]. cbn in H1. split; [right; split_and!; cbn; try done; [by rewrite H1, H2|lia]|]. split; [done|apply waits_one].
    + assert (Hw2 : weather (S (calls (inner k))) = WouldBlock). { unfold socket_recv in E2. cbn [calls count inbox] in E2. destruct (weather (S _)); [done|done|]. by destruct (inbox _). }
      rewrite (recv_would_block _ (count (inner k)) Hw2) in E2. injection E2 as <- <-. split_and!; try done. apply waits_one.
    + destruct (recv_settled size (count (inner k)) Hs (Hset _ _ _ E2 I)) as (r' & s' & E & Ho & Hr). rewrite E2 in E. injection E as <- <-. destruct Hr as (Hr & Hc & Hb). cbn in Hr, Hc, Hb. split; [left; split_and!; try done; exists (S (calls (inner k))); cbn [inner]; split; [lia|done]|]. split; [done|apply waits_one].
  - destruct (recv_settled size (inner k) Hs (Hset _ _ _ E1 I)) as (r' & s' & E & Ho & Hr). rewrite E1 in E. injection E as <- <-. destruct Hr as (Hr & Hc & Hb). split; [left; split_and!; try done; exists (calls (inner k)); cbn [inner]; split; [lia|done]|]. split; [done|apply waits_refl].
Qed.

Lemma async_read_spec size k j : (0 < size)%nat -> (calls (inner k) <= j)%nat -> weather j <> WouldBlock -> exists res,
  async_read (S (j - calls (inner k))) size k = Some res /\ received size (inner k) res /\ outbox (inner res.2) = outbox (inner k) /\ waits_only EVENT_READ k res.2.
Proof.
  intros Hs. unfold async_read. remember (j - calls (inner k))%nat as m eqn:Em. revert k Em. induction (lt_wf m) as [m _ IH]. intros k -> Hj Hw. cbn [loop]. pose proof (read_step_spec size k Hs) as Hr.
  destruct (read_step size k) as [k'|res] eqn:E; [|by exists res]. destruct Hr as (H1 & H2 & H3 & H4 & H5 & H6).
  assert (Hj' : (S (S (calls (inner k))) <= j)%nat). { destruct (decide (j = calls (inner k))) as [->|]; [done|]. destruct (decide (j = S (calls (inner k)))) as [->|]; [done|lia]. }
  destruct (IH (j - calls (inner k'))%nat ltac:(lia) k' eq_refl ltac:(lia) Hw) as (res & E' & K1 & K2 & K3).
  exists res. split; [eapply loop_mono; [exact E'|lia]|]. split; [|split; [congruence|by eapply waits_trans]]. destruct res as [[n bs] k2]. unfold received in *. rewrite H1 in K1. destruct K1 as [(? & ? & ? & i & ? & ?)|?]; [left; split_and!; try done; exists i; split; [lia|done]|by right].
Qed.

Lemma send_spec data k : data <> [] -> let '(r, k') := socket_send data k in inbox k' = inbox k /\ calls k' = S (calls k) /\
  match r with
  | Took n => (0 < n <= length data)%nat /\ outbox k' = outbox k ++ take n data
  | WantToWrite ev => ev = EVENT_WRITE /\ k' = count k /\ weather (calls k) = WouldBlock
  | WriteFailed => outbox k' = outbox k /\ weather (calls k) = Broken
  end.
Proof.
  intros Hd. unfold socket_send. destruct (weather (calls k)) as [| |n] eqn:E; try done. cbn. split_and!; try done; [|lia]. destruct data; [done|]. cbn [length]. lia.
Qed.

(** What [async_write] does from [st] on, sending [rest]. *)
Definition writes_out (rest : bytes) (k : Sock) (st : Writing * Sock) : Prop := exists fuel left k' sent,
  loop write_step fuel st = Some (left, k') /\ rest = sent ++ left /\ outbox (inner k') = outbox (inner k) ++ sent /\ inbox (inner k') = inbox (inner k) /\ waits_only EVENT_WRITE k k' /\
  (left <> [] -> exists j, (calls (inner k) <= j < calls (inner k'))%nat /\ weather j = Broken).

Lemma await_write_spec data k : data <> [] -> let '(r, k') := await_write data k in inbox (inner k') = inbox (inner k) /\ waits_only EVENT_WRITE k k' /\ (calls (inner k) < calls (inner k'))%nat /\
  match r with
  | Took n => (0 < n <= length data)%nat /\ outbox (inner k') = outbox (inner k) ++ take n data
  | WantToWrite _ => outbox (inner k') = outbox (inner k) /\ calls (inner k') = S (S (calls (inner k))) /\ weather (calls (inner k)) = WouldBlock /\ weather (S (calls (inner k))) = WouldBlock
  | WriteFailed => outbox (inner k') = outbox (inner k) /\ exists j, (calls (inner k) <= j < calls (inner k'))%nat /\ weather j = Broken
  end.
Proof.
  intros Hd. unfold await_write. cbn [attempt_write descriptor_io]. pose proof (send_spec data (inner k) Hd) as H1. destruct (socket_send data (inner k)) as [r s]. destruct H1 as (Hi & Hc & Hr).
  destruct r as [n|ev|]; cbn [inner].
  - split_and!; try done; [apply waits_refl|lia|lia..|by destruct Hr].
  - destruct Hr as (-> & -> & Hw). pose proof (send_spec data (count (inner k)) Hd) as H2. destruct (socket_send data (count (inner k))) as [r2 s2]. destruct H2 as (Hi2 & Hc2 & Hr2). cbn in Hi2, Hc2. split; [done|]. split; [apply waits_one|]. split; [cbn; lia|].
    destruct r2 as [n|ev|]; cbn [inner]; [done| |].
    + destruct Hr2 as (-> & -> & Hw2). done.
    + destruct Hr2 as [Ho Hb]. split; [done|]. exists (S (calls (inner k))). split; [lia|done].
  - split_and!; try done; [apply waits_refl|lia|by destruct Hr|]. exists (calls (inner k)). split; [lia|by destruct Hr].
Qed.

Lemma writes_out_spec rest k : (forall i, settles i) -> writes_out rest k (Sending rest, k).
Proof.
  intros Hset. remember (length rest) as m eqn:Em. revert rest k Em. induction (lt_wf m) as [m _ IH]. intros rest k ->. destruct (Hset (calls (inner k))) as (j & Hj & Hw).
  remember (j - calls (inner k))%nat as d eqn:Ed. revert k Ed Hj. induction (lt_wf d) as [d _ IHd]. intros k -> Hj.
  destruct rest as [|b rest0] eqn:Erest. { exists 1%nat, [], k, []. cbn. rewrite app_nil_r. split_and!; try done. destruct k. apply waits_refl. }
  rewrite <- Erest in *. assert (Hne : rest <> []) by (by rewrite Erest). pose proof (await_write_spec rest k Hne) as Ha.
  assert (Estep : write_step (Sending rest, k) = let '(r, k) := await_write rest k in match r with Took (Datatypes.S n) => inl (Flushing (drop (Datatypes.S n) rest), k) | Took O => inr (rest, k) | WantToWrite _ => inl (Sending rest, k) | WriteFailed => inr (rest, k) end) by (by rewrite Erest).
  destruct (await_write rest k) as [r k1]. destruct Ha as (Hi & Hwt & Hc & Hr). destruct r as [[|n]|ev|].
  - lia.
  - destruct Hr as [Hn Ho]. destruct (IH (length (drop (S n) rest)) ltac:(rewrite length_drop; lia) (drop (S n) rest) k1 eq_refl) as (fuel & left & k' & sent & E & K1 & K2 & K3 & K4 & K5).
    exists (S (S fuel)), left, k', (take (S n) rest ++ sent). cbn [loop]. rewrite Estep. cbn [write_step has_unsent descriptor_io]. split; [done|].
    split; [by rewrite <- app_assoc, <- K1, take_drop|]. split; [by rewrite K2, Ho, app_assoc|]. split; [congruence|]. split; [by eapply waits_trans|]. intros Hl. destruct (K5 Hl) as (i & Hi1 & Hi2). exists i. split; [lia|done].
  - destruct Hr as (Ho & Hc1 & Hb1 & Hb2). assert (Hj' : (calls (inner k1) <= j)%nat). { destruct (decide (j = calls (inner k))) as [->|]; [done|]. destruct (decide (j = S (calls (inner k)))) as [->|]; [done|lia]. }
    destruct (IHd (j - calls (inner k1))%nat ltac:(lia) k1 eq_refl Hj') as (fuel & left & k' & sent & E & K1 & K2 & K3 & K4 & K5).
    exists (S fuel), left, k', sent. cbn [loop]. rewrite Estep. split; [done|]. split; [done|]. split; [congruence|]. split; [congruence|]. split; [by eapply waits_trans|]. intros Hl. destruct (K5 Hl) as (i & Hi1 & Hi2). exists i. split; [lia|done].
  - destruct Hr as [Ho Hb]. exists 1%nat, rest, k1, []. cbn [loop]. rewrite Estep. rewrite app_nil_r. split_and!; done.
Qed.

(** C19: Coroutines over a descriptor that may block, fail, deliver or take any
    part at any call, as long as it does not block for ever.  [async_read]
    returns the next bytes the peer sent, at least one and no more than asked
    for, 0 only at the end of the stream and -1 only on a failure, and sleeps
    only for readability; [async_write] puts the data on the wire in order and
    once, all of it unless a call failed, and sleeps only for writability. *)
Theorem async_io_exact : (forall i, settles i) ->
  (forall size k, (0 < size)%nat -> exists fuel res, async_read fuel size k = Some res /\ received size (inner k) res /\ outbox (inner res.2) = outbox (inner k) /\ waits_only EVENT_READ k res.2) /\
  (forall data k, exists fuel left k' sent, async_write fuel data k = Some (left, k') /\ data = sent ++ left /\ outbox (inner k') = outbox (inner k) ++ sent /\ inbox (inner k') = inbox (inner k) /\
    waits_only EVENT_WRITE k k' /\ (left <> [] -> exists j, (calls (inner k) <= j < calls (inner k'))%nat /\ weather j = Broken)).
Proof.
  intros Hset. split; [|intros data k; by apply writes_out_spec]. intros size k Hs. destruct (Hset (calls (inner k))) as (j & Hj & Hw). destruct (async_read_spec size k j Hs Hj Hw) as (res & E & K). by exists (S (j - calls (inner k))), res.
Qed.
End Descriptor.

(** ** Example *)

(** Every other call would block; three bytes fit otherwise. *)
Definition fickle (n : nat) : Weather := if Nat.even n then WouldBlock else Room 3.

Lemma async_io_exact_witness : exists fuel left k', async_write (socket_io := descriptor_io fickle) fuel [1; 2; 3; 4; 5] (mkSock (mkKernel [] [] 0) []) = Some (left, k') /\ outbox (inner k') = [1; 2; 3; 4; 5] /\
  waited k' = [EVENT_WRITE; EVENT_WRITE].
Proof.
  assert (Hset : forall i, settles fickle i). { intros i. exists (S (2 * i)). split; [lia|]. unfold fickle. rewrite Nat.even_succ, Nat.odd_mul, Nat.odd_2. done. }
  destruct (async_io_exact fickle Hset) as [_ H]. destruct (H [1; 2; 3; 4; 5] (mkSock (mkKernel [] [] 0) [])) as (fuel & left & k' & sent & E & _).
  exists fuel, left, k'. split; [exact E|]. pose proof (loop_mono _ _ (fuel + 8) _ _ E ltac:(lia)) as E'. assert (E8 : async_write (socket_io := descriptor_io fickle) 8 [1; 2; 3; 4; 5] (mkSock (mkKernel [] [] 0) []) = Some ([], mkSock (mkKernel [] [1; 2; 3; 4; 5] 4) [EVENT_WRITE; EVENT_WRITE])) by (vm_compute; reflexivity).
  pose proof (loop_mono _ _ (fuel + 8) _ _ E8 ltac:(lia)) as E8'. rewrite E' in E8'. injection E8' as _ ->. done.
Defined.
