(* ===== verification/TlsStream.v ===== *)
(** * TLS over a socket

    src/tls/tls_stream.cpp and include/libspaznet/detail/tls_stream.hpp: the
    record layer is OpenSSL's, which never touches the descriptor; the stream
    carries ciphertext between its two memory BIOs and the descriptor.  The
    library is an interface, its transcript a law; the theorems say that what
    it wrote reaches the wire in order and once, that what the peer sent
    reaches it the same way, and what each result tells the caller to wait
    for. *)
From S2P Require Import Prelude Resources PlatformIO Socket.

Local Open Scope Z_scope.

(** ** Results *)

Inductive Kind := Ok | WantRead | WantWrite | Closed | Error.

#[export] Instance Kind_eq_dec : EqDecision Kind.
Proof. solve_decision. Defined.

Record TlsIoResult := mkIo { kind : Kind; count_n : nat }.

Abbreviation io k := (mkIo k 0).

(** ** The library *)

(** [SSL_get_error]; for [SSL_ERROR_SYSCALL], whether errno is 0 or retryable
    and what [SSL_want] says. *)
Inductive SslError := WANT_READ | WANT_WRITE | ZERO_RETURN | SYSCALL (retryable writing : bool) | SSL_FATAL.

(** One call: its return value, the library's state after it, how much of the
    read BIO it took, what it put into the write BIO, and the data it
    returned. *)
Record SslCall (Ssl : Type) := mkCall { ret : Z; after : Ssl; eaten : nat; emitted : bytes; opened : bytes }.
Arguments mkCall {Ssl}.
Arguments ret {Ssl}.
Arguments after {Ssl}.
Arguments eaten {Ssl}.
Arguments emitted {Ssl}.
Arguments opened {Ssl}.

(** The calls, each given the contents of the read BIO; lengths are C ints. *)
Class SslLibrary (Ssl : Type) := {
  SSL_accept : bytes -> Ssl -> SslCall Ssl;
  SSL_read : Z -> bytes -> Ssl -> SslCall Ssl;
  SSL_write : bytes -> Z -> bytes -> Ssl -> SslCall Ssl;
  SSL_shutdown : bytes -> Ssl -> SslCall Ssl;
  SSL_get_error : Ssl -> Z -> SslError;
  (** How much of a chunk the read BIO takes. *)
  BIO_write : bytes -> bytes -> Z }.

(** ** The stream *)

Section Stream.
Context {Ssl : Type} {ssl_library : SslLibrary Ssl} (weather : nat -> Weather).

Record TlsStream := mkTls {
  ssl : Ssl;
  rbio : bytes;
  wbio : bytes;
  pending_out : bytes;
  pending_out_off : nat;
  handshake_done : bool;
  shutdown_done : bool;
  net : Kernel }.

Definition eta_TlsStream (t : TlsStream) : TlsStream :=
  mkTls (ssl t) (rbio t) (wbio t) (pending_out t) (pending_out_off t) (handshake_done t) (shutdown_done t) (net t).

Definition set_rbio (v : bytes) (t : TlsStream) : TlsStream := ltac:(with_field eta_TlsStream t rbio v).
Definition set_net (v : Kernel) (t : TlsStream) : TlsStream := ltac:(with_field eta_TlsStream t net v).
Definition set_handshake_done (v : bool) (t : TlsStream) : TlsStream := ltac:(with_field eta_TlsStream t handshake_done v).
Definition set_shutdown_done (v : bool) (t : TlsStream) : TlsStream := ltac:(with_field eta_TlsStream t shutdown_done v).

Definition set_pending (out : bytes) (off : nat) (t : TlsStream) : TlsStream :=
  mkTls (ssl t) (rbio t) (wbio t) out off (handshake_done t) (shutdown_done t) (net t).

(** The state a call leaves: the BIOs are queues. *)
Definition absorb (c : SslCall Ssl) (t : TlsStream) : TlsStream :=
  mkTls (after c) (drop (eaten c) (rbio t)) (wbio t ++ emitted c) (pending_out t) (pending_out_off t) (handshake_done t) (shutdown_done t) (net t).

Definition map_ssl_error (ssl_ret : Z) (t : TlsStream) : TlsIoResult :=
  match SSL_get_error (ssl t) ssl_ret with
  | WANT_READ => io WantRead
  | WANT_WRITE => io WantWrite
  | ZERO_RETURN => io Closed
  | SYSCALL retryable writing =>
      if ssl_ret =? 0 then io Closed
      else if retryable then (if writing then io WantWrite else io WantRead)
      else io Error
  | SSL_FATAL => io Error
  end.

Definition chunk_size : nat := Z.to_nat (16 * 1024).

(** [BIO_read] of a chunk. *)
Definition drain_step (t : TlsStream) : TlsStream + TlsStream :=
  match wbio t with
  | [] => inr t
  | w => inl (mkTls (ssl t) (rbio t) (drop chunk_size w) (pending_out t ++ take chunk_size w) (pending_out_off t) (handshake_done t) (shutdown_done t) (net t))
  end.

Definition drain_wbio_to_pending (t : TlsStream) : TlsStream := default t (loop drain_step (S (length (wbio t))) t).

Definition flush_step (t : TlsStream) : TlsStream + (TlsIoResult * TlsStream) :=
  if (pending_out_off t <? length (pending_out t))%nat then
    let '(r, k) := socket_send weather (drop (pending_out_off t) (pending_out t)) (net t) in
    let t := set_net k t in
    match r with
    | Took (S n) => inl (set_pending (pending_out t) (pending_out_off t + S n) t)
    | Took O => inr (io WantWrite, t)
    | WantToWrite _ => inr (io WantWrite, t)
    | WriteFailed => inr (io Error, t)
    end
  else inr (io Ok, set_pending [] 0 t).

Definition flush_network (t : TlsStream) : TlsIoResult * TlsStream :=
  let t := drain_wbio_to_pending t in
  default (io Error, t) (loop flush_step (S (length (pending_out t) - pending_out_off t)) t).

Definition feed_network (t : TlsStream) : TlsIoResult * TlsStream :=
  let '(r, k) := socket_recv weather chunk_size (net t) in
  let t := set_net k t in
  match r with
  | Got chunk =>
      let w := BIO_write (rbio t) chunk in
      if w <=? 0 then (io Error, t)
      else
        let t := set_rbio (rbio t ++ take (Z.to_nat w) chunk) t in
        if negb (w =? #chunk) then (io Error, t) else (mkIo Ok (length chunk), t)
  | Eof => (io Closed, t)
  | Want _ => (io WantRead, t)
  | Failed => (io Error, t)
  end.

(** [pending_out_off_ < pending_out_.size() || BIO_ctrl_pending(wbio) > 0]. *)
Definition wants_write (t : TlsStream) : bool := (pending_out_off t <? length (pending_out t))%nat || negb (bool_decide (wbio t = [])).

Definition flush (t : TlsStream) : TlsIoResult * TlsStream := flush_network t.

Definition hard (r : TlsIoResult) : bool := bool_decide (kind r = Error) || bool_decide (kind r = Closed).

Definition handshake_step (t : TlsStream) : TlsStream + (TlsIoResult * TlsStream) :=
  let c := SSL_accept (rbio t) (ssl t) in
  let '(flushed, t) := flush_network (absorb c t) in
  if hard flushed then inr (flushed, t)
  else if ret c =? 1 then
    let t := set_handshake_done true t in
    if bool_decide (kind flushed = WantWrite) || wants_write t then inr (io WantWrite, t) else inr (io Ok, t)
  else
    let err := map_ssl_error (ret c) t in
    match kind err with
    | WantRead => let '(fed, t) := feed_network t in if bool_decide (kind fed = Ok) then inl t else inr (fed, t)
    | WantWrite =>
        if bool_decide (kind flushed = WantWrite) || (pending_out_off t <? length (pending_out t))%nat then inr (io WantWrite, t) else inl t
    | _ => inr (err, t)
    end.

Definition handshake (fuel : nat) (t : TlsStream) : option (TlsIoResult * TlsStream) :=
  if handshake_done t then
    let '(flushed, t) := flush_network t in
    if bool_decide (kind flushed = Ok) then Some (io Ok, t) else Some (flushed, t)
  else loop handshake_step fuel t.

(** The conversion to the library's int. *)
Definition c_int (n : nat) : Z := let m := Z.of_nat n mod 2 ^ 32 in if m <? 2 ^ 31 then m else m - 2 ^ 32.

Definition read_round (len : nat) (t : TlsStream) : TlsStream + (TlsIoResult * bytes * TlsStream) :=
  let c := SSL_read (c_int len) (rbio t) (ssl t) in
  let '(flushed, t) := flush_network (absorb c t) in
  if hard flushed then inr (flushed, [], t)
  else if 0 <? ret c then inr (mkIo Ok (Z.to_nat (ret c)), opened c, t)
  else
    let err := map_ssl_error (ret c) t in
    match kind err with
    | WantRead =>
        let '(fed, t) := feed_network t in
        if bool_decide (kind fed = Ok) then inl t
        else if bool_decide (kind fed = WantRead) && (bool_decide (kind flushed = WantWrite) || wants_write t) then inr (io WantWrite, [], t)
        else inr (fed, [], t)
    | WantWrite =>
        if bool_decide (kind flushed = WantWrite) || (pending_out_off t <? length (pending_out t))%nat then inr (io WantWrite, [], t) else inl t
    | _ => inr (err, [], t)
    end.

Definition read (fuel len : nat) (t : TlsStream) : option (TlsIoResult * bytes * TlsStream) :=
  if negb (handshake_done t) then Some (io Error, [], t)
  else if (len =? 0)%nat then Some (io Ok, [], t)
  else loop (read_round len) fuel t.

(** [write] once no earlier ciphertext is left. *)
Definition write_fresh (buf : bytes) (t : TlsStream) : TlsIoResult * TlsStream :=
  let c := SSL_write buf (c_int (length buf)) (rbio t) (ssl t) in
  let '(flushed, t) := flush_network (absorb c t) in
  if hard flushed then (flushed, t)
  else if 0 <? ret c then (mkIo Ok (Z.to_nat (ret c)), t)
  else
    let err := map_ssl_error (ret c) t in
    match kind err with
    | WantRead => let '(fed, t) := feed_network t in if bool_decide (kind fed = Ok) then (io WantRead, t) else (fed, t)
    | WantWrite => (io WantWrite, t)
    | _ => (err, t)
    end.

Definition write (buf : bytes) (t : TlsStream) : TlsIoResult * TlsStream :=
  if negb (handshake_done t) then (io Error, t)
  else
    match buf with
    | [] => flush_network t
    | _ =>
        if wants_write t then
          let '(flushed, t) := flush_network t in
          if bool_decide (kind flushed = Ok) then write_fresh buf t else (flushed, t)
        else write_fresh buf t
    end.

Definition shutdown (t : TlsStream) : TlsStream :=
  if shutdown_done t then t
  else
    let t := set_shutdown_done true t in
    (flush_network (absorb (SSL_shutdown (rbio t) (ssl t)) t)).2.

(** ** The stream as a socket's transport *)

Definition wait_events (k : Kind) : Z := match k with WantWrite => EVENT_WRITE | _ => EVENT_READ end.

(** Every round of [handshake] and [read] but the last receives something. *)
Definition rounds (t : TlsStream) : nat := S (length (inbox (net t))).

Definition tls_read (size : nat) (t : TlsStream) : ReadResult * TlsStream :=
  match read (rounds t) size t with
  | Some (r, bs, t) =>
      (match kind r with
       | Ok => if (0 <? count_n r)%nat then Got bs else Eof
       | WantRead | WantWrite => Want (wait_events (kind r))
       | Closed => Eof
       | Error => Failed
       end, t)
  | None => (Failed, t)
  end.

Definition to_write_result (r : TlsIoResult) : WriteResult :=
  match kind r with
  | Ok => Took (count_n r)
  | WantRead | WantWrite => WantToWrite (wait_events (kind r))
  | Closed | Error => WriteFailed
  end.

Definition tls_write (data : bytes) (t : TlsStream) : WriteResult * TlsStream := let '(r, t) := write data t in (to_write_result r, t).

Definition tls_flush (t : TlsStream) : WriteResult * TlsStream := let '(r, t) := flush t in (to_write_result r, t).

Instance tls_io : SocketIO TlsStream := {| attempt_read := tls_read; attempt_write := tls_write; has_unsent := wants_write; attempt_flush := tls_flush |}.

(** [co_await HandshakeAwaiter]. *)
Definition attempt_handshake (t : TlsStream) : TlsIoResult * TlsStream := default (io Error, t) (handshake (rounds t) t).

Definition await_handshake (k : Sock) : TlsIoResult * Sock :=
  let '(r, t) := attempt_handshake (inner k) in
  match kind r with
  | WantRead | WantWrite => let '(r', t) := attempt_handshake t in (r', mkSock t (waited k ++ [wait_events (kind r)]))
  | _ => (r, mkSock t (waited k))
  end.

Definition async_handshake_step (k : Sock) : Sock + (bool * Sock) :=
  let '(r, k) := await_handshake k in
  match kind r with
  | Ok => inr (true, k)
  | WantRead | WantWrite => inl k
  | _ => inr (false, k)
  end.

Definition async_handshake (fuel : nat) (k : Sock) : option (bool * Sock) := loop async_handshake_step fuel k.

Lemma chunk_size_pos : (0 < chunk_size)%nat.
Proof. unfold chunk_size. lia. Qed.

Opaque chunk_size.

(** ** What the library promises *)

(** [sent_by], [taken_by] and [given_to]: all it has put into the write BIO,
    taken from the read BIO, and accepted from [SSL_write]. *)
Class SslLaws := {
  sent_by : Ssl -> bytes;
  taken_by : Ssl -> bytes;
  given_to : Ssl -> bytes;
  transcript (c : SslCall Ssl) (rb : bytes) (s : Ssl) : Prop := sent_by (after c) = sent_by s ++ emitted c /\ taken_by (after c) = taken_by s ++ take (eaten c) rb;
  accept_law rb s : transcript (SSL_accept rb s) rb s /\ given_to (after (SSL_accept rb s)) = given_to s;
  read_law len rb s : transcript (SSL_read len rb s) rb s /\ given_to (after (SSL_read len rb s)) = given_to s;
  read_returns len rb s : 0 < len -> ret (SSL_read len rb s) <= len /\ (0 < ret (SSL_read len rb s) -> #(opened (SSL_read len rb s)) = ret (SSL_read len rb s));
  write_law buf rb s : 0 < #buf < 2 ^ 31 -> transcript (SSL_write buf #buf rb s) rb s /\ ret (SSL_write buf #buf rb s) <= #buf /\
    given_to (after (SSL_write buf #buf rb s)) = given_to s ++ take (Z.to_nat (ret (SSL_write buf #buf rb s))) buf;
  shutdown_law rb s : transcript (SSL_shutdown rb s) rb s /\ given_to (after (SSL_shutdown rb s)) = given_to s;
  (** A memory BIO takes all that is written to it, or an error is returned;
      so the library never waits for room in one. *)
  bio_law rb chunk : BIO_write rb chunk <= #chunk;
  error_law s r : SSL_get_error s r <> WANT_WRITE /\ SSL_get_error s r <> SYSCALL true true }.

Context {ssl_laws : SslLaws}.

(** Ciphertext the library has written that is not on the wire. *)
Definition unsent (t : TlsStream) : bytes := drop (pending_out_off t) (pending_out t) ++ wbio t.

Definition wire (t : TlsStream) : Prop := (pending_out_off t <= length (pending_out t))%nat /\ sent_by (ssl t) = outbox (net t) ++ unsent t.

(** All the peer sends: taken by the library, in the read BIO, to be received. *)
Definition intake (t : TlsStream) : bytes := taken_by (ssl t) ++ rbio t ++ inbox (net t).

(** The last call on the descriptor would have blocked. *)
Definition blocked (t : TlsStream) : Prop := exists j, calls (net t) = S j /\ weather j = WouldBlock.

Lemma c_int_small (n : nat) : Z.of_nat n < 2 ^ 31 -> c_int n = Z.of_nat n.
Proof. intros H. unfold c_int. rewrite Z.mod_small by lia. by destruct (Z.ltb_spec (Z.of_nat n) (2 ^ 31)); [|lia]. Qed.

Lemma wants_write_unsent t : (pending_out_off t <= length (pending_out t))%nat -> wants_write t = negb (bool_decide (unsent t = [])).
Proof.
  intros H. unfold wants_write, unsent. destruct (Nat.ltb_spec (pending_out_off t) (length (pending_out t))) as [Hl|Hl]; cbn [orb].
  - rewrite bool_decide_false; [done|]. intros E%app_eq_nil. destruct E as [E _]. apply (f_equal length) in E. rewrite length_drop in E. cbn in E. lia.
  - rewrite drop_ge by lia. done.
Qed.

Lemma tlsstream_drain_spec t : drain_wbio_to_pending t = mkTls (ssl t) (rbio t) [] (pending_out t ++ wbio t) (pending_out_off t) (handshake_done t) (shutdown_done t) (net t).
Proof.
  unfold drain_wbio_to_pending. enough (forall m u, (length (wbio u) < m)%nat -> loop drain_step m u = Some (mkTls (ssl u) (rbio u) [] (pending_out u ++ wbio u) (pending_out_off u) (handshake_done u) (shutdown_done u) (net u))) as H.
  { rewrite H by lia. done. }
  intros m. induction m as [|m IH]; intros u Hm; [lia|]. cbn [loop]. unfold drain_step at 1. destruct (wbio u) as [|b w] eqn:Ew.
  - rewrite app_nil_r. rewrite <- Ew. by destruct u.
  - rewrite IH; cbn [wbio ssl rbio pending_out pending_out_off handshake_done shutdown_done net]; [by rewrite <- app_assoc, take_drop|]. rewrite length_drop. pose proof chunk_size_pos. cbn [length] in *. lia.
Qed.

(** A call between [t] and [t'] failed. *)
Definition broke (t t' : TlsStream) : Prop := exists j, (calls (net t) <= j < calls (net t'))%nat /\ weather j = Broken.

(** From [t] to [t'] something was sent, or one call was made. *)
Definition stalled (t t' : TlsStream) : Prop := (length (unsent t') < length (unsent t))%nat \/ ((length (unsent t') <= length (unsent t))%nat /\ calls (net t') = S (calls (net t))).

(** What [flush_network] leaves of [t]: the same data, further along. *)
Definition flushed_from (t : TlsStream) (r : TlsIoResult) (t' : TlsStream) : Prop :=
  ssl t' = ssl t /\ rbio t' = rbio t /\ wbio t' = [] /\ handshake_done t' = handshake_done t /\ shutdown_done t' = shutdown_done t /\ inbox (net t') = inbox (net t) /\
  (calls (net t) <= calls (net t'))%nat /\
  (pending_out_off t' <= length (pending_out t'))%nat /\ outbox (net t') ++ unsent t' = outbox (net t) ++ unsent t /\
  match kind r with
  | Ok => unsent t' = []
  | WantWrite => unsent t' <> [] /\ blocked t' /\ stalled t t'
  | Error => broke t t'
  | _ => False
  end.

Lemma flush_loop t m : wbio t = [] -> (pending_out_off t <= length (pending_out t))%nat -> (length (pending_out t) - pending_out_off t < m)%nat ->
  exists r t', loop (flush_step) m t = Some (r, t') /\ flushed_from t r t'.
Proof.
  revert t. induction m as [|m IH]; intros t Hw Ho Hm; [lia|]. cbn [loop]. unfold flush_step at 1. unfold flushed_from, broke, stalled, unsent.
  destruct (Nat.ltb_spec (pending_out_off t) (length (pending_out t))) as [Hl|Hl].
  - assert (Hd : drop (pending_out_off t) (pending_out t) <> []). { intros E%(f_equal length). rewrite length_drop in E. cbn in E. lia. }
    pose proof (send_spec weather _ (net t) Hd) as Hs. destruct (socket_send weather _ (net t)) as [r k]. destruct Hs as (Hi & Hc & Hr). destruct r as [[|n]|ev|].
    + lia.
    + destruct Hr as [Hn Hout]. rewrite length_drop in Hn.
      destruct (IH (set_pending (pending_out t) (pending_out_off t + S n) (set_net k t))) as (r & t' & E & K); cbn; [done|lia|lia|]. exists r, t'. split; [exact E|].
      unfold flushed_from, broke, stalled, unsent in K. cbn in K. destruct K as (K1 & K2 & K3 & K4 & K5 & K6 & K7 & K8 & K9 & K10). split_and!; try done; [congruence|lia| |].
      * rewrite K9, Hout, Hw, !app_nil_r, <- app_assoc. f_equal. by rewrite <- drop_drop, take_drop.
      * destruct (kind r); try done; [|destruct K10 as (j & Hj & Hb); exists j; split; [lia|done]]. destruct K10 as (? & ? & [Hl'|[Hl' _]]); split_and!; try done; left; rewrite Hw, app_nil_r in *; rewrite !length_app, !length_drop in *; lia.
    + destruct Hr as (-> & -> & Hb). eexists _, _. split; [done|]. cbn. rewrite Hw, !app_nil_r. split_and!; try done; [lia..|by exists (calls (net t))|]. right. split; lia.
    + destruct Hr as [Hout Hb]. eexists _, _. split; [done|]. cbn. rewrite Hw, !app_nil_r. split_and!; try done; [lia..|by rewrite Hout|]. exists (calls (net t)). split; [lia|done].
  - eexists _, _. split; [done|]. cbn. rewrite Hw, !drop_ge by lia. done.
Qed.

Lemma flush_spec t : (pending_out_off t <= length (pending_out t))%nat -> exists r t', flush_network t = (r, t') /\ flushed_from t r t'.
Proof.
  intros Ho. unfold flush_network. rewrite tlsstream_drain_spec. set (u := mkTls _ _ _ _ _ _ _ _). cbv zeta.
  assert (Ho' : (pending_out_off u <= length (pending_out u))%nat) by (cbn; rewrite length_app; lia).
  destruct (flush_loop u _ eq_refl Ho' (Nat.lt_succ_diag_r _)) as (r & t' & E & K). exists r, t'. rewrite E. split; [done|].
  assert (Eu : unsent u = unsent t) by (unfold unsent, u; cbn; by rewrite app_nil_r, drop_app_le by lia).
  unfold flushed_from, broke, stalled in *. rewrite Eu in K. done.
Qed.

Lemma feed_spec t : let '(r, t') := feed_network t in
  ssl t' = ssl t /\ wbio t' = wbio t /\ pending_out t' = pending_out t /\ pending_out_off t' = pending_out_off t /\ handshake_done t' = handshake_done t /\
  outbox (net t') = outbox (net t) /\ calls (net t') = S (calls (net t)) /\ (kind r <> Error -> intake t' = intake t) /\
  match kind r with
  | Ok => (length (inbox (net t')) < length (inbox (net t)))%nat
  | WantRead => blocked t' /\ inbox (net t') = inbox (net t)
  | WantWrite => False
  | Closed => inbox (net t) = []
  | Error => True
  end.
Proof.
  unfold feed_network, socket_recv, intake, blocked. destruct (weather (calls (net t))) as [| |n] eqn:Ew; [cbn; split_and!; try done; by exists (calls (net t))|cbn; by split_and!|].
  destruct (inbox (net t)) as [|b i] eqn:Ei; [cbn; rewrite Ei; by split_and!|]. set (m := Nat.min chunk_size (Nat.max 1 n)). assert (Hm : (0 < m)%nat) by (pose proof chunk_size_pos; subst m; lia).
  cbn zeta beta iota. cbn [rbio set_net]. pose proof (bio_law (rbio t) (take m (b :: i))) as Hb.
  destruct (Z.leb_spec (BIO_write (rbio t) (take m (b :: i))) 0); [cbn; by split_and!|]. destruct (Z.eqb_spec (BIO_write (rbio t) (take m (b :: i))) #(take m (b :: i))) as [E|E]; [|cbn -[take drop]; by split_and!].
  cbn -[take drop chunk_size]. rewrite E, Nat2Z.id, firstn_all. split_and!; try done.
  - intros _. by rewrite <- app_assoc, take_drop.
  - rewrite length_drop. cbn [length]. lia.
Qed.

(** ** The operations *)

(** What an operation keeps, whatever it returns. *)
Definition kept (t : TlsStream) (r : TlsIoResult) (t' : TlsStream) : Prop := wire t' /\ (kind r <> Error -> intake t' = intake t).

Definition settled (t : TlsStream) (r : TlsIoResult) (t' : TlsStream) : Prop :=
  match kind r with
  | Ok => unsent t' = []
  | WantWrite => unsent t' <> [] /\ blocked t'
  | Error => broke t t'
  | _ => False
  end.

Lemma flush_wire t r t' : wire t -> flushed_from t r t' -> wire t' /\ intake t' = intake t /\ settled t r t'.
Proof.
  intros [H1 H2] (K1 & K2 & K3 & K4 & K5 & K6 & K7 & K8 & K9 & K10). split; [split; [done|congruence]|]. split; [by unfold intake; rewrite K1, K2, K6|]. unfold settled. destruct (kind r); try done. by destruct K10 as (? & ? & _).
Qed.

Lemma call_flush c t : wire t -> transcript c (rbio t) (ssl t) -> exists r t', flush_network (absorb c t) = (r, t') /\
  wire t' /\ intake t' = intake t /\ settled t r t' /\ ssl t' = after c /\ wbio t' = [] /\ handshake_done t' = handshake_done t /\ inbox (net t') = inbox (net t) /\ (calls (net t) <= calls (net t'))%nat.
Proof.
  intros [Hw1 Hw2] [Hs Ht]. assert (Hw : wire (absorb c t)). { split; [done|]. unfold unsent in *. cbn. by rewrite Hs, Hw2, <- !app_assoc. }
  destruct (flush_spec (absorb c t) Hw1) as (r & t' & E & K). exists r, t'. split; [done|]. destruct (flush_wire _ _ _ Hw K) as (K1 & K2 & K3). destruct K as (L1 & L2 & L3 & L4 & L5 & L6 & L7 & _).
  split_and!; try done. rewrite K2. unfold intake. cbn. rewrite Ht, <- app_assoc. f_equal. by rewrite app_assoc, take_drop.
Qed.

Lemma settled_hard t r t' : settled t r t' -> hard r = bool_decide (kind r = Error) /\ (hard r = false -> kind r = Ok \/ kind r = WantWrite).
Proof. unfold settled, hard. destruct (kind r); try done; intros _; split; auto. Qed.

Lemma map_ssl_error_spec z t : kind (map_ssl_error z t) <> WantWrite /\ kind (map_ssl_error z t) <> Ok.
Proof.
  unfold map_ssl_error. destruct (error_law (ssl t) z) as [H1 H2]. destruct (SSL_get_error (ssl t) z) as [| | |[] []|]; try done; by case_match.
Qed.

Lemma wire_same t t' : wire t -> ssl t' = ssl t -> wbio t' = wbio t -> pending_out t' = pending_out t -> pending_out_off t' = pending_out_off t -> outbox (net t') = outbox (net t) ->
  wire t' /\ unsent t' = unsent t.
Proof. unfold wire, unsent. intros H -> -> -> -> ->. done. Qed.

(** One round of [handshake]. *)
Lemma handshake_step_spec t : wire t ->
  match handshake_step t with
  | inl t' => wire t' /\ intake t' = intake t /\ (length (inbox (net t')) < length (inbox (net t)))%nat
  | inr (r, t') => kept t r t' /\ (kind r = Ok -> handshake_done t' = true /\ unsent t' = []) /\ (kind r = WantWrite -> unsent t' <> []) /\ (kind r = WantRead -> blocked t')
  end.
Proof.
  intros Hw. unfold handshake_step, kept. destruct (accept_law (rbio t) (ssl t)) as [Hc _]. destruct (call_flush _ t Hw Hc) as (r & t1 & E & K1 & K2 & K3 & K4 & K5 & K6 & K7 & K8). rewrite E.
  destruct (settled_hard _ _ _ K3) as [Eh Hok]. destruct (hard r) eqn:Ehr. { symmetry in Eh. apply bool_decide_eq_true in Eh. rewrite Eh. split_and!; done. }
  destruct (Z.eqb_spec (ret (SSL_accept (rbio t) (ssl t))) 1) as [_|_].
  - destruct (wire_same t1 (set_handshake_done true t1)) as [W1 W2]; try done. rewrite wants_write_unsent, W2 by apply W1. unfold settled in K3.
    destruct (Hok eq_refl) as [Ek|Ek]; rewrite Ek in *; cbn.
    + rewrite K3. cbn. by split_and!.
    + split_and!; try done. intros _. rewrite W2. apply K3.
  - destruct (map_ssl_error_spec (ret (SSL_accept (rbio t) (ssl t))) t1) as [M1 M2]. destruct (kind (map_ssl_error _ t1)) eqn:Em; try done.
    + pose proof (feed_spec t1) as F. destruct (feed_network t1) as [fed t2]. destruct F as (F1 & F2 & F3 & F4 & F5 & F6 & F7 & F8 & F9). destruct (wire_same t1 t2 K1 F1 F2 F3 F4 F6) as [W1 W2].
      destruct (bool_decide_reflect (kind fed = Ok)) as [Ef|Ef].
      * rewrite Ef in *. cbn in F9. rewrite K7 in F9. split; [done|]. split; [rewrite F8 by done; done|done].
      * split_and!; try done; [intros; rewrite F8 by done; done| |]; destruct (kind fed); try done. by intros _; apply F9.
    + rewrite Em. by split_and!.
    + rewrite Em. by split_and!.
Qed.

(** One round of [read]. *)
Lemma read_round_spec len t : 0 < Z.of_nat len < 2 ^ 31 -> wire t ->
  match read_round len t with
  | inl t' => wire t' /\ intake t' = intake t /\ given_to (ssl t') = given_to (ssl t) /\ (length (inbox (net t')) < length (inbox (net t)))%nat
  | inr (r, bs, t') => kept t r t' /\ given_to (ssl t') = given_to (ssl t) /\ (kind r = Ok -> (0 < count_n r <= len)%nat /\ length bs = count_n r) /\
      (kind r = WantWrite -> unsent t' <> []) /\ (kind r = WantRead -> unsent t' = [] /\ blocked t')
  end.
Proof.
  intros Hlen Hw. unfold read_round, kept. rewrite c_int_small by lia. destruct (read_law (Z.of_nat len) (rbio t) (ssl t)) as [Hc Hg]. destruct (read_returns (Z.of_nat len) (rbio t) (ssl t)) as [Hr1 Hr2]; [lia|].
  destruct (call_flush _ t Hw Hc) as (r & t1 & E & K1 & K2 & K3 & K4 & K5 & K6 & K7 & K8). rewrite E. rewrite <- K4 in Hg.
  destruct (settled_hard _ _ _ K3) as [Eh Hok]. destruct (hard r) eqn:Ehr. { symmetry in Eh. apply bool_decide_eq_true in Eh. rewrite Eh. split_and!; done. }
  destruct (Z.ltb_spec 0 (ret (SSL_read (Z.of_nat len) (rbio t) (ssl t)))) as [Hp|Hp].
  - cbn [kind count_n]. split_and!; try done. intros _. specialize (Hr2 Hp). lia.
  - destruct (map_ssl_error_spec (ret (SSL_read (Z.of_nat len) (rbio t) (ssl t))) t1) as [M1 M2]. destruct (kind (map_ssl_error _ t1)) eqn:Em; try done.
    + pose proof (feed_spec t1) as F. destruct (feed_network t1) as [fed t2]. destruct F as (F1 & F2 & F3 & F4 & F5 & F6 & F7 & F8 & F9). destruct (wire_same t1 t2 K1 F1 F2 F3 F4 F6) as [W1 W2].
      rewrite wants_write_unsent, W2 by apply W1. destruct (bool_decide_reflect (kind fed = Ok)) as [Ef|Ef].
      { rewrite Ef in *. cbn in F9. rewrite K7 in F9. split_and!; try done; [rewrite F8 by done; done|congruence]. }
      assert (Hu : (bool_decide (kind r = WantWrite) || negb (bool_decide (unsent t1 = []))) = negb (bool_decide (unsent t1 = []))). { unfold settled in K3. destruct (Hok eq_refl) as [Ek|Ek]; rewrite Ek in *; cbn; [done|]. rewrite (bool_decide_false (unsent t1 = [])) by apply K3; by rewrite orb_true_r. }
      rewrite Hu. destruct (bool_decide_reflect (kind fed = WantRead)) as [Er|Er]; cbn [andb].
      * rewrite Er in *. destruct (bool_decide_reflect (unsent t1 = [])) as [Eu|Eu]; cbn [negb]; [rewrite Er|cbn [kind]]; split_and!; try done; try congruence; try (intros _; rewrite F8 by done; done); try (intros _; rewrite W2; try split; done).
        intros _. split; [congruence|apply F9].
      * split_and!; try done; [intros; rewrite F8 by done; done|congruence|]. by destruct (kind fed).
    + rewrite Em. by split_and!.
    + rewrite Em. by split_and!.
Qed.

(** What [write] returns for [buf]. *)
Definition wrote (buf : bytes) (t : TlsStream) (r : TlsIoResult) (t' : TlsStream) : Prop :=
  kept t r t' /\ handshake_done t' = handshake_done t /\
  (kind r = Ok -> (0 < count_n r <= length buf)%nat /\ given_to (ssl t') = given_to (ssl t) ++ take (count_n r) buf) /\
  (kind r <> Ok -> kind r <> Error -> given_to (ssl t') = given_to (ssl t)) /\ (kind r = WantWrite -> unsent t' <> [] /\ blocked t').

Lemma write_fresh_spec buf t : 0 < #buf < 2 ^ 31 -> wire t -> let '(r, t') := write_fresh buf t in wrote buf t r t'.
Proof.
  intros Hlen Hw. unfold write_fresh, wrote, kept. rewrite c_int_small by lia. destruct (write_law buf (rbio t) (ssl t) Hlen) as (Hc & Hr & Hg).
  destruct (call_flush _ t Hw Hc) as (r & t1 & E & K1 & K2 & K3 & K4 & K5 & K6 & K7 & K8). rewrite E. rewrite <- K4 in Hg.
  destruct (settled_hard _ _ _ K3) as [Eh Hok]. destruct (hard r) eqn:Ehr. { symmetry in Eh. apply bool_decide_eq_true in Eh. rewrite Eh. split_and!; done. }
  destruct (Z.ltb_spec 0 (ret (SSL_write buf #buf (rbio t) (ssl t)))) as [Hp|Hp].
  { cbn [kind count_n]. split_and!; try done. intros _. split; [lia|done]. }
  assert (Hg' : given_to (ssl t1) = given_to (ssl t)). { replace (Z.to_nat _) with O in Hg by lia. by rewrite take_0, app_nil_r in Hg. }
  destruct (map_ssl_error_spec (ret (SSL_write buf #buf (rbio t) (ssl t))) t1) as [M1 M2]. destruct (kind (map_ssl_error _ t1)) eqn:Em; try done.
  - pose proof (feed_spec t1) as F. destruct (feed_network t1) as [fed t2]. destruct F as (F1 & F2 & F3 & F4 & F5 & F6 & F7 & F8 & F9). destruct (wire_same t1 t2 K1 F1 F2 F3 F4 F6) as [W1 W2].
    destruct (bool_decide_reflect (kind fed = Ok)) as [Ef|Ef]; [cbn [kind]|]; split_and!; try done; try congruence; try (intros; rewrite F8 by congruence; done). by destruct (kind fed).
  - rewrite Em. by split_and!.
  - rewrite Em. by split_and!.
Qed.

Lemma write_spec buf t : 0 < #buf < 2 ^ 31 -> wire t -> handshake_done t = true -> let '(r, t') := write buf t in wrote buf t r t'.
Proof.
  intros Hlen Hw Hd. unfold write. rewrite Hd. cbn [negb]. destruct buf as [|b buf0] eqn:Eb; [cbn in Hlen; lia|]. rewrite <- Eb in *. destruct (wants_write t); [|by apply write_fresh_spec].
  destruct (flush_spec t (proj1 Hw)) as (r & t1 & E & K). rewrite E. destruct (flush_wire _ _ _ Hw K) as (K1 & K2 & K3). destruct K as (L1 & L2 & L3 & L4 & _).
  destruct (bool_decide_reflect (kind r = Ok)) as [Ek|Ek].
  - pose proof (write_fresh_spec buf t1 Hlen K1) as H. destruct (write_fresh buf t1) as [r2 t2]. destruct H as ((H1 & H2) & H3 & H4 & H5 & H6). unfold wrote, kept. rewrite <- L1, <- K2, <- L4. by split_and!.
  - unfold wrote, kept. split_and!; try done; [by rewrite L1|]. unfold settled in K3. intros E'. by rewrite E' in K3.
Qed.

Lemma shutdown_spec t : wire t -> wire (shutdown t) /\ intake (shutdown t) = intake t.
Proof.
  intros Hw. unfold shutdown. destruct (shutdown_done t); [done|]. cbv zeta. destruct (wire_same t (set_shutdown_done true t)) as [W1 _]; try done.
  destruct (shutdown_law (rbio (set_shutdown_done true t)) (ssl (set_shutdown_done true t))) as [Hc _]. destruct (call_flush _ _ W1 Hc) as (r & t1 & E & K1 & K2 & _). rewrite E. done.
Qed.

Lemma handshake_runs t : wire t -> exists r t', handshake (S (length (inbox (net t)))) t = Some (r, t') /\
  kept t r t' /\ (kind r = Ok -> handshake_done t' = true /\ unsent t' = []) /\ (kind r = WantWrite -> unsent t' <> []) /\ (kind r = WantRead -> blocked t').
Proof.
  intros Hw. unfold handshake. destruct (handshake_done t) eqn:Ed.
  - destruct (flush_spec t (proj1 Hw)) as (r & t' & E & K). rewrite E. destruct (flush_wire _ _ _ Hw K) as (K1 & K2 & K3). destruct K as (L1 & L2 & L3 & L4 & _). unfold settled in K3.
    destruct (bool_decide_reflect (kind r = Ok)) as [Ek|Ek]; eexists _, _; (split; [done|]); unfold kept; [rewrite Ek in K3; split_and!; done || (intros; split; congruence)|].
    split_and!; try done; destruct (kind r); try done. by intros _; apply K3.
  - enough (forall m u, (length (inbox (net u)) < m)%nat -> wire u -> intake u = intake t -> exists r t', loop handshake_step m u = Some (r, t') /\
      kept t r t' /\ (kind r = Ok -> handshake_done t' = true /\ unsent t' = []) /\ (kind r = WantWrite -> unsent t' <> []) /\ (kind r = WantRead -> blocked t')) as H by (apply H; [lia|done|done]).
    induction m as [|m IH]; intros u Hm Hu Hi; [lia|]. cbn [loop]. pose proof (handshake_step_spec u Hu) as Hs. destruct (handshake_step u) as [u'|[r t']].
    + destruct Hs as (H1 & H2 & H3). apply IH; [lia|done|congruence].
    + exists r, t'. split; [done|]. unfold kept in *. rewrite <- Hi. done.
Qed.

Lemma read_runs len t : 0 < Z.of_nat len < 2 ^ 31 -> wire t -> handshake_done t = true -> exists r bs t', read (S (length (inbox (net t)))) len t = Some (r, bs, t') /\
  kept t r t' /\ given_to (ssl t') = given_to (ssl t) /\ (kind r = Ok -> (0 < count_n r <= len)%nat /\ length bs = count_n r) /\
  (kind r = WantWrite -> unsent t' <> []) /\ (kind r = WantRead -> unsent t' = [] /\ blocked t').
Proof.
  intros Hlen Hw Hd. unfold read. rewrite Hd. cbn [negb]. destruct (Nat.eqb_spec len 0); [lia|].
  enough (forall m u, (length (inbox (net u)) < m)%nat -> wire u -> intake u = intake t -> given_to (ssl u) = given_to (ssl t) -> exists r bs t', loop (read_round len) m u = Some (r, bs, t') /\
    kept t r t' /\ given_to (ssl t') = given_to (ssl t) /\ (kind r = Ok -> (0 < count_n r <= len)%nat /\ length bs = count_n r) /\
    (kind r = WantWrite -> unsent t' <> []) /\ (kind r = WantRead -> unsent t' = [] /\ blocked t')) as H by (apply H; [lia|done..]).
  induction m as [|m IH]; intros u Hm Hu Hi Hg; [lia|]. cbn [loop]. pose proof (read_round_spec len u Hlen Hu) as Hs. destruct (read_round len u) as [u'|[[r bs] t']].
  - destruct Hs as (H1 & H2 & H3 & H4). apply IH; [lia|done|congruence|congruence].
  - exists r, bs, t'. split; [done|]. unfold kept in *. rewrite <- Hi, <- Hg. done.
Qed.

(** ** A write through a socket *)

(** [t'] is closer than [t] to having nothing unsent. *)
Definition nearer (t' t : TlsStream) : Prop := stalled t t' /\ blocked t'.

Lemma nearer_wf t : (forall i, settles weather i) -> Acc nearer t.
Proof.
  intros Hset. remember (length (unsent t)) as m eqn:Em. revert t Em. induction (lt_wf m) as [m _ IH]. intros t ->. destruct (Hset (calls (net t))) as (j & Hj & Hw).
  remember (j - calls (net t))%nat as d eqn:Ed. remember (length (unsent t)) as m eqn:Em. assert (Hm : (length (unsent t) <= m)%nat) by lia. clear Em. revert t Ed Hj Hm. induction (lt_wf d) as [d _ IHd]. intros t -> Hj Hm.
  constructor. intros t' [[Hl|[Hl Hc]] Hb]; [apply (IH (length (unsent t'))); [lia|done]|]. destruct Hb as (i & Hi & Hbl). assert (i <> j) by (intros ->; done).
  apply (IHd (j - calls (net t'))%nat); [lia|done|lia|lia].
Qed.

Lemma tc_last {A : Type} (R : relation A) x z : tc R x z -> R x z \/ exists u, tc R x u /\ R u z.
Proof. induction 1 as [x y H|x y z H _ [H'|(u & H1 & H2)]]; [by left|right; exists y; split; [by constructor|done]|right; exists u; split; [by eapply tc_l|done]]. Qed.

Lemma nearer_ind (P : TlsStream -> Prop) : (forall i, settles weather i) -> (forall t, (forall t', tc nearer t' t -> P t') -> P t) -> forall t, P t.
Proof.
  intros Hset Hstep t. apply Hstep. induction (nearer_wf t Hset) as [t _ IH]. intros t' [H|(u & H1 & H2)]%tc_last; [apply Hstep; by apply IH|by apply (IH u)].
Qed.

Section Accepting.
Hypothesis accepts : forall buf rb s, 0 < #buf < 2 ^ 31 -> 0 < ret (SSL_write buf #buf rb s).

Lemma broke_weaken t t1 t2 t3 : (calls (net t) <= calls (net t1))%nat -> (calls (net t2) <= calls (net t3))%nat -> broke t1 t2 -> broke t t3.
Proof. intros H1 H2 (j & Hj & Hb). exists j. split; [lia|done]. Qed.

(** What an attempt to write leaves behind. *)
Definition attempted (buf : bytes) (t : TlsStream) (r : TlsIoResult) (t' : TlsStream) : Prop :=
  wire t' /\ handshake_done t' = true /\ (calls (net t) <= calls (net t'))%nat /\
  match kind r with
  | Ok => (0 < count_n r <= length buf)%nat /\ given_to (ssl t') = given_to (ssl t) ++ take (count_n r) buf
  | WantWrite => given_to (ssl t') = given_to (ssl t) /\ nearer t' t
  | Error => broke t t' /\ exists m, given_to (ssl t') = given_to (ssl t) ++ take m buf
  | _ => False
  end.

Lemma write_fresh_attempted buf t : 0 < #buf < 2 ^ 31 -> wire t -> handshake_done t = true -> let '(r, t') := write_fresh buf t in attempted buf t r t' /\ kind r <> WantWrite.
Proof.
  intros Hlen Hw Hd. unfold write_fresh, attempted. rewrite c_int_small by lia. destruct (write_law buf (rbio t) (ssl t) Hlen) as (Hc & Hr & Hg). pose proof (accepts buf (rbio t) (ssl t) Hlen) as Hp.
  destruct (call_flush _ t Hw Hc) as (r & t1 & E & K1 & K2 & K3 & K4 & K5 & K6 & K7 & K8). rewrite E. rewrite <- K4 in Hg.
  destruct (settled_hard _ _ _ K3) as [Eh Hok]. destruct (hard r) eqn:Ehr.
  - symmetry in Eh. apply bool_decide_eq_true in Eh. unfold settled in K3. rewrite Eh in *. split_and!; try done; [congruence|]. by eexists.
  - destruct (Z.ltb_spec 0 (ret (SSL_write buf #buf (rbio t) (ssl t)))); [|lia]. cbn [kind count_n]. split_and!; try done; [congruence|lia|lia].
Qed.

Lemma write_attempted buf t : 0 < #buf < 2 ^ 31 -> wire t -> handshake_done t = true -> let '(r, t') := write buf t in attempted buf t r t'.
Proof.
  intros Hlen Hw Hd. unfold write. rewrite Hd. cbn [negb]. destruct buf as [|b buf0] eqn:Eb; [cbn in Hlen; lia|]. rewrite <- Eb in *.
  destruct (wants_write t). 2: { pose proof (write_fresh_attempted buf t Hlen Hw Hd) as H. destruct (write_fresh buf t). by destruct H. }
  destruct (flush_spec t (proj1 Hw)) as (r & t1 & E & K). rewrite E. destruct (flush_wire _ _ _ Hw K) as (K1 & K2 & K3). destruct K as (L1 & L2 & L3 & L4 & L5 & L6 & L7 & L8 & L9 & L10).
  destruct (bool_decide_reflect (kind r = Ok)) as [Ek|Ek].
  - pose proof (write_fresh_attempted buf t1 Hlen K1 ltac:(congruence)) as H. destruct (write_fresh buf t1) as [r2 t2]. destruct H as [(H1 & H2 & H3 & H4) H5]. unfold attempted. rewrite L1 in H4. split_and!; try done; [lia|].
    destruct (kind r2); try done. destruct H4 as [H4 H6]. split; [|done]. by eapply broke_weaken; [| |exact H4].
  - unfold attempted. split_and!; try done; [congruence|]. destruct (kind r); try done; [by rewrite L1; destruct L10 as (? & ? & ?)|]. split; [done|]. exists O. by rewrite L1, take_0, app_nil_r.
Qed.

Lemma flush_attempted t : wire t -> let '(r, t') := flush t in wire t' /\ ssl t' = ssl t /\ handshake_done t' = handshake_done t /\ (calls (net t) <= calls (net t'))%nat /\
  match kind r with Ok => unsent t' = [] | WantWrite => nearer t' t | Error => broke t t' | _ => False end.
Proof.
  intros Hw. unfold flush. destruct (flush_spec t (proj1 Hw)) as (r & t' & E & K). rewrite E. destruct (flush_wire _ _ _ Hw K) as (K1 & K2 & K3). destruct K as (L1 & L2 & L3 & L4 & L5 & L6 & L7 & L8 & L9 & L10).
  split_and!; try done. destruct (kind r); try done. by destruct L10 as (? & ? & ?).
Qed.

(** What [async_write] does with [rest] from [st] on: all of it is given to the
    library and all it wrote is on the wire, unless a call failed. *)
Definition delivers (rest : bytes) (k : Sock) (st : Writing * Sock) : Prop := exists fuel left k' sent, loop write_step fuel st = Some (left, k') /\
  wire (inner k') /\ (calls (net (inner k)) <= calls (net (inner k')))%nat /\ waits_only EVENT_WRITE k k' /\ sent `prefix_of` rest /\ given_to (ssl (inner k')) = given_to (ssl (inner k)) ++ sent /\
  ((left = [] /\ sent = rest /\ unsent (inner k') = []) \/ broke (inner k) (inner k')).

Lemma delivers_step pre rest k st w1 k1 : write_step st = inl (w1, k1) -> given_to (ssl (inner k1)) = given_to (ssl (inner k)) ++ pre -> (calls (net (inner k)) <= calls (net (inner k1)))%nat ->
  waits_only EVENT_WRITE k k1 -> delivers rest k1 (w1, k1) -> delivers (pre ++ rest) k st.
Proof.
  intros E Hg Hc Hwt (fuel & left & k' & sent & El & K1 & K2 & K3 & K4 & K5 & K6). exists (S fuel), left, k', (pre ++ sent). cbn [loop]. rewrite E.
  split_and!; try done; [lia|by eapply waits_trans|by apply prefix_app|by rewrite K5, Hg, app_assoc|]. destruct K6 as [(-> & -> & ?)|Hb]; [by left|right]. by eapply broke_weaken; [| |exact Hb].
Qed.

Lemma delivers_failed rest k st left k' m : write_step st = inr (left, k') -> wire (inner k') -> broke (inner k) (inner k') -> waits_only EVENT_WRITE k k' ->
  given_to (ssl (inner k')) = given_to (ssl (inner k)) ++ take m rest -> delivers rest k st.
Proof.
  intros E Hw Hb Hwt Hg. exists 1%nat, left, k', (take m rest). cbn [loop]. rewrite E. split_and!; try done; [destruct Hb as (j & ? & _); lia|apply prefix_take|by right].
Qed.

Hypothesis Hset : forall i, settles weather i.

Lemma flushing_delivers rest : (forall k, wire (inner k) -> handshake_done (inner k) = true -> unsent (inner k) = [] -> delivers rest k (Sending rest, k)) ->
  forall t w, wire t -> handshake_done t = true -> delivers rest (mkSock t w) (Flushing rest, mkSock t w).
Proof.
  intros Hnext. refine (nearer_ind _ Hset _). intros t IH w Hw Hd.
  assert (Hclear : forall t1 w1, wire t1 -> handshake_done t1 = true -> unsent t1 = [] -> delivers rest (mkSock t1 w1) (Flushing rest, mkSock t1 w1)).
  { intros t1 w1 Hw1 Hd1 Hu1. apply (delivers_step [] rest _ _ (Sending rest) (mkSock t1 w1)); [|by rewrite app_nil_r|done|apply waits_refl|by apply Hnext].
    cbn. by rewrite wants_write_unsent, bool_decide_true by apply Hw1 || done. }
  destruct (wants_write t) eqn:Ew. 2: { apply Hclear; try done. rewrite wants_write_unsent in Ew by apply Hw. by apply negb_false_iff, bool_decide_eq_true in Ew. }
  pose proof (flush_attempted t Hw) as F. assert (Es : write_step (Flushing rest, mkSock t w) = let '(r, k) := await_flush (mkSock t w) in match r with Took _ | WantToWrite _ => inl (Flushing rest, k) | WriteFailed => inr (rest, k) end).
  { cbn [write_step inner has_unsent tls_io]. rewrite Ew. by destruct (await_flush _) as [[] ?]. }
  unfold await_flush in Es. cbn [inner waited attempt_flush tls_io] in Es. unfold tls_flush in Es. destruct (flush t) as [r t1]. destruct F as (F1 & F2 & F3 & F4 & F5). unfold to_write_result in Es. destruct (kind r); try done.
  - apply (delivers_step [] rest _ _ _ _ Es); cbn [inner]; [by rewrite F2, app_nil_r|done|apply waits_refl|apply Hclear; congruence].
  - pose proof (flush_attempted t1 F1) as G. destruct (flush t1) as [r2 t2]. destruct G as (G1 & G2 & G3 & G4 & G5). unfold to_write_result in Es. destruct (kind r2); try done.
    + apply (delivers_step [] rest _ _ _ _ Es); cbn [inner]; [by rewrite G2, F2, app_nil_r|lia|apply waits_one|apply Hclear; congruence].
    + apply (delivers_step [] rest _ _ _ _ Es); cbn [inner]; [by rewrite G2, F2, app_nil_r|lia|apply waits_one|]. apply IH; [|done|congruence]. eapply tc_l; [exact G5|by constructor].
    + eapply (delivers_failed _ _ _ _ _ 0 Es); cbn [inner]; [done|by eapply broke_weaken; [| |exact G5]|apply waits_one|by rewrite G2, F2, take_0, app_nil_r].
  - eapply (delivers_failed _ _ _ _ _ 0 Es); cbn [inner]; [done|done|apply waits_refl|by rewrite F2, take_0, app_nil_r].
Qed.

(** Once [buf] is partly taken, the flush and the rest of it remain. *)
Lemma took_delivers rest t w t1 w1 n : (forall rest' k, (length rest' < length rest)%nat -> wire (inner k) -> handshake_done (inner k) = true -> (rest' = [] -> unsent (inner k) = []) -> delivers rest' k (Sending rest', k)) ->
  write_step (Sending rest, mkSock t w) = inl (Flushing (drop n rest), mkSock t1 w1) -> wire t1 -> handshake_done t1 = true -> (calls (net t) <= calls (net t1))%nat -> (0 < n <= length rest)%nat ->
  given_to (ssl t1) = given_to (ssl t) ++ take n rest -> waits_only EVENT_WRITE (mkSock t w) (mkSock t1 w1) -> delivers rest (mkSock t w) (Sending rest, mkSock t w).
Proof.
  intros Hnext Es Hw1 Hd1 Hc Hn Hg Hwt. rewrite <- (take_drop n rest) at 1. apply (delivers_step _ _ _ _ _ _ Es); cbn [inner]; [done|done|done|].
  apply flushing_delivers; [|done|done]. intros k Hw Hd Hu. apply Hnext; [rewrite length_drop; lia|done..].
Qed.

Lemma sending_delivers rest k : #rest < 2 ^ 31 -> wire (inner k) -> handshake_done (inner k) = true -> (rest = [] -> unsent (inner k) = []) -> delivers rest k (Sending rest, k).
Proof.
  remember (length rest) as m eqn:Em. revert rest k Em. induction (lt_wf m) as [m _ IHm]. intros rest k -> Hlen. destruct k as [t w]. revert w. cbn [inner]. revert t. refine (nearer_ind _ Hset _). intros t IH w Hw Hd Hu.
  destruct rest as [|b rest0] eqn:Eb. { exists 1%nat, [], (mkSock t w), []. rewrite app_nil_r. split_and!; try done; [apply waits_refl|]. left. by split_and!; [| |apply Hu]. }
  rewrite <- Eb in *. assert (Hl : 0 < #rest < 2 ^ 31) by (rewrite Eb in *; cbn [length] in *; lia). assert (Hne : rest <> []) by (by rewrite Eb).
  assert (Es : write_step (Sending rest, mkSock t w) = let '(r, k) := await_write rest (mkSock t w) in match r with Took (S n) => inl (Flushing (drop (S n) rest), k) | Took O => inr (rest, k) | WantToWrite _ => inl (Sending rest, k) | WriteFailed => inr (rest, k) end) by (by rewrite Eb).
  assert (Hnext : forall rest' k, (length rest' < length rest)%nat -> wire (inner k) -> handshake_done (inner k) = true -> (rest' = [] -> unsent (inner k) = []) -> delivers rest' k (Sending rest', k)) by (intros rest' k Hr; apply (IHm (length rest')); [done|done|lia]). clear IHm.
  unfold await_write in Es. cbn [inner waited attempt_write tls_io] in Es. unfold tls_write in Es.
  pose proof (write_attempted rest t Hl Hw Hd) as F. destruct (write rest t) as [r t1]. destruct F as (F1 & F2 & F3 & F4). unfold to_write_result in Es. destruct (kind r); try done.
  - destruct F4 as [Hn Hg]. destruct (count_n r) as [|n]; [lia|]. by eapply (took_delivers rest t w t1); [|exact Es|..]; try done; apply waits_refl.
  - destruct F4 as [Fg Fn]. pose proof (write_attempted rest t1 Hl F1 F2) as G. destruct (write rest t1) as [r2 t2]. destruct G as (G1 & G2 & G3 & G4). destruct (kind r2); try done.
    + destruct G4 as [Hn Hg]. destruct (count_n r2) as [|n]; [lia|]. rewrite Fg in Hg. eapply (took_delivers rest t w t2); [|exact Es|..]; try done; [lia|apply waits_one].
    + destruct G4 as [Gg Gn]. apply (delivers_step [] rest _ _ _ _ Es); cbn [inner]; [by rewrite Gg, Fg, app_nil_r|lia|apply waits_one|]. apply IH; try done. eapply tc_l; [exact Gn|by constructor].
    + destruct G4 as [Gb [m Gg]]. eapply (delivers_failed _ _ _ _ _ m Es); cbn [inner]; [done|by eapply broke_weaken; [| |exact Gb]|apply waits_one|by rewrite Gg, Fg].
  - destruct F4 as [Fb [m Fg]]. by eapply (delivers_failed _ _ _ _ _ m Es); cbn [inner]; [done|done|apply waits_refl|].
Qed.
End Accepting.

(** C17: A stream over a library that keeps the contract of [SslLaws], on a
    descriptor that may block, fail, deliver or take any part at any call.
    Every operation returns; it leaves the ciphertext the library wrote on the
    wire or queued for it, in order and once; unless it reports an error
    nothing the peer sent is lost before the library.  [handshake] reports
    success only when its last flight is on the wire.  [read] returns between
    1 and [len] bytes and asks for input only when nothing is left to be sent
    and the descriptor had none.  [write] takes a prefix of the buffer, and
    asks for room only when the descriptor had none.  [read] and [write] are
    called after the handshake with lengths below [2^31], which an [int] of the
    library can hold (see [long_write_fails]). *)
Theorem tls_stream_exact t : wire t ->
  (exists r t', handshake (rounds t) t = Some (r, t') /\ kept t r t' /\ (kind r = Ok -> handshake_done t' = true /\ unsent t' = []) /\ (kind r = WantWrite -> unsent t' <> []) /\ (kind r = WantRead -> blocked t')) /\
  (forall len, 0 < Z.of_nat len < 2 ^ 31 -> handshake_done t = true -> exists r bs t', read (rounds t) len t = Some (r, bs, t') /\ kept t r t' /\
     (kind r = Ok -> (0 < count_n r <= len)%nat /\ length bs = count_n r) /\ (kind r = WantWrite -> unsent t' <> []) /\ (kind r = WantRead -> unsent t' = [] /\ blocked t')) /\
  (forall buf, 0 < #buf < 2 ^ 31 -> handshake_done t = true -> let '(r, t') := write buf t in wrote buf t r t') /\
  (let '(r, t') := flush t in kept t r t' /\ settled t r t') /\
  wire (shutdown t) /\ intake (shutdown t) = intake t.
Proof.
  intros Hw. split_and!.
  - by apply handshake_runs.
  - intros len Hlen Hd. destruct (read_runs len t Hlen Hw Hd) as (r & bs & t' & E & K1 & _ & K2). by exists r, bs, t'.
  - intros buf Hlen Hd. by apply write_spec.
  - unfold flush. destruct (flush_spec t (proj1 Hw)) as (r & t' & E & K). rewrite E. destruct (flush_wire _ _ _ Hw K) as (K1 & K2 & K3). done.
  - by apply shutdown_spec.
  - by apply shutdown_spec.
Qed.

(** C18: [async_write] over TLS of between 1 and [2^31 - 1] bytes after the
    handshake, with a library that takes some of what it is given and a
    descriptor that does not block for ever: it returns; all the data was given to the library in order and once and everything the
    library wrote is on the wire, unless a call on the descriptor failed; the
    coroutine slept only for writability.  Longer data is not covered: its
    length does not fit the [int] of the library (see [long_write_fails]). *)
Theorem tls_write_completes data k : (forall i, settles weather i) -> (forall buf rb s, 0 < #buf < 2 ^ 31 -> 0 < ret (SSL_write buf #buf rb s)) ->
  0 < #data < 2 ^ 31 -> wire (inner k) -> handshake_done (inner k) = true -> exists fuel left k' sent, async_write fuel data k = Some (left, k') /\
    waits_only EVENT_WRITE k k' /\ sent `prefix_of` data /\ given_to (ssl (inner k')) = given_to (ssl (inner k)) ++ sent /\
    ((left = [] /\ sent = data /\ outbox (net (inner k')) = sent_by (ssl (inner k'))) \/ broke (inner k) (inner k')).
Proof.
  intros Hset Hacc Hlen Hw Hd. destruct (sending_delivers Hacc Hset data k ltac:(lia) Hw Hd) as (fuel & left & k' & sent & E & K1 & K2 & K3 & K4 & K5 & K6); [intros ->; cbn in Hlen; lia|].
  exists fuel, left, k', sent. split_and!; try done. destruct K6 as [(? & ? & Hu)|?]; [left|by right]. split_and!; try done. destruct K1 as [_ E1]. by rewrite E1, Hu, app_nil_r.
Qed.

(** A buffer of [2^31] bytes or more is refused although nothing is wrong with
    it: its length is converted to a negative [int], for which the library
    reports an error. *)
Theorem long_write_fails buf t : (forall b n rb s, n < 0 -> ret (SSL_write b n rb s) < 0 /\ emitted (SSL_write b n rb s) = [] /\ SSL_get_error (after (SSL_write b n rb s)) (ret (SSL_write b n rb s)) = SSL_FATAL) ->
  handshake_done t = true -> wbio t = [] -> pending_out t = [] -> pending_out_off t = O -> 2 ^ 31 <= #buf < 2 ^ 32 -> kind (write buf t).1 = Error.
Proof.
  intros Hlib Hd Hw Hp Ho Hlen. assert (Hc : c_int (length buf) < 0). { unfold c_int. cbv zeta. rewrite Z.mod_small by lia. destruct (Z.ltb_spec (#buf) (2 ^ 31)); lia. }
  unfold write. rewrite Hd. cbn [negb]. unfold wants_write. rewrite Hp, Ho, Hw, bool_decide_eq_true_2 by done. cbn [length Nat.ltb Nat.leb negb orb]. destruct buf as [|b buf0] eqn:Eb; [cbn in Hlen; lia|]. rewrite <- Eb in *.
  unfold write_fresh. destruct (Hlib buf (c_int (length buf)) (rbio t) (ssl t) Hc) as (H1 & H2 & H3). set (c := SSL_write _ _ _ _) in *.
  assert (Hf : flush_network (absorb c t) = (io Ok, set_pending [] 0 (absorb c t))).
  { assert (Ew : wbio (absorb c t) = []) by (cbn; by rewrite Hw, H2). assert (Ed : drain_wbio_to_pending (absorb c t) = absorb c t) by (unfold drain_wbio_to_pending; rewrite Ew; cbn [length loop]; unfold drain_step; by rewrite Ew).
    assert (Ep : pending_out (absorb c t) = [] /\ pending_out_off (absorb c t) = O) by done. destruct Ep as [Ep Eo]. unfold flush_network. rewrite Ed, Ep, Eo. cbn [length Nat.sub loop]. unfold flush_step. by rewrite Ep, Eo. }
  rewrite Hf. cbn [hard kind]. destruct (Z.ltb_spec 0 (ret c)); [lia|]. unfold map_ssl_error. change (ssl (set_pending [] 0 (absorb c t))) with (after c). by rewrite H3.
Qed.
End Stream.

(** ** ALPN *)

(** [build_alpn_wire]: names that do not fit their length byte are left out. *)
Definition build_alpn_wire (alpn : list bytes) : bytes :=
  concat (map (fun p => if (#p =? 0) || (255 <? #p) then [] else u8 #p :: p) alpn).

(** How a peer reads the list (RFC 7301). *)
Fixpoint parse_alpn (fuel : nat) (wire : bytes) : option (list bytes) :=
  match fuel, wire with
  | _, [] => Some []
  | S fuel, n :: rest =>
      if (n =? 0) || (#rest <? n) then None
      else ps ← parse_alpn fuel (drop (Z.to_nat n) rest); Some (take (Z.to_nat n) rest :: ps)
  | O, _ => None
  end.

Definition alpn_ok (p : bytes) : bool := negb ((#p =? 0) || (255 <? #p)).

Lemma alpn_roundtrip alpn m : (length (build_alpn_wire alpn) <= m)%nat -> parse_alpn m (build_alpn_wire alpn) = Some (List.filter alpn_ok alpn).
Proof.
  revert m. induction alpn as [|p alpn IH]; intros m Hm; [by destruct m|]. unfold build_alpn_wire in *. cbn [map concat List.filter] in *. unfold alpn_ok at 1. destruct ((#p =? 0) || (255 <? #p)) eqn:Ep; cbn [negb].
  - cbn [app]. by apply IH.
  - apply orb_false_iff in Ep as [E1%Z.eqb_neq E2%Z.ltb_ge]. destruct m as [|m]; [cbn in Hm; lia|]. cbn [app parse_alpn]. assert (Eu : u8 #p = #p) by (unfold u8; apply Z.mod_small; lia). rewrite Eu.
    destruct (Z.eqb_spec #p 0); [done|]. cbn [orb]. rewrite length_app. destruct (Z.ltb_spec (Z.of_nat (length p + length (concat (map (fun p => if (#p =? 0) || (255 <? #p) then [] else u8 #p :: p) alpn)))) #p); [lia|].
    rewrite Nat2Z.id, drop_app_length, take_app_length. cbn [app length] in Hm. rewrite length_app in Hm. rewrite IH by lia. done.
Qed.

(** ** The library's objects *)

Inductive Resource := SSL_CTX | SSL | BIO | X509 | PKEY.

#[export] Instance Resource_eq_dec : EqDecision Resource.
Proof. solve_decision. Defined.

Section Create.
Context (works : nat -> bool).
Abbreviation acquire := (acquire works).
Abbreviation attempt := (attempt works).

(** The intermediates that follow the certificate; [true] when none was refused. *)
Fixpoint add_extra_chain (chain : nat) (o : Objects Resource) : bool * Objects Resource :=
  match chain with
  | O => (true, mkObjects (S (tried o)) (live o) (faulty o))
  | S chain =>
      let '(extra, o) := acquire X509 o in
      if negb extra then (true, o)
      else
        let '(added, o) := attempt o in
        if added then add_extra_chain chain (release X509 o) else (false, release_all [X509; BIO; SSL_CTX] o)
  end.

(** The key, once the certificates are loaded. *)
Definition load_key (o : Objects Resource) : bool * Objects Resource :=
  let '(kbio, o) := acquire BIO o in
  if negb kbio then (false, release SSL_CTX o)
  else
    let '(key, o) := acquire PKEY o in
    let o := release BIO o in
    if negb key then (false, release SSL_CTX o)
    else
      let '(used, o) := attempt o in
      if negb used then (false, release_all [PKEY; SSL_CTX] o)
      else
        let o := release PKEY o in
        let '(matching, o) := attempt o in
        if negb matching then (false, release SSL_CTX o) else (true, o).

(** [TlsContext::create]; [false] stands for the exception. *)
Definition create (has_pems : bool) (chain : nat) (o : Objects Resource) : bool * Objects Resource :=
  if negb has_pems then (false, o)
  else
    let '(ctx, o) := acquire SSL_CTX o in
    if negb ctx then (false, o)
    else
      let '(cbio, o) := acquire BIO o in
      if negb cbio then (false, release SSL_CTX o)
      else
        let '(cert, o) := acquire X509 o in
        if negb cert then (false, release_all [BIO; SSL_CTX] o)
        else
          let '(used, o) := attempt o in
          if negb used then (false, release_all [X509; BIO; SSL_CTX] o)
          else
            let '(chained, o) := add_extra_chain chain (release X509 o) in
            if negb chained then (false, o) else load_key (release BIO o).

(** [TlsStream::create_server]: [BIO_free] of null does nothing; on success the
    stream's SSL owns both BIOs. *)
Definition create_server (o : Objects Resource) : bool * Objects Resource :=
  let '(ssl, o) := acquire SSL o in
  if negb ssl then (false, o)
  else
    let '(rbio, o) := acquire BIO o in
    let '(wbio, o) := acquire BIO o in
    if negb rbio || negb wbio then
      let o := if rbio then release BIO o else o in
      let o := if wbio then release BIO o else o in
      (false, release SSL o)
    else (true, release_all [BIO; BIO] o).

Lemma add_extra_chain_spec chain n : let '(ok, o) := add_extra_chain chain (mkObjects n [BIO; SSL_CTX] false) in faulty o = false /\ live o = if ok then [BIO; SSL_CTX] else [].
Proof.
  revert n. induction chain as [|chain IH]; intros n; [done|]. cbn [add_extra_chain]. unfold Resources.acquire, Resources.attempt. cbn [tried live faulty]. destruct (works n); [|done]. cbn [negb tried]. destruct (works (S n)); [apply IH|done].
Qed.

Lemma load_key_spec n : let '(ok, o) := load_key (mkObjects n [SSL_CTX] false) in faulty o = false /\ live o = if ok then [SSL_CTX] else [].
Proof. unfold load_key, Resources.acquire, Resources.attempt. cbn. repeat (try_call works; try done). Qed.

(** Whichever library call fails, nothing leaks and nothing is freed twice. *)
Lemma create_exact has_pems chain : let '(ok, o) := create has_pems chain (mkObjects 0 [] false) in faulty o = false /\ live o = if ok then [SSL_CTX] else [].
Proof.
  unfold create. destruct has_pems; [|done]. unfold Resources.acquire at 1 2 3. unfold Resources.attempt at 1. cbn. do 4 (try_call works; try done).
  pose proof (add_extra_chain_spec chain 4) as H. change (release X509 _) with (mkObjects 4 [BIO; SSL_CTX] false). destruct (add_extra_chain chain _) as [[] [n l f]]; [|done]. cbn in H. destruct H as [-> ->]. apply load_key_spec.
Qed.

Lemma create_server_exact : let '(ok, o) := create_server (mkObjects 0 [] false) in faulty o = false /\ live o = if ok then [SSL] else [].
Proof. unfold create_server, Resources.acquire. cbn. repeat (try_call works; try done). Qed.
End Create.

(** ** Examples *)

(** A library without cryptography: it answers a hello with a flight and waits
    for the end of the handshake; data travels behind a type byte.  With
    [rekeying] it wants input before it takes the first data. *)
Record Toy := mkToy { toy_sent : bytes; toy_taken : bytes; toy_given : bytes; toy_phase : nat }.

Definition toy_call (z : Z) (phase : nat) (eat : nat) (emit given open rb : bytes) (s : Toy) : SslCall Toy :=
  mkCall z (mkToy (toy_sent s ++ emit) (toy_taken s ++ take eat rb) (toy_given s ++ given) phase) eat emit open.

Definition toy_accept (rb : bytes) (s : Toy) : SslCall Toy :=
  match rb, toy_phase s with
  | [], _ => toy_call (-1) (toy_phase s) 0 [] [] [] rb s
  | _, O => toy_call (-1) 1 (length rb) [22; 2; 11; 20] [] [] rb s
  | _, _ => toy_call 1 2 (length rb) [] [] [] rb s
  end.

Definition toy_read (len : Z) (rb : bytes) (s : Toy) : SslCall Toy :=
  let n := Nat.min (Z.to_nat len) (length rb) in
  if (n =? 0)%nat then toy_call (-1) (toy_phase s) 0 [] [] [] rb s else toy_call (Z.of_nat n) (toy_phase s) n [] [] (take n rb) rb s.

Definition toy_write (rekeying : bool) (buf : bytes) (len : Z) (rb : bytes) (s : Toy) : SslCall Toy :=
  if rekeying && (toy_phase s =? 2)%nat && (length rb =? 0)%nat then toy_call (-1) 2 0 [] [] [] rb s
  else let n := Nat.min (Z.to_nat len) 2 in toy_call (Z.of_nat n) 3 0 (23 :: take n buf) (take n buf) [] rb s.

Instance toy (rekeying : bool) : SslLibrary Toy :=
  {| SSL_accept := toy_accept; SSL_read := toy_read; SSL_write := toy_write rekeying; SSL_shutdown rb s := toy_call 0 (toy_phase s) 0 [21] [] [] rb s;
     SSL_get_error _ _ := WANT_READ; BIO_write _ chunk := #chunk |}.

Lemma toy_transcript z phase eat emit given open rb s : toy_sent (after (toy_call z phase eat emit given open rb s)) = toy_sent s ++ emit /\ toy_taken (after (toy_call z phase eat emit given open rb s)) = toy_taken s ++ take eat rb /\
  toy_given (after (toy_call z phase eat emit given open rb s)) = toy_given s ++ given.
Proof. done. Qed.

#[refine] Instance toy_laws (rekeying : bool) : SslLaws (ssl_library := toy rekeying) := {| sent_by := toy_sent; taken_by := toy_taken; given_to := toy_given |}.
Proof.
  - intros rb s. cbn. unfold toy_accept. destruct rb; [|destruct (toy_phase s)]; cbn; by rewrite ?app_nil_r.
  - intros len rb s. cbn. unfold toy_read. case_match; cbn; by rewrite ?app_nil_r.
  - intros len rb s Hlen. cbn. unfold toy_read. case_match; cbn; [lia|]. rewrite length_take. lia.
  - intros buf rb s Hb. cbn. unfold toy_write. case_match; cbn; [rewrite !app_nil_r; split_and!; done || lia|]. rewrite !Nat2Z.id, !app_nil_r. split_and!; try done. lia.
  - intros rb s. cbn. by rewrite !app_nil_r.
  - intros rb chunk. cbn. lia.
  - intros s r. done.
Defined.

Definition toy_stream (phase : nat) (input : bytes) : TlsStream := mkTls (mkToy [] [] [] phase) [] [] [] 0 (2 <=? phase)%nat false (mkKernel input [] 0).

(** Nothing blocks. *)
Definition fair (_ : nat) : Weather := Room 5.

Lemma tls_stream_exact_witness : exists r bs t', read (ssl_library := toy false) fair (rounds (toy_stream 2 [1; 2; 3])) 2 (toy_stream 2 [1; 2; 3]) = Some (r, bs, t') /\ kind r = Ok /\ bs = [1; 2] /\
  wire (ssl_laws := toy_laws false) t'.
Proof.
  destruct (tls_stream_exact (ssl_library := toy false) (ssl_laws := toy_laws false) fair (toy_stream 2 [1; 2; 3])) as (_ & H & _); [by vm_compute; split; [lia|]|].
  destruct (H 2%nat ltac:(lia) eq_refl) as (r & bs & t' & E & K & _). exists r, bs, t'. split; [exact E|]. vm_compute in E. injection E as <- <- <-. by split_and!; [| |apply K].
Defined.

Lemma tls_write_completes_witness : exists fuel left k', async_write (socket_io := tls_io (ssl_library := toy false) fickle) fuel [7; 8; 9] (mkSock (toy_stream 2 []) []) = Some (left, k') /\
  (left = [] \/ broke fickle (toy_stream 2 []) (inner k')).
Proof.
  assert (Hset : forall i, settles fickle i). { intros i. exists (S (2 * i)). split; [lia|]. unfold fickle. rewrite Nat.even_succ, Nat.odd_mul, Nat.odd_2. done. }
  destruct (tls_write_completes (ssl_library := toy false) (ssl_laws := toy_laws false) fickle [7; 8; 9] (mkSock (toy_stream 2 []) [])) as (fuel & left & k' & sent & E & _ & _ & _ & K); [done| |cbn; lia|by vm_compute; split; [lia|]|done|].
  - intros buf rb s Hb. cbn. unfold toy_write. cbn. lia.
  - exists fuel, left, k'. split; [exact E|]. destruct K as [(? & _)|?]; [by left|by right].
Defined.

(** ** Two waits that may never end *)

(** The descriptor takes nothing at the second call and has nothing at the
    third. *)
Definition one_block (n : nat) : Weather := if (n =? 0)%nat then Room 5 else WouldBlock.

(** [handshake] asks for input although its own flight, which the peer is
    waiting for, is still to be sent: [read] prefers [WantWrite] there, the
    handshake does not, and both of its callers wait for readability only. *)
Theorem handshake_waits_with_unsent : exists t', handshake (ssl_library := toy false) one_block 3 (toy_stream 0 [1]) = Some (io WantRead, t') /\ unsent t' = [22; 2; 11; 20] /\ outbox (net t') = [] /\ inbox (net t') = [].
Proof. eexists. split; [vm_compute; reflexivity|]. by vm_compute. Qed.

(** [write] asks for input after it has taken the input the library wanted:
    the caller waits for readability with nothing left to read, although the
    next call would succeed. *)
Theorem write_waits_for_taken_input : exists t', write (ssl_library := toy true) fair [9] (toy_stream 2 [5]) = (io WantRead, t') /\ inbox (net t') = [] /\ rbio t' = [5] /\ kind (write (ssl_library := toy true) fair [9] t').1 = Ok.
Proof. eexists. split; [vm_compute; reflexivity|]. by vm_compute. Qed.
