(* ===== verification/Server.v ===== *)
(** * The server

    [Server] of src/server_impl.cpp and include/libspaznet/server.hpp: the
    listening descriptors, the accept loop and the sharding of connections
    over the event loops, TLS handshakes, the registry of reactor connections,
    coroutine connections and their guard, the connection gauges, and
    [stop()].  Several threads run it: one per loop, workers, and whoever
    calls [listen_tcp] and [stop].  A thread's program is the list of atomic
    pieces (a critical section, an atomic, a system call) it still has to
    execute, in the order of the source, so that the pieces of different
    threads interleave.  The user's factory may throw: within the [try] block
    of [accept_ready] the exception is caught and the descriptor closed,
    elsewhere it leaves the loop's [run()] and what the thread still had to
    execute is dropped.  Other exceptions (an allocation that fails) are not
    modelled.  The theorems are in ServerSafety.v. *)
From S2P Require Import Prelude Resources.
From stdpp Require Import gmap sorting.

Local Open Scope Z_scope.

(** ** State *)

(** A descriptor and which opening of it is meant: the kernel reuses numbers,
    the code only sees the number. *)
Definition Desc : Type := Z * nat.

Inductive ConnKind := Handshake | Reactor | Coro.

#[export] Instance ConnKind_eq_dec : EqDecision ConnKind.
Proof. solve_decision. Defined.

(** A [TlsHandshakeHandler], a connection minted by the factory, or the
    [Socket] of a coroutine; [alive] until it gives its descriptor up ([done_],
    [closed_], [owns_fd_]). *)
Record Conn := mkConn { desc : Desc; cloop : nat; ckind : ConnKind; alive : bool }.

(** The pieces of code a thread executes; [caught]: within the [try] block of
    [accept_ready]. *)
Inductive Op :=
  | AcceptLoop (lfd : Z)
  | CleanupListen (lfd : Z)
  | EraseTls (lfd : Z)
  | ArmListen (lfd : Z)
  | LookupTls (lfd : Z) (fd : Desc)
  | CreateServer (fd : Desc)
  | CallFactory (fd : Desc) (loop : nat) (caught : bool)
  | ScheduleConnection (fd : Desc)
  | InsertConn (fd : Z) (id loop : nat)
  | EraseConn (fd : Z)
  | IncrementConns (loop : nat)
  | DecrementConns (loop : nat)
  | Advance (id : nat) (caught : bool)
  | PostStart (id loop : nat)
  | FinishOk (fd : Desc) (loop : nat) (caught : bool)
  | CloseFd (fd : Desc)
  | HandleConnection (id : nat)
  | AddClient (fd : Z)
  | DelClient (fd : Z)
  | AddActive
  | SubActive
  | RunHandler (id : nat)
  | StartRunning
  | PushListen (fd : Desc) (tls : bool)
  | StopRunning
  | SwapListen
  | CloseListen (fd : Desc)
  | ClearTls
  | ShutdownClients
  | SwapConns
  | ShutdownConns (ids : list nat)
  | ShutdownConn (id : nat)
  | Escape (held : list Desc).

(** [active_client_fds_] and the registry are keyed by number; [shut] logs the
    shutdown(2) calls of [stop()]; [posted] the closures waiting for a loop's
    thread, [tasks] the scheduled coroutines; [lost_fds] the descriptors an
    exception took from the code that had to see to them, which no code
    reads. *)
Record Server := mkServer {
  running : bool;
  open_fds : gmap Z nat;
  births : nat;
  misclosed : bool;
  listen_fds : list Desc;
  tls_listen : gset Z;
  armed : gset Z;
  next_accept_loop : Z;
  reactor_connections : gmap Z (nat * nat);
  gauges : gmap nat Z;
  active_client_fds : gset Z;
  active_connections : Z;
  conns : list Conn;
  posted : list (nat * Op);
  tasks : list Op;
  shut : list Z;
  lost_fds : list Desc }.

Definition eta_Server (s : Server) : Server :=
  mkServer (running s) (open_fds s) (births s) (misclosed s) (listen_fds s) (tls_listen s) (armed s) (next_accept_loop s) (reactor_connections s) (gauges s) (active_client_fds s)
    (active_connections s) (conns s) (posted s) (tasks s) (shut s) (lost_fds s).

Definition set_running (v : bool) (s : Server) : Server := ltac:(with_field eta_Server s running v).
Definition set_open_fds (v : gmap Z nat) (s : Server) : Server := ltac:(with_field eta_Server s open_fds v).
Definition set_births (v : nat) (s : Server) : Server := ltac:(with_field eta_Server s births v).
Definition set_misclosed (v : bool) (s : Server) : Server := ltac:(with_field eta_Server s misclosed v).
Definition set_listen_fds (v : list Desc) (s : Server) : Server := ltac:(with_field eta_Server s listen_fds v).
Definition set_tls_listen (v : gset Z) (s : Server) : Server := ltac:(with_field eta_Server s tls_listen v).
Definition set_armed (v : gset Z) (s : Server) : Server := ltac:(with_field eta_Server s armed v).
Definition set_next_accept_loop (v : Z) (s : Server) : Server := ltac:(with_field eta_Server s next_accept_loop v).
Definition set_reactor_connections (v : gmap Z (nat * nat)) (s : Server) : Server := ltac:(with_field eta_Server s reactor_connections v).
Definition set_gauges (v : gmap nat Z) (s : Server) : Server := ltac:(with_field eta_Server s gauges v).
Definition set_active_client_fds (v : gset Z) (s : Server) : Server := ltac:(with_field eta_Server s active_client_fds v).
Definition set_active_connections (v : Z) (s : Server) : Server := ltac:(with_field eta_Server s active_connections v).
Definition set_conns (v : list Conn) (s : Server) : Server := ltac:(with_field eta_Server s conns v).
Definition set_posted (v : list (nat * Op)) (s : Server) : Server := ltac:(with_field eta_Server s posted v).
Definition set_tasks (v : list Op) (s : Server) : Server := ltac:(with_field eta_Server s tasks v).
Definition set_shut (v : list Z) (s : Server) : Server := ltac:(with_field eta_Server s shut v).
Definition set_lost_fds (v : list Desc) (s : Server) : Server := ltac:(with_field eta_Server s lost_fds v).

(** What the outside decides: the kernel, the library, the user's callbacks.  A
    factory that throws has left the descriptor open or has closed it, with an
    object it had made for it. *)
Inductive Thrown := ThrowsNot | ThrowsOpen | ThrowsClosed.
Inductive Accepted := AcceptedFd (fd : Z) | AcceptRetry | AcceptFailed.
Inductive HandshakeResult := HsOk | HsWant | HsFailed.
Record Choice := mkChoice { accepts : Accepted; says_yes : bool; handshakes : HandshakeResult; throws : Thrown }.

(** ** Making listeners *)

Inductive ListenObject := AddrInfo | ListenSocket.

#[export] Instance ListenObject_eq_dec : EqDecision ListenObject.
Proof. solve_decision. Defined.

Section Making.
Context (works : nat -> bool).

(** getaddrinfo, socket and bind; [false] stands for the exception. *)
Definition bound_socket (o : Objects ListenObject) : bool * Objects ListenObject :=
  let '(result, o) := acquire works AddrInfo o in
  if negb result then (false, o)
  else
    let '(fd, o) := acquire works ListenSocket o in
    if negb fd then (false, release AddrInfo o)
    else
      let '(bound, o) := attempt works o in
      if negb bound then (false, release_all [ListenSocket; AddrInfo] o) else (true, release AddrInfo o).

Definition create_tcp_listen_fd (o : Objects ListenObject) : bool * Objects ListenObject :=
  let '(made, o) := bound_socket o in
  if negb made then (false, o)
  else
    let '(listening, o) := attempt works o in
    if negb listening then (false, release ListenSocket o) else (true, o).

(** The socket of [listen_udp]. *)
Definition create_udp_fd (o : Objects ListenObject) : bool * Objects ListenObject := bound_socket o.
End Making.

(** ** Datagrams *)

(** What recvfrom returns: a datagram and its sender, or an error. *)
Inductive Recv := Received (data : bytes) (peer : Z) | RecvRetry | RecvFailed.

Section Datagrams.
(** The [i]-th call, and whether the server was running before it; whether a
    handler is installed (what it does, or throws, does not come back). *)
Context (recvfrom : nat -> Recv) (still_running : nat -> bool) (has_datagram_handler : bool).

Definition datagram_buffer : nat := Z.to_nat (64 * 1024).

(** One round of [datagram_ready]; the result says whether to re-arm. *)
Definition datagram_step (st : nat * list (bytes * Z)) : (nat * list (bytes * Z)) + (bool * list (bytes * Z)) :=
  let '(i, delivered) := st in
  if still_running i then
    match recvfrom i with
    | RecvRetry => inr (true, delivered)
    | RecvFailed => inr (false, delivered)
    | Received data peer =>
        match take datagram_buffer data with
        | [] => inl (S i, delivered)
        | data => inl (S i, if has_datagram_handler then delivered ++ [(data, peer)] else delivered)
        end
    end
  else inr (false, delivered).

Definition datagram_ready (fuel : nat) : option (bool * list (bytes * Z)) := loop datagram_step fuel (0%nat, []).
End Datagrams.

(** ** Operations *)

Section Operations.
(** [io_contexts_.size()]; which callbacks are installed. *)
Context (loops : nat) (has_factory has_handler : bool).

(** close(2): wrong when this opening of the number is not open. *)
Definition close_fd (fd : Desc) (s : Server) : Server :=
  if bool_decide (open_fds s !! fd.1 = Some fd.2) then set_open_fds (delete fd.1 (open_fds s)) s else set_misclosed true s.

Definition open_fd (fd : Z) (s : Server) : Desc * Server := ((fd, births s), set_births (S (births s)) (set_open_fds (<[fd := births s]> (open_fds s)) s)).

Definition pick_accept_loop (s : Server) : nat * Server :=
  if (loops =? 1)%nat then (0%nat, s) else (Z.to_nat (next_accept_loop s mod Z.of_nat loops), set_next_accept_loop (u64 (next_accept_loop s + 1)) s).

Definition new_conn (c : Conn) (s : Server) : nat * Server := (length (conns s), set_conns (conns s ++ [c]) s).

(** [done_ = true], [closed_ = true], the end of a [Socket]. *)
Definition retire (id : nat) (s : Server) : Server :=
  match conns s !! id with Some c => set_conns (<[id := mkConn (desc c) (cloop c) (ckind c) false]> (conns s)) s | None => s end.

Definition gauge (l : nat) (s : Server) : Z := default 0 (gauges s !! l).

Definition adjust (l : nat) (d : Z) (s : Server) : Server := set_gauges (<[l := u64 (gauge l s + d)]> (gauges s)) s.

Definition post (l : nat) (op : Op) (s : Server) : Server := set_posted (posted s ++ [(l, op)]) s.

(** [accept_ready]: the head of the loop, up to what is done with a client. *)
Definition accept_loop (lfd : Z) (c : Choice) (s : Server) : list Op * Server :=
  if running s then
    match accepts c with
    | AcceptedFd fd => let '(d, s) := open_fd fd s in ([LookupTls lfd d; AcceptLoop lfd], s)
    | AcceptRetry => ([ArmListen lfd], s)
    | AcceptFailed => ([CleanupListen lfd], s)
    end
  else ([CleanupListen lfd], s).

(** Its end: the descriptor is closed by whoever takes it out of [listen_fds_]. *)
Definition cleanup_listen (lfd : Z) (s : Server) : list Op * Server :=
  match list_find (fun d : Desc => d.1 = lfd) (listen_fds s) with
  | Some (i, d) => ([EraseTls lfd; CloseListen d], set_listen_fds (delete i (listen_fds s)) s)
  | None => ([], s)
  end.

Definition lookup_tls (lfd : Z) (d : Desc) (s : Server) : list Op :=
  if bool_decide (lfd ∈ tls_listen s) then [CreateServer d] else if has_factory then [CallFactory d loops false] else [ScheduleConnection d].

(** [TlsStream::create_server] and the handler; on another loop it is started
    by a closure posted there. *)
Definition tls_accept (d : Desc) (c : Choice) (s : Server) : list Op * Server :=
  if says_yes c then
    let '(target, s) := if has_factory then pick_accept_loop s else (0%nat, s) in
    let '(id, s) := new_conn (mkConn d target Handshake true) s in
    ([InsertConn d.1 id target; if (target =? 0)%nat then Advance id true else PostStart id target], s)
  else ([CloseFd d], s).

(** A factory that throws: the handler in [accept_ready] closes the descriptor,
    whether or not it is closed already; without one nothing does. *)
Definition factory_throws (d : Desc) (caught : bool) (c : Choice) (s : Server) : list Op * Server :=
  let '(held, s) := match throws c with ThrowsClosed => ([], close_fd d s) | _ => ([d], s) end in
  (if caught then [CloseFd d] else [Escape held], s).

(** The factory, on [target] or (for [loops]) on the loop picked now. *)
Definition call_factory (d : Desc) (target : nat) (caught : bool) (c : Choice) (s : Server) : list Op * Server :=
  let '(target, s) := if (target =? loops)%nat then pick_accept_loop s else (target, s) in
  match throws c with
  | ThrowsNot =>
      if says_yes c then
        let '(id, s) := new_conn (mkConn d target Reactor true) s in ([InsertConn d.1 id target; IncrementConns target], s)
      else ([CloseFd d], s)
  | _ => factory_throws d caught c s
  end.

(** [TlsHandshakeHandler::fail] and [finish_ok]. *)
Definition hs_fail (id : nat) (k : Conn) (s : Server) : list Op * Server := ([EraseConn (desc k).1; CloseFd (desc k)], retire id s).
Definition hs_finish_ok (id : nat) (caught : bool) (k : Conn) (s : Server) : list Op * Server := ([EraseConn (desc k).1; FinishOk (desc k) (cloop k) caught], retire id s).

Definition advance (id : nat) (caught : bool) (c : Choice) (s : Server) : list Op * Server :=
  match conns s !! id with
  | Some k =>
      if negb (alive k) then ([], s)
      else match handshakes c with HsOk => hs_finish_ok id caught k s | HsWant => ([], s) | HsFailed => hs_fail id k s end
  | None => ([], s)
  end.

(** [BufferedConnection::close] with the server's [on_closed]. *)
Definition conn_close (id : nat) (k : Conn) (s : Server) : list Op * Server := ([CloseFd (desc k); EraseConn (desc k).1; DecrementConns (cloop k)], retire id s).

(** [IoHandler::shutdown]. *)
Definition shutdown_conn (id : nat) (s : Server) : list Op * Server :=
  match conns s !! id with
  | Some k => if negb (alive k) then ([], s) else match ckind k with Handshake => hs_fail id k s | Reactor => conn_close id k s | Coro => ([], s) end
  | None => ([], s)
  end.

(** The guard's constructor and destructor. *)
Definition guard_enter (fd : Z) : list Op := [AddClient fd; AddActive; IncrementConns 0].
Definition guard_leave (fd : Z) : list Op := [DelClient fd; SubActive; DecrementConns 0].

(** [handle_connection]: the guard, the handler, the guard's destructor. *)
Definition handle_connection (id : nat) (s : Server) : list Op * Server :=
  match conns s !! id with
  | Some k =>
      if has_handler then (guard_enter (desc k).1 ++ [RunHandler id], s)
      else if alive k then ([CloseFd (desc k)], retire id s) else ([], s)
  | None => ([], s)
  end.

(** [Socket::close], and its destructor. *)
Definition close_socket (id : nat) (s : Server) : list Op * Server :=
  match conns s !! id with Some k => if alive k then ([CloseFd (desc k)], retire id s) else ([], s) | None => ([], s) end.

(** The user's coroutine until its next suspension: it may close its socket, or
    return. *)
Definition run_handler (id : nat) (c : Choice) (s : Server) : list Op * Server :=
  match conns s !! id with
  | Some k =>
      let '(closing, s) := if says_yes c then close_socket id s else ([], s) in
      match handshakes c with
      | HsWant => (closing, set_tasks (tasks s ++ [RunHandler id]) s)
      | _ => let '(dropped, s) := close_socket id s in (closing ++ dropped ++ guard_leave (desc k).1, s)
      end
  | None => ([], s)
  end.

(** Step 3.5 of [stop()]: one closure per loop that has connections. *)
Definition by_ctx (l : nat) (entries : list (nat * nat)) : list nat := omap (fun e => if (e.2 =? l)%nat then Some e.1 else None) entries.

Definition swap_conns (s : Server) : Server :=
  let entries := (map_to_list (reactor_connections s)).*2 in
  let closures := omap (fun l => match by_ctx l entries with [] => None | ids => Some (l, ShutdownConns ids) end) (seq 0 loops) in
  set_posted (posted s ++ closures) (set_reactor_connections ∅ s).

(** Steps 2 and 3 of [stop()], and a listener that is closed. *)
Definition swap_listen (s : Server) : list Op * Server := (map CloseListen (listen_fds s), set_listen_fds [] s).
Definition close_listen (d : Desc) (s : Server) : list Op * Server := ([CloseFd d], set_armed (armed s ∖ {[d.1]}) s).
Definition shutdown_clients (s : Server) : Server := set_shut (shut s ++ elements (active_client_fds s)) s.

(** [finish_ok] once the handshake has left the registry. *)
Definition finish_ok (d : Desc) (l : nat) (caught : bool) : list Op := if has_factory then [CallFactory d l caught] else [ScheduleConnection d].

(** [schedule(handle_connection(socket))]. *)
Definition schedule_connection (d : Desc) (s : Server) : Server := let '(id, s) := new_conn (mkConn d 0 Coro true) s in set_tasks (tasks s ++ [HandleConnection id]) s.

(** The registration of a listener, after [create_tcp_listen_fd]. *)
Definition push_listen (d : Desc) (tls : bool) (s : Server) : Server := set_tls_listen (if tls then tls_listen s ∪ {[d.1]} else tls_listen s) (set_listen_fds (listen_fds s ++ [d]) s).

Definition exec (op : Op) (c : Choice) (s : Server) : list Op * Server :=
  match op with
  | AcceptLoop lfd => accept_loop lfd c s
  | CleanupListen lfd => cleanup_listen lfd s
  | EraseTls lfd => ([], set_tls_listen (tls_listen s ∖ {[lfd]}) s)
  | ArmListen lfd => ([], set_armed (armed s ∪ {[lfd]}) s)
  | LookupTls lfd d => (lookup_tls lfd d s, s)
  | CreateServer d => tls_accept d c s
  | CallFactory d l caught => call_factory d l caught c s
  | ScheduleConnection d => ([], schedule_connection d s)
  | InsertConn fd id l => ([], set_reactor_connections (<[fd := (id, l)]> (reactor_connections s)) s)
  | EraseConn fd => ([], set_reactor_connections (delete fd (reactor_connections s)) s)
  | IncrementConns l => ([], adjust l 1 s)
  | DecrementConns l => ([], adjust l (-1) s)
  | Advance id caught => advance id caught c s
  | PostStart id l => ([], post l (Advance id false) s)
  | FinishOk d l caught => (finish_ok d l caught, s)
  | CloseFd d => ([], close_fd d s)
  | HandleConnection id => handle_connection id s
  | AddClient fd => ([], set_active_client_fds (active_client_fds s ∪ {[fd]}) s)
  | DelClient fd => ([], set_active_client_fds (active_client_fds s ∖ {[fd]}) s)
  | AddActive => ([], set_active_connections (active_connections s + 1) s)
  | SubActive => ([], set_active_connections (active_connections s - 1) s)
  | RunHandler id => run_handler id c s
  | StartRunning => ([], set_running true s)
  | PushListen d tls => ([], push_listen d tls s)
  | StopRunning => ([], set_running false s)
  | SwapListen => swap_listen s
  | CloseListen d => close_listen d s
  | ClearTls => ([], set_tls_listen ∅ s)
  | ShutdownClients => ([], shutdown_clients s)
  | SwapConns => ([], swap_conns s)
  | ShutdownConns ids => (map ShutdownConn ids, s)
  | ShutdownConn id => shutdown_conn id s
  | Escape held => ([], set_lost_fds (lost_fds s ++ held) s)
  end.

(** What a thread goes on with: an exception that leaves [run()] takes the rest
    along.  (The thread is idle then, as if [run()] were called again.) *)
Definition go_on (op : Op) (ops' ops : list Op) : list Op := match op with Escape _ => [] | _ => ops' ++ ops end.

(** ** Threads *)

Inductive Who := LoopThread (l : nat) | Worker | Outside.

#[export] Instance Who_eq_dec : EqDecision Who.
Proof. solve_decision. Defined.

(** What an idle thread takes up: a readable listener, a handshake that can go
    on, a connection that closes itself, a posted closure, a scheduled
    coroutine; [listen_tcp] or [listen_tls] (which may fail after the socket is
    made) and [stop] called from outside. *)
Inductive Event :=
  | Readable (lfd : Z)
  | Progress (id : nat)
  | Closes (id : nat)
  | TakePosted
  | TakeTask (k : nat)
  | ListenCall (fd : Z) (tls bound : bool)
  | StopCall.

(** What they execute. *)
Definition on_readable (lfd : Z) : list Op := [AcceptLoop lfd].
Definition listen_tcp (d : Desc) : list Op := [StartRunning; PushListen d false; ArmListen d.1].
Definition listen_tls (d : Desc) : list Op := [StartRunning; PushListen d true; ArmListen d.1].
Definition stop : list Op := [StopRunning; SwapListen; ClearTls; ShutdownClients; SwapConns].

(** Coroutines run on the workers, on loop 0 without any. *)
Definition runs_tasks (workers : bool) (who : Who) : bool := match who with Worker => workers | LoopThread l => (l =? 0)%nat && negb workers | Outside => false end.

Definition on_loop (who : Who) (l : nat) : bool := bool_decide (who = LoopThread l).

Definition event (workers : bool) (who : Who) (e : Event) (s : Server) : option (list Op * Server) :=
  match e with
  | Readable lfd => if on_loop who 0 && bool_decide (lfd ∈ armed s) then Some (on_readable lfd, set_armed (armed s ∖ {[lfd]}) s) else None
  | Progress id =>
      k ← conns s !! id; if on_loop who (cloop k) && alive k && bool_decide (ckind k = Handshake) then Some ([Advance id false], s) else None
  | Closes id =>
      k ← conns s !! id; if on_loop who (cloop k) && alive k && bool_decide (ckind k = Reactor) then Some (conn_close id k s) else None
  | TakePosted =>
      match who with
      | LoopThread l => '(i, (_, op)) ← list_find (fun e : nat * Op => e.1 = l) (posted s); Some ([op], set_posted (delete i (posted s)) s)
      | _ => None
      end
  | TakeTask k => op ← tasks s !! k; if runs_tasks workers who then Some ([op], set_tasks (delete k (tasks s)) s) else None
  | ListenCall fd tls bound =>
      if bool_decide (who = Outside) && bool_decide (open_fds s !! fd = None) then
        let '(d, s) := open_fd fd s in Some (if bound then (if tls then listen_tls d else listen_tcp d) else [CloseFd d], s)
      else None
  | StopCall => if bool_decide (who = Outside) then Some (stop, s) else None
  end.

(** The kernel returns numbers that are not open. *)
Definition kernel_ok (c : Choice) (s : Server) : Prop := match accepts c with AcceptedFd fd => open_fds s !! fd = None | _ => True end.

(** What the factory may do. *)
Inductive Manners := NeverThrows | MayThrow | MayCloseAndThrow.

Definition polite (m : Manners) (c : Choice) : bool :=
  match m, throws c with _, ThrowsNot => true | NeverThrows, _ => false | MayThrow, ThrowsClosed => false | _, _ => true end.

Context (manners : Manners).

Record System := mkSystem { server : Server; progs : list (Who * list Op) }.

Inductive step (workers : bool) : System -> System -> Prop :=
  | step_op t n who op ops c ops' s' : progs t !! n = Some (who, op :: ops) -> kernel_ok c (server t) -> polite manners c = true -> exec op c (server t) = (ops', s') ->
      step workers t (mkSystem s' (<[n := (who, go_on op ops' ops)]> (progs t)))
  | step_event t n who e ops' s' : progs t !! n = Some (who, []) -> event workers who e (server t) = Some (ops', s') ->
      step workers t (mkSystem s' (<[n := (who, ops')]> (progs t))).

Definition new_server : Server := mkServer false ∅ 0 false [] ∅ ∅ 0 ∅ ∅ ∅ 0 [] [] [] [] [].

(** One thread per loop, and any number of others. *)
Definition new_system (others : list Who) : System := mkSystem new_server (map (fun l => (LoopThread l, [])) (seq 0 loops) ++ map (fun w => (w, [])) others).

Definition reachable (workers : bool) (others : list Who) (t : System) : Prop := rtc (step workers) (new_system others) t.
End Operations.
