(* ===== verification/ServerSafety.v ===== *)
(** * Theorems about the server

    Every descriptor, connection gauge and registry entry of the server of
    Server.v is accounted for in every reachable state, for any behaviour of
    the kernel and the TLS library and any interleaving of the threads; what
    the user's connection factory may do is [Manners], and each theorem says
    which of them it covers.  At the end, schedules that show what several
    threads can do to bookkeeping keyed by descriptor number, what [stop()] can
    overlook and what a factory that throws leaves behind. *)
From S2P Require Import Prelude Resources Server.
From stdpp Require Import gmap.

Local Open Scope Z_scope.

(** ** Descriptors *)

(** The descriptors a piece of code is responsible for, those of connections,
    and of the whole system. *)
Definition op_owns (op : Op) : list Desc :=
  match op with
  | LookupTls _ d | CreateServer d | CallFactory d _ _ | ScheduleConnection d | FinishOk d _ _ | CloseFd d | PushListen d _ | CloseListen d => [d]
  | Escape held => held
  | _ => []
  end.

Definition ops_own (ops : list Op) : list Desc := concat (map op_owns ops).

Definition conns_own (l : list Conn) : list Desc := concat (map (fun k => if alive k then [desc k] else []) l).

Definition shared_owns (s : Server) : list Desc := conns_own (conns s) ++ listen_fds s ++ ops_own (tasks s) ++ ops_own (posted s).*2.

Definition progs_own (ps : list (Who * list Op)) : list Desc := concat (map (fun p => ops_own p.2) ps).

(** Who sees to a descriptor; and with those that were lost. *)
Definition owners (t : System) : list Desc := progs_own (progs t) ++ shared_owns (server t).
Definition shared_fds (s : Server) : list Desc := shared_owns s ++ lost_fds s.
Definition all_fds (t : System) : list Desc := progs_own (progs t) ++ shared_fds (server t).

Definition accounted (l : list Desc) (s : Server) : Prop := l ≡ₚ map_to_list (open_fds s) /\ misclosed s = false.

Arguments conns_own : simpl never.
Arguments ops_own : simpl never.

Lemma ops_own_cons op l : ops_own (op :: l) = op_owns op ++ ops_own l.
Proof. done. Qed.

Lemma ops_own_app l k : ops_own (l ++ k) = ops_own l ++ ops_own k.
Proof. unfold ops_own. by rewrite map_app, concat_app. Qed.

#[export] Instance ops_own_proper : Proper (Permutation ==> Permutation) ops_own.
Proof. intros l k H. induction H; rewrite ?ops_own_cons; [done|by rewrite IHPermutation|solve_Permutation|by etransitivity]. Qed.

Lemma conns_own_app l k : conns_own (l ++ k) = conns_own l ++ conns_own k.
Proof. unfold conns_own. by rewrite map_app, concat_app. Qed.

Lemma conns_own_insert l id k k' : l !! id = Some k -> (if alive k then [desc k] else []) ++ conns_own (<[id := k']> l) ≡ₚ (if alive k' then [desc k'] else []) ++ conns_own l.
Proof.
  intros H. rewrite <- (take_drop_middle l id k H) at 2. rewrite insert_take_drop by (by eapply lookup_lt_Some). rewrite !conns_own_app. unfold conns_own at 2 4. cbn [map concat]. solve_Permutation.
Qed.

Lemma retire_owns id k s : conns s !! id = Some k -> alive k = true -> shared_fds s ≡ₚ desc k :: shared_fds (retire id s).
Proof.
  intros E Ha. unfold retire. rewrite E. unfold shared_fds, shared_owns. cbn [conns set_conns listen_fds tasks posted]. pose proof (conns_own_insert (conns s) id k (mkConn (desc k) (cloop k) (ckind k) false) E) as H. rewrite Ha in H. cbn [alive app] in H. rewrite <- H. done.
Qed.

Lemma retire_same id s : open_fds (retire id s) = open_fds s /\ misclosed (retire id s) = misclosed s.
Proof. unfold retire. by case_match. Qed.

Lemma ops_own_close l : ops_own (map CloseListen l) = l.
Proof. induction l as [|d l IH]; [done|]. cbn [map]. by rewrite ops_own_cons, IH. Qed.

Lemma ops_own_shutdown l : ops_own (map ShutdownConn l) = [].
Proof. induction l as [|d l IH]; [done|]. cbn [map]. by rewrite ops_own_cons. Qed.

(** ** What an exception drops *)

(** Pieces that may come to call the factory. *)
Definition may_throw (op : Op) : bool :=
  match op with AcceptLoop _ | LookupTls _ _ | CreateServer _ | CallFactory _ _ _ | FinishOk _ _ _ | Advance _ _ | Escape _ => true | _ => false end.

Definition only_accepts (ops : list Op) : bool := forallb (fun op => match op with AcceptLoop _ => true | _ => false end) ops.

(** Behind them there is nothing but the accept loop. *)
Fixpoint exits (ops : list Op) : bool := match ops with [] => true | op :: ops => (negb (may_throw op) || only_accepts ops) && exits ops end.

Lemma only_accepts_app l k : only_accepts (l ++ k) = only_accepts l && only_accepts k.
Proof. apply forallb_app. Qed.

Lemma exits_app l k : exits l = true -> exits k = true -> (existsb may_throw l = true -> only_accepts k = true) -> exits (l ++ k) = true.
Proof.
  intros Hl Hk Ho. induction l as [|op l IH]; [done|]. cbn in *. apply andb_prop in Hl as [H1 H2]. rewrite only_accepts_app. destruct (may_throw op); cbn in *; [rewrite H1, Ho by done; apply IH; [done|intros _; by apply Ho]|by apply IH].
Qed.

Lemma exits_quiet l : existsb may_throw l = false -> exits l = true.
Proof. induction l as [|op l IH]; [done|]. cbn. intros [-> H]%orb_false_elim. by apply IH. Qed.

Lemma quiet_map {A : Type} (f : A -> Op) l : (forall x, may_throw (f x) = false) -> existsb may_throw (map f l) = false.
Proof. intros Hf. induction l as [|x l IH]; [done|]. cbn. by rewrite Hf. Qed.

Lemma close_socket_quiet id s : existsb may_throw (close_socket id s).1 = false.
Proof. unfold close_socket. destruct (conns s !! id) as [k|]; [|done]. by destruct (alive k). Qed.

(** What a piece leaves to do. *)
Lemma exec_exits loops hf hh op c s : let l := (exec loops hf hh op c s).1 in exits l = true /\ (existsb may_throw l = true -> may_throw op = true).
Proof.
  assert (Hq : forall l, existsb may_throw l = false -> exits l = true /\ (existsb may_throw l = true -> may_throw op = true)) by (intros l Hl; split; [by apply exits_quiet|by rewrite Hl]).
  cbv zeta. destruct op; cbn [exec]; try done; try (by apply Hq).
  - unfold accept_loop. destruct (running s); [|done]. by destruct (accepts c).
  - unfold cleanup_listen. destruct (list_find _ _) as [[? ?]|]; done.
  - unfold lookup_tls. cbn. case_match; [done|]. by destruct hf.
  - unfold tls_accept. destruct (says_yes c); [|done]. destruct (if hf then _ else _) as [l' s']. cbn. by destruct (l' =? 0)%nat.
  - unfold call_factory, factory_throws. destruct (if (loop =? loops)%nat then _ else _) as [l' s']. destruct (throws c); [by destruct (says_yes c)|by destruct caught..].
  - unfold advance. destruct (conns s !! id) as [k|]; [|done]. destruct (negb _); [done|]. by destruct (handshakes c).
  - unfold finish_ok. by destruct hf.
  - unfold handle_connection. destruct (conns s !! id) as [k|]; [|done]. destruct hh; [done|]. by destruct (alive k).
  - apply Hq. unfold run_handler. destruct (conns s !! id) as [k|]; [|done]. assert (E : existsb may_throw (if says_yes c then close_socket id s else ([], s)).1 = false) by (destruct (says_yes c); [apply close_socket_quiet|done]).
    destruct (if says_yes c then _ else _) as [l1 s1]. pose proof (close_socket_quiet id s1) as E2. destruct (close_socket id s1) as [l2 s2]. cbn [fst] in *. destruct (handshakes c); cbn [fst]; rewrite ?existsb_app, ?E, ?E2; done.
  - apply Hq. cbn. by apply quiet_map.
  - apply Hq. cbn. by apply quiet_map.
  - unfold shutdown_conn. destruct (conns s !! id) as [k|]; [|done]. destruct (negb _); [done|]. by destruct (ckind k).
Qed.

Definition all_exit (t : System) : Prop := Forall (fun p => exits p.2 = true) (progs t).

Lemma step_exits loops hf hh manners workers t t' : step loops hf hh manners workers t t' -> all_exit t -> all_exit t'.
Proof.
  intros Hs H. destruct Hs as [t n who op ops c ops' s' Hp Hk Hm E|t n who e ops' s' Hp E]; (apply Forall_insert; [done|]); cbn [snd].
  - pose proof (Forall_lookup_1 _ _ _ _ H Hp) as Ho. cbn in Ho. apply andb_prop in Ho as [H1 H2]. destruct (exec_exits loops hf hh op c (server t)) as [K1 K2]. rewrite E in K1, K2. cbn [fst] in *.
    assert (K : exits (ops' ++ ops) = true) by (apply exits_app; [done|done|]; intros Hx; rewrite (K2 Hx) in H1; exact H1). by destruct op.
  - destruct e; cbn [event] in E.
    + by case_match; simplify_eq.
    + apply bind_Some in E as (k & _ & E). by case_match; simplify_eq.
    + apply bind_Some in E as (k & _ & E). case_match; [|done]. by injection E as <- <-.
    + destruct who as [l| |]; [|done..]. apply bind_Some in E as ([i [l' op]] & _ & [= <- <-]). cbn. by rewrite orb_true_r.
    + apply bind_Some in E as (op & _ & E). case_match; simplify_eq. cbn. by rewrite orb_true_r.
    + case_match; [|done]. destruct (open_fd fd (server t)). simplify_eq. by destruct bound, tls.
    + by case_match; simplify_eq.
Qed.

Lemma new_exits loops others : all_exit (new_system loops others).
Proof. apply Forall_app. split; apply Forall_forall; by intros p (x & -> & _)%list_elem_of_fmap. Qed.

(** An exception drops the accept loop, if anything. *)
Lemma escape_drops t n who held ops : all_exit t -> progs t !! n = Some (who, Escape held :: ops) -> only_accepts ops = true.
Proof. intros H Hp. pose proof (Forall_lookup_1 _ _ _ _ H Hp) as Ho. cbn in Ho. by apply andb_prop in Ho as [? _]. Qed.

Lemma only_accepts_own ops : only_accepts ops = true -> ops_own ops = [].
Proof. induction ops as [|op ops IH]; [done|]. cbn. intros [H1 H2]%andb_prop. rewrite ops_own_cons, IH by done. by destruct op. Qed.

Lemma go_on_exec loops hf hh op c s ops ops' s' : exec loops hf hh op c s = (ops', s') -> go_on op ops' ops = ops' ++ ops \/ exists held, op = Escape held /\ ops' = [] /\ go_on op ops' ops = [] ++ [].
Proof. intros E. destruct op; try (by left). right. injection E as <- _. by eexists. Qed.

Section OwnershipProof.
Context (loops : nat) (has_factory has_handler : bool) (manners : Manners).
Abbreviation exec := (exec loops has_factory has_handler).
Abbreviation step := (step loops has_factory has_handler manners).

Lemma pick_same s : let '(_, s') := pick_accept_loop loops s in shared_fds s' = shared_fds s /\ open_fds s' = open_fds s /\ misclosed s' = misclosed s /\ conns s' = conns s.
Proof. unfold pick_accept_loop. by destruct (loops =? 1)%nat. Qed.

Lemma new_conn_owns k s : let '(_, s') := new_conn k s in shared_fds s' ≡ₚ (if alive k then [desc k] else []) ++ shared_fds s /\ open_fds s' = open_fds s /\ misclosed s' = misclosed s.
Proof. unfold new_conn, shared_fds, shared_owns. cbn. rewrite conns_own_app. unfold conns_own at 2. cbn. rewrite app_nil_r. split; [solve_Permutation|done]. Qed.

Lemma swap_conns_owns s : shared_fds (swap_conns loops s) = shared_fds s.
Proof.
  unfold swap_conns, shared_fds, shared_owns. cbn. rewrite fmap_app, ops_own_app. replace (ops_own (omap _ (seq 0 loops)).*2) with (@nil Desc); [by rewrite app_nil_r|].
  induction (seq 0 loops) as [|l ls IH]; [done|]. cbn. destruct (by_ctx l _); exact IH.
Qed.

Lemma accounted_same l l' s s' : accounted l s -> l' ≡ₚ l -> open_fds s' = open_fds s -> misclosed s' = misclosed s -> accounted l' s'.
Proof. intros [H1 H2] Hl Ho Hm. unfold accounted. by rewrite Hl, Ho, Hm. Qed.

Lemma close_accounted d l s : accounted (d :: l) s -> accounted l (close_fd d s) /\ shared_fds (close_fd d s) = shared_fds s.
Proof.
  intros [H1 H2]. assert (E : open_fds s !! d.1 = Some d.2). { apply elem_of_map_to_list. rewrite <- surjective_pairing. rewrite <- H1. by left. }
  unfold close_fd. rewrite bool_decide_true by done. split; [|done]. split; [|done]. cbn. apply (Permutation_cons_inv (a := d)). rewrite H1. destruct d as [fd b]. symmetry. by apply map_to_list_delete.
Qed.

Lemma open_accounted fd l s : open_fds s !! fd = None -> accounted l s -> let '(d, s') := open_fd fd s in accounted (d :: l) s' /\ shared_fds s' = shared_fds s.
Proof. intros Hn [H1 H2]. unfold open_fd. split; [|done]. split; [|done]. cbn. by rewrite map_to_list_insert, H1. Qed.

Lemma retire_accounted id k s F : conns s !! id = Some k -> alive k = true -> accounted (shared_fds s ++ F) s -> accounted (desc k :: shared_fds (retire id s) ++ F) (retire id s).
Proof.
  intros E Ha H. destruct (retire_same id s) as [R1 R2]. eapply accounted_same; [exact H| |done|done]. by rewrite (retire_owns id k s E Ha).
Qed.

Lemma new_conn_accounted k s F : alive k = true -> accounted (desc k :: shared_fds s ++ F) s -> let '(_, s') := new_conn k s in accounted (shared_fds s' ++ F) s'.
Proof.
  intros Ha H. pose proof (new_conn_owns k s) as K. destruct (new_conn k s) as [id s']. destruct K as (K1 & K2 & K3). rewrite Ha in K1. eapply accounted_same; [exact H| |done|done]. by rewrite K1.
Qed.

Lemma pick_accounted l s F : accounted (l ++ shared_fds s ++ F) s -> let '(_, s') := pick_accept_loop loops s in accounted (l ++ shared_fds s' ++ F) s'.
Proof. intros H. pose proof (pick_same s) as K. destruct (pick_accept_loop loops s) as [t s']. destruct K as (K1 & K2 & K3 & _). by eapply accounted_same; [exact H|rewrite K1| |]. Qed.

Lemma tls_accept_accounted d c s F : accounted (d :: shared_fds s ++ F) s -> let '(ops', s') := tls_accept loops has_factory d c s in accounted (ops_own ops' ++ shared_fds s' ++ F) s'.
Proof.
  intros H. unfold tls_accept. destruct (says_yes c); [|done].
  assert (H' : let '(_, s') := if has_factory then pick_accept_loop loops s else (0%nat, s) in accounted (d :: shared_fds s' ++ F) s') by (destruct has_factory; [by apply (pick_accounted [d])|done]).
  destruct (if has_factory then _ else _) as [l s1]. pose proof (new_conn_accounted (mkConn d l Handshake true) s1 F eq_refl H') as K. destruct (new_conn _ s1) as [id s2]. by destruct (l =? 0)%nat.
Qed.

Lemma call_factory_accounted d l caught c s F : throws c <> ThrowsClosed -> accounted (d :: shared_fds s ++ F) s -> let '(ops', s') := call_factory loops d l caught c s in accounted (ops_own ops' ++ shared_fds s' ++ F) s'.
Proof.
  intros Ht H. unfold call_factory.
  assert (H' : let '(_, s') := if (l =? loops)%nat then pick_accept_loop loops s else (l, s) in accounted (d :: shared_fds s' ++ F) s') by (destruct (l =? loops)%nat; [by apply (pick_accounted [d])|done]).
  destruct (if (l =? loops)%nat then _ else _) as [l' s1]. unfold factory_throws. destruct (throws c); [|by destruct caught|done]. destruct (says_yes c); [|done]. pose proof (new_conn_accounted (mkConn d l' Reactor true) s1 F eq_refl H') as K. by destruct (new_conn _ s1) as [id s2].
Qed.

Lemma advance_accounted id caught c s F : accounted (shared_fds s ++ F) s -> let '(ops', s') := advance id caught c s in accounted (ops_own ops' ++ shared_fds s' ++ F) s'.
Proof.
  intros H. unfold advance. destruct (conns s !! id) as [k|] eqn:E; [|done]. destruct (alive k) eqn:Ha; [|done]. cbn [negb]. destruct (handshakes c); [|done|]; by apply retire_accounted.
Qed.

Lemma shutdown_conn_accounted id s F : accounted (shared_fds s ++ F) s -> let '(ops', s') := shutdown_conn id s in accounted (ops_own ops' ++ shared_fds s' ++ F) s'.
Proof.
  intros H. unfold shutdown_conn. destruct (conns s !! id) as [k|] eqn:E; [|done]. destruct (alive k) eqn:Ha; [|done]. cbn [negb]. destruct (ckind k); [by apply retire_accounted..|done].
Qed.

Lemma handle_connection_accounted id s F : accounted (shared_fds s ++ F) s -> let '(ops', s') := handle_connection has_handler id s in accounted (ops_own ops' ++ shared_fds s' ++ F) s'.
Proof.
  intros H. unfold handle_connection. destruct (conns s !! id) as [k|] eqn:E; [|done]. destruct has_handler; [done|]. destruct (alive k) eqn:Ha; [|done]. by apply retire_accounted.
Qed.

Lemma close_socket_accounted id s F : accounted (shared_fds s ++ F) s -> let '(ops', s') := close_socket id s in accounted (ops_own ops' ++ shared_fds s' ++ F) s'.
Proof. intros H. unfold close_socket. destruct (conns s !! id) as [k|] eqn:E; [|done]. destruct (alive k) eqn:Ha; [|done]. by apply retire_accounted. Qed.

Lemma run_handler_accounted id c s F : accounted (shared_fds s ++ F) s -> let '(ops', s') := run_handler id c s in accounted (ops_own ops' ++ shared_fds s' ++ F) s'.
Proof.
  intros H. unfold run_handler. destruct (conns s !! id) as [k|] eqn:E; [|done].
  assert (H' : let '(l, s') := if says_yes c then close_socket id s else ([], s) in accounted (ops_own l ++ shared_fds s' ++ F) s') by (destruct (says_yes c); [by apply close_socket_accounted|done]).
  destruct (if says_yes c then _ else _) as [l s1]. assert (H1 : accounted (shared_fds s1 ++ ops_own l ++ F) s1) by (eapply accounted_same; [exact H'|solve_Permutation|done|done]).
  pose proof (close_socket_accounted id s1 _ H1) as H2. destruct (close_socket id s1) as [l2 s2].
  assert (K : accounted (ops_own (l ++ l2 ++ [DelClient (desc k).1; SubActive; DecrementConns 0]) ++ shared_fds s2 ++ F) s2).
  { eapply accounted_same; [exact H2| |done|done]. rewrite !ops_own_app. change (ops_own [DelClient _; _; _]) with (@nil Desc). solve_Permutation. }
  destruct (handshakes c); [exact K| |exact K]. eapply accounted_same; [exact H'| |done|done]. unfold shared_fds, shared_owns. cbn. rewrite ops_own_app. change (ops_own [RunHandler id]) with (@nil Desc). by rewrite app_nil_r.
Qed.

Lemma exec_accounted op c s F ops' s' : kernel_ok c s -> throws c <> ThrowsClosed -> accounted (op_owns op ++ shared_fds s ++ F) s -> exec op c s = (ops', s') -> accounted (ops_own ops' ++ shared_fds s' ++ F) s'.
Proof.
  intros Hk Hth H E. destruct op; cbn [op_owns app] in H; cbn [Server.exec] in E; try (injection E as <- <-; exact H).
  - unfold accept_loop in E. destruct (running s); [|by injection E as <- <-]. unfold kernel_ok in Hk. destruct (accepts c) as [fd| |]; [|by injection E as <- <-..].
    pose proof (open_accounted fd _ s Hk H) as K. destruct (open_fd fd s) as [d s1]. destruct K as [K1 K2]. injection E as <- <-. by rewrite K2.
  - unfold cleanup_listen in E. destruct (list_find _ (listen_fds s)) as [[i d]|] eqn:Ef; [|by injection E as <- <-]. injection E as <- <-. apply list_find_Some in Ef as (Ei & _).
    eapply accounted_same; [exact H| |done|done]. unfold shared_fds, shared_owns. cbn. rewrite (delete_Permutation _ _ _ Ei) at 2. solve_Permutation.
  - injection E as <- <-. unfold lookup_tls. repeat case_match; exact H.
  - pose proof (tls_accept_accounted _ c s F H) as K. by rewrite E in K.
  - pose proof (call_factory_accounted _ loop caught c s F Hth H) as K. by rewrite E in K.
  - unfold schedule_connection in E. pose proof (new_conn_accounted (mkConn fd 0 Coro true) s F eq_refl H) as K. destruct (new_conn _ s) as [id s1]. injection E as <- <-. eapply accounted_same; [exact K| |done|done].
    unfold shared_fds, shared_owns. cbn. rewrite ops_own_app. change (ops_own [HandleConnection id]) with (@nil Desc). by rewrite app_nil_r.
  - pose proof (advance_accounted id caught c s F H) as K. by rewrite E in K.
  - injection E as <- <-. eapply accounted_same; [exact H| |done|done]. unfold shared_fds, shared_owns, post. cbn. rewrite fmap_app, ops_own_app. change (ops_own [(loop, Advance id false)].*2) with (@nil Desc). by rewrite app_nil_r.
  - unfold finish_ok in E. destruct has_factory; injection E as <- <-; exact H.
  - injection E as <- <-. destruct (close_accounted _ _ _ H) as [K1 K2]. by rewrite K2.
  - pose proof (handle_connection_accounted id s F H) as K. by rewrite E in K.
  - pose proof (run_handler_accounted id c s F H) as K. by rewrite E in K.
  - injection E as <- <-. eapply accounted_same; [exact H| |done|done]. unfold shared_fds, shared_owns. cbn. solve_Permutation.
  - injection E as <- <-. eapply accounted_same; [exact H| |done|done]. rewrite ops_own_close. unfold shared_fds, shared_owns. cbn. solve_Permutation.
  - injection E as <- <-. cbn [ops_own]. eapply accounted_same; [exact H| |done|done]. by rewrite swap_conns_owns.
  - injection E as <- <-. by rewrite ops_own_shutdown.
  - pose proof (shutdown_conn_accounted id s F H) as K. by rewrite E in K.
  - injection E as <- <-. eapply accounted_same; [exact H| |done|done]. unfold shared_fds, shared_owns. cbn. solve_Permutation.
Qed.

Lemma progs_own_split n w ops ps : ps !! n = Some (w, ops) -> exists R, progs_own ps ≡ₚ ops_own ops ++ R /\ forall w' ops', progs_own (<[n := (w', ops')]> ps) ≡ₚ ops_own ops' ++ R.
Proof.
  intros H. exists (progs_own (take n ps) ++ progs_own (drop (S n) ps)). assert (Ha : forall a b, progs_own (a ++ b) = progs_own a ++ progs_own b) by (intros; unfold progs_own; by rewrite map_app, concat_app).
  split; [rewrite <- (take_drop_middle ps n _ H) at 1|intros w' ops'; rewrite insert_take_drop by (by eapply lookup_lt_Some)]; rewrite Ha; unfold progs_own at 2; cbn [map concat snd]; fold (progs_own (drop (S n) ps)); solve_Permutation.
Qed.

Lemma event_accounted workers who e s F ops' s' : accounted (shared_fds s ++ F) s -> event workers who e s = Some (ops', s') -> accounted (ops_own ops' ++ shared_fds s' ++ F) s'.
Proof.
  intros H E. destruct e; cbn [event] in E.
  - case_match; simplify_eq. exact H.
  - apply bind_Some in E as (k & _ & E). case_match; simplify_eq. exact H.
  - apply bind_Some in E as (k & Ek & E). destruct (on_loop who (cloop k) && alive k && _) eqn:Eg; [|done]. apply andb_prop in Eg as [[_ Ha]%andb_prop _]. injection E as <- <-. by apply retire_accounted.
  - destruct who as [l| |]; [|done..]. apply bind_Some in E as ([i [l' op]] & Ei & E). injection E as <- <-. apply list_find_Some in Ei as (Ei & _). eapply accounted_same; [exact H| |done|done].
    unfold shared_fds, shared_owns. cbn. rewrite (delete_Permutation _ _ _ Ei) at 2. cbn. rewrite (ops_own_cons op (_ <$> _)), (ops_own_cons op []). change (ops_own []) with (@nil Desc). solve_Permutation.
  - apply bind_Some in E as (op & Ei & E). destruct (runs_tasks workers who); [|done]. injection E as <- <-. eapply accounted_same; [exact H| |done|done].
    unfold shared_fds, shared_owns. cbn. rewrite (delete_Permutation _ _ _ Ei) at 2. rewrite (ops_own_cons op (delete _ _)), (ops_own_cons op []). change (ops_own []) with (@nil Desc). solve_Permutation.
  - destruct (bool_decide (who = Outside)); [|done]. destruct (bool_decide_reflect (open_fds s !! fd = None)) as [Hn|]; [|done]. cbn [andb] in E. pose proof (open_accounted fd _ s Hn H) as K. destruct (open_fd fd s) as [d s1]. destruct K as [K1 K2].
    injection E as <- <-. rewrite K2. by destruct bound, tls.
  - case_match; simplify_eq. exact H.
Qed.

Lemma polite_throws c : manners <> MayCloseAndThrow -> polite manners c = true -> throws c <> ThrowsClosed.
Proof. intros Hm Hp E. unfold polite in Hp. rewrite E in Hp. by destruct manners. Qed.

Lemma step_accounted workers t t' : manners <> MayCloseAndThrow -> step workers t t' -> all_exit t -> accounted (all_fds t) (server t) -> accounted (all_fds t') (server t').
Proof.
  intros Hm Hs Hx H. destruct Hs as [t n who op ops c ops' s' Hp Hk Hpo E|t n who e ops' s' Hp E]; destruct (progs_own_split _ _ _ _ Hp) as (R & HR & HR'); unfold all_fds; cbn [server progs].
  - assert (K : accounted (op_owns op ++ shared_fds (server t) ++ ops_own ops ++ R) (server t)). { eapply accounted_same; [exact H| |done|done]. unfold all_fds. rewrite HR, ops_own_cons. solve_Permutation. }
    pose proof (exec_accounted op c _ _ _ _ Hk (polite_throws c Hm Hpo) K E) as K'. eapply accounted_same; [exact K'| |done|done]. rewrite HR'.
    assert (Hg : ops_own (go_on op ops' ops) = ops_own ops' ++ ops_own ops).
    { destruct op; cbn [go_on]; try apply ops_own_app. injection E as <- <-. by rewrite (only_accepts_own ops) by (by eapply escape_drops). }
    rewrite Hg. solve_Permutation.
  - assert (K : accounted (shared_fds (server t) ++ R) (server t)). { eapply accounted_same; [exact H| |done|done]. unfold all_fds. rewrite HR. change (ops_own []) with (@nil Desc). solve_Permutation. }
    pose proof (event_accounted workers who e _ _ _ _ K E) as K'. eapply accounted_same; [exact K'| |done|done]. rewrite HR'. solve_Permutation.
Qed.

(** Nothing is lost unless the factory throws. *)
Definition stays (op : Op) : bool := match op with Escape _ => false | _ => true end.

Definition keeps (ops : list Op) (s : Server) : Prop := forallb stays ops = true /\ forallb stays (tasks s) = true /\ forallb stays (posted s).*2 = true /\ lost_fds s = [].

Lemma keeps_same s ops ops' s' : forallb stays ops' = true -> tasks s' = tasks s -> posted s' = posted s -> lost_fds s' = lost_fds s -> keeps ops s -> keeps ops' s'.
Proof. intros H E1 E2 E3 (_ & K). unfold keeps. by rewrite E1, E2, E3. Qed.

Lemma retire_kept_queues id s : tasks (retire id s) = tasks s /\ posted (retire id s) = posted s /\ lost_fds (retire id s) = lost_fds s.
Proof. unfold retire. by case_match. Qed.

Lemma close_socket_keeps id ops s : keeps ops s -> keeps (close_socket id s).1 (close_socket id s).2.
Proof.
  intros H. destruct (retire_kept_queues id s) as (E1 & E2 & E3). unfold close_socket. destruct (conns s !! id) as [k|]; [|by apply (keeps_same s ops)]. destruct (alive k); by apply (keeps_same s ops).
Qed.

Lemma run_handler_keeps id c ops s : keeps ops s -> keeps (run_handler id c s).1 (run_handler id c s).2.
Proof.
  intros H. unfold run_handler. destruct (conns s !! id) as [k|]; [|by apply (keeps_same s ops)].
  assert (K : let r := if says_yes c then close_socket id s else ([], s) in keeps r.1 r.2) by (destruct (says_yes c); [by eapply close_socket_keeps|by apply (keeps_same s ops)]).
  destruct (if says_yes c then _ else _) as [l1 s1]. cbn [fst snd] in K. pose proof (close_socket_keeps id l1 s1 K) as K2. destruct (close_socket id s1) as [l2 s2]. cbn [fst snd] in *. destruct K as (K & Kt & Kp & Kl), K2 as (K2 & K3).
  destruct (handshakes c); (split; [cbn [fst]; by rewrite ?forallb_app, ?K, ?K2|]); [done| |done]. cbn. by rewrite forallb_app, Kt.
Qed.

Lemma exec_keeps op c s : throws c = ThrowsNot -> keeps [op] s -> keeps (exec op c s).1 (exec op c s).2.
Proof.
  intros Ht H. pose proof (retire_kept_queues) as Hret. assert (Hs : forall ops' s', forallb stays ops' = true -> tasks s' = tasks s -> posted s' = posted s -> lost_fds s' = lost_fds s -> keeps ops' s') by (intros; by apply (keeps_same s [op])).
  destruct op; cbn [Server.exec fst snd]; try (by apply Hs).
  - unfold accept_loop. destruct (running s); [destruct (accepts c)|]; by apply Hs.
  - unfold cleanup_listen. destruct (list_find _ _) as [[? ?]|]; by apply Hs.
  - apply Hs; try done. unfold lookup_tls. case_match; [done|]. by destruct has_factory.
  - unfold tls_accept, pick_accept_loop. destruct (says_yes c); [|by apply Hs]. destruct has_factory, (loops =? 1)%nat; cbn; try destruct (_ =? 0)%nat; by apply Hs.
  - unfold call_factory, pick_accept_loop. rewrite Ht. destruct (loop =? loops)%nat, (loops =? 1)%nat, (says_yes c); by apply Hs.
  - split_and!; [done| |apply H..]. cbn. rewrite forallb_app. destruct H as (_ & -> & _). done.
  - unfold advance. destruct (conns s !! id) as [k|]; [|by apply Hs]. destruct (negb _); [by apply Hs|]. destruct (Hret id s) as (E1 & E2 & E3). destruct (handshakes c); by apply Hs.
  - split_and!; [done|apply H| |apply H]. cbn. rewrite fmap_app, forallb_app. destruct H as (_ & _ & -> & _). done.
  - unfold finish_ok. destruct has_factory; by apply Hs.
  - unfold close_fd. case_match; by apply Hs.
  - unfold handle_connection. destruct (conns s !! id) as [k|]; [|by apply Hs]. destruct has_handler; [by apply Hs|]. destruct (Hret id s) as (E1 & E2 & E3). destruct (alive k); by apply Hs.
  - by apply (run_handler_keeps id c [RunHandler id]).
  - apply Hs; try done. cbn. induction (listen_fds s); [done|by cbn].
  - split_and!; [done|apply H| |apply H]. unfold swap_conns. cbn. rewrite fmap_app, forallb_app. destruct H as (_ & _ & -> & _). cbn. induction (seq 0 loops) as [|l ls IH]; [done|]. cbn. by destruct (by_ctx l _).
  - apply Hs; try done. clear. by induction ids.
  - unfold shutdown_conn. destruct (conns s !! id) as [k|]; [|by apply Hs]. destruct (negb _); [by apply Hs|]. destruct (Hret id s) as (E1 & E2 & E3). destruct (ckind k); by apply Hs.
  - by destruct H.
Qed.

Lemma event_keeps workers who e s r : keeps [] s -> event workers who e s = Some r -> keeps r.1 r.2.
Proof.
  intros H E. pose proof (retire_kept_queues) as Hret. assert (Hs : forall ops' s', forallb stays ops' = true -> tasks s' = tasks s -> posted s' = posted s -> lost_fds s' = lost_fds s -> keeps ops' s') by (intros; by apply (keeps_same s [])).
  assert (Hd : forall l i op, forallb stays l = true -> l !! i = Some op -> stays op = true /\ forallb stays (delete i l) = true).
  { intros l i op Hl Ei. rewrite <- (take_drop_middle l i op Ei), forallb_app in Hl. apply andb_prop in Hl as [K1 K2]. cbn in K2. apply andb_prop in K2 as [K2 K3]. split; [done|]. by rewrite delete_take_drop, forallb_app, K1. }
  pose proof H as (_ & H2 & H3 & H4). destruct e; cbn [event] in E.
  - case_match; simplify_eq. by apply Hs.
  - apply bind_Some in E as (k & _ & E). case_match; simplify_eq. by apply Hs.
  - apply bind_Some in E as (k & _ & E). case_match; simplify_eq. destruct (Hret id s) as (E1 & E2 & E3). by apply Hs.
  - destruct who as [l| |]; [|done..]. apply bind_Some in E as ([i [l' op]] & Ei & [= <-]). apply list_find_Some in Ei as (Ei & _). destruct (Hd (posted s).*2 i op H3) as [K1 K2]; [by rewrite list_lookup_fmap, Ei|].
    split_and!; [cbn; by rewrite K1|done| |done]. cbn. by rewrite list_fmap_delete.
  - apply bind_Some in E as (op & Ei & E). case_match; simplify_eq. destruct (Hd (tasks s) k op H2 Ei) as [K1 K2]. split_and!; [cbn; by rewrite K1|done..].
  - case_match; [|done]. unfold open_fd in E. simplify_eq. destruct bound, tls; by apply Hs.
  - case_match; simplify_eq. by apply Hs.
Qed.

Definition all_keep (t : System) : Prop := Forall (fun p => forallb stays p.2 = true) (progs t) /\ keeps [] (server t).

Lemma step_keeps workers t t' : manners = NeverThrows -> step workers t t' -> all_keep t -> all_keep t'.
Proof.
  intros Hm Hs [H1 H2]. destruct Hs as [t n who op ops c ops' s' Hp Hk Hpo E|t n who e ops' s' Hp E].
  - pose proof (Forall_lookup_1 _ _ _ _ H1 Hp) as Ho. cbn in Ho. apply andb_prop in Ho as [Ho Hops]. assert (Ht : throws c = ThrowsNot) by (rewrite Hm in Hpo; unfold polite in Hpo; by destruct (throws c)).
    assert (K : keeps [op] (server t)) by (split; [cbn; by rewrite Ho|apply H2]). apply (exec_keeps op c _ Ht) in K. rewrite E in K. destruct K as [K1 K2]. split; [|by split]. apply Forall_insert; [done|]. cbn [snd fst] in *. destruct op; cbn [go_on]; rewrite ?forallb_app, ?K1, ?Hops; done.
  - pose proof (event_keeps _ _ _ _ _ H2 E) as [K1 K2]. split; [|by split]. by apply Forall_insert.
Qed.

Lemma new_system_owns others : all_fds (new_system loops others) = [].
Proof.
  unfold all_fds, new_system, progs_own. cbn. rewrite map_app, concat_app, app_nil_r. replace (concat _) with (@nil Desc) by (induction (seq 0 loops); [done|by cbn]). induction others as [|w others IH]; [done|exact IH].
Qed.

(** C13: Every descriptor is seen to.  Whatever the kernel and the TLS library
    do and however the loops, the workers and the threads calling [listen] and
    [stop] interleave, and provided the user's connection factory, if it
    throws, has not closed the descriptor it was given: every open descriptor
    is the responsibility of exactly one piece of code still to be executed,
    one live connection or handshake or one listener, or it was given to a
    factory that threw where nobody catches, and is leaked
    ([throwing_factory_leaks]); if the factory never throws none is leaked.
    And nothing ever closes a descriptor that is not its own, so none is closed
    twice ([tls_throw_closes_twice] shows what a factory that closes the
    descriptor and throws does to that). *)
Theorem descriptors_accounted workers others t : manners <> MayCloseAndThrow -> reachable loops has_factory has_handler manners workers others t ->
  owners t ++ lost_fds (server t) ≡ₚ map_to_list (open_fds (server t)) /\ misclosed (server t) = false /\ (manners = NeverThrows -> lost_fds (server t) = []).
Proof.
  intros Hm H. assert (K : all_exit (new_system loops others) /\ accounted (all_fds (new_system loops others)) (server (new_system loops others)) /\ (manners = NeverThrows -> all_keep (new_system loops others))).
  { split; [apply new_exits|]. split; [rewrite new_system_owns; done|]. intros _. split; [|done]. apply Forall_app. split; apply Forall_forall; by intros p (x & -> & _)%list_elem_of_fmap. }
  assert (G : accounted (all_fds t) (server t) /\ (manners = NeverThrows -> all_keep t)).
  { revert K. induction H as [|t1 t2 t3 Hs _ IH]; [by intros (_ & ? & ?)|]. intros (K1 & K2 & K3). apply IH. split; [by eapply step_exits|]. split; [by eapply step_accounted|]. intros E. eapply step_keeps; [done|exact Hs|by apply K3]. }
  destruct G as [[G1 G2] G3]. split; [|split; [done|]]; [|intros E; by destruct (G3 E) as [_ (_ & _ & _ & ?)]]. rewrite <- G1. unfold owners, all_fds, shared_fds. by rewrite <- app_assoc.
Qed.
End OwnershipProof.

(** ** Which thread runs what *)

Section TypingProof.
Context (loops : nat) (has_factory has_handler : bool) (manners : Manners).
Hypothesis Hloops : (0 < loops)%nat.
Abbreviation exec := (exec loops has_factory has_handler).
Abbreviation step := (step loops has_factory has_handler manners).

(** Connection [id] exists, with a property that never changes. *)
Definition conn_is (s : Server) (id : nat) (P : Conn -> Prop) : Prop := exists k, conns s !! id = Some k /\ P k.

Definition is_loop (who : Who) : bool := match who with LoopThread _ => true | _ => false end.

(** A piece of code is where it belongs: connections and handshakes only on the
    thread of the loop they are pinned to. *)
Definition op_ok (who : Who) (s : Server) (op : Op) : Prop :=
  match op with
  | AcceptLoop _ | LookupTls _ _ | CreateServer _ => who = LoopThread 0
  | CallFactory _ l _ => (l = loops /\ who = LoopThread 0) \/ ((l < loops)%nat /\ who = LoopThread l)
  | FinishOk _ l _ => (l < loops)%nat /\ who = LoopThread l
  | InsertConn fd id l => ((l < loops)%nat /\ is_loop who) /\ conn_is s id (fun k => (desc k).1 = fd /\ cloop k = l /\ ckind k <> Coro)
  | EraseConn _ => is_loop who
  | IncrementConns l | DecrementConns l => (l < loops)%nat
  | Advance id _ => conn_is s id (fun k => ckind k = Handshake /\ who = LoopThread (cloop k))
  | PostStart id l => (l < loops)%nat /\ conn_is s id (fun k => ckind k = Handshake /\ cloop k = l)
  | HandleConnection id | RunHandler id => conn_is s id (fun k => ckind k = Coro)
  | ShutdownConn id => conn_is s id (fun k => ckind k <> Coro /\ who = LoopThread (cloop k))
  | ShutdownConns ids => Forall (fun id => conn_is s id (fun k => ckind k <> Coro /\ who = LoopThread (cloop k))) ids
  | _ => True
  end.

Definition shared_ok (s : Server) : Prop :=
  Forall (fun k => (cloop k < loops)%nat) (conns s) /\ Forall (op_ok Worker s) (tasks s) /\ Forall (fun op => match op with HandleConnection _ | RunHandler _ => True | _ => False end) (tasks s) /\
  Forall (fun e => (e.1 < loops)%nat /\ op_ok (LoopThread e.1) s e.2) (posted s) /\
  map_Forall (fun fd e => (e.2 < loops)%nat /\ conn_is s e.1 (fun k => (desc k).1 = fd /\ cloop k = e.2 /\ ckind k <> Coro)) (reactor_connections s).

Definition well_placed (t : System) : Prop := shared_ok (server t) /\ Forall (fun p => Forall (op_ok p.1 (server t)) p.2) (progs t).

(** Connections are added, and retired; nothing else about them changes. *)
Definition grows (s s' : Server) : Prop := forall id k, conns s !! id = Some k -> exists k', conns s' !! id = Some k' /\ desc k' = desc k /\ cloop k' = cloop k /\ ckind k' = ckind k.

Lemma grows_refl s s' : conns s' = conns s -> grows s s'.
Proof. intros E id k H. exists k. by rewrite E. Qed.

Lemma grows_trans s1 s2 s3 : grows s1 s2 -> grows s2 s3 -> grows s1 s3.
Proof. intros H1 H2 id k H. destruct (H1 id k H) as (k1 & E1 & ? & ? & ?). destruct (H2 id k1 E1) as (k2 & E2 & ? & ? & ?). exists k2. split_and!; congruence. Qed.

Lemma retire_grows id s : grows s (retire id s).
Proof.
  intros id' k H. unfold retire. destruct (conns s !! id) as [k0|] eqn:E; [|by exists k]. cbn. destruct (decide (id' = id)) as [->|Hne].
  - eexists. rewrite list_lookup_insert_eq by (by eapply lookup_lt_Some). split; [done|]. by simplify_eq.
  - exists k. by rewrite list_lookup_insert_ne.
Qed.

Lemma new_conn_grows c s : grows s (new_conn c s).2.
Proof. intros id k H. exists k. cbn. split; [|done]. by apply lookup_app_l_Some. Qed.

Lemma grows_conn_is s s' id (P : Conn -> Prop) : grows s s' -> (forall k k', desc k' = desc k -> cloop k' = cloop k -> ckind k' = ckind k -> P k -> P k') -> conn_is s id P -> conn_is s' id P.
Proof. intros Hg HP (k & E & H). destruct (Hg id k E) as (k' & E' & K1 & K2 & K3). exists k'. split; [done|]. by apply (HP k). Qed.

Lemma op_ok_grows who s s' op : grows s s' -> op_ok who s op -> op_ok who s' op.
Proof.
  intros Hg. destruct op; cbn; try done; try (apply grows_conn_is; [done|]; intros k k' E1 E2 E3; cbn; by rewrite ?E1, ?E2, ?E3); try (intros [H1 H2]; split; [done|]; revert H2; apply grows_conn_is; [done|]; intros k k' E1 E2 E3; cbn; by rewrite ?E1, ?E2, ?E3).
  intros H. eapply Forall_impl; [exact H|]. intros id. apply grows_conn_is; [done|]. intros k k' E1 E2 E3; cbn; by rewrite ?E1, ?E2, ?E3.
Qed.

Lemma shared_ok_keep s s' : grows s s' -> Forall (fun k => (cloop k < loops)%nat) (conns s') -> tasks s' = tasks s -> posted s' = posted s -> reactor_connections s' = reactor_connections s -> shared_ok s -> shared_ok s'.
Proof.
  intros Hg Hc E1 E2 E3 (H1 & H2 & H2' & H3 & H4). unfold shared_ok. rewrite E1, E2, E3. split_and!; [done| |done| |].
  - eapply Forall_impl; [exact H2|]. intros op. by apply op_ok_grows.
  - eapply Forall_impl; [exact H3|]. intros e [? ?]. split; [done|]. by eapply op_ok_grows.
  - intros fd e E. destruct (H4 fd e E) as [? H5]. split; [done|]. eapply grows_conn_is; [done| |exact H5]. intros k k' D1 D2 D3; cbn; by rewrite ?D1, ?D2, ?D3.
Qed.

Lemma retire_ok id s : shared_ok s -> shared_ok (retire id s).
Proof.
  intros H. unfold retire. destruct (conns s !! id) as [k|] eqn:E; [|done]. eapply shared_ok_keep; [| | | | |exact H]; try done.
  - pose proof (retire_grows id s) as G. unfold retire in G. by rewrite E in G.
  - cbn. destruct H as (H & _). apply Forall_insert; [done|]. cbn. by eapply Forall_lookup_1 in H.
Qed.

Lemma serversafety_new_conn_ok c s : (cloop c < loops)%nat -> shared_ok s -> shared_ok (new_conn c s).2 /\ conn_is (new_conn c s).2 (new_conn c s).1 (eq c).
Proof.
  intros Hc H. split.
  - eapply shared_ok_keep; [apply new_conn_grows| | | | |exact H]; try done. cbn. apply Forall_app. split; [apply H|by constructor].
  - exists c. cbn. split; [|done]. by rewrite lookup_app_r, Nat.sub_diag by lia.
Qed.

Lemma pick_ok s : let '(l, s') := pick_accept_loop loops s in (l < loops)%nat /\ grows s s' /\ (shared_ok s -> shared_ok s').
Proof.
  unfold pick_accept_loop. destruct (Nat.eqb_spec loops 1).
  - split_and!; [lia|by apply grows_refl|done].
  - split_and!; [|by apply grows_refl|intros H; eapply shared_ok_keep; [by apply grows_refl|apply H|done..|exact H]]. pose proof (Z.mod_pos_bound (next_accept_loop s) (Z.of_nat loops) ltac:(lia)). lia.
Qed.

(** [ops'] and [s'] are fine after a step of [who] in [s]. *)
Definition placed (who : Who) (s : Server) (r : list Op * Server) : Prop := Forall (op_ok who r.2) r.1 /\ shared_ok r.2 /\ grows s r.2.

Lemma tls_accept_placed d c s : shared_ok s -> placed (LoopThread 0) s (tls_accept loops has_factory d c s).
Proof.
  intros H. unfold tls_accept. destruct (says_yes c); [|split_and!; [by repeat constructor|done|by apply grows_refl]].
  assert (H' : let '(l, s') := if has_factory then pick_accept_loop loops s else (0%nat, s) in (l < loops)%nat /\ grows s s' /\ shared_ok s').
  { destruct has_factory; [|split_and!; [done|by apply grows_refl|done]]. pose proof (pick_ok s) as K. destruct (pick_accept_loop loops s). naive_solver. }
  destruct (if has_factory then _ else _) as [l s1]. destruct H' as (Hl & Hg & H1). destruct (serversafety_new_conn_ok (mkConn d l Handshake true) s1 Hl H1) as [K1 K2]. pose proof (new_conn_grows (mkConn d l Handshake true) s1) as K3.
  destruct (new_conn _ s1) as [id s2]. cbn [fst snd] in *. destruct K2 as (k & E & <-). split_and!; [|done|by eapply grows_trans].
  repeat constructor; cbn; [done|by eexists|]. destruct (Nat.eqb_spec l 0) as [->|]; cbn; [by eexists|split; [done|by eexists]].
Qed.

Lemma call_factory_placed who d l caught c s : is_loop who -> shared_ok s -> (l = loops \/ (l < loops)%nat) -> placed who s (call_factory loops d l caught c s).
Proof.
  intros Hwho H Hl. unfold call_factory.
  assert (H' : let '(l', s') := if (l =? loops)%nat then pick_accept_loop loops s else (l, s) in (l' < loops)%nat /\ grows s s' /\ shared_ok s').
  { destruct (Nat.eqb_spec l loops); [|split_and!; [lia|by apply grows_refl|done]]. pose proof (pick_ok s) as K. destruct (pick_accept_loop loops s). naive_solver. }
  destruct (if (l =? loops)%nat then _ else _) as [l' s1]. destruct H' as (Hl' & Hg & H1).
  assert (Hthr : placed who s (factory_throws d caught c s1)).
  { unfold factory_throws. assert (Hcl : grows s1 (close_fd d s1) /\ shared_ok (close_fd d s1)) by (unfold close_fd; case_match; (split; [by apply grows_refl|]); (eapply shared_ok_keep; [by apply grows_refl|apply H1|done..|exact H1])).
    destruct Hcl as [Hc1 Hc2]. destruct (throws c), caught; (split_and!; [by repeat constructor|done|]); (done || by eapply grows_trans). }
  destruct (throws c); [|exact Hthr..]. destruct (says_yes c); [|split_and!; [by repeat constructor|done|done]].
  destruct (serversafety_new_conn_ok (mkConn d l' Reactor true) s1 Hl' H1) as [K1 K2]. pose proof (new_conn_grows (mkConn d l' Reactor true) s1) as K3.
  destruct (new_conn _ s1) as [id s2]. cbn [fst snd] in *. destruct K2 as (k & E & <-). split_and!; [|done|by eapply grows_trans]. constructor; [split; [done|by eexists]|by repeat constructor].
Qed.

Lemma retire_placed who id s ops : shared_ok s -> Forall (op_ok who s) ops -> placed who s (ops, retire id s).
Proof. intros H Ho. split_and!; [|by apply retire_ok|apply retire_grows]. eapply Forall_impl; [exact Ho|]. intros op. by apply op_ok_grows, retire_grows. Qed.

Lemma conn_loop_ok s id k : shared_ok s -> conns s !! id = Some k -> (cloop k < loops)%nat.
Proof. intros (H & _) E. by eapply Forall_lookup_1 in H. Qed.

Lemma placed_same who s ops : shared_ok s -> Forall (op_ok who s) ops -> placed who s (ops, s).
Proof. intros H Ho. split_and!; [done|done|by apply grows_refl]. Qed.

Lemma advance_placed id caught c s k : shared_ok s -> conns s !! id = Some k -> placed (LoopThread (cloop k)) s (advance id caught c s).
Proof.
  intros H E. pose proof (conn_loop_ok _ _ _ H E) as Hl. unfold advance. rewrite E. destruct (alive k); cbn [negb]; [|by apply placed_same]. destruct (handshakes c); [|by apply placed_same|]; (apply retire_placed; [done|by repeat constructor]).
Qed.

Lemma shutdown_conn_placed id s k : shared_ok s -> conns s !! id = Some k -> placed (LoopThread (cloop k)) s (shutdown_conn id s).
Proof.
  intros H E. pose proof (conn_loop_ok _ _ _ H E) as Hl. unfold shutdown_conn. rewrite E. destruct (alive k); cbn [negb]; [|by apply placed_same]. destruct (ckind k); [| |by apply placed_same]; (apply retire_placed; [done|by repeat constructor]).
Qed.

Lemma close_socket_placed who id s : shared_ok s -> placed who s (close_socket id s).
Proof. intros H. unfold close_socket. destruct (conns s !! id) as [k|]; [|by apply placed_same]. destruct (alive k); [|by apply placed_same]. apply retire_placed; [done|by repeat constructor]. Qed.

Lemma placed_tasks who s s1 ops op : placed who s (ops, s1) -> (forall s', grows s s' -> op_ok Worker s' op) -> (match op with HandleConnection _ | RunHandler _ => True | _ => False end) ->
  placed who s (ops, set_tasks (tasks s1 ++ [op]) s1).
Proof.
  intros (H1 & (K1 & K2 & K2' & K3 & K4) & H3) Hop Hm. cbn [fst snd] in *. assert (G : grows s1 (set_tasks (tasks s1 ++ [op]) s1)) by by apply grows_refl.
  split_and!; [|split_and!; [done| | |done|done]|by eapply grows_trans]; cbn.
  - eapply Forall_impl; [exact H1|]. intros o. by apply op_ok_grows.
  - apply Forall_app. split; [|by constructor; [apply Hop; by eapply grows_trans|]]. eapply Forall_impl; [exact K2|]. intros o. by apply op_ok_grows.
  - apply Forall_app. split; [done|by constructor].
Qed.

Lemma run_handler_placed who id c s k : shared_ok s -> conns s !! id = Some k -> ckind k = Coro -> placed who s (run_handler id c s).
Proof.
  intros H E Hk. unfold run_handler. rewrite E. assert (H' : placed who s (if says_yes c then close_socket id s else ([], s))) by (destruct (says_yes c); [by apply close_socket_placed|by apply placed_same]).
  destruct (if says_yes c then _ else _) as [l s1]. pose proof H' as (G1 & G2 & G3). cbn [fst snd] in *. destruct (close_socket_placed who id s1 G2) as (J1 & J2 & J3). destruct (close_socket id s1) as [l2 s2]. cbn [fst snd] in *.
  assert (K : placed who s (l ++ l2 ++ [DelClient (desc k).1; SubActive; DecrementConns 0], s2)).
  { split_and!; [|done|by eapply grows_trans]. cbn. apply Forall_app. split; [eapply Forall_impl; [exact G1|]; intros o; by apply op_ok_grows|]. apply Forall_app. split; [done|by repeat constructor]. }
  destruct (handshakes c); [exact K| |exact K]. apply placed_tasks; [done| |done]. intros s' Hg. destruct (Hg id k E) as (k' & E' & _ & _ & Ek). exists k'. by rewrite Ek.
Qed.

(** A piece that touches neither connections, nor queues, nor the registry. *)
Lemma placed_keep who s s' ops : conns s' = conns s -> tasks s' = tasks s -> posted s' = posted s -> reactor_connections s' = reactor_connections s -> shared_ok s -> Forall (op_ok who s') ops -> placed who s (ops, s').
Proof. intros E1 E2 E3 E4 H Ho. split_and!; [done| |by apply grows_refl]. cbn [fst snd]. eapply shared_ok_keep; [by apply grows_refl|rewrite E1; apply H|done..|exact H]. Qed.

Lemma swap_conns_ok s : shared_ok s -> shared_ok (swap_conns loops s).
Proof.
  intros (H1 & H2 & H2' & H3 & H4). unfold swap_conns. split_and!; [done| |done| |done].
  - eapply Forall_impl; [exact H2|]. intros op. by apply op_ok_grows, grows_refl.
  - cbn. apply Forall_app. split; [eapply Forall_impl; [exact H3|]; intros e [? ?]; split; [done|]; eapply op_ok_grows; [by apply grows_refl|done]|].
    apply Forall_forall. intros [l op] (l' & Hl & E)%list_elem_of_omap. destruct (by_ctx l' _) as [|id ids] eqn:Eb; [done|]. injection E as <- <-. apply elem_of_seq in Hl. cbn. split; [lia|].
    rewrite <- Eb. apply Forall_forall. intros id' ([id2 l2] & He & E)%list_elem_of_omap. cbn in E. destruct (Nat.eqb_spec l2 l') as [->|]; [|done]. injection E as <-. apply list_elem_of_fmap in He as ([fd [id3 l3]] & E & He). injection E as -> ->.
    apply elem_of_map_to_list in He. destruct (H4 fd _ He) as [_ (k & Ek & _ & El & Hk)]. cbn in El. exists k. by rewrite El.
Qed.

Lemma shared_ok_registry s m : shared_ok s -> map_Forall (fun fd e => (e.2 < loops)%nat /\ conn_is s e.1 (fun k => (desc k).1 = fd /\ cloop k = e.2 /\ ckind k <> Coro)) m -> shared_ok (set_reactor_connections m s).
Proof.
  intros (H1 & H2 & H2' & H3 & _) Hm. assert (G : grows s (set_reactor_connections m s)) by by apply grows_refl. split_and!; [done| |done| |done].
  - eapply Forall_impl; [exact H2|]. intros op. by apply op_ok_grows.
  - eapply Forall_impl; [exact H3|]. intros e [? ?]. split; [done|]. by eapply op_ok_grows.
Qed.

Lemma post_ok l op s : (l < loops)%nat -> op_ok (LoopThread l) s op -> shared_ok s -> shared_ok (post l op s).
Proof.
  intros Hl Ho (H1 & H2 & H2' & H3 & H4). assert (G : grows s (post l op s)) by by apply grows_refl. split_and!; [done| |done| |done].
  - eapply Forall_impl; [exact H2|]. intros o. by apply op_ok_grows.
  - cbn. apply Forall_app. split; [eapply Forall_impl; [exact H3|]; intros e [? ?]; split; [done|]; by eapply op_ok_grows|]. constructor; [|done]. split; [done|]. by eapply op_ok_grows.
Qed.

Ltac keep := first [apply placed_keep; try done; by repeat constructor].

Lemma exec_placed who op c s : shared_ok s -> op_ok who s op -> placed who s (exec op c s).
Proof.
  intros H Ho. destruct op; cbn [Server.exec]; cbn [op_ok] in Ho; try keep.
  - subst who. unfold accept_loop. destruct (running s); [|keep]. destruct (accepts c); [|keep..]. unfold open_fd. keep.
  - unfold cleanup_listen. destruct (list_find _ _) as [[i d]|]; keep.
  - subst who. unfold lookup_tls. apply placed_same; [done|]. case_match; [by repeat constructor|]. destruct has_factory; by repeat constructor.
  - subst who. by apply tls_accept_placed.
  - apply call_factory_placed; [by destruct Ho as [[_ ->]|[_ ->]]|done|]. destruct Ho as [[-> _]|[? _]]; [by left|by right].
  - destruct (serversafety_new_conn_ok (mkConn fd 0 Coro true) s Hloops H) as [K1 K2]. pose proof (new_conn_grows (mkConn fd 0 Coro true) s) as K3. unfold schedule_connection. destruct (new_conn _ s) as [id s1]. cbn [fst snd] in *.
    assert (P : placed who s1 ([], set_tasks (tasks s1 ++ [HandleConnection id]) s1)). { apply placed_tasks; [by apply placed_same| |done]. intros s' G. destruct K2 as (k & E & <-). destruct (G id _ E) as (k' & E' & _ & _ & Ek). by exists k'. }
    destruct P as (P1 & P2 & P3). split_and!; [done|done|by eapply grows_trans].
  - split_and!; [done| |by apply grows_refl]. apply shared_ok_registry; [done|]. apply map_Forall_insert_2; [by destruct Ho as [[? ?] ?]|apply H].
  - split_and!; [done| |by apply grows_refl]. apply shared_ok_registry; [done|]. apply map_Forall_delete, H.
  - destruct Ho as (k & E & Hk & ->). by apply advance_placed.
  - destruct Ho as (Hl & k & E & Hk & Ek). split_and!; [done| |by apply grows_refl]. apply post_ok; [done| |done]. exists k. by rewrite Ek.
  - destruct Ho as [Hl ->]. unfold finish_ok. destruct has_factory; (apply placed_same; [done|]); (constructor; [|done]); [by right|done].
  - unfold close_fd. case_match; keep.
  - destruct Ho as (k & E & Hk). unfold handle_connection. rewrite E. destruct has_handler; [apply placed_same; [done|]; repeat constructor; try done; by exists k|]. destruct (alive k); [|by apply placed_same]. apply retire_placed; [done|by repeat constructor].
  - destruct Ho as (k & E & Hk). by eapply run_handler_placed.
  - apply placed_keep; try done. apply Forall_forall. intros op (d & -> & _)%list_elem_of_fmap. done.
  - split_and!; [done|by apply swap_conns_ok|by apply grows_refl].
  - apply placed_same; [done|]. apply Forall_forall. intros op (id & -> & Hid)%list_elem_of_fmap. rewrite Forall_forall in Ho. by apply Ho.
  - destruct Ho as (k & E & Hk & ->). by apply shutdown_conn_placed.
Qed.

Lemma shared_ok_queues s tk po : shared_ok s -> Forall (op_ok Worker s) tk -> Forall (fun op => match op with HandleConnection _ | RunHandler _ => True | _ => False end) tk ->
  Forall (fun e => (e.1 < loops)%nat /\ op_ok (LoopThread e.1) s e.2) po -> shared_ok (set_posted po (set_tasks tk s)).
Proof.
  intros (H1 & H2 & H2' & H3 & H4) Ht Ht' Hp. assert (G : grows s (set_posted po (set_tasks tk s))) by by apply grows_refl. split_and!; [done| |done| |done].
  - eapply Forall_impl; [exact Ht|]. intros op. by apply op_ok_grows.
  - eapply Forall_impl; [exact Hp|]. intros e [? ?]. split; [done|]. by eapply op_ok_grows.
Qed.

Lemma event_placed workers who e s r : shared_ok s -> event workers who e s = Some r -> placed who s r.
Proof.
  intros H E. pose proof H as (H1 & H2 & H2' & H3 & H4). destruct e; cbn [event] in E.
  - unfold on_loop in E. destruct (bool_decide_reflect (who = LoopThread 0)) as [->|]; [|done]. case_match; simplify_eq. keep.
  - apply bind_Some in E as (k & Ek & E). unfold on_loop in E. destruct (bool_decide_reflect (who = LoopThread (cloop k))) as [->|]; [|done]. destruct (alive k); [|done]. cbn [andb] in E. destruct (bool_decide_reflect (ckind k = Handshake)); [|done].
    injection E as <-. apply placed_same; [done|]. repeat constructor. by exists k.
  - apply bind_Some in E as (k & Ek & E). unfold on_loop in E. destruct (bool_decide_reflect (who = LoopThread (cloop k))) as [->|]; [|done]. destruct (true && alive k && _); [|done]. injection E as <-. pose proof (conn_loop_ok _ _ _ H Ek). apply retire_placed; [done|by repeat constructor].
  - destruct who as [l| |]; [|done..]. apply bind_Some in E as ([i [l' op]] & Ei & E). injection E as <-. apply list_find_Some in Ei as (Ei & El & _). cbn in El. subst l'. pose proof (Forall_lookup_1 _ _ _ _ H3 Ei) as [_ Hop].
    split_and!; [| |by apply grows_refl]; cbn [fst snd]; [constructor; [|done]; eapply op_ok_grows; [by apply grows_refl|done]|]. eapply (shared_ok_queues s (tasks s)); [done|done|done|]. by apply Forall_delete.
  - apply bind_Some in E as (op & Ei & E). destruct (runs_tasks workers who); [|done]. injection E as <-. pose proof (Forall_lookup_1 _ _ _ _ H2 Ei) as Hop. pose proof (Forall_lookup_1 _ _ _ _ H2' Ei) as Hop'. cbn in Hop'.
    split_and!; [| |by apply grows_refl]; cbn [fst snd]; [constructor; [|done]; eapply op_ok_grows; [by apply grows_refl|]; by destruct op|]. eapply (shared_ok_queues s _ (posted s)); [done| | |done]; by apply Forall_delete.
  - case_match; [|done]. unfold open_fd in E. injection E as <-. apply placed_keep; try done. destruct bound, tls; by repeat constructor.
  - case_match; [|done]. injection E as <-. apply placed_same; [done|]. by repeat constructor.
Qed.

Lemma well_placed_step t s' n who ops r ops0 : well_placed t -> progs t !! n = Some (who, ops0) -> placed who (server t) r -> r.2 = s' -> Forall (op_ok who (server t)) ops -> well_placed (mkSystem s' (<[n := (who, r.1 ++ ops)]> (progs t))).
Proof.
  intros [H1 H2] Hp (K1 & K2 & K3) <- Hops. split; [done|]. cbn. apply Forall_insert.
  - eapply Forall_impl; [exact H2|]. intros p Hp'. eapply Forall_impl; [exact Hp'|]. intros op. by apply op_ok_grows.
  - cbn. apply Forall_app. split; [done|]. eapply Forall_impl; [exact Hops|]. intros op. by apply op_ok_grows.
Qed.

Lemma step_well_placed workers t t' : step workers t t' -> well_placed t -> well_placed t'.
Proof.
  intros Hs H. pose proof H as [H1 H2]. destruct Hs as [t n who op ops c ops' s' Hp Hk Hm E|t n who e ops' s' Hp E]; pose proof (Forall_lookup_1 _ _ _ _ H2 Hp) as Ho; cbn in Ho.
  - apply Forall_cons in Ho as [Ho Hops]. pose proof (exec_placed who op c _ H1 Ho) as K. rewrite E in K. destruct (go_on_exec _ _ _ _ _ _ ops _ _ E) as [-> |(held & _ & -> & ->)]; [by eapply (well_placed_step t s' n who ops (ops', s'))|by eapply (well_placed_step t s' n who [] ([], s'))].
  - pose proof (event_placed workers who e _ _ H1 E) as K. rewrite <- (app_nil_r ops'). by eapply (well_placed_step t s' n who [] (ops', s')).
Qed.

Lemma new_well_placed others : well_placed (new_system loops others).
Proof. split; [by split_and!|]. cbn. apply Forall_app. split; apply Forall_forall; intros p (x & -> & _)%list_elem_of_fmap; done. Qed.

Lemma reachable_well_placed workers others t : reachable loops has_factory has_handler manners workers others t -> well_placed t.
Proof. intros H. pose proof (new_well_placed others) as K. revert K. induction H as [|t1 t2 t3 Hs _ IH]; [done|]. intros K. apply IH. by eapply step_well_placed. Qed.
End TypingProof.

(** C16: Every piece of code that is waiting to be executed, on a thread, posted
    to a loop or scheduled, refers to connections that exist and are of the
    kind it handles, and to loops that exist; every entry of the registry is
    an existing connection under its own descriptor and loop; and a handshake
    or a reactor connection is driven and shut down by the thread of the loop
    it was pinned to and by no other. *)
Theorem handlers_on_their_loop loops has_factory has_handler manners workers others t : (0 < loops)%nat -> reachable loops has_factory has_handler manners workers others t -> well_placed loops t.
Proof. intros Hl H. by eapply reachable_well_placed. Qed.

(** ** Gauges *)

Section GaugeProof.
Context (loops : nat) (has_factory has_handler : bool) (manners : Manners).
Hypothesis Hloops : (0 < loops)%nat.
Abbreviation exec := (exec loops has_factory has_handler).
Abbreviation step := (step loops has_factory has_handler manners).

Fixpoint total {A : Type} (f : A -> Z) (l : list A) : Z := match l with [] => 0 | x :: l => f x + total f l end.

(** What a piece of code will still do to the gauge of loop [l]; a running
    handler will decrement that of loop 0 once, and [active_connections_]. *)
Definition owes (l : nat) (op : Op) : Z :=
  match op with
  | IncrementConns l' => if (l' =? l)%nat then 1 else 0
  | DecrementConns l' => if (l' =? l)%nat then -1 else 0
  | RunHandler _ => if (l =? 0)%nat then -1 else 0
  | _ => 0
  end.

Definition owes_active (op : Op) : Z := match op with AddActive => 1 | SubActive => -1 | RunHandler _ => -1 | _ => 0 end.

(** The connections open on loop [l]. *)
Definition counts (l : nat) (k : Conn) : Z := if alive k && bool_decide (ckind k = Reactor) && (cloop k =? l)%nat then 1 else 0.
Definition connected (l : nat) (s : Server) : Z := total (counts l) (conns s).

Definition owed (f : Op -> Z) (t : System) : Z := total (fun p => total f p.2) (progs t) + total f (tasks (server t)) + total f (posted (server t)).*2.

Lemma total_app {A : Type} (f : A -> Z) l k : total f (l ++ k) = total f l + total f k.
Proof. induction l as [|x l IH]; cbn; lia. Qed.

Lemma total_insert {A : Type} (f : A -> Z) l i x y : l !! i = Some x -> total f (<[i := y]> l) = total f l - f x + f y.
Proof. revert i. induction l as [|z l IH]; intros [|i] E; cbn in *; simplify_eq; [lia|]. rewrite IH by done. lia. Qed.

Lemma total_delete {A : Type} (f : A -> Z) l i x : l !! i = Some x -> total f (delete i l) = total f l - f x.
Proof. revert i. induction l as [|z l IH]; intros [|i] E; cbn in *; simplify_eq; [lia|]. rewrite IH by done. lia. Qed.

Lemma connected_retire l id k s : conns s !! id = Some k -> connected l (retire id s) = connected l s - counts l k.
Proof. intros E. unfold connected, retire. rewrite E. cbn. rewrite (total_insert _ _ _ k) by done. unfold counts at 3. cbn. lia. Qed.

Lemma connected_new l c s : connected l (new_conn c s).2 = connected l s + counts l c.
Proof. unfold connected, new_conn. cbn. rewrite total_app. cbn. lia. Qed.

(** A gauge, what is still to happen to it, and what it counts. *)
Definition balance (l : nat) (ops : list Op) (s : Server) : Z := gauge l s + total (owes l) ops + total (owes l) (tasks s) + total (owes l) (posted s).*2 - connected l s.
Definition balance_active (ops : list Op) (s : Server) : Z := active_connections s + total owes_active ops + total owes_active (tasks s) + total owes_active (posted s).*2.

Definition kept_balance (ops : list Op) (s : Server) (r : list Op * Server) : Prop :=
  (forall l, exists z, balance l r.1 r.2 = balance l ops s + z * 2 ^ 64) /\ balance_active r.1 r.2 = balance_active ops s.

Lemma kept_exact ops s r : (forall l, balance l r.1 r.2 = balance l ops s) -> balance_active r.1 r.2 = balance_active ops s -> kept_balance ops s r.
Proof. intros H1 H2. split; [|done]. intros l. exists 0. rewrite H1. lia. Qed.

Lemma kept_trans ops s r r' : kept_balance ops s r -> kept_balance r.1 r.2 r' -> kept_balance ops s r'.
Proof. intros [H1 H2] [K1 K2]. split; [|congruence]. intros l. destruct (H1 l) as [z E]. destruct (K1 l) as [z' E']. exists (z + z'). rewrite E', E. lia. Qed.

(** Only these parts of the state matter. *)
Lemma kept_state ops s ops' s' : gauges s' = gauges s -> conns s' = conns s -> tasks s' = tasks s -> posted s' = posted s -> active_connections s' = active_connections s ->
  (forall l, total (owes l) ops' = total (owes l) ops) -> total owes_active ops' = total owes_active ops -> kept_balance ops s (ops', s').
Proof. intros E1 E2 E3 E4 E5 Ho Ha. apply kept_exact; [intros l|]; unfold balance, balance_active, gauge, connected; cbn [fst snd]; rewrite ?E1, ?E2, ?E3, ?E4, ?E5, ?Ho, ?Ha; done. Qed.

Lemma pick_kept ops s : kept_balance ops s (ops, (pick_accept_loop loops s).2).
Proof. unfold pick_accept_loop. destruct (loops =? 1)%nat; by apply kept_state. Qed.

Lemma new_conn_kept ops ops' c s : (forall l, total (owes l) ops' = total (owes l) ops + counts l c) -> total owes_active ops' = total owes_active ops -> kept_balance ops s (ops', (new_conn c s).2).
Proof.
  intros Ho Ha. apply kept_exact; [intros l|]; unfold balance, balance_active; cbn [fst snd]; rewrite ?connected_new; unfold gauge; cbn; [rewrite Ho|rewrite Ha]; lia.
Qed.

Lemma retire_kept ops ops' id k s : conns s !! id = Some k -> (forall l, total (owes l) ops' = total (owes l) ops - counts l k) -> total owes_active ops' = total owes_active ops -> kept_balance ops s (ops', retire id s).
Proof.
  intros E Ho Ha. assert (Hr : gauges (retire id s) = gauges s /\ tasks (retire id s) = tasks s /\ posted (retire id s) = posted s /\ active_connections (retire id s) = active_connections s) by (unfold retire; by rewrite E).
  destruct Hr as (R1 & R2 & R3 & R4). apply kept_exact; [intros l|]; unfold balance, balance_active, gauge; cbn [fst snd]; rewrite ?(connected_retire l id k s E), ?R1, ?R2, ?R3, ?R4, ?Ho, ?Ha; lia.
Qed.

Lemma counts_other k l : ckind k <> Reactor -> counts l k = 0.
Proof. intros H. unfold counts. rewrite (bool_decide_false (ckind k = Reactor)) by done. by rewrite andb_false_r. Qed.

Lemma counts_dead k l : alive k = false -> counts l k = 0.
Proof. intros H. unfold counts. by rewrite H. Qed.

Lemma counts_reactor k l : ckind k = Reactor -> alive k = true -> counts l k = if (cloop k =? l)%nat then 1 else 0.
Proof. intros H1 H2. unfold counts. by rewrite H1, H2. Qed.

Lemma adjust_kept ops ops' l0 d s : (forall l, total (owes l) ops = total (owes l) ops' + if (l0 =? l)%nat then d else 0) -> total owes_active ops' = total owes_active ops -> kept_balance ops s (ops', adjust l0 d s).
Proof.
  intros Ho Ha. split; [|unfold balance_active; cbn; lia]. intros l. unfold balance. cbn [fst snd]. change (tasks (adjust l0 d s)) with (tasks s). change (posted (adjust l0 d s)) with (posted s). change (connected l (adjust l0 d s)) with (connected l s).
  unfold gauge at 1. change (gauges (adjust l0 d s)) with (<[l0 := u64 (gauge l0 s + d)]> (gauges s)). rewrite Ho. destruct (Nat.eqb_spec l0 l) as [->|Hne].
  - rewrite lookup_insert_eq. cbn [default id]. unfold u64, wrap. exists (- ((gauge l s + d) / 2 ^ 64)). pose proof (Z.div_mod (gauge l s + d) (2 ^ 64) ltac:(lia)). lia.
  - rewrite lookup_insert_ne by done. exists 0. unfold gauge. lia.
Qed.

Lemma total_zero {A : Type} (f : A -> Z) l : Forall (fun x => f x = 0) l -> total f l = 0.
Proof. induction 1 as [|x l H _ IH]; cbn; lia. Qed.

Lemma total_map_zero {A B : Type} (f : B -> Z) (g : A -> B) l : (forall x, f (g x) = 0) -> total f (map g l) = 0.
Proof. intros H. induction l as [|x l IH]; cbn; [done|]. rewrite H. lia. Qed.

Lemma task_kept ops op s : kept_balance (op :: ops) s (ops, set_tasks (tasks s ++ [op]) s).
Proof.
  apply kept_exact; [intros l|]; unfold balance, balance_active; cbn [fst snd total].
  - change (tasks (set_tasks (tasks s ++ [op]) s)) with (tasks s ++ [op]). rewrite total_app. cbn [total]. change (posted (set_tasks (tasks s ++ [op]) s)) with (posted s). change (connected l (set_tasks (tasks s ++ [op]) s)) with (connected l s). change (gauge l (set_tasks (tasks s ++ [op]) s)) with (gauge l s). lia.
  - cbn. rewrite total_app. cbn [total]. lia.
Qed.

Lemma posts_kept ops ops' es s : (forall l, total (owes l) ops = total (owes l) ops' + total (owes l) es.*2) -> total owes_active ops = total owes_active ops' + total owes_active es.*2 -> kept_balance ops s (ops', set_posted (posted s ++ es) s).
Proof.
  intros Ho Ha. apply kept_exact; [intros l|]; unfold balance, balance_active; cbn [fst snd].
  - change (posted (set_posted (posted s ++ es) s)) with (posted s ++ es). rewrite fmap_app, total_app, Ho. change (tasks (set_posted (posted s ++ es) s)) with (tasks s). change (connected l (set_posted (posted s ++ es) s)) with (connected l s). change (gauge l (set_posted (posted s ++ es) s)) with (gauge l s). lia.
  - cbn. rewrite fmap_app, total_app, Ha. lia.
Qed.

Lemma tls_accept_kept d c s : kept_balance [CreateServer d] s (tls_accept loops has_factory d c s).
Proof.
  unfold tls_accept. destruct (says_yes c); [|by apply kept_state].
  assert (H : kept_balance [CreateServer d] s ([CreateServer d], (if has_factory then pick_accept_loop loops s else (0%nat, s)).2)) by (destruct has_factory; [apply pick_kept|by apply kept_state]).
  destruct (if has_factory then _ else _) as [l s1]. eapply kept_trans; [exact H|]. cbn [fst snd]. apply (new_conn_kept _ _ (mkConn d l Handshake true)); [intros l'; rewrite counts_other by done|]; by destruct (l =? 0)%nat.
Qed.

Lemma close_fd_kept ops d s : kept_balance ops s (ops, close_fd d s).
Proof. unfold close_fd. case_match; by apply kept_state. Qed.

Lemma factory_throws_kept op d caught c s : (forall l, owes l op = 0) -> owes_active op = 0 -> kept_balance [op] s (factory_throws d caught c s).
Proof.
  intros Ho Ha. assert (K : forall held s', kept_balance [op] s ([op], s') -> kept_balance [op] s (if caught then [CloseFd d] else [Escape held], s')).
  { intros held s' H. eapply kept_trans; [exact H|]. apply kept_state; try done; [intros l|]; cbn [fst snd]; destruct caught; cbn; rewrite ?Ho, ?Ha; done. }
  unfold factory_throws. destruct (throws c); apply K; try (by apply kept_state). apply close_fd_kept.
Qed.

Lemma call_factory_kept d l caught c s : kept_balance [CallFactory d l caught] s (call_factory loops d l caught c s).
Proof.
  unfold call_factory. assert (H : kept_balance [CallFactory d l caught] s ([CallFactory d l caught], (if (l =? loops)%nat then pick_accept_loop loops s else (l, s)).2)) by (destruct (l =? loops)%nat; [apply pick_kept|by apply kept_state]).
  destruct (if (l =? loops)%nat then _ else _) as [l1 s1]. eapply kept_trans; [exact H|]. cbn [fst snd]. destruct (throws c); [|by apply factory_throws_kept..]. destruct (says_yes c); [|by apply kept_state].
  apply (new_conn_kept _ _ (mkConn d l1 Reactor true)); [intros l'; rewrite counts_reactor by done|done]. cbn. by destruct (l1 =? l')%nat.
Qed.

Lemma hs_kept op id k s ops : (forall l, owes l op = 0) -> owes_active op = 0 -> conns s !! id = Some k -> ckind k <> Reactor -> (forall l, total (owes l) ops = 0) -> total owes_active ops = 0 -> kept_balance [op] s (ops, retire id s).
Proof. intros Ho Ha E Hk Hl Hs. apply (retire_kept _ _ id k); [done|intros l; rewrite counts_other by done|]; cbn; rewrite ?Ho, ?Ha, ?Hl, ?Hs; done. Qed.

Lemma serversafety_close_kept op id k s : (forall l, owes l op = 0) -> owes_active op = 0 -> conns s !! id = Some k -> alive k = true -> ckind k = Reactor -> kept_balance [op] s (conn_close id k s).
Proof. intros Ho Ha E Hl Hk. apply (retire_kept _ _ id k); [done|intros l; rewrite counts_reactor by done|]; cbn; rewrite ?Ho, ?Ha; [|done]. by destruct (cloop k =? l)%nat. Qed.

Lemma advance_kept id caught c s k : conns s !! id = Some k -> ckind k = Handshake -> kept_balance [Advance id caught] s (advance id caught c s).
Proof.
  intros E Hk. unfold advance. rewrite E. destruct (alive k); cbn [negb]; [|by apply kept_state]. destruct (handshakes c); [|by apply kept_state|]; (apply (hs_kept _ id k); try done; by rewrite Hk).
Qed.

Lemma shutdown_conn_kept id s : kept_balance [ShutdownConn id] s (shutdown_conn id s).
Proof.
  unfold shutdown_conn. destruct (conns s !! id) as [k|] eqn:E; [|by apply kept_state]. destruct (alive k) eqn:Ha; cbn [negb]; [|by apply kept_state]. destruct (ckind k) eqn:Hk; [apply (hs_kept _ id k); try done; by rewrite Hk|by apply serversafety_close_kept|by apply kept_state].
Qed.

Lemma close_socket_kept ops id k s : conns s !! id = Some k -> ckind k = Coro -> kept_balance ops s ((close_socket id s).1 ++ ops, (close_socket id s).2) /\ conn_is (close_socket id s).2 id (fun k => ckind k = Coro).
Proof.
  intros E Hk. unfold close_socket. rewrite E. destruct (alive k) eqn:Ha; [|split; [by apply kept_state|by exists k]]. split.
  - apply (retire_kept _ _ id k); [done|intros l; rewrite counts_other by (by rewrite Hk); cbn; lia|done].
  - destruct (retire_grows id s id k E) as (k' & E' & _ & _ & Ek). exists k'. split; [done|congruence].
Qed.

Lemma run_handler_kept id c s k : conns s !! id = Some k -> ckind k = Coro -> kept_balance [RunHandler id] s (run_handler id c s).
Proof.
  intros E Hk. unfold run_handler. rewrite E.
  assert (H : let r := if says_yes c then close_socket id s else ([], s) in kept_balance [RunHandler id] s (r.1 ++ [RunHandler id], r.2) /\ conn_is r.2 id (fun k => ckind k = Coro)).
  { destruct (says_yes c); [by apply (close_socket_kept [RunHandler id] id k)|]. split; [by apply kept_state|by exists k]. }
  destruct (if says_yes c then _ else _) as [l1 s1]. cbn [fst snd] in H. destruct H as [H1 (k1 & E1 & Hk1)]. assert (Hp : forall ops l, total (owes l) (ops ++ [RunHandler id]) = total (owes l) (RunHandler id :: ops)) by (intros; rewrite total_app; cbn; lia).
  assert (Hp' : forall ops, total owes_active (ops ++ [RunHandler id]) = total owes_active (RunHandler id :: ops)) by (intros; rewrite total_app; cbn; lia).
  assert (H2 : kept_balance [RunHandler id] s (RunHandler id :: l1, s1)) by (eapply kept_trans; [exact H1|]; apply kept_state; try done; [intros l; symmetry; apply Hp|symmetry; apply Hp']).
  destruct (close_socket_kept (RunHandler id :: l1) id k1 s1 E1 Hk1) as [H3 _]. destruct (close_socket id s1) as [l2 s2]. cbn [fst snd] in H3.
  assert (K : kept_balance [RunHandler id] s (l1 ++ l2 ++ [DelClient (desc k).1; SubActive; DecrementConns 0], s2)).
  { eapply kept_trans; [exact H2|]. eapply kept_trans; [exact H3|]. apply kept_state; try done; [intros l|]; cbn [fst snd]; rewrite !total_app; cbn; [destruct l|]; cbn; lia. }
  destruct (handshakes c); [exact K| |exact K]. eapply kept_trans; [exact H2|]. apply task_kept.
Qed.

Lemma swap_conns_kept s : kept_balance [SwapConns] s ([], swap_conns loops s).
Proof.
  unfold swap_conns. set (es := omap _ (seq 0 loops)). assert (Hz : forall f : Op -> Z, (forall ids, f (ShutdownConns ids) = 0) -> total f es.*2 = 0).
  { intros f Hf. subst es. induction (seq 0 loops) as [|l ls IH]; [done|]. cbn. destruct (by_ctx l _); [exact IH|]. cbn. rewrite Hf. lia. }
  eapply (kept_trans _ _ ([SwapConns], set_reactor_connections ∅ s)); [by apply kept_state|]. apply (posts_kept [SwapConns] [] es (set_reactor_connections ∅ s)); [intros l|]; by rewrite Hz.
Qed.

Ltac same := by apply kept_state.

Lemma exec_kept who op c s : shared_ok loops s -> op_ok loops who s op -> kept_balance [op] s (exec op c s).
Proof.
  intros H Ho. destruct op; cbn [Server.exec]; cbn [op_ok] in Ho; try same.
  - unfold accept_loop. destruct (running s); [|same]. destruct (accepts c); same.
  - unfold cleanup_listen. destruct (list_find _ _) as [[i d]|]; same.
  - unfold lookup_tls. apply kept_state; try done; intros; repeat case_match; done.
  - apply tls_accept_kept.
  - apply call_factory_kept.
  - eapply kept_trans; [apply (new_conn_kept [ScheduleConnection fd] [HandleConnection (length (conns s))] (mkConn fd 0 Coro true)); [intros l; by rewrite counts_other|done]|]. apply task_kept.
  - apply adjust_kept; [intros l; cbn; by destruct (loop =? l)%nat|done].
  - apply adjust_kept; [intros l; cbn; by destruct (loop =? l)%nat|done].
  - destruct Ho as (k & E & Hk & _). by eapply advance_kept.
  - by apply posts_kept.
  - unfold finish_ok. destruct has_factory; same.
  - unfold close_fd. case_match; same.
  - destruct Ho as (k & E & Hk). unfold handle_connection. rewrite E. destruct has_handler.
    + apply kept_state; try done. intros [|l]; done.
    + destruct (alive k); [|same]. apply (hs_kept _ id k); try done. by rewrite Hk.
  - apply kept_exact; [intros l|]; unfold balance, balance_active, gauge, connected; cbn; lia.
  - apply kept_exact; [intros l|]; unfold balance, balance_active, gauge, connected; cbn; lia.
  - destruct Ho as (k & E & Hk). by eapply run_handler_kept.
  - apply kept_state; try done; intros; by rewrite total_map_zero.
  - apply swap_conns_kept.
  - apply kept_state; try done; intros; by rewrite total_map_zero.
  - apply shutdown_conn_kept.
Qed.

Lemma event_kept workers who e s r : event workers who e s = Some r -> kept_balance [] s r.
Proof.
  intros E. destruct e; cbn [event] in E.
  - case_match; simplify_eq. same.
  - apply bind_Some in E as (k & Ek & E). case_match; simplify_eq. same.
  - apply bind_Some in E as (k & Ek & E). destruct (on_loop who (cloop k)); [|done]. destruct (alive k) eqn:Ha; [|done]. cbn [andb] in E. destruct (bool_decide_reflect (ckind k = Reactor)); [|done]. injection E as <-.
    eapply (kept_trans _ _ ([ClearTls], s)); [same|by apply serversafety_close_kept].
  - destruct who as [l| |]; [|done..]. apply bind_Some in E as ([i [l' op]] & Ei & E). injection E as <-. apply list_find_Some in Ei as (Ei & _). apply kept_exact; [intros l2|]; unfold balance, balance_active, gauge, connected; cbn; rewrite list_fmap_delete, (total_delete _ _ _ op) by (by rewrite list_lookup_fmap, Ei); lia.
  - apply bind_Some in E as (op & Ei & E). destruct (runs_tasks workers who); [|done]. injection E as <-. apply kept_exact; [intros l2|]; unfold balance, balance_active, gauge, connected; cbn; rewrite (total_delete _ _ _ op) by done; lia.
  - case_match; [|done]. unfold open_fd in E. injection E as <-. destruct bound, tls; same.
  - case_match; [|done]. injection E as <-. same.
Qed.

Definition gauges_ok (s : Server) : Prop := map_Forall (fun _ g => u64_ok g) (gauges s).

Lemma retire_gauges id s : gauges (retire id s) = gauges s.
Proof. unfold retire. by case_match. Qed.

Lemma pick_gauges s : gauges (pick_accept_loop loops s).2 = gauges s.
Proof. unfold pick_accept_loop. by destruct (loops =? 1)%nat. Qed.

Lemma close_socket_gauges id s : gauges (close_socket id s).2 = gauges s.
Proof. unfold close_socket. destruct (conns s !! id) as [k|]; [|done]. destruct (alive k); [apply retire_gauges|done]. Qed.

Lemma adjust_gauges_ok l d s : gauges_ok s -> gauges_ok (adjust l d s).
Proof. intros H. apply map_Forall_insert_2; [|done]. unfold u64_ok, u64, wrap. apply Z.mod_pos_bound. lia. Qed.

Lemma exec_gauges_ok op c s : gauges_ok s -> gauges_ok (exec op c s).2.
Proof.
  intros H. assert (Hs : forall s', gauges s' = gauges s -> gauges_ok s') by (intros s' E; unfold gauges_ok; by rewrite E).
  destruct op; cbn [Server.exec]; try exact H; try (by apply adjust_gauges_ok); apply Hs.
  - unfold accept_loop. destruct (running s); [|done]. by destruct (accepts c).
  - unfold cleanup_listen. by destruct (list_find _ _) as [[i d]|].
  - unfold tls_accept. destruct (says_yes c); [|done]. pose proof (pick_gauges s). destruct has_factory; [|done]. by destruct (pick_accept_loop loops s).
  - unfold call_factory. assert (E : gauges (if (loop =? loops)%nat then pick_accept_loop loops s else (loop, s)).2 = gauges s) by (destruct (loop =? loops)%nat; [apply pick_gauges|done]).
    destruct (if (loop =? loops)%nat then _ else _) as [l1 s1]. cbn in E. unfold factory_throws, close_fd. destruct (throws c); [by destruct (says_yes c)|done|cbn; by case_match].
  - unfold advance. destruct (conns s !! id); [|done]. destruct (negb _); [done|]. destruct (handshakes c); [apply retire_gauges|done|apply retire_gauges].
  - unfold close_fd. by case_match.
  - unfold handle_connection. destruct (conns s !! id) as [k|]; [|done]. destruct has_handler; [done|]. destruct (alive k); [apply retire_gauges|done].
  - unfold run_handler. destruct (conns s !! id) as [k|]; [|done]. assert (E : gauges (if says_yes c then close_socket id s else ([], s)).2 = gauges s) by (destruct (says_yes c); [apply close_socket_gauges|done]).
    destruct (if says_yes c then _ else _) as [l1 s1]. pose proof (close_socket_gauges id s1). cbn in E. destruct (close_socket id s1) as [l2 s2]. destruct (handshakes c); cbn in *; congruence.
  - unfold shutdown_conn. destruct (conns s !! id) as [k|]; [|done]. destruct (negb _); [done|]. destruct (ckind k); [apply retire_gauges..|done].
Qed.

Lemma event_gauges workers who e s r : event workers who e s = Some r -> gauges r.2 = gauges s.
Proof.
  intros E. destruct e; cbn [event] in E; try (by case_match; simplify_eq).
  - apply bind_Some in E as (k & Ek & E). by case_match; simplify_eq.
  - apply bind_Some in E as (k & Ek & E). case_match; simplify_eq. apply retire_gauges.
  - destruct who as [l| |]; [|done..]. by apply bind_Some in E as ([i [l' op]] & Ei & [= <-]).
  - apply bind_Some in E as (op & Ei & E). by case_match; simplify_eq.
  - case_match; [|done]. unfold open_fd in E. by injection E as <-.
Qed.

(** The books of the whole system. *)
Definition books (t : System) : Prop := gauges_ok (server t) /\ (forall l, exists z, gauge l (server t) + owed (owes l) t - connected l (server t) = z * 2 ^ 64) /\ active_connections (server t) + owed owes_active t = 0.

Lemma books_step t n who ops0 ops1 rest r : progs t !! n = Some (who, ops0) -> (forall f, (forall lfd, f (AcceptLoop lfd) = 0) -> total f ops0 = total f ops1 + total f rest) -> kept_balance ops1 (server t) r -> gauges_ok r.2 -> books t ->
  books (mkSystem r.2 (<[n := (who, r.1 ++ rest)]> (progs t))).
Proof.
  intros Hp Hops [H1 H2] Hg (_ & B1 & B2). assert (Ho : forall f, (forall lfd, f (AcceptLoop lfd) = 0) -> total (fun p : Who * list Op => total f p.2) (<[n := (who, r.1 ++ rest)]> (progs t)) = total (fun p => total f p.2) (progs t) - total f ops1 + total f r.1).
  { intros f Hf. rewrite (total_insert _ _ _ _ _ Hp). cbn [snd]. rewrite total_app, Hops by done. lia. }
  split; [done|]. split.
  - intros l. destruct (H1 l) as [z E]. destruct (B1 l) as [z0 E0]. exists (z0 + z). unfold owed, balance in *. cbn [server progs]. rewrite Ho by done. lia.
  - unfold owed, balance_active in *. cbn [server progs]. rewrite Ho by done. lia.
Qed.

Lemma only_accepts_owe f ops : (forall lfd, f (AcceptLoop lfd) = 0) -> only_accepts ops = true -> total f ops = 0.
Proof. intros Hf. induction ops as [|op ops IH]; [done|]. cbn. intros [H1 H2]%andb_prop. rewrite IH by done. destruct op; try done. rewrite Hf. done. Qed.

Lemma step_books workers t t' : step workers t t' -> well_placed loops t -> all_exit t -> books t -> books t'.
Proof.
  intros Hs [W1 W2] X B. destruct Hs as [t n who op ops c ops' s' Hp Hk Hm E|t n who e ops' s' Hp E]; pose proof (Forall_lookup_1 _ _ _ _ W2 Hp) as Ho; cbn in Ho.
  - apply Forall_cons in Ho as [Ho _]. pose proof (exec_kept who op c _ W1 Ho) as K. pose proof (exec_gauges_ok op c _ (proj1 B)) as G. rewrite E in K, G. destruct (go_on_exec _ _ _ _ _ _ ops _ _ E) as [-> |(held & -> & -> & ->)].
    + apply (books_step t n who (op :: ops) [op] ops (ops', s')); try done. intros f _. cbn. lia.
    + pose proof (escape_drops _ _ _ _ _ X Hp) as Hd. apply (books_step t n who (Escape held :: ops) [Escape held] [] ([], s')); try done. intros f Hf. cbn. rewrite (only_accepts_owe f ops) by done. lia.
  - pose proof (event_kept _ _ _ _ _ E) as K. pose proof (event_gauges _ _ _ _ _ E) as G. rewrite <- (app_nil_r ops'). apply (books_step t n who [] [] [] (ops', s')); try done. unfold gauges_ok. rewrite G. apply B.
Qed.

Lemma new_books others : books (new_system loops others).
Proof.
  assert (Ho : forall f, owed f (new_system loops others) = 0). { intros f. unfold owed. cbn. rewrite total_app, !total_map_zero by done. done. }
  split; [done|]. split; [intros l; exists 0; rewrite Ho; done|by rewrite Ho].
Qed.

(** C15: The connection gauge of every loop is exactly the number of reactor
    connections open on it, less what the pieces of code still to be executed
    will add (an increment not done yet, the decrement of a connection that
    has closed, or of a coroutine that is running), as a 64-bit counter; so
    when nothing is pending it is the number of open connections.  The count
    of running coroutine handlers that [stop()] waits for is exact too. *)
Theorem gauges_exact workers others t l : reachable loops has_factory has_handler manners workers others t ->
  gauge l (server t) = u64 (connected l (server t) - owed (owes l) t) /\ active_connections (server t) = - owed owes_active t.
Proof.
  intros H. assert (B : well_placed loops t /\ books t).
  { pose proof (new_books others) as B. pose proof (new_well_placed loops others) as W. pose proof (new_exits loops others) as X. revert W X B. induction H as [|t1 t2 t3 Hs _ IH]; [done|]. intros W X B. apply IH; [by eapply step_well_placed|by eapply step_exits|by eapply step_books]. }
  destruct B as [_ (G & B1 & B2)]. split; [|lia]. destruct (B1 l) as [z E]. assert (Hg : u64_ok (gauge l (server t))). { unfold gauge. destruct (gauges (server t) !! l) as [g|] eqn:Eg; [by apply (G l)|]. cbn. unfold u64_ok. lia. }
  unfold u64, wrap. replace (connected l (server t) - owed (owes l) t) with (gauge l (server t) + (- z) * 2 ^ 64) by lia. rewrite Z.mod_add by lia. symmetry. by apply Z.mod_small.
Qed.
End GaugeProof.

(** ** The registry *)

Section RegistryProof.
Context (has_factory has_handler : bool) (manners : Manners).
Hypothesis Hmanners : manners <> MayCloseAndThrow.
Abbreviation exec := (exec 1 has_factory has_handler).
Abbreviation step := (step 1 has_factory has_handler manners).































Lemma pick_one s : pick_accept_loop 1 s = (0%nat, s).
Proof. done. Qed.





















End RegistryProof.

(** ** Making listeners, receiving datagrams *)

(** Whichever call fails, the socket and the address list are given back, once. *)
Lemma create_tcp_listen_fd_exact works : let '(ok, o) := create_tcp_listen_fd works (mkObjects 0 [] false) in faulty o = false /\ live o = if ok then [ListenSocket] else [].
Proof. unfold create_tcp_listen_fd, bound_socket, acquire, attempt. cbn. repeat (try_call works; try done). Qed.

Lemma create_udp_fd_exact works : let '(ok, o) := create_udp_fd works (mkObjects 0 [] false) in faulty o = false /\ live o = if ok then [ListenSocket] else [].
Proof. unfold create_udp_fd, bound_socket, acquire, attempt. cbn. repeat (try_call works; try done). Qed.

(** What the first [n] calls received, empty datagrams left out. *)
Definition datagrams (recvfrom : nat -> Recv) (n : nat) : list (bytes * Z) :=
  omap (fun i => match recvfrom i with Received data peer => match take datagram_buffer data with [] => None | data => Some (data, peer) end | _ => None end) (seq 0 n).

(** Every datagram received before the first error, or before the server was
    stopped, is delivered once and in order, unless it is empty; the
    descriptor is re-armed when there was nothing more to read. *)
Lemma datagram_ready_exact recvfrom still_running n : (forall i, (i < n)%nat -> still_running i = true /\ exists data peer, recvfrom i = Received data peer) ->
  (still_running n = false \/ recvfrom n = RecvRetry \/ recvfrom n = RecvFailed) ->
  datagram_ready recvfrom still_running true (S n) = Some (still_running n && match recvfrom n with RecvRetry => true | _ => false end, datagrams recvfrom n).
Proof.
  intros Hb Hn. unfold datagram_ready. enough (forall k, (k <= n)%nat -> loop (datagram_step recvfrom still_running true) (S k) ((n - k)%nat, datagrams recvfrom (n - k)) = Some (still_running n && match recvfrom n with RecvRetry => true | _ => false end, datagrams recvfrom n)) as H.
  { specialize (H n ltac:(lia)). by rewrite Nat.sub_diag in H. }
  induction k as [|k IH]; intros Hk; cbn [loop].
  - rewrite Nat.sub_0_r. unfold datagram_step. destruct (still_running n); [|done]. destruct Hn as [|[-> | ->]]; done.
  - destruct (Hb (n - S k)%nat ltac:(lia)) as [Hr (data & peer & E)]. unfold datagram_step at 1. rewrite Hr, E. replace (S (n - S k)) with (n - k)%nat by lia. rewrite <- (IH ltac:(lia)).
    assert (Ed : datagrams recvfrom (n - k) = datagrams recvfrom (n - S k) ++ match take datagram_buffer data with [] => [] | data => [(data, peer)] end).
    { unfold datagrams. replace (n - k)%nat with (S (n - S k)) by lia. rewrite seq_S, omap_app. f_equal. cbn [omap list_omap Nat.add]. rewrite E. by destruct (take datagram_buffer data). }
    rewrite Ed. destruct (take datagram_buffer data); [by rewrite app_nil_r|done].
Qed.

(** ** Schedules *)

(** A thread executes its next piece with the outside deciding as given, or
    takes something up. *)
Inductive Move := Run (n : nat) (c : Choice) | Take (n : nat) (e : Event).

Definition kernel_okb (c : Choice) (s : Server) : bool := match accepts c with AcceptedFd fd => bool_decide (open_fds s !! fd = None) | _ => true end.

Definition move (loops : nat) (has_factory has_handler : bool) (manners : Manners) (workers : bool) (m : Move) (t : System) : option System :=
  match m with
  | Run n c =>
      match progs t !! n with
      | Some (who, op :: ops) =>
          if kernel_okb c (server t) && polite manners c then let '(ops', s') := exec loops has_factory has_handler op c (server t) in Some (mkSystem s' (<[n := (who, go_on op ops' ops)]> (progs t))) else None
      | _ => None
      end
  | Take n e =>
      match progs t !! n with
      | Some (who, []) => match event workers who e (server t) with Some (ops', s') => Some (mkSystem s' (<[n := (who, ops')]> (progs t))) | None => None end
      | _ => None
      end
  end.

Fixpoint moves (loops : nat) (has_factory has_handler : bool) (manners : Manners) (workers : bool) (ms : list Move) (t : System) : option System :=
  match ms with
  | [] => Some t
  | m :: ms => t ← move loops has_factory has_handler manners workers m t; moves loops has_factory has_handler manners workers ms t
  end.

Lemma moves_reach loops hf hh m workers ms t t' : moves loops hf hh m workers ms t = Some t' -> rtc (step loops hf hh m workers) t t'.
Proof.
  revert t. induction ms as [|mv ms IH]; intros t E; cbn in E; [by injection E as ->|]. apply bind_Some in E as (t1 & E1 & E). eapply rtc_l; [|by apply IH]. destruct mv as [n c|n e]; cbn in E1.
  - destruct (progs t !! n) as [[who [|op ops]]|] eqn:Ep; [done| |done]. destruct (kernel_okb c (server t)) eqn:Ek; [|done]. cbn [andb] in E1. destruct (polite m c) eqn:Em; [|done]. destruct (exec _ _ _ op c (server t)) as [ops' s'] eqn:Ex. injection E1 as <-. eapply step_op; [done| |done|done].
    unfold kernel_ok, kernel_okb in *. destruct (accepts c); [by apply bool_decide_eq_true in Ek|done|done].
  - destruct (progs t !! n) as [[who [|op ops]]|] eqn:Ep; [|done|done]. destruct (event workers who e (server t)) as [[ops' s']|] eqn:Ee; [|done]. injection E1 as <-. by eapply step_event.
Qed.

(** The choices of the schedules below. *)
Definition ok : Choice := mkChoice AcceptRetry true HsWant ThrowsNot.
Definition gets (fd : Z) : Choice := mkChoice (AcceptedFd fd) true HsWant ThrowsNot.
Definition fails : Choice := mkChoice AcceptFailed true HsFailed ThrowsNot.
Definition throwing (what : Thrown) : Choice := mkChoice AcceptRetry true HsOk what.

(** [stop] or [listen] by the thread with index [n]. *)
Definition listening (n : nat) : list Move := [Take n (ListenCall 3 false true); Run n ok; Run n ok; Run n ok].

Definition idle (t : System) : bool := forallb (fun p => match p.2 with [] => true | _ => false end) (progs t).

(** A listener, two accepted connections, one of which closes; the thread of
    loop 0 is at the end of its accept loop. *)
Definition busy_day : list Move :=
  listening 1 ++ [Take 0 (Readable 3); Run 0 (gets 5); Run 0 ok; Run 0 ok; Run 0 ok; Run 0 ok; Run 0 (gets 6); Run 0 ok; Run 0 ok; Run 0 ok; Run 0 ok; Run 0 ok; Run 0 ok; Take 0 (Closes 0); Run 0 ok].

Definition busy_state : System := default (new_system 1 [Outside]) (moves 1 true false NeverThrows false busy_day (new_system 1 [Outside])).

Lemma busy_reachable : reachable 1 true false NeverThrows false [Outside] busy_state.
Proof.
  unfold busy_state. destruct (moves 1 true false NeverThrows false busy_day (new_system 1 [Outside])) as [t|] eqn:E; [by apply (moves_reach _ _ _ _ _ busy_day)|apply rtc_refl].
Qed.

Lemma descriptors_accounted_witness : owners busy_state ≡ₚ [(3, 0%nat); (6, 2%nat)] /\ misclosed (server busy_state) = false.
Proof.
  destruct (descriptors_accounted 1 true false NeverThrows false [Outside] busy_state ltac:(done) busy_reachable) as (H1 & H2 & H3). split; [|exact H2]. rewrite (H3 eq_refl), app_nil_r in H1. rewrite H1. vm_compute. reflexivity.
Defined.

Lemma handlers_on_their_loop_witness : well_placed 1 busy_state /\ length (conns (server busy_state)) = 2%nat.
Proof. split; [apply (handlers_on_their_loop 1 true false NeverThrows false [Outside]); [lia|exact busy_reachable]|vm_compute; reflexivity]. Defined.

Lemma gauges_exact_witness : gauge 0 (server busy_state) = 2 /\ connected 0 (server busy_state) = 1 /\ owed (owes 0) busy_state = -1.
Proof.
  assert (E : connected 0 (server busy_state) = 1 /\ owed (owes 0) busy_state = -1) by (vm_compute; split; reflexivity). destruct E as [E1 E2]. split; [|exact (conj E1 E2)].
  destruct (gauges_exact 1 true false NeverThrows ltac:(lia) false [Outside] busy_state 0 busy_reachable) as [H _]. rewrite H, E1, E2. vm_compute. reflexivity.
Defined.


(** ** What several threads do to keys that are reused *)

(** With two loops a connection can escape [stop()] for good.  A connection on
    loop 1 closes its descriptor; before its [on_closed] has run, loop 0
    accepts a client under the same number and registers it; then [on_closed]
    erases the entry of that number.  The new connection is live and in no
    registry, nothing is pending, and [stop()] shuts nothing down. *)
Definition reuse : list Move :=
  listening 2 ++ [Take 0 (Readable 3); Run 0 (gets 5); Run 0 ok; Run 0 ok; Run 0 ok; Run 0 ok; Run 0 (gets 6); Run 0 ok; Run 0 ok; Run 0 ok; Run 0 ok;
    Take 1 (Closes 1); Run 1 ok; Run 0 (gets 6); Run 0 ok; Run 0 ok; Run 0 ok; Run 0 ok; Run 0 ok; Run 0 ok; Run 1 ok; Run 1 ok].

Theorem reused_number_escapes : exists t, reachable 2 true false NeverThrows false [Outside] t /\ idle t = true /\ posted (server t) = [] /\
  conns (server t) !! 2%nat = Some (mkConn (6, 3%nat) 0 Reactor true) /\ reactor_connections (server t) !! 6 = None /\ open_fds (server t) !! 6 = Some 3%nat.
Proof.
  destruct (moves 2 true false NeverThrows false reuse (new_system 2 [Outside])) as [t|] eqn:E; [|by vm_compute in E]. exists t. split; [by apply (moves_reach _ _ _ _ _ reuse)|]. vm_compute in E. injection E as <-. by vm_compute.
Qed.

(** And an entry can outlive its connection: the connection closes on loop 1
    before the accepting thread has registered it. *)
Definition early_close : list Move :=
  listening 2 ++ [Take 0 (Readable 3); Run 0 (gets 5); Run 0 ok; Run 0 ok; Run 0 ok; Run 0 ok; Run 0 (gets 6); Run 0 ok; Run 0 ok;
    Take 1 (Closes 1); Run 1 ok; Run 1 ok; Run 1 ok; Run 0 ok; Run 0 ok; Run 0 ok; Run 0 ok].

Theorem entry_outlives_connection : exists t, reachable 2 true false NeverThrows false [Outside] t /\ idle t = true /\ reactor_connections (server t) !! 6 = Some (1%nat, 1%nat) /\
  (alive <$> conns (server t) !! 1%nat) = Some false /\ open_fds (server t) !! 6 = None.
Proof.
  destruct (moves 2 true false NeverThrows false early_close (new_system 2 [Outside])) as [t|] eqn:E; [|by vm_compute in E]. exists t. split; [by apply (moves_reach _ _ _ _ _ early_close)|]. vm_compute in E. injection E as <-. by vm_compute.
Qed.

(** The same for coroutines: a handler closes its socket on a worker, the number
    is accepted again and registered by the next handler's guard, and the
    first guard's destructor takes it out; [stop()] then shuts down no
    descriptor although the second handler is running. *)
Definition coroutine_reuse : list Move :=
  listening 3 ++ [Take 0 (Readable 3); Run 0 (gets 5); Run 0 ok; Run 0 ok; Take 1 (TakeTask 0); Run 1 ok; Run 1 ok; Run 1 ok; Run 1 ok; Run 1 (mkChoice AcceptRetry true HsOk ThrowsNot); Run 1 ok;
    Run 0 (gets 5); Run 0 ok; Run 0 ok; Take 2 (TakeTask 0); Run 2 ok; Run 2 ok; Run 2 ok; Run 2 ok; Run 2 (mkChoice AcceptRetry false HsWant ThrowsNot); Run 1 ok; Run 1 ok; Run 1 ok;
    Take 3 StopCall; Run 3 ok; Run 3 ok; Run 3 ok; Run 3 ok; Run 3 ok; Run 3 ok; Run 3 ok].

Theorem guard_forgets_successor : exists t, reachable 1 false true NeverThrows true [Worker; Worker; Outside] t /\ progs t !! 3%nat = Some (Outside, []) /\ shut (server t) = [] /\ running (server t) = false /\
  tasks (server t) = [RunHandler 1] /\ conns (server t) !! 1%nat = Some (mkConn (5, 2%nat) 0 Coro true) /\ active_client_fds (server t) = ∅.
Proof.
  destruct (moves 1 false true NeverThrows true coroutine_reuse (new_system 1 [Worker; Worker; Outside])) as [t|] eqn:E; [|by vm_compute in E]. exists t. split; [by apply (moves_reach _ _ _ _ _ coroutine_reuse)|]. vm_compute in E. injection E as <-. by vm_compute.
Qed.

(** Any error of accept(2) that is not a retryable one, a client that has gone
    (ECONNABORTED) or a shortage of descriptors (EMFILE), closes the listener
    of a running server for good. *)
Definition one_aborted : list Move := listening 1 ++ [Take 0 (Readable 3); Run 0 fails; Run 0 ok; Run 0 ok; Run 0 ok; Run 0 ok].

Theorem aborted_client_closes_listener : exists t, reachable 1 true false NeverThrows false [Outside] t /\ idle t = true /\ running (server t) = true /\ listen_fds (server t) = [] /\ open_fds (server t) = ∅.
Proof.
  destruct (moves 1 true false NeverThrows false one_aborted (new_system 1 [Outside])) as [t|] eqn:E; [|by vm_compute in E]. exists t. split; [by apply (moves_reach _ _ _ _ _ one_aborted)|]. vm_compute in E. injection E as <-. by vm_compute.
Qed.

(** [stop()] is called and is over between the moment a connection is accepted
    and the moment it is registered: the connection is live, registered in a
    server that has stopped, and nobody has told its loop to shut it down. *)
Definition newcomer : list Move :=
  listening 1 ++ [Take 0 (Readable 3); Run 0 (gets 5); Run 0 ok; Run 0 ok; Take 1 StopCall; Run 1 ok; Run 1 ok; Run 1 ok; Run 1 ok; Run 1 ok; Run 1 ok; Run 1 ok; Run 0 ok; Run 0 ok; Run 0 ok; Run 0 ok].

Theorem stop_misses_newcomer : exists t, reachable 1 true false NeverThrows false [Outside] t /\ idle t = true /\ running (server t) = false /\ posted (server t) = [] /\
  conns (server t) !! 0%nat = Some (mkConn (5, 1%nat) 0 Reactor true) /\ reactor_connections (server t) !! 5 = Some (0%nat, 0%nat) /\ open_fds (server t) !! 5 = Some 1%nat.
Proof.
  destruct (moves 1 true false NeverThrows false newcomer (new_system 1 [Outside])) as [t|] eqn:E; [|by vm_compute in E]. exists t. split; [by apply (moves_reach _ _ _ _ _ newcomer)|]. vm_compute in E. injection E as <-. by vm_compute.
Qed.

(** A connection factory that throws on a plain listener: the exception leaves
    [run()], the accepted descriptor stays open with nobody to close it, and
    the listener is not armed again although it is open and the server runs. *)
Definition factory_throwing : list Move := listening 1 ++ [Take 0 (Readable 3); Run 0 (gets 5); Run 0 ok; Run 0 (throwing ThrowsOpen); Run 0 ok].

Theorem throwing_factory_leaks : exists t, reachable 1 true false MayThrow false [Outside] t /\ idle t = true /\ running (server t) = true /\ lost_fds (server t) = [(5, 1%nat)] /\ open_fds (server t) !! 5 = Some 1%nat /\
  conns (server t) = [] /\ listen_fds (server t) = [(3, 0%nat)] /\ armed (server t) = ∅.
Proof.
  destruct (moves 1 true false MayThrow false factory_throwing (new_system 1 [Outside])) as [t|] eqn:E; [|by vm_compute in E]. exists t. split; [by apply (moves_reach _ _ _ _ _ factory_throwing)|]. vm_compute in E. injection E as <-. by vm_compute.
Qed.

(** A factory that closes the descriptor it was given (as the constructor of a
    connection that owns it does when it fails) and throws, under a TLS
    listener whose handshake is over at once: the [catch] of [accept_loop]
    closes the number a second time. *)
Definition tls_throwing : list Move :=
  [Take 1 (ListenCall 3 true true); Run 1 ok; Run 1 ok; Run 1 ok; Take 0 (Readable 3); Run 0 (gets 5); Run 0 ok; Run 0 ok; Run 0 ok; Run 0 (throwing ThrowsNot); Run 0 ok; Run 0 ok; Run 0 (throwing ThrowsClosed); Run 0 ok].

Theorem tls_throw_closes_twice : exists t, reachable 1 true false MayCloseAndThrow false [Outside] t /\ misclosed (server t) = true /\ open_fds (server t) !! 5 = None.
Proof.
  destruct (moves 1 true false MayCloseAndThrow false tls_throwing (new_system 1 [Outside])) as [t|] eqn:E; [|by vm_compute in E]. exists t. split; [by apply (moves_reach _ _ _ _ _ tls_throwing)|]. vm_compute in E. injection E as <-. by vm_compute.
Qed.
