(* ===== verification/IoTable.v ===== *)
(** * The event loop: who waits for which descriptor

    The table [pending_io_] of src/platform/io_context.cpp: registration of
    handlers, removal, and the dispatch of reported events, on top of any
    implementation of [PlatformIO].  Every registration gets a new generation,
    which travels with the descriptor in the token given to the operating
    system, so that a report for an earlier registration can be recognised. *)
From stdpp Require Import gmap.
From S2P Require Import Prelude PlatformIO.

Local Open Scope Z_scope.

Definition encode_token (generation fd : Z) : Z := u64 (generation .<< 32) .| u32 fd.
Definition decode_token (packed : Z) : Z * Z := (u32 (packed .>> 32), s32 (packed .& 0xFFFFFFFF)).

Lemma option_list_elem {A} (o : option A) x : x ∈ option_list o <-> o = Some x.
Proof. destruct o as [a|]; cbn; [rewrite list_elem_of_singleton; naive_solver|rewrite elem_of_nil; done]. Qed.

Section IoTable.
Context {P R : Type} {platform_io : PlatformIO P R} {H : Type}.

Record PendingIO := mkPending { p_read : option H; p_write : option H; generation : Z }.

Record IoTable := mkTable { pending_io : gmap Z PendingIO; next_generation : Z; platform : P }.

(** [next_generation_.fetch_add(1)], repeated once for 0. *)
Definition take_generation (next : Z) : Z * Z :=
  let g := next in
  let next := u32 (next + 1) in
  if g =? 0 then (next, u32 (next + 1)) else (g, next).

Definition waiting_bits (p : PendingIO) : Z :=
  let ev := 0 in
  let ev := match p_read p with Some _ => ev .| EVENT_READ | None => ev end in
  match p_write p with Some _ => ev .| EVENT_WRITE | None => ev end.

(** The table, and whether the loop has to be woken. *)
Definition set_io_handler (fd events : Z) (handler : option H) (t : IoTable) : IoTable * bool :=
  let already_registered := pending_io t !! fd in
  let pending := default (mkPending None None 0) already_registered in
  let '(g, next) := take_generation (next_generation t) in
  let rd := match handler with Some h => if has events EVENT_READ then Some h else p_read pending | None => p_read pending end in
  let wr := match handler with Some h => if has events EVENT_WRITE then Some h else p_write pending | None => p_write pending end in
  let pending := mkPending rd wr g in
  let new_events := waiting_bits pending in
  let token := encode_token g fd in
  let platform := match already_registered with
                  | Some _ => (modify_fd fd new_events token (platform t)).2
                  | None => (add_fd fd new_events token (platform t)).2
                  end in
  (mkTable (<[fd := pending]> (pending_io t)) next platform, negb (new_events =? 0)).

Definition remove_io (fd : Z) (t : IoTable) : IoTable :=
  mkTable (delete fd (pending_io t)) (next_generation t) (remove_fd fd (platform t)).2.

(** The state of the dispatch loop: the handlers to call ([true] for
    [on_readable]), whether the wake-up pipe was drained, and the table. *)
Record Dispatch := mkDispatch { fired : list (H * bool); drained : bool; table : IoTable }.

Definition dispatch_event (d : Dispatch) (evt : Event) : Dispatch :=
  if user_data evt =? 0 then mkDispatch (fired d) true (table d) else
  let '(token_gen, token_fd) := decode_token (user_data evt) in
  match pending_io (table d) !! token_fd with
  | None => d
  | Some pending =>
      if negb (generation pending =? token_gen) then d else
      let hit_r := if has (ev_events evt) EVENT_READ then p_read pending else None in
      let hit_w := if has (ev_events evt) EVENT_WRITE then p_write pending else None in
      let rd := match hit_r with Some _ => None | None => p_read pending end in
      let wr := match hit_w with Some _ => None | None => p_write pending end in
      let pending' := mkPending rd wr (generation pending) in
      let changed := bool_decide (is_Some hit_r) || bool_decide (is_Some hit_w) in
      let platform := if changed
                      then (modify_fd token_fd (waiting_bits pending') (encode_token (generation pending) token_fd) (platform (table d))).2
                      else platform (table d) in
      mkDispatch (fired d ++ option_list ((fun h => (h, true)) <$> hit_r) ++ option_list ((fun h => (h, false)) <$> hit_w)) (drained d)
        (mkTable (<[token_fd := pending']> (pending_io (table d))) (next_generation (table d)) platform)
  end.

Definition process_io_events (events : list Event) (t : IoTable) : Dispatch := foldl dispatch_event (mkDispatch [] false t) events.

(** The descriptors of the process: the wake-up pipe is not registered by
    anyone else, and numbers are those of an [int]. *)
Definition fd_ok (wake fd : Z) : Prop := 0 <= fd < 2 ^ 31 /\ fd <> wake.

(** [IOContext::IOContext]: the wake-up pipe is watched under the null token. *)
Definition new_table (wake : Z) (p : P) : IoTable := mkTable ∅ 1 (add_fd wake EVENT_READ 0 p).2.

(** ** Operations on the table, in any order *)

Inductive TableOp :=
| Register (fd events : Z) (handler : option H)
| Unregister (fd : Z)
| Events (events : list Event).

Definition table_op (t : IoTable) (op : TableOp) : IoTable :=
  match op with
  | Register fd ev h => (set_io_handler fd ev h t).1
  | Unregister fd => remove_io fd t
  | Events es => table (process_io_events es t)
  end.

Definition registrations (ops : list TableOp) : Z :=
  foldr (fun op n => match op with Register _ _ _ => n + 1 | _ => n end) 0 ops.

Definition op_ok (wake : Z) (op : TableOp) : Prop :=
  match op with Register fd _ _ | Unregister fd => fd_ok wake fd | Events es => Forall (fun e => u64_ok (user_data e)) es end.

(** ** Tokens *)

Lemma token_roundtrip g fd : 0 <= g < 2 ^ 32 -> 0 <= fd < 2 ^ 31 -> decode_token (encode_token g fd) = (g, fd).
Proof.
  intros Hg Hf. unfold encode_token, decode_token. assert (Es : u64 (g .<< 32) = g * 2 ^ 32) by (rewrite shl_mul by lia; apply u64_small; unfold u64_ok; lia).
  rewrite Es, (u32_small fd) by lia. rewrite (lor_low_add 32) by (try apply Z.mod_mul; lia).
  rewrite shr_div, Z.div_add_l, (Z.div_small fd), Z.add_0_r by lia. rewrite u32_small by lia. f_equal.
  rewrite (land_mask _ 32) by (lia || done). rewrite Z.add_comm, Z.mod_add, Z.mod_small by lia. unfold s32. rewrite u32_small by lia. destruct (Z.leb_spec (2 ^ 31) fd); [lia|done].
Qed.

Lemma token_nonzero g fd : 0 < g < 2 ^ 32 -> 0 <= fd < 2 ^ 31 -> encode_token g fd <> 0.
Proof.
  intros Hg Hf E. assert (E' : decode_token (encode_token g fd) = decode_token 0) by by rewrite E. rewrite token_roundtrip in E' by lia. change (decode_token 0) with (0, 0) in E'. injection E' as -> _. lia.
Qed.

Lemma token_inj g fd g' fd' : 0 <= g < 2 ^ 32 -> 0 <= g' < 2 ^ 32 -> 0 <= fd < 2 ^ 31 -> 0 <= fd' < 2 ^ 31 ->
  encode_token g fd = encode_token g' fd' -> g = g' /\ fd = fd'.
Proof. intros Hg Hg' Hf Hf' E. apply (f_equal decode_token) in E. rewrite !token_roundtrip in E by done. by injection E. Qed.

(** ** The invariant *)

Context {laws : PlatformLaws P R}.

Definition wants (fd : Z) (p : PendingIO) : Interest := mkInterest (bool_decide (is_Some (p_read p))) (bool_decide (is_Some (p_write p))) (encode_token (generation p) fd).

(** [n] registrations so far: what the operating system watches is what is
    waited for, under the token of the last registration. *)
Record table_ok (wake n : Z) (t : IoTable) : Prop := {
  tb_platform : consistent (platform t);
  tb_next : next_generation t = n + 1;
  tb_watched : forall fd, watched (platform t) fd = match pending_io t !! fd with
    | Some p => Some (wants fd p)
    | None => if fd =? wake then Some (mkInterest true false 0) else None
    end;
  tb_pending : forall fd p, pending_io t !! fd = Some p -> fd_ok wake fd /\ 0 < generation p <= n }.

Lemma bits_wants fd p : interest_of (waiting_bits p) (encode_token (generation p) fd) = wants fd p.
Proof. unfold interest_of, waiting_bits, wants. by destruct (p_read p), (p_write p). Qed.

Lemma new_table_ok wake p : consistent p -> (forall fd, watched p fd = None) -> table_ok wake 0 (new_table wake p).
Proof.
  intros Hc Hw. split; cbn; [by apply add_consistent|done| |done]. intros fd. rewrite lookup_empty, add_watched by apply Hw. by destruct (fd =? wake).
Qed.

Lemma set_io_handler_ok wake n fd ev h t : n + 1 < 2 ^ 32 - 1 -> 0 <= n -> fd_ok wake fd -> table_ok wake n t ->
  table_ok wake (n + 1) (set_io_handler fd ev h t).1 /\ exists p, pending_io (set_io_handler fd ev h t).1 !! fd = Some p /\ generation p = n + 1.
Proof.
  intros Hn H0 Hfd [H1 H2 H3 H4]. unfold set_io_handler. cbv zeta. assert (Eg : take_generation (next_generation t) = (n + 1, n + 2)).
  { unfold take_generation. rewrite H2. destruct (Z.eqb_spec (n + 1) 0); [lia|]. rewrite u32_small by lia. f_equal. lia. }
  rewrite Eg. set (p := mkPending _ _ _). assert (Hg : generation p = n + 1) by done. clearbody p. cbn [fst]. split; [|exists p; cbn; by rewrite lookup_insert_eq].
  assert (Hp : forall fd', (match pending_io t !! fd with Some _ => watched (modify_fd fd (waiting_bits p) (encode_token (n + 1) fd) (platform t)).2 fd' | None =>
    watched (add_fd fd (waiting_bits p) (encode_token (n + 1) fd) (platform t)).2 fd' end) = if fd' =? fd then Some (wants fd p) else watched (platform t) fd').
  { intros fd'. specialize (H3 fd). destruct (pending_io t !! fd).
    - rewrite modify_watched by by rewrite H3. by rewrite <- Hg, bits_wants.
    - destruct Hfd as [_ Hw]. apply Z.eqb_neq in Hw. rewrite Hw in H3. rewrite add_watched by done. by rewrite <- Hg, bits_wants. }
  split; cbn [platform next_generation pending_io].
  - destruct (pending_io t !! fd); [by apply modify_consistent|by apply add_consistent].
  - lia.
  - intros fd'. specialize (Hp fd'). destruct (pending_io t !! fd); rewrite Hp; (destruct (Z.eqb_spec fd' fd) as [E|]; [by rewrite E, lookup_insert_eq|by rewrite lookup_insert_ne, H3]).
  - intros fd' p' E. destruct (decide (fd' = fd)) as [->|]; [rewrite lookup_insert_eq in E; injection E as <-; split; [done|lia]|].
    rewrite lookup_insert_ne in E by done. apply H4 in E as [? ?]. split; [done|lia].
Qed.

Lemma remove_io_ok wake n fd t : fd_ok wake fd -> table_ok wake n t -> table_ok wake n (remove_io fd t).
Proof.
  intros [_ Hw] [H1 H2 H3 H4]. split; cbn [remove_io platform next_generation pending_io]; [by apply remove_consistent|done| |].
  - intros fd'. rewrite remove_watched, H3. destruct (Z.eqb_spec fd' fd) as [->|]; [|by rewrite lookup_delete_ne]. rewrite lookup_delete_eq. apply Z.eqb_neq in Hw. by rewrite Hw.
  - intros fd' p E. apply lookup_delete_Some in E as [_ E]. by apply H4.
Qed.

(** What one event does. *)
Inductive dispatched (evt : Event) (d : Dispatch) : Dispatch -> Prop :=
| dispatched_wake : user_data evt = 0 -> dispatched evt d (mkDispatch (fired d) true (table d))
| dispatched_stale : (forall fd p, pending_io (table d) !! fd = Some p -> encode_token (generation p) fd <> user_data evt) -> dispatched evt d d
| dispatched_live fd p rd wr pf : pending_io (table d) !! fd = Some p -> encode_token (generation p) fd = user_data evt ->
    rd = (if has (ev_events evt) EVENT_READ then None else p_read p) -> wr = (if has (ev_events evt) EVENT_WRITE then None else p_write p) ->
    consistent pf -> (forall fd', watched pf fd' = if fd' =? fd then Some (wants fd (mkPending rd wr (generation p))) else watched (platform (table d)) fd') ->
    dispatched evt d (mkDispatch (fired d ++ option_list ((fun h => (h, true)) <$> (if has (ev_events evt) EVENT_READ then p_read p else None)) ++
        option_list ((fun h => (h, false)) <$> (if has (ev_events evt) EVENT_WRITE then p_write p else None))) (drained d)
      (mkTable (<[fd := mkPending rd wr (generation p)]> (pending_io (table d))) (next_generation (table d)) pf)).

Lemma decode_encode x g fd : u64_ok x -> 0 <= fd -> decode_token x = (g, fd) -> encode_token g fd = x.
Proof.
  intros Hx Hf E. unfold decode_token in E. injection E as <- Ef. rewrite shr_div by lia. unfold u64_ok in Hx. assert (Hd : 0 <= x / 2 ^ 32 < 2 ^ 32) by (split; [apply Z.div_pos; lia|apply Z.div_lt_upper_bound; lia]).
  rewrite u32_small by lia. rewrite (land_mask _ 32) in Ef by (lia || done). pose proof (Z.mod_pos_bound x (2 ^ 32)) as Hm. unfold s32 in Ef. rewrite u32_small in Ef by lia.
  destruct (Z.leb_spec (2 ^ 31) (x mod 2 ^ 32)); [lia|]. subst fd. unfold encode_token. rewrite shl_mul, (u64_small (_ * _)), u32_small by (unfold u64_ok; lia).
  rewrite (lor_low_add 32) by (try apply Z.mod_mul; lia). pose proof (Z.div_mod x (2 ^ 32)). lia.
Qed.

Lemma dispatch_dispatched wake n d evt : n < 2 ^ 32 -> table_ok wake n (table d) -> u64_ok (user_data evt) -> dispatched evt d (dispatch_event d evt).
Proof.
  intros Hn [H1 H2 H3 H4] Hu. unfold dispatch_event. destruct (Z.eqb_spec (user_data evt) 0) as [Ez|Ez]; [by apply dispatched_wake|].
  destruct (decode_token (user_data evt)) as [g fd] eqn:Ed. destruct (pending_io (table d) !! fd) as [p|] eqn:Ep.
  - destruct (H4 fd p Ep) as [[Hf _] Hg]. destruct (Z.eqb_spec (generation p) g) as [<-|Hne]; cbn [negb].
    + apply decode_encode in Ed; [|done|lia]. cbv zeta. set (hit_r := if has (ev_events evt) EVENT_READ then p_read p else None). set (hit_w := if has (ev_events evt) EVENT_WRITE then p_write p else None).
      assert (Er : match hit_r with Some _ => None | None => p_read p end = if has (ev_events evt) EVENT_READ then None else p_read p) by (unfold hit_r; destruct (has (ev_events evt) EVENT_READ); [by destruct (p_read p)|done]).
      assert (Ew : match hit_w with Some _ => None | None => p_write p end = if has (ev_events evt) EVENT_WRITE then None else p_write p) by (unfold hit_w; destruct (has (ev_events evt) EVENT_WRITE); [by destruct (p_write p)|done]).
      rewrite Er, Ew. eapply dispatched_live; [exact Ep|exact Ed|done|done| |].
      * destruct (_ || _); [by apply modify_consistent|done].
      * intros fd'. destruct (_ || _) eqn:Ec; [rewrite modify_watched by (by rewrite H3, Ep); by rewrite <- bits_wants|].
        destruct (Z.eqb_spec fd' fd) as [->|]; [|done]. rewrite H3, Ep. f_equal. apply orb_false_iff in Ec as [E1%bool_decide_eq_false E2%bool_decide_eq_false].
        destruct p as [r w gp]. unfold hit_r, hit_w in *. cbn [p_read p_write generation] in *. destruct (has (ev_events evt) EVENT_READ), (has (ev_events evt) EVENT_WRITE), r, w; try done; exfalso; eauto.
    + apply dispatched_stale. intros fd' p' Ep' E. rewrite <- E in Ed. destruct (H4 fd' p' Ep') as [[Hf' _] Hg']. rewrite token_roundtrip in Ed by lia. injection Ed as <- <-. congruence.
  - apply dispatched_stale. intros fd' p' Ep' E. rewrite <- E in Ed. destruct (H4 fd' p' Ep') as [[Hf' _] Hg']. rewrite token_roundtrip in Ed by lia. injection Ed as <- <-. congruence.
Qed.

(** Generations only change at registrations. *)
Definition generation_of (fd : Z) (t : IoTable) : option Z := generation <$> pending_io t !! fd.

Lemma dispatch_event_ok wake n d evt : n < 2 ^ 32 -> table_ok wake n (table d) -> u64_ok (user_data evt) ->
  table_ok wake n (table (dispatch_event d evt)) /\ forall fd, generation_of fd (table (dispatch_event d evt)) = generation_of fd (table d).
Proof.
  intros Hn Ht Hu. pose proof Ht as [H1 H2 H3 H4]. destruct (dispatch_dispatched wake n d evt Hn Ht Hu) as [_|_|fd p rd wr pf Ep _ _ _ Hc Hw]; [done|done|]. cbn [table]. split.
  - split; cbn [platform next_generation pending_io]; [done|done| |].
    + intros fd'. rewrite Hw. destruct (Z.eqb_spec fd' fd) as [->|]; [by rewrite lookup_insert_eq|]. by rewrite lookup_insert_ne, H3.
    + intros fd' p' E. destruct (decide (fd' = fd)) as [->|]; [rewrite lookup_insert_eq in E; injection E as <-; cbn; by apply H4|]. rewrite lookup_insert_ne in E by done. by apply H4.
  - intros fd'. unfold generation_of. cbn [pending_io]. destruct (decide (fd' = fd)) as [->|]; [by rewrite lookup_insert_eq, Ep|by rewrite lookup_insert_ne].
Qed.

Lemma process_ok wake n es : forall d, n < 2 ^ 32 -> table_ok wake n (table d) -> Forall (fun e => u64_ok (user_data e)) es ->
  table_ok wake n (table (foldl dispatch_event d es)) /\ forall fd, generation_of fd (table (foldl dispatch_event d es)) = generation_of fd (table d).
Proof.
  induction es as [|e es IH]; intros d Hn Ht Hu; [done|]. apply Forall_cons in Hu as [Hu Hus]. cbn [foldl]. destruct (dispatch_event_ok wake n d e Hn Ht Hu) as [Ht1 Hg1].
  destruct (IH (dispatch_event d e) Hn Ht1 Hus) as [Ht2 Hg2]. split; [done|]. intros fd. by rewrite Hg2.
Qed.

Definition registers (op : TableOp) : Z := match op with Register _ _ _ => 1 | _ => 0 end.

(** The descriptor is registered anew or given up. *)
Definition changes (fd : Z) (op : TableOp) : Prop := match op with Register f _ _ | Unregister f => f = fd | Events _ => False end.

(** One operation: the invariant, and what may become of a generation. *)
Lemma table_op_ok wake n op t : 0 <= n -> n + registers op < 2 ^ 32 - 1 -> op_ok wake op -> table_ok wake n t ->
  table_ok wake (n + registers op) (table_op t op) /\
  forall fd, (~ changes fd op -> generation_of fd (table_op t op) = generation_of fd t) /\
    (changes fd op -> forall g, generation_of fd (table_op t op) = Some g -> n < g).
Proof.
  intros H0 Hn Ho Ht. destruct op as [fd ev h|fd|es]; cbn [registers table_op changes op_ok] in *.
  - destruct (set_io_handler_ok wake n fd ev h t Hn H0 Ho Ht) as [Ht1 (p & Ep & Hg)]. split; [done|]. intros fd'. split.
    + intros Hne. unfold generation_of, set_io_handler. cbv zeta. destruct (take_generation _) as [g nx]. cbn [fst pending_io]. by rewrite lookup_insert_ne.
    + intros <- g E. unfold generation_of in E. rewrite Ep in E. injection E as <-. lia.
  - rewrite Z.add_0_r. split; [by apply remove_io_ok|]. intros fd'. unfold generation_of, remove_io. cbn [pending_io]. split.
    + intros Hne. by rewrite lookup_delete_ne.
    + intros <- g E. by rewrite lookup_delete_eq in E.
  - rewrite Z.add_0_r. destruct (process_ok wake n es (mkDispatch [] false t) ltac:(lia) Ht Ho) as [Ht1 Hg]. split; [done|]. intros fd'. split; [|done]. intros _. apply Hg.
Qed.

Lemma registrations_cons op ops : registrations (op :: ops) = registers op + registrations ops.
Proof. unfold registrations. cbn. destruct op; cbn; lia. Qed.

Lemma registrations_nonneg ops : 0 <= registrations ops.
Proof. induction ops as [|op ops IH]; [done|]. rewrite registrations_cons. destruct op; cbn; lia. Qed.

Lemma registrations_app a b : registrations (a ++ b) = registrations a + registrations b.
Proof. induction a as [|op a IH]; [done|]. cbn [app]. rewrite !registrations_cons. lia. Qed.

Global Instance changes_dec fd op : Decision (changes fd op).
Proof. destruct op; cbn; apply _. Defined.

(** A descriptor that was not touched keeps its generation; one that was has
    a later one than there was before, or none. *)
Lemma table_run_ok wake ops : forall n t, 0 <= n -> n + registrations ops < 2 ^ 32 - 1 -> Forall (op_ok wake) ops -> table_ok wake n t ->
  table_ok wake (n + registrations ops) (foldl table_op t ops) /\
  forall fd, (~ Exists (changes fd) ops -> generation_of fd (foldl table_op t ops) = generation_of fd t) /\
    (Exists (changes fd) ops -> forall g, generation_of fd (foldl table_op t ops) = Some g -> n < g).
Proof.
  induction ops as [|op ops IH]; intros n t H0 Hn Ho Ht; cbn [foldl].
  - unfold registrations. cbn. rewrite Z.add_0_r. split; [done|]. intros fd. split; [done|]. intros He. by apply Exists_nil in He.
  - apply Forall_cons in Ho as [Ho Hos]. rewrite registrations_cons in *. pose proof (registrations_nonneg ops). assert (0 <= registers op) by (destruct op; cbn; lia).
    destruct (table_op_ok wake n op t H0 ltac:(lia) Ho Ht) as [Ht1 Hg1]. destruct (IH (n + registers op) (table_op t op) ltac:(lia) ltac:(lia) Hos Ht1) as [Ht2 Hg2].
    rewrite Z.add_assoc. split; [done|]. intros fd. specialize (Hg1 fd) as [G1 G2]. specialize (Hg2 fd) as [K1 K2]. rewrite Exists_cons. split.
    + intros Hne. rewrite K1 by tauto. apply G1. tauto.
    + intros He g E. destruct (decide (Exists (changes fd) ops)) as [Hc|Hc]; [specialize (K2 Hc g E); lia|]. rewrite K1 in E by done. apply G2; [tauto|done].
Qed.

(** C23: A report for an earlier registration never reaches a later one.
    Whatever is registered, removed and dispatched in between, once a
    descriptor number has been registered again or given up (and its number
    reused), an event that carries the token of before calls nobody and
    changes nothing.  (Fewer than 2^32 - 1 registrations, after which
    generations repeat.) *)
Theorem stale_events_dropped wake p0 ops ops' fd p e :
  consistent p0 -> (forall fd, watched p0 fd = None) -> Forall (op_ok wake) (ops ++ ops') -> registrations (ops ++ ops') < 2 ^ 32 - 1 ->
  pending_io (foldl table_op (new_table wake p0) ops) !! fd = Some p -> user_data e = encode_token (generation p) fd -> Exists (changes fd) ops' ->
  let t := foldl table_op (new_table wake p0) (ops ++ ops') in
  process_io_events [e] t = mkDispatch [] false t.
Proof.
  intros Hc Hw Ho Hr Ep Eu He. cbv zeta. rewrite foldl_app. rewrite registrations_app in Hr. apply Forall_app in Ho as [Ho Ho'].
  pose proof (registrations_nonneg ops). pose proof (registrations_nonneg ops').
  destruct (table_run_ok wake ops 0 (new_table wake p0) ltac:(lia) ltac:(lia) Ho (new_table_ok wake p0 Hc Hw)) as [T1 _]. set (t1 := foldl table_op (new_table wake p0) ops) in *.
  rewrite Z.add_0_l in T1. destruct (table_run_ok wake ops' (registrations ops) t1 ltac:(lia) ltac:(lia) Ho' T1) as [T2 G]. set (t2 := foldl table_op t1 ops') in *.
  destruct (tb_pending _ _ _ T1 fd p Ep) as [[Hf _] Hg]. assert (Hu : u64_ok (user_data e)).
  { rewrite Eu. unfold encode_token. rewrite shl_mul, (u64_small (_ * _)), u32_small by (unfold u64_ok; lia). rewrite (lor_low_add 32) by (try apply Z.mod_mul; lia). unfold u64_ok. lia. }
  unfold process_io_events. cbn [foldl]. destruct (dispatch_dispatched wake (registrations ops + registrations ops') (mkDispatch [] false t2) e ltac:(lia) T2 Hu) as [Ez|_|fd' p' rd wr pf Ep' E]; [|done|].
  - rewrite Eu in Ez. exfalso. revert Ez. apply token_nonzero; lia.
  - exfalso. cbn [table] in *. destruct (tb_pending _ _ _ T2 fd' p' Ep') as [[Hf' _] Hg']. rewrite Eu in E. apply token_inj in E as [E ->]; [|lia..].
    destruct (G fd) as [_ G2]. specialize (G2 He (generation p')). unfold generation_of in G2. rewrite Ep' in G2. specialize (G2 eq_refl). lia.
Qed.

(** Whether some event of the list is for the token and the direction. *)
Definition hit (bit tok : Z) (es : list Event) : bool := existsb (fun e => (user_data e =? tok) && has (ev_events e) bit) es.

(** The entry of a descriptor after the events. *)
Definition after_events (fd : Z) (es : list Event) (p : PendingIO) : PendingIO :=
  mkPending (if hit EVENT_READ (encode_token (generation p) fd) es then None else p_read p)
    (if hit EVENT_WRITE (encode_token (generation p) fd) es then None else p_write p) (generation p).

(** [x] was waiting in [t] for one of the events. *)
Definition was_hit (t : IoTable) (es : list Event) (x : H * bool) : Prop := exists fd p, pending_io t !! fd = Some p /\
  hit (if x.2 then EVENT_READ else EVENT_WRITE) (encode_token (generation p) fd) es = true /\ (if x.2 then p_read p else p_write p) = Some x.1.

Lemma dispatch_one wake n d e : n < 2 ^ 32 -> table_ok wake n (table d) -> u64_ok (user_data e) ->
  (forall fd, pending_io (table (dispatch_event d e)) !! fd = after_events fd [e] <$> pending_io (table d) !! fd) /\
  (forall x, x ∈ fired (dispatch_event d e) <-> x ∈ fired d \/ was_hit (table d) [e] x).
Proof.
  intros Hn Ht Hu. pose proof Ht as [_ _ _ H4]. assert (Hsame : forall fd p, pending_io (table d) !! fd = Some p -> encode_token (generation p) fd <> user_data e -> forall b, hit b (encode_token (generation p) fd) [e] = false).
  { intros fd p Ep Hne b. unfold hit. cbn. destruct (Z.eqb_spec (user_data e) (encode_token (generation p) fd)); [congruence|done]. }
  assert (Hmiss : (forall fd p, pending_io (table d) !! fd = Some p -> encode_token (generation p) fd <> user_data e) ->
    (forall fd, pending_io (table d) !! fd = after_events fd [e] <$> pending_io (table d) !! fd) /\ (forall x, x ∈ fired d <-> x ∈ fired d \/ was_hit (table d) [e] x)).
  { intros Hm. split.
    - intros fd. destruct (pending_io (table d) !! fd) as [p|] eqn:Ep; [|done]. cbn. unfold after_events. rewrite !(Hsame fd p) by (done || by apply Hm). by destruct p.
    - intros x. split; [by left|]. intros [?|(fd & p & Ep & Hh & _)]; [done|]. rewrite (Hsame fd p) in Hh by (done || by apply Hm). done. }
  destruct (dispatch_dispatched wake n d e Hn Ht Hu) as [Ez|Hm|fd p rd wr pf Ep Et Hrd Hwr Hc Hw].
  - apply Hmiss. intros fd p Ep. destruct (H4 fd p Ep) as [[Hf _] Hg]. rewrite Ez. apply token_nonzero; lia.
  - by apply Hmiss.
  - cbn [table fired pending_io]. assert (Hhit : forall b, hit b (encode_token (generation p) fd) [e] = has (ev_events e) b).
    { intros b. unfold hit. cbn. rewrite Et, Z.eqb_refl. cbn. apply orb_false_r. }
    assert (Hother : forall fd' p', pending_io (table d) !! fd' = Some p' -> fd' <> fd -> encode_token (generation p') fd' <> user_data e).
    { intros fd' p' Ep' Hne E. destruct (H4 fd p Ep) as [[? _] ?]. destruct (H4 fd' p' Ep') as [[? _] ?]. rewrite <- Et in E. apply token_inj in E; [|lia..]. tauto. }
    split.
    + intros fd'. destruct (decide (fd' = fd)) as [->|Hne].
      * rewrite lookup_insert_eq, Ep. cbn. unfold after_events. by rewrite !Hhit, Hrd, Hwr.
      * rewrite lookup_insert_ne by done. destruct (pending_io (table d) !! fd') as [p'|] eqn:Ep'; [|done]. cbn. unfold after_events. rewrite !(Hsame fd' p') by (done || by eapply Hother). by destruct p'.
    + intros [h b]. rewrite !elem_of_app, !option_list_elem. split.
      * intros [?|[Ex|Ex]]; [by left|right; exists fd, p..]; rewrite Hhit; apply fmap_Some in Ex as (h' & Eh & [= -> ->]); cbn [fst snd];
          [destruct (has (ev_events e) EVENT_READ); done|destruct (has (ev_events e) EVENT_WRITE); done].
      * intros [?|(fd' & p' & Ep' & Hh & Eh)]; [by left|right]. destruct (decide (fd' = fd)) as [->|Hne]; [|rewrite (Hsame fd' p') in Hh by (done || by eapply Hother); done].
        assert (p' = p) as -> by congruence. rewrite Hhit in Hh. cbn [fst snd] in *. destruct b; [left|right]; by rewrite Hh, Eh.
Qed.

Lemma hit_app b tok es es' : hit b tok (es ++ es') = hit b tok es || hit b tok es'.
Proof. apply existsb_app. Qed.

Lemma after_app fd es es' p : after_events fd es' (after_events fd es p) = after_events fd (es ++ es') p.
Proof. unfold after_events. cbn [p_read p_write generation]. rewrite !hit_app. by repeat destruct (hit _ _ _). Qed.

Lemma dispatch_all wake n es : forall t, n < 2 ^ 32 -> table_ok wake n t -> Forall (fun e => u64_ok (user_data e)) es ->
  table_ok wake n (table (process_io_events es t)) /\
  (forall fd, pending_io (table (process_io_events es t)) !! fd = after_events fd es <$> pending_io t !! fd) /\
  (forall x, x ∈ fired (process_io_events es t) <-> was_hit t es x).
Proof.
  intros t Hn Ht. induction es as [|e es IH] using rev_ind; intros Hu.
  - split; [done|]. cbn. split; [intros fd; destruct (pending_io t !! fd) as [[? ? ?]|]; done|]. intros x. rewrite elem_of_nil. split; [done|]. by intros (fd & p & _ & [=] & _).
  - apply Forall_app in Hu as [Hu Hu1]. apply Forall_cons in Hu1 as [Hu1 _]. destruct (IH Hu) as (T1 & E1 & F1). unfold process_io_events in *. rewrite foldl_app. cbn [foldl].
    set (d := foldl dispatch_event _ es) in *. destruct (dispatch_one wake n d e Hn T1 Hu1) as [E2 F2]. destruct (dispatch_event_ok wake n d e Hn T1 Hu1) as [T2 _]. split; [done|]. split.
    + intros fd. rewrite E2, E1. destruct (pending_io t !! fd) as [p|]; [|done]. cbn. by rewrite after_app.
    + intros [h b]. rewrite F2, F1. unfold was_hit. cbn [fst snd]. setoid_rewrite E1. split.
      * intros [(fd & p & Ep & Hh & Eh)|(fd & p & Ep & Hh & Eh)].
        -- exists fd, p. rewrite hit_app, Hh. done.
        -- apply fmap_Some in Ep as (p0 & Ep & ->). exists fd, p0. rewrite hit_app. cbn [after_events generation] in Hh. rewrite Hh, orb_true_r. split; [done|]. split; [done|].
           unfold after_events in Eh. cbn [p_read p_write] in Eh. destruct b; by destruct (hit _ _ es).
      * intros (fd & p & Ep & Hh & Eh). rewrite hit_app in Hh. destruct (hit (if b then EVENT_READ else EVENT_WRITE) (encode_token (generation p) fd) es) eqn:E0; [left; by exists fd, p|].
        right. exists fd, (after_events fd es p). rewrite Ep. split; [done|]. split; [done|]. unfold after_events. cbn [p_read p_write]. destruct b; by rewrite E0.
Qed.

(** C24: Dispatch is exact.  After any registrations, removals and dispatches
    the operating system watches every descriptor for precisely the
    directions in which somebody waits; a fresh report (one the
    demultiplexer makes in that state) is for the wake-up pipe or carries the
    token of a live registration; and a dispatch, stale and repeated events
    included, calls precisely the handlers that waited for one of its events
    under the current token, after which they no longer wait and all others
    still do. *)
Theorem io_dispatch_exact wake p0 ops :
  consistent p0 -> (forall fd, watched p0 fd = None) -> Forall (op_ok wake) ops -> registrations ops < 2 ^ 32 - 1 ->
  let t := foldl table_op (new_table wake p0) ops in
  (forall fd, watched (platform t) fd = match pending_io t !! fd with
     | Some p => Some (mkInterest (bool_decide (is_Some (p_read p))) (bool_decide (is_Some (p_write p))) (encode_token (generation p) fd))
     | None => if fd =? wake then Some (mkInterest true false 0) else None
     end) /\
  (forall r e, reports r (platform t) -> e ∈ wait_events r (platform t) ->
     user_data e = 0 \/ exists fd p, pending_io t !! fd = Some p /\ encode_token (generation p) fd = user_data e) /\
  (forall es, Forall (fun e => u64_ok (user_data e)) es ->
     (forall x, x ∈ fired (process_io_events es t) <-> was_hit t es x) /\
     (forall fd, pending_io (table (process_io_events es t)) !! fd = after_events fd es <$> pending_io t !! fd)).
Proof.
  intros Hc Hw Ho Hr. cbv zeta. pose proof (registrations_nonneg ops).
  destruct (table_run_ok wake ops 0 (new_table wake p0) ltac:(lia) ltac:(lia) Ho (new_table_ok wake p0 Hc Hw)) as [T _]. rewrite Z.add_0_l in T. set (t := foldl _ _ ops) in *.
  split; [apply (tb_watched _ _ _ T)|]. split.
  - intros r e Hrep Hin. destruct (wait_watched r (platform t) e (tb_platform _ _ _ T) Hrep Hin) as (fd & i & Ei & Eu & _). rewrite (tb_watched _ _ _ T) in Ei.
    destruct (pending_io t !! fd) as [p|] eqn:Ep; [right; exists fd, p; split; [done|]; by injection Ei as <-|]. left. destruct (fd =? wake); [|done]. by injection Ei as <-.
  - intros es Hu. destruct (dispatch_all wake (registrations ops) es t ltac:(lia) T Hu) as (_ & E & F). split; [exact F|exact E].
Qed.
End IoTable.

(** ** Examples *)

(** Descriptor 5 is registered, its number given up and registered again. *)
Definition reuse_before : list (TableOp (H := nat)) := [Register 5 EVENT_READ (Some 1%nat); Register 6 EVENT_WRITE (Some 2%nat)].
Definition reuse_after : list (TableOp (H := nat)) := [Unregister 5; Register 5 (EVENT_READ .| EVENT_WRITE) (Some 3%nat)].
Definition reuse_table : IoTable (P := PollState) (H := nat) := foldl table_op (new_table 3 (mkPoll [] ∅)) (reuse_before ++ reuse_after).

Lemma poll_fresh : @consistent _ _ poll_platform (mkPoll [] ∅) /\ forall fd, @watched _ _ poll_platform (mkPoll [] ∅) fd = None.
Proof.
  split; [|intros fd; cbn; unfold poll_watched; cbn; by rewrite lookup_empty]. split; cbn; [constructor|]. intros fd m. rewrite elem_of_nil. split; [done|]. intros (u & e & E & _). by rewrite lookup_empty in E.
Qed.

Lemma reuse_ok : Forall (op_ok 3) (reuse_before ++ reuse_after).
Proof. repeat (apply Forall_cons; split; [unfold op_ok, fd_ok; lia|]). by apply Forall_nil. Qed.

Lemma stale_events_dropped_witness : process_io_events [mkEvent 5 EVENT_READ (encode_token 1 5)] reuse_table = mkDispatch [] false reuse_table.
Proof.
  refine (stale_events_dropped 3 (mkPoll [] ∅) reuse_before reuse_after 5 (mkPending (Some 1%nat) None 1) (mkEvent 5 EVENT_READ (encode_token 1 5)) (proj1 poll_fresh) (proj2 poll_fresh) reuse_ok _ _ _ _).
  - vm_compute. reflexivity.
  - vm_compute. reflexivity.
  - reflexivity.
  - apply Exists_cons_hd. reflexivity.
Defined.

Lemma io_dispatch_exact_witness : (3%nat, true) ∈ fired (process_io_events [mkEvent 5 EVENT_READ (encode_token 1 5); mkEvent 5 EVENT_READ (encode_token 3 5)] reuse_table).
Proof.
  destruct (io_dispatch_exact 3 (mkPoll [] ∅) (reuse_before ++ reuse_after) (proj1 poll_fresh) (proj2 poll_fresh) reuse_ok) as (_ & _ & Hd); [vm_compute; reflexivity|].
  apply (proj1 (Hd [mkEvent 5 EVENT_READ (encode_token 1 5); mkEvent 5 EVENT_READ (encode_token 3 5)] ltac:(repeat (apply Forall_cons; split; [vm_compute; intuition discriminate|]); by apply Forall_nil))).
  exists 5, (mkPending (Some 3%nat) (Some 3%nat) 3). split; [vm_compute; reflexivity|]. split; vm_compute; reflexivity.
Defined.

(** ** Defects *)

(** A hang-up of a registered descriptor nobody waits for (its handler has run
    and not been registered again) is reported by epoll without being asked
    for, as long as it lasts.  The dispatch neither calls anybody nor changes
    anything, so every [wait] returns at once with the same report. *)
Theorem hangup_spins :
  let t := foldl table_op (new_table 3 (∅ : gmap Z (Z * Z))) [Register 5 EVENT_READ (Some 1%nat); Events [mkEvent 5 EVENT_READ (encode_token 1 5)]] in
  let report := [(EPOLLHUP, encode_token 1 5)] in
  watched (platform t) 5 = Some (mkInterest false false (encode_token 1 5)) /\ reports report (platform t) /\
  process_io_events (wait_events report (platform t)) t = mkDispatch [] false t.
Proof.
  cbv zeta. split; [vm_compute; reflexivity|]. split; [|vm_compute; reflexivity].
  apply Forall_singleton. exists 5, 0. split; [vm_compute; reflexivity|]. split; vm_compute; discriminate.
Qed.
