(* ===== verification/TimerQueue.v ===== *)
(** * The event loop: timers

    The timers of src/platform/io_context.cpp: a priority queue by the next
    time to fire and a set of cancelled timers, from which entries are removed
    when they come to the front.  [std::priority_queue] is used through
    [PriorityQueue], which leaves open which of several equally early entries
    is on top.  Times and intervals are counts of nanoseconds in [int64_t]; where
    the source adds or subtracts them the result wraps around ([s64]), which is
    what the usual targets do where the language leaves the overflow open. *)
From stdpp Require Import gmap sorting.
From S2P Require Import Prelude.

Local Open Scope Z_scope.

Lemma filter_ext_elem {A} (P1 P2 : A -> Prop) `{forall x, Decision (P1 x)} `{forall x, Decision (P2 x)} (l : list A) :
  (forall x, x ∈ l -> P1 x <-> P2 x) -> filter P1 l = filter P2 l.
Proof.
  induction l as [|a l IH]; intros Hx; [done|]. rewrite !filter_cons, IH by (intros; apply Hx; by right). pose proof (Hx a ltac:(left)) as Ha. repeat case_decide; tauto.
Qed.

Lemma filter_all {A} (P : A -> Prop) `{forall x, Decision (P x)} (l : list A) : Forall P l -> filter P l = l.
Proof. induction 1; [done|]. rewrite filter_cons_True by done. by f_equal. Qed.

Lemma filter_none {A} (P : A -> Prop) `{forall x, Decision (P x)} (l : list A) : Forall (fun x => ~ P x) l -> filter P l = [].
Proof. induction 1; [done|]. by rewrite filter_cons_False. Qed.

Section TimerQueue.
Context {C : Type}.

(** What happens at the time: a task is scheduled or a callback posted. *)
Inductive TimerAction := ResumeTask (task : C) | PostCallback (fn : C).

Record TimerEntry := mkTimer { t_id : Z; next_fire : Z; interval : Z; repeat_ : bool; action : TimerAction }.

Class PriorityQueue (Q : Type) := {
  pq_empty : Q;
  pq_push : TimerEntry -> Q -> Q;
  pq_top : Q -> option TimerEntry;
  pq_pop : Q -> Q;
  pq_elements : Q -> list TimerEntry }.

Class PriorityQueueLaws (Q : Type) `{PriorityQueue Q} : Prop := {
  empty_elements : pq_elements pq_empty = [];
  push_elements : forall e q, pq_elements (pq_push e q) ≡ₚ (e :: pq_elements q);
  top_none : forall q, pq_top q = None <-> pq_elements q = [];
  top_least : forall q e, pq_top q = Some e -> forall x, x ∈ pq_elements q -> next_fire e <= next_fire x;
  pop_elements : forall q e, pq_top q = Some e -> pq_elements q ≡ₚ (e :: pq_elements (pq_pop q)) }.

Context {Q : Type} {pq : PriorityQueue Q}.

Record Timers := mkTimers { timers : Q; cancelled_timers : gset Z; next_timer_id : Z }.

Definition kMillisecond : Z := 1000000.

(** A value in [int64_t]. *)
Definition s64 (x : Z) : Z := (x + 2 ^ 63) mod 2 ^ 64 - 2 ^ 63.

(** [add_timer] and [add_timer_callback] differ in the action only.  The
    result says the id and whether the loop has to be woken. *)
Definition add_timer (now first_fire ivl : Z) (rep : bool) (act : TimerAction) (t : Timers) : Z * bool * Timers :=
  let timer_id := next_timer_id t in
  let ivl := if rep && (ivl <=? 0) then kMillisecond else ivl in
  let first_fire := if first_fire <=? now then s64 (now + kMillisecond) else first_fire in
  let should_wake := match pq_top (timers t) with None => true | Some top => first_fire <? next_fire top end in
  (timer_id, should_wake,
   mkTimers (pq_push (mkTimer timer_id first_fire ivl rep act) (timers t)) (cancelled_timers t) (u64 (timer_id + 1))).

Definition cancel_timer (timer_id : Z) (t : Timers) : Timers :=
  mkTimers (timers t) ({[timer_id]} ∪ cancelled_timers t) (next_timer_id t).

(** [timers_.pop()]. *)
Definition pop_timer (t : Timers) : Timers := mkTimers (pq_pop (timers t)) (cancelled_timers t) (next_timer_id t).
(** [timers_.pop(); cancelled_timers_.erase(cancelled)]. *)
Definition drop_cancelled (e : TimerEntry) (t : Timers) : Timers :=
  mkTimers (pq_pop (timers t)) (cancelled_timers t ∖ {[t_id e]}) (next_timer_id t).

Definition reschedule (now : Z) (e : TimerEntry) : TimerEntry :=
  mkTimer (t_id e) (s64 (now + interval e)) (interval e) (repeat_ e) (action e).

(** The loop of [process_timers]: the entries that are due, in the order they
    come out. *)
Definition due_step (now : Z) (st : list TimerEntry * Timers) : (list TimerEntry * Timers) + (list TimerEntry * Timers) :=
  let '(ready, t) := st in
  match pq_top (timers t) with
  | None => inr st
  | Some e =>
      if decide (t_id e ∈ cancelled_timers t) then inl (ready, drop_cancelled e t)
      else if now <? next_fire e then inr st
      else
        let t := pop_timer t in
        let t := if repeat_ e then mkTimers (pq_push (reschedule now e) (timers t)) (cancelled_timers t) (next_timer_id t) else t in
        inl (ready ++ [e], t)
  end.

Definition take_due (now : Z) (t : Timers) : option (list TimerEntry * Timers) :=
  loop (due_step now) (S (length (pq_elements (timers t)))) ([], t).

Definition kDefaultTimeoutMs : Z := 100.
Definition kIntMax : Z := 2 ^ 31 - 1.

Definition timeout_step (now : Z) (t : Timers) : Timers + (Z * Timers) :=
  match pq_top (timers t) with
  | None => inr (kDefaultTimeoutMs, t)
  | Some top =>
      if decide (t_id top ∈ cancelled_timers t) then inl (drop_cancelled top t)
      else if next_fire top <=? now then inr (0, t)
      else inr (Z.min (Z.quot (s64 (next_fire top - now)) kMillisecond) kIntMax, t)
  end.

Definition compute_wait_timeout_ms (now : Z) (t : Timers) : option (Z * Timers) :=
  loop (timeout_step now) (S (length (pq_elements (timers t)))) t.

Definition new_timers : Timers := mkTimers pq_empty ∅ 1.

(** ** What is left to fire *)

Definition live (t : Timers) : list TimerEntry := filter (fun e => t_id e ∉ cancelled_timers t) (pq_elements (timers t)).
Definition due (now : Z) (e : TimerEntry) : Prop := next_fire e <= now.
Global Instance due_dec now e : Decision (due now e).
Proof. unfold due. apply _. Defined.

(** Times and intervals for which nothing overflows: clocks below 2^62 ns, 146
    years, and the period of a repeating timer no longer than that. *)
Definition kSafeTime : Z := 2 ^ 62.
Definition clock_ok (now : Z) : Prop := 0 <= now < kSafeTime.
Definition period_ok (e : TimerEntry) : Prop := repeat_ e = true -> 0 < interval e <= kSafeTime.

Lemma s64_small x : - 2 ^ 63 <= x < 2 ^ 63 -> s64 x = x.
Proof. intros H. unfold s64. rewrite Z.mod_small by lia. lia. Qed.

Record timers_ok (t : Timers) : Prop := {
  to_nodup : NoDup (t_id <$> pq_elements (timers t));
  to_below : Forall (fun e => t_id e < next_timer_id t) (pq_elements (timers t));
  to_cancelled : forall i, i ∈ cancelled_timers t -> i < next_timer_id t;
  to_time : Forall (fun e => next_fire e < 2 ^ 63) (pq_elements (timers t));
  to_interval : Forall period_ok (pq_elements (timers t)) }.

Context {laws : PriorityQueueLaws Q}.

Lemma top_elem q e : pq_top q = Some e -> e ∈ pq_elements q.
Proof. intros E. rewrite (pop_elements q e E). left. Qed.

(** A cancelled entry is dropped: nothing live changes. *)
Lemma drop_live e t : timers_ok t -> pq_top (timers t) = Some e -> t_id e ∈ cancelled_timers t ->
  timers_ok (drop_cancelled e t) /\ live (drop_cancelled e t) ≡ₚ live t /\ length (pq_elements (timers t)) = S (length (pq_elements (timers (drop_cancelled e t)))).
Proof.
  intros [H1 H2 H3 Ht H4] Et Hc. pose proof (pop_elements _ _ Et) as Ep. unfold drop_cancelled, live. cbn [timers cancelled_timers next_timer_id].
  rewrite Ep in H1, H2, Ht, H4. cbn [fmap list_fmap] in H1. apply NoDup_cons in H1 as [Hn H1]. apply Forall_cons in H2 as [_ H2]. apply Forall_cons in Ht as [_ Ht]. apply Forall_cons in H4 as [_ H4]. split; [|split].
  - split; cbn [timers cancelled_timers next_timer_id]; [done|done| |done|done]. intros i Hi. apply H3. set_solver.
  - rewrite Ep, filter_cons_False by tauto. erewrite filter_ext_elem; [reflexivity|]. intros x Hx. cbn.
    assert (t_id x <> t_id e) by (intros E; apply Hn; rewrite <- E; by apply list_elem_of_fmap_2). set_solver.
  - by rewrite Ep.
Qed.

(** A live entry is taken off the front. *)
Lemma pop_live e t : timers_ok t -> pq_top (timers t) = Some e -> t_id e ∉ cancelled_timers t ->
  timers_ok (pop_timer t) /\ live t ≡ₚ (e :: live (pop_timer t)) /\ length (pq_elements (timers t)) = S (length (pq_elements (timers (pop_timer t)))) /\
  t_id e ∉ (t_id <$> pq_elements (timers (pop_timer t))) /\ period_ok e /\ t_id e < next_timer_id t.
Proof.
  intros [H1 H2 H3 Ht H4] Et Hc. pose proof (pop_elements _ _ Et) as Ep. unfold pop_timer, live. cbn [timers cancelled_timers next_timer_id].
  rewrite Ep in H1, H2, Ht, H4. cbn [fmap list_fmap] in H1. apply NoDup_cons in H1 as [Hn H1]. apply Forall_cons in H2 as [Hb H2]. apply Forall_cons in Ht as [_ Ht]. apply Forall_cons in H4 as [Hi H4].
  split_and!; [by split|by rewrite Ep, filter_cons_True|by rewrite Ep|done|done|done].
Qed.

Lemma push_live e t : timers_ok t -> t_id e ∉ (t_id <$> pq_elements (timers t)) -> t_id e < next_timer_id t -> t_id e ∉ cancelled_timers t -> next_fire e < 2 ^ 63 -> period_ok e ->
  let t' := mkTimers (pq_push e (timers t)) (cancelled_timers t) (next_timer_id t) in timers_ok t' /\ live t' ≡ₚ (e :: live t).
Proof.
  intros [H1 H2 H3 Ht H4] Hn Hb Hc Hf Hi. cbv zeta. unfold live. cbn [timers cancelled_timers]. pose proof (push_elements e (timers t)) as Ep. split.
  - split; cbn [timers cancelled_timers next_timer_id]; [|rewrite Ep; by apply Forall_cons|done|rewrite Ep; by apply Forall_cons..].
    rewrite Ep. cbn. by apply NoDup_cons.
  - by rewrite Ep, filter_cons_True.
Qed.

(** ** The due timers *)

(** A repeating timer is next due one interval after [now]. *)
Definition next_round (now : Z) (e : TimerEntry) : TimerEntry := mkTimer (t_id e) (now + interval e) (interval e) (repeat_ e) (action e).
Definition renew (now : Z) (ready : list TimerEntry) : list TimerEntry := next_round now <$> filter (fun e => repeat_ e = true) ready.

Lemma reschedule_exact now e : clock_ok now -> period_ok e -> repeat_ e = true -> reschedule now e = next_round now e /\ now < next_fire (next_round now e) < 2 ^ 63.
Proof.
  intros Hn Hp Hr. specialize (Hp Hr). unfold clock_ok, kSafeTime in *. unfold reschedule, next_round. rewrite s64_small by lia. split; [done|]. cbn. lia.
Qed.

(** What is true between the rounds of the loop that started in [t0]. *)
Record taking (now : Z) (t0 : Timers) (st : list TimerEntry * Timers) : Prop := {
  tk_ok : timers_ok st.2;
  tk_id : next_timer_id st.2 = next_timer_id t0;
  tk_cancelled : cancelled_timers st.2 ⊆ cancelled_timers t0;
  tk_live : exists rest, live t0 ≡ₚ st.1 ++ rest /\ live st.2 ≡ₚ rest ++ renew now st.1;
  tk_due : Forall (due now) st.1;
  tk_interval : Forall period_ok st.1;
  tk_sorted : Sorted (fun a b => next_fire a <= next_fire b) st.1;
  tk_last : forall e x, last st.1 = Some e -> x ∈ live st.2 -> next_fire e <= next_fire x }.

Lemma renew_later now ready x : Forall period_ok ready -> x ∈ renew now ready -> now < next_fire x.
Proof.
  intros Hf Hx. unfold renew in Hx. apply list_elem_of_fmap in Hx as (e & -> & He). apply list_elem_of_filter in He as [Hr He]. rewrite Forall_forall in Hf. specialize (Hf e He Hr). cbn. lia.
Qed.

Lemma renew_snoc now ready e : renew now (ready ++ [e]) = renew now ready ++ (if repeat_ e then [next_round now e] else []).
Proof. unfold renew. rewrite filter_app, fmap_app. f_equal. rewrite filter_cons. destruct (repeat_ e); by case_decide. Qed.

Lemma live_elem x t : x ∈ live t <-> t_id x ∉ cancelled_timers t /\ x ∈ pq_elements (timers t).
Proof. unfold live. by rewrite list_elem_of_filter. Qed.

Lemma due_step_taking now t0 st st' : clock_ok now -> taking now t0 st -> due_step now st = inl st' -> taking now t0 st'.
Proof.
  destruct st as [ready t]. intros Hnow [H1 H2 H3 (rest & H4 & H5) H6 Hi H7 H8] E. cbn [fst snd] in *. unfold due_step in E. destruct (pq_top (timers t)) as [e|] eqn:Et; [|done].
  destruct (decide (t_id e ∈ cancelled_timers t)) as [Hc|Hc].
  - injection E as <-. destruct (drop_live e t H1 Et Hc) as (K1 & K2 & _). split; cbn [fst snd]; [done|done| |exists rest; by rewrite K2|done|done|done|].
    + unfold drop_cancelled. cbn. set_solver.
    + intros e' x El. rewrite K2. by apply H8.
  - destruct (Z.ltb_spec now (next_fire e)) as [|Hd]; [done|]. injection E as <-. destruct (pop_live e t H1 Et Hc) as (K1 & K2 & _ & K3 & K4 & K5).
    set (t1 := pop_timer t) in *. set (t2 := if repeat_ e then _ else t1).
    assert (K6 : timers_ok t2 /\ live t2 ≡ₚ live t1 ++ (if repeat_ e then [next_round now e] else []) /\ next_timer_id t2 = next_timer_id t /\ cancelled_timers t2 = cancelled_timers t).
    { unfold t2. destruct (repeat_ e) eqn:Er; [|by rewrite app_nil_r]. destruct (reschedule_exact now e Hnow K4 Er) as [Ex [_ Hlt]]. rewrite Ex. destruct (push_live (next_round now e) t1 K1 K3 K5 Hc Hlt K4) as [K6 K7].
      split; [exact K6|]. split; [|done]. etrans; [exact K7|]. apply Permutation_cons_append. }
    clearbody t2. destruct K6 as (K6 & K7 & K8 & K9). assert (Hle : e ∈ live t) by (rewrite live_elem; split; [done|by apply top_elem]).
    assert (Hrest : exists rest', rest ≡ₚ (e :: rest') /\ live t1 ≡ₚ rest' ++ renew now ready).
    { assert (He : e ∈ rest ++ renew now ready) by by rewrite <- H5. apply elem_of_app in He as [He|He].
      - apply elem_of_Permutation in He as [rest' He]. exists rest'. split; [done|]. apply (Permutation_cons_inv (a := e)). rewrite <- K2, H5, He. done.
      - exfalso. apply renew_later in He; [lia|done]. }
    destruct Hrest as (rest' & R1 & R2). split; cbn [fst snd].
    + done.
    + congruence.
    + by rewrite K9.
    + exists rest'. split; [rewrite H4, R1; by rewrite <- app_assoc|]. by rewrite K7, R2, renew_snoc, <- app_assoc.
    + apply Forall_app. split; [done|]. by apply Forall_singleton.
    + apply Forall_app. split; [done|]. by apply Forall_singleton.
    + apply Sorted_snoc; [done|]. destruct ready as [|y l _] using rev_ind; constructor. apply (H8 y e); [apply last_snoc|done].
    + intros e' x El Hx. rewrite last_snoc in El. injection El as <-. rewrite K7 in Hx. apply elem_of_app in Hx as [Hx|Hx].
      * apply (top_least _ _ Et). assert (Hl : x ∈ live t) by (rewrite K2; by right). by apply live_elem in Hl as [_ ?].
      * destruct (repeat_ e) eqn:Er; [|by apply elem_of_nil in Hx]. apply list_elem_of_singleton in Hx as ->. cbn. specialize (K4 Er). lia.
Qed.

(** The entries the loop still has to look at. *)
Definition to_visit (now : Z) (t : Timers) : nat :=
  length (filter (fun e => due now e \/ t_id e ∈ cancelled_timers t) (pq_elements (timers t))).

Lemma due_step_visits now st st' : clock_ok now -> timers_ok st.2 -> due_step now st = inl st' -> (to_visit now st'.2 < to_visit now st.2)%nat.
Proof.
  destruct st as [ready t]. cbn [snd]. intros Hnow Ht E. unfold due_step in E. destruct (pq_top (timers t)) as [e|] eqn:Et; [|done]. pose proof (pop_elements _ _ Et) as Ep.
  destruct (decide (t_id e ∈ cancelled_timers t)) as [Hc|Hc].
  - injection E as <-. unfold to_visit. cbn [snd drop_cancelled timers cancelled_timers]. rewrite Ep, filter_cons_True by by right. cbn [length].
    assert (Hle : (length (filter (fun x => due now x \/ t_id x ∈ cancelled_timers t ∖ {[t_id e]}) (pq_elements (pq_pop (timers t)))) <=
      length (filter (fun x => due now x \/ t_id x ∈ cancelled_timers t) (pq_elements (pq_pop (timers t)))))%nat); [|lia].
    apply sublist_length. generalize (pq_elements (pq_pop (timers t))). intros l. induction l as [|x l IH]; [done|]. rewrite !filter_cons.
    repeat case_decide; first [by apply sublist_skip|by apply sublist_cons|done|set_solver].
  - destruct (Z.ltb_spec now (next_fire e)) as [|Hd]; [done|]. destruct (pop_live e t Ht Et Hc) as (_ & _ & _ & _ & K4 & _). injection E as <-. unfold to_visit. cbn [snd].
    destruct (repeat_ e) eqn:Er; cbn [timers cancelled_timers pop_timer]; rewrite ?push_elements, Ep, (filter_cons_True _ e) by (by left); cbn [length]; [|lia].
    destruct (reschedule_exact now e Hnow K4 Er) as [-> [Hlt _]]. rewrite filter_cons_False; [lia|]. unfold due. intros [?|?]; [lia|done].
Qed.

Lemma take_due_spec now t : clock_ok now -> timers_ok t -> exists ready t', take_due now t = Some (ready, t') /\ timers_ok t' /\
  next_timer_id t' = next_timer_id t /\ cancelled_timers t' ⊆ cancelled_timers t /\
  ready ≡ₚ filter (due now) (live t) /\ Sorted (fun a b => next_fire a <= next_fire b) ready /\
  live t' ≡ₚ filter (fun e => ~ due now e) (live t) ++ renew now ready.
Proof.
  intros Hnow Ht. assert (H0 : taking now t ([], t)).
  { split; cbn [fst snd]; [done|done|done| |by apply Forall_nil|by apply Forall_nil|constructor|done].
    exists (live t). split; [done|]. unfold renew. cbn. by rewrite app_nil_r. }
  destruct (loop_total (due_step now) (taking now t) (fun st => to_visit now st.2)) with (fuel := S (length (pq_elements (timers t)))) (s := ([] : list TimerEntry, t)) as [[ready t'] E].
  - intros st st' Hs E. split; [by eapply due_step_taking|]. apply due_step_visits with (st := st); [done|apply Hs|done].
  - done.
  - cbn [snd]. unfold to_visit. apply le_n_S, length_filter.
  - exists ready, t'. split; [exact E|].
    assert (Hend : taking now t (ready, t') /\ forall e, e ∈ live t' -> now < next_fire e).
    { refine (loop_post (due_step now) (taking now t) (fun r => taking now t r /\ forall e, e ∈ live r.2 -> now < next_fire e) _ _ _ _ _ H0 E); [intros; by eapply due_step_taking|].
      intros [rd tt] r Hs Es. unfold due_step in Es. destruct (pq_top (timers tt)) as [e|] eqn:Et.
      - destruct (decide (t_id e ∈ cancelled_timers tt)); [done|]. destruct (Z.ltb_spec now (next_fire e)); [|done]. injection Es as <-. split; [done|]. cbn [snd].
        intros x Hx. apply live_elem in Hx as [_ Hx]. pose proof (top_least _ _ Et x Hx). lia.
      - injection Es as <-. split; [done|]. cbn [snd]. intros x Hx. apply live_elem in Hx as [_ Hx]. apply top_none in Et. rewrite Et in Hx. by apply elem_of_nil in Hx. }
    destruct Hend as [[K1 K2 K3 (rest & K4 & K5) K6 K7 K8 K9] Hlate]. cbn [fst snd] in *. split_and!; [done..| | |].
    + rewrite K4, filter_app, (filter_all _ ready K6), (filter_none _ rest); [by rewrite app_nil_r|]. apply Forall_forall. intros x Hx. unfold due.
      assert (now < next_fire x) by (apply Hlate; rewrite K5; apply elem_of_app; by left). lia.
    + done.
    + rewrite K5, K4, filter_app, (filter_none (fun e => ~ due now e) ready), (filter_all _ rest); [done| |].
      * apply Forall_forall. intros x Hx. unfold due. assert (now < next_fire x) by (apply Hlate; rewrite K5; apply elem_of_app; by left). lia.
      * eapply Forall_impl; [exact K6|]. intros x Hx Hn. by apply Hn.
Qed.

(** ** The time to wait *)

Lemma timeout_spec now t : clock_ok now -> timers_ok t -> exists ms t', compute_wait_timeout_ms now t = Some (ms, t') /\ timers_ok t' /\
  next_timer_id t' = next_timer_id t /\ cancelled_timers t' ⊆ cancelled_timers t /\ live t' ≡ₚ live t /\
  (live t = [] -> ms = kDefaultTimeoutMs) /\
  (forall e, e ∈ live t -> 0 <= ms /\ (now < next_fire e -> now + ms * kMillisecond <= next_fire e) /\ (due now e -> ms = 0)) /\
  (live t <> [] -> exists e, e ∈ live t /\ (next_fire e < now + (ms + 1) * kMillisecond \/ ms = kIntMax)).
Proof.
  intros Hnow Ht. set (I := fun s => timers_ok s /\ live s ≡ₚ live t /\ next_timer_id s = next_timer_id t /\ cancelled_timers s ⊆ cancelled_timers t).
  assert (H0 : I t) by done. assert (Hstep : forall s s', I s -> timeout_step now s = inl s' -> I s' /\ (length (pq_elements (timers s')) < length (pq_elements (timers s)))%nat).
  { intros s s' (J1 & J2 & J3 & J4) E. unfold timeout_step in E. destruct (pq_top (timers s)) as [e|] eqn:Et; [|done]. destruct (decide _) as [Hc|]; [|by destruct (_ <=? _)].
    injection E as <-. destruct (drop_live e s J1 Et Hc) as (K1 & K2 & K3). split; [|lia]. split_and!; [done|by rewrite K2|done|]. unfold drop_cancelled. cbn. set_solver. }
  destruct (loop_total (timeout_step now) I (fun s => length (pq_elements (timers s))) Hstep (S (length (pq_elements (timers t)))) t H0 ltac:(lia)) as [[ms t'] E].
  exists ms, t'. split; [exact E|]. refine (loop_post (timeout_step now) I (fun r => timers_ok r.2 /\ next_timer_id r.2 = next_timer_id t /\ cancelled_timers r.2 ⊆ cancelled_timers t /\ live r.2 ≡ₚ live t /\
    (live t = [] -> r.1 = kDefaultTimeoutMs) /\ (forall e, e ∈ live t -> 0 <= r.1 /\ (now < next_fire e -> now + r.1 * kMillisecond <= next_fire e) /\ (due now e -> r.1 = 0)) /\
    (live t <> [] -> exists e, e ∈ live t /\ (next_fire e < now + (r.1 + 1) * kMillisecond \/ r.1 = kIntMax))) _ _ _ _ _ H0 E); [intros s s' Hs Es; by apply (Hstep s s' Hs Es)|].
  intros s r (J1 & J2 & J3 & J4) Es. unfold timeout_step in Es. destruct (pq_top (timers s)) as [e|] eqn:Et.
  - destruct (decide _) as [|Hc]; [done|]. assert (He : e ∈ live t) by (rewrite <- J2; apply live_elem; split; [done|by apply top_elem]).
    assert (Hmin : forall x, x ∈ live t -> next_fire e <= next_fire x) by (intros x Hx; rewrite <- J2 in Hx; apply live_elem in Hx as [_ Hx]; by apply (top_least _ _ Et)).
    assert (Hne : live t = [] -> r.1 = kDefaultTimeoutMs) by (intros E0; rewrite E0 in He; by apply elem_of_nil in He).
    assert (Hmax : next_fire e < 2 ^ 63) by (pose proof (to_time _ J1) as Hx; rewrite Forall_forall in Hx; by apply Hx, top_elem).
    destruct (Z.leb_spec (next_fire e) now) as [Hle|Hlt]; [|rewrite s64_small in Es by (unfold clock_ok in Hnow; lia)]; injection Es as <-; cbn [fst snd] in *; split_and!; try done.
    + intros x Hx. specialize (Hmin x Hx). split; [lia|]. split; [lia|done].
    + intros _. exists e. split; [done|]. unfold kMillisecond. lia.
    + intros x Hx. specialize (Hmin x Hx). pose proof (Z.quot_pos (next_fire e - now) kMillisecond ltac:(lia) ltac:(by unfold kMillisecond)) as Hq.
      pose proof (Z.mul_quot_le (next_fire e - now) kMillisecond ltac:(lia) ltac:(by unfold kMillisecond)) as Hm. unfold due, kIntMax, kMillisecond in *. split; [lia|]. split; [lia|lia].
    + intros _. exists e. split; [done|]. pose proof (Z.mul_succ_quot_gt (next_fire e - now) kMillisecond ltac:(lia) ltac:(by unfold kMillisecond)) as Hm.
      destruct (Z.min_spec (Z.quot (next_fire e - now) kMillisecond) kIntMax) as [[_ ->]|[_ ->]]; [left|by right]. lia.
  - injection Es as <-. cbn [fst snd]. apply top_none in Et. assert (El : live t = []) by (apply Permutation_nil_r; rewrite <- J2; unfold live; by rewrite Et).
    split_and!; try done. intros x Hx. rewrite El in Hx. by apply elem_of_nil in Hx.
Qed.

(** ** The abstract timers: the ones that will still fire *)

Inductive TimerOp :=
| AddTimer (now first_fire ivl : Z) (rep : bool) (act : TimerAction)
| CancelTimer (timer_id : Z)
| ProcessTimers (now : Z)
| WaitTimeout (now : Z).

Inductive TimerOut := Added (timer_id : Z) | Cancelled | Fired (ready : list TimerEntry) | Timeout (ms : Z).

Definition timer_op (t : Timers) (op : TimerOp) : option (TimerOut * Timers) :=
  match op with
  | AddTimer now first ivl rep act => let '(i, _, t) := add_timer now first ivl rep act t in Some (Added i, t)
  | CancelTimer i => Some (Cancelled, cancel_timer i t)
  | ProcessTimers now => '(ready, t) ← take_due now t; Some (Fired ready, t)
  | WaitTimeout now => '(ms, t) ← compute_wait_timeout_ms now t; Some (Timeout ms, t)
  end.

Fixpoint timer_run (ops : list TimerOp) (t : Timers) : option (list TimerOut * Timers) :=
  match ops with
  | [] => Some ([], t)
  | op :: ops => '(out, t) ← timer_op t op; '(outs, t) ← timer_run ops t; Some (out :: outs, t)
  end.

(** [n] timers were added, [m] of them are still to fire. *)
Inductive timer_spec (n : Z) (m : list TimerEntry) : TimerOp -> TimerOut -> Z -> list TimerEntry -> Prop :=
| spec_add now first ivl rep act first' ivl' m' :
    now < first' -> first <= first' -> (now < first -> first' = first) -> (rep = true -> 0 < ivl') -> (0 < ivl -> ivl' = ivl) ->
    m' ≡ₚ (mkTimer (n + 1) first' ivl' rep act :: m) ->
    timer_spec n m (AddTimer now first ivl rep act) (Added (n + 1)) (n + 1) m'
| spec_cancel i m' : m' ≡ₚ filter (fun e => t_id e <> i) m -> timer_spec n m (CancelTimer i) Cancelled n m'
| spec_fire now ready m' : ready ≡ₚ filter (due now) m -> Sorted (fun a b => next_fire a <= next_fire b) ready ->
    m' ≡ₚ filter (fun e => ~ due now e) m ++ renew now ready -> timer_spec n m (ProcessTimers now) (Fired ready) n m'
| spec_wait now ms m' : (m = [] -> ms = kDefaultTimeoutMs) ->
    (forall e, e ∈ m -> 0 <= ms /\ (now < next_fire e -> now + ms * kMillisecond <= next_fire e) /\ (due now e -> ms = 0)) ->
    (m <> [] -> exists e, e ∈ m /\ (next_fire e < now + (ms + 1) * kMillisecond \/ ms = kIntMax)) ->
    m' ≡ₚ m -> timer_spec n m (WaitTimeout now) (Timeout ms) n m'.

Inductive timer_specs : Z -> list TimerEntry -> list TimerOp -> list TimerOut -> Z -> list TimerEntry -> Prop :=
| specs_nil n m : timer_specs n m [] [] n m
| specs_cons n m op out n1 m1 ops outs n2 m2 : timer_spec n m op out n1 m1 -> timer_specs n1 m1 ops outs n2 m2 ->
    timer_specs n m (op :: ops) (out :: outs) n2 m2.

(** Only timers that were added are cancelled, and no time overflows. *)
Definition timer_op_ok (n : Z) (op : TimerOp) : Prop :=
  match op with
  | AddTimer now first ivl rep _ => clock_ok now /\ first < 2 ^ 63 /\ (rep = true -> ivl <= kSafeTime)
  | CancelTimer i => i <= n
  | ProcessTimers now | WaitTimeout now => clock_ok now
  end.

Fixpoint timer_ops_ok (n : Z) (ops : list TimerOp) : Prop :=
  match ops with
  | [] => n < 2 ^ 64 - 1
  | op :: ops => timer_op_ok n op /\ timer_ops_ok (match op with AddTimer _ _ _ _ _ => n + 1 | _ => n end) ops
  end.

Lemma timer_ops_below n ops : timer_ops_ok n ops -> n < 2 ^ 64 - 1.
Proof. revert n. induction ops as [|op ops IH]; intros n; cbn; [done|]. intros [_ H]. destruct op; apply IH in H; lia. Qed.

Lemma cancel_live i t : live (cancel_timer i t) = filter (fun e => t_id e <> i) (live t).
Proof.
  unfold live. cbn [cancel_timer timers cancelled_timers]. rewrite list_filter_filter. apply list_filter_iff. intros e. set_solver.
Qed.

Lemma timer_op_spec n t op : 0 <= n -> timers_ok t -> next_timer_id t = n + 1 -> timer_op_ok n op -> timer_ops_ok n [op] -> exists out t' n' ,
  timer_op t op = Some (out, t') /\ timers_ok t' /\ next_timer_id t' = n' + 1 /\ n' = (match op with AddTimer _ _ _ _ _ => n + 1 | _ => n end) /\
  timer_spec n (live t) op out n' (live t').
Proof.
  intros H0 Ht Hn Ho Hb. destruct op as [now first ivl rep act|i|now|now]; cbn [timer_op].
  - cbn in Ho, Hb. destruct Hb as [_ Hb]. destruct Ho as (Hnow & Hfirst & Hivl). unfold add_timer. rewrite Hn, (s64_small (now + kMillisecond)) by (unfold clock_ok, kSafeTime, kMillisecond in *; lia). set (e := mkTimer _ _ _ _ _). eexists _, _, (n + 1). split; [done|]. rewrite u64_small by (unfold u64_ok; lia).
    pose proof Ht as [H1 H2 H3 H5 H4]. set (t1 := mkTimers (timers t) (cancelled_timers t) (n + 1 + 1)). assert (Ht1 : timers_ok t1).
    { split; cbn; [done| | |done|done]; [eapply Forall_impl; [exact H2|]; cbn; lia|]. intros i Hi. apply H3 in Hi. lia. }
    assert (Hnew : t_id e ∉ (t_id <$> pq_elements (timers t1))).
    { intros Hin. apply list_elem_of_fmap in Hin as (x & Ex & Hx). rewrite Forall_forall in H2. specialize (H2 x Hx). cbn in Ex. lia. }
    destruct (push_live e t1 Ht1 Hnew) as [K1 K2]; [cbn; lia|intros Hc; apply H3 in Hc; cbn in Hc; lia| | |].
    { cbn. destruct (Z.leb_spec first now); [unfold clock_ok, kSafeTime, kMillisecond in *|]; lia. }
    { unfold period_ok. cbn. intros ->. cbn. destruct (Z.leb_spec ivl 0); [unfold kMillisecond, kSafeTime; lia|]. specialize (Hivl eq_refl). lia. }
    split; [exact K1|]. split; [done|]. split; [done|]. apply (spec_add n (live t) now first ivl rep act (next_fire e) (interval e)); cbn.
    + destruct (Z.leb_spec first now); [unfold kMillisecond|]; lia.
    + destruct (Z.leb_spec first now); [unfold kMillisecond|]; lia.
    + intros Hlt. by destruct (Z.leb_spec first now); [lia|].
    + intros ->. cbn. destruct (Z.leb_spec ivl 0); [done|lia].
    + intros Hp. destruct (Z.leb_spec ivl 0); [lia|]. by destruct rep.
    + exact K2.
  - eexists _, _, n. split; [done|]. split; [|split; [done|split; [done|]]].
    + pose proof Ht as [H1 H2 H3 H5 H4]. split; cbn; [done|done| |done|done]. intros j Hj. cbn in Ho. apply elem_of_union in Hj as [Hj|Hj]; [apply elem_of_singleton in Hj as ->; lia|by apply H3].
    + constructor. by rewrite cancel_live.
  - destruct (take_due_spec now t Ho Ht) as (ready & t' & -> & K1 & K2 & _ & K3 & K4 & K5). eexists _, t', n. split; [done|]. split; [done|]. split; [lia|]. split; [done|]. by constructor.
  - destruct (timeout_spec now t Ho Ht) as (ms & t' & -> & K1 & K2 & _ & K3 & K4 & K5 & K6). eexists _, t', n. split; [done|]. split; [done|]. split; [lia|]. split; [done|]. by constructor.
Qed.

Lemma new_timers_ok : timers_ok new_timers.
Proof. split; cbn; rewrite ?empty_elements; [by apply NoDup_nil|by apply Forall_nil|set_solver|by apply Forall_nil|by apply Forall_nil]. Qed.

(** C25: The timers implement a set of pending timers.  For every sequence of
    additions, cancellations, processing and computations of the waiting
    time in which no time overflows ([timer_ops_ok]: the clock is between 0
    and 2^62 ns, 146 years, the period of a repeating timer at most that
    long, only ids that were given out are cancelled, and fewer than 2^64 - 1
    are given out; see [timer_overflow_spins] for longer periods), every loop ends, and the results are those of the set of timers
    that are neither cancelled nor done: a timer never fires early, fires at
    the first processing at or after its time, in the order of the times,
    one-shot timers once and repeating ones again one interval after the
    processing; a cancelled timer does not fire again; the loop never sleeps
    past a pending timer, nor wakes a millisecond before the first. *)
Theorem timers_refine ops : timer_ops_ok 0 ops -> exists outs t n m,
  timer_run ops new_timers = Some (outs, t) /\ timer_specs 0 [] ops outs n m /\ live t ≡ₚ m.
Proof.
  intros Hok. assert (Hg : forall n t, 0 <= n -> timer_ops_ok n ops -> timers_ok t -> next_timer_id t = n + 1 ->
    exists outs t' n', timer_run ops t = Some (outs, t') /\ timer_specs n (live t) ops outs n' (live t')).
  { clear Hok. induction ops as [|op ops IH]; intros n t H0 Hok Ht Hn; cbn [timer_run]; [exists [], t, n; split; [done|constructor]|].
    cbn in Hok. destruct Hok as [Ho Hok]. destruct (timer_op_spec n t op H0 Ht Hn Ho) as (out & t1 & n1 & E1 & K1 & K2 & -> & K3).
    { cbn. split; [done|]. by apply timer_ops_below in Hok. }
    rewrite E1. cbn [mbind option_bind]. destruct (IH (match op with AddTimer _ _ _ _ _ => n + 1 | _ => n end) t1 ltac:(destruct op; lia) Hok K1 K2) as (outs & t' & n' & E & K). rewrite E. cbn [mbind option_bind].
    exists (out :: outs), t', n'. split; [done|]. by econstructor. }
  destruct (Hg 0 new_timers ltac:(lia) Hok) as (outs & t & n & E & K); [apply new_timers_ok|done|].
  exists outs, t, n, (live t). split; [done|]. split; [|done]. replace (@nil TimerEntry) with (live new_timers); [done|]. unfold live. cbn. by rewrite empty_elements.
Qed.
End TimerQueue.

(** ** A priority queue *)

Section ListQueue.
Context {C : Type}.

Fixpoint least (l : list (TimerEntry (C := C))) : option TimerEntry :=
  match l with
  | [] => None
  | e :: l => match least l with Some x => Some (if next_fire x <? next_fire e then x else e) | None => Some e end
  end.

Fixpoint without_least (l : list (TimerEntry (C := C))) : list TimerEntry :=
  match l with
  | [] => []
  | e :: l => match least l with Some x => if next_fire x <? next_fire e then e :: without_least l else l | None => l end
  end.

Global Instance list_queue : PriorityQueue (list (TimerEntry (C := C))) :=
  {| pq_empty := []; pq_push e l := l ++ [e]; pq_top := least; pq_pop := without_least; pq_elements l := l |}.

Lemma least_none l : least l = None <-> l = [].
Proof. destruct l as [|e l]; [done|]. cbn. destruct (least l); done. Qed.

Global Instance list_queue_laws : PriorityQueueLaws (list (TimerEntry (C := C))).
Proof.
  split; cbn [pq_empty pq_push pq_top pq_pop pq_elements list_queue].
  - done.
  - intros e q. symmetry. apply Permutation_cons_append.
  - apply least_none.
  - intros q. induction q as [|a q IH]; intros e E x Hx; [done|]. cbn [least] in E. apply elem_of_cons in Hx. destruct (least q) as [y|] eqn:El.
    + injection E as <-. specialize (IH y eq_refl). destruct (Z.ltb_spec (next_fire y) (next_fire a)); destruct Hx as [->|Hx]; try lia; specialize (IH x Hx); lia.
    + injection E as <-. apply least_none in El as ->. destruct Hx as [->|Hx]; [lia|by apply elem_of_nil in Hx].
  - intros q. induction q as [|a q IH]; intros e E; [done|]. cbn [least without_least] in *. destruct (least q) as [y|] eqn:El.
    + injection E as <-. destruct (next_fire y <? next_fire a); [|done]. rewrite (IH y eq_refl) at 1. apply Permutation_swap.
    + injection E as <-. done.
Qed.
End ListQueue.

(** ** Example *)

(** Two timers, one repeating; the first to fire is cancelled in time, and the
    repeating one fires late and again one interval later. *)
Definition timer_demo : list (TimerOp (C := nat)) :=
  [AddTimer 0 5000000 0 false (PostCallback 1%nat); AddTimer 0 7000000 2000000 true (PostCallback 2%nat); WaitTimeout 1000000; CancelTimer 1;
   ProcessTimers 7500000; ProcessTimers 9000000; ProcessTimers 9500000].

Lemma timer_demo_runs : fst <$> timer_run timer_demo (new_timers (Q := list TimerEntry)) = Some
  [Added 1; Added 2; Timeout 4; Cancelled; Fired [mkTimer 2 7000000 2000000 true (PostCallback 2%nat)]; Fired []; Fired [mkTimer 2 9500000 2000000 true (PostCallback 2%nat)]].
Proof. vm_compute. reflexivity. Qed.

Lemma timers_refine_witness : exists outs t n m, timer_run timer_demo (new_timers (Q := list TimerEntry)) = Some (outs, t) /\ timer_specs 0 [] timer_demo outs n m /\ live t ≡ₚ m.
Proof. apply (timers_refine timer_demo). vm_compute. intuition discriminate. Defined.

(** ** Defects *)

(** The mark of a timer that is cancelled after it has fired is never erased:
    only the entry of that timer in the queue would take it along, and there
    is none any more. *)
Theorem cancel_after_fire_leaks {C Q : Type} {pq : PriorityQueue (C := C) Q} {laws : PriorityQueueLaws Q} now i (t : Timers (Q := Q)) ready t' :
  timers_ok t -> i ∉ t_id <$> pq_elements (timers t) -> i ∈ cancelled_timers t -> take_due now t = Some (ready, t') ->
  i ∈ cancelled_timers t' /\ i ∉ t_id <$> pq_elements (timers t').
Proof.
  intros Ht Hn Hc E. set (I := fun st : list (TimerEntry (C := C)) * Timers (Q := Q) => i ∈ cancelled_timers st.2 /\ i ∉ t_id <$> pq_elements (timers st.2)).
  refine (loop_post (due_step now) I I _ _ _ _ _ (conj Hc Hn : I ([], t)) E).
  - intros [rd s] st' [J1 J2] Es. cbn [snd] in *. unfold due_step in Es. destruct (pq_top (timers s)) as [e|] eqn:Et; [|done]. pose proof (pop_elements _ _ Et) as Ep. rewrite Ep in J2. cbn [fmap list_fmap] in J2.
    destruct (decide _) as [Hd|Hd]; [injection Es as <-; unfold I; cbn; split; set_solver|]. destruct (now <? next_fire e); [done|]. injection Es as <-. unfold I. cbn [snd].
    destruct (repeat_ e); cbn [timers cancelled_timers pop_timer]; [|split; [done|set_solver]]. split; [done|]. rewrite push_elements. cbn [fmap list_fmap reschedule t_id]. set_solver.
  - intros [rd s] r Hi Es. unfold due_step in Es. destruct (pq_top (timers s)) as [e|]; [|by injection Es as <-]. destruct (decide _); [done|]. destruct (now <? next_fire e); [by injection Es as <-|done].
Qed.

(** A repeating timer whose period does not fit between now and the end of the
    clock's range: the sum overflows into the past, the timer is due again at
    once, and [process_timers] never comes out of its loop, holding the mutex
    and collecting entries. *)
Theorem timer_overflow_spins fuel :
  let t := (add_timer (Q := list (TimerEntry (C := nat))) 0 1000000 (2 ^ 63 - 1) true (PostCallback 1%nat) new_timers).2 in
  loop (due_step 1000000) fuel ([], t) = None.
Proof.
  assert (H : forall n ready nf, nf <= 1000000 ->
    loop (due_step 1000000) n (ready, mkTimers [mkTimer 1 nf (2 ^ 63 - 1) true (PostCallback 1%nat)] ∅ 2) = None).
  { induction n as [|n IH]; intros ready nf Hn; [done|]. cbn [loop]. unfold due_step. cbn [pq_top timers list_queue least t_id cancelled_timers]. rewrite decide_False by set_solver.
    rewrite (proj2 (Z.ltb_ge _ _)) by exact Hn. apply (IH (ready ++ [_]) (s64 (1000000 + (2 ^ 63 - 1)))). vm_compute. discriminate. }
  apply (H fuel [] 1000000). lia.
Qed.
