(* ===== verification/EventLoop.v ===== *)
(** * The event loop

    [IOContext] of src/platform/io_context.cpp: the thread that executes
    [run()], the worker threads it starts, and everything the application's
    code may do to the loop from a callback or from a thread of its own.  What
    a thread has still to execute is an explicit stack of [Item]s, so that code
    that runs inline (a callback given to [post_to_io_thread] on the loop's own
    thread, a task scheduled without worker threads) runs before its caller
    goes on, as it does on the C++ stack.  A call that queues something is
    several items, since other threads may run in between: the choice of the
    queue, the enqueueing, and the byte written to the wake-up pipe.  Before
    that byte the source also locks [worker_wake_mutex_] and notifies a parked
    worker; Parking.v models this, and here a worker that parks wakes up once
    there is something to do.  The queues are lists, as LinkedQueue.v
    allows. *)
From stdpp Require Import gmap relations.
From S2P Require Import Prelude PlatformIO IoTable TimerQueue.

Local Open Scope Z_scope.

Section EventLoop.
Context {P R : Type} {platform_io : PlatformIO P R} {C Q : Type} {pq : PriorityQueue (C := C) Q}.

(** An [IoHandler]: the application's own, or a suspended coroutine. *)
Inductive Handler := Plain (h : C) | CoroutineResume (k : C).

(** Code outside the loop that the loop runs. *)
Inductive Call :=
| OnReadable (h : C)
| OnWritable (h : C)
| Resume (k : C)
| RunPosted (f : C)
| RunOnIoThread (f : C)
| RunInline (f : C)
| Destroy (o : C).

(** What that code may do to the loop. *)
Inductive Action :=
| SetIo (fd events : Z) (h : option Handler)
| RemoveIo (fd : Z)
| Post (f : C)
| PostToIo (f : C)
| Schedule (k : C)
| StartTimer (first ivl : Z) (rep : bool) (act : TimerAction (C := C))
| StopTimer (timer_id : Z)
| Defer (o : C)
| Stop.

(** The thread of [run], the workers, and threads of the application. *)
Inductive Thread := IoThread | Worker (i : nat) | Outside.

(** [Did] is the beginning of a call, [Queued] the moment at which what it
    queues is in the queue. *)
Inductive Log := Called (w : Thread) (c : Call) | Did (w : Thread) (a : Action) | Queued (w : Thread) (a : Action).

Record Loop := mkLoop {
  io : IoTable (P := P) (H := Handler);
  tm : Timers (Q := Q);
  task_queues : list (list C);
  next_queue : Z;
  callback_queues : list (list C);
  next_callback_queue : Z;
  io_thread_queue : list C;
  reap_list : list C;
  running : bool;
  woken : bool;
  ticks : nat;
  waits : nat;
  trace : list Log }.

Definition eta_Loop (s : Loop) : Loop :=
  mkLoop (io s) (tm s) (task_queues s) (next_queue s) (callback_queues s) (next_callback_queue s) (io_thread_queue s) (reap_list s)
    (running s) (woken s) (ticks s) (waits s) (trace s).

Definition set_io (v : IoTable) (s : Loop) : Loop := ltac:(with_field eta_Loop s io v).
Definition set_tm (v : Timers) (s : Loop) : Loop := ltac:(with_field eta_Loop s tm v).
Definition set_task_queues (v : list (list C)) (s : Loop) : Loop := ltac:(with_field eta_Loop s task_queues v).
Definition set_next_queue (v : Z) (s : Loop) : Loop := ltac:(with_field eta_Loop s next_queue v).
Definition set_callback_queues (v : list (list C)) (s : Loop) : Loop := ltac:(with_field eta_Loop s callback_queues v).
Definition set_next_callback_queue (v : Z) (s : Loop) : Loop := ltac:(with_field eta_Loop s next_callback_queue v).
Definition set_io_thread_queue (v : list C) (s : Loop) : Loop := ltac:(with_field eta_Loop s io_thread_queue v).
Definition set_reap_list (v : list C) (s : Loop) : Loop := ltac:(with_field eta_Loop s reap_list v).
Definition set_running (v : bool) (s : Loop) : Loop := ltac:(with_field eta_Loop s running v).
Definition set_woken (v : bool) (s : Loop) : Loop := ltac:(with_field eta_Loop s woken v).
Definition set_ticks (v : nat) (s : Loop) : Loop := ltac:(with_field eta_Loop s ticks v).
Definition set_waits (v : nat) (s : Loop) : Loop := ltac:(with_field eta_Loop s waits v).
Definition log (x : Log) (s : Loop) : Loop := ltac:(with_field eta_Loop s trace (trace s ++ [x])).

(** The clock by the number of times it was read, the outcome of each wait
    ([None] for an error), what the application's code does when it is called
    after a given history, whether a coroutine has finished, and the order in
    which a vector that goes out of scope destroys its elements. *)
Context (clock : nat -> Z) (report : nat -> P -> option R) (react : list Log -> Call -> list Action) (done_ : list Log -> C -> bool).
Context (destruction_order : list Log -> list C -> list C).
Context (num_threads : nat).

Definition queue_count : nat := Nat.max 1 num_threads.

(** [wakeup_event_loop]: a byte in the wake-up pipe. *)
Definition wakeup_event_loop (s : Loop) : Loop := set_woken true s.

Definition push_back (i : nat) (x : C) (qs : list (list C)) : list (list C) := alter (fun q => q ++ [x]) i qs.

(** [dequeue] of one of the queues. *)
Definition take_front (i : nat) (qs : list (list C)) : option (C * list (list C)) :=
  match qs !! i with Some (x :: q) => Some (x, <[i := q]> qs) | _ => None end.

(** [next.fetch_add(1) % queue_count_]. *)
Definition round_robin (next : Z) : nat * Z := (Z.to_nat (next mod Z.of_nat queue_count), u64 (next + 1)).

(** ** The stack *)

Inductive Item :=
| ILoop                    (* [while (running_)] *)
| ITimers                  (* [process_timers()] *)
| ITimer (e : TimerEntry (C := C))
| IWait                    (* the timeout and [wait] *)
| IEvents (events : list Event) (* [process_io_events] *)
| IDrainTasks (i : nat)
| IDrainPosted (i : nat)
| IDrainIo
| IReap
| IWorker (i : nat)        (* [while (running_)] of a worker *)
| ITakeTask (i k : nat)    (* [try_take] from its [k]-th queue on *)
| ITakePosted (i k : nat)
| IPark (i : nat)
| ICall (c : Call)
| IAct (a : Action)
| IEnqueue (i : nat) (a : Action) (* what [a] queues, into its [i]-th queue *)
| IWake.                   (* [wakeup_event_loop()] *)

(** [enqueue] of the queue of tasks, of callbacks, or of the loop's thread. *)
Definition enqueue (i : nat) (a : Action) (s : Loop) : Loop :=
  match a with
  | Schedule k => set_task_queues (push_back i k (task_queues s)) s
  | Post f => set_callback_queues (push_back i f (callback_queues s)) s
  | PostToIo f => set_io_thread_queue (io_thread_queue s ++ [f]) s
  | _ => s
  end.

(** [if (should_wake) { wakeup_event_loop(); }] *)
Definition wake_if (b : bool) : list Item := if b then [IWake] else [].

Definition post (f : C) (s : Loop) : list Item * Loop :=
  let '(i, next) := round_robin (next_callback_queue s) in
  ([IEnqueue i (Post f); IWake], set_next_callback_queue next s).

(** [schedule]: inline without worker threads. *)
Definition schedule (k : C) (s : Loop) : list Item * Loop :=
  if decide (num_threads = 0)%nat then ((if done_ (trace s) k then [] else [ICall (Resume k)]), s)
  else
    let '(i, next) := round_robin (next_queue s) in
    ([IEnqueue i (Schedule k); IWake], set_next_queue next s).

Definition start_timer (first ivl : Z) (rep : bool) (act : TimerAction) (s : Loop) : list Item * Loop :=
  let '(_, wake, t) := add_timer (clock (ticks s)) first ivl rep act (tm s) in
  (wake_if wake, set_tm t (set_ticks (S (ticks s)) s)).

(** [post_to_io_thread]: inline on the loop's thread. *)
Definition post_to_io_thread (w : Thread) (f : C) (s : Loop) : list Item * Loop :=
  match w with
  | IoThread => ([ICall (RunInline f)], s)
  | _ => ([IEnqueue 0 (PostToIo f); IWake], s)
  end.

Definition defer_destruction (o : C) (s : Loop) : Loop := set_reap_list (reap_list s ++ [o]) s.

Definition stop (s : Loop) : list Item * Loop := ([IWake], set_running false s).

Definition do_action (w : Thread) (a : Action) (s : Loop) : list Item * Loop :=
  match a with
  | SetIo fd ev h => let '(t, wake) := set_io_handler fd ev h (io s) in (wake_if wake, set_io t s)
  | RemoveIo fd => ([], set_io (remove_io fd (io s)) s)
  | Post f => post f s
  | PostToIo f => post_to_io_thread w f s
  | Schedule k => schedule k s
  | StartTimer first ivl rep act => start_timer first ivl rep act s
  | StopTimer i => ([], set_tm (cancel_timer i (tm s)) s)
  | Defer o => ([], defer_destruction o s)
  | Stop => stop s
  end.

(** [on_readable]/[on_writable] of a handler that fired. *)
Definition fire (x : Handler * bool) : Item :=
  match x with
  | (Plain h, true) => ICall (OnReadable h)
  | (Plain h, false) => ICall (OnWritable h)
  | (CoroutineResume k, _) => IAct (Schedule k)
  end.

(** One round of the loop. *)
Definition round : list Item :=
  [ITimers; IWait; ITimers] ++ (IDrainTasks <$> seq 0 queue_count) ++ (IDrainPosted <$> seq 0 queue_count) ++ [IDrainIo; IReap; ILoop].

(** [JoinWorkersGuard]. *)
Definition leave (s : Loop) : list Item * Loop := ([IWake], set_running false s).

(** The predicate a parked worker waits for. *)
Definition has_work (s : Loop) : bool :=
  negb (running s) || existsb (fun q => negb (bool_decide (q = []))) (task_queues s) || existsb (fun q => negb (bool_decide (q = []))) (callback_queues s).

(** [process_timers]: the timers that are due, to be dispatched one by one. *)
Definition process_timers (rest : list Item) (s : Loop) : option (list Item * Loop) :=
  if running s then
    '(ready, t) ← take_due (clock (ticks s)) (tm s);
    Some ((ITimer <$> ready) ++ rest, set_tm t (set_ticks (S (ticks s)) s))
  else Some (rest, s).

Definition dispatch_timer (e : TimerEntry) (rest : list Item) (s : Loop) : list Item * Loop :=
  if running s then
    match action e with
    | ResumeTask k => (IAct (Schedule k) :: rest, s)
    | PostCallback f => (IAct (Post f) :: rest, s)
    end
  else (rest, s).

(** [compute_wait_timeout_ms] and [wait]; an error ends the loop. *)
Definition wait_for_events (rest : list Item) (s : Loop) : option (list Item * Loop) :=
  '(ms, t) ← compute_wait_timeout_ms (clock (ticks s)) (tm s);
  let s := set_waits (S (waits s)) (set_tm t (set_ticks (S (ticks s)) s)) in
  match report (waits s) (platform (io s)) with
  | None => Some (leave s)
  | Some r => Some (IEvents (wait_events r (platform (io s))) :: rest, s)
  end.

Definition dispatch_events (events : list Event) (rest : list Item) (s : Loop) : list Item * Loop :=
  let d := process_io_events events (io s) in
  let s := set_io (table d) s in
  ((fire <$> fired d) ++ rest, if drained d then set_woken false s else s).

(** A task that was dequeued: resumed unless it is done. *)
Definition resume_task (k : C) (s : Loop) : list Item := if done_ (trace s) k then [] else [ICall (Resume k)].

Definition drain_tasks (i : nat) (rest : list Item) (s : Loop) : list Item * Loop :=
  match take_front i (task_queues s) with
  | Some (k, qs) => (resume_task k s ++ IDrainTasks i :: rest, set_task_queues qs s)
  | None => (rest, s)
  end.

Definition drain_posted (i : nat) (rest : list Item) (s : Loop) : list Item * Loop :=
  match take_front i (callback_queues s) with
  | Some (f, qs) => (ICall (RunPosted f) :: IDrainPosted i :: rest, set_callback_queues qs s)
  | None => (rest, s)
  end.

Definition drain_io (rest : list Item) (s : Loop) : list Item * Loop :=
  match io_thread_queue s with
  | f :: q => (ICall (RunOnIoThread f) :: IDrainIo :: rest, set_io_thread_queue q s)
  | [] => (rest, s)
  end.

Definition drain_reap_list (rest : list Item) (s : Loop) : list Item * Loop :=
  ((ICall <$> (Destroy <$> destruction_order (trace s) (reap_list s))) ++ rest, set_reap_list [] s).

(** [worker_thread]: [try_take], [try_take_callback], the wait. *)
Definition try_take (i k : nat) (rest : list Item) (s : Loop) : list Item * Loop :=
  if decide (k < queue_count)%nat then
    match take_front ((i + k) mod queue_count) (task_queues s) with
    | Some (t, qs) => (resume_task t s ++ IReap :: IWorker i :: rest, set_task_queues qs s)
    | None => (ITakeTask i (S k) :: rest, s)
    end
  else (ITakePosted i 0 :: rest, s).

Definition try_take_callback (i k : nat) (rest : list Item) (s : Loop) : list Item * Loop :=
  if decide (k < queue_count)%nat then
    match take_front ((i + k) mod queue_count) (callback_queues s) with
    | Some (f, qs) => (ICall (RunPosted f) :: IReap :: IWorker i :: rest, set_callback_queues qs s)
    | None => (ITakePosted i (S k) :: rest, s)
    end
  else (IPark i :: rest, s).

Definition park (i : nat) (rest : list Item) (s : Loop) : list Item * Loop := (if has_work s then IWorker i :: rest else IPark i :: rest, s).

(** The next item a thread executes: its new stack and the state; [None] if a
    loop of the timers did not end. *)
Definition execute (w : Thread) (it : Item) (rest : list Item) (s : Loop) : option (list Item * Loop) :=
  match it with
  | ILoop => Some (if running s then (round, s) else leave s)
  | ITimers => process_timers rest s
  | ITimer e => Some (dispatch_timer e rest s)
  | IWait => wait_for_events rest s
  | IEvents events => Some (dispatch_events events rest s)
  | IDrainTasks i => Some (drain_tasks i rest s)
  | IDrainPosted i => Some (drain_posted i rest s)
  | IDrainIo => Some (drain_io rest s)
  | IReap => Some (drain_reap_list rest s)
  | IWorker i => Some (if running s then ITakeTask i 0 :: rest else rest, s)
  | ITakeTask i k => Some (try_take i k rest s)
  | ITakePosted i k => Some (try_take_callback i k rest s)
  | IPark i => Some (park i rest s)
  | ICall c => Some ((IAct <$> react (trace s) c) ++ rest, log (Called w c) s)
  | IAct a => let '(items, s') := do_action w a (log (Did w a) s) in Some (items ++ rest, s')
  | IEnqueue i a => Some (rest, enqueue i a (log (Queued w a) s))
  | IWake => Some (rest, wakeup_event_loop s)
  end.

(** [run] without worker threads: the steps until the stack is empty. *)
Definition run_step (st : list Item * Loop) : (list Item * Loop) + option Loop :=
  match st.1 with
  | [] => inr (Some st.2)
  | it :: rest => match execute IoThread it rest st.2 with Some st' => inl st' | None => inr None end
  end.

Definition run (fuel : nat) (s : Loop) : option (option Loop) := loop run_step fuel ([ILoop], set_running true s).

(** All threads; [callers] are the threads of the application that are in a
    call of the loop. *)
Record Threads := mkThreads { stack : list Item; workers : list (list Item); callers : list (list Item); shared : Loop }.

(** A thread executes its next item, or a thread of the application begins a
    call of the loop.  A task scheduled without worker threads runs inline,
    which only the loop's thread does. *)
Inductive moves : Threads -> Threads -> Prop :=
| moves_loop it rest ws cs s items s' : execute IoThread it rest s = Some (items, s') -> moves (mkThreads (it :: rest) ws cs s) (mkThreads items ws cs s')
| moves_worker i l ws cs s it rest items s' : ws !! i = Some (it :: rest) -> execute (Worker i) it rest s = Some (items, s') ->
    moves (mkThreads l ws cs s) (mkThreads l (<[i := items]> ws) cs s')
| moves_caller i l ws cs s it rest items s' : cs !! i = Some (it :: rest) -> execute Outside it rest s = Some (items, s') ->
    moves (mkThreads l ws cs s) (mkThreads l ws (<[i := items]> cs) s')
| moves_outside l ws cs s a items s' : (num_threads = 0%nat -> forall k, a <> Schedule k) -> do_action Outside a (log (Did Outside a) s) = (items, s') ->
    moves (mkThreads l ws cs s) (mkThreads l ws (cs ++ [items]) s').

Definition new_loop (wake : Z) (p : P) : Loop :=
  mkLoop (new_table wake p) new_timers (replicate queue_count []) 0 (replicate queue_count []) 0 [] [] false false 0 0 [].

(** [run] has been called. *)
Definition start (wake : Z) (p : P) : Threads :=
  mkThreads [ILoop] ((fun i => [IWorker i]) <$> seq 0 num_threads) [] (set_running true (new_loop wake p)).

Definition reachable (wake : Z) (p : P) (st : Threads) : Prop := rtc moves (start wake p) st.
End EventLoop.
