(* ===== verification/LoopSafety.v ===== *)
(** * The event loop: what holds in every execution

    Invariants of [moves], so of every interleaving of the loop with what the
    application's code and other threads do: the table of descriptors and the
    timers stay in order and the loop is never stuck; posted callbacks run
    once and in order, whatever happens between the steps of a call that queues
    one; the loop does not sleep over something to do; a handler is called at
    most as often as it was registered; deferred objects are destroyed when no
    callback is active, in any order. *)
From stdpp Require Import gmap relations.
From S2P Require Import Prelude PlatformIO IoTable TimerQueue EventLoop.

Local Open Scope Z_scope.

Section Safety.
Context {P R : Type} {platform_io : PlatformIO P R} {C Q : Type} {pq : PriorityQueue (C := C) Q}.
Context {platform_laws : PlatformLaws P R} {queue_laws : PriorityQueueLaws Q}.
Context (clock : nat -> Z) (report : nat -> P -> option R) (react : list (Log (C := C)) -> Call (C := C) -> list (Action (C := C))) (done_ : list (Log (C := C)) -> C -> bool)
  (destruction_order : list (Log (C := C)) -> list C -> list C) (num_threads : nat).

Abbreviation execute := (execute clock report react done_ destruction_order num_threads).
Abbreviation moves := (moves clock report react done_ destruction_order num_threads).
Abbreviation do_action := (do_action clock done_ num_threads).
Abbreviation reachable := (reachable clock report react done_ destruction_order num_threads).
Abbreviation threads := (Threads (P := P) (C := C) (Q := Q)).
Abbreviation loop_state := (Loop (P := P) (C := C) (Q := Q)).
Implicit Types s : loop_state.

(** The code of an item. *)
Ltac unfold_item :=
  cbn [EventLoop.execute] in *;
  unfold EventLoop.process_timers, dispatch_timer, EventLoop.wait_for_events, dispatch_events, EventLoop.drain_tasks, drain_posted, drain_io, EventLoop.drain_reap_list, leave,
    EventLoop.try_take, EventLoop.try_take_callback, park, EventLoop.resume_task in *.

(** ** Histories *)

Definition count_log (f : Log (C := C) -> bool) (tr : list Log) : Z := Z.of_nat (length (List.filter f tr)).

Definition is_set_io (x : Log (C := C)) : bool := match x with Did _ (SetIo _ _ _) => true | _ => false end.
Definition is_start (x : Log (C := C)) : bool := match x with Did _ (StartTimer _ _ _ _) => true | _ => false end.

Lemma count_snoc f tr x : count_log f (tr ++ [x]) = count_log f tr + (if f x then 1 else 0).
Proof. unfold count_log. rewrite List.filter_app, length_app. cbn. destruct (f x); cbn; lia. Qed.

Lemma count_nonneg f tr : 0 <= count_log f tr.
Proof. unfold count_log. lia. Qed.

(** What a caller must respect: the descriptors are its own, its timers stay
    within the range of the clock, and it cancels timers it was given. *)
Definition act_ok (wake : Z) (tr : list (Log (C := C))) (a : Action (C := C)) : Prop :=
  match a with
  | SetIo fd _ _ | RemoveIo fd => fd_ok wake fd
  | StartTimer first ivl rep _ => first < 2 ^ 63 /\ (rep = true -> ivl <= kSafeTime)
  | StopTimer i => i <= count_log is_start tr
  | _ => True
  end.

Inductive good (wake : Z) : list (Log (C := C)) -> Prop :=
| good_nil : good wake []
| good_called tr w c : good wake tr -> good wake (tr ++ [Called w c])
| good_queued tr w a : good wake tr -> good wake (tr ++ [Queued w a])
| good_did tr w a : good wake tr -> act_ok wake tr a -> good wake (tr ++ [Did w a]).

(** The counters behind generations and timer ids do not run out. *)
Definition bounded (tr : list (Log (C := C))) : Prop := count_log is_set_io tr < 2 ^ 32 - 1 /\ count_log is_start tr < 2 ^ 64 - 1.

Lemma good_snoc wake tr x : good wake (tr ++ [x]) -> good wake tr /\ (forall w a, x = Did w a -> act_ok wake tr a).
Proof.
  intros H. inversion H as [E|tr' v c H' E|tr' v a H' E|tr' v a H' Ha E]; [by destruct tr|..]; apply app_inj_tail in E as [-> <-]; (split; [done|]); intros w b; [done|done|by intros [= _ <-]].
Qed.

Lemma bounded_snoc tr x : bounded (tr ++ [x]) -> bounded tr.
Proof. unfold bounded. rewrite !count_snoc. destruct (is_set_io x), (is_start x); lia. Qed.

(** ** The table and the timers *)

Definition item_ok (it : Item (C := C)) : Prop := match it with IEvents es => Forall (fun e => u64_ok (user_data e)) es | _ => True end.

Record sound (wake : Z) (s : loop_state) : Prop := {
  so_table : table_ok wake (count_log is_set_io (trace s)) (io s);
  so_timers : timers_ok (tm s);
  so_next : next_timer_id (tm s) = count_log is_start (trace s) + 1 }.

(** A state that differs in nothing the invariant speaks of. *)
Lemma sound_same wake s s' : io s' = io s -> tm s' = tm s -> count_log is_set_io (trace s') = count_log is_set_io (trace s) ->
  count_log is_start (trace s') = count_log is_start (trace s) -> sound wake s -> sound wake s'.
Proof. intros E1 E2 E3 E4 [H1 H2 H3]. split; rewrite ?E1, ?E2, ?E3, ?E4; done. Qed.

Lemma action_trace w a s : trace (do_action w a s).2 = trace s.
Proof.
  destruct a; cbn [EventLoop.do_action]; try done.
  - by destruct (set_io_handler _ _ _ _) as [t []].
  - by destruct w.
  - unfold schedule. by destruct (decide _).
Qed.

Lemma enqueue_same i a s : let s' := enqueue i a s in io s' = io s /\ tm s' = tm s /\ trace s' = trace s /\ reap_list s' = reap_list s /\ running s' = running s /\ woken s' = woken s.
Proof. by destruct a. Qed.

Context (Hclock : forall n, clock_ok (clock n)).


Lemma wake_items_ok (b : bool) : Forall item_ok (wake_if b : list (Item (C := C))).
Proof. destruct b; [by apply Forall_singleton|by apply Forall_nil]. Qed.

Lemma action_sound wake w a s : good wake (trace s ++ [Did w a]) -> bounded (trace s ++ [Did w a]) -> sound wake s ->
  sound wake (do_action w a (log (Did w a) s)).2 /\ trace (do_action w a (log (Did w a) s)).2 = trace s ++ [Did w a] /\ Forall item_ok (do_action w a (log (Did w a) s)).1.
Proof.
  intros Hg [Hb1 Hb2] Hs. apply good_snoc in Hg as [Hg Ha]. specialize (Ha w a eq_refl). pose proof Hs as [H1 H2 H3]. rewrite !count_snoc in Hb1, Hb2.
  pose proof (count_nonneg is_set_io (trace s)). pose proof (count_nonneg is_start (trace s)).
  assert (Hq : forall s', io s' = io s -> tm s' = tm s -> trace s' = trace s ++ [Did w a] -> is_set_io (Did w a) = false -> is_start (Did w a) = false -> sound wake s').
  { intros s' E1 E2 E3 E4 E5. apply (sound_same wake s); [done|done|rewrite E3, count_snoc, E4; lia|rewrite E3, count_snoc, E5; lia|done]. }
  assert (Hp : forall l : list (Item (C := C)), forallb (fun it => match it with IEvents _ => false | _ => true end) l = true -> Forall item_ok l).
  { intros l Hl. apply Forall_forall. intros it Hit. rewrite forallb_forall in Hl. specialize (Hl it (proj1 (list_elem_of_In _ _) Hit)). by destruct it. }
  destruct a as [fd ev h|fd|f|f|k|first ivl rep act|i|o|]; cbn [do_action is_set_io is_start act_ok] in *.
  - destruct (set_io_handler_ok wake (count_log is_set_io (trace s)) fd ev h (io s) ltac:(lia) ltac:(lia) Ha H1) as [K _].
    change (io (log (Did w (SetIo fd ev h)) s)) with (io s). destruct (set_io_handler fd ev h (io s)) as [t wk]. cbn [fst snd] in *. split; [|split; [done|apply wake_items_ok]].
    split; cbn [io tm trace set_io log]; rewrite ?count_snoc; cbn [is_set_io is_start]; rewrite ?Z.add_0_r; done.
  - split; [|done]. split; cbn [io tm trace set_io log snd]; rewrite ?count_snoc; cbn [is_set_io is_start]; rewrite ?Z.add_0_r; [by apply remove_io_ok|done|done].
  - unfold post. destruct (round_robin _ _) as [i nx]. split; [by apply Hq|]. split; [done|by apply Hp].
  - unfold post_to_io_thread. destruct w; cbn [fst snd]; (split; [by apply Hq|]); (split; [done|by apply Hp]).
  - unfold schedule. destruct (decide _); cbn [snd fst].
    + split; [by apply Hq|]. split; [done|]. destruct (done_ _ _); by apply Hp.
    + destruct (round_robin _ _) as [i nx]. cbn [snd fst]. split; [by apply Hq|]. split; [done|by apply Hp].
  - unfold start_timer. cbn [trace log]. set (now := clock _).
    destruct (timer_op_spec (count_log is_start (trace s)) (tm s) (AddTimer now first ivl rep act) ltac:(lia) H2 H3 (conj (Hclock _) Ha)) as (out & t' & n' & E & K1 & K2 & -> & _); [cbn [timer_ops_ok timer_op_ok]; split; [exact (conj (Hclock _) Ha)|lia]|].
    cbn [timer_op] in E. change (tm (log (Did w (StartTimer first ivl rep act)) s)) with (tm s). destruct (add_timer now first ivl rep act (tm s)) as [[i wk] t]. injection E as _ <-. cbn [snd fst].
    split; [|split; [done|apply wake_items_ok]]. split; cbn [io tm trace set_tm set_ticks log]; rewrite ?count_snoc; cbn [is_set_io is_start]; rewrite ?Z.add_0_r; done.
  - split; [|done]. destruct (timer_op_spec (count_log is_start (trace s)) (tm s) (CancelTimer i) ltac:(lia) H2 H3 Ha) as (out & t' & n' & E & K1 & K2 & -> & _); [cbn; split; [done|lia]|].
    cbn [timer_op] in E. injection E as _ <-. split; cbn [io tm trace set_tm log snd]; rewrite ?count_snoc; cbn [is_set_io is_start]; rewrite ?Z.add_0_r; done.
  - split; [by apply Hq|done].
  - split; [by apply Hq|]. split; [done|by apply Hp].
Qed.

Lemma token_u64 g fd : 0 <= g < 2 ^ 32 -> 0 <= fd < 2 ^ 31 -> u64_ok (encode_token g fd).
Proof.
  intros Hg Hf. unfold encode_token. rewrite shl_mul, (u64_small (_ * _)), u32_small by (unfold u64_ok; lia). rewrite (lor_low_add 32) by (try apply Z.mod_mul; lia). unfold u64_ok. lia.
Qed.

(** Fresh reports carry tokens the table knows. *)
Lemma fresh_tokens wake n t r : 0 <= n < 2 ^ 32 -> table_ok (H := Handler (C := C)) wake n t -> reports r (platform t) ->
  Forall (fun e => u64_ok (user_data e)) (wait_events r (platform t)).
Proof.
  intros Hn Ht Hr. apply Forall_forall. intros e He. destruct (wait_watched r (platform t) e (tb_platform _ _ _ Ht) Hr He) as (fd & i & Ei & <- & _). rewrite (tb_watched _ _ _ Ht) in Ei.
  destruct (pending_io t !! fd) as [p|] eqn:Ep.
  - injection Ei as <-. destruct (tb_pending _ _ _ Ht fd p Ep) as [[Hf _] Hg]. apply token_u64; lia.
  - destruct (fd =? wake); [|done]. injection Ei as <-. done.
Qed.

Context (Hrep : forall n p r, report n p = Some r -> reports r p).

Lemma fires_ok l : Forall item_ok (fire <$> l : list (Item (C := C))).
Proof. apply Forall_forall. intros it Hit. apply list_elem_of_fmap in Hit as ([[h|k] []] & -> & _); done. Qed.

Lemma forall_items_ok {A} (f : A -> Item (C := C)) l : (forall a, item_ok (f a)) -> Forall item_ok (f <$> l).
Proof. intros Hf. apply Forall_forall. intros it Hit. by apply list_elem_of_fmap in Hit as (a & -> & _). Qed.

Lemma round_items_ok : Forall item_ok (round num_threads : list (Item (C := C))).
Proof.
  unfold round. rewrite !Forall_app. split_and!; [repeat (apply Forall_cons; split; [done|]); by apply Forall_nil| | |repeat (apply Forall_cons; split; [done|]); by apply Forall_nil];
    by apply forall_items_ok.
Qed.

Lemma tail_ok it (rest : list (Item (C := C))) : item_ok it -> Forall item_ok rest -> Forall item_ok (it :: rest).
Proof. intros H1 H2. by apply Forall_cons. Qed.

Lemma resume_ok (b : bool) (k : C) (rest : list (Item (C := C))) : Forall item_ok rest -> Forall item_ok ((if b then [] else [ICall (Resume k)]) ++ rest).
Proof. intros H. destruct b; [done|]. by apply tail_ok. Qed.

(** One item: never stuck, and the invariant is kept. *)
Lemma execute_sound wake w it rest s : bounded (trace s) -> sound wake s -> Forall item_ok (it :: rest) ->
  exists items s', execute w it rest s = Some (items, s') /\ (good wake (trace s') -> bounded (trace s') -> sound wake s' /\ Forall item_ok items).
Proof.
  intros [Hb1 Hb2] Hs Hi. pose proof Hs as [H1 H2 H3]. apply Forall_cons in Hi as [Hit Hrest]. pose proof (count_nonneg is_set_io (trace s)).
  assert (Hsame : forall items s', io s' = io s -> tm s' = tm s -> trace s' = trace s -> Forall item_ok items ->
    exists items1 s1, Some (items, s') = Some (items1, s1) /\ (good wake (trace s1) -> bounded (trace s1) -> sound wake s1 /\ Forall item_ok items1)).
  { intros items s' E1 E2 E3 Hi. exists items, s'. split; [done|]. intros _ _. split; [|done]. apply (sound_same wake s); [done|done|by rewrite E3..|done]. }
  destruct it as [| |e| |es|i|i| | |i|i k|i k|i|c|a|i a|]; unfold_item.
  - destruct (running s); apply Hsame; try done; [apply round_items_ok|by apply Forall_singleton].
  - destruct (running s); [|by apply Hsame]. destruct (take_due_spec (clock (ticks s)) (tm s) (Hclock _) H2) as (ready & t & -> & K1 & K2 & _). cbn [mbind option_bind].
    eexists _, _. split; [done|]. intros _ _. split; [split; cbn; [done|done|congruence]|]. apply Forall_app. split; [by apply forall_items_ok|done].
  - destruct (running s); [|by apply Hsame]. destruct (action e); apply Hsame; (done || by apply tail_ok).
  - destruct (timeout_spec (clock (ticks s)) (tm s) (Hclock _) H2) as (ms & t & -> & K1 & K2 & _). cbn [mbind option_bind].
    destruct (report _ _) as [r|] eqn:Er; eexists _, _; (split; [done|]); intros _ _; (split; [split; cbn; [done|done|congruence]|]); [|by apply Forall_singleton].
    apply tail_ok; [|done]. apply Hrep in Er. cbn in Er |- *. eapply fresh_tokens; [|exact H1|exact Er]. lia.
  - destruct (dispatch_all wake (count_log is_set_io (trace s)) es (io s) ltac:(lia) H1 Hit) as (K & _). eexists _, _. split; [done|]. intros _ _.
    split; [|apply Forall_app; split; [apply fires_ok|done]]. apply (sound_same wake (set_io (table (process_io_events es (io s))) s)); [by destruct (drained _)..|]. by split.
  - destruct (take_front i (task_queues s)) as [[k q]|]; apply Hsame; try done. apply resume_ok. by apply tail_ok.
  - destruct (take_front i (callback_queues s)) as [[k q]|]; apply Hsame; try done. by repeat apply tail_ok.
  - destruct (io_thread_queue s) as [|k q]; apply Hsame; try done. by repeat apply tail_ok.
  - apply Hsame; try done. apply Forall_app. split; [|done]. rewrite <- list_fmap_compose. by apply forall_items_ok.
  - apply Hsame; try done. destruct (running s); [|done]. by apply tail_ok.
  - destruct (decide _); [|apply Hsame; try done; by apply tail_ok]. destruct (take_front _ (task_queues s)) as [[t q]|]; apply Hsame; try done; [|by apply tail_ok].
    apply resume_ok. by repeat apply tail_ok.
  - destruct (decide _); [|apply Hsame; try done; by apply tail_ok]. destruct (take_front _ (callback_queues s)) as [[t q]|]; apply Hsame; try done; by repeat apply tail_ok.
  - apply Hsame; try done. destruct (has_work s); by apply tail_ok.
  - eexists _, _. split; [done|]. intros _ _. split; [|apply Forall_app; split; [by apply forall_items_ok|done]].
    apply (sound_same wake s); [done|done|cbn; rewrite count_snoc; cbn; lia..|done].
  - pose proof (action_trace w a (log (Did w a) s)) as Et. destruct (do_action w a (log (Did w a) s)) as [items s'] eqn:E. eexists _, _. split; [done|].
    cbn [snd trace log] in Et. rewrite Et. intros Hg Hb. destruct (action_sound wake w a s Hg Hb Hs) as (K1 & _ & K2). rewrite E in K1, K2. split; [done|]. by apply Forall_app.
  - eexists _, _. split; [done|]. intros _ _. split; [|done]. destruct (enqueue_same i a (log (Queued w a) s)) as (K1 & K2 & K3 & _).
    apply (sound_same wake s); [exact K1|exact K2|rewrite K3; cbn; rewrite count_snoc; cbn; lia..|done].
  - by apply Hsame.
Qed.

(** What executing an item logs. *)
Definition logs (w : Thread) (it : Item (C := C)) : list (Log (C := C)) := match it with ICall c => [Called w c] | IAct a => [Did w a] | IEnqueue _ a => [Queued w a] | _ => [] end.

Lemma execute_trace w it rest s items s' : execute w it rest s = Some (items, s') -> trace s' = trace s ++ logs w it.
Proof.
  intros E. destruct it as [| |e| |es|i|i| | |i|i k|i k|i|c|a|i a|]; unfold_item; try (by simplify_eq; cbn; rewrite app_nil_r).
  - cbn [logs]. rewrite app_nil_r. destruct (running s); by injection E as _ <-.
  - cbn [logs]. rewrite app_nil_r. destruct (running s); [|by injection E as _ <-]. inv_bind E. by injection E as _ <-.
  - cbn [logs]. rewrite app_nil_r. destruct (running s), (action e); by injection E as _ <-.
  - cbn [logs]. rewrite app_nil_r. inv_bind E. destruct (report _ _); by injection E as _ <-.
  - cbn [logs]. rewrite app_nil_r. injection E as _ <-. by destruct (drained _).
  - cbn [logs]. rewrite app_nil_r. destruct (take_front i (task_queues s)) as [[]|]; by injection E as _ <-.
  - cbn [logs]. rewrite app_nil_r. destruct (take_front i (callback_queues s)) as [[]|]; by injection E as _ <-.
  - cbn [logs]. rewrite app_nil_r. destruct (io_thread_queue s); by injection E as _ <-.
  - cbn [logs]. rewrite app_nil_r. destruct (decide _); [destruct (take_front _ (task_queues s)) as [[]|]|]; by injection E as _ <-.
  - cbn [logs]. rewrite app_nil_r. destruct (decide _); [destruct (take_front _ (callback_queues s)) as [[]|]|]; by injection E as _ <-.
  - by injection E as _ <-.
  - pose proof (action_trace w a (log (Did w a) s)) as K. destruct (do_action w a _) as [items' s1]. injection E as _ <-. exact K.
  - injection E as _ <-. by destruct (enqueue_same i a (log (Queued w a) s)) as (_ & _ & -> & _).
Qed.

(** The stacks of all threads but the loop's. *)
Definition others (st : threads) : list (list (Item (C := C))) := workers st ++ callers st.

(** A move is one of the loop's, or an item executed by another thread, where a
    thread that begins a call is one that is about to execute it. *)
Lemma moves_inv st st' : moves st st' ->
  (exists it rest, stack st = it :: rest /\ execute IoThread it rest (shared st) = Some (stack st', shared st') /\ workers st' = workers st /\ callers st' = callers st) \/
  (exists os w i it rest items, w <> IoThread /\
    (os = others st \/ exists a, os = others st ++ [[IAct a]]) /\
    os !! i = Some (it :: rest) /\ execute w it rest (shared st) = Some (items, shared st') /\ others st' = <[i := items]> os /\ stack st' = stack st).
Proof.
  intros [it rest ws cs s items s' E|i l ws cs s it rest items s' El E|i l ws cs s it rest items s' El E|l ws cs s a items s' Ha E]; unfold others; cbn [stack workers callers shared].
  - left. by exists it, rest.
  - right. exists (ws ++ cs), (Worker i), i, it, rest, items. pose proof (lookup_lt_Some _ _ _ El) as Hi. split; [done|]. split; [by left|]. split; [by apply lookup_app_l_Some|]. split; [done|]. split; [by rewrite insert_app_l|done].
  - right. exists (ws ++ cs), Outside, (length ws + i)%nat, it, rest, items. split; [done|]. split; [by left|]. split; [by rewrite lookup_app_r, Nat.add_comm, Nat.add_sub by lia|]. split; [done|]. split; [by rewrite insert_app_r|done].
  - right. exists ((ws ++ cs) ++ [[IAct a]]), Outside, (length (ws ++ cs)), (IAct a), [], items. split; [done|]. split; [right; by eexists|]. split; [by apply list_lookup_middle|].
    cbn [EventLoop.execute]. rewrite E, app_nil_r. split; [done|]. split; [|done]. rewrite <- (Nat.add_0_r (length (ws ++ cs))), insert_app_r. cbn. by rewrite app_assoc.
Qed.

Lemma moves_trace st st' : moves st st' -> trace (shared st') = trace (shared st) \/ exists x, trace (shared st') = trace (shared st) ++ [x].
Proof.
  intros Hm. assert (Hx : exists w it rest items, execute w it rest (shared st) = Some (items, shared st')).
  { destruct (moves_inv st st' Hm) as [(it & rest & _ & E & _)|(os & w & i & it & rest & items & _ & _ & _ & E & _)]; by eexists _, _, _, _. }
  destruct Hx as (w & it & rest & items & E). rewrite (execute_trace _ _ _ _ _ _ E). destruct it; (by left; apply app_nil_r) || (right; by eexists).
Qed.

Lemma moves_history wake st st' : moves st st' -> good wake (trace (shared st')) -> bounded (trace (shared st')) -> good wake (trace (shared st)) /\ bounded (trace (shared st)).
Proof.
  intros Hm Hg Hb. destruct (moves_trace _ _ Hm) as [E|[x E]]; rewrite E in *; [done|]. split; [by apply good_snoc in Hg as [? _]|by eapply bounded_snoc].
Qed.

(** Invariants of all executions. *)
Lemma reachable_ind (I : threads -> Prop) wake p st : I (start num_threads wake p) -> (forall st st', I st -> moves st st' -> I st') -> reachable wake p st -> I st.
Proof. intros H0 Hs Hr. apply (rtc_ind_r (R := moves) I (start num_threads wake p)); [done| |exact Hr]. intros y z _ Hm Hy. by eapply Hs. Qed.

Definition all_sound (wake : Z) (st : threads) : Prop :=
  sound wake (shared st) /\ Forall item_ok (stack st) /\ Forall (Forall item_ok) (others st).

Lemma reachable_sound wake p st : consistent p -> (forall fd, watched p fd = None) -> reachable wake p st ->
  good wake (trace (shared st)) -> bounded (trace (shared st)) -> all_sound wake st.
Proof.
  intros Hc Hp. apply (reachable_ind (fun st => good wake (trace (shared st)) -> bounded (trace (shared st)) -> all_sound wake st)); clear st.
  - intros _ _. split; [split; cbn; [by apply new_table_ok|apply new_timers_ok|done]|]. split; [by apply Forall_singleton|].
    apply Forall_app. split; [|by apply Forall_nil]. apply Forall_forall. intros l Hl. apply list_elem_of_fmap in Hl as (i & -> & _). by apply Forall_singleton.
  - intros st st' IH Hm Hg Hb. destruct (moves_history wake _ _ Hm Hg Hb) as [Hg0 Hb0]. destruct (IH Hg0 Hb0) as (Hs & Hi & Hw). clear IH.
    destruct (moves_inv st st' Hm) as [(it & rest & Es & E & Ew & Ec)|(os & w & i & it & rest & items & _ & Ho & El & E & Eo & Es)].
    + rewrite Es in Hi. destruct (execute_sound wake IoThread it rest (shared st) Hb0 Hs Hi) as (items1 & s1 & E' & K). rewrite E in E'. injection E' as <- <-. destruct (K Hg Hb). split; [done|]. split; [done|]. unfold others. by rewrite Ew, Ec.
    + assert (Hos : Forall (Forall item_ok) os) by (destruct Ho as [->|[a ->]]; [done|apply Forall_app; split; [done|by apply Forall_singleton, Forall_singleton]]).
      destruct (execute_sound wake w it rest (shared st) Hb0 Hs) as (items1 & s1 & E' & K); [by rewrite Forall_lookup in Hos; apply (Hos i)|]. rewrite E in E'. injection E' as <- <-. destruct (K Hg Hb).
      split; [done|]. split; [by rewrite Es|]. rewrite Eo. by apply Forall_insert.
Qed.

(** What a thread executes next. *)
Definition next_item (w : Thread) (st : threads) : option (Item (C := C) * list (Item (C := C))) :=
  match (match w with IoThread => Some (stack st) | Worker i => workers st !! i | Outside => head (callers st) end) with
  | Some (it :: rest) => Some (it, rest)
  | _ => None
  end.

(** Whatever the application does from callbacks, from worker threads and
    from threads of its own, in whatever order: the platform watches exactly
    the descriptors of the table, each under the token of its latest
    registration, and the wake-up pipe; no timer is lost, doubled or without a
    positive period if it repeats; and no thread is ever stuck, since the
    loops over due and cancelled timers end. *)
Theorem loop_sound wake p st : consistent p -> (forall fd, watched p fd = None) -> reachable wake p st ->
  good wake (trace (shared st)) -> bounded (trace (shared st)) ->
  table_ok wake (count_log is_set_io (trace (shared st))) (io (shared st)) /\ timers_ok (tm (shared st)) /\
  forall w it rest, next_item w st = Some (it, rest) -> is_Some (execute w it rest (shared st)).
Proof.
  intros Hc Hp Hr Hg Hb. destruct (reachable_sound wake p st Hc Hp Hr Hg Hb) as (Hs & Hi & Hw). pose proof Hs as [H1 H2 _]. split; [done|]. split; [done|].
  intros w it rest Hn. assert (Hok : Forall item_ok (it :: rest)).
  { unfold next_item in Hn. destruct w as [|i|]; [|destruct (workers st !! i) as [l|] eqn:El; [|done]|destruct (callers st) as [|l cs] eqn:El; [done|]]; (apply Forall_app in Hw as [Hw Hc']).
    - destruct (stack st); simplify_eq. done.
    - destruct l; simplify_eq. rewrite Forall_lookup in Hw. exact (Hw i _ El).
    - cbn in Hn. destruct l; simplify_eq. rewrite El in Hc'. by apply Forall_cons in Hc' as [? _]. }
  destruct (execute_sound wake w it rest (shared st) Hb Hs Hok) as (items & s' & -> & _). by eexists.
Qed.

(** ** The stacks *)

(** What follows the wait in a round. *)
Definition after_wait : list (Item (C := C)) :=
  ITimers :: (IDrainTasks <$> seq 0 (queue_count num_threads)) ++ (IDrainPosted <$> seq 0 (queue_count num_threads)) ++ [IDrainIo; IReap; ILoop].

Lemma round_eq : round num_threads = ITimers :: IWait :: after_wait.
Proof. done. Qed.

(** Items that wait below a destructor. *)
Definition quiet (it : Item (C := C)) : bool := match it with ICall (Destroy _) | ILoop => true | _ => false end.

Definition drains (it : Item (C := C)) : bool := match it with IDrainPosted _ | IDrainIo | IReap | ILoop => true | _ => false end.

(** What may lie below an item on the loop's stack. *)
Definition below_ok (it : Item (C := C)) (rest : list (Item (C := C))) : Prop :=
  match it with
  | ILoop => rest = []
  | IWait | IEvents _ => rest = after_wait
  | IDrainPosted _ => forallb drains rest = true
  | IDrainIo => rest = [IReap; ILoop]
  | IReap => rest = [ILoop]
  | ICall (Destroy _) => forallb quiet rest = true
  | IWorker _ | ITakeTask _ _ | ITakePosted _ _ | IPark _ => False
  | _ => True
  end.

Fixpoint shaped (items : list (Item (C := C))) : Prop := match items with [] => True | it :: rest => below_ok it rest /\ shaped rest end.

(** What a worker executes. *)
Definition worker_item (it : Item (C := C)) : bool :=
  match it with
  | IReap | IWorker _ | ITakeTask _ _ | ITakePosted _ _ | IPark _ | IAct _ | IEnqueue _ _ | IWake => true
  | ICall c => match c with Resume _ | RunPosted _ | Destroy _ => true | _ => false end
  | _ => false
  end.

(** Items free of any condition on what lies below them. *)
Definition plain (it : Item (C := C)) : bool :=
  match it with ITimer _ | IAct _ | IEnqueue _ _ | IWake => true | ICall (Destroy _) => false | ICall _ => true | _ => false end.

Lemma shaped_plain l rest : forallb plain l = true -> shaped rest -> shaped (l ++ rest).
Proof.
  intros Hl Hr. induction l as [|it l IH]; [done|]. cbn in Hl. apply andb_prop in Hl as [H1 H2]. cbn. split; [|by apply IH]. by destruct it as [| | | | | | | | | | | | |[]| | |].
Qed.

Lemma forallb_fmap {A B} (f : A -> B) (P' : B -> bool) l : (forall a, P' (f a) = true) -> forallb P' (f <$> l) = true.
Proof. intros Hf. induction l as [|a l IH]; [done|]. cbn. by rewrite Hf. Qed.

Lemma shaped_round : shaped (round num_threads).
Proof.
  rewrite round_eq. cbn. split; [done|]. split; [done|]. split; [done|].
  assert (Ht : forall l rest, shaped rest -> shaped ((IDrainTasks <$> l) ++ rest)).
  { intros l rest Hr. by induction l as [|i l IH]; cbn. }
  assert (Hp : forall l rest, forallb drains rest = true -> shaped rest -> shaped ((IDrainPosted <$> l) ++ rest)).
  { intros l rest Hd Hr. induction l as [|i l IH]; [done|]. cbn. split; [|done]. rewrite forallb_app, Hd, andb_true_r. by apply forallb_fmap. }
  apply Ht. by apply Hp.
Qed.

(** What is left of a call that a thread of the application has begun. *)
Definition caller_item (it : Item (C := C)) : bool := match it with IEnqueue _ _ | IWake => true | _ => false end.

Lemma round_robin_bound next : (fst (round_robin num_threads next) < queue_count num_threads)%nat.
Proof. unfold round_robin. cbn. assert (H : 0 <= next mod Z.of_nat (queue_count num_threads) < Z.of_nat (queue_count num_threads)) by (apply Z.mod_pos_bound; unfold queue_count; lia). lia. Qed.

(** What is queued goes into a queue there is and is followed by a wake-up. *)
Fixpoint wakes_after (items : list (Item (C := C))) : bool :=
  match items with
  | [] => true
  | it :: rest => match it with IEnqueue i _ => bool_decide (i < queue_count num_threads)%nat && match rest with IWake :: _ => true | _ => false end | _ => true end && wakes_after rest
  end.

Lemma wakes_after_app l1 l2 : wakes_after l1 = true -> wakes_after l2 = true -> wakes_after (l1 ++ l2) = true.
Proof.
  intros H1 H2. induction l1 as [|it l1 IH]; [done|]. cbn in H1. apply andb_prop in H1 as [H0 H1]. cbn. rewrite IH by done. rewrite andb_true_r.
  destruct it; try done. apply andb_prop in H0 as [-> H0]. by destruct l1.
Qed.

Lemma wakes_after_fmap {A} (f : A -> Item (C := C)) (l : list A) : (forall a, wakes_after [f a] = true) -> wakes_after (f <$> l) = true.
Proof. intros Hf. induction l as [|a l IH]; [done|]. rewrite fmap_cons. change (f a :: (f <$> l)) with ([f a] ++ (f <$> l)). by apply wakes_after_app. Qed.

Lemma action_items w a s : let l := (do_action w a s).1 in
  forallb plain l = true /\ (w <> IoThread -> forallb worker_item l = true) /\ wakes_after l = true /\ (w = Outside -> (num_threads = 0%nat -> forall k, a <> Schedule k) -> forallb caller_item l = true).
Proof.
  assert (Hrr : forall nx : Z, bool_decide (fst (round_robin num_threads nx) < queue_count num_threads)%nat = true) by (intros nx; apply bool_decide_eq_true, round_robin_bound).
  cbv zeta. destruct a; cbn [do_action]; try done.
  - by destruct (set_io_handler _ _ _ _) as [t []].
  - unfold post. specialize (Hrr (next_callback_queue s)). destruct (round_robin _ _) as [i nx]. cbn [fst] in *. split_and!; try done. cbn. by rewrite Hrr.
  - assert (H0 : bool_decide (0 < queue_count num_threads)%nat = true) by (apply bool_decide_eq_true; unfold queue_count; lia). destruct w; split_and!; try done; cbn; by rewrite H0.
  - unfold schedule. destruct (decide _) as [E|]; [|specialize (Hrr (next_queue s)); destruct (round_robin _ _) as [i nx]; cbn [fst] in *; split_and!; try done; cbn; by rewrite Hrr]. destruct (done_ _ _); [done|]. split_and!; try done. intros _ H. by destruct (H E k).
  - unfold start_timer. by destruct (add_timer _ _ _ _ _ _) as [[? []] ?].
Qed.

Lemma execute_shaped it rest s items s' : shaped (it :: rest) -> execute IoThread it rest s = Some (items, s') -> shaped items.
Proof.
  intros [Hb Hr] E. destruct it as [| |e| |es|i|i| | |i|i k|i k|i|c|a|i a|]; unfold_item; try done.
  - destruct (running s); simplify_eq; [apply shaped_round|done].
  - destruct (running s); simplify_eq; [|done]. inv_bind E. simplify_eq. apply shaped_plain; [by apply forallb_fmap|done].
  - destruct (running s); [destruct (action e)|]; by (simplify_eq; cbn).
  - inv_bind E. destruct (report _ _); simplify_eq; [|done]. by split.
  - simplify_eq. apply shaped_plain; [|done]. apply forallb_fmap. by intros [[] []].
  - destruct (take_front _ _) as [[k q]|]; simplify_eq; [|done]. by destruct (done_ _ _); cbn.
  - destruct (take_front _ _) as [[k q]|]; simplify_eq; [|done]. split; [done|]. by split.
  - destruct (io_thread_queue s); simplify_eq; [done|]. split; [done|]. by split.
  - simplify_eq. cbn in Hb. rewrite Hb. clear. induction (destruction_order _ _) as [|o l IH]; [done|]. cbn. split; [|done]. rewrite forallb_app. cbn. rewrite andb_true_r. rewrite <- list_fmap_compose. by apply forallb_fmap.
  - simplify_eq. apply shaped_plain; [by apply forallb_fmap|done].
  - pose proof (proj1 (action_items IoThread a (log (Did IoThread a) s))) as K. destruct (do_action IoThread a _) as [l s1]. simplify_eq. by apply shaped_plain.
  - by simplify_eq.
  - by simplify_eq.
Qed.

Lemma execute_worker_items w it rest s items s' : w <> IoThread -> forallb worker_item (it :: rest) = true -> execute w it rest s = Some (items, s') -> forallb worker_item items = true.
Proof.
  intros Hw Hi E. cbn in Hi. apply andb_prop in Hi as [Hb Hr]. destruct it as [| |e| |es|i|i| | |i|i k|i k|i|c|a|i a|]; unfold_item; try done.
  - simplify_eq. rewrite forallb_app, Hr, andb_true_r, <- list_fmap_compose. by apply forallb_fmap.
  - destruct (running s); by simplify_eq.
  - destruct (decide _); [destruct (take_front _ _) as [[t q]|]|]; simplify_eq; try done. by destruct (done_ _ _).
  - destruct (decide _); [destruct (take_front _ _) as [[t q]|]|]; by simplify_eq.
  - destruct (has_work s); by simplify_eq.
  - simplify_eq. rewrite forallb_app, Hr, andb_true_r. by apply forallb_fmap.
  - pose proof (proj1 (proj2 (action_items w a (log (Did w a) s))) Hw) as K. destruct (do_action w a _) as [l s1]. cbn [fst] in K. simplify_eq. by rewrite forallb_app, K, Hr.
  - by simplify_eq.
  - by simplify_eq.
Qed.

Lemma wakes_after_round : wakes_after (round num_threads) = true.
Proof. unfold round. repeat (apply wakes_after_app; [first [done|by apply wakes_after_fmap]|]). done. Qed.

Lemma execute_wakes_after w it rest s items s' : wakes_after (it :: rest) = true -> execute w it rest s = Some (items, s') -> wakes_after items = true.
Proof.
  intros Hi E. assert (Hr : wakes_after rest = true) by (cbn in Hi; by apply andb_prop in Hi as [_ ?]). clear Hi.
  assert (Hc : forall it', wakes_after [it'] = true -> wakes_after (it' :: rest) = true) by (intros it' H; by apply (wakes_after_app [it'])).
  destruct it as [| |e| |es|i|i| | |i|i k|i k|i|c|a|i a|]; unfold_item.
  - destruct (running s); simplify_eq; [apply wakes_after_round|done].
  - destruct (running s); [|by simplify_eq]. inv_bind E. simplify_eq. apply wakes_after_app; [by apply wakes_after_fmap|done].
  - destruct (running s); [destruct (action e)|]; simplify_eq; by try apply Hc.
  - inv_bind E. destruct (report _ _); simplify_eq; [by apply Hc|done].
  - simplify_eq. apply wakes_after_app; [apply wakes_after_fmap; by intros [[] []]|done].
  - destruct (take_front _ _) as [[k q]|]; simplify_eq; [|done]. destruct (done_ _ _); by repeat apply wakes_after_app.
  - destruct (take_front _ _) as [[k q]|]; by simplify_eq.
  - destruct (io_thread_queue s); by simplify_eq.
  - simplify_eq. apply wakes_after_app; [rewrite <- list_fmap_compose; by apply wakes_after_fmap|done].
  - destruct (running s); by simplify_eq.
  - destruct (decide _); [destruct (take_front _ _) as [[t q]|]|]; simplify_eq; try done. by destruct (done_ _ _).
  - destruct (decide _); [destruct (take_front _ _) as [[t q]|]|]; by simplify_eq.
  - destruct (has_work s); by simplify_eq.
  - simplify_eq. apply wakes_after_app; [by apply wakes_after_fmap|done].
  - pose proof (proj1 (proj2 (proj2 (action_items w a (log (Did w a) s))))) as K. destruct (do_action w a _) as [l s1]. cbn [fst] in K. simplify_eq. by apply wakes_after_app.
  - by simplify_eq.
  - by simplify_eq.
Qed.

Record stacks_ok (st : threads) : Prop := {
  sk_loop : shaped (stack st);
  sk_others : Forall (fun l => forallb worker_item l = true) (others st);
  sk_workers : length (workers st) = num_threads;
  sk_callers : Forall (fun l => forallb caller_item l = true) (callers st);
  sk_wakes : Forall (fun l => wakes_after l = true) (stack st :: others st) }.

Lemma caller_execute it rest s items s' : forallb caller_item (it :: rest) = true -> execute Outside it rest s = Some (items, s') -> forallb caller_item items = true.
Proof. intros H E. cbn in H. apply andb_prop in H as [H1 H2]. destruct it; try done; cbn in E; by simplify_eq. Qed.

Lemma moves_callers st st' : moves st st' -> length (workers st) = num_threads -> Forall (fun l => forallb caller_item l = true) (callers st) ->
  length (workers st') = num_threads /\ Forall (fun l => forallb caller_item l = true) (callers st').
Proof.
  intros [it rest ws cs s items s' E|i l ws cs s it rest items s' El E|i l ws cs s it rest items s' El E|l ws cs s a items s' Ha E] H1 H2; cbn [workers callers] in *; [done| | |].
  - by rewrite length_insert.
  - split; [done|]. apply Forall_insert; [done|]. eapply caller_execute; [|exact E]. rewrite Forall_lookup in H2. exact (H2 i _ El).
  - split; [done|]. apply Forall_app. split; [done|]. apply Forall_singleton. pose proof (proj2 (proj2 (proj2 (action_items Outside a (log (Did Outside a) s)))) eq_refl Ha) as K. by rewrite E in K.
Qed.

Lemma moves_stacks st st' : moves st st' -> stacks_ok st -> stacks_ok st'.
Proof.
  intros Hm [H1 H2 H3 H4 H5]. destruct (moves_callers st st' Hm H3 H4) as [H3' H4']. apply Forall_cons in H5 as [H5 H6].
  destruct (moves_inv st st' Hm) as [(it & rest & Es & E & Ew & Ec)|(os & w & i & it & rest & items & Hw & Ho & El & E & Eo & Es)].
  - rewrite Es in H1, H5. assert (Eo : others st' = others st) by (unfold others; by rewrite Ew, Ec). split; [by eapply execute_shaped|by rewrite Eo|done|done|]. rewrite Eo. apply Forall_cons. split; [by eapply execute_wakes_after|done].
  - assert (Hos : Forall (fun l => forallb worker_item l = true) os /\ Forall (fun l => wakes_after l = true) os).
    { destruct Ho as [->|[a ->]]; [done|]. rewrite !Forall_app, !Forall_singleton. done. }
    destruct Hos as [K1 K2]. split; [by rewrite Es| |done|done|]; rewrite Eo.
    + apply Forall_insert; [done|]. eapply (execute_worker_items w); [done| |exact E]. rewrite Forall_lookup in K1. exact (K1 i _ El).
    + rewrite Es. apply Forall_cons. split; [done|]. apply Forall_insert; [done|]. eapply execute_wakes_after; [|exact E]. rewrite Forall_lookup in K2. exact (K2 i _ El).
Qed.

Lemma start_others wake p l : l ∈ others (start num_threads wake p) -> exists i, l = [IWorker i].
Proof. unfold others. cbn. rewrite app_nil_r. intros Hl. apply list_elem_of_fmap in Hl as (i & -> & _). by eexists. Qed.

Lemma reachable_stacks wake p st : reachable wake p st -> stacks_ok st.
Proof.
  apply reachable_ind; [|intros st1 st2 H1 H2; by eapply moves_stacks]. split; [done| |cbn; by rewrite length_fmap, length_seq|by apply Forall_nil|apply Forall_cons; split; [done|]];
    apply Forall_forall; intros l Hl; by apply start_others in Hl as [i ->].
Qed.

(** ** Posted callbacks *)

(** Given to [post], in a queue, run. *)
Definition posted (tr : list (Log (C := C))) : list C := flat_map (fun x => match x with Did _ (Post f) => [f] | _ => [] end) tr.
Definition queued (tr : list (Log (C := C))) : list C := flat_map (fun x => match x with Queued _ (Post f) => [f] | _ => [] end) tr.
Definition ran (tr : list (Log (C := C))) : list C := flat_map (fun x => match x with Called _ (RunPosted f) => [f] | _ => [] end) tr.

(** What a thread is about to queue, and about to run. *)
Definition about_to_queue (items : list (Item (C := C))) : list C := flat_map (fun it => match it with IEnqueue _ (Post f) => [f] | _ => [] end) items.
Definition about_to (items : list (Item (C := C))) : list C := flat_map (fun it => match it with ICall (RunPosted f) => [f] | _ => [] end) items.

Lemma about_to_app l1 l2 : about_to (l1 ++ l2) = about_to l1 ++ about_to l2.
Proof. apply flat_map_app. Qed.

Lemma queued_snoc tr x : queued (tr ++ [x]) = queued tr ++ queued [x].
Proof. apply flat_map_app. Qed.

Lemma ran_snoc tr x : ran (tr ++ [x]) = ran tr ++ ran [x].
Proof. apply flat_map_app. Qed.

Lemma about_to_none {A} (f : A -> Item (C := C)) l : (forall a, about_to [f a] = []) -> about_to (f <$> l) = [].
Proof. intros Hf. induction l as [|a l IH]; [done|]. rewrite fmap_cons. change (f a :: (f <$> l)) with ([f a] ++ (f <$> l)). by rewrite about_to_app, Hf, IH. Qed.

Lemma concat_push (qs : list (list C)) i f : (i < length qs)%nat -> concat (push_back i f qs) ≡ₚ concat qs ++ [f].
Proof.
  revert i. induction qs as [|q qs IH]; intros [|i] Hi; cbn in *; [lia|lia| |].
  - rewrite <- !app_assoc. apply Permutation_app_head, Permutation_app_comm.
  - unfold push_back in IH. rewrite IH by lia. by rewrite app_assoc.
Qed.

Lemma concat_take (qs qs' : list (list C)) i f : take_front i qs = Some (f, qs') -> concat qs ≡ₚ f :: concat qs' /\ length qs' = length qs.
Proof.
  unfold take_front. destruct (qs !! i) as [[|x q]|] eqn:Ei; [done| |done]. intros [= <- <-]. split; [|apply length_insert].
  rewrite <- (take_drop_middle qs i _ Ei) at 1. rewrite insert_take_drop by (by eapply lookup_lt_Some). rewrite !concat_app. cbn. symmetry. apply Permutation_middle.
Qed.

(** Callbacks that entered a queue are run, about to be run, or still there. *)
Definition posting (items : list (Item (C := C))) (s : loop_state) : list C := ran (trace s) ++ about_to items ++ concat (callback_queues s).

Definition accounted (items items' : list (Item (C := C))) (s s' : loop_state) : Prop :=
  length (callback_queues s') = length (callback_queues s) /\
  exists new, queued (trace s') = queued (trace s) ++ new /\ posting items' s' ≡ₚ posting items s ++ new /\
    (num_threads = 0%nat -> shaped items -> posting items' s' = posting items s ++ new).

(** Nothing posted, nothing run, nothing dequeued. *)
Lemma loopsafety_accounted_same items items' s s' : callback_queues s' = callback_queues s -> queued (trace s') = queued (trace s) -> ran (trace s') = ran (trace s) ->
  about_to items' = about_to items -> accounted items items' s s'.
Proof. intros E1 E2 E3 E4. split; [by rewrite E1|]. exists []. unfold posting. by rewrite !app_nil_r, E1, E3, E4. Qed.

Lemma push_single (q : list C) f i : (i < 1)%nat -> concat (push_back i f [q]) = concat [q] ++ [f].
Proof. intros Hi. destruct i; [|lia]. cbn. by rewrite !app_nil_r. Qed.

Lemma action_about w a s : about_to (do_action w a s).1 = [].
Proof.
  destruct a; cbn [do_action]; try done.
  - by destruct (set_io_handler _ _ _ _) as [t []].
  - by destruct w.
  - unfold schedule. destruct (decide _); [|by destruct (round_robin _ _)]. by destruct (done_ _ _).
  - unfold start_timer. by destruct (add_timer _ _ _ _ _ _) as [[? []] ?].
Qed.

(** A call by itself queues nothing. *)
Lemma action_quiet w a s : let s' := (do_action w a s).2 in
  callback_queues s' = callback_queues s /\ task_queues s' = task_queues s /\ io_thread_queue s' = io_thread_queue s /\ woken s' = woken s.
Proof.
  cbv zeta. destruct a; cbn [do_action]; try done.
  - by destruct (set_io_handler _ _ _ _) as [t []].
  - by destruct w.
  - unfold schedule. by destruct (decide _).
Qed.

Lemma action_accounted w a rest s : accounted (IAct a :: rest) ((do_action w a (log (Did w a) s)).1 ++ rest) s (do_action w a (log (Did w a) s)).2.
Proof.
  destruct (action_quiet w a (log (Did w a) s)) as [E1 _]. apply loopsafety_accounted_same; [exact E1|rewrite action_trace; cbn; by rewrite queued_snoc, app_nil_r|rewrite action_trace; cbn; by rewrite ran_snoc, app_nil_r|].
  by rewrite about_to_app, action_about.
Qed.

Lemma enqueue_accounted w i a rest s : length (callback_queues s) = queue_count num_threads -> (i < queue_count num_threads)%nat ->
  accounted (IEnqueue i a :: rest) rest s (enqueue i a (log (Queued w a) s)).
Proof.
  intros Hl Hi. assert (Hsame : (forall f, a <> Post f) -> accounted (IEnqueue i a :: rest) rest s (enqueue i a (log (Queued w a) s))).
  { intros Ha. apply loopsafety_accounted_same; [by destruct a as [| |f| | | | | |]; try done; destruct (Ha f)| | |done];
      destruct (enqueue_same i a (log (Queued w a) s)) as (_ & _ & -> & _); cbn; rewrite ?queued_snoc, ?ran_snoc, ?app_nil_r; try done. destruct a; try apply app_nil_r. by destruct (Ha f). }
  destruct a as [| |f| | | | | |]; try (by apply Hsame). split; [by cbn; apply length_alter|]. exists [f]. split; [cbn; by rewrite queued_snoc|]. unfold posting. cbn. rewrite ran_snoc. cbn. rewrite app_nil_r. split.
  - rewrite concat_push by congruence. by rewrite <- !app_assoc.
  - intros E0 _. unfold queue_count in Hl, Hi. rewrite E0 in Hl, Hi. destruct (callback_queues s) as [|q [|]]; [done| |done]. rewrite push_single by done. by rewrite <- !app_assoc.
Qed.

Lemma about_to_cons it rest : about_to (it :: rest) = about_to [it] ++ about_to rest.
Proof. apply (about_to_app [it]). Qed.

Lemma about_to_static : about_to after_wait = [].
Proof. unfold after_wait. rewrite about_to_cons, !about_to_app, !about_to_none by done. done. Qed.

Lemma about_to_resume (b : bool) (k : C) rest : about_to ((if b then [] else [ICall (Resume k)]) ++ rest) = about_to rest.
Proof. by destruct b. Qed.

Lemma about_to_drains rest : forallb drains rest = true -> about_to rest = [].
Proof. induction rest as [|it rest IH]; [done|]. intros H. cbn in H. apply andb_prop in H as [H1 H2]. rewrite about_to_cons, IH by done. by destruct it. Qed.

(** A callback leaves a queue for the stack. *)
Lemma accounted_take it rest f i qs s l : length (callback_queues s) = queue_count num_threads -> take_front i (callback_queues s) = Some (f, qs) -> about_to [it] = [] -> about_to l = about_to rest ->
  (shaped (it :: rest) -> forallb drains rest = true) -> accounted (it :: rest) (ICall (RunPosted f) :: l) s (set_callback_queues qs s).
Proof.
  intros Hq E Hit Hl Hd. destruct (concat_take _ _ _ _ E) as [K1 K2]. split; [done|]. exists []. rewrite !app_nil_r. split; [done|]. unfold posting. rewrite !(about_to_cons _ rest), (about_to_cons _ l), Hit, Hl. cbn.
  split; [apply Permutation_app_head; rewrite K1; apply Permutation_middle|].
  intros E0 Hs. rewrite about_to_drains by auto. cbn. f_equal. unfold queue_count in Hq. rewrite E0 in Hq. destruct (callback_queues s) as [|q [|]]; [done| |done].
  unfold take_front in E. destruct i; [|done]. cbn in E. destruct q; [done|]. by injection E as <- <-.
Qed.

Lemma execute_accounted w it rest s items s' : length (callback_queues s) = queue_count num_threads -> wakes_after (it :: rest) = true -> (forallb worker_item (it :: rest) = true \/ shaped (it :: rest)) ->
  execute w it rest s = Some (items, s') -> accounted (it :: rest) items s s'.
Proof.
  intros Hl Hwk Hsh E. destruct it as [| |e| |es|i|i| | |i|i k|i k|i|c|a|i a|]; unfold_item.
  - destruct Hsh as [?|[-> _]]; [done|]. destruct (running s); simplify_eq; apply loopsafety_accounted_same; try done. rewrite round_eq, !(about_to_cons _ (_ :: _)), (about_to_cons _ after_wait), about_to_static. done.
  - destruct (running s); [|by simplify_eq; apply loopsafety_accounted_same]. inv_bind E. simplify_eq. apply loopsafety_accounted_same; try done. by rewrite about_to_app, about_to_none.
  - destruct (running s); [destruct (action e)|]; simplify_eq; by apply loopsafety_accounted_same.
  - destruct Hsh as [?|[Hb _]]; [done|]. cbn in Hb. inv_bind E. destruct (report _ _); simplify_eq; apply loopsafety_accounted_same; try done. symmetry. by rewrite about_to_cons, about_to_static.
  - simplify_eq. apply loopsafety_accounted_same; [by destruct (drained _)..|]. rewrite about_to_app, about_to_none; [done|]. by intros [[] []].
  - destruct (take_front _ _) as [[k q]|]; simplify_eq; apply loopsafety_accounted_same; try done. by rewrite about_to_resume.
  - destruct (take_front _ _) as [[k q]|] eqn:Et; simplify_eq; [|by apply loopsafety_accounted_same]. eapply accounted_take; [done|done|done|done|]. by intros [].
  - destruct (io_thread_queue s); simplify_eq; by apply loopsafety_accounted_same.
  - simplify_eq. apply loopsafety_accounted_same; try done. rewrite about_to_app, <- list_fmap_compose, about_to_none; done.
  - destruct (running s); simplify_eq; by apply loopsafety_accounted_same.
  - destruct (decide _); [destruct (take_front _ _) as [[t q]|]|]; simplify_eq; apply loopsafety_accounted_same; try done. by rewrite about_to_resume.
  - destruct (decide _); [destruct (take_front _ _) as [[t q]|] eqn:Et|]; simplify_eq; [|by apply loopsafety_accounted_same..]. eapply accounted_take; [done|done|done|done|]. by intros [[] _].
  - destruct (has_work s); simplify_eq; by apply loopsafety_accounted_same.
  - simplify_eq. split; [done|]. exists []. rewrite !app_nil_r. unfold posting. cbn [trace log callback_queues]. rewrite queued_snoc, ran_snoc, about_to_app, (about_to_cons _ rest), about_to_none by done. cbn [app].
    rewrite app_nil_r. split; [done|]. rewrite <- app_assoc. by destruct c.
  - pose proof (action_accounted w a rest s) as K. destruct (do_action w a _) as [l s1]. by simplify_eq.
  - simplify_eq. apply enqueue_accounted; [done|]. cbn in Hwk. apply andb_prop in Hwk as [Hwk _]. apply andb_prop in Hwk as [Hwk _]. by apply bool_decide_eq_true in Hwk.
  - simplify_eq. by apply loopsafety_accounted_same.
Qed.

Lemma concat_insert_perm (l : list (list C)) i x y : l !! i = Some x -> concat (<[i := y]> l) ++ x ≡ₚ concat l ++ y.
Proof.
  intros E. rewrite insert_take_drop by (by eapply lookup_lt_Some). rewrite <- (take_drop_middle l i x E) at 3. rewrite !concat_app. cbn.
  rewrite <- !app_assoc. apply Permutation_app_head. rewrite (Permutation_app_comm y), (Permutation_app_comm x), <- !app_assoc. apply Permutation_app_head. apply Permutation_app_comm.
Qed.

(** ** From the call to the queue *)

(** Whether a call queues its argument. *)
Definition enqueues (w : Thread) (a : Action (C := C)) : bool :=
  match a with
  | Post _ => true
  | PostToIo _ => match w with IoThread => false | _ => true end
  | Schedule _ => negb (bool_decide (num_threads = 0%nat))
  | _ => false
  end.

Section Entering.
Context (sel : Action (C := C) -> list C).

(** What was given to calls that queue it, what entered a queue, and what a
    thread is about to queue. *)
Definition given (tr : list (Log (C := C))) : list C := flat_map (fun x => match x with Did w a => if enqueues w a then sel a else [] | _ => [] end) tr.
Definition entered (tr : list (Log (C := C))) : list C := flat_map (fun x => match x with Queued _ a => sel a | _ => [] end) tr.
Definition entering (items : list (Item (C := C))) : list C := flat_map (fun it => match it with IEnqueue _ a => sel a | _ => [] end) items.

Lemma entering_app l1 l2 : entering (l1 ++ l2) = entering l1 ++ entering l2.
Proof. apply flat_map_app. Qed.

Lemma entering_none {A} (f : A -> Item (C := C)) l : (forall a, entering [f a] = []) -> entering (f <$> l) = [].
Proof. intros Hf. induction l as [|a l IH]; [done|]. rewrite fmap_cons. change (f a :: (f <$> l)) with ([f a] ++ (f <$> l)). by rewrite entering_app, Hf, IH. Qed.

Lemma entering_static : entering after_wait = [].
Proof. unfold after_wait. change (ITimers :: ?l) with ([ITimers] ++ l). by rewrite !entering_app, !entering_none. Qed.

Lemma action_entering w a s : entering (do_action w a s).1 = if enqueues w a then sel a else [].
Proof.
  destruct a; cbn [do_action enqueues]; try done.
  - by destruct (set_io_handler _ _ _ _) as [t []].
  - unfold post. destruct (round_robin _ _). cbn. by rewrite app_nil_r.
  - destruct w; cbn; by rewrite ?app_nil_r.
  - unfold schedule. destruct (decide _) as [E|E]; [rewrite bool_decide_true by done; by destruct (done_ _ _)|]. rewrite bool_decide_false by done. destruct (round_robin _ _). cbn. by rewrite app_nil_r.
  - unfold start_timer. by destruct (add_timer _ _ _ _ _ _) as [[? []] ?].
Qed.

(** One item: what it adds to the given is entered or about to be. *)
Lemma execute_entering w it rest s items s' : (forallb worker_item (it :: rest) = true \/ shaped (it :: rest)) -> execute w it rest s = Some (items, s') ->
  exists new, given (trace s') = given (trace s) ++ new /\ entered (trace s') ++ entering items ≡ₚ (entered (trace s) ++ entering (it :: rest)) ++ new.
Proof.
  intros Hsh E. pose proof (execute_trace _ _ _ _ _ _ E) as Et.
  assert (Hsame : logs w it = [] -> entering items = entering (it :: rest) -> exists new, given (trace s') = given (trace s) ++ new /\ entered (trace s') ++ entering items ≡ₚ (entered (trace s) ++ entering (it :: rest)) ++ new).
  { intros E1 E2. exists []. rewrite Et, E1, E2, !app_nil_r. done. }
  destruct it as [| |e| |es|i|i| | |i|i k|i k|i|c|a|i a|]; unfold_item; try (apply Hsame; [done|]).
  - destruct Hsh as [?|[-> _]]; [done|]. destruct (running s); simplify_eq; [|done]. rewrite round_eq. change (ITimers :: IWait :: after_wait) with ([ITimers; IWait] ++ after_wait). by rewrite entering_app, entering_static.
  - destruct (running s); [|by simplify_eq]. inv_bind E. simplify_eq. by rewrite entering_app, entering_none.
  - destruct (running s); [destruct (action e)|]; by simplify_eq.
  - destruct Hsh as [?|[Hb _]]; [done|]. cbn in Hb. inv_bind E. destruct (report _ _); simplify_eq; [done|]. change (IWait :: after_wait) with ([IWait] ++ after_wait). by rewrite entering_app, entering_static.
  - simplify_eq. rewrite entering_app, entering_none; [done|]. by intros [[] []].
  - destruct (take_front _ _) as [[k q]|]; simplify_eq; [|done]. by destruct (done_ _ _).
  - destruct (take_front _ _) as [[k q]|]; by simplify_eq.
  - destruct (io_thread_queue s); by simplify_eq.
  - simplify_eq. rewrite entering_app, <- list_fmap_compose, entering_none; done.
  - destruct (running s); by simplify_eq.
  - destruct (decide _); [destruct (take_front _ _) as [[t q]|]|]; simplify_eq; try done. by destruct (done_ _ _).
  - destruct (decide _); [destruct (take_front _ _) as [[t q]|]|]; by simplify_eq.
  - destruct (has_work s); by simplify_eq.
  - simplify_eq. exists []. unfold given, entered. cbn [trace log]. rewrite !flat_map_app, !app_nil_r, entering_app, entering_none by done. done.
  - pose proof (action_entering w a (log (Did w a) s)) as K. destruct (do_action w a _) as [l s1]. cbn [fst] in K. simplify_eq. rewrite Et. cbn [logs]. exists (if enqueues w a then sel a else []).
    unfold given, entered. rewrite !flat_map_app. cbn [flat_map]. rewrite !app_nil_r, entering_app, K. split; [done|]. change (entering (IAct a :: rest)) with (entering rest). solve_Permutation.
  - injection E as <- <-. rewrite Et. cbn [logs]. exists []. unfold given, entered. rewrite !flat_map_app. cbn [flat_map]. rewrite !app_nil_r. split; [done|]. change (entering (IEnqueue i a :: rest)) with (sel a ++ entering rest). by rewrite <- app_assoc.
  - by simplify_eq.
Qed.

Definition entering_inv (st : threads) : Prop := given (trace (shared st)) ≡ₚ entered (trace (shared st)) ++ concat (entering <$> (stack st :: others st)).

Lemma moves_entering st st' : moves st st' -> stacks_ok st -> entering_inv st -> entering_inv st'.
Proof.
  intros Hm [H1 H2 _ _ _] H. unfold entering_inv in *. cbn [fmap list_fmap concat] in *.
  destruct (moves_inv st st' Hm) as [(it & rest & Es & E & Ew & Ec)|(os & w & i & it & rest & items & Hw & Ho & El & E & Eo & Es)].
  - rewrite Es in H1, H. destruct (execute_entering _ _ _ _ _ _ (or_intror H1) E) as (new & K1 & K2). unfold others in *. rewrite Ew, Ec, K1, H.
    etrans; [|etrans; [eapply (Permutation_app_tail (concat (entering <$> workers st ++ callers st))); symmetry; exact K2|]]; solve_Permutation.
  - assert (Hos : Forall (fun l => forallb worker_item l = true) os /\ concat (entering <$> os) = concat (entering <$> others st)).
    { destruct Ho as [->|[a ->]]; [done|]. rewrite Forall_app, Forall_singleton, fmap_app, concat_app. cbn. by rewrite app_nil_r. }
    destruct Hos as [Hi Hc]. rewrite Forall_lookup in Hi. destruct (execute_entering _ _ _ _ _ _ (or_introl (Hi i _ El)) E) as (new & K1 & K2). rewrite Es, Eo, K1, H, <- Hc.
    apply (Permutation_app_inv_r (entering (it :: rest))). rewrite <- !app_assoc, list_fmap_insert. rewrite (concat_insert_perm (entering <$> os) i (entering (it :: rest))) by (by rewrite list_lookup_fmap, El).
    etrans; [|etrans; [eapply (Permutation_app_tail (entering (stack st) ++ concat (entering <$> os))); symmetry; exact K2|]]; solve_Permutation.
Qed.

Lemma reachable_entering wake p st : reachable wake p st -> entering_inv st.
Proof.
  intros Hr. assert (H : stacks_ok st /\ entering_inv st); [|by destruct H]. revert Hr. apply (reachable_ind (fun st => stacks_ok st /\ entering_inv st)).
  - split; [by apply (reachable_stacks wake p); constructor|]. unfold entering_inv, others. cbn. rewrite app_nil_r. by induction (seq 0 num_threads).
  - intros st1 st2 [H1 H2] Hm. split; [by eapply moves_stacks|by eapply moves_entering].
Qed.
End Entering.

Definition all_posting (st : threads) : list C := posting (stack st) (shared st) ++ concat (about_to <$> others st).

Definition posted_inv (st : threads) : Prop :=
  length (callback_queues (shared st)) = queue_count num_threads /\ queued (trace (shared st)) ≡ₚ all_posting st /\
  (num_threads = 0%nat -> queued (trace (shared st)) = posting (stack st) (shared st)).

Lemma caller_about l : forallb caller_item l = true -> about_to l = [].
Proof. induction l as [|it l IH]; [done|]. intros H. cbn in H. apply andb_prop in H as [H1 H2]. rewrite about_to_cons, IH by done. by destruct it. Qed.

Lemma caller_shaped l : forallb caller_item l = true -> shaped l.
Proof. induction l as [|it l IH]; [done|]. intros H. cbn in H. apply andb_prop in H as [H1 H2]. split; [by destruct it|by apply IH]. Qed.

(** Without workers the other threads are in calls of the loop. *)
Lemma others_call st os i it rest : num_threads = 0%nat -> stacks_ok st -> (os = others st \/ exists a, os = others st ++ [[IAct a]]) -> os !! i = Some (it :: rest) ->
  forallb caller_item (it :: rest) = true \/ exists a : Action (C := C), it :: rest = [IAct a].
Proof.
  intros E0 Hst Ho El. pose proof (sk_workers _ Hst) as Hn. rewrite E0 in Hn. pose proof (sk_callers _ Hst) as Hc. rewrite Forall_lookup in Hc.
  assert (Hoc : others st = callers st) by (unfold others; by destruct (workers st)). rewrite Hoc in Ho.
  destruct Ho as [->|[a ->]]; [left; exact (Hc i _ El)|]. apply lookup_app_Some in El as [El|[_ El]]; [left; exact (Hc i _ El)|]. right. exists a. by apply list_lookup_singleton_Some in El as [_ El].
Qed.

(** What a thread of the application does, without workers, changes the account
    of the loop's own stack alike. *)
Lemma posting_elsewhere items items' s s' l : num_threads = 0%nat -> shaped items -> about_to items = [] -> about_to items' = [] -> ran (trace s') = ran (trace s) -> accounted items items' s s' ->
  exists new, queued (trace s') = queued (trace s) ++ new /\ posting l s' = posting l s ++ new.
Proof.
  intros E0 Hs E1 E2 E3 (_ & new & K1 & _ & K2). exists new. split; [done|]. specialize (K2 E0 Hs). unfold posting in *. rewrite E1, E2, E3 in *. cbn in K2. rewrite <- !app_assoc in *. apply app_inv_head in K2. by rewrite K2.
Qed.

Lemma moves_posted st st' : moves st st' -> stacks_ok st -> posted_inv st -> posted_inv st'.
Proof.
  intros Hm Hst (H1 & H2 & H3). pose proof (moves_stacks st st' Hm Hst) as Hst'. pose proof Hst as [Hs Hw Hl Hc Hk]. unfold posted_inv, all_posting in *. apply Forall_cons in Hk as [Hk Hko].
  destruct (moves_inv st st' Hm) as [(it & rest & Es & E & Ew & Ec)|(os & w & i & it & rest & items & Hnw & Ho & El & E & Eo & Es)].
  - rewrite Es in Hs, Hk, H2, H3. destruct (execute_accounted IoThread it rest _ _ _ H1 Hk (or_intror Hs) E) as (K1 & new & K2 & K3 & K4). split; [congruence|]. split.
    + unfold others in *. rewrite Ew, Ec, K2, K3, H2. solve_Permutation.
    + intros E0. by rewrite K2, K4, H3.
  - assert (Hos : Forall (fun l => forallb worker_item l = true) os /\ Forall (fun l => wakes_after l = true) os /\ concat (about_to <$> os) = concat (about_to <$> others st)).
    { destruct Ho as [->|[a ->]]; [done|]. rewrite !Forall_app, !Forall_singleton, fmap_app, concat_app. cbn. by rewrite app_nil_r. }
    destruct Hos as (Hi & Hk' & Hcc). rewrite Forall_lookup in Hi, Hk'. pose proof (execute_accounted w it rest _ _ _ H1 (Hk' i _ El) (or_introl (Hi i _ El)) E) as Ha. pose proof Ha as (K1 & new & K2 & K3 & _). split; [congruence|]. split.
    + rewrite Es, Eo. apply (Permutation_app_inv_r (about_to (it :: rest))). rewrite <- app_assoc, list_fmap_insert. rewrite (concat_insert_perm (about_to <$> os) i (about_to (it :: rest))) by (by rewrite list_lookup_fmap, El).
      rewrite K2, H2, <- Hcc. unfold posting in *. etrans; [|etrans; [eapply (Permutation_app_tail (about_to (stack st) ++ concat (about_to <$> os))); symmetry; exact K3|]]; solve_Permutation.
    + intros E0. rewrite Es. pose proof (others_call st os i it rest E0 Hst Ho El) as Hx. assert (Hab : about_to items = []).
      { pose proof (sk_workers _ Hst') as Hn. rewrite E0 in Hn. pose proof (sk_callers _ Hst') as Hc'. assert (Hoc : callers st' = <[i := items]> os) by (rewrite <- Eo; unfold others; by destruct (workers st')).
        apply caller_about. rewrite Hoc, Forall_lookup in Hc'. apply (Hc' i). apply list_lookup_insert_eq. by eapply lookup_lt_Some. }
      assert (Hy : shaped (it :: rest) /\ about_to (it :: rest) = [] /\ ran (logs w it) = []).
      { destruct Hx as [Hx|[a Hx]]; [|injection Hx as -> ->; done]. split; [by apply caller_shaped|]. split; [by apply caller_about|]. cbn in Hx. apply andb_prop in Hx as [Hx _]. by destruct it. }
      destruct Hy as (Hy1 & Hy2 & Hy3). assert (Er : ran (trace (shared st')) = ran (trace (shared st))) by (rewrite (execute_trace _ _ _ _ _ _ E); unfold ran in *; by rewrite flat_map_app, Hy3, app_nil_r).
      destruct (posting_elsewhere _ _ _ _ (stack st) E0 Hy1 Hy2 Hab Er Ha) as (new' & -> & ->). by rewrite H3.
Qed.

Lemma concat_replicate_nil n : concat (replicate n (@nil C)) = [].
Proof. by induction n. Qed.

Lemma reachable_posted wake p st : reachable wake p st -> stacks_ok st /\ posted_inv st.
Proof.
  apply (reachable_ind (fun st => stacks_ok st /\ posted_inv st)).
  - split; [by apply (reachable_stacks wake p); constructor|].
    split; [apply length_replicate|]. unfold all_posting, posting, others. cbn. rewrite concat_replicate_nil, app_nil_r. split; [|done].
    induction (seq 0 num_threads); [done|]. by cbn.
  - intros st1 st2 [H1 H2] Hm. split; [by eapply moves_stacks|by eapply moves_posted].
Qed.

Lemma posted_given tr : posted tr = given (fun a => match a with Post f => [f] | _ => [] end) tr.
Proof. apply flat_map_ext. intros [| w a|]; [done| |done]. destruct a; cbn; try done; by destruct (_ : bool) || by destruct w. Qed.

(** C26: Every callback given to [post], by a timer too, is accounted for in
    every interleaving of the loop, its workers and the application's threads,
    also in the middle of [post]: the thread that called [post] is about to
    queue it; or it is in a queue, is about to be run by the one thread that
    dequeued it, or has been run, once; none is lost, run twice or made up.
    Without worker threads they also run in the order in which they entered the
    queue. *)
Theorem posted_run_once wake p st : reachable wake p st ->
  posted (trace (shared st)) ≡ₚ queued (trace (shared st)) ++ concat (about_to_queue <$> (stack st :: others st)) /\
  queued (trace (shared st)) ≡ₚ ran (trace (shared st)) ++ concat (about_to <$> (stack st :: others st)) ++ concat (callback_queues (shared st)) /\
  (num_threads = 0%nat -> queued (trace (shared st)) = ran (trace (shared st)) ++ about_to (stack st) ++ concat (callback_queues (shared st))).
Proof.
  intros Hr. destruct (reachable_posted wake p st Hr) as [_ (_ & H2 & H3)]. split; [|split; [|done]].
  - rewrite posted_given. exact (reachable_entering (fun a => match a with Post f => [f] | _ => [] end) wake p st Hr).
  - rewrite H2. unfold all_posting, posting. cbn. solve_Permutation.
Qed.

(** ** The loop's own thread *)

Definition io_call (c : Call (C := C)) : bool := match c with OnReadable _ | OnWritable _ | RunOnIoThread _ | RunInline _ => true | _ => false end.

(** Given to [post_to_io_thread] by other threads, and in its queue. *)
Definition io_given (tr : list (Log (C := C))) : list C :=
  flat_map (fun x => match x with Did IoThread _ => [] | Did _ (PostToIo f) => [f] | _ => [] end) tr.
Definition io_queued (tr : list (Log (C := C))) : list C := flat_map (fun x => match x with Queued _ (PostToIo f) => [f] | _ => [] end) tr.
Definition io_ran (tr : list (Log (C := C))) : list C := flat_map (fun x => match x with Called _ (RunOnIoThread f) => [f] | _ => [] end) tr.
Definition io_about_to_queue (items : list (Item (C := C))) : list C := flat_map (fun it => match it with IEnqueue _ (PostToIo f) => [f] | _ => [] end) items.
Definition io_about (items : list (Item (C := C))) : list C := flat_map (fun it => match it with ICall (RunOnIoThread f) => [f] | _ => [] end) items.

Lemma io_about_app l1 l2 : io_about (l1 ++ l2) = io_about l1 ++ io_about l2.
Proof. apply flat_map_app. Qed.

Lemma io_about_none {A} (f : A -> Item (C := C)) l : (forall a, io_about [f a] = []) -> io_about (f <$> l) = [].
Proof. intros Hf. induction l as [|a l IH]; [done|]. rewrite fmap_cons. change (f a :: (f <$> l)) with ([f a] ++ (f <$> l)). by rewrite io_about_app, Hf, IH. Qed.

Lemma io_about_static : io_about after_wait = [].
Proof. unfold after_wait. change (ITimers :: ?l) with ([ITimers] ++ l). by rewrite !io_about_app, !io_about_none. Qed.

Definition io_all (items : list (Item (C := C))) (s : loop_state) : list C := io_ran (trace s) ++ io_about items ++ io_thread_queue s.

Definition io_accounted (items items' : list (Item (C := C))) (s s' : loop_state) : Prop :=
  exists new, io_queued (trace s') = io_queued (trace s) ++ new /\ io_all items' s' = io_all items s ++ new.

Lemma io_accounted_same items items' s s' : io_thread_queue s' = io_thread_queue s -> io_queued (trace s') = io_queued (trace s) -> io_ran (trace s') = io_ran (trace s) ->
  io_about items' = io_about items -> io_accounted items items' s s'.
Proof. intros E1 E2 E3 E4. exists []. unfold io_all. by rewrite !app_nil_r, E1, E2, E3, E4. Qed.

Lemma action_io_about w a s : io_about (do_action w a s).1 = [].
Proof.
  destruct a; cbn [do_action]; try done.
  - by destruct (set_io_handler _ _ _ _) as [t []].
  - by destruct w.
  - unfold schedule. destruct (decide _); [|by destruct (round_robin _ _)]. by destruct (done_ _ _).
  - unfold start_timer. by destruct (add_timer _ _ _ _ _ _) as [[? []] ?].
Qed.

Lemma io_action w a rest s : io_accounted (IAct a :: rest) ((do_action w a (log (Did w a) s)).1 ++ rest) s (do_action w a (log (Did w a) s)).2.
Proof.
  destruct (action_quiet w a (log (Did w a) s)) as (_ & _ & E1 & _). apply io_accounted_same; [exact E1|..]; rewrite ?io_about_app, ?action_io_about, ?action_trace; try done;
    unfold io_queued, io_ran; cbn; by rewrite flat_map_app, app_nil_r.
Qed.

Lemma io_enqueue w i a rest s : io_accounted (IEnqueue i a :: rest) rest s (enqueue i a (log (Queued w a) s)).
Proof.
  assert (Er : io_ran (trace s ++ [Queued w a]) = io_ran (trace s)) by (unfold io_ran; by rewrite flat_map_app, app_nil_r).
  destruct a as [| | |f| | | | |]; cbn [enqueue];
    try (apply io_accounted_same; [done|unfold io_queued; cbn; rewrite flat_map_app; apply app_nil_r|exact Er|done]).
  exists [f]. split; [unfold io_queued; cbn; by rewrite flat_map_app|]. unfold io_all. cbn [trace io_thread_queue set_io_thread_queue log]. rewrite Er. change (io_about (IEnqueue i (PostToIo f) :: rest)) with (io_about rest). by rewrite <- !app_assoc.
Qed.

Lemma execute_io w it rest s items s' : shaped (it :: rest) \/ forallb worker_item (it :: rest) = true -> execute w it rest s = Some (items, s') -> io_accounted (it :: rest) items s s'.
Proof.
  intros Hsh E. destruct it as [| |e| |es|i|i| | |i|i k|i k|i|c|a|i a|]; unfold_item.
  - destruct Hsh as [[-> _]|?]; [|done]. destruct (running s); simplify_eq; apply io_accounted_same; try done. rewrite round_eq. change (ITimers :: IWait :: after_wait) with ([ITimers; IWait] ++ after_wait). by rewrite io_about_app, io_about_static.
  - destruct (running s); [|by simplify_eq; apply io_accounted_same]. inv_bind E. simplify_eq. apply io_accounted_same; try done. by rewrite io_about_app, io_about_none.
  - destruct (running s); [destruct (action e)|]; simplify_eq; by apply io_accounted_same.
  - destruct Hsh as [[Hb _]|?]; [|done]. cbn in Hb. inv_bind E. destruct (report _ _); simplify_eq; apply io_accounted_same; try done. change (IWait :: after_wait) with ([IWait] ++ after_wait). by rewrite io_about_app, io_about_static.
  - simplify_eq. apply io_accounted_same; [by destruct (drained _)..|]. rewrite io_about_app, io_about_none; [done|]. by intros [[] []].
  - destruct (take_front _ _) as [[k q]|]; simplify_eq; apply io_accounted_same; try done. by destruct (done_ _ _).
  - destruct (take_front _ _) as [[k q]|]; simplify_eq; by apply io_accounted_same.
  - destruct Hsh as [[Hb _]|?]; [|done]. cbn in Hb. rewrite Hb in *. destruct (io_thread_queue s) eqn:Eq; simplify_eq; [by apply io_accounted_same|]. exists []. unfold io_all. cbn. rewrite Eq, !app_nil_r. done.
  - simplify_eq. apply io_accounted_same; try done. rewrite io_about_app, <- list_fmap_compose, io_about_none; done.
  - destruct (running s); simplify_eq; by apply io_accounted_same.
  - destruct (decide _); [destruct (take_front _ _) as [[t q]|]|]; simplify_eq; apply io_accounted_same; try done. by destruct (done_ _ _).
  - destruct (decide _); [destruct (take_front _ _) as [[t q]|]|]; simplify_eq; by apply io_accounted_same.
  - destruct (has_work s); simplify_eq; by apply io_accounted_same.
  - simplify_eq. exists []. unfold io_all, io_queued, io_ran. cbn [trace log io_thread_queue]. rewrite !flat_map_app, !app_nil_r, io_about_app, io_about_none by done. split; [done|].
    rewrite <- app_assoc. by destruct c.
  - pose proof (io_action w a rest s) as K. destruct (do_action w a _) as [l s1]. by simplify_eq.
  - simplify_eq. apply io_enqueue.
  - simplify_eq. by apply io_accounted_same.
Qed.

Lemma io_about_worker l : forallb worker_item l = true -> io_about l = [].
Proof. induction l as [|it l IH]; [done|]. cbn. intros H. apply andb_prop in H as [H1 H2]. unfold io_about in IH. rewrite IH by done. by destruct it as [| | | | | | | | | | | | |[]| | |]. Qed.

(** What another thread does changes the account of the loop's own stack alike. *)
Lemma io_elsewhere items items' s s' l : io_about items = [] -> io_about items' = [] -> io_ran (trace s') = io_ran (trace s) -> io_accounted items items' s s' -> io_accounted l l s s'.
Proof.
  intros E1 E2 E3 (new & K1 & K2). exists new. split; [done|]. unfold io_all in *. rewrite E1, E2, E3 in *. cbn in K2. rewrite <- !app_assoc in *. apply app_inv_head in K2. by rewrite K2.
Qed.

Definition io_inv (st : threads) : Prop :=
  io_queued (trace (shared st)) = io_all (stack st) (shared st) /\ Forall (fun x => match x with Called w c => io_call c = true -> w = IoThread | _ => True end) (trace (shared st)).

Lemma moves_io st st' : moves st st' -> stacks_ok st -> io_inv st -> io_inv st'.
Proof.
  intros Hm [Hs Hw _ _ _] [H1 H2]. unfold io_inv in *.
  destruct (moves_inv st st' Hm) as [(it & rest & Es & E & _ & _)|(os & w & i & it & rest & items & Hnw & Ho & El & E & Eo & Es)].
  - rewrite Es in H1, Hs. destruct (execute_io IoThread it rest _ _ _ (or_introl Hs) E) as (new & K1 & K2). split; [by rewrite K1, K2, H1|].
    rewrite (execute_trace _ _ _ _ _ _ E). apply Forall_app. split; [done|]. destruct it; try apply Forall_nil; try done; by apply Forall_singleton.
  - assert (Hos : Forall (fun l => forallb worker_item l = true) os) by (destruct Ho as [->|[a ->]]; [done|by rewrite Forall_app, Forall_singleton]).
    rewrite Forall_lookup in Hos. pose proof (Hos i _ El) as Hi. pose proof (execute_io w it rest _ _ _ (or_intror Hi) E) as K.
    pose proof (execute_worker_items w it rest _ _ _ Hnw Hi E) as Hi'. assert (Hit : worker_item it = true) by (cbn in Hi; by apply andb_prop in Hi as [? _]).
    assert (Er : io_ran (logs w it) = []) by (by destruct it as [| | | | | | | | | | | | |[]| | |]).
    assert (Et : io_ran (trace (shared st')) = io_ran (trace (shared st))) by (rewrite (execute_trace _ _ _ _ _ _ E); unfold io_ran in *; by rewrite flat_map_app, Er, app_nil_r).
    destruct (io_elsewhere (it :: rest) items _ _ (stack st) (io_about_worker _ Hi) (io_about_worker _ Hi') Et K) as (new & K1 & K2).
    rewrite Es. split; [by rewrite K1, K2, H1|]. rewrite (execute_trace _ _ _ _ _ _ E). apply Forall_app. split; [done|]. destruct it as [| | | | | | | | | | | | |[]| | |]; try apply Forall_nil; try done; by apply Forall_singleton.
Qed.

Lemma io_given_given tr : io_given tr = given (fun a => match a with PostToIo f => [f] | _ => [] end) tr.
Proof. apply flat_map_ext. intros [|w a|]; [done| |done]. destruct w, a; cbn; try done; by destruct (_ : bool). Qed.

(** C27: Handlers of descriptors and callbacks given to [post_to_io_thread] only
    ever run on the thread of [run], whatever the number of workers.  Every
    callback that another thread gave it is in the hands of that thread, about
    to be queued, or has been queued; and those that were queued have run, each
    once and in the order in which they were queued, except those that are next
    or still in the queue. *)
Theorem io_thread_affinity wake p st : reachable wake p st ->
  (forall w c, Called w c ∈ trace (shared st) -> io_call c = true -> w = IoThread) /\
  io_given (trace (shared st)) ≡ₚ io_queued (trace (shared st)) ++ concat (io_about_to_queue <$> (stack st :: others st)) /\
  io_queued (trace (shared st)) = io_ran (trace (shared st)) ++ io_about (stack st) ++ io_thread_queue (shared st).
Proof.
  intros Hr. assert (H : stacks_ok st /\ io_inv st).
  { revert Hr. apply (reachable_ind (fun st => stacks_ok st /\ io_inv st)); [split; [by apply (reachable_stacks wake p); constructor|by split]|].
    intros st1 st2 [H1 H2] Hm. split; [by eapply moves_stacks|by eapply moves_io]. }
  destruct H as [_ [H1 H2]]. split; [|split; [|done]].
  - intros w c Hc. rewrite Forall_forall in H2. exact (H2 _ Hc).
  - rewrite io_given_given. exact (reachable_entering (fun a => match a with PostToIo f => [f] | _ => [] end) wake p st Hr).
Qed.

(** ** Deferred destruction *)









(** A vector destroys every element once, in an order of its own. *)
Context (Horder : forall tr l, destruction_order tr l ≡ₚ l).







(** ** Wake-ups *)

(** What the loop must not sleep over. *)
Inductive Source := SrcTasks (i : nat) | SrcPosted (i : nat) | SrcIo | SrcStop.

Definition nonempty (l : option (list C)) : bool := match l with Some (_ :: _) => true | _ => false end.

Definition pending (x : Source) (s : loop_state) : bool :=
  match x with
  | SrcTasks i => nonempty (task_queues s !! i)
  | SrcPosted i => nonempty (callback_queues s !! i)
  | SrcIo => nonempty (Some (io_thread_queue s))
  | SrcStop => negb (running s)
  end.

(** The stack still attends to it before the next wait. *)
Definition served (x : Source) (items : list (Item (C := C))) : Prop :=
  IWait ∉ items /\
  match x with
  | SrcTasks i => IDrainTasks i ∈ items
  | SrcPosted i => IDrainPosted i ∈ items
  | SrcIo => IDrainIo ∈ items
  | SrcStop => True
  end.

Definition queues_ok (s : loop_state) : Prop := length (task_queues s) = queue_count num_threads /\ length (callback_queues s) = queue_count num_threads.

Lemma take_front_length i (qs qs' : list (list C)) f : take_front i qs = Some (f, qs') -> length qs' = length qs.
Proof. intros E. by apply concat_take in E as [_ ?]. Qed.

Lemma take_front_nonempty i j (qs qs' : list (list C)) f : take_front i qs = Some (f, qs') -> nonempty (qs' !! j) = true -> nonempty (qs !! j) = true.
Proof.
  unfold take_front. destruct (qs !! i) as [[|x q]|] eqn:E; [done| |done]. intros [= <- <-]. destruct (decide (i = j)) as [<-|Hij]; [by rewrite E|]. by rewrite list_lookup_insert_ne.
Qed.

Lemma action_queues w a s : queues_ok s -> queues_ok (do_action w a s).2.
Proof. intros [H1 H2]. destruct (action_quiet w a s) as (E1 & E2 & _). split; congruence. Qed.

Lemma enqueue_queues i a s : queues_ok s -> queues_ok (enqueue i a s).
Proof. intros [H1 H2]. destruct a; try done; split; cbn; unfold push_back; by rewrite ?length_alter. Qed.

Lemma execute_queues w it rest s items s' : queues_ok s -> execute w it rest s = Some (items, s') -> queues_ok s'.
Proof.
  intros Hq E. pose proof Hq as [H1 H2]. destruct it as [| |e| |es|i|i| | |i|i k|i k|i|c|a|i a|]; unfold_item.
  - destruct (running s); by simplify_eq.
  - destruct (running s); [|by simplify_eq]. inv_bind E. by simplify_eq.
  - destruct (running s); [destruct (action e)|]; by simplify_eq.
  - inv_bind E. destruct (report _ _); by simplify_eq.
  - simplify_eq. by destruct (drained _).
  - destruct (take_front _ _) as [[k q]|] eqn:Et; simplify_eq; [|done]. split; [|done]. cbn. by rewrite (take_front_length _ _ _ _ Et).
  - destruct (take_front _ _) as [[k q]|] eqn:Et; simplify_eq; [|done]. split; [done|]. cbn. by rewrite (take_front_length _ _ _ _ Et).
  - destruct (io_thread_queue s); by simplify_eq.
  - by simplify_eq.
  - by simplify_eq.
  - destruct (decide _); [destruct (take_front _ _) as [[t q]|] eqn:Et|]; simplify_eq; try done. split; [|done]. cbn. by rewrite (take_front_length _ _ _ _ Et).
  - destruct (decide _); [destruct (take_front _ _) as [[t q]|] eqn:Et|]; simplify_eq; try done. split; [done|]. cbn. by rewrite (take_front_length _ _ _ _ Et).
  - by simplify_eq.
  - by simplify_eq.
  - pose proof (action_queues w a (log (Did w a) s) Hq) as K. destruct (do_action w a _) as [l s1]. by simplify_eq.
  - simplify_eq. by apply enqueue_queues.
  - by simplify_eq.
Qed.

(** Nothing becomes pending without a wake-up, which has been made or is the
    next thing the thread does. *)
Definition quietly (items : list (Item (C := C))) (s s' : loop_state) : Prop :=
  woken s' = true \/ head items = Some IWake \/ (woken s' = woken s /\ forall x, pending x s' = true -> pending x s = true).

Lemma quietly_same items s s' : woken s' = woken s -> task_queues s' = task_queues s -> callback_queues s' = callback_queues s -> io_thread_queue s' = io_thread_queue s -> running s' = running s -> quietly items s s'.
Proof. intros E0 E1 E2 E3 E4. right. right. split; [done|]. intros []; cbn; by rewrite ?E1, ?E2, ?E3, ?E4. Qed.

Lemma quietly_take_task items i s t qs : take_front i (task_queues s) = Some (t, qs) -> quietly items s (set_task_queues qs s).
Proof. intros E. right. right. split; [done|]. intros []; cbn; try done. by eapply take_front_nonempty. Qed.

Lemma quietly_take_posted items i s t qs : take_front i (callback_queues s) = Some (t, qs) -> quietly items s (set_callback_queues qs s).
Proof. intros E. right. right. split; [done|]. intros []; cbn; try done. by eapply take_front_nonempty. Qed.

(** A call that stops the loop is about to wake it. *)
Lemma action_quietly w a rest s : quietly ((do_action w a s).1 ++ rest) s (do_action w a s).2.
Proof.
  destruct (action_quiet w a s) as (E1 & E2 & E3 & E4). destruct a; try (by apply quietly_same); try (by right; left); apply quietly_same; try done; cbn [do_action].
  - by destruct (set_io_handler _ _ _ _).
  - by destruct w.
  - unfold schedule. by destruct (decide _).
Qed.

Lemma execute_quietly w it rest s items s' : (forall es, it <> IEvents es) -> wakes_after (it :: rest) = true -> execute w it rest s = Some (items, s') -> quietly items s s'.
Proof.
  intros Hev Hwk E. destruct it as [| |e| |es|i|i| | |i|i k|i k|i|c|a|i a|]; unfold_item.
  - destruct (running s); simplify_eq; [by apply quietly_same|by right; left].
  - destruct (running s); [|by simplify_eq; apply quietly_same]. inv_bind E. simplify_eq. by apply quietly_same.
  - destruct (running s); [destruct (action e)|]; simplify_eq; by apply quietly_same.
  - inv_bind E. destruct (report _ _); simplify_eq; [by apply quietly_same|by right; left].
  - by destruct (Hev es).
  - destruct (take_front _ _) as [[k q]|] eqn:Et; simplify_eq; [by eapply quietly_take_task|by apply quietly_same].
  - destruct (take_front _ _) as [[k q]|] eqn:Et; simplify_eq; [by eapply quietly_take_posted|by apply quietly_same].
  - destruct (io_thread_queue s) eqn:Eq; simplify_eq; [by apply quietly_same|]. right. right. split; [done|]. intros []; cbn; try done. by rewrite Eq.
  - simplify_eq. by apply quietly_same.
  - simplify_eq. by apply quietly_same.
  - destruct (decide _); [destruct (take_front _ _) as [[t q]|] eqn:Et|]; simplify_eq; [by eapply quietly_take_task|by apply quietly_same..].
  - destruct (decide _); [destruct (take_front _ _) as [[t q]|] eqn:Et|]; simplify_eq; [by eapply quietly_take_posted|by apply quietly_same..].
  - simplify_eq. by apply quietly_same.
  - simplify_eq. by apply quietly_same.
  - pose proof (action_quietly w a rest (log (Did w a) s)) as K. destruct (do_action w a _) as [l s1]. cbn [fst snd] in K. simplify_eq. exact K.
  - simplify_eq. right. left. cbn in Hwk. apply andb_prop in Hwk as [Hwk _]. apply andb_prop in Hwk as [_ Hwk]. by destruct items as [|[] ?].
  - simplify_eq. by left.
Qed.

(** The items after the wait attend to everything. *)
Lemma served_after x s : queues_ok s -> pending x s = true -> served x after_wait.
Proof.
  intros [H1 H2] Hp. unfold after_wait. assert (Hi : forall i (qs : list (list C)), length qs = queue_count num_threads -> nonempty (qs !! i) = true -> i ∈ seq 0 (queue_count num_threads)).
  { intros i qs Hl Hn. destruct (qs !! i) as [q|] eqn:E; [|done]. apply lookup_lt_Some in E. apply elem_of_seq. lia. }
  split.
  - rewrite elem_of_cons, !elem_of_app. intros [?|[H|[H|H]]]; [done|by apply list_elem_of_fmap in H as (? & ? & _)..|]. rewrite !elem_of_cons in H. destruct H as [?|[?|[?|?%elem_of_nil]]]; done.
  - destruct x as [i|i| |]; cbn [pending] in *; [| | |done].
    + apply list_elem_of_further, elem_of_app. left. apply list_elem_of_fmap_2. exact (Hi i _ H1 Hp).
    + apply list_elem_of_further, elem_of_app. right. apply elem_of_app. left. apply list_elem_of_fmap_2. exact (Hi i _ H2 Hp).
    + rewrite elem_of_cons, !elem_of_app. right. right. right. by left.
Qed.

Lemma served_app x l rest : (forall it, it ∈ l -> it <> IWait) -> served x rest -> served x (l ++ rest).
Proof.
  intros Hl [H1 H2]. split; [rewrite elem_of_app; intros [Hw|]; [by apply (Hl _ Hw)|done]|]. destruct x; try rewrite elem_of_app; auto.
Qed.

Lemma fmap_not_wait {A} (f : A -> Item (C := C)) (l : list A) it : (forall a, f a <> IWait) -> it ∈ f <$> l -> it <> IWait.
Proof. intros Hf Hi. apply list_elem_of_fmap in Hi as (a & -> & _). apply Hf. Qed.

Lemma plain_not_wait l it : forallb plain l = true -> it ∈ l -> it <> IWait.
Proof. intros Hl Hi ->. rewrite forallb_forall in Hl. by specialize (Hl IWait (proj1 (list_elem_of_In _ _) Hi)). Qed.

(** An item that is executed attends to what it stands for. *)
Lemma served_tail x it rest : served x (it :: rest) -> (forall i, x = SrcTasks i -> it <> IDrainTasks i) -> (forall i, x = SrcPosted i -> it <> IDrainPosted i) -> (x = SrcIo -> it <> IDrainIo) -> served x rest.
Proof.
  intros [Hw H] H1 H2 H3. rewrite not_elem_of_cons in Hw. split; [by destruct Hw|]. destruct x as [i|i| |]; try rewrite elem_of_cons in H; [destruct H as [H|]; [|done]..|done].
  - by destruct (H1 i eq_refl).
  - by destruct (H2 i eq_refl).
  - by destruct (H3 eq_refl).
Qed.

Lemma take_front_none i (qs : list (list C)) : take_front i qs = None -> nonempty (qs !! i) = false.
Proof. unfold take_front. by destruct (qs !! i) as [[]|]. Qed.

Lemma events_served x es rest s items s' : queues_ok s -> shaped (IEvents es :: rest) -> execute IoThread (IEvents es) rest s = Some (items, s') -> pending x s' = true -> served x items.
Proof.
  intros Hq [Hb _] E Hp. unfold_item. simplify_eq. cbn in Hb. rewrite Hb. apply served_app; [intros it; apply fmap_not_wait; by intros [[] []]|]. eapply served_after; [|exact Hp]. by destruct (drained _).
Qed.

Lemma stack_served x it rest s items s' : queues_ok s -> shaped (it :: rest) -> execute IoThread it rest s = Some (items, s') -> pending x s' = true -> served x (it :: rest) -> woken s' = true \/ head items = Some IWake \/ served x items.
Proof.
  intros Hq [Hb Hr] E Hp Hs. pose proof E as E0. destruct it as [| |e| |es|i|i| | |i|i k|i k|i|c|a|i a|]; unfold_item; try done.
  - destruct (running s) eqn:Erun; simplify_eq; [|by right; left]. right. right. rewrite round_eq. cbn in Hb. rewrite Hb in Hs. destruct Hs as [_ Hs]. destruct x; [by apply list_elem_of_singleton in Hs..|]. cbn in Hp. by rewrite Erun in Hp.
  - right. right. destruct (running s) eqn:Erun; [|simplify_eq; by eapply served_tail]. inv_bind E. simplify_eq. apply served_app; [by intros it; apply fmap_not_wait|by eapply served_tail].
  - right. right. destruct (running s); [destruct (action e)|]; simplify_eq; [apply (served_app _ [_]); [by intros it ->%list_elem_of_singleton|]..|]; by eapply served_tail.
  - inv_bind E. destruct (report _ _); simplify_eq; [right; right|by right; left]. cbn in Hb. rewrite Hb. apply (served_app _ [_]); [by intros it ->%list_elem_of_singleton|]. by eapply served_after.
  - right. right. eapply (events_served x es); [done| |exact E0|done]. by split.
  - right. right. destruct (take_front _ _) as [[k q]|] eqn:Et; simplify_eq.
    + apply served_app; [|done]. destruct (done_ _ _); [by intros it ?%elem_of_nil|by intros it ->%list_elem_of_singleton].
    + eapply served_tail; [done| |done|done]. intros j -> [= ->]. apply take_front_none in Et. cbn in Hp. by rewrite Hp in Et.
  - right. right. destruct (take_front _ _) as [[k q]|] eqn:Et; simplify_eq.
    + apply (served_app _ [_]); [by intros it ->%list_elem_of_singleton|done].
    + eapply served_tail; [done|done| |done]. intros j -> [= ->]. apply take_front_none in Et. cbn in Hp. by rewrite Hp in Et.
  - right. right. destruct (io_thread_queue s) as [|f q] eqn:Eq; simplify_eq.
    + eapply served_tail; [done|done|done|]. intros -> _. cbn in Hp. by rewrite Eq in Hp.
    + apply (served_app _ [_]); [by intros it ->%list_elem_of_singleton|done].
  - right. right. simplify_eq. apply served_app; [|by eapply served_tail]. rewrite <- list_fmap_compose. by intros it; apply fmap_not_wait.
  - right. right. simplify_eq. apply served_app; [by intros it; apply fmap_not_wait|by eapply served_tail].
  - right. right. pose proof (proj1 (action_items IoThread a (log (Did IoThread a) s))) as Kp. destruct (do_action IoThread a _) as [l s1]. simplify_eq. apply served_app; [|by eapply served_tail]. intros it. by apply plain_not_wait.
  - right. right. simplify_eq. by eapply served_tail.
  - simplify_eq. by left.
Qed.

(** A thread other than the loop's whose next step is the wake-up. *)
Definition owed (os : list (list (Item (C := C)))) : Prop := exists l, l ∈ os /\ head l = Some IWake.

Definition wake_inv (st : threads) : Prop :=
  queues_ok (shared st) /\ forall x, pending x (shared st) = true -> woken (shared st) = true \/ owed (others st) \/ head (stack st) = Some IWake \/ served x (stack st).

Lemma moves_wake_loop it rest st st' : stacks_ok st -> wake_inv st -> stack st = it :: rest -> execute IoThread it rest (shared st) = Some (stack st', shared st') -> others st' = others st ->
  forall x, pending x (shared st') = true -> woken (shared st') = true \/ owed (others st') \/ head (stack st') = Some IWake \/ served x (stack st').
Proof.
  intros Hst [H1 H2] Es E Eo x Hp. pose proof (sk_loop _ Hst) as Hs. pose proof (sk_wakes _ Hst) as Hk. apply Forall_cons in Hk as [Hk _]. rewrite Es in Hs, Hk, H2. rewrite Eo.
  assert (Hev : (exists es, it = IEvents es) \/ forall es, it <> IEvents es) by (destruct it; try (by right); left; by eexists).
  destruct Hev as [[es ->]|Hev]; [right; right; right; by eapply events_served|]. destruct (execute_quietly _ _ _ _ _ _ Hev Hk E) as [K|[K|[K1 K2]]]; [by left|by right; right; left|].
  destruct (H2 x (K2 x Hp)) as [K|[K|[K|K]]]; [left; congruence|by right; left| |].
  - cbn in K. injection K as ->. cbn in E. injection E as _ <-. by left.
  - destruct (stack_served x it rest _ _ _ H1 Hs E Hp K) as [?|[?|?]]; [by left|by right; right; left|by right; right; right].
Qed.

Lemma moves_wake_other os w i it rest items st st' : stacks_ok st -> wake_inv st -> w <> IoThread -> (os = others st \/ exists a, os = others st ++ [[IAct a]]) -> os !! i = Some (it :: rest) ->
  execute w it rest (shared st) = Some (items, shared st') -> others st' = <[i := items]> os -> stack st' = stack st ->
  forall x, pending x (shared st') = true -> woken (shared st') = true \/ owed (others st') \/ head (stack st') = Some IWake \/ served x (stack st').
Proof.
  intros Hst [H1 H2] Hw Ho El E Eo Es x Hp. pose proof (sk_wakes _ Hst) as Hk. apply Forall_cons in Hk as [_ Hk].
  assert (Hos : Forall (fun l => forallb worker_item l = true) os /\ Forall (fun l => wakes_after l = true) os).
  { destruct Ho as [->|[a ->]]; [split; [apply Hst|done]|]. rewrite !Forall_app, !Forall_singleton. split; (split; [|done]); [apply Hst|done]. }
  rewrite !Forall_lookup in Hos. destruct Hos as [Hi Hk']. specialize (Hi i _ El). specialize (Hk' i _ El). cbn in Hi. apply andb_prop in Hi as [Hi _].
  assert (Hev : forall es, it <> IEvents es) by (by intros es ->).
  destruct (execute_quietly _ _ _ _ _ _ Hev Hk' E) as [K|[K|[K1 K2]]]; [by left| |].
  - right. left. exists items. split; [|done]. rewrite Eo. eapply list_elem_of_lookup_2, list_lookup_insert_eq. by eapply lookup_lt_Some.
  - rewrite Es. destruct (H2 x (K2 x Hp)) as [K|[(l & Hl & Hh)|[K|K]]]; [left; congruence| |by right; right; left|by right; right; right].
    assert (Hl' : l ∈ os) by (destruct Ho as [->|[a ->]]; [done|apply elem_of_app; by left]). apply list_elem_of_lookup in Hl' as [j Hj]. destruct (decide (j = i)) as [->|Hji].
    + rewrite El in Hj. injection Hj as <-. cbn in Hh. injection Hh as ->. cbn in E. injection E as _ <-. by left.
    + right. left. exists l. split; [|done]. rewrite Eo. eapply list_elem_of_lookup_2. by rewrite list_lookup_insert_ne.
Qed.

Lemma moves_wake st st' : moves st st' -> stacks_ok st -> wake_inv st -> wake_inv st'.
Proof.
  intros Hm Hst Hi. pose proof (proj1 Hi) as H1. destruct (moves_inv st st' Hm) as [(it & rest & Es & E & Ew & Ec)|(os & w & i & it & rest & items & Hw & Ho & El & E & Eo & Es)].
  - split; [by eapply execute_queues|]. eapply moves_wake_loop; [done|done|done|done|]. unfold others. congruence.
  - split; [by eapply execute_queues|]. by eapply moves_wake_other.
Qed.

(** C28: The loop never sleeps over something to do.  A task or a callback that
    is being queued, and [stop], take several steps, between which the other
    threads may do anything; when the loop waits for the platform while a task
    or a callback is queued or [stop] has been called, there is a byte in the
    wake-up pipe, which the platform watches, so that the wait returns at once,
    or the very next step of some other thread is to write that byte. *)
Theorem no_lost_wakeup wake p st rest : reachable wake p st -> stack st = IWait :: rest ->
  concat (task_queues (shared st)) <> [] \/ concat (callback_queues (shared st)) <> [] \/ io_thread_queue (shared st) <> [] \/ running (shared st) = false ->
  woken (shared st) = true \/ owed (others st).
Proof.
  intros Hr Es Hn. assert (H : stacks_ok st /\ wake_inv st).
  { revert Hr. apply (reachable_ind (fun st => stacks_ok st /\ wake_inv st)); [split; [by apply (reachable_stacks wake p); constructor|]|].
    - split; [split; apply length_replicate|]. assert (Hx : forall i, nonempty (replicate (queue_count num_threads) [] !! i) = false).
      { intros i. destruct (replicate _ _ !! i) as [q|] eqn:E; [|done]. by apply lookup_replicate in E as [-> _]. }
      intros []; cbn; rewrite ?Hx; done.
    - intros st1 st2 [H1 H2] Hm. split; [by eapply moves_stacks|by eapply moves_wake]. }
  destruct H as [_ [_ H]]. assert (Hx : exists x, pending x (shared st) = true).
  { assert (Hc : forall qs : list (list C), concat qs <> [] -> exists i, nonempty (qs !! i) = true).
    { induction qs as [|[|c q] qs IH]; [done| |by exists 0%nat]. intros Hc. destruct (IH Hc) as [i Hi]. by exists (S i). }
    destruct Hn as [Hn|[Hn|[Hn|Hn]]]; [destruct (Hc _ Hn) as [i Hi]; by exists (SrcTasks i)|destruct (Hc _ Hn) as [i Hi]; by exists (SrcPosted i)|exists SrcIo; cbn; by destruct (io_thread_queue _)|exists SrcStop; cbn; by rewrite Hn]. }
  destruct Hx as [x Hx]. destruct (H x Hx) as [|[|[K|[K _]]]]; [by left|by right|by rewrite Es in K|]. rewrite Es in K. apply not_elem_of_cons in K. by destruct K.
Qed.
End Safety.
