(* ===== verification/LoopRuns.v ===== *)
(** * The event loop: particular executions

    Executions that follow a given schedule, on the epoll back end with a
    small kernel: they show that the theorems of LoopSafety.v speak of
    something, and two defects of the code. *)
From stdpp Require Import gmap relations.
From S2P Require Import Prelude PlatformIO IoTable TimerQueue EventLoop LoopSafety.

Local Open Scope Z_scope.

(** ** Schedules *)

Section Schedules.
Context {P R : Type} {platform_io : PlatformIO P R} {C Q : Type} {pq : PriorityQueue (C := C) Q}.
Context (clock : nat -> Z) (report : nat -> P -> option R) (react : list (Log (C := C)) -> Call (C := C) -> list (Action (C := C))) (done_ : list (Log (C := C)) -> C -> bool)
  (destruction_order : list (Log (C := C)) -> list C -> list C) (num_threads : nat).

Abbreviation threads := (Threads (P := P) (C := C) (Q := Q)).

(** Which thread goes on, or what a thread of the application calls. *)
Inductive Choice := GoLoop | GoWorker (i : nat) | GoCaller (i : nat) | Outsider (a : Action (C := C)).

Definition is_schedule (a : Action (C := C)) : bool := match a with Schedule _ => true | _ => false end.

Abbreviation execute := (execute clock report react done_ destruction_order num_threads).

Definition choose (st : threads) (c : Choice) : option threads :=
  match c with
  | GoLoop => match stack st with
              | it :: rest => '(items, s') ← execute IoThread it rest (shared st); Some (mkThreads items (workers st) (callers st) s')
              | [] => None
              end
  | GoWorker i => match workers st !! i with
                  | Some (it :: rest) => '(items, s') ← execute (Worker i) it rest (shared st); Some (mkThreads (stack st) (<[i := items]> (workers st)) (callers st) s')
                  | _ => None
                  end
  | GoCaller i => match callers st !! i with
                  | Some (it :: rest) => '(items, s') ← execute Outside it rest (shared st); Some (mkThreads (stack st) (workers st) (<[i := items]> (callers st)) s')
                  | _ => None
                  end
  | Outsider a => if is_schedule a then None else
      let '(items, s') := do_action clock done_ num_threads Outside a (log (Did Outside a) (shared st)) in Some (mkThreads (stack st) (workers st) (callers st ++ [items]) s')
  end.

Fixpoint follow (cs : list Choice) (st : threads) : option threads := match cs with [] => Some st | c :: cs => st' ← choose st c; follow cs st' end.

Lemma choose_moves st c st' : choose st c = Some st' -> moves clock report react done_ destruction_order num_threads st st'.
Proof.
  destruct st as [l ws cs s], c as [|i|i|a]; cbn [choose stack workers callers shared]; intros E.
  - destruct l as [|it rest]; [done|]. inv_bind E. simplify_eq. by constructor.
  - destruct (ws !! i) as [[|it rest]|] eqn:El; [done| |done]. inv_bind E. simplify_eq. by econstructor.
  - destruct (cs !! i) as [[|it rest]|] eqn:El; [done| |done]. inv_bind E. simplify_eq. by econstructor.
  - destruct (is_schedule a) eqn:Ea; [done|]. destruct (do_action _ _ _ _ _ _) as [items s'] eqn:Ed. simplify_eq. apply moves_outside with (a := a); [by intros _ k ->|done].
Qed.

Lemma follow_reachable wake p cs st : follow cs (start num_threads wake p) = Some st -> reachable clock report react done_ destruction_order num_threads wake p st.
Proof.
  unfold reachable. generalize (start (Q := Q) num_threads wake p). induction cs as [|c cs IH]; intros st0 E; cbn in E; [simplify_eq; constructor|].
  apply bind_Some in E as (st1 & E1 & E2). eapply rtc_l; [by eapply choose_moves|by apply IH].
Qed.
End Schedules.

(** The conditions on the callers, from left to right. *)
Fixpoint good_after {C : Type} (wake : Z) (tr l : list (Log (C := C))) : Prop :=
  match l with [] => True | x :: l => match x with Did _ a => act_ok wake tr a | _ => True end /\ good_after wake (tr ++ [x]) l end.

(** ** Example *)

Abbreviation kernel := (gmap Z (Z * Z)).
Abbreviation timer_list := (list (TimerEntry (C := nat))).

(** Descriptor 5 is readable whenever somebody waits for it. *)
Definition demo_report (n : nat) (k : kernel) : option (list (Z * Z)) :=
  Some (match k !! 5 with Some (m, d) => if has m EPOLLIN then [(EPOLLIN, d)] else [] | None => [] end).

Lemma demo_reports n k r : demo_report n k = Some r -> reports r k.
Proof.
  unfold demo_report. intros [= <-]. destruct (k !! 5) as [[m d]|] eqn:E; [|by apply Forall_nil]. destruct (has m EPOLLIN) eqn:Em; [|by apply Forall_nil].
  apply Forall_singleton. exists 5, m. split; [exact E|]. split; [done|]. vm_compute. discriminate.
Qed.

(** The first callback registers a handler, posts again, defers an object and
    starts a timer; the handler stops the loop. *)
Definition demo_react (tr : list (Log (C := nat))) (c : Call (C := nat)) : list (Action (C := nat)) :=
  match c with
  | RunPosted 1%nat => [SetIo 5 EVENT_READ (Some (Plain 7%nat)); Post 2%nat; PostToIo 4%nat; StartTimer 0 0 false (PostCallback 3%nat); Defer 9%nat]
  | OnReadable 7%nat => [Defer 8%nat; Stop]
  | _ => []
  end.

Definition demo_clock (n : nat) : Z := Z.min (Z.of_nat n * 1000000) (2 ^ 61).

Definition demo_done (tr : list (Log (C := nat))) (k : nat) : bool := false.

(** Back to front. *)
Definition demo_order (tr : list (Log (C := nat))) (l : list nat) : list nat := reverse l.


Lemma demo_clock_ok n : clock_ok (demo_clock n).
Proof. unfold clock_ok, demo_clock, kSafeTime. lia. Qed.

(** A call that queues something, by the [i]-th caller, without interruption. *)
Definition at_once (i : nat) (a : Action (C := nat)) : list (Choice (C := nat)) := [Outsider a; GoCaller i; GoCaller i].

Definition demo (num_threads : nat) (cs : list (Choice (C := nat))) : option (Threads (P := kernel) (C := nat) (Q := timer_list)) :=
  follow demo_clock demo_report demo_react demo_done demo_order num_threads cs (start num_threads 3 ∅).


(** A worker takes a callback while the first is running, and takes the next
    one while a thread of the application is in the middle of [post]. *)
Definition demo_crowd : list (Choice (C := nat)) :=
  at_once 0 (Post 1%nat) ++ at_once 1 (Post 5%nat) ++ at_once 2 (PostToIo 6%nat) ++ replicate 3 (GoWorker 0) ++ replicate 11 GoLoop ++ replicate 4 (GoWorker 0) ++ replicate 6 GoLoop ++ replicate 3 (GoWorker 0) ++
  [Outsider (Post 11%nat); Outsider (PostToIo 12%nat)].

Lemma demo_crowd_runs : (fun st => (trace (shared st), callback_queues (shared st), (workers st, callers st))) <$> demo 1 demo_crowd = Some
  ([Did Outside (Post 1%nat); Queued Outside (Post 1%nat); Did Outside (Post 5%nat); Queued Outside (Post 5%nat); Did Outside (PostToIo 6%nat); Queued Outside (PostToIo 6%nat);
    Called IoThread (RunPosted 1%nat); Did IoThread (SetIo 5 1 (Some (Plain 7%nat))); Did IoThread (Post 2%nat); Called (Worker 0) (RunPosted 5%nat); Queued IoThread (Post 2%nat);
    Did IoThread (PostToIo 4%nat); Called IoThread (RunInline 4%nat); Did IoThread (StartTimer 0 0 false (PostCallback 3%nat)); Did Outside (Post 11%nat); Did Outside (PostToIo 12%nat)], [[]],
   ([[ICall (RunPosted 2%nat); IReap; IWorker 0]], [[]; []; []; [IEnqueue 0 (Post 11%nat); IWake]; [IEnqueue 0 (PostToIo 12%nat); IWake]])).
Proof. vm_compute. reflexivity. Qed.

Lemma demo_reachable n cs st : demo n cs = Some st -> reachable demo_clock demo_report demo_react demo_done demo_order n 3 ∅ st.
Proof. apply follow_reachable. Qed.

Lemma kernel_fresh : @consistent kernel _ _ ∅ /\ forall fd, @watched kernel _ _ ∅ fd = None.
Proof. split; [done|]. intros fd. cbn. unfold epoll_watched. cbn. by rewrite lookup_empty. Qed.

Lemma good_after_good {C : Type} wake (l tr : list (Log (C := C))) : good wake tr -> good_after wake tr l -> good wake (tr ++ l).
Proof.
  revert tr. induction l as [|x l IH]; intros tr Hg Ha; [by rewrite app_nil_r|]. destruct Ha as [Hx Ha]. rewrite cons_middle, app_assoc. apply IH; [|done]. destruct x; by constructor.
Qed.

Lemma loop_sound_witness : exists st, demo 1 demo_crowd = Some st /\ table_ok 3 1 (io (shared st)) /\ timers_ok (tm (shared st)).
Proof.
  pose proof demo_crowd_runs as E. destruct (demo 1 demo_crowd) as [st|] eqn:Ed; [|discriminate E]. injection E as Et _ _ _. exists st. split; [done|].
  destruct (loop_sound demo_clock demo_report demo_react demo_done demo_order 1 demo_clock_ok demo_reports 3 ∅ st (proj1 kernel_fresh) (proj2 kernel_fresh) (demo_reachable 1 demo_crowd st Ed)) as (H1 & H2 & _).
  - rewrite Et. apply (good_after_good 3 _ []); [constructor|]. vm_compute. intuition discriminate.
  - rewrite Et. split; vm_compute; reflexivity.
  - rewrite Et in H1. by split.
Defined.

Lemma posted_run_once_witness : exists st, demo 1 demo_crowd = Some st /\ [1; 5; 2; 11]%nat ≡ₚ [1; 5; 2]%nat ++ concat (about_to_queue <$> (stack st :: others st)) /\
  [1; 5; 2]%nat ≡ₚ [1; 5]%nat ++ concat (about_to <$> (stack st :: others st)) ++ concat [[]].
Proof.
  pose proof demo_crowd_runs as E. destruct (demo 1 demo_crowd) as [st|] eqn:Ed; [|discriminate E]. injection E as Et Eq _ _. exists st. split; [done|].
  destruct (posted_run_once demo_clock demo_report demo_react demo_done demo_order 1 3 ∅ st (demo_reachable 1 demo_crowd st Ed)) as (H1 & H2 & _). rewrite Et, Eq in *. split; [exact H1|exact H2].
Defined.

Lemma io_thread_affinity_witness : exists st, demo 1 demo_crowd = Some st /\ [6; 12]%nat ≡ₚ [6]%nat ++ concat (io_about_to_queue <$> (stack st :: others st)) /\ [6]%nat = [] ++ io_about (stack st) ++ io_thread_queue (shared st).
Proof.
  pose proof demo_crowd_runs as E. destruct (demo 1 demo_crowd) as [st|] eqn:Ed; [|discriminate E]. injection E as Et _ _ _. exists st. split; [done|].
  destruct (io_thread_affinity demo_clock demo_report demo_react demo_done demo_order 1 3 ∅ st (demo_reachable 1 demo_crowd st Ed)) as (_ & H1 & H2). rewrite Et in *. split; [exact H1|exact H2].
Defined.


(** The loop is about to wait when a callback is queued; the thread that posts
    it has not come to the wake-up yet. *)
Definition demo_late : list (Choice (C := nat)) := [GoLoop; GoLoop; Outsider (Post 1%nat); GoCaller 0].

Lemma demo_late_runs : (fun st => (stack st, concat (callback_queues (shared st)), woken (shared st))) <$> demo 1 demo_late = Some (IWait :: after_wait 1, [1%nat], false).
Proof. vm_compute. reflexivity. Qed.

Lemma no_lost_wakeup_witness : exists st, demo 1 demo_late = Some st /\ owed (others st).
Proof.
  pose proof demo_late_runs as E. destruct (demo 1 demo_late) as [st|] eqn:Ed; [|discriminate E]. injection E as Es Eq Ew. exists st. split; [done|].
  destruct (no_lost_wakeup demo_clock demo_report demo_react demo_done demo_order 1 3 ∅ st (after_wait 1) (demo_reachable 1 demo_late st Ed) Es) as [H|H]; [right; left; by rewrite Eq|by rewrite Ew in H|exact H].
Defined.

(** ** Defects *)

(** A callback that gives up its own object and goes on. *)
Definition early_react (tr : list (Log (C := nat))) (c : Call (C := nat)) : list (Action (C := nat)) :=
  match c with RunPosted 1%nat => [Defer 9%nat; Post 2%nat] | _ => [] end.

Definition early : list (Choice (C := nat)) := at_once 0 (Post 1%nat) ++ at_once 1 (Post 5%nat) ++ replicate 9 GoLoop ++ replicate 7 (GoWorker 0) ++ [GoLoop].

(** With a worker thread the reap list is not only emptied when no callback is
    running: a worker empties it after each callback of its own, and destroys
    the object while the callback that deferred its destruction still runs on
    the loop's thread. *)
Theorem deferred_too_early : exists st, follow demo_clock demo_report early_react demo_done demo_order 1 early (start (P := kernel) (Q := timer_list) 1 3 ∅) = Some st /\
  trace (shared st) = [Did Outside (Post 1%nat); Queued Outside (Post 1%nat); Did Outside (Post 5%nat); Queued Outside (Post 5%nat); Called IoThread (RunPosted 1%nat); Did IoThread (Defer 9%nat);
    Called (Worker 0) (RunPosted 5%nat); Called (Worker 0) (Destroy 9%nat); Did IoThread (Post 2%nat)].
Proof. eexists. split; vm_compute; reflexivity. Qed.

(** A callback that posts itself again. *)
Definition again_react (tr : list (Log (C := nat))) (c : Call (C := nat)) : list (Action (C := nat)) := match c with RunPosted f => [Post f] | _ => [] end.

Abbreviation again_step := (run_step (P := kernel) (Q := timer_list) demo_clock demo_report again_react demo_done demo_order 0).

(** The first steps of a loop. *)
Fixpoint steps {S R : Type} (step : S -> S + R) (n : nat) (s : S) : option S :=
  match n with O => Some s | Datatypes.S n => match step s with inl s' => steps step n s' | inr _ => None end end.

Lemma loop_steps {S R : Type} (step : S -> S + R) n s s' : steps step n s = Some s' -> forall k, loop step (n + k) s = loop step k s'.
Proof. revert s. induction n as [|n IH]; intros s E k; cbn in E; [by injection E as ->|]. cbn. destruct (step s) as [t|]; [by apply IH|done]. Qed.

Lemma loop_short {S R : Type} (step : S -> S + R) n s s' : steps step n s = Some s' -> forall k, (k <= n)%nat -> loop step k s = None.
Proof. revert s. induction n as [|n IH]; intros s E [|k] Hk; try done; [lia|]. cbn in *. destruct (step s) as [t|]; [|done]. apply IH; [done|lia]. Qed.

Lemma again_cycle f rest s : callback_queues s = [[]] -> exists s', callback_queues s' = [[]] /\
  steps again_step 5 (ICall (RunPosted f) :: IDrainPosted 0 :: rest, s) = Some (ICall (RunPosted f) :: IDrainPosted 0 :: rest, s').
Proof.
  intros E. eexists. split; [|cbn; rewrite Z.mod_1_r; cbn; rewrite E; reflexivity]. done.
Qed.

Lemma again_forever fuel f rest s : callback_queues s = [[]] -> loop again_step fuel (ICall (RunPosted f) :: IDrainPosted 0 :: rest, s) = None.
Proof.
  revert s. induction (lt_wf fuel) as [fuel _ IH]. intros s E. destruct (again_cycle f rest s E) as (s' & E' & K). destruct (le_lt_dec fuel 5) as [Hf|Hf]; [by eapply loop_short|].
  replace fuel with (5 + (fuel - 5))%nat by lia. rewrite (loop_steps _ _ _ _ K). apply IH; [lia|done].
Qed.

(** The queue of posted callbacks is emptied, not run once through: a callback
    that posts itself again keeps the loop from ever reaching its descriptors
    and timers, or [stop], again. *)
Theorem self_post_starves fuel : run (P := kernel) (Q := timer_list) demo_clock demo_report again_react demo_done demo_order 0 fuel (enqueue 0 (Post 1%nat) (new_loop 0 3 ∅)) = None.
Proof.
  unfold run. set (st := ([ILoop], _)). assert (H : (fun st => (st.1, callback_queues st.2)) <$> steps again_step 7 st = Some ([ICall (RunPosted 1%nat); IDrainPosted 0; IDrainIo; IReap; ILoop], [[]])) by (vm_compute; reflexivity).
  destruct (steps again_step 7 st) as [[items s]|] eqn:E; [|discriminate H]. injection H as -> Hq. destruct (le_lt_dec fuel 7) as [Hf|Hf]; [by eapply loop_short|].
  replace fuel with (7 + (fuel - 7))%nat by lia. rewrite (loop_steps _ _ _ _ E). by apply again_forever.
Qed.
