(* ===== verification/Async.v ===== *)
(** * Runs of coroutines

    A coroutine over a socket (Socket.v) is a function of fuel; it ends with a
    result when enough fuel gives that result.  The lemmas compose such runs:
    sequencing, loops, and reads and writes over a descriptor that neither
    breaks nor blocks for ever. *)
From S2P Require Import Prelude PlatformIO Socket.

Local Open Scope Z_scope.

(** Any fuel from some amount on gives [a]. *)
Definition ends {A : Type} (m : nat -> option A) (a : A) : Prop := exists f0, forall f, (f0 <= f)%nat -> m f = Some a.

Lemma ends_ret {A : Type} (a : A) : ends (fun _ => Some a) a.
Proof. by exists O. Qed.

Lemma ends_ext {A : Type} (m m' : nat -> option A) a : (forall f, m' f = m f) -> ends m a -> ends m' a.
Proof. intros H [f0 E]. exists f0. intros f Hf. rewrite H. by apply E. Qed.

Lemma ends_bind {A B : Type} (m : nat -> option A) (k : nat -> A -> option B) a b : ends m a -> ends (fun f => k f a) b -> ends (fun f => m f ≫= k f) b.
Proof. intros [f0 E0] [f1 E1]. exists (Nat.max f0 f1). intros f Hf. rewrite E0 by lia. cbn. apply E1. lia. Qed.

Lemma ends_unique {A : Type} (m : nat -> option A) a b : ends m a -> ends m b -> a = b.
Proof. intros [f0 E0] [f1 E1]. assert (H : Some a = Some b) by (rewrite <- (E0 (Nat.max f0 f1)), <- (E1 (Nat.max f0 f1)) by lia; done). by injection H. Qed.

Lemma ends_mono {A : Type} (m : nat -> option A) f0 a : (forall f f' r, (f <= f')%nat -> m f = Some r -> m f' = Some r) -> m f0 = Some a -> ends m a.
Proof. intros Hm E. exists f0. intros f Hf. by eapply Hm. Qed.

(** ** Loops *)

(** A loop whose rounds are themselves runs: [inl] goes on, [inr] is the
    result. *)
Definition round_of {S R : Type} (step : nat -> S -> option (S + R)) (fuel : nat) (s : S) : S + option R :=
  match step fuel s with None => inr None | Some (inl s) => inl s | Some (inr r) => inr (Some r) end.

Definition rounds {S R : Type} (step : nat -> S -> option (S + R)) (fuel : nat) (s : S) : option R := mjoin (loop (round_of step fuel) fuel s).

(** The loop ends with [r], given enough fuel for its rounds. *)
Definition loops {S R : Type} (step : nat -> S -> option (S + R)) (s : S) (r : R) : Prop := exists n, ends (fun f => mjoin (loop (round_of step f) n s)) r.

Lemma loops_done {S R : Type} (step : nat -> S -> option (S + R)) s r : ends (fun f => step f s) (inr r) -> loops step s r.
Proof. intros [f0 E]. exists 1%nat, f0. intros f Hf. cbn [loop]. unfold round_of. by rewrite E. Qed.

Lemma loops_next {S R : Type} (step : nat -> S -> option (S + R)) s s' r : ends (fun f => step f s) (inl s') -> loops step s' r -> loops step s r.
Proof.
  intros [f0 E0] [n [f1 E1]]. exists (Datatypes.S n), (Nat.max f0 f1). intros f Hf. cbn [loop]. unfold round_of at 1. rewrite E0 by lia. apply E1. lia.
Qed.

Lemma loops_end {S R : Type} (step : nat -> S -> option (S + R)) s r : loops step s r -> ends (fun f => rounds step f s) r.
Proof.
  intros [n [f0 E]]. exists (Nat.max n f0). intros f Hf. specialize (E f ltac:(lia)). unfold rounds. destruct (loop (round_of step f) n s) as [o|] eqn:El; [|done].
  by rewrite (loop_mono _ _ f _ _ El ltac:(lia)).
Qed.

(** ** Reads and writes *)

Section Descriptor.
Context (weather : nat -> Weather).
Hypothesis Hset : forall i, settles weather i.
Hypothesis Hsound : forall i, weather i <> Broken.

Lemma read_ends size (k : Sock) : (0 < size)%nat -> exists bs k', ends (fun f => async_read (socket_io := descriptor_io weather) f size k) (#bs, bs, k') /\
  inbox (inner k) = bs ++ inbox (inner k') /\ outbox (inner k') = outbox (inner k) /\ (length bs <= size)%nat /\ (bs = [] -> inbox (inner k) = []).
Proof.
  intros Hs. destruct (Hset (calls (inner k))) as (j & Hj & Hw). destruct (async_read_spec weather size k j Hs Hj Hw) as ([[n bs] k'] & E & R & Ho & _).
  destruct R as [(_ & _ & _ & i & _ & Hb)|(-> & Hi & Hl & He)]; [by destruct (Hsound i)|]. exists bs, k'. split; [|done]. exists (S (j - calls (inner k))). intros f Hf. unfold async_read in *. by eapply loop_mono.
Qed.

Lemma write_ends data (k : Sock) : exists k', ends (fun f => async_write (socket_io := descriptor_io weather) f data k) ([], k') /\
  inbox (inner k') = inbox (inner k) /\ outbox (inner k') = outbox (inner k) ++ data.
Proof.
  destruct (writes_out_spec weather data k Hset) as (f & left & k' & sent & E & Hd & Ho & Hi & _ & Hl). exists k'.
  destruct left as [|b left]; [|destruct (Hl ltac:(done)) as (j & _ & Hb); by destruct (Hsound j)]. rewrite app_nil_r in Hd. subst. split; [|done]. exists f. intros f' Hf. unfold async_write in *. by eapply loop_mono.
Qed.
End Descriptor.
