(* ===== verification/Http1Coroutine.v ===== *)
(** * HTTP/1.1 as a coroutine

    [serve_coroutine_keep_alive] of example/http/src/dispatcher_coroutine.cpp,
    over the sockets of Socket.v: it reads, parses and answers in one loop
    where the reactor's [Http1Connection] (Http1Server.v) is driven by events.
    The theorem says that the two are the same server: over any descriptor
    that delivers and takes what it likes, whenever it likes, they dispatch
    the same requests and put the same bytes on the wire. *)
From S2P Require Import Prelude Chunking Utils PlatformIO Socket Async Http1 Http1Server.

Local Open Scope Z_scope.

Definition kReadChunk : nat := Z.to_nat 8192.
Definition kFirstRead : nat := Z.to_nat 2048.

Section Coroutine.
Context {T : Type} {socket_io : SocketIO T}.
Context (order : list (bytes * bytes) -> list (bytes * bytes)).
(** The application: its response, given before [handle_request] returns or
    later, or [None] when it throws. *)
Context (handler : list Event -> HTTPRequest -> option HTTPResponse).

Record Co := mkCo { co_buffer : bytes; sock : Sock (S := T); co_log : list Event; co_active : Z }.

Definition co_set_sock (k : Sock) (st : Co) : Co := mkCo (co_buffer st) k (co_log st) (co_active st).
Definition co_set_buffer (b : bytes) (st : Co) : Co := mkCo b (sock st) (co_log st) (co_active st).
Definition co_emit (e : Event) (st : Co) : Co := mkCo (co_buffer st) (sock st) (co_log st ++ [e]) (co_active st).
Definition co_add_active (d : Z) (st : Co) : Co := mkCo (co_buffer st) (sock st) (co_log st) (co_active st + d).

(** [co_await socket.async_read] and [async_write]. *)
Definition co_read (fuel size : nat) (st : Co) : option (bytes * Co) :=
  '(_, more, k) ← async_read fuel size (sock st); Some (more, co_set_sock k st).

Definition co_write (fuel : nat) (data : bytes) (st : Co) : option Co :=
  '(_, k) ← async_write fuel data (sock st); Some (co_emit (Wrote data) (co_set_sock k st)).

(** A response as it is written. *)
Definition co_response (keep_alive : bool) (response : HTTPResponse) : bytes :=
  serialize_response (mkResponse (rs_version response) (status_code response) (reason_phrase response)
    (set_header (rs_headers response) (str "Connection") (if keep_alive then str "keep-alive" else str "close")) (rs_body response)).

(** One parsed request; [inr] when the connection is over. *)
Definition co_serve_request (fuel : nat) (request : HTTPRequest) (st : Co) : option (Co + Co) :=
  let st := co_emit (Dispatched request) (co_add_active 1 st) in
  match handler (co_log st) request with
  | Some response =>
      let keep_alive := should_keep_alive request in
      st ← co_write fuel (co_response keep_alive response) st;
      let st := co_add_active (-1) st in
      Some (if keep_alive then inl st else inr (co_emit Closed st))
  | None => Some (inr (co_emit Closed (co_add_active (-1) st)))
  end.

Definition co_bad_request (fuel : nat) (st : Co) : option (Co + Co) :=
  st ← co_write fuel (serialize (error_response 400 (str "Bad Request"))) st; Some (inr (co_emit Closed st)).

(** One round of the two loops: parse what is there; read more, refuse, or
    serve. *)
Definition serve_step (fuel : nat) (st : Co) : option (Co + Co) :=
  match parse_request order (co_buffer st) with
  | None => None
  | Some Incomplete =>
      if #(co_buffer st) <? kMaxRequestBytes then
        '(more, st) ← co_read fuel kReadChunk st;
        match more with
        | [] => Some (inr (co_emit Closed st))
        | _ => Some (inl (co_set_buffer (co_buffer st ++ more) st))
        end
      else co_bad_request fuel st
  | Some Error => co_bad_request fuel st
  | Some (Success request bytes_consumed) =>
      if (length (co_buffer st) <? bytes_consumed)%nat then Some (inr (co_emit Closed st))
      else co_serve_request fuel request (co_set_buffer (drop bytes_consumed (co_buffer st)) st)
  end.

Definition serve_loop (fuel : nat) (st : Co) : option Co := rounds serve_step fuel st.

Definition serve_coroutine_keep_alive (fuel : nat) (initial_buffer : bytes) (k : Sock) : option Co :=
  let st := mkCo initial_buffer k [] 0 in
  match initial_buffer with
  | [] =>
      '(more, st) ← co_read fuel kFirstRead st;
      match more with [] => Some (co_emit Closed st) | _ => serve_loop fuel (co_set_buffer more st) end
  | _ => serve_loop fuel st
  end.
End Coroutine.

(** ** The same server as the reactor's *)

(** Requests and responses; the two servers close differently. *)
Definition exchange (es : list Event) : list Event := List.filter (fun e => match e with Dispatched _ | Wrote _ => true | _ => false end) es.

Definition written (es : list Event) : bytes := concat (map (fun e => match e with Wrote bs => bs | _ => [] end) es).

Lemma exchange_app a b : exchange (a ++ b) = exchange a ++ exchange b.
Proof. apply List.filter_app. Qed.

Lemma written_app a b : written (a ++ b) = written a ++ written b.
Proof. unfold written. by rewrite map_app, concat_app. Qed.

Lemma written_exchange es : written (exchange es) = written es.
Proof.
  induction es as [|e es IH]; [done|]. assert (Ec : forall e l, written (e :: l) = match e with Wrote bs => bs | _ => [] end ++ written l) by done. unfold exchange in *. destruct e; cbn [List.filter]; rewrite ?Ec, IH; done.
Qed.

Section Equivalence.
Context (weather : nat -> Weather).
Context (order : list (bytes * bytes) -> list (bytes * bytes)).
Context (answer : list Event -> HTTPRequest -> HTTPResponse).
Hypothesis Hset : forall i, settles weather i.
Hypothesis Hsound : forall i, weather i <> Broken.
Abbreviation handler := (fun es r => Some (answer es r)).
Abbreviation Co := (Co (T := Kernel)).
Abbreviation co_read := (co_read (socket_io := descriptor_io weather)).
Abbreviation co_write := (co_write (socket_io := descriptor_io weather)).
Abbreviation serve_step := (serve_step (socket_io := descriptor_io weather) order handler).

Lemma co_read_ends size (st : Co) : (0 < size)%nat -> exists bs k, ends (fun f => co_read f size st) (bs, co_set_sock k st) /\ inbox (inner (sock st)) = bs ++ inbox (inner k) /\ outbox (inner k) = outbox (inner (sock st)) /\ (bs = [] -> inbox (inner (sock st)) = []).
Proof.
  intros Hs. destruct (read_ends weather Hset Hsound size (sock st) Hs) as (bs & k & E & Hi & Ho & _ & He). exists bs, k. split; [|done]. eapply ends_bind; [exact E|]. apply ends_ret.
Qed.

Lemma co_write_ends data (st : Co) : exists k, ends (fun f => co_write f data st) (co_emit (Wrote data) (co_set_sock k st)) /\ inbox (inner k) = inbox (inner (sock st)) /\ outbox (inner k) = outbox (inner (sock st)) ++ data.
Proof. destruct (write_ends weather Hset Hsound data (sock st)) as (k & E & Hi & Ho). exists k. split; [|done]. eapply ends_bind; [exact E|]. apply ends_ret. Qed.

(** The coroutine at the head of its loop, and the reactor's connection. *)
Record alike (st : Co) (h : H1) : Prop := {
  al_phase : phase h = ReadingRequest;
  al_closing : closing h = false;
  al_open : conn_open h = true;
  al_call : dispatch_call_active h = false;
  al_buffer : buffer h = co_buffer st;
  al_log : log h = co_log st;
  al_active : active_requests h = co_active st }.

(** How the coroutine ends, next to the reactor that got all the input. *)
Definition agree (out : bytes) (st : Co) (h : H1) : Prop :=
  exists st' h', loops serve_step st st' /\ loop (process_step order (sync answer) never) (S (length (buffer h))) h = Some h' /\
    exchange (co_log st') = exchange (log h') /\ co_active st' = co_active st /\ outbox (inner (sock st')) = out ++ written (log h').

(** A response of the reactor when nothing fails. *)
Lemma deliver_plain r ka h : conn_open h = true -> closing h = false ->
  (deliver_response never r ka h).1 = let h1 := emit (Wrote (co_response ka r)) (set_writes (S (writes h)) (set_phase ReadingRequest (set_active_requests (active_requests h - 1) h))) in
    if ka then h1 else emit CloseAfterFlush (set_closing true h1).
Proof.
  intros Ho Hc. unfold deliver_response. cbv zeta. cbn [conn_open closing set_phase set_active_requests]. rewrite Ho, Hc. cbn [negb orb]. unfold co_response. set (bs := serialize_response _). clearbody bs. unfold write. cbn [conn_open set_phase set_active_requests]. rewrite Ho. cbv zeta. cbn [never].
  destruct ka; cbn [negb fst]; [done|]. unfold close_after_flush. cbn [conn_open set_closing emit set_writes set_phase set_active_requests]. by rewrite Ho.
Qed.

(** The round of the reactor for a request: as the coroutine's, with the rest of
    the input behind it. *)
Lemma reactor_serves st h request n x : alike st h -> parse_request order (co_buffer st) = Some (Success request n) ->
  let es := co_log st ++ [Dispatched request] in let bs := co_response (should_keep_alive request) (answer es request) in
  exists h1, process_step order (sync answer) never (push x h) = inl (push x h1) /\ log h1 = es ++ [Wrote bs] ++ (if should_keep_alive request then [] else [CloseAfterFlush]) /\
    (if should_keep_alive request then alike (mkCo (drop n (co_buffer st)) (sock st) (es ++ [Wrote bs]) (co_active st)) h1 else closing h1 = true).
Proof.
  intros [A1 A2 A3 A4 A5 A6 A7] Hp es bs. destruct (parse_request_total order (co_buffer st)) as (pr & Hp' & Hb). rewrite Hp in Hp'. injection Hp' as <-. destruct (Hb _ _ eq_refl) as [Hn _].
  destruct h as [hb hp hc hd hn ho hw ha hl]. cbn in A1, A2, A3, A4, A5, A6, A7. subst hp hc ho hd hb hl ha.
  unfold process_step. cbn [phase closing conn_open push set_buffer buffer]. rewrite bool_decide_eq_false_2 by done. cbn [negb orb]. rewrite (parse_request_ext order x _ _ Hp I), length_app.
  destruct (Nat.ltb_spec (length (co_buffer st) + length x) n); [lia|]. rewrite drop_app_le by lia. unfold dispatch. cbv zeta. unfold sync at 1. rewrite deliver_plain by done.
  cbn [log set_dispatch_call_active emit set_active_requests set_phase set_buffer push]. fold es. fold bs. clearbody bs. exists (set_buffer (drop n (co_buffer st)) (if should_keep_alive request then mkH1 (co_buffer st) ReadingRequest false false hn true (S hw) (co_active st) (es ++ [Wrote bs]) else mkH1 (co_buffer st) ReadingRequest true false hn true (S hw) (co_active st) ((es ++ [Wrote bs]) ++ [CloseAfterFlush]))).
  destruct (should_keep_alive request); cbn; replace (co_active st + 1 - 1) with (co_active st) by lia; (split; [done|]); (split; [by rewrite <- ?app_assoc|]); [split; cbn; done || lia|done].
Qed.

Lemma alike_push st h k bs : alike st h -> alike (co_set_buffer (co_buffer st ++ bs) (co_set_sock k st)) (push bs h).
Proof. intros [A1 A2 A3 A4 A5 A6 A7]. split; cbn; try done. by rewrite A5. Qed.

(** The reactor's round for what the coroutine refuses. *)
Lemma reactor_refuses st h x : alike st h -> parse_request order (co_buffer st) = Some Error ->
  exists h1, process_step order (sync answer) never (push x h) = inr (push x h1) /\ log h1 = co_log st ++ [Wrote (serialize (error_response 400 (str "Bad Request"))); CloseAfterFlush].
Proof.
  intros [A1 A2 A3 A4 A5 A6 A7] Hp. destruct h as [hb hp hc hd hn ho hw ha hl]. cbn in A1, A2, A3, A4, A5, A6, A7. subst hp hc ho hd hb hl ha.
  unfold process_step. cbn [phase closing conn_open push set_buffer buffer]. rewrite bool_decide_eq_false_2 by done. cbn [negb orb]. rewrite (parse_request_ext order x _ _ Hp I). unfold send_error_and_close. cbv zeta. cbn [conn_open set_closing].
  set (bs := serialize _). clearbody bs. exists (mkH1 (co_buffer st) ReadingRequest true false hn true (S hw) (co_active st) ((co_log st ++ [Wrote bs]) ++ [CloseAfterFlush])). split; [done|]. cbn. by rewrite <- app_assoc.
Qed.

Lemma reactor_waits st h : alike st h -> parse_request order (co_buffer st) = Some Incomplete -> #(co_buffer st) < kMaxRequestBytes -> process_step order (sync answer) never h = inr h.
Proof. intros [A1 A2 A3 A4 A5 A6 A7] Hp Hl. unfold process_step. rewrite A1, A2, A3, A5, Hp, bool_decide_eq_false_2 by done. cbn [negb orb]. destruct (Z.leb_spec kMaxRequestBytes (#(co_buffer st))); [lia|done]. Qed.

(** The closing connection's loop ends. *)
Lemma reactor_stopped h m : closing h = true -> loop (process_step order (sync answer) never) (S m) h = Some h.
Proof. intros Hc. cbn [loop]. unfold process_step. by rewrite Hc, orb_true_r. Qed.

Lemma agree_ends out st st' h h' : ends (fun f => serve_step f st) (inr st') -> process_step order (sync answer) never h = inr h' -> exchange (co_log st') = exchange (log h') -> co_active st' = co_active st ->
  outbox (inner (sock st')) = out ++ written (log h') -> agree out st h.
Proof. intros Es Ep He Ha Ho. exists st', h'. split; [by apply loops_done|]. cbn [loop]. by rewrite Ep. Qed.

Lemma agree_step out st st1 h h1 : ends (fun f => serve_step f st) (inl st1) -> process_step order (sync answer) never h = inl h1 -> (length (buffer h1) < length (buffer h))%nat -> co_active st1 = co_active st -> agree out st1 h1 -> agree out st h.
Proof.
  intros Es Ep Hl Ha (st' & h' & En & Eh & He & Ha' & Ho). exists st', h'. split; [by eapply loops_next|split; [|split; [done|split; [congruence|done]]]].
  cbn [loop]. rewrite Ep. eapply loop_mono; [exact Eh|lia].
Qed.

Lemma agree_reads out st st1 h : ends (fun f => serve_step f st) (inl st1) -> co_active st1 = co_active st -> agree out st1 h -> agree out st h.
Proof. intros Es Ha (st' & h' & En & Eh & He & Ha' & Ho). exists st', h'. split; [by eapply loops_next|split; [done|split; [done|split; [congruence|done]]]]. Qed.

(** The coroutine's rounds: it serves a request, reads, or refuses. *)
Lemma co_serves (st : Co) request n : parse_request order (co_buffer st) = Some (Success request n) ->
  let es := co_log st ++ [Dispatched request] in let bs := co_response (should_keep_alive request) (answer es request) in
  exists k, let st1 := mkCo (drop n (co_buffer st)) k (es ++ [Wrote bs]) (co_active st) in
    ends (fun f => serve_step f st) (if should_keep_alive request then inl st1 else inr (co_emit Closed st1)) /\ inbox (inner k) = inbox (inner (sock st)) /\ outbox (inner k) = outbox (inner (sock st)) ++ bs.
Proof.
  intros Hp es bs. destruct (parse_request_total order (co_buffer st)) as (pr & Hp' & Hb). rewrite Hp in Hp'. injection Hp' as <-. destruct (Hb _ _ eq_refl) as [Hn _].
  destruct (co_write_ends bs (mkCo (drop n (co_buffer st)) (sock st) es (co_active st + 1))) as (k & Ew & Ki & Ko). exists k. split; [|done].
  eapply ends_ext; [intros f; unfold Http1Coroutine.serve_step; rewrite Hp; destruct (Nat.ltb_spec (length (co_buffer st)) n); [lia|]; unfold co_serve_request; cbv zeta; reflexivity|].
  eapply ends_bind; [exact Ew|]. unfold co_emit, co_add_active, co_set_sock. cbn [co_buffer sock co_log co_active]. replace (co_active st + 1 + -1) with (co_active st) by lia. apply ends_ret.
Qed.

Lemma co_reads (st : Co) : parse_request order (co_buffer st) = Some Incomplete -> #(co_buffer st) < kMaxRequestBytes -> exists bs k,
  ends (fun f => serve_step f st) (match bs with [] => inr (co_emit Closed (co_set_sock k st)) | _ => inl (co_set_buffer (co_buffer st ++ bs) (co_set_sock k st)) end) /\
  inbox (inner (sock st)) = bs ++ inbox (inner k) /\ outbox (inner k) = outbox (inner (sock st)) /\ (bs = [] -> inbox (inner (sock st)) = []).
Proof.
  intros Hp Hl. destruct (co_read_ends kReadChunk st ltac:(unfold kReadChunk; lia)) as (bs & k & Er & Hk). exists bs, k. split; [|done]. apply Z.ltb_lt in Hl.
  eapply ends_ext; [intros f; unfold Http1Coroutine.serve_step; rewrite Hp, Hl; reflexivity|]. eapply ends_bind; [exact Er|]. cbn. destruct bs; apply ends_ret.
Qed.

Lemma co_refuses (st : Co) : parse_request order (co_buffer st) = Some Error -> let bs := serialize (error_response 400 (str "Bad Request")) in exists k,
  ends (fun f => serve_step f st) (inr (co_emit Closed (co_emit (Wrote bs) (co_set_sock k st)))) /\ inbox (inner k) = inbox (inner (sock st)) /\ outbox (inner k) = outbox (inner (sock st)) ++ bs.
Proof.
  intros Hp bs. destruct (co_write_ends bs st) as (k & Ew & Hk). exists k. split; [|done]. eapply ends_ext; [intros f; unfold Http1Coroutine.serve_step; rewrite Hp; reflexivity|]. eapply ends_bind; [exact Ew|apply ends_ret].
Qed.

Lemma written_exchange_one out es request bs : (out ++ written es) ++ bs = out ++ written ((es ++ [Dispatched request]) ++ [Wrote bs]).
Proof. rewrite !written_app. unfold written at 3 4. cbn. by rewrite !app_nil_r, app_assoc. Qed.

Lemma serves_alike out m : forall rest st h, (length rest < m)%nat -> inbox (inner (sock st)) = rest -> alike st h -> #(co_buffer st) + #rest < kMaxRequestBytes -> outbox (inner (sock st)) = out ++ written (co_log st) -> agree out st (push rest h).
Proof.
  induction m as [|m IHm]; intros rest; [lia|]. intros st h Hm. remember (length (co_buffer st)) as b eqn:Eb. revert st h Eb. induction (lt_wf b) as [b _ IHb]. intros st h -> Hi Hal Hsz Hout.
  destruct (parse_request_total order (co_buffer st)) as (pr & Hp & Hb). destruct pr as [request n| |].
  - destruct (Hb _ _ eq_refl) as [Hn _]. destruct (reactor_serves st h request n rest Hal Hp) as (h1 & Ep & El & Hk). destruct (co_serves st request n Hp) as (k & Es & Ki & Ko).
    set (es := co_log st ++ [Dispatched request]) in *. set (bs := co_response (should_keep_alive request) (answer es request)) in *. destruct (should_keep_alive request).
    + assert (Hlen : (length (drop n (co_buffer st)) < length (co_buffer st))%nat) by (rewrite length_drop; lia). pose proof (al_buffer _ _ Hk) as Hb1. cbn in Hb1.
      eapply agree_step; [exact Es|exact Ep|cbn; rewrite !length_app, Hb1, (al_buffer _ _ Hal); lia|done|].
      apply (IHb _ Hlen (mkCo (drop n (co_buffer st)) k (es ++ [Wrote bs]) (co_active st)) h1 eq_refl); [cbn [sock] in *; by rewrite Ki|by destruct Hk|cbn; lia|]. cbn [sock co_log]. rewrite Ko, Hout. apply written_exchange_one.
    + exists (co_emit Closed (mkCo (drop n (co_buffer st)) k (es ++ [Wrote bs]) (co_active st))), (push rest h1). split; [by apply loops_done|]. cbn [loop]. rewrite Ep. assert (Hlen : (0 < length (buffer (push rest h)))%nat) by (cbn; rewrite length_app, (al_buffer _ _ Hal); lia). destruct (length (buffer (push rest h))) as [|q]; [lia|]. rewrite reactor_stopped by done.
      split; [done|]. cbn [co_log co_emit push set_buffer log co_active sock]. rewrite El. split; [by rewrite !exchange_app, <- !app_assoc|]. split; [done|]. rewrite Ko, Hout, (app_assoc es [Wrote bs]), (written_app (es ++ _)), app_nil_r. apply written_exchange_one.
  - destruct (co_reads st Hp ltac:(lia)) as (bs & k & Es & Ki & Ko & Ke). rewrite Hi in Ki. destruct bs as [|b0 bs0] eqn:Ebs.
    + rewrite <- Hi, (Ke eq_refl). replace (push [] h) with h by (unfold push; rewrite app_nil_r; by destruct h). eapply agree_ends; [exact Es|by eapply reactor_waits; [|exact Hp|lia]|cbn; by rewrite exchange_app, app_nil_r, (al_log _ _ Hal)|done|cbn; by rewrite Ko, Hout, (al_log _ _ Hal)].
    + rewrite <- Ebs in *. assert (Hne : (0 < length bs)%nat) by (rewrite Ebs; cbn; lia). rewrite Ki in *. eapply agree_reads; [exact Es|done|]. replace (push (bs ++ inbox (inner k)) h) with (push (inbox (inner k)) (push bs h)) by (unfold push; cbn; by rewrite app_assoc).
      apply IHm; [rewrite length_app in Hm; lia|done|by apply alike_push|cbn; rewrite !length_app in *; lia|cbn; by rewrite Ko].
  - destruct (reactor_refuses st h rest Hal Hp) as (h1 & Ep & El). destruct (co_refuses st Hp) as (k & Es & Ki & Ko).
    eapply agree_ends; [exact Es|exact Ep| |done|]; cbn [co_log co_emit push set_buffer log co_set_sock sock]; rewrite El; [by rewrite !exchange_app, <- !app_assoc|]. rewrite Ko, Hout. rewrite written_app. rewrite <- app_assoc. by do 2 f_equal.
Qed.

(** From the bytes read already on. *)
Lemma keep_alive_ends bs (k : Sock) : bs <> [] -> #bs + #(inbox (inner k)) < kMaxRequestBytes -> exists st h, ends (fun f => serve_coroutine_keep_alive (socket_io := descriptor_io weather) order handler f bs k) st /\
  on_data order (sync answer) never (bs ++ inbox (inner k)) new_conn = Some h /\ exchange (co_log st) = exchange (log h) /\ outbox (inner (sock st)) = outbox (inner k) ++ written (log h) /\ co_active st = 0.
Proof.
  intros Hne Hl. assert (Hal : alike (mkCo bs k [] 0) (push bs new_conn)) by (by split).
  destruct (serves_alike (outbox (inner k)) (S (length (inbox (inner k)))) (inbox (inner k)) (mkCo bs k [] 0) (push bs new_conn)) as (st & h & En & Eh & He & Ha & Ho); [lia|done|done|done|cbn; by rewrite app_nil_r|].
  exists st, h. split; [unfold serve_coroutine_keep_alive; destruct bs; [done|by apply loops_end]|]. split; [|done]. unfold on_data. cbn [closing phase set_buffer new_conn buffer app]. rewrite bool_decide_eq_false_2 by done. cbn [orb]. exact Eh.
Qed.

(** C22: The coroutine and the reactor are the same HTTP/1.1 server.  Whatever the
    client sends (less than 1 MiB, well formed or not, in one piece or in any
    others), over a descriptor that delivers and takes any part at any time as
    long as it neither breaks nor blocks for ever, and with a handler that
    always answers: the coroutine ends, it has dispatched the same requests
    and written the same responses in the same order as the reactor's
    connection that was fed all the input at once, its bytes are on the wire
    in that order, and it leaves no request counted as active. *)
Theorem h1_coroutine_equivalent k : #(inbox (inner k)) < kMaxRequestBytes -> exists fuel st h,
  serve_coroutine_keep_alive (socket_io := descriptor_io weather) order handler fuel [] k = Some st /\ on_data order (sync answer) never (inbox (inner k)) new_conn = Some h /\
  exchange (co_log st) = exchange (log h) /\ outbox (inner (sock st)) = outbox (inner k) ++ written (log h) /\ co_active st = 0.
Proof.
  intros Hl. destruct (co_read_ends kFirstRead (mkCo [] k [] 0) ltac:(unfold kFirstRead; lia)) as (bs & k1 & [f Er] & Ki & Ko & Ke). cbn [sock] in Ki, Ko, Ke. unfold serve_coroutine_keep_alive. destruct bs as [|b bs0] eqn:Eb.
  - exists f, (co_emit Closed (co_set_sock k1 (mkCo [] k [] 0))), new_conn. rewrite Er by done. cbn [mbind option_bind]. rewrite (Ke eq_refl). split_and!; try done. cbn. by rewrite Ko, app_nil_r.
  - rewrite <- Eb in *. assert (Hne : bs <> []) by (by rewrite Eb). rewrite Ki, length_app in Hl. destruct (keep_alive_ends bs k1 Hne ltac:(lia)) as (st & h & [f' E'] & K). exists (Nat.max f f'), st, h. rewrite Er by lia. cbn [mbind option_bind]. rewrite Ki, <- Ko. split; [|done].
    rewrite Eb. rewrite <- Eb. specialize (E' (Nat.max f f') ltac:(lia)). unfold serve_coroutine_keep_alive in E'. rewrite Eb in E'. rewrite <- Eb in E'. exact E'.
Qed.
End Equivalence.

(** ** Example *)

Lemma h1_coroutine_equivalent_witness : exists fuel st h,
  serve_coroutine_keep_alive (socket_io := descriptor_io (fun n => if Nat.even n then WouldBlock else Room 3)) (fun l => l) (fun es r => Some (hello es r)) fuel [] (mkSock (mkKernel (request_wire get_slash []) [] 0) []) = Some st /\
  on_data (fun l => l) (sync hello) never (request_wire get_slash []) new_conn = Some h /\ exchange (co_log st) = exchange (log h) /\ length (log h) = 2%nat.
Proof.
  destruct (h1_coroutine_equivalent (fun n => if Nat.even n then WouldBlock else Room 3) (fun l => l) hello) with (k := mkSock (mkKernel (request_wire get_slash []) [] 0) []) as (fuel & st & h & E1 & E2 & E3 & _); [| |by vm_compute|].
  - intros i. exists (S (2 * i)). split; [lia|]. rewrite Nat.even_succ, Nat.odd_mul, Nat.odd_2. done.
  - intros i. by destruct (Nat.even i).
  - exists fuel, st, h. split; [exact E1|]. split; [exact E2|]. split; [exact E3|]. cbn [inner inbox] in E2. vm_compute in E2. by injection E2 as <-.
Defined.
