(* ===== verification/WsCoroutine.v ===== *)
(** * HTTP/1.1 + WebSocket as a coroutine

    example/http-websocket/src/dispatcher_coroutine.cpp over the sockets of
    Socket.v: the sniffing of the first request, the handshake, the reads
    through the stash, the frame loop, and the hand-over to the HTTP/1.1
    coroutine (Http1Coroutine.v).  Here the connection's coroutine is the only
    writer, so the write gate is free at every send; WsGate.v is about several
    writers.  The theorem says that it is the same server as the reactor's
    [WsConnection] (WsServer.v).

    The application's handlers are arguments as in WsServer.v; [on_close] may
    send, too. *)
From S2P Require Import Prelude Chunking Utils PlatformIO Socket Async Http1 Http1Server Http1Coroutine WsFrame WsHandshake WsServer.

Local Open Scope Z_scope.

(** A frame of the server, built in one allocation. *)
Definition build_frame (op : Z) (payload : bytes) (fin : bool) : bytes :=
  let len := #payload in
  u8 ((if fin then 0x80 else 0x00) .| (op .& 0x0F)) ::
  (if 65535 <? len then 127 :: map (fun i => (len .>> (56 - i * 8)) .& 0xFF) [0; 1; 2; 3; 4; 5; 6; 7]
   else if 125 <? len then [126; (len .>> 8) .& 0xFF; len .& 0xFF]
   else [u8 len]) ++ payload.

Definition kWsRecvHint : nat := Z.to_nat 4096.
Definition kSniffRead : nat := Z.to_nat 2048.

Section Coroutine.
Context {T : Type} {socket_io : SocketIO T}.
Context (order : list (bytes * bytes) -> list (bytes * bytes)).
Context (handler : list Http1Server.Event -> HTTPRequest -> option HTTPResponse).
Context (http_handler ws_handler : bool).
Context (on_open_sends : list Event -> list Send).
Context (on_message_sends : list Event -> Message -> list Send).
Context (on_close_sends : list Event -> list Send).

(** The locals of [serve_websocket]. *)
Record WsCo := mkWsCo {
  ws_sock : Sock (S := T);
  ws_recv_stash : bytes;
  ws_stash_off : nat;
  co_sent_close : bool;
  co_message_buffer : bytes;
  co_message_opcode : Z;
  co_fragmented : bool;
  ws_log : list Event }.

Definition eta_WsCo (w : WsCo) : WsCo :=
  mkWsCo (ws_sock w) (ws_recv_stash w) (ws_stash_off w) (co_sent_close w) (co_message_buffer w) (co_message_opcode w) (co_fragmented w) (ws_log w).
Definition set_ws_sock (v : Sock) (w : WsCo) : WsCo := ltac:(with_field eta_WsCo w ws_sock v).
Definition set_ws_recv_stash (v : bytes) (w : WsCo) : WsCo := ltac:(with_field eta_WsCo w ws_recv_stash v).
Definition set_ws_stash_off (v : nat) (w : WsCo) : WsCo := ltac:(with_field eta_WsCo w ws_stash_off v).
Definition set_co_sent_close (v : bool) (w : WsCo) : WsCo := ltac:(with_field eta_WsCo w co_sent_close v).
Definition set_co_message_buffer (v : bytes) (w : WsCo) : WsCo := ltac:(with_field eta_WsCo w co_message_buffer v).
Definition set_co_message_opcode (v : Z) (w : WsCo) : WsCo := ltac:(with_field eta_WsCo w co_message_opcode v).
Definition set_co_fragmented (v : bool) (w : WsCo) : WsCo := ltac:(with_field eta_WsCo w co_fragmented v).
Definition ws_emit (e : Event) (w : WsCo) : WsCo := ltac:(with_field eta_WsCo w ws_log (ws_log w ++ [e])).

(** ** Input *)

Definition consume_from_stash (n : nat) (w : WsCo) : bytes * WsCo :=
  let avail := (length (ws_recv_stash w) - ws_stash_off w)%nat in
  let m := Nat.min n avail in
  let out := take m (drop (ws_stash_off w) (ws_recv_stash w)) in
  let off := (ws_stash_off w + m)%nat in
  let w := set_ws_stash_off off w in
  (out, if (off =? length (ws_recv_stash w))%nat then set_ws_stash_off 0 (set_ws_recv_stash [] w) else w).

(** One round of the loop of [read_exact]: what is missing is read, and what
    was read beyond it goes to the stash. *)
Definition read_exact_step (n fuel : nat) (s : bytes * WsCo) : option ((bytes * WsCo) + bytes * WsCo) :=
  let '(out, w) := s in
  if (length out <? n)%nat then
    let need := (n - length out)%nat in
    let want := Nat.max need kWsRecvHint in
    '(_, read_chunk, k) ← async_read fuel want (ws_sock w);
    let w := set_ws_sock k w in
    match read_chunk with
    | [] => Some (inr (out, w))
    | _ =>
        let m := Nat.min need (length read_chunk) in
        let out := out ++ take m read_chunk in
        let w := if (m <? length read_chunk)%nat then set_ws_stash_off 0 (set_ws_recv_stash (drop m read_chunk) w) else w in
        Some (inl (out, w))
    end
  else Some (inr (out, w)).

Definition read_exact (n fuel : nat) (w : WsCo) : option (bytes * WsCo) := rounds (read_exact_step n) fuel (consume_from_stash n w).

(** ** Output *)

Definition ws_write (data : bytes) (fuel : nat) (w : WsCo) : option WsCo :=
  '(_, k) ← async_write fuel data (ws_sock w); Some (ws_emit (Wrote data) (set_ws_sock k w)).

(** [Connection::send]. *)
Definition conn_send (op : Z) (payload : bytes) (fin : bool) (fuel : nat) (w : WsCo) : option WsCo := ws_write (build_frame op payload fin) fuel w.

Fixpoint conn_sends (ss : list Send) (fuel : nat) (w : WsCo) : option WsCo :=
  match ss with
  | [] => Some w
  | s :: ss => w ← conn_send (send_opcode s) (send_payload s) (send_fin s) fuel w; conn_sends ss fuel w
  end.

Definition co_send_frame (op : Z) (payload : bytes) (close_code : Z) (fuel : nat) (w : WsCo) : option WsCo :=
  if (op =? Close) && negb (close_code =? 0)
  then conn_send op (u8 ((close_code .>> 8) .& 0xFF) :: u8 (close_code .& 0xFF) :: payload) true fuel w
  else conn_send op payload true fuel w.

Definition co_fail_close (code : Z) (fuel : nat) (w : WsCo) : option WsCo :=
  if co_sent_close w then Some w else co_send_frame Close [] code fuel (set_co_sent_close true w).

(** ** Frames *)

(** [break] and [continue]. *)
Definition leave (w : WsCo) : option (WsCo + WsCo) := Some (inr w).
Definition go_on (w : WsCo) : option (WsCo + WsCo) := Some (inl w).
Definition refuse (code : Z) (fuel : nat) (w : WsCo) : option (WsCo + WsCo) := w ← co_fail_close code fuel w; leave w.

(** The length of the payload: read, refused with a code, or the end of the
    stream. *)
Inductive LengthRead := Length (n : Z) | Refused (code : Z) | Ended.

Definition read_payload_len (payload_len : Z) (fuel : nat) (w : WsCo) : option (LengthRead * WsCo) :=
  if payload_len =? 126 then
    '(ext, w) ← read_exact 2 fuel w;
    if negb (length ext =? 2)%nat then Some (Ended, w) else
    let payload_len := (nth_byte ext 0 .<< 8) .| nth_byte ext 1 in
    Some (if payload_len <? 126 then Refused 1002 else Length payload_len, w)
  else if payload_len =? 127 then
    '(ext, w) ← read_exact 8 fuel w;
    if negb (length ext =? 8)%nat then Some (Ended, w) else
    let payload_len := be_fold 0 ext in
    Some (if negb (payload_len .& (1 .<< 63) =? 0) then Refused 1002 else if payload_len <? 65536 then Refused 1002 else Length payload_len, w)
  else Some (Length payload_len, w).

Definition control_round (op : Z) (payload : bytes) (fuel : nat) (w : WsCo) : option (WsCo + WsCo) :=
  if op =? Close then
    if co_sent_close w then leave w else w ← conn_send Close payload true fuel (set_co_sent_close true w); leave w
  else if op =? Ping then w ← co_send_frame Pong payload 0 fuel w; go_on w
  else go_on w.

(** The frame joins the message; a whole message goes to the application. *)
Definition deliver_round (fin : bool) (fuel : nat) (w : WsCo) : option (WsCo + WsCo) :=
  if fin then
    let msg := mkMessage (co_message_opcode w) (co_message_buffer w) in
    let w := ws_emit (OnMessage msg) (set_co_fragmented false w) in
    w ← conn_sends (on_message_sends (ws_log w) msg) fuel w;
    go_on (set_co_message_buffer [] w)
  else go_on w.

Definition data_round (op : Z) (fin : bool) (payload : bytes) (fuel : nat) (w : WsCo) : option (WsCo + WsCo) :=
  if negb (op =? Continuation) then
    if co_fragmented w then refuse 1002 fuel w
    else deliver_round fin fuel (set_co_fragmented (negb fin) (set_co_message_buffer payload (set_co_message_opcode op w)))
  else
    if negb (co_fragmented w) then refuse 1002 fuel w
    else if kMaxPayloadBytes <? #(co_message_buffer w) + #payload then refuse 1009 fuel w
    else deliver_round fin fuel (set_co_message_buffer (co_message_buffer w ++ payload) w).

(** The key and the payload, when the header is in order. *)
Definition payload_round (op : Z) (fin : bool) (payload_len : Z) (fuel : nat) (w : WsCo) : option (WsCo + WsCo) :=
  '(mask_key_buf, w) ← read_exact 4 fuel w;
  if negb (length mask_key_buf =? 4)%nat then leave w else
  let masking_key := parse_key mask_key_buf in
  '(payload, w) ← read_exact (Z.to_nat payload_len) fuel w;
  if negb (#payload =? payload_len) then leave w else
  let payload := mask_payload masking_key 0 payload in
  if is_control_opcode op then control_round op payload fuel w else data_round op fin payload fuel w.

Definition frame_round (fuel : nat) (w : WsCo) : option (WsCo + WsCo) :=
  '(header, w) ← read_exact 2 fuel w;
  if (length header <? 2)%nat then leave w else
  let fin := negb (nth_byte header 0 .& 0x80 =? 0) in
  let op := nth_byte header 0 .& 0x0F in
  let masked := negb (nth_byte header 1 .& 0x80 =? 0) in
  if negb (nth_byte header 0 .& 0x40 =? 0) || negb (nth_byte header 0 .& 0x20 =? 0) || negb (nth_byte header 0 .& 0x10 =? 0) then refuse 1002 fuel w
  else if negb masked then refuse 1002 fuel w
  else if negb (opcode_known op) then refuse 1002 fuel w
  else
  '(len, w) ← read_payload_len (nth_byte header 1 .& 0x7F) fuel w;
  match len with
  | Ended => leave w
  | Refused code => refuse code fuel w
  | Length payload_len =>
      if is_control_opcode op && (negb fin || (125 <? payload_len)) then refuse 1002 fuel w
      else if kMaxPayloadBytes <? payload_len then refuse 1009 fuel w
      else payload_round op fin payload_len fuel w
  end.

Definition serve_websocket (req : HandshakeRequest) (initial : bytes) (fuel : nat) (k : Sock) : option WsCo :=
  let client_key := default [] (find_exact (hs_headers req) (str "sec-websocket-key")) in
  let accept_key := default [] (compute_accept client_key) in
  w ← ws_write (switching_response accept_key) fuel (mkWsCo k initial 0 false [] Continuation false []);
  let w := ws_emit OnOpen w in
  w ← conn_sends (on_open_sends (ws_log w)) fuel w;
  w ← rounds frame_round fuel w;
  let w := ws_emit OnClose w in
  conn_sends (on_close_sends (ws_log w)) fuel w.

(** ** Sniffing *)

(** What was read, and the request in it, if there is a whole one. *)
Record Sniffed := mkSniffed { sn_buffer : bytes; sn_sock : Sock (S := T); sn_handshake : option HandshakeRequest }.

(** Reading on while there is no whole request. *)
Definition sniff_step (fuel : nat) (s : Sniffed) : option (Sniffed + Sniffed) :=
  let buffer := sn_buffer s in
  match parse_handshake buffer with
  | Some req => Some (inr (mkSniffed buffer (sn_sock s) (Some req)))
  | None =>
      if #buffer <? kMaxHandshakeBytes then
        '(_, more, k) ← async_read fuel kSniffRead (sn_sock s);
        match more with [] => Some (inr (mkSniffed buffer k None)) | _ => Some (inl (mkSniffed (buffer ++ more) k None)) end
      else Some (inr s)
  end.

(** How a connection was served. *)
Inductive Outcome := AsWebSocket (w : WsCo) | AsHttp (st : Co (T := T)) | JustClosed (k : Sock (S := T)).

(** The connection handler made by [make_coroutine_dispatcher]. *)
Definition coroutine_dispatcher (fuel : nat) (sock : Sock) : option Outcome :=
  '(_, buffer, sock) ← async_read fuel kSniffRead sock;
  match buffer with
  | [] => Some (JustClosed sock)
  | _ =>
      s ← (if ws_handler then rounds sniff_step fuel (mkSniffed buffer sock None) else Some (mkSniffed buffer sock None));
      let http := if http_handler then AsHttp <$> serve_coroutine_keep_alive order handler fuel (sn_buffer s) (sn_sock s) else Some (JustClosed (sn_sock s)) in
      match sn_handshake s with
      | Some req =>
          if is_upgrade req then
            let leftover := match find_sub terminator (sn_buffer s) with Some hs_end => drop (hs_end + 4) (sn_buffer s) | None => [] end in
            AsWebSocket <$> serve_websocket req leftover fuel (sn_sock s)
          else http
      | None => http
      end
  end.
End Coroutine.

(** ** Frames as the serialiser writes them *)

Lemma land15_small op : 0 <= op < 16 -> op .& 15 = op.
Proof. intros H. rewrite (land_mask _ 4 15) by done. apply Z.mod_small. lia. Qed.

Lemma build_frame_serialize op payload fin : 0 <= op < 16 -> #payload < 2 ^ 64 ->
  build_frame op payload fin = serialize (mkFrame fin false false false op false (#payload) 0 payload).
Proof.
  intros Ho Hl. unfold build_frame, serialize. cbn [WsFrame.fin rsv1 rsv2 rsv3 opcode masked payload_length masking_key WsFrame.payload bit app].
  change kPayloadLen16Code with 126. change kPayloadLen16MaxExclusive with 65536. change kPayloadLen64Code with 127. change kFinBit with 128. rewrite land15_small by done. rewrite !Z.lor_0_l. unfold bit. rewrite (u8_small op) by (unfold byte_ok; lia).
  assert (Eb : u8 ((if fin then 128 else 0) .| op) = (if fin then 128 else 0) .| op).
  { apply u8_small. destruct fin; [|rewrite Z.lor_0_l; unfold byte_ok; lia]. rewrite (lor_low_add 4) by (done || lia). unfold byte_ok. lia. }
  rewrite Eb. f_equal. destruct (Z.ltb_spec (#payload) 126) as [H1|H1].
  - destruct (Z.ltb_spec 65535 (#payload)); [lia|]. destruct (Z.ltb_spec 125 (#payload)); [lia|]. done.
  - destruct (Z.ltb_spec (#payload) 65536) as [H2|H2].
    + destruct (Z.ltb_spec 65535 (#payload)); [lia|]. destruct (Z.ltb_spec 125 (#payload)); [done|lia].
    + destruct (Z.ltb_spec 65535 (#payload)); [done|lia].
Qed.

(** Messages and frames; the two servers close differently. *)
Definition ws_exchange (es : list Event) : list Event := List.filter (fun e => match e with Wrote _ | OnOpen | OnMessage _ => true | _ => false end) es.

Definition ws_written (es : list Event) : bytes := concat (map (fun e => match e with Wrote bs => bs | _ => [] end) es).

Lemma ws_exchange_app a b : ws_exchange (a ++ b) = ws_exchange a ++ ws_exchange b.
Proof. apply List.filter_app. Qed.

Lemma ws_written_app a b : ws_written (a ++ b) = ws_written a ++ ws_written b.
Proof. unfold ws_written. by rewrite map_app, concat_app. Qed.

(** A frame the serialiser writes as [build_frame] does. *)
Definition send_ok (s : Send) : Prop := 0 <= send_opcode s < 16 /\ #(send_payload s) < 2 ^ 64.

Section Equivalence.
Context (weather : nat -> Weather).
Hypothesis Hset : forall i, settles weather i.
Hypothesis Hsound : forall i, weather i <> Broken.
Context (on_open_sends : list Event -> list Send).
Context (on_message_sends : list Event -> Message -> list Send).
Hypothesis Hopen : forall es, Forall send_ok (on_open_sends es).
Hypothesis Hmessage : forall es m, Forall send_ok (on_message_sends es m).
Abbreviation WsCo := (WsCo (T := Kernel)).
Abbreviation read_exact := (read_exact (socket_io := descriptor_io weather)).
Abbreviation read_exact_step := (read_exact_step (socket_io := descriptor_io weather)).

(** *** Reading *)

(** What is still to be read: the stash, then what the peer sends. *)
Definition stream (w : WsCo) : bytes := drop (ws_stash_off w) (ws_recv_stash w) ++ inbox (inner (ws_sock w)).

(** Only the reading side differs. *)
Definition read_on (w w' : WsCo) : Prop := outbox (inner (ws_sock w')) = outbox (inner (ws_sock w)) /\ co_sent_close w' = co_sent_close w /\ co_message_buffer w' = co_message_buffer w /\
  co_message_opcode w' = co_message_opcode w /\ co_fragmented w' = co_fragmented w /\ ws_log w' = ws_log w.

Lemma read_on_trans w1 w2 w3 : read_on w1 w2 -> read_on w2 w3 -> read_on w1 w3.
Proof. unfold read_on. intros (-> & -> & -> & -> & -> & ->) H. intuition congruence. Qed.

Definition stash_ok (w : WsCo) : Prop := (ws_stash_off w <= length (ws_recv_stash w))%nat.

Lemma stash_consume_spec n w : stash_ok w -> let '(out, w') := consume_from_stash n w in
  read_on w w' /\ stash_ok w' /\ out ++ stream w' = stream w /\ (length out <= n)%nat /\ ((length out < n)%nat -> ws_recv_stash w' = [] /\ ws_stash_off w' = O).
Proof.
  unfold stash_ok, consume_from_stash. destruct w as [k stash off c b o fr l]. cbn [ws_recv_stash ws_stash_off]. intros Hk. cbn [ws_recv_stash ws_stash_off set_ws_stash_off].
  set (m := Nat.min n (length stash - off)). pose proof (length_drop stash off) as Hd.
  assert (Ho : length (take m (drop off stash)) = m) by (rewrite length_take, Hd; lia).
  destruct (Nat.eqb_spec (off + m) (length stash)) as [E|E]; split_and!; try done; unfold stream; cbn [ws_stash_off ws_recv_stash ws_sock set_ws_stash_off set_ws_recv_stash]; try lia.
  - rewrite drop_nil, take_ge by (rewrite Hd; lia). done.
  - by rewrite <- drop_drop, app_assoc, take_drop.
Qed.

Lemma read_exact_loops n : forall m out w, (length (inbox (inner (ws_sock w))) <= m)%nat -> (length out <= n)%nat -> stash_ok w -> ((length out < n)%nat -> ws_recv_stash w = [] /\ ws_stash_off w = O) ->
  exists w', loops (read_exact_step n) (out, w) (take n (out ++ stream w), w') /\ stream w' = drop n (out ++ stream w) /\ stash_ok w' /\ read_on w w'.
Proof.
  induction m as [m IH] using lt_wf_ind. intros out w Hm Hl Hk He.
  destruct (Nat.ltb_spec (length out) n) as [Hlt|Hge].
  2: { exists w. rewrite take_app_le, take_ge, drop_app_ge by lia. replace (n - length out)%nat with O by lia. rewrite drop_0. split; [|done]. apply loops_done. eapply ends_ext; [|apply ends_ret]. intros f. unfold WsCoroutine.read_exact_step. by destruct (Nat.ltb_spec (length out) n); [lia|]. }
  destruct (He Hlt) as [Hs Ho]. set (need := (n - length out)%nat). assert (Hneed : (0 < need)%nat) by lia. destruct (read_ends weather Hset Hsound (Nat.max need kWsRecvHint) (ws_sock w) ltac:(lia)) as (bs & k & Er & Ki & Ko & _ & Ke).
  assert (Est : stream w = bs ++ inbox (inner k)). { unfold stream. by rewrite Hs, Ho, <- Ki. }
  assert (Estep : ends (fun f => read_exact_step n f (out, w)) (match bs with [] => inr (out, set_ws_sock k w) | _ => inl (out ++ take (Nat.min need (length bs)) bs,
    if (Nat.min need (length bs) <? length bs)%nat then set_ws_stash_off 0 (set_ws_recv_stash (drop (Nat.min need (length bs)) bs) (set_ws_sock k w)) else set_ws_sock k w) end)).
  { eapply ends_ext; [intros f; unfold WsCoroutine.read_exact_step; destruct (Nat.ltb_spec (length out) n); [|lia]; reflexivity|]. eapply ends_bind; [exact Er|]. cbn. destruct bs; apply ends_ret. }
  destruct bs as [|b bs0] eqn:Ebs.
  - exists (set_ws_sock k w). rewrite (Ke eq_refl) in Ki. cbn in Ki. rewrite <- Ki in Est. rewrite Est. cbn [app]. rewrite app_nil_r, take_ge, drop_ge by lia. split; [by apply loops_done|]. split; [unfold stream; cbn; by rewrite Hs, Ho, <- Ki|]. done.
  - rewrite <- Ebs in *. assert (Hb : (0 < length bs)%nat) by (rewrite Ebs; cbn; lia). set (w1 := if (Nat.min need (length bs) <? length bs)%nat then set_ws_stash_off 0 (set_ws_recv_stash (drop (Nat.min need (length bs)) bs) (set_ws_sock k w)) else set_ws_sock k w) in *.
    assert (Hw1 : read_on w w1 /\ stash_ok w1 /\ inbox (inner (ws_sock w1)) = inbox (inner k) /\ stream w1 = drop (Nat.min need (length bs)) bs ++ inbox (inner k) /\ ((need < length bs)%nat \/ (ws_recv_stash w1 = [] /\ ws_stash_off w1 = O))).
    { subst w1. destruct (Nat.ltb_spec (Nat.min need (length bs)) (length bs)); unfold stream; cbn; rewrite ?Hs, ?Ho, ?drop_0; split_and!; try done; try (unfold stash_ok; cbn; lia); try (left; lia); try (by right). by rewrite drop_ge by lia. }
    destruct Hw1 as (H1 & H2 & H3 & H4 & H5). rewrite Ki, length_app in Hm. destruct (IH (m - length bs)%nat ltac:(lia) (out ++ take (Nat.min need (length bs)) bs) w1) as (w' & K1 & K2 & K3 & K4).
    + rewrite H3. lia.
    + rewrite length_app, length_take. lia.
    + done.
    + rewrite length_app, length_take. intros. destruct H5; [lia|done].
    + assert (Ee : (out ++ take (Nat.min need (length bs)) bs) ++ stream w1 = out ++ stream w) by (rewrite H4, Est, <- app_assoc; f_equal; by rewrite app_assoc, take_drop). rewrite Ee in *. exists w'. rewrite Ebs in Estep. rewrite <- Ebs in Estep. split; [by eapply loops_next|]. split; [done|]. split; [done|by eapply read_on_trans].
Qed.

(** [read_exact] takes the next [n] bytes of the stream, fewer only at its
    end. *)
Lemma read_exact_ends n w : stash_ok w -> exists w', ends (fun f => read_exact n f w) (take n (stream w), w') /\ stream w' = drop n (stream w) /\ stash_ok w' /\ read_on w w'.
Proof.
  intros Hk. pose proof (stash_consume_spec n w Hk) as Hc. unfold WsCoroutine.read_exact. destruct (consume_from_stash n w) as [out w0]. destruct Hc as (C1 & C2 & C3 & C4 & C5).
  destruct (read_exact_loops n _ out w0 ltac:(done) C4 C2 C5) as (w' & K1 & K2 & K3 & K4). rewrite C3 in *. exists w'. split; [by apply loops_end|]. split; [done|]. split; [done|by eapply read_on_trans].
Qed.

(** *** The header *)

(** What the coroutine knows of a header: it checks the first two bytes before
    it reads on. *)
Definition header_seen (b : bytes) : option (Z + Z * nat) :=
  if (length b <? 2)%nat then None
  else if negb (nth_byte b 0 .& 0x40 =? 0) || negb (nth_byte b 0 .& 0x20 =? 0) || negb (nth_byte b 0 .& 0x10 =? 0) || (nth_byte b 1 .& 0x80 =? 0) || negb (opcode_known (nth_byte b 0 .& 0x0F)) then Some (inl 1002)
  else if (length b <? (header_sizes b).1)%nat then None
  else Some (check_header b).

Lemma nth_byte_take n i (b : bytes) : (i < n)%nat -> nth_byte (take n b) i = nth_byte b i.
Proof. intros H. unfold nth_byte. by rewrite !nth_lookup, lookup_take_lt by done. Qed.

Lemma nth_byte_drop n i (b : bytes) : nth_byte (drop n b) i = nth_byte b (n + i).
Proof. unfold nth_byte. by rewrite !nth_lookup, lookup_drop. Qed.

(** A whole header is judged as the reactor does. *)
Lemma header_seen_whole b : (2 <= length b)%nat -> ((header_sizes b).2 <= length b)%nat -> header_seen b = Some (check_header b).
Proof.
  intros H2 Hs. unfold header_seen. destruct (Nat.ltb_spec (length b) 2); [lia|]. destruct (Nat.ltb_spec (length b) (header_sizes b).1) as [Hl|_]; [unfold header_sizes in *; cbn in *; lia|].
  unfold check_header. destruct (negb (nth_byte b 0 .& 64 =? 0) || negb (nth_byte b 0 .& 32 =? 0) || negb (nth_byte b 0 .& 16 =? 0)); [done|]. cbn [orb]. destruct (nth_byte b 1 .& 128 =? 0); [done|]. cbn [orb]. by destruct (opcode_known _).
Qed.

Lemma header_seen_base b len base : header_seen b = Some (inr (len, base)) -> check_header b = inr (len, base) /\ (2 <= base <= length b)%nat.
Proof.
  unfold header_seen. destruct (length b <? 2)%nat; [done|]. destruct (_ || _ || _); [done|]. destruct (Nat.ltb_spec (length b) (header_sizes b).1); [done|]. intros [= E]. split; [done|]. pose proof (check_header_sizes _ _ _ E) as Es. rewrite Es in *. cbn in *. split; [|done].
  unfold header_sizes in Es. injection Es as <- _. repeat case_match; lia.
Qed.

Abbreviation read_payload_len := (read_payload_len (socket_io := descriptor_io weather)).
Abbreviation frame_round := (frame_round (socket_io := descriptor_io weather) on_message_sends).
Abbreviation payload_round := (payload_round (socket_io := descriptor_io weather) on_message_sends).
Abbreviation refuse := (refuse (socket_io := descriptor_io weather)).

(** The length field behind the two bytes [b] starts with. *)
Definition length_seen (b : bytes) : LengthRead :=
  if (length b <? (header_sizes b).1)%nat then Ended
  else match read_length b with Some (len, _) => Length len | None => Refused 1002 end.

Lemma read_payload_len_ends b w : (2 <= length b)%nat -> stash_ok w -> stream w = drop 2 b -> exists w',
  ends (fun f => read_payload_len (nth_byte b 1 .& 0x7F) f w) (length_seen b, w') /\ (length_seen b <> Ended -> stream w' = drop (header_sizes b).1 b) /\ stash_ok w' /\ read_on w w'.
Proof.
  intros H2 Hk Hs. unfold WsCoroutine.read_payload_len, length_seen, header_sizes, read_length. cbn [fst]. destruct (nth_byte b 1 .& 127 =? 126).
  - destruct (read_exact_ends 2 w Hk) as (w' & E & K1 & K2 & K3). exists w'. split; [|rewrite K1, Hs, drop_drop; done]. eapply ends_bind; [exact E|]. cbn beta iota. rewrite Hs, length_take, length_drop.
    destruct (Nat.ltb_spec (length b) 4); [destruct (Nat.eqb_spec (Nat.min 2 (length b - 2)) 2); [lia|apply ends_ret]|]. destruct (Nat.eqb_spec (Nat.min 2 (length b - 2)) 2); [|lia]. cbn [negb]. rewrite !nth_byte_take, !nth_byte_drop by lia. cbn [Nat.add]. cbv zeta. destruct (_ <? 126); apply ends_ret.
  - destruct (nth_byte b 1 .& 127 =? 127).
    + destruct (read_exact_ends 8 w Hk) as (w' & E & K1 & K2 & K3). exists w'. split; [|rewrite K1, Hs, drop_drop; done]. eapply ends_bind; [exact E|]. cbn beta iota. rewrite Hs, length_take, length_drop.
      destruct (Nat.ltb_spec (length b) 10); [destruct (Nat.eqb_spec (Nat.min 8 (length b - 2)) 8); [lia|apply ends_ret]|]. destruct (Nat.eqb_spec (Nat.min 8 (length b - 2)) 8); [|lia]. cbn [negb]. cbv zeta. destruct (negb _); [apply ends_ret|]. destruct (_ <? 65536); apply ends_ret.
    + exists w. destruct (Nat.ltb_spec (length b) 2); [lia|]. split; [apply ends_ret|]. done.
Qed.

(** One round up to the payload. *)
Lemma frame_header w : stash_ok w -> let b := stream w in exists w1, read_on w w1 /\ stash_ok w1 /\
  match header_seen b with
  | None => ends (fun f => frame_round f w) (inr w1)
  | Some (inl code) => forall r, ends (fun f => refuse code f w1) r -> ends (fun f => frame_round f w) r
  | Some (inr (len, base)) => stream w1 = drop base b /\
      forall r, ends (fun f => payload_round (nth_byte b 0 .& 0x0F) (negb (nth_byte b 0 .& 0x80 =? 0)) len f w1) r -> ends (fun f => frame_round f w) r
  end.
Proof.
  intros Hk b. destruct (read_exact_ends 2 w Hk) as (w0 & E0 & S0 & K0 & R0). fold b in E0, S0. unfold header_seen. destruct (Nat.ltb_spec (length b) 2) as [Hl|Hl].
  { exists w0. split; [done|]. split; [done|]. eapply ends_bind; [exact E0|]. cbn beta iota. rewrite length_take. destruct (Nat.ltb_spec (Nat.min 2 (length b)) 2); [apply ends_ret|lia]. }
  assert (Hh : forall r, ends (fun f => (let fin := negb (nth_byte b 0 .& 0x80 =? 0) in let op := nth_byte b 0 .& 0x0F in let masked := negb (nth_byte b 1 .& 0x80 =? 0) in
    if negb (nth_byte b 0 .& 0x40 =? 0) || negb (nth_byte b 0 .& 0x20 =? 0) || negb (nth_byte b 0 .& 0x10 =? 0) then refuse 1002 f w0 else if negb masked then refuse 1002 f w0 else if negb (opcode_known op) then refuse 1002 f w0 else
    '(len, w) ← read_payload_len (nth_byte b 1 .& 0x7F) f w0; match len with Ended => leave w | Refused code => refuse code f w | Length payload_len =>
      if is_control_opcode op && (negb fin || (125 <? payload_len)) then refuse 1002 f w else if kMaxPayloadBytes <? payload_len then refuse 1009 f w else payload_round op fin payload_len f w end)) r -> ends (fun f => frame_round f w) r).
  { intros r Hr. eapply ends_bind; [exact E0|]. cbn beta iota. rewrite length_take. destruct (Nat.ltb_spec (Nat.min 2 (length b)) 2); [lia|]. rewrite !nth_byte_take by lia. exact Hr. }
  cbv zeta in Hh. unfold check_header. destruct (negb (nth_byte b 0 .& 64 =? 0) || negb (nth_byte b 0 .& 32 =? 0) || negb (nth_byte b 0 .& 16 =? 0)); [by exists w0|]. cbn [orb].
  destruct (nth_byte b 1 .& 128 =? 0); [by exists w0|]. cbn [orb negb] in Hh |- *. destruct (opcode_known _); [|by exists w0]. cbn [negb] in Hh |- *.
  destruct (read_payload_len_ends b w0 Hl K0 S0) as (w1 & E1 & S1 & K1 & R1). exists w1. split; [by eapply read_on_trans|]. split; [done|]. unfold length_seen in E1, S1.
  destruct (length b <? (header_sizes b).1)%nat; [apply Hh; eapply ends_bind; [exact E1|apply ends_ret]|].
  destruct (read_length b) as [[len base]|] eqn:El; [|intros r Hr; apply Hh; eapply ends_bind; [exact E1|exact Hr]]. specialize (S1 ltac:(done)).
  assert (Hb : (header_sizes b).1 = base). { unfold read_length in El. unfold header_sizes. cbn [fst]. repeat (case_match; try done); by injection El. }
  rewrite Hb in S1. rewrite negb_involutive in Hh. set (op := nth_byte b 0 .& 15) in *. set (fin := negb (nth_byte b 0 .& 128 =? 0)) in *.
  assert (Hg : forall r, ends (fun f => if is_control_opcode op && ((nth_byte b 0 .& 128 =? 0) || (125 <? len)) then refuse 1002 f w1 else if kMaxPayloadBytes <? len then refuse 1009 f w1 else payload_round op fin len f w1) r -> ends (fun f => frame_round f w) r).
  { intros r Hr. apply Hh. eapply ends_bind; [exact E1|exact Hr]. }
  revert Hg. clear Hh. destruct (is_control_opcode op && _); [done|]. destruct (_ <? len); done.
Qed.

(** *** Writing *)

Abbreviation ws_write := (ws_write (socket_io := descriptor_io weather)).
Abbreviation conn_sends := (conn_sends (socket_io := descriptor_io weather)).
Abbreviation co_send_frame := (co_send_frame (socket_io := descriptor_io weather)).
Abbreviation r_write := (write true flushed).
Abbreviation r_step := (process_step true true on_open_sends on_message_sends flushed).

(** The coroutine at the head of its loop and the reactor's connection with all
    the rest of the input in its buffer. *)
Record ws_alike (out : bytes) (w : WsCo) (h : WS) : Prop := {
  wa_phase : phase h = ReadingHeader;
  wa_handed : handed_off h = false;
  wa_open : conn_open h = true;
  wa_pending : output_pending h = false;
  wa_buffer : buffer h = stream w;
  wa_sent : sent_close h = co_sent_close w;
  wa_message : message_buffer h = co_message_buffer w;
  wa_opcode : current_message_opcode h = co_message_opcode w;
  wa_fragmented : fragmented h = co_fragmented w;
  wa_log : log h = ws_log w;
  wa_stash : stash_ok w;
  wa_out : outbox (inner (ws_sock w)) = out ++ ws_written (ws_log w) }.

Lemma alike_write out data w h : ws_alike out w h -> exists w1, ends (fun f => ws_write data f w) w1 /\ ws_alike out w1 (r_write data h) /\ closing (r_write data h) = closing h /\ stream w1 = stream w.
Proof.
  intros A. destruct (write_ends weather Hset Hsound data (ws_sock w)) as (k & E & Ki & Ko). exists (ws_emit (Wrote data) (set_ws_sock k w)).
  split; [eapply ends_bind; [exact E|apply ends_ret]|]. destruct A as [A1 A2 A3 A4 A5 A6 A7 A8 A9 A10 A11 A12]. unfold write. rewrite A3, A4. cbn [negb flushed]. assert (Es : stream (ws_emit (Wrote data) (set_ws_sock k w)) = stream w) by (unfold stream; cbn; by rewrite Ki).
  split; [|done]. split; try done; cbn [log emit set_flushes ws_log ws_emit set_ws_sock ws_sock buffer].
  - by rewrite A5, Es.
  - by rewrite A10.
  - rewrite Ko, A12, ws_written_app, <- app_assoc. unfold ws_written at 3. cbn. by rewrite app_nil_r.
Qed.

Lemma alike_sends out ss : Forall send_ok ss -> forall w h, ws_alike out w h -> exists w1, ends (fun f => conn_sends ss f w) w1 /\ ws_alike out w1 (sends true flushed ss h) /\ closing (sends true flushed ss h) = closing h /\ stream w1 = stream w.
Proof.
  induction 1 as [|s ss [H1 H2] Hss IH]; intros w h A; [exists w; split; [apply ends_ret|done]|].
  destruct (alike_write out (build_frame (send_opcode s) (send_payload s) (send_fin s)) w h A) as (w1 & E1 & A1 & C1 & S1). destruct (IH w1 _ A1) as (w2 & E2 & A2 & C2 & S2). exists w2.
  split; [eapply ends_bind; [exact E1|exact E2]|]. rewrite build_frame_serialize in * by done. split; [exact A2|]. split; [etrans; [exact C2|exact C1]|congruence].
Qed.

Lemma alike_send_frame out op payload code w h : 0 <= op < 16 -> #payload + 2 < 2 ^ 64 -> ws_alike out w h ->
  exists w1, ends (fun f => co_send_frame op payload code f w) w1 /\ ws_alike out w1 (send_frame true flushed op payload code h) /\ closing (send_frame true flushed op payload code h) = closing h /\ stream w1 = stream w.
Proof.
  intros Ho Hp A. unfold WsCoroutine.co_send_frame, send_frame, control_frame. destruct (_ && _).
  - set (p := _ :: _ :: payload). assert (Hl : #p < 2 ^ 64) by (subst p; cbn [length]; lia). rewrite <- build_frame_serialize by done. by apply alike_write.
  - rewrite <- build_frame_serialize by lia. by apply alike_write.
Qed.

(** *** One frame *)

(** The coroutine has left its loop and the reactor is closing. *)
Definition ws_over (out : bytes) (w : WsCo) (h : WS) : Prop := ws_exchange (ws_log w) = ws_exchange (log h) /\ outbox (inner (ws_sock w)) = out ++ ws_written (ws_log w).

Lemma closed_exchange h : ws_exchange (log (close_after_flush true h)) = ws_exchange (log h).
Proof.
  unfold close_after_flush, close. destruct (negb (conn_open h)); [done|]. destruct (output_pending h); [done|]. destruct (conn_open h); [|done]. unfold on_closed. cbn.
  destruct (ws_open h); cbn; destruct (notify_closed h); cbn; rewrite ?ws_exchange_app; cbn; by rewrite ?app_nil_r.
Qed.

Lemma close_alike_over out w h : ws_alike out w h -> ws_over out w (close_after_flush true h).
Proof. intros A. split; [|apply A]. by rewrite closed_exchange, (wa_log _ _ _ A). Qed.

Lemma alike_set_closing out w h c : ws_alike out w h -> ws_alike out w (set_closing c h).
Proof. by intros []. Qed.

Lemma alike_set_sent out w h : ws_alike out w h -> ws_alike out (set_co_sent_close true w) (set_sent_close true h).
Proof. by intros []. Qed.

Lemma alike_refuse out code w h : ws_alike out w h -> exists w1, ends (fun f => refuse code f w) (inr w1) /\ ws_over out w1 (fail_close true flushed code h).
Proof.
  intros A. apply (alike_set_closing _ _ _ true) in A. unfold WsCoroutine.refuse, co_fail_close, fail_close. pose proof (wa_sent _ _ _ A) as Es. cbn [sent_close set_closing] in Es |- *. rewrite Es. destruct (co_sent_close w).
  - exists w. split; [apply ends_ret|]. by apply close_alike_over.
  - apply alike_set_sent in A. destruct (alike_send_frame out Close [] code _ _ ltac:(done) ltac:(done) A) as (w1 & E1 & A1 & _). exists w1. split; [|by apply close_alike_over]. eapply ends_bind; [exact E1|apply ends_ret].
Qed.

(** What a frame leads to, next to [handle_frame]. *)
Definition handled (out : bytes) (x : bytes) (r : WsCo + WsCo) (h : WS * bool) : Prop :=
  if h.2 then exists w1, r = inl w1 /\ ws_alike out w1 h.1 /\ closing h.1 = false /\ stream w1 = x else exists w1, r = inr w1 /\ ws_over out w1 h.1 /\ closing h.1 = true.

Lemma control_alike out op payload fin w h : is_control_opcode op = true -> #payload + 2 < 2 ^ 64 -> closing h = false -> ws_alike out w h ->
  exists r, ends (fun f => control_round (socket_io := descriptor_io weather) op payload f w) r /\ handled out (stream w) r (handle_frame true on_message_sends flushed op fin payload h).
Proof.
  intros Hc Hp Hcl A. unfold handle_frame. rewrite Hc. unfold control_round. destruct (op =? Close).
  - rewrite (wa_sent _ _ _ A). destruct (co_sent_close w).
    + exists (inr w). split; [apply ends_ret|]. exists w. split; [done|]. split; [apply close_alike_over; by apply alike_set_closing|by apply close_after_flush_closing].
    + destruct (alike_send_frame out Close payload 0 _ _ ltac:(done) Hp (alike_set_sent _ _ _ A)) as (w1 & E1 & A1 & _). exists (inr w1). split; [eapply ends_bind; [exact E1|apply ends_ret]|].
      exists w1. split; [done|]. split; [apply close_alike_over; by apply alike_set_closing|by apply close_after_flush_closing].
  - destruct (op =? Ping); [|exists (inl w); split; [apply ends_ret|by exists w]].
    destruct (alike_send_frame out Pong payload 0 _ _ ltac:(done) Hp A) as (w1 & E1 & A1 & C1 & S1). exists (inl w1). split; [eapply ends_bind; [exact E1|apply ends_ret]|]. exists w1. split_and!; try done. cbn [fst]. congruence.
Qed.

Lemma deliver_alike out fin w h : closing h = false -> ws_alike out w h -> exists w1, ends (fun f => deliver_round (socket_io := descriptor_io weather) on_message_sends fin f w) (inl w1) /\ stream w1 = stream w /\
  let h1 := if fin then let msg := mkMessage (current_message_opcode h) (message_buffer h) in let h1 := emit (OnMessage msg) (set_message_buffer [] (set_fragmented false h)) in sends true flushed (on_message_sends (log h1) msg) h1 else h in
  ws_alike out w1 h1 /\ closing h1 = false.
Proof.
  intros Hc A. unfold deliver_round. destruct fin; [|exists w; split; [apply ends_ret|done]]. cbv zeta. pose proof A as [A1 A2 A3 A4 A5 A6 A7 A8 A9 A10 A11 A12]. rewrite A7, A8. set (msg := mkMessage _ _).
  set (w0 := ws_emit (OnMessage msg) (set_co_fragmented false w)). set (h0 := emit (OnMessage msg) (set_message_buffer [] (set_fragmented false h))). assert (A0 : ws_alike out (set_co_message_buffer [] w0) h0).
  { split; try done; cbn [log ws_log h0 w0 emit ws_emit set_message_buffer set_fragmented set_co_fragmented set_co_message_buffer ws_sock]; [by rewrite A10|]. rewrite A12, ws_written_app. by rewrite app_nil_r. }
  assert (El : log h0 = ws_log w0) by apply (wa_log _ _ _ A0). rewrite El.
  assert (Hsw : forall ss f w, conn_sends ss f (set_co_message_buffer [] w) = set_co_message_buffer [] <$> conn_sends ss f w).
  { clear. induction ss as [|s ss IH]; intros f w; [done|]. cbn [WsCoroutine.conn_sends]. unfold conn_send, WsCoroutine.ws_write. cbn [ws_sock set_co_message_buffer]. destruct (async_write _ _ _) as [[left k]|]; [|done]. exact (IH f (ws_emit _ (set_ws_sock k w))). }
  destruct (alike_sends out (on_message_sends (ws_log w0) msg) (Hmessage _ _) _ h0 A0) as (w1 & E1 & A1' & C1 & S1). exists w1. split; [|split; [rewrite S1; done|split; [done|rewrite C1; done]]].
  destruct E1 as [f0 E1]. exists f0. intros f Hf. specialize (E1 f Hf). rewrite Hsw in E1. destruct (conn_sends _ f w0) as [w2|]; [|done]. cbn in E1 |- *. by injection E1 as <-.
Qed.

Lemma data_alike out op fin payload w h : is_control_opcode op = false -> closing h = false -> ws_alike out w h ->
  exists r, ends (fun f => data_round (socket_io := descriptor_io weather) on_message_sends op fin payload f w) r /\ handled out (stream w) r (handle_frame true on_message_sends flushed op fin payload h).
Proof.
  intros Hop Hc A. unfold handle_frame. rewrite Hop. unfold data_round, handle_data. pose proof A as [A1 A2 A3 A4 A5 A6 A7 A8 A9 A10 A11 A12]. rewrite A9, A7.
  assert (Hrefuse : forall code, exists r, ends (fun f => refuse code f w) r /\ handled out (stream w) r (fail_close true flushed code h, false)).
  { intros code. destruct (alike_refuse out code w h A) as (w1 & E1 & O1). exists (inr w1). split; [done|]. exists w1. split; [done|]. split; [done|apply fail_close_closing]. }
  assert (Hdeliver : forall w0 h0, ws_alike out w0 h0 -> closing h0 = false -> stream w0 = stream w -> exists r, ends (fun f => deliver_round (socket_io := descriptor_io weather) on_message_sends fin f w0) r /\
    handled out (stream w) r (let st := if fin then let msg := mkMessage (current_message_opcode h0) (message_buffer h0) in let st := set_message_buffer [] (set_fragmented false h0) in let st := emit (OnMessage msg) st in sends true flushed (on_message_sends (log st) msg) st else h0 in (st, negb (closing st)))).
  { intros w0 h0 A0 C0 S0. destruct (deliver_alike out fin w0 h0 C0 A0) as (w1 & E1 & S1 & A1' & C1). exists (inl w1). split; [done|]. cbv zeta in *. unfold handled. cbn [fst snd]. rewrite C1. cbn [negb]. exists w1. split; [done|]. split; [done|]. split; [done|congruence]. }
  destruct (op =? Continuation); cbn [negb].
  - destruct (co_fragmented w) eqn:Ef; cbn [negb]; [|apply Hrefuse]. destruct (_ <? _); [apply Hrefuse|]. apply Hdeliver; [|done|done]. split; try done. cbn. congruence.
  - destruct (co_fragmented w) eqn:Ef; [apply Hrefuse|]. apply Hdeliver; [|done|done]. by split.
Qed.

(** The reactor's connection behind the header, and what it makes of the
    payload. *)
Definition behind (h : WS) (key : Z) (fin : bool) (op len : Z) (rest : bytes) : WS :=
  set_phase ReadingPayload (set_buffer rest (set_pending_payload_len len (set_pending_opcode op (set_pending_fin fin (set_pending_masking_key key h))))).

Definition payload_alike_at (h : WS) (key : Z) (fin : bool) (op len : Z) (rest : bytes) : WS :=
  set_phase ReadingHeader (set_buffer (drop (Z.to_nat len) rest) (behind h key fin op len rest)).

Lemma reactor_payload h key fin op len rest : closing h = false -> handed_off h = false ->
  r_step (behind h key fin op len rest) = if #rest <? len then inr (behind h key fin op len rest) else
    let r := handle_frame true on_message_sends flushed op fin (mask_payload key 0 (take (Z.to_nat len) rest)) (payload_alike_at h key fin op len rest) in if r.2 then inl r.1 else inr r.1.
Proof.
  intros Hc Hh. unfold process_step. cbn [behind closing handed_off set_phase set_buffer set_pending_payload_len set_pending_opcode set_pending_fin set_pending_masking_key phase]. rewrite Hc, Hh. cbn [orb]. unfold try_read_payload.
  cbn [buffer behind set_phase set_buffer pending_payload_len set_pending_payload_len pending_masking_key set_pending_masking_key set_pending_opcode set_pending_fin pending_opcode pending_fin].
  destruct (#rest <? len); [done|]. fold (payload_alike_at h key fin op len rest). destruct (handle_frame _ _ _ _ _ _ _) as [s []]; done.
Qed.

Lemma alike_read out w w1 h : ws_alike out w h -> stash_ok w1 -> read_on w w1 -> ws_alike out w1 (set_buffer (stream w1) h).
Proof. intros [A1 A2 A3 A4 A5 A6 A7 A8 A9 A10 A11 A12] Hk (R1 & R2 & R3 & R4 & R5 & R6). split; cbn; try done; try congruence. Qed.

Lemma alike_payload out w w1 h key fin op len rest : ws_alike out w h -> stash_ok w1 -> read_on w w1 -> stream w1 = drop (Z.to_nat len) rest -> ws_alike out w1 (payload_alike_at h key fin op len rest).
Proof. intros A Hk Hr Hs. destruct (alike_read out w w1 h A Hk Hr) as [A1 A2 A3 A4 A5 A6 A7 A8 A9 A10 A11 A12]. split; try done. Qed.

(** The payload's part of a round. *)
Lemma payload_agrees out w h op fin len : ws_alike out w h -> closing h = false -> 0 <= len <= kMaxPayloadBytes ->
  let key := parse_key (take 4 (stream w)) in let rest := drop 4 (stream w) in
  exists r, ends (fun f => payload_round op fin len f w) r /\
  if (length (stream w) <? 4)%nat || (#rest <? len) then exists w1, r = inr w1 /\ read_on w w1
  else handled out (drop (Z.to_nat len) rest) r (handle_frame true on_message_sends flushed op fin (mask_payload key 0 (take (Z.to_nat len) rest)) (payload_alike_at h key fin op len rest)).
Proof.
  intros A Hc Hl key rest. destruct (read_exact_ends 4 w (wa_stash _ _ _ A)) as (w1 & E1 & S1 & K1 & R1). fold rest in S1. destruct (Nat.ltb_spec (length (stream w)) 4) as [H4|H4].
  { exists (inr w1). split; [|by exists w1]. eapply ends_bind; [exact E1|]. cbn beta iota. rewrite length_take. destruct (Nat.eqb_spec (Nat.min 4 (length (stream w))) 4); [lia|apply ends_ret]. }
  destruct (read_exact_ends (Z.to_nat len) w1 K1) as (w2 & E2 & S2 & K2 & R2). rewrite S1 in E2, S2. pose proof (read_on_trans _ _ _ R1 R2) as R12. cbn [orb].
  assert (Hgo : forall r, ends (fun f => if negb (#(take (Z.to_nat len) rest) =? len) then leave w2 else if is_control_opcode op then control_round (socket_io := descriptor_io weather) op (mask_payload key 0 (take (Z.to_nat len) rest)) f w2 else data_round (socket_io := descriptor_io weather) on_message_sends op fin (mask_payload key 0 (take (Z.to_nat len) rest)) f w2) r -> ends (fun f => payload_round op fin len f w) r).
  { intros r Hr. eapply ends_bind; [exact E1|]. cbn beta iota. rewrite length_take. destruct (Nat.eqb_spec (Nat.min 4 (length (stream w))) 4); [|lia]. cbn [negb]. eapply ends_bind; [exact E2|exact Hr]. }
  revert Hgo. rewrite length_take. destruct (Z.ltb_spec (#rest) len) as [Hr|Hr]; intros Hgo.
  - exists (inr w2). split; [|by exists w2]. apply Hgo. destruct (Z.eqb_spec (Z.of_nat (Nat.min (Z.to_nat len) (length rest))) len); [lia|]. apply ends_ret.
  - assert (A2 : ws_alike out w2 (payload_alike_at h key fin op len rest)) by (by eapply alike_payload). set (p := mask_payload key 0 (take (Z.to_nat len) rest)) in *. assert (Hp : #p + 2 < 2 ^ 64) by (subst p; rewrite mask_payload_length, length_take; unfold kMaxPayloadBytes in Hl; lia).
    assert (Hx : exists r, ends (fun f => if is_control_opcode op then control_round (socket_io := descriptor_io weather) op p f w2 else data_round (socket_io := descriptor_io weather) on_message_sends op fin p f w2) r /\ handled out (stream w2) r (handle_frame true on_message_sends flushed op fin p (payload_alike_at h key fin op len rest))).
    { destruct (is_control_opcode op) eqn:Eo; [by apply control_alike|by apply data_alike]. }
    destruct Hx as (r & Er & Hh). rewrite S2 in Hh. exists r. split; [|done]. apply Hgo. destruct (Z.eqb_spec (Z.of_nat (Nat.min (Z.to_nat len) (length rest))) len); [done|lia].
Qed.

(** *** The loop *)

(** The input ends inside a header the coroutine has refused and the reactor has
    not. *)
Definition cut_short (h : WS) (extra : list Event) : Prop :=
  closing h = false /\ phase h = ReadingHeader /\ (2 <= length (buffer h) < 14)%nat /\ exists code, extra = [Wrote (serialize (control_frame Close [] code))].

Definition ws_agree (out : bytes) (w : WsCo) (h : WS) : Prop := exists w' n h' extra, loops frame_round w w' /\ loop r_step n h = Some h' /\
  ws_exchange (ws_log w') = ws_exchange (log h') ++ extra /\ outbox (inner (ws_sock w')) = out ++ ws_written (ws_log w') /\ (extra = [] \/ cut_short h' extra).

Lemma agree_now out w w' h h' extra : ends (fun f => frame_round f w) (inr w') -> r_step h = inr h' -> ws_exchange (ws_log w') = ws_exchange (log h') ++ extra -> outbox (inner (ws_sock w')) = out ++ ws_written (ws_log w') ->
  (extra = [] \/ cut_short h' extra) -> ws_agree out w h.
Proof. intros E1 E2 H1 H2 H3. exists w', 1%nat, h', extra. split; [by apply loops_done|]. cbn [loop]. by rewrite E2. Qed.

Lemma agree_left out w w' h h' : ws_alike out w h -> read_on w w' -> ends (fun f => frame_round f w) (inr w') -> r_step h = inr h' -> log h' = log h -> ws_agree out w h.
Proof.
  intros A (R1 & _ & _ & _ & _ & R6) E1 E2 El. eapply (agree_now out w w' h h' []); [done|done| | |by left].
  - by rewrite R6, El, (wa_log _ _ _ A), app_nil_r.
  - rewrite R1, R6. apply A.
Qed.

Lemma header_length b len base : check_header b = inr (len, base) -> 0 <= len <= kMaxPayloadBytes.
Proof.
  intros E. destruct (check_header_bounded _ _ _ E) as [Hm _]. split; [|done]. assert (El : exists n, read_length b = Some (len, n)).
  { unfold check_header in E. destruct (_ || _); [done|]. destruct (_ =? 0); [done|]. destruct (negb _); [done|]. destruct (read_length b) as [[l n]|]; [|done]. destruct (_ && _); [done|]. destruct (_ <? l); [done|]. injection E as -> ->. by exists base. }
  destruct El as [n El]. unfold read_length in El. cbv zeta in El. destruct (_ =? 126); [destruct (Z.ltb_spec ((nth_byte b 2 .<< 8) .| nth_byte b 3) 126); [done|]; injection El; lia|].
  destruct (_ =? 127); [destruct (negb _); [done|]; destruct (Z.ltb_spec (be_fold 0 (take 8 (drop 2 b))) 65536); [done|]; injection El; lia|]. injection El as <- _. apply Z.land_nonneg. by right.
Qed.

Lemma fail_close_log code h : conn_open h = true -> output_pending h = false ->
  ws_exchange (log (fail_close true flushed code h)) = ws_exchange (log h) ++ (if sent_close h then [] else [Wrote (serialize (control_frame Close [] code))]).
Proof.
  intros Ho Hp. unfold fail_close. cbv zeta. rewrite closed_exchange. cbn [sent_close set_closing]. destruct (sent_close h); [by rewrite app_nil_r|].
  unfold send_frame. set (bs := serialize _). unfold write. cbn [conn_open set_sent_close set_closing output_pending]. rewrite Ho, Hp. cbn [negb flushed log emit set_flushes set_sent_close set_closing]. by rewrite ws_exchange_app.
Qed.

Lemma refused_agree out w w1 h code : ws_alike out w h -> closing h = false -> stash_ok w1 -> read_on w w1 -> header_seen (stream w) = Some (inl code) ->
  (forall r, ends (fun f => refuse code f w1) r -> ends (fun f => frame_round f w) r) -> ws_agree out w h.
Proof.
  intros A Hc Hk Hr Hs Hgo. pose proof (alike_read out w w1 h A Hk Hr) as A1. destruct (alike_refuse out code w1 _ A1) as (w2 & E2 & O1 & O2). rewrite fail_close_log in O1 by apply A1. cbn [log set_buffer sent_close] in O1.
  assert (H2 : (2 <= length (stream w))%nat). { unfold header_seen in Hs. by destruct (Nat.ltb_spec (length (stream w)) 2). }
  assert (Es : r_step h = inr (if (length (stream w) <? (header_sizes (stream w)).2)%nat then h else fail_close true flushed code h)).
  { unfold process_step. rewrite Hc, (wa_handed _ _ _ A), (wa_phase _ _ _ A). cbn [orb]. unfold try_read_header. rewrite (wa_buffer _ _ _ A). destruct (Nat.ltb_spec (length (stream w)) 2); [lia|].
    pose proof (header_seen_whole (stream w) H2) as Hw. destruct (header_sizes (stream w)) as [base full]. cbn [snd] in *. destruct (Nat.ltb_spec (length (stream w)) full); [done|]. rewrite Hw in Hs by done. injection Hs as ->. done. }
  destruct (Nat.ltb_spec (length (stream w)) (header_sizes (stream w)).2) as [Hl|Hl].
  - eapply (agree_now out w w2 h h); [by apply Hgo|done|exact O1|done|]. destruct (sent_close h); [by left|]. right. split; [done|]. split; [apply A|]. rewrite (wa_buffer _ _ _ A). pose proof (header_sizes_small (stream w)). split; [lia|by exists code].
  - eapply (agree_now out w w2 h _ []); [by apply Hgo|exact Es| |done|by left]. by rewrite app_nil_r, fail_close_log by apply A.
Qed.

Lemma reactor_header h b : closing h = false -> handed_off h = false -> phase h = ReadingHeader -> buffer h = b ->
  r_step h = if (length b <? 2)%nat || (length b <? (header_sizes b).2)%nat then inr h else
    match check_header b with
    | inl code => inr (fail_close true flushed code h)
    | inr (len, base) => inl (behind h (parse_key (drop base b)) (negb (nth_byte b 0 .& 0x80 =? 0)) (nth_byte b 0 .& 0x0F) len (drop (base + 4) b))
    end.
Proof.
  intros Hc Hh Hp Hb. unfold process_step. rewrite Hc, Hh, Hp. cbn [orb]. unfold try_read_header. rewrite Hb. destruct (length b <? 2)%nat; [done|]. cbn [orb]. pose proof (check_header_sizes b) as Hcs. destruct (header_sizes b) as [base full]. cbn [snd].
  destruct (length b <? full)%nat; [done|]. destruct (check_header b) as [code|[len base']]; [done|]. specialize (Hcs len base' eq_refl). by injection Hcs as -> ->.
Qed.

Lemma header_none_waits b : header_seen b = None -> (length b <? 2)%nat || (length b <? (header_sizes b).2)%nat = true.
Proof.
  unfold header_seen. destruct (length b <? 2)%nat; [done|]. destruct (_ || _ || _); [done|]. destruct (Nat.ltb_spec (length b) (header_sizes b).1); [|done]. intros _. apply Nat.ltb_lt. unfold header_sizes in *. cbn [fst snd] in *. lia.
Qed.

(** The rounds go on together. *)
Lemma agree_more out w w1 h h0 h1 : ends (fun f => frame_round f w) (inl w1) -> r_step h = inl h0 -> r_step h0 = inl h1 -> ws_agree out w1 h1 -> ws_agree out w h.
Proof.
  intros E1 E2 E3 (w' & n & h' & extra & K1 & K2 & K3). exists w', (S (S n)), h', extra. split; [by eapply loops_next|]. split; [|done]. cbn [loop]. by rewrite E2, E3.
Qed.

Lemma agree_last out w w1 h h0 h1 : ends (fun f => frame_round f w) (inr w1) -> r_step h = inl h0 -> r_step h0 = inr h1 -> ws_over out w1 h1 -> ws_agree out w h.
Proof.
  intros E1 E2 E3 [K1 K2]. exists w1, 2%nat, h1, []. split; [by apply loops_done|]. split; [cbn [loop]; by rewrite E2, E3|]. split; [by rewrite app_nil_r|]. split; [done|by left].
Qed.

Lemma accepted_agree out w w1 h len base : ws_alike out w h -> closing h = false -> stash_ok w1 -> read_on w w1 -> stream w1 = drop base (stream w) -> header_seen (stream w) = Some (inr (len, base)) ->
  (forall r, ends (fun f => payload_round (nth_byte (stream w) 0 .& 0x0F) (negb (nth_byte (stream w) 0 .& 0x80 =? 0)) len f w1) r -> ends (fun f => frame_round f w) r) ->
  (forall w2 h2, ws_alike out w2 h2 -> closing h2 = false -> (length (stream w2) < length (stream w))%nat -> ws_agree out w2 h2) -> ws_agree out w h.
Proof.
  intros A Hc Hk Hr Hs Hh Hgo IH. destruct (header_seen_base _ _ _ Hh) as [Hch [Hb1 Hb2]]. set (b := stream w) in *. set (op := nth_byte b 0 .& 15) in *. set (fin := negb (nth_byte b 0 .& 128 =? 0)) in *.
  pose proof (alike_read out w w1 h A Hk Hr) as A1. destruct (payload_agrees out w1 _ op fin len A1 Hc (header_length _ _ _ Hch)) as (r & Er & Hp).
  pose proof (reactor_header h b Hc (wa_handed _ _ _ A) (wa_phase _ _ _ A) (wa_buffer _ _ _ A)) as Eh. rewrite Hch, (check_header_sizes _ _ _ Hch) in Eh. cbn [snd] in Eh. fold op in Eh. fold fin in Eh. rewrite Hs in Hp. rewrite length_drop, drop_drop in Hp.
  destruct (Nat.ltb_spec (length b) 2); [lia|]. cbn [orb] in Eh. destruct (Nat.ltb_spec (length b) (base + 4)) as [H4|H4].
  { destruct (Nat.ltb_spec (length b - base) 4); [|lia]. cbn [orb] in Hp. destruct Hp as (w2 & -> & R2). eapply (agree_left out w w2 h h); [done|by eapply read_on_trans|by apply Hgo|done|done]. }
  destruct (Nat.ltb_spec (length b - base) 4); [lia|]. cbn [orb] in Hp. rewrite <- parse_key_take in Hp. pose proof (reactor_payload h (parse_key (drop base b)) fin op len (drop (base + 4) b) Hc (wa_handed _ _ _ A)) as Ep.
  set (rest := drop (base + 4) b) in *. set (key := parse_key (drop base b)) in *. destruct (#rest <? len) eqn:El.
  { destruct Hp as (w2 & -> & R2). pose proof (read_on_trans _ _ _ Hr R2) as (Q1 & _ & _ & _ & _ & Q6). eapply agree_last; [by apply Hgo|exact Eh|exact Ep|]. split; [by rewrite Q6, <- (wa_log _ _ _ A)|]. rewrite Q1, Q6. apply A. }
  change (payload_alike_at (set_buffer (drop base b) h) key fin op len rest) with (payload_alike_at h key fin op len rest) in Hp. cbv zeta in Ep. unfold handled in Hp.
  destruct (handle_frame _ _ _ _ _ _ _) as [h2 more]. cbn [fst snd] in Hp, Ep. destruct more.
  - destruct Hp as (w2 & -> & A2 & C2 & S2). eapply agree_more; [by apply Hgo|exact Eh|exact Ep|]. apply IH; [done|done|]. rewrite S2. subst rest. rewrite !length_drop. lia.
  - destruct Hp as (w2 & -> & O2 & C2). eapply agree_last; [by apply Hgo|exact Eh|exact Ep|done].
Qed.

Lemma frames_agree out m : forall w h, (length (stream w) < m)%nat -> ws_alike out w h -> closing h = false -> ws_agree out w h.
Proof.
  induction m as [|m IH]; intros w h Hm A Hc; [lia|]. destruct (frame_header w (wa_stash _ _ _ A)) as (w1 & R1 & K1 & Hh). destruct (header_seen (stream w)) as [[code|[len base]]|] eqn:E.
  - by eapply refused_agree.
  - destruct Hh as [S1 Hgo]. eapply (accepted_agree out w w1 h len base); try done. intros w2 h2 A2 C2 Hl. apply IH; [lia|done|done].
  - eapply (agree_left out w w1 h h); try done. rewrite (reactor_header h (stream w) Hc (wa_handed _ _ _ A) (wa_phase _ _ _ A) (wa_buffer _ _ _ A)). by rewrite (header_none_waits _ E).
Qed.

(** *** Sniffing and the handshake *)

Abbreviation sniff_step := (sniff_step (socket_io := descriptor_io weather)).

Lemma find_sub_prefix pat s x : forall i, find_sub pat (s ++ x) = Some i -> (i + length pat <= length s)%nat -> find_sub pat s = Some i.
Proof.
  induction s as [|c s IH]; intros i H Hl.
  - cbn [length] in Hl. destruct pat; [|cbn [length] in Hl; lia]. destruct i; [done|lia].
  - change (find_sub pat (c :: s)) with (if bool_decide (take (length pat) (c :: s) = pat) then Some O else S <$> find_sub pat s). cbn [app] in H.
    change (find_sub pat (c :: s ++ x)) with (if bool_decide (take (length pat) (c :: s ++ x) = pat) then Some O else S <$> find_sub pat (s ++ x)) in H. change (c :: s ++ x) with ((c :: s) ++ x) in H. rewrite take_app_le in H by lia.
    destruct (bool_decide _); [done|]. destruct (find_sub pat (s ++ x)) as [j|] eqn:E; [|done]. injection H as <-. cbn [length] in Hl. by rewrite (IH j) by (done || lia).
Qed.

(** A round that reads on. *)
Lemma sniff_more buf (k : Sock) : parse_handshake buf = None -> #buf < kMaxHandshakeBytes -> exists bs k1,
  ends (fun f => sniff_step f (mkSniffed buf k None)) (match bs with [] => inr (mkSniffed buf k1 None) | _ => inl (mkSniffed (buf ++ bs) k1 None) end) /\
  inbox (inner k) = bs ++ inbox (inner k1) /\ outbox (inner k1) = outbox (inner k) /\ (bs = [] -> inbox (inner k) = []).
Proof.
  intros Hn Hl. destruct (read_ends weather Hset Hsound kSniffRead k ltac:(unfold kSniffRead; lia)) as (bs & k1 & Er & Ki & Ko & _ & Ke). exists bs, k1. split; [|done].
  eapply ends_ext; [intros f; unfold WsCoroutine.sniff_step; cbn [sn_buffer sn_sock]; rewrite Hn; destruct (Z.ltb_spec (#buf) kMaxHandshakeBytes); [reflexivity|lia]|]. eapply ends_bind; [exact Er|]. cbn. destruct bs; apply ends_ret.
Qed.

Lemma sniff_loops x hs i : find_sub terminator x = Some i -> Z.of_nat i + 4 <= kMaxHandshakeBytes -> parse_handshake x = Some hs -> forall m buf k, (length (inbox (inner k)) < m)%nat -> buf ++ inbox (inner k) = x ->
  exists buf' k', loops sniff_step (mkSniffed buf k None) (mkSniffed buf' k' (Some hs)) /\ buf' ++ inbox (inner k') = x /\ find_sub terminator buf' = Some i /\ outbox (inner k') = outbox (inner k).
Proof.
  intros Hi Hmax Hp. induction m as [|m IH]; intros buf k Hm Hx; [lia|]. destruct (find_sub terminator buf) as [j|] eqn:Ej.
  - assert (j = i). { destruct (find_sub_app _ _ (inbox (inner k)) _ Ej) as [E _]. rewrite Hx in E. congruence. } subst j. exists buf, k. split; [|done]. apply loops_done. eapply ends_ext; [|apply ends_ret]. intros f. unfold WsCoroutine.sniff_step. cbn [sn_buffer sn_sock].
    rewrite <- Hx, (parse_handshake_app _ _ _ Ej) in Hp. by rewrite Hp.
  - assert (Hn : parse_handshake buf = None) by (unfold parse_handshake; by rewrite Ej). assert (Hlt : (length buf < i + 4)%nat).
    { destruct (Nat.lt_ge_cases (length buf) (i + 4)) as [|Hge]; [done|]. rewrite <- Hx in Hi. rewrite (find_sub_prefix _ _ _ _ Hi) in Ej by done. done. }
    destruct (sniff_more buf k Hn ltac:(lia)) as (bs & k1 & Es & Ki & Ko & Ke).
    destruct bs as [|b bs0] eqn:Eb; [rewrite (Ke eq_refl), app_nil_r in Hx; congruence|]. rewrite <- Eb in *. rewrite Eb in Es. rewrite <- Eb in Es. assert (Hb : (0 < length bs)%nat) by (rewrite Eb; cbn; lia).
    rewrite Ki, app_assoc in Hx. rewrite Ki, length_app in Hm. destruct (IH (buf ++ bs) k1 ltac:(lia) Hx) as (buf' & k' & K1 & K2 & K3 & K4). exists buf', k'. split; [by eapply loops_next|]. split; [done|]. split; [done|congruence].
Qed.

Lemma alike_open out w h : ws_alike out w h -> ws_alike out (ws_emit OnOpen w) (emit OnOpen (set_ws_open true h)).
Proof. intros [A1 A2 A3 A4 A5 A6 A7 A8 A9 A10 A11 A12]. split; try done; cbn [log emit set_ws_open ws_log ws_emit ws_sock]; [by rewrite A10|]. by rewrite A12, ws_written_app, app_nil_r. Qed.

(** The coroutine from the handshake on, and the reactor that has sniffed it. *)
Lemma serve_websocket_ends req leftover (k : Sock) h : phase h = ReadingHeader -> handed_off h = false -> conn_open h = true -> output_pending h = false -> sent_close h = false -> message_buffer h = [] ->
  current_message_opcode h = Continuation -> fragmented h = false -> log h = [] -> closing h = false -> buffer h = leftover ++ inbox (inner k) ->
  exists w n h' extra, ends (fun f => serve_websocket (socket_io := descriptor_io weather) on_open_sends on_message_sends (fun _ => []) req leftover f k) (ws_emit OnClose w) /\
    loop r_step n (greet true on_open_sends flushed req h) = Some h' /\ ws_exchange (ws_log w) = ws_exchange (log h') ++ extra /\
    outbox (inner (ws_sock w)) = outbox (inner k) ++ ws_written (ws_log w) /\ (extra = [] \/ cut_short h' extra).
Proof.
  intros H1 H2 H3 H4 H5 H6 H7 H8 H9 H10 H11. assert (A0 : ws_alike (outbox (inner k)) (mkWsCo k leftover 0 false [] Continuation false []) h) by (split; try done; [unfold stash_ok; cbn; lia|cbn; by rewrite app_nil_r]).
  unfold greet. set (resp := switching_response _). destruct (alike_write _ resp _ _ A0) as (w1 & E1 & A1 & C1 & S1). apply alike_open in A1. cbv zeta. rewrite (wa_log _ _ _ A1). destruct (alike_sends _ _ (Hopen (ws_log (ws_emit OnOpen w1))) _ _ A1) as (w2 & E2 & A2 & C2 & S2).
  destruct (frames_agree _ (S (length (stream w2))) w2 _ ltac:(lia) A2) as (w' & n & h' & extra & K1 & K2 & K3 & K4 & K5); [rewrite C2; cbn [closing emit set_ws_open]; rewrite C1; done|].
  exists w', n, h', extra. split; [|done]. eapply ends_bind; [exact E1|]. eapply ends_bind; [exact E2|]. eapply ends_bind; [apply loops_end; exact K1|]. apply ends_ret.
Qed.

(** *** HTTP requests *)

Lemma sniff_ends x : (forall req, parse_handshake x = Some req -> is_upgrade req = false) -> forall m buf k, (length (inbox (inner k)) < m)%nat -> buf ++ inbox (inner k) = x ->
  exists s, loops sniff_step (mkSniffed buf k None) s /\ sn_buffer s ++ inbox (inner (sn_sock s)) = x /\ (length buf <= length (sn_buffer s))%nat /\ outbox (inner (sn_sock s)) = outbox (inner k) /\
    match sn_handshake s with Some req => is_upgrade req = false | None => True end.
Proof.
  intros Hup. induction m as [|m IH]; intros buf k Hm Hx; [lia|]. destruct (parse_handshake buf) as [req|] eqn:Ep.
  - exists (mkSniffed buf k (Some req)). split; [|split; [done|split; [done|split; [done|]]]]; cbn [sn_handshake].
    + apply loops_done. eapply ends_ext; [|apply ends_ret]. intros f. unfold WsCoroutine.sniff_step. cbn [sn_buffer sn_sock]. by rewrite Ep.
    + apply Hup. rewrite <- Hx, <- Ep. unfold parse_handshake in Ep. destruct (find_sub terminator buf) as [i|] eqn:Ei; [|done]. by eapply parse_handshake_app.
  - destruct (Z.ltb_spec (#buf) kMaxHandshakeBytes) as [Hl|Hl].
    + destruct (sniff_more buf k Ep Hl) as (bs & k1 & Es & Ki & Ko & _).
      rewrite Ki in Hx, Hm. destruct bs as [|b bs0] eqn:Eb; [exists (mkSniffed buf k1 None); by split_and!; try done; apply loops_done|]. rewrite <- Eb in *. rewrite Eb in Es. rewrite <- Eb in Es. assert (Hb : (0 < length bs)%nat) by (rewrite Eb; cbn; lia).
      rewrite app_assoc in Hx. rewrite length_app in Hm. destruct (IH (buf ++ bs) k1 ltac:(lia) Hx) as (s & K1 & K2 & K3 & K4 & K5). exists s. split; [by eapply loops_next|]. split; [done|]. rewrite length_app in K3. split; [lia|]. split; [congruence|done].
    + exists (mkSniffed buf k None). split_and!; try done. apply loops_done. eapply ends_ext; [|apply ends_ret]. intros f. unfold WsCoroutine.sniff_step. cbn [sn_buffer sn_sock]. rewrite Ep. destruct (Z.ltb_spec (#buf) kMaxHandshakeBytes); [lia|done].
Qed.

(** ** Properties *)

Abbreviation dispatcher := (fun order answer fuel k => coroutine_dispatcher (socket_io := descriptor_io weather) order (fun es r => Some (answer es r)) true true on_open_sends on_message_sends (fun _ => []) fuel k).

(** C21: The coroutine and the reactor are the same WebSocket server.  A client
    sends an upgrade request whose head ends within 8192 bytes, and anything
    after it: frames, fragments or garbage, in any pieces.  Over a descriptor
    that delivers and takes any part at any time as long as it neither breaks
    nor blocks for ever, the coroutine ends, it has told the application of
    the same opening and the same messages and written the same frames in the
    same order as the reactor's connection, its bytes are on the wire in that
    order, and it tells the application of the closing last.  There is one
    difference: when the input ends inside a header whose first bytes are
    wrong already, the coroutine has answered with a Close frame and the
    reactor still waits for the rest of the header. *)
Theorem ws_coroutine_equivalent order answer k hs i : find_sub terminator (inbox (inner k)) = Some i -> Z.of_nat i + 4 <= kMaxHandshakeBytes -> parse_handshake (inbox (inner k)) = Some hs -> is_upgrade hs = true ->
  exists fuel w h extra, dispatcher order answer fuel k = Some (AsWebSocket (ws_emit OnClose w)) /\ on_data true true on_open_sends on_message_sends flushed (inbox (inner k)) new_conn = Some h /\
    ws_exchange (ws_log w) = ws_exchange (log h) ++ extra /\ outbox (inner (ws_sock w)) = outbox (inner k) ++ ws_written (ws_log w) /\ (extra = [] \/ cut_short h extra).
Proof.
  intros Hi Hmax Hp Hu. set (x := inbox (inner k)) in *. destruct (read_ends weather Hset Hsound kSniffRead k ltac:(unfold kSniffRead; lia)) as (bs & k1 & [f1 E1] & Ki & Ko & _ & Ke). fold x in Ki, Ke.
  assert (Hne : bs <> []). { intros ->. rewrite (Ke eq_refl) in Hi. by vm_compute in Hi. }
  destruct (sniff_loops x hs i Hi Hmax Hp (S (length (inbox (inner k1)))) bs k1 ltac:(lia) (eq_sym Ki)) as (buf & k2 & L2 & Hx & Hf & Ho). destruct (loops_end _ _ _ L2) as [f2 E2].
  destruct (find_sub_app _ _ (inbox (inner k2)) _ Hf) as [_ Hlen]. change (length terminator) with 4%nat in Hlen. set (leftover := drop (i + 4) buf).
  set (h0 := relocate (drop (i + 4) x) ReadingHeader false None (set_buffer x new_conn)).
  destruct (serve_websocket_ends hs leftover k2 h0) as (w & n & h' & extra & [f3 E3] & El & He & Hout & Hex); try done; [cbn [h0 relocate buffer set_buffer]; rewrite <- Hx; subst leftover; by rewrite drop_app_le|].
  destruct (on_data_inv true true on_open_sends on_message_sends flushed x new_conn (ws_new_conn_inv true)) as (h & Eh & _).
  assert (Ehh : h = h').
  { assert (El' : loop r_step (S n) (set_buffer x new_conn) = Some h').
    { cbn [loop]. unfold process_step at 1. cbn [closing handed_off phase new_conn set_buffer orb]. unfold try_sniff. cbn [buffer set_buffer]. rewrite Hi, Hp, Hu. rewrite complete_eq, <- greet_neutral. exact El. }
    unfold on_data, process in Eh. cbn [receive http_input new_conn closing handed_off set_buffer orb buffer app] in Eh. pose proof (loop_mono _ _ (Nat.max (S n) (S (weight (receive x new_conn)))) _ _ El' ltac:(lia)) as F1.
    pose proof (loop_mono _ _ (Nat.max (S n) (S (weight (receive x new_conn)))) _ _ Eh ltac:(apply Nat.le_max_r)) as F2. change (receive x new_conn) with (set_buffer x new_conn) in *. congruence. }
  subst h'. exists (Nat.max f1 (Nat.max f2 f3)), w, h, extra. split; [|split; [done|split; [done|split; [congruence|done]]]].
  unfold coroutine_dispatcher. rewrite E1 by lia. cbn [mbind option_bind]. destruct bs as [|b bs0]; [done|]. rewrite E2 by lia. cbn [mbind option_bind sn_handshake sn_buffer sn_sock]. rewrite Hu, Hf. fold leftover. by rewrite E3 by lia.
Qed.

(** Any other connection is an HTTP/1.1 connection: nothing of what the sniffing
    read is lost. *)
Theorem ws_coroutine_http order answer k : inbox (inner k) <> [] -> #(inbox (inner k)) < kMaxRequestBytes -> (forall req, parse_handshake (inbox (inner k)) = Some req -> is_upgrade req = false) ->
  exists fuel st h, dispatcher order answer fuel k = Some (AsHttp st) /\ Http1Server.on_data order (sync answer) never (inbox (inner k)) Http1Server.new_conn = Some h /\
    exchange (co_log st) = exchange (Http1Server.log h) /\ outbox (inner (sock st)) = outbox (inner k) ++ written (Http1Server.log h) /\ co_active st = 0.
Proof.
  intros Hx Hl Hu. destruct (read_ends weather Hset Hsound kSniffRead k ltac:(unfold kSniffRead; lia)) as (bs & k1 & [f1 E1] & Ki & Ko & _ & Ke). assert (Hne : bs <> []) by (intros ->; by rewrite (Ke eq_refl) in Hx).
  destruct (sniff_ends _ Hu (S (length (inbox (inner k1)))) bs k1 ltac:(lia) (eq_sym Ki)) as (s & L2 & Hs & Hlen & Ho & Hh). destruct (loops_end _ _ _ L2) as [f2 E2].
  assert (Hne2 : sn_buffer s <> []). { intros E. rewrite E in Hlen. destruct bs; [done|cbn in Hlen; lia]. }
  destruct (keep_alive_ends weather order answer Hset Hsound (sn_buffer s) (sn_sock s) Hne2) as (st & h & [f3 E3] & K1 & K2 & K3 & K4); [rewrite <- Hs, length_app in Hl; lia|].
  exists (Nat.max f1 (Nat.max f2 f3)), st, h. rewrite Hs in K1. split; [|split; [done|split; [done|split; [congruence|done]]]].
  unfold coroutine_dispatcher. rewrite E1 by lia. cbn [mbind option_bind]. destruct bs as [|b bs0]; [done|]. rewrite E2 by lia. cbn [mbind option_bind]. rewrite E3 by lia. cbn [fmap option_fmap option_map]. destruct (sn_handshake s) as [req|]; [by rewrite Hh|done].
Qed.
End Equivalence.

(** ** Example *)

Lemma fickle_settles i : settles fickle i.
Proof. exists (S (2 * i)). split; [lia|]. unfold fickle. rewrite Nat.even_succ, Nat.odd_mul, Nat.odd_2. done. Qed.

Lemma fickle_sound i : fickle i <> Broken.
Proof. unfold fickle. by destruct (Nat.even i). Qed.

(** An upgrade, a masked ping, and the first byte of another frame. *)
Definition ping_after_upgrade : bytes := sample_upgrade ++ [0x89; 0x81; 0; 0; 0; 0; 7] ++ [0x81].

Lemma ws_coroutine_equivalent_witness : exists fuel w h, let k := mkSock (mkKernel ping_after_upgrade [] 0) [] in
  coroutine_dispatcher (socket_io := descriptor_io fickle) (fun l => l) (fun es r => Some (hello es r)) true true no_sends (fun _ _ => []) (fun _ => []) fuel k = Some (AsWebSocket (ws_emit OnClose w)) /\
  on_data true true no_sends (fun _ _ => []) flushed ping_after_upgrade new_conn = Some h /\ ws_exchange (ws_log w) = ws_exchange (log h) /\ (length (ws_exchange (log h)) = 3)%nat /\
  last (log h) = Some (Wrote [0x8A; 1; 7]).
Proof.
  assert (Hi : find_sub terminator ping_after_upgrade = Some (length sample_upgrade - 4)%nat) by (vm_compute; reflexivity).
  destruct (parse_handshake ping_after_upgrade) as [hs|] eqn:Ep; [|by vm_compute in Ep]. assert (Hu : is_upgrade hs = true) by (vm_compute in Ep; injection Ep as <-; vm_compute; reflexivity).
  destruct (ws_coroutine_equivalent fickle fickle_settles fickle_sound no_sends (fun _ _ => [])) with (order := fun l : list (bytes * bytes) => l) (answer := hello) (k := mkSock (mkKernel ping_after_upgrade [] 0) []) (hs := hs) (i := (length sample_upgrade - 4)%nat)
    as (fuel & w & h & extra & E1 & E2 & E3 & _ & E4); [intros es; constructor|intros es m; constructor|exact Hi|vm_compute; discriminate|exact Ep|exact Hu|].
  cbn [inner inbox] in E2. assert (Hh : exists h', on_data true true no_sends (fun _ _ => []) flushed ping_after_upgrade new_conn = Some h' /\ length (buffer h') = 1%nat /\ (length (ws_exchange (log h')) = 3)%nat /\ last (log h') = Some (Wrote [0x8A; 1; 7])).
  { eexists. split; [vm_compute; reflexivity|]. vm_compute. done. }
  destruct Hh as (h' & F1 & F2 & F3 & F4). rewrite F1 in E2. injection E2 as <-. exists fuel, w, h'. cbv zeta. split; [exact E1|]. split; [exact F1|]. split; [|by split].
  rewrite E3. destruct E4 as [-> |(_ & _ & Hb & _)]; [by rewrite app_nil_r|]. exfalso. rewrite F2 in Hb. lia.
Defined.

(** ** Defects *)

(** A client that sends an empty line before its request (RFC 9112, 2.2) is not
    answered: no continuation makes the sniffing recognise a request, so it
    reads until 8192 bytes are there or the client gives up, where the
    reactor hands the connection over as soon as the head is complete. *)
Theorem empty_line_stalls_sniffing x : parse_handshake (CRLF ++ x) = None.
Proof.
  unfold parse_handshake. destruct (find_sub terminator (CRLF ++ x)) as [e|]; [|done]. cbn [mbind option_bind]. destruct e as [|[|e]]; [done|done|].
  change (take (S (S e)) (CRLF ++ x)) with (CR :: LF :: take e x). done.
Qed.
