(* ===== verification/WsGate.v ===== *)
(** * The write gate

    [WriteGate] and [Connection::send] of
    example/http-websocket/src/dispatcher_coroutine.cpp: the coroutine of a
    connection and any number of the application's coroutines, on any threads,
    send frames on one socket.  The gate is a mutex whose waiters are suspended
    coroutines; a release hands it to the first of them, which runs on when the
    scheduler gets to it.  The steps of the coroutines interleave freely; the
    socket takes a write in pieces and may break. *)
From S2P Require Import Prelude Utils WsFrame WsCoroutine.

Local Open Scope Z_scope.

(** ** The gate *)

Record WriteGate := mkGate { held : bool; waiters : list nat }.

(** [AcquireAwaiter::await_suspend], under the lock: whether the coroutine is
    suspended. *)
Definition acquire (handle : nat) (g : WriteGate) : bool * WriteGate :=
  if held g then (true, mkGate (held g) (waiters g ++ [handle])) else (false, mkGate true (waiters g)).

(** The part of [release] under the lock: the next owner. *)
Definition release (g : WriteGate) : option nat * WriteGate :=
  match waiters g with
  | next :: rest => (Some next, mkGate (held g) rest)
  | [] => (None, mkGate false [])
  end.

(** ** Senders *)

(** Where a coroutine is in [Connection::send]: not in it, before
    [co_await acquire()], suspended there, in [async_write] with bytes left,
    before [release], and between the lock of [release] and [schedule]. *)
Inductive Pc := Idle | Acquiring (buf : bytes) | Waiting (buf : bytes) | Writing (rest : bytes) | Releasing | HandingOver (next : nat).

Global Instance Pc_eq_dec : EqDecision Pc.
Proof. solve_decision. Defined.

(** [ready] is the scheduler's queue; [acquired] is the history of the calls of
    [acquire]. *)
Record Senders := mkSenders { gate : WriteGate; procs : list Pc; ready : list nat; wire : bytes; broken : bool; acquired : list (nat * bytes) }.

Definition init (n : nat) : Senders := mkSenders (mkGate false []) (replicate n Idle) [] [] false [].

Definition goto (i : nat) (p : Pc) (s : Senders) : Senders := mkSenders (gate s) (<[i := p]> (procs s)) (ready s) (wire s) (broken s) (acquired s).

(** One step of coroutine [i]; [n] is how many bytes the socket takes, 0 when it
    breaks. *)
Inductive Label := Send (i : nat) (op : Z) (payload : bytes) (fin : bool) | Run (i n : nat).

Definition run_acquire (i : nat) (buf : bytes) (s : Senders) : Senders :=
  let '(suspended, g) := acquire i (gate s) in
  let s := mkSenders g (procs s) (ready s) (wire s) (broken s) (acquired s ++ [(i, buf)]) in
  goto i (if suspended then Waiting buf else Writing buf) s.

Definition run_write (i n : nat) (rest : bytes) (s : Senders) : Senders :=
  match rest with
  | [] => goto i Releasing s
  | _ =>
      if broken s || (n =? 0)%nat then goto i Releasing (mkSenders (gate s) (procs s) (ready s) (wire s) true (acquired s))
      else goto i (Writing (drop n rest)) (mkSenders (gate s) (procs s) (ready s) (wire s ++ take n rest) (broken s) (acquired s))
  end.

Definition run_release (i : nat) (s : Senders) : Senders :=
  let '(next, g) := release (gate s) in
  let s := mkSenders g (procs s) (ready s) (wire s) (broken s) (acquired s) in
  goto i (match next with Some j => HandingOver j | None => Idle end) s.

Definition run_schedule (i next : nat) (s : Senders) : Senders :=
  goto i Idle (mkSenders (gate s) (procs s) (ready s ++ [next]) (wire s) (broken s) (acquired s)).

(** A scheduled coroutine is resumed. *)
Fixpoint take_ready (i : nat) (l : list nat) : option (list nat) :=
  match l with [] => None | j :: l => if (j =? i)%nat then Some l else cons j <$> take_ready i l end.

Definition run_resume (i : nat) (buf : bytes) (s : Senders) : option Senders :=
  rest ← take_ready i (ready s); Some (goto i (Writing buf) (mkSenders (gate s) (procs s) rest (wire s) (broken s) (acquired s))).

Definition step (s : Senders) (l : Label) : option Senders :=
  match l with
  | Send i op payload fin => if decide (procs s !! i = Some Idle) then Some (goto i (Acquiring (build_frame op payload fin)) s) else None
  | Run i n =>
      match procs s !! i with
      | None | Some Idle => None
      | Some (Acquiring buf) => Some (run_acquire i buf s)
      | Some (Waiting buf) => run_resume i buf s
      | Some (Writing rest) => Some (run_write i n rest s)
      | Some Releasing => Some (run_release i s)
      | Some (HandingOver next) => Some (run_schedule i next s)
      end
  end.

Inductive reachable (n : nat) : Senders -> Prop :=
  | reach_init : reachable n (init n)
  | reach_step s s' l : reachable n s -> step s l = Some s' -> reachable n s'.

(** ** Who holds the gate *)

Definition frames (es : list (nat * bytes)) : bytes := concat es.*2.

(** The state of the send that holds the gate: [buf] by coroutine [i], with
    [w] on the wire from it. *)
Inductive owner (s : Senders) (i : nat) (buf w : bytes) : Prop :=
  | owner_writing rest : procs s !! i = Some (Writing rest) -> buf = w ++ rest -> ready s = [] -> (forall j next, procs s !! j <> Some (HandingOver next)) -> owner s i buf w
  | owner_releasing : procs s !! i = Some Releasing -> (broken s = false -> w = buf) -> ready s = [] -> (forall j next, procs s !! j <> Some (HandingOver next)) -> owner s i buf w
  | owner_ready : procs s !! i = Some (Waiting buf) -> w = [] -> ready s = [i] -> (forall j next, procs s !! j <> Some (HandingOver next)) -> owner s i buf w
  | owner_next j : procs s !! i = Some (Waiting buf) -> w = [] -> ready s = [] -> procs s !! j = Some (HandingOver i) -> (forall j' next, procs s !! j' = Some (HandingOver next) -> j' = j) -> owner s i buf w.

(** Whether a coroutine has called [acquire] and not yet released. *)
Definition engaged (p : Pc) : Prop := match p with Waiting _ | Writing _ | Releasing => True | _ => False end.

(** [done] are the sends that are over, [pend] the one that holds the gate and
    those that wait behind it, in the order of their calls. *)
Record gate_inv (s : Senders) (over pend : list (nat * bytes)) : Prop := {
  gi_order : acquired s = over ++ pend;
  gi_held : held (gate s) = bool_decide (pend <> []);
  gi_waiters : waiters (gate s) = (tail pend).*1;
  gi_waiting : Forall (fun e => procs s !! e.1 = Some (Waiting e.2)) (tail pend);
  gi_distinct : NoDup pend.*1;
  gi_engaged : forall i p, procs s !! i = Some p -> engaged p -> i ∈ pend.*1;
  gi_wire : exists w, (broken s = false -> wire s = frames over ++ w) /\ wire s `prefix_of` frames (over ++ pend) /\
    match pend with [] => w = [] /\ ready s = [] /\ (forall j next, procs s !! j <> Some (HandingOver next)) | (i, buf) :: _ => owner s i buf w end }.

Lemma goto_lookup i p q s j : procs s !! i = Some q -> procs (goto i p s) !! j = if decide (j = i) then Some p else procs s !! j.
Proof. intros H. cbn. destruct (decide (j = i)) as [->|]; [apply list_lookup_insert_eq; by eapply lookup_lt_Some|by apply list_lookup_insert_ne]. Qed.

Lemma frames_app a b : frames (a ++ b) = frames a ++ frames b.
Proof. unfold frames. by rewrite fmap_app, concat_app. Qed.

(** A step of another coroutine that neither begins nor ends a hand-over leaves
    the owner as it is. *)
Lemma owner_frame s s' k q i buf w : (forall j, procs s' !! j = if decide (j = k) then Some q else procs s !! j) -> k <> i -> (forall next, q <> HandingOver next) -> (forall next, procs s !! k <> Some (HandingOver next)) ->
  ready s' = ready s -> broken s' = broken s -> owner s i buf w -> owner s' i buf w.
Proof.
  intros Hp Hk Hq Hold Hr Hb Ho. assert (Hi : procs s' !! i = procs s !! i) by (rewrite Hp; by destruct (decide (i = k))). assert (Hn : forall j next, procs s' !! j = Some (HandingOver next) -> procs s !! j = Some (HandingOver next)) by (intros j next; rewrite Hp; destruct (decide (j = k)); [intros [= E]; by apply Hq in E|done]).
  destruct Ho as [rest H1 H2 H3 H4|H1 H2 H3 H4|H1 H2 H3 H4|j H1 H2 H3 H4 H5].
  - eapply owner_writing; [by rewrite Hi|done|by rewrite Hr|]. intros j next E. by apply Hn, H4 in E.
  - apply owner_releasing; [by rewrite Hi|by rewrite Hb|by rewrite Hr|]. intros j next E. by apply Hn, H4 in E.
  - apply owner_ready; [by rewrite Hi|done|by rewrite Hr|]. intros j next E. by apply Hn, H4 in E.
  - apply (owner_next _ _ _ _ j); [by rewrite Hi|done|by rewrite Hr| |intros j' next E; by eapply H5, Hn]. rewrite Hp. destruct (decide (j = k)) as [->|]; [|done]. by apply Hold in H4.
Qed.

(** The pending sends are the engaged coroutines. *)
Lemma pend_engaged s over pend i buf : gate_inv s over pend -> (i, buf) ∈ pend -> exists p, procs s !! i = Some p /\ engaged p /\ (p = Waiting buf \/ exists t, pend = (i, buf) :: t).
Proof.
  intros [_ _ _ Hw _ _ (w & _ & _ & Ho)] Hin. destruct pend as [|[j b] t]; [by apply elem_of_nil in Hin|]. apply elem_of_cons in Hin as [[= -> ->]|Hin].
  - destruct Ho; eexists; (split; [done|]); (split; [done|]); right; by exists t.
  - cbn in Hw. rewrite Forall_forall in Hw. specialize (Hw _ Hin). cbn in Hw. exists (Waiting buf). split; [done|]. split; [done|by left].
Qed.

Lemma not_pending s over pend i p : gate_inv s over pend -> procs s !! i = Some p -> ~ engaged p -> i ∉ pend.*1.
Proof. intros Hi Hp Hn Hin. apply list_elem_of_fmap in Hin as ([j b] & -> & Hin). destruct (pend_engaged _ _ _ _ _ Hi Hin) as (p' & H1 & H2 & _). cbn in Hp. congruence. Qed.

(** A coroutine that writes or releases holds the gate. *)
Lemma holder_is_head s over pend i p : gate_inv s over pend -> procs s !! i = Some p -> engaged p -> (forall buf, p <> Waiting buf) -> exists buf t, pend = (i, buf) :: t.
Proof.
  intros Hi Hp He Hw. pose proof (gi_engaged _ _ _ Hi i p Hp He) as Hin. apply list_elem_of_fmap in Hin as ([j b] & -> & Hin). destruct (pend_engaged _ _ _ _ _ Hi Hin) as (p' & H1 & _ & [-> |[t ->]]); [|by eauto]. cbn in Hp. assert (p = Waiting b) by congruence. by destruct (Hw b).
Qed.

Lemma waiting_frame (s s' : Senders) k q (es : list (nat * bytes)) : (forall j, procs s' !! j = if decide (j = k) then Some q else procs s !! j) -> k ∉ es.*1 ->
  Forall (fun e => procs s !! e.1 = Some (Waiting e.2)) es -> Forall (fun e => procs s' !! e.1 = Some (Waiting e.2)) es.
Proof.
  intros Hp Hk Hw. rewrite Forall_forall in *. intros e He. rewrite Hp. destruct (decide (e.1 = k)) as [<-|]; [|by apply Hw]. destruct Hk. by apply list_elem_of_fmap_2.
Qed.

(** ** The steps keep the invariant *)

Lemma send_inv s over pend i buf : gate_inv s over pend -> procs s !! i = Some Idle -> gate_inv (goto i (Acquiring buf) s) over pend.
Proof.
  intros Hi Hp. pose proof (fun j => goto_lookup i (Acquiring buf) Idle s j Hp) as Hl. pose proof (not_pending _ _ _ _ _ Hi Hp id) as Hn. destruct Hi as [H1 H2 H3 H4 H5 H6 (w & H7 & H8 & H9)]. split; try done.
  - eapply waiting_frame; [exact Hl| |done]. destruct pend; [done|]. cbn in *. set_solver.
  - intros j p. rewrite Hl. destruct (decide (j = i)); [by intros [= <-]|apply H6].
  - exists w. split; [done|]. split; [done|]. destruct pend as [|[h b] t].
    + destruct H9 as (K1 & K2 & K3). split; [done|]. split; [done|]. intros j next. rewrite Hl. destruct (decide (j = i)); [done|apply K3].
    + eapply (owner_frame s _ i); [exact Hl| |done|by intros next; rewrite Hp|done|done|done]. cbn in Hn. set_solver.
Qed.

Lemma acquire_inv s over pend i buf : gate_inv s over pend -> procs s !! i = Some (Acquiring buf) -> gate_inv (run_acquire i buf s) over (pend ++ [(i, buf)]).
Proof.
  intros Hi Hp. pose proof (not_pending _ _ _ _ _ Hi Hp id) as Hn. pose proof Hi as [H1 H2 H3 H4 H5 H6 (w & H7 & H8 & H9)]. unfold run_acquire, acquire. rewrite H2. destruct pend as [|[h b] t].
  - rewrite bool_decide_eq_false_2 by (intros H; by apply H). set (s1 := mkSenders _ _ _ _ _ _). pose proof (fun j => goto_lookup i (Writing buf) (Acquiring buf) s1 j Hp) as Hl. destruct H9 as (-> & K2 & K3). rewrite app_nil_r in *. split; cbn [acquired goto s1 gate held waiters app tail fmap list_fmap].
    + by rewrite H1.
    + done.
    + by rewrite H3.
    + constructor.
    + apply NoDup_singleton.
    + intros j p. rewrite Hl. destruct (decide (j = i)) as [->|]; [intros _ _; apply elem_of_cons; by left|]. intros Hj He. pose proof (H6 j p Hj He) as Hx. by apply elem_of_nil in Hx.
    + exists []. rewrite app_nil_r. split; [done|]. rewrite frames_app. split; [by apply prefix_app_r|]. eapply owner_writing; [rewrite Hl; by rewrite decide_True|done|done|]. intros j next. rewrite Hl. destruct (decide (j = i)); [done|apply K3].
  - rewrite bool_decide_eq_true_2 by done. set (s1 := mkSenders _ _ _ _ _ _). pose proof (fun j => goto_lookup i (Waiting buf) (Acquiring buf) s1 j Hp) as Hl. cbn [fmap list_fmap fst] in Hn. apply not_elem_of_cons in Hn as [Hn1 Hn2]. split; cbn [acquired goto s1 gate held waiters app tail].
    + by rewrite H1, <- app_assoc.
    + symmetry. by apply bool_decide_eq_true_2.
    + by rewrite H3, fmap_app.
    + apply Forall_app. split; [by eapply (waiting_frame s); [exact Hl|..]|]. constructor; [|constructor]. cbn [fst snd]. rewrite Hl. by rewrite decide_True.
    + change ((h, b) :: t ++ [(i, buf)]) with (((h, b) :: t) ++ [(i, buf)]). rewrite fmap_app. apply NoDup_app. split; [done|]. split; [|apply NoDup_singleton]. intros j Hj. cbn. rewrite list_elem_of_singleton. intros ->. apply elem_of_cons in Hj as [->|?]; done.
    + intros j p. rewrite Hl. change ((h, b) :: t ++ [(i, buf)]) with (((h, b) :: t) ++ [(i, buf)]). rewrite fmap_app. destruct (decide (j = i)) as [->|]; [intros _ _; apply elem_of_app; right; apply elem_of_cons; by left|]. intros Hj He. apply elem_of_app. left. by apply (H6 j p).
    + exists w. split; [done|]. split; [|eapply (owner_frame s _ i); [exact Hl|congruence|done|by intros next; rewrite Hp|done|done|done]]. change ((h, b) :: t ++ [(i, buf)]) with (((h, b) :: t) ++ [(i, buf)]). rewrite app_assoc, frames_app. by apply prefix_app_r.
Qed.

(** The steps of the coroutine that holds the gate, by what changes. *)
Lemma owner_step s s' over i buf t p w : gate_inv s over ((i, buf) :: t) -> gate s' = gate s -> acquired s' = acquired s -> (forall j, procs s' !! j = if decide (j = i) then Some p else procs s !! j) ->
  engaged p -> (broken s' = false -> wire s' = frames over ++ w) -> wire s' `prefix_of` frames (over ++ (i, buf) :: t) -> owner s' i buf w -> gate_inv s' over ((i, buf) :: t).
Proof.
  intros [H1 H2 H3 H4 H5 H6 _] Hg Ha Hl He Hw Hpre Ho. cbn [fmap list_fmap fst] in H5. apply NoDup_cons in H5 as [H5 H5']. split; try (rewrite ?Hg, ?Ha; done).
  - by eapply waiting_frame.
  - by apply NoDup_cons.
  - intros j q. rewrite Hl. destruct (decide (j = i)) as [->|]; [intros _ _; apply elem_of_cons; by left|apply H6].
  - exists w. done.
Qed.

Lemma wire_prefix over i buf t w rest : buf = w ++ rest -> (frames over ++ w) `prefix_of` frames (over ++ (i, buf) :: t).
Proof. intros ->. rewrite frames_app. apply prefix_app. unfold frames. cbn. rewrite <- app_assoc. by apply prefix_app_r. Qed.

Lemma gate_write_inv s over pend i n rest : gate_inv s over pend -> procs s !! i = Some (Writing rest) -> gate_inv (run_write i n rest s) over pend.
Proof.
  intros Hi Hp. destruct (holder_is_head _ _ _ _ _ Hi Hp I ltac:(done)) as (buf & t & ->). pose proof (gi_wire _ _ _ Hi) as (w & W1 & W2 & Ho).
  assert (Hw : buf = w ++ rest /\ ready s = [] /\ forall j next, procs s !! j <> Some (HandingOver next)) by (destruct Ho; simplify_eq; try done; congruence). destruct Hw as (Hb & Hr & Hn).
  assert (Hh : forall s' p, (forall j, procs s' !! j = if decide (j = i) then Some p else procs s !! j) -> (forall next, p <> HandingOver next) -> forall j next, procs s' !! j <> Some (HandingOver next)).
  { intros s' p Hl Hne j next. rewrite Hl. destruct (decide (j = i)); [intros [= E]; by destruct (Hne next)|apply Hn]. }
  unfold run_write. destruct rest as [|b0 rest0] eqn:Er; [|rewrite <- Er in *; destruct (broken s || (n =? 0)%nat) eqn:Eb].
  - pose proof (fun j => goto_lookup i Releasing (Writing []) s j Hp) as Hl. eapply (owner_step s _ over i buf t Releasing w); try done. rewrite app_nil_r in Hb. apply owner_releasing; [rewrite Hl; by rewrite decide_True|done|done|by eapply Hh].
  - set (s1 := mkSenders _ _ _ _ _ _). pose proof (fun j => goto_lookup i Releasing (Writing rest) s1 j Hp) as Hl. eapply (owner_step s _ over i buf t Releasing w); try done. apply owner_releasing; [rewrite Hl; by rewrite decide_True|done|done|by eapply Hh].
  - apply orb_false_iff in Eb as [Eb1 _]. set (s1 := mkSenders _ _ _ _ _ _). pose proof (fun j => goto_lookup i (Writing (drop n rest)) (Writing rest) s1 j Hp) as Hl. specialize (W1 Eb1). assert (Hb' : buf = (w ++ take n rest) ++ drop n rest) by (by rewrite <- app_assoc, take_drop).
    eapply (owner_step s _ over i buf t (Writing (drop n rest)) (w ++ take n rest)); try done; cbn [wire goto s1].
    + intros _. by rewrite W1, app_assoc.
    + rewrite W1, <- app_assoc. by eapply wire_prefix.
    + eapply owner_writing; [rewrite Hl; by rewrite decide_True|done|done|by eapply Hh].
Qed.

Lemma gate_release_inv s over pend i : gate_inv s over pend -> procs s !! i = Some Releasing -> exists over' pend', gate_inv (run_release i s) over' pend'.
Proof.
  intros Hi Hp. destruct (holder_is_head _ _ _ _ _ Hi Hp I ltac:(done)) as (buf & t & ->). destruct Hi as [H1 H2 H3 H4 H5 H6 (w & W1 & W2 & Ho)].
  assert (Hw : (broken s = false -> w = buf) /\ ready s = [] /\ forall j next, procs s !! j <> Some (HandingOver next)) by (destruct Ho; simplify_eq; try done; congruence). destruct Hw as (Hb & Hr & Hn). cbn [tail] in *. cbn [fmap list_fmap fst] in H5. apply NoDup_cons in H5 as [H5 H5'].
  assert (Hw : broken s = false -> wire s = frames (over ++ [(i, buf)]) ++ []). { intros E. rewrite (W1 E), (Hb E), frames_app, app_nil_r. unfold frames. cbn. by rewrite app_nil_r. }
  exists (over ++ [(i, buf)]), t. unfold run_release, release. rewrite H3. destruct t as [|[j b] t]; cbn [fmap list_fmap fst].
  - set (s1 := mkSenders _ _ _ _ _ _). pose proof (fun j => goto_lookup i Idle Releasing s1 j Hp) as Hl. split; cbn [acquired goto s1 gate held waiters]; try done; [by rewrite app_nil_r| |].
    + intros k p. rewrite Hl. destruct (decide (k = i)); [by intros [= <-]|]. intros Hk He. specialize (H6 k p Hk He). cbn in H6. by apply elem_of_cons in H6 as [?|?].
    + exists []. split; [done|]. split; [by rewrite <- app_assoc|]. split; [done|]. split; [done|]. intros k next. rewrite Hl. destruct (decide (k = i)); [done|apply Hn].
  - set (s1 := mkSenders _ _ _ _ _ _). pose proof (fun k => goto_lookup i (HandingOver j) Releasing s1 k Hp) as Hl. cbn [fmap list_fmap fst] in H5. pose proof H5 as Hij. apply not_elem_of_cons in Hij as [Hij Hit]. apply Forall_cons in H4 as [Hj H4]. cbn [fst snd] in Hj. split; cbn [acquired goto s1 gate held waiters tail]; try done.
    + by rewrite H1, <- app_assoc.
    + by eapply (waiting_frame s); [exact Hl|..].
    + intros k p. rewrite Hl. destruct (decide (k = i)); [by intros [= <-]|]. intros Hk He. specialize (H6 k p Hk He). cbn [fmap list_fmap fst] in H6. apply elem_of_cons in H6 as [?|?]; done.
    + exists []. split; [done|]. split; [by rewrite <- app_assoc|]. apply (owner_next _ _ _ _ i); try done; [rewrite Hl; by rewrite decide_False|rewrite Hl; by rewrite decide_True|]. intros k next. rewrite Hl. destruct (decide (k = i)); [done|]. intros Hk. by apply Hn in Hk.
Qed.

Lemma schedule_inv s over pend i next : gate_inv s over pend -> procs s !! i = Some (HandingOver next) -> gate_inv (run_schedule i next s) over pend.
Proof.
  intros Hi Hp. pose proof (not_pending _ _ _ _ _ Hi Hp id) as Hn. destruct Hi as [H1 H2 H3 H4 H5 H6 (w & W1 & W2 & Ho)]. unfold run_schedule. set (s1 := mkSenders _ _ _ _ _ _). pose proof (fun j => goto_lookup i Idle (HandingOver next) s1 j Hp) as Hl. split; try done.
  - eapply (waiting_frame s); [exact Hl| |done]. destruct pend; [done|]. cbn in *. set_solver.
  - intros k p. rewrite Hl. destruct (decide (k = i)); [by intros [= <-]|apply H6].
  - exists w. split; [done|]. split; [done|]. destruct pend as [|[h b] t]; [destruct Ho as (_ & _ & Ho); by apply Ho in Hp|].
    destruct Ho as [rest K1 K2 K3 K4|K1 K2 K3 K4|K1 K2 K3 K4|j K1 K2 K3 K4 K5]; [by apply K4 in Hp..|]. assert (i = j) by (by eapply K5). subst j. rewrite Hp in K4. injection K4 as ->.
    cbn [fmap list_fmap fst] in Hn. apply not_elem_of_cons in Hn as [Hn _]. apply owner_ready; [rewrite Hl; by rewrite decide_False|done|cbn; by rewrite K3|]. intros k nx. rewrite Hl. destruct (decide (k = i)); [done|]. intros Hk. by destruct (K5 k nx Hk).
Qed.

Lemma resume_inv s s' over pend i buf : gate_inv s over pend -> procs s !! i = Some (Waiting buf) -> run_resume i buf s = Some s' -> gate_inv s' over pend.
Proof.
  intros Hi Hp E. unfold run_resume in E. apply bind_Some in E as (l & E & [= <-]). pose proof Hi as [H1 H2 H3 H4 H5 H6 (w & W1 & W2 & Ho)].
  assert (Hr : exists h b t, pend = (h, b) :: t /\ ready s = [h] /\ procs s !! h = Some (Waiting b) /\ w = [] /\ forall j next, procs s !! j <> Some (HandingOver next)).
  { destruct pend as [|[h b] t]; [destruct Ho as (_ & Hr & _); by rewrite Hr in E|]. exists h, b, t. split; [done|]. destruct Ho as [rest K1 K2 K3 K4|K1 K2 K3 K4|K1 K2 K3 K4|j K1 K2 K3 K4 K5]; try (by rewrite K3 in E). }
  destruct Hr as (h & b & t & -> & Hr & Hh & -> & Hn). rewrite Hr in E. cbn in E. destruct (Nat.eqb_spec h i) as [->|]; [|done]. injection E as <-. rewrite Hp in Hh. injection Hh as <-.
  set (s1 := mkSenders _ _ _ _ _ _). pose proof (fun j => goto_lookup i (Writing buf) (Waiting buf) s1 j Hp) as Hl. eapply (owner_step s _ over i buf t (Writing buf) []); try done. eapply owner_writing; [rewrite Hl; by rewrite decide_True|done|done|]. intros j next. rewrite Hl. destruct (decide (j = i)); [done|apply Hn].
Qed.

Lemma step_inv s s' l over pend : gate_inv s over pend -> step s l = Some s' -> exists over' pend', gate_inv s' over' pend'.
Proof.
  intros Hi E. destruct l as [i op payload fin|i n]; cbn [step] in E.
  - destruct (decide _) as [Hp|]; [|done]. injection E as <-. eexists _, _. by eapply send_inv.
  - destruct (procs s !! i) as [[|buf|buf|rest| |next]|] eqn:Hp; [done|..|done]; try injection E as <-.
    + eexists _, _. by eapply acquire_inv.
    + eexists _, _. by eapply resume_inv.
    + eexists _, _. by eapply gate_write_inv.
    + by eapply gate_release_inv.
    + eexists _, _. by eapply schedule_inv.
Qed.

Lemma reachable_inv n s : reachable n s -> exists over pend, gate_inv s over pend.
Proof.
  induction 1 as [|s s' l _ (over & pend & IH) E]; [|by eapply step_inv]. exists [], []. assert (Hidle : forall i p, replicate n Idle !! i = Some p -> p = Idle) by (intros i p H; by apply lookup_replicate in H as [-> _]). split; try done.
  - constructor.
  - intros i p Hp. apply Hidle in Hp as ->. by intros [].
  - exists []. split_and!; try done. intros j next Hp. by apply Hidle in Hp.
Qed.

(** ** Progress *)

Definition pc_work (p : Pc) : nat :=
  match p with
  | Idle => 0
  | Acquiring buf => length buf + 6
  | Waiting buf => length buf + 5
  | Writing rest => length rest + 4
  | Releasing => 3
  | HandingOver _ => 2
  end%nat.

(** The steps left before every send is over. *)
Definition work (s : Senders) : nat := (sum_list (pc_work <$> procs s) + length (ready s))%nat.

Lemma sum_work_insert l i p q : l !! i = Some p -> (sum_list (pc_work <$> <[i := q]> l) + pc_work p = sum_list (pc_work <$> l) + pc_work q)%nat.
Proof.
  revert i. induction l as [|x l IH]; intros i H; [done|]. destruct i as [|i]; cbn in *; [injection H as ->; lia|]. rewrite <- !Nat.add_assoc. f_equal. exact (IH i H).
Qed.

Lemma goto_work i p q s : procs s !! i = Some p -> (work (goto i q s) + pc_work p = work s + pc_work q)%nat.
Proof. intros H. unfold work, goto. cbn [procs ready]. pose proof (sum_work_insert (procs s) i p q H). lia. Qed.

Lemma take_ready_length i l l' : take_ready i l = Some l' -> length l = S (length l').
Proof.
  revert l'. induction l as [|j l IH]; intros l' H; [done|]. cbn in H. destruct (j =? i)%nat; [by injection H as ->|]. destruct (take_ready i l) as [l0|]; [|done]. injection H as <-. cbn. by rewrite (IH l0).
Qed.

Lemma run_work s s' i n : step s (Run i n) = Some s' -> (work s' < work s)%nat.
Proof.
  cbn [step]. intros E. destruct (procs s !! i) as [[|buf|buf|rest| |next]|] eqn:Hp; [done|..|done]; try injection E as <-.
  - unfold run_acquire. destruct (acquire i (gate s)) as [sus g]. set (s1 := mkSenders _ _ _ _ _ _). pose proof (goto_work i (Acquiring buf) (if sus then Waiting buf else Writing buf) s1 Hp) as H. change (work s1) with (work s) in H. destruct sus; cbn [pc_work] in H; lia.
  - unfold run_resume in E. apply bind_Some in E as (l & E & [= <-]). apply take_ready_length in E. set (s1 := mkSenders _ _ _ _ _ _). pose proof (goto_work i (Waiting buf) (Writing buf) s1 Hp) as H. cbn [pc_work] in H. assert (Hs : (work s1 + 1 = work s)%nat) by (unfold work; cbn [s1 procs ready]; lia). lia.
  - unfold run_write. destruct rest as [|b0 rest0] eqn:Er; [|rewrite <- Er in *; destruct (broken s || (n =? 0)%nat) eqn:Eb].
    + pose proof (goto_work i (Writing []) Releasing s Hp) as H. cbn [pc_work length] in H. lia.
    + set (s1 := mkSenders _ _ _ _ _ _). pose proof (goto_work i (Writing rest) Releasing s1 Hp) as H. change (work s1) with (work s) in H. cbn [pc_work] in H. lia.
    + apply orb_false_iff in Eb as [_ Eb]. apply Nat.eqb_neq in Eb. set (s1 := mkSenders _ _ _ _ _ _). pose proof (goto_work i (Writing rest) (Writing (drop n rest)) s1 Hp) as H. change (work s1) with (work s) in H. cbn [pc_work] in H. rewrite length_drop in H. subst rest. cbn [length] in H. lia.
  - unfold run_release. destruct (release (gate s)) as [next g]. set (s1 := mkSenders _ _ _ _ _ _). pose proof (goto_work i Releasing (match next with Some j => HandingOver j | None => Idle end) s1 Hp) as H. change (work s1) with (work s) in H. destruct next; cbn [pc_work] in H; lia.
  - unfold run_schedule. set (s1 := mkSenders _ _ _ _ _ _). pose proof (goto_work i (HandingOver next) Idle s1 Hp) as H. cbn [pc_work] in H. assert (Hs : (work s1 = work s + 1)%nat) by (unfold work; cbn [s1 procs ready]; rewrite length_app; cbn [length]; lia). lia.
Qed.

(** When no coroutine can take a step, no send is under way. *)
Lemma stuck_idle s over pend : gate_inv s over pend -> (forall i n, step s (Run i n) = None) -> pend = [] /\ forall i p, procs s !! i = Some p -> p = Idle.
Proof.
  intros Hi Hs. assert (Hp : pend = []).
  { destruct pend as [|[h b] t]; [done|]. exfalso. destruct (gi_wire _ _ _ Hi) as (w & _ & _ & Ho). destruct Ho as [rest K1 K2 K3 K4|K1 K2 K3 K4|K1 K2 K3 K4|j K1 K2 K3 K4 K5].
    - specialize (Hs h O). cbn in Hs. by rewrite K1 in Hs.
    - specialize (Hs h O). cbn in Hs. by rewrite K1 in Hs.
    - specialize (Hs h O). cbn in Hs. rewrite K1 in Hs. unfold run_resume in Hs. rewrite K3 in Hs. cbn in Hs. by rewrite Nat.eqb_refl in Hs.
    - specialize (Hs j O). cbn in Hs. by rewrite K4 in Hs. }
  split; [done|]. intros i p H. specialize (Hs i O). cbn in Hs. rewrite H in Hs. destruct p; try done. subst pend. pose proof (gi_engaged _ _ _ Hi i _ H I) as Hx. by apply elem_of_nil in Hx.
Qed.

(** ** Properties *)

(** C20: Frames never interleave on the wire, and no sender waits for ever.  For
    any number of coroutines that send on one connection, on any threads and in
    any interleaving, the socket taking the bytes in any pieces: the wire holds
    the frames of the sends that are over, whole and in the order in which they
    asked for the gate, and then a part of the frame of the one send that holds
    it (after the socket broke, a beginning of that sequence); the others wait
    in the order of their calls; only one coroutine is ever in a write; every
    step brings the end of the pending sends nearer; and when none is possible,
    no send is under way, the gate is free and all frames have been sent. *)
Theorem gate_serialises n s : reachable n s ->
  (exists over pend w, acquired s = over ++ pend /\ waiters (gate s) = (tail pend).*1 /\ wire s `prefix_of` frames (acquired s) /\
    (broken s = false -> wire s = frames over ++ w) /\ (w = [] \/ exists i buf t rest, pend = (i, buf) :: t /\ (broken s = false -> buf = w ++ rest))) /\
  (forall i j ri rj, procs s !! i = Some (Writing ri) -> procs s !! j = Some (Writing rj) -> i = j) /\
  (forall i k s', step s (Run i k) = Some s' -> (work s' < work s)%nat) /\
  ((forall i k, step s (Run i k) = None) -> (forall i p, procs s !! i = Some p -> p = Idle) /\ held (gate s) = false /\ (broken s = false -> wire s = frames (acquired s))).
Proof.
  intros Hr. destruct (reachable_inv n s Hr) as (over & pend & Hi). pose proof Hi as [H1 H2 H3 H4 H5 H6 (w & W1 & W2 & Ho)]. split; [|split; [|split]].
  - exists over, pend, w. rewrite <- H1 in W2. split_and!; try done. destruct pend as [|[i buf] t]; [left; by destruct Ho|]. destruct Ho as [rest K1 K2 K3 K4|K1 K2 K3 K4|K1 K2 K3 K4|j K1 K2 K3 K4 K5]; [right; by exists i, buf, t, rest| |by left|by left].
    right. exists i, buf, t, []. split; [done|]. intros E. by rewrite app_nil_r, K2.
  - intros i j ri rj Hpi Hpj. destruct (holder_is_head _ _ _ _ _ Hi Hpi I ltac:(done)) as (b1 & t1 & E1). destruct (holder_is_head _ _ _ _ _ Hi Hpj I ltac:(done)) as (b2 & t2 & E2). congruence.
  - intros i k s'. apply run_work.
  - intros Hs. destruct (stuck_idle _ _ _ Hi Hs) as [-> Hidle]. split; [done|]. split; [by rewrite H2|]. intros E. rewrite (W1 E), H1. destruct Ho as [-> _]. by rewrite !app_nil_r.
Qed.

(** ** Example *)

Fixpoint run_all (ls : list Label) (s : Senders) : option Senders := match ls with [] => Some s | l :: ls => s ← step s l; run_all ls s end.

Lemma run_all_reachable n ls : forall s s', reachable n s -> run_all ls s = Some s' -> reachable n s'.
Proof. induction ls as [|l ls IH]; intros s s' Hr E; cbn in E; [by injection E as <-|]. apply bind_Some in E as (s1 & E1 & E). eapply IH; [|exact E]. by eapply reach_step. Qed.

(** The second sender asks while the first has sent one byte; it gets the gate
    by the hand-over. *)
Definition two_senders : list Label :=
  [Send 0 Text [104; 105] true; Run 0 0; Run 0 1; Send 1 Pong [] true; Run 1 0; Run 0 3; Run 0 0; Run 0 0; Run 0 0; Run 1 0; Run 1 2; Run 1 0; Run 1 0].

Lemma gate_serialises_witness : exists s, run_all two_senders (init 2) = Some s /\ wire s = [0x81; 2; 104; 105; 0x8A; 0] /\ held (gate s) = false.
Proof.
  destruct (run_all two_senders (init 2)) as [s|] eqn:E; [|by vm_compute in E]. exists s. split; [reflexivity|]. destruct (gate_serialises 2 s (run_all_reachable 2 two_senders _ s (reach_init 2) E)) as (_ & _ & _ & H).
  vm_compute in E. injection E as <-. destruct H as (_ & H2 & H3).
  - intros i k. destruct i as [|[|i]]; vm_compute; reflexivity.
  - split; [rewrite (H3 ltac:(vm_compute; reflexivity)); vm_compute; reflexivity|exact H2].
Defined.
